(* ===== verification/_CoqProject ===== *)
-Q . S2P
Prelude.v
Resources.v
FlatStorage.v
FlatMerkle.v
FlatCollect.v
FlatTheorems.v
HistoryElement.v
HistoryMap.v
U256.v
UtilTheorems.v
Rlp.v
SystemInterface.v
BootloaderErrors.v
RlpParser.v
RlpLogic.v
RlpTheorems.v
RlpHash.v
TxFormats.v
TxLogic.v
TxTheorems.v
TxRoundtrip.v
EvmStack.v
SliceVec.v
EvmConstants.v
Gas.v
Bytecode.v
EvmState.v
EvmInstructions.v
EvmRun.v
EvmFrame.v
EvmLogic.v
EvmSafety.v
EvmExec.v
EvmSemantics.v
EvmCalls.v
BootSystem.v
IoLogic.v
Hooks.v
HookTheorems.v
Runner.v
RunnerTheorems.v
AbiTx.v
AbiTheorems.v
TxSystem.v
GasHelpers.v
GasTheorems.v
Transaction.v
TxWellFormed.v
TxWp.v
TxFlow.v
FlowTheorems.v
ListTheorems.v
ExecTheorems.v
ProcessTx.v
SettleTheorems.v
L2Theorems.v
L1Theorems.v
ProcessTheorems.v
Block.v
HeaderTheorems.v
BlockTheorems.v
ExampleSystem.v
ExampleTx.v
BootWitnesses.v
TxWitnesses.v
EvmAddress.v
EvmCopies.v
EvmTheorems.v
IoCommon.v
Pubdata.v
StorageCache.v
PreimageCache.v
AccountEntry.v
AccountTheorems.v
AccountCache.v
FlatModel.v
FlatDeterminism.v
FlatAnswers.v
FlatOracle.v
FlatWitnesses.v
