(* ===== verification/Prelude.v ===== *)
(** * ADI Stack zkOS, a verification development

    The repository is the state transition function of a rollup: a bootloader
    ([basic_bootloader]) takes the transactions of a block, runs each in an
    execution environment, here the EVM interpreter ([evm_interpreter]), on top of
    a system ([basic_system], [storage_models], [system_hooks]) that keeps
    storage, accounts and events, through the interfaces of [zk_ee].  The same
    code runs forward on a 64-bit host ([forward_system]) and is proved on a
    32-bit RISC-V target ([proof_running_system]).  This development models the
    interpreter completely; below it, the parts of [zk_ee] it and the system
    stand on: resources, the map with snapshots, and the memory containers; the
    system hooks; and the bootloader: both forms of transactions, the call loop that
    turns requests into frames, the processing of a transaction with validation,
    fees, execution and refund, and the loop over a block up to its header.  Below the
    interfaces of the system it models the storage model of the rollup: the caches of
    slots, accounts and preimages over an oracle that is not trusted, the pubdata, and
    the commitment to the state that both are checked against.

    ** How Rust is modelled

    - [M S E A] (this file) is a computation on a state [S] with errors [E].  Its
      outcome is [Val], [Err], or [Fault] for what must not happen: a panic, a
      failed assertion, an unchecked access out of bounds or to uninitialised
      memory.  The state survives an error, as [&mut self] does.
    - Machine integers are [Z] with their width: [in_width], [wrap], [checked_*],
      [saturating_*], [overflowing_*].  Unchecked operators wrap.  [Usize] is the
      width of [usize], 32 or 64; all theorems hold for both unless they name one.
    - Byte slices are [list Z]; [slice] and [splice] are range reads and writes.
    - Raw pointers are locations of an explicit store (HistoryElement.v);
      uninitialised memory is [None] (EvmStack.v, SliceVec.v).
    - The third-party crate [ruint] is the class [Ruint], with its documented
      behaviour in [RuintSpec]; [ruint_ref] shows the class can be met.
    - The system is the class [System] (SystemInterface.v), one field per method
      the interpreter calls; [SystemLaws] is the contract it relies on: no panic,
      values of the stated types, no resources created, reads leave the world
      alone, snapshots restore it.  [SystemExt] and [SystemExtLaws] (BootSystem.v)
      are the part the call loop uses, [TxSystem] and [TxSystemLaws] (TxSystem.v) the
      part transactions use, with what changes of balances and nonces do to the
      world, and [BlockSystemLaws] the oracle and the steps between transactions:
      among them that the sizes the oracle gives are ones that can be processed
      ([tx_size_ok]).
      ExampleSystem.v and ExampleTx.v are a system that keeps all of them, in which the
      witnesses run.
    - The oracle is the classes [IoOracle] and [BlockOracle] (StorageCache.v,
      FlatModel.v): a host with a state of its own that may answer anything.  Blake2s
      and Keccak are the classes [Blake2s] and [Keccak]; theorems about commitments
      assume that no two of the inputs they name have the same hash.
    - Cargo features and the execution configurations are classes of booleans:
      theorems hold for every choice unless they name one.

    ** The files

    - Prelude.v: the monad, integers, byte lists, tactics, shared lemmas.
    - Resources.v: the [Resource] trait, [Ergs], [DecreasingNative],
      [BaseResources] ([zk_ee/src/system/resources.rs],
      [zk_ee/src/reference_implementations/mod.rs]), as a class with laws.
    - HistoryElement.v, HistoryMap.v: [zk_ee/src/common_structs/history_map]:
      element pool, histories linked by pointers, the map with snapshots.
    - U256.v: [zk_ee/src/utils/integer_utils.rs],
      [evm_interpreter/src/{u256,i256}.rs].  UtilTheorems.v: their theorems and
      those of the resources.
    - SystemInterface.v: errors, data at call boundaries, the system's interface.
    - Rlp.v: the RLP encoding of the Ethereum definition, as a reference.
      RlpParser.v: [rlp_encoded/rlp/*.rs] of the bootloader's [transaction]
      directory; BootloaderErrors.v: [errors.rs]; TxFormats.v: the transaction
      types, their envelope and accessors ([rlp_encoded/**]).  RlpLogic.v,
      RlpTheorems.v, TxLogic.v, TxTheorems.v, TxRoundtrip.v: exactness and round
      trips of the decoders.
    - EvmStack.v: [evm_stack.rs]; SliceVec.v: [zk_ee/src/memory/slice_vec.rs].
    - EvmConstants.v: [gas_constants.rs], [native_resource_constants.rs],
      [opcodes.rs].  Gas.v: [gas.rs].
    - Bytecode.v: the jump table of [lib.rs] and its cached form.
    - EvmState.v: the [Interpreter] and [utils.rs].  EvmInstructions.v:
      [instructions/*.rs], one definition per method.  EvmRun.v: [interpreter.rs].
      EvmFrame.v: [ee_trait_impl.rs].
    - EvmLogic.v, EvmSafety.v, EvmExec.v: the program logic of frames, the safety
      of all instructions, and of the loop, of starting and of resuming a frame.
    - EvmSemantics.v, EvmCopies.v, EvmCalls.v, EvmAddress.v: what instructions,
      calls and address derivations compute.  ExampleSystem.v, EvmTheorems.v: the
      concrete system, the theorems about whole frames, and the witnesses.
    - BootSystem.v: the system as the bootloader sees it.  IoLogic.v: the logic of
      its operations.  Hooks.v, HookTheorems.v: [system_hooks/src], the registry,
      the messenger, the base token, the contract deployer and the precompiles'
      wrapper.  Runner.v, RunnerTheorems.v: [runner.rs] and [supported_ees.rs].
      ExampleSystem.v, BootWitnesses.v: the witnesses.
    - AbiTx.v, AbiTheorems.v: [transaction/abi_encoded], transactions from L1.
      RlpHash.v: [rlp.rs].  Transaction.v: [transaction/mod.rs] with the access list and
      [authorization_list.rs]; TxWellFormed.v, ListTheorems.v: the types of parsed
      transactions, and what the lists do.
    - TxSystem.v: the system as transactions see it.  GasHelpers.v, GasTheorems.v:
      [gas_helpers.rs] and [compute_gas_refund].  TxFlow.v: [transaction_flow] and
      [run_single_interaction.rs]; TxWp.v, FlowTheorems.v, ExecTheorems.v: the
      logic of transactions, validation and execution.
    - ProcessTx.v: [process_transaction.rs].  SettleTheorems.v: frames, pubdata, refund
      and payment; L2Theorems.v, L1Theorems.v, ProcessTheorems.v: the outcomes of the
      kinds of transactions.
    - Block.v: [bootloader/mod.rs], [block_header.rs] and the reading of transactions
      from the oracle.  HeaderTheorems.v, BlockTheorems.v: the header and the loop.
      ExampleTx.v, TxWitnesses.v: the witnesses.
    - FlatStorage.v: [flat_storage_model/simple_growable_storage.rs], the commitment to
      the state and its verification; FlatMerkle.v, FlatCollect.v, FlatTheorems.v: trees
      and their hashes, opening and linking leaves, and the verification as a whole.
    - IoCommon.v: the rest of [history_map/mod.rs], [history_list.rs],
      [history_counter.rs], [cache_record.rs].  Pubdata.v: [pubdata_compression.rs].
      StorageCache.v, PreimageCache.v, AccountEntry.v, AccountCache.v: the files of
      [flat_storage_model] of these names, with the publication of preimages and the
      storage costs of [system/mod.rs]; AccountTheorems.v: encodings and diffs of accounts.
      FlatModel.v: [flat_storage_model/mod.rs], all operations of the trait [StorageModel]
      and the end of a block.
    - FlatDeterminism.v, FlatOracle.v: what runs with different oracles have in common.
      FlatAnswers.v: every answer about a slot that is cached is checked in the end.
      FlatWitnesses.v: a tree, a transaction and two hosts.

    ** What is shown

    - State (FlatTheorems.v, FlatOracle.v): if the verification of a block against the
      state root succeeds, what the host has said of the old state is true, and the new
      root commits to the old state with the values written; and two proved runs of the
      same client on the storage model from one root have the same results, resources,
      pubdata and caches, whatever the two oracles have answered, unless an operation
      has run out of resources between an answer and the caching of it
      ([answers_kept]).  [lying_oracle_undetected] (FlatWitnesses.v) shows that this exception is real.
    - Pubdata (Pubdata.v, AccountTheorems.v): the diffs of values and accounts that are
      published can be read by who knows the old state, and have the lengths that are
      charged for; the encoding of an account is read back and is what is hashed.
      The diff of a forced deployment is the exception: it is four bytes shorter than
      its documented format, and than what is charged.
    - Whole frames (EvmTheorems.v): the interpreter terminates within a number of
      steps given by the native resource and never panics; what it yields is
      well-formed and hands out no more resources than it got; a suspended frame
      can always be resumed; a static frame never changes the world; every step
      keeps the frame invariant.
    - Between frames (EvmCalls.v): the exact resources of a call, with surcharge,
      63/64 rule and stipend, and the checks before a frame starts.
    - Instructions (EvmSemantics.v, EvmCopies.v): arithmetic, comparison, bitwise,
      PUSH, jumps, memory and copies against the EVM's definition on integers and
      unbounded memory; the dispatch table against the table of opcodes.  One
      theorem shows a dependence on the width of [usize].
    - Addresses (EvmAddress.v): CREATE hashes exactly the RLP list of the Ethereum
      definition, CREATE2 its 85-byte record.
    - Transactions (TxTheorems.v, TxRoundtrip.v): the parser accepts exactly the
      encodings of the five transaction forms and never panics; every encoded
      transaction is read back with the hash its signer signed; and the lengths of
      long items are not unique, so encodings are not.
    - Hooks (HookTheorems.v): what the bootloader installs answers every request with
      an input of at most [hook_limit] bytes without a panic and within the resources
      given; withdrawals send exactly the
      message they should; the contract deployer obeys one caller only.
    - Call trees (RunnerTheorems.v): a call with all the calls it makes ends, within
      a bound given by its native resource; failed calls are undone; static calls that
      come to a result change nothing, at any depth.
    - Transaction processing (ProcessTheorems.v): whatever the bytes are and whatever
      code runs, an accepted transaction was valid and was charged and settled as it
      should, and a refused one was refused by the parser of its format or for a reason
      that holds of it; a failed transaction costs its sender exactly the gas it used,
      and only its authorizations are kept; a deposit is shared out completely, over the
      world the execution leaves.  There is one panic: an L1 transaction whose refund
      recipient is not an address ([odd_deposit]; [odd_refund_recipient_panics] in
      TxWitnesses.v shows it).  Below it, the gas limit is split without loss and the
      arithmetic of the refund is exact (GasTheorems.v).
    - Blocks (BlockTheorems.v): the loop refines a sequence of steps that reject a
      transaction without a trace or accept it within the limits; the header has the
      sums and hashes of the accepted transactions, and its hash is that of its RLP
      encoding (HeaderTheorems.v).  The loop panics for such a deposit, or if the
      coinbase cannot be read.
    - Refinements: the map with snapshots, linked by pointers, implements a map from
      keys to histories, and rolling back restores every key (HistoryMap.v); the
      unchecked stack buffer implements a bounded list (EvmStack.v); the borrowed
      vector a list with a capacity (SliceVec.v); the jump table is the set of
      valid destinations, also when computed on one width and read on the other
      (Bytecode.v).

    ** Bounds

    The loop [run] has as fuel the number of steps the frame's native resource can
    pay for, plus one; every step charges 20 native before anything else, so the
    fuel never runs out ([run_fuel_enough]) and more fuel changes nothing.
    The call loop spends a unit of fuel per nested call and per request of a frame;
    a request costs at least one step, so [call_fuel], native over 20 plus two, is
    enough ([handle_spec]).
    The loop over a block has fuel as an argument: the oracle decides how many
    transactions there are, and the theorems say that the fuel only runs out if
    there are that many.
    The iterators of access and authorization lists have the length of the list's
    bytes as fuel, and every element takes at least one.
    The scan of a code has its length as fuel, the search in a history the number
    of allocated records; running out there is a fault, which the theorems
    exclude.
    A client of the storage model has fuel for its operations; the theorem holds for
    every amount a [usize] can count.  The height of the tree is an argument, 64 in the
    source; the witness uses three levels.
    Three numbers of the source wrap where a bound would be needed, and the model wraps
    with them: the ids of snapshots, so that the theorems about the map with snapshots
    are about fewer snapshots than a [usize] can count; the index of [peek_n] plus one;
    and, in 32 bits, the length of a message of a withdrawal with what is added to it.  The inputs of
    calls, transactions and the buffers of the runner are at most [input_limit]
    (BootSystem.v), a parameter; where system contracts are installed the theorems ask
    for at most [hook_limit], 4 GiB less 256 bytes, or 2 GiB less 256 on 32 bits.

    ** What is not modelled

    Logging, tracing and cycle counters, which only observe.  Of the block, reading its
    metadata from the oracle and the parts of [System::finish] above the storage model:
    logs, events, transient storage and the public input ([io_subsystem.rs],
    [public_input.rs]).  Of the state commitment, the tree that the host keeps to answer
    with.  Interpreter and bootloader see the system through its classes, whose laws
    are not yet proved of the storage model.  The precompiles other than the identity,
    cryptography, the Merkle-Patricia trie of the Ethereum mode, the serialization of
    oracle queries and the host side are not part of this development. *)

From stdpp Require Export base tactics option numbers list.

#[global] Open Scope Z_scope.

(** ** Outcomes and the state-and-error monad

    A Rust function that takes [&mut self] and returns [Result<A, E>] becomes a
    computation [M S E A].  The state survives an [Err], as it does in Rust when
    [?] returns early.  [Fault] is a panic ([assert!], [expect], a slice index
    out of range) or an out-of-bounds [unsafe] access. *)

Inductive outcome (E A : Type) : Type :=
| Val (a : A)
| Err (e : E)
| Fault.
Arguments Val {E A} a.
Arguments Err {E A} e.
Arguments Fault {E A}.

Definition M (S E A : Type) : Type := S → outcome E A * S.

#[global] Instance M_ret {S E} : MRet (M S E) := λ A a s, (Val a, s).

#[global] Instance M_bind {S E} : MBind (M S E) := λ A B k m s,
  match m s with
  | (Val a, s') => k a s'
  | (Err e, s') => (Err e, s')
  | (Fault, s') => (Fault, s')
  end.

Definition throw {S E A} (e : E) : M S E A := λ s, (Err e, s).
Definition fault {S E A} : M S E A := λ s, (Fault, s).
Definition gets {S E A} (f : S → A) : M S E A := λ s, (Val (f s), s).
Definition modify {S E} (f : S → S) : M S E unit := λ s, (Val tt, f s).

(** [when b m]: run [m] if the condition [b] holds, else go on. *)
Definition when {S E} (b : bool) (m : M S E unit) : M S E unit :=
  if b then m else mret tt.

Definition lift_opt {S E A} (e : E) (o : option A) : M S E A :=
  match o with Some a => mret a | None => throw e end.

Definition expect {S E A} (o : option A) : M S E A :=
  match o with Some a => mret a | None => fault end.

(** [assert!]. *)
Definition assert_that {S E} (b : bool) : M S E unit :=
  if b then mret tt else fault.

(** Running a computation on a component of the state. *)
Definition zoom {S T E A} (get : S → T) (put : T → S → S) (m : M T E A) : M S E A :=
  λ s, let '(o, t) := m (get s) in (o, put t s).

(** The [From] conversion that [?] applies to the error, or [map_err]. *)
Definition map_err {S E F A} (f : E → F) (m : M S E A) : M S F A :=
  λ s, match m s with
       | (Val a, s') => (Val a, s')
       | (Err e, s') => (Err (f e), s')
       | (Fault, s') => (Fault, s')
       end.

(** Catching the error as a value, as a [match] on a [Result] does. *)
Definition attempt {S E F A} (m : M S E A) : M S F (E + A) :=
  λ s, match m s with
       | (Val a, s') => (Val (inr a), s')
       | (Err e, s') => (Val (inl e), s')
       | (Fault, s') => (Fault, s')
       end.

(** [.unwrap()] and [.expect(..)] on a [Result]. *)
Definition unwrap {S E F A} (m : M S E A) : M S F A :=
  λ s, match m s with
       | (Val a, s') => (Val a, s')
       | (Err _, s') | (Fault, s') => (Fault, s')
       end.

(** ** Unary reasoning about computations

    [preserves R m]: however [m] ends, the final state is [R]-above the initial
    one.  [triple P m Q QE]: from a state in [P] the computation does not fault,
    ends normally in [Q] or with an error in [QE]. *)

Definition preserves {S E A} (R : S → S → Prop) (m : M S E A) : Prop :=
  ∀ s, R s (snd (m s)).

Definition triple {S E A} (P : S → Prop) (m : M S E A)
    (Q : A → S → Prop) (QE : E → S → Prop) : Prop :=
  ∀ s, P s → match m s with
             | (Val a, s') => Q a s'
             | (Err e, s') => QE e s'
             | (Fault, _) => False
             end.

(** ** Machine integers

    A [w]-bit unsigned integer is a [Z] in [0, 2^w).  The plain Rust operators
    wrap, as they do in the release profile the workspace builds with. *)

Definition in_width (w x : Z) : Prop := 0 ≤ x < 2 ^ w.
Abbreviation is_u8 := (in_width 8).
Abbreviation is_u32 := (in_width 32).
Abbreviation is_u64 := (in_width 64).
Abbreviation is_u256 := (in_width 256).

Definition wrap (w x : Z) : Z := x mod 2 ^ w.
Definition umax (w : Z) : Z := 2 ^ w - 1.

Definition checked (w x : Z) : option Z :=
  if (0 <=? x) && (x <? 2 ^ w) then Some x else None.
Definition checked_add (w a b : Z) : option Z := checked w (a + b).
Definition checked_sub (w a b : Z) : option Z := checked w (a - b).
Definition checked_mul (w a b : Z) : option Z := checked w (a * b).
Definition saturating_add (w a b : Z) : Z := Z.min (umax w) (a + b).
Definition saturating_sub (a b : Z) : Z := Z.max 0 (a - b).
Definition saturating_mul (w a b : Z) : Z := Z.min (umax w) (a * b).
Definition overflowing_add (w a b : Z) : Z * bool :=
  (wrap w (a + b), 2 ^ w <=? a + b).

Definition next_multiple_of (a m : Z) : Z :=
  let r := a mod m in if r =? 0 then a else a + (m - r).
Definition checked_next_multiple_of (w a m : Z) : option Z :=
  checked w (next_multiple_of a m).

(** The width of [usize]: the sequencer runs on a 64-bit host, the prover on
    32-bit RISC-V, and the same source is compiled for both. *)
Class Usize := {
  usize_bits : Z;
  usize_cases : usize_bits = 32 ∨ usize_bits = 64
}.

Definition usize32 : Usize := {| usize_bits := 32; usize_cases := or_introl eq_refl |}.
Definition usize64 : Usize := {| usize_bits := 64; usize_cases := or_intror eq_refl |}.

(** ** Bytes *)

Fixpoint le_bytes (n : nat) (z : Z) : list Z :=
  match n with
  | O => []
  | S n => z mod 256 :: le_bytes n (z / 256)
  end.

Fixpoint of_le_bytes (l : list Z) : Z :=
  match l with
  | [] => 0
  | b :: t => b + 256 * of_le_bytes t
  end.

Definition be_bytes (n : nat) (z : Z) : list Z := reverse (le_bytes n z).
Definition of_be_bytes (l : list Z) : Z := of_le_bytes (reverse l).

(** The number of leading zero bytes. *)
Fixpoint count_leading_zeros (l : list Z) : nat :=
  match l with
  | b :: l' => if b =? 0 then S (count_leading_zeros l') else O
  | [] => O
  end.

(** [&data[start..start + len]]; a range outside the slice panics. *)
Definition slice {A} (data : list A) (start len : Z) : option (list A) :=
  if (0 <=? start) && (0 <=? len) && (start + len <=? Z.of_nat (length data))
  then Some (take (Z.to_nat len) (drop (Z.to_nat start) data))
  else None.

(** Overwriting [length bytes] elements of [data] from [start] on. *)
Definition splice {A} (data : list A) (start : Z) (bytes : list A) : list A :=
  take (Z.to_nat start) data ++ bytes
  ++ drop (Z.to_nat start + length bytes) data.

Create HintDb zkos.

(** Splits conjunctions that are written as such, without unfolding. *)
Ltac split_conj := repeat match goal with |- _ ∧ _ => split end.

(** ** Lemmas: computations *)

Section Preorder.
Context {S E : Type} (R : S → S → Prop) `{!PreOrder R}.

Lemma preserves_ret {A} (a : A) : preserves R (mret a : M S E A).
Proof. intros s. simpl. reflexivity. Qed.

Lemma preserves_throw {A} e : preserves R (throw e : M S E A).
Proof. intros s. simpl. reflexivity. Qed.

Lemma preserves_fault {A} : preserves R (fault : M S E A).
Proof. intros s. simpl. reflexivity. Qed.

Lemma preserves_gets {A} (f : S → A) : preserves R (gets f : M S E A).
Proof. intros s. simpl. reflexivity. Qed.

Lemma preserves_bind {A B} (m : M S E A) (k : A → M S E B) :
  preserves R m → (∀ a, preserves R (k a)) → preserves R (m ≫= k).
Proof.
  intros Hm Hk s. unfold mbind, M_bind.
  specialize (Hm s). destruct (m s) as [[a|e|] s']; simpl in *; [|done..].
  etransitivity; [exact Hm | apply Hk].
Qed.

Lemma preserves_when b (m : M S E unit) :
  preserves R m → preserves R (when b m).
Proof. destruct b; simpl; [done|]. intros _. apply preserves_ret. Qed.

Lemma preserves_lift_opt {A} e (o : option A) :
  preserves R (lift_opt e o : M S E A).
Proof. destruct o; [apply preserves_ret | apply preserves_throw]. Qed.

Lemma preserves_expect {A} (o : option A) : preserves R (expect o : M S E A).
Proof. destruct o; [apply preserves_ret | apply preserves_fault]. Qed.

Lemma preserves_assert b : preserves R (assert_that b : M S E unit).
Proof. destruct b; [apply preserves_ret | apply preserves_fault]. Qed.
End Preorder.

Section Logic.
Context {S E : Type}.

Lemma preserves_modify (R : S → S → Prop) f :
  (∀ s, R s (f s)) → preserves R (modify f : M S E unit).
Proof. intros H s. apply H. Qed.

Lemma preserves_attempt {F A} (R : S → S → Prop) (m : M S E A) :
  preserves R m → preserves R (attempt m : M S F (E + A)).
Proof.
  intros Hm s. unfold attempt. specialize (Hm s).
  by destruct (m s) as [[a|e|] s'].
Qed.

Lemma triple_bind {A B} P Q QE (Q' : B → S → Prop) (m : M S E A) (k : A → M S E B) :
  triple P m Q QE → (∀ a, triple (Q a) (k a) Q' QE) → triple P (m ≫= k) Q' QE.
Proof.
  intros Hm Hk s Hs. unfold mbind, M_bind.
  specialize (Hm s Hs). destruct (m s) as [[a|e|] s']; simpl in *; [|done..].
  by apply Hk.
Qed.

Lemma triple_conseq {A} (P P' : S → Prop) (Q Q' : A → S → Prop)
    (QE QE' : E → S → Prop) (m : M S E A) :
  triple P m Q QE → (∀ s, P' s → P s) → (∀ a s, Q a s → Q' a s) →
  (∀ e s, QE e s → QE' e s) → triple P' m Q' QE'.
Proof.
  intros Hm HP HQ HE s Hs. specialize (Hm s (HP _ Hs)).
  destruct (m s) as [[a|e|] s']; simpl in *; auto.
Qed.

Lemma bind_val {A B} (m : M S E A) (k : A → M S E B) s a s' :
  m s = (Val a, s') → (m ≫= k) s = k a s'.
Proof. intros H. unfold mbind, M_bind. by rewrite H. Qed.

Lemma bind_val_inv {A B} (m : M S E A) (k : A → M S E B) s b s' :
  (m ≫= k) s = (Val b, s') → ∃ a s1, m s = (Val a, s1) ∧ k a s1 = (Val b, s').
Proof.
  unfold mbind, M_bind. destruct (m s) as [[a|e|] s1]; [|done|done]. intros Hk. by exists a, s1.
Qed.

Lemma bind_err {A B} (m : M S E A) (k : A → M S E B) s e s' :
  m s = (Err e, s') → (m ≫= k) s = (Err e, s').
Proof. intros H. unfold mbind, M_bind. by rewrite H. Qed.
End Logic.

Lemma preserves_zoom {S T E A} (R : S → S → Prop) (RT : T → T → Prop)
    (get : S → T) (put : T → S → S) (m : M T E A) :
  preserves RT m → (∀ s t, RT (get s) t → R s (put t s)) →
  preserves R (zoom get put m).
Proof.
  intros Hm Hp s. unfold zoom. specialize (Hm (get s)).
  destruct (m (get s)) as [o t]. by apply Hp.
Qed.

Lemma preserves_map_err {S E F A} (R : S → S → Prop) (f : E → F) (m : M S E A) :
  preserves R m → preserves R (map_err f m).
Proof.
  intros Hm s. unfold map_err. specialize (Hm s).
  by destruct (m s) as [[a|e|] s'].
Qed.

(** ** Lemmas: machine integers *)

Lemma in_width_width w x : in_width w x → 0 ≤ w.
Proof.
  intros [H1 H2]. destruct (Z_lt_le_dec w 0); [|done].
  rewrite Z.pow_neg_r in H2; lia.
Qed.

Lemma wrap_in_width w x : 0 ≤ w → in_width w (wrap w x).
Proof. intros. apply Z.mod_pos_bound. by apply Z.pow_pos_nonneg. Qed.

Lemma wrap_small w x : in_width w x → wrap w x = x.
Proof. apply Z.mod_small. Qed.

Lemma checked_Some w x y : checked w x = Some y ↔ x = y ∧ in_width w y.
Proof.
  unfold checked, in_width. destruct (Z.leb_spec 0 x), (Z.ltb_spec x (2 ^ w));
    simpl; split; intros; simplify_eq; try lia; try (f_equal; lia).
Qed.

Lemma checked_None w x : checked w x = None ↔ ¬ in_width w x.
Proof.
  unfold checked, in_width. destruct (Z.leb_spec 0 x), (Z.ltb_spec x (2 ^ w));
    simpl; split; intros; simplify_eq; try lia; done.
Qed.

Lemma checked_in w x : in_width w x → checked w x = Some x.
Proof. intros. by apply checked_Some. Qed.

Lemma next_multiple_of_spec a m :
  0 < m → a ≤ next_multiple_of a m < a + m ∧ next_multiple_of a m mod m = 0.
Proof.
  intros Hm. unfold next_multiple_of.
  pose proof (Z.mod_pos_bound a m Hm) as Hr.
  destruct (Z.eqb_spec (a mod m) 0) as [E|E]; [lia|].
  split; [lia|].
  replace (a + (m - a mod m)) with ((a / m + 1) * m)
    by (pose proof (Z.div_mod a m); nia).
  apply Z.mod_mul. lia.
Qed.

Lemma usize_bits_pos `{Usize} : 32 ≤ usize_bits ≤ 64.
Proof. destruct usize_cases; lia. Qed.

(** ** Lemmas: bytes *)

Lemma length_le_bytes n z : length (le_bytes n z) = n.
Proof. revert z. induction n as [|n IH]; simpl; intros z; [done|]. by rewrite IH. Qed.

Lemma le_bytes_u8 n z : Forall is_u8 (le_bytes n z).
Proof.
  revert z. induction n as [|n IH]; simpl; intros z; constructor; [|done].
  by apply (Z.mod_pos_bound z 256).
Qed.

Lemma pow_256_S n : 2 ^ (8 * Z.of_nat (S n)) = 256 * 2 ^ (8 * Z.of_nat n).
Proof.
  rewrite Nat2Z.inj_succ, Z.mul_succ_r, Z.pow_add_r by lia.
  change (2 ^ 8) with 256. lia.
Qed.

Lemma of_le_bytes_bound l :
  Forall is_u8 l → 0 ≤ of_le_bytes l < 2 ^ (8 * Z.of_nat (length l)).
Proof.
  induction 1 as [|b t Hb _ IH]; [simpl; lia|].
  cbn [of_le_bytes length]. rewrite pow_256_S.
  unfold in_width in Hb. change (2 ^ 8) with 256 in Hb. lia.
Qed.

Lemma of_le_bytes_le_bytes n z :
  of_le_bytes (le_bytes n z) = z mod 2 ^ (8 * Z.of_nat n).
Proof.
  revert z. induction n as [|n IH]; intros z.
  { simpl. by rewrite Z.mod_1_r. }
  cbn [le_bytes of_le_bytes]. rewrite IH, pow_256_S.
  rewrite Z.rem_mul_r by (try apply Z.pow_nonzero; lia). lia.
Qed.

Lemma le_bytes_of_le_bytes l :
  Forall is_u8 l → le_bytes (length l) (of_le_bytes l) = l.
Proof.
  induction 1 as [|b t Hb _ IH]; [done|]. cbn [length le_bytes of_le_bytes].
  unfold in_width in Hb. change (2 ^ 8) with 256 in Hb.
  rewrite Z.mul_comm, Z.mod_add, Z.mod_small, Z.div_add, Z.div_small by lia.
  by rewrite Z.add_0_l, IH.
Qed.

Lemma of_le_bytes_app l1 l2 :
  of_le_bytes (l1 ++ l2)
  = of_le_bytes l1 + 2 ^ (8 * Z.of_nat (length l1)) * of_le_bytes l2.
Proof.
  induction l1 as [|b t IH]; [simpl; lia|].
  cbn [app of_le_bytes length]. rewrite IH, pow_256_S. lia.
Qed.

Lemma length_be_bytes n z : length (be_bytes n z) = n.
Proof. unfold be_bytes. by rewrite length_reverse, length_le_bytes. Qed.

Lemma of_be_bytes_be_bytes n z :
  of_be_bytes (be_bytes n z) = z mod 2 ^ (8 * Z.of_nat n).
Proof.
  unfold of_be_bytes, be_bytes. by rewrite reverse_involutive, of_le_bytes_le_bytes.
Qed.

Lemma be_bytes_of_be_bytes l :
  Forall is_u8 l → be_bytes (length l) (of_be_bytes l) = l.
Proof.
  intros H. unfold be_bytes, of_be_bytes.
  rewrite <- (length_reverse l), le_bytes_of_le_bytes, reverse_involutive; [done|].
  by apply Forall_reverse.
Qed.

Lemma of_be_bytes_bound l :
  Forall is_u8 l → 0 ≤ of_be_bytes l < 2 ^ (8 * Z.of_nat (length l)).
Proof.
  intros H. unfold of_be_bytes. rewrite <- (length_reverse l).
  apply of_le_bytes_bound. by apply Forall_reverse.
Qed.

Lemma slice_Some {A} (data : list A) start len out :
  slice data start len = Some out ↔
  0 ≤ start ∧ 0 ≤ len ∧ start + len ≤ Z.of_nat (length data)
  ∧ out = take (Z.to_nat len) (drop (Z.to_nat start) data).
Proof.
  unfold slice.
  destruct (Z.leb_spec 0 start), (Z.leb_spec 0 len),
    (Z.leb_spec (start + len) (Z.of_nat (length data))); simpl;
    split; intros; destruct_and?; simplify_eq; try lia; done.
Qed.

Lemma length_splice {A} (data : list A) start bytes :
  0 ≤ start → start + Z.of_nat (length bytes) ≤ Z.of_nat (length data) →
  length (splice data start bytes) = length data.
Proof.
  intros. unfold splice. rewrite !length_app, length_take, length_drop. lia.
Qed.

Lemma slice_splice {A} (data : list A) start bytes :
  0 ≤ start → start + Z.of_nat (length bytes) ≤ Z.of_nat (length data) →
  slice (splice data start bytes) start (Z.of_nat (length bytes)) = Some bytes.
Proof.
  intros. apply slice_Some. rewrite length_splice by lia.
  repeat split; try lia. unfold splice.
  rewrite drop_app_length' by (rewrite length_take; lia).
  by rewrite take_app_length' by lia.
Qed.

#[export] Hint Resolve length_le_bytes length_be_bytes le_bytes_u8 : zkos.
