(* ===== verification/Resources.v ===== *)
(** * Resources: ergs, native and their combination

    Models [zk_ee/src/system/resources.rs] (the [Resource] and [Resources]
    traits and [Ergs]) and [zk_ee/src/reference_implementations/mod.rs]
    ([DecreasingNative] and [BaseResources]), with the errors of
    [zk_ee/src/system/errors].  The trait is the class [Resource]; its contract,
    a class of laws, is discharged by the three implementations and is what the
    theorems about clients rely on. *)

From stdpp Require Import strings.
From S2P Require Import Prelude.

(** ** Errors of the system interface *)

Inductive FatalRuntimeError : Type :=
| OutOfNativeResources
| OutOfReturnMemory.

Inductive RuntimeError : Type :=
| FatalRuntime (e : FatalRuntimeError)
| OutOfErgs.

Record InternalError : Type := internal_error { ie_message : string }.

Inductive SystemError : Type :=
| LeafDefect (e : InternalError)
| LeafRuntime (e : RuntimeError).

Definition out_of_ergs_error : SystemError := LeafRuntime OutOfErgs.
Definition out_of_native_resources : SystemError :=
  LeafRuntime (FatalRuntime OutOfNativeResources).

#[global] Instance FatalRuntimeError_eq_dec : EqDecision FatalRuntimeError.
Proof. solve_decision. Defined.
#[global] Instance RuntimeError_eq_dec : EqDecision RuntimeError.
Proof. solve_decision. Defined.
#[global] Instance InternalError_eq_dec : EqDecision InternalError.
Proof. solve_decision. Defined.
#[global] Instance SystemError_eq_dec : EqDecision SystemError.
Proof. solve_decision. Defined.

(** ** The [Resource] trait *)

Class Resource (R : Type) : Type := {
  FORMAL_INFINITE : R;
  res_empty : R;
  is_empty : R → bool;
  charge : R → M R SystemError unit;
  charge_unchecked : R → M R SystemError unit;
  has_enough : R → R → bool;
  reclaim : R → M R SystemError unit;
  reclaim_withheld : R → M R SystemError unit;
  diff : R → R → R;
  remaining : R → R
}.

Arguments charge : simpl never.
Arguments reclaim : simpl never.
Arguments reclaim_withheld : simpl never.
Arguments has_enough : simpl never.

(** ** [Ergs] *)

Record Ergs : Type := mkErgs { ergs_0 : Z }.

Definition Ergs_add (a b : Ergs) : Ergs := mkErgs (wrap 64 (ergs_0 a + ergs_0 b)).
Definition Ergs_times (a : Ergs) (coeff : Z) : Ergs := mkErgs (wrap 64 (ergs_0 a * coeff)).

Definition Ergs_charge (to_charge : Ergs) : M Ergs SystemError unit := λ self,
  if ergs_0 self <? ergs_0 to_charge
  then (Err out_of_ergs_error, mkErgs 0)
  else (Val tt, mkErgs (wrap 64 (ergs_0 self - ergs_0 to_charge))).

Definition Ergs_reclaim (to_reclaim : Ergs) : M Ergs SystemError unit := λ self,
  (Val tt, mkErgs (wrap 64 (ergs_0 self + ergs_0 to_reclaim))).

#[global] Instance Ergs_Resource : Resource Ergs := {|
  FORMAL_INFINITE := mkErgs (umax 64);
  res_empty := mkErgs 0;
  is_empty self := ergs_0 self =? 0;
  charge := Ergs_charge;
  charge_unchecked to_charge := modify (λ self,
    mkErgs (wrap 64 (ergs_0 self - ergs_0 to_charge)));
  has_enough self to_spend := ergs_0 to_spend <=? ergs_0 self;
  reclaim := Ergs_reclaim;
  reclaim_withheld := Ergs_reclaim;
  diff self other := mkErgs (Z.abs (ergs_0 self - ergs_0 other));
  remaining self := self
|}.

(** ** [DecreasingNative] *)

Record DecreasingNative : Type := from_computational { as_u64 : Z }.

Definition Native_charge (to_charge : DecreasingNative) :
    M DecreasingNative SystemError unit := λ self,
  if as_u64 self <? as_u64 to_charge
  then (Err out_of_native_resources, from_computational 0)
  else (Val tt, from_computational (wrap 64 (as_u64 self - as_u64 to_charge))).

(** Native is only ever given back as a whole: the assertion allows [reclaim]
    when one of the two sides is zero. *)
Definition Native_reclaim (to_reclaim : DecreasingNative) :
    M DecreasingNative SystemError unit := λ self,
  if (as_u64 self =? 0) || (as_u64 to_reclaim =? 0)
  then (Val tt, from_computational (wrap 64 (as_u64 self + as_u64 to_reclaim)))
  else (Fault, self).

#[global] Instance DecreasingNative_Resource : Resource DecreasingNative := {|
  FORMAL_INFINITE := from_computational (umax 64);
  res_empty := from_computational 0;
  is_empty self := as_u64 self =? 0;
  charge := Native_charge;
  charge_unchecked to_charge := modify (λ self,
    from_computational (wrap 64 (as_u64 self - as_u64 to_charge)));
  has_enough self to_spend := as_u64 to_spend <=? as_u64 self;
  reclaim := Native_reclaim;
  reclaim_withheld to_reclaim := modify (λ self,
    from_computational (wrap 64 (as_u64 self + as_u64 to_reclaim)));
  diff self other := from_computational (Z.abs (as_u64 self - as_u64 other));
  remaining self := self
|}.

(** ** [BaseResources] *)

Record BaseResources (Native : Type) : Type := mkResources {
  ergs : Ergs;
  native : Native
}.
Arguments mkResources {Native} ergs native.
Arguments ergs {Native} _.
Arguments native {Native} _.

Section BaseResources.
Context {Native : Type} `{!Resource Native}.

Definition on_ergs {A} (m : M Ergs SystemError A) :
    M (BaseResources Native) SystemError A :=
  zoom ergs (λ e self, mkResources e (native self)) m.

Definition on_native {A} (m : M Native SystemError A) :
    M (BaseResources Native) SystemError A :=
  zoom native (λ n self, mkResources (ergs self) n) m.

(** Native first; when both run out, the native error is the one reported, and
    the ergs are charged all the same. *)
Definition Base_charge (to_charge : BaseResources Native) :
    M (BaseResources Native) SystemError unit :=
  r ← attempt (on_native (charge (native to_charge)));
  match r with
  | inl e =>
      _ ← attempt (E:=SystemError) (on_ergs (charge (ergs to_charge)));
      throw e
  | inr _ => on_ergs (charge (ergs to_charge))
  end.

Definition Base_charge_unchecked (to_charge : BaseResources Native) :
    M (BaseResources Native) SystemError unit :=
  on_ergs (charge_unchecked (ergs to_charge)) ;;
  on_native (charge_unchecked (native to_charge)).

Definition Base_reclaim (to_reclaim : BaseResources Native) :
    M (BaseResources Native) SystemError unit :=
  on_ergs (reclaim (ergs to_reclaim)) ;;
  on_native (reclaim (native to_reclaim)).

Definition Base_reclaim_withheld (to_reclaim : BaseResources Native) :
    M (BaseResources Native) SystemError unit :=
  on_ergs (reclaim (ergs to_reclaim)) ;;
  on_native (reclaim_withheld (native to_reclaim)).

#[global] Instance Base_Resource : Resource (BaseResources Native) := {|
  FORMAL_INFINITE := mkResources FORMAL_INFINITE FORMAL_INFINITE;
  res_empty := mkResources res_empty res_empty;
  is_empty self := is_empty (ergs self) && is_empty (native self);
  charge := Base_charge;
  charge_unchecked := Base_charge_unchecked;
  has_enough self to_spend :=
    has_enough (ergs self) (ergs to_spend) && has_enough (native self) (native to_spend);
  reclaim := Base_reclaim;
  reclaim_withheld := Base_reclaim_withheld;
  diff self other :=
    mkResources (diff (ergs self) (ergs other)) (diff (native self) (native other));
  remaining self := mkResources (remaining (ergs self)) (remaining (native self))
|}.

Definition from_ergs (e : Ergs) : BaseResources Native := mkResources e res_empty.
Definition from_native (n : Native) : BaseResources Native := mkResources res_empty n.
Definition from_ergs_and_native (e : Ergs) (n : Native) : BaseResources Native :=
  mkResources e n.

Definition add_ergs (to_add : Ergs) (self : BaseResources Native) : BaseResources Native :=
  mkResources (mkErgs (wrap 64 (ergs_0 (ergs self) + ergs_0 to_add))) (native self).

Definition exhaust_ergs (self : BaseResources Native) : BaseResources Native :=
  mkResources res_empty (native self).

(** [give_native_to self other] is the pair of the two new values. *)
Definition give_native_to (self other : BaseResources Native) :
    BaseResources Native * BaseResources Native :=
  (mkResources (ergs self) res_empty, mkResources (ergs other) (native self)).

Definition take_resources {E} : M (BaseResources Native) E (BaseResources Native) :=
  λ self, (Val self, res_empty).

Definition with_infinite_ergs {S E A} (get : S → BaseResources Native)
    (put : BaseResources Native → S → S) (f : M S E A) : M S E A := λ s,
  let old_ergs := ergs (get s) in
  let '(o, s') := f (put (mkResources (mkErgs (umax 64)) (native (get s))) s) in
  (o, put (mkResources old_ergs (native (get s'))) s').
End BaseResources.

(** ** The contract of a resource

    What a client may rely on: a charge that fits succeeds, leaves less, and is
    undone by giving the same amount back; a charge that does not fit is a
    runtime error, never a defect, and leaves no more than there was. *)
Class ResourceLaws (R : Type) `{!Resource R} : Type := {
  res_ok : R → Prop;
  res_le : R → R → Prop;
  res_le_preorder :: PreOrder res_le;
  res_empty_ok : res_ok res_empty;
  res_empty_le r : res_ok r → res_le res_empty r;
  charge_fits r c : res_ok r → res_ok c → has_enough r c = true →
    ∃ r', charge c r = (Val tt, r') ∧ res_ok r' ∧ res_le r' r
          ∧ reclaim_withheld c r' = (Val tt, r);
  charge_fails r c : res_ok r → res_ok c → has_enough r c = false →
    ∃ e r', charge c r = (Err (LeafRuntime e), r') ∧ res_ok r' ∧ res_le r' r
}.

Definition ergs_le (a b : Ergs) : Prop := ergs_0 a ≤ ergs_0 b.
Definition native_le (a b : DecreasingNative) : Prop := as_u64 a ≤ as_u64 b.

#[global] Instance ergs_le_preorder : PreOrder ergs_le.
Proof. split; intros ?; unfold ergs_le; lia. Qed.
#[global] Instance native_le_preorder : PreOrder native_le.
Proof. split; intros ?; unfold native_le; lia. Qed.

(** A successful [u64] charge subtracts exactly, and adding the charge back
    restores the amount. *)
Lemma u64_charge_roundtrip r c :
  is_u64 r → is_u64 c → c ≤ r →
  wrap 64 (r - c) = r - c ∧ wrap 64 (wrap 64 (r - c) + c) = r.
Proof.
  intros Hr Hc Hle. unfold in_width in *.
  rewrite (wrap_small 64 (r - c)) by (unfold in_width; lia).
  split; [done|]. replace (r - c + c) with r by lia. by apply wrap_small.
Qed.

#[global] Instance Ergs_Laws : ResourceLaws Ergs.
Proof.
  refine {| res_ok r := is_u64 (ergs_0 r); res_le := ergs_le |}.
  - done.
  - intros [r] [H _]; exact H.
  - intros [r] [c] Hr Hc H. unfold has_enough in H; simpl in *. apply Z.leb_le in H.
    destruct (u64_charge_roundtrip r c) as [E1 E2]; [done..|].
    eexists. unfold charge, reclaim_withheld; simpl; unfold Ergs_charge, Ergs_reclaim.
    simpl. destruct (Z.ltb_spec r c); [lia|].
    split_and!; [done| |unfold ergs_le|]; simpl; rewrite ?E2; [|rewrite E1|done];
      unfold in_width in *; lia.
  - intros [r] [c] Hr Hc H. unfold has_enough in H; simpl in *. apply Z.leb_gt in H.
    do 2 eexists. unfold charge; simpl; unfold Ergs_charge; simpl.
    destruct (Z.ltb_spec r c); [|lia]. split_and!; [done..|].
    unfold ergs_le, in_width in *; simpl; lia.
Defined.

#[global] Instance DecreasingNative_Laws : ResourceLaws DecreasingNative.
Proof.
  refine {| res_ok r := is_u64 (as_u64 r); res_le := native_le |}.
  - done.
  - intros [r] [H _]; exact H.
  - intros [r] [c] Hr Hc H. unfold has_enough in H; simpl in *. apply Z.leb_le in H.
    destruct (u64_charge_roundtrip r c) as [E1 E2]; [done..|].
    eexists. unfold charge, reclaim_withheld; simpl; unfold Native_charge, modify.
    simpl. destruct (Z.ltb_spec r c); [lia|].
    split_and!; [done| |unfold native_le|]; simpl; rewrite ?E2; [|rewrite E1|done];
      unfold in_width in *; lia.
  - intros [r] [c] Hr Hc H. unfold has_enough in H; simpl in *. apply Z.leb_gt in H.
    do 2 eexists. unfold charge; simpl; unfold Native_charge; simpl.
    destruct (Z.ltb_spec r c); [|lia]. split_and!; [done..|].
    unfold native_le, in_width in *; simpl; lia.
Defined.

Section BaseLaws.
Context {Native : Type} `{!Resource Native} `{!ResourceLaws Native}.

Definition base_ok (r : BaseResources Native) : Prop :=
  res_ok (ergs r) ∧ res_ok (native r).
Definition base_le (r r' : BaseResources Native) : Prop :=
  res_le (ergs r) (ergs r') ∧ res_le (native r) (native r').

#[global] Instance base_le_preorder : PreOrder base_le.
Proof.
  split.
  - intros r. split; reflexivity.
  - intros r1 r2 r3 [] []. split; etransitivity; eassumption.
Qed.

(** [Base_charge] by the outcomes of the two charges. *)
Lemma Base_charge_run (ce re : Ergs) (cn rn : Native) :
  charge (mkResources ce cn) (mkResources re rn)
  = let '(on, rn') := charge cn rn in
    let '(oe, re') := charge ce re in
    (match on, oe with
     | Fault, _ => Fault
     | Err _, Fault => Fault
     | Err e, _ => Err e
     | Val _, oe => oe
     end, mkResources (match on with Fault => re | _ => re' end) rn').
Proof.
  change (charge (mkResources ce cn)) with (Base_charge (mkResources ce cn)).
  unfold Base_charge, attempt, on_native, on_ergs, zoom, mbind, M_bind, throw; simpl.
  destruct (charge cn rn) as [[[]|e|] rn']; simpl;
    destruct (charge ce re) as [[[]|e'|] re']; done.
Qed.

Lemma Base_reclaim_withheld_run (ce re re' : Ergs) (cn rn rn' : Native) :
  reclaim ce re = (Val tt, re') → reclaim_withheld cn rn = (Val tt, rn') →
  reclaim_withheld (mkResources ce cn) (mkResources re rn)
  = (Val tt, mkResources re' rn').
Proof.
  intros E1 E2.
  change (reclaim_withheld (mkResources ce cn))
    with (Base_reclaim_withheld (mkResources ce cn)).
  unfold Base_reclaim_withheld, on_native, on_ergs, zoom, mbind, M_bind.
  cbn [ergs native]. rewrite E1. cbn [ergs native]. by rewrite E2.
Qed.

(** The combined resource keeps the contract whatever the native one is. *)
#[global] Instance Base_Laws : ResourceLaws (BaseResources Native).
Proof.
  refine {| res_ok := base_ok; res_le := base_le |}.
  - split; apply res_empty_ok.
  - intros r []. split; by apply res_empty_le.
  - intros [re rn] [ce cn] [Hre Hrn] [Hce Hcn] [He Hn]%andb_true_iff. simpl in *.
    destruct (charge_fits re ce) as (re' & E1 & O1 & L1 & B1); [done..|].
    destruct (charge_fits rn cn) as (rn' & E2 & O2 & L2 & B2); [done..|].
    exists (mkResources re' rn'). rewrite Base_charge_run, E1, E2.
    split_and!; [done|split; done|split; done|].
    by apply Base_reclaim_withheld_run.
  - intros [re rn] [ce cn] [Hre Hrn] [Hce Hcn] Hf. simpl in *.
    unfold has_enough in Hf; simpl in Hf. rewrite Base_charge_run.
    destruct (has_enough rn cn) eqn:En.
    + rewrite andb_true_r in Hf.
      destruct (charge_fits rn cn) as (rn' & E2 & O2 & L2 & _); [done..|].
      destruct (charge_fails re ce) as (e & re' & E1 & O1 & L1); [done..|].
      rewrite E1, E2. by exists e, (mkResources re' rn').
    + destruct (charge_fails rn cn) as (e & rn' & E2 & O2 & L2); [done..|].
      rewrite E2. exists e. destruct (has_enough re ce) eqn:Ee.
      * destruct (charge_fits re ce) as (re' & E1 & O1 & L1 & _); [done..|].
        rewrite E1. by exists (mkResources re' rn').
      * destruct (charge_fails re ce) as (e' & re' & E1 & O1 & L1); [done..|].
        rewrite E1. by exists (mkResources re' rn').
Defined.
End BaseLaws.

(** ** The resources the system runs on *)

Abbreviation Res := (BaseResources DecreasingNative).

Definition e_left (r : Res) : Z := ergs_0 (ergs r).
Definition n_left (r : Res) : Z := as_u64 (native r).
Definition mk_res (e n : Z) : Res := mkResources (mkErgs e) (from_computational n).

Definition res_wf (r : Res) : Prop := is_u64 (e_left r) ∧ is_u64 (n_left r).

(** [charge] on the concrete resources, in full: native decides the error. *)
Lemma charge_cases (e n ce cn : Z) :
  res_wf (mk_res e n) → res_wf (mk_res ce cn) →
  charge (mk_res ce cn) (mk_res e n)
  = (if n <? cn then Err out_of_native_resources
     else if e <? ce then Err out_of_ergs_error else Val tt,
     mk_res (Z.max 0 (e - ce)) (Z.max 0 (n - cn))).
Proof.
  intros [He Hn] [Hce Hcn]. unfold mk_res. rewrite Base_charge_run.
  unfold charge; simpl. unfold Native_charge, Ergs_charge; simpl.
  unfold e_left, n_left, in_width in *; simpl in *.
  destruct (Z.ltb_spec n cn), (Z.ltb_spec e ce);
    rewrite ?wrap_small by (unfold in_width; lia);
    do 2 f_equal; f_equal; lia.
Qed.
