(* ===== verification/FlatStorage.v ===== *)
(** * The commitment to the state

    Models [basic_system/src/system_implementation/flat_storage_model/
    simple_growable_storage.rs] with the key derivation of
    [zk_ee/src/common_structs/warm_storage_key.rs]: a Merkle tree over an array of
    leaves that form a linked list ordered by key, of which the system only keeps the
    root and the number of leaves.  [verify_and_apply_batch] checks the values the
    system has read in a block against the root, with leaves and paths that come from
    the oracle, and computes the root after its writes.

    [Bytes32] values are 256-bit numbers: the order of their byte arrays is that of
    the numbers they encode in big-endian.  A [BTreeMap] is a [gmap] whose iterator
    sorts the entries by key.  The hasher records its inputs, for the theorems. *)

From stdpp Require Import gmap sorting strings.
From S2P Require Import Prelude Resources.

(** ** Data *)

Record FlatStorageLeaf : Type := mkLeaf {
  leaf_key : Z;
  leaf_value : Z;
  leaf_next : Z
}.

Definition empty_leaf : FlatStorageLeaf := mkLeaf 0 0 0.

(** What [update_digest] feeds to the hasher. *)
Definition leaf_bytes (self : FlatStorageLeaf) : list Z :=
  be_bytes 32 (leaf_key self) ++ be_bytes 32 (leaf_value self) ++ le_bytes 8 (leaf_next self).

Definition node_bytes (left_node right_node : Z) : list Z :=
  be_bytes 32 left_node ++ be_bytes 32 right_node.

Record FlatStorageCommitment : Type := mkCommitment {
  root : Z;
  next_free_slot : Z
}.

Record LeafUpdateRecord : Type := mkUpdate {
  lu_value : option Z;
  lu_next : option Z
}.

Record LeafProof : Type := mkLeafProof {
  lp_index : Z;
  lp_leaf : FlatStorageLeaf;
  lp_path : list Z
}.

Record WarmStorageKey : Type := mkStorageKey { sk_address : Z; sk_key : Z }.

(** The fields of [WarmStorageValue] that the commitment looks at. *)
Record WarmStorageValue : Type := mkStorageValue {
  initial_value : Z;
  current_value : Z;
  initial_value_used : bool;
  is_new_storage_slot : bool
}.

Definition MIN_KEY_LEAF_MARKER_IDX : Z := 0.
Definition MAX_KEY_LEAF_MARKER_IDX : Z := 1.
Definition MAX_KEY : Z := umax 256.

(** The iterator of a [BTreeMap]. *)
Definition key_le {V} (a b : Z * V) : Prop := a.1 ≤ b.1.
#[global] Instance key_le_dec {V} : RelDecision (key_le (V:=V)).
Proof. intros a b. unfold key_le. apply _. Defined.

Definition btree_iter {V} (m : gmap Z V) : list (Z * V) := merge_sort key_le (map_to_list m).
Definition btree_keys {V} (m : gmap Z V) : list Z := (btree_iter m).*1.

(** [for a in l { body }]. *)
Fixpoint for_each {S E A} (l : list A) (body : A → M S E unit) : M S E unit :=
  match l with
  | [] => mret tt
  | a :: l => body a ;; for_each l body
  end.

(** ** Hashing *)

Class Blake2s : Type := blake2s : list Z → list Z.

(** The inputs that have been hashed. *)
Definition Hasher : Type := list (list Z).

Section Hashing.
Context `{Blake2s}.

Definition digest (input : list Z) : Z := of_be_bytes (blake2s input).

Definition finalize {E} (input : list Z) : M Hasher E Z := λ log, (Val (digest input), input :: log).

Definition hash_leaf {E} (leaf : FlatStorageLeaf) : M Hasher E Z := finalize (leaf_bytes leaf).
Definition hash_node {E} (left_node right_node : Z) : M Hasher E Z :=
  finalize (node_bytes left_node right_node).

Definition derive_flat_storage_key_with_hasher {E} (address key : Z) : M Hasher E Z :=
  finalize (repeat 0 12 ++ be_bytes 20 address ++ be_bytes 32 key).

(** *** A single proof *)

Fixpoint recompute_along {E} (path : list Z) (current index : Z) : M Hasher E Z :=
  match path with
  | [] => assert_that (index =? 0) ;; mret current
  | p :: path =>
      next ← (if Z.even index then hash_node current p else hash_node p current);
      recompute_along path next (Z.shiftr index 1)
  end.

Definition recompute_root_from_proof {E} (proof : LeafProof) : M Hasher E Z :=
  leaf_hash ← hash_leaf (lp_leaf proof);
  recompute_along (lp_path proof) leaf_hash (lp_index proof).

Definition verify_proof_for_root {E} (proof : LeafProof) (root : Z) : M Hasher E bool :=
  computed ← recompute_root_from_proof proof;
  mret (computed =? root).

(** The hashes of empty subtrees, from the leaves upwards, [n] levels above [previous]. *)
Fixpoint empty_hashes_above {E} (n : nat) (previous : Z) : M Hasher E (list Z) :=
  match n with
  | O => mret []
  | S n => node_hash ← hash_node previous previous;
           hashes ← empty_hashes_above n node_hash;
           mret (node_hash :: hashes)
  end.

Definition compute_empty_hashes {E} (N : nat) : M Hasher E (list Z) :=
  empty_leaf_hash ← hash_leaf empty_leaf;
  hashes ← empty_hashes_above (N - 1) empty_leaf_hash;
  mret (empty_leaf_hash :: hashes).
End Hashing.

(** ** The oracle *)

(** What the host answers, on trust: positions, and leaves with their paths. *)
Class StateOracle : Type := {
  OState : Type;
  previous_index_query : Z → M OState InternalError Z;
  exact_index_query : Z → M OState InternalError Z;
  proof_for_index_query : Z → M OState InternalError LeafProof
}.

(** ** A batch *)

(** The local variables of [verify_and_apply_batch]. *)
Record Batch `{StateOracle} : Type := mkBatch {
  oracle : OState;
  hashed : Hasher;
  commitment : FlatStorageCommitment;
  key_to_index_cache : gmap Z Z;
  index_to_leaf_cache : gmap Z (LeafProof * option LeafUpdateRecord);
  new_writes : list (Z * FlatStorageLeaf);
  num_nonexisting_reads : Z;
  num_total_writes : Z
}.

(** An entry of the hash buffers: index at the level, index of a leaf below, hash
    before and after the writes. *)
Abbreviation HashEntry := (Z * Z * option Z * option Z)%type.

Section Batch.
Context `{Blake2s} `{StateOracle} `{Usize}.

(** The depth of the tree. *)
Variable N : nat.

Abbreviation BM := (M Batch InternalError).

Definition on_oracle {A} (m : M OState InternalError A) : BM A :=
  zoom oracle (λ o s, mkBatch _ o (hashed s) (commitment s) (key_to_index_cache s)
    (index_to_leaf_cache s) (new_writes s) (num_nonexisting_reads s) (num_total_writes s)) m.

Definition on_hasher {A} (m : M Hasher InternalError A) : BM A :=
  zoom hashed (λ h s, mkBatch _ (oracle s) h (commitment s) (key_to_index_cache s)
    (index_to_leaf_cache s) (new_writes s) (num_nonexisting_reads s) (num_total_writes s)) m.

Definition set_commitment (c : FlatStorageCommitment) (s : Batch) : Batch :=
  mkBatch _ (oracle s) (hashed s) c (key_to_index_cache s) (index_to_leaf_cache s)
    (new_writes s) (num_nonexisting_reads s) (num_total_writes s).

Definition set_keys (m : gmap Z Z) (s : Batch) : Batch :=
  mkBatch _ (oracle s) (hashed s) (commitment s) m (index_to_leaf_cache s)
    (new_writes s) (num_nonexisting_reads s) (num_total_writes s).

Definition set_leaves (m : gmap Z (LeafProof * option LeafUpdateRecord)) (s : Batch) : Batch :=
  mkBatch _ (oracle s) (hashed s) (commitment s) (key_to_index_cache s) m
    (new_writes s) (num_nonexisting_reads s) (num_total_writes s).

Definition set_new_writes (l : list (Z * FlatStorageLeaf)) (s : Batch) : Batch :=
  mkBatch _ (oracle s) (hashed s) (commitment s) (key_to_index_cache s) (index_to_leaf_cache s)
    l (num_nonexisting_reads s) (num_total_writes s).

Definition set_counters (reads writes : Z) (s : Batch) : Batch :=
  mkBatch _ (oracle s) (hashed s) (commitment s) (key_to_index_cache s) (index_to_leaf_cache s)
    (new_writes s) reads writes.

Definition get_prev_index (flat_key : Z) : BM Z := on_oracle (unwrap (previous_index_query flat_key)).
Definition get_index (flat_key : Z) : BM Z := on_oracle (unwrap (exact_index_query flat_key)).

Definition get_proof_for_index (index : Z) : BM LeafProof :=
  proof ← on_oracle (unwrap (proof_for_index_query index));
  assert_that (lp_index proof =? index) ;;
  mret proof.

(** [insert] into [key_to_index_cache], asserting that the key is new to it. *)
Definition insert_key (key index : Z) : BM unit :=
  keys ← gets key_to_index_cache;
  assert_that (bool_decide (keys !! key = None)) ;;
  modify (set_keys (<[key:=index]> keys)).

Definition insert_leaf (index : Z) (proof : LeafProof) (modification : option LeafUpdateRecord) : BM unit :=
  modify (λ s, set_leaves (<[index:=(proof, modification)]> (index_to_leaf_cache s)) s).

Definition cached_leaf (index : Z) : BM (option (LeafProof * option LeafUpdateRecord)) :=
  gets (λ s, index_to_leaf_cache s !! index).

(** *** Keys that are not in the tree *)

(** The leaf before the key: from the cache, or opened and cached.  The result is the
    index of the leaf after it. *)
Definition open_previous (saved_next_free_slot flat_key previous_idx : Z) : BM Z :=
  cached ← cached_leaf previous_idx;
  match cached with
  | None =>
      previous ← get_proof_for_index previous_idx;
      assert_that (leaf_key (lp_leaf previous) <? flat_key) ;;
      let next_idx := leaf_next (lp_leaf previous) in
      assert_that (next_idx <? saved_next_free_slot) ;;
      insert_key (leaf_key (lp_leaf previous)) previous_idx ;;
      insert_leaf previous_idx previous None ;;
      mret next_idx
  | Some (previous, _) =>
      assert_that (leaf_key (lp_leaf previous) <? flat_key) ;;
      mret (leaf_next (lp_leaf previous))
  end.

(** The leaf after the key. *)
Definition open_next (flat_key next_idx : Z) : BM unit :=
  cached ← cached_leaf next_idx;
  match cached with
  | None =>
      next ← get_proof_for_index next_idx;
      assert_that (flat_key <? leaf_key (lp_leaf next)) ;;
      insert_key (leaf_key (lp_leaf next)) next_idx ;;
      insert_leaf next_idx next None
  | Some (next, _) => assert_that (flat_key <? leaf_key (lp_leaf next))
  end.

Definition open_neighbours (saved_next_free_slot flat_key : Z) : BM unit :=
  previous_idx ← get_prev_index flat_key;
  assert_that (previous_idx <? saved_next_free_slot) ;;
  next_idx ← open_previous saved_next_free_slot flat_key previous_idx;
  open_next flat_key next_idx.

(** *** Reads *)

Definition check_existing_read (flat_key : Z) (value : WarmStorageValue) : BM unit :=
  index ← get_index flat_key;
  cached ← cached_leaf index;
  match cached with
  | None =>
      leaf ← get_proof_for_index index;
      assert_that (leaf_key (lp_leaf leaf) =? flat_key) ;;
      assert_that (leaf_value (lp_leaf leaf) =? current_value value) ;;
      insert_key (leaf_key (lp_leaf leaf)) index ;;
      insert_leaf index leaf None
  | Some (leaf, _) =>
      assert_that (leaf_key (lp_leaf leaf) =? flat_key) ;;
      assert_that (leaf_value (lp_leaf leaf) =? current_value value)
  end.

Definition check_read (saved_next_free_slot : Z) (read : WarmStorageKey * WarmStorageValue) : BM unit :=
  let '(key, value) := read in
  flat_key ← on_hasher (derive_flat_storage_key_with_hasher (sk_address key) (sk_key key));
  assert_that (initial_value_used value) ;;
  if is_new_storage_slot value then
    assert_that (initial_value value =? 0) ;;
    modify (λ s, set_counters (num_nonexisting_reads s + 1) (num_total_writes s) s) ;;
    open_neighbours saved_next_free_slot flat_key
  else check_existing_read flat_key value.

(** *** Writes *)

(** Append a leaf, which is linked later. *)
Definition append_leaf (flat_key : Z) (value : WarmStorageValue) : BM unit :=
  self ← gets commitment;
  let index := next_free_slot self in
  modify (set_commitment (mkCommitment (root self) (wrap 64 (index + 1)))) ;;
  insert_key flat_key index ;;
  modify (λ s, set_new_writes (new_writes s ++ [(index, mkLeaf flat_key (current_value value) 0)]) s).

Definition update_leaf (flat_key : Z) (value : WarmStorageValue) : BM unit :=
  let update := Some (mkUpdate (Some (current_value value)) None) in
  known ← gets (λ s, key_to_index_cache s !! flat_key);
  match known with
  | Some existing_index =>
      cached ← cached_leaf existing_index;
      '(existing_leaf, modification) ← expect cached;
      assert_that (leaf_key (lp_leaf existing_leaf) =? flat_key) ;;
      assert_that (leaf_value (lp_leaf existing_leaf) =? initial_value value) ;;
      assert_that (bool_decide (modification = None)) ;;
      insert_leaf existing_index existing_leaf update
  | None =>
      index ← get_index flat_key;
      leaf ← get_proof_for_index index;
      assert_that (leaf_key (lp_leaf leaf) =? flat_key) ;;
      assert_that (leaf_value (lp_leaf leaf) =? initial_value value) ;;
      insert_key (leaf_key (lp_leaf leaf)) index ;;
      cached ← cached_leaf index;
      insert_leaf index leaf update ;;
      assert_that (bool_decide (cached = None))
  end.

Definition apply_write (saved_next_free_slot : Z) (write : WarmStorageKey * WarmStorageValue) : BM unit :=
  let '(key, value) := write in
  modify (λ s, set_counters (num_nonexisting_reads s) (num_total_writes s + 1) s) ;;
  flat_key ← on_hasher (derive_flat_storage_key_with_hasher (sk_address key) (sk_key key));
  if is_new_storage_slot value then
    open_neighbours saved_next_free_slot flat_key ;;
    append_leaf flat_key value
  else update_leaf flat_key value.

(** *** Linking *)

Definition set_next (value : Z) (self : LeafUpdateRecord) : BM LeafUpdateRecord :=
  assert_that (bool_decide (lu_next self = None)) ;;
  mret (mkUpdate (lu_value self) (Some value)).

(** The index of a key of the cache. *)
Definition index_of (key : Z) : BM Z :=
  i ← gets (λ s, key_to_index_cache s !! key);
  expect i.

Definition link_first (saved_next_free_slot first_index second_index : Z) : BM unit :=
  cached ← cached_leaf first_index;
  '(leaf, modification) ← expect cached;
  when (first_index =? MIN_KEY_LEAF_MARKER_IDX)
    (assert_that (bool_decide (modification = None)) ;;
     assert_that (leaf_key (lp_leaf leaf) =? 0)) ;;
  when (saved_next_free_slot <=? second_index)
    match modification with
    | Some modification =>
        modification ← set_next second_index modification;
        insert_leaf first_index leaf (Some modification)
    | None => insert_leaf first_index leaf (Some (mkUpdate None (Some second_index)))
    end.

(** Link the leaf at [current_index] to the one at [next_index]. *)
Definition link_leaf (saved_next_free_slot current_index next_index : Z) : BM unit :=
  cached ← cached_leaf current_index;
  match cached with
  | Some (leaf, modification) =>
      when (saved_next_free_slot <=? next_index)
        (modification ←
           match modification with
           | Some modification =>
               if negb (leaf_next (lp_leaf leaf) =? next_index) then set_next next_index modification
               else mret modification
           | None =>
               let new_modification := mkUpdate None None in
               if negb (leaf_next (lp_leaf leaf) =? next_index) then set_next next_index new_modification
               else mret new_modification
           end;
         insert_leaf current_index leaf (Some modification))
  | None =>
      let idx := Z.to_nat (wrap usize_bits (wrap 64 (current_index - saved_next_free_slot))) in
      writes ← gets new_writes;
      '(expected_tree_index, leaf) ← expect (writes !! idx);
      assert_that (expected_tree_index =? current_index) ;;
      modify (set_new_writes
        (<[idx := (expected_tree_index, mkLeaf (leaf_key leaf) (leaf_value leaf) next_index)]> writes))
  end.

(** The result is the index of the last key. *)
Fixpoint link_rest (saved_next_free_slot current_index : Z) (keys : list Z) : BM Z :=
  match keys with
  | [] => mret current_index
  | next :: keys =>
      next_index ← index_of next;
      link_leaf saved_next_free_slot current_index next_index ;;
      link_rest saved_next_free_slot next_index keys
  end.

Definition check_last (last_index : Z) : BM unit :=
  cached ← cached_leaf last_index;
  '(leaf, modification) ← expect cached;
  when (last_index =? MAX_KEY_LEAF_MARKER_IDX)
    (assert_that (bool_decide (modification = None)) ;;
     assert_that (leaf_key (lp_leaf leaf) =? MAX_KEY)).

Definition link_keys (saved_next_free_slot : Z) : BM unit :=
  keys ← gets (λ s, btree_keys (key_to_index_cache s));
  match keys with
  | first :: second :: keys =>
      first_index ← index_of first;
      second_index ← index_of second;
      link_first saved_next_free_slot first_index second_index ;;
      last_index ← link_rest saved_next_free_slot second_index keys;
      check_last last_index
  | _ => fault
  end.

(** The rightmost path, which is needed to append leaves. *)
Definition open_rightmost (saved_next_free_slot : Z) : BM unit :=
  let index := wrap 64 (saved_next_free_slot - 1) in
  cached ← cached_leaf index;
  match cached with
  | Some _ => mret tt
  | None => proof ← get_proof_for_index index; insert_leaf index proof None
  end.

(** *** Joining the paths *)

Definition updated_leaf (leaf : FlatStorageLeaf) (modification : LeafUpdateRecord) : FlatStorageLeaf :=
  mkLeaf (leaf_key leaf) (default (leaf_value leaf) (lu_value modification))
    (default (leaf_next leaf) (lu_next modification)).

Fixpoint cached_hashes (leaves : list (Z * (LeafProof * option LeafUpdateRecord)))
    : M Hasher InternalError (list HashEntry) :=
  match leaves with
  | [] => mret []
  | (index, (leaf, modification)) :: leaves =>
      leaf_hash ← hash_leaf (lp_leaf leaf);
      updated_hash ←
        match modification with
        | Some modification =>
            updated_leaf_hash ← hash_leaf (updated_leaf (lp_leaf leaf) modification);
            mret (Some updated_leaf_hash)
        | None => mret None
        end;
      rest ← cached_hashes leaves;
      mret ((index, index, Some leaf_hash, updated_hash) :: rest)
  end.

Fixpoint new_hashes (leaves : list (Z * FlatStorageLeaf)) : M Hasher InternalError (list HashEntry) :=
  match leaves with
  | [] => mret []
  | (index, new_leaf) :: leaves =>
      leaf_hash ← hash_leaf new_leaf;
      rest ← new_hashes leaves;
      mret ((index, index, None, Some leaf_hash) :: rest)
  end.

Definition can_merge (a b : Z) : bool := Z.land a (Z.lnot 1) =? Z.land b (Z.lnot 1).

(** A hash joined with its sibling. *)
Definition join_sibling (is_left : bool) (proof : Z) (hash : option Z) : M Hasher InternalError (option Z) :=
  match hash with
  | Some h =>
      node_hash ← (if is_left then hash_node h proof else hash_node proof h);
      mret (Some node_hash)
  | None => mret None
  end.

Section Levels.
Variable leaf_cache : gmap Z (LeafProof * option LeafUpdateRecord).
Variable empty_hashes : list Z.
Variable saved_next_free_slot : Z.

Definition process_single (level : nat) (a : HashEntry) : M Hasher InternalError HashEntry :=
  let '(index, below, read, write) := a in
  let is_left := Z.even index in
  proof ← expect match leaf_cache !! below with
                 | Some (leaf, _) => lp_path leaf !! level
                 | None => empty_hashes !! level
                 end;
  read_path ← join_sibling is_left proof read;
  write_path ← join_sibling is_left proof write;
  mret (Z.shiftr index 1, below, read_path, write_path).

(** Two paths that converge. *)
Definition merge_pair (level : nat) (a b : HashEntry) : M Hasher InternalError HashEntry :=
  let '(a_index, a_below, a_read, a_write) := a in
  let '(b_index, b_below, b_read, b_write) := b in
  empty_path ← expect (empty_hashes !! level);
  '(read_hash, a_read_path, b_read_path) ←
    match a_read, b_read with
    | Some a_read_path, Some b_read_path =>
        node_hash ← hash_node a_read_path b_read_path;
        mret (Some node_hash, a_read_path, b_read_path)
    | Some a_read_path, None =>
        node_hash ← hash_node a_read_path empty_path;
        mret (Some node_hash, a_read_path, empty_path)
    | None, Some b_read_path =>
        node_hash ← hash_node empty_path b_read_path;
        mret (Some node_hash, empty_path, b_read_path)
    | None, None =>
        assert_that (saved_next_free_slot <=? a_below) ;;
        assert_that (saved_next_free_slot <=? b_below) ;;
        mret (None, empty_path, empty_path)
    end;
  write_hash ←
    match a_write, b_write with
    | Some a_write_path, Some b_write_path =>
        node_hash ← hash_node a_write_path b_write_path; mret (Some node_hash)
    | Some a_write_path, None =>
        node_hash ← hash_node a_write_path b_read_path; mret (Some node_hash)
    | None, Some b_write_path =>
        node_hash ← hash_node a_read_path b_write_path; mret (Some node_hash)
    | None, None => assert_that (bool_decide (is_Some read_hash)) ;; mret None
    end;
  mret (Z.shiftr a_index 1, a_below, read_hash, write_hash).

(** The loop over the windows of the buffer; [dst] is the buffer of the next level. *)
Fixpoint join_windows (level : nat) (windows : list (HashEntry * HashEntry))
    (next_merged last_merged : bool) (dst : list HashEntry)
    : M Hasher InternalError (bool * list HashEntry) :=
  match windows with
  | [] => mret (last_merged, dst)
  | (a, b) :: windows =>
      if next_merged then join_windows level windows false last_merged dst
      else
        assert_that (negb (a.1.1.1 =? b.1.1.1)) ;;
        if can_merge a.1.1.1 b.1.1.1 then
          c ← merge_pair level a b;
          let is_last := bool_decide (windows = []) in
          join_windows level windows true (if is_last then true else last_merged) (dst ++ [c])
        else
          c ← process_single level a;
          join_windows level windows false last_merged (dst ++ [c])
  end.

Fixpoint array_windows {A} (l : list A) : list (A * A) :=
  match l with
  | a :: (b :: _) as l' => (a, b) :: array_windows l'
  | _ => []
  end.

Definition join_level (level : nat) (buffer : list HashEntry) : M Hasher InternalError (list HashEntry) :=
  match buffer with
  | [] => fault
  | [a] => c ← process_single level a; mret [c]
  | _ =>
      '(last_merged, dst) ← join_windows level (array_windows buffer) false false [];
      if last_merged : bool then mret dst
      else
        a ← expect (last buffer);
        c ← process_single level a;
        mret (dst ++ [c])
  end.

(** [n] levels from [level] on. *)
Fixpoint join_levels (n level : nat) (buffer : list HashEntry) : M Hasher InternalError (list HashEntry) :=
  match n with
  | O => mret buffer
  | S n => buffer ← join_level level buffer; join_levels n (S level) buffer
  end.
End Levels.

(** The roots before and after. *)
Definition join_paths (saved_next_free_slot : Z) : BM (option Z * option Z) :=
  empty_hashes ← on_hasher (compute_empty_hashes N);
  leaves ← gets index_to_leaf_cache;
  writes ← gets new_writes;
  on_hasher
    (cached ← cached_hashes (btree_iter leaves);
     appended ← new_hashes writes;
     buffer ← join_levels leaves empty_hashes saved_next_free_slot N O (cached ++ appended);
     match buffer with
     | [(_, _, read, write)] => mret (read, write)
     | _ => fault
     end).

(** *** The batch *)

Definition is_read (x : WarmStorageKey * WarmStorageValue) : bool :=
  current_value x.2 =? initial_value x.2.
Definition is_new_write (x : WarmStorageKey * WarmStorageValue) : bool :=
  negb (is_read x) && is_new_storage_slot x.2.

Definition settle_root (num_new_writes : nat) (read write : option Z) : BM unit :=
  self ← gets commitment;
  read_root ← expect read;
  assert_that (read_root =? root self) ;;
  match write with
  | Some new_root =>
      total ← gets num_total_writes;
      when (0 <? total) (assert_that (negb (new_root =? root self))) ;;
      modify (set_commitment (mkCommitment new_root (next_free_slot self)))
  | None => assert_that (bool_decide (num_new_writes = O))
  end.

Definition verify_and_apply_batch (source : list (WarmStorageKey * WarmStorageValue)) : BM unit :=
  if bool_decide (source = []) then mret tt
  else
    let reads := filter (λ x, is_read x = true) source in
    let writes := filter (λ x, is_read x = false) source in
    let num_new_writes := length (filter (λ x, is_new_write x = true) source) in
    saved_next_free_slot ← gets (λ s, next_free_slot (commitment s));
    for_each reads (check_read saved_next_free_slot) ;;
    for_each writes (apply_write saved_next_free_slot) ;;
    nonexisting ← gets num_nonexisting_reads;
    when (negb (nonexisting + Z.of_nat num_new_writes =? 0))
      (link_keys saved_next_free_slot ;;
       when (negb (bool_decide (num_new_writes = O))) (open_rightmost saved_next_free_slot)) ;;
    '(read, write) ← join_paths saved_next_free_slot;
    settle_root num_new_writes read write.

(** From the commitment and the oracle. *)
Definition start_batch (o : OState) (self : FlatStorageCommitment) : Batch :=
  mkBatch _ o [] self ∅ ∅ [] 0 0.
End Batch.
