(* ===== verification/FlatMerkle.v ===== *)
(** * Joining Merkle paths

    The second half of [verify_and_apply_batch]: from the leaves the oracle has
    claimed to the roots before and after.  If the hashes involved do not collide
    and the root before is that of a tree, the claimed leaves are those of the tree
    and the root after is that of the updated tree. *)

From stdpp Require Import gmap sorting strings.
From S2P Require Import Prelude Resources FlatStorage.

(** ** Successful runs *)

(** If [m] ends normally, the result and the state are in [P]. *)
Definition yields {S E A} (m : M S E A) (s : S) (P : A → S → Prop) : Prop :=
  ∀ a s', m s = (Val a, s') → P a s'.

Section Yields.
Context {S E : Type}.

Lemma yields_ret {A} (a : A) (s : S) P : P a s → yields (mret a : M S E A) s P.
Proof. by intros H ? ? [= <- <-]. Qed.

Lemma yields_bind {A B} (m : M S E A) (k : A → M S E B) s P :
  yields m s (λ a s1, yields (k a) s1 P) → yields (m ≫= k) s P.
Proof. intros H b s' Hb. apply bind_val_inv in Hb as (a & s1 & Ha & Hk). exact (H _ _ Ha _ _ Hk). Qed.

Lemma yields_mono {A} (m : M S E A) s (P Q : A → S → Prop) :
  yields m s P → (∀ a s', P a s' → Q a s') → yields m s Q.
Proof. intros H HQ a s' Ha. auto. Qed.

Lemma yields_gets {A} (f : S → A) s P : P (f s) s → yields (gets f : M S E A) s P.
Proof. by intros H ? ? [= <- <-]. Qed.

Lemma yields_modify f s P : P tt (f s) → yields (modify f : M S E unit) s P.
Proof. by intros H [] ? [= <-]. Qed.

Lemma yields_assert (b : bool) (s : S) P : (b = true → P tt s) → yields (assert_that b : M S E unit) s P.
Proof. intros H ? ?. unfold assert_that. destruct b; [|done]. intros [= <- <-]. auto. Qed.

Lemma yields_expect {A} (o : option A) (s : S) P :
  (∀ a, o = Some a → P a s) → yields (expect o : M S E A) s P.
Proof. intros H ? ?. destruct o; [|done]. intros [= <- <-]. auto. Qed.

Lemma yields_fault {A} (s : S) (P : A → S → Prop) : yields (fault : M S E A) s P.
Proof. done. Qed.

Lemma yields_when (b : bool) (m : M S E unit) s P :
  (b = true → yields m s P) → (b = false → P tt s) → yields (when b m) s P.
Proof. destruct b; intros H1 H2; [by apply H1|]. by apply yields_ret, H2. Qed.

Lemma yields_zoom {T A} (get : S → T) (put : T → S → S) (m : M T E A) s P :
  yields m (get s) (λ a t, P a (put t s)) → yields (zoom get put m) s P.
Proof.
  intros H a s' Ha. unfold zoom in Ha. destruct (m (get s)) as [o t] eqn:E1. injection Ha as Ho <-.
  subst o. by apply H.
Qed.

(** The invariant of a loop, over the elements seen so far. *)
Lemma yields_for_each {A} (body : A → M S E unit) (I : list A → S → Prop) l s :
  I [] s → (∀ seen a rest s, l = seen ++ a :: rest → I seen s → yields (body a) s (λ _, I (seen ++ [a]))) →
  yields (for_each l body) s (λ _, I l).
Proof.
  intros H0 Hstep. enough (∀ rest seen s, l = seen ++ rest → I seen s → yields (for_each rest body) s (λ _, I l)) as Hl
    by (by apply (Hl l [])). clear s H0.
  induction rest as [|a rest IH]; intros seen s1 Hl H1; cbn [for_each].
  - apply yields_ret. by rewrite Hl, app_nil_r.
  - apply yields_bind. eapply yields_mono; [by eapply Hstep|]. intros [] s2 H2.
    apply (IH (seen ++ [a])); [by rewrite <- app_assoc|done].
Qed.

Lemma yields_unwrap {F A} (m : M S F A) s P : yields m s P → yields (unwrap m : M S E A) s P.
Proof. intros H a s' Ha. unfold unwrap in Ha. destruct (m s) as [[| |] s1] eqn:E1; simplify_eq. by apply H. Qed.
End Yields.

Ltac ystep :=
  match goal with
  | |- yields (mret _) _ _ => apply yields_ret
  | |- yields (_ ≫= _) _ _ => apply yields_bind
  | |- yields (gets _) _ _ => apply yields_gets
  | |- yields (modify _) _ _ => apply yields_modify
  | |- yields (assert_that _) _ _ => apply yields_assert; intros ?
  | |- yields (expect _) _ _ => apply yields_expect; intros ? ?
  | |- yields fault _ _ => apply yields_fault
  end.

(** ** Trees *)

Definition leaf_wf (x : FlatStorageLeaf) : Prop :=
  is_u256 (leaf_key x) ∧ is_u256 (leaf_value x) ∧ is_u64 (leaf_next x).

Class Blake2sLaws `{Blake2s} : Prop := blake2s_bytes x : length (blake2s x) = 32%nat ∧ Forall is_u8 (blake2s x).

(** The hasher does not map two of the inputs in [P] to one digest. *)
Definition collision_free `{Blake2s} (P : list Z → Prop) : Prop :=
  ∀ x y, P x → P y → digest x = digest y → x = y.

Definition Tree : Type := Z → FlatStorageLeaf.

Section Trees.
Context `{Blake2sLaws}.

(** The hash of the subtree of height [l] over the leaves [k * 2^l, (k + 1) * 2^l). *)
Fixpoint tree_hash (T : Tree) (l : nat) (k : Z) : Z :=
  match l with
  | O => digest (leaf_bytes (T k))
  | S l => digest (node_bytes (tree_hash T l (2 * k)) (tree_hash T l (2 * k + 1)))
  end.

Definition empty_hash (l : nat) : Z := tree_hash (λ _, empty_leaf) l 0.

(** What is hashed to compute the root of a tree of height [N]. *)
Definition tree_input (N : nat) (T : Tree) (x : list Z) : Prop :=
  (∃ k, 0 ≤ k < 2 ^ Z.of_nat N ∧ x = leaf_bytes (T k))
  ∨ ∃ l k, (l < N)%nat ∧ 0 ≤ k < 2 ^ (Z.of_nat N - 1 - Z.of_nat l)
      ∧ x = node_bytes (tree_hash T l (2 * k)) (tree_hash T l (2 * k + 1)).

Lemma digest_range x : is_u256 (digest x).
Proof.
  destruct (blake2s_bytes x) as [Hl Hu]. unfold digest. pose proof (of_be_bytes_bound (blake2s x) Hu) as Hr.
  rewrite Hl in Hr. exact Hr.
Qed.

Lemma tree_hash_range T l k : is_u256 (tree_hash T l k).
Proof. destruct l; apply digest_range. Qed.

Lemma tree_hash_ext T T' l k :
  (∀ i, k * 2 ^ Z.of_nat l ≤ i < (k + 1) * 2 ^ Z.of_nat l → T i = T' i) → tree_hash T l k = tree_hash T' l k.
Proof.
  revert k. induction l as [|l IH]; intros k HT; cbn [tree_hash]; [do 2 f_equal; apply HT; lia|].
  rewrite Nat2Z.inj_succ, Z.pow_succ_r in HT by lia.
  do 2 f_equal; apply IH; intros i Hi; apply HT; nia.
Qed.

Lemma empty_hash_at l k : tree_hash (λ _, empty_leaf) l k = empty_hash l.
Proof.
  unfold empty_hash. revert k. enough (∀ k k', tree_hash (λ _, empty_leaf) l k = tree_hash (λ _, empty_leaf) l k') by auto.
  induction l as [|l IH]; intros k k'; cbn [tree_hash]; [done|]. do 2 f_equal; apply IH.
Qed.

Lemma empty_region T l k :
  (∀ i, k * 2 ^ Z.of_nat l ≤ i → T i = empty_leaf) → tree_hash T l k = empty_hash l.
Proof. intros HT. rewrite <- (empty_hash_at l k). apply tree_hash_ext. intros i Hi. apply HT. lia. Qed.
End Trees.

(** ** Encodings *)

Lemma be_bytes_32_inj x y : is_u256 x → is_u256 y → be_bytes 32 x = be_bytes 32 y → x = y.
Proof.
  intros Hx Hy E. apply (f_equal of_be_bytes) in E. rewrite !of_be_bytes_be_bytes in E.
  rewrite !Z.mod_small in E by (unfold in_width in *; lia). exact E.
Qed.

Lemma le_bytes_8_inj x y : is_u64 x → is_u64 y → le_bytes 8 x = le_bytes 8 y → x = y.
Proof.
  intros Hx Hy E. apply (f_equal of_le_bytes) in E. rewrite !of_le_bytes_le_bytes in E.
  rewrite !Z.mod_small in E by (unfold in_width in *; lia). exact E.
Qed.

Lemma node_bytes_inj a b a' b' : is_u256 a → is_u256 b → is_u256 a' → is_u256 b' →
  node_bytes a b = node_bytes a' b' → a = a' ∧ b = b'.
Proof.
  intros Ha Hb Ha' Hb' E. unfold node_bytes in E. apply app_inj_1 in E as [E1 E2]; [|by rewrite !length_be_bytes].
  split; by apply be_bytes_32_inj.
Qed.

Lemma leaf_bytes_inj x y : leaf_wf x → leaf_wf y → leaf_bytes x = leaf_bytes y → x = y.
Proof.
  destruct x as [k v n], y as [k' v' n']. intros (Hk & Hv & Hn) (Hk' & Hv' & Hn') E. unfold leaf_bytes in E.
  cbn [leaf_key leaf_value leaf_next] in *.
  apply app_inj_1 in E as [E1 E]; [|by rewrite !length_be_bytes].
  apply app_inj_1 in E as [E2 E3]; [|by rewrite !length_be_bytes].
  apply be_bytes_32_inj in E1; [|done..]. apply be_bytes_32_inj in E2; [|done..].
  apply le_bytes_8_inj in E3; [|done..]. congruence.
Qed.

Lemma can_merge_div a b : can_merge a b = (a / 2 =? b / 2).
Proof.
  unfold can_merge. rewrite <- !Z.ldiff_land. change 1 with (Z.ones 1).
  rewrite !Z.ldiff_ones_r, !Z.shiftr_div_pow2, !Z.shiftl_mul_pow2 by lia. change (2 ^ 1) with 2.
  destruct (Z.eqb_spec (a / 2 * 2) (b / 2 * 2)), (Z.eqb_spec (a / 2) (b / 2)); lia.
Qed.

(** ** Joined levels *)

Abbreviation e_index e := (e.1.1.1) (only parsing).
Abbreviation e_below e := (e.1.1.2) (only parsing).
Abbreviation e_read e := (e.1.2) (only parsing).
Abbreviation e_write e := (e.2) (only parsing).

Section Join.
Context `{Blake2sLaws}.
Variable leaf_cache : gmap Z (LeafProof * option LeafUpdateRecord).
Variable empty_hashes : list Z.
Variable saved : Z.

Abbreviation entry := (Z * Z * option Z * option Z)%type.

Definition sibling (level : nat) (below : Z) : option Z :=
  match leaf_cache !! below with
  | Some (leaf, _) => lp_path leaf !! level
  | None => empty_hashes !! level
  end.

(** A hash joined with its sibling; the inputs hashed are in [Q]. *)
Definition joined (Q : list Z → Prop) (left : bool) (p : Z) (h h' : option Z) : Prop :=
  match h with
  | Some h => let x := if left then node_bytes h p else node_bytes p h in Q x ∧ h' = Some (digest x)
  | None => h' = None
  end.

Inductive single (Q : list Z → Prop) (level : nat) : entry → entry → Prop :=
| single_intro k b r w p r' w' : sibling level b = Some p →
    joined Q (Z.even k) p r r' → joined Q (Z.even k) p w w' → single Q level (k, b, r, w) (k / 2, b, r', w').

(** Two hashes joined, if one of them is known; [x] and [y] stand for unknown ones. *)
Definition joined_pair (Q : list Z → Prop) (x y : Z) (h h' c : option Z) : Prop :=
  match h, h' with
  | None, None => c = None
  | _, _ => let z := node_bytes (default x h) (default y h') in Q z ∧ c = Some (digest z)
  end.

Inductive paired (Q : list Z → Prop) (level : nat) : entry → entry → entry → Prop :=
| paired_intro k b r w k' b' r' w' e rc wc : empty_hashes !! level = Some e →
    joined_pair Q e e r r' rc → joined_pair Q (default e r) (default e r') w w' wc →
    (r = None → r' = None → saved ≤ b ∧ saved ≤ b') →
    paired Q level (k, b, r, w) (k', b', r', w') (k / 2, b, rc, wc).

Inductive merged (Q : list Z → Prop) (level : nat) : list entry → list entry → Prop :=
| merged_nil : merged Q level [] []
| merged_last a a' : single Q level a a' → merged Q level [a] [a']
| merged_single a b l a' l' : e_index a ≠ e_index b → e_index a / 2 ≠ e_index b / 2 → single Q level a a' →
    merged Q level (b :: l) l' → merged Q level (a :: b :: l) (a' :: l')
| merged_pair a b c l l' : e_index a ≠ e_index b → e_index a / 2 = e_index b / 2 → paired Q level a b c →
    merged Q level l l' → merged Q level (a :: b :: l) (c :: l').

Abbreviation grows log log' := (∀ x : list Z, x ∈ log → x ∈ log').

Lemma joined_mono (Q Q' : list Z → Prop) left p h h' : (∀ x, Q x → Q' x) → joined Q left p h h' → joined Q' left p h h'.
Proof. intros HQ. destruct h; cbn; [|done]. intros [? ?]. auto. Qed.

Lemma joined_pair_mono (Q Q' : list Z → Prop) x y h h' c :
  (∀ x, Q x → Q' x) → joined_pair Q x y h h' c → joined_pair Q' x y h h' c.
Proof. intros HQ. destruct h, h'; cbn; try (intros [? ?]; auto); done. Qed.

Lemma single_mono (Q Q' : list Z → Prop) l a b : (∀ x, Q x → Q' x) → single Q l a b → single Q' l a b.
Proof. intros HQ [k bl r w p r' w' Hs Hr Hw]. econstructor; [done|by eapply joined_mono..]. Qed.

Lemma paired_mono (Q Q' : list Z → Prop) l a b c : (∀ x, Q x → Q' x) → paired Q l a b c → paired Q' l a b c.
Proof. intros HQ [k bl r w k' b' r' w' e rc wc Hs Hr Hw]. econstructor; try done; by eapply joined_pair_mono. Qed.

Lemma merged_mono (Q Q' : list Z → Prop) l xs ys : (∀ x, Q x → Q' x) → merged Q l xs ys → merged Q' l xs ys.
Proof.
  intros HQ. induction 1; [apply merged_nil|apply merged_last|apply merged_single|apply merged_pair];
    eauto using single_mono, paired_mono.
Qed.

(** *** The code joins levels *)

Lemma yields_finalize {E} x (log : Hasher) : yields (finalize x : M Hasher E Z) log
  (λ h log', h = digest x ∧ x ∈ log' ∧ grows log log').
Proof. intros h log' [= <- <-]. split_conj; [done|set_solver|set_solver]. Qed.

Lemma yields_join left p h log : yields (join_sibling left p h) log
  (λ h' log', joined (λ x, x ∈ log') left p h h' ∧ grows log log').
Proof.
  unfold join_sibling. destruct h as [h|]; [|by ystep].
  ystep. unfold hash_node. destruct left; (eapply yields_mono; [apply yields_finalize|]);
    intros h' log' (-> & Hx & Hg); ystep; by split.
Qed.

Lemma yields_single level a log : yields (process_single leaf_cache empty_hashes level a) log
  (λ a' log', single (λ x, x ∈ log') level a a' ∧ grows log log').
Proof.
  destruct a as [[[k b] r] w]. unfold process_single. ystep. apply yields_expect. intros p Hp.
  ystep. eapply yields_mono; [apply yields_join|]. intros r' log1 [Hr Hg1].
  ystep. eapply yields_mono; [apply yields_join|]. intros w' log2 [Hw Hg2]. ystep.
  rewrite Z.shiftr_div_pow2 by lia. split; [|auto].
  econstructor; [exact Hp|by eapply joined_mono, Hr|exact Hw].
Qed.

Lemma yields_pair level a b log : yields (merge_pair empty_hashes saved level a b) log
  (λ c log', paired (λ x, x ∈ log') level a b c ∧ grows log log').
Proof.
  destruct a as [[[k bl] r] w], b as [[[k' bl'] r'] w']. unfold merge_pair.
  ystep. apply yields_expect. intros e He. ystep.
  eapply (yields_mono _ _ (λ x log1, joined_pair (λ x, x ∈ log1) e e r r' x.1.1 ∧ x.1.2 = default e r
    ∧ x.2 = default e r' ∧ (r = None → r' = None → saved ≤ bl ∧ saved ≤ bl') ∧ grows log log1)).
  - destruct r as [r|], r' as [r'|]; unfold hash_node.
    1-3: ystep; (eapply yields_mono; [apply yields_finalize|]); intros h log1 (-> & Hx & Hg); by ystep.
    ystep. ystep. ystep. ystep. ystep. cbn. split_conj; try done. intros _ _. lia.
  - intros [[rc ra] rb] log1 (Hr & Ha & Hb & Hs & Hg1). cbn in Ha, Hb, Hr. subst ra rb. ystep.
    eapply (yields_mono _ _ (λ wc log2, joined_pair (λ x, x ∈ log2) (default e r) (default e r') w w' wc ∧ grows log1 log2)).
    + destruct w as [w|], w' as [w'|]; unfold hash_node.
      1-3: ystep; (eapply yields_mono; [apply yields_finalize|]); intros h log2 (-> & Hx & Hg); by ystep.
      ystep. ystep. by ystep.
    + intros wc log2 [Hw Hg2]. ystep. rewrite Z.shiftr_div_pow2 by lia. split; [|auto].
      econstructor; [exact He|by eapply joined_pair_mono, Hr|exact Hw|exact Hs].
Qed.

(** What the loop over the windows of [l] has done, up to the last element, if it was
    not merged. *)
Definition window_spec (level : nat) (l dst : list entry) (r : bool * list entry) (log : Hasher) : Prop :=
  ∃ out, r.2 = dst ++ out ∧
    if r.1 then merged (λ x, x ∈ log) level l out
    else ∃ z, last l = Some z ∧ ∀ Q c, (∀ x, x ∈ log → Q x) → single Q level z c → merged Q level l (out ++ [c]).

Lemma yields_windows level n a l dst log : (length l ≤ n)%nat →
  yields (join_windows leaf_cache empty_hashes saved level (array_windows (a :: l)) false false dst) log
    (λ r log', window_spec level (a :: l) dst r log' ∧ grows log log').
Proof.
  revert a l dst log. induction n as [|n IH]; intros a l dst log Hn.
  all: destruct l as [|b l]; cbn [array_windows join_windows].
  1,3: ystep; split; [|done]; exists []; split; [by rewrite app_nil_r|]; exists a; split; [done|];
    intros Q c _ Hc; by apply merged_last.
  { cbn in Hn. lia. }
  ystep. ystep. cbn [app] in *. assert (e_index a ≠ e_index b) as Hne by (intros He; cbn in He; rewrite He, Z.eqb_refl in *; done).
  rewrite can_merge_div. destruct (Z.eqb_spec (a.1.1.1 / 2) (b.1.1.1 / 2)) as [He|He].
  - ystep. eapply yields_mono; [apply yields_pair|]. intros c log1 [Hp Hg1].
    destruct l as [|d l]; cbn [array_windows join_windows].
    + ystep. split; [|done]. exists [c]. split; [done|]. cbn. apply merged_pair; [done..|apply merged_nil].
    + eapply yields_mono; [apply (IH d l); cbn in Hn; lia|]. intros [lm dst'] log2 [(out & Hd & Hout) Hg2].
      split; [|auto]. exists (c :: out). split; [cbn in Hd |- *; by rewrite Hd, <- app_assoc|].
      destruct lm; cbn in Hout |- *.
      * apply merged_pair; [done..| |done]. eapply paired_mono; [|done]. auto.
      * destruct Hout as (z & Hz & Hout). exists z. split; [done|]. intros Q c' HQ Hc. cbn.
        apply merged_pair; [done..| |by apply Hout]. eapply paired_mono; [|done]. auto.
  - ystep. eapply yields_mono; [apply yields_single|]. intros c log1 [Hp Hg1].
    eapply yields_mono; [apply (IH b l); cbn in Hn; lia|]. intros [lm dst'] log2 [(out & Hd & Hout) Hg2].
    split; [|auto]. exists (c :: out). split; [cbn in Hd |- *; by rewrite Hd, <- app_assoc|].
    destruct lm; cbn in Hout |- *.
    * apply merged_single; [done..| |done]. eapply single_mono; [|done]. auto.
    * destruct Hout as (z & Hz & Hout). exists z. split; [done|]. intros Q c' HQ Hc. cbn.
      apply merged_single; [done..| |by apply Hout]. eapply single_mono; [|done]. auto.
Qed.

Lemma yields_level level buffer log : yields (join_level leaf_cache empty_hashes saved level buffer) log
  (λ dst log', merged (λ x, x ∈ log') level buffer dst ∧ buffer ≠ [] ∧ grows log log').
Proof.
  destruct buffer as [|a [|b l]]; [apply yields_fault| |]; unfold join_level.
  - ystep. eapply yields_mono; [apply yields_single|]. intros c log1 [Hc Hg]. ystep.
    split_conj; [by apply merged_last|done|done].
  - ystep. eapply yields_mono; [by apply (yields_windows level (length (b :: l)))|].
    intros [lm dst] log1 [(out & Hd & Hout) Hg]. cbn in Hd. subst dst. destruct lm; cbn in Hout; [by ystep|].
    destruct Hout as (z & Hz & Hout). ystep. apply yields_expect. intros z' Hz'. cbn in Hz'. simplify_eq.
    ystep. eapply yields_mono; [apply yields_single|]. intros c log2 [Hc Hg2]. ystep.
    split_conj; [|done|auto]. by apply Hout.
Qed.

(** *** What a level looks like *)

Definition before (a b : entry) : Prop := e_index a < e_index b.
Definition occupied (l : list entry) (k : Z) : Prop := ∃ a, a ∈ l ∧ e_index a = k.
Definition sibling_index (k : Z) : Z := if Z.even k then k + 1 else k - 1.

(** Entries without a read hash at consecutive positions. *)
Fixpoint consecutive (f : Z) (l : list entry) : Prop :=
  match l with
  | [] => True
  | a :: l => e_index a = f ∧ e_read a = None ∧ consecutive (f + 1) l
  end.

Lemma half_cases k : k = 2 * (k / 2) ∨ k = 2 * (k / 2) + 1.
Proof. pose proof (Z.div_mod k 2). pose proof (Z.mod_pos_bound k 2). lia. Qed.

Lemma even_half k : if Z.even k then k = 2 * (k / 2) else k = 2 * (k / 2) + 1.
Proof.
  destruct (half_cases k) as [E|E].
  - assert (Z.even k = true) as -> by (by rewrite E, Z.even_mul). done.
  - assert (Z.even k = false) as -> by (by rewrite E, Z.even_add, Z.even_mul). done.
Qed.

Lemma sibling_half k : sibling_index k / 2 = k / 2 ∧ sibling_index k ≠ k.
Proof.
  unfold sibling_index. pose proof (even_half k) as Hk.
  destruct (Z.even k); [destruct (half_cases (k + 1))|destruct (half_cases (k - 1))]; lia.
Qed.

Lemma single_index Q level a a' : single Q level a a' → e_index a' = e_index a / 2.
Proof. by destruct 1. Qed.

Lemma paired_index Q level a b c : paired Q level a b c → e_index c = e_index a / 2.
Proof. by destruct 1. Qed.

Lemma merged_consecutive Q level f l l' : consecutive f l → merged Q level l l' → consecutive (f / 2) l'.
Proof.
  intros Hc Hm. revert f Hc. induction Hm as [|a a' Hs|a b l a' l' Hne Hp Hs Hm IH|a b c l l' Hne Hp Hs Hm IH]; intros f Hc.
  - done.
  - destruct Hs as [k bl r w p r' w' Hs Hr Hw]. destruct Hc as (<- & Hn & _). cbn in *. subst r. done.
  - destruct Hc as (<- & Hn & Hc). pose proof Hc as (Hb & _ & _). specialize (IH _ Hc).
    destruct Hs as [k bl r w p r' w' Hs Hr Hw]. cbn in *. subst r. split_conj; [done|done|].
    replace (k / 2 + 1) with ((k + 1) / 2); [done|]. rewrite Hb in Hp. destruct (half_cases k), (half_cases (k + 1)); lia.
  - destruct Hc as (<- & Hn & Hb & Hn' & Hc). specialize (IH _ Hc).
    destruct Hs as [k bl r w k' bl' r' w' e rc wc He Hr Hw]. cbn in *. subst r r'. cbn in Hr. subst rc. split_conj; [done|done|].
    replace (k / 2 + 1) with ((k + 1 + 1) / 2); [done|]. rewrite Hb in Hp.
    destruct (half_cases k), (half_cases (k + 1 + 1)), (half_cases (k + 1)); lia.
Qed.

(** Where an entry of the next level comes from, for sorted entries [P] that are
    followed by [Qs]. *)
Inductive step_of (Q : list Z → Prop) (level : nat) (P Qs : list entry) (e : entry) : Prop :=
| step_single a : a ∈ P → single Q level a e → ¬ occupied P (sibling_index (e_index a)) → step_of Q level P Qs e
| step_pair a b : a ∈ P → b ∈ P → e_index a = 2 * (e_index a / 2) → e_index b = e_index a + 1 →
    paired Q level a b e → step_of Q level P Qs e
| step_edge a q l : a ∈ P → Qs = q :: l → e_index a / 2 = e_index q / 2 → e_index a ≠ e_index q →
    paired Q level a q e → ¬ occupied P (sibling_index (e_index a)) → step_of Q level P Qs e.

Lemma step_index Q level P Qs e : step_of Q level P Qs e → ∃ a, a ∈ P ∧ e_index e = e_index a / 2.
Proof.
  destruct 1 as [a Ha Hs|a b Ha _ _ _ Hs|a q l Ha _ _ _ Hs]; exists a; (split; [done|]);
    [by eapply single_index|by eapply paired_index..].
Qed.

(** The next level: [P'] comes from the entries [S] of [P], [Q'] from what is left of [Qs]. *)
Record level_split (Q : list Z → Prop) (level : nat) (P Qs S : list entry) (P' Q1 Q' : list entry) : Prop := {
  ls_rest : merged Q level Q1 Q';
  ls_edge : Q1 = Qs ∨ ∃ q a, Qs = q :: Q1 ∧ a ∈ P ∧ e_index a / 2 = e_index q / 2 ∧ e_index a ≠ e_index q;
  ls_sorted : StronglySorted before P';
  ls_steps : Forall (step_of Q level P Qs) P';
  ls_covers a : a ∈ S → occupied P' (e_index a / 2);
  ls_from e : e ∈ P' → ∃ a, a ∈ S ∧ e_index e = e_index a / 2
}.

Lemma level_split_cons Q level P Qs S P' Q1 Q' c a :
  step_of Q level P Qs c → a ∈ S → e_index c = e_index a / 2 →
  (∀ b, b ∈ S → e_index b / 2 = e_index a / 2 ∨ e_index a / 2 < e_index b / 2) →
  (∃ S', level_split Q level P Qs S' P' Q1 Q'
    ∧ (∀ b, b ∈ S → e_index b / 2 = e_index a / 2 ∨ b ∈ S')
    ∧ (∀ b, b ∈ S' → b ∈ S ∧ e_index a / 2 < e_index b / 2)) →
  level_split Q level P Qs S (c :: P') Q1 Q'.
Proof.
  intros Hc Ha Hi HS (S' & [H1 H2 H3 H4 H5 H6] & Hin & Hgt). split; [done|done| | | |].
  - apply SSorted_cons; [done|]. apply Forall_forall. intros e He. destruct (H6 _ He) as (b & Hb & Hbi).
    unfold before. rewrite Hi, Hbi. by apply Hgt.
  - by constructor.
  - intros b Hb. destruct (Hin _ Hb) as [E|Hb']; [exists c; split; [left|by rewrite Hi, E]|].
    destruct (H5 _ Hb') as (e & He & <-). exists e. split; [by right|done].
  - intros e [->|He]%elem_of_cons; [by exists a|]. destruct (H6 _ He) as (b & Hb & Hbi). exists b. split; [by apply Hgt|done].
Qed.

Lemma merged_split Q level P Qs S B' n : (length S ≤ n)%nat →
  merged Q level (S ++ Qs) B' → StronglySorted before S → (∀ a, a ∈ S → a ∈ P) →
  (∀ a b, a ∈ S → b ∈ P → before a b → b ∈ S) →
  (∀ a, head S = Some a → Z.even (e_index a) = false → ¬ occupied P (e_index a - 1)) →
  ∃ P' Q1 Q', B' = P' ++ Q' ∧ level_split Q level P Qs S P' Q1 Q'.
Proof.
  revert S B'. induction n as [|n IH]; intros [|a S] B' Hn Hm Hs Hin Hup Hodd; cbn in Hn; try lia.
  1,2: exists [], Qs, B'; split; [done|]; split; [done|by left|constructor|constructor|by intros ? ?%elem_of_nil..].
  assert (a ∈ P) as HaP by (apply Hin; left).
  apply StronglySorted_inv in Hs as [Hs Hafter]. rewrite Forall_forall in Hafter.
  assert (∀ b, b ∈ a :: S → e_index b / 2 = e_index a / 2 ∨ e_index a / 2 < e_index b / 2) as Hhalf.
  { intros b [->|Hb]%elem_of_cons; [by left|]. pose proof (Hafter _ Hb) as Hab. unfold before in Hab.
    destruct (half_cases (e_index a)), (half_cases (e_index b)); lia. }
  (* nobody at the sibling's place, unless it follows [a] *)
  assert (¬ occupied S (e_index a + 1) ∨ Z.even (e_index a) = false → ¬ occupied P (sibling_index (e_index a))) as Hsib.
  { intros Hno (b & Hb & Hbi). unfold sibling_index in Hbi. destruct (Z.even (e_index a)) eqn:Ev.
    - destruct Hno as [Hno|Hno]; [|done]. apply Hno. exists b. split; [|done].
      assert (before a b) as Hab by (unfold before; lia).
      destruct (proj1 (elem_of_cons _ _ _) (Hup a b ltac:(left) Hb Hab)) as [->|]; [unfold before in Hab; lia|done].
    - apply (Hodd a eq_refl Ev). by exists b. }
  assert (∀ S' P' Q1 Q' c, step_of Q level P Qs c → e_index c = e_index a / 2 → level_split Q level P Qs S' P' Q1 Q' →
    (∀ b, b ∈ S → e_index b / 2 = e_index a / 2 ∨ b ∈ S') → (∀ b, b ∈ S' → b ∈ S ∧ e_index a / 2 < e_index b / 2) →
    level_split Q level P Qs (a :: S) (c :: P') Q1 Q') as Hcons.
  { intros S' P' Q1 Q' c Hc Hi Hl H1 H2. apply (level_split_cons _ _ _ _ _ _ _ _ c a); [done|left|done|done|].
    exists S'. split_conj; [done| |].
    - intros b [->|Hb]%elem_of_cons; [by left|auto].
    - intros b Hb. destruct (H2 _ Hb). split; [by right|done]. }
  assert (∀ Q1 Q' c, step_of Q level P Qs c → e_index c = e_index a / 2 → S = [] → merged Q level Q1 Q' →
    (Q1 = Qs ∨ ∃ q, Qs = q :: Q1 ∧ e_index a / 2 = e_index q / 2 ∧ e_index a ≠ e_index q) →
    level_split Q level P Qs (a :: S) [c] Q1 Q') as Hlast.
  { intros Q1 Q' c Hc Hi -> Hm' He. apply (Hcons []); [done|done| |by intros ? ?%elem_of_nil..].
    split; [done| |constructor|constructor|by intros ? ?%elem_of_nil..].
    destruct He as [->|(q & -> & H1 & H2)]; [by left|]. right. by exists q, a. }
  destruct S as [|b S].
  - cbn [app] in Hm. assert (¬ occupied P (sibling_index (e_index a))) as Hno.
    { apply Hsib. left. by intros (b & ?%elem_of_nil & _). }
    inversion Hm as [|x x' Hsi|x b l a' l' Hne Hp Hsi Hm'|x b c l l' Hne Hp Hpa Hm']; subst.
    + exists [x'], [], []. split; [done|]. apply Hlast; [|by eapply single_index|done|by apply merged_nil|by left].
      by eapply step_single.
    + exists [a'], (b :: l), l'. split; [done|]. apply Hlast; [|by eapply single_index|done|done|by left].
      by eapply step_single.
    + exists [c], l, l'. split; [done|]. apply Hlast; [|by eapply paired_index|done|done|].
      * by eapply step_edge.
      * right. by exists b.
  - pose proof (StronglySorted_inv Hs) as [Hs' Hmin]. rewrite Forall_forall in Hmin.
    assert (e_index a < e_index b) as Hab by (apply Hafter; left).
    assert (∀ x, x ∈ b :: S → e_index b ≤ e_index x) as Hb.
    { intros x [->|Hx]%elem_of_cons; [done|]. apply Hmin in Hx. unfold before in Hx. lia. }
    assert (∀ x, x ∈ P → e_index a < e_index x → x ∈ b :: S) as Hrest.
    { intros x Hx Hax. destruct (proj1 (elem_of_cons _ _ _) (Hup a x ltac:(left) Hx Hax)) as [->|]; [lia|done]. }
    pose proof (half_cases (e_index a)) as Ha2. pose proof (half_cases (e_index b)) as Hb2.
    cbn [app] in Hm. inversion Hm as [| |x y l a' l' Hne Hp Hsi Hm'|x y c l l' Hne Hp Hpa Hm']; subst.
    + destruct (IH (b :: S) l') as (P' & Q1 & Q' & -> & Hl); [cbn in *; lia|done|done| | | |].
      * intros x Hx. apply Hin. by right.
      * intros x y Hx Hy Hxy. apply Hrest; [done|]. apply Hb in Hx. unfold before in Hxy. lia.
      * intros x [= <-] Hodd' (d & Hd & Hdi). pose proof (even_half (e_index b)) as He. rewrite Hodd' in He.
        destruct (decide (e_index a < e_index d)) as [Had|Had]; [apply Hrest, Hb in Had; [lia|done]|lia].
      * exists (a' :: P'), Q1, Q'. split; [done|]. apply (Hcons (b :: S)); [|by eapply single_index|done|by right|].
        { eapply step_single; [done..|]. apply Hsib. pose proof (even_half (e_index a)) as He.
          destruct (Z.even (e_index a)); [left|by right]. intros (x & Hx & Hxi). apply Hb in Hx. lia. }
        intros x Hx. split; [done|]. pose proof (Hb _ Hx). destruct (half_cases (e_index x)); lia.
    + assert (∀ x, x ∈ S → e_index b < e_index x) as HS by (intros x Hx; by apply Hmin).
      destruct (IH S l') as (P' & Q1 & Q' & -> & Hl); [cbn in *; lia|done|done| | | |].
      * intros x Hx. apply Hin. right. by right.
      * intros x y Hx Hy Hxy. pose proof (HS _ Hx). unfold before in Hxy.
        destruct (proj1 (elem_of_cons _ _ _) (Hrest y Hy ltac:(lia))) as [->|]; [lia|done].
      * intros x Hx Hodd' (d & Hd & Hdi). destruct S as [|x' S]; [done|]. injection Hx as ->.
        pose proof (even_half (e_index x)) as He. rewrite Hodd' in He. pose proof (HS x ltac:(left)).
        assert (d ∈ b :: x :: S) as [->|[->|Hd']%elem_of_cons]%elem_of_cons by (apply Hrest; [done|lia]); [lia|lia|].
        apply StronglySorted_inv in Hs' as [_ Hmin']. rewrite Forall_forall in Hmin'. apply Hmin' in Hd'. unfold before in Hd'. lia.
      * exists (c :: P'), Q1, Q'. split; [done|]. apply (Hcons S); [|by eapply paired_index|done| |].
        { apply (step_pair _ _ _ _ _ a b); [done|apply Hin; right; left|lia|lia|done]. }
        { intros x [->|Hx]%elem_of_cons; [by left|by right]. }
        intros x Hx. split; [by right|]. pose proof (HS _ Hx). destruct (half_cases (e_index x)); lia.
Qed.
End Join.

(** ** Roots *)

Lemma div_pow_succ i l : i / 2 ^ Z.of_nat (S l) = i / 2 ^ Z.of_nat l / 2.
Proof. rewrite Nat2Z.inj_succ, Z.pow_succ_r, Z.mul_comm, Z.div_div by lia. done. Qed.

Lemma half_range k a : 0 < a → 0 ≤ k < 2 ^ a → 0 ≤ k / 2 < 2 ^ (a - 1).
Proof. intros Ha Hk. replace a with (1 + (a - 1)) in Hk by lia. rewrite Z.pow_add_r in Hk by lia. destruct (half_cases k); lia. Qed.

Lemma region_end n f l : n / 2 ^ Z.of_nat l ≤ f → (n - 1) / 2 ^ Z.of_nat l ≠ f → n ≤ f * 2 ^ Z.of_nat l.
Proof.
  intros Hf Hne. assert (0 < 2 ^ Z.of_nat l) as Hp by (apply Z.pow_pos_nonneg; lia).
  pose proof (Z.div_mod n (2 ^ Z.of_nat l)). pose proof (Z.mod_pos_bound n (2 ^ Z.of_nat l)).
  pose proof (Z.div_mod (n - 1) (2 ^ Z.of_nat l)). pose proof (Z.mod_pos_bound (n - 1) (2 ^ Z.of_nat l)). nia.
Qed.

Lemma region_before n k l : n ≤ k * 2 ^ Z.of_nat l → (n - 1) / 2 ^ Z.of_nat l ≠ k - 1 → n ≤ (k - 1) * 2 ^ Z.of_nat l.
Proof.
  intros Hf Hne. assert (0 < 2 ^ Z.of_nat l) as Hp by (apply Z.pow_pos_nonneg; lia).
  pose proof (Z.div_mod (n - 1) (2 ^ Z.of_nat l)). pose proof (Z.mod_pos_bound (n - 1) (2 ^ Z.of_nat l)). nia.
Qed.

Section Roots.
Context `{Blake2sLaws}.
Variable leaf_cache : gmap Z (LeafProof * option LeafUpdateRecord).
Variable empty_hashes : list Z.
Variable N : nat.
Variable T : Tree.
Variable n : Z.
Variable CF : list Z → Prop.

Hypothesis no_collision : collision_free CF.
Hypothesis tree_hashed : ∀ x, tree_input N T x → CF x.
Hypothesis tree_wf : ∀ i, leaf_wf (T i).
Hypothesis tree_empty : ∀ i, n ≤ i → T i = empty_leaf.
Hypothesis empty_hashed : ∀ l, (l < N)%nat → empty_hashes !! l = Some (empty_hash l).
Hypothesis cache_ok : ∀ i lp m, leaf_cache !! i = Some (lp, m) →
  0 ≤ i < 2 ^ Z.of_nat N ∧ leaf_wf (lp_leaf lp) ∧ Forall is_u256 (lp_path lp).

Abbreviation entry := (Z * Z * option Z * option Z)%type.
Abbreviation at_level l i := (i / 2 ^ Z.of_nat l).
Abbreviation in_level l k := (0 ≤ k < 2 ^ (Z.of_nat N - Z.of_nat l)).

(** [merged], [m] times. *)
Fixpoint merged_up (m level : nat) (B B' : list entry) : Prop :=
  match m with
  | O => B' = B
  | S m => ∃ B1, merged leaf_cache empty_hashes n CF level B B1 ∧ merged_up m (S level) B1 B'
  end.

(** The oracle has told the truth about the leaves below a node. *)
Definition authentic (l : nat) (k : Z) : Prop :=
  ∀ i lp m, leaf_cache !! i = Some (lp, m) → at_level l i = k → lp_leaf lp = T i.

Lemma tree_node l k a b : (l < N)%nat → in_level (S l) k → is_u256 a → is_u256 b → CF (node_bytes a b) →
  digest (node_bytes a b) = tree_hash T (S l) k → a = tree_hash T l (2 * k) ∧ b = tree_hash T l (2 * k + 1).
Proof.
  intros Hl Hk Ha Hb HC E. apply no_collision in E; [|done|].
  - apply node_bytes_inj in E; [done|done|done|apply tree_hash_range..].
  - apply tree_hashed. right. exists l, k. split_conj; [done|lia| |done].
    replace (Z.of_nat N - 1 - Z.of_nat l) with (Z.of_nat N - Z.of_nat (S l)) by lia. lia.
Qed.

(** The hash of a node of a tree from those of a child and its sibling. *)
Lemma tree_hash_sibling (U : Tree) l k : tree_hash U (S l) (k / 2) =
  digest (if Z.even k then node_bytes (tree_hash U l k) (tree_hash U l (sibling_index k))
          else node_bytes (tree_hash U l (sibling_index k)) (tree_hash U l k)).
Proof.
  cbn [tree_hash]. unfold sibling_index. pose proof (even_half k) as Hk.
  destruct (Z.even k); rewrite <- Hk; [done|]. by replace (2 * (k / 2)) with (k - 1) by lia.
Qed.

Lemma tree_node_sibling l k h p : (l < N)%nat → in_level (S l) (k / 2) → is_u256 h → is_u256 p →
  CF (if Z.even k then node_bytes h p else node_bytes p h) →
  digest (if Z.even k then node_bytes h p else node_bytes p h) = tree_hash T (S l) (k / 2) →
  h = tree_hash T l k ∧ p = tree_hash T l (sibling_index k).
Proof.
  intros Hl Hk Hh Hp HC E. unfold sibling_index. pose proof (even_half k) as Hev.
  destruct (Z.even k); (apply (tree_node l (k / 2)) in E as [-> ->]; [|done..]); rewrite <- Hev; [done|].
  by replace (2 * (k / 2)) with (k - 1) by lia.
Qed.

Lemma range_half l k : (l < N)%nat → in_level l k → in_level (S l) (k / 2).
Proof. intros Hl Hk. apply half_range in Hk; [|lia]. replace (Z.of_nat N - Z.of_nat (S l)) with (Z.of_nat N - Z.of_nat l - 1) by lia. done. Qed.

Lemma sibling_range l b p : (l < N)%nat → sibling leaf_cache empty_hashes l b = Some p → is_u256 p.
Proof.
  intros Hl. unfold sibling. destruct (leaf_cache !! b) as [[lp m]|] eqn:Hb.
  - intros Hp. destruct (cache_ok _ _ _ Hb) as (_ & _ & Hf). rewrite Forall_forall in Hf. apply Hf.
    by eapply list_elem_of_lookup_2.
  - rewrite empty_hashed by done. intros [= <-]. apply tree_hash_range.
Qed.

(** *** The root before *)

Record read_entry (l : nat) (a : entry) : Prop := {
  re_range : in_level l (e_index a);
  re_hash : ∃ h, e_read a = Some h ∧ is_u256 h ∧ (h = tree_hash T l (e_index a) → authentic l (e_index a))
}.

Record read_level (l : nat) (P Qs : list entry) : Prop := {
  rl_sorted : StronglySorted before P;
  rl_entries : Forall (read_entry l) P;
  rl_covers i : is_Some (leaf_cache !! i) → occupied P (at_level l i);
  rl_appended : Qs = [] ∨ is_Some (leaf_cache !! (n - 1))
    ∧ ∃ f, consecutive f Qs ∧ at_level l n ≤ f ≤ at_level l n + 1
}.

Lemma read_single l P a e : (l < N)%nat → (∀ i, is_Some (leaf_cache !! i) → occupied P (at_level l i)) →
  read_entry l a → ¬ occupied P (sibling_index (e_index a)) → single leaf_cache empty_hashes CF l a e → read_entry (S l) e.
Proof.
  intros Hl Hcov [Hk (h & Hr & Hh & Hauth)] Hsib Hs. destruct Hs as [k b r w p r' w' Hp Hj _]. cbn in *. subst r. destruct Hj as [HC ->].
  apply range_half in Hk; [|done]. split; [done|]. eexists. split_conj; [done|apply digest_range|]. cbn [fst snd].
  intros E i lp m Hi Hik. rewrite div_pow_succ in Hik. destruct (Hcov i) as (x & Hx & Hxi); [by eexists|].
  apply sibling_range in Hp; [|done]. apply tree_node_sibling in E as [Eh _]; [|done..].
  apply (Hauth Eh i lp m); [done|]. destruct (decide (e_index x = k)) as [<-|Hne]; [done|].
  exfalso. apply Hsib. exists x. split; [done|]. unfold sibling_index. rewrite <- Hxi in Hik. pose proof (even_half k) as Hev.
  destruct (half_cases (e_index x)), (Z.even k); lia.
Qed.

Lemma level_child l i k : at_level (S l) i = k → at_level l i = 2 * k ∨ at_level l i = 2 * k + 1.
Proof. rewrite div_pow_succ. intros <-. apply half_cases. Qed.

Lemma read_pair l a b e : (l < N)%nat → read_entry l a → read_entry l b →
  e_index a = 2 * (e_index a / 2) → e_index b = e_index a + 1 → paired empty_hashes n CF l a b e → read_entry (S l) e.
Proof.
  intros Hl [Hk (h & Hr & Hh & Hauth)] [Hk' (h' & Hr' & Hh' & Hauth')] Ha Hb Hs.
  destruct Hs as [k bl r w k' bl' r' w' e rc wc _ Hj _ _]. cbn in *. subst r r'. destruct Hj as [HC ->].
  cbn in HC. apply range_half in Hk; [|done]. split; [done|]. eexists. split_conj; [done|apply digest_range|].
  cbn. intros E i lp m Hi Hik. apply (tree_node l (k / 2)) in E as [E1 E2]; [|done..].
  rewrite <- Ha in E1. rewrite <- Ha, <- Hb in E2.
  destruct (level_child _ _ _ Hik); [apply (Hauth E1 i lp m)|apply (Hauth' E2 i lp m)]; first [done|lia].
Qed.

(** The last old subtree with the first new one, which may precede it in the tree if
    the two are empty. *)
Lemma read_edge l P a q e : (l < N)%nat → (∀ i, is_Some (leaf_cache !! i) → occupied P (at_level l i)) →
  read_entry l a → ¬ occupied P (sibling_index (e_index a)) → is_Some (leaf_cache !! (n - 1)) →
  at_level l n ≤ e_index q → e_read q = None → e_index a / 2 = e_index q / 2 → e_index a ≠ e_index q →
  paired empty_hashes n CF l a q e → read_entry (S l) e.
Proof.
  intros Hl Hcov [Hk (h & Hr & Hh & Hauth)] Hsib Hn Hq Hrq Hp Hne Hs.
  destruct Hs as [k bl r w k' bl' r' w' e rc wc He Hj _ _]. cbn in *. subst r r'. destruct Hj as [HC ->].
  rewrite empty_hashed in He by done. injection He as <-. cbn in HC.
  pose proof Hk as Hk2. apply range_half in Hk2; [|done]. split; [done|].
  eexists. split_conj; [done|apply digest_range|]. cbn. intros E i lp m Hi Hik.
  apply (tree_node l (k / 2)) in E as [E1 E2]; [|done|done|done|apply tree_hash_range|done].
  pose proof (even_half k) as Hev. unfold sibling_index in Hsib.
  assert (at_level l i = k) as Hk1.
  { destruct (Hcov i) as (x & Hx & Hxi); [by eexists|]. destruct (decide (e_index x = k)) as [<-|Hxk]; [done|].
    exfalso. apply Hsib. exists x. split; [done|]. destruct (level_child _ _ _ Hik), (Z.even k); lia. }
  refine (Hauth _ i lp m Hi Hk1). destruct (Z.even k); [by rewrite <- Hev in E1|].
  assert (k' = k - 1) as -> by (destruct (half_cases k'); lia).
  assert (n ≤ (k - 1) * 2 ^ Z.of_nat l) as Hreg.
  { apply region_end; [done|]. intros Heq. apply Hsib. rewrite <- Heq. by apply Hcov. }
  rewrite <- Hev in E2. rewrite E1. replace (2 * (k / 2)) with (k - 1) by lia. rewrite <- E2.
  apply empty_region. intros j Hj. apply tree_empty. lia.
Qed.

Lemma sorted_head (P : list entry) : StronglySorted before P →
  ∀ a, head P = Some a → Z.even (e_index a) = false → ¬ occupied P (e_index a - 1).
Proof.
  intros Hs a Ha' Hev (b & Hb & Hbi). destruct P as [|a' P]; [done|]. injection Ha' as ->.
  apply StronglySorted_inv in Hs as [_ Hs]. rewrite Forall_forall in Hs. apply elem_of_cons in Hb as [->|Hb]; [lia|].
  apply Hs in Hb. unfold before in Hb. lia.
Qed.

Lemma read_step l P Qs B : (l < N)%nat → read_level l P Qs → merged leaf_cache empty_hashes n CF l (P ++ Qs) B →
  ∃ P' Q', B = P' ++ Q' ∧ read_level (S l) P' Q'.
Proof.
  intros Hl [Hs He Hc Ha] Hm. apply (merged_split _ _ _ _ _ P _ _ _ (length P)) in Hm as (P' & Q1 & Q' & -> & Hsp); [|done|done|done|by intros|].
  2: by apply sorted_head.
  exists P', Q'. split; [done|]. destruct Hsp as [Hrest Hedge Hs' Hst Hcov _]. rewrite Forall_forall in He. split; [done| | |].
  - eapply Forall_impl; [exact Hst|]. intros e [a HaP Hsi Hno|a b HaP HbP Hev Hb Hp|a q tl HaP -> Hhalf Hne Hp Hno].
    + eapply read_single; eauto.
    + eapply (read_pair l a b); eauto.
    + destruct Ha as [|(Hn & f & (Hf & Hr & _) & Hf')]; [done|]. eapply (read_edge l P a q); eauto. lia.
  - intros i Hi. rewrite div_pow_succ. destruct (Hc i Hi) as (a & HaP & <-). by apply Hcov.
  - destruct Ha as [->|(Hn & f & Hf & Hf')].
    { left. destruct Hedge as [->|(q & a & ? & _)]; [|done]. by inversion Hrest. }
    right. split; [done|]. rewrite div_pow_succ.
    destruct Hedge as [->|(q & a & -> & _)]; (eapply merged_consecutive in Hrest; [|by apply Hf]).
    + exists (f / 2). split; [done|]. destruct (half_cases f), (half_cases (at_level l n)); lia.
    + exists ((f + 1) / 2). split; [done|]. destruct (half_cases (f + 1)), (half_cases (at_level l n)); lia.
Qed.

Lemma read_up m l P Qs B : (l + m = N)%nat → read_level l P Qs → merged_up m l (P ++ Qs) B →
  ∃ P' Q', B = P' ++ Q' ∧ read_level N P' Q'.
Proof.
  revert l P Qs. induction m as [|m IH]; intros l P Qs Hl Hr; cbn [merged_up].
  - intros ->. exists P, Qs. split; [done|]. by replace N with l by lia.
  - intros (B1 & Hm & Hu). apply (read_step l) in Hm as (P1 & Q1 & -> & Hr1); [|lia|done].
    apply (IH (S l) P1 Q1); [lia|done|done].
Qed.

(** The root before is that of the tree only if all leaves are. *)
Lemma read_root m P Qs k b r w : (m = N)%nat → read_level 0 P Qs → merged_up m 0 (P ++ Qs) [(k, b, Some r, w)] →
  r = tree_hash T N 0 → ∀ i lp md, leaf_cache !! i = Some (lp, md) → lp_leaf lp = T i.
Proof.
  intros -> Hr Hm -> i lp md Hi. apply read_up in Hm as (P' & Q' & E & [_ He Hc _]); [|done..].
  destruct (Hc i) as (a & Ha & Hai); [by eexists|]. destruct P' as [|a' P']; [by apply elem_of_nil in Ha|].
  injection E as <- E. symmetry in E. apply app_eq_nil in E as [-> _]. apply list_elem_of_singleton in Ha as ->.
  apply Forall_singleton in He as [Hk (h & [= <-] & _ & Hauth)]. cbn in *.
  assert (k = 0) as -> by (rewrite Z.sub_diag in Hk; lia). by apply (Hauth eq_refl i lp md).
Qed.

(** *** The root after *)

Section Write.
Variable T' : Tree.

Hypothesis cached_old : ∀ i, is_Some (leaf_cache !! i) → i < n.

Record write_entry (l : nat) (a : entry) : Prop := {
  we_read : match e_read a with
            | Some h => in_level l (e_index a) ∧ is_u256 h
            | None => n ≤ e_index a * 2 ^ Z.of_nat l ∧ n ≤ e_below a
            end;
  we_write : default (empty_hash l) (e_read a) = tree_hash T l (e_index a) →
    default (tree_hash T l (e_index a)) (e_write a) = tree_hash T' l (e_index a)
}.

Record write_level (l : nat) (B : list entry) : Prop := {
  wl_sorted : StronglySorted before B;
  wl_entries : Forall (write_entry l) B;
  wl_covers i : ¬ occupied B (at_level l i) → T' i = T i;
  wl_last : (∀ a, a ∈ B → e_read a ≠ None) ∨ occupied B (at_level l (n - 1))
}.

Lemma new_region l k : n ≤ k * 2 ^ Z.of_nat l → tree_hash T l k = empty_hash l.
Proof. intros Hk. apply empty_region. intros i Hi. apply tree_empty. lia. Qed.

(** A subtree nobody stands for has not changed. *)
Lemma unchanged l B k : (∀ i, ¬ occupied B (at_level l i) → T' i = T i) → ¬ occupied B k →
  tree_hash T' l k = tree_hash T l k.
Proof.
  intros Hc Hno. apply tree_hash_ext. intros i Hi. apply Hc. replace (at_level l i) with k; [done|].
  apply (Z.div_unique_pos _ _ _ (i - k * 2 ^ Z.of_nat l)); lia.
Qed.

Lemma write_single l B a e : (l < N)%nat → write_level l B → a ∈ B → ¬ occupied B (sibling_index (e_index a)) →
  single leaf_cache empty_hashes CF l a e → write_entry (S l) e.
Proof.
  intros Hl [_ He Hc Hlast] Ha Hsib Hs. rewrite Forall_forall in He. pose proof (He _ Ha) as [Hr Hw].
  pose proof (unchanged _ _ _ Hc Hsib) as Hun.
  destruct Hs as [k b r w p r' w' Hp Hjr Hjw]. cbn in *.
  assert (match r' with Some h => in_level (S l) (k / 2) ∧ is_u256 h | None => n ≤ k / 2 * 2 ^ Z.of_nat (S l) ∧ n ≤ b end
    ∧ (default (empty_hash (S l)) r' = tree_hash T (S l) (k / 2) →
       default (empty_hash l) r = tree_hash T l k ∧ p = tree_hash T l (sibling_index k))) as [H1 H2].
  { destruct r as [h|]; cbn in Hjr.
    - destruct Hjr as [HC ->]. destruct Hr as [Hk Hh]. apply range_half in Hk; [|done].
      split; [split; [done|apply digest_range]|]. apply sibling_range in Hp; [|done]. by apply tree_node_sibling.
    - subst r'. destruct Hr as [Hk Hb]. destruct Hlast as [Hlast|Hlast]; [by apply Hlast in Ha|].
      assert (n ≤ k / 2 * 2 ^ Z.of_nat (S l) ∧ n ≤ sibling_index k * 2 ^ Z.of_nat l) as [Hn1 Hn2].
      { rewrite Nat2Z.inj_succ, Z.pow_succ_r by lia. assert (0 < 2 ^ Z.of_nat l) by (apply Z.pow_pos_nonneg; lia).
        unfold sibling_index in *. pose proof (even_half k) as Hev. destruct (Z.even k); [nia|].
        enough (n ≤ (k - 1) * 2 ^ Z.of_nat l) by nia. apply region_before; [done|]. intros E. apply Hsib. by rewrite <- E. }
      split; [done|]. intros _. rewrite !new_region by done. split; [done|]. unfold sibling in Hp.
      destruct (leaf_cache !! b) eqn:Hcb; [assert (b < n) by (apply cached_old; by eexists); lia|].
      rewrite empty_hashed in Hp by done. by injection Hp. }
  split; cbn [fst snd]; [done|]. intros E. destruct (H2 E) as [E1 E2]. specialize (Hw E1). rewrite (tree_hash_sibling T'), Hun, <- E2, <- Hw.
  destruct w as [w|]; cbn in Hjw; [by destruct Hjw as [_ ->]|]. subst w'. cbn [default]. by rewrite E2, <- tree_hash_sibling.
Qed.

Lemma joined_pair_default Q x y h h' c : joined_pair Q x y h h' c →
  h = None ∧ h' = None ∧ c = None
  ∨ (is_Some h ∨ is_Some h') ∧ Q (node_bytes (default x h) (default y h'))
    ∧ c = Some (digest (node_bytes (default x h) (default y h'))).
Proof. destruct h, h'; cbn; intros Hj; [right|right|right|by left]; (split; [eauto|done]). Qed.

Lemma write_pair l a b e : (l < N)%nat → write_entry l a → write_entry l b →
  e_index a = 2 * (e_index a / 2) → e_index b = e_index a + 1 →
  paired empty_hashes n CF l a b e → write_entry (S l) e.
Proof.
  intros Hl [Hr Hw] [Hr' Hw'] Ha Hb Hs. destruct Hs as [k bl r w k' bl' r' w' e rc wc He Hjr Hjw _]. cbn in *. subst k'.
  rewrite empty_hashed in He by done. injection He as <-. apply joined_pair_default in Hjr, Hjw.
  assert (match rc with Some h => in_level (S l) (k / 2) ∧ is_u256 h | None => n ≤ k / 2 * 2 ^ Z.of_nat (S l) ∧ n ≤ bl end
    ∧ (default (empty_hash (S l)) rc = tree_hash T (S l) (k / 2) →
       default (empty_hash l) r = tree_hash T l k ∧ default (empty_hash l) r' = tree_hash T l (k + 1))) as [H1 H2].
  { assert (∀ r, match r with Some h => is_u256 h | None => True end → is_u256 (default (empty_hash l) r)) as Hu
      by (intros [?|] ?; [done|apply tree_hash_range]).
    destruct Hjr as [(-> & -> & ->)|(HSome & HC & ->)].
    - rewrite Nat2Z.inj_succ, Z.pow_succ_r by lia. split; [nia|]. intros _. by rewrite !new_region by nia.
    - assert (in_level (S l) (k / 2)) as Hk.
      { destruct HSome as [[h ->]|[h ->]]; [by apply range_half; destruct Hr|].
        destruct Hr' as [Hk _]. apply range_half in Hk; [|done]. by replace (k / 2) with ((k + 1) / 2)
          by (destruct (half_cases (k + 1)); lia). }
      split; [split; [done|apply digest_range]|]. cbn [default]. intros E.
      apply (tree_node l (k / 2)) in E as [-> ->]; [by rewrite <- Ha| | | | |]; try done; apply Hu.
      + destruct r; [apply Hr|done].
      + destruct r'; [apply Hr'|done]. }
  split; cbn [fst snd]; [done|]. intros E. destruct (H2 E) as [E1 E2]. specialize (Hw E1). specialize (Hw' E2).
  rewrite E1, E2, Hw, Hw' in Hjw. cbn [tree_hash]. rewrite <- Ha.
  destruct Hjw as [(-> & -> & ->)|(_ & _ & ->)]; [|done]. cbn in Hw, Hw' |- *. by rewrite Hw, Hw'.
Qed.

Lemma write_step l B B' : (l < N)%nat → write_level l B → merged leaf_cache empty_hashes n CF l B B' → write_level (S l) B'.
Proof.
  intros Hl HB Hm. pose proof HB as [Hs He Hc Hlast]. rewrite <- (app_nil_r B) in Hm.
  apply (merged_split _ _ _ _ _ B _ _ _ (length B)) in Hm as (P' & Q1 & Q' & -> & Hsp); [|done|done|done|by intros|].
  2: by apply sorted_head.
  destruct Hsp as [Hrest Hedge Hs' Hst Hcov Hfrom].
  assert (Q' = []) as -> by (destruct Hedge as [->|(q & a & ? & _)]; [by inversion Hrest|done]). rewrite app_nil_r.
  rewrite Forall_forall in He. assert (∀ i, occupied B (at_level l i) → occupied P' (at_level (S l) i)) as Hocc.
  { intros i (a & Ha & Hi). rewrite div_pow_succ, <- Hi. by apply Hcov. }
  split; [done| | |].
  - eapply Forall_impl; [exact Hst|]. intros e [a HaP Hsi Hno|a b HaP HbP Hev Hb Hp|a q tl HaP E _ _ _ _]; [| |done].
    + by eapply write_single.
    + eapply (write_pair l a b); eauto.
  - intros i Hi. apply Hc. auto.
  - destruct Hlast as [Hlast|Hlast]; [left|right; by apply Hocc].
    intros e Hin. rewrite Forall_forall in Hst. destruct (Hst _ Hin) as [a HaP Hsi _|a b HaP HbP _ _ Hp|a q tl _ E _ _ _ _]; [| |done].
    + specialize (Hlast _ HaP). destruct Hsi as [k b r w p r' w' _ Hj _]. destruct r; [|done]. by destruct Hj as [_ ->].
    + specialize (Hlast _ HaP). destruct Hp as [k bl r w k' bl' r' w' e rc wc _ Hj _ _]. destruct r; [|done]. by destruct Hj as [_ ->].
Qed.

Lemma write_up m l B B' : (l + m = N)%nat → write_level l B → merged_up m l B B' → write_level N B'.
Proof.
  revert l B. induction m as [|m IH]; intros l B Hl Hr; cbn [merged_up].
  - intros ->. by replace N with l by lia.
  - intros (B1 & Hm & Hu). apply (IH (S l) B1); [lia| |done]. eapply write_step; [lia|done|done].
Qed.

Lemma write_root B k b r w : write_level 0 B → merged_up N 0 B [(k, b, Some r, w)] →
  r = tree_hash T N 0 → default r w = tree_hash T' N 0.
Proof.
  intros Hr Hm ->. apply write_up in Hm as [_ He _ _]; [|done..]. apply Forall_singleton in He as [[Hk _] Hw]. cbn in *.
  assert (k = 0) as -> by (rewrite Z.sub_diag in Hk; lia). auto.
Qed.
End Write.
End Roots.

(** ** From the leaves to the roots *)

Section BTree.
Context {V : Type}.
Implicit Types m : gmap Z V.

#[local] Instance key_le_trans : Transitive (key_le (V:=V)).
Proof. intros a b c. unfold key_le. lia. Qed.
#[local] Instance key_le_total : Total (key_le (V:=V)).
Proof. intros a b. unfold key_le. lia. Qed.

Lemma elem_of_btree_iter m i x : (i, x) ∈ btree_iter m ↔ m !! i = Some x.
Proof. unfold btree_iter. rewrite merge_sort_Permutation. apply elem_of_map_to_list. Qed.

Lemma sorted_strict (l : list (Z * V)) : StronglySorted key_le l → NoDup l.*1 → StronglySorted (λ a b, a.1 < b.1) l.
Proof.
  induction 1 as [|a l Hs IH Ha]; cbn; [constructor|]. intros [Hn Hd]%NoDup_cons. constructor; [auto|].
  rewrite Forall_forall in *. intros b Hb. specialize (Ha b Hb). unfold key_le in Ha.
  destruct (decide (a.1 = b.1)) as [E|]; [|lia]. exfalso. apply Hn. rewrite E. by apply list_elem_of_fmap_2.
Qed.

Lemma btree_iter_sorted m : StronglySorted (λ a b, a.1 < b.1) (btree_iter m).
Proof.
  apply sorted_strict; [apply StronglySorted_merge_sort; apply _|].
  unfold btree_iter. rewrite merge_sort_Permutation. apply NoDup_fst_map_to_list.
Qed.
End BTree.

Section Paths.
Context `{Blake2sLaws} `{StateOracle} `{Usize}.
Abbreviation entry := (Z * Z * option Z * option Z)%type.
Abbreviation grows log log' := (∀ x : list Z, x ∈ log → x ∈ log').
Implicit Types C : gmap Z (LeafProof * option LeafUpdateRecord).

Lemma merged_up_mono C es n (Q Q' : list Z → Prop) m l B B' :
  (∀ x, Q x → Q' x) → merged_up C es n Q m l B B' → merged_up C es n Q' m l B B'.
Proof.
  intros HQ. revert l B. induction m as [|m IH]; intros l B; cbn [merged_up]; [done|].
  intros (B1 & Hm & Hu). exists B1. split; [by eapply merged_mono|auto].
Qed.

Lemma yields_levels C es n m l B log : yields (join_levels C es n m l B) log
  (λ B' log', merged_up C es n (λ x, x ∈ log') m l B B' ∧ grows log log').
Proof.
  revert l B log. induction m as [|m IH]; intros l B log; cbn [join_levels merged_up]; [by ystep|].
  ystep. eapply yields_mono; [apply yields_level|]. intros B1 log1 (Hm & _ & Hg).
  eapply yields_mono; [apply IH|]. intros B' log2 [Hu Hg2]. split; [|auto].
  exists B1. split; [eapply merged_mono; [exact Hg2|done]|done].
Qed.

Lemma empty_hash_succ l : empty_hash (S l) = digest (node_bytes (empty_hash l) (empty_hash l)).
Proof. unfold empty_hash at 1. cbn [tree_hash]. by rewrite !empty_hash_at. Qed.

Lemma yields_empty_above m l log : yields (empty_hashes_above m (empty_hash l) : M Hasher InternalError _) log
  (λ es log', (∀ j, (j < m)%nat → es !! j = Some (empty_hash (S l + j))) ∧ grows log log').
Proof.
  revert l log. induction m as [|m IH]; intros l log; cbn [empty_hashes_above]; [ystep; split; [lia|done]|].
  ystep. unfold hash_node. eapply yields_mono; [apply yields_finalize|]. intros h log1 (-> & _ & Hg1).
  rewrite <- empty_hash_succ. ystep. eapply yields_mono; [apply IH|]. intros es log2 [Hes Hg2]. ystep.
  split; [|auto]. intros [|j] Hj; cbn; [by rewrite Nat.add_0_r|]. rewrite Hes by lia. by rewrite Nat.add_succ_r.
Qed.

Lemma yields_empty_hashes N log : yields (compute_empty_hashes N : M Hasher InternalError _) log
  (λ es log', (∀ l, (l < N)%nat → es !! l = Some (empty_hash l)) ∧ grows log log').
Proof.
  unfold compute_empty_hashes, hash_leaf. ystep. eapply yields_mono; [apply yields_finalize|]. intros h log1 (-> & _ & Hg1).
  ystep. eapply yields_mono; [apply (yields_empty_above _ 0)|]. intros es log2 [Hes Hg2]. ystep. split; [|auto].
  intros [|l] Hl; [done|]. cbn. rewrite Hes by lia. done.
Qed.

Definition cached_entry (x : Z * (LeafProof * option LeafUpdateRecord)) : entry :=
  (x.1, x.1, Some (digest (leaf_bytes (lp_leaf x.2.1))),
   (λ m, digest (leaf_bytes (updated_leaf (lp_leaf x.2.1) m))) <$> x.2.2).
Definition new_entry (x : Z * FlatStorageLeaf) : entry := (x.1, x.1, None, Some (digest (leaf_bytes x.2))).

Lemma yields_cached l log : yields (cached_hashes l) log (λ es log', es = cached_entry <$> l
  ∧ (∀ x, x ∈ l → leaf_bytes (lp_leaf x.2.1) ∈ log') ∧ grows log log').
Proof.
  revert log. induction l as [|[i [lp m]] l IH]; intros log; cbn [cached_hashes]; unfold hash_leaf.
  { ystep. split_conj; [done|by intros ? ?%elem_of_nil|done]. }
  ystep. eapply yields_mono; [apply yields_finalize|]. intros h log1 (-> & Hin & Hg1). ystep.
  eapply (yields_mono _ _ (λ u log2, u = (λ m, digest (leaf_bytes (updated_leaf (lp_leaf lp) m))) <$> m ∧ grows log1 log2)).
  { destruct m as [m|]; [|by ystep]. ystep. eapply yields_mono; [apply yields_finalize|]. intros h log2 (-> & _ & Hg2). by ystep. }
  intros u log2 [-> Hg2]. ystep. eapply yields_mono; [apply IH|]. intros es log3 (-> & Hl & Hg3). ystep.
  split_conj; [done| |auto]. intros x [->|Hx]%elem_of_cons; auto.
Qed.

Lemma yields_new l log : yields (new_hashes l) log (λ es log', es = new_entry <$> l ∧ grows log log').
Proof.
  revert log. induction l as [|[i leaf] l IH]; intros log; cbn [new_hashes]; unfold hash_leaf; [by ystep|].
  ystep. eapply yields_mono; [apply yields_finalize|]. intros h log1 (-> & Hin & Hg1). ystep.
  eapply yields_mono; [apply IH|]. intros es log2 (-> & Hg2). ystep. split; [done|auto].
Qed.

(** *** The leaves *)

(** The tree after the updates of cached leaves and the new ones. *)
Definition updated_tree (T : Tree) (n : Z) C (W : list (Z * FlatStorageLeaf)) : Tree := λ i,
  match C !! i with
  | Some (_, m) => from_option (updated_leaf (T i)) (T i) m
  | None => if n <=? i then from_option snd (T i) (W !! Z.to_nat (i - n)) else T i
  end.

(** What the cache and the new leaves are, when the paths are joined. *)
Record opened (N : nat) (n : Z) C (W : list (Z * FlatStorageLeaf)) : Prop := {
  opened_cache i lp m : C !! i = Some (lp, m) →
    0 ≤ i < 2 ^ Z.of_nat N ∧ leaf_wf (lp_leaf lp) ∧ Forall is_u256 (lp_path lp);
  opened_new j x : W !! j = Some x → x.1 = n + Z.of_nat j;
  opened_last : W = [] ∨ is_Some (C !! (n - 1))
}.

Record tree_ok (N : nat) (T : Tree) (n : Z) (CF : list Z → Prop) : Prop := {
  tree_no_collision : collision_free CF;
  tree_inputs x : tree_input N T x → CF x;
  tree_leaves i : leaf_wf (T i);
  tree_above i : n ≤ i → T i = empty_leaf
}.

Lemma map_sorted {A} (f : A → entry) (g : A → Z) (l : list A) : (∀ x, e_index (f x) = g x) →
  StronglySorted (λ a b, g a < g b) l → StronglySorted before (f <$> l).
Proof.
  intros Hf. induction 1 as [|a l Hs IH Ha]; cbn; constructor; [done|]. rewrite Forall_fmap.
  eapply Forall_impl; [exact Ha|]. intros b Hb. cbn. unfold before. by rewrite !Hf.
Qed.

Lemma new_consecutive f W : (∀ j x, W !! j = Some x → x.1 = f + Z.of_nat j) → consecutive f (new_entry <$> W).
Proof.
  revert f. induction W as [|x W IH]; intros f HW; cbn; [done|]. split_conj; [by rewrite (HW O x eq_refl), Z.add_0_r|done|].
  apply IH. intros j y Hy. rewrite (HW (S j) y Hy). lia.
Qed.

Lemma cached_occupied C i x : C !! i = Some x → occupied (cached_entry <$> btree_iter C) i.
Proof.
  intros Hi. exists (cached_entry (i, x)). split; [|done]. by apply list_elem_of_fmap_2, elem_of_btree_iter.
Qed.

Lemma leaf_read_level N T n CF C W : opened N n C W → tree_ok N T n CF →
  (∀ i lp m, C !! i = Some (lp, m) → CF (leaf_bytes (lp_leaf lp))) →
  read_level C N T n 0 (cached_entry <$> btree_iter C) (new_entry <$> W).
Proof.
  intros [HC HW HL] [Hcf Ht Hwf He] Hleaf. split.
  - apply (map_sorted _ fst); [done|]. apply btree_iter_sorted.
  - apply Forall_fmap, Forall_forall. intros [i [lp m]] Hi%elem_of_btree_iter. destruct (HC _ _ _ Hi) as (Hr & Hw & _).
    split; cbn; [by rewrite Z.sub_0_r|]. eexists. split_conj; [done|apply digest_range|]. intros E j lp' m' Hj Hji.
    rewrite Z.div_1_r in Hji. subst j. rewrite Hi in Hj. injection Hj as <- <-.
    apply leaf_bytes_inj; [done..|]. apply Hcf; [by eapply Hleaf| |done]. apply Ht. left. by exists i.
  - intros i [x Hx]. rewrite Z.div_1_r. by eapply cached_occupied.
  - destruct HL as [->|HL]; [by left|right]. split; [done|]. exists n. rewrite Z.div_1_r. split; [by apply new_consecutive|lia].
Qed.

Lemma sorted_app {A} (R : A → A → Prop) l k : StronglySorted R l → StronglySorted R k →
  (∀ x y, x ∈ l → y ∈ k → R x y) → StronglySorted R (l ++ k).
Proof.
  intros Hl Hk. induction Hl as [|a l Hl IH Ha]; intros HR; cbn; [done|]. constructor.
  - apply IH. intros x y Hx Hy. apply HR; [by right|done].
  - apply Forall_app. split; [done|]. apply Forall_forall. intros y Hy. apply HR; [left|done].
Qed.

Lemma consecutive_sorted f l : consecutive f l → StronglySorted before l ∧ ∀ a, a ∈ l → f ≤ e_index a.
Proof.
  revert f. induction l as [|a l IH]; intros f; cbn [consecutive].
  { intros _. split; [constructor|by intros ? ?%elem_of_nil]. }
  intros (Ha & _ & [Hs Hf]%IH). split.
  - constructor; [done|]. apply Forall_forall. intros b Hb. unfold before. specialize (Hf b Hb). lia.
  - intros b [->|Hb]%elem_of_cons; [lia|]. specialize (Hf b Hb). lia.
Qed.

Lemma leaf_write_level N T n C W : opened N n C W → (∀ i lp m, C !! i = Some (lp, m) → lp_leaf lp = T i) →
  (∀ i, is_Some (C !! i) → i < n) →
  write_level N T n (updated_tree T n C W) 0 ((cached_entry <$> btree_iter C) ++ (new_entry <$> W)).
Proof.
  intros [HC HW HL] Hauth Hold. apply new_consecutive in HW as Hcons. apply consecutive_sorted in Hcons as [Hs Hge]. split.
  - apply sorted_app; [apply (map_sorted _ fst); [done|apply btree_iter_sorted]|done|].
    intros ? y ([i x] & -> & Hx%elem_of_btree_iter)%list_elem_of_fmap Hy. unfold before. apply Hge in Hy. cbn.
    specialize (Hold i ltac:(by eexists)). lia.
  - apply Forall_app. split; apply Forall_fmap, Forall_forall.
    + intros [i [lp m]] Hi%elem_of_btree_iter. destruct (HC _ _ _ Hi) as (Hr & _).
      split; cbn; [rewrite Z.sub_0_r; split; [done|apply digest_range]|]. intros _.
      unfold updated_tree. rewrite Hi, (Hauth _ _ _ Hi). by destruct m.
    + intros [i leaf] (j & Hj)%list_elem_of_lookup. pose proof (HW _ _ Hj) as Hi. cbn in Hi. split; cbn; [lia|]. intros _.
      unfold updated_tree. destruct (C !! i) eqn:Hc; [assert (i < n) by (apply Hold; by eexists); lia|].
      rewrite (proj2 (Z.leb_le n i)) by lia. replace (Z.to_nat (i - n)) with j by lia. by rewrite Hj.
  - intros i Hno. rewrite Z.div_1_r in Hno. unfold updated_tree.
    destruct (C !! i) as [x|] eqn:Hi.
    { exfalso. apply Hno. apply cached_occupied in Hi as (a & Ha & <-). exists a. split; [|done]. apply elem_of_app. by left. }
    destruct (Z.leb_spec n i); [|done]. destruct (W !! _) as [x|] eqn:Hj; [|done]. exfalso. apply Hno.
    exists (new_entry x). split; [|cbn; rewrite (HW _ _ Hj); lia]. apply elem_of_app. right.
    by eapply list_elem_of_fmap_2, list_elem_of_lookup_2.
  - destruct HL as [->|[x Hx]]; [left|right].
    + intros a. rewrite app_nil_r. by intros (x & -> & _)%list_elem_of_fmap.
    + rewrite Z.div_1_r. apply cached_occupied in Hx as (a & Ha & Hai). exists a. split; [|done]. apply elem_of_app. by left.
Qed.

(** *** [join_paths] *)

(** If the root before is that of a tree, the cached leaves are leaves of the tree, and
    the root after is that of the updated tree. *)
Definition roots_sound (N : nat) (n : Z) C (W : list (Z * FlatStorageLeaf)) (log : Hasher) (read write : option Z) : Prop :=
  ∀ T CF, tree_ok N T n CF → (∀ x, x ∈ log → CF x) → opened N n C W → read = Some (tree_hash T N 0) →
    (∀ i lp m, C !! i = Some (lp, m) → lp_leaf lp = T i)
    ∧ ((∀ i, is_Some (C !! i) → i < n) →
       default (tree_hash T N 0) write = tree_hash (updated_tree T n C W) N 0).

Lemma roots_sound_up N n C W es (log : Hasher) k b read write : (∀ l, (l < N)%nat → es !! l = Some (empty_hash l)) →
  (∀ x, x ∈ btree_iter C → leaf_bytes (lp_leaf x.2.1) ∈ log) →
  merged_up C es n (λ x, x ∈ log) N 0 ((cached_entry <$> btree_iter C) ++ (new_entry <$> W)) [(k, b, read, write)] →
  roots_sound N n C W log read write.
Proof.
  intros Hes Hleaf Hup T CF Hok HCF Hop ->. pose proof Hok as [Hcf Ht Hwf He]. pose proof Hop as [HC _ _].
  apply (merged_up_mono _ _ _ _ CF) in Hup; [|done].
  assert (∀ i lp m, C !! i = Some (lp, m) → lp_leaf lp = T i) as Hauth.
  { eapply (read_root C es N T n CF); [done..| |exact Hup|done]. eapply leaf_read_level; [done|done|].
    intros i lp m Hi. apply HCF. by apply (Hleaf (i, (lp, m))), elem_of_btree_iter. }
  split; [done|]. intros Hold. eapply (write_root C es N T n CF); [done..| |exact Hup|done]. by apply leaf_write_level.
Qed.

Lemma join_paths_sound N n s : yields (join_paths N n) s (λ r s', ∃ log',
  s' = mkBatch _ (oracle s) log' (commitment s) (key_to_index_cache s) (index_to_leaf_cache s) (new_writes s)
         (num_nonexisting_reads s) (num_total_writes s)
  ∧ grows (hashed s) log' ∧ roots_sound N n (index_to_leaf_cache s) (new_writes s) log' r.1 r.2).
Proof.
  unfold join_paths. ystep. apply yields_zoom. eapply yields_mono; [apply yields_empty_hashes|].
  intros es log1 [Hes Hg1]. ystep. ystep. ystep. ystep. apply yields_zoom. cbn [hashed index_to_leaf_cache new_writes].
  ystep. eapply yields_mono; [apply yields_cached|]. intros es1 log2 (-> & Hl & Hg2). ystep.
  eapply yields_mono; [apply yields_new|]. intros es2 log3 (-> & Hg3). ystep.
  eapply yields_mono; [apply yields_levels|]. intros B log4 (Hup & Hg4).
  destruct B as [|[[[k b] read] write] [|]]; [apply yields_fault| |apply yields_fault].
  ystep. exists log4. split_conj; [done|auto|]. eapply roots_sound_up; [done| |done]. auto.
Qed.
End Paths.
