(* ===== verification/FlatCollect.v ===== *)
(** * Opening leaves

    The first half of [verify_and_apply_batch]: which leaves the reads and writes of a
    block open, what is checked of them, and what is to be written.  Nothing is known of
    the oracle yet, except the types of its answers. *)

From stdpp Require Import gmap sorting strings.
From S2P Require Import Prelude Resources FlatStorage FlatMerkle.

Abbreviation LeafCache := (gmap Z (LeafProof * option LeafUpdateRecord)).

(** ** What has been opened *)

(** The key is between the keys of two cached leaves, of which the second follows the first. *)
Definition neighbours (C : LeafCache) (k : Z) : Prop :=
  ∃ p lp mp q lq mq, C !! p = Some (lp, mp) ∧ C !! q = Some (lq, mq)
    ∧ leaf_next (lp_leaf lp) = q ∧ leaf_key (lp_leaf lp) < k < leaf_key (lp_leaf lq).

Definition extends (C C' : LeafCache) : Prop :=
  ∀ i lp m, C !! i = Some (lp, m) → ∃ m', C' !! i = Some (lp, m').

#[global] Instance extends_refl : Reflexive extends.
Proof. intros C i lp m Hi. by exists m. Qed.
#[global] Instance extends_trans : Transitive extends.
Proof. intros C1 C2 C3 H1 H2 i lp m Hi. destruct (H1 _ _ _ Hi) as [m' Hi']. exact (H2 _ _ _ Hi'). Qed.

Lemma extends_insert C i lp m m' : (C !! i = None ∨ C !! i = Some (lp, m)) → extends C (<[i:=(lp, m')]> C).
Proof.
  intros Hi j lj mj Hj. destruct (decide (i = j)) as [->|]; [|exists mj; by rewrite lookup_insert_ne].
  exists m'. rewrite lookup_insert_eq. destruct Hi as [Hi|Hi]; congruence.
Qed.

Lemma neighbours_extends C C' k : extends C C' → neighbours C k → neighbours C' k.
Proof.
  intros HC (p & lp & mp & q & lq & mq & Hp & Hq & Hr). destruct (HC _ _ _ Hp) as [mp' Hp'], (HC _ _ _ Hq) as [mq' Hq'].
  by exists p, lp, mp', q, lq, mq'.
Qed.

Section Collect.
Context `{Blake2sLaws} `{StateOracle} `{Usize}.
Variable N : nat.

Definition flat_key (k : WarmStorageKey) : Z := digest (repeat 0 12 ++ be_bytes 20 (sk_address k) ++ be_bytes 32 (sk_key k)).

(** The answers of the oracle have their types: [N] is the width of indices. *)
Definition proof_typed (p : LeafProof) : Prop :=
  0 ≤ lp_index p < 2 ^ Z.of_nat N ∧ leaf_wf (lp_leaf p) ∧ Forall is_u256 (lp_path p).
Class StateOracleTypes : Prop := proof_answer i o p o' : proof_for_index_query i o = (Val p, o') → proof_typed p.
Context `{StateOracleTypes}.

(** What a read or a write has been checked against. *)
Definition checked (C : LeafCache) (x : WarmStorageKey * WarmStorageValue) : Prop :=
  if is_new_storage_slot x.2 then neighbours C (flat_key x.1) ∧ (is_read x = true → initial_value x.2 = 0)
  else ∃ i lp m, C !! i = Some (lp, m) ∧ leaf_key (lp_leaf lp) = flat_key x.1 ∧ leaf_value (lp_leaf lp) = initial_value x.2.

Lemma checked_extends C C' x : extends C C' → checked C x → checked C' x.
Proof.
  unfold checked. intros HC. destruct (is_new_storage_slot _); [intros [Hn Hr]; eauto using neighbours_extends|].
  intros (i & lp & m & Hi & Hr). destruct (HC _ _ _ Hi) as [m' Hi']. by exists i, lp, m'.
Qed.

(** The values written. *)
Definition write_value (kv : gmap Z Z) (x : WarmStorageKey * WarmStorageValue) : gmap Z Z :=
  if is_read x then kv else <[flat_key x.1:=current_value x.2]> kv.
Definition write_values (kv : gmap Z Z) (source : list (WarmStorageKey * WarmStorageValue)) : gmap Z Z :=
  foldl write_value kv source.

(** The caches, with [n] leaves in the tree, after the values [D] have been written. *)
Record collected (n : Z) (D : gmap Z Z) (K : gmap Z Z) (C : LeafCache) (W : list (Z * FlatStorageLeaf)) : Prop := {
  co_cache i lp m : C !! i = Some (lp, m) → 0 ≤ i < 2 ^ Z.of_nat N ∧ leaf_wf (lp_leaf lp) ∧ Forall is_u256 (lp_path lp);
  co_low i lp m : C !! i = Some (lp, m) → i < n ∨ leaf_key (lp_leaf lp) ≠ 0;
  co_key i lp m : C !! i = Some (lp, m) → K !! leaf_key (lp_leaf lp) = Some i;
  co_mod i lp m : C !! i = Some (lp, Some m) → ∃ v, m = mkUpdate (Some v) None ∧ D !! leaf_key (lp_leaf lp) = Some v;
  co_new j x : W !! j = Some x → x.1 = n + Z.of_nat j ∧ leaf_next x.2 = 0 ∧ is_u256 (leaf_key x.2)
    ∧ K !! leaf_key x.2 = Some x.1 ∧ D !! leaf_key x.2 = Some (leaf_value x.2) ∧ neighbours C (leaf_key x.2);
  co_index k i : K !! k = Some i →
    (∃ lp m, C !! i = Some (lp, m) ∧ leaf_key (lp_leaf lp) = k) ∨ ∃ j x, W !! j = Some x ∧ x.1 = i ∧ leaf_key x.2 = k;
  co_disjoint i lp m j x : C !! i = Some (lp, m) → W !! j = Some x → leaf_key (lp_leaf lp) ≠ leaf_key x.2;
  co_written k v : D !! k = Some v → is_u256 v ∧
    ((∃ i lp, C !! i = Some (lp, Some (mkUpdate (Some v) None)) ∧ leaf_key (lp_leaf lp) = k)
     ∨ ∃ j x, W !! j = Some x ∧ leaf_key x.2 = k ∧ leaf_value x.2 = v)
}.

Definition collecting (n : Z) (self : FlatStorageCommitment) (D : gmap Z Z) (s : Batch) : Prop :=
  collected n D (key_to_index_cache s) (index_to_leaf_cache s) (new_writes s)
  ∧ commitment s = mkCommitment (root self) (n + Z.of_nat (length (new_writes s)))
  ∧ 0 ≤ num_nonexisting_reads s.

Lemma collected_start n : collected n ∅ ∅ ∅ [].
Proof. split; intros *; rewrite ?lookup_empty, ?lookup_nil; done. Qed.

(** A leaf is opened. *)
Lemma collected_open n D K C W i p : collected n D K C W → C !! i = None → K !! leaf_key (lp_leaf p) = None →
  lp_index p = i → proof_typed p → (i < n ∨ leaf_key (lp_leaf p) ≠ 0) →
  collected n D (<[leaf_key (lp_leaf p):=i]> K) (<[i:=(p, None)]> C) W.
Proof.
  intros [A1 A2 A3 A4 A5 A6 A7 A8] HC HK Hi (Hp1 & Hp2 & Hp3) Hlow.
  pose proof (extends_insert C i p None None (or_introl HC)) as Hext. split.
  - intros j lp m [[-> [= <- <-]]|[_ Hj]]%lookup_insert_Some; [by rewrite <- Hi|eauto].
  - intros j lp m [[-> [= <- <-]]|[_ Hj]]%lookup_insert_Some; eauto.
  - intros j lp m [[-> [= <- <-]]|[_ Hj]]%lookup_insert_Some; [by rewrite lookup_insert_eq|].
    rewrite lookup_insert_ne; [eauto|]. intros E. apply A3 in Hj. congruence.
  - intros j lp m [[-> [= <-]]|[_ Hj]]%lookup_insert_Some. eauto.
  - intros j x Hx. destruct (A5 _ _ Hx) as (? & ? & ? & Hk & ? & Hn). split_conj; try done; [|by eapply neighbours_extends].
    rewrite lookup_insert_ne; [done|]. congruence.
  - intros k j [[<- <-]|[_ Hk]]%lookup_insert_Some; [left; exists p, None; by rewrite lookup_insert_eq|].
    destruct (A6 _ _ Hk) as [(lp & m & Hj & Hkey)|Hw]; [left|by right].
    exists lp, m. split; [|done]. rewrite lookup_insert_ne; [done|]. congruence.
  - intros j lp m w x [[-> [= <- <-]]|[_ Hj]]%lookup_insert_Some Hx; [|eauto]. intros E. destruct (A5 _ _ Hx) as (_ & _ & _ & Hk & _). congruence.
  - intros k v Hk. destruct (A8 _ _ Hk) as [Hv [(j & lp & Hj & Hkey)|Hw]]; (split; [done|]); [left|by right].
    exists j, lp. split; [|done]. rewrite lookup_insert_ne; [done|]. congruence.
Qed.

Lemma collected_keys n D K C W k v : collected n D K C W → D !! k = Some v → is_Some (K !! k).
Proof.
  intros Hco Hk. destruct (co_written _ _ _ _ _ Hco _ _ Hk) as [_ [(i & lp & Hi & <-)|(j & x & Hx & <- & _)]].
  - exists i. by eapply co_key.
  - exists x.1. by eapply co_new.
Qed.

(** A leaf is appended. *)
Lemma collected_append n D K C W k v : collected n D K C W → K !! k = None → is_u256 k → is_u256 v → neighbours C k →
  collected n (<[k:=v]> D) (<[k:=n + Z.of_nat (length W)]> K) C (W ++ [(n + Z.of_nat (length W), mkLeaf k v 0)]).
Proof.
  intros Hco HK Hk Hv Hn. assert (∀ k' i, K !! k' = Some i → k' ≠ k) as Hne by congruence.
  assert (∀ k' v', D !! k' = Some v' → k' ≠ k) as HneD.
  { intros k' v' Hk'. destruct (collected_keys _ _ _ _ _ _ _ Hco Hk'). eauto. }
  pose proof Hco as [A1 A2 A3 A4 A5 A6 A7 A8]. split; [done|done| | | | | |].
  - intros i lp m Hi. apply A3 in Hi. rewrite lookup_insert_ne; [done|]. apply Hne in Hi. done.
  - intros i lp m Hi. destruct (A4 _ _ _ Hi) as (v' & -> & Hd). exists v'. split; [done|]. apply HneD in Hd as Hd'. by rewrite lookup_insert_ne.
  - intros j x [Hx|[Hj Hx]]%lookup_app_Some.
    + destruct (A5 _ _ Hx) as (? & ? & ? & HKx & HDx & ?). apply Hne in HKx as Hne'. by rewrite !lookup_insert_ne.
    + apply list_lookup_singleton_Some in Hx as [Hj0 <-]. cbn. rewrite !lookup_insert_eq. split_conj; try done. lia.
  - intros k' i [[<- <-]|[_ Hk']]%lookup_insert_Some.
    + right. exists (length W), (n + Z.of_nat (length W), mkLeaf k v 0). split_conj; [by apply list_lookup_middle|done|done].
    + destruct (A6 _ _ Hk') as [?|(j & x & Hx & ?)]; [by left|right]. exists j, x. split; [by apply lookup_app_l_Some|done].
  - intros i lp m j x Hi [Hx|[Hj Hx]]%lookup_app_Some; [by eapply A7|].
    apply list_lookup_singleton_Some in Hx as [_ <-]. cbn. apply A3 in Hi. eauto.
  - intros k' v' [[<- <-]|[_ Hk']]%lookup_insert_Some.
    + split; [done|right]. exists (length W), (n + Z.of_nat (length W), mkLeaf k v 0). split_conj; [by apply list_lookup_middle|done|done].
    + destruct (A8 _ _ Hk') as [? [?|(j & x & Hx & ?)]]; (split; [done|]); [by left|right]. exists j, x. split; [by apply lookup_app_l_Some|done].
Qed.

(** The value of an opened leaf is updated. *)
Lemma collected_update n D K C W i lp v : collected n D K C W → C !! i = Some (lp, None) → is_u256 v →
  collected n (<[leaf_key (lp_leaf lp):=v]> D) K (<[i:=(lp, Some (mkUpdate (Some v) None))]> C) W.
Proof.
  intros [A1 A2 A3 A4 A5 A6 A7 A8] Hi Hv. pose proof (extends_insert C i lp None (Some (mkUpdate (Some v) None)) (or_intror Hi)) as Hext.
  assert (∀ j lj mj, C !! j = Some (lj, mj) → i ≠ j → leaf_key (lp_leaf lp) ≠ leaf_key (lp_leaf lj)) as Hother.
  { intros j lj mj Hj Hij E. apply A3 in Hi, Hj. congruence. }
  split.
  - intros j lj m [[-> [= <- <-]]|[_ Hj]]%lookup_insert_Some; eauto.
  - intros j lj m [[-> [= <- <-]]|[_ Hj]]%lookup_insert_Some; eauto.
  - intros j lj m [[-> [= <- <-]]|[_ Hj]]%lookup_insert_Some; eauto.
  - intros j lj m [[-> [= <- <-]]|[Hij Hj]]%lookup_insert_Some; [exists v; by rewrite lookup_insert_eq|].
    destruct (A4 _ _ _ Hj) as (v' & -> & Hd). exists v'. rewrite lookup_insert_ne by eauto. done.
  - intros j x Hx. destruct (A5 _ _ Hx) as (? & ? & ? & ? & ? & ?). rewrite lookup_insert_ne by eauto.
    split_conj; try done. by eapply neighbours_extends.
  - intros k j Hk. destruct (A6 _ _ Hk) as [(lj & m & Hj & Hkey)|Hw]; [left|by right].
    destruct (Hext _ _ _ Hj) as [m' Hj']. by exists lj, m'.
  - intros j lj m w x Hj Hx. apply lookup_insert_Some in Hj as [[-> [= <- <-]]|[_ Hj]]; by eapply A7.
  - intros k v' [[<- <-]|[Hk Hd]]%lookup_insert_Some.
    { split; [done|]. left. exists i, lp. by rewrite lookup_insert_eq. }
    destruct (A8 _ _ Hd) as [Hv' [(j & lj & Hj & Hkey)|Hw]]; (split; [done|]); [left|by right].
    exists j, lj. split; [|done]. rewrite lookup_insert_ne; [done|]. congruence.
Qed.

(** ** Operations *)

(** Only the oracle or the hasher has changed. *)
Definition same (s s' : Batch) : Prop :=
  key_to_index_cache s' = key_to_index_cache s ∧ index_to_leaf_cache s' = index_to_leaf_cache s
  ∧ new_writes s' = new_writes s ∧ commitment s' = commitment s ∧ num_nonexisting_reads s' = num_nonexisting_reads s.

Lemma collecting_same n self D s s' : same s s' → collecting n self D s → collecting n self D s'.
Proof. unfold collecting. by intros (-> & -> & -> & -> & ->). Qed.

Lemma yields_oracle {A} (m : M OState InternalError A) s : yields (on_oracle m) s (λ _ s', same s s').
Proof. apply yields_zoom. intros a o _. done. Qed.

Lemma yields_flat_key k s : yields (on_hasher (derive_flat_storage_key_with_hasher (sk_address k) (sk_key k))) s
  (λ fk s', fk = flat_key k ∧ same s s').
Proof. apply yields_zoom. eapply yields_mono; [apply yields_finalize|]. by intros h log (-> & _). Qed.

Lemma yields_proof i s : yields (get_proof_for_index i) s (λ p s', lp_index p = i ∧ proof_typed p ∧ same s s').
Proof.
  unfold get_proof_for_index. ystep.
  eapply (yields_mono _ _ (λ p s', proof_typed p ∧ same s s')).
  { apply yields_zoom, yields_unwrap. intros p o' Hp. split; [by eapply proof_answer|done]. }
  intros p s1 [Hp Hs]. ystep. apply yields_assert. intros Hi%Z.eqb_eq. by ystep.
Qed.

Lemma yields_insert_key k i s (P : unit → Batch → Prop) :
  (key_to_index_cache s !! k = None → P tt (set_keys (<[k:=i]> (key_to_index_cache s)) s)) → yields (insert_key k i) s P.
Proof. intros HP. unfold insert_key. ystep. ystep. ystep. ystep. ystep. apply HP. by eapply bool_decide_eq_true_1. Qed.

Lemma yields_insert_leaf i p m s (P : unit → Batch → Prop) :
  P tt (set_leaves (<[i:=(p, m)]> (index_to_leaf_cache s)) s) → yields (insert_leaf i p m) s P.
Proof. intros HP. by apply yields_modify. Qed.

(** What opening leaves keeps. *)
Definition grown n self D (s s' : Batch) : Prop :=
  collecting n self D s' ∧ extends (index_to_leaf_cache s) (index_to_leaf_cache s') ∧ new_writes s' = new_writes s.

Lemma grown_open n self D s s1 i p : collecting n self D s → same s s1 → index_to_leaf_cache s !! i = None →
  key_to_index_cache s1 !! leaf_key (lp_leaf p) = None → lp_index p = i → proof_typed p → (i < n ∨ leaf_key (lp_leaf p) ≠ 0) →
  grown n self D s (set_leaves (<[i:=(p, None)]> (index_to_leaf_cache s1))
    (set_keys (<[leaf_key (lp_leaf p):=i]> (key_to_index_cache s1)) s1)).
Proof.
  intros [Hco Hrest] (E1 & E2 & E3 & E4 & E5) HC HK Hi Hp Hlow. unfold grown, collecting. cbn. rewrite E1 in HK.
  rewrite E1, E2, E3, E4, E5. split; [split; [by apply collected_open|done]|]. split; [|done].
  apply (extends_insert _ _ _ None). by left.
Qed.

Lemma grown_trans n self D s1 s2 s3 : grown n self D s1 s2 → grown n self D s2 s3 → grown n self D s1 s3.
Proof. intros (_ & E1 & W1) (Hc & E2 & W2). unfold grown. split_conj; [done|by etrans|congruence]. Qed.

Lemma open_previous_ok n self D fk i s : collecting n self D s → i < n →
  yields (open_previous n fk i) s (λ q s', grown n self D s s'
    ∧ ∃ lp m, index_to_leaf_cache s' !! i = Some (lp, m) ∧ leaf_next (lp_leaf lp) = q ∧ leaf_key (lp_leaf lp) < fk).
Proof.
  intros Hco Hi. unfold open_previous, cached_leaf. ystep. ystep. destruct (_ !! i) as [[lp m]|] eqn:HC.
  - ystep. apply yields_assert. intros Hlt%Z.ltb_lt. ystep. split; [done|]. by exists lp, m.
  - ystep. eapply yields_mono; [apply yields_proof|]. intros p s1 (Hpi & Hp & Hs).
    ystep. apply yields_assert. intros Hlt%Z.ltb_lt. ystep. apply yields_assert. intros _.
    ystep. apply yields_insert_key. intros HK. ystep. apply yields_insert_leaf. ystep. split; [apply (grown_open n self D s s1); eauto|].
    exists p, None. cbn. by rewrite lookup_insert_eq.
Qed.

Lemma open_next_ok n self D fk i s : collecting n self D s → 0 ≤ fk →
  yields (open_next fk i) s (λ _ s', grown n self D s s'
    ∧ ∃ lp m, index_to_leaf_cache s' !! i = Some (lp, m) ∧ fk < leaf_key (lp_leaf lp)).
Proof.
  intros Hco Hfk. unfold open_next, cached_leaf. ystep. ystep. destruct (_ !! i) as [[lp m]|] eqn:HC.
  - apply yields_assert. intros Hlt%Z.ltb_lt. split; [done|]. by exists lp, m.
  - ystep. eapply yields_mono; [apply yields_proof|]. intros p s1 (Hpi & Hp & Hs).
    ystep. apply yields_assert. intros Hlt%Z.ltb_lt. ystep. apply yields_insert_key. intros HK.
    apply yields_insert_leaf. split; [apply (grown_open n self D s s1); eauto; right; lia|]. exists p, None. cbn. by rewrite lookup_insert_eq.
Qed.

Lemma grown_same n self D s s1 s' : same s s1 → grown n self D s1 s' → grown n self D s s'.
Proof. unfold grown. by intros (_ & -> & -> & _). Qed.

Lemma open_neighbours_ok n self D fk s : collecting n self D s → 0 ≤ fk →
  yields (open_neighbours n fk) s (λ _ s', grown n self D s s' ∧ neighbours (index_to_leaf_cache s') fk).
Proof.
  intros Hco Hfk. unfold open_neighbours. ystep. eapply yields_mono; [apply yields_oracle|]. intros i s1 Hs.
  ystep. apply yields_assert. intros Hi%Z.ltb_lt. ystep. apply (collecting_same _ _ _ _ _ Hs) in Hco as Hco1.
  eapply yields_mono; [by eapply open_previous_ok|]. intros q s2 [Hg (lp & m & Hlp & Hq & Hlt)].
  eapply yields_mono; [apply open_next_ok; [apply Hg|done]|]. intros [] s3 [Hg3 (lq & mq & Hlq & Hlt')].
  split; [apply (grown_same _ _ _ _ _ _ Hs); eapply grown_trans; [exact Hg|exact Hg3]|]. destruct Hg3 as (_ & He & _). destruct (He _ _ _ Hlp) as [m' Hlp'].
  by exists i, lp, m', q, lq, mq.
Qed.

Lemma check_existing_read_ok n self D k v s : collecting n self D s → flat_key k ≠ 0 →
  is_new_storage_slot v = false → is_read (k, v) = true →
  yields (check_existing_read (flat_key k) v) s (λ _ s', grown n self D s s' ∧ checked (index_to_leaf_cache s') (k, v)).
Proof.
  intros Hco Hk0 Hnew Hread%Z.eqb_eq. unfold check_existing_read, cached_leaf, checked. cbn [fst snd] in *. rewrite Hnew.
  ystep. eapply yields_mono; [apply yields_oracle|]. intros i s1 Hs. apply (collecting_same _ _ _ _ _ Hs) in Hco as Hco1.
  ystep. ystep. destruct (_ !! i) as [[lp m]|] eqn:HC.
  - ystep. apply yields_assert. intros Hk%Z.eqb_eq. apply yields_assert. intros Hv%Z.eqb_eq.
    split; [by apply (grown_same _ _ _ _ _ _ Hs)|]. exists i, lp, m. by rewrite <- Hread.
  - ystep. eapply yields_mono; [apply yields_proof|]. intros p s2 (Hpi & Hp & Hs2).
    ystep. apply yields_assert. intros Hk%Z.eqb_eq. ystep. apply yields_assert. intros Hv%Z.eqb_eq.
    ystep. apply yields_insert_key. intros HK. apply yields_insert_leaf.
    split; [apply (grown_same _ _ _ _ _ _ Hs), (grown_open n self D s1 s2); eauto; right; congruence|]. exists i, p, None. cbn. rewrite lookup_insert_eq, <- Hread. done.
Qed.

Lemma flat_key_range k : is_u256 (flat_key k).
Proof. apply digest_range. Qed.

Lemma check_read_ok n self D x s : collecting n self D s → flat_key x.1 ≠ 0 → is_read x = true →
  yields (check_read n x) s (λ _ s', grown n self D s s' ∧ checked (index_to_leaf_cache s') x).
Proof.
  destruct x as [k v]. intros Hco Hk0 Hread. unfold check_read. ystep. eapply yields_mono; [apply yields_flat_key|].
  intros fk s1 [-> Hs]. apply (collecting_same _ _ _ _ _ Hs) in Hco as Hco1. ystep. ystep. destruct (is_new_storage_slot v) eqn:Hnew.
  - ystep. apply yields_assert. intros Hv%Z.eqb_eq. ystep. apply yields_modify.
    assert (∀ a b, 0 ≤ a → collecting n self D (set_counters a b s1)) as Hcnt.
    { intros a b Ha. destruct Hco1 as (G1 & G2 & _). split; [done|]. split; [done|]. done. }
    eapply yields_mono; [apply open_neighbours_ok; [apply Hcnt; destruct Hco1 as (_ & _ & ?); lia|apply flat_key_range]|].
    intros [] s2 [Hg Hn]. split; [eapply grown_same; [done|]; exact Hg|]. unfold checked. cbn. by rewrite Hnew.
  - eapply yields_mono; [by apply (check_existing_read_ok n self D)|]. intros [] s2 [Hg Hc].
    split; [by eapply grown_same|done].
Qed.

Lemma append_leaf_ok n self D k v s : collecting n self D s → is_u256 (current_value v) → neighbours (index_to_leaf_cache s) (flat_key k) →
  0 ≤ n → n + Z.of_nat (length (new_writes s)) + 1 < 2 ^ 64 →
  yields (append_leaf (flat_key k) v) s (λ _ s', collecting n self (<[flat_key k:=current_value v]> D) s'
    ∧ index_to_leaf_cache s' = index_to_leaf_cache s ∧ length (new_writes s') = S (length (new_writes s))).
Proof.
  intros (Hco & Hc & Hz) Hv Hn H0n Hw. unfold append_leaf. ystep. ystep. rewrite Hc. cbn [next_free_slot root]. ystep. ystep.
  ystep. apply yields_insert_key. intros HK. ystep. unfold collecting. cbn. rewrite length_app. cbn. split_conj; [|f_equal|done|done|lia].
  - apply collected_append; try done. apply flat_key_range.
  - rewrite wrap_small by (unfold in_width; lia). lia.
Qed.

Lemma update_leaf_ok n self D k v s : collecting n self D s → is_u256 (current_value v) → flat_key k ≠ 0 →
  is_new_storage_slot v = false →
  yields (update_leaf (flat_key k) v) s (λ _ s', collecting n self (<[flat_key k:=current_value v]> D) s'
    ∧ extends (index_to_leaf_cache s) (index_to_leaf_cache s') ∧ checked (index_to_leaf_cache s') (k, v)
    ∧ new_writes s' = new_writes s).
Proof.
  intros Hco Hv Hk0 Hnew. unfold update_leaf, cached_leaf, checked. cbn [fst snd]. rewrite Hnew. ystep. ystep.
  destruct (_ !! flat_key k) as [i|] eqn:HK.
  - ystep. ystep. ystep. ystep. destruct a as [lp m]. ystep. apply yields_assert. intros Hk%Z.eqb_eq. ystep.
    apply yields_assert. intros Hi%Z.eqb_eq. ystep. apply yields_assert. intros ->%bool_decide_eq_true_1.
    apply yields_insert_leaf. unfold collecting. cbn. destruct Hco as [Hco Hrest]. split_conj; [|apply Hrest|apply Hrest| | |done].
    + rewrite <- Hk. by apply collected_update.
    + eapply extends_insert. by right.
    + eexists i, lp, _. by rewrite lookup_insert_eq.
  - ystep. eapply yields_mono; [apply yields_oracle|]. intros i s1 Hs. apply (collecting_same _ _ _ _ _ Hs) in Hco as Hco1.
    ystep. eapply yields_mono; [apply yields_proof|]. intros p s2 (Hpi & Hp & Hs2).
    ystep. apply yields_assert. intros Hk%Z.eqb_eq. ystep. apply yields_assert. intros Hi%Z.eqb_eq. ystep.
    apply yields_insert_key. intros HK2. ystep. ystep. ystep. apply yields_insert_leaf. apply yields_assert. cbn. intros HC%bool_decide_eq_true_1.
    apply (collecting_same _ _ _ _ _ Hs2) in Hco1 as [Hco2 Hrest].
    destruct Hs as (_ & E2 & E3 & _), Hs2 as (_ & E2' & E3' & _). rewrite <- E2, <- E2', <- E3, <- E3'.
    unfold collecting. cbn. split_conj; [|apply Hrest|apply Hrest| | |done].
    + rewrite <- Hk in Hk0 |- *. pose proof (collected_open n D _ _ _ i p Hco2 HC HK2 Hpi Hp (or_intror Hk0)) as Hop.
      apply (collected_update _ _ _ _ _ i p (current_value v)) in Hop; [|by rewrite lookup_insert_eq|done].
      by rewrite insert_insert_eq in Hop.
    + apply (extends_insert _ _ _ None). by left.
    + eexists i, p, _. by rewrite lookup_insert_eq.
Qed.

Lemma apply_write_ok n self D x s : collecting n self D s → is_u256 (current_value x.2) → flat_key x.1 ≠ 0 → is_read x = false →
  0 ≤ n → n + Z.of_nat (length (new_writes s)) + 1 < 2 ^ 64 →
  yields (apply_write n x) s (λ _ s', collecting n self (write_value D x) s'
    ∧ extends (index_to_leaf_cache s) (index_to_leaf_cache s') ∧ checked (index_to_leaf_cache s') x
    ∧ length (new_writes s') = (length (new_writes s) + if is_new_write x then 1 else 0)%nat).
Proof.
  destruct x as [k v]. intros Hco Hv Hk0 Hread H0n Hw. unfold apply_write, is_new_write, write_value. rewrite Hread. cbn [fst snd negb andb].
  ystep. ystep. ystep. eapply yields_mono; [apply yields_flat_key|]. intros fk s1 [-> Hs].
  apply (collecting_same _ _ _ s s1 Hs) in Hco as Hco1. assert (new_writes s1 = new_writes s) as EW by apply Hs.
  assert (index_to_leaf_cache s1 = index_to_leaf_cache s) as EC by apply Hs. destruct (is_new_storage_slot v) eqn:Hnew.
  - ystep. eapply yields_mono; [by apply (open_neighbours_ok n self D), flat_key_range|]. intros [] s2 [(Hco2 & Hext & EW2) Hn].
    eapply yields_mono; [apply (append_leaf_ok n self D); try done; by rewrite EW2, EW|]. intros [] s3 (Hco3 & EC3 & EW3).
    rewrite EC3, EW3, EW2, EW, <- EC. split_conj; [done|done| |lia]. unfold checked. cbn. by rewrite Hnew, Hread.
  - eapply yields_mono; [by apply (update_leaf_ok n self D)|]. intros [] s2 (Hco2 & Hext & Hc & EW2).
    rewrite EW2, EW, <- EC. split_conj; [done|done|done|lia].
Qed.

(** ** The loops *)

Lemma checked_reads n self reads s : collecting n self ∅ s → new_writes s = [] →
  (∀ x, x ∈ reads → flat_key x.1 ≠ 0 ∧ is_read x = true) →
  yields (for_each reads (check_read n)) s (λ _ s', collecting n self ∅ s' ∧ new_writes s' = []
    ∧ Forall (checked (index_to_leaf_cache s')) reads).
Proof.
  intros Hco HW Hr. apply (yields_for_each _ (λ seen s', collecting n self ∅ s' ∧ new_writes s' = []
    ∧ Forall (checked (index_to_leaf_cache s')) seen)); [done|].
  intros seen x rest s1 -> (Hco1 & HW1 & Hs1). destruct (Hr x) as [Hk0 Hread]; [set_solver|].
  eapply yields_mono; [by apply (check_read_ok n self ∅)|]. intros [] s2 [(Hco2 & He & HW2) Hc].
  split_conj; [done|congruence|]. apply Forall_app. split; [|by apply Forall_singleton].
  eapply Forall_impl; [exact Hs1|]. intros y. by apply checked_extends.
Qed.

Abbreviation new_of l := (length (filter (λ x, is_new_write x = true) l)).

Lemma new_of_snoc l x : new_of (l ++ [x]) = (new_of l + if is_new_write x then 1 else 0)%nat.
Proof. rewrite filter_app, length_app. f_equal. rewrite filter_cons, filter_nil. by destruct (is_new_write x). Qed.

Lemma new_of_le l : (new_of l ≤ length l)%nat.
Proof. apply length_filter. Qed.

Lemma applied_writes n self reads writes s : collecting n self ∅ s → new_writes s = [] → 0 ≤ n → n + Z.of_nat (length writes) < 2 ^ 64 →
  Forall (checked (index_to_leaf_cache s)) reads →
  (∀ x, x ∈ writes → flat_key x.1 ≠ 0 ∧ is_u256 (current_value x.2) ∧ is_read x = false) →
  yields (for_each writes (apply_write n)) s (λ _ s', collecting n self (write_values ∅ writes) s'
    ∧ length (new_writes s') = new_of writes ∧ Forall (checked (index_to_leaf_cache s')) (reads ++ writes)).
Proof.
  intros Hco HW H0n Hn Hreads Hwr. apply (yields_for_each _ (λ seen s', collecting n self (write_values ∅ seen) s'
    ∧ length (new_writes s') = new_of seen ∧ Forall (checked (index_to_leaf_cache s')) (reads ++ seen))).
  { rewrite HW, app_nil_r. done. }
  intros seen x rest s1 -> (Hco1 & HW1 & Hs1). destruct (Hwr x) as (Hk0 & Hv & Hread); [set_solver|].
  rewrite length_app in Hn. cbn in Hn. pose proof (new_of_le seen).
  eapply yields_mono; [apply (apply_write_ok n self (write_values ∅ seen)); try done; lia|].
  intros [] s2 (Hco2 & He & Hc & HW2). unfold write_values. rewrite foldl_app, new_of_snoc, app_assoc.
  split_conj; [done|lia|]. apply Forall_app. split; [|by apply Forall_singleton].
  eapply Forall_impl; [exact Hs1|]. intros y. by apply checked_extends.
Qed.
End Collect.

(** ** Linking leaves

    The loop of [verify_and_apply_batch] that links the leaves it has opened and those
    it appends, in the order of their keys. *)

(** The leaf at an index after the batch, if it is opened or new. *)
Definition content (n : Z) (C : LeafCache) (W : list (Z * FlatStorageLeaf)) (i : Z) : option FlatStorageLeaf :=
  match C !! i with
  | Some (lp, m) => Some (from_option (updated_leaf (lp_leaf lp)) (lp_leaf lp) m)
  | None => if n <=? i then snd <$> W !! Z.to_nat (i - n) else None
  end.

(** The leaf at [i] once [j] is known to hold the next key: a leaf of the tree is only
    touched if [j] is new. *)
Definition relink (n : Z) (C : LeafCache) (i j : Z) (l : FlatStorageLeaf) : FlatStorageLeaf :=
  if bool_decide (is_Some (C !! i)) && (j <? n) then l else mkLeaf (leaf_key l) (leaf_value l) j.

Section Link.
Context `{Blake2sLaws} `{StateOracle} `{Usize}.
Variable n : Z.

Abbreviation content_of s := (content n (index_to_leaf_cache s) (new_writes s)).

(** No link has been set. *)
Definition pending (C : LeafCache) (i : Z) : Prop := ∀ lp m, C !! i = Some (lp, Some m) → lu_next m = None.

Definition numbered (W : list (Z * FlatStorageLeaf)) : Prop := ∀ j x, W !! j = Some x → x.1 = n + Z.of_nat j.

(** Links change neither keys nor values nor what has been opened. *)
Record kept (s s' : Batch) : Prop := {
  kept_keys : key_to_index_cache s' = key_to_index_cache s;
  kept_commitment : commitment s' = commitment s;
  kept_cache i : fst <$> index_to_leaf_cache s' !! i = fst <$> index_to_leaf_cache s !! i;
  kept_new j : fst <$> new_writes s' !! j = fst <$> new_writes s !! j
}.

#[global] Instance kept_refl : Reflexive kept.
Proof. by intros s. Qed.
#[global] Instance kept_trans : Transitive kept.
Proof. intros s1 s2 s3 [A1 A2 A3 A4] [B1 B2 B3 B4]. split; [congruence|congruence|intros i; by rewrite B3|intros j; by rewrite B4]. Qed.

Lemma kept_opened s s' i : kept s s' → is_Some (index_to_leaf_cache s' !! i) ↔ is_Some (index_to_leaf_cache s !! i).
Proof. intros Hk. rewrite <- !(fmap_is_Some fst). by rewrite (kept_cache _ _ Hk). Qed.

Lemma kept_numbered s s' : kept s s' → numbered (new_writes s) → numbered (new_writes s').
Proof.
  intros Hk HW j x Hx. pose proof (kept_new _ _ Hk j) as E. rewrite Hx in E. cbn in E.
  symmetry in E. apply fmap_Some in E as (y & Hy & ->). by apply HW.
Qed.

(** The leaf at [i] has been linked to [j]. *)
Definition linked (i j : Z) (s s' : Batch) : Prop := kept s s'
  ∧ (∀ k, k ≠ i → index_to_leaf_cache s' !! k = index_to_leaf_cache s !! k)
  ∧ (numbered (new_writes s) → pending (index_to_leaf_cache s) i →
     content_of s' i = relink n (index_to_leaf_cache s) i j <$> content_of s i
     ∧ ∀ k, k ≠ i → content_of s' k = content_of s k).

(** A cached leaf gets a new modification. *)
Lemma linked_cached s i j lp m m' : index_to_leaf_cache s !! i = Some (lp, m) →
  (pending (index_to_leaf_cache s) i → updated_leaf (lp_leaf lp) m' =
    relink n (index_to_leaf_cache s) i j (from_option (updated_leaf (lp_leaf lp)) (lp_leaf lp) m)) →
  linked i j s (set_leaves (<[i:=(lp, Some m')]> (index_to_leaf_cache s)) s).
Proof.
  intros Hi Hm. split; [split; try done|]; cbn.
  - intros k. destruct (decide (i = k)) as [<-|]; [by rewrite lookup_insert_eq, Hi|by rewrite lookup_insert_ne].
  - split; [intros k Hk; by rewrite lookup_insert_ne|]. intros HW Hp. unfold content. cbn.
    rewrite lookup_insert_eq, Hi. cbn. split; [by rewrite <- Hm|]. intros k Hk. by rewrite lookup_insert_ne.
Qed.

(** A cached leaf is left as it is. *)
Lemma linked_id s i j x : index_to_leaf_cache s !! i = Some x → j < n → linked i j s s.
Proof.
  intros Hi Hj. split; [done|]. split; [done|]. intros _ _. split; [|done]. unfold relink. rewrite Hi.
  rewrite bool_decide_true by done. rewrite (proj2 (Z.ltb_lt j n)) by done. cbn. by destruct (content _ _ _ _).
Qed.

Lemma linked_new s i j idx leaf : index_to_leaf_cache s !! i = None → new_writes s !! idx = Some (i, leaf) →
  linked i j s (set_new_writes (<[idx:=(i, mkLeaf (leaf_key leaf) (leaf_value leaf) j)]> (new_writes s)) s).
Proof.
  intros Hi Hx. apply lookup_lt_Some in Hx as Hlt. split; [split; try done|]; cbn.
  - intros k. destruct (decide (idx = k)) as [<-|]; [by rewrite list_lookup_insert_eq, Hx|by rewrite list_lookup_insert_ne].
  - split; [done|]. intros HW _. pose proof (HW _ _ Hx) as E. cbn in E. unfold content, relink. cbn. rewrite Hi.
    rewrite bool_decide_false by (by intros [? ?]). rewrite (proj2 (Z.leb_le n i)) by lia.
    replace (Z.to_nat (i - n)) with idx by lia. rewrite list_lookup_insert_eq, Hx by done. split; [done|].
    intros k Hk. destruct (_ !! k); [done|]. destruct (Z.leb_spec n k); [|done]. rewrite list_lookup_insert_ne; [done|lia].
Qed.

Lemma relink_new C i j l : n ≤ j → relink n C i j l = mkLeaf (leaf_key l) (leaf_value l) j.
Proof. intros Hj. unfold relink. rewrite (proj2 (Z.ltb_ge j n)) by done. by rewrite andb_false_r. Qed.

Lemma link_first_ok i j s : yields (link_first n i j) s (λ _ s', linked i j s s' ∧ is_Some (index_to_leaf_cache s !! i)).
Proof.
  unfold link_first, cached_leaf. ystep. ystep. ystep. ystep. destruct a as [lp m]. ystep.
  eapply (yields_mono _ _ (λ _ s', s' = s)); [apply yields_when; [|done]; intros _; ystep; ystep; by ystep|].
  intros [] ? ->. apply yields_when; [intros Hj%Z.leb_le|intros Hj%Z.leb_gt; split; [by eapply linked_id|by eexists]].
  destruct m as [m|]; [unfold set_next; ystep; ystep; ystep; ystep|]; apply yields_insert_leaf; (split; [|by eexists]).
  - eapply linked_cached; [done|]. intros _. by rewrite relink_new.
  - eapply linked_cached; [done|]. intros _. by rewrite relink_new.
Qed.

Lemma link_leaf_ok i j s : yields (link_leaf n i j) s (λ _ s', linked i j s s').
Proof.
  unfold link_leaf, cached_leaf. ystep. ystep. destruct (_ !! i) as [[lp m]|] eqn:Hi.
  - apply yields_when; [intros Hj%Z.leb_le|intros Hj%Z.leb_gt; by eapply linked_id]. ystep.
    eapply (yields_mono _ _ (λ m' s', s' = s ∧ (pending (index_to_leaf_cache s) i → updated_leaf (lp_leaf lp) m' =
      relink n (index_to_leaf_cache s) i j (from_option (updated_leaf (lp_leaf lp)) (lp_leaf lp) m)))).
    + destruct m as [m|]; destruct (Z.eqb_spec (leaf_next (lp_leaf lp)) j) as [E|E]; cbn [negb]; unfold set_next;
        ystep; try (ystep; ystep); (split; [done|]); intros Hp; rewrite relink_new by done; [| |by rewrite <- E|done].
      * unfold updated_leaf at 1. rewrite (Hp _ _ Hi). cbn. by rewrite E.
      * done.
    + intros m' ? [-> Hm']. apply yields_insert_leaf. by eapply linked_cached.
  - ystep. ystep. ystep. ystep. destruct a as [x leaf]. ystep. apply yields_assert. intros ->%Z.eqb_eq. apply yields_modify.
    by apply linked_new.
Qed.

(** ** The chain of keys *)

(** [k2] follows [k1] among the keys [ks]. *)
Definition follows (ks : list Z) (k1 k2 : Z) : Prop := k2 ∈ ks ∧ k1 < k2 ∧ ∀ k, k ∈ ks → k ≤ k1 ∨ k2 ≤ k.

(** The leaves of the keys [ks] are linked in their order. *)
Definition chained (ks : list Z) (s s' : Batch) : Prop :=
  (∀ k i, k ∈ ks → key_to_index_cache s !! k = Some i →
    (∀ k', k' ∈ ks → k' ≤ k) ∧ content_of s' i = content_of s i
    ∨ ∃ k2 j, follows ks k k2 ∧ key_to_index_cache s !! k2 = Some j
        ∧ content_of s' i = relink n (index_to_leaf_cache s) i j <$> content_of s i)
  ∧ ∀ i, (∀ k, k ∈ ks → key_to_index_cache s !! k ≠ Some i) → content_of s' i = content_of s i.

(** The keys have indices of their own, at which nothing is linked yet. *)
Record linkable (ks : list Z) (s : Batch) : Prop := {
  lk_sorted : StronglySorted Z.lt ks;
  lk_numbered : numbered (new_writes s);
  lk_pending k i : k ∈ ks → key_to_index_cache s !! k = Some i → pending (index_to_leaf_cache s) i;
  lk_inj k k' i : k ∈ ks → k' ∈ ks → key_to_index_cache s !! k = Some i → key_to_index_cache s !! k' = Some i → k = k'
}.

Lemma linkable_step i j k ks s s1 : linkable (k :: ks) s → key_to_index_cache s !! k = Some i → linked i j s s1 → linkable ks s1.
Proof.
  intros [A1 A2 A3 A4] Hk (Hkept & Hother & _). pose proof (kept_keys _ _ Hkept) as EK. split; rewrite ?EK.
  - by apply StronglySorted_inv in A1 as [? _].
  - by eapply kept_numbered.
  - intros k' i' Hin Hk' lp m Hi'. rewrite Hother in Hi'; [by eapply (A3 k'); [right|..]|]. intros ->.
    apply StronglySorted_inv in A1 as [_ A1]. rewrite Forall_forall in A1. specialize (A1 _ Hin).
    assert (k = k') by (eapply A4; [left|by right|done..]). lia.
  - intros k1 k2 i' H1' H2'. apply A4; by right.
Qed.

Lemma chained_step i j k k2 ks s s1 s' : linkable (k :: k2 :: ks) s →
  key_to_index_cache s !! k = Some i → key_to_index_cache s !! k2 = Some j → linked i j s s1 →
  chained (k2 :: ks) s1 s' → chained (k :: k2 :: ks) s s'.
Proof.
  intros Hlk Hk Hk2 (Hkept & Hother & Hlink) [Hc Hrest]. pose proof Hlk as [A1 A2 A3 A4]. pose proof (kept_keys _ _ Hkept) as EK.
  rewrite EK in Hc, Hrest. destruct Hlink as [Hl1 Hl2]; [done|by eapply A3; [left|]|].
  apply StronglySorted_inv in A1 as [A1 A1']. rewrite Forall_forall in A1'.
  apply StronglySorted_inv in A1 as [A1 A1'']. rewrite Forall_forall in A1''.
  assert (∀ k', k' ∈ k2 :: ks → k < k' ∧ k2 ≤ k') as Hgt.
  { intros k' [->|Hk']%elem_of_cons; [split; [apply A1'; left|done]|]. split; [apply A1'; by right|]. specialize (A1'' _ Hk'). lia. }
  assert (∀ k' i', k' ∈ k2 :: ks → key_to_index_cache s !! k' = Some i' → i' ≠ i) as Hne.
  { intros k' i' Hk' Hi' ->. assert (k = k') by (eapply A4; [left|by right|done..]). apply Hgt in Hk'. lia. }
  split.
  - intros k' i' [->|Hk']%elem_of_cons Hi'.
    + rewrite Hk in Hi'. injection Hi' as <-. right. exists k2, j. split_conj; [|done|].
      * split; [right; left|]. split; [apply Hgt; left|]. intros k' [->|Hk']%elem_of_cons; [by left|right; by apply Hgt].
      * rewrite <- Hl1. apply Hrest. intros k' Hk' E. by eapply Hne.
    + pose proof (Hne _ _ Hk' Hi') as Hni. destruct (Hc _ _ Hk' Hi') as [[Hmax Hsame]|(k3 & j3 & (F1 & F2 & F3) & Hj3 & Hre)].
      * left. split; [|by rewrite Hsame, Hl2]. intros k'' [->|Hk'']%elem_of_cons; [apply Hgt in Hk'; lia|auto].
      * right. exists k3, j3. split_conj; [|done|].
        { split; [by right|]. split; [done|]. intros k'' [->|Hk'']%elem_of_cons; [left; apply Hgt in Hk'; lia|auto]. }
        rewrite Hre, Hl2 by done. unfold relink. by rewrite Hother.
  - intros i' Hi'. rewrite Hrest by (intros k' Hk'; apply Hi'; by right). apply Hl2. intros ->. eapply Hi'; [left|done].
Qed.

Lemma index_of_ok k s : yields (index_of k) s (λ i s', s' = s ∧ key_to_index_cache s !! k = Some i).
Proof. unfold index_of. ystep. ystep. apply yields_expect. by intros i Hi. Qed.

Lemma link_rest_ok k i ks s : StronglySorted Z.lt (k :: ks) → key_to_index_cache s !! k = Some i →
  yields (link_rest n i ks) s (λ r s', kept s s' ∧ (linkable (k :: ks) s → chained (k :: ks) s s')
    ∧ ∃ kl, key_to_index_cache s !! kl = Some r ∧ ∀ k', k' ∈ k :: ks → k' ≤ kl).
Proof.
  revert k i s. induction ks as [|k2 ks IH]; intros k i s Hs Hk; cbn [link_rest].
  - ystep. split_conj; [done| |exists k; split; [done|by intros k' ->%list_elem_of_singleton]].
    intros _. split; [|done]. intros k' i' ->%list_elem_of_singleton _. left. split; [by intros k' ->%list_elem_of_singleton|done].
  - ystep. eapply yields_mono; [apply index_of_ok|]. intros j ? [-> Hj]. ystep.
    eapply yields_mono; [apply link_leaf_ok|]. intros [] s1 Hl. apply StronglySorted_inv in Hs as [Hs Hmin].
    pose proof Hl as (Hkept & _). pose proof (kept_keys _ _ Hkept) as EK.
    eapply yields_mono; [apply (IH k2 j s1 Hs); by rewrite EK|]. intros r s2 (Hkept2 & Hch & kl & Hkl & Hmax).
    rewrite EK in Hkl. split_conj; [by etrans| |].
    + intros Hlk. eapply chained_step; [done|done|done|done|]. apply Hch. by eapply linkable_step.
    + exists kl. split; [done|]. intros k' [->|Hk']%elem_of_cons; [|auto]. rewrite Forall_forall in Hmin.
      specialize (Hmin k2 ltac:(left)). specialize (Hmax k2 ltac:(left)). lia.
Qed.

Lemma elem_of_btree_keys {V} (m : gmap Z V) k : k ∈ btree_keys m ↔ is_Some (m !! k).
Proof.
  unfold btree_keys. rewrite list_elem_of_fmap. split.
  - intros ([k' v] & -> & Hv%elem_of_btree_iter). by eexists.
  - intros [v Hv]. exists (k, v). by rewrite elem_of_btree_iter.
Qed.

Lemma btree_keys_sorted {V} (m : gmap Z V) : StronglySorted Z.lt (btree_keys m).
Proof.
  unfold btree_keys. induction (btree_iter_sorted m) as [|a l Hs IH Ha]; cbn; constructor; [done|].
  by apply Forall_fmap.
Qed.

Lemma link_keys_ok s : yields (link_keys n) s (λ _ s', kept s s'
  ∧ (linkable (btree_keys (key_to_index_cache s)) s → chained (btree_keys (key_to_index_cache s)) s s')
  ∧ ∃ kl il, key_to_index_cache s !! kl = Some il ∧ is_Some (index_to_leaf_cache s !! il)
      ∧ ∀ k, k ∈ btree_keys (key_to_index_cache s) → k ≤ kl).
Proof.
  unfold link_keys. ystep. ystep. pose proof (btree_keys_sorted (key_to_index_cache s)) as Hs.
  destruct (btree_keys _) as [|k [|k2 ks]]; [apply yields_fault..|].
  ystep. eapply yields_mono; [apply index_of_ok|]. intros i ? [-> Hi]. ystep.
  eapply yields_mono; [apply index_of_ok|]. intros j ? [-> Hj]. ystep.
  eapply yields_mono; [apply link_first_ok|]. intros [] s1 [Hl Hci]. ystep. pose proof Hl as (Hkept & _).
  apply StronglySorted_inv in Hs as [Hs Hmin]. pose proof (kept_keys _ _ Hkept) as EK.
  eapply yields_mono; [apply (link_rest_ok k2 j ks s1 Hs); by rewrite EK|]. intros r s2 (Hkept2 & Hch & kl & Hkl & Hmax).
  unfold check_last, cached_leaf. ystep. ystep. ystep. apply yields_expect. intros [lp m] Hr.
  eapply (yields_mono _ _ (λ _ s', s' = s2)); [apply yields_when; [|done]; intros _; ystep; ystep; by ystep|].
  intros [] ? ->. split_conj; [by etrans| |].
  - intros Hlk. eapply chained_step; [done|done|done|done|]. apply Hch. by eapply linkable_step.
  - rewrite EK in Hkl. exists kl, r. split_conj; [done| |].
    + apply (kept_opened _ _ _ Hkept), (kept_opened _ _ _ Hkept2). by eexists.
    + intros k' [->|Hk']%elem_of_cons; [|auto]. rewrite Forall_forall in Hmin.
      specialize (Hmin k2 ltac:(left)). specialize (Hmax k2 ltac:(left)). lia.
Qed.
End Link.
