(* ===== verification/FlatTheorems.v ===== *)
(** * The commitment to the state: theorems

    What the root commits to is a map from flat keys to values, stored as a linked list
    of leaves ordered by key.  [verify_and_apply_batch] only succeeds if the values it
    is given are those of the map, and then leaves the commitment to the updated map,
    whatever the oracle has answered. *)

From stdpp Require Import gmap sorting strings.
From S2P Require Import Prelude Resources FlatStorage FlatMerkle FlatCollect.

(** ** The state in the tree *)

(** The leaf at [i] points to the leaf with the next key. *)
Definition successor (T : Tree) (n i : Z) : Prop :=
  let j := leaf_next (T i) in
  0 ≤ j < n ∧ leaf_key (T i) < leaf_key (T j)
  ∧ ∀ m, 0 ≤ m < n → leaf_key (T i) < leaf_key (T m) → leaf_key (T j) ≤ leaf_key (T m).

(** The first [n] leaves of [T] hold the map [kv]. *)
Record flat_state (T : Tree) (n : Z) (kv : gmap Z Z) : Prop := {
  fs_slots : 2 ≤ n;
  fs_wf i : leaf_wf (T i);
  fs_empty i : n ≤ i → T i = empty_leaf;
  fs_min : leaf_key (T MIN_KEY_LEAF_MARKER_IDX) = 0;
  fs_max : leaf_key (T MAX_KEY_LEAF_MARKER_IDX) = MAX_KEY;
  fs_inj i j : 0 ≤ i < n → 0 ≤ j < n → leaf_key (T i) = leaf_key (T j) → i = j;
  fs_next i : 0 ≤ i < n → i ≠ MAX_KEY_LEAF_MARKER_IDX → successor T n i;
  fs_values k v : kv !! k = Some v ↔ ∃ i, 0 ≤ i < n ∧ leaf_key (T i) = k ∧ leaf_value (T i) = v
}.

(** ** The leaves after a batch *)

Section After.
Variables (N : nat) (T : Tree) (n : Z) (kv D K : gmap Z Z) (C : LeafCache) (W : list (Z * FlatStorageLeaf)).
Variable c' : Z → option FlatStorageLeaf.

Hypothesis flat : flat_state T n kv.
Hypothesis co : collected N n D K C W.
Hypothesis auth : ∀ i lp m, C !! i = Some (lp, m) → lp_leaf lp = T i.
Hypothesis old : ∀ i, is_Some (C !! i) → i < n.

(** Where the leaf of a key points to. *)
Definition next_link (k i : Z) (l l' : FlatStorageLeaf) : Prop :=
  (∀ k', is_Some (K !! k') → k' ≤ k) ∧ is_Some (C !! i) ∧ l' = l
  ∨ ∃ k2 j, K !! k2 = Some j ∧ k < k2 ∧ (∀ k', is_Some (K !! k') → k' ≤ k ∨ k2 ≤ k') ∧ l' = relink n C i j l.

Hypothesis link_some : ∀ i l, content n C W i = Some l → ∃ l', c' i = Some l'
  ∧ leaf_key l' = leaf_key l ∧ leaf_value l' = leaf_value l
  ∧ (W = [] ∧ l' = l ∨ ∀ k, K !! k = Some i → next_link k i l l').
Hypothesis link_none : ∀ i, content n C W i = None → c' i = None.
Hypothesis bound : n + Z.of_nat (length W) < 2 ^ 64.

Definition after : Tree := λ i, default (T i) (c' i).
Abbreviation n' := (n + Z.of_nat (length W)).
Abbreviation key i := (leaf_key (T i)).
Abbreviation key' i := (leaf_key (after i)).

Lemma content_cached i lp m : C !! i = Some (lp, m) →
  content n C W i = Some (from_option (updated_leaf (T i)) (T i) m)
  ∧ leaf_next (from_option (updated_leaf (T i)) (T i) m) = leaf_next (T i) ∧ K !! key i = Some i ∧ 0 ≤ i < n.
Proof.
  intros Hi. unfold content. pose proof (auth _ _ _ Hi) as E. pose proof (co_key _ _ _ _ _ _ co _ _ _ Hi) as HK. rewrite E in HK.
  assert (i < n) by (apply old; by eexists). destruct (co_cache _ _ _ _ _ _ co _ _ _ Hi) as [Hr _].
  assert (leaf_next (from_option (updated_leaf (T i)) (T i) m) = leaf_next (T i)).
  { destruct m as [m|]; [|done]. by destruct (co_mod _ _ _ _ _ _ co _ _ _ Hi) as (v & -> & _). }
  rewrite Hi, E. split_conj; try done; lia.
Qed.

Lemma content_new j x : W !! j = Some x → content n C W (n + Z.of_nat j) = Some x.2
  ∧ C !! (n + Z.of_nat j) = None ∧ K !! leaf_key x.2 = Some (n + Z.of_nat j).
Proof.
  intros Hx. destruct (co_new _ _ _ _ _ _ co _ _ Hx) as (E & _ & _ & HK & _). rewrite E in HK.
  assert (C !! (n + Z.of_nat j) = None) as HC.
  { destruct (C !! _) eqn:E'; [|done]. assert (n + Z.of_nat j < n) by (apply old; by eexists). lia. }
  unfold content. rewrite HC. rewrite (proj2 (Z.leb_le _ _)) by lia. replace (Z.to_nat _) with j by lia. by rewrite Hx.
Qed.

Lemma content_old i : C !! i = None → i < n → content n C W i = None.
Proof. intros HC Hi. unfold content. rewrite HC. by rewrite (proj2 (Z.leb_gt _ _)). Qed.

Lemma content_range i l : content n C W i = Some l → 0 ≤ i < n'.
Proof.
  pose proof (fs_slots _ _ _ flat). unfold content. destruct (C !! i) as [[lp m]|] eqn:HC.
  - intros _. destruct (content_cached _ _ _ HC) as (_ & _ & _ & Hi). lia.
  - destruct (Z.leb_spec n i); [|done]. intros (x & Hx & _)%fmap_Some. apply lookup_lt_Some in Hx. lia.
Qed.

(** What is at an index after the batch. *)
Inductive slot (i : Z) : Prop :=
| slot_cached lp m l' : C !! i = Some (lp, m) → 0 ≤ i < n → K !! key i = Some i → after i = l' → leaf_key l' = key i →
    leaf_value l' = leaf_value (from_option (updated_leaf (T i)) (T i) m) →
    (W = [] ∧ leaf_next l' = leaf_next (T i) ∨ ∃ l, leaf_next l = leaf_next (T i) ∧ next_link (key i) i l l') → slot i
| slot_old : C !! i = None → 0 ≤ i < n → after i = T i → slot i
| slot_new j x l' : W !! j = Some x → i = n + Z.of_nat j → C !! i = None → K !! leaf_key x.2 = Some i → after i = l' →
    leaf_key l' = leaf_key x.2 → leaf_value l' = leaf_value x.2 → next_link (leaf_key x.2) i x.2 l' → slot i.

Lemma slot_at i : 0 ≤ i < n' → slot i.
Proof.
  intros Hi. destruct (C !! i) as [[lp m]|] eqn:HC.
  - destruct (content_cached _ _ _ HC) as (Hc & Hnx & HK & Hr). destruct (link_some _ _ Hc) as (l' & Hl' & Ek & Ev & Hl).
    eapply (slot_cached i lp m l'); try done; [unfold after; by rewrite Hl'| |].
    + rewrite Ek. by destruct m.
    + destruct Hl as [[HW ->]|Hl]; [by left|right]. eauto.
  - destruct (decide (i < n)) as [Hn|Hn].
    + apply slot_old; [done|lia|]. unfold after. by rewrite link_none by (by apply content_old).
    + destruct (lookup_lt_is_Some_2 W (Z.to_nat (i - n))) as [x Hx]; [lia|]. destruct (content_new _ _ Hx) as (Hc & _ & HK).
      replace (n + Z.of_nat (Z.to_nat (i - n))) with i in Hc, HK by lia. destruct (link_some _ _ Hc) as (l' & Hl' & Ek & Ev & Hl).
      eapply (slot_new i _ x l'); try done; [lia|unfold after; by rewrite Hl'|]. destruct Hl as [[-> _]|Hl]; [done|auto].
Qed.

Lemma key_old i : 0 ≤ i < n → key' i = key i.
Proof. intros Hi. destruct (slot_at i) as [? ? ? _ _ _ <- E _ _|_ _ E|j x ? _ -> _]; [lia|done|by rewrite E|lia]. Qed.

Lemma key_new j x : W !! j = Some x → key' (n + Z.of_nat j) = leaf_key x.2.
Proof.
  intros Hx. pose proof (lookup_lt_Some _ _ _ Hx). pose proof (fs_slots _ _ _ flat).
  destruct (slot_at (n + Z.of_nat j)) as [? ? ? _ ? _ _ _ _ _|_ ? _|j' x' ? Hx' E _ _ <- -> _]; try lia.
  replace j' with j in Hx' by lia. congruence.
Qed.

Lemma key_index k i : K !! k = Some i → 0 ≤ i < n' ∧ key' i = k.
Proof.
  intros [(lp & m & Hi & <-)|(j & x & Hx & <- & <-)]%(co_index _ _ _ _ _ _ co).
  - destruct (content_cached _ _ _ Hi) as (_ & _ & _ & Hr). split; [lia|]. by rewrite key_old, (auth _ _ _ Hi).
  - destruct (co_new _ _ _ _ _ _ co _ _ Hx) as (-> & _). pose proof (lookup_lt_Some _ _ _ Hx). pose proof (fs_slots _ _ _ flat).
    split; [lia|]. by apply key_new.
Qed.

(** A new key is between two leaves of the tree that follow each other. *)
Lemma gap j x : W !! j = Some x → ∃ p, 0 ≤ p < n ∧ p ≠ MAX_KEY_LEAF_MARKER_IDX ∧ K !! key p = Some p
  ∧ is_Some (K !! key (leaf_next (T p))) ∧ key p < leaf_key x.2 < key (leaf_next (T p)).
Proof.
  intros Hx. destruct (co_new _ _ _ _ _ _ co _ _ Hx) as (_ & _ & _ & _ & _ & p & lp & mp & q & lq & mq & Hp & Hq & Hn & Hlt).
  rewrite (auth _ _ _ Hp) in Hn, Hlt. rewrite (auth _ _ _ Hq) in Hlt.
  destruct (content_cached _ _ _ Hp) as (_ & _ & HKp & Hrp), (content_cached _ _ _ Hq) as (_ & _ & HKq & Hrq).
  exists p. subst q. split_conj; try done; try lia. intros ->. rewrite (fs_max _ _ _ flat) in Hlt.
  destruct (fs_wf _ _ _ flat (leaf_next (T MAX_KEY_LEAF_MARKER_IDX))) as [Hk _]. unfold in_width, MAX_KEY, umax in *. lia.
Qed.

Lemma key_fresh j x i : W !! j = Some x → 0 ≤ i < n → key i ≠ leaf_key x.2.
Proof.
  intros Hx Hi E. destruct (gap _ _ Hx) as (p & Hp & Hp1 & _ & _ & Hlt).
  destruct (fs_next _ _ _ flat p Hp Hp1) as (_ & _ & Hs). specialize (Hs i Hi). lia.
Qed.

(** A new key does not separate two leaves of the tree that follow each other, unless
    it has been opened between them. *)
Lemma gap_above j x i : W !! j = Some x → 0 ≤ i < n → i ≠ MAX_KEY_LEAF_MARKER_IDX → key i < leaf_key x.2 →
  key (leaf_next (T i)) < leaf_key x.2 ∨ K !! key i = Some i ∧ leaf_key x.2 < key (leaf_next (T i)).
Proof.
  intros Hx Hi Hi1 Hlt. destruct (gap _ _ Hx) as (p & Hp & Hp1 & HK & _ & Hpq).
  destruct (fs_next _ _ _ flat p Hp Hp1) as (_ & _ & Hs), (fs_next _ _ _ flat i Hi Hi1) as (_ & _ & Hs').
  destruct (Z.lt_trichotomy (key p) (key i)) as [Hc|[Hc|Hc]].
  - specialize (Hs i Hi). lia.
  - apply (fs_inj _ _ _ flat) in Hc; [|done..]. subst p. right. split; [done|lia].
  - specialize (Hs' p Hp). left. lia.
Qed.

Lemma after_inj i j : 0 ≤ i < n' → 0 ≤ j < n' → key' i = key' j → i = j.
Proof.
  assert (∀ i j, 0 ≤ i < n → n ≤ j < n' → key' i ≠ key' j) as Hno.
  { intros i1 j1 Hi Hj. rewrite key_old by done. destruct (lookup_lt_is_Some_2 W (Z.to_nat (j1 - n))) as [x Hx]; [lia|].
    replace j1 with (n + Z.of_nat (Z.to_nat (j1 - n))) by lia. rewrite (key_new _ _ Hx). by eapply key_fresh. }
  intros Hi Hj E. destruct (decide (i < n)), (decide (j < n)).
  - rewrite !key_old in E by lia. apply (fs_inj _ _ _ flat); [lia..|done].
  - exfalso. apply (Hno i j); [lia..|done].
  - exfalso. apply (Hno j i); [lia..|done].
  - destruct (lookup_lt_is_Some_2 W (Z.to_nat (i - n))) as [x Hx]; [lia|]. destruct (lookup_lt_is_Some_2 W (Z.to_nat (j - n))) as [y Hy]; [lia|].
    replace i with (n + Z.of_nat (Z.to_nat (i - n))) in E |- * by lia. replace j with (n + Z.of_nat (Z.to_nat (j - n))) in E |- * by lia.
    rewrite (key_new _ _ Hx), (key_new _ _ Hy) in E. destruct (content_new _ _ Hx) as (_ & _ & Kx), (content_new _ _ Hy) as (_ & _ & Ky).
    congruence.
Qed.

Lemma successor_intro i j : leaf_next (after i) = j → 0 ≤ j < n' → key' i < key' j →
  (∀ m, 0 ≤ m < n → key' i < key m → key' j ≤ key m) →
  (∀ w x, W !! w = Some x → key' i < leaf_key x.2 → key' j ≤ leaf_key x.2) → successor after n' i.
Proof.
  intros Hj Hr Hlt Hold Hnew. unfold successor. rewrite Hj. split_conj; [lia|lia|done|]. intros m Hm Hkm. destruct (decide (m < n)).
  - rewrite (key_old m) in Hkm |- * by lia. apply Hold; [lia|done].
  - destruct (lookup_lt_is_Some_2 W (Z.to_nat (m - n))) as [x Hx]; [lia|].
    replace m with (n + Z.of_nat (Z.to_nat (m - n))) in Hkm |- * by lia. rewrite (key_new _ _ Hx) in Hkm |- *. eauto.
Qed.

(** A leaf that has kept its link. *)
Lemma successor_kept i : 0 ≤ i < n → i ≠ MAX_KEY_LEAF_MARKER_IDX → leaf_next (after i) = leaf_next (T i) →
  (∀ w x, W !! w = Some x → key i < leaf_key x.2 → key (leaf_next (T i)) ≤ leaf_key x.2) → successor after n' i.
Proof.
  intros Hi Hi1 Hn Hnew. destruct (fs_next _ _ _ flat i Hi Hi1) as (Hr & Hlt & Hmin).
  apply (successor_intro i (leaf_next (T i))); [done|lia|by rewrite !key_old by lia| |].
  - intros m Hm. rewrite !key_old by lia. auto.
  - rewrite !key_old by lia. done.
Qed.

(** A leaf that is linked to the next key of the cache. *)
Lemma successor_linked i k2 j : leaf_next (after i) = j → K !! k2 = Some j → key' i < k2 →
  (∀ k', is_Some (K !! k') → k' ≤ key' i ∨ k2 ≤ k') →
  (∀ m, 0 ≤ m < n → key' i < key m → k2 ≤ key m) → successor after n' i.
Proof.
  intros Hn Hk2 Hlt Hmin Hold. destruct (key_index _ _ Hk2) as [Hj Ej]. apply (successor_intro i j); rewrite ?Ej; try done.
  intros w x Hx Hlx. destruct (content_new _ _ Hx) as (_ & _ & HK). destruct (Hmin (leaf_key x.2)); [by eexists|lia|done].
Qed.

Lemma after_next i : 0 ≤ i < n' → i ≠ MAX_KEY_LEAF_MARKER_IDX → successor after n' i.
Proof.
  intros Hi Hi1. destruct (slot_at i Hi) as [lp m l' HC Hin HK Ea Ek Ev Hl|HC Hin Ea|j x l' Hx Ei HC HK Ea Ek Ev Hl].
  - destruct Hl as [[HW Hn]|(l & El & [(Hmax & _ & ->)|(k2 & j & Hk2 & Hlt & Hmin & ->)])].
    + apply successor_kept; [done|done|congruence|]. intros w x Hx. by rewrite HW in Hx.
    + apply successor_kept; [done|done|congruence|]. intros w x Hx Hlx. destruct (content_new _ _ Hx) as (_ & _ & HKx).
      specialize (Hmax (leaf_key x.2) ltac:(by eexists)). lia.
    + unfold relink in Ea. rewrite HC, bool_decide_true in Ea by done. cbn in Ea. destruct (Z.ltb_spec j n) as [Hj|Hj].
      * apply successor_kept; [done|done|congruence|]. intros w x Hx Hlx. destruct (content_new _ _ Hx) as (_ & _ & HKx).
        destruct (Hmin (leaf_key x.2)); [by eexists|lia|]. destruct (key_index _ _ Hk2) as [Hr Ej]. rewrite key_old in Ej by lia.
        destruct (fs_next _ _ _ flat i Hin Hi1) as (_ & _ & Hs). specialize (Hs j ltac:(lia) ltac:(lia)). lia.
      * apply (successor_linked i k2 j); [by rewrite Ea|done|by rewrite key_old|by rewrite key_old|]. rewrite key_old by done.
        intros q Hq Hlq. destruct (co_index _ _ _ _ _ _ co _ _ Hk2) as [(lp' & m' & Hc & _)|(w & x & Hx & Ex & <-)].
        { assert (j < n) by (apply old; by eexists). lia. }
        destruct (fs_next _ _ _ flat i Hin Hi1) as (_ & Hn & Hs). specialize (Hs q Hq Hlq).
        destruct (gap_above _ _ i Hx Hin Hi1 Hlt) as [Hg|[_ Hg]]; [|lia]. exfalso.
        destruct (gap _ _ Hx) as (p & Hp & Hp1 & HKp & _ & Hpx). destruct (fs_next _ _ _ flat p Hp Hp1) as (_ & _ & Hsp).
        destruct (Hmin (key p)) as [Hpi|]; [by eexists| |lia]. specialize (Hsp i Hin).
        assert (p = i) as -> by (apply (fs_inj _ _ _ flat); [done|done|lia]). lia.
  - apply successor_kept; [done|done|by rewrite Ea|]. intros w x Hx Hlx.
    destruct (gap_above _ _ i Hx Hin Hi1 Hlx) as [Hg|[HKi _]]; [lia|].
    destruct (co_index _ _ _ _ _ _ co _ _ HKi) as [(lp & m & Hc & _)|(w' & x' & Hx' & E & Ek)]; [congruence|].
    by destruct (key_fresh _ _ i Hx' Hin).
  - assert (key' i = leaf_key x.2) as Eki by congruence. destruct Hl as [(_ & [? ?] & _)|(k2 & j2 & Hk2 & Hlt & Hmin & ->)]; [congruence|].
    unfold relink in Ea. rewrite HC, bool_decide_false in Ea by (by intros [? ?]). cbn in Ea.
    apply (successor_linked i k2 j2); [by rewrite Ea|done|congruence|by rewrite Eki|]. rewrite Eki. intros q Hq Hlq.
    destruct (gap _ _ Hx) as (p & Hp & Hp1 & _ & HKn & Hpx). destruct (fs_next _ _ _ flat p Hp Hp1) as (_ & _ & Hs).
    specialize (Hs q Hq ltac:(lia)). destruct (Hmin _ HKn); lia.
Qed.

Lemma unwritten i : 0 ≤ i < n → (∀ lp m, C !! i ≠ Some (lp, Some m)) → D !! key i = None.
Proof.
  intros Hi Hno. destruct (D !! key i) eqn:Hd; [|done]. exfalso.
  destruct (co_written _ _ _ _ _ _ co _ _ Hd) as [_ [(i' & lp & HC & E)|(j & x & Hx & E & _)]]; [|by eapply key_fresh].
  rewrite (auth _ _ _ HC) in E. destruct (content_cached _ _ _ HC) as (_ & _ & _ & Hi').
  apply (fs_inj _ _ _ flat) in E; [|done..]. subst i'. by eapply Hno.
Qed.

Lemma after_values k v : (D ∪ kv) !! k = Some v ↔ ∃ i, 0 ≤ i < n' ∧ key' i = k ∧ leaf_value (after i) = v.
Proof.
  pose proof (fs_slots _ _ _ flat). rewrite lookup_union_Some_raw. split.
  - intros [Hd|[Hd (i & Hi & Hk & Hv)%(fs_values _ _ _ flat)]].
    + destruct (co_written _ _ _ _ _ _ co _ _ Hd) as [_ [(i & lp & HC & <-)|(j & x & Hx & <- & <-)]].
      * destruct (content_cached _ _ _ HC) as (_ & _ & _ & Hi). exists i. rewrite key_old, (auth _ _ _ HC) by done. split_conj; [lia|lia|done|].
        destruct (slot_at i) as [lp' m l' HC' _ _ -> _ Ev _|HC' _ _|? ? ? _ ? HC' _ _ _ _]; [lia| |congruence..].
        rewrite HC in HC'. injection HC' as <- <-. done.
      * pose proof (lookup_lt_Some _ _ _ Hx). exists (n + Z.of_nat j). rewrite (key_new _ _ Hx). split_conj; [lia|lia|done|].
        destruct (slot_at (n + Z.of_nat j)) as [? ? ? _ ? _ _ _ _ _|_ ? _|j' x' l' Hx' E _ _ -> _ Ev _]; try lia.
        replace j' with j in Hx' by lia. congruence.
    + exists i. rewrite key_old by done. split_conj; [lia|lia|done|].
      destruct (slot_at i) as [lp m l' HC _ _ -> _ Ev _|_ _ ->|? ? ? _ ? _ _ _ _ _ _]; [lia| |done|lia].
      rewrite Ev. destruct m as [m|]; [|done]. destruct (co_mod _ _ _ _ _ _ co _ _ _ HC) as (v' & _ & Hd').
      rewrite (auth _ _ _ HC) in Hd'. congruence.
  - intros (i & Hi & <- & <-). destruct (slot_at i Hi) as [lp m l' HC Hin _ -> Ek Ev _|HC Hin ->|j x l' Hx _ _ _ -> Ek Ev _].
    + rewrite Ek, Ev. destruct m as [m|].
      * left. destruct (co_mod _ _ _ _ _ _ co _ _ _ HC) as (v' & -> & Hd'). by rewrite (auth _ _ _ HC) in Hd'.
      * right. split; [|apply (fs_values _ _ _ flat); by exists i]. apply unwritten; [done|congruence].
    + right. split; [|apply (fs_values _ _ _ flat); by exists i]. apply unwritten; [done|congruence].
    + left. rewrite Ek, Ev. by destruct (co_new _ _ _ _ _ _ co _ _ Hx) as (_ & _ & _ & _ & Hd & _).
Qed.

Lemma next_link_range k i l l' : is_u64 (leaf_next l) → next_link k i l l' → is_u64 (leaf_next l').
Proof.
  intros Hl [(_ & _ & ->)|(k2 & j & Hk2%key_index & _ & _ & ->)]; [done|].
  unfold relink. case_match; [done|]. cbn. destruct Hk2. unfold in_width. lia.
Qed.

Lemma after_wf i : leaf_wf (after i).
Proof.
  destruct (decide (0 ≤ i < n')) as [Hi|Hi].
  - destruct (fs_wf _ _ _ flat i) as (Wk & Wv & Wn).
    destruct (slot_at i Hi) as [lp m l' HC Hin _ -> Ek Ev Hl|HC Hin ->|j x l' Hx _ _ _ -> Ek Ev Hl]; [|done|]; unfold leaf_wf; rewrite Ek, Ev.
    + split_conj; [done| |].
      * destruct m as [m|]; [|done]. destruct (co_mod _ _ _ _ _ _ co _ _ _ HC) as (v & -> & Hd). exact (proj1 (co_written _ _ _ _ _ _ co _ _ Hd)).
      * destruct Hl as [[_ ->]|(l & El & Hl)]; [done|]. eapply next_link_range; [|done]. by rewrite El.
    + destruct (co_new _ _ _ _ _ _ co _ _ Hx) as (_ & Enx & Hk & _ & Hd & _).
      destruct (co_written _ _ _ _ _ _ co _ _ Hd) as [Hu _]. unfold leaf_wf in *. split; [done|]. split; [done|].
      eapply next_link_range; [|done]. by rewrite Enx.
  - unfold after. rewrite link_none; [apply (fs_wf _ _ _ flat)|]. destruct (content n C W i) eqn:Hc; [|done]. exfalso.
    apply Hi. apply content_range in Hc. done.
Qed.

Lemma flat_after : flat_state after n' (D ∪ kv).
Proof.
  pose proof (fs_slots _ _ _ flat). split; [lia|apply after_wf| | | |apply after_inj|apply after_next|apply after_values].
  - intros i Hi. unfold after. rewrite link_none; [apply (fs_empty _ _ _ flat); cbn; lia|].
    destruct (content n C W i) eqn:Hc; [|done]. apply content_range in Hc. lia.
  - rewrite key_old; [apply (fs_min _ _ _ flat)|]. unfold MIN_KEY_LEAF_MARKER_IDX. lia.
  - rewrite key_old; [apply (fs_max _ _ _ flat)|]. unfold MAX_KEY_LEAF_MARKER_IDX. lia.
Qed.
End After.

(** ** The batch *)

Section Sound.
Context `{Blake2sLaws} `{StateOracle} `{Usize}.
Variable N : nat.
Context `{!StateOracleTypes N}.

(** A read or a write agrees with the map. *)
Definition agrees (kv : gmap Z Z) (x : WarmStorageKey * WarmStorageValue) : Prop :=
  if is_new_storage_slot x.2 then kv !! flat_key x.1 = None ∧ (is_read x = true → initial_value x.2 = 0)
  else kv !! flat_key x.1 = Some (initial_value x.2).

Lemma checked_agrees T n kv C x : flat_state T n kv → (∀ i lp m, C !! i = Some (lp, m) → lp_leaf lp = T i ∧ 0 ≤ i < n) →
  checked C x → agrees kv x.
Proof.
  intros flat HC. unfold checked, agrees. destruct (is_new_storage_slot _).
  - intros [(p & lp & mp & q & lq & mq & Hp & Hq & Hn & Hlt) Hz]. split; [|done].
    destruct (HC _ _ _ Hp) as [Ep Hp'], (HC _ _ _ Hq) as [Eq Hq']. rewrite Ep in Hn, Hlt. rewrite Eq in Hlt. subst q.
    destruct (kv !! _) eqn:Hk; [|done]. exfalso. apply (fs_values _ _ _ flat) in Hk as (i & Hi & Hki & _).
    assert (p ≠ MAX_KEY_LEAF_MARKER_IDX) as Hp1.
    { intros ->. rewrite (fs_max _ _ _ flat) in Hlt. destruct (fs_wf _ _ _ flat (leaf_next (T MAX_KEY_LEAF_MARKER_IDX))) as [Hk _].
      unfold in_width, MAX_KEY, umax in *. lia. }
    destruct (fs_next _ _ _ flat p Hp' Hp1) as (_ & _ & Hs). specialize (Hs i Hi). lia.
  - intros (i & lp & m & Hi & Hk & Hv). destruct (HC _ _ _ Hi) as [E Hi']. rewrite E in Hk, Hv.
    apply (fs_values _ _ _ flat). by exists i.
Qed.

Lemma write_values_union D kv l : write_values D l ∪ kv = write_values (D ∪ kv) l.
Proof.
  unfold write_values. revert D. induction l as [|x l IH]; intros D; cbn; [done|]. rewrite IH. f_equal.
  unfold write_value. destruct (is_read x); [done|]. by rewrite insert_union_l.
Qed.

Lemma write_values_filter kv l : write_values kv (filter (λ x, is_read x = false) l) = write_values kv l.
Proof.
  unfold write_values. revert kv. induction l as [|x l IH]; intros kv; [done|]. rewrite filter_cons.
  destruct (is_read x) eqn:E.
  - rewrite decide_False by done. rewrite IH. cbn [foldl]. f_equal. unfold write_value. by rewrite E.
  - rewrite decide_True by done. cbn [foldl]. apply IH.
Qed.

Abbreviation new_of l := (length (filter (λ x, is_new_write x = true) l)).

Lemma new_of_filter l : new_of (filter (λ x, is_read x = false) l) = new_of l.
Proof.
  induction l as [|x l IH]; [done|]. rewrite filter_cons. unfold is_new_write in *. destruct (is_read x) eqn:E.
  - rewrite decide_False by done. rewrite IH, filter_cons. rewrite decide_False; [done|by rewrite E].
  - rewrite decide_True by done. rewrite !filter_cons. destruct (decide _); cbn; by rewrite IH.
Qed.

(** *** Linking *)

(** What is at the opened and the new indices after linking. *)
Record links (n : Z) (K : gmap Z Z) (C : LeafCache) (W : list (Z * FlatStorageLeaf)) (c' : Z → option FlatStorageLeaf) : Prop := {
  links_some i l : content n C W i = Some l → ∃ l', c' i = Some l' ∧ leaf_key l' = leaf_key l ∧ leaf_value l' = leaf_value l
    ∧ (W = [] ∧ l' = l ∨ ∀ k, K !! k = Some i → next_link n K C k i l l');
  links_none i : content n C W i = None → c' i = None
}.

Lemma collected_linkable n self D s : collecting N n self D s → (∀ i, is_Some (index_to_leaf_cache s !! i) → i < n) →
  linkable n (btree_keys (key_to_index_cache s)) s.
Proof.
  intros [co _] Hold. split.
  - apply btree_keys_sorted.
  - intros j x Hx. by apply (co_new _ _ _ _ _ _ co).
  - intros k i _ _ lp m Hi. by destruct (co_mod _ _ _ _ _ _ co _ _ _ Hi) as (v & -> & _).
  - intros k k' i _ _ Hk Hk'.
    destruct (co_index _ _ _ _ _ _ co _ _ Hk) as [(lp & m & Hi & <-)|(j & x & Hx & Ex & <-)],
      (co_index _ _ _ _ _ _ co _ _ Hk') as [(lp' & m' & Hi' & <-)|(j' & x' & Hx' & Ex' & <-)].
    + congruence.
    + assert (i < n) by (apply Hold; by eexists). destruct (co_new _ _ _ _ _ _ co _ _ Hx') as [E _]. lia.
    + assert (i < n) by (apply Hold; by eexists). destruct (co_new _ _ _ _ _ _ co _ _ Hx) as [E _]. lia.
    + destruct (co_new _ _ _ _ _ _ co _ _ Hx) as [E _], (co_new _ _ _ _ _ _ co _ _ Hx') as [E' _].
      assert (j = j') as -> by lia. congruence.
Qed.

Lemma content_keyed n self D s i l : collecting N n self D s → content n (index_to_leaf_cache s) (new_writes s) i = Some l →
  ∃ k, key_to_index_cache s !! k = Some i.
Proof.
  intros [co _]. unfold content. destruct (_ !! i) as [[lp m]|] eqn:HC; [intros _; eexists; by eapply co_key|].
  destruct (Z.leb_spec n i); [|done]. intros (x & Hx & _)%fmap_Some. destruct (co_new _ _ _ _ _ _ co _ _ Hx) as (E & _ & _ & HK & _).
  exists (leaf_key x.2). rewrite HK, E. f_equal. lia.
Qed.

Lemma chained_links n self D s s' : collecting N n self D s → (∀ i, is_Some (index_to_leaf_cache s !! i) → i < n) →
  chained n (btree_keys (key_to_index_cache s)) s s' →
  (∃ kl il, key_to_index_cache s !! kl = Some il ∧ is_Some (index_to_leaf_cache s !! il)
     ∧ ∀ k, k ∈ btree_keys (key_to_index_cache s) → k ≤ kl) →
  links n (key_to_index_cache s) (index_to_leaf_cache s) (new_writes s) (content n (index_to_leaf_cache s') (new_writes s')).
Proof.
  intros Hco Hold [Hch Hrest] (kl & il & Hkl & Hil & Hmax). pose proof (collected_linkable _ _ _ _ Hco Hold) as [_ _ _ Hinj].
  assert (∀ k, is_Some (key_to_index_cache s !! k) → k ≤ kl) as Hmax' by (intros k Hk; by apply Hmax, elem_of_btree_keys).
  assert (∀ k i, key_to_index_cache s !! k = Some i → k ∈ btree_keys (key_to_index_cache s)) as Hin
    by (intros k i Hk; apply elem_of_btree_keys; by eexists).
  split.
  - intros i l Hl. destruct (content_keyed _ _ _ _ _ _ Hco Hl) as [k Hk].
    destruct (Hch k i (Hin _ _ Hk) Hk) as [[Hk' Hsame]|(k2 & j & (F1 & F2 & F3) & Hj & Hre)].
    + exists l. split_conj; [congruence|done|done|right]. intros k' Hk''. left.
      assert (k' = k) as -> by (eapply Hinj; eauto). split_conj; [intros k3 [i3 Hk3]; eauto| |done].
      assert (k = kl) as -> by (apply Z.le_antisymm; eauto). congruence.
    + rewrite Hl in Hre. exists (relink n (index_to_leaf_cache s) i j l). split_conj; [done|unfold relink; by case_match..|right].
      intros k' Hk''. right. assert (k' = k) as -> by (eapply Hinj; eauto). exists k2, j. split_conj; [done|done| |done].
      intros k3 [i3 Hk3]. eauto.
  - intros i Hi. rewrite Hrest; [done|]. intros k _ Hk. destruct Hco as [co _]. unfold content in Hi.
    destruct (co_index _ _ _ _ _ _ co _ _ Hk) as [(lp & m & Hc & _)|(j & x & Hx & Ex & _)]; [by rewrite Hc in Hi|].
    destruct (index_to_leaf_cache s !! i) as [[??]|]; [done|]. destruct (co_new _ _ _ _ _ _ co _ _ Hx) as [E _].
    rewrite (proj2 (Z.leb_le n i)) in Hi by lia. replace (Z.to_nat (i - n)) with j in Hi by lia. by rewrite Hx in Hi.
Qed.

(** Nothing has been linked, and nothing had to be. *)
Lemma unlinked_links n K C : links n K C [] (content n C []).
Proof. split; [|done]. intros i l Hl. exists l. split_conj; try done. by left. Qed.

Lemma open_rightmost_ok n s : 2 ≤ n < 2 ^ 64 → yields (open_rightmost n) s (λ _ s',
  commitment s' = commitment s ∧ new_writes s' = new_writes s ∧ is_Some (index_to_leaf_cache s' !! (n - 1))
  ∧ (index_to_leaf_cache s' = index_to_leaf_cache s
     ∨ index_to_leaf_cache s !! (n - 1) = None ∧ ∃ p, lp_index p = n - 1 ∧ proof_typed N p
       ∧ index_to_leaf_cache s' = <[n - 1:=(p, None)]> (index_to_leaf_cache s))).
Proof.
  intros Hn. unfold open_rightmost, cached_leaf. rewrite wrap_small by (unfold in_width; lia). ystep. ystep.
  destruct (_ !! (n - 1)) as [x|] eqn:Hx.
  - ystep. split_conj; try done. by left.
  - ystep. eapply yields_mono; [apply (yields_proof N)|]. intros p s1 (Hp & Ht & E1 & E2 & E3 & E4 & E5).
    apply yields_insert_leaf. cbn. rewrite E2, lookup_insert_eq. split_conj; try done. right. split; [done|]. by exists p.
Qed.

(** What joins the reads and writes with the paths: the caches [C], [W] from the cache
    [C1] and the new leaves [W1]. *)
Record prepared (n : Z) (K : gmap Z Z) (C1 : LeafCache) (W1 : list (Z * FlatStorageLeaf)) (s : Batch) : Prop := {
  pr_extends : extends C1 (index_to_leaf_cache s);
  pr_old i : is_Some (index_to_leaf_cache s !! i) → is_Some (C1 !! i) ∨ i < n;
  pr_opened : opened N n (index_to_leaf_cache s) (new_writes s);
  pr_links : (∀ i, is_Some (C1 !! i) → i < n) → ∃ c', links n K C1 W1 c'
    ∧ ∀ T, (∀ i lp m, index_to_leaf_cache s !! i = Some (lp, m) → lp_leaf lp = T i) →
        ∀ i, updated_tree T n (index_to_leaf_cache s) (new_writes s) i = default (T i) (c' i)
}.

Lemma updated_content T n C W i : (∀ i lp m, C !! i = Some (lp, m) → lp_leaf lp = T i) →
  updated_tree T n C W i = default (T i) (content n C W i).
Proof.
  intros Ha. unfold updated_tree, content. destruct (C !! i) as [[lp m]|] eqn:Hi; [by rewrite (Ha _ _ _ Hi)|].
  destruct (n <=? i); [|done]. by destruct (W !! _).
Qed.

Lemma kept_extends s s' : kept s s' → extends (index_to_leaf_cache s) (index_to_leaf_cache s').
Proof.
  intros Hk i lp m Hi. pose proof (kept_cache _ _ Hk i) as E. rewrite Hi in E. cbn in E.
  apply fmap_Some in E as ([lp' m'] & Hi' & [= <-]). by exists m'.
Qed.

Lemma extends_opened s s' i lp m : kept s s' → index_to_leaf_cache s' !! i = Some (lp, m) → ∃ m', index_to_leaf_cache s !! i = Some (lp, m').
Proof.
  intros Hk Hi. pose proof (kept_cache _ _ Hk i) as E. rewrite Hi in E. cbn in E.
  symmetry in E. apply fmap_Some in E as ([lp' m'] & Hi' & [= <-]). by exists m'.
Qed.

Lemma kept_length s s' : kept s s' → length (new_writes s') = length (new_writes s).
Proof.
  intros Hk. rewrite <- (length_fmap fst (new_writes s')), <- (length_fmap fst (new_writes s)). f_equal.
  apply list_eq. intros j. rewrite !list_lookup_fmap. apply (kept_new _ _ Hk).
Qed.

(** The rightmost leaf changes nothing in the tree. *)
Lemma prepared_rightmost n K C1 W1 s s1 : 2 ≤ n →
  extends C1 (index_to_leaf_cache s1) → (∀ i, is_Some (index_to_leaf_cache s1 !! i) → is_Some (C1 !! i)) →
  (∀ i lp m, index_to_leaf_cache s1 !! i = Some (lp, m) →
    0 ≤ i < 2 ^ Z.of_nat N ∧ leaf_wf (lp_leaf lp) ∧ Forall is_u256 (lp_path lp)) → numbered n (new_writes s1) →
  ((∀ i, is_Some (C1 !! i) → i < n) → links n K C1 W1 (content n (index_to_leaf_cache s1) (new_writes s1))) →
  new_writes s = new_writes s1 → (new_writes s = [] ∨ is_Some (index_to_leaf_cache s !! (n - 1))) →
  (index_to_leaf_cache s = index_to_leaf_cache s1 ∨ index_to_leaf_cache s1 !! (n - 1) = None
     ∧ ∃ p, lp_index p = n - 1 ∧ proof_typed N p ∧ index_to_leaf_cache s = <[n - 1:=(p, None)]> (index_to_leaf_cache s1)) →
  prepared n K C1 W1 s.
Proof.
  intros Hn Hext Hdom Hca HW Hl EW Hlast Hor. split.
  - destruct Hor as [->|(Hno & p & _ & _ & ->)]; [done|]. etrans; [exact Hext|]. apply (extends_insert _ _ _ None). by left.
  - intros i. destruct Hor as [->|(Hno & p & _ & _ & ->)]; [by left; apply Hdom|].
    destruct (decide (n - 1 = i)) as [<-|]; [right; lia|]. rewrite lookup_insert_ne by done. by left; apply Hdom.
  - split; [|intros j x; rewrite EW; apply HW|done]. destruct Hor as [->|(Hno & p & Hp & Ht & ->)]; [done|].
    intros i lp m [[<- [= <- <-]]|[_ Hi]]%lookup_insert_Some; [|eauto]. destruct Ht as (Hr & ? & ?). rewrite <- Hp. done.
  - intros Hold. exists (content n (index_to_leaf_cache s1) (new_writes s1)). split; [auto|]. intros T Ha i. rewrite EW.
    destruct Hor as [E|(Hno & p & Hp & Ht & E)]; rewrite E in Ha |- *; [by apply updated_content|].
    assert (∀ i lp m, index_to_leaf_cache s1 !! i = Some (lp, m) → lp_leaf lp = T i) as Ha1.
    { intros j lp m Hj. apply (Ha j lp m). rewrite lookup_insert_ne; [done|]. congruence. }
    rewrite <- updated_content by done. unfold updated_tree. destruct (decide (n - 1 = i)) as [<-|]; [|by rewrite lookup_insert_ne].
    rewrite lookup_insert_eq, Hno. cbn. by rewrite (proj2 (Z.leb_gt _ _)) by lia.
Qed.

Lemma link_stage n self D s (fresh : bool) : collecting N n self D s → 2 ≤ n < 2 ^ 64 → fresh = bool_decide (new_writes s ≠ []) →
  (yields (link_keys n ;; when fresh (open_rightmost n)) s (λ _ s', commitment s' = commitment s
     ∧ length (new_writes s') = length (new_writes s)
     ∧ prepared n (key_to_index_cache s) (index_to_leaf_cache s) (new_writes s) s')).
Proof.
  intros Hco Hn ->. ystep. eapply yields_mono; [apply link_keys_ok|]. intros [] s1 (Hk & Hch & Hlast).
  assert (length (new_writes s1) = length (new_writes s)) as Elen by (by apply kept_length).
  assert (∀ s2, commitment s2 = commitment s1 → new_writes s2 = new_writes s1 → (new_writes s2 = [] ∨ is_Some (index_to_leaf_cache s2 !! (n - 1))) →
    (index_to_leaf_cache s2 = index_to_leaf_cache s1 ∨ index_to_leaf_cache s1 !! (n - 1) = None
     ∧ ∃ p, lp_index p = n - 1 ∧ proof_typed N p ∧ index_to_leaf_cache s2 = <[n - 1:=(p, None)]> (index_to_leaf_cache s1)) →
    commitment s2 = commitment s ∧ length (new_writes s2) = length (new_writes s)
     ∧ prepared n (key_to_index_cache s) (index_to_leaf_cache s) (new_writes s) s2) as Hdone.
  { intros s2 Ec EW Hl Hor. split_conj; [by rewrite Ec, (kept_commitment _ _ Hk)|by rewrite EW|].
    destruct Hco as [co Hrest]. apply (prepared_rightmost _ _ _ _ s2 s1); try done; [lia|by apply kept_extends| | | |].
    - intros i. apply (kept_opened _ _ i Hk).
    - intros i lp m Hi. destruct (extends_opened _ _ _ _ _ Hk Hi) as [m' Hi']. by eapply (co_cache _ _ _ _ _ _ co).
    - eapply kept_numbered; [done|]. intros j x Hx. by apply (co_new _ _ _ _ _ _ co).
    - intros Hold. eapply chained_links; [by split|done| |done]. apply Hch. by eapply collected_linkable. }
  apply yields_when.
  - intros _. eapply yields_mono; [by apply open_rightmost_ok|]. intros [] s2 (Ec & EW & Hsome & Hor). apply Hdone; eauto.
  - intros E%bool_decide_eq_false. apply Hdone; [done|done| |by left]. left. apply length_zero_iff_nil. rewrite Elen.
    destruct (new_writes s); [done|]. by destruct E.
Qed.

(** *** The whole batch *)

Lemma settle_root_ok k r w s : yields (settle_root k r w) s (λ _ s', hashed s' = hashed s ∧ r = Some (root (commitment s))
  ∧ commitment s' = mkCommitment (default (root (commitment s)) w) (next_free_slot (commitment s))).
Proof.
  unfold settle_root. ystep. ystep. ystep. apply yields_expect. intros r' ->. ystep. apply yields_assert. intros ->%Z.eqb_eq.
  destruct w as [w|].
  - ystep. ystep. ystep. eapply (yields_mono _ _ (λ _ s', s' = s)); [apply yields_when; [intros _; by ystep|done]|].
    intros [] ? ->. by ystep.
  - ystep. split_conj; try done. by destruct (commitment s).
Qed.

(** The caches before the paths are joined. *)
Definition batch_ready n self source (s : Batch) : Prop := ∃ s1,
  collecting N n self (write_values ∅ source) s1 ∧ length (new_writes s1) = new_of source
  ∧ Forall (checked (index_to_leaf_cache s1)) source ∧ commitment s = commitment s1
  ∧ prepared n (key_to_index_cache s1) (index_to_leaf_cache s1) (new_writes s1) s.

Lemma batch_prepared n self source s (k : M Batch InternalError unit) P :
  collecting N n self ∅ s → new_writes s = [] → 2 ≤ n → n + Z.of_nat (length source) < 2 ^ 64 →
  Forall (λ x, flat_key x.1 ≠ 0 ∧ is_u256 (current_value x.2)) source →
  (∀ s', batch_ready n self source s' → yields k s' P) →
  yields (for_each (filter (λ x, is_read x = true) source) (check_read n) ;;
          for_each (filter (λ x, is_read x = false) source) (apply_write n) ;;
          nonexisting ← gets num_nonexisting_reads;
          when (negb (nonexisting + Z.of_nat (new_of source) =? 0))
            (link_keys n ;; when (negb (bool_decide (new_of source = O))) (open_rightmost n)) ;; k) s P.
Proof.
  intros Hco HW Hn Hb Hsrc Hk. rewrite Forall_forall in Hsrc. ystep.
  eapply yields_mono; [apply (checked_reads N n self); [done|done|]|].
  { intros x [Hr Hx]%list_elem_of_filter. split; [by apply Hsrc|done]. }
  intros [] s1 (Hco1 & HW1 & Hc1). ystep. eapply yields_mono; [eapply (applied_writes N n self); [done|done|lia| |exact Hc1|]|].
  { pose proof (length_filter (λ x, is_read x = false) source). lia. }
  { intros x [Hr Hx]%list_elem_of_filter. destruct (Hsrc _ Hx). done. }
  intros [] s2 (Hco2 & HW2 & Hc2). rewrite write_values_filter in Hco2. rewrite new_of_filter in HW2.
  assert (Forall (checked (index_to_leaf_cache s2)) source) as Hall.
  { rewrite Forall_forall in Hc2 |- *. intros x Hx. apply Hc2, elem_of_app.
    destruct (is_read x) eqn:E; [left|right]; apply list_elem_of_filter; done. }
  ystep. ystep. ystep. eapply (yields_mono _ _ (λ _, batch_ready n self source)); [|intros []; apply Hk]. apply yields_when.
  - intros _. assert (n < 2 ^ 64) by lia. eapply yields_mono; [apply (link_stage n self (write_values ∅ source) s2); [done|done|]|].
    { rewrite <- HW2. by destruct (new_writes s2). }
    intros [] s3 (Ec & El & Hp). by exists s2.
  - intros E%negb_false_iff%Z.eqb_eq. pose proof Hco2 as (co & _ & Hz).
    assert (new_writes s2 = []) as EW by (apply length_zero_iff_nil; lia).
    exists s2. split_conj; try done. rewrite EW. apply (prepared_rightmost _ _ _ _ s2 s2); try done; eauto.
    + apply (co_cache _ _ _ _ _ _ co).
    + intros j x. by rewrite EW.
    + intros _. rewrite EW. apply unlinked_links.
Qed.

(** What the two roots say of the reads and of the state after the writes. *)
Lemma prepared_sound n self D source T kv s1 s2 log r w CF : flat_state T n kv → collecting N n self D s1 →
  n + Z.of_nat (length (new_writes s1)) < 2 ^ 64 → Forall (checked (index_to_leaf_cache s1)) source →
  prepared n (key_to_index_cache s1) (index_to_leaf_cache s1) (new_writes s1) s2 →
  roots_sound N n (index_to_leaf_cache s2) (new_writes s2) log r w → collision_free CF → (∀ x, tree_input N T x → CF x) →
  (∀ x, x ∈ log → CF x) → r = Some (tree_hash T N 0) →
  Forall (agrees kv) source
  ∧ ∃ T', default (tree_hash T N 0) w = tree_hash T' N 0 ∧ flat_state T' (n + Z.of_nat (length (new_writes s1))) (D ∪ kv).
Proof.
  intros flat [co _] Hb Hc [Hext Hold Hop Hl] Hs Hcf Htree Hlog Hr.
  destruct (Hs T CF) as [Hauth2 Hw]; [split; [done|done|apply (fs_wf _ _ _ flat)|apply (fs_empty _ _ _ flat)]|done|done|done|].
  assert (∀ i lp m, index_to_leaf_cache s1 !! i = Some (lp, m) → lp_leaf lp = T i) as Hauth.
  { intros i lp m Hi. destruct (Hext _ _ _ Hi) as [m' Hi']. by eapply Hauth2. }
  assert (∀ i, is_Some (index_to_leaf_cache s1 !! i) → i < n) as Hlt.
  { intros i [[lp m] Hi]. destruct (co_low _ _ _ _ _ _ co _ _ _ Hi) as [|Hk]; [done|].
    destruct (decide (i < n)); [done|]. destruct Hk. rewrite (Hauth _ _ _ Hi), (fs_empty _ _ _ flat) by lia. done. }
  destruct (Hl Hlt) as (c' & [Hl1 Hl2] & Hupd). split.
  - eapply Forall_impl; [exact Hc|]. intros x. apply (checked_agrees T n); [done|]. intros i lp m Hi. split; [by eapply Hauth|].
    split; [|apply Hlt; by eexists]. by apply (co_cache _ _ _ _ _ _ co) in Hi as [[? _] _].
  - exists (after T c'). split; [|by eapply flat_after]. rewrite Hw.
    + apply tree_hash_ext. intros i _. by apply Hupd.
    + intros i Hi. destruct (Hold _ Hi) as [Hi'|]; [by apply Hlt|done].
Qed.

Definition batch_sound (self : FlatStorageCommitment) source (T : Tree) (kv : gmap Z Z) (s' : Batch) : Prop :=
  collision_free (λ x, x ∈ hashed s' ∨ tree_input N T x) →
  Forall (agrees kv) source
  ∧ next_free_slot (commitment s') = next_free_slot self + Z.of_nat (new_of source)
  ∧ ∃ T', root (commitment s') = tree_hash T' N 0
      ∧ flat_state T' (next_free_slot (commitment s')) (write_values kv source).

Lemma batch_sound_run o self source T kv : root self = tree_hash T N 0 → flat_state T (next_free_slot self) kv →
  Forall (λ x, flat_key x.1 ≠ 0 ∧ is_u256 (current_value x.2)) source →
  next_free_slot self + Z.of_nat (length source) < 2 ^ 64 →
  yields (verify_and_apply_batch N source) (start_batch o self) (λ _ s', batch_sound self source T kv s').
Proof.
  intros Hroot flat Hsrc Hb. unfold verify_and_apply_batch. case_bool_decide as Hnil.
  { subst source. ystep. intros _. split_conj; [constructor|cbn; lia|]. by exists T. }
  ystep. ystep. cbn [next_free_slot commitment start_batch]. pose proof (fs_slots _ _ _ flat) as H2n.
  apply (batch_prepared _ self); [|done|done|done|done|].
  { split; [apply collected_start|]. split; [|done]. cbn. rewrite Z.add_0_r. by destruct self. }
  intros s2 (s1 & Hco & Hlen & Hc & Ec & Hp). ystep. eapply yields_mono; [apply join_paths_sound|].
  intros [r w] s3 (log & -> & _ & Hroots). eapply yields_mono; [apply settle_root_ok|]. cbn. intros [] s4 (Eh & -> & Ec4) Hcf.
  pose proof Hco as (_ & Ec1 & _). rewrite Ec, Ec1 in *. cbn in *.
  edestruct (prepared_sound (next_free_slot self) self (write_values ∅ source) source T kv s1 s2 log) as [Hag (T' & Ht & Hflat)]; try done.
  - pose proof (length_filter (λ x, is_new_write x = true) source). lia.
  - intros x Hx. by right.
  - intros x Hx. rewrite Eh. by left.
  - by rewrite Hroot.
  - rewrite Ec4. cbn. split_conj; [done|by rewrite Hlen|]. exists T'. rewrite Hroot. split; [done|].
    by rewrite write_values_union, (left_id_L ∅ (∪)) in Hflat.
Qed.

(** C4: If the batch is accepted, whatever the oracle has answered, then every read and
    write agrees with the map the root commits to (an existing slot has the value the
    batch says it had, a new slot is not in the map), and the new root commits to the map
    with the values written.  The derived keys are not 0, the values are 256-bit numbers
    and the tree has room for the slots of the batch.  The hashes are only assumed not to
    collide among the inputs hashed in this run and those of the committed tree. *)
Theorem verify_and_apply_batch_sound (o : OState) (self : FlatStorageCommitment)
    (source : list (WarmStorageKey * WarmStorageValue)) (T : Tree) (kv : gmap Z Z) (s' : Batch) :
  root self = tree_hash T N 0 → flat_state T (next_free_slot self) kv →
  Forall (λ x, flat_key x.1 ≠ 0 ∧ is_u256 (current_value x.2)) source →
  next_free_slot self + Z.of_nat (length source) < 2 ^ 64 →
  verify_and_apply_batch N source (start_batch o self) = (Val tt, s') →
  collision_free (λ x, x ∈ hashed s' ∨ tree_input N T x) →
  Forall (agrees kv) source
  ∧ next_free_slot (commitment s') = next_free_slot self + Z.of_nat (new_of source)
  ∧ ∃ T', root (commitment s') = tree_hash T' N 0
      ∧ flat_state T' (next_free_slot (commitment s')) (write_values kv source).
Proof. intros Hroot flat Hsrc Hb Hrun Hcf. by apply (batch_sound_run o self source T kv Hroot flat Hsrc Hb tt s' Hrun). Qed.
End Sound.
