(* ===== verification/HistoryElement.v ===== *)
(** * Histories of single elements and the pool of their records

    Models [zk_ee/src/common_structs/history_map/element_pool.rs] and
    [element_with_history.rs].  The Rust code links heap records with raw
    pointers ([NonNull]) and recycles them through a pool, so the model keeps
    the store: a finite map from locations to records, shared by every history
    and by the pool's free list.  The lemmas show that each operation, run on
    a well-formed chain, changes the abstract history (the list of its
    [(snapshot, value)] pairs, newest first) as intended, keeps every other
    chain intact and never faults, so no record is handed out while it is
    still linked. *)

From stdpp Require Import gmap.
From S2P Require Import Prelude.

Definition loc : Type := positive.

Record HistoryRecord (V : Type) : Type := mkRecord {
  touch_ss_id : nat;
  value : V;
  previous : option loc
}.
Arguments mkRecord {V}.
Arguments touch_ss_id {V}.
Arguments value {V}.
Arguments previous {V}.

(** The store together with the pool's [head] and [last]. *)
Record Pool (V : Type) : Type := mkPool {
  store : gmap loc (HistoryRecord V);
  pool_head : option loc;
  pool_last : option loc
}.
Arguments mkPool {V}.
Arguments store {V}.
Arguments pool_head {V}.
Arguments pool_last {V}.

Record ElementWithHistory : Type := mkElement {
  initial : loc;
  first : loc;
  head : loc;
  committed : loc
}.

Section Element.
Context {V E : Type}.
Implicit Types (p : Pool V) (l : loc).

(** Pointer accesses: following a dangling pointer is a fault. *)
Definition deref l : M (Pool V) E (HistoryRecord V) := λ p,
  match store p !! l with
  | Some r => (Val r, p)
  | None => (Fault, p)
  end.

Definition write l (f : HistoryRecord V → HistoryRecord V) : M (Pool V) E unit := λ p,
  match store p !! l with
  | Some r => (Val tt, mkPool (<[l := f r]> (store p)) (pool_head p) (pool_last p))
  | None => (Fault, p)
  end.

Definition set_previous (o : option loc) (r : HistoryRecord V) : HistoryRecord V :=
  mkRecord (touch_ss_id r) (value r) o.
Definition set_value (v : V) (r : HistoryRecord V) : HistoryRecord V :=
  mkRecord (touch_ss_id r) v (previous r).

Definition set_pool_head (o : option loc) : M (Pool V) E unit :=
  modify (λ p, mkPool (store p) o (pool_last p)).
Definition set_pool_last (o : option loc) : M (Pool V) E unit :=
  modify (λ p, mkPool (store p) (pool_head p) o).

(** [Box::new_in]: a location that is not allocated. *)
Definition alloc (r : HistoryRecord V) : M (Pool V) E loc := λ p,
  let l := fresh (dom (store p)) in
  (Val l, mkPool (<[l := r]> (store p)) (pool_head p) (pool_last p)).

Definition create_element (v : V) (prev : option loc) (snapshot_id : nat) :
    M (Pool V) E loc :=
  h ← gets pool_head;
  match h with
  | None => alloc (mkRecord snapshot_id v prev)
  | Some elem =>
      r ← deref elem;
      write elem (set_previous None) ;;
      set_pool_head (previous r) ;;
      when (bool_decide (previous r = None)) (set_pool_last None) ;;
      write elem (λ _, mkRecord snapshot_id v prev) ;;
      mret elem
  end.

Definition reuse_memory (chain_head chain_tail : loc) : M (Pool V) E unit :=
  la ← gets pool_last;
  match la with
  | None => set_pool_head (Some chain_head)
  | Some last => write last (set_previous (Some chain_head))
  end ;;
  write chain_tail (set_previous None) ;;
  set_pool_last (Some chain_tail).

Definition Element_new (v : V) : M (Pool V) E ElementWithHistory :=
  elem ← create_element v None 0;
  mret (mkElement elem elem elem elem).

Definition add_new_record (new_element : loc) (self : ElementWithHistory) :
    ElementWithHistory :=
  mkElement (initial self)
    (if bool_decide (initial self = first self) then new_element else first self)
    new_element (committed self).

(** The loop of [rollback]: walk back from [removed] until the record below it
    is at or before the snapshot.  The fuel is the number of allocated records,
    which bounds the length of any acyclic chain. *)
Fixpoint find_first_removed (fuel : nat) (snapshot_id : nat) (removed : loc) :
    M (Pool V) E loc :=
  match fuel with
  | O => fault
  | S fuel =>
      r ← deref removed;
      n_lnk ← expect (previous r);
      n ← deref n_lnk;
      if bool_decide (touch_ss_id n ≤ snapshot_id)%nat then mret removed
      else find_first_removed fuel snapshot_id n_lnk
  end.

Definition Element_rollback (snapshot_id : nat) (self : ElementWithHistory) :
    M (Pool V) E ElementWithHistory :=
  h ← deref (head self);
  if bool_decide (touch_ss_id h ≤ snapshot_id)%nat then mret self
  else
    fuel ← gets (λ p, size (store p));
    first_removed_record ← find_first_removed fuel snapshot_id (head self);
    let last_removed_record := head self in
    r ← deref first_removed_record;
    write first_removed_record (set_previous None) ;;
    new_head ← expect (previous r);
    let self' := mkElement (initial self)
      (if bool_decide (first_removed_record = first self) then new_head else first self)
      new_head (committed self) in
    reuse_memory last_removed_record first_removed_record ;;
    mret self'.

Definition get_initial_and_last_values (self : ElementWithHistory) :
    M (Pool V) E (option (V * V)) :=
  entry ← deref (head self);
  match previous entry with
  | None => mret None
  | Some _ => i ← deref (initial self); mret (Some (value i, value entry))
  end.

Definition Element_commit (self : ElementWithHistory) : M (Pool V) E ElementWithHistory :=
  let self := mkElement (initial self) (first self) (head self) (head self) in
  if bool_decide (head self = initial self) then mret self
  else if bool_decide (head self = first self) then mret self
  else
    let first_removed_record := first self in
    let self := mkElement (initial self) (head self) (head self) (committed self) in
    h ← deref (head self);
    write (head self) (set_previous (Some (initial self))) ;;
    last_removed_record ← expect (previous h);
    reuse_memory last_removed_record first_removed_record ;;
    mret self.
End Element.

(** ** Representation: linked segments *)

Section Rep.
Context {V E : Type}.
Implicit Types (st : gmap loc (HistoryRecord V)) (p : Pool V).

(** A linked piece of history: locations with their snapshot and value. *)
Abbreviation hist := (list (loc * (nat * V))).

Fixpoint seg st (o : option loc) (hs : hist) (o' : option loc) : Prop :=
  match hs with
  | [] => o = o'
  | (l, (t, v)) :: hs' =>
      o = Some l ∧ ∃ nxt, st !! l = Some (mkRecord t v nxt) ∧ seg st nxt hs' o'
  end.

Definition locs (hs : hist) : list loc := hs.*1.

(** The pool's free list. *)
Definition pool_rep p (ps : hist) : Prop :=
  seg (store p) (pool_head p) ps None ∧ pool_last p = fst <$> last ps.

Lemma locs_app hs1 hs2 : locs (hs1 ++ hs2) = locs hs1 ++ locs hs2.
Proof. apply fmap_app. Qed.

Lemma seg_app st o hs1 hs2 o' :
  seg st o (hs1 ++ hs2) o' ↔ ∃ m, seg st o hs1 m ∧ seg st m hs2 o'.
Proof.
  revert o. induction hs1 as [|[l [t v]] hs1 IH]; intros o; simpl.
  - split; [by eauto|]. by intros (m & -> & ?).
  - setoid_rewrite IH. split.
    + intros (-> & nxt & Hl & m & H1 & H2). eauto 10.
    + intros (m & (-> & nxt & Hl & H1) & H2). eauto 10.
Qed.

Lemma seg_frame st st' o hs o' :
  (∀ l, l ∈ locs hs → st' !! l = st !! l) → seg st o hs o' → seg st' o hs o'.
Proof.
  revert o. induction hs as [|[l [t v]] hs IH]; intros o Hf; simpl; [done|].
  intros (-> & nxt & Hl & H). split; [done|]. exists nxt. split.
  - rewrite Hf; [done|]. by left.
  - apply IH; [|done]. intros l' Hl'. apply Hf. by right.
Qed.

Lemma seg_insert st o hs o' l r :
  l ∉ locs hs → seg st o hs o' → seg (<[l := r]> st) o hs o'.
Proof.
  intros Hl. apply seg_frame. intros l' Hl'. apply lookup_insert_ne. by intros ->.
Qed.

Lemma seg_dom st o hs o' l : seg st o hs o' → l ∈ locs hs → is_Some (st !! l).
Proof.
  revert o. induction hs as [|[l0 [t v]] hs IH]; intros o; simpl.
  - intros _ []%not_elem_of_nil.
  - intros (-> & nxt & Hl & H) [->|Hin]%elem_of_cons; eauto.
Qed.

Lemma seg_last st o hs l x o' :
  seg st o (hs ++ [(l, x)]) o' ↔
  seg st o hs (Some l) ∧ st !! l = Some (mkRecord x.1 x.2 o').
Proof.
  rewrite seg_app. simpl. destruct x as [t v]. split.
  - intros (m & H1 & -> & nxt & H2 & ->). done.
  - intros [H1 H2]. eauto 10.
Qed.

(** Relinking the last record of a segment. *)
Lemma seg_relink st o hs l x o1 o2 :
  l ∉ locs hs → seg st o (hs ++ [(l, x)]) o1 →
  seg (<[l := mkRecord x.1 x.2 o2]> st) o (hs ++ [(l, x)]) o2.
Proof.
  intros Hl. rewrite !seg_last. intros [H1 H2].
  split; [by apply seg_insert | apply lookup_insert_eq].
Qed.

Lemma NoDup_locs_last (hs : hist) l x :
  NoDup (locs (hs ++ [(l, x)])) → l ∉ locs hs.
Proof.
  rewrite locs_app, NoDup_app. simpl. intros (_ & H & _) Hin.
  apply (H _ Hin). by left.
Qed.

(** ** Pool operations *)

Lemma create_element_spec p ps v prev id :
  pool_rep p ps → NoDup (locs ps) →
  ∃ l p', create_element (E:=E) v prev id p = (Val l, p')
    ∧ store p' = <[l := mkRecord id v prev]> (store p)
    ∧ pool_rep p' (tail ps) ∧ (l ∉ locs (tail ps))
    ∧ (l ∈ locs ps ∨ l ∉ dom (store p)).
Proof.
  destruct p as [st ph pl]. intros [Hs Hl] Hnd. simpl in *.
  destruct ps as [|[l [t0 v0]] ps].
  - simpl in *. subst. unfold create_element, alloc, mbind, M_bind, gets; simpl.
    exists (fresh (dom st)), (mkPool (<[fresh (dom st) := mkRecord id v prev]> st) None None).
    split_and!; [done|done|done|apply not_elem_of_nil|]. right. apply is_fresh.
  - simpl in *. destruct Hs as (-> & nxt & Hst & Hs).
    apply NoDup_cons in Hnd as [Hni Hnd].
    unfold create_element, mbind, M_bind, gets; simpl.
    unfold deref; simpl. rewrite Hst; simpl.
    unfold write; simpl. rewrite Hst; simpl.
    set (pl' := if decide (nxt = None) then None else pl).
    exists l, (mkPool (<[l := mkRecord id v prev]> st) nxt pl').
    assert (pl' = fst <$> last ps) as Hpl'.
    { unfold pl'. destruct ps as [|[l1 [t1 v1]] ps]; simpl in Hs.
      - subst nxt. by destruct (decide (None = None)).
      - destruct Hs as (-> & _). destruct (decide _); [done|].
        rewrite Hl. by rewrite last_cons_cons. }
    split_and!; [|done| |done|by left; left].
    + unfold when, pl'. case_bool_decide as Hn; simpl; rewrite lookup_insert_eq; simpl;
        rewrite insert_insert_eq; destruct (decide _); done.
    + split; simpl; [by apply seg_insert | done].
Qed.

Lemma reuse_memory_spec p ps ch rs ct x o' :
  pool_rep p ps → seg (store p) (Some ch) (rs ++ [(ct, x)]) o' →
  NoDup (locs ps ++ locs (rs ++ [(ct, x)])) →
  ∃ p', reuse_memory (E:=E) ch ct p = (Val tt, p')
    ∧ pool_rep p' (ps ++ rs ++ [(ct, x)])
    ∧ (∀ l, l ∉ locs ps → l ∉ locs (rs ++ [(ct, x)]) → store p' !! l = store p !! l)
    ∧ dom (store p') = dom (store p).
Proof.
  destruct p as [st ph pl]. intros [Hs Hl] Hseg Hnd. simpl in *.
  pose proof Hnd as (Hnd1 & Hdis & Hnd2)%NoDup_app.
  pose proof (NoDup_locs_last _ _ _ Hnd2) as Hct.
  assert (Hctps : ct ∉ locs ps).
  { intros Hin. apply (Hdis ct Hin). rewrite locs_app, elem_of_app. right. by left. }
  assert (Hstct : st !! ct = Some (mkRecord x.1 x.2 o')).
  { by apply seg_last in Hseg as [_ ?]. }
  unfold reuse_memory, mbind, M_bind, gets, write, set_pool_head, set_pool_last, modify.
  simpl. destruct (last ps) as [[ll xl]|] eqn:Elast.
  - destruct (proj1 (last_Some _ _) Elast) as [ps0 ->].
    simpl in Hl. subst pl. pose proof (NoDup_locs_last _ _ _ Hnd1) as Hll.
    assert (ll ≠ ct) as Hne.
    { intros ->. apply Hctps. rewrite locs_app, elem_of_app. right. by left. }
    apply seg_last in Hs as Hs'. destruct Hs' as [Hs0 Hstl].
    simpl. rewrite Hstl; simpl. rewrite lookup_insert_ne by done. rewrite Hstct; simpl.
    eexists. split; [done|]. unfold set_previous; simpl.
    assert (ll ∉ locs (rs ++ [(ct, x)])) as Hllrs.
    { apply Hdis. rewrite locs_app, elem_of_app. right. by left. }
    split_and!.
    + split; simpl; [|by rewrite app_assoc, last_snoc].
      apply seg_app. exists (Some ch). split.
      * apply seg_insert; [done|]. by eapply seg_relink.
      * eapply seg_relink; [done|]. by apply seg_insert.
    + intros l H1 H2. rewrite !lookup_insert_ne; [done| |].
      * intros <-. apply H1. rewrite locs_app, elem_of_app. right. by left.
      * intros <-. apply H2. rewrite locs_app, elem_of_app. right. by left.
    + rewrite !dom_insert_lookup_L; [done|..]; try rewrite lookup_insert_ne by done; eauto.
  - apply last_None in Elast as ->. simpl in Hs, Hl. subst.
    simpl. rewrite Hstct; simpl. eexists. split; [done|]. unfold set_previous; simpl.
    split_and!.
    + split; simpl; [|by rewrite last_snoc]. by eapply seg_relink.
    + intros l _ H2. rewrite lookup_insert_ne; [done|].
      intros <-. apply H2. rewrite locs_app, elem_of_app. right. by left.
    + by rewrite dom_insert_lookup_L by eauto.
Qed.

(** ** Elements *)

(** The abstract history: what a rollback and a commit leave of it. *)
Fixpoint rollback_hist (id : nat) (h : list (nat * V)) : list (nat * V) :=
  match h with
  | [] => []
  | (t, v) :: h' => if decide (t ≤ id)%nat then h else rollback_hist id h'
  end.

Definition commit_hist (h : list (nat * V)) : list (nat * V) :=
  match h with
  | [] => []
  | x :: h' => match last h' with None => [x] | Some i => [x; i] end
  end.

(** [elem_rep st e hs c]: the records of [e] in [st] are [hs], newest first and
    ending with the initial one, whose snapshot is 0; [first] is the oldest
    record above it; [c] is the committed record. *)
Record elem_rep st (e : ElementWithHistory) (hs : hist) (c : nat * V) : Prop := {
  er_seg : seg st (Some (head e)) hs None;
  er_nodup : NoDup (locs hs);
  er_shape :
    (∃ v0, hs = [(initial e, (0%nat, v0))] ∧ first e = initial e)
    ∨ (∃ pre x v0, hs = pre ++ [(first e, x); (initial e, (0%nat, v0))]);
  er_committed : (committed e, c) ∈ hs
}.

Lemma elem_rep_frame st st' e hs c :
  (∀ l, l ∈ locs hs → st' !! l = st !! l) → elem_rep st e hs c → elem_rep st' e hs c.
Proof. intros Hf []. split; [|done..]. by eapply seg_frame. Qed.

Lemma elem_rep_initial st e hs c :
  elem_rep st e hs c → ∃ pre v0, hs = pre ++ [(initial e, (0%nat, v0))].
Proof.
  intros [_ _ [(v0 & -> & _)|(pre & x & v0 & ->)] _].
  - by exists [], v0.
  - exists (pre ++ [(first e, x)]), v0. by rewrite <- app_assoc.
Qed.

Lemma elem_rep_head st e hs c :
  elem_rep st e hs c → ∃ x tl, hs = (head e, x) :: tl.
Proof.
  intros H. destruct (elem_rep_initial _ _ _ _ H) as (pre & v0 & ->).
  destruct H as [Hseg _ _ _].
  destruct pre as [|[l [t v]] pre]; simpl in *; destruct Hseg as [[= ->] _]; eauto.
Qed.

Lemma seg_deref st o hs o' l t v :
  seg st o hs o' → (l, (t, v)) ∈ hs → ∃ nxt, st !! l = Some (mkRecord t v nxt).
Proof.
  revert o. induction hs as [|[l0 [t0 v0]] hs IH]; intros o; simpl.
  - intros _ []%not_elem_of_nil.
  - intros (-> & nxt & Hl & H) [[= -> -> ->]|Hin]%elem_of_cons; eauto.
Qed.

Lemma length_hist_size st o hs o' :
  seg st o hs o' → NoDup (locs hs) → (length hs ≤ size st)%nat.
Proof.
  intros Hs Hnd. rewrite <- size_dom, <- (length_fmap fst hs).
  change (hs.*1) with (locs hs).
  rewrite <- (size_list_to_set (C:=gset loc)) by done.
  apply subseteq_size. intros l Hl%elem_of_list_to_set.
  apply elem_of_dom. by eapply seg_dom.
Qed.

Lemma Element_new_spec p ps v :
  pool_rep p ps → NoDup (locs ps) →
  ∃ e p', Element_new (E:=E) v p = (Val e, p')
    ∧ elem_rep (store p') e [(head e, (0%nat, v))] (0%nat, v)
    ∧ store p' = <[head e := mkRecord 0 v None]> (store p)
    ∧ pool_rep p' (tail ps) ∧ (head e ∉ locs (tail ps))
    ∧ (head e ∈ locs ps ∨ head e ∉ dom (store p)).
Proof.
  intros Hp Hnd.
  destruct (create_element_spec p ps v None 0 Hp Hnd)
    as (l & p' & E1 & Hst & Hp' & Hni & Hl).
  exists (mkElement l l l l), p'. unfold Element_new. rewrite (bind_val _ _ _ _ _ E1).
  split_and!; [done| |done..]. simpl. split; simpl.
  - rewrite Hst. split; [done|]. exists None. by rewrite lookup_insert_eq.
  - apply NoDup_singleton.
  - left. eauto.
  - by left.
Qed.

Lemma default_last_cons (l1 l : loc) x1 (rm : hist) :
  default l1 (last (locs rm)) = default l (last (locs ((l1, x1) :: rm))).
Proof.
  unfold locs. rewrite fmap_cons, last_cons. by destruct (last (rm.*1)).
Qed.

Lemma find_first_removed_spec p id rm :
  ∀ fuel l x n y rest,
  seg (store p) (Some l) ((l, x) :: rm ++ (n, y) :: rest) None →
  Forall (λ h : loc * (nat * V), id < h.2.1)%nat rm → (y.1 ≤ id)%nat →
  (length rm < fuel)%nat →
  find_first_removed (E:=E) fuel id l p
  = (Val (default l (last (locs rm))), p).
Proof.
  induction rm as [|[l1 [t1 v1]] rm IH]; intros [|fuel] l [t v] n [tn vn] rest Hs Hrm Hy Hf;
    simpl in Hf; try lia; cbn [find_first_removed].
  - simpl in Hs. destruct Hs as (_ & nxt & Hl & -> & nxt' & Hn & _).
    unfold mbind, M_bind, deref; simpl. rewrite Hl; simpl. rewrite Hn; simpl.
    by rewrite bool_decide_eq_true_2.
  - inversion_clear Hrm as [|? ? Ht1 Hrm']. cbn [app seg] in Hs.
    destruct Hs as (_ & nxt & Hl & -> & nxt' & Hl1 & Hs).
    unfold mbind, M_bind, deref; simpl. rewrite Hl; simpl. rewrite Hl1; simpl.
    simpl in Ht1. rewrite bool_decide_eq_false_2 by lia.
    rewrite (IH fuel l1 (t1, v1) n (tn, vn) rest); [|by cbn; eauto|done|done|lia].
    by rewrite (default_last_cons l1 l (t1, v1)).
Qed.

(** A history splits at the snapshot a rollback goes back to. *)
Lemma rollback_split id (hs : hist) :
  ∃ rm keep, hs = rm ++ keep ∧ keep.*2 = rollback_hist id (hs.*2)
    ∧ Forall (λ h : loc * (nat * V), id < h.2.1)%nat rm
    ∧ (∀ x tl, keep = x :: tl → (x.2.1 ≤ id)%nat).
Proof.
  induction hs as [|[l [t v]] hs (rm & keep & -> & Hk & Hrm & Hx)].
  - exists [], []. split_and!; [done..|]. by intros.
  - destruct (decide (t ≤ id)%nat) as [Ht|Ht].
    + exists [], ((l, (t, v)) :: rm ++ keep). simpl. rewrite decide_True by done.
      split_and!; [done..|]. by intros ? ? [= <- _].
    + exists ((l, (t, v)) :: rm), keep. simpl. rewrite decide_False by done.
      split_and!; [done|done| |done]. constructor; [simpl; lia|done].
Qed.

(** What an operation on one element may change: the element's own records and
    the pool's, nothing else. *)
Record owned_step p (hs ps : hist) p' (hs' ps' : hist) : Prop := {
  os_pool : pool_rep p' ps';
  os_nodup : NoDup (locs hs' ++ locs ps');
  os_locs l : l ∈ locs hs' ++ locs ps' → l ∈ locs hs ++ locs ps ∨ l ∉ dom (store p);
  os_frame l : l ∈ dom (store p) → l ∉ locs hs ++ locs ps → store p' !! l = store p !! l;
  os_dom : dom (store p) ⊆ dom (store p')
}.

Lemma owned_step_refl p hs ps :
  pool_rep p ps → NoDup (locs hs ++ locs ps) → owned_step p hs ps p hs ps.
Proof. split; auto. Qed.

Lemma NoDup_three (a b c : list loc) :
  NoDup ((a ++ b) ++ c) → NoDup (b ++ c ++ a).
Proof.
  intros H. eapply NoDup_Permutation_proper; [|exact H].
  rewrite <- app_assoc. by rewrite (Permutation_app_comm a (b ++ c)), app_assoc.
Qed.

(** The pieces a rollback works on: the removed records, the oldest of which is
    [fr], and the kept ones, the newest of which is [n]. *)
Lemma rollback_decompose st e hs c id x tl :
  elem_rep st e hs c → hs = (head e, x) :: tl → (id < x.1)%nat →
  ∃ rm fr xf n y rest, hs = (rm ++ [(fr, xf)]) ++ (n, y) :: rest
    ∧ (y :: rest.*2) = rollback_hist id (hs.*2)
    ∧ Forall (λ h : loc * (nat * V), id < h.2.1)%nat (rm ++ [(fr, xf)]) ∧ (y.1 ≤ id)%nat.
Proof.
  intros He Hhd Hx. destruct (elem_rep_initial _ _ _ _ He) as (pre & v0 & Hini).
  destruct (rollback_split id hs) as (rm & keep & Heq & Hk & Hrm & Hkeep).
  destruct keep as [|[n y] rest].
  { exfalso. rewrite app_nil_r in Heq. rewrite <- Heq, Hini in Hrm.
    apply Forall_app in Hrm as [_ Hrm]. inversion Hrm; simpl in *; lia. }
  destruct rm as [|r rm] using rev_ind.
  { exfalso. rewrite Heq in Hhd. simpl in Hhd. injection Hhd as -> -> _.
    specialize (Hkeep _ _ eq_refl). simpl in Hkeep. lia. }
  destruct r as [fr xf]. exists rm, fr, xf, n, y, rest.
  split_and!; [done|done|done|]. by apply (Hkeep _ _ eq_refl).
Qed.

Lemma rollback_shape (e : ElementWithHistory) rm fr xf n y rest :
  let hs := (rm ++ [(fr, xf)]) ++ (n, y) :: rest in
  NoDup (locs hs) →
  (∃ v0, hs = [(initial e, (0%nat, v0))] ∧ first e = initial e)
    ∨ (∃ pre x v0, hs = pre ++ [(first e, x); (initial e, (0%nat, v0))]) →
  let e' := mkElement (initial e) (if bool_decide (fr = first e) then n else first e)
              n (committed e) in
  (∃ v0, (n, y) :: rest = [(initial e', (0%nat, v0))] ∧ first e' = initial e')
    ∨ (∃ pre x v0, (n, y) :: rest = pre ++ [(first e', x); (initial e', (0%nat, v0))]).
Proof.
  intros hs Hnd [(v0 & Hsh & _)|(pre & x & v0 & Hsh)] e'; unfold hs in *.
  { exfalso. apply (f_equal length) in Hsh. rewrite !length_app in Hsh. simpl in Hsh. lia. }
  replace (pre ++ [(first e, x); (initial e, (0%nat, v0))])
    with ((pre ++ [(first e, x)]) ++ [(initial e, (0%nat, v0))]) in Hsh
    by by rewrite <- app_assoc.
  destruct rest as [|z rest] using rev_ind.
  - apply app_inj_tail in Hsh as [Hsh [= -> ->]].
    apply app_inj_tail in Hsh as [-> [= -> ->]].
    left. exists v0. simpl. by rewrite bool_decide_eq_true_2.
  - clear IHrest. rewrite app_comm_cons, app_assoc in Hsh.
    apply app_inj_tail in Hsh as [Hsh ->].
    destruct (exists_last (l:=(n, y) :: rest)) as (q & w & Hq); [done|].
    rewrite Hq, app_assoc in Hsh. apply app_inj_tail in Hsh as [<- ->].
    right. exists q, x, v0. rewrite app_comm_cons, Hq, <- app_assoc. simpl.
    rewrite bool_decide_eq_false_2; [done|]. intros ->.
    rewrite app_comm_cons, Hq, !locs_app in Hnd. simpl in Hnd.
    apply NoDup_app in Hnd as (_ & Hd & _). apply (Hd (first e)).
    + rewrite elem_of_app. right. by left.
    + rewrite !elem_of_app. left. right. by left.
Qed.

Lemma rollback_loop p e rm fr xf n y rest id :
  let hs := (rm ++ [(fr, xf)]) ++ (n, y) :: rest in
  seg (store p) (Some (head e)) hs None → NoDup (locs hs) →
  Forall (λ h : loc * (nat * V), id < h.2.1)%nat (rm ++ [(fr, xf)]) → (y.1 ≤ id)%nat →
  find_first_removed (E:=E) (size (store p)) id (head e) p = (Val fr, p).
Proof.
  intros hs Hseg Hnd Hrm Hy.
  pose proof (length_hist_size _ _ _ _ Hseg Hnd) as Hlen.
  destruct rm as [|[h x] rm]; unfold hs in *; simpl in *.
  - destruct xf as [tf vf]. assert (head e = fr) as Hh by (by destruct Hseg as [[= ?] _]).
    rewrite Hh in *. rewrite (find_first_removed_spec p id [] _ fr (tf, vf) n y rest);
      [done|done|constructor|done|simpl; lia].
  - destruct x as [tx vx]. assert (head e = h) as Hh by (by destruct Hseg as [[= ?] _]).
    rewrite Hh in *. rewrite (find_first_removed_spec p id (rm ++ [(fr, xf)]) _ h (tx, vx) n y rest).
    + unfold locs. by rewrite fmap_app, fmap_cons, fmap_nil, last_snoc.
    + done.
    + by inversion Hrm.
    + done.
    + rewrite !length_app in *. simpl in *. lia.
Qed.

(** Rolling an element back drops exactly the records newer than the snapshot
    and hands them to the pool. *)
Lemma Element_rollback_spec p ps e hs c id :
  pool_rep p ps → elem_rep (store p) e hs c → NoDup (locs hs ++ locs ps) →
  (c.1 ≤ id)%nat →
  ∃ e' p' hs' ps', Element_rollback (E:=E) id e p = (Val e', p')
    ∧ elem_rep (store p') e' hs' c ∧ hs'.*2 = rollback_hist id (hs.*2)
    ∧ initial e' = initial e ∧ owned_step p hs ps p' hs' ps'.
Proof.
  intros Hp He Hnd Hc.
  destruct (elem_rep_head _ _ _ _ He) as ([th vh] & tl & Hhs).
  pose proof He as [Hseg Hnde Hshape Hcom].
  destruct (seg_deref _ _ _ _ (head e) th vh Hseg) as [nxt Hh]; [rewrite Hhs; by left|].
  unfold Element_rollback, deref, gets, mbind, M_bind. rewrite Hh.
  cbn [touch_ss_id]. case_bool_decide as Ht.
  { exists e, p, hs, ps. split_and!; [done|done| |done|by apply owned_step_refl].
    rewrite Hhs. simpl. by rewrite decide_True. }
  destruct (rollback_decompose _ _ _ _ id _ _ He Hhs) as
    (rm & fr & xf & n & y & rest & Heq & Hk & Hrm & Hy); [simpl; lia|].
  rewrite Heq in Hseg, Hnde, Hshape, Hcom.
  rewrite (rollback_loop p e rm fr xf n y rest id) by done.
  pose proof Hseg as (m & Hs1 & Hs2)%seg_app.
  assert (m = Some n) as -> by (destruct y; by destruct Hs2 as [-> _]).
  pose proof Hs1 as (_ & Hfr)%seg_last.
  unfold write. rewrite Hfr. cbn [previous expect]. unfold mret, M_ret. rewrite Hfr.
  set (p1 := mkPool (<[fr := set_previous None (mkRecord xf.1 xf.2 (Some n))]> (store p))
               (pool_head p) (pool_last p)).
  rewrite Heq, locs_app in Hnd. pose proof Hnd as (Hnd1 & Hd1 & Hnd2)%NoDup_app.
  pose proof Hnd1 as (Hndrm & Hd2 & Hndk)%NoDup_app.
  assert (Hfrin : fr ∈ locs (rm ++ [(fr, xf)]))
    by (rewrite locs_app, elem_of_app; right; by left).
  destruct (reuse_memory_spec p1 ps (head e) rm fr xf None)
    as (p' & Ereuse & Hp' & Hfr' & Hdom').
  { destruct Hp as [Hp1 Hp2]. split; [|done]. apply seg_insert; [|done].
    apply Hd1. rewrite elem_of_app. by left. }
  { eapply seg_relink; [|exact Hs1]. by apply NoDup_locs_last in Hndrm. }
  { apply NoDup_app. split_and!; [done| |done].
    intros l H1 H2. apply (Hd1 l); [|done]. rewrite elem_of_app. by left. }
  rewrite Ereuse.
  assert (Hst' : ∀ l, l ∉ locs ps → l ∉ locs (rm ++ [(fr, xf)]) →
                 store p' !! l = store p !! l).
  { intros l H1 H2. rewrite Hfr' by done. apply lookup_insert_ne. by intros <-. }
  do 2 eexists. exists ((n, y) :: rest), (ps ++ rm ++ [(fr, xf)]).
  split_and!; [done| |by rewrite Heq in *|done|].
  - split.
    + cbn [head]. eapply (seg_frame (store p)); [|exact Hs2].
      intros l Hl. apply Hst'; [apply Hd1; rewrite elem_of_app; by right|].
      intros Hl'. by apply (Hd2 l).
    + done.
    + by eapply rollback_shape.
    + apply elem_of_app in Hcom as [Hcom|Hcom]; [|done].
      exfalso. rewrite Forall_forall in Hrm. specialize (Hrm _ Hcom). simpl in Hrm. lia.
  - split.
    + done.
    + rewrite locs_app. by apply NoDup_three.
    + intros l. rewrite Heq, !locs_app, !elem_of_app. tauto.
    + intros l _ Hl. rewrite Heq, locs_app, !elem_of_app in Hl. apply Hst'; tauto.
    + rewrite Hdom'. unfold p1; cbn [store]. by rewrite dom_insert_lookup_L by eauto.
Qed.

(** The pieces a commit works on: it keeps the newest and the initial record. *)
Lemma commit_decompose st e hs c :
  elem_rep st e hs c →
  (∃ x, hs = [(initial e, x)] ∧ head e = initial e ∧ first e = initial e)
  ∨ (∃ x v0, hs = [(first e, x); (initial e, (0%nat, v0))]
      ∧ head e = first e ∧ head e ≠ initial e)
  ∨ (∃ x mid xf v0,
      hs = (head e, x) :: (mid ++ [(first e, xf)]) ++ [(initial e, (0%nat, v0))]
      ∧ head e ≠ first e ∧ head e ≠ initial e).
Proof.
  intros He. destruct (elem_rep_head _ _ _ _ He) as (x & tl & Hhd).
  destruct He as [_ Hnd [(v0 & -> & Hf)|(pre & xf & v0 & ->)] _].
  { left. injection Hhd as <- <- <-. eauto. }
  right. destruct pre as [|[h y] pre]; simpl in *.
  - left. injection Hhd as <- <- <-. exists xf, v0. split_and!; [done..|].
    apply NoDup_cons in Hnd as [Hni _]. intros Heq. apply Hni. rewrite Heq. by left.
  - right. injection Hhd as -> <- <-. exists y, pre, xf, v0. rewrite <- app_assoc.
    apply NoDup_cons in Hnd as [Hni _]. rewrite locs_app, elem_of_app in Hni.
    split_and!; [done|..]; intros Heq; apply Hni; right; rewrite Heq; simpl;
      [by left | by right; left].
Qed.

Lemma Element_commit_long p ps e x mid xf v0 :
  let rm := mid ++ [(first e, xf)] in
  let ini := (initial e, (0%nat, v0)) in
  let hs := (head e, x) :: rm ++ [ini] in
  let e' := mkElement (initial e) (head e) (head e) (head e) in
  pool_rep p ps → seg (store p) (Some (head e)) hs None →
  NoDup (head e :: (locs rm ++ [initial e]) ++ locs ps) →
  head e ≠ first e →
  ∃ p', Element_commit (E:=E) e p = (Val e', p')
    ∧ elem_rep (store p') e' [(head e, x); ini] x
    ∧ owned_step p hs ps p' [(head e, x); ini] (ps ++ rm).
Proof.
  intros rm ini hs e' Hp Hseg Hnd Hnf. destruct x as [tx vx].
  destruct Hseg as (_ & nxt & Hh & (m & Hs1 & Hs2)%seg_app).
  assert (m = Some (initial e)) as -> by by destruct Hs2 as [-> _].
  assert (∃ lr, nxt = Some lr) as [lr ->].
  { unfold rm in Hs1. destruct mid as [|[l1 [t1 v1]] mid]; simpl in Hs1;
      [destruct xf|]; destruct Hs1 as [-> _]; eauto. }
  pose proof Hnd as [Hndh (Hnd1 & Hd1 & Hndp)%NoDup_app]%NoDup_cons.
  pose proof Hnd1 as (Hndrm & Hd2 & _)%NoDup_app.
  rewrite !elem_of_app, elem_of_cons in Hndh.
  unfold Element_commit. cbn [head initial first committed].
  rewrite !bool_decide_eq_false_2 by tauto.
  unfold deref, write, mbind, M_bind. rewrite Hh. rewrite Hh. cbn [previous expect].
  unfold mret, M_ret.
  set (p1 := mkPool (<[head e := set_previous (Some (initial e)) (mkRecord tx vx (Some lr))]>
               (store p)) (pool_head p) (pool_last p)).
  destruct (reuse_memory_spec p1 ps lr mid (first e) xf (Some (initial e)))
    as (p' & Ereuse & Hp' & Hfr' & Hdom').
  { destruct Hp as [Hp1 Hp2]. split; [|done]. apply seg_insert; [|done]. tauto. }
  { apply seg_insert; [|done]. tauto. }
  { apply NoDup_app. split_and!; [done| |done].
    intros l H1 H2. apply (Hd1 l); [|done]. rewrite elem_of_app. by left. }
  rewrite Ereuse. fold rm in Hp', Hfr'.
  assert (Hst' : ∀ l, l ∉ locs ps → l ∉ locs rm → l ≠ head e →
                 store p' !! l = store p !! l).
  { intros l H1 H2 H3. rewrite Hfr' by done. by apply lookup_insert_ne. }
  assert (Hini : initial e ∉ locs rm) by (intros Hin; apply (Hd2 _ Hin); by left).
  assert (Hinip : initial e ∉ locs ps) by (apply Hd1; rewrite elem_of_app; right; by left).
  assert (Hne : initial e ≠ head e) by (intros Heq; rewrite Heq in Hndh; tauto).
  exists p'. split_and!; [done|split|split].
  - split; [done|]. exists (Some (initial e)). split.
    + rewrite Hfr' by tauto. apply lookup_insert_eq.
    + eapply seg_frame; [|exact Hs2]. intros l ->%list_elem_of_singleton. by apply Hst'.
  - cbn. apply NoDup_cons. split; [|apply NoDup_singleton].
    intros Heq%list_elem_of_singleton. by rewrite Heq in Hne.
  - right. by exists [], (tx, vx), v0.
  - by left.
  - done.
  - eapply NoDup_Permutation_proper; [|exact Hnd]. rewrite locs_app. cbn. f_equiv.
    by rewrite (Permutation_app_comm (locs rm)), <- app_assoc,
      (Permutation_app_comm (locs rm)).
  - intros l. rewrite locs_app. unfold hs. cbn. fold (locs (rm ++ [ini])).
    rewrite locs_app. cbn. rewrite !elem_of_cons, !elem_of_app, !elem_of_cons. tauto.
  - intros l _ Hl. unfold hs in Hl. cbn in Hl. fold (locs (rm ++ [ini])) in Hl.
    rewrite locs_app in Hl. cbn in Hl. rewrite !elem_of_cons, !elem_of_app in Hl.
    apply Hst'; tauto.
  - rewrite Hdom'. unfold p1; cbn [store]. by rewrite dom_insert_lookup_L by eauto.
Qed.

(** Committing an element keeps its newest and its initial record, marks the
    newest as committed and hands the records in between to the pool. *)
Lemma Element_commit_spec p ps e hs c x tl :
  pool_rep p ps → elem_rep (store p) e hs c → NoDup (locs hs ++ locs ps) →
  hs = (head e, x) :: tl →
  ∃ e' p' hs' ps', Element_commit (E:=E) e p = (Val e', p')
    ∧ elem_rep (store p') e' hs' x ∧ hs'.*2 = commit_hist (hs.*2)
    ∧ initial e' = initial e ∧ owned_step p hs ps p' hs' ps'.
Proof.
  intros Hp He Hnd Hhd. pose proof He as [Hseg Hnde Hshape _].
  destruct (commit_decompose _ _ _ _ He) as
    [(x' & Hhs & Hh & Hf)|[(x' & v0 & Hhs & Hh & Hni)|(x' & mid & xf & v0 & Hhs & Hnf & Hni)]].
  - unfold Element_commit. cbn [head initial first].
    rewrite bool_decide_eq_true_2 by done. do 2 eexists. exists hs, ps.
    split_and!; [done| |by rewrite Hhs|done|by apply owned_step_refl].
    split; cbn; [done..|]. rewrite Hhd. by left.
  - unfold Element_commit. cbn [head initial first].
    rewrite bool_decide_eq_false_2, bool_decide_eq_true_2 by done.
    do 2 eexists. exists hs, ps.
    split_and!; [done| |by rewrite Hhs|done|by apply owned_step_refl].
    split; cbn; [done..|]. rewrite Hhd. by left.
  - assert (x' = x) as -> by (rewrite Hhs in Hhd; congruence).
    rewrite Hhs in *. destruct (Element_commit_long p ps e x mid xf v0)
      as (p' & Ec & He' & Hos); [done|done| |done|].
    { cbn in Hnd. fold (locs ((mid ++ [(first e, xf)]) ++ [(initial e, (0%nat, v0))])) in Hnd.
      by rewrite locs_app in Hnd. }
    do 4 eexists. split_and!; [done|done| |done|done].
    cbn [fmap list_fmap commit_hist snd]. by rewrite fmap_last, last_snoc.
Qed.
End Rep.
