(* ===== verification/HistoryMap.v ===== *)
(** * The key-value map with snapshots

    Models [zk_ee/src/common_structs/history_map/mod.rs] (and the
    [StackLinkedList] of pending updates, [zk_ee/src/utils/stack_linked_list.rs]):
    every storage cache of the system reverts a failed call frame through this
    map.  A first layer shows that the pointer structure of [HistoryElement]
    implements an abstract map from keys to histories; a second one that those
    histories implement snapshots: rolling back to a snapshot restores, for
    every key, the value it had when the snapshot was taken. *)

From stdpp Require Import gmap sorting.
From S2P Require Import Prelude HistoryElement.

Inductive HistoryMapError (E : Type) : Type :=
| RollbackBelowFrozen
| RollbackToNonExistent
| CallbackError (e : E).
Arguments RollbackBelowFrozen {E}.
Arguments RollbackToNonExistent {E}.
Arguments CallbackError {E} e.

Record HistoryMap (K V : Type) `{Countable K} : Type := mkHistoryMap {
  btree : gmap K ElementWithHistory;
  next_snapshot_id : nat;
  frozen_snapshot_id : nat;
  pending_updated_elements : list (K * nat);
  records_memory_pool : Pool V
}.
Arguments mkHistoryMap {K V _ _}.
Arguments btree {K V _ _}.
Arguments next_snapshot_id {K V _ _}.
Arguments frozen_snapshot_id {K V _ _}.
Arguments pending_updated_elements {K V _ _}.
Arguments records_memory_pool {K V _ _}.

(** [CacheSnapshotId::increment], at the width of [usize]. *)
Definition increment {US : Usize} (id : nat) : nat :=
  Z.to_nat (wrap usize_bits (Z.of_nat id + 1)).
#[global] Arguments increment : simpl never.

Lemma increment_small {US : Usize} id :
  Z.of_nat id + 1 < 2 ^ usize_bits → increment id = S id.
Proof. intros Hid. unfold increment. rewrite wrap_small by (unfold in_width; lia). lia. Qed.

Section Map.
Context {US : Usize} {K V E : Type} `{Countable K}.
Abbreviation HM := (HistoryMap K V).
Abbreviation HMM := (M HM (HistoryMapError E)).
Implicit Types (k : K) (m : HM).

Definition set_btree (b : gmap K ElementWithHistory) m : HM :=
  mkHistoryMap b (next_snapshot_id m) (frozen_snapshot_id m)
    (pending_updated_elements m) (records_memory_pool m).
Definition set_pool (p : Pool V) m : HM :=
  mkHistoryMap (btree m) (next_snapshot_id m) (frozen_snapshot_id m)
    (pending_updated_elements m) p.
Definition set_pending (l : list (K * nat)) m : HM :=
  mkHistoryMap (btree m) (next_snapshot_id m) (frozen_snapshot_id m) l
    (records_memory_pool m).

Definition on_pool {A} (c : M (Pool V) (HistoryMapError E) A) : HMM A :=
  zoom records_memory_pool set_pool c.

Definition HistoryMap_new : HM :=
  mkHistoryMap ∅ 1 0 [] (mkPool ∅ None None).

Definition get k : HMM (option ElementWithHistory) := gets (λ m, btree m !! k).

Definition get_or_insert k (spawn_v : E + V) : HMM ElementWithHistory :=
  entry ← get k;
  match entry with
  | Some e => mret e
  | None =>
      match spawn_v with
      | inl err => throw (CallbackError err)
      | inr v =>
          e ← on_pool (Element_new v);
          modify (λ m, set_btree (<[k := e]> (btree m)) m) ;;
          mret e
      end
  end.

Definition snapshot : HMM nat :=
  snapshot_id ← gets next_snapshot_id;
  modify (λ m, mkHistoryMap (btree m) (increment (next_snapshot_id m)) (frozen_snapshot_id m)
                 (pending_updated_elements m) (records_memory_pool m)) ;;
  mret snapshot_id.

(** The loop over the pending updates, newest first: the list is the stack, its
    tail what is left after a [pop]. *)
Fixpoint rollback_loop (snapshot_id : nat) (pending : list (K * nat)) : HMM unit :=
  match pending with
  | [] => modify (set_pending [])
  | (k, update_snapshot_id) :: rest =>
      if bool_decide (update_snapshot_id ≤ snapshot_id)%nat
      then modify (set_pending ((k, update_snapshot_id) :: rest))
      else
        entry ← get k;
        e ← expect entry;
        e' ← on_pool (Element_rollback snapshot_id e);
        modify (λ m, set_btree (<[k := e']> (btree m)) m) ;;
        rollback_loop snapshot_id rest
  end.

Definition rollback (snapshot_id : nat) : HMM unit :=
  frozen ← gets frozen_snapshot_id;
  next ← gets next_snapshot_id;
  if bool_decide (snapshot_id < frozen)%nat then throw RollbackBelowFrozen
  else if bool_decide (next ≤ snapshot_id)%nat then throw RollbackToNonExistent
  else
    pending ← gets pending_updated_elements;
    rollback_loop snapshot_id pending.

Fixpoint commit_loop (pending : list (K * nat)) : HMM unit :=
  match pending with
  | [] => mret tt
  | (k, _) :: rest =>
      entry ← get k;
      e ← expect entry;
      e' ← on_pool (Element_commit e);
      modify (λ m, set_btree (<[k := e']> (btree m)) m) ;;
      commit_loop rest
  end.

Definition commit : HMM unit :=
  id ← snapshot;
  modify (λ m, mkHistoryMap (btree m) (next_snapshot_id m) id
                 (pending_updated_elements m) (records_memory_pool m)) ;;
  pending ← gets pending_updated_elements;
  commit_loop pending ;;
  modify (set_pending []).

(** [HistoryMapItemRefMut::update].  The callback mutates the value in place and
    may fail; in the current snapshot it works on the live record, otherwise on
    a fresh copy that is linked only when it succeeds. *)
Definition update k (f : V → option E * V) : HMM unit :=
  entry ← get k;
  history ← expect entry;
  next ← gets next_snapshot_id;
  last_record ← on_pool (deref (head history));
  let '(res, v') := f (value last_record) in
  if bool_decide (touch_ss_id last_record = next) then
    on_pool (write (head history) (set_value v')) ;;
    match res with Some e => throw (CallbackError e) | None => mret tt end
  else
    new ← on_pool (create_element (value last_record) (Some (head history)) next);
    on_pool (write new (set_value v')) ;;
    match res with
    | Some e => throw (CallbackError e)
    | None =>
        modify (λ m, set_btree (<[k := add_new_record new history]> (btree m)) m) ;;
        modify (λ m, set_pending ((k, next) :: pending_updated_elements m) m)
    end.

(** Item accessors. *)
Definition read_record (at_ : ElementWithHistory → loc) k : HMM (option V) :=
  entry ← get k;
  match entry with
  | None => mret None
  | Some e => r ← on_pool (deref (at_ e)); mret (Some (value r))
  end.
Definition current := read_record head.
Definition initial_value := read_record initial.
Definition committed_value := read_record committed.

Definition initial_and_last k : HMM (option (V * V)) :=
  entry ← get k;
  match entry with
  | None => mret None
  | Some e => on_pool (get_initial_and_last_values e)
  end.
End Map.

(** ** Operations as data *)

Inductive op (K V E : Type) : Type :=
| OGetOrInsert (k : K) (spawn_v : E + V)
| OUpdate (k : K) (f : V → option E * V)
| OSnapshot
| ORollback (id : nat)
| OCommit
| OCurrent (k : K)
| OInitial (k : K)
| OCommitted (k : K).
Arguments OGetOrInsert {K V E}.
Arguments OUpdate {K V E}.
Arguments OSnapshot {K V E}.
Arguments ORollback {K V E}.
Arguments OCommit {K V E}.
Arguments OCurrent {K V E}.
Arguments OInitial {K V E}.
Arguments OCommitted {K V E}.

Inductive opres (V : Type) : Type :=
| RUnit
| RId (id : nat)
| RVal (v : option V).
Arguments RUnit {V}.
Arguments RId {V}.
Arguments RVal {V}.

Section Run.
Context {US : Usize} {K V E : Type} `{Countable K}.
Abbreviation HM := (HistoryMap K V).
Abbreviation HMM := (M HM (HistoryMapError E)).

(** A mutable item is only ever obtained through [get_mut], which gives nothing
    for an absent key, so an update of an absent key does nothing. *)
Definition run_op (o : op K V E) : HMM (opres V) :=
  match o with
  | OGetOrInsert k s => get_or_insert k s ;; mret RUnit
  | OUpdate k f =>
      entry ← get k;
      match entry with None => mret RUnit | Some _ => update k f ;; mret RUnit end
  | OSnapshot => id ← snapshot; mret (RId id)
  | ORollback id => rollback id ;; mret RUnit
  | OCommit => commit ;; mret RUnit
  | OCurrent k => v ← current k; mret (RVal v)
  | OInitial k => v ← initial_value k; mret (RVal v)
  | OCommitted k => v ← committed_value k; mret (RVal v)
  end.

Fixpoint run_ops (os : list (op K V E)) (m : HM)
    : list (outcome (HistoryMapError E) (opres V)) * HM :=
  match os with
  | [] => ([], m)
  | o :: os' =>
      let '(r, m') := run_op o m in
      let '(rs, m'') := run_ops os' m' in
      (r :: rs, m'')
  end.

(** ** The abstract map: each key has its list of (snapshot, value) pairs, newest
    first, and the pair that was last committed. *)
Record AMap : Type := mkAMap {
  ahist : gmap K (list (nat * V) * (nat * V));
  anext : nat;
  afrozen : nat;
  apending : list (K * nat)
}.

Definition a_new : AMap := mkAMap ∅ 1 0 [].

Definition a_rollback_key (id : nat) (x : list (nat * V) * (nat * V)) :=
  (rollback_hist id x.1, x.2).
Definition a_commit_key (x : list (nat * V) * (nat * V)) :=
  (commit_hist x.1, default x.2 (list.head x.1)).

Definition a_update (f : V → option E * V) (k : K) (h : list (nat * V)) (c : nat * V)
    (a : AMap) : outcome (HistoryMapError E) (opres V) * AMap :=
  match h with
  | [] => (Fault, a)
  | (t, v) :: tl =>
      let '(r, v') := f v in
      let res := match r with Some e => Err (CallbackError e) | None => Val RUnit end in
      if decide (t = anext a) then
        (res, mkAMap (<[k := ((t, v') :: tl, c)]> (ahist a)) (anext a) (afrozen a)
                (apending a))
      else match r with
           | Some _ => (res, a)
           | None => (res, mkAMap (<[k := ((anext a, v') :: h, c)]> (ahist a)) (anext a)
                             (afrozen a) ((k, anext a) :: apending a))
           end
  end.

Definition a_op (o : op K V E) (a : AMap) : outcome (HistoryMapError E) (opres V) * AMap :=
  match o with
  | OGetOrInsert k s =>
      match ahist a !! k, s with
      | Some _, _ => (Val RUnit, a)
      | None, inl e => (Err (CallbackError e), a)
      | None, inr v => (Val RUnit, mkAMap (<[k := ([(0%nat, v)], (0%nat, v))]> (ahist a))
                                     (anext a) (afrozen a) (apending a))
      end
  | OUpdate k f =>
      match ahist a !! k with
      | None => (Val RUnit, a)
      | Some (h, c) => a_update f k h c a
      end
  | OSnapshot =>
      (Val (RId (anext a)), mkAMap (ahist a) (S (anext a)) (afrozen a) (apending a))
  | ORollback id =>
      if decide (id < afrozen a)%nat then (Err RollbackBelowFrozen, a)
      else if decide (anext a ≤ id)%nat then (Err RollbackToNonExistent, a)
      else (Val RUnit, mkAMap (a_rollback_key id <$> ahist a) (anext a) (afrozen a)
                         (filter (λ e, e.2 ≤ id)%nat (apending a)))
  | OCommit =>
      (Val RUnit, mkAMap (a_commit_key <$> ahist a) (S (anext a)) (anext a) [])
  | OCurrent k => (Val (RVal ((ahist a !! k) ≫= λ x, snd <$> list.head x.1)), a)
  | OInitial k => (Val (RVal ((ahist a !! k) ≫= λ x, snd <$> last x.1)), a)
  | OCommitted k => (Val (RVal ((λ x, x.2.2) <$> ahist a !! k)), a)
  end.

Fixpoint a_ops (os : list (op K V E)) (a : AMap)
    : list (outcome (HistoryMapError E) (opres V)) * AMap :=
  match os with
  | [] => ([], a)
  | o :: os' =>
      let '(r, a') := a_op o a in
      let '(rs, a'') := a_ops os' a' in
      (r :: rs, a'')
  end.
End Run.
Arguments AMap K V {_ _}.

(** ** Invariants *)
Section Invariant.
Context {US : Usize} {K V E : Type} `{Countable K}.
Implicit Types (k : K) (h : list (nat * V)) (c : nat * V).

(** The snapshots of one key: strictly decreasing, the oldest record is the
    initial one of snapshot 0, nothing is newer than the next snapshot, and what
    lies at or below the frozen snapshot is the committed record and the initial
    one. *)
Record key_inv (next frozen : nat) h c : Prop := {
  ki_sorted : StronglySorted (λ x y : nat * V, (y.1 < x.1)%nat) h;
  ki_last : ∃ v0, last h = Some (0%nat, v0);
  ki_next : Forall (λ x : nat * V, (x.1 ≤ next)%nat) h;
  ki_committed : ∃ tl, rollback_hist frozen h = c :: tl ∧ commit_hist (c :: tl) = c :: tl
}.

Record a_inv (a : AMap K V) : Prop := {
  ai_next : (afrozen a < anext a)%nat;
  ai_key k h c : ahist a !! k = Some (h, c) → key_inv (anext a) (afrozen a) h c;
  ai_pending k h c t v : ahist a !! k = Some (h, c) → (t, v) ∈ h → (afrozen a < t)%nat →
    (k, t) ∈ apending a;
  ai_present k t : (k, t) ∈ apending a → is_Some (ahist a !! k) ∧ (t ≤ anext a)%nat;
  ai_sorted : StronglySorted (λ x y : K * nat, (y.2 ≤ x.2)%nat) (apending a)
}.

(** The heap: every key owns the records of its history, the pool owns its free
    list, and nothing is shared. *)
Record hm_inv (b : gmap K ElementWithHistory) (p : Pool V)
    (G : gmap K (list (loc * (nat * V)) * (nat * V))) (ps : list (loc * (nat * V))) : Prop := {
  hi_pool : pool_rep p ps;
  hi_pool_nodup : NoDup (locs ps);
  hi_none k : b !! k = None ↔ G !! k = None;
  hi_elem k e hs c : b !! k = Some e → G !! k = Some (hs, c) → elem_rep (store p) e hs c;
  hi_nodup k hs c : G !! k = Some (hs, c) → NoDup (locs hs ++ locs ps);
  hi_disjoint k1 k2 hs1 hs2 c1 c2 l : k1 ≠ k2 → G !! k1 = Some (hs1, c1) →
    G !! k2 = Some (hs2, c2) → l ∈ locs hs1 → (l ∉ locs hs2)
}.

Definition strip (x : list (loc * (nat * V)) * (nat * V)) : list (nat * V) * (nat * V) :=
  (x.1.*2, x.2).

Definition hm_rep (m : HistoryMap K V) (a : AMap K V) : Prop :=
  next_snapshot_id m = anext a ∧ frozen_snapshot_id m = afrozen a
  ∧ pending_updated_elements m = apending a
  ∧ ∃ G ps, hm_inv (btree m) (records_memory_pool m) G ps ∧ ahist a = strip <$> G.

(** *** Histories *)

Lemma rollback_hist_rollback i j h :
  (i ≤ j)%nat → rollback_hist i (rollback_hist j h) = rollback_hist i h.
Proof.
  intros Hij. induction h as [|[t v] h IH]; [done|]. cbn.
  destruct (decide (t ≤ j)%nat); [done|]. by destruct (decide (t ≤ i)%nat); [lia|].
Qed.

Lemma rollback_hist_head id h t v tl :
  h = (t, v) :: tl → (t ≤ id)%nat → rollback_hist id h = h.
Proof. intros -> Ht. cbn. by rewrite decide_True. Qed.

Lemma rollback_hist_suffix id h : ∃ pre, h = pre ++ rollback_hist id h.
Proof.
  induction h as [|[t v] h [pre IH]]; [by exists []|]. cbn.
  destruct (decide (t ≤ id)%nat); [by exists []|]. exists ((t, v) :: pre). cbn. by f_equal.
Qed.

Lemma rollback_hist_elem id h x : x ∈ rollback_hist id h → x ∈ h.
Proof.
  destruct (rollback_hist_suffix id h) as [pre Hp]. intros Hx. rewrite Hp. set_solver.
Qed.

Lemma rollback_hist_nonempty id h v0 :
  last h = Some (0%nat, v0) → last (rollback_hist id h) = Some (0%nat, v0).
Proof.
  induction h as [|[t v] h IH]; [done|]. cbn [rollback_hist].
  destruct (decide (t ≤ id)%nat) as [|Ht]; [done|].
  destruct h as [|y h]; cbn; [intros [= -> ->]; lia|]. exact IH.
Qed.

Lemma rollback_hist_sorted id h :
  StronglySorted (λ x y : nat * V, (y.1 < x.1)%nat) h →
  StronglySorted (λ x y : nat * V, (y.1 < x.1)%nat) (rollback_hist id h)
  ∧ Forall (λ x : nat * V, (x.1 ≤ id)%nat) (rollback_hist id h).
Proof.
  induction 1 as [|[t v] h Hs IH Hf]; [split; constructor|]. cbn.
  destruct (decide (t ≤ id)%nat); [|done]. split; [by constructor|].
  constructor; [done|]. eapply Forall_impl; [exact Hf|]. cbn. lia.
Qed.

Lemma commit_hist_idem h : commit_hist (commit_hist h) = commit_hist h.
Proof. destruct h as [|x [|y h]]; [done..|]. cbn. by destruct (last (y :: h)). Qed.

Lemma commit_hist_last h : last (commit_hist h) = last h.
Proof.
  destruct h as [|x h]; [done|]. cbn. destruct (last h) eqn:Hl; cbn.
  - destruct h; [done|]. by rewrite last_cons_cons.
  - apply last_None in Hl. by subst.
Qed.

Lemma commit_hist_elem h x : x ∈ commit_hist h → x ∈ h.
Proof.
  destruct h as [|y h]; [done|]. cbn. destruct (last h) eqn:Hl; [|set_solver].
  apply last_Some in Hl as [? ->]. set_solver.
Qed.

Lemma head_commit_hist h : list.head (commit_hist h) = list.head h.
Proof. destruct h as [|x h]; [done|]. cbn. by destruct (last h). Qed.

(** *** The abstract operations keep their invariant *)

Lemma key_inv_new next frozen v : key_inv next frozen [(0%nat, v)] (0%nat, v).
Proof.
  split; [repeat constructor|by exists v|repeat constructor; cbn; lia|].
  exists []. by cbn.
Qed.

Lemma key_inv_next next next' frozen h c :
  (next ≤ next')%nat → key_inv next frozen h c → key_inv next' frozen h c.
Proof.
  intros Hn [? ? Hf ?]. split; [done..| |done].
  eapply Forall_impl; [exact Hf|]. cbn. lia.
Qed.

Lemma key_inv_cons next frozen h c v t0 v0 tl :
  h = (t0, v0) :: tl → t0 ≠ next → (frozen < next)%nat →
  key_inv next frozen h c → key_inv next frozen ((next, v) :: h) c.
Proof.
  intros -> Ht Hfr [Hs [v1 Hl] Hf [tl' Hc]]. apply Forall_cons in Hf as Hf'.
  destruct Hf' as [Hf0 Hf1]. cbn in Hf0.
  split.
  - constructor; [done|]. constructor; [cbn; lia|]. apply StronglySorted_inv in Hs as [_ Hs].
    eapply Forall_impl; [exact Hs|]. cbn. lia.
  - exists v1. by rewrite last_cons_cons.
  - by constructor.
  - exists tl'. cbn [rollback_hist]. rewrite decide_False by lia. done.
Qed.

Lemma key_inv_overwrite next frozen v v' tl c :
  (frozen < next)%nat →
  key_inv next frozen ((next, v) :: tl) c → key_inv next frozen ((next, v') :: tl) c.
Proof.
  intros Hfr [Hs [v1 Hl] Hf [tl' Hc]]. split.
  - apply StronglySorted_inv in Hs as [Hs Hall]. by constructor.
  - exists v1. destruct tl; [|done]. cbn in *. injection Hl as -> ->. lia.
  - apply Forall_cons in Hf as [? ?]. by constructor.
  - exists tl'. cbn [rollback_hist] in *. by rewrite decide_False in * by lia.
Qed.

Lemma key_inv_rollback next frozen id h c :
  (frozen ≤ id)%nat → key_inv next frozen h c → key_inv next frozen (rollback_hist id h) c.
Proof.
  intros Hfr [Hs [v1 Hl] Hf [tl' Hc]]. split.
  - by apply rollback_hist_sorted.
  - exists v1. by apply rollback_hist_nonempty.
  - rewrite Forall_forall in *. intros x Hx%rollback_hist_elem. auto.
  - exists tl'. by rewrite rollback_hist_rollback.
Qed.

Lemma commit_hist_sorted h :
  StronglySorted (λ x y : nat * V, (y.1 < x.1)%nat) h →
  StronglySorted (λ x y : nat * V, (y.1 < x.1)%nat) (commit_hist h).
Proof.
  intros Hs. destruct h as [|x h]; [constructor|]. cbn.
  apply StronglySorted_inv in Hs as [_ Hs]. destruct (last h) as [i|] eqn:Hl;
    repeat constructor. rewrite Forall_forall in Hs. apply Hs.
  apply last_Some in Hl as [? ->]. set_solver.
Qed.

Lemma key_inv_commit next frozen h c :
  key_inv next frozen h c →
  key_inv (S next) next (commit_hist h) (default c (list.head h)).
Proof.
  intros [Hs [v1 Hl] Hf _]. split.
  - by apply commit_hist_sorted.
  - exists v1. by rewrite commit_hist_last.
  - rewrite Forall_forall in *. intros x Hx%commit_hist_elem. specialize (Hf x Hx). cbn. lia.
  - pose proof (commit_hist_idem h) as Hid. pose proof (head_commit_hist h) as Hh.
    destruct h as [|[t v] h]; [done|]. destruct (commit_hist ((t, v) :: h)) as [|x tl] eqn:Hc;
      [done|]. cbn in Hh. injection Hh as ->. exists tl. cbn [default list.head from_option].
    split; [|done]. eapply rollback_hist_head; [done|].
    apply Forall_cons in Hf as [? _]. done.
Qed.

Lemma a_inv_new : a_inv a_new.
Proof.
  split; cbn; [lia|..]; try (intros *; rewrite lookup_empty; done); [set_solver|constructor].
Qed.

(** Inserting a history for [k] and possibly one pending entry for it. *)
Lemma a_inv_insert a k h c pend :
  a_inv a → key_inv (anext a) (afrozen a) h c →
  (∀ t v, (t, v) ∈ h → (afrozen a < t)%nat → (k, t) ∈ pend ++ apending a) →
  pend = [] ∨ pend = [(k, anext a)] →
  a_inv (mkAMap (<[k := (h, c)]> (ahist a)) (anext a) (afrozen a) (pend ++ apending a)).
Proof.
  intros [Hn Hk Hp Hpr Hs] Hki Hpend Hpe. split; cbn.
  - done.
  - intros k' h' c' [[-> [= -> ->]]|[? Hk']]%lookup_insert_Some; [done|]. by eapply Hk.
  - intros k' h' c' t v [[-> [= -> ->]]|[? Hk']]%lookup_insert_Some; [by apply Hpend|].
    intros. apply elem_of_app. right. by eapply Hp.
  - intros k' t Hin. rewrite lookup_insert_is_Some'. apply elem_of_app in Hin as [Hin|Hin].
    + destruct Hpe as [->| ->]; [set_solver|]. apply list_elem_of_singleton in Hin.
      injection Hin as -> ->. split; [by left|lia].
    + apply Hpr in Hin as [? ?]. auto.
  - destruct Hpe as [->| ->]; [done|]. cbn. constructor; [done|]. rewrite Forall_forall.
    intros [k' t] Hin. by apply Hpr in Hin as [_ ?].
Qed.

Lemma StronglySorted_filter {A} (R : A → A → Prop) (P : A → Prop) `{∀ x, Decision (P x)} l :
  StronglySorted R l → StronglySorted R (filter P l).
Proof.
  induction 1 as [|x l Hs IH Hf]; [constructor|]. rewrite filter_cons.
  destruct (decide (P x)); [|done]. constructor; [done|].
  rewrite Forall_forall in *. intros y [_ Hy]%list_elem_of_filter. auto.
Qed.

Lemma a_inv_rollback a id :
  a_inv a → (afrozen a ≤ id)%nat →
  a_inv (mkAMap (a_rollback_key id <$> ahist a) (anext a) (afrozen a)
           (filter (λ e, e.2 ≤ id)%nat (apending a))).
Proof.
  intros [Hn Hk Hp Hpr Hs] Hid. split; cbn.
  - done.
  - intros k h c ([h' c'] & [= <- <-] & Hl)%lookup_fmap_Some.
    apply key_inv_rollback; [done|]. by eapply Hk.
  - intros k h c t v ([h' c'] & [= <- <-] & Hl)%lookup_fmap_Some Hin Ht.
    apply list_elem_of_filter. cbn [fst] in Hin. split.
    + pose proof (rollback_hist_sorted id h' (ki_sorted _ _ _ _ (Hk _ _ _ Hl))) as [_ Hf].
      rewrite Forall_forall in Hf. by apply (Hf (t, v)).
    + eapply Hp; [done| |done]. by eapply rollback_hist_elem.
  - intros k t [_ Hin]%list_elem_of_filter. rewrite lookup_fmap, fmap_is_Some. auto.
  - by apply StronglySorted_filter.
Qed.

Lemma a_inv_commit a :
  a_inv a → a_inv (mkAMap (a_commit_key <$> ahist a) (S (anext a)) (anext a) []).
Proof.
  intros [Hn Hk Hp Hpr Hs]. split; cbn; [lia|..|set_solver|constructor].
  - intros k h c ([h' c'] & [= <- <-] & Hl)%lookup_fmap_Some.
    eapply key_inv_commit. by eapply Hk.
  - intros k h c t v ([h' c'] & [= <- <-] & Hl)%lookup_fmap_Some Hin%commit_hist_elem Ht.
    pose proof (ki_next _ _ _ _ (Hk _ _ _ Hl)) as Hf. rewrite Forall_forall in Hf.
    specialize (Hf _ Hin). cbn in *. lia.
Qed.

Lemma key_inv_head next frozen h c :
  key_inv next frozen h c → ∃ t v tl, h = (t, v) :: tl.
Proof. intros [_ [v0 Hl] _ _]. destruct h as [|[t v] tl]; [done|]. eauto. Qed.

Lemma a_inv_op (o : op K V E) a : a_inv a → a_inv (a_op o a).2.
Proof.
  intros Ha. pose proof Ha as [Hn Hk Hp Hpr Hs]. destruct o as [k s|k f| |id| |k|k|k]; cbn.
  - destruct (ahist a !! k) as [x|] eqn:Hl; [done|]. destruct s as [e|v]; [done|].
    apply (a_inv_insert a k _ _ []); [done|apply key_inv_new| |by left].
    intros t w [= -> ->]%list_elem_of_singleton. lia.
  - destruct (ahist a !! k) as [[h c]|] eqn:Hl; [|done].
    pose proof (Hk _ _ _ Hl) as Hki. destruct (key_inv_head _ _ _ _ Hki) as (t & v & tl & ->).
    cbn. destruct (f v) as [r v']. case_decide as Ht.
    + subst t. apply (a_inv_insert a k _ _ []); [done|by eapply key_inv_overwrite| |by left].
      intros t w [[= -> ->]|Hin]%elem_of_cons Hf; cbn.
      * eapply Hp; [exact Hl|apply list_elem_of_here|done].
      * eapply Hp; [exact Hl|by apply list_elem_of_further|done].
    + destruct r; [done|]. cbn.
      apply (a_inv_insert a k _ _ [(k, anext a)]); [done|by eapply key_inv_cons| |by right].
      intros t' w [[= -> ->]|Hin]%elem_of_cons Hf; [set_solver|].
      apply elem_of_app. right. by eapply Hp.
  - split; cbn; [lia|..|done].
    + intros k h c Hl. eapply key_inv_next, Hk; [lia|done].
    + done.
    + intros k t [? ?]%Hpr. auto with lia.
  - case_decide; [done|]. case_decide; [done|]. apply a_inv_rollback; [done|lia].
  - by apply a_inv_commit.
  - done.
  - done.
  - done.
Qed.

(** *** The heap operations implement the abstract ones *)

Abbreviation G_of := (gmap K (list (loc * (nat * V)) * (nat * V))).

Lemma hm_inv_lookup b (p : Pool V) (G : G_of) ps k :
  hm_inv b p G ps →
  (b !! k = None ∧ G !! k = None)
  ∨ (∃ e hs c, b !! k = Some e ∧ G !! k = Some (hs, c) ∧ elem_rep (store p) e hs c).
Proof.
  intros [_ _ Hno He _ _]. specialize (Hno k).
  destruct (b !! k) as [e|] eqn:Hb, (G !! k) as [[hs c]|] eqn:HG.
  - right. eauto 10.
  - naive_solver.
  - naive_solver.
  - by left.
Qed.

(** A step on the records of one key leaves every other key alone. *)
Lemma hm_inv_step b p (G : G_of) ps k hs p' e' hs' c' ps' :
  hm_inv b p G ps →
  (∃ c, G !! k = Some (hs, c)) ∨ (G !! k = None ∧ hs = []) →
  owned_step p hs ps p' hs' ps' → elem_rep (store p') e' hs' c' →
  hm_inv (<[k := e']> b) p' (<[k := (hs', c')]> G) ps'.
Proof.
  intros Hi Hk [Hpool Hnd Hlocs Hfr Hdom] He'.
  assert (∀ k2 hs2 c2 l, k2 ≠ k → G !! k2 = Some (hs2, c2) → l ∈ locs hs2 →
            l ∈ dom (store p) ∧ (l ∉ locs hs ++ locs ps)) as Hother.
  { intros k2 hs2 c2 l Hne HG Hl.
    destruct (hm_inv_lookup _ _ _ _ k2 Hi) as [[_ ?]|(e & h0 & c0 & _ & ? & [Hseg _ _ _])];
      [congruence|]. simplify_eq. split.
    - apply elem_of_dom. by eapply seg_dom.
    - rewrite not_elem_of_app. split.
      + destruct Hk as [[c Hk]|[_ ->]]; [|set_solver].
        by eapply (hi_disjoint _ _ _ _ Hi k2 k).
      + pose proof (hi_nodup _ _ _ _ Hi _ _ _ HG) as Hnd2.
        apply NoDup_app in Hnd2 as (_ & Hnd2 & _). by apply Hnd2. }
  assert (∀ k2 hs2 c2 l, k2 ≠ k → G !! k2 = Some (hs2, c2) → l ∈ locs hs2 →
            (l ∉ locs hs' ++ locs ps')) as Hother'.
  { intros k2 hs2 c2 l Hne HG Hl Hl'. destruct (Hother _ _ _ _ Hne HG Hl).
    by destruct (Hlocs _ Hl'). }
  split.
  - done.
  - by apply NoDup_app in Hnd as (_ & _ & ?).
  - intros k2. destruct (decide (k2 = k)) as [->|]; [by rewrite !lookup_insert_eq|].
    rewrite !lookup_insert_ne by done. apply (hi_none _ _ _ _ Hi).
  - intros k2 e2 hs2 c2. destruct (decide (k2 = k)) as [->|];
      [rewrite !lookup_insert_eq; by intros [= <-] [= <- <-]|].
    rewrite !lookup_insert_ne by done. intros Hb HG.
    eapply elem_rep_frame; [|by eapply (hi_elem _ _ _ _ Hi)].
    intros l Hl. apply Hfr; by eapply Hother.
  - intros k2 hs2 c2 [[-> [= <- <-]]|[Hne HG]]%lookup_insert_Some; [done|].
    pose proof (hi_nodup _ _ _ _ Hi _ _ _ HG) as Hnd2. apply NoDup_app in Hnd2 as (? & _ & _).
    apply NoDup_app in Hnd as (_ & _ & ?). apply NoDup_app. split_and!; [done| |done].
    intros l Hl. pose proof (Hother' _ _ _ _ (not_eq_sym Hne) HG Hl). set_solver.
  - intros k1 k2 hs1 hs2 c1 c2 l Hne [[-> [= <- <-]]|[Hne1 HG1]]%lookup_insert_Some
      [[-> [= <- <-]]|[Hne2 HG2]]%lookup_insert_Some Hl1 Hl2.
    + done.
    + pose proof (Hother' _ _ _ _ (not_eq_sym Hne2) HG2 Hl2). set_solver.
    + pose proof (Hother' _ _ _ _ (not_eq_sym Hne1) HG1 Hl1). set_solver.
    + by eapply (hi_disjoint _ _ _ _ Hi k1 k2).
Qed.

Lemma hm_inv_same b p (G : G_of) ps k e hs c :
  hm_inv b p G ps → b !! k = Some e → G !! k = Some (hs, c) →
  elem_rep (store p) e hs c ∧ NoDup (locs hs ++ locs ps) ∧ pool_rep p ps.
Proof.
  intros Hi Hb HG. split_and!; [by eapply hi_elem|by eapply hi_nodup|by eapply hi_pool].
Qed.

Lemma strip_insert k (hs : list (loc * (nat * V))) c (G : G_of) :
  strip <$> <[k := (hs, c)]> G = <[k := (hs.*2, c)]> (strip <$> G).
Proof. by rewrite fmap_insert. Qed.

Lemma strip_lookup k (G : G_of) : (strip <$> G) !! k = strip <$> (G !! k).
Proof. apply lookup_fmap. Qed.

Fixpoint a_rollback_loop (id : nat) (pending : list (K * nat))
    (X : gmap K (list (nat * V) * (nat * V))) : gmap K (list (nat * V) * (nat * V)) :=
  match pending with
  | [] => X
  | (k, t) :: rest =>
      if decide (t ≤ id)%nat then X
      else a_rollback_loop id rest (alter (a_rollback_key id) k X)
  end.

Definition a_commit_loop (pending : list (K * nat))
    (X : gmap K (list (nat * V) * (nat * V))) : gmap K (list (nat * V) * (nat * V)) :=
  foldl (λ Y e, alter a_commit_key e.1 Y) X pending.

Lemma fmap_alter_idemp {A} (f : A → A) k (X : gmap K A) :
  (∀ x, f (f x) = f x) → f <$> alter f k X = f <$> X.
Proof.
  intros Hf. apply map_eq. intros k'. rewrite !lookup_fmap.
  destruct (decide (k' = k)) as [->|]; [|by rewrite lookup_alter_ne].
  rewrite lookup_alter_eq. destruct (X !! k); cbn; by rewrite ?Hf.
Qed.

Lemma fmap_fixed {A} (f : A → A) (X : gmap K A) :
  (∀ k x, X !! k = Some x → f x = x) → f <$> X = X.
Proof.
  intros Hf. apply map_eq. intros k. rewrite lookup_fmap.
  destruct (X !! k) eqn:Hx; cbn; [|done]. f_equal. eauto.
Qed.

Lemma a_rollback_key_idemp id (x : list (nat * V) * (nat * V)) :
  a_rollback_key id (a_rollback_key id x) = a_rollback_key id x.
Proof. unfold a_rollback_key. cbn. by rewrite rollback_hist_rollback. Qed.

Lemma a_commit_key_idemp (x : list (nat * V) * (nat * V)) :
  a_commit_key (a_commit_key x) = a_commit_key x.
Proof.
  destruct x as [h c]. unfold a_commit_key. cbn.
  rewrite commit_hist_idem, head_commit_hist. by destruct (list.head h).
Qed.

Lemma a_rollback_loop_all id pending X :
  StronglySorted (λ x y : K * nat, (y.2 ≤ x.2)%nat) pending →
  (∀ k x, X !! k = Some x →
    a_rollback_key id x = x ∨ ∃ t, (k, t) ∈ pending ∧ (id < t)%nat) →
  a_rollback_loop id pending X = a_rollback_key id <$> X.
Proof.
  intros Hs. revert X. induction Hs as [|[k t] rest Hs IH Hf]; intros X HX; cbn.
  - symmetry. apply fmap_fixed. intros k x [?|(t & ?%not_elem_of_nil & _)]%HX; done.
  - rewrite Forall_forall in Hf. case_decide as Ht.
    + symmetry. apply fmap_fixed. intros k' x [?|(t' & Hin & Hlt)]%HX; [done|].
      apply elem_of_cons in Hin as [[= -> ->]|Hin]; [lia|]. apply Hf in Hin. cbn in *. lia.
    + rewrite IH; [by apply fmap_alter_idemp, a_rollback_key_idemp|].
      intros k' x. destruct (decide (k' = k)) as [->|Hne].
      * rewrite lookup_alter_eq. intros (y & _ & ->)%fmap_Some.
        left. apply a_rollback_key_idemp.
      * rewrite lookup_alter_ne by done. intros [?|(t' & Hin & Hlt)]%HX; [by left|].
        right. exists t'. set_solver.
Qed.

Lemma a_commit_loop_all pending X :
  (∀ k x, X !! k = Some x → a_commit_key x = x ∨ ∃ t, (k, t) ∈ pending) →
  a_commit_loop pending X = a_commit_key <$> X.
Proof.
  revert X. induction pending as [|[k t] rest IH]; intros X HX; cbn.
  - symmetry. apply fmap_fixed. intros k x [?|(t & ?%not_elem_of_nil)]%HX; done.
  - unfold a_commit_loop in IH. rewrite IH; [by apply fmap_alter_idemp, a_commit_key_idemp|].
    intros k' x. destruct (decide (k' = k)) as [->|Hne].
    + rewrite lookup_alter_eq. intros (y & _ & ->)%fmap_Some. left. apply a_commit_key_idemp.
    + rewrite lookup_alter_ne by done. intros [?|(t' & Hin)]%HX; [by left|].
      right. exists t'. set_solver.
Qed.

(** Under the invariant the loops over the pending updates reach every key that
    needs them. *)
Lemma a_inv_rollback_all a id :
  a_inv a → (afrozen a ≤ id)%nat →
  a_rollback_loop id (apending a) (ahist a) = a_rollback_key id <$> ahist a.
Proof.
  intros [Hn Hk Hp _ Hs] Hid. apply a_rollback_loop_all; [done|]. intros k [h c] Hl.
  destruct (key_inv_head _ _ _ _ (Hk _ _ _ Hl)) as (t & v & tl & ->).
  destruct (decide (t ≤ id)%nat) as [Ht|Ht].
  - left. unfold a_rollback_key. cbn. by rewrite decide_True.
  - right. exists t. split; [|lia]. eapply Hp; [exact Hl|apply list_elem_of_here|lia].
Qed.

Lemma a_inv_commit_all a :
  a_inv a → a_commit_loop (apending a) (ahist a) = a_commit_key <$> ahist a.
Proof.
  intros [Hn Hk Hp _ Hs]. apply a_commit_loop_all. intros k [h c] Hl.
  destruct (Hk _ _ _ Hl) as [_ _ _ (tl' & Hc & Hid)].
  destruct (key_inv_head _ _ _ _ (Hk _ _ _ Hl)) as (t & v & tl & ->).
  destruct (decide (t ≤ afrozen a)%nat) as [Ht|Ht].
  - left. rewrite (rollback_hist_head _ _ t v tl eq_refl Ht) in Hc. rewrite Hc.
    unfold a_commit_key. cbn [fst snd]. by rewrite Hid.
  - right. exists t. eapply Hp; [exact Hl|apply list_elem_of_here|lia].
Qed.

Lemma filter_Forall_id {A} (P : A → Prop) `{∀ x, Decision (P x)} l :
  Forall P l → filter P l = l.
Proof. induction 1; [done|]. rewrite filter_cons_True by done. by f_equal. Qed.

Lemma filter_newer id (pending : list (K * nat)) k t rest :
  StronglySorted (λ x y : K * nat, (y.2 ≤ x.2)%nat) pending →
  pending = (k, t) :: rest → (t ≤ id)%nat →
  filter (λ e, e.2 ≤ id)%nat pending = pending.
Proof.
  intros Hs -> Ht. apply filter_Forall_id. apply StronglySorted_inv in Hs as [_ Hf].
  constructor; [done|]. eapply Forall_impl; [exact Hf|]. cbn. lia.
Qed.

Lemma strip_insert_alter (f : list (nat * V) * (nat * V) → list (nat * V) * (nat * V))
    k x y (G : G_of) :
  G !! k = Some x → strip y = f (strip x) → strip <$> <[k := y]> G = alter f k (strip <$> G).
Proof.
  intros HG Hf. apply map_eq. intros k'. rewrite strip_lookup.
  destruct (decide (k' = k)) as [->|].
  - rewrite lookup_insert_eq, lookup_alter_eq, strip_lookup, HG. cbn. by f_equal.
  - by rewrite lookup_insert_ne, lookup_alter_ne, strip_lookup.
Qed.

Lemma on_pool_run {A} (c : M (Pool V) (HistoryMapError E) A) (m : HistoryMap K V) o p' :
  c (records_memory_pool m) = (o, p') → on_pool c m = (o, set_pool p' m).
Proof. intros Hc. unfold on_pool, zoom. by rewrite Hc. Qed.

Lemma rollback_loop_spec id pending (m : HistoryMap K V) (G : G_of) ps :
  StronglySorted (λ x y : K * nat, (y.2 ≤ x.2)%nat) pending →
  hm_inv (btree m) (records_memory_pool m) G ps →
  (∀ k t, (k, t) ∈ pending → is_Some (G !! k)) →
  (∀ k hs c, G !! k = Some (hs, c) → c.1 ≤ id)%nat →
  ∃ b' p' G' ps',
    rollback_loop (E:=E) id pending m
    = (Val tt, mkHistoryMap b' (next_snapshot_id m) (frozen_snapshot_id m)
                 (filter (λ e, e.2 ≤ id)%nat pending) p')
    ∧ hm_inv b' p' G' ps'
    ∧ strip <$> G' = a_rollback_loop id pending (strip <$> G).
Proof.
  revert m G ps. induction pending as [|[k t] rest IH]; intros m G ps Hs Hi Hin Hc.
  { exists (btree m), (records_memory_pool m), G, ps. done. }
  cbn [rollback_loop a_rollback_loop].
  destruct (decide (t ≤ id)%nat) as [Ht|Ht].
  { rewrite bool_decide_true by done. rewrite (filter_newer id _ k t rest) by done.
    exists (btree m), (records_memory_pool m), G, ps. done. }
  rewrite bool_decide_false, filter_cons_False by done.
  destruct (hm_inv_lookup _ _ _ _ k Hi) as [[_ HG]|(e & hs & c & Hb & HG & _)].
  { destruct (Hin k t) as [? ?]; [apply list_elem_of_here|congruence]. }
  destruct (hm_inv_same _ _ _ _ _ _ _ _ Hi Hb HG) as (He & Hnd & Hp).
  destruct (Element_rollback_spec (E:=HistoryMapError E) _ _ _ _ _ id Hp He Hnd)
    as (e' & p' & hs' & ps' & Hrun & He' & Hhs' & _ & Hstep); [by eapply Hc|].
  pose proof (hm_inv_step _ _ _ _ k _ _ _ _ c _ Hi (or_introl (ex_intro _ c HG)) Hstep He')
    as Hi'.
  apply StronglySorted_inv in Hs as [Hs _].
  destruct (IH (set_btree (<[k := e']> (btree m)) (set_pool p' m)) _ _ Hs Hi')
    as (b2 & p2 & G2 & ps2 & Hrun2 & Hi2 & Heq).
  - intros k' t' Hin'. apply lookup_insert_is_Some'. right.
    eapply Hin. by apply list_elem_of_further.
  - intros k' hs2 c2 [[-> [= <- <-]]|[Hne HG']]%lookup_insert_Some; eauto.
  - exists b2, p2, G2, ps2. split_and!; [|done|].
    + unfold get. erewrite bind_val by done. rewrite Hb. erewrite bind_val by done.
      erewrite bind_val by (by apply on_pool_run). by erewrite bind_val.
    + rewrite Heq. f_equal. eapply strip_insert_alter; [exact HG|].
      unfold strip, a_rollback_key. cbn. by rewrite Hhs'.
Qed.

Lemma commit_loop_spec pending (m : HistoryMap K V) (G : G_of) ps :
  hm_inv (btree m) (records_memory_pool m) G ps →
  (∀ k t, (k, t) ∈ pending → is_Some (G !! k)) →
  ∃ b' p' G' ps',
    commit_loop (E:=E) pending m
    = (Val tt, set_btree b' (set_pool p' m))
    ∧ hm_inv b' p' G' ps'
    ∧ strip <$> G' = a_commit_loop pending (strip <$> G).
Proof.
  revert m G ps. induction pending as [|[k t] rest IH]; intros m G ps Hi Hin.
  { exists (btree m), (records_memory_pool m), G, ps. by destruct m. }
  cbn [commit_loop].
  destruct (hm_inv_lookup _ _ _ _ k Hi) as [[_ HG]|(e & hs & c & Hb & HG & _)].
  { destruct (Hin k t) as [? ?]; [apply list_elem_of_here|congruence]. }
  destruct (hm_inv_same _ _ _ _ _ _ _ _ Hi Hb HG) as (He & Hnd & Hp).
  destruct (elem_rep_head _ _ _ _ He) as (x & tl & Hhs).
  destruct (Element_commit_spec (E:=HistoryMapError E) _ _ _ _ _ x tl Hp He Hnd Hhs)
    as (e' & p' & hs' & ps' & Hrun & He' & Hhs' & _ & Hstep).
  pose proof (hm_inv_step _ _ _ _ k _ _ _ _ x _ Hi (or_introl (ex_intro _ c HG)) Hstep He')
    as Hi'.
  destruct (IH (set_btree (<[k := e']> (btree m)) (set_pool p' m)) _ _ Hi')
    as (b2 & p2 & G2 & ps2 & Hrun2 & Hi2 & Heq).
  - intros k' t' Hin'. apply lookup_insert_is_Some'. right.
    eapply Hin. by apply list_elem_of_further.
  - exists b2, p2, G2, ps2. split_and!; [|done|].
    + unfold get. erewrite bind_val by done. rewrite Hb. erewrite bind_val by done.
      erewrite bind_val by (by apply on_pool_run). by erewrite bind_val.
    + rewrite Heq. unfold a_commit_loop. cbn. f_equal.
      eapply strip_insert_alter; [exact HG|].
      unfold strip, a_commit_key. cbn. rewrite Hhs', Hhs. done.
Qed.

Lemma deref_run (p : Pool V) l r :
  store p !! l = Some r → deref (E:=HistoryMapError E) l p = (Val r, p).
Proof. intros Hl. unfold deref. by rewrite Hl. Qed.

Lemma read_record_run at_ k (m : HistoryMap K V) e r :
  btree m !! k = Some e → store (records_memory_pool m) !! at_ e = Some r →
  read_record (E:=E) at_ k m = (Val (Some (value r)), m).
Proof.
  intros Hb Hr. unfold read_record, get. erewrite bind_val by done. rewrite Hb.
  erewrite bind_val by (by apply on_pool_run, deref_run). by destruct m.
Qed.

(** Reading a record of the element that the representation names. *)
Lemma read_record_spec at_ k (m : HistoryMap K V) (G : G_of) ps sel :
  hm_inv (btree m) (records_memory_pool m) G ps →
  (∀ e hs c, elem_rep (store (records_memory_pool m)) e hs c →
     ∃ t v, (at_ e, (t, v)) ∈ hs ∧ sel (hs.*2) c = Some v) →
  read_record (E:=E) at_ k m
  = (Val ((strip <$> G) !! k ≫= λ x, sel x.1 x.2), m).
Proof.
  intros Hi Hsel. rewrite strip_lookup.
  destruct (hm_inv_lookup _ _ _ _ k Hi) as [[Hb HG]|(e & hs & c & Hb & HG & He)].
  - unfold read_record, get. erewrite bind_val by done. by rewrite Hb, HG.
  - destruct (Hsel _ _ _ He) as (t & v & Hin & Hv).
    destruct (seg_deref _ _ _ _ _ _ _ (er_seg _ _ _ _ He) Hin) as (nxt & Hl).
    rewrite HG. cbn. rewrite Hv. by erewrite read_record_run by eassumption.
Qed.

(** The next snapshot id can be incremented. *)
Definition has_ids (n : nat) (a : AMap K V) : Prop :=
  Z.of_nat (anext a) + Z.of_nat n < 2 ^ usize_bits.

Definition takes_id (o : op K V E) : nat :=
  match o with OSnapshot | OCommit => 1 | _ => 0 end.

Definition refines (o : op K V E) : Prop := ∀ m a, hm_rep m a → a_inv a →
  has_ids (takes_id o) a →
  (run_op o m).1 = (a_op o a).1 ∧ hm_rep (run_op o m).2 (a_op o a).2.

Lemma refines_current k : refines (OCurrent k).
Proof.
  intros m a (Hn & Hf & Hp & G & ps & Hi & Ha) _ _. cbn. unfold current.
  erewrite bind_val; [|apply (read_record_spec _ _ _ _ _ (λ h _, snd <$> list.head h) Hi)].
  - cbn. split; [by rewrite Ha|]. unfold hm_rep. eauto 10.
  - intros e hs c He. destruct (elem_rep_head _ _ _ _ He) as ([t v] & tl & ->).
    exists t, v. split; [apply list_elem_of_here|done].
Qed.

Lemma refines_initial k : refines (OInitial k).
Proof.
  intros m a (Hn & Hf & Hp & G & ps & Hi & Ha) _ _. cbn. unfold initial_value.
  erewrite bind_val; [|apply (read_record_spec _ _ _ _ _ (λ h _, snd <$> last h) Hi)].
  - cbn. split; [by rewrite Ha|]. unfold hm_rep. eauto 10.
  - intros e hs c He. destruct (elem_rep_initial _ _ _ _ He) as (pre & v & ->).
    exists 0%nat, v. split; [set_solver|]. by rewrite fmap_last, last_snoc.
Qed.

Lemma refines_committed k : refines (OCommitted k).
Proof.
  intros m a (Hn & Hf & Hp & G & ps & Hi & Ha) _ _. cbn. unfold committed_value.
  erewrite bind_val; [|apply (read_record_spec _ _ _ _ _ (λ _ c, Some c.2) Hi)].
  - cbn. split; [rewrite Ha; by destruct (_ !! k)|]. unfold hm_rep. eauto 10.
  - intros e hs [t v] He. exists t, v. split; [apply He|done].
Qed.

Lemma refines_snapshot : refines OSnapshot.
Proof.
  intros m a (Hn & Hf & Hp & G & ps & Hi & Ha) _ Hid. cbn [run_op a_op].
  assert (increment (next_snapshot_id m) = S (next_snapshot_id m)) as Hinc.
  { apply increment_small. rewrite Hn. exact Hid. }
  rewrite <- Hn, <- Hinc. split; [done|]. unfold hm_rep. cbn. eauto 10.
Qed.

Lemma hm_rep_committed a (G : G_of) k hs c id :
  a_inv a → ahist a = strip <$> G → (afrozen a ≤ id)%nat → G !! k = Some (hs, c) →
  (c.1 ≤ id)%nat.
Proof.
  intros Hinv Ha Hid HG. destruct (ai_key a Hinv k (hs.*2) c) as [Hs _ _ (tl & Hc & _)].
  { by rewrite Ha, strip_lookup, HG. }
  apply (rollback_hist_sorted (afrozen a)) in Hs as [_ Hf]. rewrite Hc in Hf.
  apply Forall_cons in Hf as [? _]. lia.
Qed.

Lemma hm_rep_present a (G : G_of) k t :
  a_inv a → ahist a = strip <$> G → (k, t) ∈ apending a → is_Some (G !! k).
Proof.
  intros Hinv Ha Hin. apply (ai_present a Hinv) in Hin as [Hin _].
  by rewrite Ha, strip_lookup, fmap_is_Some in Hin.
Qed.

Lemma refines_rollback id : refines (ORollback id).
Proof.
  intros m a (Hn & Hf & Hp & G & ps & Hi & Ha) Hinv Hid. cbn [run_op a_op]. unfold rollback.
  rewrite <- Hf, <- Hn.
  destruct (decide (id < frozen_snapshot_id m)%nat) as [Hlt|Hlt].
  { erewrite bind_err; [split; [done|]; unfold hm_rep; eauto 10|].
    erewrite !bind_val by done. by rewrite bool_decide_true. }
  destruct (decide (next_snapshot_id m ≤ id)%nat) as [Hge|Hge].
  { erewrite bind_err; [split; [done|]; unfold hm_rep; eauto 10|].
    erewrite !bind_val by done. by rewrite bool_decide_false, bool_decide_true. }
  destruct (rollback_loop_spec id (pending_updated_elements m) m G ps)
    as (b' & p' & G' & ps' & Hrun & Hi' & Heq); [|done|..].
  { rewrite Hp. by apply ai_sorted. }
  { intros k t. rewrite Hp. by eapply hm_rep_present. }
  { intros k hs c. eapply hm_rep_committed; [done..|lia]. }
  erewrite bind_val.
  2:{ erewrite !bind_val by done. rewrite !bool_decide_false by done. exact Hrun. }
  split; [done|]. unfold hm_rep. cbn. rewrite <- Hp. split_and!; [done..|].
  exists G', ps'. split; [done|]. rewrite Heq, Hp, <- Ha. symmetry.
  apply a_inv_rollback_all; [done|lia].
Qed.

Lemma refines_commit : refines OCommit.
Proof.
  intros m a (Hn & Hf & Hp & G & ps & Hi & Ha) Hinv Hid. cbn [run_op a_op]. unfold commit.
  assert (increment (next_snapshot_id m) = S (anext a)) as Hinc.
  { rewrite Hn. apply increment_small. unfold has_ids in Hid. cbn in Hid. lia. }
  set (m1 := mkHistoryMap (btree m) (increment (next_snapshot_id m)) (next_snapshot_id m)
               (pending_updated_elements m) (records_memory_pool m)).
  destruct (commit_loop_spec (pending_updated_elements m) m1 G ps)
    as (b' & p' & G' & ps' & Hrun & Hi' & Heq); [done| |].
  { intros k t. rewrite Hp. by eapply hm_rep_present. }
  erewrite bind_val.
  2:{ erewrite !bind_val by done. done. }
  split; [done|]. unfold hm_rep. cbn. split_and!; [exact Hinc|exact Hn|done|].
  exists G', ps'. split; [done|]. rewrite Heq, Hp, <- Ha. symmetry.
  by apply a_inv_commit_all.
Qed.

Lemma refines_get_or_insert k s : refines (OGetOrInsert k s).
Proof.
  intros m a (Hn & Hf & Hp & G & ps & Hi & Ha) Hinv Hid. cbn [run_op a_op].
  assert (hm_rep m a) as Hrep by (unfold hm_rep; eauto 10).
  rewrite Ha, strip_lookup. unfold get_or_insert, get.
  destruct (hm_inv_lookup _ _ _ _ k Hi) as [[Hb HG]|(e & hs & c & Hb & HG & He)]; rewrite HG.
  2:{ erewrite bind_val; cycle 1; [erewrite bind_val by done; by rewrite Hb|done]. }
  destruct s as [err|v].
  { erewrite bind_err; cycle 1; [erewrite bind_val by done; by rewrite Hb|done]. }
  destruct (Element_new_spec (E:=HistoryMapError E) (records_memory_pool m) ps v
              (hi_pool _ _ _ _ Hi) (hi_pool_nodup _ _ _ _ Hi))
    as (e & p' & Hrun & He & Hst & Hp' & Hnin & Hor).
  erewrite bind_val.
  2:{ erewrite bind_val by done. rewrite Hb. erewrite bind_val by (by apply on_pool_run).
      by erewrite bind_val. }
  split; [done|]. unfold hm_rep. cbn. split_and!; [done..|].
  exists (<[k := ([(head e, (0%nat, v))], (0%nat, v))]> G), (tail ps).
  split; [|by rewrite strip_insert].
  eapply (hm_inv_step _ _ _ _ k []); [done|by right| |done]. split.
  - done.
  - cbn. constructor; [done|]. pose proof (hi_pool_nodup _ _ _ _ Hi) as Hnd.
    destruct ps; [done|]. by apply NoDup_cons in Hnd as [_ ?].
  - intros l. cbn. intros [->|Hl]%elem_of_cons; [done|]. left.
    destruct ps; [done|]. by apply list_elem_of_further.
  - intros l Hl Hl'. rewrite Hst. apply lookup_insert_ne. intros <-. by destruct Hor.
  - rewrite Hst, dom_insert. set_solver.
Qed.

(** Overwriting the value of the newest record. *)
Lemma write_head_spec (p : Pool V) e t v v' tl c ps :
  pool_rep p ps → elem_rep (store p) e ((head e, (t, v)) :: tl) c →
  NoDup (locs ((head e, (t, v)) :: tl) ++ locs ps) → c.1 ≠ t →
  ∃ p', write (E:=HistoryMapError E) (head e) (set_value v') p = (Val tt, p')
    ∧ elem_rep (store p') e ((head e, (t, v')) :: tl) c
    ∧ owned_step p ((head e, (t, v)) :: tl) ps p' ((head e, (t, v')) :: tl) ps.
Proof.
  intros [Hps Hpl] [(_ & nxt & Hl & Hseg) Hnd1 Hsh Hc] Hnd Hct.
  unfold write. rewrite Hl. eexists; split; [done|]. cbn in Hnd, Hnd1.
  apply NoDup_cons in Hnd1 as [Htl ?]. apply NoDup_cons in Hnd as [Hnin Hnd].
  split; cbn [store].
  - split.
    + split; [done|]. exists nxt. rewrite lookup_insert_eq. split; [done|].
      by apply seg_insert.
    + by constructor.
    + destruct Hsh as [(v0 & [= -> -> -> ->] & Hfi)|(pre & x & v0 & Heq)].
      * left. eauto.
      * right. destruct pre as [|y pre]; cbn in *; simplify_eq.
        -- eexists [], (t, v'), v0. cbn. by f_equal; f_equal.
        -- by eexists ((_, _) :: pre), _, _.
    + apply elem_of_cons in Hc as [[= _ ->]|Hc]; [done|]. by apply list_elem_of_further.
  - split; cbn [store].
    + split; [|done]. cbn. apply seg_insert; [set_solver|done].
    + by constructor.
    + intros l Hin. by left.
    + intros l _ Hin. apply lookup_insert_ne. cbn in Hin. set_solver.
    + rewrite dom_insert. set_solver.
Qed.

Lemma elem_rep_push st e (hs : list (loc * (nat * V))) c new next v :
  elem_rep (<[new := mkRecord next v (Some (head e))]> st) e hs c → new ∉ locs hs →
  elem_rep (<[new := mkRecord next v (Some (head e))]> st) (add_new_record new e)
    ((new, (next, v)) :: hs) c.
Proof.
  intros [Hseg Hnd Hsh Hc] Hnew. split; cbn.
  - split; [done|]. eexists. by rewrite lookup_insert_eq.
  - by constructor.
  - right. destruct Hsh as [(v0 & -> & Hfi)|(pre & x & v0 & ->)].
    + rewrite bool_decide_true by done. by eexists [], _, _.
    + rewrite bool_decide_false; [by eexists (_ :: pre), _, _|].
      intros Heq. rewrite locs_app in Hnd. apply NoDup_app in Hnd as (_ & _ & Hnd).
      cbn in Hnd. rewrite Heq in Hnd. apply NoDup_cons in Hnd as [Hn _]. set_solver.
  - by apply list_elem_of_further.
Qed.

(** A new record on top of the history. *)
Lemma push_record_spec (p : Pool V) e hs c ps next v v' :
  pool_rep p ps → elem_rep (store p) e hs c → NoDup (locs hs ++ locs ps) →
  ∃ new p1 p2, create_element (E:=HistoryMapError E) v (Some (head e)) next p = (Val new, p1)
    ∧ write (E:=HistoryMapError E) new (set_value v') p1 = (Val tt, p2)
    ∧ elem_rep (store p2) (add_new_record new e) ((new, (next, v')) :: hs) c
    ∧ elem_rep (store p2) e hs c
    ∧ owned_step p hs ps p2 ((new, (next, v')) :: hs) (tail ps)
    ∧ owned_step p hs ps p2 hs (tail ps).
Proof.
  intros Hp He Hnd. apply NoDup_app in Hnd as Hnd'. destruct Hnd' as (Hnd1 & Hdis & Hnd2).
  destruct (create_element_spec (E:=HistoryMapError E) p ps v (Some (head e)) next Hp Hnd2)
    as (new & p1 & Hc & Hst & Hp1 & Hnin & Hor).
  assert (new ∉ locs hs) as Hnew.
  { intros Hin. destruct Hor as [Hin'|Hin']; [by eapply Hdis|]. apply Hin', elem_of_dom.
    by eapply seg_dom; [apply He|]. }
  assert (∀ l, l ∈ locs (tail ps) → l ∈ locs ps) as Htl.
  { intros l. destruct ps; [done|]. apply list_elem_of_further. }
  assert (NoDup (locs (tail ps))) as Hndt.
  { destruct ps; [done|]. by apply NoDup_cons in Hnd2 as [_ ?]. }
  assert (store p1 !! new = Some (mkRecord next v (Some (head e)))) as Hl1.
  { rewrite Hst. apply lookup_insert_eq. }
  pose (p2 := mkPool (<[new := mkRecord next v' (Some (head e))]> (store p))
                (pool_head p1) (pool_last p1)).
  assert (write (E:=HistoryMapError E) new (set_value v') p1 = (Val tt, p2)) as Hw.
  { unfold write. rewrite Hl1. unfold set_value, p2. cbn. by rewrite Hst, insert_insert_eq. }
  assert (pool_rep p2 (tail ps)) as Hp2.
  { destruct Hp1 as [Hseg Hla]. split; [|done]. cbn. eapply seg_frame; [|exact Hseg].
    intros l Hl. rewrite Hst, !lookup_insert_ne by set_solver. done. }
  assert (elem_rep (store p2) e hs c) as He2.
  { eapply elem_rep_frame; [|exact He]. intros l Hl. apply lookup_insert_ne. set_solver. }
  exists new, p1, p2. split_and!; [done..| |done| |].
  - by apply elem_rep_push.
  - split; [done|..].
    + cbn. constructor; [set_solver|]. apply NoDup_app. split_and!; [done| |done]. set_solver.
    + intros l. cbn. intros [->|[Hl|Hl]%elem_of_app]%elem_of_cons; set_solver.
    + intros l Hd Hl. apply lookup_insert_ne. intros <-. set_solver.
    + cbn. rewrite dom_insert. set_solver.
  - split; [done|..].
    + apply NoDup_app. split_and!; [done| |done]. set_solver.
    + set_solver.
    + intros l Hd Hl. apply lookup_insert_ne. intros <-. set_solver.
    + cbn. rewrite dom_insert. set_solver.
Qed.

Lemma update_run k f (m : HistoryMap K V) e r res v' :
  btree m !! k = Some e → store (records_memory_pool m) !! head e = Some r →
  f (value r) = (res, v') →
  update (E:=E) k f m =
  (if bool_decide (touch_ss_id r = next_snapshot_id m) then
     on_pool (write (head e) (set_value v')) ;;
     match res with Some e => throw (CallbackError e) | None => mret tt end
   else
     new ← on_pool (create_element (value r) (Some (head e)) (next_snapshot_id m));
     on_pool (write new (set_value v')) ;;
     match res with
     | Some e => throw (CallbackError e)
     | None =>
         modify (λ m, set_btree (<[k := add_new_record new e]> (btree m)) m) ;;
         modify (λ m', set_pending ((k, next_snapshot_id m) :: pending_updated_elements m') m')
     end) m.
Proof.
  intros Hb Hl Hf. unfold update. rewrite (bind_val (get k) _ m (Some e) m).
  2:{ unfold get, gets. by rewrite Hb. }
  erewrite (bind_val (expect (Some e))) by done. erewrite (bind_val (gets _)) by done.
  erewrite (bind_val (on_pool _)) by (by apply on_pool_run, deref_run).
  rewrite Hf. by destruct m.
Qed.

Lemma refines_update k f : refines (OUpdate k f).
Proof.
  intros m a (Hn & Hf & Hp & G & ps & Hi & Ha) Hinv Hid.
  assert (hm_rep m a) as Hrep by (unfold hm_rep; eauto 10).
  cbn [run_op a_op]. rewrite Ha, strip_lookup. rewrite (bind_val (get k) _ m (btree m !! k) m) by done.
  destruct (hm_inv_lookup _ _ _ _ k Hi) as [[Hb HG]|(e & hs & c & Hb & HG & He)];
    rewrite Hb, HG; [done|].
  destruct (hm_inv_same _ _ _ _ _ _ _ _ Hi Hb HG) as (_ & Hnd & Hpr).
  destruct (elem_rep_head _ _ _ _ He) as ([t v] & tl & ->).
  destruct (seg_deref _ _ _ _ _ _ _ (er_seg _ _ _ _ He) (list_elem_of_here _ _))
    as (nxt & Hl).
  cbn [strip fmap option_fmap option_map fst snd list_fmap]. unfold a_update. cbn.
  destruct (f v) as [r v'] eqn:Hfv.
  pose proof (update_run k f m e _ r v' Hb Hl Hfv) as Hrun. cbn in Hrun.
  destruct (decide (t = anext a)) as [Ht|Ht].
  - destruct (write_head_spec (records_memory_pool m) e t v v' tl c ps)
      as (p' & Hw & He' & Hstep); [done..| |].
    { pose proof (hm_rep_committed a G k _ c (afrozen a) Hinv Ha (le_n _) HG).
      pose proof (ai_next a Hinv). lia. }
    assert (hm_rep (set_pool p' m) (mkAMap (<[k := ((t, v') :: tl.*2, c)]> (ahist a))
              (anext a) (afrozen a) (apending a))) as Hrep'.
    { unfold hm_rep. cbn. split_and!; [done..|].
      exists (<[k := ((head e, (t, v')) :: tl, c)]> G), ps.
      split; [|by rewrite strip_insert, Ha].
      rewrite <- (insert_id (btree m) k e) by done.
      by eapply hm_inv_step; [done|left; eauto|..]. }
    rewrite bool_decide_true in Hrun by congruence.
    rewrite (bind_val _ _ m tt (set_pool p' m)) in Hrun by (by apply on_pool_run).
    destruct r as [err|]; [by rewrite (bind_err _ _ _ _ _ Hrun)|].
    by rewrite (bind_val _ _ _ _ _ Hrun).
  - destruct (push_record_spec (records_memory_pool m) e _ c ps (next_snapshot_id m) v v'
                Hpr He Hnd) as (new & p1 & p2 & Hc & Hw & He1 & He2 & Hst1 & Hst2).
    rewrite bool_decide_false in Hrun by congruence.
    rewrite (bind_val _ _ m new (set_pool p1 m)) in Hrun by (by apply on_pool_run).
    rewrite (bind_val _ _ _ tt (set_pool p2 (set_pool p1 m))) in Hrun by (by apply on_pool_run).
    destruct r as [err|].
    + rewrite (bind_err _ _ _ _ _ Hrun).
      split; [done|]. unfold hm_rep. cbn. split_and!; [done..|]. exists G, (tail ps).
      split; [|done]. rewrite <- (insert_id (btree m) k e), <- (insert_id G k _ HG) by done.
      by eapply hm_inv_step; [done|left; eauto|..].
    + erewrite bind_val in Hrun by done. rewrite (bind_val _ _ _ _ _ Hrun).
      split; [done|]. unfold hm_rep. cbn. rewrite Hn, Hp. split_and!; [done..|].
      rewrite Hn in He1, Hst1.
      exists (<[k := ((new, (anext a, v')) :: (head e, (t, v)) :: tl, c)]> G), (tail ps).
      split; [by eapply hm_inv_step; [done|left; eauto|..]|]. by rewrite strip_insert, Ha.
Qed.

Lemma refines_op (o : op K V E) : refines o.
Proof.
  destruct o; auto using refines_get_or_insert, refines_update, refines_snapshot,
    refines_rollback, refines_commit, refines_current, refines_initial, refines_committed.
Qed.

Lemma hm_rep_new : hm_rep HistoryMap_new a_new.
Proof.
  unfold hm_rep. cbn. split_and!; [done..|]. exists ∅, []. split; [|by rewrite fmap_empty].
  split; cbn; try (intros *; rewrite lookup_empty; done); by try constructor.
Qed.

(** The snapshot ids a sequence of operations takes. *)
Definition ids_taken (os : list (op K V E)) : nat := sum_list_with takes_id os.

Lemma a_op_next (o : op K V E) a : anext (a_op o a).2 = (anext a + takes_id o)%nat.
Proof.
  destruct o as [k s|k f| |id| |k|k|k]; cbn; try lia.
  - destruct (_ !! k); [cbn; lia|]. destruct s; cbn; lia.
  - destruct (_ !! k) as [[[|[t v] h] c]|]; cbn; [lia| |lia].
    destruct (f v) as [[e|] v']; case_decide; cbn; lia.
  - repeat case_decide; cbn; lia.
Qed.

Lemma run_ops_rep (os : list (op K V E)) m a :
  hm_rep m a → a_inv a → has_ids (ids_taken os) a →
  (run_ops os m).1 = (a_ops os a).1 ∧ hm_rep (run_ops os m).2 (a_ops os a).2
  ∧ a_inv (a_ops os a).2 ∧ anext (a_ops os a).2 = (anext a + ids_taken os)%nat.
Proof.
  revert m a. induction os as [|o os IH]; intros m a Hr Ha Hid.
  { split_and!; [done..|]. cbn. lia. }
  unfold has_ids, ids_taken in Hid. cbn in Hid |- *. fold (ids_taken os) in *.
  destruct (refines_op o m a Hr Ha) as [Ho Hr']; [unfold has_ids; lia|].
  pose proof (a_inv_op o a Ha) as Ha'. pose proof (a_op_next o a) as Hnx.
  destruct (run_op o m) as [r m'], (a_op o a) as [r' a']. cbn in *. subst r'.
  destruct (IH m' a' Hr' Ha') as (Hos & Hr2 & Ha2 & Hn2); [unfold has_ids; lia|].
  destruct (run_ops os m'), (a_ops os a'). cbn in *. subst. split_and!; [done..|lia].
Qed.

Lemma run_ops_new (os : list (op K V E)) :
  Z.of_nat (ids_taken os) + 1 < 2 ^ usize_bits →
  ∃ a, hm_rep (run_ops os HistoryMap_new).2 a ∧ a_inv a ∧ anext a = S (ids_taken os).
Proof.
  intros Hid. destruct (run_ops_rep os HistoryMap_new a_new) as (_ & ? & ? & ?);
    eauto using hm_rep_new, a_inv_new. unfold has_ids. cbn. lia.
Qed.

Lemma a_op_no_fault (o : op K V E) a : a_inv a → (a_op o a).1 ≠ Fault.
Proof.
  intros Ha. destruct o as [k s|k f| |id| |k|k|k]; cbn; try done.
  - destruct (_ !! k); [done|]. by destruct s.
  - destruct (_ !! k) as [[h c]|] eqn:Hl; [|done].
    destruct (key_inv_head _ _ _ _ (ai_key a Ha _ _ _ Hl)) as (t & v & tl & ->). cbn.
    destruct (f v) as [[e|] v']; by case_decide.
  - case_decide; [done|]. by case_decide.
Qed.

Lemma a_ops_no_fault (os : list (op K V E)) a :
  a_inv a → Forall (λ r, r ≠ Fault) (a_ops os a).1.
Proof.
  revert a. induction os as [|o os IH]; intros a Ha; [constructor|]. cbn.
  pose proof (a_op_no_fault o a Ha) as Hnf. pose proof (a_inv_op o a Ha) as Ha'.
  destruct (a_op o a) as [r a']. specialize (IH a' Ha').
  destruct (a_ops os a'). by constructor.
Qed.

(** *** Snapshots *)

(** The operations a call frame runs between taking a snapshot and reverting to
    it: no commit, and only rollbacks of inner snapshots. *)
Definition keeps (id : nat) (o : op K V E) : bool :=
  match o with
  | OCommit => false
  | ORollback j => bool_decide (id ≤ j)%nat
  | _ => true
  end.

Definition view (id : nat) (a : AMap K V) k : option (list (nat * V)) :=
  (λ x, rollback_hist id x.1) <$> ahist a !! k.

Lemma a_op_view id o a k :
  (id < anext a)%nat → keeps id o → a_inv a →
  view id (a_op o a).2 k = view id a k
  ∨ (view id a k = None ∧ ∃ v0, view id (a_op o a).2 k = Some [(0%nat, v0)]).
Proof.
  intros Hid Hk Ha. unfold view. destruct o as [k' s|k' f| |j| |k'|k'|k']; cbn; auto.
  - destruct (_ !! k') eqn:Hl; [by left|]. destruct s as [e|v]; [by left|]. cbn.
    destruct (decide (k' = k)) as [->|]; [|left; by rewrite lookup_insert_ne].
    right. rewrite Hl, lookup_insert_eq. split; [done|]. exists v. cbn.
    by rewrite decide_True by lia.
  - destruct (_ !! k') as [[h c]|] eqn:Hl; [|by left]. left.
    destruct (key_inv_head _ _ _ _ (ai_key a Ha _ _ _ Hl)) as (t & v & tl & ->). cbn.
    destruct (f v) as [[e|] v']; case_decide; try done; cbn;
      (destruct (decide (k' = k)) as [->|]; [|by rewrite lookup_insert_ne]);
      rewrite Hl, lookup_insert_eq; cbn; subst.
    + by rewrite !decide_False by lia.
    + by rewrite !decide_False by lia.
    + by rewrite (decide_False (P:=(anext a ≤ id)%nat)) by lia.
  - cbn in Hk. apply bool_decide_unpack in Hk. left. case_decide; [done|].
    case_decide; [done|]. cbn. rewrite lookup_fmap. destruct (_ !! k); [|done]. cbn.
    by rewrite rollback_hist_rollback.
  - done.
Qed.

Lemma a_op_bounds id o a :
  keeps id o → (afrozen a ≤ id < anext a)%nat →
  (afrozen (a_op o a).2 ≤ id < anext (a_op o a).2)%nat.
Proof.
  intros Hk Hid. destruct o as [k s|k f| |j| |k|k|k]; cbn in *; try done; try lia.
  - destruct (_ !! k); [done|]. by destruct s.
  - destruct (_ !! k) as [[[|[t v] h] c]|]; [done| |done]. cbn.
    destruct (f v) as [[e|] v']; by case_decide.
  - by repeat case_decide.
Qed.

Lemma a_ops_view id os a :
  (afrozen a ≤ id < anext a)%nat → Forall (λ o, keeps id o) os → a_inv a →
  (afrozen (a_ops os a).2 ≤ id < anext (a_ops os a).2)%nat
  ∧ ∀ k, view id (a_ops os a).2 k = view id a k
     ∨ (view id a k = None ∧ ∃ v0, view id (a_ops os a).2 k = Some [(0%nat, v0)]).
Proof.
  intros Hid Hk. revert a Hid. induction Hk as [|o os Ho Hk IH]; intros a Hid Ha; [by auto|].
  cbn. pose proof (λ k, a_op_view id o a k (proj2 Hid) Ho Ha) as Hv.
  pose proof (a_op_bounds id o a Ho Hid) as Hb. pose proof (a_inv_op o a Ha) as Ha'.
  destruct (a_op o a) as [r a']. cbn in *. specialize (IH a' Hb Ha').
  destruct (a_ops os a') as [rs a'']. cbn in *. destruct IH as [Hb2 Hv2]. split; [done|].
  intros k. specialize (Hv k). specialize (Hv2 k).
  destruct Hv as [Hv|(Hn & v0 & Hv)]; rewrite Hv in Hv2; [done|].
  right. split; [done|]. exists v0. by destruct Hv2 as [?|[? _]].
Qed.

(** What a key's history is after a rollback to the snapshot taken of [a]. *)
Definition restored (a a' : AMap K V) k : Prop :=
  match ahist a !! k with
  | Some (h, _) => ∃ c, ahist a' !! k = Some (h, c)
  | None => ahist a' !! k = None ∨ ∃ v0 c, ahist a' !! k = Some ([(0%nat, v0)], c)
  end.

Lemma head_rollback_inv next frozen h c :
  key_inv next frozen h c → rollback_hist next h = h.
Proof.
  intros Hk. destruct (key_inv_head _ _ _ _ Hk) as (t & v & tl & ->).
  eapply rollback_hist_head; [done|]. destruct Hk as [_ _ Hf _].
  by apply Forall_cons in Hf as [? _].
Qed.

Lemma a_rollback_restores a os :
  a_inv a → Forall (λ o, keeps (anext a) o) os →
  ∃ a', a_op (E:=E) (ORollback (anext a)) (a_ops os (a_op (E:=E) OSnapshot a).2).2 = (Val RUnit, a')
    ∧ ∀ k, restored a a' k.
Proof.
  intros Ha Hk. pose proof (a_inv_op OSnapshot a Ha) as Ha2. cbn [a_op snd] in *.
  set (a2 := mkAMap _ _ _ _) in *.
  destruct (a_ops_view (anext a) os a2) as [Hb Hv]; [|done..|].
  { pose proof (ai_next a Ha). cbn. lia. }
  set (a3 := (a_ops os a2).2) in *. rewrite !decide_False by lia. eexists. split; [done|].
  intros k. specialize (Hv k). unfold view in Hv. unfold restored. cbn [ahist].
  rewrite lookup_fmap. change (ahist a2) with (ahist a) in Hv.
  destruct (ahist a !! k) as [[h c]|] eqn:Hh.
  - pose proof (head_rollback_inv _ _ _ _ (ai_key a Ha _ _ _ Hh)) as Heq. cbn in Hv.
    rewrite Heq in Hv. destruct Hv as [Hv|[? _]]; [|done].
    destruct (ahist a3 !! k) as [[h' c']|]; [|done]. cbn in Hv. injection Hv as Hv.
    exists c'. unfold a_rollback_key. cbn. by rewrite Hv.
  - destruct (ahist a3 !! k) as [[h' c']|]; [|by left]. right. cbn in Hv.
    destruct Hv as [Hv|(_ & v0 & [= Hv])]; [done|]. exists v0, c'.
    unfold a_rollback_key. cbn. by rewrite Hv.
Qed.

Lemma current_rep m a k :
  hm_rep m a →
  (current (E:=E) k m).1 = Val (ahist a !! k ≫= λ x, snd <$> list.head x.1).
Proof.
  intros (_ & _ & _ & G & ps & Hi & Ha). unfold current.
  rewrite (read_record_spec _ _ _ _ _ (λ h _, snd <$> list.head h) Hi); [by rewrite Ha|].
  intros e hs c He. destruct (elem_rep_head _ _ _ _ He) as ([t v] & tl & ->).
  exists t, v. split; [apply list_elem_of_here|done].
Qed.

Lemma initial_rep m a k :
  hm_rep m a →
  (initial_value (E:=E) k m).1 = Val (ahist a !! k ≫= λ x, snd <$> last x.1).
Proof.
  intros (_ & _ & _ & G & ps & Hi & Ha). unfold initial_value.
  rewrite (read_record_spec _ _ _ _ _ (λ h _, snd <$> last h) Hi); [by rewrite Ha|].
  intros e hs c He. destruct (elem_rep_initial _ _ _ _ He) as (pre & v & ->).
  exists 0%nat, v. split; [set_solver|]. by rewrite fmap_last, last_snoc.
Qed.

Lemma committed_rep m a k :
  hm_rep m a →
  (committed_value (E:=E) k m).1 = Val (ahist a !! k ≫= λ x, Some x.2.2).
Proof.
  intros (_ & _ & _ & G & ps & Hi & Ha). unfold committed_value.
  rewrite (read_record_spec _ _ _ _ _ (λ _ c, Some c.2) Hi); [by rewrite Ha|].
  intros e hs [t v] He. exists t, v. split; [apply He|done].
Qed.

Lemma op_val_unit (o : op K V E) (c : M (HistoryMap K V) (HistoryMapError E) unit) m r m' :
  run_op o = (c ;; mret RUnit) → run_op o m = (Val r, m') → c m = (Val tt, m').
Proof.
  intros Ho Hr. rewrite Ho in Hr. unfold mbind, M_bind in Hr.
  destruct (c m) as [[[]|?|] m1]; cbn in Hr; [|done..]. by injection Hr as _ ->.
Qed.

End Invariant.

(** ** Properties *)
Section Properties.
Context {US : Usize} {K V E : Type} `{Countable K}.

(** C12: the map with its pointer-linked histories and recycled records behaves,
    on every sequence of operations that takes fewer snapshots than a [usize] can
    count, as the abstract map from keys to histories: every result (values read,
    snapshot ids, errors) is the same, and no operation dereferences a dead record
    or hits an [expect]. *)
Theorem history_map_refines (os : list (op K V E)) :
  Z.of_nat (ids_taken os) + 1 < 2 ^ usize_bits →
  (run_ops os HistoryMap_new).1 = (a_ops os a_new).1
  ∧ Forall (λ r, r ≠ Fault) (run_ops os HistoryMap_new).1.
Proof.
  intros Hid. destruct (run_ops_rep os HistoryMap_new a_new hm_rep_new a_inv_new)
    as (-> & _ & _ & _); [unfold has_ids; cbn; lia|].
  split; [done|]. apply a_ops_no_fault, a_inv_new.
Qed.

(** C31: reverting a call frame.  Take a snapshot of any reachable map, run any
    operations but a commit or a rollback below the snapshot, fewer snapshots in all
    than a [usize] can count, and roll back: the
    rollback succeeds, every key has the value it had when the snapshot was taken,
    and a key that was first read in between has its initial value. *)
Theorem history_map_rollback_restores (os1 os2 : list (op K V E)) id m1 m2 :
  (run_ops os1 HistoryMap_new).2 = m1 →
  snapshot (E:=E) m1 = (Val id, m2) →
  Forall (λ o, keeps id o) os2 →
  Z.of_nat (ids_taken os1 + ids_taken os2) + 2 < 2 ^ usize_bits →
  ∃ m4, rollback (E:=E) id (run_ops os2 m2).2 = (Val tt, m4)
    ∧ ∀ k, (∀ v, (current (E:=E) k m1).1 = Val (Some v) →
                 (current (E:=E) k m4).1 = Val (Some v))
         ∧ ((current (E:=E) k m1).1 = Val None →
            (current (E:=E) k m4).1 = (initial_value (E:=E) k m4).1).
Proof.
  intros <- Hs Hk Hid. destruct (run_ops_new os1) as (a1 & Hr1 & Ha1 & Hn1); [lia|].
  set (m1 := (run_ops os1 HistoryMap_new).2) in *.
  destruct (refines_op (E:=E) OSnapshot m1 a1 Hr1 Ha1) as [_ Hr2];
    [unfold has_ids; cbn; lia|].
  assert (m2 = (run_op (E:=E) OSnapshot m1).2 ∧ id = anext a1) as [-> ->].
  { cbn in Hs. injection Hs as <- <-. split; [done|apply Hr1]. }
  pose proof (a_inv_op (E:=E) OSnapshot a1 Ha1) as Ha2.
  destruct (run_ops_rep os2 _ _ Hr2 Ha2) as (_ & Hr3 & Ha3 & Hn3); [unfold has_ids; cbn; lia|].
  destruct (a_rollback_restores a1 os2 Ha1 Hk) as (a4 & Hok & Hres).
  destruct (refines_op (E:=E) (ORollback (anext a1)) _ _ Hr3 Ha3) as [Hok' Hr4].
  { unfold has_ids. rewrite Hn3. cbn. lia. }
  rewrite Hok in Hok', Hr4. set (m3 := (run_ops os2 _).2) in *.
  destruct (run_op (ORollback (anext a1)) m3) as [r m4] eqn:Hrun. cbn in Hok', Hr4. subst r.
  exists m4. split; [by eapply (op_val_unit (ORollback (anext a1)))|]. intros k. specialize (Hres k).
  unfold restored in Hres.
  rewrite (current_rep (E:=E) _ _ k Hr1), (current_rep (E:=E) _ _ k Hr4), (initial_rep (E:=E) _ _ k Hr4).
  destruct (ahist a1 !! k) as [[h c]|] eqn:Hh.
  - destruct Hres as [c' ->]. split; [by intros v ?|].
    destruct (key_inv_head _ _ _ _ (ai_key a1 Ha1 _ _ _ Hh)) as (t & v & tl & ->). done.
  - split; [by intros v ?|]. intros _. by destruct Hres as [->|(v0 & c & ->)].
Qed.

(** Committing changes no current and no initial value, makes every current
    value the committed one, and every snapshot taken before it can no longer be
    rolled back to. *)
Theorem history_map_commit (os : list (op K V E)) m :
  (run_ops os HistoryMap_new).2 = m → Z.of_nat (ids_taken os) + 2 < 2 ^ usize_bits →
  ∃ m', commit (E:=E) m = (Val tt, m')
    ∧ (∀ k, (current (E:=E) k m').1 = (current (E:=E) k m).1
         ∧ (initial_value (E:=E) k m').1 = (initial_value (E:=E) k m).1
         ∧ (committed_value (E:=E) k m').1 = (current (E:=E) k m).1)
    ∧ ∀ id, (id < next_snapshot_id m)%nat →
        rollback (E:=E) id m' = (Err RollbackBelowFrozen, m').
Proof.
  intros <- Hids. destruct (run_ops_new os) as (a & Hr & Ha & Hnx); [lia|].
  set (m := (run_ops os HistoryMap_new).2) in *.
  destruct (refines_op (E:=E) OCommit m a Hr Ha) as [Hok Hr']; [unfold has_ids; cbn; lia|].
  destruct (run_op OCommit m) as [r m'] eqn:Hrun. cbn in Hok, Hr'. subst r.
  exists m'. split; [by eapply (op_val_unit OCommit)|]. split.
  - intros k. rewrite !(current_rep (E:=E) _ _ k Hr'), (current_rep (E:=E) _ _ k Hr),
      (initial_rep (E:=E) _ _ k Hr'), (initial_rep (E:=E) _ _ k Hr), (committed_rep (E:=E) _ _ k Hr').
    cbn [ahist]. rewrite lookup_fmap. destruct (ahist a !! k) as [[h c]|] eqn:Hh; [|done].
    cbn. rewrite head_commit_hist, commit_hist_last.
    by destruct (key_inv_head _ _ _ _ (ai_key a Ha _ _ _ Hh)) as (t & v & tl & ->).
  - intros id Hid. unfold rollback. erewrite !bind_val by done.
    destruct Hr as (Hn & _), Hr' as (_ & Hf & _). cbn in Hf.
    rewrite bool_decide_true; [done|]. lia.
Qed.
End Properties.

(** ** Witnesses *)
Section Witnesses.
#[local] Existing Instance usize32.

Definition put_ (v : Z) : Z → option unit * Z := λ _, (None, v).

Definition ex_os1 : list (op Z Z unit) :=
  [OGetOrInsert 7 (inr 70); OUpdate 7 (put_ 71); OGetOrInsert 8 (inr 80)].
Definition ex_os2 : list (op Z Z unit) :=
  [OUpdate 7 (put_ 72); OSnapshot; OUpdate 8 (put_ 81); ORollback 2;
   OGetOrInsert 9 (inr 90); OUpdate 9 (put_ 91); OUpdate 8 (put_ 82)].
Definition ex_m1 : HistoryMap Z Z := (run_ops ex_os1 HistoryMap_new).2.
Definition ex_m2 : HistoryMap Z Z := (snapshot (E:=unit) ex_m1).2.

Lemma history_map_refines_witness :
  (run_ops ex_os2 HistoryMap_new).1 = (a_ops ex_os2 a_new).1
  ∧ Forall (λ r, r ≠ Fault) (run_ops ex_os2 HistoryMap_new).1.
Proof. apply (history_map_refines ex_os2). reflexivity. Defined.

Lemma history_map_rollback_restores_witness :
  ∃ m4, rollback (E:=unit) 1 (run_ops ex_os2 ex_m2).2 = (Val tt, m4)
    ∧ (current (E:=unit) 7 m4).1 = Val (Some 71) ∧ (current (E:=unit) 8 m4).1 = Val (Some 80)
    ∧ (current (E:=unit) 7 (run_ops ex_os2 ex_m2).2).1 = Val (Some 72).
Proof.
  destruct (history_map_rollback_restores ex_os1 ex_os2 1 ex_m1 ex_m2) as (m4 & Hr & Hm4).
  - reflexivity.
  - vm_compute. reflexivity.
  - repeat (constructor; [vm_compute; exact I|]). constructor.
  - reflexivity.
  - exists m4. split; [exact Hr|]. split; [|split].
    + apply (proj1 (Hm4 7)). vm_compute. reflexivity.
    + apply (proj1 (Hm4 8)). vm_compute. reflexivity.
    + vm_compute. reflexivity.
Defined.

Lemma history_map_commit_witness :
  ∃ m', commit (E:=unit) ex_m1 = (Val tt, m')
    ∧ (committed_value (E:=unit) 7 m').1 = Val (Some 71)
    ∧ rollback (E:=unit) 0 m' = (Err RollbackBelowFrozen, m').
Proof.
  destruct (history_map_commit ex_os1 ex_m1) as (m' & Hc & Hk & Hr); [reflexivity..|].
  exists m'. split; [exact Hc|]. split.
  - destruct (Hk 7) as (_ & _ & ->). vm_compute. reflexivity.
  - apply Hr. vm_compute. lia.
Defined.
End Witnesses.
