(* ===== verification/U256.v ===== *)
(** * 256-bit words

    The arithmetic of the EVM is done by the third-party crate [ruint]; its
    operations are the fields of the class [Ruint] and what its documentation
    promises of them are the fields of [RuintSpec].  [Uint] values are integers
    [0 <= x < 2^256] whose four 64-bit limbs are [limbs x].

    On top of them this file models
    - [zk_ee/src/utils/integer_utils.rs]: conversions between words, addresses
      and machine integers;
    - [evm_interpreter/src/u256.rs], [evm_interpreter/src/i256.rs] and
      [bytereverse_u256] of [evm_interpreter/src/utils.rs]: modular
      multiplication, base-2 logarithm, two's complement arithmetic and byte
      order;
    and shows that they compute the mathematical functions the EVM prescribes. *)

From S2P Require Import Prelude.

(** ** Limbs *)

Fixpoint to_limbs (n : nat) (x : Z) : list Z :=
  match n with
  | O => []
  | S n' => x mod 2 ^ 64 :: to_limbs n' (x / 2 ^ 64)
  end.

Fixpoint of_limbs (l : list Z) : Z :=
  match l with
  | [] => 0
  | x :: l' => x + 2 ^ 64 * of_limbs l'
  end.

Definition limbs (x : Z) : list Z := to_limbs 4 x.
Definition limb (x : Z) (i : nat) : Z := (x / 2 ^ (64 * Z.of_nat i)) mod 2 ^ 64.

(** ** The third-party arithmetic *)

(** The operations of [ruint::Uint<256, 4>] the sources call.  [None] is a
    panic.  [addmul] and [algo_div] are [ruint::algorithms::{addmul, div}]: they
    work in place on limb slices, the second leaving the quotient in the
    numerator and the remainder in the divisor. *)
Class Ruint : Type := {
  u_add : Z → Z → Z;
  u_sub : Z → Z → Z;
  u_mul : Z → Z → Z;
  u_neg : Z → Z;
  u_overflowing_sub : Z → Z → Z * bool;
  u_div : Z → Z → option Z;
  u_div_rem : Z → Z → option (Z * Z);
  u_checked_rem : Z → Z → option Z;
  u_add_mod : Z → Z → Z → Z;
  u_pow : Z → Z → Z;
  u_and : Z → Z → Z;
  u_or : Z → Z → Z;
  u_xor : Z → Z → Z;
  u_not : Z → Z;
  u_bit : Z → Z → bool;
  u_byte : Z → Z → Z;
  u_shl : Z → Z → Z;
  u_shr : Z → Z → Z;
  u_arithmetic_shr : Z → Z → Z;
  algo_addmul : list Z → list Z → list Z → list Z * bool;
  algo_div : list Z → list Z → list Z * list Z;
  u_checked_add : Z → Z → option Z;
  u_checked_sub : Z → Z → option Z;
  u_checked_mul : Z → Z → option Z;
  u_div_ceil : Z → Z → option Z;
  u_try_from_be_slice : list Z → option Z;
  b160_try_from_be_slice : list Z → option Z;
  u_try_into_u32 : Z → option Z;
  u_saturating_add : Z → Z → Z;
  u_saturating_sub : Z → Z → Z;
  u_wrapping_div : Z → Z → option Z;
  u_try_into_u64 : Z → option Z
}.

(** Two's complement. *)
Definition signed (x : Z) : Z := if x <? 2 ^ 255 then x else x - 2 ^ 256.
Definition unsigned (z : Z) : Z := z mod 2 ^ 256.

(** What the documentation of [ruint] says of them. *)
Class RuintSpec {R : Ruint} : Prop := {
  u_add_spec a b : is_u256 a → is_u256 b → u_add a b = (a + b) mod 2 ^ 256;
  u_sub_spec a b : is_u256 a → is_u256 b → u_sub a b = (a - b) mod 2 ^ 256;
  u_mul_spec a b : is_u256 a → is_u256 b → u_mul a b = (a * b) mod 2 ^ 256;
  u_neg_spec a : is_u256 a → u_neg a = (- a) mod 2 ^ 256;
  u_overflowing_sub_spec a b : is_u256 a → is_u256 b →
    u_overflowing_sub a b = ((a - b) mod 2 ^ 256, a <? b);
  u_div_spec a b : is_u256 a → is_u256 b → b ≠ 0 → u_div a b = Some (a / b);
  u_div_rem_spec a b : is_u256 a → is_u256 b → b ≠ 0 →
    u_div_rem a b = Some (a / b, a mod b);
  u_checked_rem_spec a b : is_u256 a → is_u256 b →
    u_checked_rem a b = if b =? 0 then None else Some (a mod b);
  u_add_mod_spec a b m : is_u256 a → is_u256 b → is_u256 m →
    u_add_mod a b m = if m =? 0 then 0 else (a + b) mod m;
  u_pow_spec a b : is_u256 a → is_u256 b → u_pow a b = a ^ b mod 2 ^ 256;
  u_and_spec a b : is_u256 a → is_u256 b → u_and a b = Z.land a b;
  u_or_spec a b : is_u256 a → is_u256 b → u_or a b = Z.lor a b;
  u_xor_spec a b : is_u256 a → is_u256 b → u_xor a b = Z.lxor a b;
  u_not_spec a : is_u256 a → u_not a = 2 ^ 256 - 1 - a;
  u_bit_spec a i : is_u256 a → 0 ≤ i → u_bit a i = Z.testbit a i;
  u_byte_spec a i : is_u256 a → 0 ≤ i < 32 → u_byte a i = (a / 256 ^ i) mod 256;
  u_shl_spec a s : is_u256 a → 0 ≤ s → u_shl a s = (a * 2 ^ s) mod 2 ^ 256;
  u_shr_spec a s : is_u256 a → 0 ≤ s → u_shr a s = a / 2 ^ s;
  u_arithmetic_shr_spec a s : is_u256 a → 0 ≤ s →
    u_arithmetic_shr a s = unsigned (signed a / 2 ^ s);
  algo_addmul_spec acc a b : Forall is_u64 acc → Forall is_u64 a → Forall is_u64 b →
    Z.of_nat (length a + length b) ≤ Z.of_nat (length acc) →
    algo_addmul acc a b =
    (to_limbs (length acc) (of_limbs acc + of_limbs a * of_limbs b),
     2 ^ (64 * Z.of_nat (length acc)) <=? of_limbs acc + of_limbs a * of_limbs b);
  algo_div_spec n d : Forall is_u64 n → Forall is_u64 d → of_limbs d ≠ 0 →
    algo_div n d = (to_limbs (length n) (of_limbs n / of_limbs d),
                    to_limbs (length d) (of_limbs n mod of_limbs d));
  u_checked_add_spec a b : is_u256 a → is_u256 b → u_checked_add a b = checked_add 256 a b;
  u_checked_sub_spec a b : is_u256 a → is_u256 b → u_checked_sub a b = checked_sub 256 a b;
  u_checked_mul_spec a b : is_u256 a → is_u256 b → u_checked_mul a b = checked_mul 256 a b;
  u_div_ceil_spec a b : is_u256 a → is_u256 b → b ≠ 0 → u_div_ceil a b = Some ((a + b - 1) / b);
  u_try_from_be_slice_spec l : Forall is_u8 l → (length l ≤ 32)%nat →
    u_try_from_be_slice l = Some (of_be_bytes l);
  u_try_from_be_slice_large l : Forall is_u8 l → 2 ^ 256 ≤ of_be_bytes l →
    u_try_from_be_slice l = None;
  b160_try_from_be_slice_spec l : Forall is_u8 l → length l = 20%nat →
    b160_try_from_be_slice l = Some (of_be_bytes l);
  u_try_into_u32_spec a : is_u256 a → u_try_into_u32 a = checked 32 a;
  u_saturating_add_spec a b : is_u256 a → is_u256 b → u_saturating_add a b = saturating_add 256 a b;
  u_saturating_sub_spec a b : is_u256 a → is_u256 b → u_saturating_sub a b = saturating_sub a b;
  u_wrapping_div_spec a b : is_u256 a → is_u256 b → b ≠ 0 → u_wrapping_div a b = Some (a / b);
  u_try_into_u64_spec a : is_u256 a → u_try_into_u64 a = checked 64 a
}.

(** ** [integer_utils.rs] *)

Definition u256_to_u64_saturated (src : Z) : Z :=
  if negb (limb src 3 =? 0) || negb (limb src 2 =? 0) || negb (limb src 1 =? 0)
  then umax 64 else limb src 0.

Definition u256_try_to_u64 (src : Z) : option Z :=
  if negb (limb src 3 =? 0) || negb (limb src 2 =? 0) || negb (limb src 1 =? 0)
  then None else Some (limb src 0).

Definition u256_try_to_usize_capped (CAP : Z) (src : Z) : option Z :=
  if negb (limb src 3 =? 0) || negb (limb src 2 =? 0) || negb (limb src 1 =? 0)
     || (CAP <=? limb src 0)
  then None else Some (limb src 0).

Definition u256_try_to_usize `{Usize} (src : Z) : option Z :=
  if negb (limb src 3 =? 0) || negb (limb src 2 =? 0) || negb (limb src 1 =? 0)
  then None else checked usize_bits (limb src 0).

Definition u256_to_b160 (src : Z) : Z :=
  of_limbs [limb src 0; limb src 1; Z.land (limb src 2) 0x00000000ffffffff].

Definition b160_to_u256 (src : Z) : Z :=
  of_limbs [limb src 0; limb src 1; limb src 2; 0].

Definition u256_try_to_b160 (src : Z) : option Z :=
  if negb (limb src 3 =? 0) || (Z.shiftl 1 32 <=? limb src 2) then None
  else Some (of_limbs [limb src 0; limb src 1; limb src 2]).

(** The assertion is a panic. *)
Definition u256_to_b160_checked (src : Z) : option Z :=
  if (limb src 3 =? 0) && (limb src 2 <? Z.shiftl 1 32)
  then Some (of_limbs [limb src 0; limb src 1; limb src 2]) else None.

(** ** [u256.rs] and [i256.rs] *)
Section Words.
Context {R : Ruint}.

Definition mul_mod (this other modulus : Z) : Z :=
  if modulus =? 0 then 0
  else
    let product := repeat 0 8 in
    let '(product, _overflow) := algo_addmul product (limbs this) (limbs other) in
    let '(_quotient, modulus) := algo_div product (limbs modulus) in
    of_limbs modulus.

(** [u64::leading_zeros]. *)
Definition leading_zeros64 (x : Z) : Z := if x =? 0 then 64 else 63 - Z.log2 x.

(** The loop of [log2floor], from the most significant limb. *)
Fixpoint log2floor_loop (value : Z) (idx : list nat) (l : Z) : Z :=
  match idx with
  | [] => l
  | i :: idx' =>
      if limb value i =? 0 then log2floor_loop value idx' (l - 64)
      else let l := l - leading_zeros64 (limb value i) in
           if l =? 0 then l else l - 1
  end.

(** [None] is the failed assertion. *)
Definition log2floor (value : Z) : option Z :=
  if value =? 0 then None else Some (log2floor_loop value [3; 2; 1; 0]%nat 256).

Inductive Sign : Type := Plus | Minus | Zero.

Definition sign_eqb (a b : Sign) : bool :=
  match a, b with
  | Plus, Plus | Minus, Minus | Zero, Zero => true
  | _, _ => false
  end.

Definition two_compl (op : Z) : Z := u_neg op.

(** Returns the sign and what is left in [val]. *)
Definition i256_sign (DO_TWO_COMPL : bool) (val : Z) : Sign * Z :=
  if Z.shiftr (limb val 3) 63 =? 0 then
    if val =? 0 then (Zero, val) else (Plus, val)
  else (Minus, if DO_TWO_COMPL then two_compl val else val).

Definition i256_cmp (first second : Z) : comparison :=
  match u_bit first 255, u_bit second 255 with
  | true, false => Lt
  | false, true => Gt
  | _, _ =>
      let '(tmp, uf) := u_overflowing_sub first second in
      if uf then Lt else if tmp =? 0 then Eq else Gt
  end.

Definition MIN_NEGATIVE_VALUE_REPR : list Z := [0; 0; 0; 0x8000000000000000].

(** Both return what is left in the two operands: the mangled dividend, and the
    quotient (remainder) in place of the divisor. *)
Definition i256_div (dividend divisor_or_quotient : Z) : option (Z * Z) :=
  let '(divisor_sign, divisor) := i256_sign true divisor_or_quotient in
  if sign_eqb divisor_sign Zero then Some (dividend, 0)
  else
    let '(dividend_sign, dividend) := i256_sign true dividend in
    if sign_eqb dividend_sign Minus
       && bool_decide (limbs dividend = MIN_NEGATIVE_VALUE_REPR) && (divisor =? 1)
    then Some (dividend, two_compl (of_limbs [0; 0; 0; 0x8000000000000000]))
    else
      '(quotient, _) ← u_div_rem dividend divisor;
      if quotient =? 0 then Some (dividend, 0)
      else match dividend_sign, divisor_sign with
           | Zero, Plus | Plus, Zero | Zero, Zero | Plus, Plus | Minus, Minus =>
               Some (dividend, quotient)
           | Zero, Minus | Plus, Minus | Minus, Zero | Minus, Plus =>
               Some (dividend, fst (u_overflowing_sub 0 quotient))
           end.

Definition i256_mod (dividend divisor_or_remainder : Z) : option (Z * Z) :=
  let '(dividend_sign, dividend) := i256_sign true dividend in
  if sign_eqb dividend_sign Zero then Some (dividend, 0)
  else
    let '(_, divisor) := i256_sign true divisor_or_remainder in
    '(_, r) ← u_div_rem dividend divisor;
    if r =? 0 then Some (dividend, r)
    else if sign_eqb dividend_sign Minus then Some (dividend, two_compl r)
    else Some (dividend, r).
End Words.

(** [u64::to_be] on a little-endian machine. *)
Definition to_be64 (x : Z) : Z := of_be_bytes (le_bytes 8 x).

Definition bytereverse_u256 (value : Z) : Z :=
  of_limbs (map to_be64 [limb value 3; limb value 2; limb value 1; limb value 0]).

(** ** A reference implementation of the third-party operations *)
Definition ruint_ref : Ruint := {|
  u_add a b := (a + b) mod 2 ^ 256;
  u_sub a b := (a - b) mod 2 ^ 256;
  u_mul a b := (a * b) mod 2 ^ 256;
  u_neg a := (- a) mod 2 ^ 256;
  u_overflowing_sub a b := ((a - b) mod 2 ^ 256, a <? b);
  u_div a b := if b =? 0 then None else Some (a / b);
  u_div_rem a b := if b =? 0 then None else Some (a / b, a mod b);
  u_checked_rem a b := if b =? 0 then None else Some (a mod b);
  u_add_mod a b m := if m =? 0 then 0 else (a + b) mod m;
  u_pow a b := a ^ b mod 2 ^ 256;
  u_and := Z.land;
  u_or := Z.lor;
  u_xor := Z.lxor;
  u_not a := 2 ^ 256 - 1 - a;
  u_bit := Z.testbit;
  u_byte a i := (a / 256 ^ i) mod 256;
  u_shl a s := (a * 2 ^ s) mod 2 ^ 256;
  u_shr a s := a / 2 ^ s;
  u_arithmetic_shr a s := unsigned (signed a / 2 ^ s);
  algo_addmul acc a b :=
    (to_limbs (length acc) (of_limbs acc + of_limbs a * of_limbs b),
     2 ^ (64 * Z.of_nat (length acc)) <=? of_limbs acc + of_limbs a * of_limbs b);
  algo_div n d := (to_limbs (length n) (of_limbs n / of_limbs d),
                   to_limbs (length d) (of_limbs n mod of_limbs d));
  u_checked_add := checked_add 256;
  u_checked_sub := checked_sub 256;
  u_checked_mul := checked_mul 256;
  u_div_ceil a b := if b =? 0 then None else Some ((a + b - 1) / b);
  u_try_from_be_slice l := checked 256 (of_be_bytes l);
  b160_try_from_be_slice l := checked 160 (of_be_bytes l);
  u_try_into_u32 := checked 32;
  u_saturating_add := saturating_add 256;
  u_saturating_sub := saturating_sub;
  u_wrapping_div a b := if b =? 0 then None else Some (a / b);
  u_try_into_u64 := checked 64
|}.

Lemma ruint_ref_spec : RuintSpec (R:=ruint_ref).
Proof.
  split; intros; cbn; try done; try (by rewrite (proj2 (Z.eqb_neq _ _))).
  - apply checked_in. destruct (of_be_bytes_bound l) as [Hl Hu]; [done|]. split; [done|].
    eapply Z.lt_le_trans; [exact Hu|]. apply Z.pow_le_mono_r; lia.
  - apply checked_None. unfold in_width. lia.
  - apply checked_in. pose proof (of_be_bytes_bound l) as Hl.
    replace (length l) with 20%nat in Hl by done. by apply Hl.
Qed.

(** ** Limbs and bytes *)

Lemma length_to_limbs n x : length (to_limbs n x) = n.
Proof. revert x. induction n as [|n IH]; intros x; cbn; [done|]. by rewrite IH. Qed.

Lemma to_limbs_u64 n x : Forall is_u64 (to_limbs n x).
Proof.
  revert x. induction n as [|n IH]; intros x; cbn; constructor; [|done].
  apply Z.mod_pos_bound. lia.
Qed.

Lemma of_limbs_to_limbs n x :
  0 ≤ x → of_limbs (to_limbs n x) = x mod 2 ^ (64 * Z.of_nat n).
Proof.
  revert x. induction n as [|n IH]; intros x Hx; cbn [to_limbs of_limbs].
  - by rewrite Z.mod_1_r.
  - rewrite IH by (apply Z.div_pos; lia).
    replace (64 * Z.of_nat (S n)) with (64 + 64 * Z.of_nat n) by lia.
    rewrite Z.pow_add_r, Z.rem_mul_r by lia. lia.
Qed.

Lemma of_limbs_limbs x : is_u256 x → of_limbs (limbs x) = x.
Proof.
  intros Hx. unfold limbs. rewrite of_limbs_to_limbs by apply Hx.
  apply Z.mod_small. exact Hx.
Qed.

Lemma limb_range x i : 0 ≤ limb x i < 2 ^ 64.
Proof. apply Z.mod_pos_bound. lia. Qed.

(** A word is the sum of its limbs. *)
Lemma limbs_sum x :
  is_u256 x →
  x = limb x 0 + 2 ^ 64 * (limb x 1 + 2 ^ 64 * (limb x 2 + 2 ^ 64 * limb x 3)).
Proof.
  intros Hx. rewrite <- (of_limbs_limbs x Hx) at 1. unfold limbs, limb.
  cbn [to_limbs of_limbs]. change (64 * Z.of_nat 0) with 0. change (64 * Z.of_nat 1) with 64.
  change (64 * Z.of_nat 2) with (64 + 64). change (64 * Z.of_nat 3) with (64 + 64 + 64).
  rewrite !Z.pow_add_r, <- !Z.div_div, Z.div_1_r by lia. lia.
Qed.

Lemma limb_high_zero x :
  is_u256 x →
  negb (limb x 3 =? 0) || negb (limb x 2 =? 0) || negb (limb x 1 =? 0) = (2 ^ 64 <=? x).
Proof.
  intros Hx. pose proof (limbs_sum x Hx). pose proof (limb_range x 0).
  pose proof (limb_range x 1). pose proof (limb_range x 2). pose proof (limb_range x 3).
  destruct (Z.eqb_spec (limb x 3) 0), (Z.eqb_spec (limb x 2) 0), (Z.eqb_spec (limb x 1) 0),
    (Z.leb_spec (2 ^ 64) x); cbn; try done; exfalso; nia.
Qed.

Lemma limb_0_small x : is_u256 x → x < 2 ^ 64 → limb x 0 = x.
Proof.
  intros [Hx _] Hs. unfold limb. change (64 * Z.of_nat 0) with 0.
  rewrite Z.div_1_r. by apply Z.mod_small.
Qed.

(** ** Conversions *)

Lemma u256_to_u64_saturated_spec x :
  is_u256 x → u256_to_u64_saturated x = Z.min x (2 ^ 64 - 1).
Proof.
  intros Hx. unfold u256_to_u64_saturated. rewrite limb_high_zero by done.
  destruct (Z.leb_spec (2 ^ 64) x); [unfold umax; lia|]. rewrite limb_0_small by done. lia.
Qed.

Lemma u256_try_to_u64_spec x : is_u256 x → u256_try_to_u64 x = checked 64 x.
Proof.
  intros Hx. unfold u256_try_to_u64, checked. rewrite limb_high_zero by done.
  destruct Hx as [Hx Hx'].
  destruct (Z.leb_spec (2 ^ 64) x), (Z.leb_spec 0 x), (Z.ltb_spec x (2 ^ 64)); cbn; try lia;
    try done. by rewrite limb_0_small.
Qed.

Lemma u256_try_to_usize_spec `{Usize} x : is_u256 x → u256_try_to_usize x = checked usize_bits x.
Proof.
  intros Hx. unfold u256_try_to_usize. rewrite limb_high_zero by done.
  destruct (Z.leb_spec (2 ^ 64) x) as [Hb|Hb]; [|by rewrite limb_0_small].
  symmetry. apply checked_None. intros [_ Hw].
  destruct usize_cases as [Hu|Hu]; rewrite Hu in Hw; lia.
Qed.

Lemma u256_try_to_usize_capped_spec cap x :
  is_u256 x → 0 ≤ cap ≤ 2 ^ 64 →
  u256_try_to_usize_capped cap x = if x <? cap then Some x else None.
Proof.
  intros Hx Hc. unfold u256_try_to_usize_capped. rewrite limb_high_zero by done.
  destruct (Z.leb_spec (2 ^ 64) x) as [Hb|Hb]; cbn.
  - destruct (Z.ltb_spec x cap); [lia|done].
  - rewrite limb_0_small by done. by destruct (Z.leb_spec cap x), (Z.ltb_spec x cap); try lia.
Qed.

Lemma limb_b160 x : 0 ≤ x < 2 ^ 192 →
  limb x 0 + 2 ^ 64 * (limb x 1 + 2 ^ 64 * limb x 2) = x.
Proof.
  intros Hx. assert (is_u256 x) as Hu by (split; lia). pose proof (limbs_sum x Hu) as Hs.
  assert (limb x 3 = 0) as H3.
  { unfold limb. change (64 * Z.of_nat 3) with 192. by rewrite Z.div_small. }
  rewrite H3 in Hs. lia.
Qed.

Lemma u256_to_b160_spec x : is_u256 x → u256_to_b160 x = x mod 2 ^ 160.
Proof.
  intros Hx. unfold u256_to_b160. cbn [of_limbs].
  replace (Z.land (limb x 2) 4294967295) with (limb x 2 mod 2 ^ 32).
  2:{ change 4294967295 with (Z.ones 32). by rewrite Z.land_ones by lia. }
  rewrite (limbs_sum x Hx) at 4.
  set (a := limb x 0). set (b := limb x 1). set (c := limb x 2). set (d := limb x 3).
  pose proof (limb_range x 0) as Ha. pose proof (limb_range x 1) as Hb. fold a in Ha. fold b in Hb.
  rewrite (Z.div_mod c (2 ^ 32)) at 2 by lia.
  pose proof (Z.mod_pos_bound c (2 ^ 32) ltac:(lia)) as Hc.
  apply Z.mod_unique with (q := c / 2 ^ 32 + 2 ^ 32 * d); [lia|]. lia.
Qed.

Lemma u256_to_b160_checked_spec x : is_u256 x → u256_to_b160_checked x = checked 160 x.
Proof.
  intros Hx. unfold u256_to_b160_checked, checked. cbn [of_limbs]. pose proof (limbs_sum x Hx) as Hs.
  pose proof (limb_range x 0). pose proof (limb_range x 1). pose proof (limb_range x 2).
  pose proof (limb_range x 3). change (Z.shiftl 1 32) with (2 ^ 32).
  destruct (Z.eqb_spec (limb x 3) 0) as [H3|H3], (Z.ltb_spec (limb x 2) (2 ^ 32)), (Z.leb_spec 0 x),
    (Z.ltb_spec x (2 ^ 160)); cbn [andb]; try lia; try done. f_equal. lia.
Qed.

Lemma b160_to_u256_spec a : in_width 160 a → b160_to_u256 a = a.
Proof.
  intros Ha. unfold b160_to_u256. cbn [of_limbs].
  rewrite <- (limb_b160 a) at 4 by (unfold in_width in Ha; lia). lia.
Qed.

(** *** Byte order *)

Lemma le_bytes_app n m x :
  le_bytes (n + m) x = le_bytes n x ++ le_bytes m (x / 2 ^ (8 * Z.of_nat n)).
Proof.
  revert x. induction n as [|n IH]; intros x; [cbn; by rewrite Z.div_1_r|].
  cbn [le_bytes Nat.add app]. rewrite IH. do 3 f_equal.
  rewrite pow_256_S, Z.div_div by lia. done.
Qed.

Lemma le_bytes_mod n x : le_bytes n (x mod 2 ^ (8 * Z.of_nat n)) = le_bytes n x.
Proof.
  revert x. induction n as [|n IH]; intros x; [done|]. cbn [le_bytes].
  rewrite pow_256_S, Z.rem_mul_r by lia. f_equal.
  - rewrite Z.mul_comm, Z.mod_add, Z.mod_mod; lia.
  - rewrite Z.mul_comm, Z.div_add by lia.
    rewrite (Z.div_small (x mod 256)) by (apply Z.mod_pos_bound; lia). apply IH.
Qed.

Lemma of_be_bytes_app l1 l2 :
  of_be_bytes (l1 ++ l2) = of_be_bytes l2 + 2 ^ (8 * Z.of_nat (length l2)) * of_be_bytes l1.
Proof. unfold of_be_bytes. by rewrite reverse_app, of_le_bytes_app, length_reverse. Qed.

(** Swapping the limbs and the bytes of each limb reverses the bytes of the word. *)
Lemma bytereverse_u256_spec x : bytereverse_u256 x = of_be_bytes (le_bytes 32 x).
Proof.
  unfold bytereverse_u256. cbn [map of_limbs].
  assert (∀ i : nat, le_bytes 8 (limb x i) = le_bytes 8 (x / 2 ^ (64 * Z.of_nat i))) as Hl.
  { intros i. unfold limb. change (2 ^ 64) with (2 ^ (8 * Z.of_nat 8)). apply le_bytes_mod. }
  unfold to_be64. rewrite !Hl. change 32%nat with (8 + (8 + (8 + 8)))%nat.
  rewrite !(le_bytes_app 8), !of_be_bytes_app, !length_app, !length_le_bytes, !Z.div_div by lia.
  rewrite Z.div_1_r, <- !Z.pow_add_r by lia.
  change (8 * Z.of_nat 8) with 64. change (8 * Z.of_nat (8 + 8)) with 128.
  change (8 * Z.of_nat (8 + (8 + 8))) with 192. change (64 + (64 + 64)) with 192.
  change (64 + 64) with 128. change (64 * Z.of_nat 1) with 64.
  change (64 * Z.of_nat 2) with 128. change (64 * Z.of_nat 3) with 192. lia.
Qed.

(** ** Modular multiplication and logarithm *)
Section WordSpecs.
Context {R : Ruint} {RS : RuintSpec}.

Lemma mul_mod_spec a b m :
  is_u256 a → is_u256 b → is_u256 m →
  mul_mod a b m = if m =? 0 then 0 else (a * b) mod m.
Proof.
  intros Ha Hb Hm. unfold mul_mod. destruct (Z.eqb_spec m 0) as [|Hm0]; [done|].
  rewrite algo_addmul_spec; [|repeat constructor; lia|apply to_limbs_u64..|done].
  change (length (repeat 0 8)) with 8%nat. change (of_limbs (repeat 0 8)) with 0.
  rewrite !of_limbs_limbs, Z.add_0_l by done.
  rewrite algo_div_spec; [|apply to_limbs_u64..|by rewrite of_limbs_limbs].
  unfold limbs at 1. rewrite (length_to_limbs 4 m), (of_limbs_limbs m) by done.
  unfold in_width in *.
  rewrite (of_limbs_to_limbs 8) by nia.
  rewrite (Z.mod_small (a * b)) by nia.
  pose proof (Z.mod_pos_bound (a * b) m ltac:(lia)).
  rewrite of_limbs_to_limbs by lia. apply Z.mod_small. lia.
Qed.

Lemma log2_high h k lo :
  0 < h → 0 ≤ k → 0 ≤ lo < 2 ^ k → Z.log2 (h * 2 ^ k + lo) = k + Z.log2 h.
Proof.
  intros Hh Hk Hlo. pose proof (Z.log2_spec h Hh) as [H1 H2].
  pose proof (Z.log2_nonneg h). apply Z.log2_unique; [lia|].
  replace (Z.succ (k + Z.log2 h)) with (k + Z.succ (Z.log2 h)) by lia.
  rewrite !Z.pow_add_r by lia. nia.
Qed.

Lemma log2floor_step value i l k :
  limb value i ≠ 0 → k + 64 = l → 0 ≤ k →
  (let l' := l - leading_zeros64 (limb value i) in if l' =? 0 then l' else l' - 1)
  = k + Z.log2 (limb value i).
Proof.
  intros Hn <- Hk. unfold leading_zeros64. rewrite (proj2 (Z.eqb_neq _ _) Hn).
  pose proof (Z.log2_nonneg (limb value i)). cbv zeta.
  match goal with |- context [?x =? 0] => destruct (Z.eqb_spec x 0) end; lia.
Qed.

Lemma log2floor_spec x : is_u256 x → log2floor x = if x =? 0 then None else Some (Z.log2 x).
Proof.
  intros Hx. unfold log2floor. destruct (Z.eqb_spec x 0) as [|Hx0]; [done|]. f_equal.
  pose proof (limbs_sum x Hx) as Hs. pose proof (limb_range x 0) as H0.
  pose proof (limb_range x 1) as H1. pose proof (limb_range x 2) as H2.
  pose proof (limb_range x 3) as H3. cbn [log2floor_loop].
  destruct (Z.eqb_spec (limb x 3) 0) as [E3|E3].
  2:{ rewrite (log2floor_step x 3 _ 192) by done. rewrite Hs at 2.
      rewrite <- (log2_high (limb x 3) 192
        (limb x 0 + 2 ^ 64 * (limb x 1 + 2 ^ 64 * limb x 2))) by lia. f_equal. lia. }
  destruct (Z.eqb_spec (limb x 2) 0) as [E2|E2].
  2:{ rewrite (log2floor_step x 2 _ 128) by done. rewrite Hs at 2. rewrite E3.
      rewrite <- (log2_high (limb x 2) 128 (limb x 0 + 2 ^ 64 * limb x 1)) by lia.
      f_equal. lia. }
  destruct (Z.eqb_spec (limb x 1) 0) as [E1|E1].
  2:{ rewrite (log2floor_step x 1 _ 64) by done. rewrite Hs at 2. rewrite E3, E2.
      rewrite <- (log2_high (limb x 1) 64 (limb x 0)) by lia. f_equal. lia. }
  destruct (Z.eqb_spec (limb x 0) 0) as [E0|E0]; [lia|].
  rewrite (log2floor_step x 0 _ 0) by done. rewrite Hs at 2. rewrite E3, E2, E1.
  rewrite Z.add_0_l. f_equal. lia.
Qed.
End WordSpecs.

(** ** Two's complement arithmetic *)
Section SignedSpecs.
Context {R : Ruint} {RS : RuintSpec}.

Lemma signed_range x : is_u256 x → - 2 ^ 255 ≤ signed x < 2 ^ 255.
Proof. unfold signed, in_width. intros Hx. destruct (Z.ltb_spec x (2 ^ 255)); lia. Qed.

Lemma unsigned_signed x : is_u256 x → unsigned (signed x) = x.
Proof.
  unfold signed, unsigned, in_width. intros Hx. destruct (Z.ltb_spec x (2 ^ 255)).
  - apply Z.mod_small. lia.
  - symmetry. apply Z.mod_unique with (q := -1); lia.
Qed.

Lemma signed_unsigned z : - 2 ^ 255 ≤ z < 2 ^ 255 → signed (unsigned z) = z.
Proof.
  unfold signed, unsigned. intros Hz. destruct (Z.ltb_spec z 0).
  - rewrite <- (Z.mod_unique z (2 ^ 256) (-1) (z + 2 ^ 256)) by lia.
    destruct (Z.ltb_spec (z + 2 ^ 256) (2 ^ 255)); lia.
  - rewrite Z.mod_small by lia. destruct (Z.ltb_spec z (2 ^ 255)); lia.
Qed.

Lemma unsigned_u256 z : is_u256 (unsigned z).
Proof. apply Z.mod_pos_bound. lia. Qed.

(** The top bit of the top limb is the sign. *)
Lemma top_limb_sign x : is_u256 x → (Z.shiftr (limb x 3) 63 =? 0) = (x <? 2 ^ 255).
Proof.
  intros Hx. rewrite Z.shiftr_div_pow2 by lia. unfold limb.
  change (64 * Z.of_nat 3) with 192. unfold in_width in Hx.
  rewrite (Z.mod_small (x / 2 ^ 192)) by (split; [apply Z.div_pos|apply Z.div_lt_upper_bound]; lia).
  rewrite Z.div_div by lia. change (2 ^ 192 * 2 ^ 63) with (2 ^ 255).
  destruct (Z.ltb_spec x (2 ^ 255)) as [Hl|Hl].
  - by rewrite Z.div_small by lia.
  - apply Z.eqb_neq. pose proof (Z.div_le_lower_bound x (2 ^ 255) 1). lia.
Qed.

Lemma u_bit_255 x : is_u256 x → u_bit x 255 = negb (x <? 2 ^ 255).
Proof.
  intros Hx. rewrite u_bit_spec by (done || lia). unfold in_width in Hx.
  destruct (Z.ltb_spec x (2 ^ 255)) as [Hl|Hl]; cbn [negb].
  - apply Z.testbit_false; [lia|]. by rewrite Z.div_small by lia.
  - apply Z.testbit_true; [lia|].
    rewrite <- (Z.div_unique x (2 ^ 255) 1 (x - 2 ^ 255)) by lia. done.
Qed.

Definition sign_of (z : Z) : Sign :=
  if z =? 0 then Zero else if z <? 0 then Minus else Plus.

Lemma i256_sign_spec x :
  is_u256 x → i256_sign true x = (sign_of (signed x), Z.abs (signed x)).
Proof.
  intros Hx. unfold i256_sign, sign_of, two_compl. rewrite top_limb_sign by done.
  pose proof Hx as Hr. unfold in_width in Hr. unfold signed.
  destruct (Z.ltb_spec x (2 ^ 255)) as [Hl|Hl].
  - destruct (Z.eqb_spec x 0); [by subst|].
    destruct (Z.ltb_spec x 0); [lia|]. by rewrite Z.abs_eq.
  - destruct (Z.eqb_spec (x - 2 ^ 256) 0); [lia|].
    destruct (Z.ltb_spec (x - 2 ^ 256) 0); [|lia]. f_equal.
    rewrite u_neg_spec by done. rewrite Z.abs_neq by lia.
    symmetry. apply Z.mod_unique with (q := -1); lia.
Qed.

Lemma i256_cmp_spec a b :
  is_u256 a → is_u256 b → i256_cmp a b = Z.compare (signed a) (signed b).
Proof.
  intros Ha Hb. unfold i256_cmp. rewrite !u_bit_255, u_overflowing_sub_spec by done.
  unfold signed, in_width in *.
  destruct (Z.ltb_spec a (2 ^ 255)), (Z.ltb_spec b (2 ^ 255)); cbn.
  - destruct (Z.ltb_spec a b); [symmetry; apply Z.compare_lt_iff; lia|].
    rewrite Z.mod_small by lia. destruct (Z.eqb_spec (a - b) 0).
    + symmetry. apply Z.compare_eq_iff. lia.
    + symmetry. apply Z.compare_gt_iff. lia.
  - symmetry. apply Z.compare_gt_iff. lia.
  - symmetry. apply Z.compare_lt_iff. lia.
  - destruct (Z.ltb_spec a b); [symmetry; apply Z.compare_lt_iff; lia|].
    rewrite Z.mod_small by lia. destruct (Z.eqb_spec (a - b) 0).
    + symmetry. apply Z.compare_eq_iff. lia.
    + symmetry. apply Z.compare_gt_iff. lia.
Qed.

Lemma sgn_sign_of z :
  Z.sgn z = match sign_of z with Plus => 1 | Minus => -1 | Zero => 0 end.
Proof. unfold sign_of. destruct (Z.eqb_spec z 0), (Z.ltb_spec z 0); lia. Qed.

Lemma sign_of_zero z : sign_of z = Zero ↔ z = 0.
Proof. unfold sign_of. destruct (Z.eqb_spec z 0), (Z.ltb_spec z 0); split; try done; lia. Qed.

Lemma abs_signed_u256 x : is_u256 x → is_u256 (Z.abs (signed x)) ∧ Z.abs (signed x) ≤ 2 ^ 255.
Proof. intros Hx. pose proof (signed_range x Hx). unfold in_width. lia. Qed.

(** Negating a quotient or remainder that fits. *)
Lemma unsigned_neg z : 0 ≤ z ≤ 2 ^ 255 → u_neg z = unsigned (- z).
Proof. intros Hz. rewrite u_neg_spec by (unfold in_width; lia). done. Qed.

Lemma unsigned_small z : 0 ≤ z ≤ 2 ^ 255 → unsigned z = z.
Proof. intros Hz. apply Z.mod_small. lia. Qed.

(** Truncated division; the overflowing case included. *)
Lemma i256_div_spec a b :
  is_u256 a → is_u256 b →
  ∃ d, i256_div a b =
    Some (d, if signed b =? 0 then 0 else unsigned (Z.quot (signed a) (signed b))).
Proof.
  intros Ha Hb. unfold i256_div. rewrite !i256_sign_spec by done.
  destruct (abs_signed_u256 a Ha) as [Hra Hba], (abs_signed_u256 b Hb) as [Hrb Hbb].
  set (sa := signed a) in *. set (sb := signed b) in *.
  destruct (Z.eqb_spec sb 0) as [Hb0|Hb0].
  { rewrite (proj2 (sign_of_zero sb) Hb0). cbn. eauto. }
  replace (sign_eqb (sign_of sb) Zero) with false.
  2:{ pose proof (sign_of_zero sb). destruct (sign_of sb) eqn:?; try done. naive_solver. }
  rewrite Z.quot_div, !sgn_sign_of by done.
  assert (0 ≤ Z.abs sa / Z.abs sb ≤ 2 ^ 255) as Hq.
  { split; [apply Z.div_pos; lia|]. etrans; [apply Z.div_le_upper_bound with (q := Z.abs sa)|];
      nia. }
  destruct (_ && _ && _) eqn:Hov.
  - apply andb_true_iff in Hov as [[Hov1 Hov2]%andb_true_iff Hov3].
    apply Z.eqb_eq in Hov3. apply bool_decide_eq_true in Hov2.
    assert (Z.abs sa = 2 ^ 255) as Habs.
    { by rewrite <- (of_limbs_limbs _ Hra), Hov2. }
    eexists. do 2 f_equal. rewrite Hov3, Habs, Z.div_1_r.
    unfold two_compl. rewrite unsigned_neg by (cbn; lia). change (of_limbs _) with (2 ^ 255).
    pose proof (sign_of_zero sb). destruct (sign_of sa), (sign_of sb); try done; naive_solver.
  - rewrite u_div_rem_spec by (done || lia). cbn [mbind option_bind].
    destruct (Z.eqb_spec (Z.abs sa / Z.abs sb) 0) as [Hq0|Hq0].
    { rewrite Hq0, Z.mul_0_r. eauto. }
    pose proof (sign_of_zero sb). pose proof (sign_of_zero sa) as Hsa0.
    destruct (sign_of sb); [| |naive_solver]; destruct (sign_of sa); eexists; do 2 f_equal;
      rewrite ?u_overflowing_sub_spec by (unfold in_width; lia); cbn [fst];
      try (unfold unsigned; f_equal; lia); rewrite ?Z.mul_1_l, ?Z.mul_1_r.
    + symmetry. by apply unsigned_small.
    + replace sa with 0 in Hq0 by naive_solver. rewrite Z.div_0_l in Hq0 by lia. lia.
    + symmetry. by apply unsigned_small.
    + replace sa with 0 in Hq0 by naive_solver. rewrite Z.div_0_l in Hq0 by lia. lia.
Qed.

Lemma i256_mod_spec a b :
  is_u256 a → is_u256 b → signed b ≠ 0 →
  ∃ d, i256_mod a b = Some (d, unsigned (Z.rem (signed a) (signed b))).
Proof.
  intros Ha Hb Hb0. unfold i256_mod. rewrite !i256_sign_spec by done.
  destruct (abs_signed_u256 a Ha) as [Hra Hba], (abs_signed_u256 b Hb) as [Hrb Hbb].
  set (sa := signed a) in *. set (sb := signed b) in *.
  rewrite Z.rem_mod, sgn_sign_of by done. rewrite u_div_rem_spec by (done || lia).
  pose proof (Z.mod_pos_bound (Z.abs sa) (Z.abs sb) ltac:(lia)) as Hm.
  cbn [mbind option_bind].
  destruct (Z.eqb_spec (Z.abs sa mod Z.abs sb) 0) as [Hz|Hz].
  { rewrite Hz, Z.mul_0_r. destruct (sign_eqb _ _); eauto. }
  destruct (sign_of sa) eqn:Hsa; cbn [sign_eqb]; eexists; do 2 f_equal.
  - rewrite Z.mul_1_l, unsigned_small; lia.
  - unfold two_compl. rewrite unsigned_neg by lia. unfold unsigned. f_equal; lia.
Qed.
End SignedSpecs.
