(* ===== verification/UtilTheorems.v ===== *)
(** * Resources and words

    What the interpreter relies on from [zk_ee/src/system/resources.rs],
    [zk_ee/src/reference_implementations/mod.rs] and from the word helpers of
    [evm_interpreter/src/{utils,u256,i256}.rs], in one statement each. *)

From stdpp Require Import base.
From S2P Require Import Prelude Resources U256.

(** Resources.  A charge takes both amounts, down to zero when there is too
    little; lacking native is reported before lacking ergs and no other error
    exists; an amount that was charged can be given back; running with infinite
    ergs leaves the ergs as they were. *)
Theorem resources_charge (e n ce cn : Z) :
  res_wf (mk_res e n) → res_wf (mk_res ce cn) →
  charge (mk_res ce cn) (mk_res e n)
  = (if n <? cn then Err out_of_native_resources
     else if e <? ce then Err out_of_ergs_error else Val tt,
     mk_res (Z.max 0 (e - ce)) (Z.max 0 (n - cn)))
  ∧ (has_enough (mk_res e n) (mk_res ce cn) = true →
     reclaim_withheld (mk_res ce cn) (charge (mk_res ce cn) (mk_res e n)).2
     = (Val tt, mk_res e n))
  ∧ ∀ (E A : Type) (f : M Res E A),
      e_left (with_infinite_ergs id (λ r _, r) f (mk_res e n)).2 = e
      ∧ n_left (with_infinite_ergs id (λ r _, r) f (mk_res e n)).2
        = n_left (f (mk_res (umax 64) n)).2.
Proof.
  intros Hr Hc. split; [by apply charge_cases|]. split.
  - intros He. destruct (charge_fits (mk_res e n) (mk_res ce cn)) as (r' & -> & _ & _ & Hb); done.
  - intros E A f. unfold with_infinite_ergs, id, mk_res. cbn. destruct (f _) as [o r]. done.
Qed.

Lemma resources_charge_witness :
  charge (mk_res 5 7) (mk_res 100 50) = (Val tt, mk_res 95 43)
  ∧ reclaim_withheld (mk_res 5 7) (mk_res 95 43) = (Val tt, mk_res 100 50).
Proof.
  destruct (resources_charge 100 50 5 7) as (H1 & H2 & _); [done..|].
  split; [exact H1|]. rewrite H1 in H2. exact (H2 eq_refl).
Defined.

Lemma bytereverse_involutive {R : Ruint} {RS : RuintSpec} x :
  is_u256 x → bytereverse_u256 (bytereverse_u256 x) = x.
Proof.
  intros Hx. rewrite !bytereverse_u256_spec. unfold of_be_bytes.
  pose proof (le_bytes_of_le_bytes (reverse (le_bytes 32 x))) as H.
  rewrite length_reverse, length_le_bytes in H. rewrite H by apply Forall_reverse, le_bytes_u8.
  rewrite reverse_involutive, of_le_bytes_le_bytes. by apply Z.mod_small.
Qed.

(** Words and narrower integers.  The conversions saturate, fail or truncate
    exactly as their names say, addresses come back from words, reversing the bytes
    twice changes nothing, and [log2floor] is the logarithm. *)
Theorem word_conversions {R : Ruint} {RS : RuintSpec} {UZ : Usize} (x cap : Z) :
  is_u256 x → 0 ≤ cap ≤ 2 ^ 64 →
  u256_to_u64_saturated x = Z.min x (2 ^ 64 - 1)
  ∧ u256_try_to_u64 x = (if x <? 2 ^ 64 then Some x else None)
  ∧ u256_try_to_usize x = (if x <? 2 ^ usize_bits then Some x else None)
  ∧ u256_try_to_usize_capped cap x = (if x <? cap then Some x else None)
  ∧ b160_to_u256 (u256_to_b160 x) = x mod 2 ^ 160
  ∧ bytereverse_u256 x = of_be_bytes (le_bytes 32 x)
  ∧ bytereverse_u256 (bytereverse_u256 x) = x
  ∧ log2floor x = if x =? 0 then None else Some (Z.log2 x).
Proof.
  intros Hx Hc. pose proof (proj1 Hx) as H0.
  assert (∀ w, checked w x = if x <? 2 ^ w then Some x else None) as Hch.
  { intros w. unfold checked. by destruct (Z.leb_spec 0 x); [|lia]. }
  rewrite u256_try_to_u64_spec, u256_try_to_usize_spec, !Hch by done. split_conj; try done.
  - by apply u256_to_u64_saturated_spec.
  - by apply u256_try_to_usize_capped_spec.
  - rewrite u256_to_b160_spec by done. apply b160_to_u256_spec, Z.mod_pos_bound. lia.
  - apply bytereverse_u256_spec.
  - by apply bytereverse_involutive.
  - by apply log2floor_spec.
Qed.

Lemma word_conversions_witness :
  u256_to_u64_saturated (2 ^ 200 + 5) = 2 ^ 64 - 1
  ∧ u256_try_to_usize_capped 1024 (2 ^ 200 + 5) = None
  ∧ b160_to_u256 (u256_to_b160 (2 ^ 200 + 5)) = 5.
Proof.
  destruct (word_conversions (R:=ruint_ref) (RS:=ruint_ref_spec) (UZ:=usize32) (2 ^ 200 + 5) 1024)
    as (H1 & _ & _ & H2 & H3 & _); [done|done|].
  split; [exact H1|]. split; [exact H2|exact H3].
Defined.

(** Two's complement.  Signed comparison, division and remainder are those of
    the integers, truncating towards zero; the overflowing quotient wraps; the
    product modulo a word is taken before any truncation. *)
Theorem signed_arithmetic {R : Ruint} {RS : RuintSpec} (a b m : Z) :
  is_u256 a → is_u256 b → is_u256 m →
  i256_cmp a b = Z.compare (signed a) (signed b)
  ∧ snd <$> i256_div a b
    = Some (if signed b =? 0 then 0 else unsigned (Z.quot (signed a) (signed b)))
  ∧ (signed b ≠ 0 → snd <$> i256_mod a b = Some (unsigned (Z.rem (signed a) (signed b))))
  ∧ mul_mod a b m = (if m =? 0 then 0 else (a * b) mod m).
Proof.
  intros Ha Hb Hm. split_conj.
  - by apply i256_cmp_spec.
  - by destruct (i256_div_spec a b Ha Hb) as [d ->].
  - intros Hb0. by destruct (i256_mod_spec a b Ha Hb Hb0) as [d ->].
  - by apply mul_mod_spec.
Qed.

(** The smallest integer divided by minus one. *)
Lemma signed_arithmetic_witness :
  snd <$> i256_div (R:=ruint_ref) (2 ^ 255) (2 ^ 256 - 1) = Some (2 ^ 255).
Proof.
  destruct (signed_arithmetic (R:=ruint_ref) (RS:=ruint_ref_spec) (2 ^ 255) (2 ^ 256 - 1) 7)
    as (_ & H & _); [done..|]. exact H.
Defined.
