(* ===== verification/Rlp.v ===== *)
(** * Recursive Length Prefix

    RLP in its general form, as the Ethereum yellow paper defines it: the
    reference that the address derivation of the interpreter (EvmAddress.v) and
    the transaction formats of the bootloader (RlpParser.v, TxFormats.v) are compared
    with. *)

From stdpp Require Import list.
From S2P Require Import Prelude U256.

(** ** RLP *)

#[warnings="-register-all"]
Inductive RlpItem : Type :=
| RlpString (bytes : list Z)
| RlpList (items : list RlpItem).

(** Big-endian without leading zeros; zero is the empty string. *)
Definition width_of (n : Z) : nat := if n =? 0 then 0%nat else Z.to_nat (Z.log2 n / 8 + 1).
Definition minimal_be (n : Z) : list Z := be_bytes (width_of n) n.

(** The header of a payload of [len] bytes; [base] is 0x80 or 0xc0. *)
Definition rlp_header (base : Z) (len : nat) : list Z :=
  if (len <? 56)%nat then [base + Z.of_nat len]
  else let l := minimal_be (Z.of_nat len) in (base + 55 + Z.of_nat (length l)) :: l.

Definition rlp_string (bytes : list Z) : list Z :=
  match bytes with
  | [b] => if b <? 128 then [b] else rlp_header 0x80 1 ++ bytes
  | _ => rlp_header 0x80 (length bytes) ++ bytes
  end.

Fixpoint rlp (item : RlpItem) : list Z :=
  match item with
  | RlpString bytes => rlp_string bytes
  | RlpList items =>
      let payload := concat (map rlp items) in rlp_header 0xc0 (length payload) ++ payload
  end.

(** ** Leading zeros *)

Lemma be_bytes_S n z : be_bytes (S n) z = (z / 2 ^ (8 * Z.of_nat n)) mod 256 :: be_bytes n z.
Proof.
  unfold be_bytes. rewrite <- Nat.add_1_r, le_bytes_app, reverse_app. done.
Qed.

Lemma width_of_bound n k : 0 ≤ n < 2 ^ (8 * Z.of_nat k) → (width_of n ≤ k)%nat.
Proof.
  intros Hn. unfold width_of. destruct (Z.eqb_spec n 0); [lia|].
  pose proof (Z.log2_nonneg n). assert (Z.log2 n < 8 * Z.of_nat k) by (apply Z.log2_lt_pow2; lia).
  assert (Z.log2 n / 8 < Z.of_nat k) by (apply Z.div_lt_upper_bound; lia).
  pose proof (Z.div_pos (Z.log2 n) 8). lia.
Qed.

Lemma width_of_full n k : 2 ^ (8 * Z.of_nat k) ≤ n < 2 ^ (8 * Z.of_nat (S k)) → width_of n = S k.
Proof.
  intros Hn. unfold width_of. assert (0 < 2 ^ (8 * Z.of_nat k)) by lia.
  destruct (Z.eqb_spec n 0); [lia|].
  assert (8 * Z.of_nat k ≤ Z.log2 n) by (apply Z.log2_le_pow2; lia).
  assert (Z.log2 n < 8 * Z.of_nat (S k)) by (apply Z.log2_lt_pow2; lia).
  rewrite <- (Z.div_unique (Z.log2 n) 8 (Z.of_nat k) (Z.log2 n - 8 * Z.of_nat k)) by lia. lia.
Qed.

(** Skipping the leading zeros leaves the minimal representation. *)
Lemma skip_leading_zeros k n :
  0 ≤ n < 2 ^ (8 * Z.of_nat k) →
  count_leading_zeros (be_bytes k n) = (k - width_of n)%nat
  ∧ drop (count_leading_zeros (be_bytes k n)) (be_bytes k n) = minimal_be n.
Proof.
  induction k as [|k IH]; intros Hn.
  { assert (n = 0) as -> by (cbn in Hn; lia). done. }
  rewrite be_bytes_S. cbn [count_leading_zeros].
  assert (2 ^ (8 * Z.of_nat (S k)) = 256 * 2 ^ (8 * Z.of_nat k)) as Hp by apply pow_256_S.
  destruct (Z.lt_ge_cases n (2 ^ (8 * Z.of_nat k))) as [Hlt|Hge].
  - rewrite Z.div_small by lia.
    change (0 mod 256 =? 0) with true. cbv iota. destruct IH as [H1 H2]; [lia|].
    pose proof (width_of_bound n k). cbn [drop]. split; [lia|done].
  - assert (0 ≤ n / 2 ^ (8 * Z.of_nat k) < 256) as Hd
      by (split; [apply Z.div_pos|apply Z.div_lt_upper_bound]; lia).
    rewrite Z.mod_small by done. pose proof (Z.div_le_lower_bound n (2 ^ (8 * Z.of_nat k)) 1 ltac:(lia) ltac:(lia)).
    destruct (Z.eqb_spec (n / 2 ^ (8 * Z.of_nat k)) 0); [lia|].
    rewrite (width_of_full n k) by lia. split; [lia|].
    unfold minimal_be. rewrite (width_of_full n k) by lia.
    by rewrite be_bytes_S, Z.mod_small by done.
Qed.

Lemma of_be_bytes_cons b s : of_be_bytes (b :: s) = b * 2 ^ (8 * Z.of_nat (length s)) + of_be_bytes s.
Proof.
  change (b :: s) with ([b] ++ s). rewrite of_be_bytes_app.
  change (of_be_bytes [b]) with (b + 256 * 0). lia.
Qed.

Lemma of_be_bytes_minimal v : 0 ≤ v → of_be_bytes (minimal_be v) = v.
Proof.
  intros Hv. unfold minimal_be. rewrite of_be_bytes_be_bytes. apply Z.mod_small. split; [done|].
  unfold width_of. destruct (Z.eqb_spec v 0); [by subst|].
  pose proof (Z.log2_nonneg v). pose proof (Z.div_pos (Z.log2 v) 8).
  rewrite Z2Nat.id by lia. apply Z.log2_lt_pow2; [lia|].
  pose proof (Z.mod_pos_bound (Z.log2 v) 8). pose proof (Z.div_mod (Z.log2 v) 8). lia.
Qed.

Lemma width_of_pos v : 0 < v → ∃ k, width_of v = S k ∧ 2 ^ (8 * Z.of_nat k) ≤ v.
Proof.
  intros Hv. unfold width_of. destruct (Z.eqb_spec v 0); [lia|].
  pose proof (Z.log2_nonneg v). pose proof (Z.div_pos (Z.log2 v) 8 ltac:(lia) ltac:(lia)).
  exists (Z.to_nat (Z.log2 v / 8)). split; [lia|]. apply Z.log2_le_pow2; [lia|].
  pose proof (Z.mod_pos_bound (Z.log2 v) 8). pose proof (Z.div_mod (Z.log2 v) 8). lia.
Qed.

Lemma minimal_be_u8 v : Forall is_u8 (minimal_be v).
Proof. unfold minimal_be, be_bytes. apply Forall_reverse, le_bytes_u8. Qed.

Lemma width_of_le w v : 0 ≤ v → (length (minimal_be v) ≤ w)%nat ↔ v < 2 ^ (8 * Z.of_nat w).
Proof.
  intros Hv. unfold minimal_be. rewrite length_be_bytes. split.
  - intros Hw. rewrite <- (of_be_bytes_minimal v Hv).
    pose proof (of_be_bytes_bound (minimal_be v) (minimal_be_u8 v)) as [_ Hb].
    eapply Z.lt_le_trans; [exact Hb|]. unfold minimal_be. rewrite length_be_bytes.
    apply Z.pow_le_mono_r; lia.
  - intros Hlt. apply width_of_bound. lia.
Qed.

Lemma minimal_be_inj n m : 0 ≤ n → 0 ≤ m → minimal_be n = minimal_be m → n = m.
Proof.
  intros Hn Hm He. by rewrite <- (of_be_bytes_minimal n Hn), <- (of_be_bytes_minimal m Hm), He.
Qed.

(** A string of fewer than 56 bytes: a small byte is its own encoding. *)
Lemma rlp_string_short b :
  (length b < 56)%nat →
  (∃ x, b = [x] ∧ x < 128 ∧ rlp_string b = [x])
  ∨ rlp_string b = (0x80 + Z.of_nat (length b)) :: b.
Proof.
  intros Hl. assert (rlp_header 0x80 (length b) = [0x80 + Z.of_nat (length b)]) as Hh.
  { unfold rlp_header. by destruct (Nat.ltb_spec (length b) 56); [|lia]. }
  destruct b as [|x [|y b]]; unfold rlp_string; [by right| |right; by rewrite Hh].
  destruct (Z.ltb_spec x 128); [left; by exists x|right; done].
Qed.

Lemma rlp_string_inj b b' :
  (length b < 56)%nat → (length b' < 56)%nat → rlp_string b = rlp_string b' → b = b'.
Proof.
  intros Hb Hb'. destruct (rlp_string_short b Hb) as [(x & -> & Hx & ->)| ->],
    (rlp_string_short b' Hb') as [(x' & -> & Hx' & ->)| ->]; intros H; injection H; intros;
    subst; try done; lia.
Qed.

(** Encodings of short pairs whose first string has a fixed length. *)
Lemma rlp_pair_inj a a' b b' :
  length a = 20%nat → length a' = 20%nat → (length b ≤ 8)%nat → (length b' ≤ 8)%nat →
  rlp (RlpList [RlpString a; RlpString b]) = rlp (RlpList [RlpString a'; RlpString b']) →
  a = a' ∧ b = b'.
Proof.
  intros Ha Ha' Hb Hb'. cbn [rlp map concat]. rewrite !app_nil_r.
  assert (∀ c d, length c = 20%nat → (length d ≤ 8)%nat →
    length (rlp_string c) = 21%nat
    ∧ ∃ h, rlp_header 0xc0 (length (rlp_string c ++ rlp_string d)) = [h]) as Hs.
  { intros c d Hc Hd. assert (length (rlp_string c) = 21%nat) as Hlc.
    { destruct (rlp_string_short c) as [(x & -> & _)| ->]; [lia|discriminate Hc|cbn; lia]. }
    assert (length (rlp_string d) ≤ 9)%nat.
    { destruct (rlp_string_short d) as [(x & -> & _ & ->)| ->]; cbn; lia. }
    split; [done|]. unfold rlp_header. rewrite length_app, Hlc.
    destruct (Nat.ltb_spec (21 + length (rlp_string d)) 56); [eauto|lia]. }
  destruct (Hs a b) as (La & h & ->); [done..|]. destruct (Hs a' b') as (La' & h' & ->); [done..|].
  cbn [app]. intros [= _ He]. apply app_inj_1 in He as [H1 H2]; [|by rewrite La].
  apply rlp_string_inj in H1, H2; [done|lia..].
Qed.
