(* ===== verification/SystemInterface.v ===== *)
(** * What the system offers to an execution environment

    The errors of [zk_ee/src/system/errors] and of the EVM
    ([zk_ee/src/system/execution_environment/evm/errors.rs],
    [evm_interpreter/src/errors.rs], [ExitCode] in [evm_interpreter/src/lib.rs]),
    the data exchanged at a call boundary
    ([zk_ee/src/system/execution_environment/*.rs]) and the interface of the
    system: block metadata ([zk_ee/src/system/mod.rs]), the IO trait
    ([zk_ee/src/system/io.rs]) and the hash functions, as the class [System].
    [SystemLaws] is the part of the IO contract the interpreter depends on. *)

From stdpp Require Import strings.
From S2P Require Import Prelude Resources.

(** ** Errors of subsystems *)

Inductive SubsystemError (Interface Cascaded : Type) : Type :=
| SLeafUsage (e : Interface)
| SLeafDefect (e : InternalError)
| SLeafRuntime (e : RuntimeError)
| SCascaded (e : Cascaded).
Arguments SLeafUsage {Interface Cascaded}.
Arguments SLeafDefect {Interface Cascaded}.
Arguments SLeafRuntime {Interface Cascaded}.
Arguments SCascaded {Interface Cascaded}.

Inductive NonceError : Type := NonceOverflowError.
Inductive BalanceError : Type := InsufficientBalanceError | BalanceOverflow.

Definition NonceSubsystemError : Type := SubsystemError NonceError Empty_set.
Definition BalanceSubsystemError : Type := SubsystemError BalanceError Empty_set.

Inductive DeconstructionWrapped : Type :=
| DeconstructionBalance (e : BalanceSubsystemError).

Definition DeconstructionSubsystemError : Type :=
  SubsystemError Empty_set DeconstructionWrapped.

(** ** Call modifiers *)

Inductive CallModifier : Type :=
| NoModifier | Constructor | Delegate | Static | DelegateStatic
| ZKVMSystem | ZKVMSystemStatic | EVMCallcode | EVMCallcodeStatic.

#[global] Instance CallModifier_eq_dec : EqDecision CallModifier.
Proof. solve_decision. Defined.

(** ** Errors of the EVM *)

Inductive EvmInterfaceError : Type :=
| NoDeploymentScheme
| UnknownDeploymentData
| BytecodeNoPadding
| UnexpectedModifier (modifier : CallModifier)
| InvalidReenterAfterPreemtion.

Inductive EvmCascadedError : Type :=
| CascadedNonce (e : NonceSubsystemError)
| CascadedBalance (e : BalanceSubsystemError)
| CascadedDeconstruction (e : DeconstructionSubsystemError).

Definition EvmSubsystemError : Type := SubsystemError EvmInterfaceError EvmCascadedError.

Inductive RootCause : Type :=
| RootRuntime (e : RuntimeError)
| RootInternal (e : InternalError)
| RootUsage.

Definition root_cause_with {I C} (f : C → RootCause) (e : SubsystemError I C) : RootCause :=
  match e with
  | SCascaded inner => f inner
  | SLeafRuntime e => RootRuntime e
  | SLeafDefect e => RootInternal e
  | SLeafUsage _ => RootUsage
  end.

Definition no_cascade (e : Empty_set) : RootCause := match e with end.

Definition root_cause (e : EvmSubsystemError) : RootCause :=
  root_cause_with (λ c,
    match c with
    | CascadedNonce e => root_cause_with no_cascade e
    | CascadedBalance e => root_cause_with no_cascade e
    | CascadedDeconstruction e =>
        root_cause_with (λ w, match w with
                              | DeconstructionBalance e => root_cause_with no_cascade e
                              end) e
    end) e.

Inductive EvmError : Type :=
| Revert
| OutOfGas
| InvalidJump
| ReturnDataOutOfBounds
| InvalidOpcode (op : Z)
| StackUnderflow
| StackOverflow
| CallNotAllowedInsideStatic
| StateChangeDuringStaticCall
| MemoryLimitOOG
| InvalidOperandOOG
| CodeStoreOutOfGas
| CallTooDeep
| InsufficientBalance
| CreateCollision
| NonceOverflow
| CreateContractSizeLimit
| CreateInitcodeSizeLimit
| CreateContractStartingWithEF.

#[global] Instance EvmError_eq_dec : EqDecision EvmError.
Proof. solve_decision. Defined.

Inductive ExitCode : Type :=
| Stop
| Return
| SelfDestruct
| ExternalCall
| EvmErr (e : EvmError)
| FatalError (e : EvmSubsystemError).

(** [impl From<..> for SubsystemError] and [impl From<..> for ExitCode]. *)
Definition subsystem_of_system {I C} (e : SystemError) : SubsystemError I C :=
  match e with
  | LeafRuntime e => SLeafRuntime e
  | LeafDefect e => SLeafDefect e
  end.

Definition exit_of_system (e : SystemError) : ExitCode :=
  match e with
  | LeafRuntime OutOfErgs => EvmErr OutOfGas
  | e => FatalError (subsystem_of_system e)
  end.

Definition exit_of_subsystem (e : EvmSubsystemError) : ExitCode :=
  match root_cause e with
  | RootRuntime OutOfErgs => EvmErr OutOfGas
  | _ => FatalError e
  end.

Definition exit_of_internal (e : InternalError) : ExitCode := FatalError (SLeafDefect e).

(** ** Data at a call boundary *)

Record CalleeAccountProperties : Type := {
  cap_ee_type : Z;
  cap_nonce : Z;
  cap_nominal_token_balance : Z;
  cap_bytecode : list Z;
  cap_code_version : Z;
  cap_unpadded_code_len : Z;
  cap_artifacts_len : Z
}.

(** [call_scratch_space] and [return_scratch_space] are only ever tested for
    presence. *)
Record ExternalCallRequest : Type := mkCallRequest {
  available_resources : Res;
  ergs_to_pass : Ergs;
  ecr_caller : Z;
  callee : Z;
  callers_caller : Z;
  modifier : CallModifier;
  input : list Z;
  nominal_token_value : Z;
  call_scratch_space : option (list Z)
}.

Definition is_delegate (r : ExternalCallRequest) : bool :=
  bool_decide (modifier r = Delegate) || bool_decide (modifier r = DelegateStatic).
Definition is_callcode (r : ExternalCallRequest) : bool :=
  bool_decide (modifier r = EVMCallcode) || bool_decide (modifier r = EVMCallcodeStatic).

Record EnvironmentParameters : Type := {
  scratch_space_len : Z;
  callstack_depth : Z;
  callee_account_properties : CalleeAccountProperties
}.

Record ExecutionEnvironmentLaunchParams : Type := mkLaunchParams {
  external_call : ExternalCallRequest;
  environment_parameters : EnvironmentParameters
}.

Record ReturnValues : Type := mkReturnValues {
  rv_returndata : list Z;
  return_scratch_space : option (list Z)
}.
Definition ReturnValues_empty : ReturnValues := mkReturnValues [] None.

Inductive CallResult : Type :=
| PreparationStepFailed
| Failed (return_values : ReturnValues)
| Successful (return_values : ReturnValues).

Definition has_scratch_space (r : CallResult) : bool :=
  match r with
  | PreparationStepFailed => false
  | Failed rv | Successful rv => bool_decide (is_Some (return_scratch_space rv))
  end.

Record CompletedExecution : Type := mkCompleted {
  resources_returned : Res;
  ce_result : CallResult
}.

(** ** Block and transaction metadata *)

Record Metadata : Type := {
  md_chain_id : Z;
  md_coinbase : Z;
  md_block_timestamp : Z;
  md_block_number : Z;
  md_block_gas_limit : Z;
  md_tx_gas_price : Z;
  md_eip1559_basefee : Z;
  md_tx_origin : Z;
  md_block_randomness : option (list Z);
  md_block_historical_hash : Z → option (list Z);
  md_native_price : Z;
  md_pubdata_price : Z;
  md_pubdata_limit : Z
}.

(** Cargo features that change the behaviour modelled here. *)
Class Features : Type := { prevrandao : bool; eip_7645 : bool; eip_7702 : bool }.

Definition get_mix_hash `{Features} (md : Metadata) : outcome InternalError (list Z) :=
  if prevrandao then
    match md_block_randomness md with
    | Some h => Val h
    | None => Err (internal_error "block randomness should be provided")
    end
  else Val (be_bytes 32 1).

Definition get_blockhash (md : Metadata) (block_number : Z) : outcome InternalError (list Z) :=
  let current_block_number := md_block_number md in
  if (current_block_number <=? block_number)
     || (block_number <? saturating_sub current_block_number 256)
  then Val (repeat 0 32)
  else
    match md_block_historical_hash md (current_block_number - block_number) with
    | Some h => Val h
    | None => Err (internal_error "historical hash of limited depth must be provided")
    end.

(** ** The system *)

(** State of the IO subsystem, with the operations the EVM calls.  Each one works
    on the IO state and on the caller's resources; [ee_type] is always the EVM.
    Addresses are 160-bit integers, keys, values and hashes lists of 32 bytes. *)
Class System : Type := {
  SysState : Type;
  Snapshot : Type;
  start_io_frame : M SysState InternalError Snapshot;
  finish_io_frame : option Snapshot → M SysState InternalError unit;
  sys_metadata : SysState → Metadata;
  storage_read : bool → Z → list Z → M (SysState * Res) SystemError (list Z);
  storage_write : bool → Z → list Z → list Z → M (SysState * Res) SystemError unit;
  get_nominal_token_balance : Z → M (SysState * Res) SystemError Z;
  get_selfbalance : Z → M (SysState * Res) SystemError Z;
  get_observable_bytecode_size : Z → M (SysState * Res) SystemError Z;
  get_observable_bytecode_hash : Z → M (SysState * Res) SystemError (list Z);
  get_observable_bytecode : Z → M (SysState * Res) SystemError (list Z);
  emit_event : Z → list (list Z) → list Z → M (SysState * Res) SystemError unit;
  mark_for_deconstruction : Z → Z → bool →
    M (SysState * Res) DeconstructionSubsystemError Z;
  read_nonce : Z → M (SysState * Res) SystemError Z;
  increment_nonce : Z → Z → M (SysState * Res) NonceSubsystemError Z;
  read_account_balance : Z → M (SysState * Res) SystemError Z;
  deploy_bytecode : Z → list Z → M (SysState * Res) SystemError (list Z * list Z * Z);
  keccak256 : list Z → M Res SystemError (list Z);
  Keccak256_digest : list Z → list Z
}.

(** ** The contract *)

Definition is_bytes32 (l : list Z) : Prop := length l = 32%nat ∧ Forall is_u8 l.
Abbreviation is_b160 := (in_width 160).

Record metadata_ok (md : Metadata) : Prop := {
  mo_chain_id : is_u64 (md_chain_id md);
  mo_coinbase : is_b160 (md_coinbase md);
  mo_timestamp : is_u64 (md_block_timestamp md);
  mo_number : is_u64 (md_block_number md);
  mo_gas_limit : is_u64 (md_block_gas_limit md);
  mo_gas_price : is_u256 (md_tx_gas_price md);
  mo_basefee : is_u256 (md_eip1559_basefee md);
  mo_origin : is_b160 (md_tx_origin md);
  mo_randomness h : md_block_randomness md = Some h → is_bytes32 h;
  mo_hash n h : md_block_historical_hash md n = Some h → is_bytes32 h;
  mo_native_price : is_u256 (md_native_price md);
  mo_pubdata_price : is_u256 (md_pubdata_price md);
  mo_pubdata_limit : is_u64 (md_pubdata_limit md)
}.

(** [world] is the part of the state that reverting restores and reading must not
    change: storage, accounts and events, without the record of what is warm.
    [alive s k] says that the snapshots of [k], the latest first, can still be
    rolled back to, and which world each one restores. *)
Class SystemWorlds {SYS : System} : Type := {
  World : Type;
  world : SysState → World;
  alive : SysState → list (Snapshot * World) → Prop
}.

Section Contract.
Context {SYS : System}.

(** What operations other than rolling back do to the state: the metadata stays,
    and so do the snapshots. *)
Definition later {W : SystemWorlds} (s s' : SysState) : Prop :=
  sys_metadata s' = sys_metadata s ∧ ∀ k, alive s k → alive s' k.

#[global] Instance later_preorder {W : SystemWorlds} : PreOrder later.
Proof.
  split; [by split|]. intros s1 s2 s3 [M1 A1] [M2 A2]. split; [congruence|auto].
Qed.

(** An operation on well-formed resources does not panic, returns a value of its
    type, keeps metadata and snapshots and hands out no resources. *)
Definition io_ok {W : SystemWorlds} {A E} (Q : A → Prop) (m : M (SysState * Res) E A) : Prop :=
  ∀ s, res_wf s.2 →
    res_wf (m s).2.2 ∧ e_left (m s).2.2 ≤ e_left s.2 ∧ n_left (m s).2.2 ≤ n_left s.2
    ∧ later s.1 (m s).2.1
    ∧ match (m s).1 with Val a => Q a | Err _ => True | Fault => False end.

Definition res_ok_fn {A E} (Q : A → Prop) (m : M Res E A) : Prop :=
  ∀ r, res_wf r →
    res_wf (m r).2 ∧ e_left (m r).2 ≤ e_left r ∧ n_left (m r).2 ≤ n_left r
    ∧ match (m r).1 with Val a => Q a | Err _ => True | Fault => False end.

Class SystemLaws : Type := {
  sl_worlds :: SystemWorlds;
  sl_metadata s : metadata_ok (sys_metadata s);
  sl_storage_read t a k : io_ok is_bytes32 (storage_read t a k);
  sl_storage_write t a k v : io_ok (λ _, True) (storage_write t a k v);
  sl_balance a : io_ok is_u256 (get_nominal_token_balance a);
  sl_selfbalance a : io_ok is_u256 (get_selfbalance a);
  sl_bytecode_size a : io_ok is_u32 (get_observable_bytecode_size a);
  sl_bytecode_hash a : io_ok is_bytes32 (get_observable_bytecode_hash a);
  sl_bytecode a : io_ok (Forall is_u8) (get_observable_bytecode a);
  sl_emit_event a ts d : io_ok (λ _, True) (emit_event a ts d);
  sl_deconstruct a b c : io_ok is_u256 (mark_for_deconstruction a b c);
  sl_read_nonce a : io_ok is_u64 (read_nonce a);
  sl_increment_nonce a n : io_ok is_u64 (increment_nonce a n);
  sl_account_balance a : io_ok is_u256 (read_account_balance a);
  sl_deploy a c : io_ok (λ _, True) (deploy_bytecode a c);
  sl_keccak i : res_ok_fn is_bytes32 (keccak256 i);
  sl_digest i : is_bytes32 (Keccak256_digest i);
  sl_read_world t a k s : world (storage_read t a k s).2.1 = world s.1;
  sl_balance_world a s : world (get_nominal_token_balance a s).2.1 = world s.1;
  sl_selfbalance_world a s : world (get_selfbalance a s).2.1 = world s.1;
  sl_size_world a s : world (get_observable_bytecode_size a s).2.1 = world s.1;
  sl_hash_world a s : world (get_observable_bytecode_hash a s).2.1 = world s.1;
  sl_code_world a s : world (get_observable_bytecode a s).2.1 = world s.1;
  sl_nonce_world a s : world (read_nonce a s).2.1 = world s.1;
  sl_account_balance_world a s : world (read_account_balance a s).2.1 = world s.1;
  sl_alive s : alive s [];
  sl_start s k : alive s k →
    match start_io_frame s with
    | (Val snap, s') => alive s' ((snap, world s) :: k) ∧ world s' = world s
                        ∧ sys_metadata s' = sys_metadata s
    | (Err _, s') => later s s' ∧ world s' = world s
    | (Fault, _) => False
    end;
  sl_finish s : later s (finish_io_frame None s).2
    ∧ world (finish_io_frame None s).2 = world s ∧ (finish_io_frame None s).1 ≠ Fault;
  sl_forget s p k : alive s (p :: k) → alive s k;
  sl_rollback s snap w k : alive s ((snap, w) :: k) →
    match finish_io_frame (Some snap) s with
    | (Val _, s') => alive s' k ∧ world s' = w ∧ sys_metadata s' = sys_metadata s
    | (Err _, s') => later s s'
    | (Fault, _) => False
    end
}.
End Contract.
