(* ===== verification/BootloaderErrors.v ===== *)
(** * Errors of the bootloader

    [basic_bootloader/src/bootloader/errors.rs] and the errors of
    [supported_ees.rs]: why a transaction is invalid, the errors of the bootloader
    as a subsystem, and the conversions between them. *)

From stdpp Require Import strings.
From S2P Require Import Prelude Resources SystemInterface.

Inductive InvalidTransaction : Type :=
| InvalidEncoding
| InvalidStructure
| PriorityFeeGreaterThanMaxFee
| BaseFeeGreaterThanMaxFee
| GasPriceLessThanBasefee
| CallerGasLimitMoreThanBlock
| CallGasCostMoreThanGasLimit
| RejectCallerWithCode
| LackOfFundForMaxFee (fee balance : Z)
| OverflowPaymentInTransaction
| NonceOverflowInTransaction
| NonceTooHigh (tx state : Z)
| NonceTooLow (tx state : Z)
| MalleableSignature
| IncorrectFrom (tx recovered : Z)
| CreateInitCodeSizeLimit
| InvalidChainId
| AccessListNotSupported
| GasPerPubdataTooHigh
| BlockGasLimitTooHigh
| UpgradeTxNotFirst
| ReceivedInsufficientFees (received required : Z)
| InvalidMagic
| InvalidReturndataLength
| OutOfGasDuringValidation
| OutOfNativeResourcesDuringValidation
| NonceUsedAlready
| NonceNotIncreased
| BlockGasLimitReached
| BlockNativeLimitReached
| BlockPubdataLimitReached
| BlockL2ToL1LogsLimitReached
| AuthListIsEmpty
| EIP7702HasNullDestination.

#[global] Instance InvalidTransaction_eq_dec : EqDecision InvalidTransaction.
Proof. solve_decision. Defined.

(** [supported_ees::errors]. *)
Inductive EEInterfaceError : Type := UnsupportedExecutionEnvironment.
Inductive EEWrappedError : Type := WrappedEvmError (e : EvmSubsystemError).
Definition EESubsystemError : Type := SubsystemError EEInterfaceError EEWrappedError.

Inductive BootloaderInterfaceError : Type :=
| CantPayRefundOverflow
| CantPayOperatorOverflow
| MintingBalanceOverflow
| TopLevelInsufficientBalance.

Inductive BootloaderWrappedError : Type :=
| WrappedBalance (e : BalanceSubsystemError)
| WrappedEEError (e : EESubsystemError)
| WrappedNonce (e : NonceSubsystemError).

Definition BootloaderSubsystemError : Type :=
  SubsystemError BootloaderInterfaceError BootloaderWrappedError.

Inductive TxError : Type :=
| Validation (e : InvalidTransaction)
| Internal (e : BootloaderSubsystemError).

Definition ee_root_cause (e : EESubsystemError) : RootCause :=
  root_cause_with (λ w, match w with WrappedEvmError e => root_cause e end) e.

Definition bootloader_root_cause (e : BootloaderSubsystemError) : RootCause :=
  root_cause_with (λ w,
    match w with
    | WrappedBalance e => root_cause_with no_cascade e
    | WrappedEEError e => ee_root_cause e
    | WrappedNonce e => root_cause_with no_cascade e
    end) e.

(** [TxError::oon_as_validation]. *)
Definition oon_as_validation (e : BootloaderSubsystemError) : TxError :=
  match bootloader_root_cause e with
  | RootRuntime (FatalRuntime OutOfNativeResources) =>
      Validation OutOfNativeResourcesDuringValidation
  | _ => Internal e
  end.

(** [impl From<SystemError> for TxError]. *)
Definition tx_error_of_system (e : SystemError) : TxError :=
  match e with
  | LeafRuntime OutOfErgs => Validation OutOfGasDuringValidation
  | LeafRuntime (FatalRuntime _) => Validation OutOfNativeResourcesDuringValidation
  | LeafDefect e => Internal (SLeafDefect e)
  end.

(** [impl From<InternalError> for TxError]. *)
Definition tx_error_of_internal (e : InternalError) : TxError := Internal (SLeafDefect e).
