(* ===== verification/RlpParser.v ===== *)
(** * The RLP cursor of the bootloader

    [transaction/rlp_encoded/rlp/minimal_rlp_parser.rs] and [rlp/mod.rs] of
    [basic_bootloader]: a cursor over borrowed bytes, the decoders of strings,
    integers and lists, the traits of decodable things, and the two list views
    that are iterated instead of stored.

    What a decoder accepts is described by [parses]: it accepts exactly the
    encodings in a relation, consumes them, and never panics.  The relations are
    those of RLP, except that the length of a long item may have leading zeros
    ([header_enc]), which the code does not reject. *)

From stdpp Require Import list.
From S2P Require Import Prelude U256 Rlp Resources SystemInterface BootloaderErrors.

(** ** The cursor *)

Record Rlp : Type := mkRlp { rlp_bytes : list Z; pos : Z }.

Abbreviation Parser := (M Rlp InvalidTransaction).

Definition rlp_len (r : Rlp) : Z := Z.of_nat (length (rlp_bytes r)).
Definition set_pos (p : Z) (r : Rlp) : Rlp := mkRlp (rlp_bytes r) p.

Definition Rlp_new (bytes : list Z) : Rlp := mkRlp bytes 0.
Definition is_empty (r : Rlp) : bool := pos r =? rlp_len r.
Definition mark (r : Rlp) : Z := pos r.

(** The two slices panic on a bad range. *)
Definition consumed_since (mark : Z) : Parser (list Z) :=
  r ← gets id; expect (slice (rlp_bytes r) mark (pos r - mark)).
Definition remaining : Parser (list Z) :=
  r ← gets id; expect (slice (rlp_bytes r) (pos r) (rlp_len r - pos r)).

(** Running a computation on a cursor that is a local variable. *)
Definition on_cursor {S E A} (inner : S) {T} (m : M S E A) : M T E (A * S) :=
  λ t, let '(o, inner') := m inner in
       (match o with Val a => Val (a, inner') | Err e => Err e | Fault => Fault end, t).

Definition require_consumed {S} (inner : Rlp) : M S InvalidTransaction unit :=
  when (negb (is_empty inner)) (throw InvalidStructure).

Section Parser.
Context {R : Ruint} {UZ : Usize}.

Definition take_exact (n : Z) : Parser (list Z) :=
  r ← gets id;
  end_ ← lift_opt InvalidStructure (checked_add usize_bits (pos r) n);
  when (rlp_len r <? end_) (throw InvalidStructure) ;;
  out ← expect (slice (rlp_bytes r) (pos r) (end_ - pos r));
  modify (set_pos end_) ;;
  mret out.

Definition take1 : Parser Z :=
  r ← gets id;
  when (rlp_len r <=? pos r) (throw InvalidStructure) ;;
  b ← expect (rlp_bytes r !! Z.to_nat (pos r));
  modify (set_pos (wrap usize_bits (pos r + 1))) ;;
  mret b.

Definition be_u32 (s : list Z) : Parser Z :=
  when (bool_decide (4 < length s)%nat) (throw InvalidStructure) ;;
  mret (wrap usize_bits (foldl (λ v b, Z.lor (wrap 32 (Z.shiftl v 8)) b) 0 s)).

(** The length of a long string or list: at most four bytes, at least 56. *)
Definition long_length (ll : Z) : Parser Z :=
  when (4 <? ll) (throw InvalidStructure) ;;
  s ← take_exact ll;
  len ← be_u32 s;
  when (len <? 56) (throw InvalidStructure) ;;
  mret len.

Definition bytes : Parser (list Z) :=
  m ← take1;
  if m <? 0x80 then r ← gets id; expect (slice (rlp_bytes r) (pos r - 1) 1)
  else if m <=? 0xb7 then
    let len := m - 0x80 in
    payload ← take_exact len;
    b ← (if len =? 1 then
           b ← expect (payload !! 0%nat); mret (b <? 0x80)
         else mret false);
    if (b : bool) then throw InvalidStructure else mret payload
  else if m <? 0xc0 then
    len ← long_length (m - 0xb7);
    take_exact len
  else throw InvalidStructure.

Definition list_ : Parser Rlp :=
  m ← take1;
  when (m <? 0xc0) (throw InvalidStructure) ;;
  len ← (if m <=? 0xf7 then mret (m - 0xc0) else long_length (m - 0xf7));
  content ← take_exact len;
  mret (Rlp_new content).

Definition u8 : Parser Z :=
  s ← bytes;
  match s with
  | [] => mret 0
  | [b] => if b =? 0 then throw InvalidStructure else mret b
  | _ => throw InvalidStructure
  end.

Definition bool_ : Parser bool :=
  v ← u8;
  if v =? 0 then mret false else if v =? 1 then mret true else throw InvalidStructure.

Definition leading_zero (s : list Z) : bool :=
  match s with b :: _ => b =? 0 | [] => false end.

(** The eight-byte buffer is filled from the right. *)
Definition u64 : Parser Z :=
  s ← bytes;
  when (bool_decide (8 < length s)%nat) (throw InvalidStructure) ;;
  when (leading_zero s) (throw InvalidStructure) ;;
  mret (of_be_bytes (repeat 0 (8 - length s) ++ s)).

Definition u256 : Parser Z :=
  s ← bytes;
  when (leading_zero s) (throw InvalidStructure) ;;
  lift_opt InvalidStructure (u_try_from_be_slice s).

(** ** Traits of decodable things *)

Class RlpItemDecode (T : Type) : Type := decode_from_item : Parser T.

Class RlpListDecode (T : Type) : Type := decode_list_body : Parser T.

(** A list whose body is decoded by [body], which must consume it. *)
Definition in_list {T} (body : Parser T) : Parser T :=
  inner ← list_;
  '(v, inner) ← on_cursor inner body;
  require_consumed inner ;;
  mret v.

Definition decode_list_from {T} `{RlpListDecode T} : Parser T := in_list decode_list_body.

(** A decoder of a standalone buffer: [T::decode_list_full]. *)
Definition decode_full {T} (decode : Parser T) (bytes : list Z) : outcome InvalidTransaction T :=
  ((v ← decode; r ← gets id; require_consumed r ;; mret v) (Rlp_new bytes)).1.

Definition decode_list_full {T} `{RlpListDecode T} (bytes : list Z) :=
  decode_full decode_list_from bytes.

#[global] Instance item_of_list {T} `{RlpListDecode T} : RlpItemDecode T := decode_list_from.

Class RlpFixedItem (T : Type) : Type := {
  ENCODING_LEN : Z;
  decode_from_fixed : list Z → outcome InvalidTransaction T
}.

(** [&[u8; 32]] and [B160]. *)
Record Bytes32Ref : Type := mkBytes32Ref { bytes32_ref : list Z }.
Record B160 : Type := mkB160 { b160_val : Z }.

#[global] Instance bytes32_item : RlpItemDecode Bytes32Ref :=
  s ← bytes;
  if bool_decide (length s = 32)%nat then mret (mkBytes32Ref s) else throw InvalidStructure.

#[global] Instance b160_item : RlpItemDecode B160 :=
  s ← bytes;
  if bool_decide (length s = 20)%nat then mret (mkB160 (of_be_bytes s))
  else throw InvalidStructure.

Definition fixed_payload (len header : Z) (encoded : list Z) : outcome InvalidTransaction (list Z) :=
  match encoded with
  | h :: payload =>
      if negb (Z.of_nat (length encoded) =? len) || negb (h =? header)
      then Err InvalidStructure else Val payload
  | [] => Err InvalidStructure
  end.

#[global] Instance bytes32_fixed : RlpFixedItem Bytes32Ref := {
  ENCODING_LEN := 1 + 32;
  decode_from_fixed encoded :=
    match fixed_payload 33 0xa0 encoded with
    | Val payload => Val (mkBytes32Ref payload)
    | Err e => Err e
    | Fault => Fault
    end
}.

#[global] Instance b160_fixed : RlpFixedItem B160 := {
  ENCODING_LEN := 1 + 20;
  decode_from_fixed encoded :=
    match fixed_payload 21 0x94 encoded with
    | Val payload => Val (mkB160 (of_be_bytes payload))
    | Err e => Err e
    | Fault => Fault
    end
}.

(** ** Lists of items of a fixed length *)

Record FixedList (T : Type) : Type := mkFixedList { fl_payload : list Z; fl_count : Z }.
#[global] Arguments mkFixedList {T}.
#[global] Arguments fl_payload {T}.
#[global] Arguments fl_count {T}.

Record FixedListIter (T : Type) : Type :=
  mkFixedListIter { fi_payload : list Z; fi_idx : Z; fi_count : Z }.
#[global] Arguments mkFixedListIter {T}.
#[global] Arguments fi_payload {T}.
#[global] Arguments fi_idx {T}.
#[global] Arguments fi_count {T}.

Section Fixed.
Context {T : Type} `{RlpFixedItem T}.

Definition FixedList_decode_list_from : Parser (FixedList T) :=
  inner ← list_;
  '(all, inner) ← on_cursor inner remaining;
  let len := Z.of_nat (length all) in
  when (negb (len mod ENCODING_LEN =? 0)) (throw InvalidStructure) ;;
  let count := len / ENCODING_LEN in
  on_cursor inner (take_exact len) ;;
  mret (mkFixedList all count).

Definition FixedList_decode_list_full (bytes : list Z) : outcome InvalidTransaction (FixedList T) :=
  decode_full FixedList_decode_list_from bytes.

Definition FixedList_iter (self : FixedList T) : FixedListIter T :=
  mkFixedListIter (fl_payload self) 0 (fl_count self).

(** [next]: an item may fail to decode; the slice panics out of range. *)
Definition FixedListIter_next :
    M (FixedListIter T) Empty_set (option (outcome InvalidTransaction T)) :=
  self ← gets id;
  if fi_count self <=? fi_idx self then mret None
  else
    let start := wrap usize_bits (fi_idx self * ENCODING_LEN) in
    let end_ := wrap usize_bits (start + ENCODING_LEN) in
    modify (λ self, mkFixedListIter (fi_payload self) (wrap usize_bits (fi_idx self + 1))
                      (fi_count self)) ;;
    encoded ← expect (slice (fi_payload self) start (end_ - start));
    mret (Some (decode_from_fixed encoded)).

Definition FixedListIter_len (self : FixedListIter T) : Z :=
  wrap usize_bits (fi_count self - fi_idx self).
End Fixed.

(** ** Lists of homogeneous items *)

Record HomList (T : Type) : Type := mkHomList { hl_payload : list Z; hl_count : option Z }.
#[global] Arguments mkHomList {T}.
#[global] Arguments hl_payload {T}.
#[global] Arguments hl_count {T}.

Record HomListIter (T : Type) : Type := mkHomListIter { hi_r : Rlp; hi_remaining_ok : bool }.
#[global] Arguments mkHomListIter {T}.
#[global] Arguments hi_r {T}.
#[global] Arguments hi_remaining_ok {T}.

Section Homogeneous.
Context {T : Type} `{RlpItemDecode T}.

(** The loop of the validation; every item takes a byte, so the number of bytes
    is enough fuel. *)
Fixpoint validate_loop (fuel : nat) (c : Z) : Parser Z := λ chk,
  if is_empty chk then (Val c, chk)
  else
    match fuel with
    | O => (Fault, chk)
    | S fuel => (decode_from_item ;; validate_loop fuel (wrap usize_bits (c + 1))) chk
    end.

Definition HomList_decode_list_from (VALIDATE : bool) : Parser (HomList T) :=
  inner ← list_;
  '(all, inner) ← on_cursor inner remaining;
  count ← (if VALIDATE then
             '(c, _) ← on_cursor (Rlp_new all) (validate_loop (length all) 0);
             mret (Some c)
           else mret None);
  on_cursor inner (take_exact (Z.of_nat (length all))) ;;
  mret (mkHomList all count).

Definition HomList_decode_list_full (VALIDATE : bool) (bytes : list Z)
    : outcome InvalidTransaction (HomList T) :=
  decode_full (HomList_decode_list_from VALIDATE) bytes.

Definition HomList_iter (self : HomList T) : HomListIter T :=
  mkHomListIter (Rlp_new (hl_payload self)) true.

(** [len] of a validated list; [None] is the panic of [unwrap]. *)
Definition HomList_len (self : HomList T) : option Z := hl_count self.

Definition on_hi_r {E A} (m : M Rlp E A) : M (HomListIter T) E A :=
  zoom hi_r (λ r s, mkHomListIter r (hi_remaining_ok s)) m.

(** [next] of a validated list panics when an item does not decode. *)
Definition HomListIter_next : M (HomListIter T) Empty_set (option T) :=
  self ← gets id;
  if is_empty (hi_r self) then mret None
  else v ← on_hi_r (unwrap decode_from_item); mret (Some v).

Definition HomListIter_next_unvalidated : M (HomListIter T) Empty_set (option (InvalidTransaction + T)) :=
  self ← gets id;
  if negb (hi_remaining_ok self) || is_empty (hi_r self) then mret None
  else
    res ← on_hi_r (attempt decode_from_item);
    match res with
    | inr v => mret (Some (inr v))
    | inl _ =>
        modify (λ self, mkHomListIter (hi_r self) false) ;;
        mret (Some (inl InvalidStructure))
    end.
End Homogeneous.
End Parser.

(** ** Encodings fed to a hash

    A hasher is the bytes it was fed. *)

Definition leading_zeros (w x : Z) : Z := if x =? 0 then w else w - 1 - Z.log2 x.

Definition u64_encoding_len (value : Z) : Z :=
  if value <? 0x80 then 1
  else
    let bits := 64 - leading_zeros 64 value in
    let encoding_bytes := next_multiple_of bits 8 / 8 in
    1 + encoding_bytes.

Definition apply_u64_encoding_to_hash (value : Z) (hasher : list Z) : list Z :=
  if value =? 0 then hasher ++ [0x80]
  else if value <? 0x80 then hasher ++ [wrap 8 value]
  else
    let bits := 64 - leading_zeros 64 value in
    let encoding_bytes := next_multiple_of bits 8 / 8 in
    let length_bytes := be_bytes 8 value in
    hasher ++ [wrap 8 (0x80 + wrap 8 encoding_bytes)]
           ++ drop (Z.to_nat (8 - encoding_bytes)) length_bytes.

Definition apply_list_concatenation_encoding_to_hash (length : Z) (hasher : list Z) : list Z :=
  if length <? 56 then hasher ++ [wrap 8 (0xc0 + wrap 8 length)]
  else
    let bits := 32 - leading_zeros 32 length in
    let encoding_bytes := next_multiple_of bits 8 / 8 in
    let length_bytes := be_bytes 4 length in
    hasher ++ [wrap 8 (0xc0 + 55 + wrap 8 encoding_bytes)]
           ++ drop (Z.to_nat (4 - encoding_bytes)) length_bytes.
