(* ===== verification/RlpLogic.v ===== *)
(** * What the decoders accept

    [parses m Q] says that the decoder [m] accepts exactly the encodings in [Q],
    consumes them and nothing else, and never panics.  The decoders of
    RlpParser.v are characterised one by one, and a decoder built from others is
    by [parses_bind]. *)

From stdpp Require Import list.
From S2P Require Import Prelude U256 Rlp Resources SystemInterface BootloaderErrors RlpParser.

(** ** Encodings *)

(** The header of an item as the code reads it: RLP, but the length of a long
    item may have leading zeros, in at most four bytes. *)
Definition header_enc (base : Z) (len : nat) (hdr : list Z) : Prop :=
  ((len < 56)%nat ∧ hdr = [base + Z.of_nat len])
  ∨ ((56 ≤ len)%nat ∧ ∃ lb, (1 ≤ length lb ≤ 4)%nat ∧ of_be_bytes lb = Z.of_nat len
                      ∧ hdr = (base + 55 + Z.of_nat (length lb)) :: lb).

Definition small_byte (s : list Z) : Prop := ∃ b, s = [b] ∧ b < 0x80.

Definition string_enc (s enc : list Z) : Prop :=
  (small_byte s ∧ enc = s)
  ∨ (¬ small_byte s ∧ ∃ hdr, header_enc 0x80 (length s) hdr ∧ enc = hdr ++ s).

Definition list_enc (payload enc : list Z) : Prop :=
  ∃ hdr, header_enc 0xc0 (length payload) hdr ∧ enc = hdr ++ payload.

(** An integer is the string of its bytes without leading zeros. *)
Definition int_enc (w v : Z) (enc : list Z) : Prop :=
  in_width w v ∧ string_enc (minimal_be v) enc.

Definition bool_enc (b : bool) (enc : list Z) : Prop := enc = [if b then 1 else 0x80].

Fixpoint items_enc {T} (Q : T → list Z → Prop) (items : list T) (payload : list Z) : Prop :=
  match items with
  | [] => payload = []
  | a :: items => ∃ e p, Q a e ∧ items_enc Q items p ∧ payload = e ++ p
  end.

Definition parse_error (e : InvalidTransaction) : Prop :=
  e = InvalidStructure ∨ e = AuthListIsEmpty.

(** ** Cursors *)

Definition rest (r : Rlp) : list Z := drop (Z.to_nat (pos r)) (rlp_bytes r).
Definition adv (n : nat) (r : Rlp) : Rlp := set_pos (pos r + Z.of_nat n) r.

Section Logic.
Context {R : Ruint} {RS : RuintSpec} {UZ : Usize}.

Definition cur_ok (r : Rlp) : Prop :=
  Forall is_u8 (rlp_bytes r) ∧ 0 ≤ pos r ≤ rlp_len r ∧ in_width usize_bits (rlp_len r).

Definition parses_at {A} (m : Parser A) (Q : A → list Z → Prop) (r : Rlp) : Prop :=
  match m r with
  | (Val a, r') => ∃ enc, Q a enc ∧ enc `prefix_of` rest r ∧ r' = adv (length enc) r
  | (Err e, _) => parse_error e
  | (Fault, _) => False
  end
  ∧ ∀ a enc, Q a enc → enc `prefix_of` rest r → m r = (Val a, adv (length enc) r).

Definition parses {A} (m : Parser A) (Q : A → list Z → Prop) : Prop :=
  ∀ r, cur_ok r → parses_at m Q r.

(** *** Moving a cursor *)

Lemma adv_0 r : adv 0 r = r.
Proof. destruct r. unfold adv, set_pos. cbn. f_equal. lia. Qed.

Lemma adv_adv n m r : adv m (adv n r) = adv (n + m) r.
Proof. destruct r. unfold adv, set_pos. cbn. f_equal. lia. Qed.

Lemma rest_adv n r : 0 ≤ pos r → rest (adv n r) = drop n (rest r).
Proof.
  intros. unfold rest, adv, set_pos. cbn. rewrite drop_drop. f_equal. lia.
Qed.

Lemma length_rest r : cur_ok r → Z.of_nat (length (rest r)) = rlp_len r - pos r.
Proof. intros (_ & Hp & _). unfold rest, rlp_len in *. rewrite length_drop. lia. Qed.

Lemma rest_u8 r : cur_ok r → Forall is_u8 (rest r).
Proof. intros (Hb & _). by apply Forall_drop. Qed.

Lemma prefix_u8 r enc : cur_ok r → enc `prefix_of` rest r → Forall is_u8 enc.
Proof. intros Hr [k Hk]. apply rest_u8 in Hr. rewrite Hk in Hr. by apply Forall_app in Hr as []. Qed.

Lemma cur_ok_adv r enc : cur_ok r → enc `prefix_of` rest r → cur_ok (adv (length enc) r).
Proof.
  intros Hr Hp. pose proof (length_rest r Hr) as Hl. apply prefix_length in Hp.
  destruct Hr as (Hb & H1 & H2). split; [exact Hb|]. split; [|exact H2].
  change (rlp_len (adv (length enc) r)) with (rlp_len r).
  change (pos (adv (length enc) r)) with (pos r + Z.of_nat (length enc)). lia.
Qed.

Lemma prefix_rest_adv r e1 e2 :
  cur_ok r → e1 `prefix_of` rest r → e2 `prefix_of` rest (adv (length e1) r) ↔
  (e1 ++ e2) `prefix_of` rest r.
Proof.
  intros Hr [k Hk]. rewrite rest_adv by apply Hr. rewrite Hk, drop_app_length.
  split; [apply prefix_app|apply prefix_app_inv].
Qed.

Lemma cur_ok_new bytes :
  Forall is_u8 bytes → in_width usize_bits (Z.of_nat (length bytes)) → cur_ok (Rlp_new bytes).
Proof.
  intros Hb Hl. split; [done|]. split; [|exact Hl].
  unfold rlp_len. cbn. lia.
Qed.

(** *** Composition *)

Lemma parses_ret {A} (a : A) : parses (mret a) (λ b enc, b = a ∧ enc = []).
Proof.
  intros r Hr. split.
  - exists []. rewrite adv_0. split_conj; try done. apply prefix_nil.
  - intros b enc [-> ->] _. by rewrite adv_0.
Qed.

Lemma parses_throw {A} e : parse_error e → parses (throw e : Parser A) (λ _ _, False).
Proof. intros He r Hr. split; [done|]. by intros. Qed.

Lemma parses_equiv {A} (m : Parser A) (Q Q' : A → list Z → Prop) :
  parses m Q → (∀ a enc, Q a enc ↔ Q' a enc) → parses m Q'.
Proof.
  intros Hm HQ r Hr. destruct (Hm r Hr) as [H1 H2]. split.
  - destruct (m r) as [[a|e|] r']; try done. destruct H1 as (enc & H & Hp & Hr'). exists enc. by rewrite <- HQ.
  - intros a enc H. apply H2. by apply HQ.
Qed.

(** As [parses_equiv], where the relations need only agree on bytes. *)
Lemma parses_equiv_u8 {A} (m : Parser A) (Q Q' : A → list Z → Prop) :
  parses m Q → (∀ a enc, Forall is_u8 enc → Q a enc ↔ Q' a enc) → parses m Q'.
Proof.
  intros Hm HQ r Hr. destruct (Hm r Hr) as [H1 H2]. split.
  - destruct (m r) as [[a|e|] r']; try done. destruct H1 as (enc & H & Hp & Hr'). exists enc.
    rewrite <- HQ; [done|]. by eapply prefix_u8.
  - intros a enc H Hp. apply H2; [|done]. apply HQ; [by eapply prefix_u8|done].
Qed.

Lemma parses_bind_at {A B} (m : Parser A) (k : A → Parser B) Q Q' :
  parses m Q →
  (∀ a e1 r, cur_ok r → Q a e1 → e1 `prefix_of` rest r → parses_at (k a) (Q' a) (adv (length e1) r)) →
  parses (m ≫= k) (λ b enc, ∃ a e1 e2, Q a e1 ∧ Q' a b e2 ∧ enc = e1 ++ e2).
Proof.
  intros Hm Hk r Hr. destruct (Hm r Hr) as [H1 H2]. split.
  - unfold mbind, M_bind. destruct (m r) as [[a|e|] r']; try done.
    destruct H1 as (e1 & HQ & Hp & ->). destruct (Hk a e1 r Hr HQ Hp) as [H3 _].
    destruct (k a _) as [[b|e|] r2]; try done. destruct H3 as (e2 & HQ' & Hp' & ->).
    exists (e1 ++ e2). split_conj; [by exists a, e1, e2| |by rewrite adv_adv, length_app].
    by apply prefix_rest_adv.
  - intros b enc (a & e1 & e2 & HQ & HQ' & ->) Hp. pose proof (prefix_app_l _ _ _ Hp) as Hp1.
    erewrite bind_val by (by apply H2). destruct (Hk a e1 r Hr HQ Hp1) as [_ H4].
    rewrite (H4 b e2 HQ') by (by apply prefix_rest_adv). by rewrite adv_adv, length_app.
Qed.

Lemma parses_bind {A B} (m : Parser A) (k : A → Parser B) Q Q' :
  parses m Q → (∀ a e1, Q a e1 → Forall is_u8 e1 → parses (k a) (Q' a)) →
  parses (m ≫= k) (λ b enc, ∃ a e1 e2, Q a e1 ∧ Q' a b e2 ∧ enc = e1 ++ e2).
Proof.
  intros Hm Hk. apply parses_bind_at; [done|]. intros a e1 r Hr HQ Hp.
  apply (Hk a e1 HQ (prefix_u8 _ _ Hr Hp)). by apply cur_ok_adv.
Qed.

Lemma parses_when {A} (b : bool) e (m : Parser A) Q :
  parse_error e → (b = false → parses m Q) →
  parses (when b (throw e) ;; m) (λ a enc, b = false ∧ Q a enc).
Proof.
  intros He Hm. destruct b; cbn.
  - intros r Hr. split; [done|]. by intros a enc [? _].
  - intros r Hr. destruct (Hm eq_refl r Hr) as [H1 H2].
    change (parses_at m (λ a enc, false = false ∧ Q a enc) r).
    split; [|by intros a enc [_ H]; apply H2].
    destruct (m r) as [[a|e'|] r']; try done. destruct H1 as (enc & H & Hp & Hr'). by exists enc.
Qed.

Lemma parses_if {A} (b : bool) (m1 m2 : Parser A) Q1 Q2 :
  (b = true → parses m1 Q1) → (b = false → parses m2 Q2) →
  parses (if b then m1 else m2) (λ a enc, if b then Q1 a enc else Q2 a enc).
Proof. destruct b; auto. Qed.
(** *** Primitives *)

Lemma rlp_len_adv n r : rlp_len (adv n r) = rlp_len r.
Proof. done. Qed.

Lemma slice_rest r n :
  cur_ok r → 0 ≤ n ≤ rlp_len r - pos r →
  slice (rlp_bytes r) (pos r) n = Some (take (Z.to_nat n) (rest r)).
Proof.
  intros (_ & Hp & _) Hn. apply slice_Some. unfold rlp_len in *. split_conj; try lia. done.
Qed.

Lemma take_prefix_of (l enc : list Z) : enc `prefix_of` l → take (length enc) l = enc.
Proof. intros [k ->]. by rewrite take_app_length. Qed.

Lemma parses_take_exact n :
  0 ≤ n → parses (take_exact n) (λ s enc, s = enc ∧ Z.of_nat (length enc) = n).
Proof.
  intros Hn r Hr. pose proof (length_rest r Hr) as Hl. pose proof Hr as (_ & Hp & Hw).
  unfold parses_at, take_exact. erewrite !bind_val by done. unfold id, checked_add.
  assert (n ≤ rlp_len r - pos r → ∃ s, length s = Z.to_nat n ∧ s `prefix_of` rest r ∧
    (λ m : Parser (list Z), m r = (Val s, adv (Z.to_nat n) r))
      (end_ ← lift_opt InvalidStructure (checked usize_bits (pos r + n));
       when (rlp_len r <? end_) (throw InvalidStructure) ;;
       out ← expect (slice (rlp_bytes r) (pos r) (end_ - pos r));
       modify (set_pos end_) ;; mret out)) as Hok.
  { intros Hle. exists (take (Z.to_nat n) (rest r)). rewrite length_take. split_conj; [lia|eexists; symmetry; apply take_drop|].
    rewrite checked_in by (unfold in_width in *; lia). erewrite bind_val by done.
    destruct (Z.ltb_spec (rlp_len r) (pos r + n)); [lia|]. erewrite bind_val by done.
    replace (pos r + n - pos r) with n by lia. rewrite slice_rest by (done || lia).
    do 2 (erewrite bind_val by done). unfold adv. rewrite Z2Nat.id by lia. done. }
  split.
  - destruct (Z.le_gt_cases n (rlp_len r - pos r)) as [Hle|Hgt].
    + destruct (Hok Hle) as (s & Hs & Hpre & ->). exists s. split_conj; try done; [lia|]. by rewrite Hs.
    + destruct (checked usize_bits (pos r + n)) as [e|] eqn:Hc; [|by left].
      apply checked_Some in Hc as [<- _]. erewrite bind_val by done.
      destruct (Z.ltb_spec (rlp_len r) (pos r + n)); [by left|lia].
  - intros s enc [-> Hs] Hpre. pose proof (prefix_length _ _ Hpre).
    destruct Hok as (s & Hls & Hpre' & ->); [lia|]. replace (Z.to_nat n) with (length enc) by lia.
    rewrite <- (take_prefix_of _ _ Hpre), <- (take_prefix_of _ _ Hpre').
    by replace (length s) with (length enc) by lia.
Qed.

Lemma parses_take1 : parses take1 (λ b enc, enc = [b]).
Proof.
  intros r Hr. pose proof (length_rest r Hr) as Hl. pose proof Hr as (Hb & Hp & Hw).
  assert (∀ b l, rest r = b :: l → take1 r = (Val b, adv 1 r)) as Hok.
  { intros b l E. rewrite E in Hl. cbn in Hl. unfold take1. erewrite !bind_val by done. unfold id.
    destruct (Z.leb_spec (rlp_len r) (pos r)); [lia|]. erewrite bind_val by done.
    assert (rlp_bytes r !! Z.to_nat (pos r) = Some b) as ->.
    { unfold rest in E. rewrite <- (Nat.add_0_r (Z.to_nat (pos r))), <- lookup_drop, E. done. }
    do 2 (erewrite bind_val by done). rewrite wrap_small; [done|]. unfold in_width in *. lia. }
  split.
  - destruct (rest r) as [|b l] eqn:E.
    + unfold take1. erewrite !bind_val by done. unfold id. cbn in Hl.
      destruct (Z.leb_spec (rlp_len r) (pos r)); [by left|lia].
    + rewrite (Hok b l) by done. exists [b]. split_conj; [done| |done]. by exists l.
  - intros b enc -> [l Hl']. by apply (Hok b l).
Qed.

Lemma lor_shift_byte v b : 0 ≤ v < 2 ^ 24 → is_u8 b → Z.lor (wrap 32 (Z.shiftl v 8)) b = v * 256 + b.
Proof.
  intros Hv Hb. rewrite Z.shiftl_mul_pow2 by lia. rewrite wrap_small by (unfold in_width; lia).
  assert (Z.land (v * 2 ^ 8) b = 0) as Hl.
  { apply Z.bits_inj'. intros n Hn. rewrite Z.land_spec, Z.bits_0.
    destruct (Z.lt_ge_cases n 8); [by rewrite Z.mul_pow2_bits_low|].
    rewrite <- (Z.mod_small b (2 ^ 8)) by apply Hb. rewrite Z.mod_pow2_bits_high by lia.
    apply andb_false_r. }
  change 256 with (2 ^ 8). by rewrite Z.add_nocarry_lxor, Z.lxor_lor.
Qed.

Lemma be_u32_fold s v :
  Forall is_u8 s → 0 ≤ v → v * 2 ^ (8 * Z.of_nat (length s)) + of_be_bytes s < 2 ^ 32 →
  foldl (λ v b, Z.lor (wrap 32 (Z.shiftl v 8)) b) v s
  = v * 2 ^ (8 * Z.of_nat (length s)) + of_be_bytes s.
Proof.
  intros Hs. revert v. induction Hs as [|b s Hb Hs IH]; intros v Hv Hlt.
  { change (of_be_bytes []) with 0. cbn. lia. }
  pose proof (of_be_bytes_bound s Hs) as Hbd. rewrite of_be_bytes_cons in *. cbn [length foldl] in *.
  rewrite pow_256_S in *. assert (0 < 2 ^ (8 * Z.of_nat (length s))) as Hpos by (apply Z.pow_pos_nonneg; lia).
  unfold in_width in Hb. rewrite lor_shift_byte by (try done; nia).
  rewrite IH by nia. nia.
Qed.

Lemma be_u32_value s :
  Forall is_u8 s → (length s ≤ 4)%nat →
  foldl (λ v b, Z.lor (wrap 32 (Z.shiftl v 8)) b) 0 s = of_be_bytes s ∧ is_u32 (of_be_bytes s).
Proof.
  intros Hs Hl. pose proof (of_be_bytes_bound s Hs) as Hb.
  assert (2 ^ (8 * Z.of_nat (length s)) ≤ 2 ^ 32) by (apply Z.pow_le_mono_r; lia).
  rewrite be_u32_fold by (done || lia). unfold in_width. lia.
Qed.

Lemma parses_be_u32 s :
  Forall is_u8 s → (length s ≤ 4)%nat → parses (be_u32 s) (λ v enc, v = of_be_bytes s ∧ enc = []).
Proof.
  intros Hs Hl. destruct (be_u32_value s Hs Hl) as [Hv Hw]. unfold be_u32. rewrite Hv, wrap_small.
  - eapply parses_equiv; [apply parses_when; [by left|intros _; apply parses_ret]|]. intros v enc. cbn.
    rewrite bool_decide_false by lia. tauto.
  - unfold in_width in *. pose proof usize_bits_pos. split; [lia|].
    eapply Z.lt_le_trans; [apply Hw|]. apply Z.pow_le_mono_r; lia.
Qed.

Lemma parses_long_length ll :
  0 ≤ ll → parses (long_length ll)
    (λ len enc, Z.of_nat (length enc) = ll ∧ (length enc ≤ 4)%nat ∧ len = of_be_bytes enc ∧ 56 ≤ len).
Proof.
  intros Hll. eapply parses_equiv.
  { unfold long_length. apply parses_when; [by left|]. intros Hle.
    apply parses_bind; [by apply parses_take_exact|]. intros s e1 [Hse Hs] He.
    apply parses_bind; [apply parses_be_u32; subst s; [done|lia]|]. intros len e2 _ _.
    apply parses_when; [by left|]. intros _. apply parses_ret. }
  intros len enc. split.
  - intros (Hle & s & e1 & ? & [-> Hs] & (? & ? & ? & [-> ->] & (Hlen & -> & ->) & ->) & ->).
    rewrite !app_nil_r. split_conj; try done; lia.
  - intros (Hs & Hle & -> & Hlen). split; [lia|]. exists enc, enc, []. split_conj; [done|done| |by rewrite app_nil_r].
    exists (of_be_bytes enc), [], []. split_conj; try done. split_conj; try done. lia.
Qed.
(** *** Strings and lists *)

Definition after_marker (m : Z) (s e2 : list Z) : Prop :=
  if m <? 0x80 then s = [m] ∧ e2 = []
  else if m <=? 0xb7 then Z.of_nat (length s) = m - 0x80 ∧ ¬ small_byte s ∧ e2 = s
  else if m <? 0xc0 then
    ∃ lb, Z.of_nat (length lb) = m - 0xb7 ∧ (length lb ≤ 4)%nat
      ∧ of_be_bytes lb = Z.of_nat (length s) ∧ (56 ≤ length s)%nat ∧ e2 = lb ++ s
  else False.

Lemma parses_at_byte b e1 r :
  cur_ok r → e1 = [b] → e1 `prefix_of` rest r →
  parses_at (r ← gets id; expect (slice (rlp_bytes r) (pos r - 1) 1))
    (λ s e2, s = [b] ∧ e2 = []) (adv (length e1) r).
Proof.
  intros Hr -> Hp. pose proof (prefix_length _ _ Hp) as Hl. cbn in Hl.
  pose proof (length_rest r Hr). unfold parses_at. erewrite !bind_val by done. unfold id.
  change (rlp_bytes (adv (length [b]) r)) with (rlp_bytes r).
  replace (pos (adv (length [b]) r) - 1) with (pos r) by (unfold adv; cbn; lia).
  rewrite slice_rest by (done || lia). change (Z.to_nat 1) with (length [b]).
  rewrite (take_prefix_of _ _ Hp). split.
  - exists []. rewrite adv_0. split_conj; try done. apply prefix_nil.
  - intros s enc [-> ->] _. by rewrite adv_0.
Qed.

Lemma parses_short_string len :
  0 ≤ len →
  parses (payload ← take_exact len;
          b ← (if len =? 1 then b ← expect (payload !! 0%nat); mret (b <? 0x80) else mret false);
          if (b : bool) then throw InvalidStructure else mret payload)
    (λ s e2, Z.of_nat (length s) = len ∧ ¬ small_byte s ∧ e2 = s).
Proof.
  intros Hlen. eapply parses_equiv.
  { apply parses_bind; [by apply parses_take_exact|]. intros s e1 [Hse Hs] He. subst e1.
    assert (∃ b, (if len =? 1 then b ← expect (s !! 0%nat); mret (b <? 0x80) else mret false)
                 = (mret b : Parser bool) ∧ (b = true ↔ small_byte s)) as (b & -> & Hb).
    { destruct (Z.eqb_spec len 1).
      - destruct s as [|b [|]]; cbn in Hs; try lia. exists (b <? 0x80). split; [done|].
        unfold small_byte. destruct (Z.ltb_spec b 0x80); naive_solver lia.
      - exists false. split; [done|]. split; [done|]. intros (b & -> & _). cbn in Hs. lia. }
    instantiate (1 := λ s s' e2, ¬ small_byte s ∧ s' = s ∧ e2 = []). cbn.
    assert (b = true ∨ b = false) as [-> | ->] by (by destruct b; auto).
    - intros r Hr. split; [by left|]. intros a enc [Hn _]. tauto.
    - apply (parses_equiv _ _ _ (parses_ret s)). intros a enc. split; [|tauto].
      intros [-> ->]. split_conj; try done. intros H. by apply Hb in H. }
  intros s enc. split.
  - intros (s' & e1 & e2 & [-> Hs] & (Hn & -> & ->) & ->). by rewrite app_nil_r.
  - intros (Hs & Hn & ->). exists s, s, []. rewrite app_nil_r. done.
Qed.

Lemma parses_long_string ll :
  0 ≤ ll →
  parses (len ← long_length ll; take_exact len)
    (λ s e2, ∃ lb, Z.of_nat (length lb) = ll ∧ (length lb ≤ 4)%nat
      ∧ of_be_bytes lb = Z.of_nat (length s) ∧ (56 ≤ length s)%nat ∧ e2 = lb ++ s).
Proof.
  intros Hll. eapply parses_equiv.
  { apply parses_bind; [by apply parses_long_length|]. intros len e1 (_ & _ & _ & Hlen) _.
    apply parses_take_exact. lia. }
  intros s enc. split.
  - intros (len & e1 & e2 & (H1 & H2 & H3 & H4) & [-> H5] & ->). exists e1. split_conj; try done; lia.
  - intros (lb & H1 & H2 & H3 & H4 & ->). exists (of_be_bytes lb), lb, s. split_conj; try done; try lia.
Qed.

Lemma bytes_after_marker : parses bytes (λ s enc, ∃ m e1 e2, e1 = [m] ∧ after_marker m s e2 ∧ enc = e1 ++ e2).
Proof.
  unfold bytes. apply parses_bind_at; [apply parses_take1|]. intros m e1 r Hr He1 Hp.
  pose proof (cur_ok_adv _ _ Hr Hp) as Hr'. unfold after_marker.
  destruct (Z.ltb_spec m 0x80); [by apply parses_at_byte|].
  destruct (Z.leb_spec m 0xb7); [apply parses_short_string; [lia|done]|].
  destruct (Z.ltb_spec m 0xc0); [apply parses_long_string; [lia|done]|].
  apply parses_throw; [by left|done].
Qed.

Lemma parses_bytes : parses bytes string_enc.
Proof.
  eapply parses_equiv_u8; [apply bytes_after_marker|]. intros s enc Hu. split.
  - intros (m & ? & e2 & -> & Ha & ->). unfold after_marker in Ha. cbn [app] in *.
    destruct (Z.ltb_spec m 0x80); [destruct Ha as [-> ->]; left; split; [by exists m|done]|].
    right. destruct (Z.leb_spec m 0xb7).
    { destruct Ha as (Hl & Hn & ->). split; [done|]. exists [m]. split; [|done].
      left. split; [lia|]. f_equal. lia. }
    destruct (Z.ltb_spec m 0xc0); [|done]. destruct Ha as (lb & Hlb & Hlb' & Hv & Hl & ->).
    split; [intros (b & -> & _); cbn in Hl; lia|]. exists (m :: lb). split; [|done].
    right. split; [done|]. exists lb. split_conj; try done; try lia. f_equal. lia.
  - intros [[(b & -> & Hb) ->] | (Hn & hdr & Hh & ->)].
    { exists b, [b], []. split_conj; try done. unfold after_marker.
      by destruct (Z.ltb_spec b 0x80); [|lia]. }
    destruct Hh as [[Hl ->] | (Hl & lb & Hlb & Hv & ->)]; eexists _, [_], _;
      (split_conj; [done| |done]); unfold after_marker.
    + destruct (Z.ltb_spec (0x80 + Z.of_nat (length s)) 0x80); [lia|].
      destruct (Z.leb_spec (0x80 + Z.of_nat (length s)) 0xb7); [|lia]. split_conj; [lia|done..].
    + destruct (Z.ltb_spec (0x80 + 55 + Z.of_nat (length lb)) 0x80); [lia|].
      destruct (Z.leb_spec (0x80 + 55 + Z.of_nat (length lb)) 0xb7); [lia|].
      destruct (Z.ltb_spec (0x80 + 55 + Z.of_nat (length lb)) 0xc0); [|lia].
      exists lb. split_conj; [lia|lia|done..].
Qed.

Lemma parses_list : parses list_ (λ inner enc, ∃ payload, inner = Rlp_new payload ∧ list_enc payload enc).
Proof.
  eapply parses_equiv.
  { unfold list_. apply parses_bind; [apply parses_take1|]. intros m e1 He1 _.
    apply parses_when; [by left|]. intros Hm. apply Z.ltb_ge in Hm.
    apply parses_bind.
    { apply parses_if; [intros _; apply parses_ret|]. intros Hge%Z.leb_gt.
      apply parses_long_length. lia. }
    intros len e2 Hlen _. apply parses_bind; [apply parses_take_exact|].
    { destruct (m <=? 0xf7); [destruct Hlen as [-> _]; lia|]. destruct Hlen as (_ & _ & _ & ?). lia. }
    intros content e3 _ _. apply parses_ret. }
  intros inner enc. split.
  - intros (m & ? & ? & -> & (Hm & len & e2 & ? & Hlen & (content & ? & ? & [<- Hc] & [-> ->] & ->) & ->) & ->).
    exists content. split; [done|]. rewrite app_nil_r. apply Z.ltb_ge in Hm.
    destruct (Z.leb_spec m 0xf7).
    + destruct Hlen as [-> ->]. exists [m]. split; [|done]. left. split; [lia|]. f_equal. lia.
    + destruct Hlen as (H1 & H2 & -> & H4). exists (m :: e2). split; [|done].
      right. split; [lia|]. exists e2. split_conj; try done; try lia. f_equal. lia.
  - intros (payload & -> & hdr & Hh & ->).
    destruct Hh as [[Hl ->] | (Hl & lb & Hlb & Hv & ->)]; eexists _, [_], _;
      refine (conj eq_refl (conj _ eq_refl)); (split; [apply Z.ltb_ge; lia|]).
    + exists (Z.of_nat (length payload)), [], payload. split_conj; [| |done].
      * destruct (Z.leb_spec (0xc0 + Z.of_nat (length payload)) 0xf7); [|lia]. split; [lia|done].
      * exists payload, payload, []. by rewrite app_nil_r.
    + exists (of_be_bytes lb), lb, payload. split_conj; [| |done].
      * destruct (Z.leb_spec (0xc0 + 55 + Z.of_nat (length lb)) 0xf7); [lia|]. split_conj; lia.
      * exists payload, payload, []. by rewrite app_nil_r.
Qed.

(** *** Integers *)

(** A decoder followed by a pure check. *)
Lemma parses_pure {A B} (m : Parser A) (f : A → Parser B) (g : A → option B) (Q : A → list Z → Prop) :
  parses m Q →
  (∀ a enc r, Q a enc → Forall is_u8 enc → f a r = lift_opt InvalidStructure (g a) r) →
  parses (m ≫= f) (λ b enc, ∃ a, Q a enc ∧ g a = Some b).
Proof.
  intros Hm Hf. eapply parses_equiv.
  { eapply (parses_bind _ _ _ (λ a b e, g a = Some b ∧ e = [])); [exact Hm|].
    intros a e1 HQ Hu r Hr. unfold parses_at. rewrite (Hf a e1 r HQ Hu).
    destruct (g a) as [b|]; cbn; (split; [|intros c enc [? ->] _]); simplify_eq.
    - exists []. rewrite adv_0. split_conj; try done. apply prefix_nil.
    - by rewrite adv_0.
    - by left. }
  intros b enc. split.
  - intros (a & e1 & ? & HQ & [Hg ->] & ->). exists a. by rewrite app_nil_r.
  - intros (a & HQ & Hg). exists a, enc, []. by rewrite app_nil_r.
Qed.

Lemma minimal_be_of s :
  Forall is_u8 s → leading_zero s = false → minimal_be (of_be_bytes s) = s.
Proof.
  intros Hs Hz. destruct s as [|b s]; [done|]. cbn in Hz. apply Z.eqb_neq in Hz.
  inversion Hs as [|? ? Hb Hs']; subst. pose proof (of_be_bytes_bound s Hs').
  unfold minimal_be. rewrite (width_of_full _ (length s)).
  - apply (be_bytes_of_be_bytes (b :: s)). done.
  - rewrite of_be_bytes_cons, pow_256_S. unfold in_width in Hb. change (2 ^ 8) with 256 in Hb. nia.
Qed.

Lemma minimal_no_zero v : 0 ≤ v → leading_zero (minimal_be v) = false.
Proof.
  intros Hv. destruct (decide (v = 0)) as [->|]; [done|].
  destruct (width_of_pos v) as (k & Hk & Hle); [lia|]. unfold minimal_be. rewrite Hk, be_bytes_S.
  cbn [leading_zero]. apply Z.eqb_neq. pose proof (of_be_bytes_minimal v Hv) as Hm.
  unfold minimal_be in Hm. rewrite Hk, be_bytes_S, of_be_bytes_cons, length_be_bytes in Hm.
  intros E. rewrite E, of_be_bytes_be_bytes in Hm.
  pose proof (Z.mod_pos_bound v (2 ^ (8 * Z.of_nat k))). lia.
Qed.

(** A string that is an integer of [w] bytes. *)
Lemma int_enc_string w v enc :
  Forall is_u8 enc →
  int_enc (8 * Z.of_nat w) v enc ↔
  ∃ s, string_enc s enc ∧ leading_zero s = false ∧ (length s ≤ w)%nat ∧ of_be_bytes s = v.
Proof.
  intros Hu. split.
  - intros [[H0 Hlt] Hs]. exists (minimal_be v). split_conj; [done|by apply minimal_no_zero| |by apply of_be_bytes_minimal].
    by apply width_of_le.
  - intros (s & Hs & Hz & Hl & <-). assert (Forall is_u8 s) as Hsu.
    { destruct Hs as [[_ ->] | (_ & hdr & _ & ->)]; [done|]. by apply Forall_app in Hu as [_ ?]. }
    pose proof (of_be_bytes_bound s Hsu) as [H0 Hlt]. split.
    + split; [done|]. apply width_of_le; [done|]. by rewrite minimal_be_of.
    + by rewrite minimal_be_of.
Qed.

Lemma parses_u8 : parses u8 (int_enc 8).
Proof.
  eapply parses_equiv_u8.
  { apply (parses_pure _ _ (λ s, match s with
                                 | [] => Some 0
                                 | [b] => if b =? 0 then None else Some b
                                 | _ => None
                                 end)); [apply parses_bytes|].
    intros s enc r _ _. destruct s as [|b [|]]; try done. by destruct (b =? 0). }
  intros v enc Hu. rewrite (int_enc_string 1 v enc Hu). split.
  - intros (s & Hs & Hg). exists s. destruct s as [|b [|]]; simplify_eq.
    { split_conj; [done|done|cbn; lia|done]. }
    destruct (Z.eqb_spec b 0) as [|Hb]; simplify_eq. split_conj; [done|by apply Z.eqb_neq|done|].
    unfold of_be_bytes. cbn. lia.
  - intros (s & Hs & Hz & Hl & <-). exists s. split; [done|]. destruct s as [|b [|]]; cbn in *; try lia; [done|].
    rewrite Hz. f_equal. unfold of_be_bytes. cbn. lia.
Qed.

Lemma of_be_bytes_pad n s : of_be_bytes (repeat 0 n ++ s) = of_be_bytes s.
Proof. induction n as [|n IH]; [done|]. cbn [repeat app]. rewrite of_be_bytes_cons, IH. lia. Qed.

Lemma parses_u64 : parses u64 (int_enc 64).
Proof.
  eapply parses_equiv_u8.
  { apply (parses_pure _ _ (λ s, if bool_decide (8 < length s)%nat then None
                                 else if leading_zero s then None
                                 else Some (of_be_bytes (repeat 0 (8 - length s) ++ s)))); [apply parses_bytes|].
    intros s enc r _ _. case_bool_decide; [done|]. by destruct (leading_zero s). }
  intros v enc Hu. rewrite (int_enc_string 8 v enc Hu). split.
  - intros (s & Hs & Hg). case_bool_decide; [done|]. destruct (leading_zero s) eqn:Hz; [done|].
    rewrite of_be_bytes_pad in Hg. exists s. split_conj; [done..|lia|congruence].
  - intros (s & Hs & Hz & Hl & <-). exists s. split; [done|].
    by rewrite bool_decide_false, Hz, of_be_bytes_pad by lia.
Qed.

Lemma parses_u256 : parses u256 (int_enc 256).
Proof.
  eapply parses_equiv_u8.
  { apply (parses_pure _ _ (λ s, if leading_zero s then None else u_try_from_be_slice s)); [apply parses_bytes|].
    intros s enc r _ _. by destruct (leading_zero s). }
  intros v enc Hu. rewrite (int_enc_string 32 v enc Hu).
  assert (∀ s, string_enc s enc → Forall is_u8 s) as Hsu.
  { intros s [[_ ->] | (_ & hdr & _ & ->)]; [done|]. by apply Forall_app in Hu as [_ ?]. }
  split.
  - intros (s & Hs & Hg). exists s. destruct (leading_zero s) eqn:Hz; [done|]. pose proof (Hsu s Hs) as Hu'.
    assert (length s ≤ 32)%nat as Hl.
    { pose proof (of_be_bytes_bound s Hu') as [H0 _]. rewrite <- (minimal_be_of s Hu' Hz).
      apply width_of_le; [done|]. apply Z.nle_gt. intros Hge.
      by rewrite u_try_from_be_slice_large in Hg. }
    rewrite u_try_from_be_slice_spec in Hg by done. split_conj; try done. congruence.
  - intros (s & Hs & Hz & Hl & <-). exists s. split; [done|]. rewrite Hz.
    by apply u_try_from_be_slice_spec; [apply Hsu|].
Qed.

Lemma string_enc_nil enc : string_enc [] enc ↔ enc = [0x80].
Proof.
  split.
  - intros [[(b & ? & _) _] | (_ & hdr & [[_ ->] | [H _]] & ->)]; [done|done|]. cbn in H. lia.
  - intros ->. right. split; [by intros (b & ? & _)|]. exists [0x80]. split; [|done]. left. split; [cbn; lia|done].
Qed.

Lemma string_enc_small b enc : b < 0x80 → string_enc [b] enc ↔ enc = [b].
Proof.
  intros Hb. split.
  - intros [[_ ->] | (Hn & _)]; [done|]. destruct Hn. by exists b.
  - intros ->. left. split; [by exists b|done].
Qed.

Lemma parses_bool : parses bool_ bool_enc.
Proof.
  eapply parses_equiv.
  { apply (parses_pure _ _ (λ v, if v =? 0 then Some false else if v =? 1 then Some true else None)); [apply parses_u8|].
    intros v enc r _ _. destruct (v =? 0); [done|]. by destruct (v =? 1). }
  intros b enc. unfold bool_enc, int_enc. split.
  - intros (v & [Hv Hs] & Hg). destruct (Z.eqb_spec v 0) as [->|]; simplify_eq; [by apply string_enc_nil in Hs|].
    destruct (Z.eqb_spec v 1) as [->|]; simplify_eq.
    change (minimal_be 1) with [1] in Hs. by apply (string_enc_small 1) in Hs; [|lia].
  - intros ->. exists (if b then 1 else 0). split; [|by destruct b]. split; [by destruct b|].
    destruct b; [by apply (string_enc_small 1)|by apply string_enc_nil].
Qed.

(** *** Lists *)

Lemma string_enc_nonempty s enc : string_enc s enc → enc ≠ [].
Proof.
  intros [[(b & -> & _) ->] | (_ & hdr & [[_ ->] | (_ & lb & _ & _ & ->)] & ->)]; done.
Qed.

Lemma list_enc_nonempty payload enc : list_enc payload enc → enc ≠ [].
Proof. intros (hdr & [[_ ->] | (_ & lb & _ & _ & ->)] & ->); done. Qed.

Lemma list_enc_bounds payload enc :
  list_enc payload enc → Forall is_u8 enc →
  Forall is_u8 payload ∧ (length payload ≤ length enc)%nat ∧ Z.of_nat (length payload) < 2 ^ 32.
Proof.
  intros (hdr & Hh & ->) Hu. apply Forall_app in Hu as [Hu1 Hu2]. rewrite length_app. split_conj; [done|lia|].
  destruct Hh as [[Hl _] | (_ & lb & Hlb & <- & ->)]; [lia|]. apply Forall_cons in Hu1 as [_ Hu1].
  by apply be_u32_value; [|lia].
Qed.

Lemma usize_holds_u32 x : 0 ≤ x < 2 ^ 32 → in_width usize_bits x.
Proof.
  intros Hx. pose proof usize_bits_pos. split; [lia|]. eapply Z.lt_le_trans; [apply Hx|].
  apply Z.pow_le_mono_r; lia.
Qed.

(** A list followed by something that only looks at its payload. *)
Lemma parses_list_then {A} (k : Rlp → Parser A) (Q : list Z → A → Prop) :
  (∀ payload, Forall is_u8 payload → cur_ok (Rlp_new payload) → ∃ o,
     (∀ r, k (Rlp_new payload) r = (o, r))
     ∧ match o with Val a => Q payload a | Err e => parse_error e | Fault => False end
     ∧ ∀ a, Q payload a → o = Val a) →
  parses (list_ ≫= k) (λ a enc, ∃ payload, list_enc payload enc ∧ Q payload a).
Proof.
  intros Hk. assert (∀ payload enc, list_enc payload enc → Forall is_u8 enc →
    Forall is_u8 payload ∧ cur_ok (Rlp_new payload)) as Hok.
  { intros payload enc Hl Hu. destruct (list_enc_bounds _ _ Hl Hu) as (H1 & _ & H2). split; [done|].
    apply cur_ok_new; [done|]. apply usize_holds_u32. lia. }
  eapply parses_equiv_u8.
  { eapply (parses_bind _ _ _ (λ inner a e, Q (rlp_bytes inner) a ∧ e = [])); [apply parses_list|].
    intros inner enc (payload & -> & Hl) Hu r Hr. destruct (Hok _ _ Hl Hu) as [Hu' Hc].
    destruct (Hk payload Hu' Hc) as (o & Ho & H1 & H2). unfold parses_at. rewrite Ho. cbn. split.
    - destruct o as [a|e|]; try done. exists []. rewrite adv_0. split_conj; try done. apply prefix_nil.
    - intros a e [HQ ->] _. by rewrite (H2 a HQ), adv_0. }
  intros a enc Hu. split.
  - intros (inner & e1 & ? & (payload & -> & Hl) & [HQ ->] & ->). exists payload. by rewrite app_nil_r.
  - intros (payload & Hl & HQ). exists (Rlp_new payload), enc, []. rewrite app_nil_r.
    split_conj; try done. by exists payload.
Qed.

Lemma adv_full payload (enc : list Z) :
  is_empty (adv (length enc) (Rlp_new payload)) = bool_decide (length enc = length payload).
Proof.
  unfold is_empty, rlp_len, adv. cbn. destruct (Z.eqb_spec (Z.of_nat (length enc)) (Z.of_nat (length payload)));
    case_bool_decide; done || lia.
Qed.

Lemma prefix_all (l k : list Z) : l `prefix_of` k → length l = length k → l = k.
Proof.
  intros [m ->] Hl. rewrite length_app in Hl. destruct m; [by rewrite app_nil_r|]. cbn in Hl. lia.
Qed.

Lemma parses_in_list {A} (body : Parser A) Q :
  parses body Q → parses (in_list body) (λ a enc, ∃ payload, list_enc payload enc ∧ Q a payload).
Proof.
  intros Hb. unfold in_list. apply (parses_list_then _ (λ payload a, Q a payload)).
  intros payload Hu Hc. destruct (Hb _ Hc) as [H1 H2].
  change (rest (Rlp_new payload)) with payload in *.
  unfold mbind at 1, M_bind, on_cursor. destruct (body (Rlp_new payload)) as [[a|e|] r'] eqn:E; cbn.
  - destruct H1 as (enc & HQ & Hp & ->). unfold require_consumed. rewrite adv_full. case_bool_decide as Hl; cbn.
    + apply prefix_all in Hl; [|done]. subst enc. exists (Val a). split_conj; [done|done|].
      intros b HQb. apply H2 in HQb; [|done]. congruence.
    + exists (Err InvalidStructure). split_conj; [done|by left|]. intros b HQb.
      apply H2 in HQb; [|done]. unfold adv in HQb. injection HQb as _ Hl'. lia.
  - exists (Err e). split_conj; [done|done|]. intros b HQb. apply H2 in HQb; [|done]. congruence.
  - done.
Qed.

Lemma remaining_new payload : remaining (Rlp_new payload) = (Val payload, Rlp_new payload).
Proof.
  unfold remaining. erewrite bind_val by done. unfold expect, slice, id, Rlp_new, rlp_len. cbn.
  rewrite Z.sub_0_r, (proj2 (Z.leb_le 0 _)) by lia. rewrite Z.leb_refl. cbn.
  by rewrite Nat2Z.id, firstn_all.
Qed.

Lemma take_all_new payload :
  cur_ok (Rlp_new payload) →
  take_exact (Z.of_nat (length payload)) (Rlp_new payload)
  = (Val payload, adv (length payload) (Rlp_new payload)).
Proof.
  intros Hc. apply (parses_take_exact (Z.of_nat (length payload)) ltac:(lia) _ Hc); done.
Qed.

Definition fixed_list_enc {T} `{RlpFixedItem T} (v : FixedList T) (enc : list Z) : Prop :=
  list_enc (fl_payload v) enc
  ∧ Z.of_nat (length (fl_payload v)) = fl_count v * ENCODING_LEN.

Lemma parses_fixed_list {T} `{RlpFixedItem T} :
  0 < ENCODING_LEN → parses FixedList_decode_list_from (fixed_list_enc (T:=T)).
Proof.
  intros Hpos. eapply parses_equiv.
  { unfold FixedList_decode_list_from.
    apply (parses_list_then _ (λ payload (v : FixedList T), v = mkFixedList payload (fl_count v)
             ∧ Z.of_nat (length payload) = fl_count v * ENCODING_LEN)).
    intros payload Hu Hc. unfold mbind at 1, M_bind, on_cursor. rewrite remaining_new, take_all_new by done. cbn.
    destruct (Z.eqb_spec (Z.of_nat (length payload) mod ENCODING_LEN) 0) as [Hm|Hm]; cbn.
    - eexists (Val _). split_conj; [done|done| |]; cbn.
      + apply Z.div_exact in Hm; lia.
      + intros [p c]. cbn. intros [[= ->] Hl]. do 2 f_equal. rewrite Hl. apply Z.div_mul. lia.
    - exists (Err InvalidStructure). split_conj; [done|by left|]. intros [p c]. cbn. intros [_ Hl].
      destruct Hm. rewrite Hl. apply Z.mod_mul. lia. }
  intros [p c] enc. unfold fixed_list_enc. cbn. split.
  - intros (payload & Hl & [= ->] & Hlen). done.
  - intros [Hl Hlen]. by exists p.
Qed.

(** *** Lists of homogeneous items *)

(** What the list views need of their items. *)
Class ItemSpec {T : Type} (D : RlpItemDecode T) (Q : T → list Z → Prop) : Prop := {
  item_parses : parses (decode_from_item (T:=T)) Q;
  item_nonempty a enc : Q a enc → enc ≠ []
}.

Section Homogeneous.
Context {T : Type} {D : RlpItemDecode T} (Q : T → list Z → Prop) {IS : ItemSpec D Q}.

Lemma items_enc_length items payload : items_enc Q items payload → (length items ≤ length payload)%nat.
Proof.
  revert payload. induction items as [|a items IH]; intros payload; cbn; [intros ->; cbn; lia|].
  intros (e & p & HQ & Hi & ->). apply IH in Hi. rewrite length_app.
  apply item_nonempty in HQ. destruct e; [done|]. cbn. lia.
Qed.

Lemma is_empty_rest r : cur_ok r → is_empty r = bool_decide (rest r = []).
Proof.
  intros Hr. pose proof (length_rest r Hr). unfold is_empty.
  destruct (Z.eqb_spec (pos r) (rlp_len r)); case_bool_decide as E; try done.
  - destruct E. apply nil_length_inv. lia.
  - rewrite E in *. cbn in *. lia.
Qed.

Lemma validate_loop_spec fuel c r :
  cur_ok r → (length (rest r) ≤ fuel)%nat → 0 ≤ c →
  in_width usize_bits (c + Z.of_nat (length (rest r))) →
  match validate_loop fuel c r with
  | (Val c', _) => ∃ items, items_enc Q items (rest r) ∧ c' = c + Z.of_nat (length items)
  | (Err e, _) => parse_error e
  | (Fault, _) => False
  end
  ∧ ∀ items, items_enc Q items (rest r) →
      ∃ r', validate_loop fuel c r = (Val (c + Z.of_nat (length items)), r').
Proof.
  revert c r. induction fuel as [|fuel IH]; intros c r Hr Hf Hc Hw; cbn [validate_loop];
    rewrite is_empty_rest by done; case_bool_decide as E.
  1, 3: split; [exists []; cbn; split; [done|lia]|].
  1, 2: intros [|a items]; [intros _; exists r; do 2 f_equal; cbn; lia|];
    cbn; rewrite E; intros (e & p & HQ & _ & Hn); apply item_nonempty in HQ; by destruct e.
  { destruct (rest r); [done|]. cbn in Hf. lia. }
  destruct (item_parses r Hr) as [H1 H2].
  assert (∀ a e, Q a e → e `prefix_of` rest r →
    cur_ok (adv (length e) r) ∧ (length (rest (adv (length e) r)) ≤ fuel)%nat
    ∧ wrap usize_bits (c + 1) = c + 1
    ∧ in_width usize_bits (c + 1 + Z.of_nat (length (rest (adv (length e) r))))
    ∧ rest r = e ++ rest (adv (length e) r)) as Hstep.
  { intros a e HQ [k Hk]. assert (e `prefix_of` rest r) as Hp by (by exists k).
    assert (rest (adv (length e) r) = k) as Hk'.
    { rewrite rest_adv by apply Hr. by rewrite Hk, drop_app_length. }
    assert (0 < length e)%nat as He by (apply item_nonempty in HQ; destruct e; [done|cbn; lia]).
    split; [by apply cur_ok_adv|]. rewrite Hk'. rewrite Hk, length_app in Hf, Hw. unfold in_width in *.
    split_conj; try done; try lia. apply wrap_small. unfold in_width. lia. }
  unfold mbind, M_bind. split.
  - destruct (decode_from_item r) as [[a|e|] r']; try done.
    destruct H1 as (e & HQ & Hp & ->). destruct (Hstep a e HQ Hp) as (Hok & Hf' & Hw1 & Hw' & Hsplit).
    rewrite Hw1. destruct (IH (c + 1) _ Hok Hf' ltac:(lia) Hw') as [H3 _].
    destruct (validate_loop fuel (c + 1) _) as [[c'|e'|] r2]; try done.
    destruct H3 as (items & Hi & ->). exists (a :: items). split; [by exists e, (rest (adv (length e) r))|]. cbn. lia.
  - intros [|a items]; [intros Hn; by rewrite Hn in E|]. intros (e & p & HQ & Hi & Hsplit').
    assert (e `prefix_of` rest r) as Hp by (by exists p).
    destruct (Hstep a e HQ Hp) as (Hok & Hf' & Hw1 & Hw' & Hsplit). rewrite (H2 a e HQ Hp), Hw1.
    rewrite Hsplit in Hsplit'. apply app_inv_head in Hsplit'. subst p.
    destruct (IH (c + 1) _ Hok Hf' ltac:(lia) Hw') as [_ H4]. destruct (H4 items Hi) as [r2 ->].
    exists r2. cbn. do 2 f_equal. lia.
Qed.

Definition hom_list_enc (v : HomList T) (enc : list Z) : Prop :=
  list_enc (hl_payload v) enc ∧
  ∃ items, items_enc Q items (hl_payload v) ∧ hl_count v = Some (Z.of_nat (length items)).

Lemma parses_hom_list : parses (HomList_decode_list_from true) hom_list_enc.
Proof.
  eapply parses_equiv.
  { unfold HomList_decode_list_from.
    apply (parses_list_then _ (λ payload (v : HomList T), hl_payload v = payload ∧
      ∃ items, items_enc Q items payload ∧ hl_count v = Some (Z.of_nat (length items)))).
    intros payload Hu Hc. unfold mbind at 1, M_bind, on_cursor. rewrite remaining_new, take_all_new by done. cbn.
    destruct (validate_loop_spec (length payload) 0 (Rlp_new payload)) as [H1 H2]; try done; [apply Hc|].
    change (rest (Rlp_new payload)) with payload in *.
    destruct (validate_loop (length payload) 0 (Rlp_new payload)) as [[c|e|] r']; cbn.
    - destruct H1 as (items & Hi & ->). eexists (Val _). split_conj; [done|done|by exists items|].
      intros [p c]. cbn. intros (-> & items' & Hi' & ->). destruct (H2 items' Hi') as [r2 Hn].
      apply (f_equal fst) in Hn. cbn in Hn. injection Hn as Hn. by rewrite Hn.
    - exists (Err e). split_conj; [done|done|]. intros v (_ & items & Hi & _). by destruct (H2 items Hi).
    - done. }
  intros [p c] enc. unfold hom_list_enc. cbn. split.
  - intros (payload & Hl & -> & H). done.
  - intros [Hl H]. by exists p.
Qed.
End Homogeneous.

End Logic.
