(* ===== verification/RlpTheorems.v ===== *)
(** * Theorems about the RLP cursor

    The canonical encodings are among those accepted, the encodings fed to the
    hash are canonical, iterating over a decoded list yields its items, and what
    the cursor accepts beyond RLP. *)

From stdpp Require Import list.
From S2P Require Import Prelude U256 Rlp Resources SystemInterface BootloaderErrors RlpParser RlpLogic.

(** ** Canonical encodings *)

Lemma header_enc_canonical base len :
  Z.of_nat len < 2 ^ 32 → header_enc base len (rlp_header base len).
Proof.
  intros Hlen. unfold header_enc, rlp_header. destruct (Nat.ltb_spec len 56); [left; split; [done|done]|].
  right. split; [done|]. exists (minimal_be (Z.of_nat len)).
  split_conj; [|by apply (width_of_le 4); lia|apply of_be_bytes_minimal; lia|done].
  destruct (width_of_pos (Z.of_nat len)) as (k & Hk & _); [lia|]. unfold minimal_be. rewrite length_be_bytes, Hk. lia.
Qed.

(** Without leading zeros in the length, the header is that of RLP. *)
Lemma header_enc_unique base len lb :
  Forall is_u8 lb → leading_zero lb = false → of_be_bytes lb = Z.of_nat len → (56 ≤ len)%nat →
  (base + 55 + Z.of_nat (length lb)) :: lb = rlp_header base len.
Proof.
  intros Hu Hz Hv Hlen. unfold rlp_header. destruct (Nat.ltb_spec len 56); [lia|].
  by rewrite <- Hv, minimal_be_of.
Qed.

Lemma rlp_string_cases s :
  (small_byte s ∧ rlp_string s = s)
  ∨ (¬ small_byte s ∧ rlp_string s = rlp_header 0x80 (length s) ++ s).
Proof.
  unfold small_byte, rlp_string. destruct s as [|b [|b' s]]; [right; naive_solver| |right; naive_solver].
  destruct (Z.ltb_spec b 128); [left; naive_solver|right; naive_solver lia].
Qed.

Lemma string_enc_canonical s : Z.of_nat (length s) < 2 ^ 32 → string_enc s (rlp_string s).
Proof.
  intros Hl. destruct (rlp_string_cases s) as [[Hs ->]|[Hs ->]]; [by left|].
  right. split; [done|]. eexists. split; [by apply header_enc_canonical|done].
Qed.

Lemma list_enc_canonical payload :
  Z.of_nat (length payload) < 2 ^ 32 → list_enc payload (rlp_header 0xc0 (length payload) ++ payload).
Proof. intros Hl. eexists. split; [by apply header_enc_canonical|done]. Qed.

Lemma int_enc_canonical w v :
  in_width w v → w ≤ 256 → int_enc w v (rlp_string (minimal_be v)).
Proof.
  intros Hv Hw. split; [done|]. apply string_enc_canonical.
  assert (length (minimal_be v) ≤ 32)%nat; [|lia]. apply width_of_le; [apply Hv|].
  eapply Z.lt_le_trans; [apply Hv|]. apply Z.pow_le_mono_r; lia.
Qed.

(** ** Encodings fed to a hash *)

Lemma byte_count w v :
  0 < v → 0 ≤ w → v < 2 ^ (8 * w) →
  let bits := 8 * w - leading_zeros (8 * w) v in
  next_multiple_of bits 8 / 8 = Z.of_nat (width_of v) ∧ (width_of v ≤ Z.to_nat w)%nat.
Proof.
  intros Hv Hw Hlt bits. split.
  - unfold bits, leading_zeros. destruct (Z.eqb_spec v 0); [lia|].
    replace (8 * w - (8 * w - 1 - Z.log2 v)) with (Z.log2 v + 1) by lia.
    unfold width_of. destruct (Z.eqb_spec v 0); [done|]. pose proof (Z.log2_nonneg v).
    pose proof (Z.div_pos (Z.log2 v) 8). rewrite Z2Nat.id by lia.
    destruct (next_multiple_of_spec (Z.log2 v + 1) 8) as [Hb Hm]; [lia|].
    symmetry. apply Z.div_unique with 0; [lia|]. apply Z.div_exact in Hm; [|lia].
    pose proof (Z.mod_pos_bound (Z.log2 v) 8). pose proof (Z.div_mod (Z.log2 v) 8). lia.
  - apply width_of_bound. rewrite Z2Nat.id by done. lia.
Qed.

Lemma drop_be_bytes k v :
  0 ≤ v → (width_of v ≤ k)%nat → drop (k - width_of v) (be_bytes k v) = minimal_be v.
Proof.
  intros Hv. induction k as [|k IH]; intros Hk.
  { unfold minimal_be. by replace (width_of v) with 0%nat by lia. }
  destruct (decide (width_of v = S k)) as [E|E].
  { unfold minimal_be. by rewrite E, Nat.sub_diag. }
  rewrite be_bytes_S. replace (S k - width_of v)%nat with (S (k - width_of v)) by lia. cbn [drop]. apply IH. lia.
Qed.

Lemma list_header_to_hash len hasher :
  is_u32 (Z.of_nat len) →
  apply_list_concatenation_encoding_to_hash (Z.of_nat len) hasher = hasher ++ rlp_header 0xc0 len.
Proof.
  intros Hl. unfold apply_list_concatenation_encoding_to_hash, rlp_header.
  destruct (Z.ltb_spec (Z.of_nat len) 56), (Nat.ltb_spec len 56); try lia.
  { rewrite (wrap_small 8 (Z.of_nat len)), wrap_small by (unfold in_width; lia). done. }
  destruct (byte_count 4 (Z.of_nat len)) as [Hb Hw]; [lia|lia|apply Hl|].
  change (8 * 4) with 32 in Hb. rewrite Hb. cbn in Hw.
  rewrite (wrap_small 8 (Z.of_nat (width_of _))), wrap_small by (unfold in_width; lia).
  replace (Z.to_nat (4 - Z.of_nat (width_of (Z.of_nat len)))) with (4 - width_of (Z.of_nat len))%nat by lia.
  rewrite drop_be_bytes by lia. unfold minimal_be at 2. by rewrite length_be_bytes.
Qed.

Lemma u64_to_hash v hasher :
  is_u64 v → apply_u64_encoding_to_hash v hasher = hasher ++ rlp_string (minimal_be v)
             ∧ u64_encoding_len v = Z.of_nat (length (rlp_string (minimal_be v))).
Proof.
  intros Hv. unfold apply_u64_encoding_to_hash, u64_encoding_len.
  destruct (Z.eqb_spec v 0) as [->|Hz]; [done|]. unfold in_width in Hv.
  destruct (byte_count 8 v) as [Hb Hw]; [lia|lia|apply Hv|].
  change (8 * 8) with 64 in Hb. rewrite Hb. cbn in Hw.
  destruct (Z.ltb_spec v 0x80) as [Hs|Hs].
  { assert (minimal_be v = [v]) as ->.
    { unfold minimal_be. rewrite (width_of_full v 0) by (cbn; lia). unfold be_bytes. cbn.
      by rewrite Z.mod_small by lia. }
    rewrite wrap_small by (unfold in_width; lia). cbn. by destruct (Z.ltb_spec v 128); [|lia]. }
  assert (¬ small_byte (minimal_be v)) as Hn.
  { intros (b & Hm & Hb'). pose proof (of_be_bytes_minimal v ltac:(lia)) as Hv'. rewrite Hm in Hv'.
    unfold of_be_bytes in Hv'. cbn in Hv'. lia. }
  destruct (rlp_string_cases (minimal_be v)) as [[? _]|[_ ->]]; [done|].
  assert (length (minimal_be v) = width_of v) as Hl by apply length_be_bytes.
  unfold rlp_header. rewrite Hl. destruct (Nat.ltb_spec (width_of v) 56); [|lia].
  rewrite length_app, Hl. cbn [length]. split; [|lia].
  rewrite (wrap_small 8 (Z.of_nat (width_of v))), wrap_small by (unfold in_width; lia).
  replace (Z.to_nat (8 - Z.of_nat (width_of v))) with (8 - width_of v)%nat by lia.
  by rewrite drop_be_bytes by lia.
Qed.

(** ** Iteration

    A [for] loop over an iterator: calling [next] until it is done. *)

Fixpoint for_each {S A : Type} (next : M S Empty_set (option A)) (fuel : nat) : M S Empty_set (list A) :=
  match fuel with
  | O => fault
  | Datatypes.S fuel =>
      o ← next;
      match o with
      | None => mret []
      | Some a => l ← for_each next fuel; mret (a :: l)
      end
  end.

Section Iteration.
Context {R : Ruint} {RS : RuintSpec} {UZ : Usize}.

Lemma for_each_done {S A} (next : M S Empty_set (option A)) n s s' :
  next s = (Val None, s') → for_each next (Datatypes.S n) s = (Val [], s').
Proof. intros H. cbn [for_each]. by erewrite bind_val by exact H. Qed.

Lemma for_each_next {S A} (next : M S Empty_set (option A)) n s s1 s2 a l :
  next s = (Val (Some a), s1) → for_each next n s1 = (Val l, s2) →
  for_each next (Datatypes.S n) s = (Val (a :: l), s2).
Proof.
  intros H H'. cbn [for_each]. erewrite bind_val by exact H. cbv beta iota. by erewrite bind_val by exact H'.
Qed.

Lemma HomListIter_next_eq {T} `{RlpItemDecode T} r ok :
  HomListIter_next (mkHomListIter (T:=T) r ok) =
  if is_empty r then (Val None, mkHomListIter r ok)
  else match decode_from_item r with
       | (Val v, r') => (Val (Some v), mkHomListIter r' ok)
       | (_, r') => (Fault, mkHomListIter r' ok)
       end.
Proof.
  unfold HomListIter_next, on_hi_r, zoom, unwrap, mbind, M_bind, gets, id. cbn [hi_r hi_remaining_ok].
  destruct (is_empty r); [done|]. cbn [hi_r hi_remaining_ok]. by destruct (decode_from_item r) as [[v|e|] r'].
Qed.

Lemma FixedListIter_next_eq {T} `{RlpFixedItem T} payload idx count :
  FixedListIter_next (mkFixedListIter (T:=T) payload idx count) =
  let next := mkFixedListIter payload (wrap usize_bits (idx + 1)) count in
  let start := wrap usize_bits (idx * ENCODING_LEN) in
  if count <=? idx then (Val None, mkFixedListIter payload idx count)
  else match slice payload start (wrap usize_bits (start + ENCODING_LEN) - start) with
       | Some encoded => (Val (Some (decode_from_fixed encoded)), next)
       | None => (Fault, next)
       end.
Proof.
  unfold FixedListIter_next, expect, mbind, M_bind, gets, modify, id. cbn [fi_payload fi_idx fi_count].
  destruct (count <=? idx); [done|]. cbn zeta. by destruct (slice _ _ _).
Qed.

(** A validated list yields its items, and [expect] does not panic. *)
Lemma hom_list_items {T} {D : RlpItemDecode T} (Q : T → list Z → Prop) {IS : ItemSpec D Q} items ok r :
  cur_ok r → items_enc Q items (rest r) →
  ∃ s, for_each HomListIter_next (S (length items)) (mkHomListIter (T:=T) r ok) = (Val items, s).
Proof.
  revert r. induction items as [|a items IH]; intros r Hr Hi; cbn [items_enc] in Hi.
  - eexists. apply for_each_done. by rewrite HomListIter_next_eq, is_empty_rest, bool_decide_true.
  - destruct Hi as (e & p & HQ & Hi & Hsplit). assert (e `prefix_of` rest r) as Hp by (by exists p).
    destruct (IH (adv (length e) r)) as [s Hs].
    { by apply cur_ok_adv. }
    { rewrite rest_adv by apply Hr. by rewrite Hsplit, drop_app_length. }
    exists s. eapply for_each_next; [|exact Hs].
    rewrite HomListIter_next_eq, is_empty_rest, bool_decide_false by
      (done || (rewrite Hsplit; apply item_nonempty in HQ; by destruct e)).
    by rewrite (proj2 (item_parses r Hr) a e HQ Hp).
Qed.

(** A list of fixed-length items yields the pieces, decoded one by one. *)
Lemma fixed_list_items {T} `{RlpFixedItem T} chunks d (pre : list Z) :
  0 < ENCODING_LEN → Forall (λ c, Z.of_nat (length c) = ENCODING_LEN) chunks →
  Z.of_nat (length pre) = d * ENCODING_LEN → 0 ≤ d →
  in_width usize_bits (Z.of_nat (length (pre ++ concat chunks))) →
  ∃ s, for_each FixedListIter_next (S (length chunks))
         (mkFixedListIter (T:=T) (pre ++ concat chunks) d (d + Z.of_nat (length chunks)))
       = (Val (map decode_from_fixed chunks), s).
Proof.
  intros Hpos Hf. revert d pre. induction Hf as [|c chunks Hc Hf IH]; intros d pre Hpre Hd Hw.
  - eexists. apply for_each_done. rewrite FixedListIter_next_eq. cbn zeta. cbn [length].
    by destruct (Z.leb_spec (d + Z.of_nat 0) d); [|lia].
  - destruct (IH (d + 1) (pre ++ c)) as [s Hs]; [rewrite length_app; lia|lia|by rewrite <- app_assoc|].
    rewrite <- app_assoc in Hs. exists s. eapply for_each_next; [|exact Hs].
    assert (in_width usize_bits (d + 1) ∧ in_width usize_bits (d * ENCODING_LEN)
            ∧ in_width usize_bits (d * ENCODING_LEN + ENCODING_LEN)) as (W1 & W2 & W3).
    { unfold in_width in *. cbn [concat] in Hw. rewrite !length_app in Hw. nia. }
    rewrite FixedListIter_next_eq. cbn zeta. cbn [length].
    destruct (Z.leb_spec (d + Z.of_nat (S (length chunks))) d); [lia|]. rewrite !wrap_small by done.
    replace (d * ENCODING_LEN + ENCODING_LEN - d * ENCODING_LEN) with ENCODING_LEN by lia.
    assert (slice (pre ++ concat (c :: chunks)) (d * ENCODING_LEN) ENCODING_LEN = Some c) as ->.
    { apply slice_Some. cbn [concat]. rewrite !length_app. split_conj; try lia.
      rewrite drop_app_length' by lia. by rewrite take_app_length' by lia. }
    by replace (d + Z.of_nat (S (length chunks))) with (d + 1 + Z.of_nat (length chunks)) by lia.
Qed.
End Iteration.
