(* ===== verification/RlpHash.v ===== *)
(** * RLP encodings fed to a hash

    Models [basic_bootloader/src/bootloader/rlp.rs], which the block header and the
    messages of authorization lists are hashed with.  A hasher is the bytes it was
    fed.  The lemmas say that length estimates and encodings agree with RLP. *)

From stdpp Require Import list.
From S2P Require Import Prelude U256 Rlp RlpParser RlpLogic RlpTheorems.

Definition ADDRESS_ENCODING_LEN : Z := 21.

Section Encoding.
Context {UZ : Usize}.

Definition usize_bytes : nat := Z.to_nat (usize_bits / 8).

Definition estimate_length_encoding_len (length : Z) : Z :=
  if length <? 56 then 1
  else
    let length_bytes := be_bytes usize_bytes length in
    let non_zero_byte := count_leading_zeros length_bytes in
    1 + Z.of_nat (List.length length_bytes) - Z.of_nat non_zero_byte.

Definition estimate_bytes_encoding_len (value : list Z) : Z :=
  match value with
  | [b] => if b <? 128 then 1
           else estimate_length_encoding_len 1 + 1
  | _ => estimate_length_encoding_len (Z.of_nat (length value)) + Z.of_nat (length value)
  end.

Definition estimate_number_encoding_len (value : list Z) : Z :=
  estimate_bytes_encoding_len (drop (count_leading_zeros value) value).

Definition apply_length_encoding_to_hash (length offset : Z) (hasher : list Z) : list Z :=
  if length <? 56 then hasher ++ [wrap 8 (offset + wrap 8 length)]
  else
    let length_bytes := be_bytes usize_bytes length in
    let non_zero_byte := count_leading_zeros length_bytes in
    hasher
      ++ [wrap 8 (offset + 55 + wrap 8 (Z.of_nat (List.length length_bytes) - Z.of_nat non_zero_byte))]
      ++ drop non_zero_byte length_bytes.

Definition apply_bytes_encoding_to_hash (value : list Z) (hasher : list Z) : list Z :=
  match value with
  | [b] => if b <? 128 then hasher ++ value
           else apply_length_encoding_to_hash 1 128 hasher ++ value
  | _ => apply_length_encoding_to_hash (Z.of_nat (length value)) 128 hasher ++ value
  end.

Definition apply_number_encoding_to_hash (value : list Z) (hasher : list Z) : list Z :=
  apply_bytes_encoding_to_hash (drop (count_leading_zeros value) value) hasher.

Definition apply_list_length_encoding_to_hash (length : Z) (hasher : list Z) : list Z :=
  apply_length_encoding_to_hash length 192 hasher.

(** ** Correctness *)

Lemma usize_bytes_bits : 8 * Z.of_nat usize_bytes = usize_bits.
Proof. unfold usize_bytes. by destruct usize_cases as [-> | ->]. Qed.

Lemma length_bytes_count n :
  in_width usize_bits (Z.of_nat n) →
  let bytes := be_bytes usize_bytes (Z.of_nat n) in
  Z.of_nat (length bytes) - Z.of_nat (count_leading_zeros bytes) = Z.of_nat (length (minimal_be (Z.of_nat n)))
  ∧ drop (count_leading_zeros bytes) bytes = minimal_be (Z.of_nat n)
  ∧ (length (minimal_be (Z.of_nat n)) ≤ 8)%nat.
Proof.
  intros Hn bytes. destruct (skip_leading_zeros usize_bytes (Z.of_nat n)) as [H1 H2].
  { rewrite usize_bytes_bits. exact Hn. }
  pose proof usize_bits_pos. pose proof usize_bytes_bits.
  assert (width_of (Z.of_nat n) ≤ usize_bytes)%nat.
  { apply width_of_bound. rewrite usize_bytes_bits. exact Hn. }
  unfold bytes. rewrite length_be_bytes, H1. unfold minimal_be at 1 3. rewrite length_be_bytes.
  split; [lia|]. split; [by rewrite H1 in H2|]. lia.
Qed.

Lemma length_to_hash n base hasher :
  in_width usize_bits (Z.of_nat n) → base = 128 ∨ base = 192 →
  apply_length_encoding_to_hash (Z.of_nat n) base hasher = hasher ++ rlp_header base n
  ∧ estimate_length_encoding_len (Z.of_nat n) = Z.of_nat (length (rlp_header base n)).
Proof.
  intros Hn Hb. unfold apply_length_encoding_to_hash, estimate_length_encoding_len, rlp_header.
  destruct (Z.ltb_spec (Z.of_nat n) 56), (Nat.ltb_spec n 56); try lia.
  { split; [|done]. rewrite (wrap_small 8 (Z.of_nat n)), wrap_small by (unfold in_width; lia). done. }
  destruct (length_bytes_count n Hn) as (H1 & H2 & H3). rewrite H1, H2. cbn [length].
  rewrite (wrap_small 8 (Z.of_nat _)), wrap_small by (unfold in_width; lia). split; [done|]. lia.
Qed.

Lemma bytes_to_hash value hasher :
  in_width usize_bits (Z.of_nat (length value)) →
  apply_bytes_encoding_to_hash value hasher = hasher ++ rlp_string value
  ∧ estimate_bytes_encoding_len value = Z.of_nat (length (rlp_string value)).
Proof.
  intros Hl. pose proof (length_to_hash (length value) 128 hasher Hl (or_introl eq_refl)) as [H1 H2].
  unfold apply_bytes_encoding_to_hash, estimate_bytes_encoding_len, rlp_string.
  destruct value as [|b [|b' value]]; [|destruct (b <? 128); [done|]|];
    cbn [length] in *; try change (Z.of_nat 1) with 1 in *; rewrite H1, H2, <- app_assoc, length_app;
    (split; [done|cbn [length]; lia]).
Qed.

Lemma number_to_hash k n hasher :
  0 ≤ n < 2 ^ (8 * Z.of_nat k) → (k ≤ 32)%nat →
  apply_number_encoding_to_hash (be_bytes k n) hasher = hasher ++ rlp_string (minimal_be n)
  ∧ estimate_number_encoding_len (be_bytes k n) = Z.of_nat (length (rlp_string (minimal_be n))).
Proof.
  intros Hn Hk. unfold apply_number_encoding_to_hash, estimate_number_encoding_len.
  destruct (skip_leading_zeros k n Hn) as [_ ->]. apply bytes_to_hash, usize_holds_u32.
  unfold minimal_be. rewrite length_be_bytes. pose proof (width_of_bound n k Hn). lia.
Qed.
End Encoding.
