(* ===== verification/TxFormats.v ===== *)
(** * RLP-encoded transactions

    [transaction/rlp_encoded] of [basic_bootloader]: the four formats
    ([transaction_types/*.rs]), the envelope of typed transactions
    ([eip_2718_tx_envelope.rs]), the choice between them with the hash that was
    signed ([rlp_encoded/mod.rs]), and the accessors ([transaction.rs]).  Of
    [transaction/mod.rs] the charge for hashing. *)

From stdpp Require Import list strings.
From S2P Require Import Prelude U256 Resources SystemInterface BootloaderErrors RlpParser.

(** Keccak-256 of the [crypto] crate. *)
Class Keccak : Type := Keccak256 : list Z → list Z.

Class EthereumTxType (T : Type) : Type := TX_TYPE : Z.

(** ** Access and authorization lists *)

Definition StorageSlotsList : Type := FixedList Bytes32Ref.

Record AccessListForAddress : Type := mkAccessListForAddress {
  ala_address : B160;
  ala_slots_list : StorageSlotsList
}.

Record AuthorizationEntry : Type := mkAuthorizationEntry {
  ae_chain_id : Z;
  ae_address : list Z;
  ae_nonce : Z;
  ae_y_parity : Z;
  ae_r : list Z;
  ae_s : list Z
}.

Definition AccessList : Type := HomList AccessListForAddress.
Definition AuthorizationList : Type := HomList AuthorizationEntry.

(** ** The formats *)

Record LegacyTXInner : Type := mkLegacyTXInner {
  lt_nonce : Z; lt_gas_price : Z; lt_gas_limit : Z; lt_to : list Z; lt_value : Z; lt_data : list Z
}.

Record LegacySignatureData : Type := mkLegacySignatureData {
  ls_v : Z; ls_r : list Z; ls_s : list Z
}.

Record EIP2930Tx : Type := mkEIP2930Tx {
  t1_chain_id : Z; t1_nonce : Z; t1_gas_price : Z; t1_gas_limit : Z; t1_to : list Z;
  t1_value : Z; t1_data : list Z; t1_access_list : AccessList
}.

Record EIP1559Tx : Type := mkEIP1559Tx {
  t2_chain_id : Z; t2_nonce : Z; t2_max_priority_fee_per_gas : Z; t2_max_fee_per_gas : Z;
  t2_gas_limit : Z; t2_to : list Z; t2_value : Z; t2_data : list Z; t2_access_list : AccessList
}.

Record EIP7702Tx : Type := mkEIP7702Tx {
  t4_chain_id : Z; t4_nonce : Z; t4_max_priority_fee_per_gas : Z; t4_max_fee_per_gas : Z;
  t4_gas_limit : Z; t4_to : list Z; t4_value : Z; t4_data : list Z; t4_access_list : AccessList;
  t4_authorization_list : AuthorizationList
}.

Record EIP2718SignatureData : Type := mkEIP2718SignatureData {
  es_y_parity : bool; es_r : list Z; es_s : list Z
}.

#[global] Instance LegacyTXInner_type : EthereumTxType LegacyTXInner := 0.
#[global] Instance EIP2930Tx_type : EthereumTxType EIP2930Tx := 1.
#[global] Instance EIP1559Tx_type : EthereumTxType EIP1559Tx := 2.
#[global] Instance EIP7702Tx_type : EthereumTxType EIP7702Tx := 4.

Section Decoders.
Context {R : Ruint} {UZ : Usize}.

#[global] Instance AccessListForAddress_item : RlpItemDecode AccessListForAddress :=
  in_list (addr ← decode_from_item (T:=B160);
           slots ← FixedList_decode_list_from (T:=Bytes32Ref);
           mret (mkAccessListForAddress addr slots)).

Definition AccessList_decode_list_from : Parser AccessList := HomList_decode_list_from true.

(** [to]: empty for a deployment, or an address. *)
Definition decode_to : Parser (list Z) :=
  s ← bytes;
  if bool_decide (length s = 0)%nat || bool_decide (length s = 20)%nat then mret s
  else throw InvalidStructure.

Definition decode_address : Parser (list Z) :=
  s ← bytes;
  if negb (bool_decide (length s = 20)%nat) then throw InvalidStructure else mret s.

(** [r] and [s] have at most 32 bytes and no leading zero. *)
Definition bad_scalar (s : list Z) : bool := bool_decide (32 < length s)%nat || leading_zero s.

#[global] Instance AuthorizationEntry_body : RlpListDecode AuthorizationEntry :=
  chain_id ← u256;
  address ← decode_address;
  nonce ← u64;
  y_parity ← u8;
  r_bytes ← bytes;
  when (bad_scalar r_bytes) (throw InvalidStructure) ;;
  s_bytes ← bytes;
  when (bad_scalar s_bytes) (throw InvalidStructure) ;;
  mret (mkAuthorizationEntry chain_id address nonce y_parity r_bytes s_bytes).

Definition AuthorizationList_decode_list_from : Parser AuthorizationList :=
  HomList_decode_list_from true.

#[global] Instance LegacyTXInner_body : RlpListDecode LegacyTXInner :=
  nonce ← u64;
  gas_price ← u256;
  gas_limit ← u64;
  to ← decode_to;
  value ← u256;
  data ← bytes;
  mret (mkLegacyTXInner nonce gas_price gas_limit to value data).

#[global] Instance LegacySignatureData_body : RlpListDecode LegacySignatureData :=
  v ← u256;
  r_bytes ← bytes;
  s ← bytes;
  when (bad_scalar r_bytes || bad_scalar s) (throw InvalidStructure) ;;
  mret (mkLegacySignatureData v r_bytes s).

#[global] Instance EIP2718SignatureData_body : RlpListDecode EIP2718SignatureData :=
  y_parity ← bool_;
  r_bytes ← bytes;
  s ← bytes;
  when (bad_scalar r_bytes || bad_scalar s) (throw InvalidStructure) ;;
  mret (mkEIP2718SignatureData y_parity r_bytes s).

#[global] Instance EIP2930Tx_body : RlpListDecode EIP2930Tx :=
  chain_id ← u64;
  nonce ← u64;
  gas_price ← u256;
  gas_limit ← u64;
  to ← decode_to;
  value ← u256;
  data ← bytes;
  access_list ← AccessList_decode_list_from;
  mret (mkEIP2930Tx chain_id nonce gas_price gas_limit to value data access_list).

#[global] Instance EIP1559Tx_body : RlpListDecode EIP1559Tx :=
  chain_id ← u64;
  nonce ← u64;
  max_priority_fee_per_gas ← u256;
  max_fee_per_gas ← u256;
  gas_limit ← u64;
  to ← decode_to;
  value ← u256;
  data ← bytes;
  access_list ← AccessList_decode_list_from;
  mret (mkEIP1559Tx chain_id nonce max_priority_fee_per_gas max_fee_per_gas gas_limit to value
          data access_list).

#[global] Instance EIP7702Tx_body : RlpListDecode EIP7702Tx :=
  chain_id ← u64;
  nonce ← u64;
  max_priority_fee_per_gas ← u256;
  max_fee_per_gas ← u256;
  gas_limit ← u64;
  to ← decode_address;
  value ← u256;
  data ← bytes;
  access_list ← AccessList_decode_list_from;
  authorization_list ← AuthorizationList_decode_list_from;
  when (bool_decide (hl_count authorization_list = Some 0)) (throw AuthListIsEmpty) ;;
  mret (mkEIP7702Tx chain_id nonce max_priority_fee_per_gas max_fee_per_gas gas_limit to value
          data access_list authorization_list).
End Decoders.

(** ** Parsing a transaction

    [Fn E A] is a function without a receiver: nothing is left of the cursors it
    creates. *)

Abbreviation Fn E A := (M unit E A).

Inductive RlpEncodedTxInner : Type :=
| Legacy (tx : LegacyTXInner) (sig : LegacySignatureData)
| LegacyWithEIP155 (tx : LegacyTXInner) (sig : LegacySignatureData)
| EIP2930 (tx : EIP2930Tx) (sig : EIP2718SignatureData)
| EIP1559 (tx : EIP1559Tx) (sig : EIP2718SignatureData)
| EIP7702 (tx : EIP7702Tx) (sig : EIP2718SignatureData).

Section Parsing.
Context {R : Ruint} {UZ : Usize} {KK : Keccak}.

(** [EIP2718PayloadParser::<P>::try_parse_and_hash_for_signature_verification]. *)
Definition EIP2718_try_parse {P} `{RlpListDecode P} `{EthereumTxType P} (src : list Z)
    : Fn InvalidTransaction (P * EIP2718SignatureData * list Z) :=
  '(inner, outer) ← on_cursor (Rlp_new src) list_;
  require_consumed outer ;;
  let mark := mark inner in
  '(payload, inner) ← on_cursor inner (decode_list_body (T:=P));
  '(inner_slice, inner) ← on_cursor inner (consumed_since mark);
  '(sig, inner) ← on_cursor inner (decode_list_body (T:=EIP2718SignatureData));
  require_consumed inner ;;
  let hasher := [TX_TYPE (T:=P)] in
  let hasher := apply_list_concatenation_encoding_to_hash
                  (wrap 32 (Z.of_nat (length inner_slice))) hasher in
  let hasher := hasher ++ inner_slice in
  mret (payload, sig, Keccak256 hasher).

Definition is_eip155 (sig : LegacySignatureData) : bool :=
  negb (ls_v sig =? 27) && negb (ls_v sig =? 28).

(** [LegacyPayloadParser::try_parse_and_hash_for_signature_verification]; the
    sums on [U256] do not overflow for a 64-bit chain id. *)
Definition Legacy_try_parse (src : list Z) (expected_chain_id : Z)
    : Fn InvalidTransaction (LegacyTXInner * LegacySignatureData * list Z) :=
  '(inner, outer) ← on_cursor (Rlp_new src) list_;
  require_consumed outer ;;
  let mark := mark inner in
  '(legacy_inner, inner) ← on_cursor inner (decode_list_body (T:=LegacyTXInner));
  '(inner_slice, inner) ← on_cursor inner (consumed_since mark);
  '(legacy_signature, inner) ← on_cursor inner (decode_list_body (T:=LegacySignatureData));
  require_consumed inner ;;
  sig_hash ←
    (if negb (is_eip155 legacy_signature) then
       let hasher := apply_list_concatenation_encoding_to_hash
                       (wrap 32 (Z.of_nat (length inner_slice))) [] in
       mret (Keccak256 (hasher ++ inner_slice))
     else
       let min_v := u_add 35 (u_mul expected_chain_id 2) in
       when (negb ((ls_v legacy_signature =? min_v)
                   || (ls_v legacy_signature =? u_add min_v 1))) (throw InvalidEncoding) ;;
       let chain_id_encoding_len := u64_encoding_len expected_chain_id in
       let hasher := apply_list_concatenation_encoding_to_hash
                       (wrap 32 (wrap usize_bits
                          (Z.of_nat (length inner_slice) + chain_id_encoding_len + 2))) [] in
       let hasher := hasher ++ inner_slice in
       let hasher := apply_u64_encoding_to_hash expected_chain_id hasher in
       mret (Keccak256 (hasher ++ [0x80; 0x80])));
  mret (legacy_inner, legacy_signature, sig_hash).

(** One arm of the match on the type byte. *)
Definition parse_typed {P} `{RlpListDecode P} `{EthereumTxType P} (chain_id : P → Z)
    (wrap_tx : P → EIP2718SignatureData → RlpEncodedTxInner) (src : list Z) (expected_chain_id : Z)
    : Fn InvalidTransaction (RlpEncodedTxInner * list Z) :=
  '(tx, sig_data, sig_hash) ← EIP2718_try_parse (P:=P) src;
  when (negb (chain_id tx =? expected_chain_id)) (throw InvalidChainId) ;;
  mret (wrap_tx tx sig_data, sig_hash).

Definition parse_and_compute_signed_hash (input : list Z) (expected_chain_id : Z)
    : Fn InvalidTransaction (RlpEncodedTxInner * list Z) :=
  tx_type ← attempt (on_cursor (Rlp_new input) u8);
  match tx_type with
  | inr (tx_type, r) =>
      '(src, _) ← on_cursor r remaining;
      if tx_type =? TX_TYPE (T:=EIP2930Tx) then
        parse_typed t1_chain_id EIP2930 src expected_chain_id
      else if tx_type =? TX_TYPE (T:=EIP1559Tx) then
        parse_typed t2_chain_id EIP1559 src expected_chain_id
      else if tx_type =? TX_TYPE (T:=EIP7702Tx) then
        parse_typed t4_chain_id EIP7702 src expected_chain_id
      else throw InvalidEncoding
  | inl _ =>
      '(tx, sig_data, sig_hash) ← Legacy_try_parse input expected_chain_id;
      let tx := if is_eip155 sig_data then LegacyWithEIP155 tx sig_data else Legacy tx sig_data in
      mret (tx, sig_hash)
  end.

(** ** The transaction *)

Record RlpEncodedTransaction : Type := mkRlpEncodedTransaction {
  buffer : list Z;
  inner : RlpEncodedTxInner;
  chain_id_ : Z;
  sig_hash : list Z;
  tx_hash : option (list Z);
  from_ : Z
}.

Definition parse_from_buffer (buffer : list Z) (expected_chain_id from : Z)
    : Fn TxError RlpEncodedTransaction :=
  '(inner, sig_hash) ← map_err Validation (parse_and_compute_signed_hash buffer expected_chain_id);
  mret (mkRlpEncodedTransaction buffer inner expected_chain_id sig_hash None from).

Section Accessors.
Variable self : RlpEncodedTransaction.

Definition chain_id : option Z :=
  match inner self with Legacy _ _ => None | _ => Some (chain_id_ self) end.

Definition rtx_nonce : Z :=
  match inner self with
  | Legacy tx _ | LegacyWithEIP155 tx _ => lt_nonce tx
  | EIP2930 tx _ => t1_nonce tx
  | EIP1559 tx _ => t2_nonce tx
  | EIP7702 tx _ => t4_nonce tx
  end.

Definition rtx_value : Z :=
  match inner self with
  | Legacy tx _ | LegacyWithEIP155 tx _ => lt_value tx
  | EIP2930 tx _ => t1_value tx
  | EIP1559 tx _ => t2_value tx
  | EIP7702 tx _ => t4_value tx
  end.

Definition hash_for_signature_verification : list Z := sig_hash self.

Definition tx_type : Z :=
  match inner self with
  | Legacy _ _ | LegacyWithEIP155 _ _ => 0
  | EIP2930 _ _ => 1
  | EIP1559 _ _ => 2
  | EIP7702 _ _ => 4
  end.

Definition rtx_calldata : list Z :=
  match inner self with
  | Legacy tx _ | LegacyWithEIP155 tx _ => lt_data tx
  | EIP2930 tx _ => t1_data tx
  | EIP1559 tx _ => t2_data tx
  | EIP7702 tx _ => t4_data tx
  end.

Definition access_list : option AccessList :=
  match inner self with
  | Legacy _ _ | LegacyWithEIP155 _ _ => None
  | EIP2930 tx _ => Some (t1_access_list tx)
  | EIP1559 tx _ => Some (t2_access_list tx)
  | EIP7702 tx _ => Some (t4_access_list tx)
  end.

Definition authorization_list : option AuthorizationList :=
  match inner self with EIP7702 tx _ => Some (t4_authorization_list tx) | _ => None end.

(** The subtractions on [U256] wrap in a release build. *)
Definition rtx_sig_parity_r_s : bool * list Z * list Z :=
  match inner self with
  | Legacy _ sig => (u_sub (ls_v sig) 27 =? 1, ls_r sig, ls_s sig)
  | LegacyWithEIP155 _ sig =>
      let parity := u_sub (u_sub (ls_v sig) 35) (u_mul (chain_id_ self) 2) in
      (parity =? 1, ls_r sig, ls_s sig)
  | EIP2930 _ sig | EIP1559 _ sig | EIP7702 _ sig => (es_y_parity sig, es_r sig, es_s sig)
  end.

Definition rtx_gas_limit : Z :=
  match inner self with
  | Legacy tx _ | LegacyWithEIP155 tx _ => lt_gas_limit tx
  | EIP2930 tx _ => t1_gas_limit tx
  | EIP1559 tx _ => t2_gas_limit tx
  | EIP7702 tx _ => t4_gas_limit tx
  end.

Definition destination : option Z :=
  let map_fn src := if bool_decide (length src = 0)%nat then None else b160_try_from_be_slice src in
  match inner self with
  | Legacy tx _ | LegacyWithEIP155 tx _ => map_fn (lt_to tx)
  | EIP2930 tx _ => map_fn (t1_to tx)
  | EIP1559 tx _ => map_fn (t2_to tx)
  | EIP7702 tx _ => Some (of_be_bytes (t4_to tx))
  end.

Definition rtx_max_fee_per_gas : Z :=
  match inner self with
  | Legacy tx _ | LegacyWithEIP155 tx _ => lt_gas_price tx
  | EIP2930 tx _ => t1_gas_price tx
  | EIP1559 tx _ => t2_max_fee_per_gas tx
  | EIP7702 tx _ => t4_max_fee_per_gas tx
  end.

Definition rtx_max_priority_fee_per_gas : option Z :=
  match inner self with
  | Legacy _ _ | LegacyWithEIP155 _ _ | EIP2930 _ _ => None
  | EIP1559 tx _ => Some (t2_max_priority_fee_per_gas tx)
  | EIP7702 tx _ => Some (t4_max_priority_fee_per_gas tx)
  end.

Definition rtx_required_balance : option Z :=
  fee_amount ← u_checked_mul rtx_max_fee_per_gas rtx_gas_limit;
  u_checked_add rtx_value fee_amount.
End Accessors.

(** ** Hashing *)

Definition KECCAK256_BASE_NATIVE_COST : Z := 2500.
Definition KECCAK256_ROUND_NATIVE_COST : Z := 17500.
Definition KECCAK256_CHUNK_SIZE : Z := 136.

Definition keccak256_native_cost (len : Z) : DecreasingNative :=
  let rounds := Z.max 1 ((len + KECCAK256_CHUNK_SIZE - 1) / KECCAK256_CHUNK_SIZE) in
  let native_cost := wrap 64 (wrap 64 (rounds * KECCAK256_ROUND_NATIVE_COST)
                              + KECCAK256_BASE_NATIVE_COST) in
  from_computational native_cost.

Definition charge_keccak (len : Z) : M Res TxError unit :=
  let native_cost := keccak256_native_cost len in
  map_err (λ e, oon_as_validation
      match e with
      | LeafRuntime OutOfErgs =>
          SLeafDefect (internal_error "Charging for keccak is not supposed to consume ergs")
      | LeafDefect e => SLeafDefect e
      | LeafRuntime (FatalRuntime e) => SLeafRuntime (FatalRuntime e)
      end)
    (charge (from_native native_cost)).

(** [transaction_hash]: computed on the first call. *)
Definition rtx_transaction_hash : M (RlpEncodedTransaction * Res) TxError (list Z) :=
  s ← gets fst;
  match tx_hash s with
  | Some h => mret h
  | None =>
      zoom snd (λ r s, (s.1, r)) (charge_keccak (Z.of_nat (length (buffer s)))) ;;
      let h := Keccak256 (buffer s) in
      modify (λ s, (mkRlpEncodedTransaction (buffer s.1) (inner s.1) (chain_id_ s.1)
                      (sig_hash s.1) (Some h) (from_ s.1), s.2)) ;;
      mret h
  end.
End Parsing.
