(* ===== verification/TxLogic.v ===== *)
(** * What the transaction decoders accept

    Each format of TxFormats.v is a sequence of fields, each in its encoding
    ([fields]); the decoders accept exactly these sequences. *)

From stdpp Require Import list.
From S2P Require Import Prelude U256 Rlp Resources SystemInterface BootloaderErrors RlpParser RlpLogic.
From S2P Require Import RlpTheorems TxFormats.

(** ** Sequences of fields *)

Fixpoint fields (Qs : list (list Z → Prop)) (payload : list Z) : Prop :=
  match Qs with
  | [] => payload = []
  | Q :: Qs => ∃ e p, Q e ∧ fields Qs p ∧ payload = e ++ p
  end.

Definition to_enc (s enc : list Z) : Prop :=
  (length s = 0 ∨ length s = 20)%nat ∧ string_enc s enc.
Definition address_enc (s enc : list Z) : Prop := length s = 20%nat ∧ string_enc s enc.
Definition scalar_enc (s enc : list Z) : Prop := bad_scalar s = false ∧ string_enc s enc.
Definition b160_enc (a : B160) (enc : list Z) : Prop :=
  ∃ s, address_enc s enc ∧ of_be_bytes s = b160_val a.

Definition access_entry_enc (a : AccessListForAddress) (enc : list Z) : Prop :=
  ∃ payload, list_enc payload enc
    ∧ fields [b160_enc (ala_address a); fixed_list_enc (ala_slots_list a)] payload.

Definition access_list_enc : AccessList → list Z → Prop := hom_list_enc access_entry_enc.

Definition auth_fields (a : AuthorizationEntry) : list Z → Prop :=
  fields [int_enc 256 (ae_chain_id a); address_enc (ae_address a); int_enc 64 (ae_nonce a);
          int_enc 8 (ae_y_parity a); scalar_enc (ae_r a); scalar_enc (ae_s a)].

Definition auth_entry_enc (a : AuthorizationEntry) (enc : list Z) : Prop :=
  ∃ payload, list_enc payload enc ∧ auth_fields a payload.

Definition authorization_list_enc : AuthorizationList → list Z → Prop := hom_list_enc auth_entry_enc.

Definition legacy_fields (t : LegacyTXInner) : list Z → Prop :=
  fields [int_enc 64 (lt_nonce t); int_enc 256 (lt_gas_price t); int_enc 64 (lt_gas_limit t);
          to_enc (lt_to t); int_enc 256 (lt_value t); string_enc (lt_data t)].

Definition eip2930_fields (t : EIP2930Tx) : list Z → Prop :=
  fields [int_enc 64 (t1_chain_id t); int_enc 64 (t1_nonce t); int_enc 256 (t1_gas_price t);
          int_enc 64 (t1_gas_limit t); to_enc (t1_to t); int_enc 256 (t1_value t);
          string_enc (t1_data t); access_list_enc (t1_access_list t)].

Definition eip1559_fields (t : EIP1559Tx) : list Z → Prop :=
  fields [int_enc 64 (t2_chain_id t); int_enc 64 (t2_nonce t);
          int_enc 256 (t2_max_priority_fee_per_gas t); int_enc 256 (t2_max_fee_per_gas t);
          int_enc 64 (t2_gas_limit t); to_enc (t2_to t); int_enc 256 (t2_value t);
          string_enc (t2_data t); access_list_enc (t2_access_list t)].

Definition eip7702_fields (t : EIP7702Tx) (payload : list Z) : Prop :=
  hl_count (t4_authorization_list t) ≠ Some 0 ∧
  fields [int_enc 64 (t4_chain_id t); int_enc 64 (t4_nonce t);
          int_enc 256 (t4_max_priority_fee_per_gas t); int_enc 256 (t4_max_fee_per_gas t);
          int_enc 64 (t4_gas_limit t); address_enc (t4_to t); int_enc 256 (t4_value t);
          string_enc (t4_data t); access_list_enc (t4_access_list t);
          authorization_list_enc (t4_authorization_list t)] payload.

Definition legacy_sig_fields (t : LegacySignatureData) (payload : list Z) : Prop :=
  (bad_scalar (ls_r t) || bad_scalar (ls_s t) = false) ∧
  fields [int_enc 256 (ls_v t); string_enc (ls_r t); string_enc (ls_s t)] payload.

Definition sig_fields (t : EIP2718SignatureData) (payload : list Z) : Prop :=
  (bad_scalar (es_r t) || bad_scalar (es_s t) = false) ∧
  fields [bool_enc (es_y_parity t); string_enc (es_r t); string_enc (es_s t)] payload.

Section Logic.
Context {R : Ruint} {RS : RuintSpec} {UZ : Usize}.

(** ** One field after the other

    [b] is the record that is built; [G] collects what is known of its fields. *)

Lemma parses_field {A B} (m : Parser A) (k : A → Parser B) (Q : A → list Z → Prop)
    (proj : B → A) (G : B → Prop) (Fs : B → list (list Z → Prop)) :
  parses m Q →
  (∀ a, parses (k a) (λ b enc, (proj b = a ∧ G b) ∧ fields (Fs b) enc)) →
  parses (m ≫= k) (λ b enc, G b ∧ fields (Q (proj b) :: Fs b) enc).
Proof.
  intros Hm Hk. eapply parses_equiv; [apply parses_bind; [exact Hm|intros a e1 _ _; apply Hk]|].
  intros b enc. cbn [fields]. split.
  - intros (a & e1 & e2 & HQ & [[<- HG] Hf] & ->). split; [done|]. by exists e1, e2.
  - intros (HG & e & p & HQ & Hf & ->). by exists (proj b), e, p.
Qed.

(** A field with a check of its own. *)
Lemma parses_checked {A B} (m : Parser A) (c : A → bool) (k : A → Parser B) (Q : A → list Z → Prop)
    (Q' : A → list Z → Prop) (proj : B → A) (G : B → Prop) (Fs : B → list (list Z → Prop)) :
  parses m Q → (∀ a enc, Q' a enc ↔ c a = false ∧ Q a enc) →
  (∀ a, parses (k a) (λ b enc, (proj b = a ∧ G b) ∧ fields (Fs b) enc)) →
  parses (a ← m; when (c a) (throw InvalidStructure) ;; k a)
    (λ b enc, G b ∧ fields (Q' (proj b) :: Fs b) enc).
Proof.
  intros Hm HQ' Hk. eapply parses_equiv.
  { apply parses_bind; [exact Hm|]. intros a e1 _ _. apply parses_when; [by left|]. intros _. apply Hk. }
  intros b enc. cbn [fields]. split.
  - intros (a & e1 & e2 & HQ & (Hc & [<- HG] & Hf) & ->). split; [done|]. exists e1, e2. by rewrite HQ'.
  - intros (HG & e & p & HQ & Hf & ->). apply HQ' in HQ as [Hc HQ]. by exists (proj b), e, p.
Qed.

(** The record is complete. *)
Lemma parses_built {B} (v : B) (G : B → Prop) :
  (∀ b, b = v ↔ G b) → parses (mret v) (λ b enc, G b ∧ fields [] enc).
Proof.
  intros HG. eapply parses_equiv; [apply parses_ret|]. intros b enc. cbn [fields]. by rewrite HG.
Qed.

Lemma parses_built_if {B} (c : bool) e (v : B) (G : B → Prop) :
  parse_error e → (∀ b, c = false ∧ b = v ↔ G b) →
  parses (when c (throw e) ;; mret v) (λ b enc, G b ∧ fields [] enc).
Proof.
  intros He HG. eapply parses_equiv; [apply parses_when; [done|intros _; apply parses_ret]|].
  intros b enc. cbn [fields]. rewrite <- HG. tauto.
Qed.

(** Without a condition on the whole record. *)
Lemma parses_fields {B} (m : Parser B) (Fs : B → list (list Z → Prop)) :
  parses m (λ b enc, True ∧ fields (Fs b) enc) → parses m (λ b enc, fields (Fs b) enc).
Proof. intros H. eapply parses_equiv; [exact H|]. tauto. Qed.

Lemma parses_to : parses decode_to to_enc.
Proof.
  eapply parses_equiv.
  { apply (parses_pure _ _ (λ s, if bool_decide (length s = 0)%nat || bool_decide (length s = 20)%nat
                                 then Some s else None)); [apply parses_bytes|].
    intros s enc r _ _. by destruct (_ || _). }
  intros s enc. unfold to_enc. split.
  - intros (s' & Hs & Hg). repeat case_bool_decide; simplify_eq/=; auto.
  - intros [Hl Hs]. exists s. split; [done|]. destruct Hl as [-> | ->]; done.
Qed.

Lemma parses_address : parses decode_address address_enc.
Proof.
  eapply parses_equiv.
  { apply (parses_pure _ _ (λ s, if bool_decide (length s = 20)%nat then Some s else None)); [apply parses_bytes|].
    intros s enc r _ _. by case_bool_decide. }
  intros s enc. unfold address_enc. split.
  - intros (s' & Hs & Hg). case_bool_decide; by simplify_eq.
  - intros [Hl Hs]. exists s. by rewrite bool_decide_true.
Qed.

Lemma parses_b160 : parses (decode_from_item (T:=B160)) b160_enc.
Proof.
  eapply parses_equiv.
  { apply (parses_pure _ _ (λ s, if bool_decide (length s = 20)%nat then Some (mkB160 (of_be_bytes s)) else None));
      [apply parses_bytes|]. intros s enc r _ _. by case_bool_decide. }
  intros [a] enc. unfold b160_enc, address_enc. cbn. split.
  - intros (s & Hs & Hg). case_bool_decide; simplify_eq. by exists s.
  - intros (s & [Hl Hs] & <-). exists s. by rewrite bool_decide_true.
Qed.

Lemma parses_slots : parses FixedList_decode_list_from (fixed_list_enc (T:=Bytes32Ref)).
Proof. by apply parses_fixed_list. Qed.

(** The decoder of the next field, or the record is complete. *)
Create HintDb rlp.
#[local] Hint Resolve parses_bytes parses_u8 parses_u64 parses_u256 parses_bool parses_to
  parses_address parses_b160 parses_slots : rlp.
Ltac next_field p := apply (parses_field _ _ _ p); [solve [auto with rlp]|intros ?].
Ltac next_scalar p :=
  apply (parses_checked _ bad_scalar _ string_enc scalar_enc p); [apply parses_bytes|done|intros ?].
Ltac same_fields := split; intros; destruct_and?; split_conj; solve [done|congruence].
Ltac built := apply parses_built; intros []; cbn; same_fields.

(** ** The formats *)

#[global] Instance access_entry_spec : ItemSpec AccessListForAddress_item access_entry_enc.
Proof.
  split; [|intros a enc (payload & Hl & _); by eapply list_enc_nonempty].
  apply parses_in_list, parses_fields. next_field ala_address. next_field ala_slots_list. built.
Qed.

Lemma parses_access_list : parses AccessList_decode_list_from access_list_enc.
Proof. exact (parses_hom_list access_entry_enc). Qed.

Lemma parses_auth_body : parses (decode_list_body (T:=AuthorizationEntry)) auth_fields.
Proof.
  apply parses_fields. next_field ae_chain_id. next_field ae_address. next_field ae_nonce.
  next_field ae_y_parity. next_scalar ae_r. next_scalar ae_s. built.
Qed.

#[global] Instance auth_entry_spec :
  ItemSpec (item_of_list (T:=AuthorizationEntry)) auth_entry_enc.
Proof.
  split; [|intros a enc (payload & Hl & _); by eapply list_enc_nonempty].
  apply parses_in_list, parses_auth_body.
Qed.

Lemma parses_authorization_list : parses AuthorizationList_decode_list_from authorization_list_enc.
Proof. exact (parses_hom_list auth_entry_enc). Qed.

#[local] Hint Resolve parses_access_list parses_authorization_list : rlp.

Lemma parses_legacy : parses (decode_list_body (T:=LegacyTXInner)) legacy_fields.
Proof.
  apply parses_fields. next_field lt_nonce. next_field lt_gas_price. next_field lt_gas_limit.
  next_field lt_to. next_field lt_value. next_field lt_data. built.
Qed.

Lemma parses_eip2930 : parses (decode_list_body (T:=EIP2930Tx)) eip2930_fields.
Proof.
  apply parses_fields. next_field t1_chain_id. next_field t1_nonce. next_field t1_gas_price.
  next_field t1_gas_limit. next_field t1_to. next_field t1_value. next_field t1_data.
  next_field t1_access_list. built.
Qed.

Lemma parses_eip1559 : parses (decode_list_body (T:=EIP1559Tx)) eip1559_fields.
Proof.
  apply parses_fields. next_field t2_chain_id. next_field t2_nonce.
  next_field t2_max_priority_fee_per_gas. next_field t2_max_fee_per_gas. next_field t2_gas_limit.
  next_field t2_to. next_field t2_value. next_field t2_data. next_field t2_access_list. built.
Qed.

Ltac built_if := apply parses_built_if; [solve [by left|by right]|intros []; cbn].

Lemma parses_eip7702 : parses (decode_list_body (T:=EIP7702Tx)) eip7702_fields.
Proof.
  unfold eip7702_fields. next_field t4_chain_id. next_field t4_nonce.
  next_field t4_max_priority_fee_per_gas. next_field t4_max_fee_per_gas. next_field t4_gas_limit.
  next_field t4_to. next_field t4_value. next_field t4_data. next_field t4_access_list.
  next_field t4_authorization_list. built_if. rewrite bool_decide_eq_false. same_fields.
Qed.

Lemma parses_legacy_sig : parses (decode_list_body (T:=LegacySignatureData)) legacy_sig_fields.
Proof.
  unfold legacy_sig_fields. next_field ls_v. next_field ls_r. next_field ls_s. built_if. same_fields.
Qed.

Lemma parses_sig : parses (decode_list_body (T:=EIP2718SignatureData)) sig_fields.
Proof.
  unfold sig_fields. next_field es_y_parity. next_field es_r. next_field es_s. built_if. same_fields.
Qed.
End Logic.
