(* ===== verification/TxTheorems.v ===== *)
(** * Theorems about RLP-encoded transactions

    Parsing a transaction never panics and accepts exactly the encodings of the
    four formats; the hash to be signed is that of the payload; and a transaction
    encoded as the EIPs say is read back, field by field. *)

From stdpp Require Import list sets.
From S2P Require Import Prelude U256 Rlp Resources SystemInterface BootloaderErrors RlpParser RlpLogic.
From S2P Require Import RlpTheorems TxFormats TxLogic.

(** ** Functions on local cursors

    [returns m EQ Q]: [m] does not panic, its values are exactly those in [Q] and
    its errors are in [EQ]. *)

Definition returns {E A} (m : Fn E A) (EQ : E → Prop) (Q : A → Prop) : Prop :=
  match m tt with (Val a, _) => Q a | (Err e, _) => EQ e | (Fault, _) => False end
  ∧ ∀ a, Q a → m tt = (Val a, tt).

Section Returns.
Context {E : Type} {EQ : E → Prop}.

Lemma returns_ret {A} (a : A) : returns (mret a : Fn E A) EQ (λ b, b = a).
Proof. split; [done|]. by intros b ->. Qed.

Lemma returns_throw {A} e : EQ e → returns (throw e : Fn E A) EQ (λ _, False).
Proof. split; [done|]. by intros b. Qed.

Lemma returns_equiv {A} (m : Fn E A) (Q Q' : A → Prop) :
  returns m EQ Q → (∀ a, Q a ↔ Q' a) → returns m EQ Q'.
Proof.
  intros [H1 H2] HQ. split.
  - destruct (m tt) as [[a|e|] []]; [by apply HQ|done|done].
  - intros a Ha. by apply H2, HQ.
Qed.

Lemma returns_bind {A B} (m : Fn E A) (k : A → Fn E B) (Q : A → Prop) (Q' : A → B → Prop) :
  returns m EQ Q → (∀ a, Q a → returns (k a) EQ (Q' a)) →
  returns (m ≫= k) EQ (λ b, ∃ a, Q a ∧ Q' a b).
Proof.
  intros [H1 H2] Hk. unfold returns, mbind, M_bind. split.
  - destruct (m tt) as [[a|e|] []]; try done. destruct (Hk a H1) as [H3 _].
    destruct (k a tt) as [[b|e|] []]; try done. by exists a.
  - intros b (a & HQ & HQ'). rewrite (H2 a HQ). by apply (Hk a HQ).
Qed.

Lemma returns_when {A} (b : bool) e (m : Fn E A) Q :
  EQ e → (b = false → returns m EQ Q) → returns (when b (throw e) ;; m) EQ (λ a, b = false ∧ Q a).
Proof.
  intros He Hm. destruct b; cbn.
  - split; [done|]. by intros a [? _].
  - destruct (Hm eq_refl) as [H1 H2]. split; [|by intros a [_ H]; apply H2].
    change (match m tt with (Val a, _) => false = false ∧ Q a | (Err e, _) => EQ e | (Fault, _) => False end).
    by destruct (m tt) as [[a|e'|] []].
Qed.

Lemma returns_map_err {F A} (f : E → F) (m : Fn E A) (FQ : F → Prop) Q :
  returns m EQ Q → (∀ e, EQ e → FQ (f e)) → returns (map_err f m) FQ Q.
Proof.
  intros [H1 H2] HF. unfold returns, map_err. split.
  - destruct (m tt) as [[a|e|] []]; try done. by apply HF.
  - intros a HQ. by rewrite (H2 a HQ).
Qed.
End Returns.

Section Cursors.
Context {R : Ruint} {RS : RuintSpec} {UZ : Usize}.

(** Errors of parsing a whole transaction. *)
Definition tx_parse_error (e : InvalidTransaction) : Prop :=
  parse_error e ∨ e = InvalidEncoding ∨ e = InvalidChainId.

Lemma returns_cursor {A B} (m : Parser A) Q r (k : A → Rlp → Fn InvalidTransaction B) Q' :
  parses m Q → cur_ok r →
  (∀ a enc, Q a enc → enc `prefix_of` rest r →
     returns (k a (adv (length enc) r)) tx_parse_error (Q' a enc)) →
  returns ('(a, r') ← on_cursor r m; k a r') tx_parse_error
    (λ b, ∃ a enc, Q a enc ∧ enc `prefix_of` rest r ∧ Q' a enc b).
Proof.
  intros Hm Hr Hk. destruct (Hm r Hr) as [H1 H2]. unfold returns, mbind, M_bind, on_cursor. split.
  - destruct (m r) as [[a|e|] r']; [|by left|done]. destruct H1 as (enc & HQ & Hp & ->).
    destruct (Hk a enc HQ Hp) as [H3 _]. destruct (k a _ tt) as [[b|e|] []]; try done. by exists a, enc.
  - intros b (a & enc & HQ & Hp & HQ'). rewrite (H2 a enc HQ Hp). by apply (Hk a enc HQ Hp).
Qed.

Lemma returns_run {A B} (m : Parser A) r (k : A → Rlp → Fn InvalidTransaction B) a r' Q :
  m r = (Val a, r') → returns (k a r') tx_parse_error Q →
  returns ('(a, r') ← on_cursor r m; k a r') tx_parse_error Q.
Proof. intros Hm Hk. unfold returns, mbind, M_bind, on_cursor. by rewrite Hm. Qed.

Lemma returns_consumed {A} r (m : Fn InvalidTransaction A) Q :
  (is_empty r = true → returns m tx_parse_error Q) →
  returns (require_consumed r ;; m) tx_parse_error (λ a, is_empty r = true ∧ Q a).
Proof.
  intros Hm. eapply returns_equiv; [apply returns_when; [by left; left|]|].
  - intros H. apply Hm. by destruct (is_empty r).
  - intros a. destruct (is_empty r); naive_solver.
Qed.

Lemma is_empty_full r enc :
  cur_ok r → enc `prefix_of` rest r → is_empty (adv (length enc) r) = true ↔ enc = rest r.
Proof.
  intros Hr Hp. rewrite is_empty_rest by (by apply cur_ok_adv). rewrite rest_adv by apply Hr.
  rewrite bool_decide_eq_true. destruct Hp as [k Hk]. rewrite Hk, drop_app_length. split.
  - intros ->. by rewrite app_nil_r.
  - intros He. apply (f_equal length) in He. rewrite length_app in He. destruct k; [done|]. cbn in He. lia.
Qed.

Lemma consumed_since_mark r enc :
  cur_ok r → enc `prefix_of` rest r →
  consumed_since (mark r) (adv (length enc) r) = (Val enc, adv (length enc) r).
Proof.
  intros Hr Hp. unfold consumed_since. erewrite bind_val by done. unfold id, adv, set_pos, mark.
  cbn [rlp_bytes pos]. replace (pos r + Z.of_nat (length enc) - pos r) with (Z.of_nat (length enc)) by lia.
  pose proof (length_rest r Hr). pose proof (prefix_length _ _ Hp).
  by rewrite slice_rest, Nat2Z.id, take_prefix_of by (done || lia).
Qed.

(** *** The envelope: an outer list with payload and signature *)

(** What both parsers start with: the payload, its bytes and the signature. *)
Definition payload_and_sig {P S} (body : Parser P) (sig : Parser S) (src : list Z)
    : Fn InvalidTransaction (P * list Z * S) :=
  '(inner, outer) ← on_cursor (Rlp_new src) list_;
  require_consumed outer ;;
  let mark_ := mark inner in
  '(payload, inner) ← on_cursor inner body;
  '(inner_slice, inner) ← on_cursor inner (consumed_since mark_);
  '(sig, inner) ← on_cursor inner sig;
  require_consumed inner ;;
  mret (payload, inner_slice, sig).

Lemma list_payload_ok r payload enc :
  cur_ok r → enc `prefix_of` rest r → list_enc payload enc → cur_ok (Rlp_new payload).
Proof.
  intros Hr Hp Hl. destruct (list_enc_bounds _ _ Hl (prefix_u8 _ _ Hr Hp)) as (Hu & _ & Hb).
  apply cur_ok_new; [done|]. apply usize_holds_u32. lia.
Qed.

Lemma payload_and_sig_spec {P S} (body : Parser P) (sig : Parser S) QP QS src :
  parses body QP → parses sig QS → cur_ok (Rlp_new src) →
  returns (payload_and_sig body sig src) tx_parse_error
    (λ '(t, p, s), ∃ sp, list_enc (p ++ sp) src ∧ QP t p ∧ QS s sp).
Proof.
  intros HP HS Hsrc. eapply returns_equiv.
  { unfold payload_and_sig. eapply returns_cursor; [apply parses_list|done|].
    intros inner enc Hin Hp. apply returns_consumed. intros _.
    assert (cur_ok inner) as Hok.
    { destruct Hin as (payload & -> & Hl). by eapply list_payload_ok. }
    cbn zeta. eapply returns_cursor; [exact HP|done|]. intros t e1 Ht Hp1.
    eapply returns_run; [by apply consumed_since_mark|].
    eapply returns_cursor; [exact HS|by apply cur_ok_adv|]. intros s e2 Hs Hp2.
    apply returns_consumed. intros _. apply returns_ret. }
  intros [[t p] s]. split.
  - intros (inner & enc & (payload & -> & Hl) & Hp & Ho & t' & e1 & Ht & Hp1 & s' & e2 & Hs & Hp2 & He & [= -> -> ->]).
    pose proof (list_payload_ok _ _ _ Hsrc Hp Hl) as Hok.
    apply is_empty_full in Ho; [|done|done]. subst enc.
    apply is_empty_full in He; [|by apply cur_ok_adv|done]. exists e2. split_conj; [|done..].
    rewrite rest_adv in He by done. destruct Hp1 as [k Hk]. change (rest (Rlp_new payload)) with payload in *.
    by rewrite He, Hk, drop_app_length, <- Hk.
  - intros (sp & Hl & Ht & Hs). assert (src `prefix_of` rest (Rlp_new src)) as Hp by done.
    pose proof (list_payload_ok _ _ _ Hsrc Hp Hl) as Hok.
    assert (p `prefix_of` rest (Rlp_new (p ++ sp))) as Hp1 by (by exists sp).
    assert (rest (adv (length p) (Rlp_new (p ++ sp))) = sp) as Hr.
    { rewrite rest_adv by done. apply drop_app_length. }
    exists (Rlp_new (p ++ sp)), src. split_conj; [by exists (p ++ sp)|done|by apply is_empty_full|].
    exists t, p. split_conj; [done|done|]. exists s, sp. split_conj; [done|by rewrite Hr| |done].
    apply is_empty_full; [by apply cur_ok_adv|by rewrite Hr|done].
Qed.
End Cursors.

(** ** What is accepted *)

Section Accepted.
Context {R : Ruint} {RS : RuintSpec} {UZ : Usize} {KK : Keccak}.

(** The hash that is signed: type byte, then the list of the payload. *)
Definition signing_hash (type p : list Z) : list Z := Keccak256 (type ++ rlp_header 0xc0 (length p) ++ p).

Definition typed_accepts {P} `{EthereumTxType P} (QP : P → list Z → Prop) (t : P) (s : EIP2718SignatureData)
    (src h : list Z) : Prop :=
  ∃ p sp, list_enc (p ++ sp) src ∧ QP t p ∧ sig_fields s sp ∧ h = signing_hash [TX_TYPE (T:=P)] p.

Lemma EIP2718_split {P} `{RlpListDecode P} `{EthereumTxType P} src :
  EIP2718_try_parse (P:=P) src tt =
  ('(t, p, s) ← payload_and_sig (decode_list_body (T:=P)) (decode_list_body (T:=EIP2718SignatureData)) src;
   mret (t, s, Keccak256 (apply_list_concatenation_encoding_to_hash
                            (wrap 32 (Z.of_nat (length p))) [TX_TYPE (T:=P)] ++ p))) tt.
Proof.
  unfold EIP2718_try_parse, payload_and_sig, require_consumed, when, mbind, M_bind, on_cursor, throw. cbn zeta.
  repeat (case_match; simplify_eq; try done).
Qed.

Lemma returns_at {E A} (m m' : Fn E A) EQ Q : m tt = m' tt → returns m' EQ Q → returns m EQ Q.
Proof. intros He. unfold returns. by rewrite He. Qed.

(** The length of what is hashed fits 32 bits. *)
Lemma payload_u32 p sp src :
  list_enc (p ++ sp) src → Forall is_u8 src → is_u32 (Z.of_nat (length p)).
Proof.
  intros Hl Hu. destruct (list_enc_bounds _ _ Hl Hu) as (_ & _ & Hb). rewrite length_app in Hb.
  unfold in_width. lia.
Qed.

Lemma EIP2718_spec {P} `{RlpListDecode P} `{EthereumTxType P} (QP : P → list Z → Prop) src :
  parses (decode_list_body (T:=P)) QP → cur_ok (Rlp_new src) →
  returns (EIP2718_try_parse (P:=P) src) tx_parse_error (λ '(t, s, h), typed_accepts QP t s src h).
Proof.
  intros HP Hsrc. eapply returns_at; [apply EIP2718_split|]. eapply returns_equiv.
  { eapply returns_bind; [by apply payload_and_sig_spec; [exact HP|apply parses_sig|]|].
    intros [[t p] s] _. apply (returns_equiv _ (λ x, x = (t, s, Keccak256 (apply_list_concatenation_encoding_to_hash
      (wrap 32 (Z.of_nat (length p))) [TX_TYPE (T:=P)] ++ p)))); [apply returns_ret|]. intros x.
    instantiate (1 := λ '(t, p, s) x, x = (t, s, Keccak256 (apply_list_concatenation_encoding_to_hash
      (wrap 32 (Z.of_nat (length p))) [TX_TYPE (T:=P)] ++ p))). done. }
  assert (∀ p sp, list_enc (p ++ sp) src →
    apply_list_concatenation_encoding_to_hash (wrap 32 (Z.of_nat (length p))) [TX_TYPE (T:=P)] ++ p
    = [TX_TYPE (T:=P)] ++ rlp_header 0xc0 (length p) ++ p) as Hh.
  { intros p sp Hl. pose proof (payload_u32 _ _ _ Hl (proj1 Hsrc)) as Hw.
    rewrite wrap_small, list_header_to_hash by done. by rewrite <- app_assoc. }
  intros [[t s] h]. split.
  - intros ([[t' p] s'] & (sp & Hl & Ht & Hs) & [= -> -> ->]). exists p, sp. split_conj; try done.
    unfold signing_hash. by rewrite (Hh p sp Hl).
  - intros (p & sp & Hl & Ht & Hs & ->). exists (t, p, s). split; [by exists sp|].
    unfold signing_hash. by rewrite (Hh p sp Hl).
Qed.
(** *** Legacy transactions *)

(** The bytes added to a payload that is protected against replay. *)
Definition eip155_suffix (chain : Z) : list Z := rlp_string (minimal_be chain) ++ [0x80; 0x80].

Definition legacy_accepts (chain : Z) (t : LegacyTXInner) (s : LegacySignatureData) (src h : list Z) : Prop :=
  ∃ p sp, list_enc (p ++ sp) src ∧ legacy_fields t p ∧ legacy_sig_fields s sp
    ∧ if is_eip155 s
      then (ls_v s = 35 + 2 * chain ∨ ls_v s = 36 + 2 * chain) ∧ h = signing_hash [] (p ++ eip155_suffix chain)
      else h = signing_hash [] p.

Definition legacy_hash (chain : Z) (p : list Z) (s : LegacySignatureData) : Fn InvalidTransaction (list Z) :=
  if negb (is_eip155 s) then
    let hasher := apply_list_concatenation_encoding_to_hash (wrap 32 (Z.of_nat (length p))) [] in
    mret (Keccak256 (hasher ++ p))
  else
    let min_v := u_add 35 (u_mul chain 2) in
    when (negb ((ls_v s =? min_v) || (ls_v s =? u_add min_v 1))) (throw InvalidEncoding) ;;
    let hasher := apply_list_concatenation_encoding_to_hash
                    (wrap 32 (wrap usize_bits (Z.of_nat (length p) + u64_encoding_len chain + 2))) [] in
    let hasher := hasher ++ p in
    let hasher := apply_u64_encoding_to_hash chain hasher in
    mret (Keccak256 (hasher ++ [0x80; 0x80])).

Lemma Legacy_split src chain :
  Legacy_try_parse src chain tt =
  ('(t, p, s) ← payload_and_sig (decode_list_body (T:=LegacyTXInner)) (decode_list_body (T:=LegacySignatureData)) src;
   h ← legacy_hash chain p s; mret (t, s, h)) tt.
Proof.
  unfold Legacy_try_parse, payload_and_sig, legacy_hash, require_consumed, when, mbind, M_bind, on_cursor, throw.
  cbn zeta. repeat (case_match; simplify_eq; try done).
Qed.

Lemma v_of_chain chain : is_u64 chain →
  u_add 35 (u_mul chain 2) = 35 + 2 * chain ∧ u_add (u_add 35 (u_mul chain 2)) 1 = 36 + 2 * chain.
Proof.
  intros Hc. unfold in_width in Hc.
  assert (u_mul chain 2 = 2 * chain) as Hm.
  { rewrite u_mul_spec by (unfold in_width; lia). rewrite Z.mod_small by lia. lia. }
  assert (u_add 35 (u_mul chain 2) = 35 + 2 * chain) as Ha.
  { rewrite Hm, u_add_spec by (unfold in_width; lia). by rewrite Z.mod_small by lia. }
  split; [done|]. rewrite Ha, u_add_spec by (unfold in_width; lia). rewrite Z.mod_small by lia. lia.
Qed.

Lemma length_eip155_suffix chain :
  is_u64 chain → Z.of_nat (length (eip155_suffix chain)) = u64_encoding_len chain + 2
                 ∧ (length (eip155_suffix chain) ≤ 11)%nat.
Proof.
  intros Hc. unfold eip155_suffix. destruct (u64_to_hash chain [] Hc) as [_ ->]. rewrite length_app. cbn [length].
  split; [lia|]. assert (length (minimal_be chain) ≤ 8)%nat by (apply width_of_le; [apply Hc|apply Hc]).
  destruct (rlp_string_short (minimal_be chain)) as [(x & _ & _ & ->)| ->]; cbn; lia.
Qed.

Lemma legacy_hash_spec chain p s :
  is_u64 chain → Z.of_nat (length p) + 11 < 2 ^ 32 →
  returns (legacy_hash chain p s) tx_parse_error
    (λ h, if is_eip155 s
          then (ls_v s = 35 + 2 * chain ∨ ls_v s = 36 + 2 * chain) ∧ h = signing_hash [] (p ++ eip155_suffix chain)
          else h = signing_hash [] p).
Proof.
  intros Hc Hp. unfold legacy_hash. destruct (is_eip155 s); cbn [negb]; cbn zeta.
  - destruct (v_of_chain chain Hc) as [-> ->]. destruct (length_eip155_suffix chain Hc) as [Hs1 Hs2].
    eapply returns_equiv; [apply returns_when; [by right; left|intros _; apply returns_ret]|].
    assert (Keccak256 (apply_u64_encoding_to_hash chain
      (apply_list_concatenation_encoding_to_hash
         (wrap 32 (wrap usize_bits (Z.of_nat (length p) + u64_encoding_len chain + 2))) [] ++ p) ++ [0x80; 0x80])
      = signing_hash [] (p ++ eip155_suffix chain)) as ->.
    { replace (Z.of_nat (length p) + u64_encoding_len chain + 2) with (Z.of_nat (length (p ++ eip155_suffix chain)))
        by (rewrite length_app; lia).
      assert (0 ≤ Z.of_nat (length (p ++ eip155_suffix chain)) < 2 ^ 32) by (rewrite length_app; lia).
      rewrite (wrap_small usize_bits), wrap_small by (done || by apply usize_holds_u32).
      rewrite list_header_to_hash by done. destruct (u64_to_hash chain (([] ++ rlp_header 0xc0 (length (p ++ eip155_suffix chain))) ++ p) Hc) as [-> _].
      unfold signing_hash, eip155_suffix. cbn [app]. by rewrite <- !app_assoc. }
    intros h. rewrite negb_false_iff, orb_true_iff, !Z.eqb_eq. done.
  - eapply returns_equiv; [apply returns_ret|]. intros h. rewrite wrap_small, list_header_to_hash by (unfold in_width; lia). done.
Qed.

Lemma Legacy_spec src chain :
  is_u64 chain → cur_ok (Rlp_new src) → Z.of_nat (length src) + 11 < 2 ^ 32 →
  returns (Legacy_try_parse src chain) tx_parse_error (λ '(t, s, h), legacy_accepts chain t s src h).
Proof.
  intros Hc Hsrc Hlen. eapply returns_at; [apply Legacy_split|]. eapply returns_equiv.
  { eapply (returns_bind _ _ _ (λ '(t, p, s) '(t', s', h), t' = t ∧ s' = s ∧
      if is_eip155 s
      then (ls_v s = 35 + 2 * chain ∨ ls_v s = 36 + 2 * chain) ∧ h = signing_hash [] (p ++ eip155_suffix chain)
      else h = signing_hash [] p)).
    { apply payload_and_sig_spec; [apply parses_legacy|apply parses_legacy_sig|done]. }
    intros [[t p] s] (sp & Hl & _). eapply returns_equiv.
    { eapply returns_bind; [apply legacy_hash_spec; [done|]|intros h _; apply returns_ret].
      destruct (list_enc_bounds _ _ Hl (proj1 Hsrc)) as (_ & Hb & _). rewrite length_app in Hb. lia. }
    intros [[t' s'] h]. cbn. split; [intros (h' & H & [= -> -> ->]); done|intros (-> & -> & H); by exists h]. }
  intros [[t s] h]. unfold legacy_accepts. split.
  - intros ([[t' p] s'] & (sp & Hl & Ht & Hs) & -> & -> & Hh). by exists p, sp.
  - intros (p & sp & Hl & Ht & Hs & Hh). exists (t, p, s). split; [by exists sp|done].
Qed.

(** *** All transactions *)

Definition tx_accepts (chain : Z) (input : list Z) (r : RlpEncodedTxInner * list Z) : Prop :=
  let '(tx, h) := r in
  match tx with
  | EIP2930 t s => t1_chain_id t = chain ∧ ∃ src, input = 1 :: src ∧ typed_accepts eip2930_fields t s src h
  | EIP1559 t s => t2_chain_id t = chain ∧ ∃ src, input = 2 :: src ∧ typed_accepts eip1559_fields t s src h
  | EIP7702 t s => t4_chain_id t = chain ∧ ∃ src, input = 4 :: src ∧ typed_accepts eip7702_fields t s src h
  | Legacy t s => is_eip155 s = false ∧ legacy_accepts chain t s input h
  | LegacyWithEIP155 t s => is_eip155 s = true ∧ legacy_accepts chain t s input h
  end.

Lemma parse_typed_spec {P} `{RlpListDecode P} `{EthereumTxType P} (QP : P → list Z → Prop)
    (chain_id : P → Z) (wrap_tx : P → EIP2718SignatureData → RlpEncodedTxInner) src chain :
  parses (decode_list_body (T:=P)) QP → cur_ok (Rlp_new src) →
  returns (parse_typed chain_id wrap_tx src chain) tx_parse_error
    (λ '(tx, h), ∃ t s, tx = wrap_tx t s ∧ chain_id t = chain ∧ typed_accepts QP t s src h).
Proof.
  intros HP Hsrc. eapply returns_equiv.
  { unfold parse_typed. eapply (returns_bind _ _ _ (λ '(t, s, h) r, chain_id t = chain ∧ r = (wrap_tx t s, h)));
      [by apply EIP2718_spec|].
    intros [[t s] h] _. eapply returns_equiv; [apply returns_when; [by right; right|intros _; apply returns_ret]|].
    intros r. cbn beta iota. by rewrite negb_false_iff, Z.eqb_eq. }
  intros [tx h]. split.
  - intros ([[t s] h'] & Ha & Hc & [= -> ->]). by exists t, s.
  - intros (t & s & -> & Hc & Ha). by exists (t, s, h).
Qed.

Lemma list_enc_first payload enc : list_enc payload enc → ∃ b l, enc = b :: l ∧ 0xc0 ≤ b.
Proof.
  intros (hdr & [[_ ->] | (_ & lb & _ & _ & ->)] & ->); cbn [app]; eexists _, _; (split; [done|lia]).
Qed.

Lemma string_enc_first s enc : string_enc s enc → ∃ b l, enc = b :: l ∧ b < 0xc0.
Proof.
  intros [[(b & -> & Hb) ->] | (_ & hdr & [[Hl ->] | (_ & lb & Hlb & _ & ->)] & ->)]; cbn [app];
    eexists _, _; (split; [done|lia]).
Qed.

(** The type byte of a typed transaction is the byte itself. *)
Lemma int_enc_type ty enc : 0 < ty < 0x80 → int_enc 8 ty enc ↔ enc = [ty].
Proof.
  intros Hty. unfold int_enc. assert (minimal_be ty = [ty]) as ->.
  { unfold minimal_be. rewrite (width_of_full ty 0) by (cbn; lia). unfold be_bytes. cbn. by rewrite Z.mod_small by lia. }
  rewrite string_enc_small by lia. unfold in_width. naive_solver lia.
Qed.

Lemma typed_input ty k enc src (T : list Z → Prop) :
  int_enc 8 ty enc → 0 < k < 0x80 → (∃ src', enc ++ src = k :: src' ∧ T src') ↔ ty = k ∧ T src.
Proof.
  intros He Hk. split.
  - intros (src' & Heq & HT). destruct enc as [|b l]; [by apply proj2, string_enc_nonempty in He|].
    cbn in Heq. simplify_eq. destruct He as [Hw [[(x & Hx & _) Hs]|(_ & hdr & Hh & Hs)]].
    + rewrite Hx in Hs. simplify_eq. split; [|done].
      rewrite <- (of_be_bytes_minimal ty), Hx by apply Hw. unfold of_be_bytes. cbn. lia.
    + destruct Hh as [[_ ->] | (_ & lb & _ & _ & ->)]; cbn in Hs; simplify_eq; lia.
  - intros [-> HT]. apply int_enc_type in He; [|done]. subst enc. by exists src.
Qed.

Definition parse_dispatch (chain : Z) (ty : Z) (src : list Z)
    : Fn InvalidTransaction (RlpEncodedTxInner * list Z) :=
  if ty =? TX_TYPE (T:=EIP2930Tx) then parse_typed t1_chain_id EIP2930 src chain
  else if ty =? TX_TYPE (T:=EIP1559Tx) then parse_typed t2_chain_id EIP1559 src chain
  else if ty =? TX_TYPE (T:=EIP7702Tx) then parse_typed t4_chain_id EIP7702 src chain
  else throw InvalidEncoding.

Definition dispatch_accepts (chain ty : Z) (src : list Z) (r : RlpEncodedTxInner * list Z) : Prop :=
  let '(tx, h) := r in
  match tx with
  | EIP2930 t s => ty = 1 ∧ t1_chain_id t = chain ∧ typed_accepts eip2930_fields t s src h
  | EIP1559 t s => ty = 2 ∧ t2_chain_id t = chain ∧ typed_accepts eip1559_fields t s src h
  | EIP7702 t s => ty = 4 ∧ t4_chain_id t = chain ∧ typed_accepts eip7702_fields t s src h
  | _ => False
  end.

Lemma parse_dispatch_spec chain ty src :
  cur_ok (Rlp_new src) →
  returns (parse_dispatch chain ty src) tx_parse_error (dispatch_accepts chain ty src).
Proof.
  intros Hsrc. unfold parse_dispatch, TX_TYPE, EIP2930Tx_type, EIP1559Tx_type, EIP7702Tx_type.
  destruct (Z.eqb_spec ty 1) as [->|N1]; [|destruct (Z.eqb_spec ty 2) as [->|N2];
    [|destruct (Z.eqb_spec ty 4) as [->|N4]]].
  - eapply returns_equiv; [apply (parse_typed_spec eip2930_fields); [apply parses_eip2930|done]|].
    intros [[] h]; cbn; naive_solver.
  - eapply returns_equiv; [apply (parse_typed_spec eip1559_fields); [apply parses_eip1559|done]|].
    intros [[] h]; cbn; naive_solver.
  - eapply returns_equiv; [apply (parse_typed_spec eip7702_fields); [apply parses_eip7702|done]|].
    intros [[] h]; cbn; naive_solver.
  - eapply returns_equiv; [apply returns_throw; by right; left|].
    intros [[] h]; cbn; naive_solver.
Qed.

Lemma dispatch_accepts_iff chain ty enc src r :
  int_enc 8 ty enc → dispatch_accepts chain ty src r ↔ tx_accepts chain (enc ++ src) r.
Proof.
  intros He. assert (∀ p, ¬ list_enc p (enc ++ src)) as Hnl.
  { intros p (b & l & Hb & Hge)%list_enc_first. destruct He as [_ (b' & l' & -> & Hlt)%string_enc_first].
    cbn in Hb. simplify_eq. lia. }
  destruct r as [[t s|t s|t s|t s|t s] h]; cbn [dispatch_accepts tx_accepts];
    rewrite ?(typed_input ty _ enc src) by (done || lia); [| |tauto..];
    (split; [done|]); intros (_ & p & sp & Hl & _); by destruct (Hnl _ Hl).
Qed.
Lemma cur_ok_suffix enc src : cur_ok (Rlp_new (enc ++ src)) → cur_ok (Rlp_new src).
Proof.
  intros (Hu & _ & Hw). apply Forall_app in Hu as [_ Hu]. apply cur_ok_new; [done|].
  unfold rlp_len, in_width in *. cbn in Hw. rewrite length_app in Hw. lia.
Qed.

Lemma remaining_adv enc src :
  cur_ok (Rlp_new (enc ++ src)) →
  remaining (adv (length enc) (Rlp_new (enc ++ src))) = (Val src, adv (length enc) (Rlp_new (enc ++ src))).
Proof.
  intros Hr. set (r := adv _ _). assert (cur_ok r) as Hr' by (apply cur_ok_adv; [done|by exists src]).
  assert (rest r = src) as Hsrc by (unfold r; rewrite rest_adv by done; apply drop_app_length).
  unfold remaining. erewrite bind_val by done. unfold id. pose proof (length_rest r Hr').
  rewrite slice_rest by (done || lia). rewrite <- (length_rest r Hr'), Nat2Z.id, firstn_all, Hsrc. done.
Qed.

Lemma parse_spec input chain :
  is_u64 chain → cur_ok (Rlp_new input) → Z.of_nat (length input) + 11 < 2 ^ 32 →
  returns (parse_and_compute_signed_hash input chain) tx_parse_error (tx_accepts chain input).
Proof.
  intros Hc Hok Hlen. destruct (parses_u8 _ Hok) as [H1 H2].
  destruct (u8 (Rlp_new input)) as [[ty|e|] r'] eqn:E; [| |done].
  - destruct H1 as (enc & He & [src Hsrc] & ->). change (rest (Rlp_new input)) with input in Hsrc. subst input.
    eapply returns_equiv; [|intros a; by apply dispatch_accepts_iff].
    eapply returns_at; [|by apply parse_dispatch_spec, (cur_ok_suffix enc)].
    unfold parse_and_compute_signed_hash, attempt, on_cursor. unfold mbind, M_bind. rewrite E.
    by rewrite remaining_adv.
  - eapply returns_equiv.
    { eapply returns_at; [|eapply (returns_bind (Legacy_try_parse input chain)
        (λ '(tx, sig_data, sig_hash), mret (if is_eip155 sig_data then LegacyWithEIP155 tx sig_data else Legacy tx sig_data, sig_hash))
        _ (λ '(t, s, h) r, r = (if is_eip155 s then LegacyWithEIP155 t s else Legacy t s, h)));
        [by apply Legacy_spec|intros [[t s] h] _; apply returns_ret]].
      unfold parse_and_compute_signed_hash, attempt, on_cursor. unfold mbind, M_bind. by rewrite E. }
    intros [tx h]. split.
    + intros ([[t s] h'] & Ha & [= -> ->]). destruct (is_eip155 s) eqn:Es; split; done.
    + assert (∀ k src, 0 < k < 0x80 → input ≠ k :: src) as Hn.
      { intros k src Hk ->. discriminate (H2 k [k] (proj2 (int_enc_type k [k] Hk) eq_refl) ltac:(by exists src)). }
      destruct tx as [t s|t s|t s|t s|t s]; cbn; intros [Hs Ha];
        try (destruct Ha as (src & Heq & _); apply Hn in Heq; [done|lia]);
        exists (t, s, h); by rewrite Hs.
Qed.

Lemma input_ok input :
  Forall is_u8 input → Z.of_nat (length input) + 11 < 2 ^ 32 → cur_ok (Rlp_new input).
Proof. intros Hu Hl. apply cur_ok_new; [done|]. apply usize_holds_u32. lia. Qed.

Lemma parse_from_buffer_spec input chain from :
  is_u64 chain → Forall is_u8 input → Z.of_nat (length input) + 11 < 2 ^ 32 →
  returns (parse_from_buffer input chain from) (λ e, ∃ e', e = Validation e' ∧ tx_parse_error e')
    (λ t, t = mkRlpEncodedTransaction input (inner t) chain (sig_hash t) None from
          ∧ tx_accepts chain input (inner t, sig_hash t)).
Proof.
  intros Hc Hu Hl. eapply returns_equiv.
  { unfold parse_from_buffer. eapply (returns_bind _ _ _ (λ '(tx, h) t, t = mkRlpEncodedTransaction input tx chain h None from)).
    - eapply returns_map_err; [apply parse_spec; [done|by apply input_ok|done]|]. intros e He. by exists e.
    - intros [tx h] _. apply returns_ret. }
  intros t. split.
  - intros ([tx h] & Ha & ->). done.
  - intros [Ht Ha]. by exists (inner t, sig_hash t).
Qed.

(** C11: parsing an RLP-encoded transaction.  For any bytes, of a length the
    bootloader admits, parsing never panics.  It accepts exactly the encodings of
    the four formats for the expected chain, with every field in its type, and
    the hash to verify is that of type byte, list header and payload bytes (for
    a legacy transaction with replay protection, extended by chain id and two
    empty strings); everything else is one of four validation errors. *)
Theorem tx_parse_exact input chain from :
  is_u64 chain → Forall is_u8 input → Z.of_nat (length input) + 11 < 2 ^ 32 →
  match parse_from_buffer input chain from tt with
  | (Val t, _) =>
      t = mkRlpEncodedTransaction input (inner t) chain (sig_hash t) None from
      ∧ tx_accepts chain input (inner t, sig_hash t)
  | (Err e, _) =>
      e ∈ Validation <$> [InvalidStructure; AuthListIsEmpty; InvalidEncoding; InvalidChainId]
      ∧ ∀ r, ¬ tx_accepts chain input r
  | (Fault, _) => False
  end.
Proof.
  intros Hc Hu Hl. destruct (parse_from_buffer_spec input chain from Hc Hu Hl) as [H1 H2].
  destruct (parse_from_buffer input chain from tt) as [[t|e|] u]; [done| |done].
  destruct H1 as (e' & -> & He). split.
  - destruct He as [[-> | ->]|[-> | ->]]; cbn; set_solver.
  - intros [tx h] Ha. discriminate (H2 (mkRlpEncodedTransaction input tx chain h None from) (conj eq_refl Ha)).
Qed.

End Accepted.
