(* ===== verification/TxRoundtrip.v ===== *)
(** * Reading back an Ethereum transaction

    Transactions as the EIPs define them, abstractly, with their encodings as RLP
    items; parsing the encoding yields the transaction: every accessor returns the
    field that was encoded, the iterators yield the entries of the lists, and the
    hash to be verified is that of the unsigned payload. *)

From stdpp Require Import list.
From S2P Require Import Prelude U256 Rlp Resources SystemInterface BootloaderErrors RlpParser RlpLogic.
From S2P Require Import RlpTheorems TxFormats TxLogic TxTheorems.

(** ** Transactions of the EIPs *)

(** An address with its storage keys. *)
Definition AccessEntry : Type := Z * list (list Z).

Inductive TxKind : Type :=
| KLegacy (protected : bool) (gas_price : Z)
| K2930 (gas_price : Z) (al : list AccessEntry)
| K1559 (priority_fee max_fee : Z) (al : list AccessEntry)
| K7702 (priority_fee max_fee : Z) (al : list AccessEntry) (auths : list AuthorizationEntry).

Record EthTx : Type := mkEthTx {
  kind : TxKind;
  nonce : Z;
  gas_limit : Z;
  to : option Z;
  value : Z;
  data : list Z
}.

Definition rint (v : Z) : RlpItem := RlpString (minimal_be v).
Definition raddress (a : Z) : RlpItem := RlpString (be_bytes 20 a).
Definition rto (a : option Z) : RlpItem := from_option raddress (RlpString []) a.

Definition raccess_entry (e : AccessEntry) : RlpItem :=
  RlpList [raddress e.1; RlpList (map RlpString e.2)].
Definition raccess_list (al : list AccessEntry) : RlpItem := RlpList (map raccess_entry al).

Definition rauth (a : AuthorizationEntry) : RlpItem :=
  RlpList [rint (ae_chain_id a); RlpString (ae_address a); rint (ae_nonce a); rint (ae_y_parity a);
           RlpString (ae_r a); RlpString (ae_s a)].

Definition call_items (t : EthTx) : list RlpItem := [rto (to t); rint (value t); RlpString (data t)].

(** The fields that are signed. *)
Definition payload_items (chain : Z) (t : EthTx) : list RlpItem :=
  match kind t with
  | KLegacy _ gas_price => [rint (nonce t); rint gas_price; rint (gas_limit t)] ++ call_items t
  | K2930 gas_price al =>
      [rint chain; rint (nonce t); rint gas_price; rint (gas_limit t)] ++ call_items t
      ++ [raccess_list al]
  | K1559 priority_fee max_fee al =>
      [rint chain; rint (nonce t); rint priority_fee; rint max_fee; rint (gas_limit t)]
      ++ call_items t ++ [raccess_list al]
  | K7702 priority_fee max_fee al auths =>
      [rint chain; rint (nonce t); rint priority_fee; rint max_fee; rint (gas_limit t)]
      ++ call_items t ++ [raccess_list al; RlpList (map rauth auths)]
  end.

Definition type_byte (t : EthTx) : list Z :=
  match kind t with KLegacy _ _ => [] | K2930 _ _ => [1] | K1559 _ _ _ => [2] | K7702 _ _ _ _ => [4] end.

Definition replay_items (chain : Z) (t : EthTx) : list RlpItem :=
  match kind t with KLegacy true _ => [rint chain; RlpString []; RlpString []] | _ => [] end.

(** The bytes whose hash is signed. *)
Definition unsigned_encoding (chain : Z) (t : EthTx) : list Z :=
  type_byte t ++ rlp (RlpList (payload_items chain t ++ replay_items chain t)).

Definition v_of (chain : Z) (t : EthTx) (parity : bool) : Z :=
  match kind t with
  | KLegacy true _ => 35 + 2 * chain + Z.b2z parity
  | KLegacy false _ => 27 + Z.b2z parity
  | _ => Z.b2z parity
  end.

(** The signed transaction on the wire. *)
Definition signed_encoding (chain : Z) (t : EthTx) (parity : bool) (r s : Z) : list Z :=
  type_byte t
  ++ rlp (RlpList (payload_items chain t ++ [rint (v_of chain t parity); rint r; rint s])).

(** ** Well-formed transactions *)

Definition access_ok (e : AccessEntry) : Prop :=
  in_width 160 e.1 ∧ Forall (λ k, length k = 32%nat ∧ Forall is_u8 k) e.2.

Definition auth_ok (a : AuthorizationEntry) : Prop :=
  is_u256 (ae_chain_id a) ∧ length (ae_address a) = 20%nat ∧ is_u64 (ae_nonce a) ∧ is_u8 (ae_y_parity a)
  ∧ bad_scalar (ae_r a) = false ∧ bad_scalar (ae_s a) = false
  ∧ Forall is_u8 (ae_address a ++ ae_r a ++ ae_s a).

Definition kind_ok (t : EthTx) : Prop :=
  match kind t with
  | KLegacy _ gas_price => is_u256 gas_price
  | K2930 gas_price al => is_u256 gas_price ∧ Forall access_ok al
  | K1559 priority_fee max_fee al => is_u256 priority_fee ∧ is_u256 max_fee ∧ Forall access_ok al
  | K7702 priority_fee max_fee al auths =>
      is_u256 priority_fee ∧ is_u256 max_fee ∧ Forall access_ok al ∧ Forall auth_ok auths
      ∧ auths ≠ [] ∧ is_Some (to t)
  end.

Definition tx_ok (t : EthTx) : Prop :=
  is_u64 (nonce t) ∧ is_u64 (gas_limit t) ∧ from_option (in_width 160) True (to t)
  ∧ is_u256 (value t) ∧ Forall is_u8 (data t) ∧ kind_ok t.

(** ** Sizes *)

Definition small (l : list Z) : Prop := Z.of_nat (length l) < 2 ^ 32.

Lemma length_rlp_string s : (length s ≤ length (rlp_string s))%nat.
Proof. destruct (rlp_string_cases s) as [[_ ->]|[_ ->]]; rewrite ?length_app; lia. Qed.

Lemma length_rlp_payload items : (length (concat (map rlp items)) ≤ length (rlp (RlpList items)))%nat.
Proof. cbn [rlp]. rewrite length_app. lia. Qed.

Lemma length_concat_in (l : list Z) ls : l ∈ ls → (length l ≤ length (concat ls))%nat.
Proof.
  induction 1 as [|x y ls Hin IH]; cbn [concat]; rewrite length_app; lia.
Qed.

Lemma small_items items : small (rlp (RlpList items)) → Forall (λ i, small (rlp i)) items.
Proof.
  intros Hs. apply Forall_forall. intros i Hi. unfold small in *.
  pose proof (length_rlp_payload items). assert (rlp i ∈ map rlp items) as Hl%length_concat_in; [|lia].
  apply list_elem_of_fmap. by exists i.
Qed.

Lemma list_enc_rlp items : small (rlp (RlpList items)) → list_enc (concat (map rlp items)) (rlp (RlpList items)).
Proof.
  intros Hs. cbn [rlp]. apply list_enc_canonical. pose proof (length_rlp_payload items). unfold small in Hs. lia.
Qed.

Lemma string_enc_rlp s : small (rlp_string s) → string_enc s (rlp_string s).
Proof. intros Hs. apply string_enc_canonical. pose proof (length_rlp_string s). unfold small in Hs. lia. Qed.

Lemma fields_rlp Qs items :
  Forall2 (λ Q i, Q (rlp i)) Qs items → fields Qs (concat (map rlp items)).
Proof. induction 1 as [|Q i Qs items HQ H IH]; cbn; [done|]. by exists (rlp i), (concat (map rlp items)). Qed.

Lemma items_rlp {T} (Q : T → list Z → Prop) views items :
  Forall2 (λ v i, Q v (rlp i)) views items → items_enc Q views (concat (map rlp items)).
Proof. induction 1 as [|v i views items HQ H IH]; cbn; [done|]. by exists (rlp i), (concat (map rlp items)). Qed.

(** ** The views that are built *)

Definition view_slots (keys : list (list Z)) : StorageSlotsList :=
  mkFixedList (concat (map rlp (map RlpString keys))) (Z.of_nat (length keys)).
Definition view_entry (e : AccessEntry) : AccessListForAddress :=
  mkAccessListForAddress (mkB160 e.1) (view_slots e.2).
Definition view_access_list (al : list AccessEntry) : AccessList :=
  mkHomList (concat (map rlp (map raccess_entry al))) (Some (Z.of_nat (length al))).
Definition view_auths (auths : list AuthorizationEntry) : AuthorizationList :=
  mkHomList (concat (map rlp (map rauth auths))) (Some (Z.of_nat (length auths))).

Lemma int_enc_rint w v : in_width w v → w ≤ 256 → int_enc w v (rlp (rint v)).
Proof. intros Hv Hw. by apply int_enc_canonical. Qed.

Lemma address_enc_rlp s : length s = 20%nat → address_enc s (rlp_string s).
Proof. intros Hs. split; [done|]. apply string_enc_canonical. rewrite Hs. done. Qed.

Lemma of_be_bytes_20 a : in_width 160 a → of_be_bytes (be_bytes 20 a) = a.
Proof. intros Ha. rewrite of_be_bytes_be_bytes. by apply Z.mod_small. Qed.

Lemma to_enc_rto a :
  to_enc (from_option (be_bytes 20) [] a) (rlp (rto a)).
Proof.
  destruct a as [a|]; cbn [from_option rto].
  - split; [right; apply length_be_bytes|]. apply address_enc_rlp, length_be_bytes.
  - split; [by left|]. by apply string_enc_nil.
Qed.

Lemma scalar_enc_rlp s : bad_scalar s = false → scalar_enc s (rlp_string s).
Proof.
  intros Hs. split; [done|]. apply string_enc_canonical. unfold bad_scalar in Hs.
  apply orb_false_iff in Hs as [Hl%bool_decide_eq_false _]. lia.
Qed.

Lemma scalar_minimal r : is_u256 r → bad_scalar (minimal_be r) = false.
Proof.
  intros Hr. unfold bad_scalar. rewrite minimal_no_zero by apply Hr. rewrite bool_decide_false; [done|].
  assert (length (minimal_be r) ≤ 32)%nat by (apply width_of_le; apply Hr). lia.
Qed.

Lemma bool_enc_rint b : bool_enc b (rlp (rint (Z.b2z b))).
Proof. by destruct b. Qed.

Lemma key_encoding k : length k = 32%nat → rlp (RlpString k) = 0xa0 :: k.
Proof.
  intros Hk. cbn [rlp]. destruct (rlp_string_short k) as [(x & -> & _)| ->]; [lia|done|]. by rewrite Hk.
Qed.

Lemma slots_chunks keys :
  Forall (λ k, length k = 32%nat ∧ Forall is_u8 k) keys →
  map rlp (map RlpString keys) = map (cons 0xa0) keys
  ∧ Forall (λ c, Z.of_nat (length c) = 33) (map (cons 0xa0) keys)
  ∧ Z.of_nat (length (concat (map (cons 0xa0) keys))) = Z.of_nat (length keys) * 33.
Proof.
  induction 1 as [|k keys [Hk _] _ (IH1 & IH2 & IH3)]; [done|]. cbn [map concat length].
  rewrite key_encoding, IH1 by done. split; [done|]. split.
  - constructor; [cbn; lia|done].
  - rewrite length_app. cbn [length]. lia.
Qed.

Section Views.
Context {R : Ruint} {RS : RuintSpec} {UZ : Usize}.

Lemma access_entry_rlp e :
  access_ok e → small (rlp (raccess_entry e)) → access_entry_enc (view_entry e) (rlp (raccess_entry e)).
Proof.
  intros [Ha Hk] Hs. exists (concat (map rlp [raddress e.1; RlpList (map RlpString e.2)])). split; [by apply list_enc_rlp|].
  apply small_items in Hs. apply Forall_cons in Hs as [_ Hs]. apply Forall_cons in Hs as [Hs _].
  apply fields_rlp. repeat constructor.
  - exists (be_bytes 20 e.1). split; [apply address_enc_rlp, length_be_bytes|by apply of_be_bytes_20].
  - cbn [ala_slots_list view_entry view_slots fl_payload]. by apply list_enc_rlp.
  - cbn [ala_slots_list view_entry view_slots fl_payload fl_count]. destruct (slots_chunks _ Hk) as (-> & _ & ->). done.
Qed.

Lemma hom_list_rlp {T A} (Q : T → list Z → Prop) (view : A → T) (item : A → RlpItem) (ok : A → Prop) l :
  (∀ a, ok a → small (rlp (item a)) → Q (view a) (rlp (item a))) →
  Forall ok l → small (rlp (RlpList (map item l))) →
  items_enc Q (map view l) (concat (map rlp (map item l)))
  ∧ hom_list_enc Q (mkHomList (concat (map rlp (map item l))) (Some (Z.of_nat (length l)))) (rlp (RlpList (map item l))).
Proof.
  intros HQ Hok Hs. assert (items_enc Q (map view l) (concat (map rlp (map item l)))) as Hi.
  { apply items_rlp. apply small_items in Hs. clear -HQ Hok Hs. induction Hok as [|a l Ha _ IH]; cbn; constructor;
      apply Forall_cons in Hs as [H1 H2]; auto. }
  split; [done|]. split; [by apply list_enc_rlp|]. exists (map view l). cbn. by rewrite length_map.
Qed.

Lemma rauth_rlp a : auth_ok a → small (rlp (rauth a)) → auth_entry_enc a (rlp (rauth a)).
Proof.
  intros (H1 & H2 & H3 & H4 & H5 & H6 & _) Hs. eexists. split; [by apply list_enc_rlp|]. apply fields_rlp.
  repeat (apply Forall2_cons_2 || apply Forall2_nil_2); try (by apply int_enc_rint).
  - by apply address_enc_rlp.
  - by apply scalar_enc_rlp.
  - by apply scalar_enc_rlp.
Qed.

Lemma access_list_rlp al :
  Forall access_ok al → small (rlp (raccess_list al)) →
  items_enc access_entry_enc (map view_entry al) (hl_payload (view_access_list al))
  ∧ access_list_enc (view_access_list al) (rlp (raccess_list al)).
Proof. apply hom_list_rlp. apply access_entry_rlp. Qed.

Lemma auths_rlp auths :
  Forall auth_ok auths → small (rlp (RlpList (map rauth auths))) →
  items_enc auth_entry_enc auths (hl_payload (view_auths auths))
  ∧ authorization_list_enc (view_auths auths) (rlp (RlpList (map rauth auths))).
Proof.
  intros Hok Hs. pose proof (hom_list_rlp auth_entry_enc id rauth auth_ok auths rauth_rlp Hok Hs) as H.
  by rewrite map_id in H.
Qed.

(** *** Iterating *)

Lemma cur_ok_rlp items : Forall is_u8 (concat (map rlp items)) → small (rlp (RlpList items)) →
  cur_ok (Rlp_new (concat (map rlp items))).
Proof.
  intros Hu Hs. apply cur_ok_new; [done|]. apply usize_holds_u32. pose proof (length_rlp_payload items).
  unfold small in Hs. lia.
Qed.

(** What iterating over a view of an entry yields. *)
Definition entry_matches (v : AccessListForAddress) (e : AccessEntry) : Prop :=
  b160_val (ala_address v) = e.1 ∧
  ∃ s, for_each FixedListIter_next (S (length e.2)) (FixedList_iter (ala_slots_list v))
       = (Val (map (λ k, Val (mkBytes32Ref k)) e.2), s).

Lemma view_entry_matches e :
  access_ok e → small (rlp (raccess_entry e)) → entry_matches (view_entry e) e.
Proof.
  intros [_ Hk] Hs. split; [done|]. destruct (slots_chunks _ Hk) as (Hmap & Hf & Hl).
  destruct (fixed_list_items (T:=Bytes32Ref) (map (cons 0xa0) e.2) 0 []) as [s Hs']; try done.
  { cbn [app]. apply usize_holds_u32. apply small_items in Hs.
    apply Forall_cons in Hs as [_ Hs]. apply Forall_cons in Hs as [Hs _].
    pose proof (length_rlp_payload (map RlpString e.2)) as Hp. rewrite Hmap in Hp. unfold small in Hs. lia. }
  exists s. unfold FixedList_iter. cbn [view_entry ala_slots_list view_slots fl_payload fl_count].
  rewrite Hmap. rewrite length_map in Hs'. cbn [app] in Hs'. rewrite Z.add_0_l in Hs'. rewrite Hs'. f_equal. f_equal.
  clear -Hk. induction Hk as [|k keys [Hk _] _ IH]; [done|]. cbn [map]. rewrite IH. f_equal.
  cbn. rewrite Hk. done.
Qed.
End Views.

(** ** Encodings are bytes *)

Ltac each_item := repeat (apply Forall_cons_2 || apply Forall_nil_2).

Lemma rlp_header_u8 base len :
  0 ≤ base ≤ 0xc0 → Z.of_nat len < 2 ^ 32 → Forall is_u8 (rlp_header base len).
Proof.
  intros Hb Hl. unfold rlp_header. destruct (Nat.ltb_spec len 56).
  - constructor; [unfold in_width; lia|done].
  - constructor; [|apply minimal_be_u8].
    assert (length (minimal_be (Z.of_nat len)) ≤ 4)%nat by (apply width_of_le; lia). unfold in_width. lia.
Qed.

Lemma rlp_string_u8 s : Forall is_u8 s → small (rlp_string s) → Forall is_u8 (rlp_string s).
Proof.
  intros Hu Hs. pose proof (length_rlp_string s). unfold small in Hs.
  destruct (rlp_string_cases s) as [[_ ->]|[_ E]]; [done|]. rewrite E in *. apply Forall_app. split; [|done].
  apply rlp_header_u8; lia.
Qed.

Lemma rlp_list_u8 items :
  small (rlp (RlpList items)) → Forall (λ i, small (rlp i) → Forall is_u8 (rlp i)) items →
  Forall is_u8 (concat (map rlp items)) ∧ Forall is_u8 (rlp (RlpList items)).
Proof.
  intros Hs Hi. assert (Forall is_u8 (concat (map rlp items))) as Hc.
  { apply Forall_concat, Forall_fmap. pose proof (small_items _ Hs) as Hsi.
    apply Forall_forall. intros i Hin. rewrite Forall_forall in Hi, Hsi. by apply Hi, Hsi. }
  split; [done|]. cbn [rlp]. apply Forall_app. split; [|done]. apply rlp_header_u8; [lia|].
  pose proof (length_rlp_payload items). unfold small in Hs. lia.
Qed.

Lemma rint_u8 v : small (rlp (rint v)) → Forall is_u8 (rlp (rint v)).
Proof. apply rlp_string_u8, minimal_be_u8. Qed.

Lemma raddress_u8 a : small (rlp (raddress a)) → Forall is_u8 (rlp (raddress a)).
Proof. apply rlp_string_u8. unfold be_bytes. apply Forall_reverse, le_bytes_u8. Qed.

Lemma rto_u8 a : small (rlp (rto a)) → Forall is_u8 (rlp (rto a)).
Proof. destruct a; [apply raddress_u8|]. intros _. by repeat constructor. Qed.

Lemma raccess_entry_u8 e : access_ok e → small (rlp (raccess_entry e)) → Forall is_u8 (rlp (raccess_entry e)).
Proof.
  intros [_ Hk] Hs. apply rlp_list_u8; [done|]. each_item; [apply raddress_u8|].
  intros Hs'. apply rlp_list_u8; [done|]. apply Forall_fmap. eapply Forall_impl; [exact Hk|].
  intros k [_ Hu] Hsk. by apply rlp_string_u8.
Qed.

Lemma raccess_list_u8 al :
  Forall access_ok al → small (rlp (raccess_list al)) →
  Forall is_u8 (concat (map rlp (map raccess_entry al))) ∧ Forall is_u8 (rlp (raccess_list al)).
Proof.
  intros Hok Hs. apply rlp_list_u8; [done|]. apply Forall_fmap. eapply Forall_impl; [exact Hok|].
  intros e He Hse. by apply raccess_entry_u8.
Qed.

Lemma rauth_u8 a : auth_ok a → small (rlp (rauth a)) → Forall is_u8 (rlp (rauth a)).
Proof.
  intros (_ & _ & _ & _ & _ & _ & Hu) Hs. rewrite !Forall_app in Hu. destruct Hu as (Ha & Hr & Hs').
  apply rlp_list_u8; [done|]. each_item; try apply rint_u8; intros Hsi; by apply rlp_string_u8.
Qed.

Lemma rauths_u8 auths :
  Forall auth_ok auths → small (rlp (RlpList (map rauth auths))) →
  Forall is_u8 (concat (map rlp (map rauth auths))) ∧ Forall is_u8 (rlp (RlpList (map rauth auths))).
Proof.
  intros Hok Hs. apply rlp_list_u8; [done|]. apply Forall_fmap. eapply Forall_impl; [exact Hok|].
  intros a Ha Hsa. by apply rauth_u8.
Qed.

Lemma payload_u8 chain t :
  tx_ok t → Forall (λ i, small (rlp i) → Forall is_u8 (rlp i)) (payload_items chain t).
Proof.
  intros (_ & _ & _ & _ & Hd & Hk). unfold payload_items, call_items, kind_ok in *.
  destruct (kind t); cbn [app]; each_item; try apply rint_u8; try apply rto_u8;
    intros Hs; try (by apply rlp_string_u8); try (apply raccess_list_u8; [apply Hk|done]). apply rauths_u8; [apply Hk|done].
Qed.

Lemma type_byte_u8 t : Forall is_u8 (type_byte t).
Proof. unfold type_byte. destruct (kind t); each_item; done. Qed.

Lemma signed_u8 chain t parity r s :
  tx_ok t → small (signed_encoding chain t parity r s) → Forall is_u8 (signed_encoding chain t parity r s).
Proof.
  intros Ht Hs. unfold signed_encoding in *. apply Forall_app. split; [apply type_byte_u8|]. unfold small in Hs.
  rewrite length_app in Hs. apply rlp_list_u8; [unfold small; lia|]. apply Forall_app. split; [by apply payload_u8|].
  each_item; apply rint_u8.
Qed.

(** ** Reading back *)

Section Roundtrip.
Context {R : Ruint} {RS : RuintSpec} {UZ : Usize} {KK : Keccak}.

Definition to_bytes (t : EthTx) : list Z := from_option (be_bytes 20) [] (to t).

(** The transaction the parser builds. *)
Definition parsed (chain : Z) (t : EthTx) (parity : bool) (r s : Z) : RlpEncodedTxInner :=
  let lsig := mkLegacySignatureData (v_of chain t parity) (minimal_be r) (minimal_be s) in
  let sig := mkEIP2718SignatureData parity (minimal_be r) (minimal_be s) in
  match kind t with
  | KLegacy protected gas_price =>
      (if protected then LegacyWithEIP155 else Legacy)
        (mkLegacyTXInner (nonce t) gas_price (gas_limit t) (to_bytes t) (value t) (data t)) lsig
  | K2930 gas_price al =>
      EIP2930 (mkEIP2930Tx chain (nonce t) gas_price (gas_limit t) (to_bytes t) (value t) (data t)
                 (view_access_list al)) sig
  | K1559 priority_fee max_fee al =>
      EIP1559 (mkEIP1559Tx chain (nonce t) priority_fee max_fee (gas_limit t) (to_bytes t) (value t)
                 (data t) (view_access_list al)) sig
  | K7702 priority_fee max_fee al auths =>
      EIP7702 (mkEIP7702Tx chain (nonce t) priority_fee max_fee (gas_limit t) (to_bytes t) (value t)
                 (data t) (view_access_list al) (view_auths auths)) sig
  end.

Lemma sig_fields_rlp (parity : bool) r s :
  is_u256 r → is_u256 s →
  sig_fields (mkEIP2718SignatureData parity (minimal_be r) (minimal_be s))
    (concat (map rlp [rint (Z.b2z parity); rint r; rint s])).
Proof.
  intros Hr Hs. split; [cbn; by rewrite !scalar_minimal|]. apply fields_rlp.
  repeat (apply Forall2_cons_2 || apply Forall2_nil_2); [apply bool_enc_rint|by apply (int_enc_rint 256)..].
Qed.

Lemma legacy_sig_fields_rlp v r s :
  is_u256 v → is_u256 r → is_u256 s →
  legacy_sig_fields (mkLegacySignatureData v (minimal_be r) (minimal_be s))
    (concat (map rlp [rint v; rint r; rint s])).
Proof.
  intros Hv Hr Hs. split; [cbn; by rewrite !scalar_minimal|]. apply fields_rlp.
  repeat (apply Forall2_cons_2 || apply Forall2_nil_2); by apply (int_enc_rint 256).
Qed.

(** The payload of each format, in its fields. *)
Lemma payload_fields chain t :
  is_u64 chain → tx_ok t → Forall (λ i, small (rlp i)) (payload_items chain t) →
  let p := concat (map rlp (payload_items chain t)) in
  ∀ parity r s,
  match parsed chain t parity r s with
  | Legacy x _ | LegacyWithEIP155 x _ => legacy_fields x p
  | EIP2930 x _ => eip2930_fields x p
  | EIP1559 x _ => eip1559_fields x p
  | EIP7702 x _ => eip7702_fields x p
  end.
Proof.
  intros Hc (Hn & Hg & Ht & Hv & Hd & Hk) Hs p parity r s. unfold p. clear p.
  unfold parsed, payload_items, kind_ok, call_items in *.
  destruct (kind t) as [[] gp|gp al|pf mf al|pf mf al auths]; cbn [app] in *; rewrite !Forall_cons in Hs;
    destruct_and!.
  5: split; [destruct auths; [naive_solver|done]|].
  all: apply fields_rlp; repeat (apply Forall2_cons_2 || apply Forall2_nil_2);
    try (by apply int_enc_rint); try apply to_enc_rto; try (by apply string_enc_rlp);
    try (by apply access_list_rlp).
  - destruct (to t) as [a|] eqn:Hto; [|by destruct H16 as [? ?]]. cbn [t4_to].
    unfold to_bytes. rewrite Hto. apply address_enc_rlp, length_be_bytes.
  - by apply auths_rlp.
Qed.

Lemma payload_split chain t sig :
  concat (map rlp (payload_items chain t ++ sig))
  = concat (map rlp (payload_items chain t)) ++ concat (map rlp sig).
Proof. by rewrite map_app, concat_app. Qed.

(** The signature is on exactly the unsigned encoding. *)
Lemma unsigned_hash chain t :
  Keccak256 (unsigned_encoding chain t)
  = signing_hash (type_byte t)
      (concat (map rlp (payload_items chain t))
       ++ match kind t with KLegacy true _ => eip155_suffix chain | _ => [] end).
Proof.
  unfold unsigned_encoding, signing_hash, replay_items, eip155_suffix. cbn [rlp]. rewrite payload_split.
  by destruct (kind t) as [[] gp|gp al|pf mf al|pf mf al auths]; cbn [map concat rlp rint]; rewrite ?app_nil_r.
Qed.

Lemma is_eip155_v chain (protected parity : bool) r s :
  0 ≤ chain →
  is_eip155 (mkLegacySignatureData (if protected then 35 + 2 * chain + Z.b2z parity else 27 + Z.b2z parity) r s)
  = protected.
Proof.
  intros Hc. unfold is_eip155. cbn [ls_v]. destruct protected; [|by destruct parity].
  destruct (Z.eqb_spec (35 + 2 * chain + Z.b2z parity) 27), (Z.eqb_spec (35 + 2 * chain + Z.b2z parity) 28);
    destruct parity; cbn [Z.b2z] in *; done || lia.
Qed.

(** The bytes after the type byte. *)
Definition all_items (chain : Z) (t : EthTx) (parity : bool) (r s : Z) : list RlpItem :=
  payload_items chain t ++ [rint (v_of chain t parity); rint r; rint s].

(** Any accepted encoding of the outer list will do. *)
Lemma any_header_accepted chain t (parity : bool) r s enc :
  is_u64 chain → tx_ok t → is_u256 r → is_u256 s →
  Forall (λ i, small (rlp i)) (payload_items chain t) →
  list_enc (concat (map rlp (all_items chain t parity r s))) enc →
  tx_accepts chain (type_byte t ++ enc)
    (parsed chain t parity r s, Keccak256 (unsigned_encoding chain t)).
Proof.
  intros Hc Ht Hr Hs Hsi Hl. unfold all_items in Hl. rewrite payload_split in Hl.
  pose proof (payload_fields chain t Hc Ht Hsi parity r s) as Hf. cbn zeta in Hf.
  rewrite unsigned_hash. unfold parsed, type_byte, v_of in *. unfold in_width in Hc.
  destruct (kind t) as [[] gp|gp al|pf mf al|pf mf al auths]; cbn [app tx_accepts] in *.
  - pose proof (is_eip155_v chain true parity (minimal_be r) (minimal_be s)) as He. cbn iota in He.
    split; [apply He; lia|]. eexists _, _. split_conj; [exact Hl|exact Hf| |].
    + apply legacy_sig_fields_rlp; try done. destruct parity; unfold in_width; cbn [Z.b2z]; lia.
    + rewrite He by lia. split; [destruct parity; cbn; lia|done].
  - pose proof (is_eip155_v chain false parity (minimal_be r) (minimal_be s)) as He. cbn iota in He.
    split; [apply He; lia|]. eexists _, _. split_conj; [exact Hl|exact Hf| |].
    + apply legacy_sig_fields_rlp; try done. by destruct parity.
    + rewrite He by lia. by rewrite app_nil_r.
  - split; [done|]. eexists. split; [done|]. eexists _, _.
    split_conj; [exact Hl|apply Hf..|by apply sig_fields_rlp|by rewrite app_nil_r].
  - split; [done|]. eexists. split; [done|]. eexists _, _.
    split_conj; [exact Hl|apply Hf..|by apply sig_fields_rlp|by rewrite app_nil_r].
  - split; [done|]. eexists. split; [done|]. eexists _, _.
    split; [exact Hl|]. split; [exact Hf|]. split; [by apply sig_fields_rlp|by rewrite app_nil_r].
Qed.
Lemma signed_small chain t parity r s :
  small (signed_encoding chain t parity r s) →
  small (rlp (RlpList (all_items chain t parity r s))) ∧ Forall (λ i, small (rlp i)) (payload_items chain t).
Proof.
  intros Hsm. assert (small (rlp (RlpList (all_items chain t parity r s)))) as H.
  { unfold small, signed_encoding in *. rewrite length_app in Hsm. unfold all_items. lia. }
  split; [done|]. apply small_items in H. by apply Forall_app in H as [H _].
Qed.

Lemma encoding_accepted chain t (parity : bool) r s :
  is_u64 chain → tx_ok t → is_u256 r → is_u256 s → small (signed_encoding chain t parity r s) →
  tx_accepts chain (signed_encoding chain t parity r s)
    (parsed chain t parity r s, Keccak256 (unsigned_encoding chain t)).
Proof.
  intros Hc Ht Hr Hs Hsm. apply signed_small in Hsm as [Hsm Hsi].
  apply any_header_accepted; try done. by apply list_enc_rlp.
Qed.

Lemma parse_accepted input chain from tx h :
  is_u64 chain → Forall is_u8 input → Z.of_nat (length input) + 11 < 2 ^ 32 →
  tx_accepts chain input (tx, h) →
  parse_from_buffer input chain from tt = (Val (mkRlpEncodedTransaction input tx chain h None from), tt).
Proof.
  intros Hc Hu Hl Ha. by apply (parse_from_buffer_spec input chain from Hc Hu Hl).
Qed.

(** What the lists of the parsed transaction yield when iterated. *)
Definition lists_match (t : EthTx) (x : RlpEncodedTransaction) : Prop :=
  let access al := ∃ l views s, access_list x = Some l
    ∧ for_each HomListIter_next (S (length al)) (HomList_iter l) = (Val views, s)
    ∧ Forall2 entry_matches views al in
  match kind t with
  | KLegacy _ _ => access_list x = None ∧ authorization_list x = None
  | K2930 _ al | K1559 _ _ al => access al ∧ authorization_list x = None
  | K7702 _ _ al auths =>
      access al ∧ ∃ l s, authorization_list x = Some l
        ∧ for_each HomListIter_next (S (length auths)) (HomList_iter l) = (Val auths, s)
  end.

Lemma access_list_iterates al :
  Forall access_ok al → small (rlp (raccess_list al)) →
  ∃ s, for_each HomListIter_next (S (length al)) (HomList_iter (view_access_list al))
       = (Val (map view_entry al), s)
  ∧ Forall2 entry_matches (map view_entry al) al.
Proof.
  intros Hok Hs. destruct (access_list_rlp al Hok Hs) as [Hi _]. destruct (raccess_list_u8 al Hok Hs) as [Hu _].
  destruct (hom_list_items access_entry_enc (map view_entry al) true (Rlp_new (hl_payload (view_access_list al)))) as [s Hf].
  { by apply cur_ok_rlp. }
  { exact Hi. }
  exists s. rewrite length_map in Hf. split; [exact Hf|]. apply small_items in Hs. clear -Hok Hs RS.
  induction Hok as [|e al He _ IH]; cbn; constructor; apply Forall_cons in Hs as [H1 H2]; [by apply view_entry_matches|auto].
Qed.

Lemma auths_iterate auths :
  Forall auth_ok auths → small (rlp (RlpList (map rauth auths))) →
  ∃ s, for_each HomListIter_next (S (length auths)) (HomList_iter (view_auths auths)) = (Val auths, s).
Proof.
  intros Hok Hs. destruct (auths_rlp auths Hok Hs) as [Hi _]. destruct (rauths_u8 auths Hok Hs) as [Hu _].
  apply (hom_list_items auth_entry_enc auths true (Rlp_new (hl_payload (view_auths auths)))); [|exact Hi].
  by apply cur_ok_rlp.
Qed.

Lemma parsed_lists chain t parity r s input h from :
  tx_ok t → Forall (λ i, small (rlp i)) (payload_items chain t) →
  lists_match t (mkRlpEncodedTransaction input (parsed chain t parity r s) chain h None from).
Proof.
  intros (_ & _ & _ & _ & _ & Hk) Hs. unfold lists_match, payload_items, kind_ok, parsed, access_list, authorization_list in *.
  cbn [inner]. destruct (kind t) as [[] gp|gp al|pf mf al|pf mf al auths]; cbn zeta; cbn [app call_items] in *; try done;
    rewrite !Forall_cons in Hs; destruct_and!;
    (destruct (access_list_iterates al) as (st & Hf & Hm); [done|done|]);
    (split; [by eexists _, _, st|]); try done.
  destruct (auths_iterate auths) as [st' Hf']; [done|done|]. by eexists _, st'.
Qed.

(** What the accessors return. *)
Definition fields_match (chain : Z) (t : EthTx) (parity : bool) (r s : Z) (x : RlpEncodedTransaction) : Prop :=
  rtx_nonce x = nonce t ∧ rtx_gas_limit x = gas_limit t ∧ destination x = to t ∧ rtx_value x = value t
  ∧ rtx_calldata x = data t
  ∧ chain_id x = (match kind t with KLegacy false _ => None | _ => Some chain end)
  ∧ rtx_max_fee_per_gas x
    = (match kind t with KLegacy _ p | K2930 p _ => p | K1559 _ m _ | K7702 _ m _ _ => m end)
  ∧ rtx_max_priority_fee_per_gas x
    = (match kind t with KLegacy _ _ | K2930 _ _ => None | K1559 p _ _ | K7702 p _ _ _ => Some p end)
  ∧ rtx_sig_parity_r_s x = (parity, minimal_be r, minimal_be s)
  ∧ rtx_required_balance x = checked 256 (rtx_value x + rtx_max_fee_per_gas x * rtx_gas_limit x).

Lemma required_balance_exact x :
  is_u256 (rtx_value x) → is_u256 (rtx_max_fee_per_gas x) → is_u64 (rtx_gas_limit x) →
  rtx_required_balance x = checked 256 (rtx_value x + rtx_max_fee_per_gas x * rtx_gas_limit x).
Proof.
  intros Hv Hf Hg. unfold rtx_required_balance. assert (is_u256 (rtx_gas_limit x)) as Hg' by (unfold in_width in *; lia).
  rewrite u_checked_mul_spec by done. unfold checked_mul.
  destruct (checked 256 (rtx_max_fee_per_gas x * rtx_gas_limit x)) as [f|] eqn:E; cbn.
  - apply checked_Some in E as [-> Hw]. by rewrite u_checked_add_spec by done.
  - apply checked_None in E. symmetry. apply checked_None. unfold in_width in *. nia.
Qed.

Lemma legacy_parity (parity : bool) : (u_sub (27 + Z.b2z parity) 27 =? 1) = parity.
Proof. rewrite u_sub_spec by (by destruct parity). by destruct parity. Qed.

Lemma eip155_parity chain (parity : bool) :
  is_u64 chain →
  (u_sub (u_sub (35 + 2 * chain + Z.b2z parity) 35) (u_mul chain 2) =? 1) = parity.
Proof.
  intros Hc. unfold in_width in Hc. assert (0 ≤ Z.b2z parity ≤ 1) by (destruct parity; cbn; lia).
  rewrite (u_mul_spec chain 2) by (unfold in_width; lia). rewrite (Z.mod_small (chain * 2)) by lia.
  rewrite (u_sub_spec (35 + 2 * chain + Z.b2z parity) 35) by (unfold in_width; lia).
  rewrite (Z.mod_small (35 + 2 * chain + Z.b2z parity - 35)) by lia.
  rewrite u_sub_spec by (unfold in_width; lia). rewrite Z.mod_small by lia.
  replace (35 + 2 * chain + Z.b2z parity - 35 - chain * 2) with (Z.b2z parity) by lia. by destruct parity.
Qed.

Lemma destination_to a :
  from_option (in_width 160) True a →
  (if bool_decide (length (from_option (be_bytes 20) [] a) = 0)%nat then None
   else b160_try_from_be_slice (from_option (be_bytes 20) [] a)) = a.
Proof.
  destruct a as [a|]; cbn [from_option]; [|done]. intros Ha. rewrite length_be_bytes, bool_decide_false by done.
  rewrite b160_try_from_be_slice_spec; [by rewrite of_be_bytes_20| |apply length_be_bytes].
  unfold be_bytes. apply Forall_reverse, le_bytes_u8.
Qed.

Lemma parsed_fields chain t parity r s input h from :
  is_u64 chain → tx_ok t →
  fields_match chain t parity r s (mkRlpEncodedTransaction input (parsed chain t parity r s) chain h None from).
Proof.
  intros Hc (Hn & Hg & Ht & Hv & Hd & Hk). unfold fields_match.
  assert (∀ x, rtx_value x = value t → rtx_gas_limit x = gas_limit t → is_u256 (rtx_max_fee_per_gas x) →
    rtx_required_balance x = checked 256 (rtx_value x + rtx_max_fee_per_gas x * rtx_gas_limit x)) as Hreq.
  { intros x Hxv Hxg Hxf. apply required_balance_exact; [by rewrite Hxv|done|by rewrite Hxg]. }
  pose proof (destination_to (to t) Ht) as Hto.
  unfold parsed, kind_ok, v_of in *. destruct (kind t) as [[] gp|gp al|pf mf al|pf mf al auths];
    (split_conj; [done|done| |done|done|done|done|done| |apply Hreq; [done|done|cbn; tauto]]);
    try done; unfold destination, rtx_sig_parity_r_s; cbn [inner ls_v ls_r ls_s chain_id_ lt_to t1_to t2_to t4_to];
    unfold to_bytes; try exact Hto.
  - by rewrite eip155_parity.
  - by rewrite legacy_parity.
  - destruct (to t) as [a|]; [|by destruct Hk as (_ & _ & _ & _ & _ & [? ?])]. cbn [from_option] in *. by rewrite of_be_bytes_20.
Qed.

(** C33: a signed transaction is read back.  For every well-formed transaction of
    the four kinds and every signature, parsing the encoding the EIPs define
    succeeds; the hash to be verified is that of the unsigned encoding; every
    accessor returns the field that was encoded, the recovered parity included;
    iterating over the access list and the authorization list yields their
    entries and never panics. *)
Theorem tx_roundtrip chain t (parity : bool) r s from :
  is_u64 chain → tx_ok t → is_u256 r → is_u256 s →
  Z.of_nat (length (signed_encoding chain t parity r s)) + 11 < 2 ^ 32 →
  ∃ x, parse_from_buffer (signed_encoding chain t parity r s) chain from tt = (Val x, tt)
    ∧ hash_for_signature_verification x = Keccak256 (unsigned_encoding chain t)
    ∧ fields_match chain t parity r s x
    ∧ lists_match t x.
Proof.
  intros Hc Ht Hr Hs Hl. assert (small (signed_encoding chain t parity r s)) as Hsm by (unfold small; lia).
  eexists. split; [apply parse_accepted; [done|by apply signed_u8|done|by apply encoding_accepted]|].
  split; [done|]. split; [by apply parsed_fields|]. apply parsed_lists; [done|]. by apply signed_small in Hsm as [_ Hsi].
Qed.

(** The same transaction with a zero byte before the length of its list. *)
Definition padded_encoding (chain : Z) (t : EthTx) (parity : bool) (r s : Z) : list Z :=
  let payload := concat (map rlp (all_items chain t parity r s)) in
  let len := minimal_be (Z.of_nat (length payload)) in
  type_byte t ++ (0xc0 + 55 + Z.of_nat (length (0 :: len))) :: (0 :: len) ++ payload.

Lemma padded_list_enc payload :
  (56 ≤ length payload)%nat → Z.of_nat (length payload) < 2 ^ 24 →
  let lb := 0 :: minimal_be (Z.of_nat (length payload)) in
  list_enc payload ((0xc0 + 55 + Z.of_nat (length lb)) :: lb ++ payload) ∧ (length lb ≤ 4)%nat.
Proof.
  intros H1 H2 lb. assert (length (minimal_be (Z.of_nat (length payload))) ≤ 3)%nat as Hlen by (apply width_of_le; lia).
  assert (length lb ≤ 4)%nat as Hlb by (unfold lb; cbn; lia). split; [|done].
  eexists (_ :: lb). split; [|done]. right. split; [done|]. exists lb. split_conj; [unfold lb; cbn; lia|done| |done].
  unfold lb. rewrite of_be_bytes_cons, of_be_bytes_minimal; lia.
Qed.

(** Encodings are not unique.  A signed transaction of 56 bytes to 16 MiB is
    also accepted with a zero byte in front of the length of its list: other
    bytes, hence another transaction hash, for the same fields, the same
    signature and the same hash to be verified. *)
Theorem tx_encoding_malleable chain t (parity : bool) r s from :
  is_u64 chain → tx_ok t → is_u256 r → is_u256 s →
  let payload := concat (map rlp (all_items chain t parity r s)) in
  (56 ≤ length payload)%nat → Z.of_nat (length payload) < 2 ^ 24 →
  ∃ x x', parse_from_buffer (signed_encoding chain t parity r s) chain from tt = (Val x, tt)
    ∧ parse_from_buffer (padded_encoding chain t parity r s) chain from tt = (Val x', tt)
    ∧ buffer x ≠ buffer x' ∧ inner x = inner x'
    ∧ hash_for_signature_verification x = hash_for_signature_verification x'.
Proof.
  intros Hc Ht Hr Hs payload H1 H2. destruct (padded_list_enc payload H1 H2) as [Hpad Hlb].
  assert (length (type_byte t) ≤ 1)%nat as Hty by (unfold type_byte; destruct (kind t); cbn; lia).
  assert (∃ h, rlp (RlpList (all_items chain t parity r s)) = h ++ payload ∧ length h = length (0 :: minimal_be (Z.of_nat (length payload))))
    as (h & Hrlp & Hh).
  { exists (rlp_header 0xc0 (length payload)). split; [reflexivity|]. unfold rlp_header. by destruct (Nat.ltb_spec (length payload) 56); [lia|]. }
  assert (length (signed_encoding chain t parity r s) ≤ 5 + length payload)%nat as Hsl.
  { unfold signed_encoding. change (payload_items chain t ++ _) with (all_items chain t parity r s).
    rewrite Hrlp, !length_app. lia. }
  assert (small (signed_encoding chain t parity r s)) as Hsm by (unfold small; lia).
  pose proof (signed_u8 chain t parity r s Ht Hsm) as Hu. destruct (signed_small _ _ _ _ _ Hsm) as [_ Hsi].
  assert (length (padded_encoding chain t parity r s) = S (length (signed_encoding chain t parity r s))) as Hpl.
  { unfold padded_encoding, signed_encoding. change (payload_items chain t ++ _) with (all_items chain t parity r s).
    rewrite Hrlp. fold payload. cbn zeta. rewrite !length_app. cbn [length]. rewrite length_app. cbn [length] in *. lia. }
  eexists _, _. split; [apply parse_accepted; [done|done|lia|by apply encoding_accepted]|].
  split; [apply parse_accepted; [done| |lia|apply (any_header_accepted chain t parity r s); [done..|exact Hpad]]|].
  { unfold padded_encoding. fold payload. cbn zeta. apply Forall_app. split; [apply type_byte_u8|].
    constructor; [unfold in_width; lia|]. apply Forall_app. split; [constructor; [done|apply minimal_be_u8]|].
    unfold signed_encoding in Hu. apply Forall_app in Hu as [_ Hu].
    change (payload_items chain t ++ _) with (all_items chain t parity r s) in Hu. rewrite Hrlp in Hu.
    by apply Forall_app in Hu as [_ Hu]. }
  split; [|done]. cbn [buffer]. intros E. rewrite E in Hpl. lia.
Qed.
End Roundtrip.

(** ** Witnesses *)

Definition ex_keccak : Keccak := λ l, le_bytes 32 (of_le_bytes l + 7).

Definition ex_tx : EthTx :=
  mkEthTx (K7702 1 2 [(0xab, [repeat 3 32]); (0xcd, [])]
             [mkAuthorizationEntry 1 (repeat 9 20) 4 1 [5] []])
    7 21000 (Some 0x1234) (2 ^ 70) [1; 2; 3].

Definition ex_signed : list Z := signed_encoding 11 ex_tx true (2 ^ 200) 77.

Lemma ex_tx_ok : tx_ok ex_tx.
Proof.
  unfold tx_ok, kind_ok, ex_tx, access_ok, auth_ok. cbn [kind nonce gas_limit to value data from_option].
  split_conj; try done; repeat constructor; try done; by apply bool_decide_unpack.
Defined.

(** Whether a parsed transaction or an error came out, decided by evaluation. *)
Definition outcome_tag {E A S} (o : outcome E A * S) : Z := match o.1 with Val _ => 0 | Err _ => 1 | Fault => 2 end.

Lemma outcome_tag_val {E A S} (o : outcome E A * S) : outcome_tag o = 0 → ∃ a s, o = (Val a, s).
Proof. destruct o as [[a|e|] s]; [by eauto|discriminate..]. Qed.

Lemma outcome_tag_err {E A S} (o : outcome E A * S) : outcome_tag o = 1 → ∃ e s, o = (Err e, s).
Proof. destruct o as [[a|e|] s]; [discriminate|by eauto|discriminate]. Qed.

Lemma ex_signed_ok : Forall is_u8 ex_signed ∧ Z.of_nat (length ex_signed) + 11 < 2 ^ 32.
Proof.
  assert (Z.of_nat (length ex_signed) + 11 < 2 ^ 32) as Hl by (vm_compute; reflexivity).
  split; [|exact Hl]. apply signed_u8; [apply ex_tx_ok|]. unfold small. fold ex_signed. lia.
Qed.

Lemma tx_parse_exact_witness :
  (∃ t u, parse_from_buffer (R:=ruint_ref) (UZ:=usize32) (KK:=ex_keccak) ex_signed 11 5 tt = (Val t, u)
        ∧ tx_accepts (KK:=ex_keccak) 11 ex_signed (inner t, sig_hash t))
  ∧ ∀ r, ¬ tx_accepts (KK:=ex_keccak) 12 ex_signed r.
Proof.
  destruct ex_signed_ok as [Hu Hl]. split.
  - pose proof (tx_parse_exact (RS:=ruint_ref_spec) (UZ:=usize32) (KK:=ex_keccak) ex_signed 11 5 ltac:(split; lia) Hu Hl) as H.
    destruct (outcome_tag_val (parse_from_buffer (R:=ruint_ref) (UZ:=usize32) (KK:=ex_keccak) ex_signed 11 5 tt)) as (t & u & E).
    { vm_compute. reflexivity. }
    rewrite E in H. exists t, u. exact (conj E (proj2 H)).
  - pose proof (tx_parse_exact (RS:=ruint_ref_spec) (UZ:=usize32) (KK:=ex_keccak) ex_signed 12 5 ltac:(split; lia) Hu Hl) as H.
    destruct (outcome_tag_err (parse_from_buffer (R:=ruint_ref) (UZ:=usize32) (KK:=ex_keccak) ex_signed 12 5 tt)) as (e & u & E).
    { vm_compute. reflexivity. }
    rewrite E in H. exact (proj2 H).
Defined.

Lemma tx_roundtrip_witness :
  ∃ x, parse_from_buffer (R:=ruint_ref) (UZ:=usize64) (KK:=ex_keccak) ex_signed 11 5 tt = (Val x, tt)
    ∧ destination (R:=ruint_ref) x = Some 0x1234.
Proof.
  destruct ex_signed_ok as [_ Hl].
  destruct (tx_roundtrip (RS:=ruint_ref_spec) (UZ:=usize64) (KK:=ex_keccak) 11 ex_tx true (2 ^ 200) 77 5
    ltac:(split; lia) ex_tx_ok ltac:(split; lia) ltac:(split; lia) Hl) as (x & Hx & _ & (_ & _ & Hd & _) & _).
  exists x. exact (conj Hx Hd).
Defined.

Lemma tx_encoding_malleable_witness :
  ∃ x x', parse_from_buffer (R:=ruint_ref) (UZ:=usize64) (KK:=ex_keccak) ex_signed 11 5 tt = (Val x, tt)
    ∧ parse_from_buffer (R:=ruint_ref) (UZ:=usize64) (KK:=ex_keccak) (padded_encoding 11 ex_tx true (2 ^ 200) 77) 11 5 tt
      = (Val x', tt) ∧ buffer x ≠ buffer x' ∧ inner x = inner x'.
Proof.
  assert ((56 <=? length (concat (map rlp (all_items 11 ex_tx true (2 ^ 200) 77))))%nat = true) as H1%Nat.leb_le
    by (vm_compute; reflexivity).
  assert ((Z.of_nat (length (concat (map rlp (all_items 11 ex_tx true (2 ^ 200) 77)))) <? 2 ^ 24) = true) as H2%Z.ltb_lt
    by (vm_compute; reflexivity).
  destruct (tx_encoding_malleable (RS:=ruint_ref_spec) (UZ:=usize64) (KK:=ex_keccak) 11 ex_tx true (2 ^ 200) 77 5
    ltac:(split; lia) ex_tx_ok ltac:(split; lia) ltac:(split; lia) H1 H2) as (x & x' & E1 & E2 & E3 & E4 & _).
  exists x, x'. exact (conj E1 (conj E2 (conj E3 E4))).
Defined.
