(* ===== verification/EvmStack.v ===== *)
(** * The EVM stack

    Models [evm_interpreter/src/evm_stack.rs]: a fixed buffer of possibly
    uninitialised words and a length, read and written without bounds checks
    ([Module Buffer]).  An access outside the buffer or to an uninitialised word
    is a [Fault].  The operations are shown to implement a plain list of words
    ([stk_*]), which is what the rest of the development uses. *)

From S2P Require Import Prelude Resources SystemInterface.

Definition STACK_SIZE : nat := 1024.

Module Buffer.
Record EvmStack : Type := mkStack { buffer : list (option Z); len : nat }.
Abbreviation SM := (M EvmStack ExitCode).

Definition new_in : EvmStack := mkStack (repeat None STACK_SIZE) 0.

(** [get_unchecked(i).assume_init_ref()] and a write through a slot. *)
Definition read_slot (i : nat) : SM Z := λ s,
  match buffer s !! i with
  | Some (Some v) => (Val v, s)
  | _ => (Fault, s)
  end.
Definition write_slot (i : nat) (v : Z) : SM unit := λ s,
  if decide (i < length (buffer s))%nat
  then (Val tt, mkStack (<[i := Some v]> (buffer s)) (len s))
  else (Fault, s).
Definition get_len : SM nat := gets len.
Definition set_len (n : nat) : SM unit := modify (λ s, mkStack (buffer s) n).

Definition swap (n : nat) : SM unit :=
  len ← get_len;
  if decide (len = 0)%nat then throw (EvmErr StackUnderflow)
  else
    let src_offset := (len - 1)%nat in
    if decide (src_offset < n)%nat then throw (EvmErr StackUnderflow)
    else
      let dst_offset := (src_offset - n)%nat in
      a ← read_slot src_offset;
      b ← read_slot dst_offset;
      write_slot src_offset b ;;
      write_slot dst_offset a.

Definition dup (n : nat) : SM unit :=
  len ← get_len;
  if decide (len = STACK_SIZE) then throw (EvmErr StackOverflow)
  else if decide (len < n)%nat then throw (EvmErr StackUnderflow)
  else
    let offset := (len - n)%nat in
    src ← read_slot offset;
    write_slot len src ;;
    set_len (len + 1).

Definition pop_and_ignore : SM unit :=
  len ← get_len;
  if decide (len = 0)%nat then throw (EvmErr StackUnderflow)
  else set_len (len - 1).

Definition pop_1 : SM Z :=
  len ← get_len;
  if decide (len < 1)%nat then throw (EvmErr StackUnderflow)
  else
    let offset := (len - 1)%nat in
    p0 ← read_slot offset;
    set_len offset ;;
    mret p0.

Definition pop_2 : SM (Z * Z) :=
  len ← get_len;
  if decide (len < 2)%nat then throw (EvmErr StackUnderflow)
  else
    let offset := (len - 1)%nat in
    p0 ← read_slot offset;
    let offset := (offset - 1)%nat in
    p1 ← read_slot offset;
    set_len offset ;;
    mret (p0, p1).

Definition pop_3 : SM (Z * Z * Z) :=
  len ← get_len;
  if decide (len < 3)%nat then throw (EvmErr StackUnderflow)
  else
    let offset := (len - 1)%nat in
    p0 ← read_slot offset;
    let offset := (offset - 1)%nat in
    p1 ← read_slot offset;
    let offset := (offset - 1)%nat in
    p2 ← read_slot offset;
    set_len offset ;;
    mret (p0, p1, p2).

Definition pop_4 : SM (Z * Z * Z * Z) :=
  len ← get_len;
  if decide (len < 4)%nat then throw (EvmErr StackUnderflow)
  else
    let offset := (len - 1)%nat in
    p0 ← read_slot offset;
    let offset := (offset - 1)%nat in
    p1 ← read_slot offset;
    let offset := (offset - 1)%nat in
    p2 ← read_slot offset;
    let offset := (offset - 1)%nat in
    p3 ← read_slot offset;
    set_len offset ;;
    mret (p0, p1, p2, p3).

(** The [_mut] accessors return references; here the value they refer to, and a
    later assignment through them is [write_top] or [write_popped]. *)
Definition top_mut : SM Z :=
  len ← get_len;
  if decide (len < 1)%nat then throw (EvmErr StackUnderflow)
  else read_slot (len - 1).

Definition pop_1_and_peek_mut : SM (Z * Z) :=
  len ← get_len;
  if decide (len < 2)%nat then throw (EvmErr StackUnderflow)
  else
    let offset := (len - 1)%nat in
    p0 ← read_slot offset;
    set_len offset ;;
    let offset := (offset - 1)%nat in
    peeked ← read_slot offset;
    mret (p0, peeked).

Definition pop_2_and_peek_mut : SM (Z * Z * Z) :=
  len ← get_len;
  if decide (len < 3)%nat then throw (EvmErr StackUnderflow)
  else
    let offset := (len - 1)%nat in
    p0 ← read_slot offset;
    let offset := (offset - 1)%nat in
    p1 ← read_slot offset;
    set_len offset ;;
    let offset := (offset - 1)%nat in
    peeked ← read_slot offset;
    mret (p0, p1, peeked).

Definition pop_1_mut_and_peek : SM (Z * Z) := pop_1_and_peek_mut.

Definition write_top (v : Z) : SM unit :=
  len ← get_len;
  if decide (len = 0)%nat then fault else write_slot (len - 1) v.
Definition write_popped (v : Z) : SM unit :=
  len ← get_len;
  write_slot len v.

Definition push (value : Z) : SM unit :=
  len ← get_len;
  if decide (len = STACK_SIZE) then throw (EvmErr StackOverflow)
  else write_slot len value ;; set_len (len + 1).

Definition push_zero : SM unit := push 0.
Definition push_one : SM unit := push 1.

(** [index + 1] is computed at the width of [usize]: the last index wraps to no
    words needed at all. *)
Definition peek_n {US : Usize} (index : nat) : SM Z :=
  len ← get_len;
  let needed := Z.to_nat (wrap usize_bits (Z.of_nat index + 1)) in
  if decide (len < needed)%nat then throw (EvmErr StackUnderflow)
  else read_slot (len - needed).
End Buffer.

(** ** The stack as a list, top first *)
Abbreviation StackM := (M (list Z) ExitCode).

Definition stk_swap (n : nat) : StackM unit := λ l,
  match l !! 0%nat, l !! n with
  | Some a, Some b => (Val tt, <[n := a]> (<[0%nat := b]> l))
  | _, _ => (Err (EvmErr StackUnderflow), l)
  end.

Definition stk_dup (n : nat) : StackM unit := λ l,
  if decide (length l = STACK_SIZE) then (Err (EvmErr StackOverflow), l)
  else if decide (length l < n)%nat then (Err (EvmErr StackUnderflow), l)
  else match l !! (n - 1)%nat with Some v => (Val tt, v :: l) | None => (Fault, l) end.

Definition stk_pop : StackM unit := λ l,
  match l with _ :: l' => (Val tt, l') | [] => (Err (EvmErr StackUnderflow), l) end.
Definition stk_pop_1 : StackM Z := λ l,
  match l with a :: l' => (Val a, l') | _ => (Err (EvmErr StackUnderflow), l) end.
Definition stk_pop_2 : StackM (Z * Z) := λ l,
  match l with a :: b :: l' => (Val (a, b), l') | _ => (Err (EvmErr StackUnderflow), l) end.
Definition stk_pop_3 : StackM (Z * Z * Z) := λ l,
  match l with
  | a :: b :: c :: l' => (Val (a, b, c), l')
  | _ => (Err (EvmErr StackUnderflow), l)
  end.
Definition stk_pop_4 : StackM (Z * Z * Z * Z) := λ l,
  match l with
  | a :: b :: c :: d :: l' => (Val (a, b, c, d), l')
  | _ => (Err (EvmErr StackUnderflow), l)
  end.
Definition stk_top : StackM Z := λ l,
  match l with a :: _ => (Val a, l) | _ => (Err (EvmErr StackUnderflow), l) end.
Definition stk_pop_1_peek : StackM (Z * Z) := λ l,
  match l with a :: b :: l' => (Val (a, b), b :: l') | _ => (Err (EvmErr StackUnderflow), l) end.
Definition stk_pop_2_peek : StackM (Z * Z * Z) := λ l,
  match l with
  | a :: b :: c :: l' => (Val (a, b, c), c :: l')
  | _ => (Err (EvmErr StackUnderflow), l)
  end.
Definition stk_write_top (v : Z) : StackM unit := λ l,
  match l with _ :: l' => (Val tt, v :: l') | [] => (Fault, l) end.

(** Writing to a popped word leaves the stack as it is. *)
Definition stk_write_popped (v : Z) : StackM unit := λ l,
  if decide (length l < STACK_SIZE)%nat then (Val tt, l) else (Fault, l).
Definition stk_push (v : Z) : StackM unit := λ l,
  if decide (length l = STACK_SIZE) then (Err (EvmErr StackOverflow), l) else (Val tt, v :: l).
Definition stk_peek_n (index : nat) : StackM Z := λ l,
  match l !! index with
  | Some v => (Val v, l)
  | None => (Err (EvmErr StackUnderflow), l)
  end.

(** ** The buffer implements the list *)
Section Refinement.
Context {US : Usize}.
Import Buffer.

(** The live words of the buffer are the list, its top at the end. *)
Record rep (s : EvmStack) (l : list Z) : Prop := {
  rep_buffer : length (buffer s) = STACK_SIZE;
  rep_len : len s = length l;
  rep_le : (length l ≤ STACK_SIZE)%nat;
  rep_word i v : l !! i = Some v → buffer s !! (length l - 1 - i)%nat = Some (Some v)
}.

Definition sim {A} (mc : M EvmStack ExitCode A) (ma : M (list Z) ExitCode A) : Prop :=
  ∀ s l, rep s l → (mc s).1 = (ma l).1 ∧ rep (mc s).2 (ma l).2.

Lemma rep_new : rep new_in [].
Proof. split; [apply repeat_length|done|cbn; unfold STACK_SIZE; lia|done]. Qed.

Lemma read_ok s l i v j :
  rep s l → l !! i = Some v → j = (length l - 1 - i)%nat → read_slot j s = (Val v, s).
Proof. intros Hr Hl ->. unfold read_slot. by rewrite (rep_word _ _ Hr _ _ Hl). Qed.

Lemma rep_shrink s a l n : rep s (a :: l) → n = length l → rep (mkStack (buffer s) n) l.
Proof.
  intros [Hb Hl Hle Hw] ->. cbn in *. split; cbn; [done..|lia|].
  intros i v Hi. specialize (Hw (S i) v Hi). by replace (length l - 1 - i)%nat
    with (length l - 0 - S i)%nat by lia.
Qed.

Lemma rep_write s l i v w :
  rep s l → l !! i = Some w →
  rep (mkStack (<[(length l - 1 - i)%nat := Some v]> (buffer s)) (len s)) (<[i := v]> l).
Proof.
  intros [Hb Hl Hle Hw] Hi. apply lookup_lt_Some in Hi as Hlt.
  split; cbn; rewrite ?length_insert; [done..|]. intros j x Hj.
  destruct (decide (i = j)) as [<-|Hne].
  - rewrite list_lookup_insert_eq in Hj by done. injection Hj as ->.
    apply list_lookup_insert_eq. lia.
  - rewrite list_lookup_insert_ne in Hj by done. apply lookup_lt_Some in Hj as Hltj.
    rewrite list_lookup_insert_ne by lia. by apply Hw.
Qed.

Lemma rep_grow s l v :
  rep s l → (length l < STACK_SIZE)%nat →
  rep (mkStack (<[length l := Some v]> (buffer s)) (length l + 1)) (v :: l).
Proof.
  intros [Hb Hl Hle Hw] Hlt. split; cbn; rewrite ?length_insert; [done|lia..|].
  intros [|i] x Hi; cbn in Hi.
  - injection Hi as ->. rewrite Nat.sub_0_r, Nat.sub_0_r. apply list_lookup_insert_eq. lia.
  - apply lookup_lt_Some in Hi as Hlti. rewrite list_lookup_insert_ne by lia.
    rewrite <- (Hw i x Hi). f_equal. lia.
Qed.

Lemma write_slot_run s i v :
  (i < length (buffer s))%nat →
  write_slot i v s = (Val tt, mkStack (<[i := Some v]> (buffer s)) (len s)).
Proof. intros Hi. unfold write_slot. by rewrite decide_True. Qed.

(** Step through a stack operation: a read finds the word the list has there. *)
Ltac stack_read Hr j :=
  first [eapply (read_ok _ _ 0 _ j Hr); [reflexivity|cbn; lia]
        |eapply (read_ok _ _ 1 _ j Hr); [reflexivity|cbn; lia]
        |eapply (read_ok _ _ 2 _ j Hr); [reflexivity|cbn; lia]
        |eapply (read_ok _ _ 3 _ j Hr); [reflexivity|cbn; lia]].
Ltac stack_reads Hr :=
  cbv zeta;
  repeat match goal with
    | |- context [(read_slot ?j ≫= ?k) ?s] =>
        erewrite (bind_val (read_slot j) k s) by stack_read Hr j
    | |- context [(set_len ?n ≫= ?k) ?s] =>
        rewrite (bind_val (set_len n) k s tt (mkStack (buffer s) n) eq_refl)
    end.

(** The guard of an operation that needs [n] words, and the operation's body. *)
Ltac stack_short := rewrite decide_True by (cbn; lia); done.
Ltac stack_long Hr := rewrite decide_False by (cbn; lia); stack_reads Hr; split; [done|].

Lemma sim_get_len {A} (k : nat → M EvmStack ExitCode A) ma :
  (∀ s l, rep s l → (k (length l) s).1 = (ma l).1 ∧ rep (k (length l) s).2 (ma l).2) →
  sim (get_len ≫= k) ma.
Proof.
  intros Hk s l Hr. rewrite (bind_val get_len k s (len s) s eq_refl), (rep_len _ _ Hr).
  by apply Hk.
Qed.

Lemma sim_pop : sim pop_and_ignore stk_pop.
Proof.
  apply sim_get_len. intros s [|a l] Hr; [done|]. stack_long Hr.
  eapply rep_shrink; [exact Hr|cbn; lia].
Qed.

Lemma sim_pop_1 : sim pop_1 stk_pop_1.
Proof.
  apply sim_get_len. intros s [|a l] Hr; [stack_short|]. stack_long Hr.
  eapply rep_shrink; [exact Hr|cbn; lia].
Qed.

Lemma rep_shrink_by s pre l n :
  rep s (pre ++ l) → n = length l → rep (mkStack (buffer s) n) l.
Proof.
  revert s. induction pre as [|a pre IH]; intros s Hr ->.
  - destruct s. pose proof (rep_len _ _ Hr) as Hl. cbn in *. by subst.
  - apply (IH (mkStack (buffer s) (length (pre ++ l)))); [|done].
    by eapply rep_shrink; [exact Hr|].
Qed.

Lemma sim_pop_2 : sim pop_2 stk_pop_2.
Proof.
  apply sim_get_len. intros s [|a [|b l]] Hr; [stack_short..|]. stack_long Hr.
  eapply (rep_shrink_by s [a; b]); [exact Hr|cbn; lia].
Qed.

Lemma sim_pop_3 : sim pop_3 stk_pop_3.
Proof.
  apply sim_get_len. intros s [|a [|b [|c l]]] Hr; [stack_short..|]. stack_long Hr.
  eapply (rep_shrink_by s [a; b; c]); [exact Hr|cbn; lia].
Qed.

Lemma sim_pop_4 : sim pop_4 stk_pop_4.
Proof.
  apply sim_get_len. intros s [|a [|b [|c [|d l]]]] Hr; [stack_short..|]. stack_long Hr.
  eapply (rep_shrink_by s [a; b; c; d]); [exact Hr|cbn; lia].
Qed.

Lemma sim_top : sim top_mut stk_top.
Proof.
  apply sim_get_len. intros s [|a l] Hr; [stack_short|].
  rewrite decide_False by (cbn; lia).
  rewrite (read_ok s (a :: l) 0 a) by (done || cbn; lia). done.
Qed.

Lemma sim_pop_1_peek : sim pop_1_and_peek_mut stk_pop_1_peek.
Proof.
  apply sim_get_len. intros s [|a [|b l]] Hr; [stack_short..|].
  rewrite decide_False by (cbn; lia). stack_reads Hr.
  assert (rep (mkStack (buffer s) (S (length l))) (b :: l)) as Hr'.
  { by eapply rep_shrink. }
  cbn [length Nat.sub] in *. rewrite ?Nat.sub_0_r in *. stack_reads Hr'. by split.
Qed.

Lemma sim_pop_2_peek : sim pop_2_and_peek_mut stk_pop_2_peek.
Proof.
  apply sim_get_len. intros s [|a [|b [|c l]]] Hr; [stack_short..|].
  rewrite decide_False by (cbn; lia). stack_reads Hr.
  assert (rep (mkStack (buffer s) (S (length l))) (c :: l)) as Hr'.
  { by eapply (rep_shrink_by s [a; b]). }
  cbn [length Nat.sub] in *. rewrite ?Nat.sub_0_r in *. stack_reads Hr'. by split.
Qed.

Lemma sim_write_top v : sim (write_top v) (stk_write_top v).
Proof.
  apply sim_get_len. intros s [|a l] Hr; [done|]. rewrite decide_False by (cbn; lia).
  pose proof (rep_write s (a :: l) 0 v a Hr eq_refl) as Hr'. destruct Hr as [Hb Hl Hle _].
  rewrite write_slot_run by (cbn [length] in *; lia). split; [done|]. cbn [snd length] in *.
  by replace (S (length l) - 1)%nat with (S (length l) - 1 - 0)%nat by lia.
Qed.

Lemma sim_write_popped v : sim (write_popped v) (stk_write_popped v).
Proof.
  apply sim_get_len. intros s l Hr. destruct Hr as [Hb Hl Hle Hw]. unfold stk_write_popped.
  destruct (decide (length l < STACK_SIZE)%nat) as [Hlt|Hge].
  - rewrite write_slot_run by lia. split; [done|]. split; cbn; rewrite ?length_insert; [done..|].
    intros i w Hi. apply lookup_lt_Some in Hi as Hlti. rewrite list_lookup_insert_ne by lia.
    by apply Hw.
  - unfold write_slot. rewrite decide_False by lia. by split.
Qed.

Lemma sim_push v : sim (push v) (stk_push v).
Proof.
  apply sim_get_len. intros s l Hr. unfold stk_push.
  destruct (decide (length l = STACK_SIZE)) as [Heq|Hne]; [done|].
  pose proof (rep_le _ _ Hr) as Hle. pose proof (rep_grow s l v Hr ltac:(lia)) as Hr'.
  pose proof (rep_buffer _ _ Hr) as Hb.
  rewrite (bind_val _ _ _ _ _ (write_slot_run s (length l) v ltac:(lia))). by split.
Qed.

Lemma sim_peek_n i :
  Z.of_nat i + 1 < 2 ^ usize_bits → sim (peek_n i) (stk_peek_n i).
Proof.
  intros Hi1. apply sim_get_len. intros s l Hr. unfold stk_peek_n. cbv zeta.
  rewrite wrap_small by (unfold in_width; lia).
  replace (Z.to_nat (Z.of_nat i + 1)) with (i + 1)%nat by lia.
  destruct (l !! i) as [v|] eqn:Hi.
  - apply lookup_lt_Some in Hi as Hlt. rewrite decide_False by lia.
    rewrite (read_ok s l i v) by (done || lia). by split.
  - apply lookup_ge_None in Hi. rewrite decide_True by lia. by split.
Qed.

Lemma sim_dup n : sim (dup (S n)) (stk_dup (S n)).
Proof.
  apply sim_get_len. intros s l Hr. unfold stk_dup.
  destruct (decide (length l = STACK_SIZE)) as [Heq|Hne]; [done|].
  destruct (decide (length l < S n)%nat) as [Hlt|Hge]; [done|].
  pose proof (rep_le _ _ Hr) as Hle. pose proof (rep_buffer _ _ Hr) as Hb.
  replace (S n - 1)%nat with n by lia.
  destruct (lookup_lt_is_Some_2 l n) as [v Hv]; [lia|]. rewrite Hv. cbv zeta.
  rewrite (bind_val _ _ _ _ _ (read_ok s l n v (length l - S n) Hr Hv ltac:(lia))).
  rewrite (bind_val _ _ _ _ _ (write_slot_run s (length l) v ltac:(lia))).
  split; [done|]. apply rep_grow; [done|lia].
Qed.

Lemma sim_swap n : sim (swap n) (stk_swap n).
Proof.
  apply sim_get_len. intros s l Hr. unfold stk_swap. destruct l as [|a l]; [done|].
  rewrite decide_False by (cbn; lia). cbn [lookup list_lookup]. cbv zeta.
  pose proof (rep_le _ _ Hr) as Hle. pose proof (rep_buffer _ _ Hr) as Hb.
  destruct ((a :: l) !! n) as [b|] eqn:Hn.
  2:{ apply lookup_ge_None in Hn. rewrite decide_True by (cbn [length] in *; lia). by split. }
  apply lookup_lt_Some in Hn as Hlt. rewrite decide_False by lia.
  rewrite (bind_val _ _ _ _ _ (read_ok s (a :: l) 0 a (length (a :: l) - 1) Hr eq_refl ltac:(cbn; lia))).
  rewrite (bind_val _ _ _ _ _ (read_ok s (a :: l) n b _ Hr Hn eq_refl)).
  assert (rep (mkStack (<[(length (a :: l) - 1)%nat := Some b]> (buffer s)) (len s))
            (<[0%nat := b]> (a :: l))) as Hr1.
  { pose proof (rep_write s (a :: l) 0 b a Hr eq_refl) as Hw. by rewrite Nat.sub_0_r in Hw. }
  erewrite bind_val by (apply write_slot_run; cbn [length] in *; lia).
  rewrite write_slot_run by (cbn [buffer]; rewrite length_insert; cbn [length] in *; lia).
  split; [done|]. cbn [snd].
  destruct (lookup_lt_is_Some_2 (<[0%nat := b]> (a :: l)) n) as [c Hc].
  { by rewrite length_insert. }
  pose proof (rep_write _ _ n a c Hr1 Hc) as Hr2. cbn [len buffer] in Hr2.
  by rewrite length_insert in Hr2.
Qed.

(** [peek_n] at the last index of [usize] passes its guard on every stack and
    reads the word behind the top: outside the buffer when the stack is full. *)
Lemma peek_n_last_index s l :
  rep s l → peek_n (Z.to_nat (2 ^ usize_bits - 1)) s = read_slot (length l) s.
Proof.
  intros Hr. unfold peek_n. rewrite (bind_val get_len _ s (len s) s eq_refl), (rep_len _ _ Hr).
  cbv zeta. pose proof usize_cases.
  rewrite Z2Nat.id by (apply Z.lt_le_pred, Z.pow_pos_nonneg; lia).
  replace (2 ^ usize_bits - 1 + 1) with (2 ^ usize_bits) by lia. unfold wrap.
  rewrite Z.mod_same by (apply Z.pow_nonzero; lia).
  cbn [Z.to_nat]. rewrite decide_False by lia. by rewrite Nat.sub_0_r.
Qed.

Lemma peek_n_last_index_full s l :
  rep s l → length l = STACK_SIZE →
  peek_n (Z.to_nat (2 ^ usize_bits - 1)) s = (Fault, s).
Proof.
  intros Hr Hl. rewrite (peek_n_last_index s l Hr), Hl. unfold read_slot.
  rewrite lookup_ge_None_2; [done|]. by rewrite (rep_buffer _ _ Hr).
Qed.

(** *** Programs over the stack *)

(** [SDup n] is [dup::<N>] for [N = n + 1].  The [Set] operations take the
    reference a [_mut] accessor returns and assign to it. *)
Inductive stack_op : Type :=
| SSwap (n : nat) | SDup (n : nat) | SPopIgnore | SPop1 | SPop2 | SPop3 | SPop4
| STop | STopSet (v : Z) | SPop1Peek | SPop1PeekSet (v : Z) | SPop2Peek | SPop2PeekSet (v : Z)
| SPop1SetPeek (v : Z) | SPush (v : Z) | SPushZero | SPushOne | SPeekN (i : nat).

(** An index is a [usize], and not the last one. *)
Definition index_ok (o : stack_op) : Prop :=
  match o with SPeekN i => Z.of_nat i + 1 < 2 ^ usize_bits | _ => True end.

Definition words {S A} (f : A → list Z) (m : M S ExitCode A) : M S ExitCode (list Z) :=
  a ← m; mret (f a).

Definition impl_op (o : stack_op) : M EvmStack ExitCode (list Z) :=
  match o with
  | SSwap n => words (λ _, []) (swap n)
  | SDup n => words (λ _, []) (dup (S n))
  | SPopIgnore => words (λ _, []) pop_and_ignore
  | SPop1 => words (λ a, [a]) pop_1
  | SPop2 => words (λ '(a, b), [a; b]) pop_2
  | SPop3 => words (λ '(a, b, c), [a; b; c]) pop_3
  | SPop4 => words (λ '(a, b, c, d), [a; b; c; d]) pop_4
  | STop => words (λ a, [a]) top_mut
  | STopSet v => words (λ a, [a]) (a ← top_mut; write_top v ;; mret a)
  | SPop1Peek => words (λ '(a, b), [a; b]) pop_1_and_peek_mut
  | SPop1PeekSet v => words (λ '(a, b), [a; b]) (r ← pop_1_and_peek_mut; write_top v ;; mret r)
  | SPop2Peek => words (λ '(a, b, c), [a; b; c]) pop_2_and_peek_mut
  | SPop2PeekSet v =>
      words (λ '(a, b, c), [a; b; c]) (r ← pop_2_and_peek_mut; write_top v ;; mret r)
  | SPop1SetPeek v => words (λ '(a, b), [a; b]) (r ← pop_1_mut_and_peek; write_popped v ;; mret r)
  | SPush v => words (λ _, []) (push v)
  | SPushZero => words (λ _, []) push_zero
  | SPushOne => words (λ _, []) push_one
  | SPeekN i => words (λ a, [a]) (peek_n i)
  end.

(** What the stack promises: a list, top first, of at most [STACK_SIZE] words.
    An operation that lacks words or room answers the error and changes nothing. *)
Definition stack_spec (o : stack_op) (l : list Z) : (list Z + EvmError) * list Z :=
  let underflow := (inr StackUnderflow, l) in
  let pushed v :=
    if decide (length l = STACK_SIZE) then (inr StackOverflow, l) else (inl [], v :: l) in
  match o, l with
  | SSwap n, _ =>
      match l !! 0%nat, l !! n with
      | Some a, Some b => (inl [], <[n := a]> (<[0%nat := b]> l))
      | _, _ => underflow
      end
  | SDup n, _ =>
      match l !! n with
      | Some v => pushed v
      | None => if decide (length l = STACK_SIZE) then (inr StackOverflow, l) else underflow
      end
  | SPopIgnore, _ :: l' => (inl [], l')
  | SPop1, a :: l' => (inl [a], l')
  | SPop2, a :: b :: l' => (inl [a; b], l')
  | SPop3, a :: b :: c :: l' => (inl [a; b; c], l')
  | SPop4, a :: b :: c :: d :: l' => (inl [a; b; c; d], l')
  | STop, a :: _ => (inl [a], l)
  | STopSet v, a :: l' => (inl [a], v :: l')
  | SPop1Peek, a :: b :: l' => (inl [a; b], b :: l')
  | SPop1PeekSet v, a :: b :: l' => (inl [a; b], v :: l')
  | SPop2Peek, a :: b :: c :: l' => (inl [a; b; c], c :: l')
  | SPop2PeekSet v, a :: b :: c :: l' => (inl [a; b; c], v :: l')
  | SPop1SetPeek v, a :: b :: l' => (inl [a; b], b :: l')
  | SPush v, _ => pushed v
  | SPushZero, _ => pushed 0
  | SPushOne, _ => pushed 1
  | SPeekN i, _ => match l !! i with Some v => (inl [v], l) | None => underflow end
  | _, _ => underflow
  end.

Fixpoint run_stack (os : list stack_op) (s : EvmStack)
    : list (outcome ExitCode (list Z)) * EvmStack :=
  match os with
  | [] => ([], s)
  | o :: os' =>
      let '(r, s') := impl_op o s in
      let '(rs, s'') := run_stack os' s' in
      (r :: rs, s'')
  end.

Fixpoint spec_answers (os : list stack_op) (l : list Z) : list (list Z + EvmError) :=
  match os with
  | [] => []
  | o :: os' => (stack_spec o l).1 :: spec_answers os' (stack_spec o l).2
  end.

Definition answered (r : list Z + EvmError) : outcome ExitCode (list Z) :=
  match r with inl ws => Val ws | inr e => Err (EvmErr e) end.

(** An operation of the buffer implements the list's. *)
Definition meets (o : stack_op) (m : M EvmStack ExitCode (list Z)) : Prop :=
  ∀ s l, rep s l → (m s).1 = answered (stack_spec o l).1 ∧ rep (m s).2 (stack_spec o l).2.

Lemma sim_bind {A B} (mc : M EvmStack ExitCode A) (ma : M (list Z) ExitCode A)
    (kc : A → M EvmStack ExitCode B) ka :
  sim mc ma → (∀ a, sim (kc a) (ka a)) → sim (mc ≫= kc) (ma ≫= ka).
Proof.
  intros Hs Hk s l Hr. specialize (Hs s l Hr) as [Ho Hr']. unfold mbind, M_bind.
  destruct (mc s) as [o s'], (ma l) as [o' l']. cbn in *. subst o'.
  destruct o; [by apply Hk|done..].
Qed.

Lemma sim_ret {A} (a : A) : sim (mret a) (mret a).
Proof. by intros s l Hr. Qed.

Lemma meets_sim o mc ma :
  sim mc ma →
  (∀ l, (length l ≤ STACK_SIZE)%nat →
     ma l = (answered (stack_spec o l).1, (stack_spec o l).2)) → meets o mc.
Proof.
  intros Hs Ha s l Hr. destruct (Hs s l Hr) as [Ho Hr'].
  by rewrite (Ha l (rep_le _ _ Hr)) in Ho, Hr'.
Qed.

Ltac stack_meets lem :=
  eapply meets_sim; [apply sim_bind; [apply lem|intros; apply sim_ret]|];
  intros l Hl; unfold mbind, M_bind.
Ltac stack_meets_set lem w :=
  eapply meets_sim;
    [apply sim_bind;
       [apply sim_bind; [apply lem|intros; apply sim_bind; [apply w|intros; apply sim_ret]]
       |intros; apply sim_ret]|];
  intros l Hl; unfold mbind, M_bind.

Lemma meets_swap n : meets (SSwap n) (impl_op (SSwap n)).
Proof.
  stack_meets sim_swap. unfold stk_swap. cbn [stack_spec].
  by destruct (l !! 0%nat), (l !! n).
Qed.

Lemma meets_dup n : meets (SDup n) (impl_op (SDup n)).
Proof.
  stack_meets sim_dup. unfold stk_dup. cbn [stack_spec].
  replace (S n - 1)%nat with n by lia.
  destruct (l !! n) eqn:Hn; [apply lookup_lt_Some in Hn|apply lookup_ge_None in Hn];
    repeat case_decide; done || lia.
Qed.

Lemma meets_push v : meets (SPush v) (words (λ _, []) (push v)).
Proof. stack_meets sim_push. unfold stk_push. cbn [stack_spec]. by case_decide. Qed.

Lemma meets_peek_n i : index_ok (SPeekN i) → meets (SPeekN i) (impl_op (SPeekN i)).
Proof.
  intros Hi. eapply meets_sim; [apply sim_bind; [by apply sim_peek_n|intros; apply sim_ret]|].
  intros l Hl. unfold mbind, M_bind, stk_peek_n. cbn [stack_spec]. by destruct (l !! i).
Qed.

Lemma meets_pop_set v : meets (SPop1SetPeek v) (impl_op (SPop1SetPeek v)).
Proof.
  stack_meets_set sim_pop_1_peek (sim_write_popped v). unfold stk_write_popped.
  destruct l as [|a [|b l]]; [done..|]. cbn in *. unfold STACK_SIZE in *.
  by rewrite decide_True by lia.
Qed.

Lemma impl_op_meets o : index_ok o → meets o (impl_op o).
Proof.
  destruct o; intros Hi; try by auto using meets_swap, meets_dup, meets_peek_n, meets_pop_set.
  - stack_meets sim_pop. by destruct l.
  - stack_meets sim_pop_1. by destruct l.
  - stack_meets sim_pop_2. by destruct l as [|? [|]].
  - stack_meets sim_pop_3. by destruct l as [|? [|? [|]]].
  - stack_meets sim_pop_4. by destruct l as [|? [|? [|? [|]]]].
  - stack_meets sim_top. by destruct l.
  - stack_meets_set sim_top (sim_write_top v). by destruct l.
  - stack_meets sim_pop_1_peek. by destruct l as [|? [|]].
  - stack_meets_set sim_pop_1_peek (sim_write_top v). by destruct l as [|? [|]].
  - stack_meets sim_pop_2_peek. by destruct l as [|? [|? [|]]].
  - stack_meets_set sim_pop_2_peek (sim_write_top v). by destruct l as [|? [|? [|]]].
  - apply meets_push.
  - apply (meets_push 0).
  - apply (meets_push 1).
Qed.

Lemma run_stack_meets os s l :
  Forall index_ok os → rep s l → (run_stack os s).1 = answered <$> spec_answers os l.
Proof.
  intros Hos. revert s l. induction Hos as [|o os Ho _ IH]; intros s l Hr; [done|]. cbn.
  destruct (impl_op_meets o Ho s l Hr) as [Hv Hr'].
  destruct (impl_op o s) as [r s']. cbn in *. subst r. specialize (IH s' _ Hr').
  destruct (run_stack os s'). cbn in *. by rewrite IH.
Qed.

End Refinement.

(** C13: the stack.  On every sequence of stack operations the unchecked buffer
    answers what a list of at most 1024 words answers, the two stack errors
    included: a read never leaves the buffer and never sees an uninitialised or
    a stale word.  The index of a [peek_n] is any [usize] but the last, at which
    [index + 1] wraps. *)
Theorem evm_stack_refines {US : Usize} (os : list stack_op) :
  Forall index_ok os →
  (run_stack os Buffer.new_in).1 = answered <$> spec_answers os [].
Proof. intros Hos. exact (run_stack_meets os _ _ Hos rep_new). Qed.

Lemma evm_stack_refines_witness :
  (run_stack (US := usize32) [SPush 7; SPushOne; SPeekN 1; SPop1PeekSet 9; SPop2; SPop1] Buffer.new_in).1
  = answered <$> spec_answers [SPush 7; SPushOne; SPeekN 1; SPop1PeekSet 9; SPop2; SPop1] [].
Proof. apply (evm_stack_refines (US := usize32)). repeat constructor. Defined.
