(* ===== verification/SliceVec.v ===== *)
(** * Vectors over a borrowed buffer

    Models [zk_ee/src/memory/slice_vec.rs]: the heap of every EVM frame is such a
    vector, over the part of one preallocated buffer that the outer frames do
    not use.  The buffer holds possibly uninitialised elements; an operation
    that would read one is a [Fault].  The vector is shown to implement a list
    bounded by a capacity, the form the other files use ([Heap] below), and
    [freeze] to split the buffer. *)

From S2P Require Import Prelude.

Module Slice.
Section Slice.
Context {T : Type}.
Record SliceVec : Type := mkSliceVec { memory : list (option T); length_ : nat }.
Abbreviation SV := (M SliceVec unit).

Definition new (memory : list (option T)) : SliceVec := mkSliceVec memory 0.

(** The initialised part; [None] if it is not. *)
Definition deref (s : SliceVec) : option (list T) := mapM id (take (length_ s) (memory s)).

(** Assigning to all of the slice that [deref_mut] gives. *)
Definition deref_mut_store (l : list T) : SV unit := λ s,
  if decide (length l = length_ s) then
    (Val tt, mkSliceVec ((Some <$> l) ++ drop (length_ s) (memory s)) (length_ s))
  else (Fault, s).

Definition freeze (s : SliceVec) : option (list T) * SliceVec :=
  (mapM id (take (length_ s) (memory s)), new (drop (length_ s) (memory s))).

Definition clear : SV unit := modify (λ s, mkSliceVec (memory s) 0).

Definition write_at (i : nat) (x : T) : SV unit := λ s,
  if decide (i < length (memory s))%nat
  then (Val tt, mkSliceVec (<[i := Some x]> (memory s)) (length_ s))
  else (Fault, s).

Definition try_push (x : T) : SV unit := λ s,
  match memory s !! length_ s with
  | Some _ =>
      (Val tt, mkSliceVec (<[length_ s := Some x]> (memory s)) (length_ s + 1))
  | None => (Err tt, s)
  end.

Definition read_at (i : nat) : SV T := λ s,
  match memory s !! i with
  | Some (Some x) => (Val x, s)
  | _ => (Fault, s)
  end.

Definition pop : SV (option T) :=
  n ← gets length_;
  if decide (n = 0)%nat then mret None
  else
    modify (λ s, mkSliceVec (memory s) (length_ s - 1)) ;;
    x ← read_at (n - 1);
    mret (Some x).

Definition top : SV (option T) :=
  n ← gets length_;
  if decide (n = 0)%nat then mret None
  else x ← read_at (n - 1); mret (Some x).

(** [for x in &mut self.memory[from..to] { x.write(padding.clone()) }]. *)
Fixpoint fill (from count : nat) (padding : T) : SV unit :=
  match count with
  | O => mret tt
  | S count' => write_at from padding ;; fill (S from) count' padding
  end.

Definition resize (new_length : nat) (padding : T) : SV unit :=
  cap ← gets (λ s, length (memory s));
  len ← gets length_;
  if decide (cap ≤ new_length)%nat then throw tt
  else
    fill len (new_length - len) padding ;;
    modify (λ s, mkSliceVec (memory s) new_length).

(** The loop of [try_extend]; [idx] is its local counter. *)
Fixpoint extend_loop (items : list T) (idx : nat) : SV nat :=
  match items with
  | [] => mret idx
  | item :: items' =>
      cap ← gets (λ s, length (memory s));
      if decide (idx = cap) then throw tt
      else write_at idx item ;; extend_loop items' (idx + 1)
  end.

Definition try_extend (items : list T) : SV unit :=
  len ← gets length_;
  idx ← extend_loop items len;
  modify (λ s, mkSliceVec (memory s) idx).
End Slice.
Arguments SliceVec T : clear implicits.
End Slice.

(** ** The bounded list *)
Section Heap.
Context {T : Type}.
Record Heap : Type := mkHeap { heap_cap : nat; heap_data : list T }.

Definition heap_store (l : list T) : M Heap unit unit := λ h,
  if decide (length l = length (heap_data h)) then (Val tt, mkHeap (heap_cap h) l)
  else (Fault, h).
Definition heap_clear : M Heap unit unit := modify (λ h, mkHeap (heap_cap h) []).
Definition heap_push (x : T) : M Heap unit unit := λ h,
  if decide (length (heap_data h) < heap_cap h)%nat
  then (Val tt, mkHeap (heap_cap h) (heap_data h ++ [x]))
  else (Err tt, h).
Definition heap_pop : M Heap unit (option T) := λ h,
  match last (heap_data h) with
  | None => (Val None, h)
  | Some x => (Val (Some x), mkHeap (heap_cap h) (removelast (heap_data h)))
  end.
Definition heap_top : M Heap unit (option T) := gets (λ h, last (heap_data h)).
Definition heap_resize (n : nat) (padding : T) : M Heap unit unit := λ h,
  if decide (heap_cap h ≤ n)%nat then (Err tt, h)
  else (Val tt, mkHeap (heap_cap h)
                  (take n (heap_data h) ++ repeat padding (n - length (heap_data h)))).
Definition heap_extend (items : list T) : M Heap unit unit := λ h,
  if decide (length (heap_data h) + length items ≤ heap_cap h)%nat
  then (Val tt, mkHeap (heap_cap h) (heap_data h ++ items))
  else (Err tt, h).
Definition heap_freeze (h : Heap) : list T * Heap :=
  (heap_data h, mkHeap (heap_cap h - length (heap_data h)) []).
End Heap.
Arguments Heap T : clear implicits.

(** ** The vector implements the bounded list *)
Section Refinement.
Context {T : Type}.
Import Slice.

Record hrep (s : SliceVec T) (h : Heap T) : Prop := {
  hr_cap : length (memory s) = heap_cap h;
  hr_len : length_ s = length (heap_data h);
  hr_le : (length (heap_data h) ≤ heap_cap h)%nat;
  hr_data : take (length_ s) (memory s) = Some <$> heap_data h
}.

Definition hsim {A} (mc : M (SliceVec T) unit A) (ma : M (Heap T) unit A) : Prop :=
  ∀ s h, hrep s h → (mc s).1 = (ma h).1 ∧ hrep (mc s).2 (ma h).2.

Lemma hrep_new mem : hrep (new mem) (mkHeap (length mem) []).
Proof. split; cbn; [done..|lia|done]. Qed.

Lemma mapM_id_Some (l : list T) : mapM id (Some <$> l) = Some l.
Proof. induction l as [|x l IH]; [done|]. cbn in *. by rewrite IH. Qed.

Lemma deref_rep s h : hrep s h → deref s = Some (heap_data h).
Proof. intros [_ _ _ Hd]. unfold deref. rewrite Hd. apply mapM_id_Some. Qed.

Lemma freeze_rep s h :
  hrep s h → (freeze s).1 = Some (heap_freeze h).1 ∧ hrep (freeze s).2 (heap_freeze h).2.
Proof.
  intros Hr. split; [by apply deref_rep|]. destruct Hr as [Hc Hl Hle _].
  split; cbn; rewrite ?length_drop; [lia|done|lia|done].
Qed.

Lemma hrep_lookup s h i x :
  hrep s h → heap_data h !! i = Some x → memory s !! i = Some (Some x).
Proof.
  intros [_ Hl _ Hd] Hi. apply lookup_lt_Some in Hi as Hlt.
  rewrite <- (lookup_take_lt (memory s) (length_ s)) by lia.
  by rewrite Hd, list_lookup_fmap, Hi.
Qed.

(** Writing just past the initialised part extends it. *)
Lemma take_insert_S {A} (l : list A) n x :
  (n < length l)%nat → take (n + 1) (<[n := x]> l) = take n l ++ [x].
Proof.
  intros Hn. rewrite Nat.add_1_r, (take_S_r _ _ x) by (by apply list_lookup_insert_eq).
  by rewrite take_insert_ge.
Qed.

Lemma hrep_push s h x :
  hrep s h → (length (heap_data h) < heap_cap h)%nat →
  hrep (mkSliceVec (<[length_ s := Some x]> (memory s)) (length_ s + 1))
       (mkHeap (heap_cap h) (heap_data h ++ [x])).
Proof.
  intros [Hc Hl Hle Hd] Hlt. split; cbn; rewrite ?length_insert, ?length_app; cbn; [done|lia..|].
  rewrite take_insert_S by lia. by rewrite Hd, fmap_app.
Qed.

Lemma hsim_push x : hsim (try_push x) (heap_push x).
Proof.
  intros s h Hr. pose proof Hr as [Hc Hl Hle _]. unfold try_push, heap_push.
  destruct (decide _) as [Hlt|Hge].
  - destruct (lookup_lt_is_Some_2 (memory s) (length_ s)) as [y ->]; [lia|].
    split; [done|]. by apply hrep_push.
  - rewrite (proj2 (lookup_ge_None _ _)) by lia. by split.
Qed.
Lemma write_at_run (mem : list (option T)) n i x :
  (i < length mem)%nat →
  write_at i x (mkSliceVec mem n) = (Val tt, mkSliceVec (<[i := Some x]> mem) n).
Proof. intros Hi. unfold write_at. by rewrite decide_True. Qed.

Lemma fill_spec count padding mem h n :
  hrep (mkSliceVec mem (length (heap_data h))) h →
  (length (heap_data h) + count ≤ heap_cap h)%nat →
  ∃ mem', fill (length (heap_data h)) count padding (mkSliceVec mem n)
          = (Val tt, mkSliceVec mem' n)
    ∧ hrep (mkSliceVec mem' (length (heap_data h) + count))
           (mkHeap (heap_cap h) (heap_data h ++ repeat padding count)).
Proof.
  revert mem h. induction count as [|count IH]; intros mem h Hr Hle; cbn [fill repeat].
  { exists mem. split; [done|]. rewrite app_nil_r, Nat.add_0_r. by destruct h. }
  pose proof (hr_cap _ _ Hr) as Hc. cbn in Hc.
  pose proof (hrep_push _ _ padding Hr ltac:(lia)) as Hr'. cbn [length_ memory] in Hr'.
  destruct (IH (<[length (heap_data h) := Some padding]> mem)
              (mkHeap (heap_cap h) (heap_data h ++ [padding]))) as (mem' & Hrun & Hr2);
    cbn [heap_data heap_cap]; rewrite ?length_app; cbn [length]; [done|lia|].
  exists mem'. cbn [heap_data heap_cap] in *. rewrite length_app in Hrun, Hr2.
  cbn [length] in Hrun, Hr2. split.
  - erewrite bind_val by (apply write_at_run; lia). rewrite <- Hrun. f_equal. lia.
  - rewrite <- app_assoc in Hr2. cbn in Hr2.
    by replace (length (heap_data h) + S count)%nat
      with (length (heap_data h) + 1 + count)%nat by lia.
Qed.

Lemma extend_loop_spec items mem h n :
  hrep (mkSliceVec mem (length (heap_data h))) h →
  ∃ mem', extend_loop items (length (heap_data h)) (mkSliceVec mem n)
          = (if decide (length (heap_data h) + length items ≤ heap_cap h)%nat
             then Val (length (heap_data h) + length items)%nat else Err tt,
             mkSliceVec mem' n)
    ∧ hrep (mkSliceVec mem' (length (heap_data h))) h
    ∧ ((length (heap_data h) + length items ≤ heap_cap h)%nat →
       hrep (mkSliceVec mem' (length (heap_data h) + length items))
            (mkHeap (heap_cap h) (heap_data h ++ items))).
Proof.
  revert mem h. induction items as [|x items IH]; intros mem h Hr; cbn [extend_loop].
  { exists mem. pose proof (hr_le _ _ Hr). cbn. rewrite Nat.add_0_r, app_nil_r.
    rewrite decide_True by lia. split; [done|]. split; [done|]. intros _. by destruct h. }
  pose proof (hr_cap _ _ Hr) as Hc. pose proof (hr_le _ _ Hr) as Hle. cbn in Hc.
  erewrite bind_val by done. cbn [memory]. destruct (decide _) as [Hfull|Hroom].
  { exists mem. cbn [length]. rewrite decide_False by lia. split; [done|]. split; [done|]. lia. }
  erewrite bind_val by (apply write_at_run; lia).
  pose proof (hrep_push _ _ x Hr ltac:(lia)) as Hr'. cbn [length_ memory] in Hr'.
  destruct (IH (<[length (heap_data h) := Some x]> mem)
              (mkHeap (heap_cap h) (heap_data h ++ [x]))) as (mem' & Hrun & Hr1 & Hr2);
    cbn [heap_data heap_cap] in *; rewrite ?length_app in *; cbn [length] in *; [done|].
  exists mem'. rewrite Hrun. split; [|split].
  - destruct (decide _), (decide _); try lia; do 2 f_equal; lia.
  - clear Hr2. destruct Hr1 as [H1 H2 H3 H4], h as [cap data]. cbn in *. split; cbn; [done..|].
    apply (f_equal (take (length data))) in H4. rewrite take_take in H4.
    rewrite <- fmap_take, take_app_length in H4.
    by replace (length data `min` (length data + 1))%nat with (length data) in H4 by lia.
  - intros Hfit. rewrite <- app_assoc in Hr2. cbn in Hr2.
    replace (length (heap_data h) + S (length items))%nat
      with (length (heap_data h) + 1 + length items)%nat by lia. apply Hr2. lia.
Qed.

Lemma hsim_extend items : hsim (try_extend items) (heap_extend items).
Proof.
  intros [mem n] h Hr. pose proof (hr_len _ _ Hr) as Hl. cbn in Hl. subst n.
  unfold try_extend, heap_extend. erewrite bind_val by done. cbn [length_].
  destruct (extend_loop_spec items mem h (length (heap_data h)) Hr) as (mem' & Hrun & Hr1 & Hr2).
  destruct (decide _) as [Hfit|Hno].
  - erewrite bind_val by exact Hrun. split; [done|]. by apply Hr2.
  - erewrite bind_err by exact Hrun. by split.
Qed.

Lemma hsim_resize n padding : hsim (resize n padding) (heap_resize n padding).
Proof.
  intros [mem len] h Hr. pose proof Hr as [Hc Hl Hle Hd]. cbn in Hc, Hl, Hd. subst len.
  unfold resize, heap_resize. do 2 erewrite bind_val by done. cbn [memory length_].
  rewrite Hc. destruct (decide _) as [Hcap|Hcap]; [by split|].
  destruct (fill_spec (n - length (heap_data h)) padding mem h (length (heap_data h)) Hr)
    as (mem' & Hrun & [Hc' Hl' Hle' Hd']); [lia|].
  erewrite bind_val by exact Hrun. split; [done|]. cbn in *.
  split; cbn; rewrite ?length_app, ?length_take, ?repeat_length; [done|lia|lia|].
  destruct (decide (length (heap_data h) ≤ n)%nat) as [Hge|Hlt].
  - rewrite (take_ge (heap_data h)) by lia. rewrite <- Hd'. f_equal. lia.
  - replace (n - length (heap_data h))%nat with 0%nat in * by lia. cbn in *.
    rewrite app_nil_r in *. rewrite Nat.add_0_r in *.
    rewrite fmap_take, <- Hd', take_take. f_equal. lia.
Qed.

Lemma hsim_clear : hsim clear heap_clear.
Proof. intros s h [Hc Hl Hle Hd]. split; [done|]. split; cbn; [done..|lia|done]. Qed.

Lemma hsim_store l : hsim (deref_mut_store l) (heap_store l).
Proof.
  intros s h Hr. pose proof Hr as [Hc Hl Hle Hd]. unfold deref_mut_store, heap_store.
  rewrite <- Hl. destruct (decide _) as [Heq|Hne]; [|by split]. split; [done|].
  split; cbn; rewrite ?length_app, ?length_fmap, ?length_drop; [lia..|].
  rewrite <- Heq. by rewrite <- (length_fmap Some l), take_app_length.
Qed.

Lemma last_lookup_rep s h x :
  hrep s h → last (heap_data h) = Some x → memory s !! (length (heap_data h) - 1)%nat = Some (Some x).
Proof.
  intros Hr Hx. eapply hrep_lookup; [done|]. rewrite last_lookup in Hx.
  by replace (length (heap_data h) - 1)%nat with (pred (length (heap_data h))) by lia.
Qed.

Lemma hsim_top : hsim top heap_top.
Proof.
  intros s h Hr. unfold top, heap_top, gets. erewrite bind_val by done.
  rewrite (hr_len _ _ Hr). destruct (last (heap_data h)) as [x|] eqn:Hx.
  - rewrite decide_False by (intros ?%length_zero_iff_nil; simplify_eq; by rewrite H in Hx).
    erewrite bind_val; [by split; cbn; rewrite ?Hx|]. unfold read_at.
    by rewrite (last_lookup_rep _ _ _ Hr Hx).
  - apply last_None in Hx as Hn. rewrite Hn. cbn. by rewrite ?Hn.
Qed.

Lemma hrep_removelast s h x :
  hrep s h → last (heap_data h) = Some x →
  hrep (mkSliceVec (memory s) (length_ s - 1))
       (mkHeap (heap_cap h) (removelast (heap_data h))).
Proof.
  intros [Hc Hl Hle Hd] Hx. apply last_Some in Hx as [l Heq]. rewrite Heq in *.
  rewrite removelast_last, length_app in *. cbn in *.
  split; cbn; [done|lia|lia|]. apply (f_equal (take (length l))) in Hd.
  rewrite take_take, <- fmap_take, take_app_length in Hd. rewrite <- Hd. f_equal. lia.
Qed.

Lemma hsim_pop : hsim pop heap_pop.
Proof.
  intros s h Hr. unfold pop, heap_pop. erewrite bind_val by done.
  rewrite (hr_len _ _ Hr). destruct (last (heap_data h)) as [x|] eqn:Hx.
  - rewrite decide_False by (intros ?%length_zero_iff_nil; simplify_eq; by rewrite H in Hx).
    erewrite bind_val by done. erewrite bind_val.
    2:{ unfold read_at. cbn [memory]. by rewrite (last_lookup_rep _ _ _ Hr Hx). }
    split; [done|]. by eapply hrep_removelast.
  - apply last_None in Hx as Hn. rewrite decide_True by (by rewrite Hn). by split.
Qed.

(** *** Programs over the vector *)
Inductive slice_op : Type :=
| VResize (n : nat) (padding : T) | VPush (x : T) | VPop | VTop | VClear
| VExtend (items : list T) | VStore (l : list T).

Definition elems {S A} (f : A → list T) (m : M S unit A) : M S unit (list T) :=
  a ← m; mret (f a).

Definition slice_step (o : slice_op) : M (SliceVec T) unit (list T) :=
  match o with
  | VResize n padding => elems (λ _, []) (resize n padding)
  | VPush x => elems (λ _, []) (try_push x)
  | VPop => elems (option_list) pop
  | VTop => elems (option_list) top
  | VClear => elems (λ _, []) clear
  | VExtend items => elems (λ _, []) (try_extend items)
  | VStore l => elems (λ _, []) (deref_mut_store l)
  end.

Definition heap_step (o : slice_op) : M (Heap T) unit (list T) :=
  match o with
  | VResize n padding => elems (λ _, []) (heap_resize n padding)
  | VPush x => elems (λ _, []) (heap_push x)
  | VPop => elems (option_list) heap_pop
  | VTop => elems (option_list) heap_top
  | VClear => elems (λ _, []) heap_clear
  | VExtend items => elems (λ _, []) (heap_extend items)
  | VStore l => elems (λ _, []) (heap_store l)
  end.

Fixpoint run_slice {S} (step : slice_op → M S unit (list T)) (os : list slice_op) (s : S)
    : list (outcome unit (list T)) * S :=
  match os with
  | [] => ([], s)
  | o :: os' =>
      let '(r, s') := step o s in
      let '(rs, s'') := run_slice step os' s' in
      (r :: rs, s'')
  end.

Lemma hsim_elems {A} (f : A → list T) mc ma : hsim mc ma → hsim (elems f mc) (elems f ma).
Proof.
  intros Hs s l Hr. specialize (Hs s l Hr) as [Ho Hr']. unfold elems, mbind, M_bind.
  destruct (mc s) as [o s'], (ma l) as [o' l']. cbn in *. subst o'. by destruct o.
Qed.

Lemma hsim_step o : hsim (slice_step o) (heap_step o).
Proof.
  destruct o; apply hsim_elems; auto using hsim_resize, hsim_push, hsim_pop, hsim_top,
    hsim_clear, hsim_extend, hsim_store.
Qed.

Lemma run_slice_sim os s h :
  hrep s h → (run_slice slice_step os s).1 = (run_slice heap_step os h).1
             ∧ hrep (run_slice slice_step os s).2 (run_slice heap_step os h).2.
Proof.
  revert s h. induction os as [|o os IH]; intros s h Hr; [done|]. cbn.
  destruct (hsim_step o s h Hr) as [Ho Hr'].
  destruct (slice_step o s) as [r s'], (heap_step o h) as [r' h']. cbn in *. subst r'.
  destruct (IH s' h' Hr') as [Hos Hr2].
  destruct (run_slice slice_step os s'), (run_slice heap_step os h'). cbn in *. by subst.
Qed.


Lemma run_slice_cap os (h : Heap T) : heap_cap (run_slice heap_step os h).2 = heap_cap h.
Proof.
  revert h. induction os as [|o os IH]; intros h; [done|]. cbn.
  assert (heap_cap (heap_step o h).2 = heap_cap h) as Hs.
  { destruct o; cbn; unfold elems, mbind, M_bind, heap_resize, heap_push, heap_pop,
      heap_extend, heap_store; try (by case_decide); [|done..].
    by destruct (last (heap_data h)). }
  destruct (heap_step o h) as [r h'] eqn:Hst. specialize (IH h').
  destruct (run_slice heap_step os h') eqn:Hrn. cbn in *. congruence.
Qed.
End Refinement.

(** C32: the vector over a borrowed buffer.  On every sequence of operations it
    returns what a list bounded by the capacity returns, its contents are that
    list, no uninitialised element is read, and freezing it gives the contents
    and an empty vector over exactly the rest of the buffer. *)
Theorem slice_vec_refines {T} (mem : list (option T)) (os : list slice_op) :
  let s := (run_slice slice_step os (Slice.new mem)).2 in
  let h := (run_slice heap_step os (mkHeap (length mem) [])).2 in
  (run_slice slice_step os (Slice.new mem)).1
  = (run_slice heap_step os (mkHeap (length mem) [])).1
  ∧ Slice.deref s = Some (heap_data h)
  ∧ Slice.freeze s
    = (Some (heap_data h), Slice.new (drop (length (heap_data h)) (Slice.memory s)))
  ∧ length (Slice.memory s) = length mem.
Proof.
  intros s h. destruct (run_slice_sim os _ _ (hrep_new mem)) as [Ho Hr].
  fold s h in Hr. split; [done|]. split; [by apply deref_rep|]. split.
  - unfold Slice.freeze. destruct Hr as [_ Hl _ Hd]. by rewrite Hd, mapM_id_Some, Hl.
  - rewrite (hr_cap _ _ Hr). apply (run_slice_cap os).
Qed.
