(* ===== verification/EvmConstants.v ===== *)
(** * Constants of the EVM

    The tables of [evm_interpreter/src/gas_constants.rs] ([GAS_*]),
    [evm_interpreter/src/native_resource_constants.rs] ([*_NATIVE_COST]),
    [evm_interpreter/src/opcodes.rs] ([OP_*] and the table of mnemonics) and the
    limits of [evm_interpreter/src/lib.rs]. *)

From stdpp Require Import strings.
From S2P Require Import Prelude.

(** ** Gas *)
Definition GAS_ZERO : Z := 0.
Definition GAS_BASE : Z := 2.
Definition GAS_VERYLOW : Z := 3.
Definition GAS_LOW : Z := 5.
Definition GAS_MID : Z := 8.
Definition GAS_HIGH : Z := 10.
Definition GAS_JUMPDEST : Z := 1.
Definition GAS_SELFDESTRUCT : Z := 5000.
Definition GAS_CREATE : Z := 32000.
Definition GAS_CALLVALUE : Z := 9000.
Definition GAS_NEWACCOUNT : Z := 25000.
Definition GAS_EXP : Z := 10.
Definition GAS_MEMORY : Z := 3.
Definition GAS_LOG : Z := 375.
Definition GAS_LOGDATA : Z := 8.
Definition GAS_LOGTOPIC : Z := 375.
Definition GAS_SHA3 : Z := 30.
Definition GAS_SHA3WORD : Z := 6.
Definition GAS_COPY : Z := 3.
Definition GAS_BLOCKHASH : Z := 20.
Definition GAS_CODEDEPOSIT : Z := 200.
Definition GAS_BLOBHASH : Z := 3.
Definition GAS_REFUND_SSTORE_CLEARS : Z := 15000.
Definition GAS_SSTORE_SET_EXTRA : Z := 19900.
Definition GAS_SSTORE_RESET_EXTRA : Z := 2800.
Definition GAS_TRANSACTION_ZERO_DATA : Z := 4.
Definition GAS_TRANSACTION_NON_ZERO_DATA_INIT : Z := 16.
Definition GAS_TRANSACTION_NON_ZERO_DATA_FRONTIER : Z := 68.
Definition GAS_ACCESS_LIST_ADDRESS : Z := 2400.
Definition GAS_ACCESS_LIST_STORAGE_KEY : Z := 1900.
Definition GAS_COLD_SLOAD_COST : Z := 2100.
Definition GAS_COLD_ACCOUNT_ACCESS_COST : Z := 2600.
Definition GAS_WARM_STORAGE_READ_COST : Z := 100.
Definition GAS_INITCODE_WORD_COST : Z := 2.
Definition GAS_CALL_STIPEND : Z := 2300.
Definition GAS_ADDRESS_ACCESS_COST_COLD : Z := 2600.
Definition GAS_ADDRESS_ACCESS_COST_WARM : Z := 100.
Definition GAS_TSTORE : Z := 100.
Definition GAS_TLOAD : Z := 100.
Definition GAS_SELFBALANCE : Z := 5.
Definition GAS_PER_AUTH_BASE_COST : Z := 12500.

(** ** Native *)
Definition ADD_NATIVE_COST : Z := 140.
Definition MUL_NATIVE_COST : Z := 400.
Definition SUB_NATIVE_COST : Z := 140.
Definition DIV_NATIVE_COST : Z := 1500.
Definition SDIV_NATIVE_COST : Z := 1000.
Definition MOD_NATIVE_COST : Z := 1300.
Definition SMOD_NATIVE_COST : Z := 800.
Definition ADDMOD_NATIVE_COST : Z := 2000.
Definition MULMOD_NATIVE_COST : Z := 4000.
Definition EXP_BASE_NATIVE_COST : Z := 700.
Definition EXP_PER_BYTE_NATIVE_COST : Z := 5000.
Definition SIGNEXTEND_NATIVE_COST : Z := 400.
Definition LT_NATIVE_COST : Z := 190.
Definition GT_NATIVE_COST : Z := 190.
Definition SLT_NATIVE_COST : Z := 430.
Definition SGT_NATIVE_COST : Z := 430.
Definition EQ_NATIVE_COST : Z := 500.
Definition ISZERO_NATIVE_COST : Z := 300.
Definition AND_NATIVE_COST : Z := 100.
Definition OR_NATIVE_COST : Z := 90.
Definition XOR_NATIVE_COST : Z := 90.
Definition NOT_NATIVE_COST : Z := 60.
Definition BYTE_NATIVE_COST : Z := 160.
Definition SHL_NATIVE_COST : Z := 240.
Definition SHR_NATIVE_COST : Z := 240.
Definition SAR_NATIVE_COST : Z := 400.
Definition KECCAK256_NATIVE_COST : Z := 90.
Definition ADDRESS_NATIVE_COST : Z := 60.
Definition BALANCE_NATIVE_COST : Z := 60.
Definition SELFBALANCE_NATIVE_COST : Z := 60.
Definition ORIGIN_NATIVE_COST : Z := 60.
Definition CHAINID_NATIVE_COST : Z := 60.
Definition COINBASE_NATIVE_COST : Z := 60.
Definition TIMESTAMP_NATIVE_COST : Z := 60.
Definition NUMBER_NATIVE_COST : Z := 60.
Definition DIFFICULTY_NATIVE_COST : Z := 40.
Definition CALLER_NATIVE_COST : Z := 60.
Definition GASLIMIT_NATIVE_COST : Z := 60.
Definition GAS_NATIVE_COST : Z := 60.
Definition BLOCKHASH_NATIVE_COST : Z := 60.
Definition CALLVALUE_NATIVE_COST : Z := 60.
Definition CALLDATALOAD_NATIVE_COST : Z := 280.
Definition CALLDATASIZE_NATIVE_COST : Z := 40.
Definition CALLDATACOPY_NATIVE_COST : Z := 100.
Definition CODESIZE_NATIVE_COST : Z := 40.
Definition CODECOPY_NATIVE_COST : Z := 100.
Definition GASPRICE_NATIVE_COST : Z := 60.
Definition BASEFEE_NATIVE_COST : Z := 60.
Definition EXTCODESIZE_NATIVE_COST : Z := 60.
Definition EXTCODECOPY_NATIVE_COST : Z := 100.
Definition EXTCODEHASH_NATIVE_COST : Z := 60.
Definition RETURNDATASIZE_NATIVE_COST : Z := 60.
Definition RETURNDATACOPY_NATIVE_COST : Z := 100.
Definition HEAP_EXPANSION_BASE_NATIVE_COST : Z := 35.
Definition HEAP_EXPANSION_PER_BYTE_NATIVE_COST : Z := 1.
Definition MLOAD_NATIVE_COST : Z := 250.
Definition MSTORE_NATIVE_COST : Z := 250.
Definition MSTORE8_NATIVE_COST : Z := 250.
Definition COPY_BASE_NATIVE_COST : Z := 80.
Definition COPY_BYTE_NATIVE_COST : Z := 1.
Definition SLOAD_NATIVE_COST : Z := 100.
Definition SSTORE_NATIVE_COST : Z := 100.
Definition TLOAD_NATIVE_COST : Z := 100.
Definition TSTORE_NATIVE_COST : Z := 100.
Definition MSIZE_NATIVE_COST : Z := 40.
Definition JUMP_NATIVE_COST : Z := 70.
Definition JUMPI_NATIVE_COST : Z := 300.
Definition PC_NATIVE_COST : Z := 40.
Definition STOP_NATIVE_COST : Z := 10.
Definition RETURN_NATIVE_COST : Z := 40.
Definition REVERT_NATIVE_COST : Z := 50.
Definition INVALID_NATIVE_COST : Z := 50.
Definition SELFDESTRUCT_NATIVE_COST : Z := 100.
Definition POP_NATIVE_COST : Z := 40.
Definition JUMPDEST_NATIVE_COST : Z := 40.
Definition CREATE_NATIVE_COST : Z := 25000.
Definition CREATE2_NATIVE_COST : Z := 25000.
Definition CALL_NATIVE_COST : Z := 1500.
Definition CALLCODE_NATIVE_COST : Z := 1500.
Definition DELEGATECALL_NATIVE_COST : Z := 1500.
Definition STATICCALL_NATIVE_COST : Z := 1500.
Definition PUSH0_NATIVE_COST : Z := 50.
Definition PUSH1_NATIVE_COST : Z := 60.
Definition PUSH2_NATIVE_COST : Z := 120.
Definition PUSH3_NATIVE_COST : Z := 140.
Definition PUSH4_NATIVE_COST : Z := 140.
Definition PUSH5_NATIVE_COST : Z := 150.
Definition PUSH6_NATIVE_COST : Z := 160.
Definition PUSH7_NATIVE_COST : Z := 170.
Definition PUSH8_NATIVE_COST : Z := 180.
Definition PUSH9_NATIVE_COST : Z := 190.
Definition PUSH10_NATIVE_COST : Z := 200.
Definition PUSH11_NATIVE_COST : Z := 210.
Definition PUSH12_NATIVE_COST : Z := 210.
Definition PUSH13_NATIVE_COST : Z := 220.
Definition PUSH14_NATIVE_COST : Z := 230.
Definition PUSH15_NATIVE_COST : Z := 240.
Definition PUSH16_NATIVE_COST : Z := 240.
Definition PUSH17_NATIVE_COST : Z := 240.
Definition PUSH18_NATIVE_COST : Z := 240.
Definition PUSH19_NATIVE_COST : Z := 240.
Definition PUSH20_NATIVE_COST : Z := 240.
Definition PUSH21_NATIVE_COST : Z := 250.
Definition PUSH22_NATIVE_COST : Z := 260.
Definition PUSH23_NATIVE_COST : Z := 260.
Definition PUSH24_NATIVE_COST : Z := 260.
Definition PUSH25_NATIVE_COST : Z := 260.
Definition PUSH26_NATIVE_COST : Z := 270.
Definition PUSH27_NATIVE_COST : Z := 280.
Definition PUSH28_NATIVE_COST : Z := 280.
Definition PUSH29_NATIVE_COST : Z := 290.
Definition PUSH30_NATIVE_COST : Z := 290.
Definition PUSH31_NATIVE_COST : Z := 300.
Definition PUSH32_NATIVE_COST : Z := 300.
Definition DUP_NATIVE_COST : Z := 60.
Definition SWAP_NATIVE_COST : Z := 90.
Definition LOG_NATIVE_COST : Z := 50.
Definition STEP_NATIVE_COST : Z := 20.
Definition BYTECODE_PREPROCESSING_BYTE_NATIVE_COST : Z := 6.
Definition PUSH_NATIVE_COSTS : list Z :=
  [PUSH0_NATIVE_COST; PUSH1_NATIVE_COST; PUSH2_NATIVE_COST;
   PUSH3_NATIVE_COST; PUSH4_NATIVE_COST; PUSH5_NATIVE_COST;
   PUSH6_NATIVE_COST; PUSH7_NATIVE_COST; PUSH8_NATIVE_COST;
   PUSH9_NATIVE_COST; PUSH10_NATIVE_COST; PUSH11_NATIVE_COST;
   PUSH12_NATIVE_COST; PUSH13_NATIVE_COST; PUSH14_NATIVE_COST;
   PUSH15_NATIVE_COST; PUSH16_NATIVE_COST; PUSH17_NATIVE_COST;
   PUSH18_NATIVE_COST; PUSH19_NATIVE_COST; PUSH20_NATIVE_COST;
   PUSH21_NATIVE_COST; PUSH22_NATIVE_COST; PUSH23_NATIVE_COST;
   PUSH24_NATIVE_COST; PUSH25_NATIVE_COST; PUSH26_NATIVE_COST;
   PUSH27_NATIVE_COST; PUSH28_NATIVE_COST; PUSH29_NATIVE_COST;
   PUSH30_NATIVE_COST; PUSH31_NATIVE_COST; PUSH32_NATIVE_COST].

(** ** Opcodes *)
Definition OP_STOP : Z := 0x00.
Definition OP_ADD : Z := 0x01.
Definition OP_MUL : Z := 0x02.
Definition OP_SUB : Z := 0x03.
Definition OP_DIV : Z := 0x04.
Definition OP_SDIV : Z := 0x05.
Definition OP_MOD : Z := 0x06.
Definition OP_SMOD : Z := 0x07.
Definition OP_ADDMOD : Z := 0x08.
Definition OP_MULMOD : Z := 0x09.
Definition OP_EXP : Z := 0x0a.
Definition OP_SIGNEXTEND : Z := 0x0b.
Definition OP_LT : Z := 0x10.
Definition OP_GT : Z := 0x11.
Definition OP_SLT : Z := 0x12.
Definition OP_SGT : Z := 0x13.
Definition OP_EQ : Z := 0x14.
Definition OP_ISZERO : Z := 0x15.
Definition OP_AND : Z := 0x16.
Definition OP_OR : Z := 0x17.
Definition OP_XOR : Z := 0x18.
Definition OP_NOT : Z := 0x19.
Definition OP_BYTE : Z := 0x1a.
Definition OP_CALLDATALOAD : Z := 0x35.
Definition OP_CALLDATASIZE : Z := 0x36.
Definition OP_CALLDATACOPY : Z := 0x37.
Definition OP_CODESIZE : Z := 0x38.
Definition OP_CODECOPY : Z := 0x39.
Definition OP_SHL : Z := 0x1b.
Definition OP_SHR : Z := 0x1c.
Definition OP_SAR : Z := 0x1d.
Definition OP_SHA3 : Z := 0x20.
Definition OP_POP : Z := 0x50.
Definition OP_MLOAD : Z := 0x51.
Definition OP_MSTORE : Z := 0x52.
Definition OP_MSTORE8 : Z := 0x53.
Definition OP_JUMP : Z := 0x56.
Definition OP_JUMPI : Z := 0x57.
Definition OP_PC : Z := 0x58.
Definition OP_MSIZE : Z := 0x59.
Definition OP_JUMPDEST : Z := 0x5b.
Definition OP_TLOAD : Z := 0x5c.
Definition OP_TSTORE : Z := 0x5d.
Definition OP_MCOPY : Z := 0x5e.
Definition OP_PUSH0 : Z := 0x5f.
Definition OP_PUSH1 : Z := 0x60.
Definition OP_PUSH2 : Z := 0x61.
Definition OP_PUSH3 : Z := 0x62.
Definition OP_PUSH4 : Z := 0x63.
Definition OP_PUSH5 : Z := 0x64.
Definition OP_PUSH6 : Z := 0x65.
Definition OP_PUSH7 : Z := 0x66.
Definition OP_PUSH8 : Z := 0x67.
Definition OP_PUSH9 : Z := 0x68.
Definition OP_PUSH10 : Z := 0x69.
Definition OP_PUSH11 : Z := 0x6a.
Definition OP_PUSH12 : Z := 0x6b.
Definition OP_PUSH13 : Z := 0x6c.
Definition OP_PUSH14 : Z := 0x6d.
Definition OP_PUSH15 : Z := 0x6e.
Definition OP_PUSH16 : Z := 0x6f.
Definition OP_PUSH17 : Z := 0x70.
Definition OP_PUSH18 : Z := 0x71.
Definition OP_PUSH19 : Z := 0x72.
Definition OP_PUSH20 : Z := 0x73.
Definition OP_PUSH21 : Z := 0x74.
Definition OP_PUSH22 : Z := 0x75.
Definition OP_PUSH23 : Z := 0x76.
Definition OP_PUSH24 : Z := 0x77.
Definition OP_PUSH25 : Z := 0x78.
Definition OP_PUSH26 : Z := 0x79.
Definition OP_PUSH27 : Z := 0x7a.
Definition OP_PUSH28 : Z := 0x7b.
Definition OP_PUSH29 : Z := 0x7c.
Definition OP_PUSH30 : Z := 0x7d.
Definition OP_PUSH31 : Z := 0x7e.
Definition OP_PUSH32 : Z := 0x7f.
Definition OP_DUP1 : Z := 0x80.
Definition OP_DUP2 : Z := 0x81.
Definition OP_DUP3 : Z := 0x82.
Definition OP_DUP4 : Z := 0x83.
Definition OP_DUP5 : Z := 0x84.
Definition OP_DUP6 : Z := 0x85.
Definition OP_DUP7 : Z := 0x86.
Definition OP_DUP8 : Z := 0x87.
Definition OP_DUP9 : Z := 0x88.
Definition OP_DUP10 : Z := 0x89.
Definition OP_DUP11 : Z := 0x8a.
Definition OP_DUP12 : Z := 0x8b.
Definition OP_DUP13 : Z := 0x8c.
Definition OP_DUP14 : Z := 0x8d.
Definition OP_DUP15 : Z := 0x8e.
Definition OP_DUP16 : Z := 0x8f.
Definition OP_SWAP1 : Z := 0x90.
Definition OP_SWAP2 : Z := 0x91.
Definition OP_SWAP3 : Z := 0x92.
Definition OP_SWAP4 : Z := 0x93.
Definition OP_SWAP5 : Z := 0x94.
Definition OP_SWAP6 : Z := 0x95.
Definition OP_SWAP7 : Z := 0x96.
Definition OP_SWAP8 : Z := 0x97.
Definition OP_SWAP9 : Z := 0x98.
Definition OP_SWAP10 : Z := 0x99.
Definition OP_SWAP11 : Z := 0x9a.
Definition OP_SWAP12 : Z := 0x9b.
Definition OP_SWAP13 : Z := 0x9c.
Definition OP_SWAP14 : Z := 0x9d.
Definition OP_SWAP15 : Z := 0x9e.
Definition OP_SWAP16 : Z := 0x9f.
Definition OP_RETURN : Z := 0xf3.
Definition OP_REVERT : Z := 0xfd.
Definition OP_INVALID : Z := 0xfe.
Definition OP_ADDRESS : Z := 0x30.
Definition OP_BALANCE : Z := 0x31.
Definition OP_BASEFEE : Z := 0x48.
Definition OP_ORIGIN : Z := 0x32.
Definition OP_CALLER : Z := 0x33.
Definition OP_CALLVALUE : Z := 0x34.
Definition OP_GASPRICE : Z := 0x3a.
Definition OP_EXTCODESIZE : Z := 0x3b.
Definition OP_EXTCODECOPY : Z := 0x3c.
Definition OP_EXTCODEHASH : Z := 0x3f.
Definition OP_RETURNDATASIZE : Z := 0x3d.
Definition OP_RETURNDATACOPY : Z := 0x3e.
Definition OP_BLOCKHASH : Z := 0x40.
Definition OP_COINBASE : Z := 0x41.
Definition OP_TIMESTAMP : Z := 0x42.
Definition OP_NUMBER : Z := 0x43.
Definition OP_DIFFICULTY : Z := 0x44.
Definition OP_GASLIMIT : Z := 0x45.
Definition OP_SELFBALANCE : Z := 0x47.
Definition OP_SLOAD : Z := 0x54.
Definition OP_SSTORE : Z := 0x55.
Definition OP_GAS : Z := 0x5a.
Definition OP_LOG0 : Z := 0xa0.
Definition OP_LOG1 : Z := 0xa1.
Definition OP_LOG2 : Z := 0xa2.
Definition OP_LOG3 : Z := 0xa3.
Definition OP_LOG4 : Z := 0xa4.
Definition OP_CREATE : Z := 0xf0.
Definition OP_CREATE2 : Z := 0xf5.
Definition OP_CALL : Z := 0xf1.
Definition OP_CALLCODE : Z := 0xf2.
Definition OP_DELEGATECALL : Z := 0xf4.
Definition OP_STATICCALL : Z := 0xfa.
Definition OP_SELFDESTRUCT : Z := 0xff.
Definition OP_CHAINID : Z := 0x46.
Definition OP_BLOBHASH : Z := 0x49.
Definition OP_BLOBBASEFEE : Z := 0x4a.

Definition OPCODE_JUMPMAP : list (option string) :=
  [Some "STOP"; Some "ADD"; Some "MUL"; Some "SUB";
   Some "DIV"; Some "SDIV"; Some "MOD"; Some "SMOD";
   Some "ADDMOD"; Some "MULMOD"; Some "EXP"; Some "SIGNEXTEND";
   None; None; None; None;
   Some "LT"; Some "GT"; Some "SLT"; Some "SGT";
   Some "EQ"; Some "ISZERO"; Some "AND"; Some "OR";
   Some "XOR"; Some "NOT"; Some "BYTE"; Some "SHL";
   Some "SHR"; Some "SAR"; None; None;
   Some "SHA3"; None; None; None;
   None; None; None; None;
   None; None; None; None;
   None; None; None; None;
   Some "ADDRESS"; Some "BALANCE"; Some "ORIGIN"; Some "CALLER";
   Some "CALLVALUE"; Some "CALLDATALOAD"; Some "CALLDATASIZE"; Some "CALLDATACOPY";
   Some "CODESIZE"; Some "CODECOPY"; Some "GASPRICE"; Some "EXTCODESIZE";
   Some "EXTCODECOPY"; Some "RETURNDATASIZE"; Some "RETURNDATACOPY"; Some "EXTCODEHASH";
   Some "BLOCKHASH"; Some "COINBASE"; Some "TIMESTAMP"; Some "NUMBER";
   Some "DIFFICULTY"; Some "GASLIMIT"; Some "CHAINID"; Some "SELFBALANCE";
   Some "BASEFEE"; Some "BLOBHASH"; Some "BLOBBASEFEE"; None;
   None; None; None; None;
   Some "POP"; Some "MLOAD"; Some "MSTORE"; Some "MSTORE8";
   Some "SLOAD"; Some "SSTORE"; Some "JUMP"; Some "JUMPI";
   Some "PC"; Some "MSIZE"; Some "GAS"; Some "JUMPDEST";
   Some "TLOAD"; Some "TSTORE"; Some "MCOPY"; Some "PUSH0";
   Some "PUSH1"; Some "PUSH2"; Some "PUSH3"; Some "PUSH4";
   Some "PUSH5"; Some "PUSH6"; Some "PUSH7"; Some "PUSH8";
   Some "PUSH9"; Some "PUSH10"; Some "PUSH11"; Some "PUSH12";
   Some "PUSH13"; Some "PUSH14"; Some "PUSH15"; Some "PUSH16";
   Some "PUSH17"; Some "PUSH18"; Some "PUSH19"; Some "PUSH20";
   Some "PUSH21"; Some "PUSH22"; Some "PUSH23"; Some "PUSH24";
   Some "PUSH25"; Some "PUSH26"; Some "PUSH27"; Some "PUSH28";
   Some "PUSH29"; Some "PUSH30"; Some "PUSH31"; Some "PUSH32";
   Some "DUP1"; Some "DUP2"; Some "DUP3"; Some "DUP4";
   Some "DUP5"; Some "DUP6"; Some "DUP7"; Some "DUP8";
   Some "DUP9"; Some "DUP10"; Some "DUP11"; Some "DUP12";
   Some "DUP13"; Some "DUP14"; Some "DUP15"; Some "DUP16";
   Some "SWAP1"; Some "SWAP2"; Some "SWAP3"; Some "SWAP4";
   Some "SWAP5"; Some "SWAP6"; Some "SWAP7"; Some "SWAP8";
   Some "SWAP9"; Some "SWAP10"; Some "SWAP11"; Some "SWAP12";
   Some "SWAP13"; Some "SWAP14"; Some "SWAP15"; Some "SWAP16";
   Some "LOG0"; Some "LOG1"; Some "LOG2"; Some "LOG3";
   Some "LOG4"; None; None; None;
   None; None; None; None;
   None; None; None; None;
   None; None; None; None;
   None; None; None; None;
   None; None; None; None;
   None; None; None; None;
   None; None; None; None;
   None; None; None; None;
   None; None; None; None;
   None; None; None; None;
   None; None; None; None;
   None; None; None; None;
   None; None; None; None;
   None; None; None; None;
   None; None; None; None;
   None; None; None; None;
   None; None; None; None;
   None; None; None; None;
   Some "CREATE"; Some "CALL"; Some "CALLCODE"; Some "RETURN";
   Some "DELEGATECALL"; Some "CREATE2"; None; None;
   None; None; Some "STATICCALL"; None;
   None; Some "REVERT"; Some "INVALID"; Some "SELFDESTRUCT"]%string.

Definition try_from_u8 (opcode : Z) : option Z :=
  match OPCODE_JUMPMAP !! Z.to_nat opcode with
  | Some (Some _) => Some opcode
  | _ => None
  end.

(** ** Limits *)
Definition MAX_CODE_SIZE : Z := 0x6000.
Definition MAX_INITCODE_SIZE : Z := MAX_CODE_SIZE * 2.
Definition ERGS_PER_GAS : Z := 256.
Definition BYTECODE_ALIGNMENT : Z := 8.
Definition DEFAULT_CODE_VERSION_BYTE : Z := 0.
Definition ARTIFACTS_CACHING_CODE_VERSION_BYTE : Z := 1.
Definition MAX_EVENT_TOPICS : nat := 4.
