(* ===== verification/Gas.v ===== *)
(** * Gas accounting

    Models [evm_interpreter/src/gas.rs]: EVM gas is [ERGS_PER_GAS] ergs of the
    system's resources, every charge takes gas and native together, and memory
    expansion is paid by the difference of its total cost.  Shows what a charge
    leaves and reports, that memory costs telescope to the EVM's quadratic
    formula without ever wrapping around, and what the 63/64 rule and the copy
    costs compute. *)

From S2P Require Import Prelude Resources SystemInterface EvmConstants.

Record Gas : Type := mkGas {
  resources : Res;
  gas_paid_for_heap_growth : Z
}.

Definition Gas_new : Gas := mkGas res_empty 0.

Abbreviation GasM := (M Gas ExitCode).

Definition set_resources (r : Res) (g : Gas) : Gas := mkGas r (gas_paid_for_heap_growth g).

(** [self.resources.op()?]: a system error becomes an exit code. *)
Definition on_resources {A} (m : M Res SystemError A) : GasM A :=
  zoom resources set_resources (map_err exit_of_system m).

Definition gas_native (self : Gas) : Z := as_u64 (native (resources self)).
Definition gas_left (self : Gas) : Z := ergs_0 (ergs (resources self)) / ERGS_PER_GAS.

Definition gas_take_resources : GasM Res := zoom resources set_resources take_resources.
Definition reclaim_resources (r : Res) : GasM unit := on_resources (reclaim r).
Definition consume_all_gas : GasM unit :=
  modify (λ self, set_resources (exhaust_ergs (resources self)) self).

Definition spend_gas (to_spend : Z) : GasM unit :=
  match checked_mul 64 to_spend ERGS_PER_GAS with
  | None => throw (EvmErr OutOfGas)
  | Some ergs_cost => on_resources (charge (from_ergs (mkErgs ergs_cost)))
  end.

Definition spend_gas_and_native (gas native : Z) : GasM unit :=
  match checked_mul 64 gas ERGS_PER_GAS with
  | None => throw (EvmErr OutOfGas)
  | Some ergs_cost =>
      on_resources (charge (from_ergs_and_native (mkErgs ergs_cost) (from_computational native)))
  end.

Definition pay_for_memory_growth `{Usize} (current_msize new_msize : Z) : GasM unit :=
  let net_byte_increase := wrap usize_bits (new_msize - current_msize) in
  let new_heap_size_words := new_msize / 32 in
  let end_cost :=
    saturating_add 64 (saturating_mul 64 GAS_MEMORY new_heap_size_words)
      (saturating_mul 64 new_heap_size_words new_heap_size_words / 512) in
  paid ← gets gas_paid_for_heap_growth;
  let net_cost_gas := wrap 64 (end_cost - paid) in
  let net_cost_native :=
    saturating_add 64 HEAP_EXPANSION_BASE_NATIVE_COST
      (saturating_mul 64 HEAP_EXPANSION_PER_BYTE_NATIVE_COST net_byte_increase) in
  spend_gas_and_native net_cost_gas net_cost_native ;;
  modify (λ self, mkGas (resources self) end_cost).

Definition copy_cost {S} (len : Z) : M S ExitCode (Z * Z) :=
  lift_opt (EvmErr OutOfGas) (
    padded ← checked_next_multiple_of 64 len 32;
    let num_words := padded / 32 in
    gas ← checked_mul 64 GAS_COPY num_words;
    bytes ← checked_mul 64 COPY_BYTE_NATIVE_COST len;
    native ← checked_add 64 bytes COPY_BASE_NATIVE_COST;
    Some (gas, native)).

Definition copy_cost_plus_very_low_gas {S} (len : Z) : M S ExitCode (Z * Z) :=
  '(gas_cost, native_cost) ← copy_cost len;
  match checked_add 64 gas_cost GAS_VERYLOW with
  | Some gas_cost => mret (gas_cost, native_cost)
  | None => throw (EvmErr OutOfGas)
  end.

Definition apply_63_64_rule (ergs : Ergs) : Ergs :=
  let gas := ergs_0 ergs / ERGS_PER_GAS in
  mkErgs (ergs_0 ergs - (gas / 64) * ERGS_PER_GAS).

(** ** Charging *)

Definition gas_wf (g : Gas) : Prop := res_wf (resources g).

(** Nothing is handed out: what a computation leaves is no more than it had. *)
Definition res_le_both (r' r : Res) : Prop := e_left r' ≤ e_left r ∧ n_left r' ≤ n_left r.

#[global] Instance res_le_both_preorder : PreOrder res_le_both.
Proof. split; [intros r; split; lia|intros r1 r2 r3 [] []; split; lia]. Qed.

Lemma res_eta (r : Res) : r = mk_res (e_left r) (n_left r).
Proof. by destruct r as [[e] [n]]. Qed.

Lemma charge_run (r c : Res) :
  res_wf r → res_wf c →
  charge c r
  = (if n_left r <? n_left c then Err out_of_native_resources
     else if e_left r <? e_left c then Err out_of_ergs_error else Val tt,
     mk_res (Z.max 0 (e_left r - e_left c)) (Z.max 0 (n_left r - n_left c))).
Proof.
  intros Hr Hc. rewrite (res_eta r), (res_eta c) at 1. apply charge_cases; by rewrite <- res_eta.
Qed.

(** A charge of gas and native, on every branch: native running out ends the
    transaction, gas running out only the frame. *)
Lemma spend_gas_and_native_run g n gas :
  gas_wf g → 0 ≤ gas → is_u64 n →
  spend_gas_and_native gas n g
  = (if 2 ^ 64 <=? gas * 256 then Err (EvmErr OutOfGas)
     else if n_left (resources g) <? n
          then Err (FatalError (SLeafRuntime (FatalRuntime OutOfNativeResources)))
     else if e_left (resources g) <? gas * 256 then Err (EvmErr OutOfGas)
     else Val tt,
     if 2 ^ 64 <=? gas * 256 then g
     else mkGas (mk_res (Z.max 0 (e_left (resources g) - gas * 256))
                        (Z.max 0 (n_left (resources g) - n)))
            (gas_paid_for_heap_growth g)).
Proof.
  intros Hg Hgas Hn. unfold spend_gas_and_native, checked_mul, checked, ERGS_PER_GAS.
  destruct (Z.leb_spec (2 ^ 64) (gas * 256)) as [Hbig|Hsmall].
  - destruct (Z.ltb_spec (gas * 256) (2 ^ 64)); [lia|]. by rewrite andb_false_r.
  - destruct (Z.ltb_spec (gas * 256) (2 ^ 64)); [|lia].
    destruct (Z.leb_spec 0 (gas * 256)); [|lia]. cbn [andb].
    unfold on_resources, zoom, map_err.
    rewrite charge_run; [|done|split; [split; cbn; lia|done]].
    change (n_left (from_ergs_and_native (mkErgs (gas * 256)) (from_computational n))) with n.
    change (e_left (from_ergs_and_native (mkErgs (gas * 256)) (from_computational n)))
      with (gas * 256).
    destruct (n_left (resources g) <? n); [done|].
    by destruct (e_left (resources g) <? gas * 256).
Qed.

Lemma res_wf_max e n a b :
  res_wf (mk_res e n) → 0 ≤ a → 0 ≤ b → res_wf (mk_res (Z.max 0 (e - a)) (Z.max 0 (n - b))).
Proof. intros [He Hn] Ha Hb. unfold res_wf, in_width in *. cbn in *. lia. Qed.

Definition frugal (m : Gas → Gas) : Prop := ∀ g, gas_wf g →
  gas_wf (m g) ∧ res_le_both (resources (m g)) (resources g).

Lemma spend_frugal gas n :
  0 ≤ gas → is_u64 n → frugal (λ g, (spend_gas_and_native gas n g).2).
Proof.
  intros Hgas Hn g Hg. rewrite spend_gas_and_native_run by done. cbn [snd].
  destruct (2 ^ 64 <=? gas * 256); [by split|]. unfold gas_wf in *.
  rewrite (res_eta (resources g)) in Hg |- *. cbn [resources]. split.
  - apply res_wf_max; [done|lia|apply Hn].
  - unfold res_le_both, mk_res, e_left, n_left. cbn. destruct Hg as [He Hn'].
    unfold e_left, n_left, in_width in *. cbn in *. lia.
Qed.

(** ** Memory expansion *)

(** The EVM's total price of [words] words of memory. *)
Definition memory_gas (words : Z) : Z := 3 * words + words * words / 512.

Lemma memory_gas_mono a b : 0 ≤ a ≤ b → memory_gas a ≤ memory_gas b.
Proof.
  intros Hab. unfold memory_gas.
  pose proof (Z.div_le_mono (a * a) (b * b) 512 ltac:(lia) ltac:(nia)). lia.
Qed.

Lemma memory_gas_range w : 0 ≤ w < 2 ^ 27 → 0 ≤ memory_gas w < 2 ^ 46.
Proof.
  intros Hw. unfold memory_gas.
  pose proof (Z.div_pos (w * w) 512 ltac:(nia) ltac:(lia)).
  pose proof (Z.div_le_upper_bound (w * w) 512 (2 ^ 45) ltac:(lia) ltac:(nia)). lia.
Qed.

(** Growing from [cur] to [new] bytes, within the 32-bit limit the interpreter
    keeps to: no saturation and no wrap-around takes place, and the gas charged is
    the difference of the totals. *)
Lemma pay_for_memory_growth_run `{Usize} cur new g :
  gas_paid_for_heap_growth g = memory_gas (cur / 32) → 0 ≤ cur ≤ new → new < 2 ^ 32 →
  pay_for_memory_growth cur new g =
  (spend_gas_and_native (memory_gas (new / 32) - memory_gas (cur / 32)) (35 + (new - cur)) ;;
   modify (λ self, mkGas (resources self) (memory_gas (new / 32)))) g.
Proof.
  intros Hpaid Hcur Hnew. unfold pay_for_memory_growth.
  assert (0 ≤ new / 32 < 2 ^ 27) as Hw.
  { split; [apply Z.div_pos; lia|apply Z.div_lt_upper_bound; lia]. }
  assert (0 ≤ cur / 32 ≤ new / 32) as Hc.
  { split; [apply Z.div_pos; lia|apply Z.div_le_mono; lia]. }
  rewrite (wrap_small usize_bits).
  2:{ unfold in_width. destruct usize_cases as [-> | ->]; lia. }
  pose proof (memory_gas_range _ Hw) as Hr. pose proof (memory_gas_mono _ _ Hc) as Hm.
  pose proof (memory_gas_range (cur / 32) ltac:(lia)) as Hr0.
  unfold saturating_add, saturating_mul, umax, GAS_MEMORY, HEAP_EXPANSION_BASE_NATIVE_COST,
    HEAP_EXPANSION_PER_BYTE_NATIVE_COST.
  rewrite (Z.min_r _ (3 * (new / 32))) by lia.
  rewrite (Z.min_r _ (new / 32 * (new / 32))) by nia.
  fold (memory_gas (new / 32)). rewrite (Z.min_r _ (memory_gas (new / 32))) by lia.
  rewrite (Z.min_r _ (1 * (new - cur))), (Z.min_r _ (35 + 1 * (new - cur))) by lia.
  erewrite bind_val by done. rewrite Hpaid, wrap_small by (unfold in_width; lia).
  by rewrite Z.mul_1_l.
Qed.

(** ** Copies and the 63/64 rule *)

Lemma copy_cost_run {S} (s : S) len :
  0 ≤ len < 2 ^ 64 - 128 →
  copy_cost len s = (Val (3 * ((len + 31) / 32), len + 80), s).
Proof.
  intros Hlen. unfold copy_cost, checked_next_multiple_of, checked_mul, checked_add.
  assert (next_multiple_of len 32 = 32 * ((len + 31) / 32)) as Hn.
  { unfold next_multiple_of. pose proof (Z.div_mod len 32 ltac:(lia)) as Hd.
    pose proof (Z.mod_pos_bound len 32 ltac:(lia)).
    pose proof (Z.div_mod (len + 31) 32 ltac:(lia)).
    pose proof (Z.mod_pos_bound (len + 31) 32 ltac:(lia)).
    destruct (Z.eqb_spec (len mod 32) 0); lia. }
  assert (0 ≤ (len + 31) / 32 ≤ len + 31) as Hq.
  { split; [apply Z.div_pos; lia|apply Z.div_le_upper_bound; lia]. }
  pose proof (Z.div_mod (len + 31) 32 ltac:(lia)).
  pose proof (Z.mod_pos_bound (len + 31) 32 ltac:(lia)).
  rewrite Hn, (checked_in 64 (32 * ((len + 31) / 32))) by (unfold in_width; lia). cbn [mbind option_bind].
  rewrite (Z.mul_comm 32), Z.div_mul by lia. unfold GAS_COPY.
  rewrite (checked_in 64 (3 * ((len + 31) / 32))) by (unfold in_width; lia). cbn [mbind option_bind].
  unfold COPY_BYTE_NATIVE_COST, COPY_BASE_NATIVE_COST.
  rewrite checked_in by (unfold in_width; lia). cbn [mbind option_bind].
  rewrite checked_in by (unfold in_width; lia). cbn [mbind option_bind lift_opt].
  by rewrite Z.mul_1_l.
Qed.

(** All but one 64th of the gas, and never more ergs than there are. *)
Lemma apply_63_64_rule_spec e :
  is_u64 (ergs_0 e) →
  let g := ergs_0 e / 256 in
  ergs_0 (apply_63_64_rule e) / 256 = g - g / 64
  ∧ 0 ≤ ergs_0 (apply_63_64_rule e) ≤ ergs_0 e.
Proof.
  intros He g. unfold apply_63_64_rule, ERGS_PER_GAS. cbn [ergs_0]. fold g.
  unfold in_width in He.
  assert (0 ≤ g) by (apply Z.div_pos; lia). pose proof (Z.div_pos g 64).
  pose proof (Z.mul_div_le (ergs_0 e) 256 ltac:(lia)) as Hle. fold g in Hle.
  pose proof (Z.mul_div_le g 64 ltac:(lia)). split; [|lia].
  replace (ergs_0 e - g / 64 * 256) with (ergs_0 e + - (g / 64) * 256) by lia.
  rewrite Z.div_add by lia. fold g. lia.
Qed.
