(* ===== verification/Bytecode.v ===== *)
(** * Jump destinations

    Models the bytecode preprocessing of [evm_interpreter/src/lib.rs]: the bitmap
    of jump destinations, its computation from the code, and its serialised form
    that is stored with deployed code and reinterpreted in place when the code is
    run.  The bitmap is an array of machine words, so everything is done for the
    32-bit and the 64-bit target at once. *)

From stdpp Require Import strings.
From S2P Require Import Prelude Resources SystemInterface EvmConstants.

Section Bytecode.
Context {UZ : Usize}.

(** [Either<BitMap, BitMapOwned>]: borrowed from the deployed code, or owned. *)
Inductive JumpdestBitmap : Type :=
| Left (words : list Z)
| Right (words : list Z).

Record BytecodePreprocessingData : Type := mkPreprocessing {
  original_bytecode_len : Z;
  jumpdest_bitmap : JumpdestBitmap
}.

Definition preprocessing_empty : BytecodePreprocessingData := mkPreprocessing 0 (Left []).

Definition allocate_for_bit_capacity (capacity : Z) : list Z :=
  let u64_capacity := next_multiple_of capacity 64 / 64 in
  let word_capacity := u64_capacity * (64 / usize_bits) in
  repeat 0 (Z.to_nat word_capacity).

(** The unchecked accesses: [None] is out of bounds. *)
Definition set_bit_on_unchecked (pos : Z) (inner : list Z) : option (list Z) :=
  let word_idx := Z.to_nat (pos / usize_bits) in
  let bit_idx := pos mod usize_bits in
  dst ← inner !! word_idx;
  Some (<[word_idx := Z.lor dst (Z.shiftl 1 bit_idx)]> inner).

Definition get_bit_unchecked (pos : Z) (inner : list Z) : option bool :=
  let word_idx := Z.to_nat (pos / usize_bits) in
  let bit_idx := pos mod usize_bits in
  w ← inner !! word_idx;
  Some (negb (Z.land w (Z.shiftl 1 bit_idx) =? 0)).

Definition as_words (b : JumpdestBitmap) : list Z :=
  match b with Left words => words | Right words => words end.

Definition is_valid_jumpdest (off : Z) (self : BytecodePreprocessingData) : option bool :=
  if off <? original_bytecode_len self
  then get_bit_unchecked off (as_words (jumpdest_bitmap self))
  else Some false.

(** The loop of [analyze]; every iteration advances, so the length of the code is
    enough fuel. *)
Fixpoint analyze_loop (fuel : nat) (code : list Z) (i : Z) (jumps : list Z)
    : option (list Z) :=
  if i <? Z.of_nat (length code) then
    match fuel with
    | O => None
    | S fuel' =>
        op ← code !! Z.to_nat i;
        if op =? OP_JUMPDEST then
          jumps ← set_bit_on_unchecked i jumps;
          analyze_loop fuel' code (i + 1) jumps
        else if (OP_PUSH1 <=? op) && (op <=? OP_PUSH32) then
          analyze_loop fuel' code (i + (1 + (op - OP_PUSH1 + 1))) jumps
        else analyze_loop fuel' code (i + 1) jumps
    end
  else Some jumps.

Definition analyze (code : list Z) : option (list Z) :=
  analyze_loop (length code) code 0
    (allocate_for_bit_capacity (Z.of_nat (length code))).

Definition create_artifacts_inner (deployed_code : list Z) : option BytecodePreprocessingData :=
  bitmap ← analyze deployed_code;
  Some (mkPreprocessing (Z.of_nat (length deployed_code)) (Right bitmap)).

Definition create_artifacts (deployed_code : list Z) :
    M Res SystemError BytecodePreprocessingData :=
  let native_cost :=
    from_computational (saturating_mul 64 BYTECODE_PREPROCESSING_BYTE_NATIVE_COST
                          (Z.of_nat (length deployed_code))) in
  map_err (λ e, match e with
                | LeafDefect _ => e
                | LeafRuntime OutOfErgs =>
                    LeafDefect (internal_error "OOE when charging only native")
                | LeafRuntime (FatalRuntime _) => e
                end)
    (charge (from_native native_cost)) ;;
  expect (create_artifacts_inner deployed_code).

(** The bitmap as bytes and back: a reinterpretation of memory on a
    little-endian machine. *)
Definition word_bytes : nat := Z.to_nat (usize_bits / 8).

Definition as_slice (self : BytecodePreprocessingData) : list Z :=
  mjoin (le_bytes word_bytes <$> as_words (jumpdest_bitmap self)).

Fixpoint words_of_bytes (n : nat) (bytes : list Z) : list Z :=
  match n with
  | O => []
  | S n' => of_le_bytes (take word_bytes bytes) :: words_of_bytes n' (drop word_bytes bytes)
  end.

Definition from_raw (bytes : list Z) : option (list Z) :=
  if Z.of_nat (length bytes) mod BYTECODE_ALIGNMENT =? 0
  then Some (words_of_bytes (length bytes / word_bytes) bytes)
  else None.

Definition parse_bytecode (bytecode : list Z) (deployed_len artifacts_len : Z) :
    outcome InternalError (list Z * BytecodePreprocessingData) :=
  match l ← checked_sub usize_bits (Z.of_nat (length bytecode)) deployed_len;
        checked_sub usize_bits l artifacts_len with
  | None => Err (internal_error "Underflow when computing bytecode padding")
  | Some padding =>
      let code := take (Z.to_nat deployed_len) bytecode in
      let rest := drop (Z.to_nat deployed_len) bytecode in
      let bitmap_slice := drop (Z.to_nat padding) rest in
      match from_raw bitmap_slice with
      | None => Fault
      | Some bitmap => Val (code, mkPreprocessing deployed_len (Left bitmap))
      end
  end.
End Bytecode.

(** ** Specification *)

(** Positions where an instruction starts: data of a push is skipped. *)
Definition instr_len (op : Z) : Z :=
  if (OP_PUSH1 <=? op) && (op <=? OP_PUSH32) then 1 + (op - OP_PUSH1 + 1) else 1.

Inductive starts (code : list Z) : Z → Prop :=
| starts_zero : starts code 0
| starts_next i op : starts code i → code !! Z.to_nat i = Some op →
    starts code (i + instr_len op).

Definition valid_jumpdest (code : list Z) (pos : Z) : Prop :=
  starts code pos ∧ code !! Z.to_nat pos = Some OP_JUMPDEST.

(** ** The bitmap as one number *)
Section Bits.
Context {UZ : Usize}.

(** The number whose bits the words hold. *)
Fixpoint num (words : list Z) : Z :=
  match words with
  | [] => 0
  | w :: words' => w + 2 ^ usize_bits * num words'
  end.

Lemma usize_ge_32 : 32 ≤ usize_bits.
Proof. destruct usize_cases; lia. Qed.

Lemma testbit_split b w n i :
  0 ≤ b → 0 ≤ w < 2 ^ b → 0 ≤ i →
  Z.testbit (w + 2 ^ b * n) i = if i <? b then Z.testbit w i else Z.testbit n (i - b).
Proof.
  intros Hb Hw Hi. rewrite !Z.testbit_odd, !Z.shiftr_div_pow2 by lia.
  pose proof (Z.pow_pos_nonneg 2 b). pose proof (Z.pow_pos_nonneg 2 i).
  destruct (Z.ltb_spec i b) as [Hlt|Hge].
  - replace b with (i + (b - i)) at 1 by lia.
    rewrite Z.pow_add_r, <- Z.mul_assoc, (Z.mul_comm (2 ^ i)), Z.div_add by lia.
    replace (b - i) with (1 + (b - i - 1)) by lia.
    rewrite Z.pow_add_r, Z.odd_add, <- Z.mul_assoc, Z.odd_mul by lia. cbn.
    by rewrite xorb_false_r.
  - rewrite (Z.shiftr_div_pow2 n) by lia. replace i with (b + (i - b)) at 1 by lia.
    rewrite Z.pow_add_r, <- Z.div_div by lia. f_equal. f_equal.
    rewrite (Z.mul_comm (2 ^ b)), Z.div_add, (Z.div_small w) by lia. lia.
Qed.

Lemma num_nonneg words : Forall (in_width usize_bits) words → 0 ≤ num words.
Proof.
  induction 1 as [|w words Hw _ IH]; cbn; [lia|]. unfold in_width in Hw.
  pose proof (Z.pow_pos_nonneg 2 usize_bits). pose proof usize_ge_32. nia.
Qed.

Lemma land_bit w b :
  0 ≤ b → negb (Z.land w (Z.shiftl 1 b) =? 0) = Z.testbit w b.
Proof.
  intros Hb. assert (∀ i, Z.testbit (Z.shiftl 1 b) i = (b =? i)) as Hs.
  { intros i. rewrite Z.shiftl_1_l. by apply Z.pow2_bits_eqb. }
  destruct (Z.testbit w b) eqn:Ht.
  - destruct (Z.eqb_spec (Z.land w (Z.shiftl 1 b)) 0) as [E|]; [|done].
    apply (f_equal (λ z, Z.testbit z b)) in E.
    by rewrite Z.land_spec, Hs, Ht, Z.eqb_refl, Z.bits_0 in E.
  - apply negb_false_iff, Z.eqb_eq. apply Z.bits_inj'. intros i Hi.
    rewrite Z.land_spec, Hs, Z.bits_0. destruct (Z.eqb_spec b i) as [<-|]; [by rewrite Ht|].
    apply andb_false_r.
Qed.

(** Position arithmetic on the words. *)
Lemma pos_split pos (w : Z) words :
  usize_bits ≤ pos →
  (w :: words) !! Z.to_nat (pos / usize_bits) = words !! Z.to_nat ((pos - usize_bits) / usize_bits)
  ∧ pos mod usize_bits = (pos - usize_bits) mod usize_bits.
Proof.
  intros Hp. pose proof usize_ge_32 as Hu. split.
  - replace (pos / usize_bits) with (1 + (pos - usize_bits) / usize_bits).
    2:{ replace pos with (pos - usize_bits + 1 * usize_bits) at 2 by lia.
        rewrite Z.div_add by lia. lia. }
    assert (0 ≤ (pos - usize_bits) / usize_bits) by (apply Z.div_pos; lia).
    rewrite Z2Nat.inj_add by lia. done.
  - replace pos with (pos - usize_bits + 1 * usize_bits) at 1 by lia. by rewrite Z.mod_add by lia.
Qed.

(** The bit at [pos] of the array is bit [pos] of the number. *)
Lemma get_bit_num words pos :
  Forall (in_width usize_bits) words → 0 ≤ pos < usize_bits * Z.of_nat (length words) →
  get_bit_unchecked pos words = Some (Z.testbit (num words) pos).
Proof.
  intros Hw. pose proof usize_ge_32 as Hu. revert pos.
  unfold get_bit_unchecked. induction Hw as [|w words Hw _ IH]; intros pos Hpos; [cbn in Hpos; lia|].
  cbn [num]. rewrite testbit_split by (done || lia). destruct (Z.ltb_spec pos usize_bits).
  - rewrite Z.div_small, Z.mod_small by lia.
    change ((w :: words) !! Z.to_nat 0) with (Some w). cbn [mbind option_bind]. f_equal.
    apply land_bit. lia.
  - destruct (pos_split pos w words) as [-> ->]; [done|]. apply IH. cbn [length] in Hpos. lia.
Qed.

Lemma lor_bit_width w b :
  in_width usize_bits w → 0 ≤ b < usize_bits →
  in_width usize_bits (Z.lor w (Z.shiftl 1 b)).
Proof.
  intros [Hw0 Hw] Hb. pose proof usize_ge_32.
  assert (0 ≤ Z.lor w (Z.shiftl 1 b)) as Hn.
  { apply Z.lor_nonneg. split; [done|]. apply Z.shiftl_nonneg. lia. }
  split; [done|]. apply Z.bounded_iff_bits_nonneg; [lia|done|]. intros l Hl.
  rewrite Z.lor_spec, Z.shiftl_1_l, Z.pow2_bits_eqb by lia.
  rewrite (proj2 (Z.eqb_neq b l)) by lia.
  assert (0 ≤ usize_bits) as Hu by lia.
  by rewrite (proj1 (Z.bounded_iff_bits_nonneg usize_bits w Hu Hw0) Hw l Hl).
Qed.

Lemma set_bit_num words pos :
  Forall (in_width usize_bits) words → 0 ≤ pos < usize_bits * Z.of_nat (length words) →
  ∃ words', set_bit_on_unchecked pos words = Some words'
    ∧ Forall (in_width usize_bits) words' ∧ length words' = length words
    ∧ ∀ i, 0 ≤ i → Z.testbit (num words') i = (pos =? i) || Z.testbit (num words) i.
Proof.
  intros Hw. pose proof usize_ge_32 as Hu. revert pos.
  unfold set_bit_on_unchecked. induction Hw as [|w words Hw Hws IH]; intros pos Hpos;
    [cbn in Hpos; lia|].
  destruct (Z.ltb_spec pos usize_bits) as [Hlt|Hge].
  - rewrite Z.div_small, Z.mod_small by lia.
    change ((w :: words) !! Z.to_nat 0) with (Some w). cbn [mbind option_bind].
    change (Z.to_nat 0) with 0%nat. eexists. split; [done|]. cbn [insert list_insert].
    pose proof (lor_bit_width w pos Hw ltac:(lia)) as Hlor.
    split; [by constructor|]. split; [done|]. intros i Hi. cbn [num].
    rewrite !testbit_split by (done || lia). destruct (Z.ltb_spec i usize_bits).
    + rewrite Z.lor_spec, Z.shiftl_1_l, Z.pow2_bits_eqb by lia. apply orb_comm.
    + by rewrite (proj2 (Z.eqb_neq pos i)) by lia.
  - destruct (IH (pos - usize_bits)) as (words' & Hset & Hw' & Hlen & Hbits).
    { cbn [length] in Hpos. lia. }
    destruct (pos_split pos w words Hge) as [Hlk Hmod]. rewrite Hlk, Hmod.
    destruct (words !! Z.to_nat ((pos - usize_bits) / usize_bits)) as [x|]; [|done].
    cbn in Hset |- *. injection Hset as Hset. eexists. split; [done|].
    assert (Z.to_nat (pos / usize_bits) = S (Z.to_nat ((pos - usize_bits) / usize_bits))) as ->.
    { replace pos with (pos - usize_bits + 1 * usize_bits) at 1 by lia.
      rewrite Z.div_add by lia.
      assert (0 ≤ (pos - usize_bits) / usize_bits) by (apply Z.div_pos; lia). lia. }
    match goal with |- context [<[S ?n := ?v]> (w :: words)] =>
      change (<[S n := v]> (w :: words)) with (w :: <[n := v]> words) end.
    rewrite Hset. split; [by constructor|]. split; [cbn; by rewrite Hlen|].
    intros i Hi. cbn [num]. rewrite !testbit_split by (done || lia).
    destruct (Z.ltb_spec i usize_bits).
    + by rewrite (proj2 (Z.eqb_neq pos i)) by lia.
    + rewrite Hbits by lia. f_equal. destruct (Z.eqb_spec (pos - usize_bits) (i - usize_bits)),
        (Z.eqb_spec pos i); try done; lia.
Qed.

(** ** The analysis *)

Lemma allocate_ok capacity :
  0 ≤ capacity →
  Forall (in_width usize_bits) (allocate_for_bit_capacity capacity)
  ∧ num (allocate_for_bit_capacity capacity) = 0
  ∧ usize_bits * Z.of_nat (length (allocate_for_bit_capacity capacity))
    = next_multiple_of capacity 64.
Proof.
  intros Hc. unfold allocate_for_bit_capacity. set (n := Z.to_nat _).
  pose proof (next_multiple_of_spec capacity 64 ltac:(lia)) as [Hm Hmod]. split_and!.
  - clearbody n. pose proof usize_ge_32. induction n as [|n IH]; constructor; [|done].
    split; [lia|apply Z.pow_pos_nonneg; lia].
  - clearbody n. induction n as [|n IH]; cbn; [done|]. rewrite IH. lia.
  - rewrite repeat_length. subst n. pose proof (Z.div_mod (next_multiple_of capacity 64) 64).
    pose proof (Z.div_pos (next_multiple_of capacity 64) 64).
    destruct usize_cases as [-> | ->]; [change (64 / 32) with 2|change (64 / 64) with 1]; lia.
Qed.
(** [reach code i p]: execution order from [i] comes to [p]. *)
Inductive reach (code : list Z) : Z → Z → Prop :=
| reach_here i : reach code i i
| reach_step i op p : code !! Z.to_nat i = Some op → reach code (i + instr_len op) p →
    reach code i p.

Lemma reach_trans code i j p : reach code i j → reach code j p → reach code i p.
Proof. induction 1; [done|]. intros. eapply reach_step; eauto. Qed.

Lemma starts_reach code p : starts code p ↔ reach code 0 p.
Proof.
  split.
  - induction 1 as [|i op Hs IH Hop]; [constructor|].
    eapply reach_trans; [exact IH|]. eapply reach_step; [done|constructor].
  - intros Hr. assert (∀ i, reach code i p → starts code i → starts code p) as Hgen.
    { clear. induction 1 as [|i op p Hop _ IH]; [done|]. intros Hs. by apply IH, starts_next. }
    eapply Hgen; [done|constructor].
Qed.

Lemma instr_len_pos op : 1 ≤ instr_len op.
Proof.
  unfold instr_len. destruct (Z.leb_spec OP_PUSH1 op), (Z.leb_spec op OP_PUSH32); cbn; lia.
Qed.

Lemma reach_ge code i p : reach code i p → i ≤ p.
Proof. induction 1 as [|i op p _ _ IH]; [lia|]. pose proof (instr_len_pos op). lia. Qed.

Lemma reach_inv code i p :
  reach code i p ↔
  p = i ∨ ∃ op, code !! Z.to_nat i = Some op ∧ reach code (i + instr_len op) p.
Proof.
  split.
  - intros []; [by left|right; eauto].
  - intros [->|(op & Hop & Hr)]; [constructor|by eapply reach_step].
Qed.

Lemma reach_end code i p :
  Z.of_nat (length code) ≤ i → reach code i p → code !! Z.to_nat p = Some OP_JUMPDEST → False.
Proof.
  intros Hi Hr%reach_ge Hp. apply lookup_lt_Some in Hp. lia.
Qed.

(** The loop adds to the bitmap exactly the destinations that execution order
    reaches from where it stands. *)
Lemma analyze_loop_spec code fuel i jumps :
  0 ≤ i → (Z.to_nat (Z.of_nat (length code) - i) ≤ fuel)%nat →
  Forall (in_width usize_bits) jumps →
  Z.of_nat (length code) ≤ usize_bits * Z.of_nat (length jumps) →
  ∃ jumps', analyze_loop fuel code i jumps = Some jumps'
    ∧ Forall (in_width usize_bits) jumps' ∧ length jumps' = length jumps
    ∧ ∀ p, 0 ≤ p → Z.testbit (num jumps') p = true ↔
        Z.testbit (num jumps) p = true
        ∨ (reach code i p ∧ code !! Z.to_nat p = Some OP_JUMPDEST).
Proof.
  revert i jumps. induction fuel as [|fuel IH]; intros i jumps Hi Hf Hw Hlen; cbn [analyze_loop];
    destruct (Z.ltb_spec i (Z.of_nat (length code))) as [Hlt|Hge]; try lia.
  1, 3: exists jumps; split_and!; [done..|]; intros p Hp; split; [by left|];
    intros [?|[Hr Hj]]; [done|]; exfalso; by eapply (reach_end code i p).
  destruct (lookup_lt_is_Some_2 code (Z.to_nat i)) as [op Hop]; [lia|].
  rewrite Hop. cbn [mbind option_bind]. pose proof (instr_len_pos op) as Hil.
  assert (∀ jumps1, Forall (in_width usize_bits) jumps1 → length jumps1 = length jumps →
    ∃ jumps', analyze_loop fuel code (i + instr_len op) jumps1 = Some jumps'
      ∧ Forall (in_width usize_bits) jumps' ∧ length jumps' = length jumps
      ∧ ∀ p, 0 ≤ p → Z.testbit (num jumps') p = true ↔
          Z.testbit (num jumps1) p = true
          ∨ (reach code (i + instr_len op) p ∧ code !! Z.to_nat p = Some OP_JUMPDEST)) as Hrec.
  { intros jumps1 Hw1 Hl1. rewrite <- Hl1. apply IH; [lia|lia|done|by rewrite Hl1]. }
  clear IH. unfold instr_len in Hrec at 1.
  destruct (Z.eqb_spec op OP_JUMPDEST) as [->|Hne].
  - destruct (set_bit_num jumps i Hw ltac:(lia)) as (jumps1 & -> & Hw1 & Hl1 & Hb1).
    cbn [mbind option_bind].
    destruct (Hrec jumps1 Hw1 Hl1) as (jumps' & Hrun & Hw' & Hl' & Hb'). exists jumps'.
    split_and!; [done..|]. intros p Hp. rewrite Hb', Hb1, (reach_inv code i) by done.
    rewrite orb_true_iff, Z.eqb_eq. naive_solver.
  - destruct (Hrec jumps Hw eq_refl) as (jumps' & Hrun & Hw' & Hl' & Hb'). exists jumps'.
    split_and!; [by destruct (_ && _)|done..|]. intros p Hp.
    rewrite Hb', (reach_inv code i) by done. naive_solver.
Qed.

Lemma create_artifacts_spec code :
  ∃ d, create_artifacts_inner code = Some d
    ∧ original_bytecode_len d = Z.of_nat (length code)
    ∧ Forall (in_width usize_bits) (as_words (jumpdest_bitmap d))
    ∧ usize_bits * Z.of_nat (length (as_words (jumpdest_bitmap d)))
      = next_multiple_of (Z.of_nat (length code)) 64
    ∧ ∀ p, 0 ≤ p → Z.testbit (num (as_words (jumpdest_bitmap d))) p = true ↔ valid_jumpdest code p.
Proof.
  destruct (allocate_ok (Z.of_nat (length code))) as (Hw & Hn & Hlen); [lia|].
  pose proof (next_multiple_of_spec (Z.of_nat (length code)) 64 ltac:(lia)) as [Hm _].
  destruct (analyze_loop_spec code (length code) 0
              (allocate_for_bit_capacity (Z.of_nat (length code))))
    as (jumps & Hrun & Hw' & Hl' & Hb); [lia|lia|done|lia|].
  unfold create_artifacts_inner, analyze. rewrite Hrun. cbn [mbind option_bind].
  eexists. split; [done|]. cbn [original_bytecode_len jumpdest_bitmap as_words].
  split_and!; [done..|by rewrite Hl'|]. intros p Hp. rewrite Hb, Hn, Z.bits_0 by done.
  unfold valid_jumpdest. rewrite starts_reach. naive_solver.
Qed.

(** What a well-formed preprocessing result is, and that lookups in it are in
    bounds. *)
Record preprocessing_ok (d : BytecodePreprocessingData) : Prop := {
  pp_words : Forall (in_width usize_bits) (as_words (jumpdest_bitmap d));
  pp_len : original_bytecode_len d ≤ usize_bits * Z.of_nat (length (as_words (jumpdest_bitmap d)))
}.

Lemma is_valid_jumpdest_run d off :
  preprocessing_ok d → 0 ≤ off →
  is_valid_jumpdest off d
  = Some ((off <? original_bytecode_len d)
          && Z.testbit (num (as_words (jumpdest_bitmap d))) off).
Proof.
  intros [Hw Hl] Hoff. unfold is_valid_jumpdest.
  destruct (Z.ltb_spec off (original_bytecode_len d)); [|done]. apply get_bit_num; [done|lia].
Qed.
End Bits.

(** ** The serialised bitmap *)
Section Serialised.
Context {UZ : Usize}.

Lemma word_bytes_bits : 8 * Z.of_nat word_bytes = usize_bits.
Proof. unfold word_bytes. by destruct usize_cases as [-> | ->]. Qed.

Lemma words_bytes_cons w words :
  mjoin (le_bytes word_bytes <$> w :: words)
  = le_bytes word_bytes w ++ mjoin (le_bytes word_bytes <$> words).
Proof. done. Qed.

Lemma length_as_words_bytes words :
  length (mjoin (le_bytes word_bytes <$> words)) = (word_bytes * length words)%nat.
Proof.
  induction words as [|w words IH]; [cbn; lia|].
  rewrite words_bytes_cons, length_app, length_le_bytes, IH. cbn. lia.
Qed.

Lemma num_bytes words :
  Forall (in_width usize_bits) words → of_le_bytes (mjoin (le_bytes word_bytes <$> words)) = num words.
Proof.
  induction 1 as [|w words Hw _ IH]; [done|].
  rewrite words_bytes_cons, of_le_bytes_app, length_le_bytes, IH, of_le_bytes_le_bytes.
  rewrite word_bytes_bits. cbn. by rewrite Z.mod_small.
Qed.

Lemma words_of_bytes_ok n bytes :
  Forall is_u8 bytes → length bytes = (word_bytes * n)%nat →
  Forall (in_width usize_bits) (words_of_bytes n bytes)
  ∧ length (words_of_bytes n bytes) = n ∧ num (words_of_bytes n bytes) = of_le_bytes bytes.
Proof.
  revert bytes. induction n as [|n IH]; intros bytes Hb Hl; cbn [words_of_bytes num length].
  - rewrite Nat.mul_0_r in Hl. by rewrite (nil_length_inv bytes).
  - destruct (IH (drop word_bytes bytes)) as (Hw & Hlen & Hnum).
    { by apply Forall_drop. }
    { rewrite length_drop. lia. }
    assert (length (take word_bytes bytes) = word_bytes) as Ht by (rewrite length_take; lia).
    split_and!.
    + constructor; [|done]. unfold in_width. rewrite <- word_bytes_bits.
      pose proof (of_le_bytes_bound (take word_bytes bytes)) as Hbd. rewrite Ht in Hbd.
      apply Hbd. by apply Forall_take.
    + by rewrite Hlen.
    + rewrite Hnum, <- word_bytes_bits. rewrite <- (take_drop word_bytes bytes) at 3.
      by rewrite of_le_bytes_app, Ht.
Qed.

Lemma le_bytes_all_u8 words : Forall is_u8 (mjoin (le_bytes word_bytes <$> words)).
Proof.
  induction words as [|w words IH]; [constructor|]. rewrite words_bytes_cons. apply Forall_app.
  split; [apply le_bytes_u8|done].
Qed.

Lemma from_raw_ok bytes :
  Forall is_u8 bytes → Z.of_nat (length bytes) mod 8 = 0 →
  ∃ words, from_raw bytes = Some words ∧ Forall (in_width usize_bits) words
    ∧ usize_bits * Z.of_nat (length words) = 8 * Z.of_nat (length bytes)
    ∧ num words = of_le_bytes bytes.
Proof.
  intros Hb Hm. unfold from_raw, BYTECODE_ALIGNMENT. rewrite Hm, Z.eqb_refl.
  pose proof word_bytes_bits as Hwb.
  assert (length bytes = word_bytes * (length bytes / word_bytes))%nat as Hl.
  { apply Nat2Z.inj. rewrite Nat2Z.inj_mul, Nat2Z.inj_div.
    destruct usize_cases as [Hu|Hu]; rewrite Hu in Hwb;
      [replace (Z.of_nat word_bytes) with 4 by lia|replace (Z.of_nat word_bytes) with 8 by lia];
      pose proof (Z.div_mod (Z.of_nat (length bytes)) 8 ltac:(lia));
      pose proof (Z.div_mod (Z.of_nat (length bytes)) 4 ltac:(lia));
      pose proof (Z.mod_pos_bound (Z.of_nat (length bytes)) 4 ltac:(lia)); lia. }
  destruct (words_of_bytes_ok _ bytes Hb Hl) as (Hw & Hlen & Hnum).
  eexists. split; [done|]. split_and!; [done| |done]. rewrite Hlen. nia.
Qed.
End Serialised.

Lemma length_as_slice {UZ : Usize} code d :
  create_artifacts_inner code = Some d →
  Z.of_nat (length (as_slice d)) = next_multiple_of (Z.of_nat (length code)) 64 / 8.
Proof.
  intros Hd. destruct (create_artifacts_spec code) as (d' & Hd' & _ & _ & Hl & _).
  rewrite Hd in Hd'. injection Hd' as <-. unfold as_slice. rewrite length_as_words_bytes.
  rewrite <- Hl. pose proof word_bytes_bits as Hwb.
  rewrite Nat2Z.inj_mul, <- Hwb, <- Z.mul_assoc, (Z.mul_comm 8), Z.div_mul by lia. done.
Qed.

(** C26: jump destinations.  The analysis of a code terminates, stays within its
    bitmap, and answers "valid" for exactly the positions inside the code that
    hold a JUMPDEST opcode and at which an instruction starts, so never for a
    byte of push data, on 32-bit and 64-bit machines alike. *)
Theorem jumpdest_analysis_correct {UZ : Usize} (code : list Z) :
  ∃ d, create_artifacts_inner code = Some d
    ∧ ∀ off, 0 ≤ off → ∃ b, is_valid_jumpdest off d = Some b
        ∧ (b = true ↔ valid_jumpdest code off).
Proof.
  destruct (create_artifacts_spec code) as (d & Hd & Hlen & Hw & Hl & Hb). exists d.
  split; [done|]. intros off Hoff.
  pose proof (next_multiple_of_spec (Z.of_nat (length code)) 64 ltac:(lia)) as [Hm _].
  rewrite is_valid_jumpdest_run by (done || (split; [done|lia])). eexists. split; [done|].
  rewrite andb_true_iff, Hb, Z.ltb_lt, Hlen by done. split; [naive_solver|].
  intros Hv. split; [|done]. destruct Hv as [_ Hv]. apply lookup_lt_Some in Hv. lia.
Qed.

(** Cached artifacts.  A bitmap computed on one machine, stored behind the
    code and its padding and reinterpreted in place on another, of the same or of
    the other word size (the sequencer is 64-bit, the prover 32-bit), gives back
    the code and answers every jump as the analysis would. *)
Theorem cached_artifacts_roundtrip (writer reader : Usize) (code padding : list Z) :
  Z.of_nat (length code) + Z.of_nat (length padding) < 2 ^ 31 →
  ∃ d, create_artifacts_inner (UZ:=writer) code = Some d
    ∧ ∃ d', parse_bytecode (UZ:=reader) (code ++ padding ++ as_slice (UZ:=writer) d)
              (Z.of_nat (length code)) (Z.of_nat (length (as_slice (UZ:=writer) d)))
            = Val (code, d')
      ∧ ∀ off, 0 ≤ off → ∃ b, is_valid_jumpdest (UZ:=reader) off d' = Some b
          ∧ (b = true ↔ valid_jumpdest code off).
Proof.
  intros Hsmall. destruct (create_artifacts_spec (UZ:=writer) code)
    as (d & Hd & Hlen & Hw & Hl & Hb). exists d. split; [done|].
  pose proof (length_as_slice (UZ:=writer) code d Hd) as Hsl.
  pose proof (next_multiple_of_spec (Z.of_nat (length code)) 64 ltac:(lia)) as [Hm Hmod].
  set (L := next_multiple_of (Z.of_nat (length code)) 64) in *.
  set (bytes := as_slice (UZ:=writer) d) in *.
  assert (Z.of_nat (length bytes) mod 8 = 0 ∧ 8 * Z.of_nat (length bytes) = L) as [H8 HL].
  { rewrite Hsl. pose proof (Z.div_mod L 64 ltac:(lia)) as Hdm. rewrite Hmod in Hdm.
    replace L with (L / 64 * 8 * 8) by lia. rewrite Z.div_mul, Z.mod_mul by lia. lia. }
  destruct (from_raw_ok (UZ:=reader) bytes) as (words & Hraw & Hw' & Hlw & Hnum);
    [apply le_bytes_all_u8|done|].
  exists (mkPreprocessing (Z.of_nat (length code)) (Left words)). split.
  - unfold parse_bytecode, checked_sub. rewrite !length_app, !Nat2Z.inj_add.
    pose proof (usize_ge_32 (UZ:=reader)) as Hu.
    pose proof (Z.pow_le_mono_r 2 32 (@usize_bits reader) ltac:(lia) Hu) as Hp.
    assert (Z.of_nat (length bytes) ≤ 2 ^ 29) by lia.
    rewrite checked_in by (unfold in_width; lia). cbn [mbind option_bind].
    rewrite checked_in by (unfold in_width; lia).
    replace (Z.to_nat (_ - _ - _)) with (length padding) by lia.
    rewrite Nat2Z.id, take_app_length, drop_app_length, drop_app_length. by rewrite Hraw.
  - intros off Hoff. rewrite (is_valid_jumpdest_run (UZ:=reader)).
    2:{ split; cbn; [done|lia]. }
    2:{ done. }
    eexists. split; [done|]. cbn [original_bytecode_len jumpdest_bitmap as_words].
    rewrite Hnum. subst bytes. unfold as_slice. rewrite num_bytes by done.
    rewrite andb_true_iff, Hb, Z.ltb_lt by done. split; [naive_solver|].
    intros Hv. split; [|done]. destruct Hv as [_ Hv]. apply lookup_lt_Some in Hv. lia.
Qed.

Lemma cached_artifacts_roundtrip_witness :
  let code := [0x60; 0x5b; 0x5b; 0x00] in
  ∃ d', parse_bytecode (UZ:=usize32) (code ++ [0; 0; 0; 0] ++ [4; 0; 0; 0; 0; 0; 0; 0]) 4 8
        = Val (code, d')
    ∧ is_valid_jumpdest (UZ:=usize32) 2 d' = Some true
    ∧ is_valid_jumpdest (UZ:=usize32) 1 d' = Some false.
Proof.
  intros code.
  destruct (cached_artifacts_roundtrip usize64 usize32 code [0; 0; 0; 0]) as (d & Hd & d' & Hp & _);
    [cbn; lia|].
  vm_compute in Hd. injection Hd as <-. exists d'. split; [exact Hp|].
  vm_compute in Hp. injection Hp as <-. split; vm_compute; reflexivity.
Defined.
