(* ===== verification/EvmState.v ===== *)
(** * The interpreter's state

    The [Interpreter] of [evm_interpreter/src/lib.rs], the state an instruction
    works on, and the helpers of [evm_interpreter/src/utils.rs] that all
    instructions share: memory expansion, operand casts, heap accesses.  The
    stack is the list of [EvmStack] and the heap the bounded list of [SliceVec]. *)

From stdpp Require Import strings.
From S2P Require Import Prelude Resources U256 SystemInterface EvmStack SliceVec EvmConstants Gas.
From S2P Require Import Bytecode.

Inductive PendingOsRequest : Type :=
| PendingCall
| PendingCreate (deployed_address : Z).

Record Interpreter : Type := mkInterpreter {
  instruction_pointer : Z;
  gas : Gas;
  stack : list Z;
  caller : Z;
  address : Z;
  calldata : list Z;
  returndata : list Z;
  heap : Heap Z;
  returndata_location : Z * Z;
  bytecode : list Z;
  bytecode_preprocessing : BytecodePreprocessingData;
  call_value : Z;
  is_static : bool;
  is_constructor : bool;
  pending_os_request : option PendingOsRequest
}.

Record EVMCallRequest : Type := mkEVMCallRequest {
  cr_ergs_to_pass : Ergs;
  cr_call_value : Z;
  cr_destination_address : Z;
  cr_input_data : Z * Z;
  cr_modifier : CallModifier;
  cr_full_caller_resources : Res
}.

Inductive CallScheme : Type := SchemeCall | SchemeCallCode | SchemeDelegateCall | SchemeStaticCall.

#[global] Instance CallScheme_eq_dec : EqDecision CallScheme.
Proof. solve_decision. Defined.

(** Field updates. *)
Definition set_ip (x : Z) (i : Interpreter) : Interpreter :=
  mkInterpreter x (gas i) (stack i) (caller i) (address i) (calldata i) (returndata i) (heap i)
    (returndata_location i) (bytecode i) (bytecode_preprocessing i) (call_value i) (is_static i)
    (is_constructor i) (pending_os_request i).
Definition set_gas (x : Gas) (i : Interpreter) : Interpreter :=
  mkInterpreter (instruction_pointer i) x (stack i) (caller i) (address i) (calldata i)
    (returndata i) (heap i) (returndata_location i) (bytecode i) (bytecode_preprocessing i)
    (call_value i) (is_static i) (is_constructor i) (pending_os_request i).
Definition set_stack (x : list Z) (i : Interpreter) : Interpreter :=
  mkInterpreter (instruction_pointer i) (gas i) x (caller i) (address i) (calldata i)
    (returndata i) (heap i) (returndata_location i) (bytecode i) (bytecode_preprocessing i)
    (call_value i) (is_static i) (is_constructor i) (pending_os_request i).
Definition set_heap (x : Heap Z) (i : Interpreter) : Interpreter :=
  mkInterpreter (instruction_pointer i) (gas i) (stack i) (caller i) (address i) (calldata i)
    (returndata i) x (returndata_location i) (bytecode i) (bytecode_preprocessing i)
    (call_value i) (is_static i) (is_constructor i) (pending_os_request i).
Definition set_returndata_location (x : Z * Z) (i : Interpreter) : Interpreter :=
  mkInterpreter (instruction_pointer i) (gas i) (stack i) (caller i) (address i) (calldata i)
    (returndata i) (heap i) x (bytecode i) (bytecode_preprocessing i) (call_value i)
    (is_static i) (is_constructor i) (pending_os_request i).
Definition set_returndata (x : list Z) (i : Interpreter) : Interpreter :=
  mkInterpreter (instruction_pointer i) (gas i) (stack i) (caller i) (address i) (calldata i)
    x (heap i) (returndata_location i) (bytecode i) (bytecode_preprocessing i) (call_value i)
    (is_static i) (is_constructor i) (pending_os_request i).
Definition set_pending (x : option PendingOsRequest) (i : Interpreter) : Interpreter :=
  mkInterpreter (instruction_pointer i) (gas i) (stack i) (caller i) (address i) (calldata i)
    (returndata i) (heap i) (returndata_location i) (bytecode i) (bytecode_preprocessing i)
    (call_value i) (is_static i) (is_constructor i) x.

Section State.
Context {R : Ruint} {UZ : Usize} {FT : Features} {SYS : System}.

(** [&mut self], [&mut System] and [&mut Option<EVMCallRequest>]. *)
Record St : Type := mkSt {
  self : Interpreter;
  system : SysState;
  external_call_dest : option EVMCallRequest
}.
Abbreviation IM := (M St ExitCode).

Definition set_self (i : Interpreter) (s : St) : St := mkSt i (system s) (external_call_dest s).

Definition get_self {E A} (f : Interpreter → A) : M St E A := gets (λ s, f (self s)).
Definition modify_self {E} (f : Interpreter → Interpreter) : M St E unit :=
  modify (λ s, set_self (f (self s)) s).
Definition on_stack {A} (m : M (list Z) ExitCode A) : IM A :=
  zoom (λ s, stack (self s)) (λ st s, set_self (set_stack st (self s)) s) m.
Definition on_gas {A} (m : M Gas ExitCode A) : IM A :=
  zoom (λ s, gas (self s)) (λ g s, set_self (set_gas g (self s)) s) m.

(** A call into the system with [self.gas.resources_mut()]. *)
Definition io_get (s : St) : SysState * Res := (system s, resources (gas (self s))).
Definition io_put (x : SysState * Res) (s : St) : St :=
  mkSt (set_gas (set_resources x.2 (gas (self s))) (self s)) x.1 (external_call_dest s).
Definition on_io {A E} (conv : E → ExitCode) (m : M (SysState * Res) E A) : IM A :=
  zoom io_get io_put (map_err conv m).

(** [resources.with_infinite_ergs(|inf| system.op(.., inf, ..))]. *)
Definition infinite_ergs {A E} (m : M (SysState * Res) E A) : M (SysState * Res) E A :=
  with_infinite_ergs snd (λ r s, (s.1, r)) m.

Definition metadata {A} (f : Metadata → A) : IM A := gets (λ s, f (sys_metadata (system s))).
Definition lift_outcome {A} (conv : InternalError → ExitCode) (o : outcome InternalError A) : IM A :=
  match o with
  | Val a => mret a
  | Err e => throw (conv e)
  | Fault => fault
  end.

(** ** Helpers of [utils.rs] *)

Definition cast_to_usize (src : Z) (error_to_set : ExitCode) : IM Z :=
  lift_opt error_to_set (u256_try_to_usize src).

Definition cast_offset_and_len (offset len : Z) (error_to_set : ExitCode) : IM (Z * Z) :=
  if len =? 0 then mret (0, 0)
  else
    offset ← cast_to_usize offset error_to_set;
    len ← cast_to_usize len error_to_set;
    mret (offset, len).

Definition heap_len (i : Interpreter) : Z := Z.of_nat (length (heap_data (heap i))).

Definition clear_last_returndata : IM unit := modify_self (set_returndata_location (0, 0)).

Definition resize_heap (offset len : Z) : IM unit :=
  let max_offset := saturating_add usize_bits offset len in
  if umax 32 - 31 <? max_offset then throw (EvmErr MemoryLimitOOG)
  else
    let new_heap_size := next_multiple_of max_offset 32 in
    current_heap_size ← get_self heap_len;
    if current_heap_size <? new_heap_size then
      on_gas (pay_for_memory_growth current_heap_size new_heap_size) ;;
      zoom (λ s, heap (self s)) (λ h s, set_self (set_heap h (self s)) s)
        (map_err (λ _, EvmErr OutOfGas) (heap_resize (Z.to_nat new_heap_size) 0))
    else mret tt.

(** [&self.heap[offset..offset + len]] and writing there. *)
Definition heap_slice {E} (offset len : Z) : M St E (list Z) :=
  data ← get_self (λ i, heap_data (heap i));
  expect (slice data offset len).

Definition heap_write {E} (offset : Z) (bytes : list Z) : M St E unit :=
  data ← get_self (λ i, heap_data (heap i));
  _ ← expect (slice data offset (Z.of_nat (length bytes)));
  modify_self (λ i, set_heap (mkHeap (heap_cap (heap i)) (splice data offset bytes)) i).

(** [slice.get(offset..)], empty when out of range. *)
Definition get_from (l : list Z) (offset : option Z) : list Z :=
  match offset with
  | Some o => if o <=? Z.of_nat (length l) then drop (Z.to_nat o) l else []
  | None => []
  end.

(** [copy_and_zeropad_nonoverlapping]: the new contents of a destination of the
    given length. *)
Definition copy_and_zeropad (src : list Z) (dst_len : Z) : list Z :=
  let to_copy := Z.to_nat (Z.min (Z.of_nat (length src)) dst_len) in
  take to_copy src ++ repeat 0 (Z.to_nat dst_len - to_copy).

Definition get_bytecode_unchecked (offset : Z) (i : Interpreter) : Z :=
  default OP_STOP (bytecode i !! Z.to_nat offset).
End State.
Arguments St {_}.
