(* ===== verification/EvmInstructions.v ===== *)
(** * The instructions of the EVM

    One definition per method of [evm_interpreter/src/instructions/*.rs], under
    its name there, in the order of the files.  Tracer callbacks, logging and the
    [PRINT_OPCODES] blocks only observe and are left out. *)

From stdpp Require Import strings.
From S2P Require Import Prelude Resources U256 SystemInterface EvmStack SliceVec EvmConstants Gas.
From S2P Require Import Bytecode EvmState.

(** [Bytes32] and [U256] in big-endian order. *)
Definition from_u256_be (value : Z) : list Z := be_bytes 32 value.
Definition into_u256_be (bytes : list Z) : Z := of_be_bytes bytes.

(** [U256Builder]: bytes are stored from the most significant end. *)
Record U256Builder : Type := mkU256Builder { ub_bytes : list Z; previously_written : nat }.
Definition U256Builder_default : U256Builder := mkU256Builder (repeat 0 32) 32.
Fixpoint U256Builder_try_extend (items : list Z) (b : U256Builder) : option U256Builder :=
  match items with
  | [] => Some b
  | byte :: items' =>
      match previously_written b with
      | O => None
      | S n => U256Builder_try_extend items' (mkU256Builder (<[n := byte]> (ub_bytes b)) n)
      end
  end.
Definition U256Builder_build (b : U256Builder) : option Z :=
  if bool_decide (previously_written b = 0%nat) then Some (of_le_bytes (ub_bytes b)) else None.

Definition EMPTY_SLICE_SHA3 : Z :=
  of_limbs [0x7bfad8045d85a470; 0xe500b653ca82273b; 0x927e7db2dcc703c0; 0xc5d2460186f7233c].

(** [exp_cost] of [arithmetic.rs]. *)
Definition exp_cost (power : Z) : option (Z * Z) :=
  if power =? 0 then Some (GAS_EXP, EXP_BASE_NATIVE_COST)
  else
    let gas_byte := 50 in
    l ← log2floor power;
    let num_bytes := l / 8 + 1 in
    g ← checked_mul 64 gas_byte num_bytes;
    gas_cost ← checked_add 64 g GAS_EXP;
    n ← checked_mul 64 EXP_PER_BYTE_NATIVE_COST num_bytes;
    native_cost ← checked_add 64 EXP_BASE_NATIVE_COST n;
    Some (gas_cost, native_cost).

Definition MAX_CREATE_RLP_ENCODING_LEN : nat := 1 + 1 + 20 + 1 + 8.

(** [create_quasi_rlp] of [utils.rs]: rlp([address, nonce]). *)
Definition create_quasi_rlp (address nonce : Z) : list Z :=
  let address_bytes := be_bytes 20 address in
  let nonce_bytes := be_bytes 8 nonce in
  let skip_nonce_len := count_leading_zeros nonce_bytes in
  let nonce_len := (8 - skip_nonce_len)%nat in
  let last_byte := default 0 (nonce_bytes !! 7%nat) in
  if bool_decide (nonce_len = 1%nat) && (last_byte <? 128) then
    let payload_len := 1 + 20 + 1 in
    [0xc0 + payload_len; 0x80 + 20] ++ address_bytes ++ [last_byte]
  else
    let payload_len := 1 + 20 + 1 + Z.of_nat nonce_len in
    [0xc0 + payload_len; 0x80 + 20] ++ address_bytes
    ++ [0x80 + Z.of_nat nonce_len] ++ drop skip_nonce_len nonce_bytes.

Section Instructions.
Context {R : Ruint} {UZ : Usize} {FT : Features} {SYS : System}.
Abbreviation IM := (M St ExitCode).
Abbreviation InstructionResult := (IM unit).

Definition charge_op (gas native : Z) : IM unit := on_gas (spend_gas_and_native gas native).
Definition push_word (v : Z) : IM unit := on_stack (stk_push v).
Definition write_top (v : Z) : IM unit := on_stack (stk_write_top v).
Definition write_popped (v : Z) : IM unit := on_stack (stk_write_popped v).

(** ** [arithmetic.rs] *)

Definition wrapped_add : InstructionResult :=
  charge_op GAS_VERYLOW ADD_NATIVE_COST ;;
  '(op1, op2) ← on_stack stk_pop_1_peek;
  write_top (u_add op2 op1).

Definition wrapping_mul : InstructionResult :=
  charge_op GAS_LOW MUL_NATIVE_COST ;;
  '(op1, op2) ← on_stack stk_pop_1_peek;
  write_top (u_mul op1 op2).

Definition wrapping_sub : InstructionResult :=
  charge_op GAS_VERYLOW SUB_NATIVE_COST ;;
  '(op1, op2) ← on_stack stk_pop_1_peek;
  write_top (u_sub op1 op2).

Definition div : InstructionResult :=
  charge_op GAS_LOW DIV_NATIVE_COST ;;
  '(op1, op2) ← on_stack stk_pop_1_peek;
  if negb (op2 =? 0) then
    op1 ← expect (u_div op1 op2);
    write_popped op1 ;;
    write_top op1
  else mret tt.

Definition sdiv : InstructionResult :=
  charge_op GAS_LOW SDIV_NATIVE_COST ;;
  '(op1, op2) ← on_stack stk_pop_1_peek;
  '(op1, op2) ← expect (i256_div op1 op2);
  write_popped op1 ;;
  write_top op2.

Definition rem : InstructionResult :=
  charge_op GAS_LOW MOD_NATIVE_COST ;;
  '(op1, op2) ← on_stack stk_pop_1_peek;
  write_top (default 0 (u_checked_rem op1 op2)).

Definition smod : InstructionResult :=
  charge_op GAS_LOW SMOD_NATIVE_COST ;;
  '(op1, op2) ← on_stack stk_pop_1_peek;
  if negb (op2 =? 0) then
    '(op1, op2) ← expect (i256_mod op1 op2);
    write_popped op1 ;;
    write_top op2
  else mret tt.

Definition addmod : InstructionResult :=
  charge_op GAS_MID ADDMOD_NATIVE_COST ;;
  '(op1, op2, op3) ← on_stack stk_pop_2_peek;
  write_top (u_add_mod op1 op2 op3).

Definition mulmod : InstructionResult :=
  charge_op GAS_MID MULMOD_NATIVE_COST ;;
  '(op1, op2, op3) ← on_stack stk_pop_2_peek;
  write_top (mul_mod op1 op2 op3).

Definition eval_exp : InstructionResult :=
  '(op1, op2) ← on_stack stk_pop_1_peek;
  match exp_cost op2 with
  | Some (gas_cost, native_cost) => charge_op gas_cost native_cost
  | None => throw (EvmErr OutOfGas)
  end ;;
  write_top (u_pow op1 op2).

Definition sign_extend : InstructionResult :=
  charge_op GAS_LOW SIGNEXTEND_NATIVE_COST ;;
  '(op1, op2) ← on_stack stk_pop_1_peek;
  match u256_try_to_usize_capped 32 op1 with
  | Some shift =>
      let bit_index := 8 * shift + 7 in
      let bit := u_bit op2 bit_index in
      let mask := u_shl 1 bit_index in
      let mask := u_sub mask 1 in
      if bit then
        let mask := u_not mask in
        write_top (u_or op2 mask)
      else write_top (u_and op2 mask)
  | None => mret tt
  end.

(** ** [bitwise.rs] *)

Definition b2u (b : bool) : Z := if b then 1 else 0.

Definition lt : InstructionResult :=
  charge_op GAS_VERYLOW LT_NATIVE_COST ;;
  '(op1, op2) ← on_stack stk_pop_1_peek;
  write_top (b2u (op1 <? op2)).

Definition gt : InstructionResult :=
  charge_op GAS_VERYLOW GT_NATIVE_COST ;;
  '(op1, op2) ← on_stack stk_pop_1_peek;
  write_top (b2u (op2 <? op1)).

Definition slt : InstructionResult :=
  charge_op GAS_VERYLOW SLT_NATIVE_COST ;;
  '(op1, op2) ← on_stack stk_pop_1_peek;
  write_top (match i256_cmp op1 op2 with Lt => 1 | _ => 0 end).

Definition sgt : InstructionResult :=
  charge_op GAS_VERYLOW SGT_NATIVE_COST ;;
  '(op1, op2) ← on_stack stk_pop_1_peek;
  write_top (match i256_cmp op1 op2 with Gt => 1 | _ => 0 end).

Definition eq_ : InstructionResult :=
  charge_op GAS_VERYLOW EQ_NATIVE_COST ;;
  '(op1, op2) ← on_stack stk_pop_1_peek;
  write_top (b2u (op1 =? op2)).

Definition iszero : InstructionResult :=
  charge_op GAS_VERYLOW ISZERO_NATIVE_COST ;;
  stack_top ← on_stack stk_top;
  write_top (b2u (stack_top =? 0)).

Definition bitand : InstructionResult :=
  charge_op GAS_VERYLOW AND_NATIVE_COST ;;
  '(op1, op2) ← on_stack stk_pop_1_peek;
  write_top (u_and op2 op1).

Definition bitor : InstructionResult :=
  charge_op GAS_VERYLOW OR_NATIVE_COST ;;
  '(op1, op2) ← on_stack stk_pop_1_peek;
  write_top (u_or op2 op1).

Definition bitxor : InstructionResult :=
  charge_op GAS_VERYLOW XOR_NATIVE_COST ;;
  '(op1, op2) ← on_stack stk_pop_1_peek;
  write_top (u_xor op2 op1).

Definition not_ : InstructionResult :=
  charge_op GAS_VERYLOW NOT_NATIVE_COST ;;
  op1 ← on_stack stk_top;
  write_top (u_not op1).

Definition byte : InstructionResult :=
  charge_op GAS_VERYLOW BYTE_NATIVE_COST ;;
  '(offset, src) ← on_stack stk_pop_1_peek;
  match u256_try_to_usize_capped 32 offset with
  | Some offset => write_top (u_byte src (31 - offset))
  | None => write_top 0
  end.

(** [u32::try_from(op1)] and [usize::try_from(op1)]. *)
Definition shl : InstructionResult :=
  charge_op GAS_VERYLOW SHL_NATIVE_COST ;;
  '(op1, op2) ← on_stack stk_pop_1_peek;
  match checked 32 op1 with
  | None => write_top 0
  | Some shift => write_top (u_shl op2 shift)
  end.

Definition shr : InstructionResult :=
  charge_op GAS_VERYLOW SHR_NATIVE_COST ;;
  '(op1, op2) ← on_stack stk_pop_1_peek;
  match checked 32 op1 with
  | None => write_top 0
  | Some shift => write_top (u_shr op2 shift)
  end.

Definition sar : InstructionResult :=
  charge_op GAS_VERYLOW SAR_NATIVE_COST ;;
  '(op1, op2) ← on_stack stk_pop_1_peek;
  let shift := default 256 (checked usize_bits op1) in
  write_top (u_arithmetic_shr op2 shift).

(** ** [control_flow.rs] *)

Definition jump_to (dest : Z) : InstructionResult :=
  pp ← get_self bytecode_preprocessing;
  valid ← expect (is_valid_jumpdest dest pp);
  if (valid : bool) then modify_self (set_ip dest) else throw (EvmErr InvalidJump).

Definition jump : InstructionResult :=
  charge_op GAS_MID JUMP_NATIVE_COST ;;
  dest ← on_stack stk_pop_1;
  dest ← cast_to_usize dest (EvmErr InvalidJump);
  jump_to dest.

Definition jumpi : InstructionResult :=
  charge_op GAS_HIGH JUMPI_NATIVE_COST ;;
  '(dest, value) ← on_stack stk_pop_2;
  if negb (value =? 0) then
    dest ← cast_to_usize dest (EvmErr InvalidJump);
    jump_to dest
  else mret tt.

Definition jumpdest : InstructionResult := charge_op GAS_JUMPDEST JUMPDEST_NATIVE_COST.

Definition pc : InstructionResult :=
  charge_op GAS_BASE PC_NATIVE_COST ;;
  ip ← get_self instruction_pointer;
  push_word (wrap usize_bits (ip - 1)).

(** The common body of RETURN and REVERT. *)
Definition set_return_range : InstructionResult :=
  '(offset, len) ← on_stack stk_pop_2;
  len ← cast_to_usize len (EvmErr InvalidOperandOOG);
  if len =? 0 then modify_self (set_returndata_location (0, 0))
  else
    offset ← cast_to_usize offset (EvmErr InvalidOperandOOG);
    resize_heap offset len ;;
    let '(end_, overflow) := overflowing_add usize_bits offset len in
    if overflow then throw (EvmErr InvalidOperandOOG)
    else modify_self (set_returndata_location (offset, end_)).

Definition ret : InstructionResult :=
  charge_op 0 RETURN_NATIVE_COST ;;
  set_return_range ;;
  throw Return.

Definition revert : InstructionResult :=
  charge_op 0 REVERT_NATIVE_COST ;;
  set_return_range ;;
  throw (EvmErr Revert).

(** ** [environment.rs] *)

Definition chainid : InstructionResult :=
  charge_op GAS_BASE CHAINID_NATIVE_COST ;;
  result ← metadata md_chain_id;
  push_word result.

Definition coinbase : InstructionResult :=
  charge_op GAS_BASE COINBASE_NATIVE_COST ;;
  result ← metadata md_coinbase;
  push_word (b160_to_u256 result).

Definition timestamp : InstructionResult :=
  charge_op GAS_BASE TIMESTAMP_NATIVE_COST ;;
  result ← metadata md_block_timestamp;
  push_word result.

Definition number : InstructionResult :=
  charge_op GAS_BASE NUMBER_NATIVE_COST ;;
  result ← metadata md_block_number;
  push_word result.

Definition difficulty : InstructionResult :=
  charge_op GAS_BASE DIFFICULTY_NATIVE_COST ;;
  mix_hash ← metadata get_mix_hash;
  mix_hash ← lift_outcome exit_of_internal mix_hash;
  push_word (of_be_bytes mix_hash).

Definition gaslimit : InstructionResult :=
  charge_op GAS_BASE GAS_NATIVE_COST ;;
  result ← metadata md_block_gas_limit;
  push_word result.

Definition gasprice : InstructionResult :=
  charge_op GAS_BASE GASPRICE_NATIVE_COST ;;
  result ← metadata md_tx_gas_price;
  push_word result.

Definition basefee : InstructionResult :=
  charge_op GAS_BASE BASEFEE_NATIVE_COST ;;
  result ← metadata md_eip1559_basefee;
  push_word result.

Definition instr_caller : InstructionResult :=
  charge_op GAS_BASE CALLER_NATIVE_COST ;;
  a ← get_self caller;
  push_word (b160_to_u256 a).

Definition origin : InstructionResult :=
  if eip_7645 then
    charge_op 0 ORIGIN_NATIVE_COST ;;
    instr_caller
  else
    charge_op GAS_BASE ORIGIN_NATIVE_COST ;;
    result ← metadata md_tx_origin;
    push_word (b160_to_u256 result).

Definition blockhash : InstructionResult :=
  charge_op GAS_BLOCKHASH BLOCKHASH_NATIVE_COST ;;
  block_number ← on_stack stk_pop_1;
  let block_number := u256_to_u64_saturated block_number in
  hash ← metadata (λ md, get_blockhash md block_number);
  hash ← lift_outcome exit_of_internal hash;
  push_word (of_be_bytes hash).

Definition blobhash : InstructionResult :=
  charge_op GAS_BLOBHASH 40 ;;
  _ ← on_stack stk_top;
  write_top 0.

Definition blobbasefee : InstructionResult :=
  charge_op GAS_BASE 40 ;;
  push_word 1.


(** ** [heap.rs] *)

Definition mload : InstructionResult :=
  charge_op GAS_VERYLOW MLOAD_NATIVE_COST ;;
  stack_top ← on_stack stk_top;
  index ← cast_to_usize stack_top (EvmErr InvalidOperandOOG);
  resize_heap index 32 ;;
  src ← heap_slice index 32;
  let value := of_le_bytes src in
  let value := bytereverse_u256 value in
  write_top value.

Definition mstore : InstructionResult :=
  charge_op GAS_VERYLOW MSTORE_NATIVE_COST ;;
  '(index, value) ← on_stack stk_pop_2;
  index ← cast_to_usize index (EvmErr InvalidOperandOOG);
  resize_heap index 32 ;;
  let le_value := bytereverse_u256 value in
  heap_write index (le_bytes 32 le_value).

Definition mstore8 : InstructionResult :=
  charge_op GAS_VERYLOW MSTORE8_NATIVE_COST ;;
  '(index, value) ← on_stack stk_pop_2;
  index ← cast_to_usize index (EvmErr InvalidOperandOOG);
  let value := u_byte value 0 in
  resize_heap index 1 ;;
  heap_write index [value].

Definition msize : InstructionResult :=
  charge_op GAS_BASE MSIZE_NATIVE_COST ;;
  len ← get_self heap_len;
  push_word len.

Definition mcopy : InstructionResult :=
  '(dst_offset, src_offset, len) ← on_stack stk_pop_3;
  len ← cast_to_usize len (EvmErr InvalidOperandOOG);
  '(gas_cost, native_cost) ← copy_cost_plus_very_low_gas len;
  charge_op gas_cost native_cost ;;
  if len =? 0 then mret tt
  else
    dst_offset ← cast_to_usize dst_offset (EvmErr InvalidOperandOOG);
    src_offset ← cast_to_usize src_offset (EvmErr InvalidOperandOOG);
    resize_heap (Z.max dst_offset src_offset) len ;;
    src ← heap_slice src_offset len;
    heap_write dst_offset src.

(** ** [stack.rs] *)

Definition pop : InstructionResult :=
  charge_op GAS_BASE POP_NATIVE_COST ;;
  on_stack stk_pop.

Definition push0 : InstructionResult :=
  charge_op GAS_BASE PUSH0_NATIVE_COST ;;
  on_stack (stk_push 0).

(** The word that PUSH reads: at most [N] bytes of code, big-endian, zeros beyond
    the end. *)
Definition push_value (N : Z) (code : list Z) (start : Z) : Z :=
  match code !! Z.to_nat start with
  | Some _ =>
      let to_copy := Z.min N (Z.of_nat (length code) - start) in
      let value := of_le_bytes (take (Z.to_nat to_copy) (drop (Z.to_nat start) code)) in
      let value := bytereverse_u256 value in
      u_shr value ((32 - N) * 8)
  | None => 0
  end.

Definition push (N : nat) : InstructionResult :=
  cost ← expect (PUSH_NATIVE_COSTS !! N);
  charge_op GAS_VERYLOW cost ;;
  start ← get_self instruction_pointer;
  code ← get_self bytecode;
  let value := push_value (Z.of_nat N) code start in
  modify_self (λ i, set_ip (wrap usize_bits (instruction_pointer i + Z.of_nat N)) i) ;;
  push_word value.

Definition dup (N : nat) : InstructionResult :=
  charge_op GAS_VERYLOW DUP_NATIVE_COST ;;
  on_stack (stk_dup N).

Definition swap (N : nat) : InstructionResult :=
  charge_op GAS_VERYLOW SWAP_NATIVE_COST ;;
  on_stack (stk_swap N).

(** ** [system.rs] *)

(** [S::SystemFunctions::keccak256(.., &mut dst, ..)] into a [U256Builder]. *)
Definition keccak_u256 (input : list Z) : IM Z :=
  out ← on_gas (on_resources (keccak256 input));
  dst ← expect (U256Builder_try_extend out U256Builder_default);
  expect (U256Builder_build dst).

Definition sha3 : InstructionResult :=
  '(memory_offset, len) ← on_stack stk_pop_2;
  len ← cast_to_usize len (EvmErr InvalidOperandOOG);
  charge_op 0 KECCAK256_NATIVE_COST ;;
  hash ← (if len =? 0 then
            on_gas (spend_gas GAS_SHA3) ;;
            mret EMPTY_SLICE_SHA3
          else
            memory_offset ← cast_to_usize memory_offset (EvmErr InvalidOperandOOG);
            resize_heap memory_offset len ;;
            input ← heap_slice memory_offset len;
            keccak_u256 input);
  push_word hash.

Definition instr_address : InstructionResult :=
  charge_op GAS_BASE ADDRESS_NATIVE_COST ;;
  a ← get_self address;
  push_word (b160_to_u256 a).

Definition codesize : InstructionResult :=
  charge_op GAS_BASE CODESIZE_NATIVE_COST ;;
  n ← get_self (λ i, original_bytecode_len (bytecode_preprocessing i));
  push_word n.

(** The tail that CODECOPY and CALLDATACOPY share. *)
Definition copy_to_heap (source : Interpreter → list Z) (memory_offset source_offset len : Z)
    : InstructionResult :=
  memory_offset ← cast_to_usize memory_offset (EvmErr InvalidOperandOOG);
  resize_heap memory_offset len ;;
  src ← get_self source;
  let src := get_from src (u256_try_to_usize source_offset) in
  heap_write memory_offset (copy_and_zeropad src len).

Definition codecopy : InstructionResult :=
  '(memory_offset, source_offset, len) ← on_stack stk_pop_3;
  len ← cast_to_usize len (EvmErr InvalidOperandOOG);
  '(gas_cost, native_cost) ← copy_cost_plus_very_low_gas len;
  charge_op gas_cost (wrap 64 (native_cost + CODECOPY_NATIVE_COST)) ;;
  if len =? 0 then mret tt
  else copy_to_heap bytecode memory_offset source_offset len.

Definition calldataload : InstructionResult :=
  charge_op GAS_VERYLOW CALLDATALOAD_NATIVE_COST ;;
  stack_top ← on_stack stk_top;
  data ← get_self calldata;
  let value :=
    match u256_try_to_usize stack_top with
    | Some index =>
        if index <? Z.of_nat (length data) then
          let have_bytes := Z.min 32 (Z.of_nat (length data) - index) in
          let bytes := splice (repeat 0 32) 0
                         (take (Z.to_nat have_bytes) (drop (Z.to_nat index) data)) in
          into_u256_be bytes
        else 0
    | None => 0
    end in
  write_top value.

Definition calldatasize : InstructionResult :=
  charge_op GAS_BASE CALLDATASIZE_NATIVE_COST ;;
  calldata_len ← get_self (λ i, Z.of_nat (length (calldata i)));
  push_word calldata_len.

Definition callvalue : InstructionResult :=
  charge_op GAS_BASE CALLVALUE_NATIVE_COST ;;
  v ← get_self call_value;
  push_word v.

Definition calldatacopy : InstructionResult :=
  '(memory_offset, source_offset, len) ← on_stack stk_pop_3;
  len ← cast_to_usize len (EvmErr InvalidOperandOOG);
  '(gas_cost, native_cost) ← copy_cost_plus_very_low_gas len;
  charge_op gas_cost (wrap 64 (CALLDATACOPY_NATIVE_COST + native_cost)) ;;
  if len =? 0 then mret tt
  else copy_to_heap calldata memory_offset source_offset len.

Definition returndatasize : InstructionResult :=
  charge_op GAS_BASE RETURNDATASIZE_NATIVE_COST ;;
  returndata_len ← get_self (λ i, Z.of_nat (length (returndata i)));
  push_word returndata_len.

Definition returndatacopy : InstructionResult :=
  '(memory_offset, source_offset, len) ← on_stack stk_pop_3;
  len ← cast_to_usize len (EvmErr InvalidOperandOOG);
  '(gas_cost, native_cost) ← copy_cost_plus_very_low_gas len;
  charge_op gas_cost (wrap 64 (RETURNDATACOPY_NATIVE_COST + native_cost)) ;;
  source_offset ← cast_to_usize source_offset (EvmErr InvalidOperandOOG);
  let '(end_, overflow) := overflowing_add usize_bits source_offset len in
  data ← get_self returndata;
  if overflow || (Z.of_nat (length data) <? end_) then throw (EvmErr ReturnDataOutOfBounds)
  else if len =? 0 then mret tt
  else
    memory_offset ← cast_to_usize memory_offset (EvmErr InvalidOperandOOG);
    resize_heap memory_offset len ;;
    heap_write memory_offset (copy_and_zeropad (get_from data (Some source_offset)) len).

Definition instr_gas : InstructionResult :=
  charge_op GAS_BASE GAS_NATIVE_COST ;;
  g ← get_self (λ i, gas_left (gas i));
  push_word g.

(** ** [host.rs] *)

Definition balance : InstructionResult :=
  charge_op 0 BALANCE_NATIVE_COST ;;
  stack_top ← on_stack stk_top;
  let address := u256_to_b160 stack_top in
  value ← on_io exit_of_system (get_nominal_token_balance address);
  write_top value.

Definition selfbalance : InstructionResult :=
  charge_op 0 SELFBALANCE_NATIVE_COST ;;
  a ← get_self address;
  value ← on_io exit_of_system (get_selfbalance a);
  push_word value.

Definition extcodesize : InstructionResult :=
  charge_op 0 EXTCODESIZE_NATIVE_COST ;;
  stack_top ← on_stack stk_top;
  let address := u256_to_b160 stack_top in
  value ← on_io exit_of_system (get_observable_bytecode_size address);
  write_top value.

Definition extcodehash : InstructionResult :=
  charge_op 0 EXTCODEHASH_NATIVE_COST ;;
  stack_top ← on_stack stk_top;
  let address := u256_to_b160 stack_top in
  value ← on_io exit_of_system (get_observable_bytecode_hash address);
  write_top (into_u256_be value).

Definition extcodecopy : InstructionResult :=
  '(address, memory_offset, source_offset, len) ← on_stack stk_pop_4;
  let address := u256_to_b160 address in
  '(memory_offset, len) ← cast_offset_and_len memory_offset len (EvmErr InvalidOperandOOG);
  resize_heap memory_offset len ;;
  code ← on_io exit_of_system (get_observable_bytecode address);
  let source := get_from code (u256_try_to_usize source_offset) in
  '(gas_cost, native_cost) ← copy_cost len;
  charge_op gas_cost (wrap 64 (native_cost + EXTCODECOPY_NATIVE_COST)) ;;
  heap_write memory_offset (copy_and_zeropad source len).

Definition storage_load (TRANSIENT : bool) (native_cost : Z) : InstructionResult :=
  charge_op 0 native_cost ;;
  stack_head ← on_stack stk_top;
  let key := from_u256_be stack_head in
  a ← get_self address;
  value ← on_io exit_of_system (storage_read TRANSIENT a key);
  write_top (into_u256_be value).

Definition sload : InstructionResult := storage_load false SLOAD_NATIVE_COST.
Definition tload : InstructionResult := storage_load true TLOAD_NATIVE_COST.

Definition check_not_static : InstructionResult :=
  b ← get_self is_static;
  if (b : bool) then throw (EvmErr StateChangeDuringStaticCall) else mret tt.

Definition storage_put (TRANSIENT : bool) : InstructionResult :=
  '(index, value) ← on_stack stk_pop_2;
  let index := from_u256_be index in
  let value := from_u256_be value in
  a ← get_self address;
  on_io exit_of_system (storage_write TRANSIENT a index value).

Definition sstore : InstructionResult :=
  charge_op 0 SSTORE_NATIVE_COST ;;
  check_not_static ;;
  g ← get_self (λ i, gas_left (gas i));
  if g <=? GAS_CALL_STIPEND then throw (EvmErr InvalidOperandOOG)
  else storage_put false.

Definition tstore : InstructionResult :=
  charge_op 0 TSTORE_NATIVE_COST ;;
  check_not_static ;;
  storage_put true.

Fixpoint pop_topics (n : nat) : IM (list (list Z)) :=
  match n with
  | O => mret []
  | S n' =>
      t ← on_stack stk_pop_1;
      ts ← pop_topics n';
      mret (from_u256_be t :: ts)
  end.

Definition log (N : nat) : InstructionResult :=
  assert_that (bool_decide (N ≤ MAX_EVENT_TOPICS)%nat) ;;
  charge_op 0 LOG_NATIVE_COST ;;
  check_not_static ;;
  '(mem_offset, len) ← on_stack stk_pop_2;
  '(mem_offset, len) ← cast_offset_and_len mem_offset len (EvmErr InvalidOperandOOG);
  topics ← pop_topics N;
  resize_heap mem_offset len ;;
  data ← heap_slice mem_offset len;
  a ← get_self address;
  on_io exit_of_system (emit_event a topics data).

Definition selfdestruct : InstructionResult :=
  charge_op GAS_SELFDESTRUCT SELFDESTRUCT_NATIVE_COST ;;
  check_not_static ;;
  beneficiary ← on_stack stk_pop_1;
  let beneficiary := u256_to_b160 beneficiary in
  a ← get_self address;
  in_constructor ← get_self is_constructor;
  _ ← on_io (λ e, exit_of_subsystem (SCascaded (CascadedDeconstruction e)))
        (mark_for_deconstruction a beneficiary in_constructor);
  throw SelfDestruct.

(** [ArrayBuilder], filled by the digest and read by [build]. *)
Definition ArrayBuilder_build (written : list Z) : option (list Z) :=
  if bool_decide (length written = 32%nat) then Some written else None.

(** [B160::try_from_be_slice(&digest[12..])]. *)
Definition address_of_digest (digest : list Z) : option Z :=
  let bytes := drop 12 digest in
  if bool_decide (length bytes = 20%nat) then Some (of_be_bytes bytes) else None.

Definition derive_address_for_deployment_create {S E} (deployer_address deployer_nonce : Z) : M S E Z :=
  let encoding := create_quasi_rlp deployer_address deployer_nonce in
  let buffer := splice (repeat 0 MAX_CREATE_RLP_ENCODING_LEN) 0
                  (take MAX_CREATE_RLP_ENCODING_LEN encoding) in
  encoded ← expect (slice buffer 0 (Z.of_nat (length encoding)));
  expect (address_of_digest (Keccak256_digest encoded)).

Definition create2_keccak_error (e : SystemError) : EvmSubsystemError :=
  match e with
  | LeafRuntime (FatalRuntime m) => SLeafRuntime (FatalRuntime m)
  | _ => SLeafDefect (internal_error "Keccak in create2 cannot fail")
  end.

Definition create2_buffer (deployer_address salt : Z) (initcode_hash : list Z) : list Z :=
  [0xff] ++ be_bytes 20 deployer_address ++ be_bytes 32 salt ++ initcode_hash.

Definition derive_address_for_deployment_create2 (salt deployer_address : Z)
    (deployment_code : list Z) : IM Z :=
  initcode_hash ← on_gas (zoom resources set_resources
    (map_err (λ e, exit_of_subsystem (create2_keccak_error e))
       (with_infinite_ergs id (λ r _, r) (keccak256 deployment_code))));
  initcode_hash ← expect (ArrayBuilder_build initcode_hash);
  let buffer := create2_buffer deployer_address salt initcode_hash in
  expect (address_of_digest (Keccak256_digest buffer)).

Definition request_external_call (req : EVMCallRequest) : InstructionResult :=
  modify (λ s, mkSt (self s) (system s) (Some req)) ;;
  throw ExternalCall.

Definition create (IS_CREATE2 : bool) : InstructionResult :=
  charge_op GAS_CREATE (if IS_CREATE2 then CREATE2_NATIVE_COST else CREATE_NATIVE_COST) ;;
  check_not_static ;;
  clear_last_returndata ;;
  '(value, code_offset, len) ← on_stack stk_pop_3;
  '(code_offset, len) ← cast_offset_and_len code_offset len (EvmErr InvalidOperandOOG);
  resize_heap code_offset len ;;
  if MAX_INITCODE_SIZE <? len then throw (EvmErr CreateInitcodeSizeLimit)
  else
    let cost_per_word :=
      if IS_CREATE2 then GAS_INITCODE_WORD_COST + GAS_SHA3WORD else GAS_INITCODE_WORD_COST in
    let initcode_cost := wrap 64 (cost_per_word * (next_multiple_of len 32 / 32)) in
    on_gas (spend_gas initcode_cost) ;;
    let end_ := wrap usize_bits (code_offset + len) in
    deployed_address ←
      (if IS_CREATE2 then
         salt ← on_stack stk_pop_1;
         a ← get_self address;
         code ← heap_slice code_offset (end_ - code_offset);
         derive_address_for_deployment_create2 salt a code
       else
         a ← get_self address;
         deployer_nonce ← on_io exit_of_system (infinite_ergs (read_nonce a));
         derive_address_for_deployment_create a deployer_nonce);
    all_resources ← on_gas gas_take_resources;
    modify_self (set_pending (Some (PendingCreate deployed_address))) ;;
    request_external_call
      (mkEVMCallRequest (ergs all_resources) value deployed_address (code_offset, end_)
         Constructor all_resources).

(** The value a call transfers. *)
Definition call_value_of (scheme : CallScheme) : IM Z :=
  match scheme with
  | SchemeCallCode => on_stack stk_pop_1
  | SchemeCall =>
      value ← on_stack stk_pop_1;
      static ← get_self is_static;
      if static && negb (value =? 0) then throw (EvmErr CallNotAllowedInsideStatic)
      else mret value
  | SchemeDelegateCall => get_self call_value
  | SchemeStaticCall => mret 0
  end.

Definition call_modifier (static : bool) (scheme : CallScheme) : option CallModifier :=
  if static then
    Some match scheme with
         | SchemeDelegateCall => DelegateStatic
         | SchemeCallCode => EVMCallcodeStatic
         | _ => Static
         end
  else
    match scheme with
    | SchemeCall => Some NoModifier
    | SchemeDelegateCall => Some Delegate
    | SchemeCallCode => Some EVMCallcode
    | SchemeStaticCall => None
    end.

Definition call_impl (scheme : CallScheme) : InstructionResult :=
  charge_op 0 CALL_NATIVE_COST ;;
  clear_last_returndata ;;
  '(gas_to_pass, to) ← on_stack stk_pop_2;
  let to := u256_to_b160 to in
  let gas_to_pass := u256_to_u64_saturated gas_to_pass in
  value ← call_value_of scheme;
  '(in_offset, in_len, out_offset, out_len) ← on_stack stk_pop_4;
  '(in_offset, in_len) ← cast_offset_and_len in_offset in_len (EvmErr InvalidOperandOOG);
  '(out_offset, out_len) ← cast_offset_and_len out_offset out_len (EvmErr InvalidOperandOOG);
  resize_heap in_offset in_len ;;
  resize_heap out_offset out_len ;;
  let calldata := (in_offset, wrap usize_bits (in_offset + in_len)) in
  frame_static ← get_self is_static;
  let static := bool_decide (scheme = SchemeStaticCall) || frame_static in
  modifier ← expect (call_modifier static scheme);
  modify_self (set_returndata_location (out_offset, wrap usize_bits (out_offset + out_len))) ;;
  modify_self (set_pending (Some PendingCall)) ;;
  all_resources ← on_gas gas_take_resources;
  request_external_call
    (mkEVMCallRequest (mkErgs (saturating_mul 64 gas_to_pass ERGS_PER_GAS)) value to calldata
       modifier all_resources).

Definition call : InstructionResult := call_impl SchemeCall.
Definition call_code : InstructionResult := call_impl SchemeCallCode.
Definition delegate_call : InstructionResult := call_impl SchemeDelegateCall.
Definition static_call : InstructionResult := call_impl SchemeStaticCall.

End Instructions.
