(* ===== verification/EvmRun.v ===== *)
(** * The interpreter loop

    Models [evm_interpreter/src/interpreter.rs]: the dispatch of an opcode to its
    instruction, the loop that runs until an instruction reports an exit code,
    and what the frame hands to the operating system when it yields: a call
    request, or the completed execution with its deployment step for a
    constructor.

    Every step charges [STEP_NATIVE_COST] first, so the native resource bounds
    the number of steps; [run] uses that bound as its fuel. *)

From stdpp Require Import strings.
From S2P Require Import Prelude Resources U256 SystemInterface EvmStack SliceVec EvmConstants Gas.
From S2P Require Import Bytecode EvmState EvmInstructions.

Section Run.
Context {R : Ruint} {UZ : Usize} {FT : Features} {SYS : System}.
Abbreviation IM := (M St ExitCode).
Abbreviation InstructionResult := (IM unit).
(** Functions that return [Result<_, EvmSubsystemError>]. *)
Abbreviation FM := (M St EvmSubsystemError).

(** The arms of the [match opcode], in source order; the first one that matches
    is taken. *)
Definition dispatch_table : list (Z * InstructionResult) :=
  [ (OP_CREATE, create false);
    (OP_CREATE2, create true);
    (OP_CALL, call);
    (OP_CALLCODE, call_code);
    (OP_DELEGATECALL, delegate_call);
    (OP_STATICCALL, static_call);
    (OP_STOP, throw Stop);
    (OP_ADD, wrapped_add);
    (OP_MUL, wrapping_mul);
    (OP_SUB, wrapping_sub);
    (OP_DIV, div);
    (OP_SDIV, sdiv);
    (OP_MOD, rem);
    (OP_SMOD, smod);
    (OP_ADDMOD, addmod);
    (OP_MULMOD, mulmod);
    (OP_EXP, eval_exp);
    (OP_SIGNEXTEND, sign_extend);
    (OP_LT, lt);
    (OP_GT, gt);
    (OP_SLT, slt);
    (OP_SGT, sgt);
    (OP_EQ, eq_);
    (OP_ISZERO, iszero);
    (OP_AND, bitand);
    (OP_OR, bitor);
    (OP_XOR, bitxor);
    (OP_NOT, not_);
    (OP_BYTE, byte);
    (OP_SHL, shl);
    (OP_SHR, shr);
    (OP_SAR, sar);
    (OP_SHA3, sha3);
    (OP_ADDRESS, instr_address);
    (OP_BALANCE, balance);
    (OP_SELFBALANCE, selfbalance);
    (OP_CODESIZE, codesize);
    (OP_CODECOPY, codecopy);
    (OP_CALLDATALOAD, calldataload);
    (OP_CALLDATASIZE, calldatasize);
    (OP_CALLDATACOPY, calldatacopy);
    (OP_POP, pop);
    (OP_MLOAD, mload);
    (OP_MSTORE, mstore);
    (OP_MSTORE8, mstore8);
    (OP_JUMP, jump);
    (OP_JUMPI, jumpi);
    (OP_PC, pc);
    (OP_MSIZE, msize);
    (OP_JUMPDEST, jumpdest);
    (OP_PUSH0, push0);
    (OP_PUSH1, push 1);
    (OP_PUSH2, push 2);
    (OP_PUSH3, push 3);
    (OP_PUSH4, push 4);
    (OP_PUSH5, push 5);
    (OP_PUSH6, push 6);
    (OP_PUSH7, push 7);
    (OP_PUSH8, push 8);
    (OP_PUSH9, push 9);
    (OP_PUSH10, push 10);
    (OP_PUSH11, push 11);
    (OP_PUSH12, push 12);
    (OP_PUSH13, push 13);
    (OP_PUSH14, push 14);
    (OP_PUSH15, push 15);
    (OP_PUSH16, push 16);
    (OP_PUSH17, push 17);
    (OP_PUSH18, push 18);
    (OP_PUSH19, push 19);
    (OP_PUSH20, push 20);
    (OP_PUSH21, push 21);
    (OP_PUSH22, push 22);
    (OP_PUSH23, push 23);
    (OP_PUSH24, push 24);
    (OP_PUSH25, push 25);
    (OP_PUSH26, push 26);
    (OP_PUSH27, push 27);
    (OP_PUSH28, push 28);
    (OP_PUSH29, push 29);
    (OP_PUSH30, push 30);
    (OP_PUSH31, push 31);
    (OP_PUSH32, push 32);
    (OP_DUP1, dup 1);
    (OP_DUP2, dup 2);
    (OP_DUP3, dup 3);
    (OP_DUP4, dup 4);
    (OP_DUP5, dup 5);
    (OP_DUP6, dup 6);
    (OP_DUP7, dup 7);
    (OP_DUP8, dup 8);
    (OP_DUP9, dup 9);
    (OP_DUP10, dup 10);
    (OP_DUP11, dup 11);
    (OP_DUP12, dup 12);
    (OP_DUP13, dup 13);
    (OP_DUP14, dup 14);
    (OP_DUP15, dup 15);
    (OP_DUP16, dup 16);
    (OP_SWAP1, swap 1);
    (OP_SWAP2, swap 2);
    (OP_SWAP3, swap 3);
    (OP_SWAP4, swap 4);
    (OP_SWAP5, swap 5);
    (OP_SWAP6, swap 6);
    (OP_SWAP7, swap 7);
    (OP_SWAP8, swap 8);
    (OP_SWAP9, swap 9);
    (OP_SWAP10, swap 10);
    (OP_SWAP11, swap 11);
    (OP_SWAP12, swap 12);
    (OP_SWAP13, swap 13);
    (OP_SWAP14, swap 14);
    (OP_SWAP15, swap 15);
    (OP_SWAP16, swap 16);
    (OP_RETURN, ret);
    (OP_REVERT, revert);
    (OP_INVALID, throw (EvmErr (InvalidOpcode OP_INVALID)));
    (OP_BASEFEE, basefee);
    (OP_ORIGIN, origin);
    (OP_CALLER, instr_caller);
    (OP_CALLVALUE, callvalue);
    (OP_GASPRICE, gasprice);
    (OP_EXTCODESIZE, extcodesize);
    (OP_EXTCODEHASH, extcodehash);
    (OP_EXTCODECOPY, extcodecopy);
    (OP_RETURNDATASIZE, returndatasize);
    (OP_RETURNDATACOPY, returndatacopy);
    (OP_BLOCKHASH, blockhash);
    (OP_COINBASE, coinbase);
    (OP_TIMESTAMP, timestamp);
    (OP_NUMBER, number);
    (OP_DIFFICULTY, difficulty);
    (OP_GASLIMIT, gaslimit);
    (OP_SLOAD, sload);
    (OP_SSTORE, sstore);
    (OP_TLOAD, tload);
    (OP_TSTORE, tstore);
    (OP_MCOPY, mcopy);
    (OP_GAS, instr_gas);
    (OP_LOG0, log 0);
    (OP_LOG1, log 1);
    (OP_LOG2, log 2);
    (OP_LOG3, log 3);
    (OP_LOG4, log 4);
    (OP_SELFDESTRUCT, selfdestruct);
    (OP_CHAINID, chainid);
    (OP_BLOBHASH, blobhash);
    (OP_BLOBBASEFEE, blobbasefee) ].

Fixpoint find_instruction (opcode : Z) (table : list (Z * InstructionResult))
    : InstructionResult :=
  match table with
  | [] => throw (EvmErr (InvalidOpcode opcode))
  | (op, instruction) :: table' =>
      if op =? opcode then instruction else find_instruction opcode table'
  end.

(** One iteration of the loop. *)
Definition step : InstructionResult :=
  opcode ← get_self (λ i, get_bytecode_unchecked (instruction_pointer i) i);
  modify_self (λ i, set_ip (wrap usize_bits (instruction_pointer i + 1)) i) ;;
  charge_op 0 STEP_NATIVE_COST ;;
  find_instruction opcode dispatch_table.

Fixpoint run_loop (fuel : nat) : FM ExitCode := λ s,
  match fuel with
  | O => (Fault, s)
  | S fuel' =>
      match step s with
      | (Val _, s') => run_loop fuel' s'
      | (Err r, s') => (Val r, s')
      | (Fault, s') => (Fault, s')
      end
  end.

Definition run_fuel (s : St) : nat :=
  S (Z.to_nat (gas_native (gas (self s)) / STEP_NATIVE_COST)).

Definition run : FM ExitCode := λ s, run_loop (run_fuel s) s.

(** ** Yielding *)

Inductive ExecutionEnvironmentPreemptionPoint : Type :=
| CallRequest (next_heap : Heap Z) (request : ExternalCallRequest)
| End_ (completed : CompletedExecution).

Definition set_gas_resources (r : Res) (i : Interpreter) : Interpreter :=
  set_gas (set_resources r (gas i)) i.

Definition consume_all : FM unit :=
  modify_self (λ i, set_gas_resources (exhaust_ergs (resources (gas i))) i).
Definition take_all_resources : FM Res :=
  r ← get_self (λ i, resources (gas i));
  modify_self (set_gas_resources res_empty) ;;
  mret r.

(** [&self.heap[range]]. *)
Definition heap_range (range : Z * Z) : FM (list Z) :=
  data ← get_self (λ i, heap_data (heap i));
  expect (slice data range.1 (range.2 - range.1)).

(** The deployment at the end of a constructor: [Some e] is
    [error_after_constructor]. *)
Definition deploy (deployed_code : list Z) : FM (option EvmError) :=
  if MAX_CODE_SIZE <? Z.of_nat (length deployed_code) then
    mret (Some CreateContractSizeLimit)
  else if bool_decide (list.head deployed_code = Some 0xEF) then
    mret (Some CreateContractStartingWithEF)
  else
    a ← get_self address;
    r ← zoom io_get io_put (attempt (deploy_bytecode a deployed_code));
    match r with
    | inr _ => mret None
    | inl (LeafRuntime OutOfErgs) => mret (Some CodeStoreOutOfGas)
    | inl (LeafRuntime (FatalRuntime e)) => throw (SLeafRuntime (FatalRuntime e))
    | inl (LeafDefect e) => throw (SLeafDefect e)
    end.

Definition create_immediate_return_state (exit_code : ExitCode)
    : FM ExecutionEnvironmentPreemptionPoint :=
  returndata ←
    match exit_code with
    | Return | EvmErr Revert =>
        range ← get_self returndata_location;
        heap_range range
    | Stop | SelfDestruct | EvmErr _ => mret []
    | ExternalCall | FatalError _ =>
        throw (SLeafDefect (internal_error "Invalid exit code passed"))
    end;
  match exit_code with
  | EvmErr evm_error =>
      returndata ←
        (if negb (bool_decide (evm_error = Revert)) then consume_all ;; mret []
         else mret returndata);
      r ← take_all_resources;
      mret (End_ (mkCompleted r (Failed (mkReturnValues returndata None))))
  | _ =>
      constructor ← get_self is_constructor;
      result ←
        (if (constructor : bool) then
           error_after_constructor ← deploy returndata;
           match error_after_constructor with
           | Some _ => consume_all ;; mret (Failed ReturnValues_empty)
           | None => mret (Successful ReturnValues_empty)
           end
         else mret (Successful (mkReturnValues returndata None)));
      r ← take_all_resources;
      mret (End_ (mkCompleted r result))
  end.

Definition is_external_call (e : ExitCode) : bool :=
  match e with ExternalCall => true | _ => false end.

Definition execute_till_yield_point : FM ExecutionEnvironmentPreemptionPoint :=
  modify (λ s, mkSt (self s) (system s) None) ;;
  exit_code ← run;
  match exit_code with
  | FatalError e => throw e
  | _ =>
      external_call ← gets external_call_dest;
      match external_call with
      | Some call =>
          assert_that (is_external_call exit_code) ;;
          '(current_heap, next_heap) ← get_self (λ i, heap_freeze (heap i));
          input ← expect (slice current_heap (cr_input_data call).1
                            ((cr_input_data call).2 - (cr_input_data call).1));
          a ← get_self address;
          c ← get_self caller;
          mret (CallRequest next_heap
                  (mkCallRequest (cr_full_caller_resources call) (cr_ergs_to_pass call)
                     a (cr_destination_address call) c (cr_modifier call) input
                     (cr_call_value call) None))
      | None => create_immediate_return_state exit_code
      end
  end.
End Run.
