(* ===== verification/EvmFrame.v ===== *)
(** * Frames

    Models [evm_interpreter/src/ee_trait_impl.rs], the [ExecutionEnvironment]
    trait of the interpreter: what the operating system calls to create a frame,
    start it, resume it after an external call, decide what resources a call gets
    and whether a frame may start at all.

    [available_resources] is a local variable of these functions: it is passed
    and returned explicitly. *)

From stdpp Require Import strings.
From S2P Require Import Prelude Resources U256 SystemInterface EvmStack SliceVec EvmConstants Gas.
From S2P Require Import Bytecode EvmState EvmInstructions EvmRun.

(** [is_precompile] of [utils.rs], on the three 64-bit limbs of an address. *)
Definition is_precompile (address : Z) : bool :=
  if negb (limb address 1 =? 0) || negb (limb address 2 =? 0) then false
  else (0 <? limb address 0) && (limb address 0 <=? 10).

(** [Interpreter::new]. *)
Definition Interpreter_new : Interpreter :=
  mkInterpreter 0 Gas_new [] 0 0 [] [] (mkHeap 0 []) (0, 0) [] preprocessing_empty 0 false
    false None.

Section Frame.
Context {R : Ruint} {UZ : Usize} {FT : Features} {SYS : System}.
Abbreviation FM := (M St EvmSubsystemError).

(** A computation on a local variable that holds resources. *)
Definition with_local {A} (r : Res) (m : M Res SystemError A) : FM (A * Res) :=
  λ s, match m r with
       | (Val a, r') => (Val (a, r'), s)
       | (Err e, _) => (Err (subsystem_of_system e), s)
       | (Fault, _) => (Fault, s)
       end.

(** The same with access to the system. *)
Definition with_local_io {A E} (conv : E → EvmSubsystemError) (r : Res)
    (m : M (SysState * Res) E A) : FM (A * Res) :=
  λ s, let put sys := mkSt (self s) sys (external_call_dest s) in
       match m (system s, r) with
       | (Val a, (sys, r')) => (Val (a, r'), put sys)
       | (Err e, (sys, _)) => (Err (conv e), put sys)
       | (Fault, (sys, _)) => (Fault, put sys)
       end.

Definition set_bytecode (code : list Z) (pp : BytecodePreprocessingData) (i : Interpreter)
    : Interpreter :=
  mkInterpreter (instruction_pointer i) (gas i) (stack i) (caller i) (address i) (calldata i)
    (returndata i) (heap i) (returndata_location i) code pp (call_value i) (is_static i)
    (is_constructor i) (pending_os_request i).

(** The "set bytecode" part of [start_executing_frame]; returns what is left of
    [available_resources]. *)
Definition set_frame_code (modifier : CallModifier) (calldata : list Z)
    (props : CalleeAccountProperties) (available_resources : Res) : FM Res :=
  if bool_decide (modifier = Constructor) then
    '(pp, r) ← with_local available_resources (create_artifacts calldata);
    modify_self (set_bytecode calldata pp) ;;
    mret r
  else
    let bytecode := cap_bytecode props in
    if cap_code_version props =? DEFAULT_CODE_VERSION_BYTE then
      assert_that (cap_artifacts_len props =? 0) ;;
      '(pp, r) ← with_local available_resources (create_artifacts bytecode);
      modify_self (set_bytecode bytecode pp) ;;
      mret r
    else if cap_code_version props =? ARTIFACTS_CACHING_CODE_VERSION_BYTE then
      match parse_bytecode bytecode (cap_unpadded_code_len props) (cap_artifacts_len props) with
      | Val (code, pp) =>
          modify_self (set_bytecode code pp) ;;
          mret available_resources
      | Err e => throw (SLeafDefect e)
      | Fault => fault
      end
    else throw (SLeafDefect (internal_error "Unknown code version")).

Definition constructor_nonce_error (e : NonceSubsystemError) : EvmSubsystemError :=
  match e with
  | SLeafRuntime (FatalRuntime _) => SCascaded (CascadedNonce e)
  | _ => SLeafDefect (internal_error "Failed to set deployed nonce to 1")
  end.

(** Caller, address, staticness and calldata of the frame, by call modifier. *)
Record FrameContext : Type := mkContext {
  fc_caller : Z;
  fc_address : Z;
  fc_static : bool;
  fc_constructor : bool;
  fc_calldata : list Z
}.

Definition apply_modifier (modifier : CallModifier) (caller callee callers_caller : Z)
    (calldata : list Z) (available_resources : Res) : FM (FrameContext * Res) :=
  let r := available_resources in
  match modifier with
  | NoModifier => mret (mkContext caller callee false false calldata, r)
  | Delegate => mret (mkContext callers_caller caller false false calldata, r)
  | Static => mret (mkContext caller callee true false calldata, r)
  | DelegateStatic => mret (mkContext callers_caller caller true false calldata, r)
  | Constructor =>
      '(_, r) ← with_local_io constructor_nonce_error r (infinite_ergs (increment_nonce callee 1));
      mret (mkContext caller callee false true [], r)
  | EVMCallcode => mret (mkContext caller caller false false calldata, r)
  | EVMCallcodeStatic => mret (mkContext caller caller true false calldata, r)
  | ZKVMSystem | ZKVMSystemStatic => throw (SLeafUsage (UnexpectedModifier modifier))
  end.

Definition enter_frame (ctx : FrameContext) (r : Res) (heap : Heap Z) (value : Z)
    (i : Interpreter) : Interpreter :=
  mkInterpreter (instruction_pointer i) (set_resources r (gas i)) (stack i) (fc_caller ctx)
    (fc_address ctx) (fc_calldata ctx) (returndata i) heap (returndata_location i) (bytecode i)
    (bytecode_preprocessing i) value (fc_static ctx) (fc_constructor ctx)
    (pending_os_request i).

(** [start_executing_frame] up to the call of [execute_till_yield_point]. *)
Definition prepare_frame (frame_state : ExecutionEnvironmentLaunchParams) (heap : Heap Z)
    : FM unit :=
  let req := external_call frame_state in
  assert_that (bool_decide (call_scratch_space req = None)) ;;
  r ← set_frame_code (modifier req) (input req)
        (callee_account_properties (environment_parameters frame_state))
        (available_resources req);
  '(ctx, r) ← apply_modifier (modifier req) (ecr_caller req) (callee req) (callers_caller req)
                (input req) r;
  old ← get_self (λ i, resources (gas i));
  assert_that ((ergs_0 (ergs old) =? 0) && (as_u64 (native old) =? 0)) ;;
  modify_self (enter_frame ctx r heap (nominal_token_value req)).

Definition start_executing_frame (frame_state : ExecutionEnvironmentLaunchParams)
    (heap : Heap Z) : FM ExecutionEnvironmentPreemptionPoint :=
  prepare_frame frame_state heap ;;
  execute_till_yield_point.

(** ** Resuming after an external call *)

Definition range_len (r : Z * Z) : Z := Z.max 0 (r.2 - r.1).

Definition copy_returndata_to_heap (returndata_region : list Z) : FM unit :=
  loc ← get_self returndata_location;
  (if negb (range_len loc =? 0) then
     let to_copy := Z.min (Z.of_nat (length returndata_region)) (range_len loc) in
     heap_write loc.1 (take (Z.to_nat to_copy) returndata_region)
   else mret tt) ;;
  modify_self (set_returndata returndata_region).

(** [self.stack.push(..).expect("must have enough space")]. *)
Definition push_expect (v : Z) : FM unit := unwrap (push_word v).

(** The match on the result of the call; [false] is the early return of a failed
    preparation. *)
Definition resume_with (preemption_reason : PendingOsRequest) (call_request_result : CallResult)
    : FM bool :=
  match call_request_result with
  | PreparationStepFailed => mret false
  | Failed rv =>
      match preemption_reason with
      | PendingCall => copy_returndata_to_heap (rv_returndata rv)
      | PendingCreate _ =>
          loc ← get_self returndata_location;
          assert_that (range_len loc =? 0) ;;
          assert_that (bool_decide (return_scratch_space rv = None)) ;;
          modify_self (set_returndata (rv_returndata rv))
      end ;;
      push_expect 0 ;;
      mret true
  | Successful rv =>
      match preemption_reason with
      | PendingCall =>
          copy_returndata_to_heap (rv_returndata rv) ;;
          push_expect 1
      | PendingCreate deployed_at =>
          assert_that (bool_decide (return_scratch_space rv = None)) ;;
          assert_that (bool_decide (rv_returndata rv = [])) ;;
          modify_self (set_returndata (rv_returndata rv)) ;;
          push_expect (b160_to_u256 deployed_at)
      end ;;
      mret true
  end.

Definition continue_after_preemption (returned_resources : Res)
    (call_request_result : CallResult) : FM ExecutionEnvironmentPreemptionPoint :=
  pending ← get_self pending_os_request;
  modify_self (set_pending None) ;;
  match pending with
  | None => throw (SLeafUsage InvalidReenterAfterPreemtion)
  | Some preemption_reason =>
      if has_scratch_space call_request_result then
        throw (SLeafDefect (internal_error "Unexpected scratch space"))
      else
        native ← get_self (λ i, gas_native (gas i));
        if negb (native =? 0) then
          throw (SLeafDefect (internal_error "Invalid initial native resources"))
        else
          zoom (λ s, resources (gas (self s)))
            (λ r s, set_self (set_gas_resources r (self s)) s)
            (map_err subsystem_of_system (reclaim returned_resources)) ;;
          go ← resume_with preemption_reason call_request_result;
          if (go : bool) then execute_till_yield_point
          else create_immediate_return_state (EvmErr OutOfGas)
  end.

(** ** Resources of a call *)

Definition callee_is_empty (p : CalleeAccountProperties) : bool :=
  (cap_nonce p =? 0) && (cap_unpadded_code_len p =? 0) && (cap_nominal_token_balance p =? 0).

Abbreviation RM := (M Res EvmSubsystemError).

Definition charge_ergs (e : Ergs) : RM unit :=
  map_err subsystem_of_system (charge (from_ergs e)).

(** Surcharges of a call that carries value; the result is the stipend. *)
Definition charge_for_value (req : ExternalCallRequest) (callee_parameters : CalleeAccountProperties)
    : RM (option Ergs) :=
  if negb (bool_decide (modifier req = Constructor)) then
    let has_value := negb (nominal_token_value req =? 0) in
    stipend ←
      (if negb (is_delegate req) && has_value then
         charge_ergs (mkErgs (GAS_CALLVALUE * ERGS_PER_GAS)) ;;
         mret (Some (mkErgs (GAS_CALL_STIPEND * ERGS_PER_GAS)))
       else mret None);
    (if negb (is_callcode req || is_delegate req) && has_value
        && callee_is_empty callee_parameters
     then charge_ergs (mkErgs (GAS_NEWACCOUNT * ERGS_PER_GAS))
     else mret tt) ;;
    mret stipend
  else mret None.

(** [resources_available_in_caller_frame] is the state. *)
Definition calculate_resources_passed_in_external_call (req : ExternalCallRequest)
    (callee_parameters : CalleeAccountProperties) : RM Res :=
  stipend ← charge_for_value req callee_parameters;
  available ← gets ergs;
  let max_passable_ergs := apply_63_64_rule available in
  let ergs_to_pass := mkErgs (Z.min (ergs_0 (ergs_to_pass req)) (ergs_0 max_passable_ergs)) in
  let resources_to_pass := from_ergs ergs_to_pass in
  unwrap (charge resources_to_pass) ;;
  match stipend with
  | Some stipend => mret (add_ergs stipend resources_to_pass)
  | None => mret resources_to_pass
  end.

(** ** Checks before a frame starts *)

(** The state is the IO state and [frame_state.external_call.available_resources];
    [false] is a frame that fails without being executed. *)
Definition before_executing_frame (frame_state : ExecutionEnvironmentLaunchParams)
    : M (SysState * Res) EvmSubsystemError bool :=
  let req := external_call frame_state in
  let depth := callstack_depth (environment_parameters frame_state) in
  let props := callee_account_properties (environment_parameters frame_state) in
  if 1024 <? depth then mret false
  else
    enough ←
      (if negb (nominal_token_value req =? 0) && negb (is_delegate req) then
         caller_balance ← map_err subsystem_of_system
                            (infinite_ergs (read_account_balance (ecr_caller req)));
         mret (negb (caller_balance <? nominal_token_value req))
       else mret true);
    if negb enough then mret false
    else if bool_decide (modifier req = Constructor) then
      nonce ←
        (if 0 <? depth then attempt (infinite_ergs (increment_nonce (ecr_caller req) 1))
         else mret (inr 0));
      match nonce with
      | inl (SLeafUsage NonceOverflowError) => mret false
      | inl e => throw (SCascaded (CascadedNonce e))
      | inr _ =>
          if negb (cap_unpadded_code_len props =? 0) || negb (cap_nonce props =? 0) then
            r ← gets snd;
            zoom snd (λ r s, (s.1, r)) (unwrap (charge (from_ergs (ergs r)))) ;;
            mret false
          else mret true
      end
    else mret true.
End Frame.
