(* ===== verification/EvmLogic.v ===== *)
(** * The logic of frames

    [ok c m φ c'] is the judgement the instructions are verified with: from a
    well-formed frame in a configuration [c] the computation [m] does not panic;
    ending normally, it leaves a well-formed frame in configuration [c'] and a
    value in [φ]; ending with an exit code, it leaves what the operating system
    needs to handle that code ([ended]); and either way it only evolves the frame
    ([evolves]): it hands out no resources, keeps the fields that identify the
    frame, does not shrink the memory, and, in a static frame, does not touch the
    world.

    A configuration records what the code relies on between two operations: the
    frame's staticness, bounds of the stack size and of the program counter, how
    much memory has been paid for, and the range set for returned data.  There is
    one rule per primitive of [EvmState], and a tactic that applies them. *)

From stdpp Require Import strings.
From S2P Require Import Prelude Resources U256 SystemInterface EvmStack SliceVec EvmConstants Gas.
From S2P Require Import Bytecode EvmState EvmInstructions.

Section Logic.
Context {R : Ruint} {UZ : Usize} {FT : Features} {SYS : System} {LAWS : SystemLaws}.
Abbreviation IM := (M St ExitCode).

(** ** Well-formed frames *)

(** Bytes that fit into the address space with room to step over the end. *)
Definition bytes_ok (l : list Z) : Prop :=
  Forall is_u8 l ∧ Z.of_nat (length l) < 2 ^ usize_bits - 64.

Record memory_ok (h : Heap Z) : Prop := {
  mem_bytes : Forall is_u8 (heap_data h);
  mem_words : Z.of_nat (length (heap_data h)) mod 32 = 0;
  mem_limit : Z.of_nat (length (heap_data h)) < 2 ^ 32;
  mem_cap : (length (heap_data h) ≤ heap_cap h)%nat
}.

Record frame_ok (i : Interpreter) : Prop := {
  f_gas : gas_wf (gas i);
  f_stack : Forall is_u256 (stack i);
  f_size : (length (stack i) ≤ STACK_SIZE)%nat;
  f_heap : memory_ok (heap i);
  f_paid : gas_paid_for_heap_growth (gas i) = memory_gas (heap_len i / 32);
  f_code : bytes_ok (bytecode i);
  f_pp : preprocessing_ok (bytecode_preprocessing i);
  f_pp_len : original_bytecode_len (bytecode_preprocessing i) = Z.of_nat (length (bytecode i));
  f_calldata : bytes_ok (calldata i);
  f_returndata : bytes_ok (returndata i);
  f_address : is_b160 (address i);
  f_caller : is_b160 (caller i);
  f_value : is_u256 (call_value i);
  f_kind : is_static i = true → is_constructor i = false
}.

(** What is left of it when an instruction fails half-way. *)
Record remains_ok (i : Interpreter) : Prop := {
  r_gas : gas_wf (gas i);
  r_bytes : Forall is_u8 (heap_data (heap i))
}.

Definition identity_of (i : Interpreter) :=
  (caller i, address i, calldata i, returndata i, bytecode i, bytecode_preprocessing i,
   call_value i, is_static i, is_constructor i, heap_cap (heap i)).

Record evolves (s s' : St) : Prop := {
  ev_res : res_le_both (resources (gas (self s'))) (resources (gas (self s)));
  ev_identity : identity_of (self s') = identity_of (self s);
  ev_memory : heap_len (self s) ≤ heap_len (self s');
  ev_world : is_static (self s) = true → world (system s') = world (system s);
  ev_later : later (system s) (system s')
}.

#[global] Instance evolves_preorder : PreOrder evolves.
Proof.
  split.
  - intros s. by split.
  - intros s1 s2 s3 [R1 I1 M1 W1 L1] [R2 I2 M2 W2 L2]. split.
    + by etransitivity.
    + congruence.
    + lia.
    + intros Hs. rewrite W2; [by apply W1|]. unfold identity_of in I1. congruence.
    + by etransitivity.
Qed.

(** ** Exit codes *)

(** Running out of gas is never a fatal error. *)
Definition fatal (e : EvmSubsystemError) : Prop := root_cause e ≠ RootRuntime OutOfErgs.

Definition plain (e : ExitCode) : Prop :=
  match e with
  | Return | EvmErr Revert | ExternalCall => False
  | FatalError e => fatal e
  | _ => True
  end.

Definition range_in (r : Z * Z) (i : Interpreter) : Prop := 0 ≤ r.1 ≤ r.2 ∧ r.2 ≤ heap_len i.

Definition is_static_modifier (m : CallModifier) : bool :=
  match m with Static | DelegateStatic | EVMCallcodeStatic | ZKVMSystemStatic => true
  | _ => false end.

(** A call request the operating system can act on, from a frame that can be
    resumed. *)
Record request_ok (s : St) (i : Interpreter) (req : EVMCallRequest) : Prop := {
  rq_frame : frame_ok i;
  rq_ip : 0 ≤ instruction_pointer i ≤ Z.of_nat (length (bytecode i)) + 32;
  rq_stack : (length (stack i) < STACK_SIZE)%nat;
  rq_taken : resources (gas i) = res_empty;
  rq_wf : res_wf (cr_full_caller_resources req);
  rq_res : res_le_both (cr_full_caller_resources req) (resources (gas (self s)));
  rq_ergs : is_u64 (ergs_0 (cr_ergs_to_pass req));
  rq_input : range_in (cr_input_data req) i;
  rq_output : range_in (returndata_location i) i;
  rq_value : is_u256 (cr_call_value req);
  rq_callee : is_b160 (cr_destination_address req);
  rq_pending :
    if decide (cr_modifier req = Constructor)
    then pending_os_request i = Some (PendingCreate (cr_destination_address req))
         ∧ returndata_location i = (0, 0)
    else pending_os_request i = Some PendingCall;
  rq_modifier : cr_modifier req ≠ ZKVMSystem ∧ cr_modifier req ≠ ZKVMSystemStatic;
  rq_static : is_static i = true → is_static_modifier (cr_modifier req) = true;
  rq_static_value : cr_modifier req = Static → cr_call_value req = 0
}.

Definition ended (s : St) (e : ExitCode) (s' : St) : Prop :=
  remains_ok (self s') ∧
  match e with
  | Return | EvmErr Revert =>
      range_in (returndata_location (self s')) (self s') ∧ external_call_dest s' = None
  | ExternalCall =>
      ∃ req, external_call_dest s' = Some req ∧ request_ok s (self s') req
  | FatalError e => fatal e ∧ external_call_dest s' = None
  | _ => external_call_dest s' = None
  end.

(** ** Configurations *)

Record cfg : Type := mkCfg {
  c_static : bool;
  c_lo : nat;
  c_hi : nat;
  c_memory : Z;
  c_loc : option (Z * Z);
  c_ip : Z
}.

Record holds (c : cfg) (i : Interpreter) : Prop := {
  h_static : is_static i = c_static c;
  h_lo : (c_lo c ≤ length (stack i))%nat;
  h_hi : (length (stack i) ≤ c_hi c)%nat;
  h_memory : c_memory c ≤ heap_len i;
  h_loc : ∀ l, c_loc c = Some l → returndata_location i = l;
  h_ip : 0 ≤ instruction_pointer i ≤ Z.of_nat (length (bytecode i)) + c_ip c
}.

(** Between two instructions, and at the start of one. *)
Definition between (b : bool) : cfg := mkCfg b 0 STACK_SIZE 0 None 32.
Definition fetched (b : bool) : cfg := mkCfg b 0 STACK_SIZE 0 None 0.

Definition stack_cfg (lo hi : nat) (c : cfg) : cfg :=
  mkCfg (c_static c) lo hi (c_memory c) (c_loc c) (c_ip c).
Definition memory_cfg (n : Z) (c : cfg) : cfg :=
  mkCfg (c_static c) (c_lo c) (c_hi c) (Z.max (c_memory c) n) (c_loc c) (c_ip c).
Definition loc_cfg (l : Z * Z) (c : cfg) : cfg :=
  mkCfg (c_static c) (c_lo c) (c_hi c) (c_memory c) (Some l) (c_ip c).

Definition idle (s : St) : Prop := frame_ok (self s) ∧ external_call_dest s = None.

Definition ok {A} (c : cfg) (m : IM A) (φ : A → Prop) (c' : cfg) : Prop :=
  ∀ s, idle s → holds c (self s) →
    match m s with
    | (Val a, s') => idle s' ∧ evolves s s' ∧ holds c' (self s') ∧ φ a
    | (Err e, s') => evolves s s' ∧ ended s e s'
    | (Fault, _) => False
    end.

(** ** Structural rules *)

Lemma frame_remains i : frame_ok i → remains_ok i.
Proof. intros H. split; [apply (f_gas _ H)|apply (mem_bytes _ (f_heap _ H))]. Qed.

Lemma ended_before s1 s2 e s' : evolves s1 s2 → ended s2 e s' → ended s1 e s'.
Proof.
  intros Hev [Hr He]. split; [done|]. destruct e as [| | | |[]|]; try done.
  destruct He as (req & Hreq & []). exists req. split; [done|]. split; try done.
  etransitivity; [done|]. apply Hev.
Qed.

Lemma ended_plain s e s' :
  plain e → remains_ok (self s') → external_call_dest s' = None → ended s e s'.
Proof. intros He Hr Hx. split; [done|]. by destruct e as [| | | |[]|]. Qed.

Lemma ok_bind {A B} c c1 c2 (m : IM A) (k : A → IM B) φ ψ :
  ok c m φ c1 → (∀ a, φ a → ok c1 (k a) ψ c2) → ok c (m ≫= k) ψ c2.
Proof.
  intros Hm Hk s Hi Hc. specialize (Hm s Hi Hc). unfold mbind, M_bind.
  destruct (m s) as [[a|e|] s1]; [|done|done]. destruct Hm as (Hi1 & Hev & Hc1 & Ha).
  specialize (Hk a Ha s1 Hi1 Hc1). destruct (k a s1) as [[b|e|] s2]; [| |done].
  - destruct Hk as (? & ? & ?). split; [done|]. split; [by etransitivity|done].
  - destruct Hk as [Hev2 He]. split; [by etransitivity|by eapply ended_before].
Qed.

Lemma ok_assoc {A B C} c (m : IM A) (k : A → IM B) (k' : B → IM C) φ c' :
  ok c (m ≫= λ x, k x ≫= k') φ c' → ok c ((m ≫= k) ≫= k') φ c'.
Proof.
  intros H s Hi Hc. specialize (H s Hi Hc). unfold mbind, M_bind in *.
  destruct (m s) as [[a|e|] s1]; done.
Qed.

Lemma ok_ret {A} c (a : A) (φ : A → Prop) : φ a → ok c (mret a) φ c.
Proof. intros Ha s Hi Hc. cbn. by split; [|split]. Qed.

Lemma ok_throw {A} c e (φ : A → Prop) c' : plain e → ok c (throw e) φ c'.
Proof.
  intros He s [Hf Hx] Hc. cbn. split; [done|]. by apply ended_plain; [|apply frame_remains|].
Qed.

Lemma ok_throw_bind {A B} c e (k : A → IM B) φ c' : plain e → ok c (throw e ≫= k) φ c'.
Proof. apply ok_throw. Qed.

Record cfg_le (c c' : cfg) : Prop := {
  le_static : c_static c' = c_static c;
  le_lo : (c_lo c' ≤ c_lo c)%nat;
  le_hi : (c_hi c ≤ c_hi c')%nat;
  le_memory : c_memory c' ≤ c_memory c;
  le_loc : c_loc c' = None ∨ c_loc c' = c_loc c;
  le_ip : c_ip c ≤ c_ip c'
}.

Lemma holds_le c c' i : cfg_le c c' → holds c i → holds c' i.
Proof.
  intros [L1 L2 L3 L4 L5 L6] [H1 H2 H3 H4 H5 H6]. split; try lia; [congruence|].
  intros l Hl. apply H5. destruct L5; congruence.
Qed.

Lemma ok_conseq {A} c (m : IM A) (φ ψ : A → Prop) c1 c2 :
  ok c m φ c1 → (∀ a, φ a → ψ a) → cfg_le c1 c2 → ok c m ψ c2.
Proof.
  intros Hm Hφ Hle s Hi Hc. specialize (Hm s Hi Hc).
  destruct (m s) as [[a|e|] s']; [|done|done]. destruct Hm as (? & ? & ? & ?).
  split; [done|]. split; [done|]. split; [by eapply holds_le|auto].
Qed.

Lemma ok_pre {A} c0 c (m : IM A) φ c' : cfg_le c0 c → ok c m φ c' → ok c0 m φ c'.
Proof. intros Hle Hm s Hi Hc. apply Hm; [done|]. by eapply holds_le. Qed.

Lemma ok_gets {A} c (f : Interpreter → A) (φ : A → Prop) :
  (∀ i, frame_ok i → holds c i → φ (f i)) → ok c (get_self f) φ c.
Proof. intros Hf s [Hi Hx] Hc. cbn. by split; [|split; [|split; [|apply Hf]]]. Qed.

Lemma ok_metadata {A} c (f : Metadata → A) (φ : A → Prop) :
  (∀ md, metadata_ok md → φ (f md)) → ok c (metadata f) φ c.
Proof.
  intros Hf s Hi Hc. cbn. split; [done|split; [done|split; [done|]]]. apply Hf, sl_metadata.
Qed.

Lemma ok_lift_opt {A} c e (o : option A) (φ : A → Prop) :
  plain e → (∀ a, o = Some a → φ a) → ok c (lift_opt e o) φ c.
Proof. intros He Ho. destruct o; [apply ok_ret; auto|by apply ok_throw]. Qed.

Lemma ok_expect {A} c (o : option A) (φ : A → Prop) a :
  o = Some a → φ a → ok c (expect o) φ c.
Proof. intros ->. apply ok_ret. Qed.

Lemma ok_assert c b : b = true → ok c (assert_that b) (λ _, True) c.
Proof. intros ->. by apply ok_ret. Qed.

(** ** Rules of the primitives *)

(** Replacing the resources of a frame. *)
Lemma frame_set_gas i g :
  frame_ok i → gas_wf g → gas_paid_for_heap_growth g = gas_paid_for_heap_growth (gas i) →
  frame_ok (set_gas g i).
Proof. intros [] Hg Hp. split; try done. cbn. by rewrite Hp. Qed.

Lemma holds_set_gas c i g : holds c i → holds c (set_gas g i).
Proof. by intros []. Qed.

Lemma evolves_gas s g sys x :
  res_le_both (resources g) (resources (gas (self s))) →
  (is_static (self s) = true → world sys = world (system s)) → later (system s) sys →
  evolves s (mkSt (set_gas g (self s)) sys x).
Proof. by split. Qed.

(** A gas operation that only takes. *)
Definition takes {A} (m : M Gas ExitCode A) (φ : A → Prop) : Prop :=
  ∀ g, gas_wf g →
    gas_wf (m g).2 ∧ res_le_both (resources (m g).2) (resources g)
    ∧ gas_paid_for_heap_growth (m g).2 = gas_paid_for_heap_growth g
    ∧ match (m g).1 with Val a => φ a | Err e => plain e | Fault => False end.

Lemma ok_on_gas {A} c (m : M Gas ExitCode A) φ : takes m φ → ok c (on_gas m) φ c.
Proof.
  intros Hm s [Hi Hx] Hc. specialize (Hm (gas (self s)) (f_gas _ Hi)).
  unfold on_gas, zoom. destruct (m (gas (self s))) as [o g']. cbn [fst snd] in Hm.
  destruct Hm as (Hwf & Hle & Hpaid & Ho).
  assert (evolves s (set_self (set_gas g' (self s)) s)) as Hev by by apply evolves_gas.
  destruct o as [a|e|]; [| |done].
  - split; [split; [by apply frame_set_gas|done]|]. split; [done|]. split; [by apply holds_set_gas|done].
  - split; [done|]. apply ended_plain; [done|split; cbn; [done|]|done]. apply (mem_bytes _ (f_heap _ Hi)).
Qed.

Lemma takes_spend gas n : 0 ≤ gas → is_u64 n → takes (spend_gas_and_native gas n) (λ _, True).
Proof.
  intros Hgas Hn g Hg. destruct (spend_frugal gas n Hgas Hn g Hg) as [Hw Hle].
  rewrite spend_gas_and_native_run in * by done. cbn [fst snd] in *.
  split; [done|]. split; [done|]. split; [by destruct (2 ^ 64 <=? gas * 256)|].
  by repeat destruct (_ <=? _); repeat destruct (_ <? _).
Qed.

Lemma spend_gas_as_both gas : spend_gas gas = spend_gas_and_native gas 0.
Proof. done. Qed.

Lemma takes_spend_gas gas : 0 ≤ gas → takes (spend_gas gas) (λ _, True).
Proof. intros Hg. rewrite spend_gas_as_both. by apply takes_spend. Qed.

Lemma exit_of_system_plain e : plain (exit_of_system e).
Proof. by destruct e as [|[]]. Qed.

Lemma takes_resources {A} (m : M Res SystemError A) φ : res_ok_fn φ m → takes (on_resources m) φ.
Proof.
  intros Hm g Hg. specialize (Hm (resources g) Hg). unfold on_resources, zoom, map_err.
  destruct (m (resources g)) as [[a|e|] r]; cbn in *; destruct Hm as (? & ? & ? & ?);
    (split; [done|]); (split; [done|]); (split; [done|]); try done. apply exit_of_system_plain.
Qed.

(** An operation of the system with the frame's resources. *)
Lemma ok_io {A E} c (conv : E → ExitCode) (m : M (SysState * Res) E A) φ :
  (∀ e, plain (conv e)) → io_ok φ m →
  (c_static c = true → ∀ s, world (m s).2.1 = world s.1) →
  ok c (on_io conv m) φ c.
Proof.
  intros Hconv Hm Hw s [Hi Hx] Hc.
  assert (is_static (self s) = true → world (m (io_get s)).2.1 = world (system s)) as Hws.
  { intros Hs. apply Hw. by rewrite <- (h_static _ _ Hc). }
  specialize (Hm (io_get s) (f_gas _ Hi)). unfold on_io, zoom, map_err.
  destruct (m (io_get s)) as [o [sys r]]. cbn [fst snd] in *.
  destruct Hm as (Hwf & He & Hn & Hla & Ho).
  assert (evolves s (io_put (sys, r) s)) as Hev by by apply evolves_gas.
  destruct o as [a|e|]; [| |done].
  - split; [split; [by apply frame_set_gas|done]|]. split; [done|].
    split; [by apply holds_set_gas|done].
  - split; [done|]. apply ended_plain; [done|split; cbn; [done|]|done].
    apply (mem_bytes _ (f_heap _ Hi)).
Qed.

(** Stack operations. *)
Definition stack_fn {A} (lo hi : nat) (m : M (list Z) ExitCode A) (φ : A → Prop) (lo' hi' : nat)
    : Prop :=
  ∀ l, Forall is_u256 l → (lo ≤ length l ≤ hi)%nat → (length l ≤ STACK_SIZE)%nat →
    match m l with
    | (Val a, l') => Forall is_u256 l' ∧ (lo' ≤ length l' ≤ hi')%nat
                     ∧ (length l' ≤ STACK_SIZE)%nat ∧ φ a
    | (Err e, l') => plain e
    | (Fault, _) => False
    end.

Lemma ok_on_stack {A} c (m : M (list Z) ExitCode A) φ lo' hi' :
  stack_fn (c_lo c) (c_hi c) m φ lo' hi' → ok c (on_stack m) φ (stack_cfg lo' hi' c).
Proof.
  intros Hm s [Hi Hx] Hc. destruct Hc as [C1 C2 C3 C4 C5 C6].
  specialize (Hm (stack (self s)) (f_stack _ Hi) (conj C2 C3) (f_size _ Hi)).
  unfold on_stack, zoom. destruct (m (stack (self s))) as [[a|e|] l']; [| |done].
  - destruct Hm as (Hu & Hl & Hs & Ha). split.
    { split; [|done]. by destruct Hi. }
    split; [by split|]. split; [|done]. by split; try done; cbn; lia.
  - split; [by split|]. apply ended_plain; [done| |done]. split; [apply (f_gas _ Hi)|apply (mem_bytes _ (f_heap _ Hi))].
Qed.

Lemma ok_modify c (f : Interpreter → Interpreter) c' :
  (∀ i, frame_ok i → holds c i →
    frame_ok (f i) ∧ gas (f i) = gas i ∧ identity_of (f i) = identity_of i
    ∧ heap_len i ≤ heap_len (f i) ∧ holds c' (f i)) →
  ok c (modify_self f) (λ _, True) c'.
Proof.
  intros Hf s [Hi Hx] Hc. destruct (Hf _ Hi Hc) as (H1 & H2 & H3 & H4 & H5). cbn.
  split; [by split|]. split; [|done]. split; cbn; try done. by rewrite H2.
Qed.


Lemma ok_set_loc c l : ok c (modify_self (set_returndata_location l)) (λ _, True) (loc_cfg l c).
Proof.
  apply ok_modify. intros i Hi [C1 C2 C3 C4 C5 C6]. split; [by destruct Hi|].
  split; [done|]. split; [done|]. split; [done|]. split; try done. cbn. congruence.
Qed.

(** Returning or reverting with a range of paid memory. *)
Lemma ok_return {A} c e l (φ : A → Prop) c' :
  e = Return ∨ e = EvmErr Revert → c_loc c = Some l → 0 ≤ l.1 ≤ l.2 → l.2 ≤ c_memory c →
  ok c (throw e) φ c'.
Proof.
  intros He Hl Hr Hm s [Hi Hx] Hc. cbn. split; [done|]. split; [by apply frame_remains|].
  assert (range_in (returndata_location (self s)) (self s)) as Hin.
  { rewrite (h_loc _ _ Hc l Hl). split; [done|]. pose proof (h_memory _ _ Hc). lia. }
  destruct He as [-> | ->]; done.
Qed.

(** *** Memory *)

Lemma resize_size offset len :
  0 ≤ offset → 0 ≤ len → saturating_add usize_bits offset len ≤ umax 32 - 31 →
  saturating_add usize_bits offset len = offset + len.
Proof.
  intros Ho Hl. unfold saturating_add, umax.
  assert (2 ^ 32 ≤ 2 ^ usize_bits) by (apply Z.pow_le_mono_r; [|apply usize_bits_pos]; lia). lia.
Qed.

(** Paying for growth leaves the ledger at the price of the new size. *)
Lemma pay_growth_cases cur new g :
  gas_wf g → gas_paid_for_heap_growth g = memory_gas (cur / 32) → 0 ≤ cur ≤ new → new < 2 ^ 32 →
  gas_wf (pay_for_memory_growth cur new g).2
  ∧ res_le_both (resources (pay_for_memory_growth cur new g).2) (resources g)
  ∧ match (pay_for_memory_growth cur new g).1 with
    | Val _ => gas_paid_for_heap_growth (pay_for_memory_growth cur new g).2 = memory_gas (new / 32)
    | Err e => plain e
    | Fault => False
    end.
Proof.
  intros Hg Hp Hcur Hnew. rewrite pay_for_memory_growth_run by done.
  assert (0 ≤ memory_gas (new / 32) - memory_gas (cur / 32)) as Hd.
  { pose proof (memory_gas_mono (cur / 32) (new / 32)).
    pose proof (Z.div_pos cur 32). pose proof (Z.div_le_mono cur new 32). lia. }
  destruct (takes_spend _ (35 + (new - cur)) Hd ltac:(unfold in_width; lia) g Hg)
    as (Hw & Hle & _ & Ho).
  unfold mbind, M_bind.
  destruct (spend_gas_and_native _ _ g) as [[[]|e|] g']; cbn in *; done.
Qed.

Lemma memory_resize h n :
  memory_ok h → (length (heap_data h) ≤ n ≤ heap_cap h)%nat → Z.of_nat n mod 32 = 0 →
  Z.of_nat n < 2 ^ 32 →
  memory_ok (mkHeap (heap_cap h)
    (take n (heap_data h) ++ repeat 0 (n - length (heap_data h))%nat))
  ∧ length (take n (heap_data h) ++ repeat 0 (n - length (heap_data h))%nat) = n.
Proof.
  intros [Hb Hw Hl Hcap] Hn Hm Hlim. rewrite take_ge by lia.
  assert (length (heap_data h ++ repeat 0 (n - length (heap_data h))) = n) as Hlen.
  { rewrite length_app, repeat_length. lia. }
  split; [|done]. split; cbn [heap_data heap_cap]; rewrite ?Hlen; try done; [|lia].
  apply Forall_app. split; [done|]. apply Forall_forall. intros x Hx.
  apply list_elem_of_In, repeat_spec in Hx. by subst.
Qed.

Lemma frame_grow i g h' n :
  frame_ok i → gas_wf g → memory_ok h' → length (heap_data h') = Z.to_nat n → 0 ≤ n →
  gas_paid_for_heap_growth g = memory_gas (n / 32) → frame_ok (set_heap h' (set_gas g i)).
Proof.
  intros [] Hg Hh Hl Hn Hp. split; try done. unfold heap_len. cbn. rewrite Hl, Hp. f_equal. f_equal. lia.
Qed.

Lemma ok_resize_heap c offset len :
  in_width usize_bits offset → in_width usize_bits len →
  ok c (resize_heap offset len) (λ _, True) (memory_cfg (offset + len) c).
Proof.
  intros [Ho _] [Hl _] s [Hi Hx] Hc. unfold resize_heap.
  pose proof (resize_size offset len Ho Hl) as Hsat.
  destruct (Z.ltb_spec (umax 32 - 31) (saturating_add usize_bits offset len)) as [|Hsmall].
  { split; [done|]. by apply ended_plain; [|apply frame_remains|]. }
  specialize (Hsat Hsmall). rewrite Hsat in Hsmall |- *. clear Hsat. unfold umax in Hsmall.
  destruct (next_multiple_of_spec (offset + len) 32 ltac:(lia)) as [Hn Hmod].
  set (new := next_multiple_of (offset + len) 32) in *.
  assert (new < 2 ^ 32) as Hlim.
  { pose proof (Z.div_mod new 32 ltac:(lia)). lia. }
  erewrite bind_val by done. destruct Hc as [C1 C2 C3 C4 C5 C6].
  destruct (Z.ltb_spec (heap_len (self s)) new) as [Hgrow|Hfits].
  2:{ cbn. split; [done|]. split; [done|]. split; [|done]. split; try done. cbn. lia. }
  destruct (pay_growth_cases (heap_len (self s)) new (gas (self s))) as (Hwf & Hle & Ho');
    [apply Hi|apply Hi|unfold heap_len in *; lia|done|].
  unfold on_gas, zoom, mbind, M_bind.
  destruct (pay_for_memory_growth _ _ _) as [[[]|e|] g']; cbn [fst snd] in *; [| |done].
  2:{ split; [by apply (evolves_gas s g')|]. apply ended_plain; [done|split; cbn; [done|]|done].
      apply (mem_bytes _ (f_heap _ Hi)). }
  unfold map_err, heap_resize. cbn. destruct (decide _) as [Hfull|Hroom].
  { split; [by apply (evolves_gas s g')|]. apply ended_plain; [done|split; cbn; [done|]|done].
    apply (mem_bytes _ (f_heap _ Hi)). }
  destruct (memory_resize (heap (self s)) (Z.to_nat new)) as [Hm Hlen];
    [apply Hi|unfold heap_len in *; lia|by rewrite Z2Nat.id by lia|lia|].
  split; [split; [|done]; by apply (frame_grow _ _ _ new); try done; lia|].
  unfold heap_len in *. split; [split; cbn; try done; unfold heap_len; cbn; lia|].
  split; [|done]. split; cbn; try done. unfold heap_len. cbn. lia.
Qed.

Lemma slice_heap c i offset len :
  holds c i → 0 ≤ offset → 0 ≤ len → offset + len ≤ c_memory c →
  slice (heap_data (heap i)) offset len
  = Some (take (Z.to_nat len) (drop (Z.to_nat offset) (heap_data (heap i)))).
Proof. intros Hc Ho Hl Hm. apply slice_Some. pose proof (h_memory _ _ Hc). unfold heap_len in *. by split_and!; try lia. Qed.

Lemma ok_heap_slice c offset len :
  0 ≤ offset → 0 ≤ len → offset + len ≤ c_memory c →
  ok c (heap_slice offset len) (λ l, Forall is_u8 l ∧ Z.of_nat (length l) = len) c.
Proof.
  intros Ho Hl Hm s [Hi Hx] Hc. unfold heap_slice. erewrite bind_val by done.
  rewrite (slice_heap c) by done. cbn. split; [done|]. split; [done|]. split; [done|].
  pose proof (h_memory _ _ Hc) as Hm'. unfold heap_len in Hm'. split.
  - apply Forall_take, Forall_drop, (mem_bytes _ (f_heap _ Hi)).
  - rewrite length_take, length_drop. lia.
Qed.

Lemma memory_splice h offset bytes :
  memory_ok h → Forall is_u8 bytes → 0 ≤ offset →
  offset + Z.of_nat (length bytes) ≤ Z.of_nat (length (heap_data h)) →
  memory_ok (mkHeap (heap_cap h) (splice (heap_data h) offset bytes))
  ∧ length (splice (heap_data h) offset bytes) = length (heap_data h).
Proof.
  intros [Hb Hw Hl Hcap] Hbs Ho Hlen. pose proof (length_splice (heap_data h) offset bytes) as Hs.
  rewrite Hs by lia. split; [|done]. split; cbn; rewrite ?Hs by lia; try done.
  unfold splice. repeat (apply Forall_app; split); try done; [by apply Forall_take|by apply Forall_drop].
Qed.

Lemma ok_heap_write c offset bytes :
  0 ≤ offset → Forall is_u8 bytes → offset + Z.of_nat (length bytes) ≤ c_memory c →
  ok c (heap_write offset bytes) (λ _, True) c.
Proof.
  intros Ho Hb Hm s [Hi Hx] Hc. unfold heap_write. erewrite bind_val by done.
  rewrite (slice_heap c) by (done || lia). cbn. pose proof (h_memory _ _ Hc) as Hm'.
  destruct (memory_splice (heap (self s)) offset bytes) as [Hh Hl];
    [apply Hi|done|done|unfold heap_len in *; lia|].
  assert (heap_len (set_heap (mkHeap (heap_cap (heap (self s)))
            (splice (heap_data (heap (self s))) offset bytes)) (self s)) = heap_len (self s)) as Hlen.
  { unfold heap_len. cbn. by rewrite Hl. }
  split; [split; [|done]|].
  - destruct Hi. split; try done. cbn. cbn in Hlen. by rewrite Hlen.
  - split; [split; cbn; try done; lia|]. split; [|done].
    destruct Hc as [C1 C2 C3 C4 C5 C6]. split; try done. cbn. lia.
Qed.


(** *** Stack *)

Lemma stack_size_ge : (8 ≤ STACK_SIZE)%nat.
Proof. by apply (bool_decide_unpack _). Qed.

Ltac stack_op :=
  intros; apply ok_on_stack; intros l Hl Hn Hs; pose proof stack_size_ge;
  repeat match goal with
    | |- context [match ?x with [] => _ | _ :: _ => _ end] => is_var x; destruct x
    | H : Forall _ (_ :: _) |- _ => inversion_clear H
    end; cbn in *; try done;
  repeat case_decide; try done; cbn in *; try lia;
  split_conj; try done; try lia; by constructor.

Lemma ok_pop : ∀ c, ok c (on_stack stk_pop) (λ _, True) (stack_cfg (c_lo c - 1) (c_hi c - 1) c).
Proof. unfold stk_pop. stack_op. Qed.

Lemma ok_pop_1 : ∀ c, ok c (on_stack stk_pop_1) is_u256 (stack_cfg (c_lo c - 1) (c_hi c - 1) c).
Proof. unfold stk_pop_1. stack_op. Qed.

Lemma ok_pop_2 : ∀ c, ok c (on_stack stk_pop_2) (λ '(a, b), is_u256 a ∧ is_u256 b)
  (stack_cfg (c_lo c - 2) (c_hi c - 2) c).
Proof. unfold stk_pop_2. stack_op. Qed.

Lemma ok_pop_3 : ∀ c, ok c (on_stack stk_pop_3)
  (λ '(a, b, d), is_u256 a ∧ is_u256 b ∧ is_u256 d) (stack_cfg (c_lo c - 3) (c_hi c - 3) c).
Proof. unfold stk_pop_3. stack_op. Qed.

Lemma ok_pop_4 : ∀ c, ok c (on_stack stk_pop_4)
  (λ '(a, b, d, e), is_u256 a ∧ is_u256 b ∧ is_u256 d ∧ is_u256 e)
  (stack_cfg (c_lo c - 4) (c_hi c - 4) c).
Proof. unfold stk_pop_4. stack_op. Qed.

Lemma ok_top : ∀ c, ok c (on_stack stk_top) is_u256 (stack_cfg (S (c_lo c - 1)) (c_hi c) c).
Proof. unfold stk_top. stack_op. Qed.

Lemma ok_pop_1_peek : ∀ c, ok c (on_stack stk_pop_1_peek) (λ '(a, b), is_u256 a ∧ is_u256 b)
  (stack_cfg 1 (c_hi c - 1) c).
Proof. unfold stk_pop_1_peek. stack_op. Qed.

Lemma ok_pop_2_peek : ∀ c, ok c (on_stack stk_pop_2_peek)
  (λ '(a, b, d), is_u256 a ∧ is_u256 b ∧ is_u256 d) (stack_cfg 1 (c_hi c - 2) c).
Proof. unfold stk_pop_2_peek. stack_op. Qed.

Lemma ok_write_top c v :
  is_u256 v → (1 ≤ c_lo c)%nat → ok c (write_top v) (λ _, True) (stack_cfg (c_lo c) (c_hi c) c).
Proof. unfold write_top, stk_write_top. stack_op. Qed.

Lemma ok_write_popped c v :
  (c_hi c < STACK_SIZE)%nat → ok c (write_popped v) (λ _, True) (stack_cfg (c_lo c) (c_hi c) c).
Proof. unfold write_popped, stk_write_popped. stack_op. Qed.

Lemma ok_push c v :
  is_u256 v → ok c (push_word v) (λ _, True) (stack_cfg (S (c_lo c)) STACK_SIZE c).
Proof. unfold push_word, stk_push. stack_op. Qed.

Lemma ok_dup c n :
  (1 ≤ n)%nat → ok c (on_stack (stk_dup n)) (λ _, True) (stack_cfg (S (c_lo c)) STACK_SIZE c).
Proof.
  intros Hn. apply ok_on_stack. intros l Hl Hb Hs. unfold stk_dup.
  destruct (decide _); [done|]. destruct (decide _); [done|].
  destruct (lookup_lt_is_Some_2 l (n - 1)) as [v Hv]; [lia|]. rewrite Hv. cbn.
  split_conj; try done; try lia. constructor; [|done]. by eapply Forall_lookup_1.
Qed.

Lemma ok_swap c n :
  ok c (on_stack (stk_swap n)) (λ _, True) (stack_cfg (c_lo c) (c_hi c) c).
Proof.
  apply ok_on_stack. intros l Hl Hb Hs. unfold stk_swap.
  destruct (l !! 0%nat) as [x|] eqn:E0; [|done]. destruct (l !! n) as [y|] eqn:En; [|done].
  rewrite !length_insert. split_conj; try done; try lia.
  by repeat apply Forall_insert; [| eapply Forall_lookup_1..].
Qed.


(** *** Charges, casts and the system *)

Lemma ok_charge c gas n : 0 ≤ gas → is_u64 n → ok c (charge_op gas n) (λ _, True) c.
Proof. intros. by apply ok_on_gas, takes_spend. Qed.

Lemma ok_spend_gas c gas : 0 ≤ gas → ok c (on_gas (spend_gas gas)) (λ _, True) c.
Proof. intros. by apply ok_on_gas, takes_spend_gas. Qed.

Lemma ok_cast c x e : plain e → is_u256 x → ok c (cast_to_usize x e) (in_width usize_bits) c.
Proof.
  intros He Hx. apply ok_lift_opt; [done|]. intros a Ha.
  rewrite u256_try_to_usize_spec in Ha by done. by apply checked_Some in Ha as [_ ?].
Qed.

Lemma ok_cast_range c x y e :
  plain e → is_u256 x → is_u256 y →
  ok c (cast_offset_and_len x y e) (λ '(a, b), in_width usize_bits a ∧ in_width usize_bits b) c.
Proof.
  intros He Hx Hy. unfold cast_offset_and_len. pose proof usize_bits_pos.
  destruct (y =? 0).
  - apply ok_ret. assert (0 < 2 ^ usize_bits) by (apply Z.pow_pos_nonneg; lia).
    unfold in_width. lia.
  - eapply ok_bind; [by apply ok_cast|]. intros a Ha.
    eapply ok_bind; [by apply ok_cast|]. intros b Hb. by apply ok_ret.
Qed.

Lemma ok_copy_cost c len :
  in_width usize_bits len →
  ok c (copy_cost len) (λ '(g, n), 0 ≤ g < 2 ^ 64 ∧ 0 ≤ n < 2 ^ 64) c.
Proof.
  intros Hl. apply ok_lift_opt; [done|]. intros [g n] Ha.
  destruct (checked_next_multiple_of 64 len 32) as [p|]; [|done]. cbn [mbind option_bind] in Ha.
  destruct (checked_mul 64 GAS_COPY (p / 32)) as [g'|] eqn:Eg; [|done]. cbn [mbind option_bind] in Ha.
  destruct (checked_mul 64 COPY_BYTE_NATIVE_COST len); [|done]. cbn [mbind option_bind] in Ha.
  destruct (checked_add 64 _ COPY_BASE_NATIVE_COST) as [n'|] eqn:En; [|done].
  injection Ha as <- <-. by apply checked_Some in Eg as [_ ?], En as [_ ?].
Qed.

Lemma ok_copy_cost_very_low c len :
  in_width usize_bits len →
  ok c (copy_cost_plus_very_low_gas len) (λ '(g, n), 0 ≤ g < 2 ^ 64 ∧ 0 ≤ n < 2 ^ 64) c.
Proof.
  intros Hl. eapply ok_bind; [by apply ok_copy_cost|]. intros [g n] [Hg Hn].
  destruct (checked_add 64 g GAS_VERYLOW) as [g'|] eqn:Eg; [|by apply ok_throw].
  apply ok_ret. by apply checked_Some in Eg as [_ ?].
Qed.

Lemma ok_read {A} c (m : M (SysState * Res) SystemError A) φ :
  io_ok φ m → (∀ s, world (m s).2.1 = world s.1) → ok c (on_io exit_of_system m) φ c.
Proof. intros Hm Hw. apply ok_io; [apply exit_of_system_plain|done|auto]. Qed.

Lemma ok_write {A E} c (conv : E → ExitCode) (m : M (SysState * Res) E A) φ :
  (∀ e, plain (conv e)) → io_ok φ m → c_static c = false → ok c (on_io conv m) φ c.
Proof. intros Hc Hm Hs. apply ok_io; [done|done|congruence]. Qed.

Lemma ok_check_not_static c :
  ok c check_not_static (λ _, c_static c = false) c.
Proof.
  intros s Hi Hc. pose proof (h_static _ _ Hc) as Hs. unfold check_not_static.
  erewrite bind_val by done. rewrite Hs. destruct (c_static c); cbn.
  - split; [done|]. by apply ended_plain; [|apply frame_remains, Hi|apply Hi].
  - done.
Qed.

(** An operation under [with_infinite_ergs] still takes native only. *)
Lemma infinite_ergs_ok {A E} (m : M (SysState * Res) E A) φ : io_ok φ m → io_ok φ (infinite_ergs m).
Proof.
  intros Hm [sys r] Hr. unfold infinite_ergs, with_infinite_ergs. cbn [fst snd].
  assert (res_wf (mkResources (mkErgs (umax 64)) (native r))) as Hr'.
  { split; [|apply Hr]. unfold in_width, e_left, umax. cbn. lia. }
  specialize (Hm (sys, _) Hr'). cbn [fst snd] in *.
  destruct (m _) as [o [sys' r']]. cbn [fst snd] in *. destruct Hm as (H1 & H2 & H3 & H4 & H5).
  split_conj; try done. split; [apply Hr|apply H1].
Qed.

Lemma infinite_ergs_world {A E} (m : M (SysState * Res) E A) :
  (∀ s, world (m s).2.1 = world s.1) → ∀ s, world (infinite_ergs m s).2.1 = world s.1.
Proof.
  intros Hm [sys r]. unfold infinite_ergs, with_infinite_ergs. cbn [fst snd].
  pose proof (Hm (sys, mkResources (mkErgs (umax 64)) (native r))) as H.
  by destruct (m _) as [o []].
Qed.

Lemma infinite_keccak_ok {A E} (m : M Res E A) φ :
  res_ok_fn φ m → res_ok_fn φ (with_infinite_ergs id (λ r _, r) m).
Proof.
  intros Hm r Hr. unfold with_infinite_ergs, id.
  assert (res_wf (mkResources (mkErgs (umax 64)) (native r))) as Hr'.
  { split; [|apply Hr]. unfold in_width, e_left, umax. cbn. lia. }
  specialize (Hm _ Hr'). destruct (m _) as [o r']. cbn [fst snd] in *.
  destruct Hm as (H1 & H2 & H3 & H4). split_conj; try done. split; [apply Hr|apply H1].
Qed.

End Logic.
