(* ===== verification/EvmSafety.v ===== *)
(** * Every instruction is safe

    [EvmLogic]'s judgement for each instruction of the dispatch table, by tactics
    and a hint database that follow the code; [EvmExec] lifts them to the loop. *)

From stdpp Require Import strings.
From S2P Require Import Prelude Resources U256 SystemInterface EvmStack SliceVec EvmConstants Gas.
From S2P Require Import Bytecode EvmState EvmInstructions EvmRun EvmFrame EvmLogic.

Create HintDb word.
Create HintDb safe.

(** ** Words stay words *)
Section Words.
Context {R : Ruint} {RS : RuintSpec}.

Lemma mod_256_word x : is_u256 (x mod 2 ^ 256).
Proof. apply Z.mod_pos_bound. lia. Qed.
Lemma word_0 : is_u256 0.
Proof. done. Qed.
Lemma word_1 : is_u256 1.
Proof. done. Qed.
Lemma b2u_word b : is_u256 (b2u b).
Proof. by destruct b. Qed.
Lemma u_add_word a b : is_u256 a → is_u256 b → is_u256 (u_add a b).
Proof. intros. rewrite u_add_spec by done. apply mod_256_word. Qed.
Lemma u_sub_word a b : is_u256 a → is_u256 b → is_u256 (u_sub a b).
Proof. intros. rewrite u_sub_spec by done. apply mod_256_word. Qed.
Lemma u_mul_word a b : is_u256 a → is_u256 b → is_u256 (u_mul a b).
Proof. intros. rewrite u_mul_spec by done. apply mod_256_word. Qed.
Lemma u_pow_word a b : is_u256 a → is_u256 b → is_u256 (u_pow a b).
Proof. intros. rewrite u_pow_spec by done. apply mod_256_word. Qed.
Lemma u_not_word a : is_u256 a → is_u256 (u_not a).
Proof. intros. rewrite u_not_spec by done. unfold in_width in *. lia. Qed.

Lemma div_word a b : is_u256 a → is_u256 b → b ≠ 0 → is_u256 (a / b).
Proof.
  unfold in_width. intros. split; [apply Z.div_pos; lia|].
  pose proof (Z.div_le_upper_bound a b a). nia.
Qed.
Lemma mod_word a b : is_u256 b → b ≠ 0 → is_u256 (a mod b).
Proof. unfold in_width. intros. pose proof (Z.mod_pos_bound a b). lia. Qed.

Lemma bits_word a : 0 ≤ a → (∀ i, 256 ≤ i → Z.testbit a i = false) → is_u256 a.
Proof.
  intros Ha Hb. split; [done|]. apply (Z.bounded_iff_bits_nonneg 256 a); [lia|done|].
  intros i Hi. apply Hb. lia.
Qed.
Lemma high_bits a i : is_u256 a → 256 ≤ i → Z.testbit a i = false.
Proof. intros [Ha Hb] Hi. apply (Z.bounded_iff_bits_nonneg 256 a); lia. Qed.

Lemma u_and_word a b : is_u256 a → is_u256 b → is_u256 (u_and a b).
Proof.
  intros Ha Hb. rewrite u_and_spec by done.
  apply bits_word; [apply Z.land_nonneg; left; apply Ha|].
  intros i Hi. by rewrite Z.land_spec, (high_bits a).
Qed.
Lemma u_or_word a b : is_u256 a → is_u256 b → is_u256 (u_or a b).
Proof.
  intros Ha Hb. rewrite u_or_spec by done.
  apply bits_word; [apply Z.lor_nonneg; split; [apply Ha|apply Hb]|].
  intros i Hi. by rewrite Z.lor_spec, (high_bits a), (high_bits b).
Qed.
Lemma u_xor_word a b : is_u256 a → is_u256 b → is_u256 (u_xor a b).
Proof.
  intros Ha Hb. rewrite u_xor_spec by done.
  apply bits_word; [apply Z.lxor_nonneg; split; intros; [apply Hb|apply Ha]|].
  intros i Hi. by rewrite Z.lxor_spec, (high_bits a), (high_bits b).
Qed.
Lemma u_shl_word a s : is_u256 a → 0 ≤ s → is_u256 (u_shl a s).
Proof. intros. rewrite u_shl_spec by done. apply mod_256_word. Qed.
Lemma u_shr_word a s : is_u256 a → 0 ≤ s → is_u256 (u_shr a s).
Proof.
  intros Ha Hs. rewrite u_shr_spec by done. unfold in_width in *.
  assert (0 < 2 ^ s) by (apply Z.pow_pos_nonneg; lia).
  split; [apply Z.div_pos; lia|]. pose proof (Z.div_le_upper_bound a (2 ^ s) a). nia.
Qed.
Lemma u_sar_word a s : is_u256 a → 0 ≤ s → is_u256 (u_arithmetic_shr a s).
Proof. intros. rewrite u_arithmetic_shr_spec by done. apply unsigned_u256. Qed.
Lemma u_byte_small a i : is_u256 a → 0 ≤ i < 32 → is_u8 (u_byte a i).
Proof. intros. rewrite u_byte_spec by done. by apply Z.mod_pos_bound. Qed.
Lemma u8_word x : is_u8 x → is_u256 x.
Proof. unfold in_width. lia. Qed.
Lemma u64_word x : is_u64 x → is_u256 x.
Proof. unfold in_width. lia. Qed.
Lemma u32_word x : is_u32 x → is_u256 x.
Proof. unfold in_width. lia. Qed.
Lemma usize_word {UZ : Usize} x : in_width usize_bits x → is_u256 x.
Proof.
  unfold in_width. pose proof usize_bits_pos.
  assert (2 ^ usize_bits ≤ 2 ^ 64) by (apply Z.pow_le_mono_r; lia). lia.
Qed.
Lemma b160_word x : in_width 160 x → is_u256 (b160_to_u256 x).
Proof. intros Hx. rewrite b160_to_u256_spec by done. unfold in_width in *. lia. Qed.
Lemma u256_b160 x : is_u256 x → in_width 160 (u256_to_b160 x).
Proof. intros Hx. rewrite u256_to_b160_spec by done. apply Z.mod_pos_bound. lia. Qed.

Lemma of_be_bytes_word l : Forall is_u8 l → (length l ≤ 32)%nat → is_u256 (of_be_bytes l).
Proof.
  intros Hl Hn. unfold of_be_bytes. pose proof (of_le_bytes_bound (reverse l)) as Hb.
  rewrite length_reverse in Hb. destruct Hb as [H1 H2]; [by apply Forall_reverse|].
  split; [done|]. eapply Z.lt_le_trans; [exact H2|]. apply Z.pow_le_mono_r; lia.
Qed.
Lemma bytes32_word l : is_bytes32 l → is_u256 (of_be_bytes l).
Proof. intros [Hl Hu]. apply of_be_bytes_word; [done|lia]. Qed.
Lemma bytereverse_word x : is_u256 (bytereverse_u256 x).
Proof.
  rewrite bytereverse_u256_spec. apply of_be_bytes_word; [apply le_bytes_u8|].
  by rewrite length_le_bytes.
Qed.
Lemma default_word o : (∀ x, o = Some x → is_u256 x) → is_u256 (default 0 o).
Proof. destruct o; cbn; [auto|done]. Qed.
Lemma rem_word a b : is_u256 a → is_u256 b → is_u256 (default 0 (u_checked_rem a b)).
Proof.
  intros Ha Hb. rewrite u_checked_rem_spec by done. destruct (Z.eqb_spec b 0); [done|].
  by apply mod_word.
Qed.
Lemma addmod_word a b m : is_u256 a → is_u256 b → is_u256 m → is_u256 (u_add_mod a b m).
Proof.
  intros Ha Hb Hm. rewrite u_add_mod_spec by done. destruct (Z.eqb_spec m 0); [done|].
  by apply mod_word.
Qed.
Lemma mulmod_word a b m : is_u256 a → is_u256 b → is_u256 m → is_u256 (mul_mod a b m).
Proof.
  intros Ha Hb Hm. rewrite mul_mod_spec by done. destruct (Z.eqb_spec m 0); [done|].
  by apply mod_word.
Qed.
End Words.

#[export] Hint Resolve word_0 word_1 b2u_word u_add_word u_sub_word u_mul_word u_pow_word
  u_not_word u_and_word u_or_word u_xor_word u_shl_word u_shr_word u_sar_word u8_word u64_word
  u32_word usize_word b160_word u256_b160 bytes32_word bytereverse_word rem_word addmod_word
  mulmod_word : word.

(** ** Automation *)

(** The rule of the primitive in head position. *)
Ltac ok_prim :=
  lazymatch goal with
  | |- ok _ (charge_op _ _) _ _ => apply ok_charge
  | |- ok _ (on_gas (spend_gas _)) _ _ => apply ok_spend_gas
  | |- ok _ (on_stack stk_pop) _ _ => apply ok_pop
  | |- ok _ (on_stack stk_pop_1) _ _ => apply ok_pop_1
  | |- ok _ (on_stack stk_pop_2) _ _ => apply ok_pop_2
  | |- ok _ (on_stack stk_pop_3) _ _ => apply ok_pop_3
  | |- ok _ (on_stack stk_pop_4) _ _ => apply ok_pop_4
  | |- ok _ (on_stack stk_top) _ _ => apply ok_top
  | |- ok _ (on_stack stk_pop_1_peek) _ _ => apply ok_pop_1_peek
  | |- ok _ (on_stack stk_pop_2_peek) _ _ => apply ok_pop_2_peek
  | |- ok _ (on_stack (stk_dup _)) _ _ => apply ok_dup
  | |- ok _ (on_stack (stk_swap _)) _ _ => apply ok_swap
  | |- ok _ (write_top _) _ _ => apply ok_write_top
  | |- ok _ (write_popped _) _ _ => apply ok_write_popped
  | |- ok _ (push_word _) _ _ => apply ok_push
  | |- ok _ (cast_to_usize _ _) _ _ => apply ok_cast
  | |- ok _ (cast_offset_and_len _ _ _) _ _ => apply ok_cast_range
  | |- ok _ (copy_cost _) _ _ => apply ok_copy_cost
  | |- ok _ (copy_cost_plus_very_low_gas _) _ _ => apply ok_copy_cost_very_low
  | |- ok _ (resize_heap _ _) _ _ => apply ok_resize_heap
  | |- ok _ (heap_slice _ _) _ _ => apply ok_heap_slice
  | |- ok _ (heap_write _ _) _ _ => apply ok_heap_write
  | |- ok _ check_not_static _ _ => apply ok_check_not_static
  | |- ok _ (modify_self (set_returndata_location _)) _ _ => apply ok_set_loc
  | |- ok _ clear_last_returndata _ _ => apply ok_set_loc
  | |- ok _ (mret _) _ _ => apply ok_ret
  | |- ok _ (throw _) _ _ => apply ok_throw
  end.

Ltac cfg_simpl :=
  cbn [c_static c_lo c_hi c_memory c_loc c_ip between fetched stack_cfg memory_cfg loc_cfg] in *.

Ltac cfg_weaken :=
  pose proof stack_size_ge; split; cfg_simpl; [done|lia|lia|lia|auto|lia].

Ltac ok_side :=
  cfg_simpl;
  first [ done | solve [eauto 3 with word] | solve [unfold in_width in *; lia]
        | solve [pose proof stack_size_ge; lia] | idtac ].

Ltac ok_intro :=
  let x := fresh "x" in let H := fresh "H" in
  intros x H; repeat match goal with y : (_ * _)%type |- _ => destruct y end;
  cbn beta iota in *; destruct_and?.

(** One step: a bind, a branch, or the last primitive. *)
Ltac ok_step :=
  lazymatch goal with
  | |- ok _ ((_ ≫= _) ≫= _) _ _ => apply ok_assoc
  | |- ok _ (throw _ ≫= _) _ _ => by apply ok_throw_bind
  | |- ok _ ((if ?b then _ else _) ≫= _) _ _ => destruct b eqn:?
  | |- ok _ (_ ≫= _) _ _ => eapply ok_bind; [ok_prim; ok_side|ok_intro]
  | |- ok _ (if ?b then _ else _) _ _ => destruct b eqn:?
  | |- ok _ (throw _) _ _ => by apply ok_throw
  | |- ok _ (mret ()) _ _ => eapply (ok_conseq _ _ (λ _, True)); [by apply ok_ret|done|cfg_weaken]
  | |- ok _ _ _ _ => eapply ok_conseq; [ok_prim; ok_side|try done|cfg_weaken]
  end.
Ltac ok_auto := repeat ok_step.

(** A push of a word of the block's metadata. *)
Ltac env_op :=
  ok_step; eapply ok_bind; [by apply (ok_metadata _ _ is_u256); intros md []; eauto with word|];
  ok_intro; ok_auto.
Ltac env_address :=
  ok_step; eapply ok_bind; [by apply (ok_metadata _ _ is_b160); intros md []|]; ok_intro; ok_auto.

Section Instructions.
Context {R : Ruint} {RS : RuintSpec} {UZ : Usize} {FT : Features} {SYS : System}
  {LAWS : SystemLaws}.

(** An instruction that may be dispatched to. *)
Definition safe (b : bool) (m : M St ExitCode unit) : Prop :=
  ok (fetched b) m (λ _, True) (between b).

Lemma safe_add b : safe b wrapped_add.
Proof. unfold safe, wrapped_add. ok_auto. Qed.
Lemma safe_mul b : safe b wrapping_mul.
Proof. unfold safe, wrapping_mul. ok_auto. Qed.
Lemma safe_sub b : safe b wrapping_sub.
Proof. unfold safe, wrapping_sub. ok_auto. Qed.
Lemma u_div_word a b : is_u256 a → is_u256 b → negb (b =? 0) = true →
  ∃ q, u_div a b = Some q ∧ is_u256 q.
Proof.
  intros Ha Hb Hz. destruct (Z.eqb_spec b 0); [done|]. eexists.
  split; [by apply u_div_spec|by apply div_word].
Qed.

Lemma ok_bind_expect {A B} c (o : option A) a (k : A → M St ExitCode B) ψ c2 :
  o = Some a → ok c (k a) ψ c2 → ok c (expect o ≫= k) ψ c2.
Proof.
  intros Ho Hk. eapply ok_bind; [by apply (ok_expect _ _ (λ x, x = a) a)|]. by intros x ->.
Qed.

Lemma safe_div b : safe b div.
Proof.
  unfold safe, div. ok_auto. destruct (u_div_word z z0) as (q & Hq & Hw); [done..|].
  apply (ok_bind_expect _ _ q); [done|]. ok_auto.
Qed.

Lemma safe_sdiv b : safe b sdiv.
Proof.
  unfold safe, sdiv. ok_auto. destruct (i256_div_spec z z0) as (q & Hq); [done..|].
  eapply ok_bind_expect; [done|]. cbn beta iota. ok_auto.
  destruct (_ =? _); [done|apply unsigned_u256].
Qed.

Lemma safe_rem b : safe b rem.
Proof. unfold safe, rem. ok_auto. Qed.

Lemma signed_zero x : is_u256 x → signed x = 0 → x = 0.
Proof. unfold signed, in_width. intros. destruct (Z.ltb_spec x (2 ^ 255)); lia. Qed.

Lemma safe_smod b : safe b smod.
Proof.
  unfold safe, smod. ok_auto. destruct (i256_mod_spec z z0) as (q & Hq); [done..| |].
  { intros Hz%signed_zero; [|done]. by subst. }
  eapply ok_bind_expect; [done|]. cbn beta iota. ok_auto. apply unsigned_u256.
Qed.

Lemma safe_addmod b : safe b addmod.
Proof. unfold safe, addmod. ok_auto. Qed.
Lemma safe_mulmod b : safe b mulmod.
Proof. unfold safe, mulmod. ok_auto. Qed.

Lemma log2_word x : is_u256 x → 0 ≤ Z.log2 x ≤ 255.
Proof.
  intros [H1 H2]. split; [apply Z.log2_nonneg|].
  destruct (Z.eq_dec x 0) as [->|]; [done|]. apply Z.lt_succ_r, Z.log2_lt_pow2; lia.
Qed.

(** The price of EXP: 10 gas and 50 per byte of the exponent, without overflow. *)
Lemma exp_cost_spec p :
  is_u256 p →
  let bytes := if p =? 0 then 0 else Z.log2 p / 8 + 1 in
  exp_cost p = Some (10 + 50 * bytes, 700 + 5000 * bytes) ∧ 0 ≤ bytes ≤ 32.
Proof.
  intros Hp bytes. unfold exp_cost. rewrite log2floor_spec by done.
  destruct (Z.eqb_spec p 0); [done|]. cbn [mbind option_bind].
  pose proof (log2_word p Hp). assert (0 ≤ Z.log2 p / 8 < 32).
  { split; [apply Z.div_pos; lia|apply Z.div_lt_upper_bound; lia]. }
  subst bytes. unfold checked_mul, checked_add, EXP_PER_BYTE_NATIVE_COST, GAS_EXP,
    EXP_BASE_NATIVE_COST.
  do 4 (rewrite checked_in by (unfold in_width; lia); cbn [mbind option_bind]).
  split; [f_equal; f_equal; lia|lia].
Qed.

Lemma safe_exp b : safe b eval_exp.
Proof.
  unfold safe, eval_exp. ok_step. destruct (exp_cost_spec z0) as [-> Hb]; [done|].
  ok_auto.
Qed.

Lemma capped_32 x :
  is_u256 x → u256_try_to_usize_capped 32 x = if x <? 32 then Some x else None.
Proof. intros Hx. by apply u256_try_to_usize_capped_spec. Qed.

Lemma safe_sign_extend b : safe b sign_extend.
Proof.
  unfold safe, sign_extend. do 2 ok_step. rewrite capped_32 by done.
  destruct (Z.ltb_spec z 32); [|ok_auto]. assert (0 ≤ 8 * z + 7) by (unfold in_width in *; lia).
  ok_auto; eauto 8 with word.
Qed.
Lemma safe_lt b : safe b lt.
Proof. unfold safe, lt. ok_auto. Qed.
Lemma safe_gt b : safe b gt.
Proof. unfold safe, gt. ok_auto. Qed.
Lemma safe_slt b : safe b slt.
Proof. unfold safe, slt. ok_auto. by destruct (i256_cmp _ _). Qed.
Lemma safe_sgt b : safe b sgt.
Proof. unfold safe, sgt. ok_auto. by destruct (i256_cmp _ _). Qed.
Lemma safe_eq_ b : safe b eq_.
Proof. unfold safe, eq_. ok_auto. Qed.
Lemma safe_iszero b : safe b iszero.
Proof. unfold safe, iszero. ok_auto. Qed.
Lemma safe_bitand b : safe b bitand.
Proof. unfold safe, bitand. ok_auto. Qed.
Lemma safe_bitor b : safe b bitor.
Proof. unfold safe, bitor. ok_auto. Qed.
Lemma safe_bitxor b : safe b bitxor.
Proof. unfold safe, bitxor. ok_auto. Qed.
Lemma safe_not_ b : safe b not_.
Proof. unfold safe, not_. ok_auto. Qed.

Lemma safe_byte b : safe b byte.
Proof.
  unfold safe, byte. do 2 ok_step. rewrite capped_32 by done.
  destruct (Z.ltb_spec z 32); ok_auto. apply u8_word, u_byte_small; [done|unfold in_width in *; lia].
Qed.

Lemma checked_nonneg w x y : checked w x = Some y → 0 ≤ y.
Proof. intros H%checked_Some. unfold in_width in H. lia. Qed.

Lemma safe_shl b : safe b shl.
Proof.
  unfold safe, shl. do 2 ok_step. destruct (checked 32 z) eqn:E; [|ok_auto].
  apply checked_nonneg in E. ok_auto.
Qed.
Lemma safe_shr b : safe b shr.
Proof.
  unfold safe, shr. do 2 ok_step. destruct (checked 32 z) eqn:E; [|ok_auto].
  apply checked_nonneg in E. ok_auto.
Qed.
Lemma safe_sar b : safe b sar.
Proof.
  unfold safe, sar. ok_auto. apply u_sar_word; [done|].
  destruct (checked usize_bits z) eqn:E; cbn; [by apply checked_nonneg in E|lia].
Qed.

(** *** Control flow *)

Lemma ok_jump_to b c dest :
  c_static c = b → (c_hi c ≤ STACK_SIZE)%nat → 0 ≤ c_memory c → in_width usize_bits dest →
  ok c (jump_to dest) (λ _, True) (between b).
Proof.
  intros Hb Hhi Hm Hd s [Hi Hx] Hc. unfold jump_to. erewrite bind_val by done.
  rewrite (is_valid_jumpdest_run _ dest (f_pp _ Hi)) by apply Hd.
  rewrite (f_pp_len _ Hi).
  destruct (Z.ltb_spec dest (Z.of_nat (length (bytecode (self s))))) as [Hlt|]; cbn [andb].
  2:{ split; [done|]. by apply ended_plain; [|apply frame_remains|]. }
  destruct (Z.testbit _ dest); cbn.
  2:{ split; [done|]. by apply ended_plain; [|apply frame_remains|]. }
  split; [by split; [destruct Hi|]|]. split; [by split|]. split; [|done].
  destruct Hc as [C1 C2 C3 C4 C5 C6]. unfold in_width in Hd. pose proof (f_size _ Hi).
  split; cbn; try done; try lia; [congruence|]. unfold heap_len. cbn. lia.
Qed.

Lemma safe_jump b : safe b jump.
Proof.
  unfold safe, jump. ok_auto. pose proof stack_size_ge.
  apply ok_jump_to; cfg_simpl; [done|lia|lia|done].
Qed.
Lemma safe_jumpi b : safe b jumpi.
Proof.
  unfold safe, jumpi. ok_auto. pose proof stack_size_ge.
  apply ok_jump_to; cfg_simpl; [done|lia|lia|done].
Qed.
Lemma safe_jumpdest b : safe b jumpdest.
Proof. unfold safe, jumpdest. ok_auto. Qed.

Lemma usize_wrap_word x : is_u256 (wrap usize_bits x).
Proof. pose proof usize_bits_pos. apply usize_word, wrap_in_width. lia. Qed.

Lemma ok_bind_gets {A B} c (f : Interpreter → A) (φ : A → Prop) (k : A → M St ExitCode B) ψ c2 :
  (∀ i, frame_ok i → holds c i → φ (f i)) → (∀ a, φ a → ok c (k a) ψ c2) →
  ok c (get_self f ≫= k) ψ c2.
Proof. intros Hf Hk. eapply ok_bind; [by apply ok_gets|done]. Qed.

Lemma safe_pc b : safe b pc.
Proof.
  unfold safe, pc. ok_step. apply (ok_bind_gets _ _ (λ _, True)); [done|]. ok_intro.
  ok_auto. apply usize_wrap_word.
Qed.

Lemma overflowing_cases offset len :
  in_width usize_bits offset → in_width usize_bits len →
  (overflowing_add usize_bits offset len).2 = true
  ∨ overflowing_add usize_bits offset len = (offset + len, false).
Proof.
  unfold overflowing_add, in_width. intros. destruct (Z.leb_spec (2 ^ usize_bits) (offset + len)).
  - by left.
  - right. rewrite wrap_small; [done|]. unfold in_width. lia.
Qed.

Lemma safe_return_range b e :
  e = Return ∨ e = EvmErr Revert →
  ok (fetched b) (set_return_range ;; (throw e : M St ExitCode unit)) (λ _, True) (between b).
Proof.
  intros He. unfold set_return_range. ok_auto.
  - by eapply ok_return.
  - destruct (overflowing_cases x0 x) as [Ho|Ho]; [done|done| |].
    + destruct (overflowing_add _ _ _) as [end_ []]; [|done]. ok_auto.
    + rewrite Ho. ok_auto. unfold in_width in *.
      eapply (ok_return _ _ (x0, x0 + x)); cfg_simpl; [done|done|cbn; lia|cbn; lia].
Qed.

Lemma safe_ret b : safe b ret.
Proof. unfold safe, ret. ok_step. apply safe_return_range. by left. Qed.
Lemma safe_revert b : safe b revert.
Proof. unfold safe, revert. ok_step. apply safe_return_range. by right. Qed.

(** *** Environment *)

Lemma safe_chainid b : safe b chainid.
Proof. unfold safe, chainid. env_op. Qed.
Lemma safe_coinbase b : safe b coinbase.
Proof. unfold safe, coinbase. env_address. Qed.
Lemma safe_timestamp b : safe b timestamp.
Proof. unfold safe, timestamp. env_op. Qed.
Lemma safe_number b : safe b number.
Proof. unfold safe, number. env_op. Qed.
Lemma safe_gaslimit b : safe b gaslimit.
Proof. unfold safe, gaslimit. env_op. Qed.
Lemma safe_gasprice b : safe b gasprice.
Proof. unfold safe, gasprice. env_op. Qed.
Lemma safe_basefee b : safe b basefee.
Proof. unfold safe, basefee. env_op. Qed.

Lemma safe_instr_caller c b :
  c_static c = b → c_memory c = 0 → c_ip c = 0 → c_loc c = None →
  ok c instr_caller (λ _, True) (between b).
Proof.
  intros Hs Hm Hip Hl. unfold instr_caller. ok_step.
  apply (ok_bind_gets _ _ is_b160); [intros i Hi _; apply Hi|]. ok_intro.
  eapply ok_conseq; [apply ok_push; eauto with word|done|].
  pose proof stack_size_ge. split; cbn; [done|lia|lia|lia|auto|lia].
Qed.

Lemma safe_caller b : safe b instr_caller.
Proof. by apply safe_instr_caller. Qed.

Lemma safe_origin b : safe b origin.
Proof.
  unfold safe, origin. destruct eip_7645.
  - ok_step. by apply safe_instr_caller.
  - env_address.
Qed.

Definition returns_bytes32 {E} (o : outcome E (list Z)) : Prop :=
  match o with Val h => is_bytes32 h | Err _ => True | Fault => False end.

Lemma ok_lift_outcome c (o : outcome InternalError (list Z)) :
  returns_bytes32 o → ok c (lift_outcome exit_of_internal o) is_bytes32 c.
Proof. destruct o; cbn; intros; [by apply ok_ret|by apply ok_throw|done]. Qed.

Lemma mix_hash_ok md : metadata_ok md → returns_bytes32 (get_mix_hash md).
Proof.
  intros []. unfold get_mix_hash. destruct prevrandao.
  - destruct (md_block_randomness md) eqn:E; cbn; eauto.
  - split; [by rewrite length_be_bytes|]. apply Forall_reverse, le_bytes_u8.
Qed.

Lemma blockhash_ok md n : metadata_ok md → returns_bytes32 (get_blockhash md n).
Proof.
  intros []. unfold get_blockhash. destruct (_ || _).
  - split; [done|]. by repeat constructor.
  - destruct (md_block_historical_hash md _) eqn:E; cbn; eauto.
Qed.

Lemma safe_difficulty b : safe b difficulty.
Proof.
  unfold safe, difficulty. ok_step.
  eapply ok_bind; [by apply (ok_metadata _ _ returns_bytes32), mix_hash_ok|]. ok_intro.
  eapply ok_bind; [by apply ok_lift_outcome|]. ok_intro. ok_auto.
Qed.

Lemma safe_blockhash b : safe b blockhash.
Proof.
  unfold safe, blockhash. ok_auto.
  eapply ok_bind.
  { apply (ok_metadata _ _ returns_bytes32). intros md Hmd. by apply blockhash_ok. }
  ok_intro. eapply ok_bind; [by apply ok_lift_outcome|]. ok_intro. ok_auto.
Qed.

Lemma safe_blobhash b : safe b blobhash.
Proof. unfold safe, blobhash. ok_auto. Qed.
Lemma safe_blobbasefee b : safe b blobbasefee.
Proof. unfold safe, blobbasefee. ok_auto. Qed.
(** *** Memory *)

(** Operands below [2^32] fit any [usize]; these are the literals of the code. *)
Lemma usize_small x : 0 ≤ x < 2 ^ 32 → in_width usize_bits x.
Proof.
  intros Hx. pose proof usize_bits_pos.
  assert (2 ^ 32 ≤ 2 ^ usize_bits) by (apply Z.pow_le_mono_r; lia). unfold in_width. lia.
Qed.

Lemma safe_mload b : safe b mload.
Proof.
  unfold safe, mload. ok_auto; try (by apply usize_small); unfold in_width in *; lia.
Qed.

Lemma safe_mstore b : safe b mstore.
Proof.
  unfold safe, mstore. ok_auto; try (by apply usize_small); try apply le_bytes_u8;
    rewrite ?length_le_bytes; unfold in_width in *; lia.
Qed.

Lemma safe_mstore8 b : safe b mstore8.
Proof.
  unfold safe, mstore8. ok_auto; try (by apply usize_small).
  - constructor; [by apply u_byte_small|done].
  - cbn [length]. unfold in_width in *. lia.
Qed.

Lemma frame_heap_word i : frame_ok i → is_u256 (heap_len i).
Proof. intros Hi. pose proof (mem_limit _ (f_heap _ Hi)). unfold heap_len, in_width in *. lia. Qed.

Lemma safe_msize b : safe b msize.
Proof.
  unfold safe, msize. ok_step. apply (ok_bind_gets _ _ is_u256).
  { intros i Hi _. by apply frame_heap_word. }
  ok_intro. ok_auto.
Qed.

Lemma max_usize x y :
  in_width usize_bits x → in_width usize_bits y → in_width usize_bits (Z.max x y).
Proof. unfold in_width. lia. Qed.

Lemma safe_mcopy b : safe b mcopy.
Proof. unfold safe, mcopy. ok_auto; try (by apply max_usize); unfold in_width in *; lia. Qed.

(** *** Stack *)

Lemma safe_pop b : safe b pop.
Proof. unfold safe, pop. ok_auto. Qed.
Lemma safe_push0 b : safe b push0.
Proof. unfold safe, push0. change (on_stack (stk_push 0)) with (push_word 0). ok_auto. Qed.
Lemma safe_dup b n : (1 ≤ n)%nat → safe b (dup n).
Proof. intros. unfold safe, dup. ok_auto. Qed.
Lemma safe_swap b n : safe b (swap n).
Proof. unfold safe, swap. ok_auto. Qed.

Lemma push_costs n : (n ≤ 32)%nat → ∃ c, PUSH_NATIVE_COSTS !! n = Some c ∧ is_u64 c.
Proof.
  intros Hn. assert (Forall is_u64 PUSH_NATIVE_COSTS) as Hf by (repeat constructor; done).
  destruct (lookup_lt_is_Some_2 PUSH_NATIVE_COSTS n) as [c Hc]; [cbn; lia|].
  exists c. split; [done|]. by eapply Forall_lookup_1.
Qed.

Lemma push_value_word N code start : 0 ≤ N ≤ 32 → is_u256 (push_value N code start).
Proof.
  intros HN. unfold push_value. destruct (code !! _); [|done].
  apply u_shr_word; [apply bytereverse_word|lia].
Qed.

Lemma ok_skip c n :
  c_ip c = 0 → 0 ≤ n ≤ 32 →
  ok c (modify_self (λ i, set_ip (wrap usize_bits (instruction_pointer i + n)) i)) (λ _, True)
    (mkCfg (c_static c) (c_lo c) (c_hi c) (c_memory c) (c_loc c) 32).
Proof.
  intros Hip Hn. apply ok_modify. intros i Hi [C1 C2 C3 C4 C5 C6].
  destruct (f_code _ Hi) as [_ Hlen]. rewrite wrap_small by (unfold in_width; lia).
  split; [by destruct Hi|]. split; [done|]. split; [done|]. split; [done|].
  split; try done; cbn; lia.
Qed.

Lemma safe_push b n : (1 ≤ n ≤ 32)%nat → safe b (push n).
Proof.
  intros Hn. unfold safe, push. destruct (push_costs n) as (cost & Hcost & Hu); [lia|].
  apply (ok_bind_expect _ _ cost); [done|]. ok_step.
  apply (ok_bind_gets _ _ (λ _, True)); [done|]. ok_intro.
  apply (ok_bind_gets _ _ (λ _, True)); [done|]. ok_intro.
  eapply ok_bind; [apply ok_skip; [done|lia]|]. ok_intro. ok_auto. apply push_value_word. lia.
Qed.

(** *** Hashing and frame data *)

Lemma U256Builder_extend items bytes n :
  (length items ≤ n ≤ length bytes)%nat →
  U256Builder_try_extend items (mkU256Builder bytes n)
  = Some (mkU256Builder (take (n - length items) bytes ++ reverse items ++ drop n bytes)
            (n - length items)).
Proof.
  revert bytes n. induction items as [|x items IH]; intros bytes n Hn; cbn [length U256Builder_try_extend previously_written ub_bytes] in *.
  { rewrite Nat.sub_0_r. change (reverse []) with (@nil Z). cbn [app]. by rewrite take_drop. }
  destruct n as [|n]; [lia|]. cbn iota beta. rewrite IH by (rewrite length_insert; lia).
  rewrite Nat.sub_succ. do 2 f_equal.
  rewrite take_insert_ge by lia. f_equal. rewrite reverse_cons, <- app_assoc. f_equal.
  rewrite insert_take_drop by lia. rewrite drop_app_length'; [done|]. rewrite length_take. lia.
Qed.

(** The hash written byte by byte is its big-endian value. *)
Lemma U256Builder_spec out :
  length out = 32%nat →
  ∃ b, U256Builder_try_extend out U256Builder_default = Some b
       ∧ U256Builder_build b = Some (of_be_bytes out).
Proof.
  intros Hl. unfold U256Builder_default. rewrite U256Builder_extend by (rewrite Hl; done).
  eexists. split; [done|]. rewrite Hl. unfold U256Builder_build. cbn. by rewrite app_nil_r.
Qed.

Lemma ok_keccak_u256 c inp : ok c (keccak_u256 inp) is_u256 c.
Proof.
  unfold keccak_u256. eapply ok_bind; [apply ok_on_gas, takes_resources, sl_keccak|].
  intros out Hout. destruct (U256Builder_spec out) as (d & Hd & Hb); [apply Hout|].
  eapply ok_bind_expect; [done|]. eapply ok_expect; [done|]. by apply bytes32_word.
Qed.

Lemma empty_sha3_word : is_u256 EMPTY_SLICE_SHA3.
Proof. done. Qed.

Lemma safe_sha3 b : safe b sha3.
Proof.
  unfold safe, sha3. ok_auto; [apply empty_sha3_word|unfold in_width in *; lia..|].
  eapply ok_bind; [apply ok_keccak_u256|]. ok_intro. ok_auto.
Qed.

Ltac frame_word φ := apply (ok_bind_gets _ _ φ); [intros i Hi _; try apply Hi|ok_intro; ok_auto].

Lemma safe_address b : safe b instr_address.
Proof. unfold safe, instr_address. ok_step. frame_word uconstr:(is_b160). Qed.
Lemma safe_callvalue b : safe b callvalue.
Proof. unfold safe, callvalue. ok_step. frame_word uconstr:(is_u256). Qed.

Lemma bytes_len_word l : bytes_ok l → is_u256 (Z.of_nat (length l)).
Proof. intros [_ Hl]. apply usize_word. unfold in_width. lia. Qed.

Lemma safe_codesize b : safe b codesize.
Proof.
  unfold safe, codesize. ok_step. frame_word uconstr:(is_u256).
  rewrite (f_pp_len _ Hi). apply bytes_len_word, Hi.
Qed.
Lemma safe_calldatasize b : safe b calldatasize.
Proof. unfold safe, calldatasize. ok_step. frame_word uconstr:(is_u256). apply bytes_len_word, Hi. Qed.
Lemma safe_returndatasize b : safe b returndatasize.
Proof. unfold safe, returndatasize. ok_step. frame_word uconstr:(is_u256). apply bytes_len_word, Hi. Qed.

Lemma safe_gas b : safe b instr_gas.
Proof.
  unfold safe, instr_gas. ok_step. frame_word uconstr:(is_u256).
  destruct (f_gas _ Hi) as [[H1 H2] _]. unfold gas_left, e_left, ERGS_PER_GAS in *. apply u64_word.
  split; [apply Z.div_pos; lia|]. apply Z.div_lt_upper_bound; lia.
Qed.

Lemma safe_calldataload b : safe b calldataload.
Proof.
  unfold safe, calldataload. do 2 ok_step. apply (ok_bind_gets _ _ bytes_ok); [intros i Hi _; apply Hi|].
  ok_intro. ok_auto. destruct (u256_try_to_usize x0); [|done]. destruct (_ <? _); [|done].
  unfold into_u256_be. destruct H0 as [Hu _]. apply of_be_bytes_word.
  - unfold splice. repeat (apply Forall_app; split).
    + by repeat constructor.
    + by apply Forall_take, Forall_drop.
    + apply Forall_drop. by repeat constructor.
  - rewrite length_splice; [done|lia|]. rewrite length_take, repeat_length. lia.
Qed.

Lemma length_copy_and_zeropad src n : 0 ≤ n → Z.of_nat (length (copy_and_zeropad src n)) = n.
Proof.
  intros Hn. unfold copy_and_zeropad. rewrite length_app, length_take, repeat_length. lia.
Qed.
Lemma copy_and_zeropad_u8 src n : Forall is_u8 src → Forall is_u8 (copy_and_zeropad src n).
Proof.
  intros Hs. unfold copy_and_zeropad. apply Forall_app. split; [by apply Forall_take|].
  apply Forall_forall. intros x Hx. apply list_elem_of_In, repeat_spec in Hx. by subst.
Qed.
Lemma get_from_u8 src o : Forall is_u8 src → Forall is_u8 (get_from src o).
Proof.
  intros Hs. unfold get_from. destruct o; [|done]. destruct (_ <=? _); [by apply Forall_drop|done].
Qed.

Lemma ok_write_copy c off src n :
  0 ≤ off → 0 ≤ n → Forall is_u8 src → off + n ≤ c_memory c →
  ok c (heap_write off (copy_and_zeropad src n)) (λ _, True) c.
Proof.
  intros Ho Hn Hs Hm. apply ok_heap_write; [done|by apply copy_and_zeropad_u8|].
  by rewrite length_copy_and_zeropad.
Qed.

Lemma wrap_u64 x : is_u64 (wrap 64 x).
Proof. by apply wrap_in_width. Qed.

Lemma ok_copy_to_heap b c source mo so len :
  c_static c = b → (c_hi c ≤ STACK_SIZE)%nat → 0 ≤ c_memory c → c_ip c ≤ 32 →
  is_u256 mo → in_width usize_bits len → (∀ i, frame_ok i → bytes_ok (source i)) →
  ok c (copy_to_heap source mo so len) (λ _, True) (between b).
Proof.
  intros Hb Hhi Hm Hip Hmo Hlen Hsrc. unfold copy_to_heap. do 2 ok_step.
  apply (ok_bind_gets _ _ bytes_ok); [auto|]. intros src [Hsu _].
  eapply ok_conseq.
  - apply ok_write_copy; [apply H|apply Hlen|by apply get_from_u8|]. cfg_simpl. lia.
  - done.
  - pose proof stack_size_ge. split; cfg_simpl; [done|lia|lia|lia|auto|lia].
Qed.

Lemma safe_codecopy b : safe b codecopy.
Proof.
  unfold safe, codecopy. ok_auto; [apply wrap_u64|]. pose proof stack_size_ge.
  apply ok_copy_to_heap; cfg_simpl; [done|lia|lia|lia|done|done|]. intros i Hi. apply Hi.
Qed.
Lemma safe_calldatacopy b : safe b calldatacopy.
Proof.
  unfold safe, calldatacopy. ok_auto; [apply wrap_u64|]. pose proof stack_size_ge.
  apply ok_copy_to_heap; cfg_simpl; [done|lia|lia|lia|done|done|]. intros i Hi. apply Hi.
Qed.

Lemma safe_returndatacopy b : safe b returndatacopy.
Proof.
  unfold safe, returndatacopy. ok_auto; [apply wrap_u64|].
  destruct (overflowing_add _ _ _) as [end_ overflow].
  apply (ok_bind_gets _ _ bytes_ok); [intros i Hi _; apply Hi|]. intros data [Hd _].
  ok_auto; [by apply copy_and_zeropad_u8, get_from_u8|].
  rewrite length_copy_and_zeropad; unfold in_width in *; lia.
Qed.

(** *** The system *)

Lemma safe_balance b : safe b balance.
Proof.
  unfold safe, balance. ok_auto.
  eapply ok_bind; [apply ok_read; [apply sl_balance|apply sl_balance_world]|].
  ok_intro. ok_auto.
Qed.
Lemma safe_selfbalance b : safe b selfbalance.
Proof.
  unfold safe, selfbalance. ok_step. apply (ok_bind_gets _ _ (λ _, True)); [done|]. ok_intro.
  eapply ok_bind; [apply ok_read; [apply sl_selfbalance|apply sl_selfbalance_world]|].
  ok_intro. ok_auto.
Qed.
Lemma safe_extcodesize b : safe b extcodesize.
Proof.
  unfold safe, extcodesize. ok_auto.
  eapply ok_bind; [apply ok_read; [apply sl_bytecode_size|apply sl_size_world]|].
  ok_intro. ok_auto.
Qed.
Lemma safe_extcodehash b : safe b extcodehash.
Proof.
  unfold safe, extcodehash. ok_auto.
  eapply ok_bind; [apply ok_read; [apply sl_bytecode_hash|apply sl_hash_world]|].
  ok_intro. ok_auto.
Qed.

Lemma safe_extcodecopy b : safe b extcodecopy.
Proof.
  unfold safe, extcodecopy. ok_auto.
  eapply ok_bind; [apply ok_read; [apply sl_bytecode|apply sl_code_world]|].
  intros code Hcode. ok_auto; [apply wrap_u64|by apply copy_and_zeropad_u8, get_from_u8|].
  rewrite length_copy_and_zeropad; unfold in_width in *; lia.
Qed.

Lemma ok_storage_load b t n : is_u64 n → safe b (storage_load t n).
Proof.
  intros Hn. unfold safe, storage_load. do 2 ok_step.
  apply (ok_bind_gets _ _ (λ _, True)); [done|]. ok_intro.
  eapply ok_bind; [apply ok_read; [apply sl_storage_read|apply sl_read_world]|].
  ok_intro. ok_auto.
Qed.
Lemma safe_sload b : safe b sload.
Proof. by apply ok_storage_load. Qed.
Lemma safe_tload b : safe b tload.
Proof. by apply ok_storage_load. Qed.

Lemma ok_storage_put c t : c = fetched false → ok c (storage_put t) (λ _, True) (between false).
Proof.
  intros ->. unfold storage_put. ok_step. apply (ok_bind_gets _ _ (λ _, True)); [done|]. ok_intro.
  eapply ok_conseq; [|done|].
  - apply ok_write; [apply exit_of_system_plain|apply sl_storage_write|done].
  - cfg_weaken.
Qed.

Lemma safe_sstore b : safe b sstore.
Proof.
  unfold safe, sstore. do 2 ok_step. cfg_simpl. subst.
  apply (ok_bind_gets _ _ (λ _, True)); [done|]. ok_intro. ok_auto. by apply ok_storage_put.
Qed.
Lemma safe_tstore b : safe b tstore.
Proof. unfold safe, tstore. do 2 ok_step. cfg_simpl. subst. by apply ok_storage_put. Qed.

Lemma ok_pop_topics n c :
  ok c (pop_topics n) (λ _, True) (stack_cfg (c_lo c - n) (c_hi c - n) c).
Proof.
  revert c. induction n as [|n IH]; intros c; cbn [pop_topics].
  - eapply (ok_conseq _ _ (λ _, True)); [by apply ok_ret|done|]. split; cbn; auto; lia.
  - ok_step. eapply ok_bind; [apply IH|]. ok_intro.
    eapply (ok_conseq _ _ (λ _, True)); [by apply ok_ret|done|]. split; cbn; auto; lia.
Qed.

Lemma safe_log b n : (n ≤ MAX_EVENT_TOPICS)%nat → safe b (log n).
Proof.
  intros Hn. unfold safe, log.
  eapply ok_bind; [apply ok_assert; by apply bool_decide_eq_true_2|]. ok_intro.
  do 4 ok_step. eapply ok_bind; [apply ok_pop_topics|]. ok_intro. ok_auto;
    [unfold in_width in *; lia..|]. cfg_simpl. subst.
  apply (ok_bind_gets _ _ (λ _, True)); [done|]. ok_intro.
  eapply ok_conseq; [apply ok_write; [apply exit_of_system_plain|apply sl_emit_event|done]|done|].
  cfg_weaken.
Qed.

Lemma exit_of_subsystem_plain e : plain (exit_of_subsystem e).
Proof.
  unfold exit_of_subsystem. destruct (root_cause e) as [[]| |] eqn:E; cbn; unfold fatal;
    rewrite ?E; done.
Qed.

Lemma safe_selfdestruct b : safe b selfdestruct.
Proof.
  unfold safe, selfdestruct. do 3 ok_step. cfg_simpl. subst.
  apply (ok_bind_gets _ _ (λ _, True)); [done|]. ok_intro.
  apply (ok_bind_gets _ _ (λ _, True)); [done|]. ok_intro.
  eapply ok_bind; [apply ok_write; [intros ?; apply exit_of_subsystem_plain|apply sl_deconstruct|done]|].
  ok_intro. ok_auto.
Qed.

(** *** External calls *)

(** What the caller of [request_external_call] has to provide. *)
Record request_fields (c : cfg) (p : PendingOsRequest) (l : Z * Z) (req : EVMCallRequest) : Prop := {
  q_room : (c_hi c < STACK_SIZE)%nat;
  q_ip : c_ip c ≤ 32;
  q_loc : c_loc c = Some l;
  q_loc_range : 0 ≤ l.1 ≤ l.2 ∧ l.2 ≤ c_memory c;
  q_input : 0 ≤ (cr_input_data req).1 ≤ (cr_input_data req).2
            ∧ (cr_input_data req).2 ≤ c_memory c;
  q_value : is_u256 (cr_call_value req);
  q_callee : is_b160 (cr_destination_address req);
  q_pending :
    if decide (cr_modifier req = Constructor)
    then p = PendingCreate (cr_destination_address req) ∧ l = (0, 0)
    else p = PendingCall;
  q_modifier : cr_modifier req ≠ ZKVMSystem ∧ cr_modifier req ≠ ZKVMSystemStatic;
  q_static : c_static c = true → is_static_modifier (cr_modifier req) = true;
  q_static_value : cr_modifier req = Static → cr_call_value req = 0
}.

Definition suspended (s : St) (p : PendingOsRequest) (req : EVMCallRequest) : St :=
  mkSt (set_pending (Some p) (set_gas (set_resources res_empty (gas (self s))) (self s)))
    (system s) (Some req).

Lemma ended_request c p l req s :
  idle s → holds c (self s) → request_fields c p l req →
  cr_full_caller_resources req = resources (gas (self s)) →
  is_u64 (ergs_0 (cr_ergs_to_pass req)) →
  evolves s (suspended s p req) ∧ ended s ExternalCall (suspended s p req).
Proof.
  intros [Hi Hx] [C1 C2 C3 C4 C5 C6] [] Hfull Hergs.
  assert (gas_wf (set_resources res_empty (gas (self s)))) as Hwf by done.
  split.
  { split; try done. cbn. destruct (f_gas _ Hi) as [[] []]. split; cbn; done. }
  split; [split; [done|apply (mem_bytes _ (f_heap _ Hi))]|]. exists req. split; [done|].
  split; cbn; try done; try lia.
  - by destruct Hi.
  - rewrite Hfull. apply Hi.
  - by rewrite Hfull.
  - unfold range_in, heap_len in *. cbn. lia.
  - rewrite (C5 l) by done. unfold range_in, heap_len in *. cbn. lia.
  - destruct (decide _); [|by subst p]. destruct q_pending0 as [-> ->]. auto.
  - rewrite C1. auto.
Qed.

(** CALL and friends take the resources last, CREATE before the pending request is
    recorded. *)
Lemma ok_request_call c p l req :
  (∀ r, request_fields c p l (req r) ∧ cr_full_caller_resources (req r) = r
        ∧ is_u64 (ergs_0 (cr_ergs_to_pass (req r)))) →
  ok c (modify_self (set_pending (Some p)) ;;
        r ← on_gas gas_take_resources; request_external_call (req r)) (λ _, True)
    (between (c_static c)).
Proof.
  intros Hreq s Hi Hc. destruct (Hreq (resources (gas (self s)))) as (H1 & H2 & H3).
  by apply (ended_request c p l (req (resources (gas (self s))))).
Qed.

Lemma ok_request_create c p l req :
  (∀ r, res_wf r → request_fields c p l (req r) ∧ cr_full_caller_resources (req r) = r
        ∧ is_u64 (ergs_0 (cr_ergs_to_pass (req r)))) →
  ok c (r ← on_gas gas_take_resources; modify_self (set_pending (Some p)) ;;
        request_external_call (req r)) (λ _, True)
    (between (c_static c)).
Proof.
  intros Hreq s Hi Hc. destruct (Hreq (resources (gas (self s)))) as (H1 & H2 & H3); [apply Hi|].
  by apply (ended_request c p l (req (resources (gas (self s))))).
Qed.

Lemma ok_call_value_of scheme c :
  ok c (call_value_of scheme)
    (λ v, is_u256 v ∧ (scheme = SchemeStaticCall ∨ scheme = SchemeCall ∧ c_static c = true → v = 0))
    (stack_cfg (c_lo c - 1) (c_hi c) c).
Proof.
  destruct scheme; cbn [call_value_of].
  - ok_step. intros s Hi Hc. unfold get_self. erewrite bind_val by done.
    rewrite (h_static _ _ Hc). cbn [c_static stack_cfg].
    destruct (c_static c && negb (x =? 0)) eqn:E; cbn.
    + split; [done|]. by apply ended_plain; [|apply frame_remains, Hi|apply Hi].
    + split; [done|]. split; [done|]. split.
      { eapply holds_le; [|done]. split; cbn; auto; lia. }
      split; [done|]. intros [?|[_ Hst]]; [done|]. rewrite Hst in E. cbn in E.
      destruct (Z.eqb_spec x 0); done.
  - eapply ok_conseq; [apply ok_pop_1| |split; cbn; auto; lia]. naive_solver.
  - eapply (ok_conseq _ _ is_u256); [apply ok_gets; intros i Hi _; apply Hi| |split; cbn; auto; lia].
    naive_solver.
  - eapply (ok_conseq _ _ (λ v, v = 0)); [by apply ok_ret| |split; cbn; auto; lia].
    by intros v ->.
Qed.

Lemma saturated_word x : is_u256 x → is_u64 (u256_to_u64_saturated x).
Proof. intros Hx. rewrite u256_to_u64_saturated_spec by done. unfold in_width, umax in *. lia. Qed.

Lemma saturating_mul_u64 x y : is_u64 x → 0 ≤ y → is_u64 (saturating_mul 64 x y).
Proof. unfold saturating_mul, in_width, umax. nia. Qed.

(** Paid memory is below 4 GiB. *)
Lemma ok_memory_bound {A} c (m : M St ExitCode A) φ c' :
  (c_memory c < 2 ^ 32 → ok c m φ c') → ok c m φ c'.
Proof.
  intros Hm s Hi Hc. apply Hm; [|done..]. destruct Hi as [Hi _].
  pose proof (mem_limit _ (f_heap _ Hi)). pose proof (h_memory _ _ Hc). unfold heap_len in *. lia.
Qed.

Lemma wrap_usize x : 0 ≤ x < 2 ^ 32 → wrap usize_bits x = x.
Proof. intros Hx. apply wrap_small. by apply usize_small. Qed.

(** The modifier of a call: always defined, never a constructor's, static in a
    static frame or for STATICCALL. *)
Lemma call_modifier_spec static scheme :
  ∃ m, call_modifier (bool_decide (scheme = SchemeStaticCall) || static) scheme = Some m
  ∧ m ≠ Constructor ∧ m ≠ ZKVMSystem ∧ m ≠ ZKVMSystemStatic
  ∧ (static = true → is_static_modifier m = true)
  ∧ (m = Static → scheme = SchemeStaticCall ∨ scheme = SchemeCall ∧ static = true).
Proof. destruct static, scheme; cbn; eexists; naive_solver. Qed.

Ltac req_simpl :=
  cbn [cr_ergs_to_pass cr_call_value cr_destination_address cr_input_data cr_modifier
       cr_full_caller_resources fst snd] in *.

Lemma safe_call_impl b scheme : safe b (call_impl scheme).
Proof.
  unfold safe, call_impl. do 3 ok_step.
  eapply ok_bind; [apply ok_call_value_of|]. intros v [Hv Hv0]. do 5 ok_step.
  unfold in_width in *. destruct_and?.
  apply (ok_bind_gets _ _ (λ x, x = b)); [intros i _ Hc; by rewrite (h_static _ _ Hc)|].
  intros ? ->. destruct (call_modifier_spec b scheme) as (m & Hm & N1 & N2 & N3 & Hst & Hval).
  apply (ok_bind_expect _ _ m); [done|]. apply ok_memory_bound. cfg_simpl. intros Hlim.
  rewrite !wrap_usize by lia. ok_step.
  match goal with |- ok (loc_cfg ?l _) _ _ _ => eapply (ok_request_call _ PendingCall l) end.
  intros r. split; [|split; [done|]].
  - pose proof stack_size_ge. split; cfg_simpl; req_simpl; try done; try lia.
    + by apply u256_b160.
    + by rewrite decide_False.
    + intros ->. apply Hv0. auto.
  - cbn. apply saturating_mul_u64; [by apply saturated_word|done].
Qed.

(** *** Creation *)

Lemma address_of_digest_ok d :
  is_bytes32 d → ∃ a, address_of_digest d = Some a ∧ is_b160 a.
Proof.
  intros [Hl Hu]. unfold address_of_digest. rewrite bool_decide_true by (rewrite length_drop, Hl; done).
  eexists. split; [done|]. pose proof (of_le_bytes_bound (reverse (drop 12 d))) as Hb.
  rewrite length_reverse, length_drop, Hl in Hb. apply Hb, Forall_reverse, Forall_drop, Hu.
Qed.

(** The encoding fits the buffer it is hashed from. *)
Lemma quasi_rlp_buffer a n :
  slice (splice (repeat 0 MAX_CREATE_RLP_ENCODING_LEN) 0
           (take MAX_CREATE_RLP_ENCODING_LEN (create_quasi_rlp a n))) 0
    (Z.of_nat (length (create_quasi_rlp a n)))
  = Some (create_quasi_rlp a n).
Proof.
  assert (length (create_quasi_rlp a n) ≤ MAX_CREATE_RLP_ENCODING_LEN)%nat as Hl.
  { change MAX_CREATE_RLP_ENCODING_LEN with 31%nat. unfold create_quasi_rlp. cbn zeta.
    destruct (_ && _); rewrite !length_app, ?length_drop, !length_be_bytes; cbn [length]; lia. }
  rewrite take_ge by done. apply slice_splice; [lia|]. rewrite repeat_length. lia.
Qed.

Lemma ok_derive_create c a n :
  ok c (derive_address_for_deployment_create a n) (is_b160) c.
Proof.
  unfold derive_address_for_deployment_create. rewrite quasi_rlp_buffer.
  eapply ok_bind_expect; [done|].
  destruct (address_of_digest_ok (Keccak256_digest (create_quasi_rlp a n))) as (d & Hd & Hb);
    [apply sl_digest|]. by eapply ok_expect.
Qed.

Lemma takes_keccak inp :
  takes (zoom resources set_resources
    (map_err (λ e, exit_of_subsystem (create2_keccak_error e))
       (with_infinite_ergs id (λ r _, r) (keccak256 inp)))) is_bytes32.
Proof.
  intros g Hg. unfold zoom, map_err.
  pose proof (infinite_keccak_ok (keccak256 inp) _ (sl_keccak inp) (resources g) Hg) as H.
  destruct (with_infinite_ergs _ _ _ _) as [[a|e|] r]; cbn in *; destruct H as (? & ? & ? & ?);
    split_conj; try done. apply exit_of_subsystem_plain.
Qed.

Lemma ok_derive_create2 c salt a code :
  ok c (derive_address_for_deployment_create2 salt a code) (is_b160) c.
Proof.
  unfold derive_address_for_deployment_create2.
  eapply ok_bind; [apply ok_on_gas, takes_keccak|]. intros h [Hl Hu].
  unfold ArrayBuilder_build. rewrite bool_decide_true by done. eapply ok_bind_expect; [done|].
  destruct (address_of_digest_ok (Keccak256_digest (create2_buffer a salt h))) as (d & Hd & Hb);
    [apply sl_digest|]. by eapply ok_expect.
Qed.

Lemma initcode_cost_nonneg x : 0 ≤ wrap 64 x.
Proof. apply (wrap_in_width 64). lia. Qed.

Lemma safe_create b is2 : safe b (create is2).
Proof.
  unfold safe, create. eapply ok_bind; [apply ok_charge; by destruct is2|]. ok_intro.
  do 5 ok_step. cfg_simpl. subst. unfold in_width in *. destruct_and?. ok_step; [ok_auto|].
  eapply ok_bind; [apply ok_spend_gas, initcode_cost_nonneg|]. ok_intro.
  apply ok_memory_bound. cfg_simpl. intros Hlim. rewrite wrap_usize by lia.
  pose proof stack_size_ge.
  match goal with |- ok ?c _ _ _ => eapply (ok_bind _ (stack_cfg 0 (STACK_SIZE - 3) c)) end.
  - destruct is2.
    + ok_step. apply (ok_bind_gets _ _ (λ _, True)); [done|]. ok_intro.
      eapply ok_bind; [apply ok_heap_slice; cfg_simpl; lia|]. ok_intro.
      eapply ok_conseq; [apply ok_derive_create2|done|]. split; cfg_simpl; auto; lia.
    + apply (ok_bind_gets _ _ (λ _, True)); [done|]. ok_intro.
      eapply ok_bind; [apply ok_read; [apply infinite_ergs_ok, sl_read_nonce|
                                       apply infinite_ergs_world, sl_nonce_world]|].
      ok_intro. eapply ok_conseq; [apply ok_derive_create|done|]. split; cfg_simpl; auto; lia.
  - intros d Hd.
    match goal with |- context [mkEVMCallRequest _ ?v d ?range _ _] =>
      apply (ok_request_create _ (PendingCreate d) (0, 0)
               (λ r, mkEVMCallRequest (ergs r) v d range Constructor r)) end.
    intros r Hr. split; [|split; [done|apply Hr]].
    split; cfg_simpl; req_simpl; try done; try lia.
Qed.

End Instructions.

#[export] Hint Resolve safe_add safe_mul safe_sub safe_div safe_sdiv safe_rem safe_smod safe_addmod
  safe_mulmod safe_exp safe_sign_extend safe_lt safe_gt safe_slt safe_sgt safe_eq_ safe_iszero
  safe_bitand safe_bitor safe_bitxor safe_not_ safe_byte safe_shl safe_shr safe_sar safe_jump
  safe_jumpi safe_jumpdest safe_pc safe_ret safe_revert safe_chainid safe_coinbase safe_timestamp
  safe_number safe_gaslimit safe_gasprice safe_basefee safe_caller safe_origin safe_difficulty
  safe_blockhash safe_blobhash safe_blobbasefee safe_mload safe_mstore safe_mstore8 safe_msize
  safe_mcopy safe_pop safe_push0 safe_dup safe_swap safe_push safe_sha3 safe_address safe_callvalue
  safe_codesize safe_calldatasize safe_returndatasize safe_gas safe_calldataload safe_codecopy
  safe_calldatacopy safe_returndatacopy safe_balance safe_selfbalance safe_extcodesize
  safe_extcodehash safe_extcodecopy safe_sload safe_tload safe_sstore safe_tstore safe_log
  safe_selfdestruct safe_call_impl safe_create : safe.
