(* ===== verification/EvmExec.v ===== *)
(** * The interpreter as a whole

    From the safety of the instructions: every step of the loop keeps the frame
    well-formed and consumes native resource, so the loop terminates; what it
    yields to the operating system is well-formed; frames can be started and
    resumed without a panic; and a static frame never changes the world. *)

From stdpp Require Import strings.
From S2P Require Import Prelude Resources U256 SystemInterface EvmStack SliceVec EvmConstants Gas.
From S2P Require Import Bytecode EvmState EvmInstructions EvmRun EvmFrame EvmLogic EvmSafety.

Section Exec.
Context {R : Ruint} {RS : RuintSpec} {UZ : Usize} {FT : Features} {SYS : System}
  {LAWS : SystemLaws}.

(** ** One step *)

Lemma safe_throw b e : plain e → safe b (throw e).
Proof. apply ok_throw. Qed.
#[local] Hint Resolve safe_throw : safe.
#[local] Hint Extern 1 (_ ≤ _)%nat => (unfold MAX_EVENT_TOPICS; lia) : safe.
#[local] Hint Extern 1 (plain _) => exact I : safe.

Lemma safe_table b : Forall (λ p, safe b p.2) dispatch_table.
Proof.
  unfold dispatch_table, call, call_code, delegate_call, static_call.
  repeat (apply Forall_cons; split; [cbn [snd]; by eauto with safe|]). apply Forall_nil_2.
Qed.

Lemma safe_find b opcode table :
  Forall (λ p, safe b p.2) table → safe b (find_instruction opcode table).
Proof.
  induction 1 as [|[op m] table Hm _ IH]; cbn; [by apply ok_throw|]. by destruct (op =? opcode).
Qed.

Lemma ok_after {A} c (m : M St ExitCode A) φ c' s s1 :
  ok c m φ c' → idle s1 → holds c (self s1) → evolves s s1 →
  match m s1 with
  | (Val a, s') => idle s' ∧ evolves s s' ∧ holds c' (self s') ∧ φ a
  | (Err e, s') => evolves s s' ∧ ended s e s'
  | (Fault, _) => False
  end.
Proof.
  intros Hm Hi Hc Hev. specialize (Hm s1 Hi Hc). destruct (m s1) as [[a|e|] s']; [| |done].
  - destruct Hm as (? & ? & ? & ?). split_conj; try done. by etransitivity.
  - destruct Hm. split; [by etransitivity|by eapply ended_before].
Qed.

Abbreviation native_of s := (n_left (resources (gas (self s)))).

Lemma charge_step_consumes s s' :
  idle s → charge_op 0 STEP_NATIVE_COST s = (Val tt, s') → native_of s' + 20 ≤ native_of s.
Proof.
  intros [Hi _]. unfold charge_op, on_gas, zoom. rewrite spend_gas_and_native_run by (done || apply Hi).
  change STEP_NATIVE_COST with 20. cbn [fst snd].
  destruct (Z.leb_spec (2 ^ 64) (0 * 256)); [done|].
  destruct (Z.ltb_spec (n_left (resources (gas (self s)))) 20); [done|].
  destruct (_ <? 0 * 256); [done|]. intros [= <-]. cbn. lia.
Qed.

Lemma charge_no_request g n s e s' :
  idle s → charge_op g n s = (Err e, s') → external_call_dest s' = None.
Proof.
  intros [_ Hx]. unfold charge_op, on_gas, zoom. destruct (spend_gas_and_native _ _ _) as [[]?]; try done.
  by intros [= <- <-].
Qed.

(** The state in which the instruction at [ip] runs, once it is paid for. *)
Definition fetched_state (s : St) : St :=
  set_self (set_ip (wrap usize_bits (instruction_pointer (self s) + 1)) (self s)) s.
Definition opcode_at (s : St) : Z :=
  get_bytecode_unchecked (instruction_pointer (self s)) (self s).

Lemma step_unfold s :
  step s = (charge_op 0 STEP_NATIVE_COST ;; find_instruction (opcode_at s) dispatch_table)
             (fetched_state s).
Proof. done. Qed.

Lemma fetched_ok b s k :
  idle s → holds (between b) (self s) →
  instruction_pointer (self s) ≤ Z.of_nat (length (bytecode (self s))) + k →
  idle (fetched_state s) ∧ evolves s (fetched_state s)
  ∧ holds (mkCfg b 0 STACK_SIZE 0 None (k + 1)) (self (fetched_state s)).
Proof.
  intros Hi [C1 C2 C3 C4 C5 C6] Hk. destruct (f_code _ (proj1 Hi)) as [_ Hlen].
  cbn [c_ip between] in C6. split_conj.
  - destruct Hi as [[] ?]. split; [by split|done].
  - by split.
  - split; try done. cbn -[Z.pow]. rewrite wrap_small by (unfold in_width; lia). lia.
Qed.

Lemma stop_at_end s :
  Z.of_nat (length (bytecode (self s))) ≤ instruction_pointer (self s) → opcode_at s = OP_STOP.
Proof.
  intros H. unfold opcode_at, get_bytecode_unchecked. rewrite lookup_ge_None_2; [done|lia].
Qed.

(** A request for a call is made by a step that has been paid for. *)
Definition request_paid (s s' : St) : Prop :=
  ∀ req, external_call_dest s' = Some req →
    n_left (cr_full_caller_resources req) + 20 ≤ native_of s.

Lemma ended_paid s s2 e s' : ended s2 e s' → native_of s2 + 20 ≤ native_of s → request_paid s s'.
Proof.
  intros [_ He] Hn req Hreq.
  assert (request_ok s2 (self s') req) as Hok.
  { destruct e as [| | | |[]|]; try congruence; try (destruct He; congruence).
    destruct He as (req' & Hreq' & Hok). congruence. }
  destruct (rq_res _ _ _ Hok) as [_ Hle]. lia.
Qed.

Lemma no_request_paid s s' : external_call_dest s' = None → request_paid s s'.
Proof. intros Hx req Hreq. congruence. Qed.

Lemma plain_exit_no_request s e s' : ended s e s' → e ≠ ExternalCall → external_call_dest s' = None.
Proof. intros [_ He] Hne. destruct e as [| | | |[]|]; done || apply He. Qed.

Lemma step_spec b s :
  idle s → holds (between b) (self s) →
  match step s with
  | (Val _, s') => idle s' ∧ evolves s s' ∧ holds (between b) (self s')
                   ∧ native_of s' + 20 ≤ native_of s
  | (Err e, s') => evolves s s' ∧ ended s e s' ∧ request_paid s s'
  | (Fault, _) => False
  end.
Proof.
  intros Hi Hc. rewrite step_unfold.
  destruct (decide (instruction_pointer (self s) < Z.of_nat (length (bytecode (self s))))).
  - destruct (fetched_ok b s (-1)) as (Hi1 & Hev1 & Hc1); [done|done|lia|].
    pose proof (ok_after _ _ _ _ s _ (ok_charge (fetched b) 0 STEP_NATIVE_COST ltac:(done)
      ltac:(done)) Hi1 Hc1 Hev1) as H.
    unfold mbind, M_bind. destruct (charge_op _ _ (fetched_state s)) as [[[]|e|] s2] eqn:E;
      [|destruct H; split; [done|]; split; [done|]; by eapply no_request_paid, charge_no_request|done].
    destruct H as (Hi2 & Hev2 & Hc2 & _).
    apply charge_step_consumes in E; [|done]. change (native_of (fetched_state s)) with (native_of s) in E.
    pose proof (safe_find b (opcode_at s) _ (safe_table b) s2 Hi2 Hc2) as Hm.
    pose proof (ok_after _ _ _ _ s _ (safe_find b (opcode_at s) _ (safe_table b)) Hi2 Hc2 Hev2) as H.
    destruct (find_instruction _ _ s2) as [[[]|e|] s'];
      [|destruct H, Hm; split; [done|]; split; [done|]; by apply (ended_paid s s2 e)|done].
    destruct H as (? & ? & ? & _). destruct Hm as (_ & Hm & _). apply ev_res in Hm as [_ Hm].
    split_conj; try done. lia.
  - rewrite stop_at_end by lia. pose proof (h_ip _ _ Hc) as Hip. cbn [c_ip between] in Hip.
    destruct (fetched_ok b s 32) as (Hi1 & Hev1 & Hc1); [done|done|lia|].
    pose proof (ok_after _ _ _ _ s _ (ok_charge (mkCfg b 0 STACK_SIZE 0 None 33) 0 STEP_NATIVE_COST
      ltac:(done) ltac:(done)) Hi1 Hc1 Hev1) as H.
    unfold mbind, M_bind. destruct (charge_op _ _ (fetched_state s)) as [[[]|e|] s2] eqn:E;
      [|destruct H; split; [done|]; split; [done|]; by eapply no_request_paid, charge_no_request|done].
    destruct H as (Hi2 & Hev2 & _). split; [done|].
    split; [by apply ended_plain; [|apply frame_remains, Hi2|apply Hi2]|].
    apply no_request_paid, Hi2.
Qed.

(** ** The loop *)

Inductive runs : St → ExitCode → St → nat → Prop :=
| runs_exit s e s' : step s = (Err e, s') → runs s e s' 1
| runs_step s s1 e s' n : step s = (Val tt, s1) → runs s1 e s' n → runs s e s' (S n).

Lemma run_loop_spec b fuel s :
  idle s → holds (between b) (self s) → native_of s < 20 * Z.of_nat fuel →
  ∃ e s' n, run_loop fuel s = (Val e, s') ∧ runs s e s' n ∧ (n ≤ fuel)%nat
            ∧ evolves s s' ∧ ended s e s' ∧ request_paid s s'.
Proof.
  revert s. induction fuel as [|fuel IH]; intros s Hi Hc Hn.
  { destruct (f_gas _ (proj1 Hi)) as [_ Hg]. unfold in_width in Hg. lia. }
  pose proof (step_spec b s Hi Hc) as Hs. cbn [run_loop].
  destruct (step s) as [[[]|e|] s1] eqn:E; [| |done].
  - destruct Hs as (Hi1 & Hev1 & Hc1 & Hn1).
    destruct (IH s1) as (e & s' & n & Hr & Hruns & Hle & Hev & He & Hp); [done|done|lia|].
    exists e, s', (S n). split; [done|]. split; [by eapply runs_step|]. split; [lia|].
    split; [by etransitivity|]. split; [by eapply ended_before|].
    intros req Hreq. specialize (Hp req Hreq). lia.
  - destruct Hs as (Hev & He & Hp). exists e, s1, 1%nat.
    split; [done|]. split; [by apply runs_exit|]. split; [lia|]. done.
Qed.

Lemma run_fuel_enough s : idle s → native_of s < 20 * Z.of_nat (run_fuel s).
Proof.
  intros [Hi _]. destruct (f_gas _ Hi) as [_ [Hg _]]. unfold run_fuel, gas_native.
  fold (native_of s). change STEP_NATIVE_COST with 20. unfold n_left in *.
  pose proof (Z.div_mod (as_u64 (native (resources (gas (self s))))) 20 ltac:(lia)).
  pose proof (Z.mod_pos_bound (as_u64 (native (resources (gas (self s))))) 20 ltac:(lia)).
  pose proof (Z.div_pos (as_u64 (native (resources (gas (self s))))) 20). lia.
Qed.
(** ** Yielding *)

(** A frame suspended in an external call. *)
Record awaiting (i : Interpreter) : Prop := {
  aw_frame : frame_ok i;
  aw_ip : 0 ≤ instruction_pointer i ≤ Z.of_nat (length (bytecode i)) + 32;
  aw_room : (length (stack i) < STACK_SIZE)%nat;
  aw_taken : resources (gas i) = res_empty;
  aw_output : range_in (returndata_location i) i;
  aw_pending :
    match pending_os_request i with
    | Some PendingCall => True
    | Some (PendingCreate a) => is_b160 a ∧ returndata_location i = (0, 0)
    | None => False
    end
}.

(** The request the operating system gets from the frame [i]. *)
Record call_ok (i : Interpreter) (next_heap : Heap Z) (req : ExternalCallRequest) : Prop := {
  co_caller : ecr_caller req = address i ∧ callers_caller req = caller i;
  co_callee : is_b160 (callee req);
  co_value : is_u256 (nominal_token_value req);
  co_ergs : is_u64 (ergs_0 (ergs_to_pass req));
  co_input : Forall is_u8 (input req) ∧ Z.of_nat (length (input req)) ≤ heap_len i;
  co_scratch : call_scratch_space req = None;
  co_heap : next_heap = (heap_freeze (heap i)).2;
  co_constructor : pending_os_request i
    = Some (if decide (modifier req = Constructor) then PendingCreate (callee req) else PendingCall);
  co_modifier : modifier req ≠ ZKVMSystem ∧ modifier req ≠ ZKVMSystemStatic;
  co_static : is_static i = true →
    is_static_modifier (modifier req) = true ∧ (modifier req = Static → nominal_token_value req = 0)
}.

Definition result_bytes (r : CallResult) : list Z :=
  match r with
  | PreparationStepFailed => []
  | Failed rv | Successful rv => rv_returndata rv
  end.

Definition result_ok (i : Interpreter) (r : CallResult) : Prop :=
  Forall is_u8 (result_bytes r) ∧ Z.of_nat (length (result_bytes r)) ≤ heap_len i
  ∧ has_scratch_space r = false
  ∧ (is_constructor i = true → ∀ rv, r = Successful rv → rv = ReturnValues_empty).

(** [r] is what the frame had to spend. *)
Definition yielded (r : Res) (y : ExecutionEnvironmentPreemptionPoint) (s' : St) : Prop :=
  match y with
  | CallRequest next_heap req =>
      awaiting (self s') ∧ call_ok (self s') next_heap req
      ∧ res_wf (available_resources req)
      ∧ res_le_both (available_resources req) r
      ∧ n_left (available_resources req) + 20 ≤ n_left r
  | End_ c =>
      res_wf (resources_returned c)
      ∧ res_le_both (resources_returned c) r
      ∧ resources (gas (self s')) = res_empty
      ∧ result_ok (self s') (ce_result c)
  end.

(** The judgement for functions that yield. *)
Definition yields (s : St) (m : M St EvmSubsystemError ExecutionEnvironmentPreemptionPoint)
    (s1 : St) : Prop :=
  match m s1 with
  | (Val y, s') => evolves s s' ∧ yielded (resources (gas (self s))) y s'
  | (Err e, s') => evolves s s' ∧ fatal e
  | (Fault, _) => False
  end.

Lemma evolves_resources s s1 r :
  evolves s s1 → res_wf (resources (gas (self s1))) →
  res_le_both r (resources (gas (self s1))) →
  evolves s (set_self (set_gas_resources r (self s1)) s1).
Proof.
  intros [H1 H2 H3 H4 H5] Hw Hr. split; try done. by transitivity (resources (gas (self s1))).
Qed.

Lemma empty_le (r : Res) : res_wf r → res_le_both res_empty r.
Proof. intros [[] []]. by split. Qed.

Lemma exhaust_le (r : Res) : res_wf r → res_wf (exhaust_ergs r) ∧ res_le_both (exhaust_ergs r) r.
Proof. intros [[] ?]. split; [by split|]. by split. Qed.

(** The last act of a frame: hand over what is left with the result. *)
Lemma finish_spec s s1 result :
  evolves s s1 → gas_wf (gas (self s1)) → result_ok (self s1) result →
  yields s (r ← take_all_resources; mret (End_ (mkCompleted r result))) s1.
Proof.
  intros Hev Hg Hr. unfold yields. cbn. split.
  - by apply (evolves_resources s s1); [| |apply empty_le].
  - split; [done|]. split; [apply Hev|]. split; [done|exact Hr].
Qed.

Lemma deploy_spec s s1 code :
  evolves s s1 → gas_wf (gas (self s1)) → is_static (self s) = false →
  match deploy code s1 with
  | (Val _, s2) => evolves s s2 ∧ gas_wf (gas (self s2)) ∧ heap (self s2) = heap (self s1)
  | (Err e, s2) => evolves s s2 ∧ fatal e
  | (Fault, _) => False
  end.
Proof.
  intros Hev Hg Hs. unfold deploy. destruct (_ <? _); [done|]. destruct (bool_decide _); [done|].
  erewrite bind_val by done. pose proof (sl_deploy (address (self s1)) code (io_get s1) Hg) as H.
  unfold zoom, attempt, mbind, M_bind.
  destruct (deploy_bytecode _ _ (io_get s1)) as [o [sys r]]. cbn [fst snd] in *.
  destruct H as (Hw & He & Hn & Hla & Ho).
  assert (evolves s (io_put (sys, r) s1)) as Hev'.
  { etransitivity; [done|]. apply evolves_gas; [done| |done]. intros Hs1.
    pose proof (ev_identity _ _ Hev) as Hid. unfold identity_of in Hid. congruence. }
  destruct o as [a|[e|[e|]]|]; try done; by split_conj.
Qed.

Lemma heap_range_spec l s :
  range_in l (self s) →
  heap_range l s = (Val (take (Z.to_nat (l.2 - l.1)) (drop (Z.to_nat l.1) (heap_data (heap (self s))))), s).
Proof.
  intros [H1 H2]. unfold heap_range. erewrite bind_val by done.
  unfold heap_len in H2. unfold slice.
  destruct (Z.leb_spec 0 l.1), (Z.leb_spec 0 (l.2 - l.1)),
    (Z.leb_spec (l.1 + (l.2 - l.1)) (Z.of_nat (length (heap_data (heap (self s)))))); done || lia.
Qed.

Lemma taken_bytes s (l : Z * Z) :
  remains_ok (self s) → range_in l (self s) →
  let d := take (Z.to_nat (l.2 - l.1)) (drop (Z.to_nat l.1) (heap_data (heap (self s)))) in
  Forall is_u8 d ∧ Z.of_nat (length d) ≤ heap_len (self s).
Proof.
  intros Hr [H1 H2] d. split; [apply Forall_take, Forall_drop, Hr|].
  subst d. rewrite length_take, length_drop. unfold heap_len in *. lia.
Qed.

(** What the exit code leaves: the returned bytes, for RETURN and REVERT only. *)
Definition returned_bytes (e : ExitCode) (i : Interpreter) : list Z :=
  match e with
  | Return | EvmErr Revert =>
      let l := returndata_location i in
      take (Z.to_nat (l.2 - l.1)) (drop (Z.to_nat l.1) (heap_data (heap i)))
  | _ => []
  end.

Definition final (e : ExitCode) : Prop :=
  match e with ExternalCall | FatalError _ => False | _ => True end.

Definition error_result (returndata : list Z) (e : EvmError)
    : M St EvmSubsystemError ExecutionEnvironmentPreemptionPoint :=
  returndata ←
    (if negb (bool_decide (e = Revert)) then consume_all ;; mret [] else mret returndata);
  r ← take_all_resources;
  mret (End_ (mkCompleted r (Failed (mkReturnValues returndata None)))).

Definition success_result (returndata : list Z)
    : M St EvmSubsystemError ExecutionEnvironmentPreemptionPoint :=
  constructor ← get_self is_constructor;
  result ←
    (if (constructor : bool) then
       error_after_constructor ← deploy returndata;
       match error_after_constructor with
       | Some _ => consume_all ;; mret (Failed ReturnValues_empty)
       | None => mret (Successful ReturnValues_empty)
       end
     else mret (Successful (mkReturnValues returndata None)));
  r ← take_all_resources;
  mret (End_ (mkCompleted r result)).

Lemma immediate_unfold s e :
  final e →
  (match e with Return | EvmErr Revert => range_in (returndata_location (self s)) (self s)
   | _ => True end) →
  create_immediate_return_state e s
  = match e with
    | EvmErr err => error_result (returned_bytes e (self s)) err s
    | _ => success_result (returned_bytes e (self s)) s
    end.
Proof.
  intros Hf Hr. unfold create_immediate_return_state.
  destruct e as [| | | |[]|]; try done; erewrite bind_val; try done;
    (rewrite bind_val with (a := returndata_location (self s)) (s' := s); [|done]);
    by rewrite heap_range_spec.
Qed.

Lemma result_empty_ok i r :
  result_bytes r = [] → has_scratch_space r = false →
  (∀ rv, r = Successful rv → rv = ReturnValues_empty) → result_ok i r.
Proof.
  intros Hb Hs Hrv. unfold result_ok. rewrite Hb. unfold heap_len. split_conj; [done|cbn [length]; lia|done|auto].
Qed.

Lemma error_result_spec s s1 d e :
  evolves s s1 → gas_wf (gas (self s1)) → Forall is_u8 d → Z.of_nat (length d) ≤ heap_len (self s1) →
  yields s (error_result d e) s1.
Proof.
  intros Hev Hg Hd Hl. unfold error_result. destruct (negb _).
  - apply (finish_spec s (set_self (set_gas_resources (exhaust_ergs (resources (gas (self s1)))) (self s1)) s1)
             (Failed (mkReturnValues [] None))).
    + apply evolves_resources; [done|done|]. by apply exhaust_le.
    + by apply exhaust_le.
    + by apply result_empty_ok.
  - by apply finish_spec.
Qed.

Lemma success_result_spec s s1 d :
  evolves s s1 → gas_wf (gas (self s1)) → Forall is_u8 d → Z.of_nat (length d) ≤ heap_len (self s1) →
  (is_static (self s) = true → is_constructor (self s) = false) →
  yields s (success_result d) s1.
Proof.
  intros Hev Hg Hd Hl Hk. unfold success_result, yields. erewrite bind_val by done.
  assert (is_constructor (self s1) = is_constructor (self s)) as Hid.
  { pose proof (ev_identity _ _ Hev) as Hid. unfold identity_of in Hid. congruence. }
  destruct (is_constructor (self s1)) eqn:Ec.
  2:{ apply (finish_spec s s1 (Successful (mkReturnValues d None))); try done.
      unfold result_ok. split_conj; try done. congruence. }
  assert (is_static (self s) = false) as Hs by (destruct (is_static (self s)); naive_solver).
  pose proof (deploy_spec s s1 d Hev Hg) as H. unfold mbind, M_bind.
  destruct (deploy d s1) as [[o|e|] s2]; [| |].
  - destruct H as (Hev2 & Hg2 & Hh); [done|].
    destruct o as [err|].
    + apply (finish_spec s (set_self (set_gas_resources (exhaust_ergs (resources (gas (self s2)))) (self s2)) s2)
               (Failed ReturnValues_empty)).
      * apply evolves_resources; [done|done|]. by apply exhaust_le.
      * by apply exhaust_le.
      * by apply result_empty_ok.
    + apply (finish_spec s s2 (Successful ReturnValues_empty)); try done.
      apply result_empty_ok; [done|done|]. naive_solver.
  - by apply H.
  - by apply H.
Qed.

Lemma immediate_spec s s1 e :
  evolves s s1 → final e → ended s e s1 →
  (is_static (self s) = true → is_constructor (self s) = false) →
  yields s (create_immediate_return_state e) s1.
Proof.
  intros Hev Hf [Hr He] Hk. pose proof (r_gas _ Hr) as Hg. unfold yields.
  assert (Forall is_u8 (returned_bytes e (self s1))
          ∧ Z.of_nat (length (returned_bytes e (self s1))) ≤ heap_len (self s1)) as [Hd Hl].
  { assert (Z.of_nat (length ([] : list Z)) ≤ heap_len (self s1)) as H0.
    { unfold heap_len. cbn [length]. lia. }
    destruct e as [| | | |[]|]; try done; destruct He as [He _]; by apply taken_bytes. }
  rewrite immediate_unfold; [|done|by destruct e as [| | | |[]|]; try done; apply He].
  destruct e; try done; by first [apply error_result_spec|apply success_result_spec].
Qed.

(** The frame as the loop expects it. *)
Definition ready (i : Interpreter) : Prop :=
  frame_ok i ∧ 0 ≤ instruction_pointer i ≤ Z.of_nat (length (bytecode i)) + 32.

Lemma ready_holds i : ready i → holds (between (is_static i)) i.
Proof.
  intros [Hi Hip]. pose proof (f_size _ Hi). split; cbn [c_static c_lo c_hi c_memory c_loc c_ip between];
    try done; [lia|unfold heap_len; lia].
Qed.

Lemma run_spec s :
  ready (self s) → external_call_dest s = None →
  ∃ e s' n, run s = (Val e, s') ∧ runs s e s' n ∧ (n ≤ run_fuel s)%nat
            ∧ evolves s s' ∧ ended s e s' ∧ request_paid s s'.
Proof.
  intros Hr Hx. assert (idle s) as Hi by (split; [apply Hr|done]).
  apply (run_loop_spec (is_static (self s))); [done|by apply ready_holds|by apply run_fuel_enough].
Qed.

Lemma request_awaiting s i req : request_ok s i req → awaiting i.
Proof.
  intros H. pose proof (rq_pending _ _ _ H) as Hp. pose proof (rq_callee _ _ _ H) as Hc.
  destruct H. split; try done. destruct (decide (cr_modifier req = Constructor)).
  - by destruct Hp as [-> ?].
  - by rewrite Hp.
Qed.

Lemma request_call_ok s s' req :
  request_ok s (self s') req →
  call_ok (self s') (heap_freeze (heap (self s'))).2
    (mkCallRequest (cr_full_caller_resources req) (cr_ergs_to_pass req) (address (self s'))
       (cr_destination_address req) (caller (self s')) (cr_modifier req)
       (take (Z.to_nat ((cr_input_data req).2 - (cr_input_data req).1))
          (drop (Z.to_nat (cr_input_data req).1) (heap_data (heap (self s')))))
       (cr_call_value req) None).
Proof.
  intros H. pose proof (rq_pending _ _ _ H) as Hp. destruct H.
  assert (remains_ok (self s')) as Hrem by by apply frame_remains.
  split; cbn [ecr_caller callers_caller callee nominal_token_value ergs_to_pass input
    call_scratch_space modifier]; try done.
  - by apply taken_bytes.
  - by destruct (decide (cr_modifier req = Constructor)); [apply Hp|].
  - auto.
Qed.

Lemma execute_spec s : ready (self s) → yields s execute_till_yield_point s.
Proof.
  intros Hr. unfold yields, execute_till_yield_point. erewrite bind_val by done.
  set (s0 := mkSt (self s) (system s) None).
  destruct (run_spec s0) as (e & s' & n & Hrun & _ & _ & Hev & He & Hpaid); [done|done|].
  rewrite (bind_val _ _ _ _ _ Hrun).
  assert (evolves s s') as Hev' by (by destruct Hev; split).
  assert (is_static (self s) = true → is_constructor (self s) = false) as Hk by apply Hr.
  destruct (decide (is_external_call e = true)) as [Hx|Hx].
  - destruct e; try done. destruct He as [Hrem (req & Hreq & Hok)].
    erewrite bind_val by done. rewrite Hreq.
    do 2 (erewrite bind_val by done). cbn [heap_freeze].
    pose proof (rq_input _ _ _ Hok) as Hin. pose proof (heap_range_spec _ _ Hin) as Hsl.
    unfold heap_range in Hsl. erewrite bind_val in Hsl by done.
    destruct (slice _ _ _) as [d|]; [|done]. injection Hsl as ->. cbn.
    split; [done|]. split; [by eapply request_awaiting|].
    split; [by eapply request_call_ok|]. split; [apply Hok|]. split; [apply Hok|]. by apply Hpaid.
  - assert (external_call_dest s' = None) as Hdest.
    { destruct He as [_ He]. destruct e as [| | | |[]|]; done || apply He. }
    assert (ended s e s') as He' by by destruct e as [| | | |[]|].
    destruct e as [| | | |e|e]; [..|by split; [|apply He]]; try done; (erewrite bind_val by done); rewrite Hdest;
      by apply immediate_spec.
Qed.

(** ** Starting a frame *)

(** The code of an account as the operating system stores it: plain, or with the
    serialised jump table behind it. *)
Record code_ok (p : CalleeAccountProperties) : Prop := {
  ck_bytes : bytes_ok (cap_bytecode p);
  ck_default : cap_code_version p = DEFAULT_CODE_VERSION_BYTE → cap_artifacts_len p = 0;
  ck_cached : cap_code_version p = ARTIFACTS_CACHING_CODE_VERSION_BYTE →
    0 ≤ cap_unpadded_code_len p ≤ 8 * cap_artifacts_len p
    ∧ cap_artifacts_len p mod 8 = 0
    ∧ cap_unpadded_code_len p + cap_artifacts_len p ≤ Z.of_nat (length (cap_bytecode p))
}.

Record launch_ok (fs : ExecutionEnvironmentLaunchParams) : Prop := {
  lo_scratch : call_scratch_space (external_call fs) = None;
  lo_res : res_wf (available_resources (external_call fs));
  lo_caller : is_b160 (ecr_caller (external_call fs));
  lo_callee : is_b160 (callee (external_call fs));
  lo_callers : is_b160 (callers_caller (external_call fs));
  lo_input : bytes_ok (input (external_call fs));
  lo_value : is_u256 (nominal_token_value (external_call fs));
  lo_code : modifier (external_call fs) ≠ Constructor →
            code_ok (callee_account_properties (environment_parameters fs))
}.

Definition loaded (code : list Z) (pp : BytecodePreprocessingData) : Prop :=
  bytes_ok code ∧ preprocessing_ok pp ∧ original_bytecode_len pp = Z.of_nat (length code).

Lemma create_artifacts_loaded code r :
  bytes_ok code → res_wf r →
  match create_artifacts code r with
  | (Val pp, r') => loaded code pp ∧ res_wf r' ∧ res_le_both r' r
  | (Err e, _) => fatal (subsystem_of_system e)
  | (Fault, _) => False
  end.
Proof.
  intros Hc Hr. unfold create_artifacts.
  destruct (create_artifacts_spec code) as (d & -> & Hlen & Hw & Hl & _).
  set (cost := from_native _).
  assert (res_wf cost) as Hcost.
  { split; [done|]. unfold n_left, cost. cbn -[Z.mul Z.pow]. unfold saturating_mul, in_width, umax.
    unfold BYTECODE_PREPROCESSING_BYTE_NATIVE_COST. lia. }
  unfold mbind, M_bind, map_err. rewrite charge_run by done.
  destruct (n_left r <? n_left cost); [done|].
  destruct (Z.ltb_spec (e_left r) (e_left cost)) as [Hneg|_].
  { destruct Hr as [[Hr _] _]. change (e_left cost) with 0 in Hneg. lia. }
  split; [|split].
  - split; [done|]. split; [|done]. split; [done|].
    pose proof (next_multiple_of_spec (Z.of_nat (length code)) 64 ltac:(lia)). lia.
  - destruct Hcost as [[? _] [? _]]. apply res_wf_max; [|done|done]. by rewrite <- res_eta.
  - destruct Hr as [[? ?] [? ?]], Hcost as [[? _] [? _]]. unfold res_le_both, e_left, n_left in *.
    cbn -[Z.max] in *. lia.
Qed.

Lemma parse_loaded p :
  code_ok p → cap_code_version p = ARTIFACTS_CACHING_CODE_VERSION_BYTE →
  ∃ code pp, parse_bytecode (cap_bytecode p) (cap_unpadded_code_len p) (cap_artifacts_len p)
             = Val (code, pp) ∧ loaded code pp.
Proof.
  intros [[Hu Hsz] _ Hck] Hv. destruct (Hck Hv) as (H1 & H2 & H3).
  set (bc := cap_bytecode p) in *. set (n := cap_unpadded_code_len p) in *.
  set (a := cap_artifacts_len p) in *.
  unfold parse_bytecode, checked_sub. rewrite checked_in by (unfold in_width; lia).
  cbn [mbind option_bind]. rewrite checked_in by (unfold in_width; lia).
  set (bs := drop (Z.to_nat (Z.of_nat (length bc) - n - a)) (drop (Z.to_nat n) bc)).
  assert (Z.of_nat (length bs) = a) as Hbs by (unfold bs; rewrite !length_drop; lia).
  destruct (from_raw_ok bs) as (words & -> & Hw & Hlw & _);
    [by apply Forall_drop, Forall_drop|by rewrite Hbs|].
  eexists _, _. split; [done|]. rewrite Hbs in Hlw. split; [|split].
  - split; [by apply Forall_take|]. rewrite length_take. lia.
  - split; [done|]. cbn [original_bytecode_len jumpdest_bitmap as_words]. lia.
  - cbn [original_bytecode_len]. rewrite length_take. lia.
Qed.

Lemma set_frame_code_spec m inp p r s :
  (m ≠ Constructor → code_ok p) → bytes_ok inp → res_wf r →
  match set_frame_code m inp p r s with
  | (Val r', s') => ∃ code pp, loaded code pp ∧ s' = set_self (set_bytecode code pp (self s)) s
                    ∧ res_wf r' ∧ res_le_both r' r
  | (Err e, s') => system s' = system s ∧ fatal e
  | (Fault, _) => False
  end.
Proof.
  intros Hp Hinp Hr. unfold set_frame_code. destruct (bool_decide_reflect (m = Constructor)) as [|Hm].
  { pose proof (create_artifacts_loaded inp r Hinp Hr) as H. unfold with_local, mbind, M_bind.
    destruct (create_artifacts inp r) as [[pp|err|] r']; [|done|done]. naive_solver. }
  specialize (Hp Hm). destruct (Z.eqb_spec (cap_code_version p) DEFAULT_CODE_VERSION_BYTE) as [Hv|].
  { rewrite (ck_default _ Hp Hv), Z.eqb_refl.
    pose proof (create_artifacts_loaded _ r (ck_bytes _ Hp) Hr) as H.
    unfold with_local, mbind, M_bind. cbn.
    destruct (create_artifacts _ r) as [[pp|err|] r']; [|done|done]. cbn. naive_solver. }
  destruct (Z.eqb_spec (cap_code_version p) ARTIFACTS_CACHING_CODE_VERSION_BYTE) as [Hv|]; [|done].
  destruct (parse_loaded p Hp Hv) as (code & pp & -> & Hl). cbn. by exists code, pp.
Qed.

(** What the modifier makes of caller, callee and caller's caller. *)
Definition context_ok (m : CallModifier) (ctx : FrameContext) : Prop :=
  is_b160 (fc_caller ctx) ∧ is_b160 (fc_address ctx) ∧ bytes_ok (fc_calldata ctx)
  ∧ fc_static ctx = is_static_modifier m ∧ fc_constructor ctx = bool_decide (m = Constructor).

Lemma bytes_ok_nil : bytes_ok [].
Proof.
  split; [done|]. pose proof usize_bits_pos.
  assert (2 ^ 32 ≤ 2 ^ usize_bits) by (apply Z.pow_le_mono_r; lia). cbn [length]. lia.
Qed.

Lemma nonce_error_fatal e : fatal (constructor_nonce_error e).
Proof. by destruct e as [[]|[]|[]|[]]. Qed.

Lemma apply_modifier_spec m a b c inp r s :
  is_b160 a → is_b160 b → is_b160 c → bytes_ok inp → res_wf r →
  match apply_modifier m a b c inp r s with
  | (Val (ctx, r'), s') =>
      context_ok m ctx ∧ res_wf r' ∧ res_le_both r' r ∧ self s' = self s
      ∧ external_call_dest s' = external_call_dest s
      ∧ (is_static_modifier m = true → world (system s') = world (system s))
      ∧ later (system s) (system s')
  | (Err e, s') =>
      (is_static_modifier m = true → world (system s') = world (system s))
      ∧ later (system s) (system s') ∧ fatal e
  | (Fault, _) => False
  end.
Proof.
  intros Ha Hb Hc Hinp Hr.
  destruct m; cbn; try done; try (by unfold context_ok; split_conj).
  pose proof (infinite_ergs_ok _ _ (sl_increment_nonce b 1) (system s, r) Hr) as H.
  unfold with_local_io, mbind, M_bind.
  destruct (infinite_ergs _ _) as [[n|e|] [sys r']]; cbn [fst snd] in *;
    destruct H as (H1 & H2 & H3 & H4 & H5);
    [|split; [done|]; split; [done|apply nonce_error_fatal]|done].
  cbn. split_conj; try done. unfold context_ok. split_conj; try done. apply bytes_ok_nil.
Qed.

Lemma fresh_ready code pp ctx m r h v :
  loaded code pp → context_ok m ctx → res_wf r → heap_data h = [] → is_u256 v →
  ready (enter_frame ctx r h v (set_bytecode code pp Interpreter_new)).
Proof.
  intros (Hc & Hpp & Hl) (C1 & C2 & C3 & C4 & C5) Hr Hh Hv.
  split; [|cbn; lia]. split; cbn; try done; try apply bytes_ok_nil.
  - lia.
  - split; rewrite Hh; try done. cbn. lia.
  - unfold heap_len. cbn. by rewrite Hh.
  - rewrite C4, C5. intros Hs. apply bool_decide_eq_false. by intros ->.
Qed.

(** What a frame is from its start to its end: static, a constructor, and the
    capacity of its memory. *)
Definition kind_of (i : Interpreter) : bool * bool * nat :=
  (is_static i, is_constructor i, heap_cap (heap i)).
Definition launch_kind (fs : ExecutionEnvironmentLaunchParams) (h : Heap Z) : bool * bool * nat :=
  (is_static_modifier (modifier (external_call fs)),
   bool_decide (modifier (external_call fs) = Constructor), heap_cap h).

Lemma evolves_kind s s' : evolves s s' → kind_of (self s') = kind_of (self s).
Proof. intros [_ Hid _ _ _]. unfold identity_of in Hid. unfold kind_of. congruence. Qed.

Lemma prepare_frame_spec fs h s :
  launch_ok fs → self s = Interpreter_new → heap_data h = [] →
  let quiet s' := ((launch_kind fs h).1.1 = true → world (system s') = world (system s))
                  ∧ later (system s) (system s') in
  match prepare_frame fs h s with
  | (Val _, s') =>
      ready (self s') ∧ kind_of (self s') = launch_kind fs h
      ∧ res_le_both (resources (gas (self s'))) (available_resources (external_call fs))
      ∧ quiet s'
  | (Err e, s') => quiet s' ∧ fatal e
  | (Fault, _) => False
  end.
Proof.
  intros Hl Hs Hh quiet. unfold prepare_frame. rewrite (lo_scratch _ Hl).
  rewrite bool_decide_true by done. erewrite bind_val by done.
  pose proof (set_frame_code_spec (modifier (external_call fs)) (input (external_call fs)) _
    _ s (lo_code _ Hl) (lo_input _ Hl) (lo_res _ Hl)) as Hcode.
  unfold mbind, M_bind in *.
  destruct (set_frame_code _ _ _ _ s) as [[r1|e|] s1];
    [|destruct Hcode as [Hsys Hfe]; unfold quiet; rewrite Hsys; by split|done].
  destruct Hcode as (code & pp & Hload & -> & Hr1 & Hle1).
  pose proof (apply_modifier_spec (modifier (external_call fs)) (ecr_caller (external_call fs))
    (callee (external_call fs)) (callers_caller (external_call fs)) (input (external_call fs)) r1
    (set_self (set_bytecode code pp (self s)) s) (lo_caller _ Hl) (lo_callee _ Hl)
    (lo_callers _ Hl) (lo_input _ Hl) Hr1) as Hmod.
  destruct (apply_modifier _ _ _ _ _ _ _) as [[[ctx r2]|e|] s2];
    [|by destruct Hmod as (? & ? & ?); split|done].
  destruct Hmod as (Hctx & Hr2 & Hle2 & Hself & _ & Hw).
  assert (resources (gas (self s2)) = res_empty) as Hres by (rewrite Hself; cbn; by rewrite Hs).
  cbn -[enter_frame quiet]. rewrite Hres. cbn -[enter_frame quiet]. rewrite Hself. cbn [self set_self].
  rewrite Hs. split; [by eapply fresh_ready; try done; apply Hl|].
  split; [|split; [by etransitivity|exact Hw]].
  destruct Hctx as (_ & _ & _ & Hcs & Hcc). unfold kind_of, launch_kind. cbn. by rewrite Hcs, Hcc.
Qed.

(** The outcome of starting or resuming a frame of kind [k] that may spend [r]; a
    static frame leaves the world alone. *)
Definition frame_result (r : Res) (k : bool * bool * nat) (s : St)
    (o : outcome EvmSubsystemError ExecutionEnvironmentPreemptionPoint * St) : Prop :=
  (k.1.1 = true → world (system o.2) = world (system s))
  ∧ later (system s) (system o.2)
  ∧ match o.1 with
    | Val y => yielded r y o.2 ∧ kind_of (self o.2) = k
    | Err e => fatal e
    | Fault => False
    end.

Lemma yielded_le r r' y s : res_le_both r r' → yielded r y s → yielded r' y s.
Proof.
  intros Hle. destruct y; cbn.
  - intros (? & ? & ? & ? & ?). split_conj; try done; [by etransitivity|]. destruct Hle. lia.
  - intros (? & ? & ? & ?). split_conj; try done. by etransitivity.
Qed.

Lemma yields_result s0 s r k m :
  yields s m s → kind_of (self s) = k → (k.1.1 = true → world (system s) = world (system s0)) →
  later (system s0) (system s) →
  res_le_both (resources (gas (self s))) r → frame_result r k s0 (m s).
Proof.
  intros Hy Hk Hw Hla Hle. unfold yields, frame_result in *.
  assert (∀ s', evolves s s' → (k.1.1 = true → world (system s') = world (system s0))
                ∧ later (system s0) (system s') ∧ kind_of (self s') = k) as Hs.
  { intros s' Hev. split; [|split].
    - intros Hst. rewrite <- Hw by done. apply Hev. by subst k.
    - etransitivity; [done|apply Hev].
    - rewrite <- Hk. by apply evolves_kind. }
  destruct (m s) as [[y|e|] s']; [| |done]; destruct Hy as [Hev Hy];
    destruct (Hs s' Hev) as (? & ? & ?); cbn; split_conj; try done.
  by eapply yielded_le.
Qed.

Lemma start_spec fs h s :
  launch_ok fs → self s = Interpreter_new → heap_data h = [] →
  frame_result (available_resources (external_call fs)) (launch_kind fs h) s
    (start_executing_frame fs h s).
Proof.
  intros Hl Hs Hh. pose proof (prepare_frame_spec fs h s Hl Hs Hh) as Hp.
  unfold start_executing_frame. destruct (prepare_frame fs h s) as [[[]|e|] s1] eqn:E; [| |done].
  - rewrite (bind_val _ _ _ _ _ E). destruct Hp as (Hr & Hk & Hle & Hw & Hla).
    by apply (yields_result s s1); [apply execute_spec|..].
  - rewrite (bind_err _ _ _ _ _ E). destruct Hp as [[] ?]. by split.
Qed.

(** ** Resuming a frame *)

(** What the operating system promises about the result of a call: no scratch
    space, data that fits the address space, none from a successful creation. *)
Record reply_ok (p : PendingOsRequest) (r : CallResult) : Prop := {
  rp_scratch : has_scratch_space r = false;
  rp_bytes : bytes_ok (result_bytes r);
  rp_create : ∀ a rv, p = PendingCreate a → r = Successful rv → rv_returndata rv = []
}.

(** Fields that resuming leaves as they are. *)
Definition same_control (i i' : Interpreter) : Prop :=
  gas i' = gas i ∧ kind_of i' = kind_of i ∧ instruction_pointer i' = instruction_pointer i
  ∧ bytecode i' = bytecode i.

Lemma frame_returndata i d : frame_ok i → bytes_ok d → frame_ok (set_returndata d i).
Proof. by intros []. Qed.

Lemma frame_splice i offset bytes :
  frame_ok i → Forall is_u8 bytes → 0 ≤ offset → offset + Z.of_nat (length bytes) ≤ heap_len i →
  frame_ok (set_heap (mkHeap (heap_cap (heap i)) (splice (heap_data (heap i)) offset bytes)) i).
Proof.
  intros Hi Hb Ho Hl. destruct (memory_splice (heap i) offset bytes) as [Hm Hlen];
    [apply Hi|done|done|done|].
  destruct Hi. split; try done. unfold heap_len in *. cbn. by rewrite Hlen.
Qed.

Lemma copy_returndata_spec s d :
  frame_ok (self s) → range_in (returndata_location (self s)) (self s) → bytes_ok d →
  ∃ i', copy_returndata_to_heap d s = (Val tt, set_self i' s) ∧ frame_ok i'
        ∧ same_control (self s) i' ∧ stack i' = stack (self s).
Proof.
  intros Hi [Hr1 Hr2] [Hd Hdl]. unfold copy_returndata_to_heap. erewrite bind_val by done.
  destruct (range_len _ =? 0) eqn:E; cbn [negb].
  { eexists. split; [done|]. split; [by apply frame_returndata|done]. }
  unfold heap_write. set (loc := returndata_location (self s)) in *.
  set (bytes := take _ d).
  assert (Z.of_nat (length bytes) ≤ range_len loc) as Hlen.
  { unfold bytes. rewrite length_take. unfold range_len. lia. }
  unfold range_len in Hlen.
  assert (is_Some (slice (heap_data (heap (self s))) loc.1 (Z.of_nat (length bytes)))) as [sl Hsl].
  { eexists. apply slice_Some. unfold heap_len in Hr2. split_conj; try done; lia. }
  eexists (set_returndata d (set_heap _ (self s))). split_conj.
  - unfold mbind, M_bind. cbn -[splice]. rewrite Hsl. done.
  - apply frame_returndata; [|done]. apply frame_splice; [done|by apply Forall_take|lia|lia].
  - done.
  - done.
Qed.

Lemma push_expect_spec s v :
  frame_ok (self s) → (length (stack (self s)) < STACK_SIZE)%nat → is_u256 v →
  push_expect v s = (Val tt, set_self (set_stack (v :: stack (self s)) (self s)) s)
  ∧ frame_ok (set_stack (v :: stack (self s)) (self s)).
Proof.
  intros Hi Hl Hv. unfold push_expect, unwrap, push_word, on_stack, zoom, stk_push.
  destruct (decide _) as [He|_]; [lia|]. split; [done|].
  destruct Hi. split; try done. by constructor.
Qed.

(** Pushing the outcome once the data is in place. *)
Lemma push_after {i'} s v :
  frame_ok i' → same_control (self s) i' → stack i' = stack (self s) →
  (length (stack (self s)) < STACK_SIZE)%nat → is_u256 v →
  ∃ i2, (push_expect v ;; mret true) (set_self i' s) = (Val true, set_self i2 s)
        ∧ frame_ok i2 ∧ same_control (self s) i2.
Proof.
  intros Hf Hs Hst Hl Hv.
  destruct (push_expect_spec (set_self i' s) v) as [Hp Hf2]; [done|cbn; by rewrite Hst|done|].
  eexists. split; [rewrite (bind_val _ _ _ _ _ Hp); done|]. split; [exact Hf2|exact Hs].
Qed.

Lemma resume_spec s p r :
  frame_ok (self s) → (length (stack (self s)) < STACK_SIZE)%nat →
  range_in (returndata_location (self s)) (self s) →
  (∀ a, p = PendingCreate a → is_b160 a ∧ returndata_location (self s) = (0, 0)) →
  reply_ok p r →
  r = PreparationStepFailed ∧ resume_with p r s = (Val false, s)
  ∨ ∃ i', resume_with p r s = (Val true, set_self i' s) ∧ frame_ok i' ∧ same_control (self s) i'.
Proof.
  intros Hf Hl Hr Hp [Hs Hb Hc].
  assert (∀ rv, result_bytes r = rv_returndata rv → frame_ok (set_returndata (rv_returndata rv) (self s)))
    as Hset by (intros rv Hrv; apply frame_returndata; [done|by rewrite <- Hrv]).
  destruct r as [|rv|rv]; [by left|right; cbn [result_bytes] in *..];
    cbn [has_scratch_space] in Hs; apply bool_decide_eq_false in Hs;
    (assert (bool_decide (return_scratch_space rv = None) = true) as Hns;
     [apply bool_decide_eq_true; destruct (return_scratch_space rv); [exfalso; eauto|done]|]);
    destruct p as [|a]; cbn [resume_with].
  - destruct (copy_returndata_spec s (rv_returndata rv)) as (i' & Hrun & Hf' & Hs' & Hst); [done..|].
    rewrite (bind_val _ _ _ _ _ Hrun). by apply push_after.
  - destruct (Hp a eq_refl) as [_ Hloc].
    rewrite bind_val with (a := tt) (s' := set_self (set_returndata (rv_returndata rv) (self s)) s).
    2:{ unfold mbind, M_bind. cbn. rewrite Hloc. cbn. by rewrite Hns. }
    by apply push_after; [apply Hset|..].
  - destruct (copy_returndata_spec s (rv_returndata rv)) as (i' & Hrun & Hf' & Hs' & Hst); [done..|].
    destruct (push_after s 1 Hf' Hs' Hst Hl) as (i2 & Hp2 & ?); [done|]. exists i2.
    split; [|done]. unfold mbind, M_bind in *. by rewrite Hrun.
  - destruct (Hp a eq_refl) as [Ha _].
    destruct (push_after s (b160_to_u256 a) (Hset rv eq_refl)) as (i2 & Hp2 & ?);
      [done|done|done|by apply b160_word|]. exists i2. split; [|done].
    rewrite (Hc a rv eq_refl eq_refl) in *. unfold mbind, M_bind in *. cbn in *. rewrite Hns. exact Hp2.
Qed.

Lemma reclaim_empty (r : Res) : res_wf r → reclaim r res_empty = (Val tt, r).
Proof.
  intros [[He1 He2] [Hn1 Hn2]]. destruct r as [[e] [n]]. unfold e_left, n_left in *. cbn in He1, He2, Hn1, Hn2.
  transitivity (Val tt : outcome SystemError unit, mk_res (wrap 64 (0 + e)) (wrap 64 (0 + n))); [done|].
  by rewrite !wrap_small.
Qed.

Lemma ready_control i i' :
  frame_ok i' → same_control i i' →
  0 ≤ instruction_pointer i ≤ Z.of_nat (length (bytecode i)) + 32 → ready i'.
Proof. intros Hf (_ & _ & Hip & Hbc) H. split; [done|]. by rewrite Hip, Hbc. Qed.

Lemma continue_spec r res s :
  awaiting (self s) → res_wf r →
  (∀ p, pending_os_request (self s) = Some p → reply_ok p res) →
  frame_result r (kind_of (self s)) s (continue_after_preemption r res s).
Proof.
  intros [Hf Hip Hroom Hres Hout Hpend] Hr Hreply. unfold continue_after_preemption.
  do 2 (erewrite bind_val by done).
  destruct (pending_os_request (self s)) as [p|] eqn:Ep; [|done]. specialize (Hreply p eq_refl).
  rewrite (rp_scratch _ _ Hreply). erewrite bind_val by done.
  set (s1 := set_self (set_pending None (self s)) s).
  assert (gas_native (gas (self s1)) =? 0 = true) as ->.
  { unfold gas_native. cbn. by rewrite Hres. }
  cbn [negb]. set (s2 := set_self (set_gas_resources r (self s1)) s1).
  rewrite bind_val with (a := tt) (s' := s2).
  2:{ unfold zoom, map_err. change (resources (gas (self s1))) with (resources (gas (self s))).
      rewrite Hres, reclaim_empty by done. done. }
  assert (frame_ok (self s2)) as Hf2.
  { apply frame_set_gas; [by destruct Hf|done|done]. }
  destruct (resume_spec s2 p res) as [[-> Hrun]|(i' & Hrun & Hf' & Hsc)]; [done|done|done| |done|..].
  { intros a ->. exact Hpend. }
  - rewrite (bind_val _ _ _ _ _ Hrun).
    apply (yields_result s s2); [|done|done|done|done].
    unfold yields. rewrite immediate_unfold by done. change (returned_bytes _ _) with (@nil Z).
    apply error_result_spec; try done. unfold heap_len. cbn [length]. lia.
  - rewrite (bind_val _ _ _ _ _ Hrun). apply (yields_result s (set_self i' s2)).
    + apply execute_spec. by apply (ready_control (self s2)).
    + destruct Hsc as (_ & Hk & _). exact Hk.
    + done.
    + done.
    + destruct Hsc as (Hg & _). cbn. by rewrite Hg.
Qed.

End Exec.
