(* ===== verification/EvmSemantics.v ===== *)
(** * What the instructions compute

    The arithmetic, comparison and bitwise instructions against the functions of
    the EVM specification, on mathematical integers; the words that PUSH reads,
    memory accesses, jumps, and the pricing of memory.  All statements are about
    a whole step of the loop: fetch, charges, stack and program counter. *)

From stdpp Require Import strings.
From S2P Require Import Prelude Resources U256 SystemInterface EvmStack SliceVec EvmConstants Gas.
From S2P Require Import Bytecode EvmState EvmInstructions EvmRun EvmFrame EvmLogic EvmSafety.
From S2P Require Import EvmExec.

(** ** The functions of the EVM *)

Definition evm_signextend (k x : Z) : Z :=
  if 31 <=? k then x
  else
    let m := 2 ^ (8 * (k + 1)) in
    let y := x mod m in
    if y <? m / 2 then y else y + (2 ^ 256 - m).

(** Opcode, gas, native cost of the operation, and its value; the operands are
    the top of the stack and the word below. *)
Definition binary_ops : list (Z * (Z → Z) * (Z → Z) * (Z → Z → Z)) :=
  let const (c : Z) := λ _ : Z, c in
  let exp_bytes p := if p =? 0 then 0 else Z.log2 p / 8 + 1 in
  [ (OP_ADD, const 3, const 140, λ a b, (a + b) mod 2 ^ 256);
    (OP_MUL, const 5, const 400, λ a b, (a * b) mod 2 ^ 256);
    (OP_SUB, const 3, const 140, λ a b, (a - b) mod 2 ^ 256);
    (OP_DIV, const 5, const 1500, λ a b, if b =? 0 then 0 else a / b);
    (OP_SDIV, const 5, const 1000,
      λ a b, if b =? 0 then 0 else unsigned (Z.quot (signed a) (signed b)));
    (OP_MOD, const 5, const 1300, λ a b, if b =? 0 then 0 else a mod b);
    (OP_SMOD, const 5, const 800,
      λ a b, if b =? 0 then 0 else unsigned (Z.rem (signed a) (signed b)));
    (OP_EXP, λ p, 10 + 50 * exp_bytes p, λ p, 700 + 5000 * exp_bytes p,
      λ a b, a ^ b mod 2 ^ 256);
    (OP_SIGNEXTEND, const 5, const 400, evm_signextend);
    (OP_LT, const 3, const 190, λ a b, if a <? b then 1 else 0);
    (OP_GT, const 3, const 190, λ a b, if b <? a then 1 else 0);
    (OP_SLT, const 3, const 430, λ a b, if signed a <? signed b then 1 else 0);
    (OP_SGT, const 3, const 430, λ a b, if signed b <? signed a then 1 else 0);
    (OP_EQ, const 3, const 500, λ a b, if a =? b then 1 else 0);
    (OP_AND, const 3, const 100, Z.land);
    (OP_OR, const 3, const 90, Z.lor);
    (OP_XOR, const 3, const 90, Z.lxor);
    (OP_BYTE, const 3, const 160, λ i x, if i <? 32 then (x / 256 ^ (31 - i)) mod 256 else 0);
    (OP_SHL, const 3, const 240, λ n x, if n <? 256 then (x * 2 ^ n) mod 2 ^ 256 else 0);
    (OP_SHR, const 3, const 240, λ n x, if n <? 256 then x / 2 ^ n else 0);
    (OP_SAR, const 3, const 400,
      λ n x, if n <? 256 then unsigned (signed x / 2 ^ n)
             else if signed x <? 0 then 2 ^ 256 - 1 else 0) ].

Section Semantics.
Context {R : Ruint} {RS : RuintSpec} {UZ : Usize} {FT : Features} {SYS : System}.
Abbreviation IM := (M St ExitCode).

(** The state after charging and after replacing the stack. *)
Definition charged (g n : Z) (s : St) : St :=
  set_self (set_gas_resources (mk_res (e_left (resources (gas (self s))) - g * 256)
                                      (n_left (resources (gas (self s))) - n)) (self s)) s.
Definition with_stack (l : list Z) (s : St) : St := set_self (set_stack l (self s)) s.

Definition affords (g n : Z) (s : St) : Prop :=
  g * 256 ≤ e_left (resources (gas (self s))) ∧ n ≤ n_left (resources (gas (self s))).

Lemma charge_op_run g n s :
  gas_wf (gas (self s)) → 0 ≤ g → 0 ≤ n → affords g n s →
  charge_op g n s = (Val tt, charged g n s).
Proof.
  intros Hg Hg0 Hn0 [Ha1 Ha2]. pose proof Hg as [[_ He] [_ Hn]]. unfold charge_op, on_gas, zoom.
  rewrite spend_gas_and_native_run; [|done|done|unfold in_width; lia].
  destruct (Z.leb_spec (2 ^ 64) (g * 256)); [lia|].
  destruct (Z.ltb_spec (n_left (resources (gas (self s)))) n); [lia|].
  destruct (Z.ltb_spec (e_left (resources (gas (self s)))) (g * 256)); [lia|].
  rewrite !Z.max_r by lia. done.
Qed.

Lemma on_stack_run {A} (m : M (list Z) ExitCode A) s l o l' :
  stack (self s) = l → m l = (o, l') → on_stack m s = (o, with_stack l' s).
Proof. intros Hl Hm. unfold on_stack, zoom. by rewrite Hl, Hm. Qed.

(** The instruction [m] computes [f] for [gas] and [native], from any state that
    can afford it. *)
Definition computes2 (m : IM unit) (gas native : Z → Z) (f : Z → Z → Z) : Prop :=
  ∀ s a b l, gas_wf (EvmState.gas (self s)) → is_u256 a → is_u256 b →
    stack (self s) = a :: b :: l → (length l + 2 ≤ STACK_SIZE)%nat →
    affords (gas b) (native b) s →
    m s = (Val tt, with_stack (f a b :: l) (charged (gas b) (native b) s)).

Lemma binary_intro g n (k : Z → Z → IM unit) (f : Z → Z → Z) :
  0 ≤ g → 0 ≤ n →
  (∀ s a b l, is_u256 a → is_u256 b → stack (self s) = b :: l → (length l + 2 ≤ STACK_SIZE)%nat →
     k a b s = (Val tt, with_stack (f a b :: l) s)) →
  computes2 (charge_op g n ;; '(a, b) ← on_stack stk_pop_1_peek; k a b) (λ _, g) (λ _, n) f.
Proof.
  intros Hg Hn Hk s a b l Hwf Ha Hb Hst Hl Haff.
  rewrite (bind_val _ _ _ _ _ (charge_op_run g n s Hwf Hg Hn Haff)).
  rewrite (bind_val _ _ _ _ _ (on_stack_run stk_pop_1_peek (charged g n s) (a :: b :: l)
             (Val (a, b)) (b :: l) Hst eq_refl)).
  by rewrite (Hk (with_stack (b :: l) (charged g n s)) a b l).
Qed.

Lemma write_top_run v s b l :
  stack (self s) = b :: l → write_top v s = (Val tt, with_stack (v :: l) s).
Proof. intros Hst. by apply (on_stack_run _ s (b :: l)). Qed.

Lemma write_popped_run v s l :
  stack (self s) = l → (length l < STACK_SIZE)%nat → write_popped v s = (Val tt, with_stack l s).
Proof.
  intros Hst Hl. apply (on_stack_run _ s l); [done|]. unfold stk_write_popped.
  by rewrite decide_True.
Qed.

(** The common case: the instruction is a single write of the result. *)
Lemma binary_write g n (F f : Z → Z → Z) :
  0 ≤ g → 0 ≤ n → (∀ a b, is_u256 a → is_u256 b → F a b = f a b) →
  computes2 (charge_op g n ;; '(a, b) ← on_stack stk_pop_1_peek; write_top (F a b))
    (λ _, g) (λ _, n) f.
Proof.
  intros Hg Hn HF. apply binary_intro; [done..|]. intros s a b l Ha Hb Hst _.
  rewrite (write_top_run _ s b l Hst). by rewrite HF.
Qed.

(** Two writes, of the popped word and of the top. *)
Lemma write_both_run v w s b l :
  stack (self s) = b :: l → (length l + 2 ≤ STACK_SIZE)%nat →
  (write_popped w ;; write_top v) s = (Val tt, with_stack (v :: l) s).
Proof.
  intros Hst Hl. rewrite (bind_val _ _ _ _ _ (write_popped_run w s (b :: l) Hst ltac:(cbn; lia))).
  by rewrite (write_top_run v (with_stack (b :: l) s) b l).
Qed.
Lemma with_stack_id s l : stack (self s) = l → with_stack l s = s.
Proof. intros <-. by destruct s as [[] ? ?]. Qed.

Lemma c_add : computes2 wrapped_add (λ _, 3) (λ _, 140) (λ a b, (a + b) mod 2 ^ 256).
Proof. apply binary_write; [done..|]. intros a b Ha Hb. rewrite u_add_spec by done. by rewrite Z.add_comm. Qed.
Lemma c_mul : computes2 wrapping_mul (λ _, 5) (λ _, 400) (λ a b, (a * b) mod 2 ^ 256).
Proof. apply binary_write; [done..|]. intros. by rewrite u_mul_spec. Qed.
Lemma c_sub : computes2 wrapping_sub (λ _, 3) (λ _, 140) (λ a b, (a - b) mod 2 ^ 256).
Proof. apply binary_write; [done..|]. intros. by rewrite u_sub_spec. Qed.

Lemma c_div : computes2 div (λ _, 5) (λ _, 1500) (λ a b, if b =? 0 then 0 else a / b).
Proof.
  apply (binary_intro 5 1500); [done..|]. intros s a b l Ha Hb Hst Hl.
  destruct (Z.eqb_spec b 0) as [->|Hb0]; cbn [negb].
  { by rewrite (with_stack_id s). }
  rewrite (bind_val _ _ _ (a / b) s) by (by rewrite u_div_spec). by rewrite (write_both_run _ _ s b l).
Qed.

Lemma signed_0 x : is_u256 x → (signed x =? 0) = (x =? 0).
Proof.
  intros Hx. destruct (Z.eqb_spec (signed x) 0) as [H|H], (Z.eqb_spec x 0) as [H'|H']; try done.
  - by apply signed_zero in H.
  - by subst.
Qed.

Lemma c_sdiv : computes2 sdiv (λ _, 5) (λ _, 1000)
  (λ a b, if b =? 0 then 0 else unsigned (Z.quot (signed a) (signed b))).
Proof.
  apply (binary_intro 5 1000); [done..|]. intros s a b l Ha Hb Hst Hl.
  destruct (i256_div_spec a b Ha Hb) as [d Hd]. rewrite signed_0 in Hd by done.
  rewrite (bind_val _ _ _ _ s (f_equal (λ o, expect o s) Hd)). by rewrite (write_both_run _ _ s b l).
Qed.

Lemma c_mod : computes2 rem (λ _, 5) (λ _, 1300) (λ a b, if b =? 0 then 0 else a mod b).
Proof.
  apply binary_write; [done..|]. intros a b Ha Hb. rewrite u_checked_rem_spec by done.
  by destruct (b =? 0).
Qed.

Lemma c_smod : computes2 smod (λ _, 5) (λ _, 800)
  (λ a b, if b =? 0 then 0 else unsigned (Z.rem (signed a) (signed b))).
Proof.
  apply (binary_intro 5 800); [done..|]. intros s a b l Ha Hb Hst Hl.
  destruct (Z.eqb_spec b 0) as [->|Hb0]; cbn [negb].
  { by rewrite (with_stack_id s). }
  destruct (i256_mod_spec a b) as [d Hd]; [done|done|by intros ?%signed_zero|].
  rewrite (bind_val _ _ _ _ s (f_equal (λ o, expect o s) Hd)). by rewrite (write_both_run _ _ s b l).
Qed.

Lemma c_exp : computes2 eval_exp
  (λ p, 10 + 50 * (if p =? 0 then 0 else Z.log2 p / 8 + 1))
  (λ p, 700 + 5000 * (if p =? 0 then 0 else Z.log2 p / 8 + 1))
  (λ a b, a ^ b mod 2 ^ 256).
Proof.
  intros s a b l Hwf Ha Hb Hst Hl Haff. unfold eval_exp.
  rewrite (bind_val _ _ _ _ _ (on_stack_run stk_pop_1_peek s (a :: b :: l)
             (Val (a, b)) (b :: l) Hst eq_refl)). cbn beta iota.
  destruct (exp_cost_spec b Hb) as [-> Hbytes]. set (bytes := if b =? 0 then _ else _) in *.
  rewrite (bind_val _ _ _ tt (charged (10 + 50 * bytes) (700 + 5000 * bytes) (with_stack (b :: l) s)));
    [|apply charge_op_run; [done|lia|lia|done]].
  rewrite (write_top_run _ _ b l) by done. by rewrite u_pow_spec.
Qed.

Lemma c_lt : computes2 lt (λ _, 3) (λ _, 190) (λ a b, if a <? b then 1 else 0).
Proof. by apply binary_write. Qed.
Lemma c_gt : computes2 gt (λ _, 3) (λ _, 190) (λ a b, if b <? a then 1 else 0).
Proof. by apply binary_write. Qed.
Lemma c_slt : computes2 slt (λ _, 3) (λ _, 430) (λ a b, if signed a <? signed b then 1 else 0).
Proof.
  apply binary_write; [done..|]. intros a b Ha Hb. rewrite i256_cmp_spec by done.
  destruct (Z.ltb_spec (signed a) (signed b)) as [H|H].
  - by rewrite (proj2 (Z.compare_lt_iff _ _) H).
  - destruct (Z.compare_spec (signed a) (signed b)); lia.
Qed.
Lemma c_sgt : computes2 sgt (λ _, 3) (λ _, 430) (λ a b, if signed b <? signed a then 1 else 0).
Proof.
  apply binary_write; [done..|]. intros a b Ha Hb. rewrite i256_cmp_spec by done.
  destruct (Z.ltb_spec (signed b) (signed a)) as [H|H];
    destruct (Z.compare_spec (signed a) (signed b)); lia.
Qed.
Lemma c_eq : computes2 eq_ (λ _, 3) (λ _, 500) (λ a b, if a =? b then 1 else 0).
Proof. by apply binary_write. Qed.
Lemma c_and : computes2 bitand (λ _, 3) (λ _, 100) Z.land.
Proof. apply binary_write; [done..|]. intros. rewrite u_and_spec by done. apply Z.land_comm. Qed.
Lemma c_or : computes2 bitor (λ _, 3) (λ _, 90) Z.lor.
Proof. apply binary_write; [done..|]. intros. rewrite u_or_spec by done. apply Z.lor_comm. Qed.
Lemma c_xor : computes2 bitxor (λ _, 3) (λ _, 90) Z.lxor.
Proof. apply binary_write; [done..|]. intros. rewrite u_xor_spec by done. apply Z.lxor_comm. Qed.

Lemma c_byte : computes2 byte (λ _, 3) (λ _, 160)
  (λ i x, if i <? 32 then (x / 256 ^ (31 - i)) mod 256 else 0).
Proof.
  apply (binary_intro 3 160); [done..|]. intros s a b l Ha Hb Hst _. rewrite capped_32 by done.
  destruct (Z.ltb_spec a 32) as [H|H]; rewrite (write_top_run _ s b l) by done; [|done].
  rewrite u_byte_spec; [done|done|]. unfold in_width in Ha. lia.
Qed.

Lemma shift_out x n : is_u256 x → 256 ≤ n → (x * 2 ^ n) mod 2 ^ 256 = 0 ∧ x / 2 ^ n = 0.
Proof.
  intros [H1 H2] Hn. split.
  - replace n with (n - 256 + 256) by lia. rewrite Z.pow_add_r, Z.mul_assoc by lia.
    apply Z.mod_mul. lia.
  - apply Z.div_small. split; [done|]. eapply Z.lt_le_trans; [done|]. apply Z.pow_le_mono_r; lia.
Qed.

Lemma c_shl : computes2 shl (λ _, 3) (λ _, 240)
  (λ n x, if n <? 256 then (x * 2 ^ n) mod 2 ^ 256 else 0).
Proof.
  apply (binary_intro 3 240); [done..|]. intros s a b l Ha Hb Hst _.
  assert ((match checked 32 a with None => write_top 0 | Some shift => write_top (u_shl b shift) end) s
    = write_top (if a <? 256 then (b * 2 ^ a) mod 2 ^ 256 else 0) s) as ->.
  { destruct (checked 32 a) as [n|] eqn:E.
    - apply checked_Some in E as [-> Hn]. rewrite u_shl_spec by (done || apply Hn).
      destruct (Z.ltb_spec n 256); [done|]. by rewrite (proj1 (shift_out b n Hb ltac:(lia))).
    - apply checked_None in E. unfold in_width in *. destruct (Z.ltb_spec a 256); [lia|done]. }
  by apply write_top_run with b.
Qed.
Lemma c_shr : computes2 shr (λ _, 3) (λ _, 240) (λ n x, if n <? 256 then x / 2 ^ n else 0).
Proof.
  apply (binary_intro 3 240); [done..|]. intros s a b l Ha Hb Hst _.
  assert ((match checked 32 a with None => write_top 0 | Some shift => write_top (u_shr b shift) end) s
    = write_top (if a <? 256 then b / 2 ^ a else 0) s) as ->.
  { destruct (checked 32 a) as [n|] eqn:E.
    - apply checked_Some in E as [-> Hn]. rewrite u_shr_spec by (done || apply Hn).
      destruct (Z.ltb_spec n 256); [done|]. by rewrite (proj2 (shift_out b n Hb ltac:(lia))).
    - apply checked_None in E. unfold in_width in *. destruct (Z.ltb_spec a 256); [lia|done]. }
  by apply write_top_run with b.
Qed.

Lemma sar_out x n : is_u256 x → 256 ≤ n →
  unsigned (signed x / 2 ^ n) = if signed x <? 0 then 2 ^ 256 - 1 else 0.
Proof.
  intros Hx Hn. pose proof (signed_range x Hx) as Hr.
  assert (2 ^ 256 ≤ 2 ^ n) by (apply Z.pow_le_mono_r; lia).
  destruct (Z.ltb_spec (signed x) 0).
  - replace (signed x / 2 ^ n) with (-1); [done|].
    apply (Z.div_unique _ _ _ (signed x + 2 ^ n)); lia.
  - by rewrite Z.div_small by lia.
Qed.

Lemma c_sar : computes2 sar (λ _, 3) (λ _, 400)
  (λ n x, if n <? 256 then unsigned (signed x / 2 ^ n)
          else if signed x <? 0 then 2 ^ 256 - 1 else 0).
Proof.
  apply binary_write; [done..|]. intros n x Hn Hx. unfold in_width in Hn.
  assert (0 ≤ default 256 (checked usize_bits n)
          ∧ (n < 256 → default 256 (checked usize_bits n) = n)
          ∧ (256 ≤ n → 256 ≤ default 256 (checked usize_bits n))) as (H0 & H1 & H2).
  { destruct (checked usize_bits n) as [m|] eqn:E; cbn.
    - apply checked_Some in E as [-> _]. lia.
    - apply checked_None in E. unfold in_width in E. pose proof (usize_small n).
      unfold in_width in *. lia. }
  rewrite u_arithmetic_shr_spec by done. destruct (Z.ltb_spec n 256).
  - by rewrite H1.
  - by apply sar_out; [|apply H2].
Qed.

(** Masks of the sign extension. *)
Lemma land_mask x j : 0 ≤ j → Z.land x (2 ^ j - 1) = x mod 2 ^ j.
Proof.
  intros Hj. replace (2 ^ j - 1) with (Z.ones j) by (rewrite Z.ones_equiv; lia).
  by apply Z.land_ones.
Qed.

Lemma lor_mask x j :
  is_u256 x → 0 ≤ j ≤ 255 →
  Z.lor x (2 ^ 256 - 2 ^ j) = x mod 2 ^ j + (2 ^ 256 - 2 ^ j).
Proof.
  intros Hx Hj. pose proof (Z.mod_pos_bound x (2 ^ j)) as Hm.
  assert (0 < 2 ^ j) by (apply Z.pow_pos_nonneg; lia).
  assert (2 ^ 256 - 2 ^ j = 0 + 2 ^ j * Z.ones (256 - j)) as Hones.
  { rewrite Z.ones_equiv. replace (2 ^ 256) with (2 ^ j * 2 ^ (256 - j)); [lia|].
    rewrite <- Z.pow_add_r by lia. f_equal. lia. }
  rewrite Hones. apply Z.bits_inj'. intros i Hi.
  rewrite Z.lor_spec, Z.add_assoc, Z.add_0_r, !testbit_split by lia. destruct (Z.ltb_spec i j).
  - rewrite Z.bits_0, orb_false_r, Z.mod_pow2_bits_low by lia. done.
  - destruct (Z.ltb_spec i 256).
    + rewrite Z.ones_spec_low by lia. apply orb_true_r.
    + rewrite Z.ones_spec_high, (high_bits x) by (done || lia). done.
Qed.

Lemma bit_half x j :
  0 ≤ j → 0 ≤ x →
  x mod 2 ^ (j + 1) = x mod 2 ^ j + (if Z.testbit x j then 2 ^ j else 0).
Proof.
  intros Hj Hx. rewrite Z.pow_add_r by lia. change (2 ^ 1) with 2.
  assert (0 < 2 ^ j) by (apply Z.pow_pos_nonneg; lia).
  rewrite Z.rem_mul_r by lia.
  pose proof (Z.testbit_spec' x j Hj) as Hb. rewrite <- Hb. destruct (Z.testbit x j); cbn; lia.
Qed.

Lemma signextend_masks k x :
  is_u256 x → 0 ≤ k < 32 →
  (if Z.testbit x (8 * k + 7) then Z.lor x (2 ^ 256 - 2 ^ (8 * k + 7))
   else Z.land x (2 ^ (8 * k + 7) - 1)) = evm_signextend k x.
Proof.
  intros Hx Hk. set (j := 8 * k + 7).
  assert (0 < 2 ^ j) by (apply Z.pow_pos_nonneg; lia).
  pose proof (Z.mod_pos_bound x (2 ^ j) ltac:(lia)) as Hm.
  pose proof (bit_half x j ltac:(lia) ltac:(apply Hx)) as Hy.
  rewrite land_mask, lor_mask by (done || lia).
  assert ((if Z.testbit x j then x mod 2 ^ j + (2 ^ 256 - 2 ^ j) else x mod 2 ^ j)
    = (if x mod 2 ^ (j + 1) <? 2 ^ j then x mod 2 ^ (j + 1)
       else x mod 2 ^ (j + 1) + (2 ^ 256 - 2 ^ (j + 1)))) as ->.
  { rewrite Hy, (Z.pow_add_r 2 j 1) by lia. change (2 ^ 1) with 2. destruct (Z.testbit x j).
    - destruct (Z.ltb_spec (x mod 2 ^ j + 2 ^ j) (2 ^ j)); lia.
    - rewrite Z.add_0_r. destruct (Z.ltb_spec (x mod 2 ^ j) (2 ^ j)); lia. }
  unfold evm_signextend. replace (8 * (k + 1)) with (j + 1) by lia.
  assert (2 ^ (j + 1) / 2 = 2 ^ j) as ->.
  { rewrite Z.pow_add_r by lia. by apply Z.div_mul. }
  destruct (Z.leb_spec 31 k) as [Hk31|]; [|done].
  assert (j + 1 = 256) as -> by lia. rewrite Z.mod_small by apply Hx.
  by destruct (_ <? _); [|lia].
Qed.

Lemma c_signextend : computes2 sign_extend (λ _, 5) (λ _, 400) evm_signextend.
Proof.
  apply (binary_intro 5 400); [done..|]. intros s k x l Hk Hx Hst _. rewrite capped_32 by done.
  destruct (Z.ltb_spec k 32) as [Hlt|Hge].
  2:{ unfold evm_signextend. destruct (Z.leb_spec 31 k); [|lia]. by rewrite (with_stack_id s). }
  assert (0 ≤ 8 * k + 7 ≤ 255) as Hj by (unfold in_width in Hk; lia).
  rewrite <- signextend_masks by (done || (unfold in_width in Hk; lia)).
  cbn zeta iota beta. set (j := 8 * k + 7) in *.
  assert (1 ≤ 2 ^ j ≤ 2 ^ 255) as Hp.
  { split; [apply (Z.pow_le_mono_r 2 0)|apply Z.pow_le_mono_r]; lia. }
  rewrite u_bit_spec, u_shl_spec, Z.mul_1_l, (Z.mod_small (2 ^ j)) by (done || lia).
  rewrite u_sub_spec, Z.mod_small by (done || unfold in_width; lia).
  destruct (Z.testbit x j); rewrite (write_top_run _ s x l) by done; do 3 f_equal.
  - rewrite u_not_spec by (unfold in_width; lia). rewrite u_or_spec by (done || unfold in_width; lia).
    f_equal. lia.
  - by rewrite u_and_spec by (done || unfold in_width; lia).
Qed.

(** *** The table *)

Lemma binary_table :
  Forall (λ '(op, g, n, f), computes2 (find_instruction op dispatch_table) g n f) binary_ops.
Proof.
  repeat (apply Forall_cons; split); [| | | | | | | | | | | | | | | | | | | | |by apply Forall_nil];
    [exact c_add|exact c_mul|exact c_sub|exact c_div|exact c_sdiv|exact c_mod|exact c_smod
    |exact c_exp|exact c_signextend|exact c_lt|exact c_gt|exact c_slt|exact c_sgt|exact c_eq
    |exact c_and|exact c_or|exact c_xor|exact c_byte|exact c_shl|exact c_shr|exact c_sar].
Qed.

(** The state at the next instruction. *)
Definition advanced (s : St) : St :=
  set_self (set_ip (instruction_pointer (self s) + 1) (self s)) s.

Lemma fetched_advanced s :
  ready (self s) → fetched_state s = advanced s.
Proof.
  intros [Hf Hip]. destruct (f_code _ Hf) as [_ Hl]. unfold fetched_state, advanced.
  rewrite wrap_small; [done|]. unfold in_width. lia.
Qed.

Lemma charged_twice g1 n1 g2 n2 s :
  charged g2 n2 (charged g1 n1 s) = charged (g1 + g2) (n1 + n2) s.
Proof.
  unfold charged at 3. set (r := resources (gas (self s))).
  replace (e_left r - (g1 + g2) * 256) with (e_left r - g1 * 256 - g2 * 256) by lia.
  by replace (n_left r - (n1 + n2)) with (n_left r - n1 - n2) by lia.
Qed.

(** A step whose instruction is known, once the step itself is paid for. *)
Lemma step_run s g n :
  ready (self s) → 0 ≤ g → 0 ≤ n → affords g (20 + n) s →
  step s = find_instruction (opcode_at s) dispatch_table (charged 0 20 (advanced s))
  ∧ gas_wf (gas (self (charged 0 20 (advanced s))))
  ∧ affords g n (charged 0 20 (advanced s)).
Proof.
  intros Hr Hg Hn [Ha1 Ha2]. rewrite step_unfold, fetched_advanced by done.
  destruct (f_gas _ (proj1 Hr)) as [[He1 He2] [Hn1 Hn2]].
  rewrite (bind_val _ _ _ _ _ (charge_op_run 0 20 (advanced s) (f_gas _ (proj1 Hr)) ltac:(lia)
    ltac:(lia) ltac:(split; cbn; lia))).
  split; [done|]. unfold affords, gas_wf, res_wf, in_width, e_left, n_left in *.
  cbn -[Z.pow]. unfold e_left, n_left. lia.
Qed.

(** Unary and ternary instructions. *)
Definition computes1 (m : IM unit) (g n : Z) (f : Z → Z) : Prop :=
  ∀ s a l, gas_wf (gas (self s)) → is_u256 a → stack (self s) = a :: l → affords g n s →
    m s = (Val tt, with_stack (f a :: l) (charged g n s)).
Definition computes3 (m : IM unit) (g n : Z) (f : Z → Z → Z → Z) : Prop :=
  ∀ s a b c l, gas_wf (gas (self s)) → is_u256 a → is_u256 b → is_u256 c →
    stack (self s) = a :: b :: c :: l → affords g n s →
    m s = (Val tt, with_stack (f a b c :: l) (charged g n s)).

Lemma unary_write g n (F f : Z → Z) :
  0 ≤ g → 0 ≤ n → (∀ a, is_u256 a → F a = f a) →
  computes1 (charge_op g n ;; a ← on_stack stk_top; write_top (F a)) g n f.
Proof.
  intros Hg Hn HF s a l Hwf Ha Hst Haff.
  rewrite (bind_val _ _ _ _ _ (charge_op_run g n s Hwf Hg Hn Haff)).
  rewrite (bind_val _ _ _ _ _ (on_stack_run stk_top (charged g n s) (a :: l) (Val a) (a :: l)
             Hst eq_refl)).
  rewrite (write_top_run _ _ a l) by done. by rewrite HF.
Qed.

Lemma ternary_write g n (F f : Z → Z → Z → Z) :
  0 ≤ g → 0 ≤ n → (∀ a b c, is_u256 a → is_u256 b → is_u256 c → F a b c = f a b c) →
  computes3 (charge_op g n ;; '(a, b, c) ← on_stack stk_pop_2_peek; write_top (F a b c)) g n f.
Proof.
  intros Hg Hn HF s a b c l Hwf Ha Hb Hc Hst Haff.
  rewrite (bind_val _ _ _ _ _ (charge_op_run g n s Hwf Hg Hn Haff)).
  rewrite (bind_val _ _ _ _ _ (on_stack_run stk_pop_2_peek (charged g n s) (a :: b :: c :: l)
             (Val (a, b, c)) (c :: l) Hst eq_refl)).
  rewrite (write_top_run _ _ c l) by done. by rewrite HF.
Qed.

Lemma unary_table :
  computes1 (find_instruction OP_ISZERO dispatch_table) 3 300 (λ a, if a =? 0 then 1 else 0)
  ∧ computes1 (find_instruction OP_NOT dispatch_table) 3 60 (λ a, 2 ^ 256 - 1 - a).
Proof.
  split.
  - by apply (unary_write 3 300).
  - apply (unary_write 3 60); [done..|]. intros a Ha. by rewrite u_not_spec.
Qed.

Lemma ternary_table :
  computes3 (find_instruction OP_ADDMOD dispatch_table) 8 2000
    (λ a b m, if m =? 0 then 0 else (a + b) mod m)
  ∧ computes3 (find_instruction OP_MULMOD dispatch_table) 8 4000
      (λ a b m, if m =? 0 then 0 else (a * b) mod m).
Proof.
  split.
  - apply (ternary_write 8 2000); [done..|]. intros. by rewrite u_add_mod_spec.
  - apply (ternary_write 8 4000); [done..|]. intros. by rewrite mul_mod_spec.
Qed.

Lemma advanced_charged g n l s :
  with_stack l (charged g n (charged 0 20 (advanced s)))
  = with_stack l (charged g (20 + n) (advanced s)).
Proof. by rewrite charged_twice. Qed.

Lemma binary_costs b :
  is_u256 b → Forall (λ '(_, g, n, _), 0 ≤ g b ∧ 0 ≤ n b) binary_ops.
Proof.
  intros Hb. pose proof (exp_cost_spec b Hb) as [_ He].
  repeat (apply Forall_cons; split; [lia|]). apply Forall_nil_2.
Qed.

(** C24: binary instructions.  For every opcode of the table, a step on a frame that
    can pay ends normally, takes exactly the gas of the EVM and the native cost of
    step and instruction, replaces the two operands by the value of the EVM's
    function and moves to the next instruction. *)
Theorem evm_binary_instructions op gas native f s a b l :
  (op, gas, native, f) ∈ binary_ops →
  ready (self s) → opcode_at s = op → stack (self s) = a :: b :: l →
  affords (gas b) (20 + native b) s →
  step s = (Val tt, with_stack (f a b :: l) (charged (gas b) (20 + native b) (advanced s))).
Proof.
  intros Hin Hr Hop Hst Haff. pose proof (f_stack _ (proj1 Hr)) as Hu. rewrite Hst in Hu.
  apply Forall_cons in Hu as [Ha Hu]. apply Forall_cons in Hu as [Hb _].
  pose proof (f_size _ (proj1 Hr)) as Hsz. rewrite Hst in Hsz. cbn [length] in Hsz.
  destruct (proj1 (Forall_forall _ _) (binary_costs b Hb) _ Hin) as [Hg Hn].
  destruct (step_run s (gas b) (native b) Hr Hg Hn Haff) as (Hstep & Hwf & Haff').
  rewrite Hstep, Hop. pose proof (proj1 (Forall_forall _ _) binary_table _ Hin) as Hc.
  rewrite (Hc _ a b l Hwf Ha Hb Hst ltac:(lia) Haff'). by rewrite advanced_charged.
Qed.

(** ISZERO, NOT, ADDMOD and MULMOD likewise; the modular ones on the exact,
    unreduced sum and product, and zero for a zero modulus. *)
Theorem evm_unary_ternary_instructions s :
  ready (self s) →
  (∀ a l, opcode_at s = OP_ISZERO → stack (self s) = a :: l → affords 3 320 s →
    step s = (Val tt, with_stack ((if a =? 0 then 1 else 0) :: l) (charged 3 320 (advanced s))))
  ∧ (∀ a l, opcode_at s = OP_NOT → stack (self s) = a :: l → affords 3 80 s →
      step s = (Val tt, with_stack (2 ^ 256 - 1 - a :: l) (charged 3 80 (advanced s))))
  ∧ (∀ a b m l, opcode_at s = OP_ADDMOD → stack (self s) = a :: b :: m :: l → affords 8 2020 s →
      step s = (Val tt, with_stack ((if m =? 0 then 0 else (a + b) mod m) :: l)
                          (charged 8 2020 (advanced s))))
  ∧ (∀ a b m l, opcode_at s = OP_MULMOD → stack (self s) = a :: b :: m :: l → affords 8 4020 s →
      step s = (Val tt, with_stack ((if m =? 0 then 0 else (a * b) mod m) :: l)
                          (charged 8 4020 (advanced s)))).
Proof.
  intros Hr. pose proof (f_stack _ (proj1 Hr)) as Hu. destruct unary_table as [U1 U2].
  destruct ternary_table as [T1 T2].
  split_conj.
  - intros a l Hop Hst Haff. destruct (step_run s 3 300 Hr ltac:(lia) ltac:(lia) Haff) as (-> & Hwf & Ha).
    rewrite Hop, (U1 _ a l); [by rewrite advanced_charged|done| |done|done].
    rewrite Hst in Hu. by apply Forall_cons in Hu as [? _].
  - intros a l Hop Hst Haff. destruct (step_run s 3 60 Hr ltac:(lia) ltac:(lia) Haff) as (-> & Hwf & Ha).
    rewrite Hop, (U2 _ a l); [by rewrite advanced_charged|done| |done|done].
    rewrite Hst in Hu. by apply Forall_cons in Hu as [? _].
  - intros a b m l Hop Hst Haff.
    destruct (step_run s 8 2000 Hr ltac:(lia) ltac:(lia) Haff) as (-> & Hwf & Ha).
    rewrite Hst in Hu. repeat (apply Forall_cons in Hu as [? Hu]).
    rewrite Hop, (T1 _ a b m l); by rewrite ?advanced_charged.
  - intros a b m l Hop Hst Haff.
    destruct (step_run s 8 4000 Hr ltac:(lia) ltac:(lia) Haff) as (-> & Hwf & Ha).
    rewrite Hst in Hu. repeat (apply Forall_cons in Hu as [? Hu]).
    rewrite Hop, (T2 _ a b m l); by rewrite ?advanced_charged.
Qed.
(** ** Memory *)

(** The frame after paying for a memory of [new] bytes. *)
Definition grown (new : Z) (s : St) : St :=
  let i := self s in
  let g := memory_gas (new / 32) - memory_gas (heap_len i / 32) in
  let n := 35 + (new - heap_len i) in
  set_self
    (set_heap (mkHeap (heap_cap (heap i))
                 (heap_data (heap i) ++ repeat 0 (Z.to_nat (new - heap_len i))))
       (set_gas (mkGas (mk_res (e_left (resources (gas i)) - g * 256)
                               (n_left (resources (gas i)) - n))
                   (memory_gas (new / 32))) i)) s.

Lemma pay_growth_run cur new g :
  gas_wf g → gas_paid_for_heap_growth g = memory_gas (cur / 32) → 0 ≤ cur ≤ new → new < 2 ^ 32 →
  let dg := memory_gas (new / 32) - memory_gas (cur / 32) in
  let dn := 35 + (new - cur) in
  0 ≤ dg ∧
  (pay_for_memory_growth cur new g).1
  = (if n_left (resources g) <? dn
     then Err (FatalError (SLeafRuntime (FatalRuntime OutOfNativeResources)))
     else if e_left (resources g) <? dg * 256 then Err (EvmErr OutOfGas) else Val tt)
  ∧ (dn ≤ n_left (resources g) → dg * 256 ≤ e_left (resources g) →
     (pay_for_memory_growth cur new g).2
     = mkGas (mk_res (e_left (resources g) - dg * 256) (n_left (resources g) - dn))
         (memory_gas (new / 32))).
Proof.
  intros Hg Hp Hcur Hnew dg dn. rewrite pay_for_memory_growth_run by done. fold dg dn.
  assert (0 ≤ cur / 32 ≤ new / 32) as Hc.
  { split; [apply Z.div_pos; lia|apply Z.div_le_mono; lia]. }
  assert (0 ≤ dg < 2 ^ 46) as Hd.
  { pose proof (memory_gas_mono _ _ Hc).
    pose proof (memory_gas_range (new / 32) ltac:(split; [lia|apply Z.div_lt_upper_bound; lia])).
    pose proof (memory_gas_range (cur / 32) ltac:(split; [lia|apply Z.div_lt_upper_bound; lia])).
    unfold dg. lia. }
  split; [lia|]. unfold mbind, M_bind.
  rewrite spend_gas_and_native_run by (done || (unfold dn, in_width; lia)).
  destruct (Z.leb_spec (2 ^ 64) (dg * 256)); [lia|].
  destruct (Z.ltb_spec (n_left (resources g)) dn) as [|Hn]; [split; [done|lia]|].
  destruct (Z.ltb_spec (e_left (resources g)) (dg * 256)) as [|He]; [split; [done|lia]|].
  cbn. rewrite !Z.max_r by lia. done.
Qed.

Lemma resize_heap_cases s offset len :
  frame_ok (self s) → in_width usize_bits offset → in_width usize_bits len →
  let old := heap_len (self s) in
  let new := next_multiple_of (offset + len) 32 in
  let dg := memory_gas (new / 32) - memory_gas (old / 32) in
  let dn := 35 + (new - old) in
  let r := resources (gas (self s)) in
  (resize_heap offset len s).1
  = (if 2 ^ 32 - 32 <? offset + len then Err (EvmErr MemoryLimitOOG)
     else if new <=? old then Val tt
     else if n_left r <? dn
          then Err (FatalError (SLeafRuntime (FatalRuntime OutOfNativeResources)))
     else if e_left r <? dg * 256 then Err (EvmErr OutOfGas)
     else if Z.of_nat (heap_cap (heap (self s))) <=? new then Err (EvmErr OutOfGas)
     else Val tt)
  ∧ ((resize_heap offset len s).1 = Val tt →
     (resize_heap offset len s).2 = if new <=? old then s else grown new s).
Proof.
  intros Hf [Ho _] [Hl _] old new dg dn r. unfold resize_heap.
  pose proof (resize_size offset len Ho Hl) as Hsat. unfold umax in Hsat |- *.
  assert (2 ^ 32 - 1 - 31 <? saturating_add usize_bits offset len = (2 ^ 32 - 32 <? offset + len)) as ->.
  { unfold saturating_add, umax in *.
    assert (2 ^ 32 ≤ 2 ^ usize_bits) by (apply Z.pow_le_mono_r; [|apply usize_bits_pos]; lia).
    destruct (Z.ltb_spec (2 ^ 32 - 1 - 31) (Z.min (2 ^ usize_bits - 1) (offset + len))),
      (Z.ltb_spec (2 ^ 32 - 32) (offset + len)); done || lia. }
  destruct (Z.ltb_spec (2 ^ 32 - 32) (offset + len)) as [|Hsmall]; [done|].
  assert (saturating_add usize_bits offset len = offset + len) as ->.
  { apply Hsat. unfold saturating_add. lia. }
  fold new. erewrite bind_val by done. fold old.
  destruct (next_multiple_of_spec (offset + len) 32 ltac:(lia)) as [Hn Hmod]. fold new in Hn, Hmod.
  assert (new < 2 ^ 32) as Hlim.
  { pose proof (Z.div_mod new 32 ltac:(lia)). lia. }
  destruct (Z.leb_spec new old), (Z.ltb_spec old new); try lia; [done|].
  destruct (pay_growth_run old new (gas (self s))) as (Hdg & Hpay & Hstate);
    [apply Hf|apply Hf|unfold old, heap_len in *; lia|done|]. fold dg dn r in Hdg, Hpay, Hstate.
  unfold on_gas, zoom, mbind, M_bind.
  destruct (pay_for_memory_growth old new (gas (self s))) as [o g']. cbn [fst snd] in Hpay, Hstate.
  subst o. destruct (Z.ltb_spec (n_left r) dn) as [|Hn']; [done|].
  destruct (Z.ltb_spec (e_left r) (dg * 256)) as [|He']; [done|].
  rewrite Hstate by done. unfold map_err, heap_resize. cbn.
  assert (Z.of_nat (heap_cap (heap (self s))) <=? new
    = bool_decide (heap_cap (heap (self s)) ≤ Z.to_nat new)%nat) as ->.
  { destruct (bool_decide_reflect (heap_cap (heap (self s)) ≤ Z.to_nat new)%nat); lia. }
  destruct (decide _) as [|Hroom].
  { by rewrite bool_decide_true. }
  rewrite bool_decide_false by done. split; [done|]. intros _. cbn.
  unfold grown. cbn. fold old dg dn r. unfold old, heap_len in *.
  rewrite take_ge by lia.
  by replace (Z.to_nat new - length (heap_data (heap (self s))))%nat
    with (Z.to_nat (new - Z.of_nat (length (heap_data (heap (self s)))))) by lia.
Qed.

Lemma cast_run x e s :
  is_u256 x →
  cast_to_usize x e s = (if x <? 2 ^ usize_bits then Val x else Err e, s).
Proof.
  intros Hx. pose proof (proj1 Hx) as H0. unfold cast_to_usize, lift_opt. rewrite u256_try_to_usize_spec by done.
  unfold checked. destruct (Z.leb_spec 0 x), (Z.ltb_spec x (2 ^ usize_bits)); done || lia.
Qed.

(** What a successful expansion leaves: the old bytes, then zeros, up to at least
    the end of the access. *)
Lemma resize_heap_done s offset len s' :
  frame_ok (self s) → in_width usize_bits offset → in_width usize_bits len →
  resize_heap offset len s = (Val tt, s') →
  offset + len ≤ heap_len (self s') < 2 ^ 32 ∧ heap_len (self s') mod 32 = 0
  ∧ stack (self s') = stack (self s).
Proof.
  intros Hf Ho Hl Hrun. destruct (resize_heap_cases s offset len Hf Ho Hl) as [H1 H2].
  rewrite Hrun in H1, H2. cbn [fst snd] in H1, H2. specialize (H2 eq_refl).
  destruct (Z.ltb_spec (2 ^ 32 - 32) (offset + len)) as [|Hsmall]; [done|].
  destruct (next_multiple_of_spec (offset + len) 32 ltac:(lia)) as [Hn Hmod].
  set (new := next_multiple_of (offset + len) 32) in *.
  assert (new < 2 ^ 32) as Hlim.
  { pose proof (Z.div_mod new 32 ltac:(lia)). lia. }
  pose proof (mem_limit _ (f_heap _ Hf)). pose proof (mem_words _ (f_heap _ Hf)).
  destruct (Z.leb_spec new (heap_len (self s))); subst s'.
  - unfold heap_len in *. split_conj; done || lia.
  - assert (heap_len (self (grown new s)) = new) as ->.
    { change (heap_len (self (grown new s))) with (Z.of_nat (length (heap_data (heap (self s))
        ++ repeat 0 (Z.to_nat (new - heap_len (self s)))))).
      rewrite length_app, repeat_length. unfold heap_len in *. lia. }
    split_conj; done || lia.
Qed.

(** No expansion is needed for what is already there. *)
Lemma resize_heap_free s offset len :
  frame_ok (self s) → in_width usize_bits offset → in_width usize_bits len →
  offset + len ≤ heap_len (self s) → resize_heap offset len s = (Val tt, s).
Proof.
  intros Hf Ho Hl Hfits. destruct (resize_heap_cases s offset len Hf Ho Hl) as [H1 H2].
  destruct (next_multiple_of_spec (offset + len) 32 ltac:(lia)) as [Hn Hmod].
  pose proof (mem_limit _ (f_heap _ Hf)) as Hlim. pose proof (mem_words _ (f_heap _ Hf)) as Hw.
  fold (heap_len (self s)) in Hlim, Hw.
  set (new := next_multiple_of (offset + len) 32) in *. set (old := heap_len (self s)) in *.
  pose proof (Z.div_mod new 32 ltac:(lia)). pose proof (Z.div_mod old 32 ltac:(lia)).
  destruct (Z.ltb_spec (2 ^ 32 - 32) (offset + len)); [lia|].
  destruct (Z.leb_spec new old); [|lia].
  destruct (resize_heap offset len s). cbn in *. subst. f_equal. auto.
Qed.

Lemma word_bytes_be v : is_u256 v → le_bytes 32 (bytereverse_u256 v) = be_bytes 32 v.
Proof.
  intros Hv. rewrite bytereverse_u256_spec. unfold of_be_bytes, be_bytes.
  pose proof (le_bytes_of_le_bytes (reverse (le_bytes 32 v))) as H.
  rewrite length_reverse, length_le_bytes in H. rewrite H; [done|].
  apply Forall_reverse, le_bytes_u8.
Qed.

Lemma be_word_bytes l :
  length l = 32%nat → Forall is_u8 l → bytereverse_u256 (of_le_bytes l) = of_be_bytes l.
Proof.
  intros Hl Hu. rewrite bytereverse_u256_spec, <- Hl, le_bytes_of_le_bytes by done. done.
Qed.

Lemma charge_op_done g n s s' :
  frame_ok (self s) → 0 ≤ g → is_u64 n → charge_op g n s = (Val tt, s') →
  frame_ok (self s') ∧ stack (self s') = stack (self s).
Proof.
  intros Hf Hg Hn. unfold charge_op, on_gas, zoom.
  destruct (takes_spend g n Hg Hn (gas (self s)) (f_gas _ Hf)) as (H1 & _ & H3 & _).
  destruct (spend_gas_and_native g n (gas (self s))) as [o g']. intros [= -> <-].
  split; [by apply frame_set_gas|done].
Qed.

Lemma frame_drop s k l :
  frame_ok (self s) → drop k (stack (self s)) = l → frame_ok (self (with_stack l s)).
Proof.
  intros Hf <-. destruct Hf. split; try done; cbn.
  - by apply Forall_drop.
  - rewrite length_drop. lia.
Qed.

(** MSTORE that succeeds has put the word's bytes, most significant first, at the
    offset. *)
Lemma mstore_done s s1 off v l :
  frame_ok (self s) → stack (self s) = off :: v :: l → mstore s = (Val tt, s1) →
  in_width usize_bits off ∧ off + 32 ≤ heap_len (self s1)
  ∧ slice (heap_data (heap (self s1))) off 32 = Some (be_bytes 32 v).
Proof.
  intros Hf Hst H. pose proof (f_stack _ Hf) as Hu. rewrite Hst in Hu.
  apply Forall_cons in Hu as [Hoff Hu]. apply Forall_cons in Hu as [Hv _].
  apply bind_val_inv in H as ([] & s2 & Hc & H).
  apply charge_op_done in Hc as [Hf2 Hst2]; [|done..]. rewrite Hst in Hst2.
  rewrite (bind_val _ _ _ _ _ (on_stack_run stk_pop_2 s2 (off :: v :: l) (Val (off, v)) l Hst2
    eq_refl)) in H. cbn beta iota in H.
  pose proof (frame_drop s2 2 l Hf2 ltac:(by rewrite Hst2)) as Hf3.
  apply bind_val_inv in H as (off' & s3 & Hcast & H). rewrite cast_run in Hcast by done.
  destruct (Z.ltb_spec off (2 ^ usize_bits)) as [Hlt|]; [|done]. injection Hcast as <- <-.
  assert (in_width usize_bits off) as Hw by (split; [apply Hoff|done]).
  apply bind_val_inv in H as ([] & s4 & Hr & H).
  apply resize_heap_done in Hr as (Hcov & _ & _); [|done|done|by apply usize_small].
  cbn zeta in H. rewrite word_bytes_be in H by done. apply bind_val_inv in H as (data & s5 & [= <- <-] & H).
  apply bind_val_inv in H as (x & s5 & Hsl & [= <-]).
  assert (s5 = s4) as -> by (by destruct (slice _ _ _); [injection Hsl|]).
  pose proof (slice_splice (heap_data (heap (self s4))) off (be_bytes 32 v)) as Hss.
  pose proof (length_splice (heap_data (heap (self s4))) off (be_bytes 32 v)) as Hlen.
  rewrite length_be_bytes in Hss, Hlen. change (Z.of_nat 32) with 32 in Hss, Hlen.
  unfold heap_len, in_width in *. cbn [self set_self heap set_heap heap_data]. split; [done|].
  rewrite Hlen, Hss by lia. split; [lia|done].
Qed.

(** MLOAD of bytes that are there. *)
Lemma mload_run s off l bytes :
  frame_ok (self s) → stack (self s) = off :: l → in_width usize_bits off →
  off + 32 ≤ heap_len (self s) → slice (heap_data (heap (self s))) off 32 = Some bytes →
  affords 3 250 s →
  mload s = (Val tt, with_stack (of_be_bytes bytes :: l) (charged 3 250 s)).
Proof.
  intros Hf Hst Hoff Hcov Hsl Haff. unfold mload.
  rewrite (bind_val _ _ _ _ _ (charge_op_run 3 250 s (f_gas _ Hf) ltac:(lia) ltac:(lia) Haff)).
  set (s1 := charged 3 250 s).
  rewrite (bind_val _ _ _ _ _ (on_stack_run stk_top s1 (off :: l) (Val off) (off :: l) Hst eq_refl)).
  rewrite (with_stack_id s1) by done.
  rewrite (bind_val _ _ s1 off s1).
  2:{ rewrite cast_run by (by apply usize_word). unfold in_width in Hoff.
      by destruct (Z.ltb_spec off (2 ^ usize_bits)); [|lia]. }
  assert (frame_ok (self s1)) as Hf1.
  { apply frame_set_gas; [done| |done]. destruct Haff as [Ha1 Ha2], (f_gas _ Hf) as [[] []].
    unfold gas_wf, res_wf, in_width, e_left, n_left in *. cbn -[Z.pow]. unfold e_left, n_left. lia. }
  rewrite (bind_val _ _ _ _ _ (resize_heap_free s1 off 32 Hf1 Hoff (usize_small 32 ltac:(lia)) Hcov)).
  rewrite (bind_val _ _ s1 bytes s1).
  2:{ unfold heap_slice. erewrite bind_val by done. cbn -[slice]. by rewrite Hsl. }
  apply slice_Some in Hsl as (_ & _ & _ & ->).
  rewrite be_word_bytes.
  - by apply (write_top_run _ s1 off l).
  - rewrite length_take, length_drop. unfold heap_len in Hcov. unfold in_width in Hoff. lia.
  - apply Forall_take, Forall_drop, (mem_bytes _ (f_heap _ Hf)).
Qed.
(** ** Push data *)

(** [n] bytes of code from [start] on, as the EVM reads them: zeros past the end. *)
Definition code_word (n : nat) (code : list Z) (start : Z) : Z :=
  let bytes := take n (drop (Z.to_nat start) code) in
  of_be_bytes (bytes ++ repeat 0 (n - length bytes)).

Lemma of_be_bytes_zeros l k :
  of_be_bytes (l ++ repeat 0 k) = of_be_bytes l * 2 ^ (8 * Z.of_nat k).
Proof.
  rewrite of_be_bytes_app, repeat_length. replace (of_be_bytes (repeat 0 k)) with 0; [lia|].
  unfold of_be_bytes. induction k as [|k IH]; [done|].
  cbn [repeat]. rewrite reverse_cons, of_le_bytes_app, <- IH. cbn. lia.
Qed.

Lemma of_le_bytes_zeros k : of_le_bytes (repeat 0 k) = 0.
Proof. induction k as [|k IH]; [done|]. cbn [repeat of_le_bytes]. lia. Qed.

Lemma le_bytes_of_short l n :
  Forall is_u8 l → (length l ≤ n)%nat →
  le_bytes n (of_le_bytes l) = l ++ repeat 0 (n - length l).
Proof.
  intros Hu Hn. pose proof (le_bytes_of_le_bytes (l ++ repeat 0 (n - length l))) as H.
  rewrite length_app, repeat_length in H. replace (length l + (n - length l))%nat with n in H by lia.
  rewrite <- H.
  - f_equal. rewrite of_le_bytes_app, of_le_bytes_zeros. lia.
  - apply Forall_app. split; [done|]. apply Forall_forall. intros x Hx.
    apply list_elem_of_In, repeat_spec in Hx. by subst.
Qed.

Lemma push_value_spec (n : nat) code start :
  (1 ≤ n ≤ 32)%nat → 0 ≤ start → Forall is_u8 code →
  push_value (Z.of_nat n) code start = code_word n code start.
Proof.
  intros Hn Hs Hu. unfold push_value, code_word.
  destruct (code !! Z.to_nat start) as [x|] eqn:E.
  2:{ apply lookup_ge_None_1 in E. rewrite drop_ge by done. cbn -[repeat].
      by rewrite take_nil, (of_be_bytes_zeros []). }
  apply lookup_lt_Some in E.
  replace (Z.to_nat (Z.min (Z.of_nat n) (Z.of_nat (length code) - start)))
    with (Nat.min n (length code - Z.to_nat start)) by lia.
  replace (take (Nat.min n (length code - Z.to_nat start)) (drop (Z.to_nat start) code))
    with (take n (drop (Z.to_nat start) code)).
  2:{ rewrite <- (take_take _ n), (take_ge _ (length code - Z.to_nat start)); [done|].
      by rewrite length_drop. }
  set (l := take n (drop (Z.to_nat start) code)).
  assert (Forall is_u8 l) as Hl by (by apply Forall_take, Forall_drop).
  assert (length l ≤ n)%nat as Hlen by (unfold l; rewrite length_take; lia).
  rewrite bytereverse_u256_spec, le_bytes_of_short by (done || lia).
  rewrite u_shr_spec.
  - rewrite !of_be_bytes_zeros.
    replace (Z.of_nat (32 - length l)) with (Z.of_nat (n - length l) + (32 - Z.of_nat n)) by lia.
    rewrite Z.mul_add_distr_l, Z.pow_add_r, Z.mul_assoc, (Z.mul_comm _ 8), Z.div_mul by lia.
    done.
  - rewrite <- le_bytes_of_short, <- bytereverse_u256_spec by (done || lia). apply bytereverse_word.
  - lia.
Qed.

Definition at_ip (x : Z) (s : St) : St := set_self (set_ip x (self s)) s.

Lemma find_push (n : nat) :
  (1 ≤ n ≤ 32)%nat → find_instruction (OP_PUSH0 + Z.of_nat n) dispatch_table = push n.
Proof. intros Hn. do 33 (destruct n as [|n]; [first [lia|reflexivity]|]). lia. Qed.

Lemma push_run (n : nat) s cost :
  (1 ≤ n ≤ 32)%nat → gas_wf (gas (self s)) → bytes_ok (bytecode (self s)) →
  0 ≤ instruction_pointer (self s) ≤ Z.of_nat (length (bytecode (self s))) →
  PUSH_NATIVE_COSTS !! n = Some cost → affords 3 cost s → (length (stack (self s)) < STACK_SIZE)%nat →
  push n s = (Val tt,
    with_stack (code_word n (bytecode (self s)) (instruction_pointer (self s)) :: stack (self s))
      (at_ip (instruction_pointer (self s) + Z.of_nat n) (charged 3 cost s))).
Proof.
  intros Hn Hwf [Hu Hlen] Hip Hc Haff Hst. unfold push.
  rewrite (bind_val _ _ s cost s) by (by rewrite Hc).
  destruct (push_costs n) as (c & Hc' & [Hc0 _]); [lia|]. rewrite Hc in Hc'. injection Hc' as <-.
  rewrite (bind_val _ _ _ _ _ (charge_op_run 3 cost s Hwf ltac:(lia) Hc0 Haff)).
  do 2 (erewrite bind_val by done). cbn zeta.
  erewrite bind_val by done. rewrite push_value_spec; [|done|apply Hip|done].
  change (instruction_pointer (self (charged 3 cost s))) with (instruction_pointer (self s)).
  rewrite wrap_small by (unfold in_width; lia).
  apply (on_stack_run (stk_push _) (at_ip (instruction_pointer (self s) + Z.of_nat n) (charged 3 cost s))
           (stack (self s))); [done|].
  unfold stk_push. by rewrite decide_False by lia.
Qed.

Lemma opcode_inside s :
  ready (self s) → opcode_at s ≠ OP_STOP →
  instruction_pointer (self s) < Z.of_nat (length (bytecode (self s))).
Proof. intros _ Hop. apply Z.nle_gt. intros H. by apply Hop, stop_at_end. Qed.

(** PUSH1 to PUSH32 push the following bytes of the code as a big-endian
    number, with zeros for bytes beyond its end, and skip them. *)
Theorem evm_push (n : nat) s cost :
  (1 ≤ n ≤ 32)%nat → ready (self s) → opcode_at s = OP_PUSH0 + Z.of_nat n →
  PUSH_NATIVE_COSTS !! n = Some cost → affords 3 (20 + cost) s →
  (length (stack (self s)) < STACK_SIZE)%nat →
  step s = (Val tt,
    with_stack (code_word n (bytecode (self s)) (instruction_pointer (self s) + 1) :: stack (self s))
      (at_ip (instruction_pointer (self s) + 1 + Z.of_nat n) (charged 3 (20 + cost) s))).
Proof.
  intros Hn Hr Hop Hc Haff Hst. destruct (push_costs n) as (c & Hc' & [Hc0 _]); [lia|].
  rewrite Hc in Hc'. injection Hc' as <-.
  destruct (step_run s 3 cost Hr ltac:(lia) Hc0 Haff) as (-> & Hwf & Haff').
  pose proof (opcode_inside s Hr ltac:(rewrite Hop; unfold OP_PUSH0, OP_STOP; lia)) as Hin.
  rewrite Hop, find_push by done.
  rewrite (push_run n (charged 0 20 (advanced s)) cost); [|done|done|apply Hr| |done|done|done].
  - by rewrite charged_twice.
  - destruct Hr as [_ Hip]. cbn. lia.
Qed.

(** ** Jumps *)

(** The jump table in use is the one of the code, computed on the spot or cached. *)
Definition table_of (pp : BytecodePreprocessingData) (code : list Z) : Prop :=
  ∀ off, 0 ≤ off → ∃ b, is_valid_jumpdest off pp = Some b ∧ (b = true ↔ valid_jumpdest code off).

Lemma jump_to_run s dest :
  table_of (bytecode_preprocessing (self s)) (bytecode (self s)) → 0 ≤ dest →
  (valid_jumpdest (bytecode (self s)) dest → jump_to dest s = (Val tt, at_ip dest s))
  ∧ (¬ valid_jumpdest (bytecode (self s)) dest → jump_to dest s = (Err (EvmErr InvalidJump), s)).
Proof.
  intros Ht Hd. destruct (Ht dest Hd) as (b & Hb & Hv). unfold jump_to. erewrite bind_val by done.
  rewrite (bind_val _ _ s b s) by (by rewrite Hb). destruct b; naive_solver.
Qed.

Lemma valid_in_code code dest : valid_jumpdest code dest → 0 ≤ dest < Z.of_nat (length code).
Proof.
  intros [Hs Hv]. apply lookup_lt_Some in Hv. apply starts_reach, reach_ge in Hs. lia.
Qed.

(** Casting the destination and jumping. *)
Lemma cast_jump_run s dest :
  table_of (bytecode_preprocessing (self s)) (bytecode (self s)) → bytes_ok (bytecode (self s)) →
  is_u256 dest →
  let m := d ← cast_to_usize dest (EvmErr InvalidJump); jump_to d in
  (valid_jumpdest (bytecode (self s)) dest → m s = (Val tt, at_ip dest s))
  ∧ (¬ valid_jumpdest (bytecode (self s)) dest → m s = (Err (EvmErr InvalidJump), s)).
Proof.
  intros Ht [_ Hlen] Hd m. subst m. cbn beta. pose proof (cast_run dest (EvmErr InvalidJump) s Hd) as Hc.
  destruct (jump_to_run s dest Ht (proj1 Hd)) as [J1 J2].
  destruct (Z.ltb_spec dest (2 ^ usize_bits)).
  - rewrite (bind_val _ _ _ _ _ Hc). done.
  - split.
    + intros Hv%valid_in_code. lia.
    + intros _. by rewrite (bind_err _ _ _ _ _ Hc).
Qed.

(** C29: jumps.  In a frame with the jump table of its code, JUMP, and JUMPI on a
    non-zero condition, continue at the destination if it is a valid one, that is
    a JUMPDEST at which an instruction starts, and fail with [InvalidJump]
    otherwise; JUMPI on zero falls through. *)
Theorem evm_jumps s :
  ready (self s) → table_of (bytecode_preprocessing (self s)) (bytecode (self s)) →
  (∀ dest l, opcode_at s = OP_JUMP → stack (self s) = dest :: l →
    affords 8 (20 + JUMP_NATIVE_COST) s →
    let s' := with_stack l (charged 8 (20 + JUMP_NATIVE_COST) (advanced s)) in
    (valid_jumpdest (bytecode (self s)) dest → step s = (Val tt, at_ip dest s'))
    ∧ (¬ valid_jumpdest (bytecode (self s)) dest → step s = (Err (EvmErr InvalidJump), s')))
  ∧ (∀ dest value l, opcode_at s = OP_JUMPI → stack (self s) = dest :: value :: l →
    affords 10 (20 + JUMPI_NATIVE_COST) s →
    let s' := with_stack l (charged 10 (20 + JUMPI_NATIVE_COST) (advanced s)) in
    (value = 0 → step s = (Val tt, s'))
    ∧ (value ≠ 0 → valid_jumpdest (bytecode (self s)) dest → step s = (Val tt, at_ip dest s'))
    ∧ (value ≠ 0 → ¬ valid_jumpdest (bytecode (self s)) dest →
        step s = (Err (EvmErr InvalidJump), s'))).
Proof.
  intros Hr Ht. pose proof (f_stack _ (proj1 Hr)) as Hu. split.
  - intros dest l Hop Hst Haff s'. rewrite Hst in Hu. apply Forall_cons in Hu as [Hd _].
    destruct (step_run s 8 JUMP_NATIVE_COST Hr ltac:(lia) ltac:(done) Haff) as (-> & Hwf & Haff').
    rewrite Hop. change (find_instruction OP_JUMP dispatch_table) with jump. unfold jump.
    rewrite (bind_val _ _ _ _ _ (charge_op_run 8 JUMP_NATIVE_COST _ Hwf ltac:(done) ltac:(done) Haff')).
    rewrite charged_twice.
    rewrite (bind_val _ _ _ _ _ (on_stack_run stk_pop_1 (charged (0 + 8) (20 + JUMP_NATIVE_COST) (advanced s)) (dest :: l) (Val dest) l Hst eq_refl)).
    by apply (cast_jump_run s' dest); [|apply Hr|].
  - intros dest value l Hop Hst Haff s'. rewrite Hst in Hu. apply Forall_cons in Hu as [Hd _].
    destruct (step_run s 10 JUMPI_NATIVE_COST Hr ltac:(lia) ltac:(done) Haff) as (-> & Hwf & Haff').
    rewrite Hop. change (find_instruction OP_JUMPI dispatch_table) with jumpi. unfold jumpi.
    rewrite (bind_val _ _ _ _ _ (charge_op_run 10 JUMPI_NATIVE_COST _ Hwf ltac:(done) ltac:(done) Haff')).
    rewrite charged_twice.
    rewrite (bind_val _ _ _ _ _ (on_stack_run stk_pop_2
      (charged (0 + 10) (20 + JUMPI_NATIVE_COST) (advanced s)) (dest :: value :: l) (Val (dest, value)) l
      Hst eq_refl)). cbn beta iota.
    destruct (cast_jump_run s' dest) as [J1 J2]; [done|apply Hr|done|].
    destruct (Z.eqb_spec value 0); cbn [negb]; split_conj; try done; auto.
Qed.

(** C28: memory expansion, on every branch.  Growing is refused beyond 4 GiB and
    free within the current size; otherwise it costs exactly the difference of
    the EVM's quadratic totals in gas, and a base plus one per byte in native;
    native running out ends the transaction, gas or the frame's memory running
    out only the frame; on success the old bytes stay and the new ones are
    zero. *)
Theorem evm_memory_expansion s offset len :
  frame_ok (self s) → in_width usize_bits offset → in_width usize_bits len →
  let old := heap_len (self s) in
  let new := next_multiple_of (offset + len) 32 in
  let dg := memory_gas (new / 32) - memory_gas (old / 32) in
  let dn := 35 + (new - old) in
  let r := resources (gas (self s)) in
  (resize_heap offset len s).1
  = (if 2 ^ 32 - 32 <? offset + len then Err (EvmErr MemoryLimitOOG)
     else if new <=? old then Val tt
     else if n_left r <? dn
          then Err (FatalError (SLeafRuntime (FatalRuntime OutOfNativeResources)))
     else if e_left r <? dg * 256 then Err (EvmErr OutOfGas)
     else if Z.of_nat (heap_cap (heap (self s))) <=? new then Err (EvmErr OutOfGas)
     else Val tt)
  ∧ ((resize_heap offset len s).1 = Val tt →
     (resize_heap offset len s).2 = if new <=? old then s else grown new s).
Proof. apply resize_heap_cases. Qed.

(** Memory round trip.  Once MSTORE has stored a word, MLOAD at the same
    offset, in any later state with that memory, pays for no expansion and gives
    the word back. *)
Theorem evm_mstore_mload s s1 off v l s2 l2 :
  frame_ok (self s) → stack (self s) = off :: v :: l → mstore s = (Val tt, s1) →
  frame_ok (self s2) → heap (self s2) = heap (self s1) → stack (self s2) = off :: l2 →
  affords 3 250 s2 →
  mload s2 = (Val tt, with_stack (v :: l2) (charged 3 250 s2)).
Proof.
  intros Hf Hst Hrun Hf2 Hh Hst2 Haff.
  destruct (mstore_done s s1 off v l Hf Hst Hrun) as (Hw & Hcov & Hsl).
  rewrite (mload_run s2 off l2 (be_bytes 32 v)); [|done..| | |done].
  - rewrite of_be_bytes_be_bytes, Z.mod_small; [done|].
    pose proof (f_stack _ Hf) as Hu. rewrite Hst in Hu.
    apply Forall_cons in Hu as [_ Hu]. by apply Forall_cons in Hu as [Hv _].
  - unfold heap_len in *. by rewrite Hh.
  - by rewrite Hh.
Qed.

Lemma find_missing opcode table :
  opcode ∉ table.*1 → find_instruction opcode table = throw (EvmErr (InvalidOpcode opcode)).
Proof.
  induction table as [|[op m] table IH]; cbn; [done|]. intros [Hne Hni]%not_elem_of_cons.
  destruct (Z.eqb_spec op opcode); [done|]. auto.
Qed.

Lemma opcode_table_check :
  forallb (λ o, Bool.eqb (bool_decide (is_Some (try_from_u8 o)))
                  (bool_decide (o ∈ dispatch_table.*1))) (Z.of_nat <$> seq 0 256) = true.
Proof. vm_compute. reflexivity. Qed.

(** The dispatcher and the table of opcode names agree: an opcode has a name
    exactly if the loop has an arm for it, and every other byte ends the frame
    with [InvalidOpcode]. *)
Theorem evm_opcode_table opcode :
  0 ≤ opcode < 256 →
  (is_Some (try_from_u8 opcode) ↔ opcode ∈ dispatch_table.*1)
  ∧ (try_from_u8 opcode = None →
     find_instruction opcode dispatch_table = throw (EvmErr (InvalidOpcode opcode))).
Proof.
  intros Hop.
  assert (is_Some (try_from_u8 opcode) ↔ opcode ∈ dispatch_table.*1) as Hiff.
  { pose proof opcode_table_check as H. rewrite forallb_forall in H. specialize (H opcode).
    apply Bool.eqb_prop in H.
    - by rewrite <- (bool_decide_eq_true (is_Some _)), H, bool_decide_eq_true.
    - apply list_elem_of_In, list_elem_of_fmap. exists (Z.to_nat opcode).
      split; [lia|]. apply elem_of_seq. lia. }
  split; [done|]. intros Hnone. apply find_missing. rewrite <- Hiff, Hnone. by intros [].
Qed.

End Semantics.
