(* ===== verification/EvmCalls.v ===== *)
(** * What a call gets, and whether it may start

    The two functions of [ee_trait_impl.rs] the operating system consults between
    a frame's request and the start of the callee: the resources that are passed
    on, computed exactly, and the checks before the frame is executed. *)

From stdpp Require Import strings.
From S2P Require Import Prelude Resources U256 SystemInterface EvmStack SliceVec EvmConstants Gas.
From S2P Require Import Bytecode EvmState EvmInstructions EvmRun EvmFrame EvmLogic EvmSafety.
From S2P Require Import EvmExec.

(** ** The price of a call, in ergs *)

Definition sends_value (req : ExternalCallRequest) : bool :=
  negb (bool_decide (modifier req = Constructor)) && negb (is_delegate req)
  && negb (nominal_token_value req =? 0).

(** 9000 gas for a value, 25000 more if it brings an account into existence. *)
Definition call_surcharge (req : ExternalCallRequest) (p : CalleeAccountProperties) : Z :=
  (if sends_value req then 9000 * 256 else 0)
  + (if sends_value req && negb (is_callcode req) && callee_is_empty p then 25000 * 256 else 0).

Definition call_stipend (req : ExternalCallRequest) : Z :=
  if sends_value req then 2300 * 256 else 0.

(** All but one 64th of the gas. *)
Definition max_passable (e : Z) : Z := e - (e / 256 / 64) * 256.

Lemma max_passable_range e : 0 ≤ e → 0 ≤ max_passable e ≤ e.
Proof.
  intros He. unfold max_passable.
  pose proof (Z.div_pos e 256). pose proof (Z.div_pos (e / 256) 64).
  pose proof (Z.mul_div_le e 256 ltac:(lia)). pose proof (Z.mul_div_le (e / 256) 64 ltac:(lia)). lia.
Qed.

Section Calls.
Abbreviation RM := (M Res EvmSubsystemError).

Lemma charge_ergs_run e r :
  res_wf r → is_u64 e →
  charge_ergs (mkErgs e) r
  = (if e_left r <? e then Err (SLeafRuntime OutOfErgs) else Val tt,
     mk_res (Z.max 0 (e_left r - e)) (n_left r)).
Proof.
  intros Hr He. pose proof Hr as [He' Hn]. unfold charge_ergs, map_err.
  rewrite charge_run; [|done|by split].
  change (n_left (from_ergs (mkErgs e))) with 0. change (e_left (from_ergs (mkErgs e))) with e.
  destruct Hn as [Hn1 Hn2]. destruct (Z.ltb_spec (n_left r) 0); [lia|].
  rewrite Z.sub_0_r, (Z.max_r 0 (n_left r)) by lia. by destruct (e_left r <? e).
Qed.

Definition no_ergs {A} : outcome EvmSubsystemError A := Err (SLeafRuntime OutOfErgs).

Lemma charge_for_value_run req p r :
  res_wf r →
  (charge_for_value req p r).1
  = (if e_left r <? call_surcharge req p then no_ergs
     else Val (if sends_value req then Some (mkErgs (2300 * 256)) else None))
  ∧ (call_surcharge req p ≤ e_left r →
     (charge_for_value req p r).2 = mk_res (e_left r - call_surcharge req p) (n_left r)).
Proof.
  intros Hr. pose proof Hr as [[He1 He2] [Hn1 Hn2]]. pose proof (res_eta r) as Heta.
  unfold charge_for_value, call_surcharge, sends_value.
  destruct (bool_decide (modifier req = Constructor)) eqn:Ec; cbn [negb andb].
  { destruct (Z.ltb_spec (e_left r) (0 + 0)); [lia|]. split; [done|].
    intros _. by rewrite Z.add_0_r, Z.sub_0_r. }
  destruct (is_delegate req) eqn:Ed; cbn [negb andb orb].
  { rewrite orb_true_r. destruct (Z.ltb_spec (e_left r) (0 + 0)); [lia|]. split; [done|].
    intros _. by rewrite Z.add_0_r, Z.sub_0_r. }
  rewrite orb_false_r. destruct (nominal_token_value req =? 0) eqn:Ev; cbn [negb andb].
  { rewrite andb_false_r. destruct (Z.ltb_spec (e_left r) (0 + 0)); [lia|]. split; [done|].
    intros _. by rewrite Z.add_0_r, Z.sub_0_r. }
  rewrite andb_true_r. change (GAS_CALLVALUE * ERGS_PER_GAS) with (9000 * 256).
  change (GAS_NEWACCOUNT * ERGS_PER_GAS) with (25000 * 256).
  unfold mbind, M_bind. rewrite charge_ergs_run by done.
  set (new := negb (is_callcode req) && callee_is_empty p).
  assert (0 ≤ (if new then 25000 * 256 else 0)) by (destruct new; lia).
  destruct (Z.ltb_spec (e_left r) (9000 * 256)) as [Hlt|Hge].
  { destruct (Z.ltb_spec (e_left r) (9000 * 256 + (if new then 25000 * 256 else 0))); [split; [done|lia]|lia]. }
  rewrite Z.max_r by lia. cbn [mret M_ret]. unfold mret, M_ret. destruct new.
  - rewrite charge_ergs_run by (done || (unfold res_wf, in_width, e_left, n_left in *; cbn -[Z.pow]; lia)).
    change (e_left (mk_res (e_left r - 9000 * 256) (n_left r))) with (e_left r - 9000 * 256).
    change (n_left (mk_res (e_left r - 9000 * 256) (n_left r))) with (n_left r).
    destruct (Z.ltb_spec (e_left r - 9000 * 256) (25000 * 256)),
      (Z.ltb_spec (e_left r) (9000 * 256 + 25000 * 256)); try lia; split; try done; try lia.
    intros _. cbn [snd]. f_equal; lia.
  - destruct (Z.ltb_spec (e_left r) (9000 * 256 + 0)); [lia|]. split; [done|].
    intros _. cbn [snd]. f_equal; lia.
Qed.
Lemma surcharge_stipend req p :
  0 ≤ call_stipend req ≤ call_surcharge req p ∧ call_surcharge req p ≤ 34000 * 256.
Proof.
  unfold call_stipend, call_surcharge. destruct (sends_value req); cbn [andb]; [|lia].
  destruct (_ && _); lia.
Qed.

(** What the callee is given of the ergs that are left after the surcharge. *)
Definition ergs_passed (req : ExternalCallRequest) (left : Z) : Z :=
  Z.min (ergs_0 (ergs_to_pass req)) (max_passable left).

Lemma ergs_passed_range req left :
  0 ≤ left → is_u64 (ergs_0 (ergs_to_pass req)) → 0 ≤ ergs_passed req left ≤ left.
Proof.
  intros Hl [He1 He2]. pose proof (max_passable_range left Hl). unfold ergs_passed. lia.
Qed.

Lemma passed_run req p r :
  res_wf r → is_u64 (ergs_0 (ergs_to_pass req)) → call_surcharge req p ≤ e_left r →
  let left := e_left r - call_surcharge req p in
  calculate_resources_passed_in_external_call req p r
  = (Val (mk_res (ergs_passed req left + call_stipend req) 0),
     mk_res (left - ergs_passed req left) (n_left r)).
Proof.
  intros Hr He Hge left. pose proof Hr as [[He1 He2] [Hn1 Hn2]].
  pose proof (surcharge_stipend req p) as Hs.
  destruct (charge_for_value_run req p r Hr) as [H1 H2].
  unfold calculate_resources_passed_in_external_call, mbind, M_bind.
  destruct (charge_for_value req p r) as [o r']. cbn [fst snd] in H1, H2. subst o.
  destruct (Z.ltb_spec (e_left r) (call_surcharge req p)) as [|_]; [lia|].
  rewrite (H2 Hge). fold left. unfold gets.
  change (ergs (mk_res left (n_left r))) with (mkErgs left).
  pose proof (ergs_passed_range req left ltac:(lia) He) as Hp.
  change (apply_63_64_rule (mkErgs left)) with (mkErgs (max_passable left)).
  cbn [ergs_0]. fold (ergs_passed req left). set (passed := ergs_passed req left) in *.
  unfold in_width in He.
  unfold unwrap. rewrite charge_run; [|split; unfold in_width, e_left, n_left in *; cbn -[Z.pow]; lia
    |split; unfold in_width, e_left, n_left in *; cbn -[Z.pow Z.min]; lia].
  change (n_left (from_ergs (mkErgs passed))) with 0.
  change (e_left (from_ergs (mkErgs passed))) with passed.
  change (e_left (mk_res left (n_left r))) with left.
  change (n_left (mk_res left (n_left r))) with (n_left r).
  destruct (Z.ltb_spec (n_left r) 0); [lia|]. destruct (Z.ltb_spec left passed); [lia|].
  rewrite !Z.max_r, Z.sub_0_r by lia. unfold call_stipend. unfold call_stipend in Hs.
  destruct (sends_value req); [|by rewrite Z.add_0_r].
  unfold mret, M_ret, add_ergs, from_ergs, mk_res. cbn [fst ergs native ergs_0].
  by rewrite wrap_small by (unfold in_width; lia).
Qed.

Lemma passed_poor req p r :
  res_wf r → e_left r < call_surcharge req p →
  (calculate_resources_passed_in_external_call req p r).1 = no_ergs
  ∧ (calculate_resources_passed_in_external_call req p r).2 = (charge_for_value req p r).2.
Proof.
  intros Hr Hlt. destruct (charge_for_value_run req p r Hr) as [H1 _].
  unfold calculate_resources_passed_in_external_call, mbind, M_bind.
  destruct (charge_for_value req p r) as [o r']. cbn [fst snd] in H1. subst o.
  by destruct (Z.ltb_spec (e_left r) (call_surcharge req p)); [|lia].
Qed.

(** C25: resources of a call, exactly.  With too little gas for the surcharge the
    call fails with out-of-gas; otherwise the callee gets what was asked for, but
    at most all but one 64th of the gas that is left after the surcharge, plus
    the stipend of a call with value; the caller keeps the rest and all its
    native, and no other outcome, a panic included, is possible. *)
Theorem call_resources req p r :
  res_wf r → is_u64 (ergs_0 (ergs_to_pass req)) →
  let left := e_left r - call_surcharge req p in
  let passed := Z.min (ergs_0 (ergs_to_pass req)) (max_passable left) in
  (calculate_resources_passed_in_external_call req p r).1
  = (if e_left r <? call_surcharge req p then no_ergs
     else Val (mk_res (passed + call_stipend req) 0))
  ∧ (call_surcharge req p ≤ e_left r →
     (calculate_resources_passed_in_external_call req p r).2 = mk_res (left - passed) (n_left r)).
Proof.
  intros Hr He left passed. destruct (Z.ltb_spec (e_left r) (call_surcharge req p)) as [Hlt|Hge].
  - split; [by apply passed_poor|lia].
  - by rewrite passed_run.
Qed.

End Calls.

(** ** Checks before a frame *)
Section Before.
Context {R : Ruint} {RS : RuintSpec} {UZ : Usize} {FT : Features} {SYS : System}
  {LAWS : SystemLaws}.

Lemma infinite_ergs_keeps {A E} (m : M (SysState * Res) E A) s :
  e_left (infinite_ergs m s).2.2 = e_left s.2.
Proof.
  unfold infinite_ergs, with_infinite_ergs. destruct s as [sys r]. cbn [fst snd].
  by destruct (m _) as [o [sys' r']].
Qed.

(** The balance of the caller, read at no cost in ergs. *)
Definition balance_check (req : ExternalCallRequest) : M (SysState * Res) EvmSubsystemError bool :=
  if negb (nominal_token_value req =? 0) && negb (is_delegate req) then
    caller_balance ← map_err subsystem_of_system
                       (infinite_ergs (read_account_balance (ecr_caller req)));
    mret (negb (caller_balance <? nominal_token_value req))
  else mret true.

(** What every part of the function does to the resources. *)
Definition spares (s s' : SysState * Res) : Prop :=
  res_wf s'.2 ∧ e_left s'.2 = e_left s.2 ∧ n_left s'.2 ≤ n_left s.2.

Lemma infinite_spares {A E} (m : M (SysState * Res) E A) φ s :
  io_ok φ m → res_wf s.2 →
  spares s (infinite_ergs m s).2
  ∧ match (infinite_ergs m s).1 with Val a => φ a | Err _ => True | Fault => False end.
Proof.
  intros Hm Hr. destruct (infinite_ergs_ok m φ Hm s Hr) as (H1 & _ & H3 & _ & H5).
  split; [|done]. split; [done|]. split; [apply infinite_ergs_keeps|done].
Qed.

Lemma balance_check_spec req s :
  res_wf s.2 →
  match balance_check req s with
  | (Val b, s') => spares s s'
      ∧ (∀ bal, nominal_token_value req ≠ 0 → is_delegate req = false →
           (infinite_ergs (read_account_balance (ecr_caller req)) s).1 = Val bal →
           b = bool_decide (nominal_token_value req ≤ bal))
  | (Err _, s') => spares s s'
  | (Fault, _) => False
  end.
Proof.
  intros Hr. unfold balance_check.
  destruct (negb (nominal_token_value req =? 0) && negb (is_delegate req)) eqn:E.
  2:{ cbn. split; [by split|]. intros bal Hv Hd. rewrite Hd, andb_true_r in E.
      apply negb_false_iff in E. lia. }
  destruct (infinite_spares (read_account_balance (ecr_caller req)) _ s (sl_account_balance _) Hr)
    as [Hs Ho].
  unfold mbind, M_bind, map_err. destruct (infinite_ergs _ s) as [[bal|e|] s']; [|done|done].
  split; [done|]. intros bal' _ _ [= <-].
  destruct (Z.ltb_spec bal (nominal_token_value req)); cbn; symmetry.
  - by apply bool_decide_eq_false, Z.lt_nge.
  - by apply bool_decide_eq_true.
Qed.
(** The part for constructors, once the balance is known to suffice. *)
Definition constructor_check (fs : ExecutionEnvironmentLaunchParams)
    : M (SysState * Res) EvmSubsystemError bool :=
  let req := external_call fs in
  let props := callee_account_properties (environment_parameters fs) in
  if bool_decide (modifier req = Constructor) then
    nonce ←
      (if 0 <? callstack_depth (environment_parameters fs)
       then attempt (infinite_ergs (increment_nonce (ecr_caller req) 1))
       else mret (inr 0));
    match nonce with
    | inl (SLeafUsage NonceOverflowError) => mret false
    | inl e => throw (SCascaded (CascadedNonce e))
    | inr _ =>
        if negb (cap_unpadded_code_len props =? 0) || negb (cap_nonce props =? 0) then
          r ← gets snd;
          zoom snd (λ r s, (s.1, r)) (unwrap (charge (from_ergs (ergs r)))) ;;
          mret false
        else mret true
    end
  else mret true.

Lemma before_unfold fs s :
  before_executing_frame fs s
  = if 1024 <? callstack_depth (environment_parameters fs) then (Val false, s)
    else (enough ← balance_check (external_call fs);
          if negb enough then mret false else constructor_check fs) s.
Proof. unfold before_executing_frame. by destruct (1024 <? _). Qed.

Definition occupied (p : CalleeAccountProperties) : Prop :=
  cap_unpadded_code_len p ≠ 0 ∨ cap_nonce p ≠ 0.

(** Burning all ergs cannot fail. *)
Lemma burn_run (s : SysState * Res) :
  res_wf s.2 →
  zoom snd (λ r s, (s.1, r)) (unwrap (charge (from_ergs (ergs s.2)))) s
  = (Val tt : outcome EvmSubsystemError unit, (s.1, mk_res 0 (n_left s.2))).
Proof.
  intros Hr. pose proof Hr as [[He1 He2] [Hn1 Hn2]]. unfold zoom, unwrap.
  rewrite charge_run; [|done|by split].
  change (n_left (from_ergs (ergs s.2))) with 0.
  change (e_left (from_ergs (ergs s.2))) with (e_left s.2).
  destruct (Z.ltb_spec (n_left s.2) 0); [lia|]. rewrite Z.ltb_irrefl, Z.sub_diag, Z.sub_0_r, !Z.max_r by lia.
  done.
Qed.

Lemma constructor_check_spec fs s :
  res_wf s.2 →
  let p := callee_account_properties (environment_parameters fs) in
  match constructor_check fs s with
  | (Val b, s') =>
      res_wf s'.2 ∧ n_left s'.2 ≤ n_left s.2
      ∧ (b = true → e_left s'.2 = e_left s.2
                    ∧ (modifier (external_call fs) = Constructor → ¬ occupied p))
      ∧ (b = false → e_left s'.2 = e_left s.2
           ∨ e_left s'.2 = 0 ∧ modifier (external_call fs) = Constructor ∧ occupied p)
  | (Err _, _) => True
  | (Fault, _) => False
  end.
Proof.
  intros Hr p. unfold constructor_check. fold p.
  destruct (bool_decide_reflect (modifier (external_call fs) = Constructor)) as [Hm|Hm]; [|done].
  assert (∃ o s1, (if 0 <? callstack_depth (environment_parameters fs)
      then attempt (infinite_ergs (increment_nonce (ecr_caller (external_call fs)) 1))
      else mret (inr 0)) s = (Val o : outcome EvmSubsystemError _, s1) ∧ spares s s1)
    as (o & s1 & Hrun & Hw1 & He1 & Hn1).
  { destruct (0 <? _); [|by eexists _, s].
    destruct (infinite_spares (increment_nonce (ecr_caller (external_call fs)) 1) _ s
      (sl_increment_nonce _ _) Hr) as [Hs Ho].
    unfold attempt. destruct (infinite_ergs _ s) as [[a|e|] s1]; [| |done]; by eexists _, s1. }
  rewrite (bind_val _ _ _ _ _ Hrun). destruct o as [[e|e|e|[]]|n]; try done.
  { destruct e. cbn. split_conj; try done. auto. }
  assert (negb (cap_unpadded_code_len p =? 0) || negb (cap_nonce p =? 0) = bool_decide (occupied p)) as ->.
  { unfold occupied. destruct (Z.eqb_spec (cap_unpadded_code_len p) 0), (Z.eqb_spec (cap_nonce p) 0);
      cbn; symmetry; (apply bool_decide_eq_true || apply bool_decide_eq_false); lia. }
  destruct (bool_decide_reflect (occupied p)) as [Hocc|Hocc].
  - erewrite bind_val by done. rewrite (bind_val _ _ _ _ _ (burn_run s1 Hw1)). cbn.
    split_conj; try done. { split; [done|apply Hw1]. } right. done.
  - cbn. split_conj; try done.
Qed.

(** Checks before a frame.  Beyond depth 1024 the frame is refused and nothing
    changes; a caller that cannot cover the value is refused; a constructor starts
    only on an address without code and nonce, and a collision burns exactly all
    ergs; in every other case the ergs are untouched, native is only taken, and no
    panic is possible. *)
Theorem frame_preconditions fs s :
  res_wf s.2 →
  let req := external_call fs in
  let p := callee_account_properties (environment_parameters fs) in
  let depth := callstack_depth (environment_parameters fs) in
  match before_executing_frame fs s with
  | (Val b, s') =>
      res_wf s'.2 ∧ n_left s'.2 ≤ n_left s.2
      ∧ (1024 < depth → b = false ∧ s' = s)
      ∧ (∀ bal, nominal_token_value req ≠ 0 → is_delegate req = false →
           (infinite_ergs (read_account_balance (ecr_caller req)) s).1 = Val bal →
           bal < nominal_token_value req → b = false)
      ∧ (b = true → depth ≤ 1024 ∧ e_left s'.2 = e_left s.2
                    ∧ (modifier req = Constructor → ¬ occupied p))
      ∧ (b = false → e_left s'.2 = e_left s.2
           ∨ e_left s'.2 = 0 ∧ modifier req = Constructor ∧ occupied p)
  | (Err _, _) => True
  | (Fault, _) => False
  end.
Proof.
  intros Hr req p depth. rewrite before_unfold. fold depth.
  destruct (Z.ltb_spec 1024 depth) as [Hd|Hd]; [by split_conj; auto|].
  pose proof (balance_check_spec (external_call fs) s Hr) as Hb. unfold mbind, M_bind.
  destruct (balance_check (external_call fs) s) as [[enough|e|] s1]; [|done|done].
  destruct Hb as [(Hw & He & Hn) Hbal]. destruct enough; cbn [negb].
  2:{ cbn. split_conj; auto; lia. }
  pose proof (constructor_check_spec fs s1 Hw) as Hc. cbn zeta in Hc.
  destruct (constructor_check fs s1) as [[b|e|] s']; [|done|done].
  destruct Hc as (H1 & H2 & H3 & H4). rewrite He in H3, H4. split_conj; try done; try lia.
  - intros bal Hv Hdel Hrun Hlt. specialize (Hbal bal Hv Hdel Hrun).
    symmetry in Hbal. apply bool_decide_eq_true in Hbal. unfold req in Hlt. lia.
  - intros ->. destruct (H3 eq_refl). done.
Qed.

End Before.
