(* ===== verification/BootSystem.v ===== *)
(** * What the system offers to the bootloader

    The extended IO trait ([IOSubsystemExt] of [zk_ee/src/system/io.rs]) as the
    class [SystemExt], the account data it returns, and the execution environment
    types ([zk_ee/src/execution_environment_type.rs]).  [SystemExtLaws] is what
    the bootloader relies on, next to [SystemLaws]. *)

From stdpp Require Import strings.
From S2P Require Import Prelude Resources U256 SystemInterface EvmConstants EvmState EvmLogic EvmExec.

(** ** Execution environments *)

Inductive ExecutionEnvironmentType : Type := NoEE | EVM.

#[global] Instance ExecutionEnvironmentType_eq_dec : EqDecision ExecutionEnvironmentType.
Proof. solve_decision. Defined.

(** The discriminant, [self as u8]. *)
Definition ee_byte (e : ExecutionEnvironmentType) : Z :=
  match e with NoEE => 0 | EVM => 1 end.

Definition parse_ee_version_byte (byte : Z) : outcome InternalError ExecutionEnvironmentType :=
  if byte =? ee_byte NoEE then Val NoEE
  else if byte =? ee_byte EVM then Val EVM
  else Err (internal_error "Unknown EE type").

(** ** Account data *)

(** The fields a caller of [read_account_properties] asks for. *)
Inductive AccountField : Type :=
| WithEeVersion | WithObservableBytecodeHash | WithObservableBytecodeLen | WithNonce
| WithBytecodeHash | WithUnpaddedCodeLen | WithArtifactsLen | WithNominalTokenBalance
| WithBytecode | WithCodeVersion | WithIsDelegated.

Record AccountData : Type := mkAccountData {
  ad_ee_version : Z;
  ad_observable_bytecode_hash : list Z;
  ad_observable_bytecode_len : Z;
  ad_nonce : Z;
  ad_bytecode_hash : list Z;
  ad_unpadded_code_len : Z;
  ad_artifacts_len : Z;
  ad_nominal_token_balance : Z;
  ad_bytecode : list Z;
  ad_code_version : Z;
  ad_is_delegated : bool
}.

Definition is_contract (a : AccountData) : bool :=
  negb (ad_is_delegated a) && (0 <? ad_unpadded_code_len a).

(** ** The interface *)

(** The longest input of a call: what is proved of calls is proved for every limit, and
    of the hooks up to the one they can take. *)
Class InputLimit := input_limit : Z.

(** A transaction is shorter than the address space, by what the parsers add, and not
    too long for the input of a call. *)
Definition tx_size_ok {IL : InputLimit} (n : Z) : Prop := n < 2 ^ 32 - 64 ∧ n ≤ input_limit.

Class SystemExt {SYS : System} : Type := {
  transfer_nominal_token_value : ExecutionEnvironmentType → Z → Z → Z →
    M (SysState * Res) BalanceSubsystemError unit;
  read_account_properties : ExecutionEnvironmentType → Z → list AccountField →
    M (SysState * Res) SystemError AccountData;
  (** The result is the old balance; the flags are [should_subtract] and
      [fee_payment_in_simulation]. *)
  update_account_nominal_token_balance : ExecutionEnvironmentType → Z → Z → bool → bool →
    M (SysState * Res) BalanceSubsystemError Z;
  emit_l1_message : ExecutionEnvironmentType → Z → list Z →
    M (SysState * Res) SystemError (list Z);
  (** Address, environment, hash and length of the code, length of the artifacts,
      hash and length of the observable code. *)
  set_bytecode_details : Z → ExecutionEnvironmentType → list Z → Z → Z → list Z → Z →
    M (SysState * Res) SystemError unit
}.

(** ** The contract *)

Section Contract.
Context {UZ : Usize} {SYS : System}.

(** Code as the system stores it, with what a delegation needs. *)
Record account_ok (a : AccountData) : Prop := {
  ac_bytes : bytes_ok (ad_bytecode a);
  ac_unpadded : 0 ≤ ad_unpadded_code_len a ≤ Z.of_nat (length (ad_bytecode a));
  ac_default : ad_code_version a = DEFAULT_CODE_VERSION_BYTE → ad_artifacts_len a = 0;
  ac_cached : ad_code_version a = ARTIFACTS_CACHING_CODE_VERSION_BYTE →
    ad_unpadded_code_len a ≤ 8 * ad_artifacts_len a ∧ ad_artifacts_len a mod 8 = 0
    ∧ ad_unpadded_code_len a + ad_artifacts_len a ≤ Z.of_nat (length (ad_bytecode a))
}.

Class SystemExtLaws {LAWS : SystemLaws} {EXT : SystemExt} : Type := {
  xl_transfer ee a b v : io_ok (λ _, True) (transfer_nominal_token_value ee a b v);
  (** A transfer to oneself changes nothing. *)
  xl_transfer_self ee a v s :
    world (transfer_nominal_token_value ee a a v s).2.1 = world s.1;
  xl_update_balance ee a d sub sim :
    io_ok is_u256 (update_account_nominal_token_balance ee a d sub sim);
  xl_l1_message ee a d : io_ok is_bytes32 (emit_l1_message ee a d);
  xl_set_bytecode a ee h l al oh ol : io_ok (λ _, True) (set_bytecode_details a ee h l al oh ol);
  xl_read ee a fields : io_ok account_ok (read_account_properties ee a fields);
  xl_read_world ee a fields s : world (read_account_properties ee a fields s).2.1 = world s.1;
  (** With infinite ergs an operation does not run out of them. *)
  xl_balance_rich a s : res_wf s.2 →
    (infinite_ergs (read_account_balance a) s).1 ≠ Err (LeafRuntime OutOfErgs);
  xl_nonce_rich a n s : res_wf s.2 →
    (infinite_ergs (increment_nonce a n) s).1 ≠ Err (SLeafRuntime OutOfErgs)
}.
End Contract.
