(* ===== verification/IoLogic.v ===== *)
(** * The logic of system operations

    [io w Q X m] is the judgement for code between the bootloader and the system,
    which works on the system's state and on resources: from well-formed resources
    [m] does not panic, hands out no resources, keeps metadata and snapshots, does
    not change the world if [w] is set, and ends with a value in [Q] or an error in
    [X].  It refines [io_ok] of the contract by [w] and [X]. *)

From stdpp Require Import strings.
From S2P Require Import Prelude Resources U256 SystemInterface EvmConstants Gas EvmState EvmLogic BootSystem.

Section Logic.
Context {SYS : System} {LAWS : SystemLaws}.
Abbreviation IO := (M (SysState * Res)).

Definition io {A E} (w : bool) (Q : A → Prop) (X : E → Prop) (m : IO E A) : Prop :=
  ∀ s, res_wf s.2 →
    res_wf (m s).2.2 ∧ res_le_both (m s).2.2 s.2 ∧ later s.1 (m s).2.1
    ∧ (w = true → world (m s).2.1 = world s.1)
    ∧ match (m s).1 with Val a => Q a | Err e => X e | Fault => False end.

Lemma io_of_ok {A E} (Q : A → Prop) (m : IO E A) : io_ok Q m → io false Q (λ _, True) m.
Proof.
  intros Hm s Hs. destruct (Hm s Hs) as (H1 & H2 & H3 & H4 & H5). by split_conj.
Qed.

Lemma io_read {A E} (Q : A → Prop) (m : IO E A) w :
  io_ok Q m → (∀ s, world (m s).2.1 = world s.1) → io w Q (λ _, True) m.
Proof.
  intros Hm Hw s Hs. destruct (Hm s Hs) as (H1 & H2 & H3 & H4 & H5). by split_conj.
Qed.

Lemma io_ret {A E} w (a : A) (Q : A → Prop) (X : E → Prop) : Q a → io w Q X (mret a).
Proof. intros Ha s Hs. cbn. by split_conj. Qed.

Lemma io_throw {A E} w e (Q : A → Prop) (X : E → Prop) : X e → io w Q X (throw e).
Proof. intros He s Hs. cbn. by split_conj. Qed.

Lemma io_bind {A B E} w (m : IO E A) (k : A → IO E B) Q Q' X :
  io w Q X m → (∀ a, Q a → io w Q' X (k a)) → io w Q' X (m ≫= k).
Proof.
  intros Hm Hk s Hs. destruct (Hm s Hs) as (H1 & H2 & H3 & H4 & H5). unfold mbind, M_bind.
  destruct (m s) as [[a|e|] s1]; cbn [fst snd] in *; [|by split_conj|done].
  destruct (Hk a H5 s1 H1) as (K1 & K2 & K3 & K4 & K5).
  split; [done|]. split; [by etransitivity|]. split; [by etransitivity|]. split; [|done].
  intros Hw. rewrite K4 by done. auto.
Qed.

Lemma io_conseq {A E} w (m : IO E A) (Q Q' : A → Prop) (X X' : E → Prop) :
  io w Q X m → (∀ a, Q a → Q' a) → (∀ e, X e → X' e) → io w Q' X' m.
Proof.
  intros Hm HQ HX s Hs. destruct (Hm s Hs) as (H1 & H2 & H3 & H4 & H5).
  split_conj; try done. destruct (m s) as [[a|e|] s1]; cbn in *; auto.
Qed.

Lemma io_weaken {A E} w (m : IO E A) Q X : io true Q X m → io w Q X m.
Proof.
  intros Hm s Hs. destruct (Hm s Hs) as (H1 & H2 & H3 & H4 & H5). split_conj; try done. auto.
Qed.

Lemma io_lift_opt {A E} w e (o : option A) (Q : A → Prop) (X : E → Prop) :
  X e → (∀ a, o = Some a → Q a) → io w Q X (lift_opt e o).
Proof. intros He Ho. destruct o; [apply io_ret; auto|by apply io_throw]. Qed.

Lemma io_expect {A E} w (o : option A) a (Q : A → Prop) (X : E → Prop) :
  o = Some a → Q a → io w Q X (expect o).
Proof. intros ->. apply io_ret. Qed.

Lemma io_gets {A E} w (f : SysState * Res → A) (Q : A → Prop) (X : E → Prop) :
  (∀ s, res_wf s.2 → Q (f s)) → io w Q X (gets f).
Proof. intros Hf s Hs. cbn. by split_conj; [..|apply Hf]. Qed.

Lemma io_attempt {A E F} w (m : IO E A) (Q : A → Prop) (X : E → Prop) (Y : F → Prop) :
  io w Q X m → io w (λ r, match r with inl e => X e | inr a => Q a end) Y (attempt m).
Proof.
  intros Hm s Hs. destruct (Hm s Hs) as (H1 & H2 & H3 & H4 & H5). unfold attempt.
  destruct (m s) as [[a|e|] s1]; cbn in *; by split_conj.
Qed.

Lemma io_map_err {A E F} w (f : E → F) (m : IO E A) (Q : A → Prop) (X : E → Prop) (Y : F → Prop) :
  io w Q X m → (∀ e, X e → Y (f e)) → io w Q Y (map_err f m).
Proof.
  intros Hm HY s Hs. destruct (Hm s Hs) as (H1 & H2 & H3 & H4 & H5). unfold map_err.
  destruct (m s) as [[a|e|] s1]; cbn in *; split_conj; auto.
Qed.

Lemma charge_le (r c : Res) :
  res_wf r → res_wf c → res_wf (charge c r).2 ∧ res_le_both (charge c r).2 r.
Proof.
  intros Hr Hc. rewrite charge_run by done. destruct Hr as [[] []], Hc as [[] []].
  unfold res_wf, res_le_both, in_width, e_left, n_left in *. cbn -[Z.max Z.pow] in *. lia.
Qed.

Lemma charge_no_fault (r c : Res) : res_wf r → res_wf c → (charge c r).1 ≠ Fault.
Proof. intros Hr Hc. rewrite charge_run by done. by repeat destruct (_ <? _). Qed.

Lemma io_charge w (c : Res) :
  res_wf c → io w (λ _, True) (λ _, True) (zoom snd (λ r (s : SysState * Res), (s.1, r)) (charge c)).
Proof.
  intros Hc [sys r] Hr. cbn [snd] in Hr. unfold zoom. cbn [fst snd].
  destruct (charge_le r c Hr Hc) as [Hw Hle]. pose proof (charge_no_fault r c Hr Hc) as Hf.
  destruct (charge c r) as [[a|e|] r']; cbn in *; by split_conj.
Qed.

Lemma io_infinite {A E} w (m : IO E A) (Q : A → Prop) (X : E → Prop) :
  io w Q X m → io w Q X (infinite_ergs m).
Proof.
  intros Hm [sys r] Hr. unfold infinite_ergs, with_infinite_ergs. cbn [fst snd].
  assert (res_wf (mkResources (mkErgs (umax 64)) (native r))) as Hr'.
  { split; [|apply Hr]. unfold in_width, e_left, umax. cbn. lia. }
  specialize (Hm (sys, _) Hr'). cbn [fst snd] in *.
  destruct (m _) as [o [sys' r']]. cbn [fst snd] in *. destruct Hm as (H1 & [H2 H2'] & H3 & H4 & H5).
  split_conj; try done. split; [apply Hr|apply H1].
Qed.
End Logic.

(** Stepping through a computation; side conditions are left. *)
Ltac io_step :=
  lazymatch goal with
  | |- io _ _ _ (_ ≫= _) => eapply io_bind
  | |- io _ _ _ (mret _) => apply io_ret
  | |- io _ _ _ (throw _) => apply io_throw
  | |- io _ _ _ (if ?b then _ else _) => destruct b eqn:?
  end.
