(* ===== verification/Hooks.v ===== *)
(** * System hooks

    Models [system_hooks/src]: the registry of hooks ([lib.rs]), the wrapper of
    precompiles and the identity precompile ([precompiles.rs]), the messenger to L1
    ([l1_messenger.rs]), the base token with its withdrawals
    ([l2_base_token.rs]) and the contract deployer ([contract_deployer.rs]).

    A hook works on the state of the system, on the resources of the request and on
    the memory for returned data, of which only the capacity matters here.  The
    result of the inner functions is [Result<Result<A, &str>, SystemError>]: the
    inner error, a revert, is [inl]. *)

From stdpp Require Import strings gmap.
From S2P Require Import Prelude Resources U256 SystemInterface SliceVec EvmConstants EvmState BootSystem.

Definition HOOK_BASE_NATIVE_COST : Z := 1000.
Definition HOOK_BASE_ERGS_COST : Ergs := mkErgs (100 * ERGS_PER_GAS).
Definition SET_BYTECODE_DETAILS_EXTRA_ERGS_PER_BYTE : Ergs := mkErgs (50 * ERGS_PER_GAS).

Definition ECRECOVER_HOOK_ADDRESS_LOW : Z := 0x0001.
Definition SHA256_HOOK_ADDRESS_LOW : Z := 0x0002.
Definition RIPEMD160_HOOK_ADDRESS_LOW : Z := 0x0003.
Definition ID_HOOK_ADDRESS_LOW : Z := 0x0004.
Definition MODEXP_HOOK_ADDRESS_LOW : Z := 0x0005.
Definition ECADD_HOOK_ADDRESS_LOW : Z := 0x0006.
Definition ECMUL_HOOK_ADDRESS_LOW : Z := 0x0007.
Definition ECPAIRING_HOOK_ADDRESS_LOW : Z := 0x0008.
Definition BLAKE2F_HOOK_ADDRESS_LOW : Z := 0x0009.
Definition POINT_EVAL_HOOK_ADDRESS_LOW : Z := 0x000a.
Definition P256_VERIFY_PREHASH_HOOK_ADDRESS_LOW : Z := 0x0100.
Definition CONTRACT_DEPLOYER_ADDRESS_LOW : Z := 0x8006.
Definition L1_MESSENGER_ADDRESS_LOW : Z := 0x8008.
Definition L2_BASE_TOKEN_ADDRESS_LOW : Z := 0x800a.
Definition CONTRACT_DEPLOYER_ADDRESS : Z := 0x8006.
Definition L1_MESSENGER_ADDRESS : Z := 0x8008.
Definition L2_BASE_TOKEN_ADDRESS : Z := 0x800a.
Definition L2_COMPLEX_UPGRADER_ADDRESS : Z := 0x800f.

Definition SEND_TO_L1_SELECTOR : list Z := [0x62; 0xf8; 0x4b; 0x24].
Definition WITHDRAW_SELECTOR : list Z := [0x51; 0xcf; 0xf8; 0xd9].
Definition WITHDRAW_WITH_MESSAGE_SELECTOR : list Z := [0x84; 0xbc; 0x3e; 0xb0].
Definition FINALIZE_ETH_WITHDRAWAL_SELECTOR : list Z := [0x6c; 0x09; 0x60; 0xf9].
Definition SET_EVM_BYTECODE_DETAILS : list Z := [0xf6; 0xec; 0xa0; 0xb0].

Definition L1_MESSAGE_SENT_TOPIC : list Z :=
  [0x3a; 0x36; 0xe4; 0x72; 0x91; 0xf4; 0x20; 0x1f; 0xaf; 0x13; 0x7f; 0xab; 0x08; 0x1d; 0x92; 0x29;
   0x5b; 0xce; 0x2d; 0x53; 0xbe; 0x2c; 0x6c; 0xa6; 0x8b; 0xa8; 0x2c; 0x7f; 0xaa; 0x9c; 0xe2; 0x41].
Definition WITHDRAWAL_TOPIC : list Z :=
  [0x27; 0x17; 0xea; 0xd6; 0xb9; 0x20; 0x0d; 0xd2; 0x35; 0xaa; 0xd4; 0x68; 0xc9; 0x80; 0x9e; 0xa4;
   0x00; 0xfe; 0x33; 0xac; 0x69; 0xb5; 0xbf; 0xaa; 0x6d; 0x3e; 0x90; 0xfc; 0x92; 0x2b; 0x63; 0x98].
Definition WITHDRAWAL_WITH_MESSAGE_TOPIC : list Z :=
  [0xc4; 0x05; 0xfe; 0x89; 0x58; 0x41; 0x0b; 0xba; 0xf0; 0xc7; 0x3b; 0x7a; 0x0c; 0x3e; 0x20; 0x85;
   0x9e; 0x86; 0xca; 0x16; 0x8a; 0x4c; 0x9b; 0x0d; 0xef; 0x9c; 0x54; 0xd2; 0x55; 0x5a; 0x30; 0x6b].

Definition L2_TO_L1_LOG_SERIALIZE_SIZE : Z := 88.

(** [evm_interpreter::keccak256_ergs_cost]. *)
Definition keccak256_ergs_cost (len : Z) : Ergs :=
  let words := (len + 31) / 32 in
  let gas_cost := saturating_add 64 GAS_SHA3 (saturating_mul 64 GAS_SHA3WORD words) in
  mkErgs (saturating_mul 64 gas_cost ERGS_PER_GAS).

Definition l1_message_ergs_cost (message_len : Z) : Ergs :=
  let hashing_cost :=
    Ergs_add (Ergs_add (keccak256_ergs_cost L2_TO_L1_LOG_SERIALIZE_SIZE)
                (Ergs_times (keccak256_ergs_cost 64) 3))
      (keccak256_ergs_cost message_len) in
  let log_cost := mkErgs (wrap 64 (ERGS_PER_GAS * (GAS_LOG + GAS_LOGDATA * message_len))) in
  Ergs_add hashing_cost log_cost.

Definition set_bytecode_details_extra_ergs (bytecode_len : Z) : Ergs :=
  Ergs_times SET_BYTECODE_DETAILS_EXTRA_ERGS_PER_BYTE bytecode_len.

(** ** The registry *)
(** Cargo features of the hooks and, the last one, of the bootloader. *)
Class HookFeatures : Type := {
  mock_unsupported_precompiles : bool;
  point_eval_precompile : bool;
  p256_precompile : bool;
  disable_system_contracts : bool
}.

Section Hooks.
Context {R : Ruint} {UZ : Usize} {SYS : System} {EXT : SystemExt}.

(** Request, byte of the caller's environment, capacity of the return memory; the
    result comes with what is left of that memory. *)
Definition SystemHook : Type :=
  ExternalCallRequest → Z → nat → M SysState SystemError (CompletedExecution * nat).

Definition HooksStorage : Type := gmap Z SystemHook.

Definition new_in : HooksStorage := ∅.

Definition add_hook (for_address_low : Z) (hook : SystemHook) : M HooksStorage Empty_set unit :=
  existing ← gets (λ inner, inner !! for_address_low);
  modify (<[for_address_low := hook]>) ;;
  assert_that (match existing with None => true | Some _ => false end).

Definition has_hook_for (hooks : HooksStorage) (address_low : Z) : bool :=
  match hooks !! address_low with Some _ => true | None => false end.

Definition try_intercept (hooks : HooksStorage) (address_low : Z) (request : ExternalCallRequest)
    (caller_ee : Z) (return_memory : nat)
    : M SysState SystemError (option CompletedExecution * nat) :=
  match hooks !! address_low with
  | None => mret (None, return_memory)
  | Some hook =>
      '(res, remaining_memory) ← hook request caller_ee return_memory;
      mret (Some res, remaining_memory)
  end.

Definition make_error_return_state (remaining_resources : Res) : CompletedExecution :=
  mkCompleted remaining_resources (Failed ReturnValues_empty).

Definition make_return_state_from_returndata_region (remaining_resources : Res)
    (returndata : list Z) : CompletedExecution :=
  mkCompleted remaining_resources (Successful (mkReturnValues returndata None)).

(** [SliceVec::destruct]. *)
Definition destruct_vec (v : Heap Z) : list Z * nat :=
  (heap_data v, heap_cap v - length (heap_data v))%nat.

(** ** Precompiles *)

(** A system function appends its output to a vector and charges for itself; the
    oracle of [SystemFunctionExt] is part of the system's state. *)
Definition SystemFunction (I : Type) : Type :=
  list Z → M (SysState * Res * Heap Z) (SubsystemError I Empty_set) unit.

Definition pure_system_function_hook_impl {I} (invoke : SystemFunction I) : SystemHook :=
  λ request _ return_memory sys,
    if bool_decide (modifier request = Constructor) then
      (Err (LeafDefect (internal_error "precompile called with constructor modifier")), sys)
    else
      match invoke (input request) (sys, available_resources request, mkHeap return_memory []) with
      | (Val _, (sys', resources, return_vec)) =>
          let '(returndata, rest) := destruct_vec return_vec in
          (Val (make_return_state_from_returndata_region resources returndata, rest), sys')
      | (Err e, (sys', resources, return_vec)) =>
          match root_cause_with no_cascade e with
          | RootRuntime OutOfErgs | RootUsage =>
              (Val (make_error_return_state (exhaust_ergs resources), (destruct_vec return_vec).2),
               sys')
          | RootInternal e => (Err (LeafDefect e), sys')
          | RootRuntime (FatalRuntime e) => (Err (LeafRuntime (FatalRuntime e)), sys')
          end
      | (Fault, (sys', _, _)) => (Fault, sys')
      end.

Definition ID_STATIC_COST_ERGS : Ergs := mkErgs (15 * ERGS_PER_GAS).
Definition ID_WORD_COST_ERGS : Ergs := mkErgs (3 * ERGS_PER_GAS).
Definition ID_BASE_NATIVE_COST : Z := 20.
Definition ID_BYTE_NATIVE_COST : Z := 10.

Definition out_of_return_memory : SystemError := LeafRuntime (FatalRuntime OutOfReturnMemory).

(** [IdentityPrecompile::execute]; it has no interface errors. *)
Definition identity_precompile : SystemFunction Empty_set := λ src,
  let len := Z.of_nat (length src) in
  let cost_ergs := Ergs_add ID_STATIC_COST_ERGS (Ergs_times ID_WORD_COST_ERGS ((len + 31) / 32)) in
  let cost_native := wrap 64 (ID_BASE_NATIVE_COST + ID_BYTE_NATIVE_COST * len) in
  zoom (λ s, s.1.2) (λ r s, (s.1.1, r, s.2))
    (map_err subsystem_of_system
       (charge (from_ergs_and_native cost_ergs (from_computational cost_native)))) ;;
  zoom snd (λ v s, (s.1, v))
    (map_err (λ _, subsystem_of_system out_of_return_memory) (heap_extend src)).

(** [charge_native_and_ergs] of [evm_interpreter/src/lib.rs]. *)
Definition charge_native_and_ergs (native : Z) (ergs : Ergs) : M (SysState * Res) SystemError unit :=
  zoom snd (λ r s, (s.1, r)) (charge (from_ergs_and_native ergs (from_computational native))).

Definition charge_io (to_charge : Res) : M (SysState * Res) SystemError unit :=
  zoom snd (λ r s, (s.1, r)) (charge to_charge).

(** ** What the three contracts share *)

Inductive HookContext : Type := HookConstructor | HookError | HookStatic | HookPlain.

Definition hook_context (m : CallModifier) : HookContext :=
  match m with
  | Constructor => HookConstructor
  | Delegate | DelegateStatic | EVMCallcode | EVMCallcodeStatic => HookError
  | Static | ZKVMSystemStatic => HookStatic
  | NoModifier | ZKVMSystem => HookPlain
  end.

Abbreviation HM A := (M (SysState * Res) SystemError (string + A)).

(** The match on the result of the inner function. *)
Definition hook_return (request : ExternalCallRequest) (return_memory : nat) (inner : HM (list Z))
    : M SysState SystemError (CompletedExecution * nat) := λ sys,
  match inner (sys, available_resources request) with
  | (Val (inr return_data), (sys', resources)) =>
      match heap_extend return_data (mkHeap return_memory []) with
      | (Val _, vec) =>
          let '(returndata, rest) := destruct_vec vec in
          (Val (make_return_state_from_returndata_region resources returndata, rest), sys')
      | _ => (Err out_of_return_memory, sys')
      end
  | (Val (inl _), (sys', resources)) | (Err (LeafRuntime OutOfErgs), (sys', resources)) =>
      (Val (make_error_return_state resources, return_memory), sys')
  | (Err e, (sys', _)) => (Err e, sys')
  | (Fault, (sys', _)) => (Fault, sys')
  end.

(** The body of a hook: a constructor call is an internal error, a delegated call,
    or one for which [refused] holds, fails. *)
Definition contract_hook (constructor_message : string) (refused : ExternalCallRequest → bool)
    (inner : ExternalCallRequest → bool → HM (list Z)) : SystemHook :=
  λ request _ return_memory,
    match hook_context (modifier request) with
    | HookConstructor => throw (LeafDefect (internal_error constructor_message))
    | HookError => mret (make_error_return_state (available_resources request), return_memory)
    | ctx =>
        if refused request then
          mret (make_error_return_state (available_resources request), return_memory)
        else
          hook_return request return_memory
            (inner request (match ctx with HookStatic => true | _ => false end))
    end.

Definition revert {A} (message : string) : HM A := mret (inl message).

(** [U256::from_be_slice], which panics on a number that does not fit. *)
Definition from_be_slice {S E} (l : list Z) : M S E Z := expect (u_try_from_be_slice l).

(** [&data[start..end_]]. *)
Definition range {S E} (data : list Z) (start end_ : Z) : M S E (list Z) :=
  expect (slice data start (end_ - start)).

(** A match on an [Option] that returns early from the function. *)
Definition or_revert {A B} (o : option A) (message : string) (k : A → HM B) : HM B :=
  match o with Some a => k a | None => revert message end.

(** ** The messenger *)

Definition invalid_calldata : string :=
  "L1 messenger failure: sendToL1 called with invalid calldata".

Definition send_to_l1_inner (abi_encoded_message : list Z) (caller : Z) : HM (list Z) :=
  len ← lift_opt (LeafDefect (internal_error "abi_encoded_message is larger than u32"))
          (checked 32 (Z.of_nat (length abi_encoded_message)));
  if len <? 32 then revert invalid_calldata
  else
    offset_bytes ← range abi_encoded_message 0 32;
    offset ← from_be_slice offset_bytes;
    or_revert (u_try_into_u32 offset) invalid_calldata (λ message_offset,
    if negb (message_offset =? 32) then
      revert "L1 messenger failure: sendToL1 expects strict message offset"
    else
      or_revert (checked_add 32 message_offset 32) invalid_calldata (λ length_encoding_end,
      if len <? length_encoding_end then revert invalid_calldata
      else
        length_bytes ← range abi_encoded_message (length_encoding_end - 32) length_encoding_end;
        length_word ← from_be_slice length_bytes;
        or_revert (u_try_into_u32 length_word) invalid_calldata (λ length,
        or_revert (checked_add 32 length_encoding_end length) invalid_calldata (λ message_end,
        if len <? message_end then revert invalid_calldata
        else if negb (len mod 32 =? 0) then revert "Calldata is not well formed"
        else
          message ← range abi_encoded_message length_encoding_end message_end;
          charge_io (from_ergs (l1_message_ergs_cost (Z.of_nat (List.length message)))) ;;
          message_hash ← emit_l1_message NoEE caller message;
          emit_event L1_MESSENGER_ADDRESS
            [L1_MESSAGE_SENT_TOPIC; be_bytes 32 (b160_to_u256 caller); message_hash]
            abi_encoded_message ;;
          mret (inr message_hash))))).

Definition l1_messenger_hook_inner (calldata : list Z) (caller : Z) (is_static : bool)
    : HM (list Z) :=
  charge_native_and_ergs HOOK_BASE_NATIVE_COST HOOK_BASE_ERGS_COST ;;
  if Z.of_nat (length calldata) <? 4 then
    revert "L1 messenger failure: calldata shorter than selector length"
  else
    selector ← range calldata 0 4;
    if bool_decide (selector = SEND_TO_L1_SELECTOR) then
      if is_static then revert "L1 messenger failure: sendToL1 called with static context"
      else
        rest ← range calldata 4 (Z.of_nat (length calldata));
        send_to_l1_inner rest caller
    else revert "L1 messenger: unknown selector".

Definition l1_messenger_hook : SystemHook :=
  contract_hook "L1 messenger hook called with constructor modifier"
    (λ request, negb (nominal_token_value request =? 0))
    (λ request is_static, l1_messenger_hook_inner (input request) (ecr_caller request) is_static).

(** ** The base token *)

(** Burns the value, which the token holds after the call's transfer. *)
Definition burn_nominal_token_value (nominal_token_value : Z) : M (SysState * Res) SystemError unit :=
  r ← attempt (update_account_nominal_token_balance EVM L2_BASE_TOKEN_ADDRESS nominal_token_value
                 true false);
  match r with
  | inr _ => mret tt
  | inl (SLeafUsage _) =>
      throw (LeafDefect (internal_error "L2 base token must have withdrawal amount"))
  | inl (SLeafRuntime e) => throw (LeafRuntime e)
  | inl (SLeafDefect e) => throw (LeafDefect e)
  | inl (SCascaded e) => match (e : Empty_set) with end
  end.

(** [result.map(|_| &[])]. *)
Definition discard {A} (result : string + A) : string + list Z :=
  match result with inl e => inl e | inr _ => inr [] end.

Definition nonzero (l : list Z) : bool := existsb (λ byte, negb (byte =? 0)) l.

Definition withdraw_invalid : string :=
  "L2 base token failure: withdraw called with invalid calldata".

(** The 128 bytes: offset, length, selector, receiver, amount, padding. *)
Definition withdrawal_message (l1_receiver : list Z) (nominal_token_value : Z) : list Z :=
  let m := splice (splice (repeat 0 128) 31 [32]) 63 [56] in
  let m := splice m 64 FINALIZE_ETH_WITHDRAWAL_SELECTOR in
  splice (splice m 68 l1_receiver) 88 (be_bytes 32 nominal_token_value).

Definition withdraw (calldata : list Z) (calldata_len caller nominal_token_value : Z)
    (is_static : bool) : HM (list Z) :=
  if is_static then revert "L2 base token failure: withdraw called with static context"
  else if calldata_len <? 36 then revert withdraw_invalid
  else
    burn_nominal_token_value nominal_token_value ;;
    padding ← range calldata 4 16;
    if nonzero padding then revert withdraw_invalid
    else
      l1_receiver ← range calldata 16 36;
      result ← send_to_l1_inner (withdrawal_message l1_receiver nominal_token_value)
                 L2_BASE_TOKEN_ADDRESS;
      receiver ← from_be_slice l1_receiver;
      emit_event L2_BASE_TOKEN_ADDRESS
        [WITHDRAWAL_TOPIC; be_bytes 32 (b160_to_u256 caller); be_bytes 32 receiver]
        (be_bytes 32 nominal_token_value) ;;
      mret (discard result).

Definition withdraw_message_invalid : string :=
  "L2 base token failure: withdrawWithMessage called with invalid calldata".

(** Rounding up to whole words, in [w] bits. *)
Definition pad_to_words (w len : Z) : Z :=
  if negb (len mod 32 =? 0) then wrap w (len + (32 - len mod 32)) else len.

Definition native_copy_cost (len : Z) : Res :=
  from_native (from_computational
    (saturating_add 64 COPY_BASE_NATIVE_COST (saturating_mul 64 COPY_BYTE_NATIVE_COST len))).

(** A vector holds at most [isize::MAX] bytes: asking for more is a panic, "capacity
    overflow". *)
Definition isize_max : Z := 2 ^ (usize_bits - 1) - 1.
Definition with_capacity {S E} (capacity : Z) : M S E unit := assert_that (capacity <=? isize_max).

(** [message.extend(repeat_n(0u8, total - message.len()))].  The difference wraps when
    the message is longer than [total], and the vector then has no room for so many. *)
Definition zero_fill {S E} (total : Z) (message : list Z) : M S E (list Z) :=
  let count := wrap usize_bits (total - Z.of_nat (length message)) in
  with_capacity (Z.of_nat (length message) + count) ;;
  mret (message ++ repeat 0 (Z.to_nat count)).

Definition withdrawal_with_message {S E} (message_length abi_encoded_message_length caller : Z)
    (l1_receiver additional_data : list Z) (nominal_token_value : Z) : M S E (list Z) :=
  with_capacity (wrap usize_bits (abi_encoded_message_length + 32)) ;;
  let m := splice (splice (repeat 0 64) 31 [32]) 32 (be_bytes 32 message_length) in
  zero_fill abi_encoded_message_length
    (m ++ FINALIZE_ETH_WITHDRAWAL_SELECTOR ++ l1_receiver ++ be_bytes 32 nominal_token_value
       ++ be_bytes 20 caller ++ additional_data).

Definition withdrawal_event_data {S E} (abi_encoded_event_length : Z) (additional_data : list Z)
    (nominal_token_value : Z) : M S E (list Z) :=
  with_capacity (wrap usize_bits (abi_encoded_event_length + 32)) ;;
  let d := be_bytes 32 nominal_token_value ++ repeat 0 64 in
  let d := splice d 63 [64] in
  let d := splice d 64 (be_bytes 32 (Z.of_nat (length additional_data))) in
  zero_fill abi_encoded_event_length (d ++ additional_data).

(** What follows the decoding of the arguments. *)
Definition send_withdrawal_with_message (calldata additional_data : list Z)
    (length caller nominal_token_value : Z) : HM (list Z) :=
  burn_nominal_token_value nominal_token_value ;;
  let message_length := wrap 32 (76 + length) in
  let abi_encoded_message_length := pad_to_words 32 (wrap 32 (64 + message_length)) in
  charge_io (native_copy_cost abi_encoded_message_length) ;;
  l1_receiver ← range calldata 16 36;
  message ← withdrawal_with_message message_length abi_encoded_message_length caller l1_receiver
              additional_data nominal_token_value;
  result ← send_to_l1_inner message L2_BASE_TOKEN_ADDRESS;
  receiver ← from_be_slice l1_receiver;
  let abi_encoded_event_length :=
    pad_to_words usize_bits (wrap usize_bits (96 + Z.of_nat (List.length additional_data))) in
  charge_io (native_copy_cost abi_encoded_event_length) ;;
  event_data ← withdrawal_event_data abi_encoded_event_length additional_data nominal_token_value;
  emit_event L2_BASE_TOKEN_ADDRESS
    [WITHDRAWAL_WITH_MESSAGE_TOPIC; be_bytes 32 (b160_to_u256 caller); be_bytes 32 receiver]
    event_data ;;
  mret (discard result).

Definition withdraw_with_message (calldata : list Z) (calldata_len caller nominal_token_value : Z)
    (is_static : bool) : HM (list Z) :=
  if is_static then revert "L2 base token failure: withdrawWithMessage called with static context"
  else if calldata_len <? 68 then revert withdraw_message_invalid
  else
    offset_bytes ← range calldata 36 68;
    offset ← from_be_slice offset_bytes;
    or_revert (u_try_into_u32 offset) withdraw_message_invalid (λ message_offset,
    or_revert (checked_add 32 message_offset 36) withdraw_message_invalid (λ length_encoding_end,
    if calldata_len <? length_encoding_end then revert withdraw_message_invalid
    else
      length_bytes ← range calldata (length_encoding_end - 32) length_encoding_end;
      length_word ← from_be_slice length_bytes;
      or_revert (u_try_into_u32 length_word) withdraw_message_invalid (λ length,
      or_revert (checked_add 32 length_encoding_end length) withdraw_message_invalid (λ message_end,
      if calldata_len <? message_end then revert withdraw_message_invalid
      else
        additional_data ← range calldata length_encoding_end message_end;
        padding ← range calldata 4 16;
        if nonzero padding then revert withdraw_message_invalid
        else send_withdrawal_with_message calldata additional_data length caller
               nominal_token_value)))).

Definition l2_base_token_hook_inner (calldata : list Z) (caller nominal_token_value : Z)
    (is_static : bool) : HM (list Z) :=
  charge_native_and_ergs HOOK_BASE_NATIVE_COST HOOK_BASE_ERGS_COST ;;
  if Z.of_nat (length calldata) <? 4 then
    revert "L2 base token failure: calldata shorter than selector length"
  else
    selector ← range calldata 0 4;
    calldata_len ← lift_opt (LeafDefect (internal_error "Calldata is larger than u32"))
                     (checked 32 (Z.of_nat (length calldata)));
    if bool_decide (selector = WITHDRAW_SELECTOR) then
      withdraw calldata calldata_len caller nominal_token_value is_static
    else if bool_decide (selector = WITHDRAW_WITH_MESSAGE_SELECTOR) then
      withdraw_with_message calldata calldata_len caller nominal_token_value is_static
    else revert "L2 base token: unknown selector".

Definition l2_base_token_hook : SystemHook :=
  contract_hook "L2 base token hook called with constructor modifier" (λ _, false)
    (λ request is_static, l2_base_token_hook_inner (input request) (ecr_caller request)
       (nominal_token_value request) is_static).

(** ** The contract deployer *)

Definition deployer_invalid : string :=
  "Contract deployer failure: setBytecodeDetailsEVM called with invalid calldata".

Definition contract_deployer_hook_inner (calldata : list Z) (caller : Z) (is_static : bool)
    : HM (list Z) :=
  charge_native_and_ergs HOOK_BASE_NATIVE_COST HOOK_BASE_ERGS_COST ;;
  if Z.of_nat (length calldata) <? 4 then
    revert "Contract deployer hook failure: calldata shorter than selector length"
  else
    selector ← range calldata 0 4;
    if bool_decide (selector = SET_EVM_BYTECODE_DETAILS) then
      if is_static then
        revert "Contract deployer failure: setBytecodeDetailsEVM called with static context"
      else if negb (caller =? L2_COMPLEX_UPGRADER_ADDRESS) then
        revert "Contract deployer failure: unauthorized caller for setBytecodeDetailsEVM"
      else
        calldata ← range calldata 4 (Z.of_nat (length calldata));
        if Z.of_nat (length calldata) <? 128 then revert deployer_invalid
        else
          padding ← range calldata 0 12;
          if nonzero padding then revert deployer_invalid
          else
            address_bytes ← range calldata 12 32;
            address ← lift_opt (LeafDefect (internal_error "Failed to create B160 from 20 byte array"))
                        (b160_try_from_be_slice address_bytes);
            bytecode_hash ← range calldata 32 64;
            length_bytes ← range calldata 64 96;
            length_word ← from_be_slice length_bytes;
            or_revert (u_try_into_u32 length_word) deployer_invalid (λ bytecode_length,
            observable_bytecode_hash ← range calldata 96 128;
            if MAX_CODE_SIZE <? bytecode_length then
              revert "Contract deployer failure: setBytecodeDetailsEVM called with invalid bytecode(length > 24576)"
            else
              charge_io (from_ergs (set_bytecode_details_extra_ergs bytecode_length)) ;;
              set_bytecode_details address EVM bytecode_hash bytecode_length 0
                observable_bytecode_hash bytecode_length ;;
              mret (inr []))
    else revert "Contract deployer hook: unknown selector".

Definition contract_deployer_hook : SystemHook :=
  contract_hook "Contract deployer hook called with constructor modifier"
    (λ request, negb (nominal_token_value request =? 0))
    (λ request is_static, contract_deployer_hook_inner (input request) (ecr_caller request) is_static).

(** ** Installation *)

(** The mocked functions for the test suite: only the length of the input counts. *)
Inductive MockedSystemFunctionError : Type := InvalidInputLength.
Definition mocked (len : Z) : SystemFunction MockedSystemFunctionError := λ input,
  if negb (Z.of_nat (length input) =? len) then throw (SLeafUsage InvalidInputLength) else mret tt.
Definition Blake2f_mock : SystemFunction MockedSystemFunctionError := mocked 213.
Definition PointEvaluation_mock : SystemFunction MockedSystemFunctionError := mocked 192.

(** A function of the system, with its own type of interface errors. *)
Inductive Precompile : Type := precompile (I : Type) (invoke : SystemFunction I).
#[global] Arguments precompile {I} invoke.

(** The system functions that become precompiles; [ModExp] is of [SystemFunctionsExt]. *)
Record SystemFunctions : Type := {
  Secp256k1ECRecover : Precompile;
  Sha256 : Precompile;
  RipeMd160 : Precompile;
  ModExp : Precompile;
  Bn254Add : Precompile;
  Bn254Mul : Precompile;
  Bn254PairingCheck : Precompile;
  PointEvaluation : Precompile;
  P256Verify : Precompile
}.

(** [add_precompile] and [add_precompile_ext]. *)
Definition add_precompile (address_low : Z) (P : Precompile) : M HooksStorage Empty_set unit :=
  match P with precompile invoke => add_hook address_low (pure_system_function_hook_impl invoke) end.

Context {HF : HookFeatures}.

Definition add_precompiles (S : SystemFunctions) : M HooksStorage Empty_set unit :=
  add_precompile ECRECOVER_HOOK_ADDRESS_LOW (Secp256k1ECRecover S) ;;
  add_precompile SHA256_HOOK_ADDRESS_LOW (Sha256 S) ;;
  add_precompile RIPEMD160_HOOK_ADDRESS_LOW (RipeMd160 S) ;;
  add_precompile ID_HOOK_ADDRESS_LOW (precompile identity_precompile) ;;
  add_precompile MODEXP_HOOK_ADDRESS_LOW (ModExp S) ;;
  add_precompile ECADD_HOOK_ADDRESS_LOW (Bn254Add S) ;;
  add_precompile ECMUL_HOOK_ADDRESS_LOW (Bn254Mul S) ;;
  add_precompile ECPAIRING_HOOK_ADDRESS_LOW (Bn254PairingCheck S) ;;
  (if mock_unsupported_precompiles then
     add_precompile BLAKE2F_HOOK_ADDRESS_LOW (precompile Blake2f_mock) ;;
     (if negb point_eval_precompile then
        add_precompile POINT_EVAL_HOOK_ADDRESS_LOW (precompile PointEvaluation_mock)
      else mret tt)
   else mret tt) ;;
  (if point_eval_precompile then
     add_precompile POINT_EVAL_HOOK_ADDRESS_LOW (PointEvaluation S)
   else mret tt) ;;
  (if p256_precompile then
     add_precompile P256_VERIFY_PREHASH_HOOK_ADDRESS_LOW (P256Verify S)
   else mret tt).

Definition add_l1_messenger : M HooksStorage Empty_set unit :=
  add_hook L1_MESSENGER_ADDRESS_LOW l1_messenger_hook.
Definition add_l2_base_token : M HooksStorage Empty_set unit :=
  add_hook L2_BASE_TOKEN_ADDRESS_LOW l2_base_token_hook.
Definition add_contract_deployer : M HooksStorage Empty_set unit :=
  add_hook CONTRACT_DEPLOYER_ADDRESS_LOW contract_deployer_hook.

(** The hooks of [run_prepared]. *)
Definition system_functions (S : SystemFunctions) : M HooksStorage Empty_set unit :=
  add_precompiles S ;;
  (if negb disable_system_contracts then
     add_l1_messenger ;; add_l2_base_token ;; add_contract_deployer
   else mret tt).
End Hooks.
