(* ===== verification/HookTheorems.v ===== *)
(** * Theorems about the system hooks

    Every hook keeps the contract the call loop relies on ([hook_ok]): it does not
    panic, returns no more resources than it was given, fits its output into the
    return memory, and leaves the world alone in a static call.  Withdrawals send
    exactly the message the L1 side expects, and the contract deployer obeys one
    caller only. *)

From stdpp Require Import strings gmap.
From S2P Require Import Prelude Resources U256 SystemInterface SliceVec EvmConstants Gas EvmState.
From S2P Require Import EvmLogic EvmExec BootSystem IoLogic Hooks.

Create HintDb byte_lists discriminated.

(** The base token builds its messages in [u32] lengths and in vectors of at most
    [isize::MAX] bytes. *)
Definition hook_limit `{Usize} : Z := Z.min (2 ^ 32) (2 ^ (usize_bits - 1)) - 256.

Section Theorems.
Context {R : Ruint} {RS : RuintSpec} {UZ : Usize} {SYS : System} {LAWS : SystemLaws}
  {EXT : SystemExt} {XLAWS : SystemExtLaws} {IL : InputLimit}.

(** ** The contract of a hook *)

(** Bytes a call can have as its input. *)
Definition input_ok (l : list Z) : Prop := bytes_ok l ∧ Z.of_nat (length l) ≤ input_limit.

Record hook_request (req : ExternalCallRequest) : Prop := {
  hq_res : res_wf (available_resources req);
  hq_input : input_ok (input req);
  hq_value : is_u256 (nominal_token_value req);
  hq_caller : is_b160 (ecr_caller req)
}.

Definition hook_ok (hook : SystemHook) : Prop :=
  ∀ req ee mem sys, hook_request req →
    let '(o, sys') := hook req ee mem sys in
    later sys sys' ∧ (is_static_modifier (modifier req) = true → world sys' = world sys)
    ∧ match o with
      | Val (c, rest) =>
          res_wf (resources_returned c)
          ∧ res_le_both (resources_returned c) (available_resources req)
          ∧ (rest + length (result_bytes (ce_result c)) ≤ mem)%nat
          ∧ Forall is_u8 (result_bytes (ce_result c)) ∧ has_scratch_space (ce_result c) = false
      | Err e => e ≠ LeafRuntime OutOfErgs
      | Fault => False
      end.

Definition hooks_ok (hooks : HooksStorage) : Prop := map_Forall (λ _, hook_ok) hooks.

(** ** Rules for the inner functions *)

Abbreviation any := (λ _, True).

Lemma io_range {E} w (data : list Z) a b (X : E → Prop) :
  Forall is_u8 data → 0 ≤ a ≤ b → b ≤ Z.of_nat (length data) →
  io w (λ l, l = take (Z.to_nat (b - a)) (drop (Z.to_nat a) data) ∧ Forall is_u8 l
             ∧ Z.of_nat (length l) = b - a) X (range data a b).
Proof.
  intros Hd Hab Hb. unfold range.
  assert (slice data a (b - a) = Some (take (Z.to_nat (b - a)) (drop (Z.to_nat a) data))) as E1.
  { apply slice_Some. split_conj; try done; lia. }
  apply (io_expect _ _ _ _ _ E1). split; [done|]. split; [by apply Forall_take, Forall_drop|].
  rewrite length_take, length_drop. lia.
Qed.

Lemma io_from_be_slice {E} w (l : list Z) (X : E → Prop) :
  Forall is_u8 l → (length l ≤ 32)%nat →
  io w (λ v, v = of_be_bytes l ∧ is_u256 v) X (from_be_slice l).
Proof.
  intros Hl Hn. apply (io_expect _ _ (of_be_bytes l)); [by apply u_try_from_be_slice_spec|].
  split; [done|]. destruct (of_be_bytes_bound l Hl) as [H1 H2]. split; [done|].
  eapply Z.lt_le_trans; [exact H2|]. apply Z.pow_le_mono_r; lia.
Qed.

Lemma io_or_revert {A B} w (o : option A) msg (k : A → M (SysState * Res) SystemError (string + B))
    Q X :
  (∀ e, Q (inl e)) → (∀ a, o = Some a → io w Q X (k a)) → io w Q X (or_revert o msg k).
Proof. intros HQ Hk. destruct o; cbn [or_revert]; [by apply Hk|by apply io_ret]. Qed.

(** A result of an inner function is a revert or bytes. *)
Definition hook_bytes (r : string + list Z) : Prop :=
  match r with inl _ => True | inr l => Forall is_u8 l end.

Lemma io_revert w msg X : io w hook_bytes X (revert msg).
Proof. by apply io_ret. Qed.

Lemma io_charge_io w c : res_wf c → io w any any (charge_io c).
Proof. apply io_charge. Qed.

Lemma ergs_wf e : is_u64 (ergs_0 e) → res_wf (from_ergs e).
Proof. intros He. by split. Qed.

Lemma Ergs_add_u64 a b : is_u64 (ergs_0 (Ergs_add a b)).
Proof. by apply wrap_in_width. Qed.
Lemma Ergs_times_u64 a b : is_u64 (ergs_0 (Ergs_times a b)).
Proof. by apply wrap_in_width. Qed.

Lemma copy_cost_wf n : 0 ≤ n → res_wf (native_copy_cost n).
Proof.
  intros Hn. split; [done|]. unfold n_left, native_copy_cost, saturating_add, saturating_mul, in_width, umax.
  cbn -[Z.pow]. unfold COPY_BASE_NATIVE_COST, COPY_BYTE_NATIVE_COST. lia.
Qed.

Lemma any_io_ok {A} (m : M (SysState * Res) SystemError A) Q :
  io_ok Q m → io false Q any m.
Proof. apply io_of_ok. Qed.

Lemma io_hook_charge w : io w any any (charge_native_and_ergs HOOK_BASE_NATIVE_COST HOOK_BASE_ERGS_COST).
Proof. by apply io_charge. Qed.

Lemma bytes32_u8 l : is_bytes32 l → Forall is_u8 l.
Proof. by intros []. Qed.

Lemma send_to_l1_ok msg caller :
  Forall is_u8 msg → is_b160 caller →
  io false (λ r, match r with inl _ => True | inr h => is_bytes32 h end) any
    (send_to_l1_inner msg caller).
Proof.
  intros Hm Hc. unfold send_to_l1_inner.
  eapply io_bind; [by apply (io_lift_opt _ _ _ (λ n, n = Z.of_nat (length msg))); [|intros a [-> _]%checked_Some]|].
  intros n ->. destruct (Z.ltb_spec (Z.of_nat (length msg)) 32); [by apply io_ret|].
  eapply io_bind; [apply io_range; [done|lia|lia]|]. intros ob (_ & Hob & Hobl).
  eapply io_bind; [apply io_from_be_slice; [done|lia]|]. intros off [_ Hoff].
  apply io_or_revert; [done|]. intros mo Hmo. rewrite u_try_into_u32_spec in Hmo by done.
  apply checked_Some in Hmo as [_ Hmo].
  destruct (Z.eqb_spec mo 32) as [->|]; cbn [negb]; [|by apply io_ret].
  apply io_or_revert; [done|]. intros le Hle. apply checked_Some in Hle as [<- Hle].
  change (32 + 32) with 64 in *. destruct (Z.ltb_spec (Z.of_nat (length msg)) 64); [by apply io_ret|].
  eapply io_bind; [apply io_range; [done|lia|lia]|]. intros lb (_ & Hlb & Hlbl).
  eapply io_bind; [apply io_from_be_slice; [done|lia]|]. intros lw [_ Hlw].
  apply io_or_revert; [done|]. intros len Hlen. rewrite u_try_into_u32_spec in Hlen by done.
  apply checked_Some in Hlen as [_ Hlen].
  apply io_or_revert; [done|]. intros me Hme. apply checked_Some in Hme as [<- Hme].
  destruct (Z.ltb_spec (Z.of_nat (length msg)) (64 + len)); [by apply io_ret|].
  destruct (negb _); [by apply io_ret|]. unfold in_width in *.
  eapply io_bind; [apply io_range; [done|lia|lia]|]. intros m (_ & Hmb & _).
  eapply io_bind; [apply io_charge_io, ergs_wf, Ergs_add_u64|]. intros [] _.
  eapply io_bind; [apply any_io_ok, xl_l1_message|]. intros h Hh.
  eapply io_bind; [apply any_io_ok, sl_emit_event|]. intros [] _. by apply io_ret.
Qed.
Lemma hash_bytes w X (m : M (SysState * Res) SystemError (string + list Z)) :
  io w (λ r, match r with inl _ => True | inr h => is_bytes32 h end) X m → io w hook_bytes X m.
Proof. intros Hm. eapply io_conseq; [exact Hm| |done]. intros [e|h]; [done|apply bytes32_u8]. Qed.

Lemma l1_messenger_inner_ok calldata caller static :
  Forall is_u8 calldata → is_b160 caller →
  io static hook_bytes any (l1_messenger_hook_inner calldata caller static).
Proof.
  intros Hd Hc. unfold l1_messenger_hook_inner.
  eapply io_bind; [apply io_hook_charge|]. intros [] _.
  destruct (Z.ltb_spec (Z.of_nat (length calldata)) 4); [apply io_revert|].
  eapply io_bind; [apply io_range; [done|lia|lia]|]. intros sel _.
  destruct (bool_decide _); [|apply io_revert]. destruct static; [apply io_revert|].
  eapply io_bind; [apply io_range; [done|lia|lia]|]. intros rest (_ & Hr & _).
  by apply hash_bytes, send_to_l1_ok.
Qed.

Lemma burn_ok v : io false any any (burn_nominal_token_value v).
Proof.
  unfold burn_nominal_token_value. eapply io_bind; [apply io_attempt, io_of_ok, xl_update_balance|].
  intros [[e|e|e|[]]|old] _; first [by apply io_ret|by apply io_throw].
Qed.

Lemma splice_u8 data start bytes :
  Forall is_u8 data → Forall is_u8 bytes → Forall is_u8 (splice data start bytes).
Proof.
  intros Hd Hb. unfold splice. repeat (apply Forall_app; split); [by apply Forall_take|done|by apply Forall_drop].
Qed.

Lemma zeros_u8 n : Forall is_u8 (repeat 0 n).
Proof. apply Forall_forall. intros x Hx. apply list_elem_of_In, repeat_spec in Hx. by subst. Qed.

Lemma be_bytes_u8 n v : Forall is_u8 (be_bytes n v).
Proof. apply Forall_reverse, le_bytes_u8. Qed.

Lemma selector_u8 : Forall is_u8 FINALIZE_ETH_WITHDRAWAL_SELECTOR.
Proof. by repeat constructor. Qed.
#[local] Hint Resolve splice_u8 zeros_u8 be_bytes_u8 selector_u8 : byte_lists.

Lemma withdrawal_message_u8 l v : Forall is_u8 l → Forall is_u8 (withdrawal_message l v).
Proof.
  intros Hl. unfold withdrawal_message.
  repeat (apply splice_u8; [|first [done|by repeat constructor|by auto with byte_lists]]). apply zeros_u8.
Qed.

Lemma withdraw_ok calldata caller v static :
  Forall is_u8 calldata →
  io static hook_bytes any (withdraw calldata (Z.of_nat (length calldata)) caller v static).
Proof.
  intros Hd. unfold withdraw. destruct static; [apply io_revert|].
  destruct (Z.ltb_spec (Z.of_nat (length calldata)) 36); [apply io_revert|].
  eapply io_bind; [apply burn_ok|]. intros [] _.
  eapply io_bind; [apply io_range; [done|lia|lia]|]. intros pad _.
  destruct (nonzero pad); [apply io_revert|].
  eapply io_bind; [apply io_range; [done|lia|lia]|]. intros recv (_ & Hr & Hrl).
  eapply io_bind; [by apply send_to_l1_ok; [apply withdrawal_message_u8|]|]. intros r _.
  eapply io_bind; [apply io_from_be_slice; [done|lia]|]. intros rv _.
  eapply io_bind; [apply any_io_ok, sl_emit_event|]. intros [] _. apply io_ret; destruct r; by constructor.
Qed.

Lemma with_capacity_run {S E} n (s : S) :
  n < 2 ^ (usize_bits - 1) → with_capacity n s = (Val tt : outcome E unit, s).
Proof.
  intros Hn. unfold with_capacity, isize_max. by rewrite (proj2 (Z.leb_le _ _)) by lia.
Qed.

Lemma isize_usize : 2 ^ usize_bits = 2 * 2 ^ (usize_bits - 1).
Proof. pose proof usize_bits_pos. rewrite <- Z.pow_succ_r by lia. f_equal. lia. Qed.

(** The rest of the last word, in a vector that has room for it. *)
Lemma zero_fill_run {S E} total message (s : S) :
  Z.of_nat (length message) ≤ total → total < 2 ^ (usize_bits - 1) →
  zero_fill total message s
  = (Val (message ++ repeat 0 (Z.to_nat (total - Z.of_nat (length message)))) : outcome E (list Z), s).
Proof.
  intros H1 H2. unfold zero_fill. pose proof isize_usize. cbv zeta.
  rewrite wrap_small by (unfold in_width; lia).
  erewrite bind_val by (apply with_capacity_run; lia). done.
Qed.

Lemma io_run {A E} w (Q : A → Prop) (X : E → Prop) (m : M (SysState * Res) E A) a :
  (∀ s, m s = (Val a, s)) → Q a → io w Q X m.
Proof. intros Hm Ha s Hs. rewrite Hm. by split_conj. Qed.

Lemma deployer_inner_ok calldata caller static :
  Forall is_u8 calldata →
  io static hook_bytes any (contract_deployer_hook_inner calldata caller static).
Proof.
  intros Hd. unfold contract_deployer_hook_inner.
  eapply io_bind; [apply io_hook_charge|]. intros [] _.
  destruct (Z.ltb_spec (Z.of_nat (length calldata)) 4); [apply io_revert|].
  eapply io_bind; [apply io_range; [done|lia|lia]|]. intros sel _.
  destruct (bool_decide _); [|apply io_revert]. destruct static; [apply io_revert|].
  destruct (negb _); [apply io_revert|].
  eapply io_bind; [apply io_range; [done|lia|lia]|]. intros cd (_ & Hcd & Hcdl).
  destruct (Z.ltb_spec (Z.of_nat (length cd)) 128); [apply io_revert|].
  eapply io_bind; [apply io_range; [done|lia|lia]|]. intros pad _.
  destruct (nonzero pad); [apply io_revert|].
  eapply io_bind; [apply io_range; [done|lia|lia]|]. intros ab _.
  eapply io_bind; [by apply (io_lift_opt _ _ _ any)|]. intros addr _.
  eapply io_bind; [apply io_range; [done|lia|lia]|]. intros h1 _.
  eapply io_bind; [apply io_range; [done|lia|lia]|]. intros lb (_ & Hlb & Hlbl).
  eapply io_bind; [apply io_from_be_slice; [done|lia]|]. intros lw [_ Hlw].
  apply io_or_revert; [done|]. intros len _.
  eapply io_bind; [apply io_range; [done|lia|lia]|]. intros h2 _.
  destruct (MAX_CODE_SIZE <? len); [apply io_revert|].
  eapply io_bind; [apply io_charge_io, ergs_wf, Ergs_times_u64|]. intros [] _.
  eapply io_bind; [apply any_io_ok, xl_set_bytecode|]. intros [] _. by apply io_ret; constructor.
Qed.

(** ** From inner functions to hooks *)

Lemma failed_hook_ok req mem (sys : SysState) (r : Res) :
  res_wf r → res_le_both r (available_resources req) →
  res_wf (resources_returned (make_error_return_state r))
  ∧ res_le_both (resources_returned (make_error_return_state r)) (available_resources req)
  ∧ (mem + length (result_bytes (ce_result (make_error_return_state r))) ≤ mem)%nat
  ∧ Forall is_u8 (result_bytes (ce_result (make_error_return_state r)))
  ∧ has_scratch_space (ce_result (make_error_return_state r)) = false.
Proof. intros Hr Hle. cbn. split_conj; try done. lia. Qed.

Lemma contract_hook_ok msg refused inner :
  (∀ req static, hook_request req → io static hook_bytes any (inner req static)) →
  hook_ok (contract_hook msg refused inner).
Proof.
  intros Hinner req ee mem sys Hq. unfold contract_hook. pose proof (hq_res _ Hq) as Hr.
  assert (∀ static, (is_static_modifier (modifier req) = true → static = true) →
    let '(o, sys') := hook_return req mem (inner req static) sys in
    later sys sys' ∧ (is_static_modifier (modifier req) = true → world sys' = world sys)
    ∧ match o with
      | Val (c, rest) =>
          res_wf (resources_returned c)
          ∧ res_le_both (resources_returned c) (available_resources req)
          ∧ (rest + length (result_bytes (ce_result c)) ≤ mem)%nat
          ∧ Forall is_u8 (result_bytes (ce_result c)) ∧ has_scratch_space (ce_result c) = false
      | Err e => e ≠ LeafRuntime OutOfErgs
      | Fault => False
      end) as Hret.
  { intros static Hst. unfold hook_return.
    destruct (Hinner req static Hq (sys, available_resources req) Hr) as (H1 & H2 & H3 & H4 & H5).
    destruct (inner _ _ _) as [[[e|d]|[e|[e|]]|] [sys' r]]; cbn [fst snd] in *; try done.
    - split; [done|]. split; [auto|]. by apply failed_hook_ok.
    - cbn [hook_bytes] in H5. unfold heap_extend. cbn [heap_data heap_cap app length].
      destruct (decide _) as [Hfits|_]; [|by split_conj; auto].
      cbn. split; [done|]. split; [auto|]. split_conj; try done. cbn in Hfits. lia.
    - by split_conj; auto.
    - by split_conj; auto.
    - split; [done|]. split; [auto|]. by apply failed_hook_ok. }
  pose proof (failed_hook_ok req mem sys _ Hr (reflexivity _)) as Hfail.
  destruct (modifier req) eqn:Em; cbn [hook_context]; try (by split_conj);
    try (destruct (refused req); [by split_conj|by apply Hret]).
Qed.

(** What the wrapper asks of a system function: no panic, no resources created,
    bytes within the capacity, and, being pure, the world as it was. *)
Definition function_ok {I} (invoke : SystemFunction I) : Prop :=
  ∀ input sys r mem, bytes_ok input → res_wf r →
    let '(o, (sys', r', v)) := invoke input (sys, r, mkHeap mem []) in
    later sys sys' ∧ world sys' = world sys ∧ res_wf r' ∧ res_le_both r' r
    ∧ Forall is_u8 (heap_data v) ∧ (length (heap_data v) ≤ heap_cap v)%nat ∧ heap_cap v = mem
    ∧ o ≠ Fault.

Lemma pure_hook_ok {I} (invoke : SystemFunction I) :
  function_ok invoke → hook_ok (pure_system_function_hook_impl invoke).
Proof.
  intros Hf req ee mem sys Hq. unfold pure_system_function_hook_impl.
  destruct (bool_decide _); [by split_conj|].
  pose proof (Hf (input req) sys (available_resources req) mem (proj1 (hq_input _ Hq)) (hq_res _ Hq)) as H.
  destruct (invoke _ _) as [o [[sys' r] v]]. destruct H as (H1 & H2 & H3 & H4 & H5 & H6 & <- & H8).
  destruct o as [[]|e|]; [| |done].
  - cbn. split_conj; try done. lia.
  - assert (res_wf (exhaust_ergs r) ∧ res_le_both (exhaust_ergs r) r) as [He Hle] by by apply exhaust_le.
    destruct (root_cause_with no_cascade e) as [[e'|]|e'|]; cbn; split_conj; try done; try lia;
      (etransitivity; [apply Hle|apply H4]).
Qed.

Lemma identity_ok : function_ok identity_precompile.
Proof.
  intros src sys r mem [Hs Hlen] Hr. unfold identity_precompile.
  set (cost := from_ergs_and_native _ _).
  assert (res_wf cost) as Hc.
  { split; [apply Ergs_add_u64|by apply wrap_in_width]. }
  destruct (charge_le r cost Hr Hc) as [Hw Hle]. pose proof (charge_no_fault r cost Hr Hc) as Hf.
  unfold mbind, M_bind, zoom, map_err. cbn [fst snd].
  destruct (charge cost r) as [[[]|e|] r']; cbn [fst snd] in *; [| |done].
  - unfold heap_extend. cbn. destruct (decide _); split_conj; try done; cbn; lia.
  - split_conj; try done. cbn. lia.
Qed.

(** ** What is sent to L1 *)

Lemma range_app {S E} (l1 l2 l3 : list Z) a b (s : S) :
  a = Z.of_nat (length l1) → b = a + Z.of_nat (length l2) →
  range (l1 ++ l2 ++ l3) a b s = (Val l2 : outcome E (list Z), s).
Proof.
  intros -> ->. unfold range.
  assert (slice (l1 ++ l2 ++ l3) (Z.of_nat (length l1))
            (Z.of_nat (length l1) + Z.of_nat (length l2) - Z.of_nat (length l1)) = Some l2) as ->; [|done].
  apply slice_Some. rewrite !length_app. split_conj; try lia.
  replace (Z.of_nat (length l1) + Z.of_nat (length l2) - Z.of_nat (length l1))
    with (Z.of_nat (length l2)) by lia.
  by rewrite !Nat2Z.id, drop_app_length, take_app_length.
Qed.

Lemma from_be_slice_run {S E} n v (s : S) :
  (n ≤ 32)%nat → 0 ≤ v < 2 ^ (8 * Z.of_nat n) →
  from_be_slice (be_bytes n v) s = (Val v : outcome E Z, s).
Proof.
  intros Hn Hv. unfold from_be_slice.
  rewrite u_try_from_be_slice_spec by (apply be_bytes_u8 || by rewrite length_be_bytes).
  by rewrite of_be_bytes_be_bytes, Z.mod_small.
Qed.

(** The ABI encoding of one argument of type [bytes], with [pad] bytes of padding. *)
Definition abi_bytes (message : list Z) (pad : nat) : list Z :=
  be_bytes 32 32 ++ be_bytes 32 (Z.of_nat (length message)) ++ message ++ repeat 0 pad.

Lemma abi_bytes_length message pad :
  Z.of_nat (length (abi_bytes message pad)) = 64 + Z.of_nat (length message) + Z.of_nat pad.
Proof. unfold abi_bytes. rewrite !length_app, !length_be_bytes, repeat_length. lia. Qed.

(** The effects of a message: the charge, the message itself, and the event. *)
Definition message_effects (message abi : list Z) (caller : Z)
    : M (SysState * Res) SystemError (string + list Z) :=
  charge_io (from_ergs (l1_message_ergs_cost (Z.of_nat (length message)))) ;;
  message_hash ← emit_l1_message NoEE caller message;
  emit_event L1_MESSENGER_ADDRESS
    [L1_MESSAGE_SENT_TOPIC; be_bytes 32 (b160_to_u256 caller); message_hash] abi ;;
  mret (inr message_hash).

Lemma word32_u256 x : 0 ≤ x < 2 ^ 32 → is_u256 x.
Proof. intros [H1 H2]. split; [done|]. eapply Z.lt_trans; [exact H2|]. done. Qed.

Lemma send_to_l1_abi message pad caller s :
  64 + Z.of_nat (length message) + Z.of_nat pad < 2 ^ 32 →
  (64 + Z.of_nat (length message) + Z.of_nat pad) mod 32 = 0 →
  send_to_l1_inner (abi_bytes message pad) caller s
  = message_effects message (abi_bytes message pad) caller s.
Proof.
  intros Hlen Hmod. pose proof (abi_bytes_length message pad) as Hl.
  set (n := Z.of_nat (length message)) in *. unfold send_to_l1_inner.
  rewrite Hl, checked_in by (unfold in_width; lia). erewrite bind_val by done.
  destruct (Z.ltb_spec (64 + n + Z.of_nat pad) 32); [lia|].
  rewrite (bind_val _ _ s (be_bytes 32 32) s)
    by (apply (range_app [] (be_bytes 32 32)); by rewrite ?length_be_bytes).
  rewrite (bind_val _ _ s 32 s) by (apply from_be_slice_run; [lia|done]).
  rewrite u_try_into_u32_spec, checked_in by done. cbn [or_revert].
  change (negb (32 =? 32)) with false. change (checked_add 32 32 32) with (Some 64).
  cbn [or_revert]. destruct (Z.ltb_spec (64 + n + Z.of_nat pad) 64); [lia|].
  rewrite (bind_val _ _ s (be_bytes 32 n) s)
    by (apply (range_app (be_bytes 32 32)); by rewrite ?length_be_bytes).
  assert (is_u256 n) as Hn by (apply word32_u256; lia).
  rewrite (bind_val _ _ s n s) by (apply from_be_slice_run; [lia|exact Hn]).
  rewrite u_try_into_u32_spec, checked_in by (done || (unfold in_width; lia)). cbn [or_revert].
  unfold checked_add. rewrite checked_in by (unfold in_width; lia). cbn [or_revert].
  destruct (Z.ltb_spec (64 + n + Z.of_nat pad) (64 + n)); [lia|]. rewrite Hmod.
  change (negb (0 =? 0)) with false. cbn [negb].
  rewrite (bind_val _ _ s message s); [done|].
  change (abi_bytes message pad) with
    (be_bytes 32 32 ++ be_bytes 32 n ++ message ++ repeat 0 pad). rewrite app_assoc.
  apply range_app; [by rewrite length_app, !length_be_bytes|lia].
Qed.

(** What L1 gets for a withdrawal: [finalizeEthWithdrawal], receiver and amount,
    and with a message also the sender and the data. *)
Definition l1_withdrawal (receiver : list Z) (amount : Z) : list Z :=
  FINALIZE_ETH_WITHDRAWAL_SELECTOR ++ receiver ++ be_bytes 32 amount.
Definition l1_withdrawal_with_message (receiver : list Z) (amount sender : Z) (data : list Z) : list Z :=
  l1_withdrawal receiver amount ++ be_bytes 20 sender ++ data.

Lemma splice_at {A} (l1 old l2 bytes : list A) start :
  start = Z.of_nat (length l1) → length old = length bytes →
  splice (l1 ++ old ++ l2) start bytes = l1 ++ bytes ++ l2.
Proof.
  intros -> Hl. unfold splice. rewrite Nat2Z.id, take_app_length. f_equal. f_equal.
  replace (length l1 + length bytes)%nat with (length (l1 ++ old)) by (rewrite length_app; lia).
  by rewrite app_assoc, drop_app_length.
Qed.

Lemma withdrawal_message_abi receiver amount :
  length receiver = 20%nat →
  withdrawal_message receiver amount = abi_bytes (l1_withdrawal receiver amount) 8.
Proof.
  intros Hr. unfold withdrawal_message.
  change (splice _ 64 FINALIZE_ETH_WITHDRAWAL_SELECTOR)
    with ((be_bytes 32 32 ++ be_bytes 32 56 ++ FINALIZE_ETH_WITHDRAWAL_SELECTOR)
          ++ repeat 0 20 ++ repeat 0 40).
  rewrite splice_at by done. change (repeat 0 40) with (repeat 0 32 ++ repeat 0 8).
  rewrite (app_assoc _ receiver). rewrite splice_at.
  2:{ by rewrite length_app, Hr. } 2:{ by rewrite length_be_bytes. }
  unfold abi_bytes, l1_withdrawal. rewrite !length_app, Hr, length_be_bytes.
  change (Z.of_nat (_ + _)) with 56. by rewrite <- !app_assoc.
Qed.

Lemma pad_to_words_spec w n :
  0 ≤ n → n + 31 < 2 ^ w → n ≤ pad_to_words w n < n + 32 ∧ pad_to_words w n mod 32 = 0.
Proof.
  intros Hn Hw. unfold pad_to_words. pose proof (Z.mod_pos_bound n 32 ltac:(lia)).
  destruct (Z.eqb_spec (n mod 32) 0); cbn [negb]; [lia|].
  rewrite wrap_small by (unfold in_width; lia). split; [lia|].
  pose proof (Z.div_mod n 32 ltac:(lia)).
  replace (n + (32 - n mod 32)) with ((n / 32 + 1) * 32) by lia. by apply Z.mod_mul.
Qed.

Lemma word_le_usize : 2 ^ 32 ≤ 2 ^ usize_bits.
Proof. pose proof usize_bits_pos. apply Z.pow_le_mono_r; lia. Qed.

Lemma length_with_message receiver amount sender data :
  length receiver = 20%nat →
  Z.of_nat (length (l1_withdrawal_with_message receiver amount sender data))
  = 76 + Z.of_nat (length data).
Proof.
  intros Hr. unfold l1_withdrawal_with_message, l1_withdrawal.
  rewrite !length_app, Hr, !length_be_bytes. cbn [length FINALIZE_ETH_WITHDRAWAL_SELECTOR]. lia.
Qed.

(** The data fits, with what the message and the event add, into the lengths and the
    vectors of the hook. *)
Definition data_fits (data : list Z) : Prop :=
  171 + Z.of_nat (length data) < 2 ^ 32 ∧ 203 + Z.of_nat (length data) < 2 ^ (usize_bits - 1).

Lemma withdrawal_with_message_abi {S E} receiver amount sender data (s : S) :
  length receiver = 20%nat → data_fits data →
  let n := Z.of_nat (length data) in
  let total := pad_to_words 32 (64 + (76 + n)) in
  withdrawal_with_message (76 + n) total sender receiver data amount s
  = (Val (abi_bytes (l1_withdrawal_with_message receiver amount sender data)
            (Z.to_nat (total - (140 + n)))) : outcome E (list Z), s).
Proof.
  intros Hr [Hn Hu] n total. pose proof isize_usize.
  destruct (pad_to_words_spec 32 (64 + (76 + n))) as [Ht _]; [lia|lia|]. fold total in Ht.
  pose proof (length_with_message receiver amount sender data Hr) as Hl. fold n in Hl, Hn, Hu.
  unfold withdrawal_with_message.
  erewrite bind_val by (apply with_capacity_run; rewrite wrap_small by (unfold in_width; lia); lia).
  change (splice (repeat 0 64) 31 [32]) with (be_bytes 32 32 ++ repeat 0 32 ++ []).
  cbv zeta. rewrite splice_at by (by rewrite ?length_be_bytes).
  assert (FINALIZE_ETH_WITHDRAWAL_SELECTOR ++ receiver ++ be_bytes 32 amount ++ be_bytes 20 sender ++ data
          = l1_withdrawal_with_message receiver amount sender data) as ->.
  { unfold l1_withdrawal_with_message, l1_withdrawal. by rewrite <- !app_assoc. }
  unfold abi_bytes. rewrite Hl, app_nil_r. rewrite zero_fill_run.
  - rewrite !length_app, !length_be_bytes, <- !app_assoc. repeat f_equal. lia.
  - rewrite !length_app, !length_be_bytes. lia.
  - lia.
Qed.

(** The data of the event: amount, offset, length and the padded data. *)
Definition event_abi (v : Z) (data : list Z) : list Z :=
  let n := Z.of_nat (length data) in
  be_bytes 32 v ++ be_bytes 32 64 ++ be_bytes 32 n ++ data
  ++ repeat 0 (Z.to_nat (pad_to_words usize_bits (96 + n) - (96 + n))).

Lemma withdrawal_event_abi {S E} v data (s : S) :
  data_fits data →
  withdrawal_event_data (pad_to_words usize_bits (96 + Z.of_nat (length data))) data v s
  = (Val (event_abi v data) : outcome E (list Z), s).
Proof.
  intros [Hn Hu]. unfold event_abi, withdrawal_event_data. set (n := Z.of_nat (length data)) in *.
  pose proof isize_usize. destruct (pad_to_words_spec usize_bits (96 + n)) as [He _]; [lia|lia|].
  erewrite bind_val by (apply with_capacity_run; rewrite wrap_small by (unfold in_width; lia); lia).
  cbv zeta. change (be_bytes 32 v ++ repeat 0 64) with (be_bytes 32 v ++ repeat 0 31 ++ [0] ++ repeat 0 32).
  rewrite (app_assoc (be_bytes 32 v)), splice_at by (by rewrite ?length_app, ?length_be_bytes).
  rewrite <- (app_nil_r (repeat 0 32)), (app_assoc (_ ++ _) [64]).
  rewrite splice_at by (by rewrite ?length_app, ?length_be_bytes, ?repeat_length).
  rewrite zero_fill_run; [|rewrite !length_app, !length_be_bytes, repeat_length; cbn [length]; lia|lia].
  rewrite app_nil_r, !length_app, !length_be_bytes, repeat_length. cbn [length].
  change (be_bytes 32 64) with (repeat 0 31 ++ [64]). rewrite <- !app_assoc. repeat f_equal. lia.
Qed.

(** The arguments of a call of the base token: a padded receiver, and what follows. *)
Definition token_calldata (selector receiver rest : list Z) : list Z :=
  selector ++ repeat 0 12 ++ receiver ++ rest.

(** The data of the two events. *)
Definition withdrawal_event (topic receiver data : list Z) (sender : Z)
    : M (SysState * Res) SystemError unit :=
  emit_event L2_BASE_TOKEN_ADDRESS
    [topic; be_bytes 32 (b160_to_u256 sender); be_bytes 32 (of_be_bytes receiver)] data.

Lemma token_ranges {S E} selector receiver rest (s : S) :
  length selector = 4%nat → length receiver = 20%nat →
  range (token_calldata selector receiver rest) 4 16 s = (Val (repeat 0 12) : outcome E _, s)
  ∧ range (token_calldata selector receiver rest) 16 36 s = (Val receiver : outcome E _, s).
Proof.
  intros Hs Hr. unfold token_calldata. split.
  - apply range_app; [by rewrite Hs|done].
  - rewrite (app_assoc selector). apply range_app; [by rewrite length_app, Hs|by rewrite Hr].
Qed.

Lemma from_receiver_run {S E} receiver (s : S) :
  Forall is_u8 receiver → length receiver = 20%nat →
  from_be_slice receiver s = (Val (of_be_bytes receiver) : outcome E Z, s).
Proof.
  intros Hu Hr. unfold from_be_slice. by rewrite u_try_from_be_slice_spec by (done || lia).
Qed.

Lemma bind_cong {S E A B} (m m' : M S E A) (k k' : A → M S E B) s :
  m s = m' s → (∀ a s', k a s' = k' a s') → (m ≫= k) s = (m' ≫= k') s.
Proof.
  intros Hm H. unfold mbind, M_bind. rewrite Hm. destruct (m' s) as [[a|e|] s']; [apply H|done|done].
Qed.

Lemma withdraw_run selector receiver rest caller v s :
  length selector = 4%nat → length receiver = 20%nat → Forall is_u8 receiver →
  let calldata := token_calldata selector receiver rest in
  withdraw calldata (Z.of_nat (length calldata)) caller v false s
  = (burn_nominal_token_value v ;;
     result ← message_effects (l1_withdrawal receiver v) (abi_bytes (l1_withdrawal receiver v) 8)
                L2_BASE_TOKEN_ADDRESS;
     withdrawal_event WITHDRAWAL_TOPIC receiver (be_bytes 32 v) caller ;;
     mret (discard result)) s.
Proof.
  intros Hs Hr Hu calldata. unfold withdraw.
  destruct (Z.ltb_spec (Z.of_nat (length calldata)) 36).
  { unfold calldata, token_calldata in *. rewrite !length_app, Hs, Hr, repeat_length in *. lia. }
  apply bind_cong; [done|]. intros [] s1.
  destruct (token_ranges (E:=SystemError) selector receiver rest s1 Hs Hr) as [H1 H2].
  rewrite (bind_val _ _ _ _ _ H1). change (nonzero (repeat 0 12)) with false. cbn match.
  rewrite (bind_val _ _ _ _ _ H2). rewrite withdrawal_message_abi by done.
  assert (Z.of_nat (length (l1_withdrawal receiver v)) = 56) as Hl.
  { unfold l1_withdrawal. by rewrite !length_app, Hr, length_be_bytes. }
  apply bind_cong; [apply send_to_l1_abi; rewrite Hl; first [lia|reflexivity]|]. intros r s2.
  by rewrite (bind_val _ _ _ _ _ (from_receiver_run receiver s2 Hu Hr)).
Qed.

(** The same with a message: [length] and [data] lie where the offset points. *)
Definition message_calldata (selector receiver gap data rest : list Z) : list Z :=
  token_calldata selector receiver
    (be_bytes 32 (64 + Z.of_nat (length gap)) ++ gap ++ be_bytes 32 (Z.of_nat (length data))
     ++ data ++ rest).

Definition withdrawal_abi (receiver : list Z) (v caller : Z) (data : list Z) : list Z :=
  abi_bytes (l1_withdrawal_with_message receiver v caller data)
    (Z.to_nat (pad_to_words 32 (140 + Z.of_nat (length data)) - (140 + Z.of_nat (length data)))).

Lemma send_withdrawal_run calldata receiver data caller v s :
  range (E:=SystemError) calldata 16 36 = mret (M:=M (SysState * Res) SystemError) receiver →
  length receiver = 20%nat → Forall is_u8 receiver → data_fits data →
  let n := Z.of_nat (length data) in
  send_withdrawal_with_message calldata data n caller v s
  = (burn_nominal_token_value v ;;
     charge_io (native_copy_cost (pad_to_words 32 (140 + n))) ;;
     result ← message_effects (l1_withdrawal_with_message receiver v caller data)
                (withdrawal_abi receiver v caller data) L2_BASE_TOKEN_ADDRESS;
     charge_io (native_copy_cost (pad_to_words usize_bits (96 + n))) ;;
     withdrawal_event WITHDRAWAL_WITH_MESSAGE_TOPIC receiver (event_abi v data) caller ;;
     mret (discard result)) s.
Proof.
  intros Hrange Hr Hu Hfit n. pose proof isize_usize as Hus. pose proof Hfit as [Hn Hi]. fold n in Hn, Hi.
  unfold send_withdrawal_with_message.
  rewrite !(wrap_small 32) by (unfold in_width; lia).
  rewrite (wrap_small usize_bits) by (unfold in_width; lia).
  replace (64 + (76 + n)) with (140 + n) by lia.
  apply bind_cong; [done|]. intros [] s1. apply bind_cong; [done|]. intros [] s2.
  rewrite Hrange. erewrite bind_val by done.
  pose proof (withdrawal_with_message_abi (E:=SystemError) receiver v caller data s2 Hr Hfit) as Habi.
  cbn zeta in Habi. fold n in Habi. replace (64 + (76 + n)) with (140 + n) in Habi by lia.
  rewrite (bind_val _ _ _ _ _ Habi). unfold withdrawal_abi. fold n.
  pose proof (length_with_message receiver v caller data Hr) as Hl. fold n in Hl.
  destruct (pad_to_words_spec 32 (140 + n)) as [Hp Hm]; [lia|lia|].
  apply bind_cong.
  { apply send_to_l1_abi; rewrite Hl, Z2Nat.id by lia; [lia|].
    by replace (64 + (76 + n) + (pad_to_words 32 (140 + n) - (140 + n)))
      with (pad_to_words 32 (140 + n)) by lia. }
  intros r s3. rewrite (bind_val _ _ _ _ _ (from_receiver_run receiver s3 Hu Hr)).
  apply bind_cong; [done|]. intros [] s4.
  by rewrite (bind_val _ _ _ _ _ (withdrawal_event_abi v data s4 Hfit)).
Qed.

Lemma withdraw_with_message_run selector receiver gap data rest caller v s :
  length selector = 4%nat → length receiver = 20%nat → Forall is_u8 receiver →
  let calldata := message_calldata selector receiver gap data rest in
  Z.of_nat (length calldata) < 2 ^ 32 →
  withdraw_with_message calldata (Z.of_nat (length calldata)) caller v false s
  = send_withdrawal_with_message calldata data (Z.of_nat (length data)) caller v s.
Proof.
  intros Hs Hr Hu calldata Hlen. set (n := Z.of_nat (length data)) in *.
  set (g := Z.of_nat (length gap)).
  set (head := selector ++ repeat 0 12 ++ receiver).
  assert (Z.of_nat (length head) = 36) as Hh.
  { unfold head. by rewrite !length_app, Hs, Hr, repeat_length. }
  assert (calldata = head ++ be_bytes 32 (64 + g) ++ gap ++ be_bytes 32 n ++ data ++ rest) as Hc.
  { unfold calldata, message_calldata, token_calldata, head. by rewrite <- !app_assoc. }
  assert (Z.of_nat (length calldata) = 100 + g + n + Z.of_nat (length rest)) as Hl.
  { rewrite Hc, !length_app, !length_be_bytes. lia. }
  unfold withdraw_with_message. rewrite Hl. set (total := 100 + g + n + Z.of_nat (length rest)) in *.
  destruct (Z.ltb_spec total 68); [lia|].
  rewrite (bind_val _ _ s (be_bytes 32 (64 + g)) s)
    by (rewrite Hc; apply range_app; rewrite ?length_be_bytes; lia).
  assert (is_u256 (64 + g)) as Hg by (apply word32_u256; lia).
  rewrite (bind_val _ _ s (64 + g) s) by (apply from_be_slice_run; [lia|exact Hg]).
  rewrite u_try_into_u32_spec, checked_in by (done || (unfold in_width; lia)). cbn [or_revert].
  unfold checked_add at 1. rewrite checked_in by (unfold in_width; lia). cbn [or_revert].
  destruct (Z.ltb_spec total (64 + g + 36)); [lia|].
  assert (is_u256 n) as Hn by (apply word32_u256; lia).
  rewrite (bind_val _ _ s (be_bytes 32 n) s).
  2:{ rewrite Hc, (app_assoc (be_bytes 32 (64 + g))), (app_assoc head).
      apply range_app; rewrite ?length_app, !length_be_bytes; lia. }
  rewrite (bind_val _ _ s n s) by (apply from_be_slice_run; [lia|exact Hn]).
  rewrite u_try_into_u32_spec, checked_in by (done || (unfold in_width; lia)). cbn [or_revert].
  unfold checked_add. rewrite checked_in by (unfold in_width; lia). cbn [or_revert].
  destruct (Z.ltb_spec total (64 + g + 36 + n)); [lia|].
  rewrite (bind_val _ _ s data s).
  2:{ rewrite Hc, (app_assoc gap), (app_assoc (be_bytes 32 (64 + g))), (app_assoc head).
      apply range_app; rewrite ?length_app, ?length_be_bytes; lia. }
  destruct (token_ranges (E:=SystemError) selector receiver
    (be_bytes 32 (64 + g) ++ gap ++ be_bytes 32 n ++ data ++ rest) s Hs Hr) as [Hpad _].
  by rewrite (bind_val _ _ _ _ _ Hpad).
Qed.

(** ** The base token *)

Lemma pad_to_words_nonneg w n : 0 ≤ w → 0 ≤ n → 0 ≤ pad_to_words w n.
Proof.
  intros Hw Hn. unfold pad_to_words. destruct (negb _); [|done]. by apply wrap_in_width.
Qed.

Lemma send_withdrawal_ok calldata data caller v :
  Forall is_u8 calldata → 36 ≤ Z.of_nat (length calldata) → Forall is_u8 data → data_fits data →
  io false hook_bytes any (send_withdrawal_with_message calldata data (Z.of_nat (length data)) caller v).
Proof.
  intros Hd Hl Had Hfit. unfold send_withdrawal_with_message. pose proof usize_bits_pos.
  pose proof isize_usize. pose proof Hfit as [Hn Hi].
  rewrite !(wrap_small 32) by (unfold in_width; lia).
  rewrite (wrap_small usize_bits) by (unfold in_width; lia).
  eapply io_bind; [apply burn_ok|]. intros [] _.
  eapply io_bind; [apply io_charge_io, copy_cost_wf, pad_to_words_nonneg; lia|].
  intros [] _. eapply io_bind; [apply io_range; [done|lia|lia]|]. intros recv (_ & Hr & Hrl).
  eapply io_bind.
  { eapply (io_run _ (Forall is_u8)); [intros s; apply withdrawal_with_message_abi; [lia|done]|].
    unfold abi_bytes, l1_withdrawal_with_message, l1_withdrawal.
    repeat (apply Forall_app; split); auto with byte_lists. }
  intros m Hm. eapply io_bind; [by apply send_to_l1_ok|].
  intros r _. eapply io_bind; [apply io_from_be_slice; [done|lia]|]. intros rv _.
  eapply io_bind; [apply io_charge_io, copy_cost_wf, pad_to_words_nonneg; lia|].
  intros [] _. eapply io_bind.
  { apply (io_run _ (Forall is_u8) _ _ (event_abi v data)); [intros s; by apply withdrawal_event_abi|].
    unfold event_abi. repeat (apply Forall_app; split); auto with byte_lists. }
  intros e _. eapply io_bind; [apply any_io_ok, sl_emit_event|]. intros [] _.
  apply io_ret; destruct r; by constructor.
Qed.

Lemma withdraw_with_message_ok calldata caller v static :
  Forall is_u8 calldata → Z.of_nat (length calldata) ≤ hook_limit →
  io static hook_bytes any
    (withdraw_with_message calldata (Z.of_nat (length calldata)) caller v static).
Proof.
  intros Hd Hlim. unfold withdraw_with_message. destruct static; [apply io_revert|].
  destruct (Z.ltb_spec (Z.of_nat (length calldata)) 68); [apply io_revert|].
  eapply io_bind; [apply io_range; [done|lia|lia]|]. intros ob (_ & Hob & Hobl).
  eapply io_bind; [apply io_from_be_slice; [done|lia]|]. intros off [_ Hoff].
  apply io_or_revert; [done|]. intros mo Hmo. rewrite u_try_into_u32_spec in Hmo by done.
  apply checked_Some in Hmo as [_ Hmo].
  apply io_or_revert; [done|]. intros le Hle. apply checked_Some in Hle as [<- Hle].
  destruct (Z.ltb_spec (Z.of_nat (length calldata)) (mo + 36)); [apply io_revert|].
  unfold in_width in *.
  eapply io_bind; [apply io_range; [done|lia|lia]|]. intros lb (_ & Hlb & Hlbl).
  eapply io_bind; [apply io_from_be_slice; [done|lia]|]. intros lw [_ Hlw].
  apply io_or_revert; [done|]. intros len Hlen. rewrite u_try_into_u32_spec in Hlen by done.
  apply checked_Some in Hlen as [_ Hlen].
  apply io_or_revert; [done|]. intros me Hme. apply checked_Some in Hme as [<- Hme].
  destruct (Z.ltb_spec (Z.of_nat (length calldata)) (mo + 36 + len)); [apply io_revert|].
  unfold in_width in *.
  eapply io_bind; [apply io_range; [done|lia|lia]|]. intros ad (_ & Had & Hadl).
  eapply io_bind; [apply io_range; [done|lia|lia]|]. intros pad _.
  destruct (nonzero pad); [apply io_revert|].
  replace len with (Z.of_nat (length ad)) by lia. apply send_withdrawal_ok; [done|lia|done|].
  unfold data_fits, hook_limit in *. lia.
Qed.

Lemma l2_base_token_inner_ok calldata caller v static :
  Forall is_u8 calldata → Z.of_nat (length calldata) ≤ hook_limit →
  io static hook_bytes any (l2_base_token_hook_inner calldata caller v static).
Proof.
  intros Hd Hlim. unfold l2_base_token_hook_inner.
  eapply io_bind; [apply io_hook_charge|]. intros [] _.
  destruct (Z.ltb_spec (Z.of_nat (length calldata)) 4); [apply io_revert|].
  eapply io_bind; [apply io_range; [done|lia|lia]|]. intros sel _.
  eapply io_bind; [by apply (io_lift_opt _ _ _ (λ n, n = Z.of_nat (length calldata))); [|intros a [-> _]%checked_Some]|].
  intros n ->. destruct (bool_decide _); [by apply withdraw_ok|].
  destruct (bool_decide _); [by apply withdraw_with_message_ok|apply io_revert].
Qed.

(** ** The theorems *)

Lemma mocked_ok len : function_ok (mocked len).
Proof.
  intros src sys r mem _ Hr. unfold mocked. destruct (negb _); cbn; split_conj; try done; lia.
Qed.

Definition precompile_ok (P : Precompile) : Prop :=
  match P with precompile invoke => function_ok invoke end.

Record functions_ok (S : SystemFunctions) : Prop := {
  fo_ecrecover : precompile_ok (Secp256k1ECRecover S);
  fo_sha256 : precompile_ok (Sha256 S);
  fo_ripemd : precompile_ok (RipeMd160 S);
  fo_modexp : precompile_ok (ModExp S);
  fo_ecadd : precompile_ok (Bn254Add S);
  fo_ecmul : precompile_ok (Bn254Mul S);
  fo_pairing : precompile_ok (Bn254PairingCheck S);
  fo_point : precompile_ok (PointEvaluation S);
  fo_p256 : precompile_ok (P256Verify S)
}.

(** From hooks at the addresses [used] to hooks at [used']. *)
Definition installed (used : list Z) (m : M HooksStorage Empty_set unit) (used' : list Z) : Prop :=
  ∀ hooks, hooks_ok hooks → (∀ a, a ∉ used → hooks !! a = None) →
    ∃ hooks', m hooks = (Val tt, hooks') ∧ hooks_ok hooks' ∧ (∀ a, a ∉ used' → hooks' !! a = None).

Lemma installed_bind l1 l2 l3 m m' :
  installed l1 m l2 → installed l2 m' l3 → installed l1 (m ;; m') l3.
Proof.
  intros H1 H2 hooks Hok Hn. destruct (H1 hooks Hok Hn) as (h1 & E & Hok1 & Hn1).
  rewrite (bind_val _ _ _ _ _ E). by apply H2.
Qed.

Lemma installed_skip l l' : l ⊆ l' → installed l (mret tt) l'.
Proof. intros Hl hooks Hok Hn. exists hooks. split; [done|]. split; [done|]. auto. Qed.

Lemma installed_hook l a hook : a ∉ l → hook_ok hook → installed l (add_hook a hook) (a :: l).
Proof.
  intros Ha Hh hooks Hok Hn. exists (<[a := hook]> hooks). split.
  - unfold add_hook, mbind, M_bind, gets, modify. cbn. by rewrite Hn.
  - split; [by apply (map_Forall_insert_2 (M:=gmap Z))|]. intros b [Hb Hb']%not_elem_of_cons.
    transitivity (hooks !! b); [by apply (lookup_insert_ne (M:=gmap Z))|by apply Hn].
Qed.

Lemma installed_precompile l a P : a ∉ l → precompile_ok P → installed l (add_precompile a P) (a :: l).
Proof. destruct P. intros Ha HP. by apply installed_hook, pure_hook_ok. Qed.

Lemma messenger_ok : hook_ok l1_messenger_hook.
Proof. apply contract_hook_ok. intros req static Hq. apply l1_messenger_inner_ok; apply Hq. Qed.
Lemma base_token_ok : input_limit ≤ hook_limit → hook_ok l2_base_token_hook.
Proof.
  intros Hlim. apply contract_hook_ok. intros req static Hq. destruct (hq_input _ Hq) as [[Hb _] Hl].
  apply l2_base_token_inner_ok; [done|lia].
Qed.
Lemma deployer_ok : hook_ok contract_deployer_hook.
Proof. apply contract_hook_ok. intros req static Hq. apply deployer_inner_ok, Hq. Qed.

Definition first_precompiles : list Z := [8; 7; 6; 5; 4; 3; 2; 1].
Definition all_precompiles : list Z := 0x100 :: 10 :: 9 :: first_precompiles.

Ltac is_new := by apply (bool_decide_unpack _).

(** The addresses that depend on features. *)
Lemma optional_installed `{HookFeatures} S :
  precompile_ok (PointEvaluation S) → precompile_ok (P256Verify S) →
  installed first_precompiles
    ((if mock_unsupported_precompiles then
        add_precompile BLAKE2F_HOOK_ADDRESS_LOW (precompile Blake2f_mock) ;;
        (if negb point_eval_precompile then
           add_precompile POINT_EVAL_HOOK_ADDRESS_LOW (precompile PointEvaluation_mock)
         else mret tt)
      else mret tt) ;;
     (if point_eval_precompile then
        add_precompile POINT_EVAL_HOOK_ADDRESS_LOW (PointEvaluation S)
      else mret tt) ;;
     (if p256_precompile then
        add_precompile P256_VERIFY_PREHASH_HOOK_ADDRESS_LOW (P256Verify S)
      else mret tt)) all_precompiles.
Proof.
  intros HP Hp.
  apply (installed_bind _ (if point_eval_precompile then 9 :: first_precompiles else 10 :: 9 :: first_precompiles)).
  - destruct mock_unsupported_precompiles, point_eval_precompile; cbn [negb];
      try (apply installed_skip; set_solver);
      (eapply (installed_bind _ (9 :: first_precompiles)); [apply installed_precompile; [is_new|apply mocked_ok]|]);
      [by apply installed_skip|apply installed_precompile; [is_new|apply mocked_ok]].
  - apply (installed_bind _ (10 :: 9 :: first_precompiles)).
    + destruct point_eval_precompile; [apply installed_precompile; [is_new|done]|by apply installed_skip].
    + destruct p256_precompile; [apply installed_precompile; [is_new|done]|apply installed_skip; set_solver].
Qed.

Lemma precompiles_installed `{HookFeatures} S :
  functions_ok S → installed [] (add_precompiles S) all_precompiles.
Proof.
  intros []. do 8 (eapply installed_bind; [apply installed_precompile; [is_new|done || apply identity_ok]|]).
  by apply optional_installed.
Qed.

Lemma contracts_installed :
  input_limit ≤ hook_limit →
  installed all_precompiles (add_l1_messenger ;; add_l2_base_token ;; add_contract_deployer)
    (CONTRACT_DEPLOYER_ADDRESS_LOW :: L2_BASE_TOKEN_ADDRESS_LOW :: L1_MESSENGER_ADDRESS_LOW :: all_precompiles).
Proof.
  intros Hlim. eapply installed_bind; [apply installed_hook; [is_new|apply messenger_ok]|].
  eapply installed_bind; [apply installed_hook; [is_new|by apply base_token_ok]|].
  apply installed_hook; [is_new|apply deployer_ok].
Qed.

Lemma system_functions_installed `{HookFeatures} (S : SystemFunctions) :
  functions_ok S → input_limit ≤ hook_limit ∨ disable_system_contracts = true →
  ∃ hooks, system_functions S new_in = (Val tt, hooks) ∧ hooks_ok hooks.
Proof.
  intros HS Hlim. destruct (precompiles_installed S HS new_in) as (h1 & E1 & Hok1 & Hn1);
    [apply (map_Forall_empty (M:=gmap Z))|done|].
  unfold system_functions. rewrite (bind_val _ _ _ _ _ E1).
  destruct disable_system_contracts; [by exists h1|].
  destruct Hlim as [Hlim|]; [|done].
  destruct (contracts_installed Hlim h1 Hok1 Hn1) as (h2 & E2 & Hok2 & _). by exists h2.
Qed.

(** C18: hooks keep their contract.  The set of hooks the bootloader installs, for
    any choice of features and with any well-behaved system functions, is installed
    without a panic; every hook in it can be called with any request whose input is, if
    the system contracts are there, at most [hook_limit] bytes: 4 GiB less 256, or 2 GiB
    less 256 where [usize] has 32 bits.  It does not panic, returns at most the resources
    it was given, fits its output into the return memory, reports running out of gas as
    a failed call, and leaves the world alone when the call is static. *)
Theorem hooks_safe `{HookFeatures} (S : SystemFunctions) :
  functions_ok S → input_limit ≤ hook_limit ∨ disable_system_contracts = true →
  ∃ hooks, system_functions S new_in = (Val tt, hooks) ∧ hooks_ok hooks.
Proof. apply system_functions_installed. Qed.


(** A message whose length with what is added to it wraps in 32 bits: [total] is then
    shorter than what was written, and filling up to it panics. *)
Lemma wrapped_message_panics {S E} total message (s : S) :
  0 ≤ total → total < Z.of_nat (length message) < 2 ^ (usize_bits - 1) →
  zero_fill total message s = (Fault : outcome E (list Z), s).
Proof.
  intros H0 H1. unfold zero_fill, with_capacity, isize_max. pose proof isize_usize. cbv zeta.
  assert (wrap usize_bits (total - Z.of_nat (length message))
          = total - Z.of_nat (length message) + 2 ^ usize_bits) as ->.
  { unfold wrap. rewrite <- (Z.mod_add _ 1) by (apply Z.pow_nonzero; pose proof usize_bits_pos; lia).
    rewrite Z.mul_1_l. apply Z.mod_small. lia. }
  by rewrite (proj2 (Z.leb_gt _ _)) by lia.
Qed.

(** Computations that leave the state of the system alone. *)
Definition detached {A} (m : M (SysState * Res) SystemError A) : Prop := ∀ s, (m s).2.1 = s.1.

Lemma detached_bind {A B} (m : M (SysState * Res) SystemError A) (k : A → M (SysState * Res) SystemError B) :
  detached m → (∀ a, detached (k a)) → detached (m ≫= k).
Proof.
  intros Hm Hk s. specialize (Hm s). unfold mbind, M_bind.
  destruct (m s) as [[a|e|] s1]; cbn in *; [|done|done]. by rewrite Hk.
Qed.

Lemma detached_range data a b : detached (range data a b).
Proof. intros s. unfold range. by destruct (slice _ _ _). Qed.

(** The inner function either reverts or has an authorised caller. *)
Lemma deployer_unauthorized calldata caller static s :
  caller ≠ L2_COMPLEX_UPGRADER_ADDRESS ∨ static = true →
  (contract_deployer_hook_inner calldata caller static s).2.1 = s.1
  ∧ ∀ d, (contract_deployer_hook_inner calldata caller static s).1 ≠ Val (inr d).
Proof.
  intros Hno. unfold contract_deployer_hook_inner, mbind, M_bind.
  assert ((charge_native_and_ergs HOOK_BASE_NATIVE_COST HOOK_BASE_ERGS_COST s).2.1 = s.1) as Hch.
  { unfold charge_native_and_ergs, zoom. by destruct (charge _ _). }
  destruct (charge_native_and_ergs _ _ s) as [[[]|e|] s1]; cbn [fst snd] in *; [|done|done].
  destruct (_ <? 4); [done|]. pose proof (detached_range calldata 0 4 s1) as Hr.
  destruct (range calldata 0 4 s1) as [[sel|e|] s2]; cbn [fst snd] in *; [|by rewrite Hr..].
  rewrite <- Hch, <- Hr. destruct (bool_decide _); [|done]. destruct static; [done|].
  destruct Hno as [Hno|]; [|done]. by rewrite (proj2 (Z.eqb_neq _ _) Hno).
Qed.

(** C20: the contract deployer obeys the upgrader only.  Called by anyone else, with
    a value, statically or by a delegated call, it changes nothing and does not
    succeed. *)
Theorem deployer_authorized req ee mem sys :
  ecr_caller req ≠ L2_COMPLEX_UPGRADER_ADDRESS ∨ nominal_token_value req ≠ 0
  ∨ hook_context (modifier req) ≠ HookPlain →
  (contract_deployer_hook req ee mem sys).2 = sys
  ∧ ∀ c rest rv, (contract_deployer_hook req ee mem sys).1 = Val (c, rest) →
      ce_result c ≠ Successful rv.
Proof.
  intros Hno. unfold contract_deployer_hook, contract_hook.
  assert (∀ static, ecr_caller req ≠ L2_COMPLEX_UPGRADER_ADDRESS ∨ static = true →
    (hook_return req mem (contract_deployer_hook_inner (input req) (ecr_caller req) static) sys).2 = sys
    ∧ ∀ c rest rv, (hook_return req mem
        (contract_deployer_hook_inner (input req) (ecr_caller req) static) sys).1 = Val (c, rest) →
      ce_result c ≠ Successful rv) as Hret.
  { intros static Hs. unfold hook_return.
    destruct (deployer_unauthorized (input req) (ecr_caller req) static
      (sys, available_resources req) Hs) as [H1 H2].
    destruct (contract_deployer_hook_inner _ _ _ _) as [[[e|d]|[e|[e|]]|] [sys' r]]; cbn in *;
      try (by subst; split; [|intros ??? [= <- <-]]); [|by subst..]. by destruct (H2 d). }
  destruct (hook_context (modifier req)) eqn:E; try (by split; [|intros ??? [= <- <-]]); try done.
  - destruct (negb _); [by split; [|intros ??? [= <- <-]]|]. apply Hret. auto.
  - destruct (Z.eqb_spec (nominal_token_value req) 0); cbn [negb];
      [|by split; [|intros ??? [= <- <-]]]. apply Hret. left. destruct Hno as [|[|]]; done.
Qed.

End Theorems.
