(* ===== verification/Runner.v ===== *)
(** * The call loop

    Models [basic_bootloader/src/bootloader/runner.rs] and [supported_ees.rs]: how a
    call request becomes a frame.  The callee is read and paid for in the caller's
    frame, resources are split, the checks of the environment run, a snapshot is
    taken, value moves, and then the request goes to a hook or to a new frame of the
    interpreter, which may make requests itself.

    The Rust functions call each other: [handle_requested_external_call] runs
    [execute_call], which runs the frame's loop, which calls
    [handle_requested_external_call] for the requests of the frame.  Here the inner
    functions take the handler as an argument, and the recursion and the loop spend
    one unit of [fuel] per call and per request.  Every request is made by a step of
    the interpreter and so costs native: [call_fuel] is always enough
    (RunnerTheorems.v). *)

From stdpp Require Import strings gmap.
From S2P Require Import Prelude Resources U256 SystemInterface SliceVec EvmConstants Gas EvmState.
From S2P Require Import EvmRun EvmFrame BootSystem Hooks BootloaderErrors.

Definition SPECIAL_ADDRESS_SPACE_BOUND : Z := 0x010000.
Definition EIP7702_DELEGATION_MARKER : list Z := [0xef; 0x01; 0x00].

Definition is_transfer_allowed (r : ExternalCallRequest) : bool :=
  match modifier r with
  | NoModifier | Constructor | ZKVMSystem | EVMCallcode | EVMCallcodeStatic => true
  | _ => false
  end.

Definition failed (r : CallResult) : bool :=
  match r with Failed _ | PreparationStepFailed => true | Successful _ => false end.

Definition return_values (r : CallResult) : ReturnValues :=
  match r with
  | PreparationStepFailed => ReturnValues_empty
  | Failed rv | Successful rv => rv
  end.

Definition set_available (r : Res) (req : ExternalCallRequest) : ExternalCallRequest :=
  mkCallRequest r (ergs_to_pass req) (ecr_caller req) (callee req) (callers_caller req)
    (modifier req) (input req) (nominal_token_value req) (call_scratch_space req).

Section Runner.
Context {R : Ruint} {UZ : Usize} {FT : Features} {SYS : System} {EXT : SystemExt}.

(** ** [SupportedEEVMState] *)

Definition wrap_evm (e : EvmSubsystemError) : EESubsystemError := SCascaded (WrappedEvmError e).
Definition unsupported {S A} : M S EESubsystemError A :=
  throw (SLeafUsage UnsupportedExecutionEnvironment).

Definition ee_calculate_resources_passed_in_external_call (ee_version : ExecutionEnvironmentType)
    (call_request : ExternalCallRequest) (props : CalleeAccountProperties)
    : M Res EESubsystemError Res :=
  match ee_version with
  | EVM => map_err wrap_evm (calculate_resources_passed_in_external_call call_request props)
  | NoEE => unsupported
  end.

Definition ee_create_initial {S} (ee_type : ExecutionEnvironmentType)
    : M S EESubsystemError Interpreter :=
  match ee_type with EVM => mret Interpreter_new | NoEE => unsupported end.

Definition ee_before_executing_frame (ee_version : ExecutionEnvironmentType)
    (frame_state : ExecutionEnvironmentLaunchParams) : M (SysState * Res) EESubsystemError bool :=
  match ee_version with
  | EVM => map_err wrap_evm (before_executing_frame frame_state)
  | NoEE => unsupported
  end.

(** ** Reading the callee *)

Definition parse_delegation (delegation : list Z) : outcome InternalError Z :=
  if negb (bool_decide (length delegation = length EIP7702_DELEGATION_MARKER + 20)%nat) then
    Err (internal_error "7702 delegation of incorrect length")
  else if negb (bool_decide (take 3 delegation = EIP7702_DELEGATION_MARKER)) then
    Err (internal_error "7702 delegation has invalid prefix")
  else
    match b160_try_from_be_slice (drop 3 delegation) with
    | Some address => Val address
    | None => Err (internal_error "7702 delegation has invalid address")
    end.

Definition lift_internal {S A} (o : outcome InternalError A) : M S SystemError A :=
  match o with Val a => mret a | Err e => throw (LeafDefect e) | Fault => fault end.

(** The code that runs is the delegate's, nonce and balance are the account's. *)
Definition callee_properties (account code : AccountData) : CalleeAccountProperties := {|
  cap_ee_type := ad_ee_version code;
  cap_nonce := ad_nonce account;
  cap_nominal_token_balance := ad_nominal_token_balance account;
  cap_bytecode := ad_bytecode code;
  cap_code_version := ad_code_version code;
  cap_unpadded_code_len := ad_unpadded_code_len code;
  cap_artifacts_len := ad_artifacts_len code
|}.

Definition read_callee_account_properties (caller_ee_type : ExecutionEnvironmentType)
    (call_request : ExternalCallRequest) : M (SysState * Res) SystemError CalleeAccountProperties :=
  account_properties ← read_account_properties caller_ee_type (callee call_request)
    [WithEeVersion; WithUnpaddedCodeLen; WithArtifactsLen; WithBytecode; WithNonce;
     WithNominalTokenBalance; WithCodeVersion; WithIsDelegated];
  if eip_7702 && ad_is_delegated account_properties
     && negb (bool_decide (modifier call_request = Constructor)) then
    delegation ← expect (slice (ad_bytecode account_properties) 0
                           (ad_unpadded_code_len account_properties));
    address ← lift_internal (parse_delegation delegation);
    delegate_properties ← read_account_properties caller_ee_type address
      [WithEeVersion; WithUnpaddedCodeLen; WithArtifactsLen; WithBytecode; WithCodeVersion];
    mret (callee_properties account_properties delegate_properties)
  else mret (callee_properties account_properties account_properties).

Inductive CallPreparationResult : Type :=
| PreparationSuccess (next_ee_type : ExecutionEnvironmentType)
    (external_call_launch_params : ExecutionEnvironmentLaunchParams)
    (resources_in_caller_frame : Res)
| PreparationOutOfErgs (resources_in_caller_frame : Res).

Abbreviation PM := (M SysState BootloaderSubsystemError).

(** A computation with access to the system, on a local variable for resources; its
    error is a value. *)
Definition local_io {A E} (r : Res) (m : M (SysState * Res) E A) : PM ((E + A) * Res) := λ sys,
  match m (sys, r) with
  | (Val a, (sys', r')) => (Val (inr a, r'), sys')
  | (Err e, (sys', r')) => (Val (inl e, r'), sys')
  | (Fault, (sys', _)) => (Fault, sys')
  end.

(** What the callee gets, and what stays in the caller's frame; [inl] is running out
    of ergs. *)
Definition split_resources (IS_ENTRY_FRAME : bool) (caller_ee_version : ExecutionEnvironmentType)
    (call_request : ExternalCallRequest) (props : CalleeAccountProperties)
    (resources_in_caller_frame : Res) : PM (Res + Res * Res) := λ sys,
  if negb IS_ENTRY_FRAME then
    match ee_calculate_resources_passed_in_external_call caller_ee_version call_request props
            resources_in_caller_frame with
    | (Val callee_resources, resources_in_caller_frame) =>
        let '(caller, callee) := give_native_to resources_in_caller_frame callee_resources in
        (Val (inr (callee, caller)), sys)
    | (Err x, resources_in_caller_frame) =>
        match ee_root_cause x with
        | RootRuntime OutOfErgs => (Val (inl resources_in_caller_frame), sys)
        | _ => (Err (SCascaded (WrappedEEError x)), sys)
        end
    | (Fault, _) => (Fault, sys)
    end
  else (Val (inr (resources_in_caller_frame, res_empty)), sys).

Definition read_callee_and_prepare_frame_state (IS_ENTRY_FRAME : bool)
    (caller_ee_version : ExecutionEnvironmentType) (call_request : ExternalCallRequest)
    (callstack_depth : Z) : PM CallPreparationResult :=
  let read := read_callee_account_properties caller_ee_version call_request in
  '(r, resources_in_caller_frame) ← local_io (available_resources call_request)
    (if IS_ENTRY_FRAME || bool_decide (modifier call_request = Constructor)
     then infinite_ergs read else read);
  match r with
  | inl (LeafRuntime OutOfErgs) => mret (PreparationOutOfErgs resources_in_caller_frame)
  | inl (LeafRuntime (FatalRuntime e)) => throw (SLeafRuntime (FatalRuntime e))
  | inl (LeafDefect e) => throw (SLeafDefect e)
  | inr callee_account_properties =>
      split ← split_resources IS_ENTRY_FRAME caller_ee_version call_request
                callee_account_properties resources_in_caller_frame;
      match split with
      | inl remaining => mret (PreparationOutOfErgs remaining)
      | inr (resources_for_callee_frame, resources_in_caller_frame) =>
          let next_ee_version :=
            if bool_decide (modifier call_request = Constructor) then ee_byte caller_ee_version
            else cap_ee_type callee_account_properties in
          match parse_ee_version_byte next_ee_version with
          | Val next_ee_type =>
              mret (PreparationSuccess next_ee_type
                (mkLaunchParams (set_available resources_for_callee_frame call_request)
                   {| scratch_space_len := 0; callstack_depth := callstack_depth;
                      callee_account_properties := callee_account_properties |})
                resources_in_caller_frame)
          | Err e => throw (SLeafDefect e)
          | Fault => fault
          end
      end
  end.

(** ** Execution *)

(** [ExecutionContext]; of the return memory only the capacity matters. *)
Record ExecutionContext : Type := mkExecution {
  ec_system : SysState;
  ec_hooks : HooksStorage;
  callstack_height : Z;
  return_memory : nat
}.

Abbreviation BM := (M ExecutionContext BootloaderSubsystemError).

Definition set_system (sys : SysState) (c : ExecutionContext) : ExecutionContext :=
  mkExecution sys (ec_hooks c) (callstack_height c) (return_memory c).
Definition set_height (h : Z) (c : ExecutionContext) : ExecutionContext :=
  mkExecution (ec_system c) (ec_hooks c) h (return_memory c).
Definition set_return_memory (n : nat) (c : ExecutionContext) : ExecutionContext :=
  mkExecution (ec_system c) (ec_hooks c) (callstack_height c) n.

Definition on_system {A} (m : PM A) : BM A := zoom ec_system set_system m.

Definition start_global_frame : PM Snapshot := map_err SLeafDefect start_io_frame.
Definition finish_global_frame (rollback_handle : option Snapshot) : PM unit :=
  map_err SLeafDefect (finish_io_frame rollback_handle).
(** With [.map_err(|_| internal_error!("must finish execution frame"))]. *)
Definition finish_execution_frame (rollback_handle : option Snapshot) : PM unit :=
  map_err (λ _, SLeafDefect (internal_error "must finish execution frame"))
    (finish_io_frame rollback_handle).

Definition copy_into_return_memory (rv : ReturnValues) : BM ReturnValues :=
  memory ← gets return_memory;
  modify (set_return_memory 0) ;;
  if bool_decide (memory < length (rv_returndata rv))%nat then
    throw (SLeafRuntime (FatalRuntime OutOfReturnMemory))
  else
    modify (set_return_memory (memory - length (rv_returndata rv))) ;;
    mret rv.

Definition transfer_target (req : ExternalCallRequest) : Z :=
  match modifier req with
  | EVMCallcode | EVMCallcodeStatic => ecr_caller req
  | _ => callee req
  end.

(** The result is whether to go on, and the request with what is left to it. *)
Definition perform_transfer_if_required (call_request : ExternalCallRequest)
    (caller_ee_type : ExecutionEnvironmentType) : PM (bool * ExternalCallRequest) :=
  if (nominal_token_value call_request =? 0) || is_delegate call_request then
    mret (true, call_request)
  else if negb (is_transfer_allowed call_request) then
    throw (SLeafDefect (internal_error "Positive value with incorrect modifier"))
  else
    '(r, remaining) ← local_io (available_resources call_request)
      (infinite_ergs (transfer_nominal_token_value NoEE (ecr_caller call_request)
         (transfer_target call_request) (nominal_token_value call_request)));
    let call_request := set_available remaining call_request in
    match r with
    | inr _ => mret (true, call_request)
    | inl (SLeafUsage _) =>
        match caller_ee_type with
        | NoEE => throw (SLeafUsage TopLevelInsufficientBalance)
        | EVM => mret (false, call_request)
        end
    | inl (SLeafRuntime OutOfErgs) =>
        throw (SLeafDefect (internal_error "Out of ergs on infinite ergs"))
    | inl e => throw (SCascaded (WrappedBalance e))
    end.

(** An interpreter that is a local variable, run on the system. *)
Definition in_vm {A} (vm : Interpreter) (m : M St EvmSubsystemError A) : PM (A * Interpreter) :=
  λ sys,
    match m (mkSt vm sys None) with
    | (Val a, st) => (Val (a, self st), system st)
    | (Err e, st) => (Err (SCascaded (WrappedEEError (wrap_evm e))), system st)
    | (Fault, st) => (Fault, system st)
    end.

Definition nothing_returned (req : ExternalCallRequest) (result : ReturnValues → CallResult)
    : Res * CallResult :=
  (available_resources req, result ReturnValues_empty).

(** A call to an address with a hook. *)
Definition call_to_special_address_execute_callee_frame
    (external_call_launch_params : ExecutionEnvironmentLaunchParams)
    (caller_ee_type : ExecutionEnvironmentType) (rollback_handle : Snapshot)
    : BM (Res * CallResult) :=
  let req := external_call external_call_launch_params in
  if bool_decide (modifier req = Constructor) then
    on_system (finish_execution_frame (Some rollback_handle)) ;;
    mret (nothing_returned req Failed)
  else
    memory ← gets return_memory;
    modify (set_return_memory 0) ;;
    hooks ← gets ec_hooks;
    '(res, remaining_memory) ← on_system (map_err subsystem_of_system
      (try_intercept hooks (wrap 16 (limb (callee req) 0)) req (ee_byte caller_ee_type) memory));
    modify (set_return_memory remaining_memory) ;;
    match res with
    | Some completed =>
        let reverted := failed (ce_result completed) in
        let rv := return_values (ce_result completed) in
        on_system (finish_execution_frame (if reverted then Some rollback_handle else None)) ;;
        mret (resources_returned completed, if reverted then Failed rv else Successful rv)
    | None =>
        on_system (finish_execution_frame None) ;;
        mret (nothing_returned req Successful)
    end.

Section Frame.
(** [handle_requested_external_call::<false>]. *)
Variable handle : ExecutionEnvironmentType → ExternalCallRequest → Heap Z → BM CompletedExecution.

(** The loop over the requests of a frame, until its end. *)
Fixpoint frame_loop (fuel : nat) (vm : Interpreter)
    (preemption : ExecutionEnvironmentPreemptionPoint) (rollback_handle : Snapshot)
    : BM (Res * CallResult) :=
  match preemption with
  | CallRequest heap request =>
      match fuel with
      | O => fault
      | S fuel =>
          modify (λ c, set_height (wrap usize_bits (callstack_height c + 1)) c) ;;
          completed ← handle EVM request heap;
          modify (λ c, set_height (wrap usize_bits (callstack_height c - 1)) c) ;;
          '(preemption, vm) ← on_system (in_vm vm
            (continue_after_preemption (resources_returned completed) (ce_result completed)));
          frame_loop fuel vm preemption rollback_handle
      end
  | End_ completed =>
      let reverted := failed (ce_result completed) in
      on_system (finish_execution_frame (if reverted then Some rollback_handle else None)) ;;
      rv ← copy_into_return_memory (return_values (ce_result completed));
      mret (resources_returned completed, if reverted then Failed rv else Successful rv)
  end.

Definition call_execute_callee_frame (fuel : nat)
    (external_call_launch_params : ExecutionEnvironmentLaunchParams) (heap : Heap Z)
    (next_ee_type : ExecutionEnvironmentType) (rollback_handle : Snapshot)
    : BM (Res * CallResult) :=
  let req := external_call external_call_launch_params in
  if bool_decide (next_ee_type = NoEE) then
    if bool_decide (modifier req = Constructor) then
      throw (SLeafDefect (internal_error "Invalid No_EE invocation"))
    else if negb (cap_unpadded_code_len (callee_account_properties
                    (environment_parameters external_call_launch_params)) =? 0) then
      throw (SLeafDefect (internal_error "Unexpected non-empty bytecode"))
    else mret (nothing_returned req Successful)
  else
    new_vm ← map_err (λ e, SCascaded (WrappedEEError e)) (ee_create_initial next_ee_type);
    '(preemption, vm) ← on_system (in_vm new_vm
      (start_executing_frame external_call_launch_params heap));
    frame_loop fuel vm preemption rollback_handle.

Definition interpret_as (next_ee_type caller_ee_type : ExecutionEnvironmentType)
    : ExecutionEnvironmentType :=
  match next_ee_type with
  | NoEE => match caller_ee_type with NoEE => EVM | ee => ee end
  | ee => ee
  end.

Definition set_call (req : ExternalCallRequest) (p : ExecutionEnvironmentLaunchParams)
    : ExecutionEnvironmentLaunchParams := mkLaunchParams req (environment_parameters p).

Definition is_special (hooks : HooksStorage) (req : ExternalCallRequest) : bool :=
  (callee req <? SPECIAL_ADDRESS_SPACE_BOUND) && has_hook_for hooks (wrap 16 (limb (callee req) 0)).

Definition execute_call (fuel : nat) (next_ee_type caller_ee_type : ExecutionEnvironmentType)
    (params : ExecutionEnvironmentLaunchParams) (heap : Heap Z) : BM (Res * CallResult) :=
  '(r, remaining) ← on_system (local_io (available_resources (external_call params))
    (ee_before_executing_frame (interpret_as next_ee_type caller_ee_type) params));
  let req := set_available remaining (external_call params) in
  match r with
  | inl e => throw (SCascaded (WrappedEEError e))
  | inr false => mret (nothing_returned req Failed)
  | inr true =>
      rollback_handle ← on_system start_global_frame;
      '(go, req) ← on_system (perform_transfer_if_required req caller_ee_type);
      if negb go then
        on_system (finish_global_frame (Some rollback_handle)) ;;
        mret (nothing_returned req Failed)
      else
        hooks ← gets ec_hooks;
        if is_special hooks req then
          call_to_special_address_execute_callee_frame (set_call req params) caller_ee_type
            rollback_handle
        else
          call_execute_callee_frame fuel (set_call req params) heap next_ee_type rollback_handle
  end.
End Frame.

(** [resources_in_caller_frame.reclaim(..)]. *)
Definition reclaim_into (caller callee : Res) : BM Res := λ c,
  match reclaim callee caller with
  | (Val _, r) => (Val r, c)
  | _ => (Fault, c)
  end.

Fixpoint handle_requested_external_call (fuel : nat) (IS_ENTRY_FRAME : bool)
    (caller_ee_type : ExecutionEnvironmentType) (call_request : ExternalCallRequest) (heap : Heap Z)
    : BM CompletedExecution :=
  match fuel with
  | O => fault
  | S fuel =>
      depth ← gets callstack_height;
      prepared ← on_system (read_callee_and_prepare_frame_state IS_ENTRY_FRAME caller_ee_type
        call_request depth);
      match prepared with
      | PreparationOutOfErgs resources_in_caller_frame =>
          mret (mkCompleted resources_in_caller_frame PreparationStepFailed)
      | PreparationSuccess next_ee_type params resources_in_caller_frame =>
          '(resources_returned_from_callee, call_result) ←
            execute_call (handle_requested_external_call fuel false) fuel next_ee_type
              caller_ee_type params heap;
          r ← reclaim_into resources_in_caller_frame resources_returned_from_callee;
          mret (mkCompleted r call_result)
      end
  end.

(** Enough for all requests the native resource can pay for. *)
Definition call_fuel (r : Res) : nat := S (S (Z.to_nat (n_left r / STEP_NATIVE_COST))).

Record RunnerMemoryBuffers : Type := mkBuffers { heaps : nat; return_data : nat }.

Definition run_till_completion (memories : RunnerMemoryBuffers) (hooks : HooksStorage)
    (initial_ee_version : ExecutionEnvironmentType) (initial_request : ExternalCallRequest)
    : PM CompletedExecution := λ sys,
  let '(o, c) :=
    handle_requested_external_call (call_fuel (available_resources initial_request)) true
      initial_ee_version initial_request (mkHeap (heaps memories) [])
      (mkExecution sys hooks 0 (return_data memories)) in
  (o, ec_system c).
End Runner.
