(* ===== verification/RunnerTheorems.v ===== *)
(** * Theorems about the call loop

    A call, with every call it makes in turn, ends: within the fuel given by its
    native resource, without a panic, with no more resources than it was given.  A
    call that fails leaves the world as it was, except that a failed creation keeps
    the new nonce of its creator; a static call leaves it alone in any case. *)

From stdpp Require Import strings gmap.
From S2P Require Import Prelude Resources U256 SystemInterface SliceVec EvmConstants Gas EvmState.
From S2P Require Import EvmRun EvmFrame EvmLogic EvmExec EvmCalls BootSystem IoLogic Hooks.
From S2P Require Import HookTheorems BootloaderErrors Runner.

Section Theorems.
Context {R : Ruint} {RS : RuintSpec} {UZ : Usize} {FT : Features} {SYS : System}
  {LAWS : SystemLaws} {EXT : SystemExt} {XLAWS : SystemExtLaws} {IL : InputLimit}.

(** ** Specifications *)

(** Running out of gas is never an error of the bootloader. *)
Definition fatal_ee (e : EESubsystemError) : Prop := ee_root_cause e ≠ RootRuntime OutOfErgs.
Definition fatal_boot (e : BootloaderSubsystemError) : Prop :=
  bootloader_root_cause e ≠ RootRuntime OutOfErgs.

Record request_wf (req : ExternalCallRequest) : Prop := {
  rw_res : res_wf (available_resources req);
  rw_ergs : is_u64 (ergs_0 (ergs_to_pass req));
  rw_caller : is_b160 (ecr_caller req);
  rw_callee : is_b160 (callee req);
  rw_callers : is_b160 (callers_caller req);
  rw_input : input_ok (input req);
  rw_value : is_u256 (nominal_token_value req);
  rw_scratch : call_scratch_space req = None
}.

(** A buffer of the bootloader: it leaves room at the end of the address space, and what
    a frame has in it is not too long as the input of a call. *)
Definition buffer_ok (n : nat) : Prop := Z.of_nat n < 2 ^ usize_bits - 64 ∧ Z.of_nat n ≤ input_limit.

Record execution_ok (c : ExecutionContext) : Prop := {
  eo_hooks : hooks_ok (ec_hooks c);
  eo_height : 0 ≤ callstack_height c ≤ 1025;
  eo_memory : buffer_ok (return_memory c)
}.

Definition is_static_call (req : ExternalCallRequest) : bool := is_static_modifier (modifier req).

(** The nonce of the creator has been incremented, and nothing else. *)
Definition creator_bumped (req : ExternalCallRequest) (sys sys' : SysState) : Prop :=
  ∃ sys1 r, world sys1 = world sys
    ∧ world sys' = world (infinite_ergs (increment_nonce (ecr_caller req) 1) (sys1, r)).2.1.

Definition undone (req : ExternalCallRequest) (depth : Z) (sys sys' : SysState) : Prop :=
  world sys' = world sys
  ∨ modifier req = Constructor ∧ 0 < depth ∧ creator_bumped req sys sys'.

(** A result a frame can be resumed with. *)
Record result_wf (req : ExternalCallRequest) (r : CallResult) : Prop := {
  rs_scratch : has_scratch_space r = false;
  rs_bytes : bytes_ok (result_bytes r);
  rs_create : modifier req = Constructor → ∀ rv, r = Successful rv → rv_returndata rv = []
}.

(** What calls leave of the context. *)
Record context_kept (c c' : ExecutionContext) : Prop := {
  ck_hooks : ec_hooks c' = ec_hooks c;
  ck_memory : (return_memory c' ≤ return_memory c)%nat
}.

#[global] Instance context_kept_preorder : PreOrder context_kept.
Proof.
  split; [by split|]. intros c1 c2 c3 [] []. split; [congruence|lia].
Qed.

(** The outcome of a call that may spend [r]. *)
Definition call_outcome (req : ExternalCallRequest) (r : Res) (c : ExecutionContext)
    (x : outcome BootloaderSubsystemError (Res * CallResult) * ExecutionContext) : Prop :=
  later (ec_system c) (ec_system x.2) ∧ context_kept c x.2
  ∧ match x.1 with
    | Val (r', res) =>
        callstack_height x.2 = callstack_height c ∧ res_wf r' ∧ res_le_both r' r
        ∧ result_wf req res
        ∧ (is_static_call req = true → world (ec_system x.2) = world (ec_system c))
        ∧ (failed res = true → undone req (callstack_height c) (ec_system c) (ec_system x.2))
    | Err e => fatal_boot e
    | Fault => False
    end.

Definition completed_outcome (x : outcome BootloaderSubsystemError CompletedExecution * ExecutionContext)
    : outcome BootloaderSubsystemError (Res * CallResult) * ExecutionContext :=
  (match x.1 with
   | Val y => Val (resources_returned y, ce_result y)
   | Err e => Err e
   | Fault => Fault
   end, x.2).

Definition heap_ok (h : Heap Z) : Prop := heap_data h = [] ∧ buffer_ok (heap_cap h).

(** The handler is right for requests with less than [n] native. *)
Definition handles (n : Z)
    (handle : ExecutionEnvironmentType → ExternalCallRequest → Heap Z →
              M ExecutionContext BootloaderSubsystemError CompletedExecution) : Prop :=
  ∀ ee req heap c, request_wf req → heap_ok heap → execution_ok c →
    n_left (available_resources req) < n →
    call_outcome req (available_resources req) c (completed_outcome (handle ee req heap c)).

(** ** Computations on the system *)

Lemma local_io_spec {A E} w (Q : A → Prop) (X : E → Prop) r (m : M (SysState * Res) E A) sys :
  io w Q X m → res_wf r →
  ∃ x r' sys', local_io r m sys = (Val (x, r'), sys') ∧ res_wf r' ∧ res_le_both r' r
    ∧ later sys sys' ∧ (w = true → world sys' = world sys)
    ∧ match x with inr a => Q a | inl e => X e end
    ∧ (m (sys, r)).2 = (sys', r').
Proof.
  intros Hm Hr. destruct (Hm (sys, r) Hr) as (H1 & H2 & H3 & H4 & H5). unfold local_io.
  destruct (m (sys, r)) as [[a|e|] [sys' r']]; cbn [fst snd] in *; [| |done].
  - eexists (inr a), r', sys'. by split_conj.
  - eexists (inl e), r', sys'. by split_conj.
Qed.

(** ** Reading the callee *)

Definition properties_ok (p : CalleeAccountProperties) : Prop := code_ok p.

Lemma callee_properties_ok a code : account_ok code → properties_ok (callee_properties a code).
Proof.
  intros [H1 [H2 H3] H4 H5]. split; cbn; [done|done|]. intros Hv. destruct (H5 Hv) as (? & ? & ?).
  split; [lia|done].
Qed.

Lemma read_callee_ok ee req w : io w properties_ok (λ _, True) (read_callee_account_properties ee req).
Proof.
  unfold read_callee_account_properties.
  eapply io_bind; [apply io_read; [apply xl_read|apply xl_read_world]|]. intros a Ha.
  destruct (_ && _); [|by apply io_ret, callee_properties_ok].
  eapply io_bind.
  { eapply (io_expect _ _ _ (λ _, True)); [|done]. apply slice_Some.
    destruct Ha as [_ [Ha1 Ha2] _ _]. split_conj; try done; lia. }
  intros del _. eapply io_bind.
  { unfold lift_internal. destruct (parse_delegation del) as [x|e|] eqn:E;
      [by apply (io_ret _ _ (λ _, True))|by apply io_throw|].
    unfold parse_delegation in E. by repeat case_match. }
  intros addr _. eapply io_bind; [apply io_read; [apply xl_read|apply xl_read_world]|].
  intros code Hcode. by apply io_ret, callee_properties_ok.
Qed.

Lemma give_native_split (caller callee : Res) :
  give_native_to caller callee
  = (mk_res (e_left caller) 0, mk_res (e_left callee) (n_left caller)).
Proof. destruct caller as [[e] [n]], callee as [[e1] [n1]]. reflexivity. Qed.
(** A computation on resources that creates none. *)
Definition only_spends {A E} (m : M Res E A) : Prop :=
  ∀ r, res_wf r → res_wf (m r).2 ∧ res_le_both (m r).2 r.

Lemma spends_ret {A E} (a : A) : only_spends (mret a : M Res E A).
Proof. by intros r Hr. Qed.

Lemma spends_bind {A B E} (m : M Res E A) (k : A → M Res E B) :
  only_spends m → (∀ a, only_spends (k a)) → only_spends (m ≫= k).
Proof.
  intros Hm Hk r Hr. destruct (Hm r Hr) as [H1 H2]. unfold mbind, M_bind.
  destruct (m r) as [[a|e|] r1]; [|done..]. destruct (Hk a r1 H1). split; [done|by etransitivity].
Qed.

Lemma spends_ergs c : is_u64 (ergs_0 c) → only_spends (charge_ergs c).
Proof.
  intros Hc r Hr. unfold charge_ergs, map_err. pose proof (charge_le r _ Hr (ergs_wf c Hc)).
  by destruct (charge _ r) as [[]].
Qed.

Lemma charge_for_value_le req p : only_spends (charge_for_value req p).
Proof.
  unfold charge_for_value. destruct (negb (bool_decide _)); [|apply spends_ret].
  apply spends_bind; [|intros; apply spends_bind; [|intros; apply spends_ret]].
  - destruct (_ && _); [|apply spends_ret].
    apply spends_bind; [by apply spends_ergs|intros; apply spends_ret].
  - destruct (_ && _); [by apply spends_ergs|apply spends_ret].
Qed.

(** The parts of a split. *)
Record parts (whole callee caller : Res) : Prop := {
  pt_callee : res_wf callee;
  pt_caller : res_wf caller;
  pt_native : n_left caller = 0;
  pt_ergs : e_left callee + e_left caller ≤ e_left whole;
  pt_natives : n_left callee ≤ n_left whole
}.

Lemma split_spec entry ee req p r sys :
  res_wf r → is_u64 (ergs_0 (ergs_to_pass req)) →
  ∃ o, split_resources entry ee req p r sys = (o, sys)
    ∧ match o with
      | Val (inl r') => res_wf r' ∧ res_le_both r' r
      | Val (inr (callee, caller)) => parts r callee caller
      | Err e => fatal_boot e
      | Fault => False
      end.
Proof.
  intros Hr He. unfold split_resources. pose proof Hr as [[He1 He2] [Hn1 Hn2]].
  destruct entry; cbn [negb].
  { eexists. split; [done|]. split; try done. change (e_left res_empty) with 0. lia. }
  destruct ee; cbn; [by eexists|]. unfold map_err.
  destruct (Z_lt_le_dec (e_left r) (call_surcharge req p)) as [Hlt|Hge].
  - destruct (passed_poor req p r Hr Hlt) as [H1 H2].
    destruct (charge_for_value_le req p r Hr) as [H3 H4]. rewrite <- H2 in H3, H4.
    destruct (calculate_resources_passed_in_external_call req p r) as [o r'].
    cbn [fst snd] in *. subst o. by eexists.
  - rewrite passed_run by done.
    pose proof (ergs_passed_range req (e_left r - call_surcharge req p) ltac:(lia) He) as Hp.
    pose proof (surcharge_stipend req p) as Hs. eexists. split; [done|].
    unfold in_width in *.
    split; unfold res_wf, in_width, e_left, n_left, mk_res in *; cbn -[Z.pow] in *; lia.
Qed.

Lemma parts_le r r' a b : res_le_both r r' → parts r a b → parts r' a b.
Proof. intros [H1 H2] [H3 H4 H5 H6 H7]. split; try done; lia. Qed.

(** A request with a part of the resources to a callee whose code is in order. *)
Record prepared (req : ExternalCallRequest) (depth : Z) (p : ExecutionEnvironmentLaunchParams)
    (rc : Res) : Prop := {
  pr_call : external_call p = set_available (available_resources (external_call p)) req;
  pr_parts : parts (available_resources req) (available_resources (external_call p)) rc;
  pr_depth : callstack_depth (environment_parameters p) = depth;
  pr_code : code_ok (callee_account_properties (environment_parameters p))
}.

Lemma prepare_spec entry ee req depth sys :
  request_wf req →
  let '(o, sys') := read_callee_and_prepare_frame_state entry ee req depth sys in
  later sys sys' ∧ world sys' = world sys
  ∧ match o with
    | Val (PreparationOutOfErgs r) => res_wf r ∧ res_le_both r (available_resources req)
    | Val (PreparationSuccess _ p rc) => prepared req depth p rc
    | Err e => fatal_boot e
    | Fault => False
    end.
Proof.
  intros Hq. unfold read_callee_and_prepare_frame_state.
  assert (io true properties_ok (λ _, True)
    (if entry || bool_decide (modifier req = Constructor)
     then infinite_ergs (read_callee_account_properties ee req)
     else read_callee_account_properties ee req)) as Hio
    by (destruct (_ || _); [apply io_infinite|]; apply read_callee_ok).
  destruct (local_io_spec _ _ _ _ _ sys Hio (rw_res _ Hq))
    as (x & r' & sys' & Hrun & Hw & Hle & Hla & Hwo & Hx & _).
  rewrite (bind_val _ _ _ _ _ Hrun). specialize (Hwo eq_refl).
  destruct x as [[e|[e|]]|p]; [by cbn..|].
  destruct (split_spec entry ee req p r' sys' Hw (rw_ergs _ Hq)) as (o & Hs & Ho).
  destruct o as [[rem|[rcallee rcaller]]|e|]; [| |by rewrite (bind_err _ _ _ _ _ Hs)|done].
  - rewrite (bind_val _ _ _ _ _ Hs). destruct Ho. cbn. split_conj; try done. by etransitivity.
  - rewrite (bind_val _ _ _ _ _ Hs). unfold parse_ee_version_byte.
    assert (prepared req depth (mkLaunchParams (set_available rcallee req)
      {| scratch_space_len := 0; callstack_depth := depth; callee_account_properties := p |}) rcaller)
      by (split; [done|by eapply parts_le|done|done]).
    by destruct (_ =? ee_byte NoEE); [|destruct (_ =? ee_byte EVM)].
Qed.

(** ** The checks before a frame *)

Lemma balance_check_io req : io true (λ _, True) fatal (balance_check req).
Proof.
  unfold balance_check. destruct (_ && _); [|by apply io_ret].
  eapply io_bind; [|by intros; apply io_ret].
  apply (io_map_err _ _ _ _ (λ e, e ≠ LeafRuntime OutOfErgs)); [|by intros [|[]]].
  intros s Hs.
  destruct (io_infinite true _ _ _ (io_read _ _ true (sl_account_balance (ecr_caller req))
    (sl_account_balance_world _)) s Hs) as (H1 & H2 & H3 & H4 & H5).
  split; [done|]. split; [done|]. split; [done|]. split; [done|].
  pose proof (xl_balance_rich (ecr_caller req) s Hs).
  destruct (infinite_ergs _ s) as [[a|e|] s']; cbn in *; congruence || done.
Qed.

Lemma burn_io w (X : EvmSubsystemError → Prop) :
  io w (λ _, True) X
    (r ← gets snd; zoom snd (λ r s, (s.1, r)) (unwrap (charge (from_ergs (ergs r)))) ;; mret false).
Proof.
  intros s Hs. erewrite bind_val by done. erewrite bind_val by by apply burn_run.
  destruct Hs as [[] []]. cbn [fst snd]. by split_conj.
Qed.

Lemma nonce_io a :
  io false (λ r, match r with inl e => e ≠ SLeafRuntime OutOfErgs | inr _ => True end)
    (λ _ : EvmSubsystemError, False) (attempt (infinite_ergs (increment_nonce a 1))).
Proof.
  eapply io_conseq; [apply (io_attempt _ _ (λ _, True) (λ e, e ≠ SLeafRuntime OutOfErgs) (λ _, False))| |done];
    [|by intros []].
  intros s Hs.
  destruct (io_infinite false _ _ _ (io_of_ok _ _ (sl_increment_nonce a 1)) s Hs) as (H1 & H2 & H3 & H4 & H5).
  split; [done|]. split; [done|]. split; [done|]. split; [done|].
  pose proof (xl_nonce_rich a 1 s Hs). destruct (infinite_ergs _ s) as [[n|e|] s']; cbn in *; (done || by intros ->).
Qed.

Lemma constructor_check_io p : io false (λ _, True) fatal (constructor_check p).
Proof.
  unfold constructor_check. destruct (bool_decide _); [|by apply io_ret].
  eapply (io_bind _ _ _ (λ r, match r with inl e => e ≠ SLeafRuntime OutOfErgs | inr _ => True end)).
  { destruct (0 <? _); [|by apply io_ret]. eapply io_conseq; [apply nonce_io|done|done]. }
  intros [[[]|e|[e|]|[]]|n] Hn; try by (apply io_throw || apply io_ret).
  destruct (_ || _); [apply burn_io|by apply io_ret].
Qed.

Lemma constructor_check_world p s :
  res_wf s.2 →
  undone (external_call p) (callstack_depth (environment_parameters p)) s.1
    (constructor_check p s).2.1.
Proof.
  intros Hs. unfold constructor_check.
  destruct (bool_decide_reflect (modifier (external_call p) = Constructor)) as [Hm|Hm]; [|by left].
  set (k := λ nonce, match nonce with inl _ => _ | inr _ => _ end).
  assert (∀ n s1, res_wf s1.2 → (k n s1).2.1 = s1.1) as Hk.
  { intros [[[]|e|e|[]]|n] s1 Hs1; try done. cbn.
    destruct (_ || _); [|done]. erewrite bind_val by done. by erewrite bind_val by by apply burn_run. }
  destruct (Z.ltb_spec 0 (callstack_depth (environment_parameters p))) as [Hd|Hd].
  - right. split; [done|]. split; [done|]. exists s.1, s.2. split; [done|].
    destruct (nonce_io (ecr_caller (external_call p)) s Hs) as (H1 & _ & _ & _ & H5).
    unfold mbind, M_bind. unfold attempt in *. replace (s.1, s.2) with s by by destruct s.
    destruct (infinite_ergs _ s) as [[n|e|] s1]; cbn [fst snd] in *; [| |done]; by rewrite Hk.
  - left. erewrite bind_val by done. by rewrite Hk.
Qed.

(** What the checks leave. *)
Lemma before_spec ee p s :
  res_wf s.2 →
  let '(o, s') := ee_before_executing_frame ee p s in
  res_wf s'.2 ∧ res_le_both s'.2 s.2 ∧ later s.1 s'.1
  ∧ undone (external_call p) (callstack_depth (environment_parameters p)) s.1 s'.1
  ∧ match o with
    | Val b => b = true → callstack_depth (environment_parameters p) ≤ 1024
    | Err e => fatal_ee e
    | Fault => False
    end.
Proof.
  intros Hs. destruct ee; [cbn; split_conj; try done; by left|].
  unfold ee_before_executing_frame, map_err. rewrite before_unfold.
  destruct (Z.ltb_spec 1024 (callstack_depth (environment_parameters p))) as [Hd|Hd].
  { split_conj; try done. by left. }
  destruct (balance_check_io (external_call p) s Hs) as (B1 & B2 & B3 & B4 & B5).
  unfold mbind, M_bind. specialize (B4 eq_refl).
  destruct (balance_check _ s) as [[b|e|] s1]; cbn [fst snd] in *; [|split_conj; try done; by left|done].
  destruct b; cbn [negb]; [|cbn; split_conj; try done; by left].
  destruct (constructor_check_io p s1 B1) as (C1 & C2 & C3 & _ & C5).
  pose proof (constructor_check_world p s1 B1) as Cw.
  assert (undone (external_call p) (callstack_depth (environment_parameters p)) s.1
    (constructor_check p s1).2.1) as Hu.
  { unfold undone, creator_bumped in *. by rewrite B4 in Cw. }
  destruct (constructor_check p s1) as [[b|e|] s']; cbn [fst snd] in *; [| |done];
    (split; [done|split; [by etransitivity|split; [by etransitivity|done]]]).
Qed.

(** ** Transfers *)

Lemma undone_static req depth sys sys' :
  undone req depth sys sys' → is_static_call req = true → world sys' = world sys.
Proof. intros [H|[H _]] Hs; [done|]. unfold is_static_call in Hs. by rewrite H in Hs. Qed.

Lemma transfer_spec req ee sys :
  request_wf req →
  let '(o, sys') := perform_transfer_if_required req ee sys in
  later sys sys' ∧ (is_static_call req = true → world sys' = world sys)
  ∧ match o with
    | Val (_, req') => req' = set_available (available_resources req') req
        ∧ res_wf (available_resources req')
        ∧ res_le_both (available_resources req') (available_resources req)
    | Err e => fatal_boot e
    | Fault => False
    end.
Proof.
  intros Hq. unfold perform_transfer_if_required.
  destruct (_ || is_delegate req). { cbn. split_conj; try done; [by destruct req|apply Hq]. }
  destruct (is_transfer_allowed req) eqn:Ha; cbn [negb]; [|done].
  assert (io (is_static_call req) (λ _, True) (λ _, True)
    (infinite_ergs (transfer_nominal_token_value NoEE (ecr_caller req) (transfer_target req)
       (nominal_token_value req)))) as Hio.
  { apply io_infinite. destruct (is_static_call req) eqn:Hs; [|apply io_of_ok, xl_transfer].
    apply io_read; [apply xl_transfer|]. unfold transfer_target, is_static_call, is_transfer_allowed in *.
    destruct (modifier req); try done. intros s. apply xl_transfer_self. }
  destruct (local_io_spec _ _ _ _ _ sys Hio (rw_res _ Hq))
    as (x & r' & sys' & Hrun & Hw & Hle & Hla & Hwo & Hx & _).
  rewrite (bind_val _ _ _ _ _ Hrun).
  destruct x as [[e|e|[e|]|[]]|[]]; [destruct ee|..]; cbn; by split_conj.
Qed.

(** ** Frames *)

(** The outcome of a frame that may spend [r] and was started over a snapshot of the
    world [w], with the snapshots [k] below it. *)
Definition frame_outcome (req : ExternalCallRequest) (r : Res) (w : World)
    (k : list (Snapshot * World)) (c : ExecutionContext)
    (x : outcome BootloaderSubsystemError (Res * CallResult) * ExecutionContext) : Prop :=
  alive (ec_system x.2) k ∧ sys_metadata (ec_system x.2) = sys_metadata (ec_system c)
  ∧ context_kept c x.2
  ∧ match x.1 with
    | Val (r', res) =>
        callstack_height x.2 = callstack_height c ∧ res_wf r' ∧ res_le_both r' r
        ∧ result_wf req res
        ∧ (is_static_call req = true → world (ec_system x.2) = w)
        ∧ (failed res = true → world (ec_system x.2) = w)
    | Err e => fatal_boot e
    | Fault => False
    end.

Lemma frame_outcome_trans req r1 r w k c c1 x :
  context_kept c c1 → callstack_height c1 = callstack_height c →
  sys_metadata (ec_system c1) = sys_metadata (ec_system c) → res_le_both r1 r →
  frame_outcome req r1 w k c1 x → frame_outcome req r w k c x.
Proof.
  intros Hk Hh Hm Hr (H1 & H2 & H3 & H4). split; [done|]. split; [congruence|].
  split; [by etransitivity|]. destruct x as [[[r' res]|e|] c']; [|done..]. cbn in *.
  destruct H4 as (? & ? & ? & ? & ? & ?). split; [congruence|]. split; [done|].
  split; [by etransitivity|done].
Qed.

Lemma defect_fatal e : fatal_boot (SLeafDefect e).
Proof. done. Qed.

Lemma finish_frame_spec f (reverted : bool) snap w k c :
  (∀ e, fatal_boot (f e)) → alive (ec_system c) ((snap, w) :: k) →
  ∃ o sys', on_system (map_err f (finish_io_frame (if reverted then Some snap else None))) c
            = (o, set_system sys' c)
    ∧ alive sys' k ∧ sys_metadata sys' = sys_metadata (ec_system c)
    ∧ match o with
      | Val _ => world sys' = if reverted then w else world (ec_system c)
      | Err e => fatal_boot e
      | Fault => False
      end.
Proof.
  intros Hfe Hk. unfold on_system, zoom, map_err. destruct reverted.
  - pose proof (sl_rollback (ec_system c) snap w k Hk) as H.
    destruct (finish_io_frame _ _) as [[[]|e|] sys']; [| |done]; eexists _, sys'; split; try done.
    + by destruct H as (? & ? & ?).
    + destruct H as [H1 H2]. split; [by eapply sl_forget, H2|]. split; [done|apply Hfe].
  - destruct (sl_finish (ec_system c)) as ((H1 & H2) & H3 & H4).
    assert (alive (finish_io_frame None (ec_system c)).2 k) by by eapply sl_forget, H2.
    destruct (finish_io_frame _ _) as [[[]|e|] sys']; [| |done]; eexists _, sys'; split_conj; done || apply Hfe.
Qed.

Lemma copy_spec rv c :
  (copy_into_return_memory rv c
     = (Val rv, set_return_memory (return_memory c - length (rv_returndata rv)) c)
   ∧ (length (rv_returndata rv) ≤ return_memory c)%nat)
  ∨ ∃ e, copy_into_return_memory rv c = (Err e, set_return_memory 0 c) ∧ fatal_boot e.
Proof.
  unfold copy_into_return_memory. do 2 (erewrite bind_val by done).
  destruct (bool_decide_reflect (return_memory c < length (rv_returndata rv))%nat); [right|left];
    [by eexists|]. split; [done|lia].
Qed.

Lemma kept_memory n c : (n ≤ return_memory c)%nat → context_kept c (set_return_memory n c).
Proof. done. Qed.
Lemma kept_system sys c : context_kept c (set_system sys c).
Proof. done. Qed.

(** What a frame with the result [res] hands to the frame below. *)
Definition frame_reply (res : CallResult) : CallResult :=
  if failed res then Failed (return_values res) else Successful (return_values res).

Lemma result_bytes_values res : result_bytes res = rv_returndata (return_values res).
Proof. by destruct res. Qed.

Lemma reply_wf req res :
  bytes_ok (result_bytes res) → has_scratch_space res = false →
  (modifier req = Constructor → ∀ rv, res = Successful rv → rv = ReturnValues_empty) →
  result_wf req (frame_reply res).
Proof.
  intros Hb Hs Hc. destruct res as [|rv|rv]; split; cbn in *; try done.
  intros Hm rv' [= <-]. by rewrite (Hc Hm rv eq_refl).
Qed.

(** The end of a frame: snapshot and memory. *)
Lemma frame_end req r w k c snap completed i :
  alive (ec_system c) ((snap, w) :: k) → buffer_ok (return_memory c) →
  (is_static_call req = true → world (ec_system c) = w) →
  yielded r (End_ completed) i →
  is_constructor (self i) = bool_decide (modifier req = Constructor) →
  frame_outcome req r w k c
    ((on_system (finish_execution_frame (if failed (ce_result completed) then Some snap else None)) ;;
      rv ← copy_into_return_memory (return_values (ce_result completed));
      mret (resources_returned completed,
            if failed (ce_result completed) then Failed rv else Successful rv)) c).
Proof.
  intros Hk Hbuf Hw (Hr & Hle & _ & Hb & _ & Hs & He) Hc. set (res := ce_result completed) in *.
  destruct (finish_frame_spec (λ _, SLeafDefect (internal_error "must finish execution frame"))
    (failed res) snap w k c (λ _, defect_fatal _) Hk) as (o & sys' & Hf & Ha & Hm & Ho).
  destruct o as [[]|e|]; [|rewrite (bind_err _ _ _ _ _ Hf); by split_conj|done].
  rewrite (bind_val _ _ _ _ _ Hf).
  destruct (copy_spec (return_values res) (set_system sys' c)) as [[Hcp Hlen]|(e & Hcp & Hfe)];
    [rewrite (bind_val _ _ _ _ _ Hcp)|rewrite (bind_err _ _ _ _ _ Hcp); split; [done|split; [done|split; [split; [done|cbn; lia]|done]]]].
  split; [done|]. split; [done|]. split; [split; [done|cbn; lia]|]. cbn.
  split; [done|]. split; [done|]. split; [done|]. split.
  { apply reply_wf; [|done|]. - rewrite result_bytes_values in *. split; [done|].
    unfold buffer_ok in Hbuf. cbn in Hlen. lia.
    - intros Hmod. apply He. rewrite Hc. by apply bool_decide_eq_true. }
  destruct (failed res); cbn in *; split; intros; try done. rewrite Ho. auto.
Qed.
(** ** The loop of a frame *)

(** What the frame [i] asks for is a request the handler takes. *)
Lemma frame_request i next_heap req cap :
  awaiting i → call_ok i next_heap req → res_wf (available_resources req) →
  heap_cap (heap i) = cap → buffer_ok cap → request_wf req ∧ heap_ok next_heap.
Proof.
  intros [Hf _ _ _ _ _] Hc Hr Hcap Hb. pose proof (mem_cap _ (f_heap _ Hf)) as Hm.
  destruct Hc as [[Hc1 Hc2] H2 H3 H4 [H5 H6] H7 -> _ _ _]. unfold heap_len in H6. unfold buffer_ok in Hb.
  split; [|split; [done|cbn; unfold buffer_ok; lia]].
  split; try done.
  - rewrite Hc1. apply Hf.
  - rewrite Hc2. apply Hf.
  - split; [split; [done|]|]; lia.
Qed.

Lemma request_reply i next_heap req res p :
  call_ok i next_heap req → result_wf req res → pending_os_request i = Some p → reply_ok p res.
Proof.
  intros Hc [H1 H2 H3] Hp. split; try done. intros a rv -> Hres. 
  rewrite (co_constructor _ _ _ Hc) in Hp. destruct (decide _); [by eapply H3|done].
Qed.

(** Resuming the interpreter from the loop. *)
Lemma in_vm_spec {A} (m : M St EvmSubsystemError A) vm c :
  on_system (in_vm vm m) c
  = (match (m (mkSt vm (ec_system c) None)).1 with
     | Val a => Val (a, self (m (mkSt vm (ec_system c) None)).2)
     | Err e => Err (SCascaded (WrappedEEError (wrap_evm e)))
     | Fault => Fault
     end, set_system (system (m (mkSt vm (ec_system c) None)).2) c).
Proof. unfold on_system, zoom, in_vm. by destruct (m _) as [[]]. Qed.

Lemma usize_height h : 0 ≤ h ≤ 1025 → wrap usize_bits h = h.
Proof.
  intros Hh. apply wrap_small. pose proof usize_bits_pos. unfold in_width.
  assert (2 ^ 16 ≤ 2 ^ usize_bits); [|lia]. apply Z.pow_le_mono_r; lia.
Qed.

Definition frame_kind (req : ExternalCallRequest) (i : Interpreter) : Prop :=
  is_static i = is_static_call req ∧ is_constructor i = bool_decide (modifier req = Constructor)
  ∧ buffer_ok (heap_cap (heap i)).

Lemma kind_kept req i i' : kind_of i' = kind_of i → frame_kind req i → frame_kind req i'.
Proof. intros [= H1 H2 H3]. unfold frame_kind. by rewrite H1, H2, H3. Qed.

Lemma fatal_wrapped e : fatal e → fatal_boot (SCascaded (WrappedEEError (wrap_evm e))).
Proof. done. Qed.

(** A request of a frame, from the outside. *)
Lemma nested_call {A} handle n req heap c (K : CompletedExecution → M ExecutionContext _ A) :
  handles n handle → request_wf req → heap_ok heap → execution_ok c → callstack_height c ≤ 1024 →
  n_left (available_resources req) < n →
  let run := (modify (λ c, set_height (wrap usize_bits (callstack_height c + 1)) c) ;;
              completed ← handle EVM req heap;
              modify (λ c, set_height (wrap usize_bits (callstack_height c - 1)) c) ;;
              K completed) c in
  ∃ c', context_kept c c' ∧ later (ec_system c) (ec_system c')
    ∧ ((∃ e, run = (Err e, c') ∧ fatal_boot e)
       ∨ ∃ x, run = K x c' ∧ callstack_height c' = callstack_height c ∧ res_wf (resources_returned x)
           ∧ res_le_both (resources_returned x) (available_resources req)
           ∧ result_wf req (ce_result x)
           ∧ (is_static_call req = true → world (ec_system c') = world (ec_system c))).
Proof.
  intros Hh Hreq Hheap Hc Hd Hn run. unfold run. erewrite bind_val by done.
  rewrite usize_height by (pose proof (eo_height _ Hc); lia). set (c1 := set_height _ c).
  assert (execution_ok c1) as Hc1 by (destruct Hc; split; try done; cbn; lia).
  pose proof (Hh EVM req heap c1 Hreq Hheap Hc1 Hn) as Hcall.
  unfold call_outcome, completed_outcome in Hcall.
  destruct (handle EVM req heap c1) as [[x|e|] c2] eqn:E; cbn [fst snd] in Hcall;
    destruct Hcall as (Hl & Hck & Hcall); [| |done].
  - rewrite (bind_val _ _ _ _ _ E). destruct Hcall as (Hh2 & Hr2 & Hle2 & Hres & Hw2 & _).
    erewrite bind_val by done. rewrite Hh2, usize_height by (cbn; pose proof (eo_height _ Hc); lia).
    exists (set_height (callstack_height c1 - 1) c2). split; [by destruct Hck|].
    split; [exact Hl|]. right. exists x.
    split; [done|]. split; [cbn; lia|done].
  - rewrite (bind_err _ _ _ _ _ E). exists c2. split; [by destruct Hck|]. split; [exact Hl|].
    left. by exists e.
Qed.

Lemma execution_kept c c' :
  context_kept c c' → callstack_height c' = callstack_height c → execution_ok c → execution_ok c'.
Proof.
  intros [H1 H2] Hh [H3 H4 H5]. split; [by rewrite H1|by rewrite Hh|unfold buffer_ok in *; lia].
Qed.

Lemma frame_loop_spec req n handle :
  handles (20 * n) handle → ∀ fuel r vm y snap w k c,
  yielded r y (mkSt vm (ec_system c) None) → frame_kind req vm →
  alive (ec_system c) ((snap, w) :: k) → execution_ok c → callstack_height c ≤ 1024 →
  (is_static_call req = true → world (ec_system c) = w) →
  n_left r < 20 * (n + 1) → n_left r < 20 * (Z.of_nat fuel + 1) →
  frame_outcome req r w k c (frame_loop handle fuel vm y snap c).
Proof.
  intros Hh. induction fuel as [|fuel IH]; intros r vm y snap w k c Hy Hkind Ha Hc Hd Hw Hn Hf.
  all: destruct y as [heap req'|completed];
    [|apply (frame_end _ _ _ _ _ _ _ _ Ha (eo_memory _ Hc) Hw Hy); apply Hkind].
  { destruct Hy as (_ & _ & [_ [? _]] & _ & ?). lia. }
  destruct Hy as (Haw & Hok & Hr & Hle & Hpay). cbn [self] in *. cbn [frame_loop].
  pose proof Hkind as (Hst & Hco & Hcap).
  destruct (frame_request _ _ _ _ Haw Hok Hr eq_refl Hcap) as [Hreq Hheap].
  match goal with |- context [handle _ _ _ ≫= λ x, _ ≫= λ _, @?K x] =>
    destruct (nested_call handle (20 * n) req' heap c K) as (c3 & Hck & [Hl1 Hl2] & [(e & -> & He)|Hx])
  end; [done..|lia| |]. { split; [by eapply sl_forget, Hl2|done]. }
  destruct Hx as (x & -> & Hh3 & Hr3 & Hle3 & Hres & Hw3).
  set (st := mkSt vm (ec_system c3) None).
  pose proof (continue_spec (resources_returned x) (ce_result x) st Haw Hr3
    (λ p, request_reply _ _ _ _ p Hok Hres)) as (Hfw & [Hfl1 Hfl2] & Hfy).
  pose proof (in_vm_spec (continue_after_preemption (resources_returned x) (ce_result x)) vm c3) as Hvm.
  fold st in Hvm. destruct (continue_after_preemption _ _ st) as [[y|e|] st']; cbn [fst snd] in *; [| |done].
  2:{ rewrite (bind_err _ _ _ _ _ Hvm). split; [by eapply sl_forget, Hfl2, Hl2|].
      split; [cbn in *; congruence|split; [by destruct Hck|done]]. }
  rewrite (bind_val _ _ _ _ _ Hvm). destruct Hfy as [Hy' Hk'].
  apply (frame_outcome_trans _ (resources_returned x) _ _ _ _ (set_system (system st') c3));
    [by destruct Hck|done|cbn in *; congruence|by transitivity (available_resources req')|].
  destruct Hle3 as [_ Hle3]. apply IH; try done; try lia.
  - by eapply kind_kept.
  - by apply Hfl2, Hl2.
  - apply (execution_kept c); [by destruct Hck|done|done].
  - cbn. lia.
  - intros Hs. cbn [set_system ec_system]. rewrite Hs in Hst.
    rewrite (Hfw Hst), <- (Hw Hs). by apply Hw3, (co_static _ _ _ Hok).
Qed.
(** A call to a hook. *)
Lemma intercept_spec hooks a req ee mem sys :
  hooks_ok hooks → request_wf req →
  let '(o, sys') := try_intercept hooks a req ee mem sys in
  later sys sys' ∧ (is_static_call req = true → world sys' = world sys)
  ∧ match o with
    | Val (Some x, rest) =>
        res_wf (resources_returned x)
        ∧ res_le_both (resources_returned x) (available_resources req)
        ∧ (rest + length (result_bytes (ce_result x)) ≤ mem)%nat
        ∧ Forall is_u8 (result_bytes (ce_result x)) ∧ has_scratch_space (ce_result x) = false
    | Val (None, rest) => rest = mem
    | Err e => e ≠ LeafRuntime OutOfErgs
    | Fault => False
    end.
Proof.
  intros Hh [H1 _ H3 _ _ H6 H7 _]. unfold try_intercept.
  destruct (hooks !! a) as [hook|] eqn:E; [|done].
  pose proof (Hh a hook E req ee mem sys ltac:(by split)) as H. unfold mbind, M_bind.
  by destruct (hook req ee mem sys) as [[[x rest]|e|] sys'].
Qed.

Lemma frame_outcome_val req r w k c c' r' res :
  alive (ec_system c') k → sys_metadata (ec_system c') = sys_metadata (ec_system c) →
  context_kept c c' → callstack_height c' = callstack_height c → res_wf r' → res_le_both r' r →
  result_wf req res → (is_static_call req = true → world (ec_system c') = w) →
  (failed res = true → world (ec_system c') = w) → frame_outcome req r w k c (Val (r', res), c').
Proof. intros. by split_conj. Qed.

Lemma on_system_run {A} (m : M SysState BootloaderSubsystemError A) c :
  on_system m c = ((m (ec_system c)).1, set_system (m (ec_system c)).2 c).
Proof. unfold on_system, zoom. by destruct (m _). Qed.

Lemma empty_reply_wf req f : f = Failed ∨ f = Successful → result_wf req (f ReturnValues_empty).
Proof. intros [->| ->]; split; try apply bytes_ok_nil; try done. by intros _ rv [= <-]. Qed.

(** Finishing the frame is the last thing to do. *)
Lemma finish_outcome f req r w k c c1 snap reverted r' res :
  (∀ e, fatal_boot (f e)) →
  alive (ec_system c1) ((snap, w) :: k) → sys_metadata (ec_system c1) = sys_metadata (ec_system c) →
  context_kept c c1 → callstack_height c1 = callstack_height c → res_wf r' → res_le_both r' r →
  result_wf req res → (is_static_call req = true → world (ec_system c1) = w) →
  failed res = reverted →
  frame_outcome req r w k c
    ((on_system (map_err f (finish_io_frame (if reverted then Some snap else None))) ;;
      mret (r', res)) c1).
Proof.
  intros Hfe Ha Hm Hck Hh Hr Hle Hres Hst Hfail.
  destruct (finish_frame_spec f reverted snap w k c1 Hfe Ha) as (o & sys' & Hf & Ha' & Hmd & Ho).
  assert (context_kept c (set_system sys' c1)) by by destruct Hck.
  assert (sys_metadata sys' = sys_metadata (ec_system c)) by congruence.
  destruct o as [[]|e|]; [rewrite (bind_val _ _ _ _ _ Hf)|rewrite (bind_err _ _ _ _ _ Hf); by split|done].
  apply frame_outcome_val; try done; intros Hx; cbn; rewrite Ho; subst reverted.
  - destruct (failed res); auto.
  - by rewrite Hx.
Qed.

Lemma special_spec p ee snap w k c :
  request_wf (external_call p) → alive (ec_system c) ((snap, w) :: k) → execution_ok c →
  (is_static_call (external_call p) = true → world (ec_system c) = w) →
  frame_outcome (external_call p) (available_resources (external_call p)) w k c
    (call_to_special_address_execute_callee_frame p ee snap c).
Proof.
  intros Hq Ha Hc Hw. unfold call_to_special_address_execute_callee_frame.
  set (req := external_call p) in *. pose proof (rw_res _ Hq) as Hr0.
  destruct (bool_decide_reflect (modifier req = Constructor)) as [Hm|Hm].
  { apply (finish_outcome _ _ _ _ _ _ _ snap true); try done. apply empty_reply_wf. by left. }
  do 3 (erewrite bind_val by done). set (c1 := set_return_memory 0 c).
  pose proof (intercept_spec (ec_hooks c) (wrap 16 (limb (callee req) 0)) req (ee_byte ee)
    (return_memory c) (ec_system c) (eo_hooks _ Hc) Hq) as Hi.
  pose proof (on_system_run (map_err subsystem_of_system (try_intercept (ec_hooks c)
    (wrap 16 (limb (callee req) 0)) req (ee_byte ee) (return_memory c))) c1) as Hrun.
  unfold map_err in Hrun at 2 3. change (ec_system c1) with (ec_system c) in Hrun.
  destruct (try_intercept _ _ _ _ _ _) as [[[[x|] rest]|e|] sys1];
    destruct Hi as ([Hl1 Hl2] & Hs & Hi); [| | |done].
  3:{ rewrite (bind_err _ _ _ _ _ Hrun). split; [by eapply sl_forget, Hl2|]. split; [done|].
      split; [split; [done|cbn; lia]|]. by destruct e as [|[]]. }
  all: rewrite (bind_val _ _ _ _ _ Hrun); erewrite bind_val by done.
  - destruct Hi as (Hr & Hle & Hlen & Hb & Hsc).
    apply (finish_outcome (λ _, SLeafDefect (internal_error "must finish execution frame")));
      try done; [by apply Hl2|split; [done|cbn; lia]| | |].
    + apply reply_wf; [|done|done]. split; [done|]. pose proof (eo_memory _ Hc) as Hmem.
      unfold buffer_ok in Hmem. lia.
    + intros Hst. cbn. rewrite Hs; auto.
    + by destruct (failed (ce_result x)).
  - subst rest. apply (finish_outcome _ _ _ _ _ _ _ snap false); try done; [by apply Hl2| |].
    + apply empty_reply_wf. by right.
    + intros Hst. cbn. rewrite Hs; auto.
Qed.

(** The launch parameters of a frame. *)
Record launch_wf (p : ExecutionEnvironmentLaunchParams) : Prop := {
  lw_request : request_wf (external_call p);
  lw_code : code_ok (callee_account_properties (environment_parameters p))
}.

Lemma launch_wf_ok p : launch_wf p → launch_ok p.
Proof. intros [[? ? ? ? ? [] ? ?] ?]. by split. Qed.

(** A call to code. *)
Lemma callee_frame_spec n handle fuel p heap ee snap w k c :
  handles (20 * n) handle → launch_wf p → heap_ok heap →
  alive (ec_system c) ((snap, w) :: k) → execution_ok c → callstack_height c ≤ 1024 →
  (is_static_call (external_call p) = true → world (ec_system c) = w) →
  n_left (available_resources (external_call p)) < 20 * (n + 1) →
  n_left (available_resources (external_call p)) < 20 * (Z.of_nat fuel + 1) →
  frame_outcome (external_call p) (available_resources (external_call p)) w k c
    (call_execute_callee_frame handle fuel p heap ee snap c).
Proof.
  intros Hh Hl [Hheap Hcap] Ha Hc Hd Hw Hn Hf. unfold call_execute_callee_frame.
  set (req := external_call p) in *. pose proof (rw_res _ (lw_request _ Hl)) as Hr.
  assert (alive (ec_system c) k) by by eapply sl_forget.
  destruct ee; cbn [bool_decide].
  - rewrite bool_decide_true by done. destruct (bool_decide _); [by split|].
    destruct (negb _); [by split|]. apply frame_outcome_val; try done. apply empty_reply_wf. by right.
  - rewrite bool_decide_false by done. erewrite bind_val by done.
    pose proof (start_spec p heap (mkSt Interpreter_new (ec_system c) None) (launch_wf_ok p Hl)
      eq_refl Hheap) as (Hfw & [Hfl1 Hfl2] & Hfy).
    pose proof (in_vm_spec (start_executing_frame p heap) Interpreter_new c) as Hvm.
    destruct (start_executing_frame _ _ _) as [[y|e|] st']; cbn [fst snd] in *; [| |done].
    2:{ rewrite (bind_err _ _ _ _ _ Hvm). split; [by apply Hfl2|]. by split_conj. }
    rewrite (bind_val _ _ _ _ _ Hvm). destruct Hfy as [Hy' Hk'].
    eapply (frame_outcome_trans _ (available_resources req) _ _ _ _ (set_system (system st') c)); try done.
    eapply frame_loop_spec; try done.
    + unfold kind_of, launch_kind in Hk'. injection Hk' as H1 H2 H3. split; [done|].
      split; [done|]. by rewrite H3.
    + by apply Hfl2.
    + by apply (execution_kept c).
    + intros Hs. cbn. rewrite <- (Hw Hs). by apply Hfw.
Qed.
(** ** Calls *)

(** A call is its frames, over a snapshot of what the checks left. *)
Lemma outcome_of_frames req r c c1 sys1 x :
  (∀ k, alive (ec_system c) k → frame_outcome req r (world sys1) k c1 x) →
  context_kept c c1 → callstack_height c1 = callstack_height c →
  sys_metadata (ec_system c1) = sys_metadata (ec_system c) →
  undone req (callstack_height c) (ec_system c) sys1 → call_outcome req r c x.
Proof.
  intros Hx Hck Hh Hm Hu. destruct (Hx [] (sl_alive _)) as (_ & H2 & H3 & H4).
  split; [split; [congruence|intros k Hk; by apply (Hx k Hk)]|].
  split; [by etransitivity|]. destruct x as [[[r' res]|e|] c']; cbn in *; [|done..].
  destruct H4 as (K1 & K2 & K3 & K4 & K5 & K6). split; [congruence|]. split; [done|]. split; [done|].
  split; [done|]. split.
  - intros Hs. rewrite (K5 Hs). by eapply undone_static.
  - intros Hf. unfold undone, creator_bumped in *. by rewrite (K6 Hf).
Qed.

Lemma request_available r req :
  request_wf req → res_wf r → request_wf (set_available r req).
Proof. intros []. by split. Qed.

(** Only the kind of the request matters for its outcome. *)
Lemma frame_outcome_available r0 req r w k c x :
  frame_outcome (set_available r0 req) r w k c x → frame_outcome req r w k c x.
Proof.
  intros (H1 & H2 & H3 & H4). split; [done|]. split; [done|]. split; [done|].
  destruct x as [[[r2 res]|e|] c']; cbn in *; [|done..]. destruct H4 as (K1 & K2 & K3 & [] & K5 & K6).
  by split_conj.
Qed.

(** From the snapshot on. *)
Lemma frames_spec n handle fuel ee' ee p heap snap w k c :
  handles (20 * n) handle → launch_wf p → heap_ok heap →
  alive (ec_system c) ((snap, w) :: k) → execution_ok c → callstack_height c ≤ 1024 →
  world (ec_system c) = w →
  n_left (available_resources (external_call p)) < 20 * (n + 1) →
  n_left (available_resources (external_call p)) < 20 * (Z.of_nat fuel + 1) →
  frame_outcome (external_call p) (available_resources (external_call p)) w k c
    (('(go, req) ← on_system (perform_transfer_if_required (external_call p) ee);
      if negb go then
        on_system (finish_global_frame (Some snap)) ;;
        mret (nothing_returned req Failed)
      else
        hooks ← gets ec_hooks;
        if is_special hooks req then
          call_to_special_address_execute_callee_frame (set_call req p) ee snap
        else
          call_execute_callee_frame handle fuel (set_call req p) heap ee' snap) c).
Proof.
  intros Hh [Hq Hcode] Hheap Ha Hc Hd Hw Hn Hf.
  pose proof (transfer_spec (external_call p) ee (ec_system c) Hq) as Ht.
  pose proof (on_system_run (perform_transfer_if_required (external_call p) ee) c) as Hrun.
  destruct (perform_transfer_if_required _ _ _) as [[[go req']|e|] sys1];
    destruct Ht as ([Hl1 Hl2] & Hs & Ht); [| |done].
  2:{ rewrite (bind_err _ _ _ _ _ Hrun). split; [by eapply sl_forget, Hl2|]. by split_conj. }
  rewrite (bind_val _ _ _ _ _ Hrun). cbn [fst snd]. destruct Ht as (Hreq & Hr & Hle).
  set (r' := available_resources req') in *. set (req := external_call p) in *.
  apply (frame_outcome_trans _ r' _ _ _ _ (set_system sys1 c)); try done.
  assert (is_static_call req' = true → world sys1 = w) as Hst.
  { rewrite Hreq. intros Hst. rewrite <- Hw. by apply Hs. }
  assert (request_wf req') as Hq' by (rewrite Hreq; by apply request_available).
  apply (frame_outcome_available r'). rewrite <- Hreq. destruct go; cbn [negb].
  - erewrite bind_val by done. destruct (is_special _ _).
    + apply (special_spec (set_call req' p)); try done; [by apply Hl2|by apply (execution_kept c)].
    + destruct Hle as [_ Hle]. fold req in Hn, Hf. apply (callee_frame_spec n _ _ (set_call req' p)); try done.
      * by apply Hl2.
      * by apply (execution_kept c).
      * cbn. fold r'. lia.
      * cbn. fold r'. lia.
  - apply (finish_outcome SLeafDefect _ _ _ _ _ _ snap true); try done; [by apply Hl2|].
    apply empty_reply_wf. by left.
Qed.

Lemma execute_call_spec n handle fuel ee' ee p heap c :
  handles (20 * n) handle → launch_wf p → heap_ok heap → execution_ok c →
  callstack_depth (environment_parameters p) = callstack_height c →
  n_left (available_resources (external_call p)) < 20 * (n + 1) →
  n_left (available_resources (external_call p)) < 20 * (Z.of_nat fuel + 1) →
  call_outcome (external_call p) (available_resources (external_call p)) c
    (execute_call handle fuel ee' ee p heap c).
Proof.
  intros Hh Hl Hheap Hc Hdepth Hn Hf. unfold execute_call.
  set (req := external_call p) in *. set (r := available_resources req) in *.
  pose proof (before_spec (interpret_as ee' ee) p (ec_system c, r) (rw_res _ (lw_request _ Hl))) as Hb.
  pose proof (on_system_run (local_io r (ee_before_executing_frame (interpret_as ee' ee) p)) c) as Hrun.
  unfold local_io in Hrun at 2 3. rewrite Hdepth in Hb.
  destruct (ee_before_executing_frame _ _ _) as [[b|e|] [sys1 r1]]; cbn [fst snd] in *;
    destruct Hb as (Hw1 & Hle1 & Hla1 & Hu & Hb); [| |done];
    rewrite (bind_val _ _ _ _ _ Hrun); [|done].
  destruct b.
  2:{ split; [done|]. split; [done|]. cbn. split_conj; try done.
      - apply empty_reply_wf. by left. - intros. by eapply undone_static. }
  specialize (Hb eq_refl).
  pose proof (on_system_run start_global_frame (set_system sys1 c)) as Hstart.
  unfold start_global_frame in Hstart at 2 3. unfold map_err in Hstart. cbn [set_system ec_system] in Hstart.
  pose proof (sl_start sys1) as Hk.
  destruct (start_io_frame sys1) as [[snap|e|] sys2]; cbn [fst snd] in Hstart;
    [| |by destruct (Hk [] (sl_alive _))].
  2:{ rewrite (bind_err _ _ _ _ _ Hstart). destruct (Hk [] (sl_alive _)) as [H1 _].
      split; [by transitivity sys1|done]. }
  rewrite (bind_val _ _ _ _ _ Hstart). destruct Hla1 as [Hm1 Ha1].
  destruct (Hk [] (sl_alive _)) as (_ & Hw2 & Hm2).
  apply (outcome_of_frames _ _ _ (set_system sys2 c) sys1); try done; [|cbn; congruence].
  intros k Halive. set (p1 := set_call (set_available r1 req) p).
  assert (launch_wf p1) as Hl1.
  { split; [apply request_available; [apply Hl|done]|apply Hl]. }
  apply (frame_outcome_trans _ r1 _ _ _ _ (set_system sys2 c)); try done.
  apply (frame_outcome_available r1).
  apply (frames_spec n handle fuel ee' ee p1); try done; try (destruct Hle1; cbn; lia).
  - by apply Hk, Ha1.
  - by apply (execution_kept c).
Qed.
Lemma reclaim_spec whole callee caller r c :
  res_wf whole → parts whole callee caller → res_wf r → res_le_both r callee →
  ∃ r', reclaim_into caller r c = (Val r', c) ∧ res_wf r' ∧ res_le_both r' whole.
Proof.
  intros [[He1 He2] [Hn1 Hn2]] [P1 [[Pc1 Pc2] [Pc3 Pc4]] P3 P4 P5] [[Hr1 Hr2] [Hr3 Hr4]] [Hle1 Hle2].
  exists (mk_res (e_left caller + e_left r) (n_left r)).
  split; [|unfold res_wf, res_le_both, in_width, e_left, n_left, mk_res in *; cbn -[Z.pow] in *; lia].
  unfold reclaim_into. destruct caller as [[ec] [nc]], r as [[er] [nr]].
  unfold e_left, n_left in *. cbn -[Z.pow] in *. subst nc.
  assert (reclaim (mk_res er nr) (mk_res ec 0) = (Val tt, mk_res (wrap 64 (ec + er)) (wrap 64 (0 + nr)))) as H
    by done.
  change (mkResources (mkErgs ?x) (from_computational ?y)) with (mk_res x y).
  rewrite H, !wrap_small by (unfold in_width in *; lia). done.
Qed.

Lemma call_outcome_of req r c c1 x r1 :
  call_outcome (set_available r1 req) r c1 x → context_kept c c1 →
  callstack_height c1 = callstack_height c → later (ec_system c) (ec_system c1) →
  world (ec_system c1) = world (ec_system c) → call_outcome req r c x.
Proof.
  intros (H1 & H2 & H3) Hck Hh Hl Hw. split; [by etransitivity|]. split; [by etransitivity|].
  destruct x as [[[r2 res]|e|] c']; cbn in *; [|done..].
  destruct H3 as (K1 & K2 & K3 & [] & K5 & K6). rewrite Hw in K5. rewrite Hh in K6.
  split; [congruence|]. split; [done|]. split; [done|]. split; [by split|].
  split; [done|]. intros Hf. destruct (K6 Hf) as [H|(Hm & Hd & sys1 & r3 & Hs1 & Hs2)].
  - left. by rewrite H.
  - right. split; [done|]. split; [done|]. exists sys1, r3. by rewrite Hs1, Hw.
Qed.

(** The recursion and the loops end within the fuel, by the native they cost. *)
Lemma handle_spec fuel : ∀ entry,
  handles (20 * Z.of_nat fuel) (handle_requested_external_call fuel entry).
Proof.
  induction fuel as [|fuel IH]; intros entry ee req heap c Hq Hheap Hc Hn.
  { destruct (rw_res _ Hq) as [_ [? _]]. lia. }
  cbn [handle_requested_external_call]. erewrite bind_val by done.
  pose proof (prepare_spec entry ee req (callstack_height c) (ec_system c) Hq) as Hp.
  pose proof (on_system_run (read_callee_and_prepare_frame_state entry ee req (callstack_height c)) c) as Hrun.
  destruct (read_callee_and_prepare_frame_state _ _ _ _ _) as [[[ee' p rc|r]|e|] sys1];
    destruct Hp as (Hl & Hw & Hp); cbn [fst snd] in Hrun; [| | |done].
  3:{ by rewrite (bind_err _ _ _ _ _ Hrun). }
  2:{ rewrite (bind_val _ _ _ _ _ Hrun). destruct Hp. split; [done|]. split; [done|]. cbn.
      split_conj; try done; [by split; [|apply bytes_ok_nil|]|by left]. }
  rewrite (bind_val _ _ _ _ _ Hrun). destruct Hp as [Hcall Hparts Hdepth Hcode].
  set (r1 := available_resources (external_call p)) in *. pose proof (pt_natives _ _ _ Hparts) as Hnat.
  assert (launch_wf p) as Hlw.
  { split; [|done]. rewrite Hcall. apply request_available; [done|apply Hparts]. }
  pose proof (execute_call_spec (Z.of_nat fuel) _ fuel ee' ee p heap (set_system sys1 c) (IH false) Hlw Hheap
    ltac:(by apply (execution_kept c)) Hdepth ltac:(fold r1; lia) ltac:(fold r1; lia)) as Hex.
  rewrite Hcall in Hex. apply (call_outcome_of _ _ c) in Hex; try done. fold r1 in Hex.
  destruct (execute_call _ _ _ _ _ _ _) as [[[r2 res]|e|] c2] eqn:E.
  3:{ by destruct Hex as (_ & _ & []). }
  2:{ by rewrite (bind_err _ _ _ _ _ E). }
  rewrite (bind_val _ _ _ _ _ E). destruct Hex as (H1 & H2 & K1 & K2 & K3 & K4).
  destruct (reclaim_spec _ _ _ r2 c2 (rw_res _ Hq) Hparts) as (r' & Hrec & Hr' & Hle'); [done|done|].
  rewrite (bind_val _ _ _ _ _ Hrec). by split_conj.
Qed.

Lemma call_fuel_enough r : res_wf r → n_left r < 20 * Z.of_nat (call_fuel r).
Proof.
  intros [_ [Hn1 Hn2]]. unfold call_fuel. change STEP_NATIVE_COST with 20.
  pose proof (Z.div_mod (n_left r) 20 ltac:(lia)). pose proof (Z.mod_pos_bound (n_left r) 20 ltac:(lia)).
  pose proof (Z.div_pos (n_left r) 20). lia.
Qed.

Lemma run_spec_boot memories hooks ee req sys :
  request_wf req → hooks_ok hooks → buffer_ok (heaps memories) → buffer_ok (return_data memories) →
  ∃ x, call_outcome req (available_resources req) (mkExecution sys hooks 0 (return_data memories)) x
    ∧ ∃ o, x = completed_outcome o ∧ run_till_completion memories hooks ee req sys = (o.1, ec_system o.2).
Proof.
  intros Hq Hh Hm1 Hm2. eexists. split.
  - apply (handle_spec (call_fuel (available_resources req)) true ee req (mkHeap (heaps memories) [])).
    + done. + done. + by split. + apply call_fuel_enough, Hq.
  - eexists. split; [done|]. unfold run_till_completion. by destruct (handle_requested_external_call _ _ _ _ _ _).
Qed.

(** ** The theorems *)

(** C7: the call tree of a transaction ends.  Within a fuel that the native resource
    of the request bounds, a call with all calls it makes, through hooks and
    interpreter frames to any depth, ends without a panic: in a result, with no more
    ergs and no more native than it was given and data the caller can take, or in an
    error that is fatal for the transaction, never in running out of gas.  The
    transaction's context and all outer snapshots are kept. *)
Theorem call_tree_total memories hooks ee req sys :
  request_wf req → hooks_ok hooks → buffer_ok (heaps memories) → buffer_ok (return_data memories) →
  match run_till_completion memories hooks ee req sys with
  | (Val c, sys') => later sys sys' ∧ res_wf (resources_returned c)
      ∧ res_le_both (resources_returned c) (available_resources req) ∧ result_wf req (ce_result c)
  | (Err e, sys') => later sys sys' ∧ fatal_boot e
  | (Fault, _) => False
  end.
Proof.
  intros Hq Hh Hm1 Hm2.
  destruct (run_spec_boot memories hooks ee req sys Hq Hh Hm1 Hm2) as (x & Hx & o & -> & ->).
  destruct o as [[c|e|] c']; cbn in *; destruct Hx as (H1 & _ & H3); [|done..].
  by destruct H3 as (_ & ? & ? & ? & _).
Qed.

(** C5: a failed call is undone.  At the top the world is exactly what it was.  For a
    call at any depth, with enough fuel, it is what it was, or, for a creation by a
    contract, only the nonce of the creator has gone up. *)
Theorem failed_calls_undone fuel entry ee req heap c :
  request_wf req → heap_ok heap → execution_ok c →
  n_left (available_resources req) < 20 * Z.of_nat fuel →
  match handle_requested_external_call fuel entry ee req heap c with
  | (Val x, c') => failed (ce_result x) = true →
      (callstack_height c = 0 ∨ modifier req ≠ Constructor → world (ec_system c') = world (ec_system c))
      ∧ (world (ec_system c') = world (ec_system c) ∨ creator_bumped req (ec_system c) (ec_system c'))
  | (Err e, _) => fatal_boot e
  | (Fault, _) => False
  end.
Proof.
  intros Hq Hheap Hc Hn. pose proof (handle_spec fuel entry ee req heap c Hq Hheap Hc Hn) as H.
  destruct (handle_requested_external_call _ _ _ _ _ _) as [[x|e|] c'];
    destruct H as (_ & _ & H); [|done|done].
  destruct H as (_ & _ & _ & _ & _ & Hu). intros Hf. destruct (Hu Hf) as [H|(Hm & Hd & Hb)].
  - split; [done|by left].
  - split; [|by right]. intros [H0|H0]; [cbn in *; lia|done].
Qed.

(** C17: static calls change nothing.  A static call that comes to a result, successful
    or not, whatever code it runs, has left the world as it was, and with it every call
    below it.  It comes to a result unless an error that is fatal for the transaction
    ends it; it does not panic. *)
Theorem static_calls_pure fuel entry ee req heap c :
  request_wf req → heap_ok heap → execution_ok c →
  n_left (available_resources req) < 20 * Z.of_nat fuel → is_static_call req = true →
  match handle_requested_external_call fuel entry ee req heap c with
  | (Val _, c') => world (ec_system c') = world (ec_system c)
  | (Err e, _) => fatal_boot e
  | (Fault, _) => False
  end.
Proof.
  intros Hq Hheap Hc Hn Hs. pose proof (handle_spec fuel entry ee req heap c Hq Hheap Hc Hn) as H.
  destruct (handle_requested_external_call _ _ _ _ _ _) as [[x|e|] c'];
    destruct H as (_ & _ & H); [|done|done].
  destruct H as (_ & _ & _ & _ & Hw & _). by apply Hw.
Qed.

End Theorems.
