(* ===== verification/AbiTheorems.v ===== *)
(** * Which ABI-encoded transactions are accepted

    The reference encoding of a transaction from L1, and the proof that the parser of
    AbiTx.v accepts its image and nothing else, and returns the fields. *)

From stdpp Require Import strings.
From S2P Require Import Prelude Resources U256 SystemInterface BootloaderErrors RlpParser Rlp RlpLogic TxFormats AbiTx.

(** ** The encoding *)

Record L1Tx : Type := mkL1Tx {
  l1_is_upgrade : bool;
  l1_from : Z;
  l1_to : Z;
  l1_gas_limit : Z;
  l1_gas_per_pubdata : Z;
  l1_max_fee : Z;
  l1_max_priority_fee : Z;
  l1_nonce : Z;
  l1_value : Z;
  l1_deposited : Z;
  l1_refund_recipient : Z;
  l1_data : list Z;
  l1_factory_deps : list Z
}.

Definition l1_type (t : L1Tx) : Z := if l1_is_upgrade t then UPGRADE_TX_TYPE else L1_L2_TX_TYPE.

(** Zeros up to a multiple of a word. *)
Definition word_padding (l : list Z) : list Z :=
  repeat 0 (Z.to_nat ((- Z.of_nat (length l)) mod 32)).

Definition abi_word (x : Z) : list Z := be_bytes 32 x.
Definition abi_bytes (l : list Z) : list Z :=
  abi_word (Z.of_nat (length l)) ++ l ++ word_padding l.
(** The elements, of one word each, are given as one list. *)
Definition abi_vector (l : list Z) : list Z := abi_word (Z.of_nat (length l) / 32) ++ l.

Definition l1_static (t : L1Tx) : list Z :=
  concat (map abi_word
    [l1_type t; l1_from t; l1_to t; l1_gas_limit t; l1_gas_per_pubdata t; l1_max_fee t;
     l1_max_priority_fee t; 0; l1_nonce t; l1_value t; l1_deposited t; l1_refund_recipient t; 0; 0]).

Definition l1_encoding (t : L1Tx) : list Z :=
  let data := abi_bytes (l1_data t) in
  let deps := abi_vector (l1_factory_deps t) in
  let o1 := DYNAMIC_PART_EXPECTED_OFFSET + Z.of_nat (length data) in
  let o2 := o1 + 32 in
  let o3 := o2 + Z.of_nat (length deps) in
  l1_static t
  ++ concat (map abi_word [DYNAMIC_PART_EXPECTED_OFFSET; o1; o2; o3; o3 + 32])
  ++ data ++ abi_bytes [] ++ deps ++ abi_bytes [] ++ abi_bytes [].

Record l1_ok (t : L1Tx) : Prop := {
  lo_from : is_b160 (l1_from t);
  lo_to : is_b160 (l1_to t);
  lo_gas_limit : is_u64 (l1_gas_limit t);
  lo_gas_per_pubdata : is_u32 (l1_gas_per_pubdata t);
  lo_max_fee : is_u256 (l1_max_fee t);
  lo_max_priority_fee : is_u256 (l1_max_priority_fee t);
  lo_nonce : is_u256 (l1_nonce t);
  lo_value : is_u256 (l1_value t);
  lo_deposited : is_u256 (l1_deposited t);
  lo_refund_recipient : is_u256 (l1_refund_recipient t);
  lo_data : Forall is_u8 (l1_data t);
  lo_deps : Forall is_u8 (l1_factory_deps t);
  lo_deps_words : Z.of_nat (length (l1_factory_deps t)) mod 32 = 0
}.

(** The parsed transaction has the fields of [t]. *)
Record abi_matches (t : L1Tx) (tx : AbiEncodedTransaction) : Prop := {
  am_buffer : underlying_buffer tx = l1_encoding t;
  am_type : pv_value (ab_tx_type tx) = l1_type t;
  am_from : pv_value (ab_from tx) = l1_from t;
  am_to : pv_value (ab_to tx) = l1_to t;
  am_gas_limit : pv_value (ab_gas_limit tx) = l1_gas_limit t;
  am_gas_per_pubdata : pv_value (ab_gas_per_pubdata_limit tx) = l1_gas_per_pubdata t;
  am_max_fee : pv_value (ab_max_fee_per_gas tx) = l1_max_fee t;
  am_max_priority_fee : pv_value (ab_max_priority_fee_per_gas tx) = l1_max_priority_fee t;
  am_nonce : pv_value (ab_nonce tx) = l1_nonce t;
  am_value : pv_value (ab_value tx) = l1_value t;
  am_deposited : pv_value (ab_reserved_0 tx) = l1_deposited t;
  am_refund_recipient : pv_value (ab_reserved_1 tx) = l1_refund_recipient t;
  am_data : abi_calldata tx = l1_data t
}.

(** ** Running the parser *)
Section Runs.
Context {UZ : Usize}.

(** From behind [pre], the parser fails or reads on, to a value and a longer prefix
    in [Post], which also sees what is left. *)
Definition runs {A} (m : M AbiParser unit A) (pre : list Z) (Post : A → list Z → list Z → Prop) : Prop :=
  ∀ rest, Forall is_u8 (pre ++ rest) → Z.of_nat (length (pre ++ rest)) < 2 ^ 32 →
  match m (mkAbiParser (pre ++ rest) (Z.of_nat (length pre))) with
  | (Val v, p) => ∃ e rest', rest = e ++ rest'
      ∧ p = mkAbiParser (pre ++ rest) (Z.of_nat (length (pre ++ e))) ∧ Post v (pre ++ e) rest'
  | (Err _, _) => True
  | (Fault, _) => False
  end.

Lemma runs_bind {A B} (m : M AbiParser unit A) (k : A → M AbiParser unit B) pre P Q :
  runs m pre P → (∀ v pre' rest', P v pre' rest' → runs (k v) pre' Q) → runs (m ≫= k) pre Q.
Proof.
  intros Hm Hk rest Hu Hl. specialize (Hm rest Hu Hl). unfold mbind, M_bind.
  destruct (m _) as [[v|e|] p]; [|done|done]. destruct Hm as (e & rest' & -> & -> & HP).
  specialize (Hk v _ _ HP rest'). rewrite <- app_assoc in Hk. specialize (Hk Hu Hl).
  destruct (k v _) as [[b|?|] p]; [|done|done]. destruct Hk as (e' & rest'' & -> & -> & HQ).
  exists (e ++ e'), rest''. by rewrite !app_assoc.
Qed.

Lemma runs_ret {A} (a : A) pre (P : A → list Z → list Z → Prop) :
  (∀ rest, P a pre rest) → runs (mret a) pre P.
Proof. intros HP rest _ _. exists [], rest. by rewrite !app_nil_r. Qed.

Lemma runs_when {A} (b : bool) (k : unit → M AbiParser unit A) pre P :
  (b = false → runs (k tt) pre P) → runs (when b (throw tt) ≫= k) pre P.
Proof. intros Hk. destruct b; [by intros rest|by apply Hk]. Qed.

Lemma runs_conseq {A} (m : M AbiParser unit A) pre (P Q : A → list Z → list Z → Prop) :
  runs m pre P → (∀ v pre' rest', P v pre' rest' → Q v pre' rest') → runs m pre Q.
Proof.
  intros Hm HPQ rest Hu Hl. specialize (Hm rest Hu Hl). destruct (m _) as [[v|e|] p]; [|done|done].
  destruct Hm as (e & rest' & ? & ? & ?). exists e, rest'. auto.
Qed.

Lemma usize_u32 x : 0 ≤ x < 2 ^ 32 → in_width usize_bits x.
Proof.
  intros Hx. pose proof usize_bits_pos. assert (2 ^ 32 ≤ 2 ^ usize_bits) by (apply Z.pow_le_mono_r; lia).
  unfold in_width. lia.
Qed.

Lemma parser_slice_run pre rest :
  parser_slice (mkAbiParser (pre ++ rest) (Z.of_nat (length pre)))
  = (Val rest, mkAbiParser (pre ++ rest) (Z.of_nat (length pre))).
Proof.
  unfold parser_slice, mbind, M_bind, gets, id. rewrite length_app.
  destruct (Z.ltb_spec (Z.of_nat (length pre + length rest)) (Z.of_nat (length pre))); [lia|].
  by rewrite Nat2Z.id, drop_app_length.
Qed.

Lemma zeros_repeat (l : list Z) : forallb (λ b, b =? 0) l = true ↔ l = repeat 0 (length l).
Proof.
  induction l as [|b l IH]; [done|]. cbn [forallb length repeat].
  rewrite andb_true_iff, Z.eqb_eq, IH. split; [by intros [-> <-]|]. intros [= -> H]. by rewrite <- H.
Qed.

(** Bytes of which the high ones are zero are the encoding of a number. *)
Lemma validate_be_Some (w : nat) (e : list Z) v :
  (w ≤ 32)%nat → length e = 32%nat → Forall is_u8 e →
  validate_be w e = Some v → in_width (8 * Z.of_nat w) v ∧ e = abi_word v.
Proof.
  intros Hw Hl Hu. unfold validate_be. destruct (forallb _ _) eqn:Hz; [|done]. intros [= <-].
  apply zeros_repeat in Hz. rewrite length_take in Hz.
  assert (length (drop (32 - w) e) = w) as Hd by (rewrite length_drop; lia).
  pose proof (of_be_bytes_bound _ (Forall_drop _ (32 - w) _ Hu)) as Hb. rewrite Hd in Hb. split; [done|].
  unfold abi_word. rewrite <- (of_be_bytes_pad ((32 - w) `min` length e)), <- Hz, take_drop, <- Hl at 1.
  by rewrite be_bytes_of_be_bytes.
Qed.

Lemma validate_be_word (w : nat) v :
  (w ≤ 32)%nat → in_width (8 * Z.of_nat w) v → validate_be w (abi_word v) = Some v.
Proof.
  intros Hw Hv. set (z := repeat 0 (32 - w)). set (d := be_bytes w v).
  assert (of_be_bytes (z ++ d) = v) as Hzd.
  { unfold z, d. rewrite of_be_bytes_pad, of_be_bytes_be_bytes. by apply Z.mod_small. }
  assert (length (z ++ d) = 32%nat) as Hlen
    by (unfold z, d; rewrite length_app, repeat_length, length_be_bytes; lia).
  assert (abi_word v = z ++ d) as ->.
  { unfold abi_word. rewrite <- Hzd, <- Hlen. apply be_bytes_of_be_bytes, Forall_app. split.
    - apply Forall_forall. intros x Hx. apply list_elem_of_In, repeat_spec in Hx as ->. done.
    - apply Forall_reverse, le_bytes_u8. }
  unfold validate_be. replace (32 - w)%nat with (length z) by apply repeat_length.
  rewrite take_app_length, drop_app_length.
  rewrite (proj2 (zeros_repeat z)) by (unfold z; by rewrite repeat_length). f_equal.
  unfold d. rewrite of_be_bytes_be_bytes. by apply Z.mod_small.
Qed.

(** Every word parser reads [w] bytes. *)
Definition reads_word (validate : list Z → option Z) (w : nat) : Prop :=
  (w ≤ 32)%nat ∧ ∀ e, length e = 32%nat → Forall is_u8 e → validate e = validate_be w e.

Lemma reads_whole_word : reads_word U256BEPtr_read 32.
Proof. split; [lia|]. intros e He _. unfold validate_be, U256BEPtr_read. by rewrite drop_0. Qed.

Lemma parse_word_run validate pre rest :
  Z.of_nat (length (pre ++ rest)) < 2 ^ 32 →
  parse_word validate (mkAbiParser (pre ++ rest) (Z.of_nat (length pre)))
  = (if bool_decide (length rest < 32)%nat then (Err tt, mkAbiParser (pre ++ rest) (Z.of_nat (length pre)))
     else match validate (take 32 rest) with
          | Some v => (Val (mkParsed v (Z.of_nat (length pre), Z.of_nat (length pre) + 32)),
                       mkAbiParser (pre ++ rest) (Z.of_nat (length pre) + 32))
          | None => (Err tt, mkAbiParser (pre ++ rest) (Z.of_nat (length pre)))
          end).
Proof.
  intros Hl. unfold parse_word. erewrite bind_val by apply parser_slice_run. cbv beta.
  unfold U256BEPtr_try_from_slice. case_bool_decide as Hr; [done|]. cbn [lift_opt].
  unfold mbind at 1, M_bind at 1. cbn [mret M_ret]. destruct (validate _) as [v|]; [|done].
  rewrite length_app in Hl. unfold mbind, M_bind, gets, advance, modify. cbn -[wrap].
  rewrite wrap_small; [done|]. apply usize_u32. lia.
Qed.

Lemma runs_word validate w pre :
  reads_word validate w →
  runs (parse_word validate) pre (λ x pre' _, ∃ v, in_width (8 * Z.of_nat w) v
    ∧ x = mkParsed v (Z.of_nat (length pre), Z.of_nat (length pre) + 32) ∧ pre' = pre ++ abi_word v).
Proof.
  intros [Hw Hv] rest Hu Hl. rewrite parse_word_run by done. case_bool_decide as Hr; [done|].
  assert (length (take 32 rest) = 32%nat) as Ht by (rewrite length_take; lia).
  assert (Forall is_u8 (take 32 rest)) as Hut by (apply Forall_take; by apply Forall_app in Hu as []).
  destruct (validate (take 32 rest)) as [v|] eqn:E; [|done].
  rewrite Hv in E by done. apply validate_be_Some in E as [Hin E]; try done.
  exists (abi_word v), (drop 32 rest). rewrite <- E, take_drop.
  split; [done|]. split; [|by exists v; rewrite E].
  f_equal. rewrite length_app, Ht. lia.
Qed.
Lemma reads_be w : (w ≤ 32)%nat → reads_word (validate_be w) w.
Proof. by split. Qed.

Lemma padding_arith len :
  0 ≤ len →
  (len + 31) / 32 * 32 = len + (- len) mod 32
  ∧ (len mod 32 = 0 → (- len) mod 32 = 0) ∧ (len mod 32 ≠ 0 → 32 - len mod 32 = (- len) mod 32).
Proof. intros Hl. split_conj; intros; Z.to_euclidean_division_equations; lia. Qed.

(** The part of [parse_bytes] behind the length. *)
Definition bytes_body (len : Z) : M AbiParser unit (ParsedValue unit) :=
  padded_len ← lift_opt tt (checked_mul 32 ((len + 31) / U256_BYTES) U256_BYTES);
  slice ← parser_slice;
  if wrap 32 (Z.of_nat (List.length slice)) <? padded_len then throw tt
  else
    start ← gets ap_offset;
    end_ ← lift_opt tt (checked_add usize_bits start padded_len);
    (if len mod U256_BYTES =? 0 then mret tt
     else
       let zero_bytes := U256_BYTES - len mod U256_BYTES in
       padding ← expect (Prelude.slice slice (padded_len - zero_bytes) zero_bytes);
       when (negb (forallb (λ byte, byte =? 0) padding)) (throw tt)) ;;
    advance end_ ;;
    mret (mkParsed tt (start, start + len)).

(** [bytes_body] in one case distinction. *)
Lemma bytes_body_run len pre rest :
  0 ≤ len → Z.of_nat (length (pre ++ rest)) < 2 ^ 32 →
  let pad := (- len) mod 32 in
  let p := mkAbiParser (pre ++ rest) (Z.of_nat (length pre)) in
  bytes_body len p
  = (if (Z.of_nat (length rest) <? len + pad)
        || negb (forallb (λ byte, byte =? 0) (take (Z.to_nat pad) (drop (Z.to_nat len) rest)))
     then (Err tt, p)
     else (Val (mkParsed tt (Z.of_nat (length pre), Z.of_nat (length pre) + len)),
           mkAbiParser (pre ++ rest) (Z.of_nat (length pre) + (len + pad)))).
Proof.
  intros Hl Hb pad p. unfold bytes_body. change U256_BYTES with 32.
  destruct (padding_arith len Hl) as (Hp & H0 & H1). fold pad in Hp, H0, H1.
  assert (0 ≤ pad < 32) as Hpad by (apply Z.mod_pos_bound; lia).
  rewrite length_app in Hb. unfold checked_mul. rewrite Hp.
  destruct (checked 32 (len + pad)) as [padded|] eqn:Hc; cycle 1.
  { apply checked_None in Hc. unfold in_width in Hc.
    destruct (Z.ltb_spec (Z.of_nat (length rest)) (len + pad)); [done|lia]. }
  apply checked_Some in Hc as [<- Hc]. cbn [lift_opt]. unfold mbind at 1, M_bind at 1. cbn [mret M_ret].
  erewrite bind_val by apply parser_slice_run. cbv beta. rewrite wrap_small by (unfold in_width; lia).
  destruct (Z.ltb_spec (Z.of_nat (length rest)) (len + pad)) as [Hr|Hr]; [done|]. cbn [orb].
  erewrite bind_val by reflexivity. cbv beta. cbn [ap_offset].
  unfold checked_add. rewrite checked_in by (apply usize_u32; lia). cbn [lift_opt].
  unfold mbind at 1, M_bind at 1. cbn [mret M_ret].
  destruct (Z.eqb_spec (len mod 32) 0) as [Hz|Hz]; [by rewrite H0|]. rewrite H1 by done.
  replace (len + pad - pad) with len by lia.
  rewrite (proj2 (slice_Some rest len pad (take (Z.to_nat pad) (drop (Z.to_nat len) rest))))
    by (split_conj; [lia|lia|lia|done]).
  cbn [expect]. unfold mbind, M_bind. cbn [mret M_ret]. by destruct (forallb _ _).
Qed.

Lemma runs_bytes_body len pre :
  0 ≤ len →
  runs (bytes_body len) pre (λ x pre' _, ∃ l, len = Z.of_nat (length l) ∧ Forall is_u8 l
    ∧ x = mkParsed tt (Z.of_nat (length pre), Z.of_nat (length pre) + len)
    ∧ pre' = pre ++ l ++ word_padding l).
Proof.
  intros Hl rest Hu Hb. rewrite bytes_body_run by done. set (pad := (- len) mod 32).
  destruct (Z.ltb_spec (Z.of_nat (length rest)) (len + pad)) as [Hr|Hr]; [done|].
  destruct (forallb _ _) eqn:Hz; [|done]. cbn [orb negb]. apply zeros_repeat in Hz.
  assert (0 ≤ pad < 32) as Hpad by (apply Z.mod_pos_bound; lia).
  set (l := take (Z.to_nat len) rest). assert (len = Z.of_nat (length l)) as Hll
    by (unfold l; rewrite length_take; lia).
  assert (word_padding l = take (Z.to_nat pad) (drop (Z.to_nat len) rest)) as Hw.
  { rewrite Hz, length_take, length_drop. unfold word_padding. rewrite <- Hll. fold pad. f_equal. lia. }
  exists (l ++ word_padding l), (drop (Z.to_nat pad) (drop (Z.to_nat len) rest)).
  split; [by rewrite Hw, <- app_assoc, take_drop; unfold l; rewrite take_drop|]. split.
  - f_equal. rewrite !length_app, Hw, length_take, length_drop. lia.
  - exists l. split_conj; try done. apply Forall_take. by apply Forall_app in Hu as [].
Qed.

Lemma runs_bytes pre :
  runs parse_bytes pre (λ x pre' _, ∃ l, Forall is_u8 l
    ∧ x = mkParsed tt (Z.of_nat (length pre) + 32, Z.of_nat (length pre) + 32 + Z.of_nat (length l))
    ∧ pre' = pre ++ abi_bytes l).
Proof.
  eapply runs_bind; [apply (runs_word _ 4), reads_be; lia|]. intros x pre' ? (v & Hv & -> & ->).
  eapply runs_conseq; [apply (runs_bytes_body v), Hv|]. intros x pre' ? (l & -> & Hl & -> & ->).
  exists l. split; [done|]. unfold abi_bytes. rewrite <- !app_assoc, length_app. unfold abi_word.
  rewrite length_be_bytes. split; [|done]. f_equal. f_equal; lia.
Qed.
Lemma runs_vector pre :
  runs parse_bytes32_vector pre (λ x pre' _, ∃ l, Forall is_u8 l ∧ Z.of_nat (length l) mod 32 = 0
    ∧ pre' = pre ++ abi_vector l).
Proof.
  eapply runs_bind; [apply (runs_word _ 4), reads_be; lia|]. intros x pre' ? (v & Hv & -> & ->).
  cbn [pv_value]. set (pre' := pre ++ abi_word v). intros rest Hu Hb. rewrite length_app in Hb.
  destruct (checked_mul 32 v U256_BYTES) as [n|] eqn:Hc; [|done].
  apply checked_Some in Hc as [<- Hc]. change U256_BYTES with 32 in *.
  cbn [lift_opt]. unfold mbind at 1, M_bind at 1. cbn [mret M_ret].
  erewrite bind_val by apply parser_slice_run. cbv beta. rewrite wrap_small by (unfold in_width; lia).
  destruct (Z.ltb_spec (Z.of_nat (length rest)) (v * 32)) as [Hr|Hr]; [done|].
  destruct Hv as [Hv _]. unfold mbind, M_bind, gets. cbn [ap_offset].
  unfold checked_add. rewrite checked_in by (apply usize_u32; lia). cbn -[take drop].
  set (l := take (Z.to_nat (v * 32)) rest).
  assert (Z.of_nat (length l) = v * 32) as Hl by (unfold l; rewrite length_take; lia).
  exists l, (drop (Z.to_nat (v * 32)) rest). split; [by unfold l; rewrite take_drop|].
  split; [f_equal; rewrite length_app; lia|]. exists l. split_conj.
  - apply Forall_take. by apply Forall_app in Hu as [].
  - rewrite Hl. apply Z.mod_mul. lia.
  - unfold abi_vector, pre'. rewrite Hl, Z.div_mul, <- app_assoc by lia. done.
Qed.

Lemma runs_offset {A} v r (k : unit → M AbiParser unit A) pre P :
  (v = Z.of_nat (length pre) → runs (k tt) pre P) → runs (check_offset (mkParsed v r) ≫= k) pre P.
Proof.
  intros Hk rest Hu Hb. unfold check_offset. rewrite length_app in Hb.
  unfold mbind, M_bind, gets. cbn [ap_offset pv_value]. rewrite wrap_small by (unfold in_width; lia).
  destruct (Z.eqb_spec v (Z.of_nat (length pre))); [|done]. cbn. apply Hk; [done|done|].
  rewrite length_app. lia.
Qed.

Lemma runs_end {A} (a : A) pre (P : A → list Z → list Z → Prop) :
  P a pre [] →
  runs (slice ← parser_slice; when (negb (bool_decide (slice = []))) (throw tt) ;; mret a) pre P.
Proof.
  intros HP rest Hu Hb. erewrite bind_val by apply parser_slice_run. cbv beta.
  destruct rest as [|x rest]; [|done]. cbn. exists [], []. by rewrite !app_nil_r.
Qed.
(** ** What is accepted is an encoding *)

Lemma structure_cases {S} tx (s : S) :
  validate_structure tx s =
  (if ((pv_value (ab_tx_type tx) =? UPGRADE_TX_TYPE) || (pv_value (ab_tx_type tx) =? L1_L2_TX_TYPE))
      && (pv_value (ab_paymaster tx) =? 0) && (pv_value (ab_reserved_2 tx) =? 0)
      && (pv_value (ab_reserved_3 tx) =? 0) && range_is_empty (pv_range (ab_signature tx))
      && range_is_empty (pv_range (ab_paymaster_input tx))
      && range_is_empty (pv_range (ab_reserved_dynamic tx))
   then Val tt else Err tt, s).
Proof.
  unfold validate_structure.
  destruct ((pv_value (ab_tx_type tx) =? UPGRADE_TX_TYPE) || (pv_value (ab_tx_type tx) =? L1_L2_TX_TYPE));
    [|reflexivity].
  destruct (pv_value (ab_paymaster tx) =? 0); [|reflexivity].
  destruct (pv_value (ab_reserved_2 tx) =? 0); [|reflexivity].
  destruct (pv_value (ab_reserved_3 tx) =? 0); [|reflexivity].
  destruct (range_is_empty (pv_range (ab_signature tx))); [|reflexivity].
  destruct (range_is_empty (pv_range (ab_paymaster_input tx))); [|reflexivity].
  by destruct (range_is_empty (pv_range (ab_reserved_dynamic tx))).
Qed.

Lemma empty_range {A} (l : list A) z : range_is_empty (z, z + Z.of_nat (length l)) = true → l = [].
Proof. unfold range_is_empty. cbn. rewrite Z.leb_le. destruct l; [done|cbn; lia]. Qed.

(** The transaction has the fields of an encoding, if its structure is valid. *)
Definition valid_fields (buffer : list Z) (tx : AbiEncodedTransaction) (pre rest : list Z) : Prop :=
  underlying_buffer tx = buffer ∧ rest = [] ∧
  (validate_structure tx tt = (Val tt, tt) →
   ∃ t, l1_ok t ∧ pre = l1_encoding t ∧ (underlying_buffer tx = pre → abi_matches t tx)).

Lemma length_abi_word x : length (abi_word x) = 32%nat.
Proof. apply length_be_bytes. Qed.

Lemma sub_slice_app (p d tail : list Z) z :
  z = Z.of_nat (length p) → sub_slice (z, z + Z.of_nat (length d)) (p ++ d ++ tail) = d.
Proof.
  intros ->. unfold sub_slice. cbn [fst snd].
  replace (Z.of_nat (length p) + Z.of_nat (length d) - Z.of_nat (length p)) with (Z.of_nat (length d)) by lia.
  by rewrite !Nat2Z.id, drop_app_length, take_app_length.
Qed.

Lemma type_of_byte v :
  (v =? UPGRADE_TX_TYPE) || (v =? L1_L2_TX_TYPE) = true →
  v = if v =? UPGRADE_TX_TYPE then UPGRADE_TX_TYPE else L1_L2_TX_TYPE.
Proof. destruct (Z.eqb_spec v UPGRADE_TX_TYPE), (Z.eqb_spec v L1_L2_TX_TYPE); done. Qed.

(** The words of an encoding, with the offsets that its lengths give. *)
Lemma encoding_words t o1 o2 o3 o4 :
  o1 = 608 + Z.of_nat (length (abi_bytes (l1_data t))) → o2 = o1 + 32 →
  o3 = o2 + Z.of_nat (length (abi_vector (l1_factory_deps t))) → o4 = o3 + 32 →
  l1_encoding t =
  abi_word (l1_type t) ++ abi_word (l1_from t) ++ abi_word (l1_to t) ++ abi_word (l1_gas_limit t)
  ++ abi_word (l1_gas_per_pubdata t) ++ abi_word (l1_max_fee t) ++ abi_word (l1_max_priority_fee t)
  ++ abi_word 0 ++ abi_word (l1_nonce t) ++ abi_word (l1_value t) ++ abi_word (l1_deposited t)
  ++ abi_word (l1_refund_recipient t) ++ abi_word 0 ++ abi_word 0
  ++ abi_word 608 ++ abi_word o1 ++ abi_word o2 ++ abi_word o3 ++ abi_word o4
  ++ abi_bytes (l1_data t) ++ abi_bytes [] ++ abi_vector (l1_factory_deps t)
  ++ abi_bytes [] ++ abi_bytes [].
Proof.
  intros -> -> -> ->. unfold l1_encoding, l1_static. cbn [concat map].
  rewrite !app_nil_r, <- !app_assoc. done.
Qed.

(** The calldata is behind the nineteen words and its length. *)
Lemma encoding_data t :
  sub_slice (640, 640 + Z.of_nat (length (l1_data t))) (l1_encoding t) = l1_data t.
Proof.
  unfold l1_encoding. set (d := abi_bytes (l1_data t)). cbv zeta. set (offsets := concat _).
  unfold d. rewrite app_assoc. unfold abi_bytes at 1. rewrite <- (app_assoc (abi_word _)), app_assoc.
  rewrite <- (app_assoc (l1_data t)). apply sub_slice_app.
  unfold offsets, l1_static. cbn [concat map]. by rewrite !length_app, !length_abi_word.
Qed.

Lemma fields_spec buf : runs (abi_fields buf) [] (valid_fields buf).
Proof.
  unfold abi_fields.
  do 19 (eapply runs_bind;
    [first [apply (runs_word _ 32), reads_whole_word|apply runs_word, reads_be; lia]|
     let v := fresh "v" in let Hv := fresh "Hv" in intros ? ? ? (v & Hv & -> & ->)]).
  apply runs_when. intros H0%negb_false_iff%Z.eqb_eq. cbn [pv_value] in H0. apply runs_offset. intros _.
  eapply runs_bind; [apply runs_bytes|]. intros ? ? ? (data & Hdata & -> & ->).
  apply runs_offset. intros H1.
  eapply runs_bind; [apply runs_bytes|]. intros ? ? ? (sig & Hsig & -> & ->).
  apply runs_offset. intros H2.
  eapply runs_bind; [apply runs_vector|]. intros dv ? ? (deps & Hdeps & Hwords & ->).
  apply runs_offset. intros H3.
  eapply runs_bind; [apply runs_bytes|]. intros ? ? ? (pi & Hpi & -> & ->).
  apply runs_offset. intros H4.
  eapply runs_bind; [apply runs_bytes|]. intros ? ? ? (rd & Hrd & -> & ->).
  apply runs_end. split; [done|]. split; [done|]. rewrite structure_cases. cbn [ab_tx_type ab_paymaster ab_reserved_2
    ab_reserved_3 ab_signature ab_paymaster_input ab_reserved_dynamic pv_value pv_range].
  destruct (_ && _) eqn:Hs; [|done]. intros _.
  repeat apply andb_true_iff in Hs as [Hs ?]. apply type_of_byte in Hs.
  repeat match goal with H : range_is_empty _ = true |- _ => apply empty_range in H end.
  repeat match goal with H : (_ =? 0) = true |- _ => apply Z.eqb_eq in H end. subst.
  rewrite !length_app, !length_abi_word in *.
  set (t := mkL1Tx (v =? UPGRADE_TX_TYPE) v0 v1 v2 v3 v4 v5 v7 v8 v9 v10 data deps).
  assert (length (abi_bytes []) = 32%nat) as He by apply length_abi_word.
  rewrite He in *. cbn [length] in H1, H2, H3, H4. exists t. split; [by split|].
  match goal with |- ?pre = _ ∧ _ => assert (pre = l1_encoding t) as -> end.
  { rewrite (encoding_words t v14 v15 v16 v17) by (cbn [t l1_data l1_factory_deps length]; lia).
    unfold l1_type. cbn [t l1_is_upgrade]. rewrite <- Hs, <- !app_assoc. done. }
  split; [done|]. cbn [underlying_buffer]. intros ->.
  split; [done|exact Hs|done..|]. exact (encoding_data t).
Qed.

(** ** Encodings are accepted *)

(** Behind [pre] the parser reads [e] and returns [x], when nothing follows, or
    whatever follows. *)
Definition accepts {A} (whatever : bool) (m : M AbiParser unit A) (pre e : list Z) (x : A) : Prop :=
  ∀ tail, whatever = true ∨ tail = [] → Z.of_nat (length (pre ++ e ++ tail)) < 2 ^ 32 →
  m (mkAbiParser (pre ++ e ++ tail) (Z.of_nat (length pre)))
  = (Val x, mkAbiParser (pre ++ e ++ tail) (Z.of_nat (length (pre ++ e)))).

Lemma accepts_bind {A B} b (m : M AbiParser unit A) (k : A → M AbiParser unit B) pre e1 e2 x y :
  accepts true m pre e1 x → accepts b (k x) (pre ++ e1) e2 y → accepts b (m ≫= k) pre (e1 ++ e2) y.
Proof.
  intros Hm Hk tail Ht Hl. specialize (Hm (e2 ++ tail) (or_introl eq_refl)). specialize (Hk tail Ht).
  rewrite <- !app_assoc in *. erewrite bind_val by (by apply Hm). apply Hk, Hl.
Qed.

Lemma accepts_when {A} w (b : bool) (k : unit → M AbiParser unit A) pre e y :
  b = false → accepts w (k tt) pre e y → accepts w (when b (throw tt) ≫= k) pre e y.
Proof. by intros ->. Qed.

Lemma accepts_offset {A} w v r (k : unit → M AbiParser unit A) pre e y :
  v = Z.of_nat (length pre) → accepts w (k tt) pre e y →
  accepts w (check_offset (mkParsed v r) ≫= k) pre e y.
Proof.
  intros -> Hk tail Ht Hl. unfold check_offset, mbind, M_bind, gets. cbn [ap_offset pv_value].
  rewrite length_app in Hl. rewrite wrap_small, Z.eqb_refl by (unfold in_width; lia). apply Hk; [done|].
  rewrite length_app. done.
Qed.

Lemma accepts_word validate w v pre :
  reads_word validate w → in_width (8 * Z.of_nat w) v →
  accepts true (parse_word validate) pre (abi_word v)
    (mkParsed v (Z.of_nat (length pre), Z.of_nat (length pre) + 32)).
Proof.
  intros [Hw Hr] Hv tail _ Hl. rewrite parse_word_run by done.
  rewrite length_app, length_abi_word, bool_decide_false by lia.
  rewrite take_app_length' by (symmetry; apply length_abi_word).
  rewrite Hr by (apply length_abi_word || apply Forall_reverse, le_bytes_u8).
  rewrite validate_be_word by done. f_equal. f_equal. rewrite length_app, length_abi_word. lia.
Qed.

Lemma length_word_padding l : Z.of_nat (length (word_padding l)) = (- Z.of_nat (length l)) mod 32.
Proof.
  unfold word_padding. rewrite repeat_length.
  assert (0 ≤ (- Z.of_nat (length l)) mod 32) by (apply Z.mod_pos_bound; lia). lia.
Qed.

Lemma accepts_bytes l pre :
  Z.of_nat (length (pre ++ abi_bytes l)) < 2 ^ 32 →
  accepts true parse_bytes pre (abi_bytes l)
    (mkParsed tt (Z.of_nat (length pre) + 32, Z.of_nat (length pre) + 32 + Z.of_nat (length l))).
Proof.
  intros Hs. unfold abi_bytes in *. rewrite !length_app, length_abi_word in Hs.
  eapply accepts_bind; [apply (accepts_word _ 4); [apply reads_be; lia|unfold in_width; lia]|].
  cbn [pv_value]. intros tail _ Hl. set (pre' := pre ++ abi_word (Z.of_nat (length l))) in *.
  pose proof (length_word_padding l) as Hp.
  match goal with |- _ ?p = _ => change (bytes_body (Z.of_nat (length l)) p = (Val (mkParsed tt
    (Z.of_nat (length pre) + 32, Z.of_nat (length pre) + 32 + Z.of_nat (length l))),
    mkAbiParser (pre' ++ (l ++ word_padding l) ++ tail) (Z.of_nat (length (pre' ++ l ++ word_padding l))))) end.
  rewrite bytes_body_run, <- Hp by (done || lia). rewrite !Nat2Z.id, <- (app_assoc l), drop_app_length.
  rewrite take_app_length, (proj2 (zeros_repeat (word_padding l)))
    by (unfold word_padding; by rewrite repeat_length).
  rewrite !length_app. destruct (Z.ltb_spec (Z.of_nat (length l + (length (word_padding l) + length tail)))
    (Z.of_nat (length l) + Z.of_nat (length (word_padding l)))); [lia|]. cbn [orb negb].
  assert (length pre' = length pre + 32)%nat as -> by (unfold pre'; rewrite length_app, length_abi_word; lia).
  f_equal; [f_equal; f_equal; f_equal; lia|f_equal; lia].
Qed.

Lemma accepts_vector l pre :
  Z.of_nat (length (pre ++ abi_vector l)) < 2 ^ 32 → Z.of_nat (length l) mod 32 = 0 →
  accepts true parse_bytes32_vector pre (abi_vector l)
    (mkParsed tt (Z.of_nat (length pre) + 32, Z.of_nat (length pre) + 32 + Z.of_nat (length l))).
Proof.
  intros Hs Hm. unfold abi_vector in *. rewrite !length_app, length_abi_word in Hs.
  assert (Z.of_nat (length l) / 32 * 32 = Z.of_nat (length l)) as Hd
    by (Z.to_euclidean_division_equations; lia).
  eapply accepts_bind.
  { apply (accepts_word _ 4); [apply reads_be; lia|].
    split; Z.to_euclidean_division_equations; lia. }
  cbn [pv_value]. intros tail _ Hl. set (pre' := pre ++ _) in *. rewrite !length_app in Hl.
  unfold checked_mul. change U256_BYTES with 32. rewrite Hd, checked_in by (unfold in_width; lia).
  cbn [lift_opt]. unfold mbind at 1, M_bind at 1. cbn [mret M_ret].
  erewrite bind_val by apply parser_slice_run. cbv beta. rewrite length_app, wrap_small by (unfold in_width; lia).
  destruct (Z.ltb_spec (Z.of_nat (length l + length tail)) (Z.of_nat (length l))); [lia|].
  unfold mbind, M_bind, gets. cbn [ap_offset]. unfold checked_add.
  rewrite checked_in by (apply usize_u32; lia). cbn.
  assert (length pre' = length pre + 32)%nat as Hp by (unfold pre'; rewrite length_app, length_abi_word; lia).
  rewrite length_app, Hp, !Nat2Z.inj_add. done.
Qed.

Lemma accepts_end {A} (a : A) pre :
  accepts false (slice ← parser_slice; when (negb (bool_decide (slice = []))) (throw tt) ;; mret a)
    pre [] a.
Proof.
  intros tail [Hf| ->] Hl; [done|]. cbn [app]. erewrite bind_val by apply parser_slice_run. by rewrite !app_nil_r.
Qed.

Lemma encoding_length t :
  Z.of_nat (length (l1_encoding t))
  = 704 + Z.of_nat (length (abi_bytes (l1_data t))) + Z.of_nat (length (abi_vector (l1_factory_deps t))).
Proof.
  erewrite encoding_words by done. rewrite !length_app, !length_abi_word.
  change (length (abi_bytes [])) with 32%nat. lia.
Qed.

Ltac measure :=
  repeat match goal with o := _ : Z |- _ => unfold o in *; clear o end;
  rewrite ?length_app, ?length_abi_word; cbn [length]; lia.

Lemma fields_accepted t :
  l1_ok t → Z.of_nat (length (l1_encoding t)) < 2 ^ 32 →
  ∃ tx, accepts false (abi_fields (l1_encoding t)) [] (l1_encoding t) tx
        ∧ validate_structure tx tt = (Val tt, tt).
Proof.
  intros Ht Hl. rewrite encoding_length in Hl. destruct Ht.
  set (o1 := 608 + Z.of_nat (length (abi_bytes (l1_data t)))). set (o2 := o1 + 32).
  set (o3 := o2 + Z.of_nat (length (abi_vector (l1_factory_deps t)))). set (o4 := o3 + 32).
  assert (is_u32 o1 ∧ is_u32 o2 ∧ is_u32 o3 ∧ is_u32 o4) as (? & ? & ? & ?)
    by (unfold in_width, o4, o3, o2, o1; lia).
  assert (is_u8 (l1_type t)) by (unfold l1_type; by destruct (l1_is_upgrade t)).
  eexists. split.
  - rewrite (encoding_words t o1 o2 o3 o4) at 2 by done. unfold abi_fields.
    do 19 (eapply accepts_bind;
      [first [apply (accepts_word _ 32); [apply reads_whole_word|done]
             |eapply accepts_word; [apply reads_be; lia|done]]|]).
    assert (length (abi_bytes []) = 32%nat) as He by apply length_abi_word.
    apply accepts_when; [done|]. apply accepts_offset; [measure|].
    eapply accepts_bind; [apply accepts_bytes; measure|]. apply accepts_offset; [measure|].
    eapply accepts_bind; [apply accepts_bytes; measure|]. apply accepts_offset; [measure|].
    eapply accepts_bind; [apply accepts_vector; [measure|done]|]. apply accepts_offset; [measure|].
    eapply accepts_bind; [apply accepts_bytes; measure|]. apply accepts_offset; [measure|].
    rewrite <- (app_nil_r (abi_bytes [])) at 2. eapply accepts_bind; [apply accepts_bytes; measure|].
    apply accepts_end.
  - rewrite structure_cases. cbn [ab_tx_type ab_paymaster ab_reserved_2 ab_reserved_3 ab_signature
      ab_paymaster_input ab_reserved_dynamic pv_value pv_range]. unfold range_is_empty. cbn [fst snd].
    rewrite !Z.add_0_r, !Z.leb_refl. unfold l1_type. by destruct (l1_is_upgrade t).
Qed.

Lemma abi_parse_spec buffer :
  Forall is_u8 buffer → Z.of_nat (length buffer) < 2 ^ 32 →
  match abi_try_from_buffer buffer tt with
  | (Val tx, _) => ∃ t, l1_ok t ∧ buffer = l1_encoding t ∧ abi_matches t tx
  | (Err _, _) => ∀ t, l1_ok t → buffer ≠ l1_encoding t
  | (Fault, _) => False
  end.
Proof.
  intros Hu Hl. unfold abi_try_from_buffer, on_cursor, mbind, M_bind.
  pose proof (fields_spec buffer buffer Hu Hl) as Hf. cbn [app length] in Hf.
  change (Z.of_nat 0) with 0 in Hf.
  assert (∀ t, l1_ok t → buffer = l1_encoding t → ∃ tx p, abi_fields buffer (mkAbiParser buffer 0) = (Val tx, p)
    ∧ validate_structure tx tt = (Val tt, tt)) as Ha.
  { intros t Ht ->. destruct (fields_accepted t Ht Hl) as (tx & H1 & H2). exists tx. eexists. split; [|done].
    specialize (H1 [] (or_intror eq_refl)). rewrite app_nil_r in H1. exact (H1 Hl). }
  destruct (abi_fields buffer _) as [[tx|[]|] p]; [| |done].
  - destruct Hf as (e & rest & Hb & -> & Hx & -> & Hv). rewrite app_nil_r in Hb. subst e.
    destruct (validate_structure tx tt) as [[[]|[]|] []] eqn:E; cbn.
    + destruct (Hv eq_refl) as (t & H1 & H2 & H3). exists t. auto.
    + intros t Ht Hb. destruct (Ha t Ht Hb) as (tx' & p & [= <- _] & H'). congruence.
    + rewrite structure_cases in E. by destruct (_ && _).
  - intros t Ht Hb. destruct (Ha t Ht Hb) as (tx' & p' & H' & _). done.
Qed.

(** C37: parsing an ABI-encoded transaction.  For any buffer of a length the system
    admits the parser does not panic.  It accepts exactly the encodings of
    transactions from L1 and of upgrades, tightly packed and with zeros where the
    format wants them, and returns the encoded fields. *)
Theorem abi_parse_exact buffer :
  Forall is_u8 buffer → Z.of_nat (length buffer) < 2 ^ 32 →
  match abi_try_from_buffer buffer tt with
  | (Val tx, _) => ∃ t, l1_ok t ∧ buffer = l1_encoding t ∧ abi_matches t tx
  | (Err _, _) => ∀ t, l1_ok t → buffer ≠ l1_encoding t
  | (Fault, _) => False
  end.
Proof. apply abi_parse_spec. Qed.
End Runs.
