(* ===== verification/TxSystem.v ===== *)
(** * What the system offers to transaction processing

    The rest of the IO traits ([zk_ee/src/system/io.rs]), of [System]
    ([zk_ee/src/system/mod.rs]) and of the oracle, as the class [TxSystem]; the
    configurations of the bootloader ([basic_bootloader/src/bootloader/config.rs]).
    [TxSystemLaws] says what the bootloader relies on: it gives nonces and balances
    to a world and says exactly what the operations do to them. *)

From stdpp Require Import strings.
From S2P Require Import Prelude Resources U256 SystemInterface TxFormats EvmState BootSystem.

(** ** Configuration *)

(** [BasicBootloaderExecutionConfig]. *)
Class ExecutionConfig : Type := {
  VALIDATE_EOA_SIGNATURE : bool;
  SIMULATION : bool
}.

Definition BasicBootloaderProvingExecutionConfig : ExecutionConfig :=
  {| SIMULATION := false; VALIDATE_EOA_SIGNATURE := true |}.
Definition BasicBootloaderForwardSimulationConfig : ExecutionConfig :=
  {| VALIDATE_EOA_SIGNATURE := false; SIMULATION := false |}.
Definition BasicBootloaderCallSimulationConfig : ExecutionConfig :=
  {| VALIDATE_EOA_SIGNATURE := true; SIMULATION := true |}.

(** Cargo features of the bootloader. *)
Class TxFeatures : Type := {
  unlimited_native : bool;
  resources_for_tester : bool;
  burn_base_fee : bool
}.

(** ** The interface *)

(** [zk_metadata.rs]. *)
Record TxLevelMetadata : Type := mkTxLevel { tx_origin : Z; tx_gas_price : Z }.

(** [SystemMetadata::set_transaction_metadata]. *)
Definition set_transaction_metadata (t : TxLevelMetadata) (md : Metadata) : Metadata := {|
  md_chain_id := md_chain_id md; md_coinbase := md_coinbase md;
  md_block_timestamp := md_block_timestamp md; md_block_number := md_block_number md;
  md_block_gas_limit := md_block_gas_limit md; md_tx_gas_price := tx_gas_price t;
  md_eip1559_basefee := md_eip1559_basefee md; md_tx_origin := tx_origin t;
  md_block_randomness := md_block_randomness md;
  md_block_historical_hash := md_block_historical_hash md;
  md_native_price := md_native_price md; md_pubdata_price := md_pubdata_price md;
  md_pubdata_limit := md_pubdata_limit md
|}.

(** [transaction/mod.rs]. *)
Inductive TxEncodingFormat : Type := FormatAbi | FormatRlp.

(** Operations of [IOSubsystem] that the interpreter calls with its own environment
    type take it as an argument here.  The output of [secp256k1_ec_recover] is the
    contents of the vector it writes to. *)
Class TxSystem {SYS : System} : Type := {
  set_tx_context : TxLevelMetadata → SysState → SysState;
  net_pubdata_used : SysState → outcome InternalError Z;
  get_refund_counter : SysState → Z;
  add_evm_refund : Z → M SysState SystemError unit;
  touch_account : ExecutionEnvironmentType → Z → bool → M (SysState * Res) SystemError unit;
  storage_touch : ExecutionEnvironmentType → Z → list Z → bool →
    M (SysState * Res) SystemError unit;
  get_balance : ExecutionEnvironmentType → Z → M (SysState * Res) SystemError Z;
  bump_nonce : ExecutionEnvironmentType → Z → Z → M (SysState * Res) NonceSubsystemError Z;
  set_delegation : Z → Z → M (SysState * Res) SystemError unit;
  (** Hash of the transaction, [success], [is_priority]. *)
  emit_l1_l2_tx_log : ExecutionEnvironmentType → list Z → bool → bool →
    M (SysState * Res) SystemError unit;
  logs_len : SysState → Z;
  finish_tx : M SysState InternalError unit;
  begin_next_tx : SysState → SysState;
  secp256k1_ec_recover : list Z → M Res (SubsystemError Empty_set Empty_set) (list Z);
  oracle_next_tx_size : M SysState InternalError Z;
  oracle_tx_data_words : M SysState InternalError (list Z);
  oracle_tx_format : M SysState InternalError TxEncodingFormat;
  oracle_tx_from : M SysState InternalError Z;
  (** The contents of newly allocated memory, in words. *)
  uninitialized : nat → list Z
}.

(** [crypto::sha3::Keccak256], the digest of the system functions. *)
Definition system_keccak {SYS : System} : Keccak := Keccak256_digest.

(** ** The contract *)

(** Nonces and balances of a world, and whether an account is a contract.  The first argument of [set_balance] is
    [fee_payment_in_simulation], which the system records with the balance. *)
Class Accounts {SYS : System} {W : SystemWorlds} : Type := {
  balance : World → Z → Z;
  nonce : World → Z → Z;
  set_balance : bool → Z → Z → World → World;
  set_nonce : Z → Z → World → World;
  has_code : World → Z → bool;
  net_pubdata : World → outcome InternalError Z
}.

Section Contract.
Context {SYS : System} {LAWS : SystemLaws} {EXT : SystemExt} {TX : TxSystem}.

(** As [later], for the steps between transactions: the transaction's own metadata
    may change. *)
Definition same_block (md md' : Metadata) : Prop :=
  ∃ t, md' = set_transaction_metadata t md.

Definition later_tx (s s' : SysState) : Prop :=
  same_block (sys_metadata s) (sys_metadata s') ∧ ∀ k, alive s k → alive s' k.

(** Operations on the state alone. *)
Definition sys_ok {A E} (Q : A → Prop) (m : M SysState E A) : Prop :=
  ∀ s, later s (m s).2 ∧ match (m s).1 with Val a => Q a | Err _ => True | Fault => False end.

Definition same_accounts {AC : Accounts} (w w' : World) : Prop :=
  ∀ a, balance w' a = balance w a ∧ nonce w' a = nonce w a.

(** What a change of a balance by [diff] does. *)
Definition changed_balance {AC : Accounts} (a diff : Z) (should_subtract simulation : bool)
    (w : World) (o : outcome BalanceSubsystemError Z) (w' : World) : Prop :=
  let new := if should_subtract then balance w a - diff else balance w a + diff in
  match o with
  | Val old => old = balance w a ∧ is_u256 new ∧ w' = set_balance simulation a new w
  | Err (SLeafUsage InsufficientBalanceError) => should_subtract = true ∧ new < 0 ∧ w' = w
  | Err (SLeafUsage BalanceOverflow) => should_subtract = false ∧ 2 ^ 256 ≤ new ∧ w' = w
  | Err _ => w' = w
  | Fault => False
  end.

Definition changed_nonce {AC : Accounts} (a increment : Z) (w : World)
    (o : outcome NonceSubsystemError Z) (w' : World) : Prop :=
  match o with
  | Val old => old = nonce w a ∧ is_u64 (old + increment) ∧ w' = set_nonce a (old + increment) w
  | Err (SLeafUsage NonceOverflowError) => 2 ^ 64 ≤ nonce w a + increment ∧ w' = w
  | Err _ => w' = w
  | Fault => False
  end.

Class TxSystemLaws : Type := {
  tl_accounts :: Accounts;
  tl_balance_range w a : is_u256 (balance w a);
  tl_nonce_range w a : is_u64 (nonce w a);
  tl_get_balance m a b v w : is_u256 v →
    balance (set_balance m a v w) b = if b =? a then v else balance w b;
  tl_get_nonce m a b v w : nonce (set_balance m a v w) b = nonce w b;
  tl_get_balance' a b v w : balance (set_nonce a v w) b = balance w b;
  tl_get_nonce' a b v w : is_u64 v →
    nonce (set_nonce a v w) b = if b =? a then v else nonce w b;
  tl_context t s : is_b160 (tx_origin t) → is_u256 (tx_gas_price t) →
    sys_metadata (set_tx_context t s) = set_transaction_metadata t (sys_metadata s);
  tl_context_world t s : world (set_tx_context t s) = world s;
  tl_context_alive t s k : alive s k → alive (set_tx_context t s) k;
  tl_pubdata s : net_pubdata_used s = net_pubdata (world s);
  tl_pubdata_range w : match net_pubdata w with Val n => is_u64 n | Err _ => True | Fault => False end;
  tl_refunds s : is_u32 (get_refund_counter s);
  tl_add_refund n : sys_ok (λ _, True) (add_evm_refund n);
  tl_add_refund_accounts n s : same_accounts (world s) (world (add_evm_refund n s).2);
  tl_touch ee a l : io_ok (λ _, True) (touch_account ee a l);
  tl_touch_world ee a l s : world (touch_account ee a l s).2.1 = world s.1;
  tl_storage_touch ee a k l : io_ok (λ _, True) (storage_touch ee a k l);
  tl_storage_touch_world ee a k l s : world (storage_touch ee a k l s).2.1 = world s.1;
  tl_balance ee a : io_ok (λ _, True) (get_balance ee a);
  tl_balance_world ee a s : world (get_balance ee a s).2.1 = world s.1;
  tl_balance_value ee a s b : (get_balance ee a s).1 = Val b → b = balance (world s.1) a;
  tl_bump ee a n : io_ok (λ _, True) (bump_nonce ee a n);
  tl_bump_effect ee a n s : res_wf s.2 → is_u64 n →
    changed_nonce a n (world s.1) (bump_nonce ee a n s).1 (world (bump_nonce ee a n s).2.1);
  tl_update_effect ee a d sub sim s : res_wf s.2 → is_u256 d →
    changed_balance a d sub sim (world s.1) (update_account_nominal_token_balance ee a d sub sim s).1
      (world (update_account_nominal_token_balance ee a d sub sim s).2.1);
  tl_read_values ee a fields s x : (read_account_properties ee a fields s).1 = Val x →
    (WithNonce ∈ fields → ad_nonce x = nonce (world s.1) a)
    ∧ (WithNominalTokenBalance ∈ fields → ad_nominal_token_balance x = balance (world s.1) a)
    ∧ (WithIsDelegated ∈ fields → WithUnpaddedCodeLen ∈ fields →
       is_contract x = has_code (world s.1) a);
  tl_delegation a b : io_ok (λ _, True) (set_delegation a b);
  tl_delegation_accounts a b s : same_accounts (world s.1) (world (set_delegation a b s).2.1);
  tl_log ee h ok p : io_ok (λ _, True) (emit_l1_l2_tx_log ee h ok p);
  tl_log_accounts ee h ok p s :
    same_accounts (world s.1) (world (emit_l1_l2_tx_log ee h ok p s).2.1);
  (** Formally infinite resources are enough for it. *)
  tl_log_infinite ee h ok p sys e :
    (emit_l1_l2_tx_log ee h ok p (sys, FORMAL_INFINITE)).1 ≠ Err (LeafRuntime e);
  tl_logs_len s : is_u64 (logs_len s);
  tl_recover i : res_ok_fn (λ out, out = [] ∨ is_bytes32 out) (secp256k1_ec_recover i);
  tl_format : sys_ok (λ _, True) oracle_tx_format;
  tl_format_world s : world (oracle_tx_format s).2 = world s;
  tl_from : sys_ok is_b160 oracle_tx_from;
  tl_from_world s : world (oracle_tx_from s).2 = world s;
  (** With infinite ergs reading an account does not run out of them. *)
  tl_read_rich ee a fields s : res_wf s.2 →
    (infinite_ergs (read_account_properties ee a fields) s).1 ≠ Err (LeafRuntime OutOfErgs)
}.

#[global] Instance later_tx_preorder : PreOrder later_tx.
Proof.
  split.
  - intros s. split; [|done]. exists (mkTxLevel (md_tx_origin (sys_metadata s)) (md_tx_gas_price (sys_metadata s))).
    by destruct (sys_metadata s).
  - intros s1 s2 s3 [[t1 M1] A1] [[t2 M2] A2]. split; [|auto]. exists t2. by rewrite M2, M1.
Qed.

Lemma later_later_tx s s' : later s s' → later_tx s s'.
Proof.
  intros [H1 H2]. split; [|done]. rewrite H1. by destruct (reflexivity (R:=later_tx) s).
Qed.

#[global] Instance same_accounts_preorder {AC : Accounts} : PreOrder same_accounts.
Proof.
  split; [by intros w a|]. intros w1 w2 w3 H1 H2 a. destruct (H1 a), (H2 a). split; congruence.
Qed.
(** *** Between transactions *)

(** The oracle, the beginning and the end of a transaction. *)
Definition quiet {A} (Q : A → Prop) (m : M SysState InternalError A) : Prop :=
  ∀ s, sys_metadata (m s).2 = sys_metadata s ∧ world (m s).2 = world s
    ∧ match (m s).1 with Val a => Q a | Err _ => True | Fault => False end.

Class BlockSystemLaws {UZ : Usize} {IL : InputLimit} : Type := {
  bl_next_size : quiet (λ n, 0 ≤ n ∧ tx_size_ok n) oracle_next_tx_size;
  bl_words : quiet (Forall (in_width usize_bits)) oracle_tx_data_words;
  bl_begin s : sys_metadata (begin_next_tx s) = sys_metadata s;
  bl_finish s : sys_metadata (finish_tx s).2 = sys_metadata s ∧ (finish_tx s).1 ≠ Fault;
  bl_uninitialized n : length (uninitialized n) = n ∧ Forall (in_width usize_bits) (uninitialized n)
}.
End Contract.
