(* ===== verification/GasHelpers.v ===== *)
(** * Resources of a transaction

    Models [basic_bootloader/src/bootloader/{constants,gas_helpers}.rs] and
    [compute_gas_refund] of [process_transaction.rs]: what a transaction gets for its
    gas limit, what its pubdata costs, and how much gas it has used in the end. *)

From stdpp Require Import strings.
From S2P Require Import Prelude Resources U256 SystemInterface EvmConstants EvmState BootloaderErrors BootSystem TxSystem.

Definition MAX_BLOCK_GAS_LIMIT : Z := umax 64 / ERGS_PER_GAS.
Definition L1_TX_INTRINSIC_L2_GAS : Z := 21000.
Definition L1_TX_INTRINSIC_NATIVE_COST : Z := 130000.
Definition COINBASE_BALANCE_INTRINSIC_PUBDATA : Z := 32 + 33.
Definition L1_TX_INTRINSIC_PUBDATA : Z := 88 + COINBASE_BALANCE_INTRINSIC_PUBDATA.
Definition L2_TX_INTRINSIC_GAS : Z := 18000.
Definition DEPLOYMENT_TX_EXTRA_INTRINSIC_GAS : Z := 32000.
Definition L2_TX_INTRINSIC_PUBDATA : Z := COINBASE_BALANCE_INTRINSIC_PUBDATA.
Definition L2_TX_INTRINSIC_NATIVE_COST : Z := 30000.
Definition CALLDATA_ZERO_BYTE_GAS_COST : Z := 4.
Definition CALLDATA_NON_ZERO_BYTE_GAS_COST : Z := 16.
Definition TESTER_NATIVE_PER_GAS : Z := 25000.
Definition L1_TX_NATIVE_PRICE : Z := 10.
Definition UPGRADE_TX_NATIVE_PER_GAS : Z := 10000.

(** [zk_ee/src/system/constants.rs]. *)
Definition MAX_NATIVE_COMPUTATIONAL : Z := Z.shiftl 1 35.

Record ResourcesForTx : Type := mkResourcesForTx {
  main_resources : Res;
  withheld : Res;
  intrinsic_computational_native_charged : Z
}.

Section GasHelpers.
Context {SYS : System} {TX : TxSystem} {TF : TxFeatures}.

Definition cost_for_calldata {S} (calldata : list Z) : M S InternalError (Z * Z) :=
  let zero_bytes := Z.of_nat (length (filter (λ byte, byte = 0) calldata)) in
  let non_zero_bytes := wrap 64 (Z.of_nat (length calldata) - zero_bytes) in
  zero_cost ← lift_opt (internal_error "zb*CZBGC")
    (checked_mul 64 zero_bytes CALLDATA_ZERO_BYTE_GAS_COST);
  non_zero_cost ← lift_opt (internal_error "nzb*CNZBGC")
    (checked_mul 64 non_zero_bytes CALLDATA_NON_ZERO_BYTE_GAS_COST);
  gas_cost ← lift_opt (internal_error "zc+nzc") (checked_add 64 zero_cost non_zero_cost);
  native_cost ← lift_opt (internal_error "cl*CBNC")
    (checked_mul 64 (Z.of_nat (length calldata)) COPY_BYTE_NATIVE_COST);
  mret (gas_cost, native_cost).

(** [a.checked_sub(b)], with zero in the place of an underflow of an L1 transaction. *)
Definition sub_or_zero {S} (is_l1_tx : bool) (a b : Z) : M S TxError Z :=
  match checked_sub 64 a b with
  | Some r => mret r
  | None => if is_l1_tx then mret 0 else throw (Validation OutOfNativeResourcesDuringValidation)
  end.

(** All native a transaction may use: unlimited when gas has no price. *)
Definition full_native_limit (gas_limit native_per_gas : Z) : Z :=
  if unlimited_native || (native_per_gas =? 0) then umax 64
  else saturating_mul 64 gas_limit (u256_to_u64_saturated native_per_gas).

Definition get_resources_for_tx {S} (gas_limit native_per_pubdata native_per_gas : Z)
    (calldata : list Z) (intrinsic_gas intrinsic_pubdata intrinsic_native : Z) (is_l1_tx : bool)
    : M S TxError ResourcesForTx :=
  let native_limit := full_native_limit gas_limit native_per_gas in
  intrinsic_pubdata_overhead ← lift_opt (tx_error_of_internal (internal_error "npp*ip"))
    (checked_mul 64 (u256_to_u64_saturated native_per_pubdata) intrinsic_pubdata);
  native_limit ← sub_or_zero is_l1_tx native_limit intrinsic_pubdata_overhead;
  let '(native_limit, withheld) :=
    if resources_for_tester || (native_limit <=? MAX_NATIVE_COMPUTATIONAL) then
      (native_limit, from_ergs res_empty)
    else (MAX_NATIVE_COMPUTATIONAL,
          from_native (from_computational (native_limit - MAX_NATIVE_COMPUTATIONAL))) in
  '(calldata_gas, calldata_native) ← map_err tx_error_of_internal (cost_for_calldata calldata);
  intrinsic_charged ← lift_opt (Validation OutOfNativeResourcesDuringValidation)
    (checked_add 64 calldata_native intrinsic_native);
  native_limit ← sub_or_zero is_l1_tx native_limit intrinsic_charged;
  total_gas_to_charge ← lift_opt (tx_error_of_internal (internal_error "tuo+io"))
    (checked_add 64 calldata_gas intrinsic_gas);
  if (gas_limit <? total_gas_to_charge) && negb is_l1_tx then
    throw (Validation OutOfGasDuringValidation)
  else
    let gas_limit_for_tx := saturating_sub gas_limit total_gas_to_charge in
    ergs ← lift_opt (tx_error_of_internal (internal_error "glft*EPF"))
      (checked_mul 64 gas_limit_for_tx ERGS_PER_GAS);
    mret (mkResourcesForTx (from_ergs_and_native (mkErgs ergs) (from_computational native_limit))
            withheld intrinsic_charged).

(** The amount of pubdata, and the resources to charge for it. *)
Definition get_resources_to_charge_for_pubdata (native_per_pubdata : Z) (base_pubdata : option Z)
    : M SysState InternalError (Z * Res) := λ sys,
  match net_pubdata_used sys with
  | Val used =>
      let current_pubdata_spent := saturating_sub used (default 0 base_pubdata) in
      let native_per_pubdata := u256_to_u64_saturated native_per_pubdata in
      match checked_mul 64 current_pubdata_spent native_per_pubdata with
      | Some native => (Val (current_pubdata_spent, from_native (from_computational native)), sys)
      | None => (Err (internal_error "cps*epp"), sys)
      end
  | Err e => (Err e, sys)
  | Fault => (Fault, sys)
  end.

Definition check_enough_resources_for_pubdata (native_per_pubdata : Z) (resources : Res)
    (base_pubdata : option Z) : M SysState InternalError (bool * Res * Z) :=
  '(pubdata_used, resources_for_pubdata) ←
    get_resources_to_charge_for_pubdata native_per_pubdata base_pubdata;
  let enough := has_enough resources resources_for_pubdata in
  mret (enough, resources_for_pubdata, pubdata_used).

(** ** The refund *)

Record RefundInfo : Type := mkRefundInfo {
  gas_refund : Z;
  gas_used : Z;
  evm_refund : Z;
  native_used : Z
}.

(** [x as i64]. *)
Definition as_i64 (x : Z) : Z := if x <? 2 ^ 63 then x else x - 2 ^ 64.

(** The gas by which the use of native exceeds the gas used so far. *)
Definition delta_gas (native_used gas_used native_per_gas : Z) : Z :=
  if native_per_gas =? 0 then 0
  else as_i64 (wrap 64 (as_i64 (native_used / native_per_gas) - as_i64 gas_used)).

Definition compute_gas_refund (to_charge_for_pubdata : Res) (gas_limit native_per_gas : Z)
    : M (SysState * Res) InternalError RefundInfo :=
  modify (λ s, (s.1, (charge_unchecked to_charge_for_pubdata s.2).2)) ;;
  ergs_left ← gets (λ s, ergs_0 (ergs s.2));
  let gas_used := wrap 64 (gas_limit - ergs_left / ERGS_PER_GAS) in
  modify (λ s, (s.1, exhaust_ergs s.2)) ;;
  full_refund ← gets (λ s, get_refund_counter s.1);
  let max_refund := gas_used / 5 in
  let evm_refund := Z.min full_refund max_refund in
  let gas_used := wrap 64 (gas_used - evm_refund) in
  native_left ← gets (λ s, as_u64 (remaining (native s.2)));
  let native_used := saturating_sub (full_native_limit gas_limit native_per_gas) native_left in
  let delta := delta_gas native_used gas_used (u256_to_u64_saturated native_per_gas) in
  let gas_used :=
    if negb unlimited_native && (0 <? delta) then wrap 64 (gas_used + wrap 64 delta) else gas_used in
  let total_gas_refund := wrap 64 (gas_limit - gas_used) in
  when (negb (total_gas_refund <=? gas_limit))
    (throw (internal_error "Gas refund greater than gas limit")) ;;
  mret (mkRefundInfo total_gas_refund gas_used evm_refund native_used).
End GasHelpers.
