(* ===== verification/GasTheorems.v ===== *)
(** * Theorems about the resources of a transaction

    What a transaction gets is exactly what its gas limit is worth, and what it has
    used and what it gets back add up to the limit. *)

From stdpp Require Import strings.
From S2P Require Import Prelude Resources U256 SystemInterface EvmConstants EvmState BootloaderErrors.
From S2P Require Import BootSystem TxSystem GasHelpers.

(** ** Calldata *)

(** The gas of EIP-2028. *)
Definition calldata_gas (calldata : list Z) : Z :=
  foldr (λ byte gas, (if byte =? 0 then 4 else 16) + gas) 0 calldata.

Lemma calldata_gas_counts calldata :
  calldata_gas calldata
  = 4 * Z.of_nat (length (filter (λ byte, byte = 0) calldata))
    + 16 * (Z.of_nat (length calldata) - Z.of_nat (length (filter (λ byte, byte = 0) calldata)))
  ∧ Z.of_nat (length (filter (λ byte, byte = 0) calldata)) ≤ Z.of_nat (length calldata).
Proof.
  induction calldata as [|b l [IH1 IH2]]; [by split|]. cbn [calldata_gas foldr].
  rewrite filter_cons. fold (calldata_gas l). rewrite IH1.
  destruct (Z.eqb_spec b 0), (decide (b = 0)); try done; cbn [length]; lia.
Qed.

Section Gas.
Context {SYS : System} {TX : TxSystem} {TF : TxFeatures}.

Lemma cost_for_calldata_spec {S} calldata (s : S) :
  Z.of_nat (length calldata) < 2 ^ 32 →
  cost_for_calldata calldata s
  = (Val (calldata_gas calldata, Z.of_nat (length calldata) * COPY_BYTE_NATIVE_COST), s)
  ∧ 0 ≤ calldata_gas calldata ≤ 16 * Z.of_nat (length calldata).
Proof.
  intros Hl. destruct (calldata_gas_counts calldata) as [-> Hle]. split; [|lia].
  unfold cost_for_calldata, checked_mul, checked_add.
  change CALLDATA_ZERO_BYTE_GAS_COST with 4. change CALLDATA_NON_ZERO_BYTE_GAS_COST with 16.
  change COPY_BYTE_NATIVE_COST with 1.
  set (z := Z.of_nat (length (filter _ _))) in *. set (n := Z.of_nat (length calldata)) in *.
  assert (0 ≤ z ≤ n) as Hz by lia. clearbody z n. rewrite (wrap_small 64) by (unfold in_width; lia).
  rewrite (checked_in _ (z * 4)), (checked_in _ ((n - z) * 16)), (checked_in _ (n * 1))
    by (unfold in_width; lia).
  unfold mbind, M_bind, lift_opt, mret, M_ret. rewrite checked_in by (unfold in_width; lia).
  do 3 f_equal; lia.
Qed.

(** ** Resources for a transaction *)

Lemma full_native_limit_range gas_limit native_per_gas :
  is_u64 gas_limit → is_u256 native_per_gas → is_u64 (full_native_limit gas_limit native_per_gas).
Proof.
  intros Hg Hn. unfold full_native_limit. destruct (_ || _); [by unfold umax, in_width|].
  rewrite u256_to_u64_saturated_spec by done. unfold saturating_mul, umax, in_width in *. nia.
Qed.

Lemma saturated_range x : is_u256 x → is_u64 (u256_to_u64_saturated x).
Proof. intros Hx. rewrite u256_to_u64_saturated_spec by done. unfold in_width in *. lia. Qed.

(** The costs of a transaction's own fields, in the widths of the constants. *)
Record intrinsic_ok (intrinsic_gas intrinsic_pubdata intrinsic_native : Z) : Prop := {
  io_gas : 0 ≤ intrinsic_gas < 2 ^ 32;
  io_pubdata : 0 ≤ intrinsic_pubdata < 2 ^ 32;
  io_native : 0 ≤ intrinsic_native < 2 ^ 32
}.

Section ForTx.
Variables (gas_limit native_per_pubdata native_per_gas : Z) (calldata : list Z)
  (intrinsic_gas intrinsic_pubdata intrinsic_native : Z).

(** Native for the pubdata every transaction has, and for its calldata and validation. *)
Definition pubdata_overhead : Z := u256_to_u64_saturated native_per_pubdata * intrinsic_pubdata.
Definition intrinsic_charge : Z :=
  Z.of_nat (length calldata) * COPY_BYTE_NATIVE_COST + intrinsic_native.
Definition gas_charge : Z := calldata_gas calldata + intrinsic_gas.
(** The native that may be used for computation. *)
Definition computational_limit (native_limit : Z) : Z :=
  if resources_for_tester then native_limit else Z.min native_limit MAX_NATIVE_COMPUTATIONAL.

(** The whole budget of native is shared out: to the execution, withheld for pubdata,
    and charged up front. *)
Record resources_split (r : ResourcesForTx) : Prop := {
  sp_ergs : e_left (main_resources r) = (gas_limit - gas_charge) * ERGS_PER_GAS;
  sp_gas : gas_charge ≤ gas_limit;
  sp_native : n_left (main_resources r) + n_left (withheld r)
    + intrinsic_computational_native_charged r + pubdata_overhead
    = full_native_limit gas_limit native_per_gas;
  sp_charged : intrinsic_computational_native_charged r = intrinsic_charge;
  sp_computational : n_left (main_resources r) + intrinsic_charge
    = computational_limit (full_native_limit gas_limit native_per_gas - pubdata_overhead);
  sp_withheld : e_left (withheld r) = 0;
  sp_main_wf : res_wf (main_resources r);
  sp_withheld_wf : res_wf (withheld r)
}.

(** Why a transaction gets no resources. *)
Definition resources_refused (e : TxError) : Prop :=
  match e with
  | Validation OutOfGasDuringValidation => gas_limit < gas_charge
  | Validation OutOfNativeResourcesDuringValidation =>
      computational_limit (full_native_limit gas_limit native_per_gas - pubdata_overhead)
      < intrinsic_charge
  | Internal _ => 2 ^ 64 ≤ pubdata_overhead
  | _ => False
  end.

Hypothesis gas_limit_ok : 0 ≤ gas_limit ≤ MAX_BLOCK_GAS_LIMIT.
Hypothesis pubdata_ok : is_u256 native_per_pubdata.
Hypothesis per_gas_ok : is_u256 native_per_gas.
Hypothesis calldata_ok : Z.of_nat (length calldata) < 2 ^ 32.
Hypothesis intrinsics : intrinsic_ok intrinsic_gas intrinsic_pubdata intrinsic_native.

Lemma computational_split native_limit :
  is_u64 native_limit →
  ∃ w, (if resources_for_tester || (native_limit <=? MAX_NATIVE_COMPUTATIONAL) then
          (native_limit, from_ergs res_empty)
        else (MAX_NATIVE_COMPUTATIONAL,
              from_native (from_computational (native_limit - MAX_NATIVE_COMPUTATIONAL))))
       = (computational_limit native_limit, mk_res 0 w)
    ∧ is_u64 w ∧ computational_limit native_limit + w = native_limit
    ∧ is_u64 (computational_limit native_limit).
Proof.
  intros [Hn1 Hn2]. unfold computational_limit.
  change MAX_NATIVE_COMPUTATIONAL with (2 ^ 35). destruct resources_for_tester; cbn [orb].
  - exists 0. unfold in_width. split_conj; try done; lia.
  - destruct (Z.leb_spec native_limit (2 ^ 35)).
    + exists 0. rewrite Z.min_l by done. unfold in_width. split_conj; try done; lia.
    + exists (native_limit - 2 ^ 35). rewrite Z.min_r by lia. unfold in_width. split_conj; try done; lia.
Qed.

Lemma l2_resources {S} (s : S) :
  match get_resources_for_tx gas_limit native_per_pubdata native_per_gas calldata intrinsic_gas
          intrinsic_pubdata intrinsic_native false s with
  | (Val r, s') => s' = s ∧ resources_split r
  | (Err e, s') => s' = s ∧ resources_refused e
  | (Fault, _) => False
  end.
Proof.
  pose proof (full_native_limit_range gas_limit native_per_gas) as HL.
  destruct (cost_for_calldata_spec calldata s calldata_ok) as [Hcd Hcg].
  pose proof (saturated_range _ pubdata_ok) as Hsat. destruct intrinsics as [Hi1 Hi2 Hi3].
  unfold get_resources_for_tx, resources_refused. fold pubdata_overhead.
  assert (0 ≤ pubdata_overhead) as Hpo by (unfold pubdata_overhead, in_width in *; nia).
  change MAX_BLOCK_GAS_LIMIT with (2 ^ 56 - 1) in *.
  assert (is_u64 gas_limit) as Hgl by (unfold in_width; lia). specialize (HL Hgl per_gas_ok).
  set (L := full_native_limit gas_limit native_per_gas) in *.
  change (checked_mul 64 (u256_to_u64_saturated native_per_pubdata) intrinsic_pubdata)
    with (checked 64 pubdata_overhead).
  destruct (checked 64 pubdata_overhead) as [po|] eqn:E; cbn [lift_opt].
  2:{ apply checked_None in E. erewrite bind_err by reflexivity. cbv beta iota zeta delta [tx_error_of_internal]. split; [done|]. unfold in_width in *. lia. }
  apply checked_Some in E as [<- Hpo']. erewrite bind_val by done. cbv beta.
  change (sub_or_zero false L pubdata_overhead : M S TxError Z)
    with (match checked 64 (L - pubdata_overhead) with
          | Some r => mret r
          | None => throw (Validation OutOfNativeResourcesDuringValidation)
          end : M S TxError Z).
  destruct (checked 64 (L - pubdata_overhead)) as [n1|] eqn:E.
  2:{ apply checked_None in E. erewrite bind_err by reflexivity. cbv beta iota zeta delta [tx_error_of_internal]. split; [done|]. unfold computational_limit, intrinsic_charge.
      change COPY_BYTE_NATIVE_COST with 1. change MAX_NATIVE_COMPUTATIONAL with (2 ^ 35).
      unfold in_width in *. destruct resources_for_tester; lia. }
  apply checked_Some in E as [<- Hn1]. erewrite bind_val by done. cbv beta.
  destruct (computational_split (L - pubdata_overhead) Hn1) as (w & -> & Hw & Hsum & Hc).
  cbv beta iota. erewrite bind_val by (unfold map_err; rewrite Hcd; reflexivity). cbv beta iota.
  set (n2 := computational_limit (L - pubdata_overhead)) in *.
  change (checked_add 64 (Z.of_nat (length calldata) * COPY_BYTE_NATIVE_COST) intrinsic_native)
    with (checked 64 intrinsic_charge).
  assert (is_u64 intrinsic_charge) as Hic.
  { unfold intrinsic_charge, in_width. change COPY_BYTE_NATIVE_COST with 1. lia. }
  rewrite (checked_in _ intrinsic_charge) by done. cbn [lift_opt]. erewrite bind_val by done. cbv beta.
  unfold sub_or_zero, checked_sub. destruct (checked 64 (n2 - intrinsic_charge)) as [n3|] eqn:E.
  2:{ apply checked_None in E. erewrite bind_err by reflexivity. cbv beta iota zeta delta [tx_error_of_internal]. split; [done|]. unfold in_width in *. lia. }
  apply checked_Some in E as [<- Hn3]. erewrite bind_val by done. cbv beta.
  unfold checked_add. fold gas_charge. assert (is_u64 gas_charge) as Hgc by (unfold gas_charge, in_width; lia).
  rewrite (checked_in _ gas_charge) by done. cbn [lift_opt]. erewrite bind_val by done. cbv beta.
  rewrite andb_true_r. destruct (Z.ltb_spec gas_limit gas_charge); [done|].
  assert (saturating_sub gas_limit gas_charge = gas_limit - gas_charge) as -> by (unfold saturating_sub; lia).
  unfold checked_mul. assert (is_u64 ((gas_limit - gas_charge) * ERGS_PER_GAS)) as He.
  { change ERGS_PER_GAS with 256. unfold in_width in *. lia. }
  rewrite checked_in by done. cbn [lift_opt]. erewrite bind_val by done. cbv beta.
  split; [done|]. split; cbn -[Z.add Z.sub]; fold L; fold n2; try lia; done.
Qed.

(** An L1 transaction runs with what there is. *)
Record l1_split (r : ResourcesForTx) : Prop := {
  l1_ergs : e_left (main_resources r) = Z.max 0 (gas_limit - gas_charge) * ERGS_PER_GAS;
  l1_withheld : e_left (withheld r) = 0;
  l1_main_wf : res_wf (main_resources r);
  l1_withheld_wf : res_wf (withheld r)
}.

Lemma sub_or_zero_l1 {S} a b (s : S) :
  is_u64 a → ∃ n, sub_or_zero true a b s = (Val n, s) ∧ is_u64 n.
Proof.
  intros Ha. unfold sub_or_zero, checked_sub. destruct (checked 64 (a - b)) as [n|] eqn:E.
  - apply checked_Some in E as [_ Hn]. by exists n.
  - exists 0. split; [done|]. unfold in_width. lia.
Qed.

Lemma l1_resources {S} (s : S) :
  is_u64 gas_limit →
  match get_resources_for_tx gas_limit native_per_pubdata native_per_gas calldata intrinsic_gas
          intrinsic_pubdata intrinsic_native true s with
  | (Val r, s') => s' = s ∧ l1_split r
  | (Err (Internal _), s') => s' = s
  | _ => False
  end.
Proof.
  intros Hgl. pose proof (full_native_limit_range gas_limit native_per_gas Hgl per_gas_ok) as HL.
  destruct (cost_for_calldata_spec calldata s calldata_ok) as [Hcd Hcg].
  destruct intrinsics as [Hi1 Hi2 Hi3]. unfold get_resources_for_tx.
  destruct (checked_mul 64 (u256_to_u64_saturated native_per_pubdata) intrinsic_pubdata) as [po|];
    cbn [lift_opt]; [|by erewrite bind_err by reflexivity].
  erewrite bind_val by done. cbv beta.
  destruct (sub_or_zero_l1 (full_native_limit gas_limit native_per_gas) po s HL) as (n1 & H1 & Hn1).
  erewrite bind_val by exact H1. destruct (computational_split n1 Hn1) as (w & -> & Hw & _ & Hc).
  cbv beta iota. erewrite bind_val by (unfold map_err; rewrite Hcd; reflexivity). cbv beta iota.
  change (checked_add 64 (Z.of_nat (length calldata) * COPY_BYTE_NATIVE_COST) intrinsic_native)
    with (checked 64 intrinsic_charge).
  rewrite checked_in by (unfold intrinsic_charge, in_width; change COPY_BYTE_NATIVE_COST with 1; lia).
  cbn [lift_opt]. erewrite bind_val by done. cbv beta.
  destruct (sub_or_zero_l1 (computational_limit n1) intrinsic_charge s Hc) as (n2 & H2 & Hn2).
  erewrite bind_val by exact H2. unfold checked_add. fold gas_charge.
  rewrite (checked_in _ gas_charge) by (unfold gas_charge, in_width; lia).
  cbn [lift_opt]. erewrite bind_val by done. cbv beta. rewrite andb_false_r.
  unfold checked_mul. destruct (checked 64 (_ * ERGS_PER_GAS)) as [e|] eqn:E; cbn [lift_opt];
    [|by erewrite bind_err by reflexivity].
  apply checked_Some in E as [<- He]. erewrite bind_val by done. cbv beta. by split; [|split].
Qed.

(** C23: the resources of an L2 transaction.  Its gas limit is shared out completely:
    gas for calldata (EIP-2028) and the intrinsic gas is charged, the rest becomes
    ergs; of the native the limit is worth, the overhead for pubdata, the intrinsic
    charge, what may be used for computation and what is withheld add up to the
    whole.  A transaction gets no resources exactly when its limit does not cover the
    charges, or the price of pubdata overflows. *)
Theorem tx_resources_split {S} (s : S) :
  match get_resources_for_tx gas_limit native_per_pubdata native_per_gas calldata intrinsic_gas
          intrinsic_pubdata intrinsic_native false s with
  | (Val r, s') => s' = s ∧ resources_split r
  | (Err e, s') => s' = s ∧ resources_refused e
  | (Fault, _) => False
  end.
Proof. apply l2_resources. Qed.
End ForTx.

(** ** The refund *)

Lemma as_i64_small x : 0 ≤ x < 2 ^ 63 → as_i64 x = x.
Proof. intros H. unfold as_i64. by destruct (Z.ltb_spec x (2 ^ 63)); [|lia]. Qed.

Lemma delta_gas_spec native_used gas_used per_gas :
  0 ≤ gas_used < 2 ^ 62 → 0 ≤ native_used → 0 < per_gas → native_used / per_gas < 2 ^ 62 →
  delta_gas native_used gas_used per_gas > 0 ∧ gas_used < native_used / per_gas
    ∧ wrap 64 (delta_gas native_used gas_used per_gas) = native_used / per_gas - gas_used
  ∨ delta_gas native_used gas_used per_gas ≤ 0 ∧ native_used / per_gas ≤ gas_used.
Proof.
  intros Hg Hn Hp Hq. pose proof (Z.div_pos native_used per_gas Hn Hp) as Hq0. unfold delta_gas.
  destruct (Z.eqb_spec per_gas 0); [lia|]. rewrite (as_i64_small gas_used), (as_i64_small (native_used / per_gas)) by lia.
  destruct (Z.lt_ge_cases gas_used (native_used / per_gas)).
  - left. rewrite (wrap_small 64) by (unfold in_width; lia). rewrite as_i64_small by lia.
    split; [lia|]. split; [done|]. apply wrap_small. unfold in_width. lia.
  - right. split; [|done]. destruct (Z.eq_dec (native_used / per_gas) gas_used) as [-> |].
    + by rewrite Z.sub_diag.
    + assert (wrap 64 (native_used / per_gas - gas_used) = native_used / per_gas - gas_used + 2 ^ 64) as ->.
      { unfold wrap. rewrite <- (Z_mod_plus_full _ 1), Z.mul_1_l. apply Z.mod_small. lia. }
      unfold as_i64. case_match eqn:E; [apply Z.ltb_lt in E|]; lia.
Qed.

(** Gas before refunds, and the refund of EIP-3529. *)
Definition gas_spent (gas_limit : Z) (r : Res) : Z := gas_limit - e_left r / ERGS_PER_GAS.
Definition capped_refund (gas_spent counter : Z) : Z := Z.min counter (gas_spent / 5).

(** Native is paid for in gas, if it was used for more than the gas that was spent. *)
Definition settled_gas (spent native_used native_per_gas : Z) : Z :=
  if unlimited_native || (native_per_gas =? 0) then spent
  else Z.max spent (native_used / u256_to_u64_saturated native_per_gas).

Record refund_exact (gas_limit native_per_gas : Z) (to_charge r : Res) (counter : Z) (info : RefundInfo)
    : Prop := {
  rx_total : gas_used info + gas_refund info = gas_limit;
  rx_ranges : 0 ≤ gas_used info ∧ 0 ≤ gas_refund info;
  rx_evm : evm_refund info = capped_refund (gas_spent gas_limit r) counter;
  rx_native : n_left to_charge ≤ n_left r → n_left r - n_left to_charge
    ≤ full_native_limit gas_limit native_per_gas →
    native_used info = full_native_limit gas_limit native_per_gas - (n_left r - n_left to_charge);
  rx_used : gas_used info
    = settled_gas (gas_spent gas_limit r - evm_refund info) (native_used info) native_per_gas
}.

Lemma native_in_gas gas_limit native_per_gas native_used :
  0 ≤ gas_limit → is_u256 native_per_gas → native_per_gas ≠ 0 →
  native_used ≤ gas_limit * u256_to_u64_saturated native_per_gas →
  0 < u256_to_u64_saturated native_per_gas
  ∧ native_used / u256_to_u64_saturated native_per_gas ≤ gas_limit.
Proof.
  intros Hg Hn Hz Hu. assert (0 < u256_to_u64_saturated native_per_gas) as Hp.
  { rewrite u256_to_u64_saturated_spec by done. unfold in_width in *. lia. }
  split; [done|]. apply Z.div_le_upper_bound; lia.
Qed.

Section Refund.
Variables (gas_limit native_per_gas : Z) (to_charge : Res).
Hypothesis gas_limit_ok : 0 ≤ gas_limit < 2 ^ 62.
Hypothesis per_gas_ok : is_u256 native_per_gas.
Hypothesis charge_no_ergs : e_left to_charge = 0.

Lemma compute_gas_refund_run sys r r1 spent evm used0 nu used :
  (charge_unchecked to_charge r).2 = r1 →
  wrap 64 (gas_limit - e_left r1 / ERGS_PER_GAS) = spent →
  Z.min (get_refund_counter sys) (spent / 5) = evm → wrap 64 (spent - evm) = used0 →
  saturating_sub (full_native_limit gas_limit native_per_gas) (n_left r1) = nu →
  (let delta := delta_gas nu used0 (u256_to_u64_saturated native_per_gas) in
   if negb unlimited_native && (0 <? delta) then wrap 64 (used0 + wrap 64 delta) else used0) = used →
  wrap 64 (gas_limit - used) ≤ gas_limit →
  compute_gas_refund to_charge gas_limit native_per_gas (sys, r)
  = (Val (mkRefundInfo (wrap 64 (gas_limit - used)) used evm nu), (sys, exhaust_ergs r1)).
Proof.
  intros <- <- <- <- <- <- Hle. unfold compute_gas_refund.
  do 2 (erewrite bind_val by reflexivity; cbv beta zeta). do 3 (erewrite bind_val by reflexivity; cbv beta zeta).
  cbn [fst snd exhaust_ergs ergs native remaining]. apply Z.leb_le in Hle. unfold when.
  change (remaining (native ?x)) with (native x). change (as_u64 (native ?x)) with (n_left x).
  change (ergs_0 (ergs ?x)) with (e_left x). cbv zeta in Hle. rewrite Hle. reflexivity.
Qed.

Lemma charge_unchecked_run e n cn :
  is_u64 e → (charge_unchecked (mk_res 0 cn) (mk_res e n)).2 = mk_res e (wrap 64 (n - cn)).
Proof.
  intros He. cbn. unfold Base_charge_unchecked, on_ergs, on_native, zoom, mbind, M_bind, modify. cbn -[wrap].
  rewrite Z.sub_0_r, wrap_small by done. done.
Qed.

(** The arithmetic on [u64] and [i64] does not overflow. *)
Lemma settled_gas_run spent nu :
  0 ≤ spent ≤ gas_limit → 0 ≤ nu ≤ full_native_limit gas_limit native_per_gas →
  (let delta := delta_gas nu spent (u256_to_u64_saturated native_per_gas) in
   if negb unlimited_native && (0 <? delta) then wrap 64 (spent + wrap 64 delta) else spent)
  = settled_gas spent nu native_per_gas
  ∧ 0 ≤ settled_gas spent nu native_per_gas ≤ gas_limit.
Proof.
  intros Hs Hnu. cbv zeta. unfold settled_gas. destruct unlimited_native eqn:Eu; [done|]. cbn [orb negb andb].
  destruct (Z.eqb_spec native_per_gas 0) as [-> |Hz]; [done|].
  destruct (native_in_gas gas_limit native_per_gas nu) as [Hp Hq]; try done; [lia| |].
  { etransitivity; [apply Hnu|]. unfold full_native_limit, saturating_mul. rewrite Eu.
    destruct (Z.eqb_spec native_per_gas 0); [done|]. cbn [orb]. lia. }
  destruct (delta_gas_spec nu spent (u256_to_u64_saturated native_per_gas)) as [(Hd & Hlt & Hw)|[Hd Hge]];
    try lia; destruct (Z.ltb_spec 0 (delta_gas nu spent (u256_to_u64_saturated native_per_gas))); try lia.
  rewrite Hw, Z.max_r, wrap_small by (unfold in_width; lia). lia.
Qed.

Lemma gas_spent_range r :
  res_wf r → e_left r ≤ gas_limit * ERGS_PER_GAS → 0 ≤ gas_spent gas_limit r ≤ gas_limit.
Proof.
  intros [[He _] _] Hle. unfold gas_spent. change ERGS_PER_GAS with 256 in *.
  pose proof (Z.div_pos _ 256 He ltac:(lia)). pose proof (Z.div_le_upper_bound (e_left r) 256 gas_limit). lia.
Qed.

Lemma capped_refund_range spent counter :
  0 ≤ spent → 0 ≤ counter → 0 ≤ capped_refund spent counter ≤ spent.
Proof.
  intros Hs Hc. unfold capped_refund. pose proof (Z.div_pos spent 5 ltac:(lia) ltac:(lia)).
  pose proof (Z.div_le_upper_bound spent 5 spent). lia.
Qed.

Lemma gas_refund_spec sys r :
  res_wf r → e_left r ≤ gas_limit * ERGS_PER_GAS → is_u32 (get_refund_counter sys) →
  ∃ info r', compute_gas_refund to_charge gas_limit native_per_gas (sys, r) = (Val info, (sys, r'))
    ∧ refund_exact gas_limit native_per_gas to_charge r (get_refund_counter sys) info
    ∧ e_left r' = 0 ∧ res_wf r'.
Proof.
  intros Hwf Hle [Hc1 Hc2]. pose proof (gas_spent_range r Hwf Hle) as Hs. destruct Hwf as [He Hn].
  pose proof (capped_refund_range (gas_spent gas_limit r) (get_refund_counter sys) ltac:(lia) Hc1) as Hev.
  pose proof (full_native_limit_range gas_limit native_per_gas ltac:(unfold in_width; lia) per_gas_ok) as Hf.
  pose proof (wrap_in_width 64 (n_left r - n_left to_charge) ltac:(lia)) as Hw.
  set (nu := saturating_sub (full_native_limit gas_limit native_per_gas) (wrap 64 (n_left r - n_left to_charge))).
  set (evm := capped_refund (gas_spent gas_limit r) (get_refund_counter sys)) in *.
  destruct (settled_gas_run (gas_spent gas_limit r - evm) nu) as [Hrun Hu];
    [lia|unfold nu, saturating_sub, in_width in *; lia|].
  set (used := settled_gas (gas_spent gas_limit r - evm) nu native_per_gas) in *.
  exists (mkRefundInfo (gas_limit - used) used evm nu), (mk_res 0 (wrap 64 (n_left r - n_left to_charge))).
  assert (wrap 64 (gas_limit - used) = gas_limit - used) as Hsub by (apply wrap_small; unfold in_width; lia).
  split; [|split; [split; cbn; try done; try lia|by split_conj; [| |apply Hw..]]].
  - rewrite <- Hsub. rewrite (compute_gas_refund_run sys r (mk_res (e_left r) (wrap 64 (n_left r - n_left to_charge)))
      (gas_spent gas_limit r) evm (gas_spent gas_limit r - evm) nu used);
      try done; [| |apply wrap_small; unfold in_width; lia|rewrite Hsub; lia].
    + destruct r as [[e] [n]], to_charge as [[ce] [cn]]. cbn in charge_no_ergs. unfold e_left in *. cbn in *. subst ce.
      by apply charge_unchecked_run.
    + apply wrap_small. unfold in_width, gas_spent in *. cbn. lia.
  - intros H1 H2. unfold nu. rewrite wrap_small by (unfold in_width in *; lia). unfold saturating_sub. lia.
Qed.

(** C22: the gas a transaction has used.  The arithmetic on machine integers is that
    on numbers: the gas used and the refund add up to the gas limit, the refund of
    EIP-3529 is at most a fifth of the gas spent, and gas is charged for native
    beyond what the gas spent was worth. *)
Theorem gas_refund_exact sys r :
  res_wf r → e_left r ≤ gas_limit * ERGS_PER_GAS → is_u32 (get_refund_counter sys) →
  ∃ info r', compute_gas_refund to_charge gas_limit native_per_gas (sys, r) = (Val info, (sys, r'))
    ∧ refund_exact gas_limit native_per_gas to_charge r (get_refund_counter sys) info
    ∧ e_left r' = 0 ∧ res_wf r'.
Proof. apply gas_refund_spec. Qed.
End Refund.
End Gas.
