(* ===== verification/Transaction.v ===== *)
(** * Transactions of either format

    Models [basic_bootloader/src/bootloader/transaction/mod.rs], the facade over the
    two formats of TxFormats.v and AbiTx.v, [transaction/authorization_list.rs] and
    [parse_and_warm_up_access_list] of [process_transaction.rs]. *)

From stdpp Require Import strings.
From S2P Require Import Prelude Resources U256 SystemInterface BootloaderErrors RlpParser TxFormats.
From S2P Require Import RlpHash AbiTx EvmConstants EvmState BootSystem TxSystem.

Inductive Transaction : Type :=
| TxRlp (tx : RlpEncodedTransaction)
| TxAbi (tx : AbiEncodedTransaction).

(** [SystemError::from] of an error that has neither interface nor cascaded errors. *)
Definition system_of_subsystem (e : SubsystemError Empty_set Empty_set) : SystemError :=
  match e with
  | SLeafUsage e => match e with end
  | SLeafDefect e => LeafDefect e
  | SLeafRuntime e => LeafRuntime e
  | SCascaded e => match e with end
  end.

(** A [for] loop over an iterator. *)
Fixpoint for_loop {S I A E} (next : M I Empty_set (option A)) (body : A → M S E unit) (fuel : nat)
    (iter : I) : M S E unit :=
  match fuel with
  | O => fault
  | Datatypes.S fuel =>
      match next iter with
      | (Val (Some a), iter) => body a ;; for_loop next body fuel iter
      | (Val None, _) => mret tt
      | _ => fault
      end
  end.

(** Work on the resources of a pair, and on its system. *)
Definition on_res {T E A} (m : M Res E A) : M (T * Res) E A := zoom snd (λ r s, (s.1, r)) m.
Definition on_sys {T E A} (m : M T E A) : M (T * Res) E A := zoom fst (λ t s, (t, s.2)) m.

Section Facade.
Context {R : Ruint} {UZ : Usize} {KK : Keccak}.

Definition is_upgrade (self : Transaction) : bool :=
  match self with TxRlp _ => false | TxAbi tx => pv_value (ab_tx_type tx) =? UPGRADE_TX_TYPE end.

Definition is_l1_l2 (self : Transaction) : bool :=
  match self with TxRlp _ => false | TxAbi tx => pv_value (ab_tx_type tx) =? L1_L2_TX_TYPE end.

Definition tx_nonce (self : Transaction) : Z :=
  match self with TxRlp tx => rtx_nonce tx | TxAbi tx => pv_value (ab_nonce tx) end.

Definition tx_gas_limit (self : Transaction) : Z :=
  match self with TxRlp tx => rtx_gas_limit tx | TxAbi tx => pv_value (ab_gas_limit tx) end.

Definition tx_max_fee_per_gas (self : Transaction) : Z :=
  match self with TxRlp tx => rtx_max_fee_per_gas tx | TxAbi tx => pv_value (ab_max_fee_per_gas tx) end.

Definition tx_max_priority_fee_per_gas (self : Transaction) : option Z :=
  match self with
  | TxRlp tx => rtx_max_priority_fee_per_gas tx
  | TxAbi tx => Some (pv_value (ab_max_priority_fee_per_gas tx))
  end.

Definition tx_gas_per_pubdata_limit (self : Transaction) : Z :=
  match self with TxRlp _ => 0 | TxAbi tx => pv_value (ab_gas_per_pubdata_limit tx) end.

Definition tx_calldata (self : Transaction) : list Z :=
  match self with TxRlp tx => rtx_calldata tx | TxAbi tx => abi_calldata tx end.

Definition tx_value (self : Transaction) : Z :=
  match self with TxRlp tx => rtx_value tx | TxAbi tx => pv_value (ab_value tx) end.

Definition tx_from (self : Transaction) : Z :=
  match self with TxRlp tx => from_ tx | TxAbi tx => pv_value (ab_from tx) end.

(** The first call stores the hash in the transaction. *)
Definition transaction_hash : M (Transaction * Res) TxError (list Z) := λ s,
  match s.1 with
  | TxRlp tx => let '(o, (tx, r)) := rtx_transaction_hash (tx, s.2) in (o, (TxRlp tx, r))
  | TxAbi tx => let '(o, r) := calculate_hash tx s.2 in (o, (TxAbi tx, r))
  end.

Definition signed_hash {S} (self : Transaction) : M S TxError (list Z) :=
  match self with
  | TxRlp tx => mret (hash_for_signature_verification tx)
  | TxAbi _ =>
      throw (tx_error_of_internal
        (internal_error "ABI encoded transactions do not support signed hash"))
  end.

Definition tx_required_balance (self : Transaction) : option Z :=
  match self with TxRlp tx => rtx_required_balance tx | TxAbi tx => abi_required_balance tx end.

Definition tx_sig_parity_r_s {S E} (self : Transaction) : M S E (bool * list Z * list Z) :=
  match self with TxRlp tx => mret (rtx_sig_parity_r_s tx) | TxAbi tx => abi_sig_parity_r_s tx end.

Definition tx_to (self : Transaction) : option Z :=
  match self with TxRlp tx => destination tx | TxAbi tx => Some (pv_value (ab_to tx)) end.

Definition is_deployment (self : Transaction) : option ExecutionEnvironmentType :=
  match self with
  | TxRlp tx => match destination tx with None => Some EVM | Some _ => None end
  | TxAbi tx => if negb (pv_value (ab_reserved_1 tx) =? 0) then Some EVM else None
  end.

Definition access_list_iter (self : Transaction) : option (HomListIter AccessListForAddress) :=
  match self with TxRlp tx => HomList_iter <$> access_list tx | TxAbi _ => None end.

Definition tx_authorization_list (self : Transaction) : option AuthorizationList :=
  match self with TxAbi _ => None | TxRlp tx => authorization_list tx end.

Definition tx_len (self : Transaction) : Z :=
  match self with TxAbi tx => abi_len tx | TxRlp tx => Z.of_nat (length (buffer tx)) end.

(** ** Parsing *)
Context {SYS : System} {EXT : SystemExt} {TX : TxSystem}.

Definition try_from_buffer (buffer : list Z) : M SysState TxError Transaction :=
  expected_chain_id ← gets (λ s, md_chain_id (sys_metadata s));
  format ← map_err tx_error_of_internal oracle_tx_format;
  match format with
  | FormatRlp =>
      from ← map_err tx_error_of_internal oracle_tx_from;
      '(tx, _) ← on_cursor tt (parse_from_buffer buffer expected_chain_id from);
      mret (TxRlp tx)
  | FormatAbi =>
      tx ← map_err (λ _, Validation InvalidEncoding) (abi_try_from_buffer buffer);
      mret (TxAbi tx)
  end.

Abbreviation TxM := (M (SysState * Res) TxError).

Definition sys_io {A} (m : M (SysState * Res) SystemError A) : TxM A := map_err tx_error_of_system m.

(** The iterator of an access list calls [next] once more than there are addresses,
    each of which takes a byte. *)
Definition warm_up_slots (address : Z) (slots_list : StorageSlotsList) : TxM unit :=
  for_loop FixedListIter_next
    (λ key,
       match key with
       | Val key => sys_io (storage_touch NoEE address (bytes32_ref key) true)
       | Err e => throw (Validation e)
       | Fault => fault
       end)
    (S (Z.to_nat (fl_count slots_list))) (FixedList_iter slots_list).

Definition parse_and_warm_up_access_list (transaction : Transaction) : TxM unit :=
  match access_list_iter transaction with
  | Some iter =>
      for_loop HomListIter_next
        (λ entry,
           sys_io (touch_account NoEE (b160_val (ala_address entry)) true) ;;
           warm_up_slots (b160_val (ala_address entry)) (ala_slots_list entry))
        (S (length (rlp_bytes (hi_r iter)))) iter
  | None => mret tt
  end.

(** ** Authorization lists *)

Definition EIP7702_MAGIC : Z := 0x05.

(** [crypto::secp256k1::SECP256K1N_HALF]. *)
Definition SECP256K1N_HALF : Z :=
  0x7FFFFFFFFFFFFFFFFFFFFFFFFFFFFFFF5D576E7357A4501DDFE92F46681B20A0.

Definition compute_auth_message_signed_hash (auth_chain_id auth_nonce : Z)
    (delegation_address : list Z) : M Res TxError (list Z) :=
  let list_payload_len :=
    estimate_number_encoding_len (be_bytes 32 auth_chain_id) + ADDRESS_ENCODING_LEN
    + estimate_number_encoding_len (be_bytes 8 auth_nonce) in
  let total_list_len := estimate_length_encoding_len list_payload_len + list_payload_len in
  let encoding_len := 1 + total_list_len in
  charge_keccak encoding_len ;;
  let hasher := [EIP7702_MAGIC] in
  let hasher := apply_list_length_encoding_to_hash list_payload_len hasher in
  let hasher := apply_number_encoding_to_hash (be_bytes 32 auth_chain_id) hasher in
  let hasher := apply_bytes_encoding_to_hash delegation_address hasher in
  let hasher := apply_number_encoding_to_hash (be_bytes 8 auth_nonce) hasher in
  mret (Keccak256 hasher).

(** [dst[(32 - l.len())..].copy_from_slice(l)] on 32 zero bytes. *)
Definition left_pad_32 (l : list Z) : option (list Z) :=
  if bool_decide (length l ≤ 32)%nat then Some (repeat 0 (32 - length l) ++ l) else None.

(** The 128 bytes: hash, [v], [r] and [s]. *)
Definition ecrecover_input (hash : list Z) (parity : Z) (r s : list Z) : option (list Z) :=
  r ← left_pad_32 r;
  s ← left_pad_32 s;
  Some (hash ++ repeat 0 31 ++ [wrap 8 (parity + 27)] ++ r ++ s).

(** [B160::try_from_be_slice(&output[12..])]. *)
Definition recovered_address {S} (output : list Z) : M S TxError Z :=
  bytes ← expect (slice output 12 (Z.of_nat (length output) - 12));
  lift_opt (tx_error_of_internal (internal_error "Invalid ecrecover return value"))
    (b160_try_from_be_slice bytes).

Definition recover_authority (parity : Z) (r s msg : list Z) : TxM (option Z) :=
  if 1 <? parity then mret None
  else
    input ← expect (ecrecover_input msg parity r s);
    output ← infinite_ergs
      (sys_io (on_res (map_err system_of_subsystem (secp256k1_ec_recover input))));
    if bool_decide (output = []) then mret None
    else address ← recovered_address output; mret (Some address).

Definition bump_authority_nonce (authority : Z) : TxM unit :=
  infinite_ergs
    (map_err (λ e, Internal match e with
                            | SLeafUsage NonceOverflowError =>
                                SLeafDefect (internal_error "Cannot overflow, already checked")
                            | e => SCascaded (WrappedNonce e)
                            end)
       (bump_nonce NoEE authority 1)) ;;
  mret tt.

Definition validate_and_apply_delegation (auth : AuthorizationEntry) : TxM bool :=
  chain_id ← gets (λ s, md_chain_id (sys_metadata s.1));
  if negb (ae_chain_id auth =? 0) && negb (ae_chain_id auth =? chain_id) then mret false
  else if ae_nonce auth =? umax 64 then mret false
  else
    s ← lift_opt (Validation InvalidStructure) (u_try_from_be_slice (ae_s auth));
    if SECP256K1N_HALF <? s then mret false
    else
      msg ← infinite_ergs (on_res
        (compute_auth_message_signed_hash (ae_chain_id auth) (ae_nonce auth) (ae_address auth)));
      recovered ← infinite_ergs (recover_authority (ae_y_parity auth) (ae_r auth) (ae_s auth) msg);
      match recovered with
      | None => mret false
      | Some authority =>
          account_properties ← infinite_ergs (sys_io (read_account_properties NoEE authority
            [WithNonce; WithNominalTokenBalance; WithIsDelegated; WithArtifactsLen;
             WithUnpaddedCodeLen]));
          if is_contract account_properties then mret false
          else if negb (ad_nonce account_properties =? ae_nonce auth) then mret false
          else
            let is_empty := (ad_nonce account_properties =? 0)
                            && (ad_unpadded_code_len account_properties =? 0)
                            && (ad_nominal_token_balance account_properties =? 0) in
            when (negb is_empty) (on_sys (map_err tx_error_of_system
              (add_evm_refund (wrap 32 (GAS_NEWACCOUNT - GAS_PER_AUTH_BASE_COST))))) ;;
            infinite_ergs (sys_io (set_delegation authority (of_be_bytes (ae_address auth)))) ;;
            bump_authority_nonce authority ;;
            mret true
      end.

Definition parse_authorization_list_and_apply_delegations (auth_list : AuthorizationList)
    : TxM unit :=
  for_loop HomListIter_next (λ entry, validate_and_apply_delegation entry ;; mret tt)
    (S (length (hl_payload auth_list))) (HomList_iter auth_list).
End Facade.
