(* ===== verification/TxWellFormed.v ===== *)
(** * Parsed transactions are well formed

    What parsing guarantees to the rest of the bootloader: fields in their types,
    signatures that fit their slots, lists whose iteration does not panic. *)

From stdpp Require Import strings.
From S2P Require Import Prelude Resources U256 Rlp SystemInterface BootloaderErrors RlpParser RlpLogic.
From S2P Require Import RlpTheorems TxFormats TxLogic TxTheorems AbiTx AbiTheorems EvmLogic Transaction.

(** ** Loops over lists *)

Fixpoint each {S E A} (body : A → M S E unit) (l : list A) : M S E unit :=
  match l with
  | [] => mret tt
  | a :: l => body a ;; each body l
  end.

(** A [for] loop runs its body on the items of the iterator. *)
Lemma for_loop_each {S I A E} (next : M I Empty_set (option A)) (body : A → M S E unit) n m it l it' (s : S) :
  for_each next n it = (Val l, it') → (n ≤ m)%nat → for_loop next body m it s = each body l s.
Proof.
  revert m it l s. induction n as [|n IH]; intros m it l s Hf Hm; [done|].
  destruct m as [|m]; [lia|]. cbn [for_each for_loop] in *. unfold mbind at 1, M_bind in Hf.
  destruct (next it) as [[[a|]|[]|] it1]; [|by injection Hf as <- <-|done].
  unfold mbind, M_bind in Hf. destruct (for_each next n it1) as [[l'|[]|] it2] eqn:Hn; [|done].
  injection Hf as <- <-. cbn [each]. unfold mbind, M_bind.
  destruct (body a s) as [[[]|e|] s1]; [|done|done]. eapply IH; [exact Hn|lia].
Qed.

(** ** Fields *)

Lemma string_enc_bounds s enc :
  string_enc s enc → Forall is_u8 enc → Forall is_u8 s ∧ (length s ≤ length enc)%nat.
Proof.
  intros [[_ ->]|(_ & hdr & _ & ->)] Hu; [done|]. apply Forall_app in Hu as [_ Hu].
  rewrite length_app. split; [done|lia].
Qed.

Lemma bad_scalar_length s : bad_scalar s = false → (length s ≤ 32)%nat.
Proof. unfold bad_scalar. rewrite orb_false_iff, bool_decide_eq_false. lia. Qed.

Lemma chunks_exist n (l : list Z) k :
  (0 < k)%nat → length l = (n * k)%nat →
  ∃ chunks, l = concat chunks ∧ Forall (λ c, length c = k) chunks ∧ length chunks = n.
Proof.
  intros Hk. revert l. induction n as [|n IH]; intros l Hl.
  - exists []. cbn in *. by rewrite (nil_length_inv l).
  - destruct (IH (drop k l)) as (cs & H1 & H2 & H3); [rewrite length_drop; lia|].
    exists (take k l :: cs). cbn. rewrite <- H1, take_drop, H3. split_conj; try done.
    constructor; [rewrite length_take; lia|done].
Qed.

Section WellFormed.
Context {R : Ruint} {RS : RuintSpec} {UZ : Usize}.

(** Iterating over a list yields [items]. *)
Definition iterates {I A} (next : M I Empty_set (option A)) (fuel : nat) (it : I) (items : list A) : Prop :=
  ∀ S E (body : A → M S E unit) s, for_loop next body fuel it s = each body items s.

(** A storage key is 32 bytes.  The list is taken in chunks of 33 bytes, and a chunk
    that does not start as a string of 32 bytes is refused when it is reached. *)
Definition slot_of (chunk : list Z) (key : outcome InvalidTransaction Bytes32Ref) : Prop :=
  length chunk = 33%nat ∧ Forall is_u8 chunk
  ∧ match chunk with
    | 0xa0 :: word => key = Val (mkBytes32Ref word)
    | _ => key = Err InvalidStructure
    end.

Definition slot_ok (key : outcome InvalidTransaction Bytes32Ref) : Prop :=
  match key with
  | Val k => Forall is_u8 (bytes32_ref k) ∧ length (bytes32_ref k) = 32%nat
  | Err e => e = InvalidStructure
  | Fault => False
  end.

Lemma slots_ok chunks keys : Forall2 slot_of chunks keys → Forall slot_ok keys.
Proof.
  induction 1 as [|c key chunks keys (Hl & Hu & Hk) _ IH]; constructor; [|done].
  destruct c as [|h word]; [done|]. destruct (decide (h = 0xa0)) as [->|Hne].
  - subst key. cbn in *. apply Forall_cons in Hu as [_ Hu]. split; [done|lia].
  - assert (key = Err InvalidStructure) as ->; [|done].
    destruct h as [|h|h]; [done| |done]. do 8 (destruct h as [h|h|]; try done).
Qed.

Definition access_entry_wf (a : AccessListForAddress) : Prop :=
  in_width 160 (b160_val (ala_address a))
  ∧ ∃ chunks keys, fl_payload (ala_slots_list a) = concat chunks
      ∧ iterates FixedListIter_next (S (Z.to_nat (fl_count (ala_slots_list a))))
          (FixedList_iter (ala_slots_list a)) keys
      ∧ Forall2 slot_of chunks keys.

Record auth_wf (a : AuthorizationEntry) : Prop := {
  aw_chain : is_u256 (ae_chain_id a);
  aw_nonce : is_u64 (ae_nonce a);
  aw_address : Forall is_u8 (ae_address a) ∧ length (ae_address a) = 20%nat;
  aw_parity : is_u8 (ae_y_parity a);
  aw_r : Forall is_u8 (ae_r a) ∧ (length (ae_r a) ≤ 32)%nat;
  aw_s : Forall is_u8 (ae_s a) ∧ (length (ae_s a) ≤ 32)%nat
}.

Definition access_list_wf (l : AccessList) : Prop :=
  ∃ items, iterates HomListIter_next (S (length (hl_payload l))) (HomList_iter l) items
    ∧ Forall access_entry_wf items.

(** One of its storage keys does not start as a string of 32 bytes. *)
Definition has_bad_key (l : AccessList) : Prop :=
  ∃ items a chunks chunk,
    iterates HomListIter_next (S (length (hl_payload l))) (HomList_iter l) items ∧ a ∈ items
    ∧ fl_payload (ala_slots_list a) = concat chunks ∧ Forall (λ c, length c = 33%nat) chunks
    ∧ chunk ∈ chunks ∧ head chunk ≠ Some 0xa0.

Lemma bad_chunk chunks keys e :
  Forall2 slot_of chunks keys → Err e ∈ keys →
  Forall (λ c, length c = 33%nat) chunks ∧ ∃ chunk, chunk ∈ chunks ∧ head chunk ≠ Some 0xa0.
Proof.
  intros Hf He. split; [clear He; by induction Hf as [|c k cs ks (Hl & _) _ IH]; constructor|].
  apply list_elem_of_lookup in He as [i Hi]. destruct (Forall2_lookup_r _ _ _ _ _ Hf Hi) as (c & Hc & _ & _ & Hk).
  exists c. split; [by eapply list_elem_of_lookup_2|]. intros Hh. destruct c as [|h c]; [done|].
  injection Hh as ->. done.
Qed.

Definition auth_list_wf (l : AuthorizationList) : Prop :=
  ∃ items, iterates HomListIter_next (S (length (hl_payload l))) (HomList_iter l) items
    ∧ Forall auth_wf items ∧ hl_count l = Some (Z.of_nat (length items))
    ∧ Z.of_nat (length items) < 2 ^ 32.

(** *** Lists *)

Lemma decode_slot c : length c = 33%nat → Forall is_u8 c → slot_of c (decode_from_fixed c).
Proof.
  intros Hl Hu. split; [done|]. split; [done|]. destruct c as [|h word]; [done|].
  cbn -[Z.of_nat length]. unfold fixed_payload. rewrite Hl. cbn [negb orb Z.of_nat Z.eqb Pos.eqb].
  destruct (Z.eqb_spec h 160) as [->|Hne]; [done|]. cbn.
  destruct h as [|h|h]; [done| |done]. do 8 (destruct h as [h|h|]; try done).
Qed.

Lemma slots_wf a enc :
  fixed_list_enc (T:=Bytes32Ref) a enc → Forall is_u8 enc →
  ∃ chunks keys, fl_payload a = concat chunks
    ∧ iterates FixedListIter_next (S (Z.to_nat (fl_count a))) (FixedList_iter a) keys
    ∧ Forall2 slot_of chunks keys.
Proof.
  intros [Hl Hc] Hu. destruct (list_enc_bounds _ _ Hl Hu) as (Hup & _ & Hb). cbn in Hc.
  destruct (chunks_exist (Z.to_nat (fl_count a)) (fl_payload a) 33) as (cs & H1 & H2 & H3); [lia|lia|].
  exists cs, (map decode_from_fixed cs). split; [done|]. split.
  - destruct (fixed_list_items (T:=Bytes32Ref) cs 0 []) as [it Hit]; try done.
    { eapply Forall_impl; [exact H2|]. cbn. lia. }
    { cbn [app]. rewrite <- H1. apply usize_holds_u32. lia. }
    intros S E body s. eapply for_loop_each; [|done].
    unfold FixedList_iter. cbn [app] in Hit. rewrite <- H1, Z.add_0_l, H3, Z2Nat.id in Hit by lia. exact Hit.
  - rewrite H1 in Hup. clear -H2 Hup. induction H2 as [|c cs Hc _ IH]; [constructor|].
    cbn in Hup. apply Forall_app in Hup as [U1 U2]. constructor; [by apply decode_slot|by apply IH].
Qed.

Lemma access_entries_wf items payload :
  items_enc access_entry_enc items payload → Forall is_u8 payload → Forall access_entry_wf items.
Proof.
  revert payload. induction items as [|a items IH]; intros payload; [constructor|].
  intros (e & p & (pl & Hl & Hf) & Hi & ->) Hu. apply Forall_app in Hu as [Hu1 Hu2].
  constructor; [|by eapply IH]. destruct (list_enc_bounds _ _ Hl Hu1) as (Hu & _ & _).
  destruct Hf as (e1 & p1 & (s & [Hs1 Hs2] & Hs3) & (e2 & p2 & H2 & -> & ->) & ->).
  rewrite !Forall_app in Hu. destruct Hu as (U1 & U2 & _). split; [|by eapply slots_wf].
  rewrite <- Hs3. destruct (string_enc_bounds _ _ Hs2 U1) as [Hsu _].
  pose proof (of_be_bytes_bound s Hsu) as Hb. by rewrite Hs1 in Hb.
Qed.

Lemma hom_iterates {T} {D : RlpItemDecode T} (Q : T → list Z → Prop) {IS : ItemSpec D Q} (l : HomList T) items :
  items_enc Q items (hl_payload l) → Forall is_u8 (hl_payload l) → Z.of_nat (length (hl_payload l)) < 2 ^ 32 →
  iterates HomListIter_next (S (length (hl_payload l))) (HomList_iter l) items.
Proof.
  intros Hi Hu Hl S E body s. destruct (hom_list_items Q items true (Rlp_new (hl_payload l))) as [it Hit].
  { apply cur_ok_new; [done|]. apply usize_holds_u32. lia. }
  { exact Hi. }
  eapply for_loop_each; [exact Hit|]. pose proof (items_enc_length Q items _ Hi). lia.
Qed.

Lemma access_list_enc_wf l enc : access_list_enc l enc → Forall is_u8 enc → access_list_wf l.
Proof.
  intros (Hl & items & Hi & _) Hu. destruct (list_enc_bounds _ _ Hl Hu) as (Hu' & _ & Hb).
  exists items. split; [|by eapply access_entries_wf]. by apply (hom_iterates access_entry_enc).
Qed.

Lemma auth_entries_wf items payload :
  items_enc auth_entry_enc items payload → Forall is_u8 payload → Forall auth_wf items.
Proof.
  revert payload. induction items as [|a items IH]; intros payload; [constructor|].
  intros (e & p & (pl & Hl & Hf) & Hi & ->) Hu. apply Forall_app in Hu as [Hu1 Hu2].
  constructor; [|by eapply IH]. destruct (list_enc_bounds _ _ Hl Hu1) as (Hu & _ & _).
  destruct Hf as (e1 & p1 & [H1 _] & (e2 & p2 & [H2 H2'] & (e3 & p3 & [H3 _] & (e4 & p4 & [H4 _] &
    (e5 & p5 & [H5 H5'] & (e6 & p6 & [H6 H6'] & -> & ->) & ->) & ->) & ->) & ->) & ->).
  rewrite !Forall_app in Hu. destruct Hu as (U1 & U2 & U3 & U4 & U5 & U6 & _).
  split; try done; (split; [by eapply string_enc_bounds|]); try done; by apply bad_scalar_length.
Qed.

Lemma auth_list_enc_wf l enc : authorization_list_enc l enc → Forall is_u8 enc → auth_list_wf l.
Proof.
  intros (Hl & items & Hi & Hc) Hu. destruct (list_enc_bounds _ _ Hl Hu) as (Hu' & _ & Hb).
  exists items. pose proof (items_enc_length auth_entry_enc items _ Hi).
  split_conj; [|by eapply auth_entries_wf|done|lia]. by apply (hom_iterates auth_entry_enc).
Qed.

(** *** RLP transactions *)

Record l2_wf (t : RlpEncodedTransaction) : Prop := {
  lw_nonce : is_u64 (rtx_nonce t);
  lw_gas_limit : is_u64 (rtx_gas_limit t);
  lw_max_fee : is_u256 (rtx_max_fee_per_gas t);
  lw_priority p : rtx_max_priority_fee_per_gas t = Some p → is_u256 p;
  lw_value : is_u256 (rtx_value t);
  lw_from : in_width 160 (from_ t);
  lw_to a : destination t = Some a → in_width 160 a;
  lw_calldata : Forall is_u8 (rtx_calldata t)
    ∧ Z.of_nat (length (rtx_calldata t)) ≤ Z.of_nat (length (buffer t));
  lw_sig parity r s : rtx_sig_parity_r_s t = (parity, r, s) →
    Forall is_u8 r ∧ (length r ≤ 32)%nat ∧ Forall is_u8 s ∧ (length s ≤ 32)%nat;
  lw_parity parity r s : rtx_sig_parity_r_s t = (parity, r, s) →
    match inner t with
    | Legacy _ sig => ls_v sig = 27 + Z.b2z parity
    | LegacyWithEIP155 _ sig => ls_v sig = 35 + 2 * chain_id_ t + Z.b2z parity
    | EIP2930 _ sig | EIP1559 _ sig | EIP7702 _ sig => es_y_parity sig = parity
    end;
  lw_access l : access_list t = Some l → access_list_wf l;
  lw_auths l : authorization_list t = Some l → auth_list_wf l
}.

Lemma address_bound s enc :
  address_enc s enc → Forall is_u8 enc → Forall is_u8 s ∧ in_width 160 (of_be_bytes s).
Proof.
  intros [Hl Hs] Hu. destruct (string_enc_bounds _ _ Hs Hu) as [Hsu _]. split; [done|].
  pose proof (of_be_bytes_bound s Hsu) as Hb. by rewrite Hl in Hb.
Qed.

Lemma to_bound s enc a :
  to_enc s enc → Forall is_u8 enc →
  (if bool_decide (length s = 0)%nat then None else b160_try_from_be_slice s) = Some a → in_width 160 a.
Proof.
  intros [Hl Hs] Hu. case_bool_decide; [done|]. destruct Hl as [|Hl]; [done|].
  destruct (address_bound s enc) as [Hsu Hb]; [done|done|].
  rewrite b160_try_from_be_slice_spec by done. by intros [= <-].
Qed.

(** The bytes of the fields are bytes of the input. *)
Lemma fields_bytes Qs p : fields Qs p → Forall is_u8 p →
  Forall (λ Q, ∃ e, Q e ∧ Forall is_u8 e ∧ (length e ≤ length p)%nat) Qs.
Proof.
  revert p. induction Qs as [|Q Qs IH]; intros p; [constructor|].
  intros (e & q & HQ & Hf & ->) Hu. apply Forall_app in Hu as [U1 U2]. rewrite length_app. constructor.
  - exists e. split_conj; [done|done|lia].
  - eapply Forall_impl; [exact (IH _ Hf U2)|]. intros Q' (e' & ? & ? & ?). exists e'. split_conj; [done|done|lia].
Qed.

Lemma sig_bounds r s sp (Q : list Z → Prop) :
  bad_scalar r || bad_scalar s = false → fields [Q; string_enc r; string_enc s] sp → Forall is_u8 sp →
  Forall is_u8 r ∧ (length r ≤ 32)%nat ∧ Forall is_u8 s ∧ (length s ≤ 32)%nat.
Proof.
  intros Hb Hf Hu. apply orb_false_iff in Hb as [B1 B2]. apply fields_bytes in Hf; [|done].
  rewrite !Forall_cons in Hf. destruct Hf as (_ & (e1 & E1 & U1 & _) & (e2 & E2 & U2 & _) & _).
  split_conj; try (by eapply string_enc_bounds); by apply bad_scalar_length.
Qed.

(** The fields of the parts of a parsed list, one by one. *)
Ltac open_fields H :=
  apply fields_bytes in H; [|done]; rewrite !Forall_cons in H; destruct_and?;
  repeat match goal with
    | H : ∃ _, _ |- _ => destruct H as (? & ? & ? & ?)
    | H : int_enc _ _ _ |- _ => destruct H as [? _]
    end.

Context {KK : Keccak}.

(** The payload and the signature of an accepted transaction. *)
Definition parts_of (tx : RlpEncodedTxInner) (p sp : list Z) : Prop :=
  match tx with
  | Legacy x s | LegacyWithEIP155 x s => legacy_fields x p ∧ legacy_sig_fields s sp
  | EIP2930 x s => eip2930_fields x p ∧ sig_fields s sp
  | EIP1559 x s => eip1559_fields x p ∧ sig_fields s sp
  | EIP7702 x s => eip7702_fields x p ∧ sig_fields s sp
  end.

Lemma accepted_parts chain input tx h :
  tx_accepts chain input (tx, h) → Forall is_u8 input →
  ∃ p sp, Forall is_u8 p ∧ Forall is_u8 sp ∧ (length p ≤ length input)%nat ∧ parts_of tx p sp.
Proof.
  intros Ha Hu. unfold tx_accepts, typed_accepts, legacy_accepts in Ha.
  destruct tx; destruct Ha as [_ Ha];
    [destruct Ha as (p & sp & Hl & ? & ? & _)|destruct Ha as (p & sp & Hl & ? & ? & _)|
     destruct Ha as (src & -> & p & sp & Hl & ? & ? & _)..];
    try (apply Forall_cons in Hu as [_ Hu]);
    destruct (list_enc_bounds _ _ Hl Hu) as (Hu' & Hle & _); apply Forall_app in Hu' as [U1 U2];
    exists p, sp; rewrite length_app in Hle; cbn [length]; (split_conj; [done|done|lia|done..]).
Qed.

Lemma accepted_hash chain input tx h : tx_accepts chain input (tx, h) → ∃ x, h = Keccak256 x.
Proof.
  unfold tx_accepts, typed_accepts, legacy_accepts, signing_hash.
  destruct tx; intros [Ht Ha]; try rewrite Ht in Ha; naive_solver.
Qed.

Lemma data_bounds d e p n :
  string_enc d e → Forall is_u8 e → (length e ≤ length (p : list Z))%nat → (length p ≤ n)%nat →
  Forall is_u8 d ∧ Z.of_nat (length d) ≤ Z.of_nat n.
Proof. intros H Hu ? ?. destruct (string_enc_bounds _ _ H Hu). split; [done|lia]. Qed.

(** The parity of a legacy signature is what its [v] stands for. *)
Lemma accepted_parity input t parity r s :
  is_u64 (chain_id_ t) → tx_accepts (chain_id_ t) input (inner t, sig_hash t) →
  rtx_sig_parity_r_s t = (parity, r, s) →
  match inner t with
  | Legacy _ sig => ls_v sig = 27 + Z.b2z parity
  | LegacyWithEIP155 _ sig => ls_v sig = 35 + 2 * chain_id_ t + Z.b2z parity
  | EIP2930 _ sig | EIP1559 _ sig | EIP7702 _ sig => es_y_parity sig = parity
  end.
Proof.
  intros Hc Ha Hp. unfold rtx_sig_parity_r_s in Hp. unfold in_width in Hc.
  destruct (inner t) as [x g|x g|x g|x g|x g]; cbn in Ha; [| |by injection Hp..]; injection Hp as <- _ _.
  - destruct Ha as [Hv _]. unfold is_eip155 in Hv. apply andb_false_iff in Hv.
    rewrite !negb_false_iff, !Z.eqb_eq in Hv.
    destruct Hv as [->| ->]; rewrite u_sub_spec by (unfold in_width; lia); done.
  - destruct Ha as [He (p & sp & _ & _ & _ & Ha)]. rewrite He in Ha. destruct Ha as [Hv _].
    destruct Hv as [->| ->]; rewrite u_mul_spec by (unfold in_width; lia);
      rewrite (Z.mod_small (chain_id_ t * 2)) by lia;
      rewrite (u_sub_spec _ 35), (Z.mod_small (_ - 35)) by (unfold in_width; lia);
      rewrite u_sub_spec, Z.mod_small by (unfold in_width; lia);
      case (Z.eqb_spec _ 1); cbn [Z.b2z]; lia.
Qed.

Lemma accepted_wf chain input t :
  tx_accepts chain input (inner t, sig_hash t) → buffer t = input → Forall is_u8 input →
  in_width 160 (from_ t) → is_u64 chain → chain_id_ t = chain → l2_wf t.
Proof.
  intros Ha Hb Hu Hfrom Hc <-. pose proof (accepted_parity input t) as Hpar.
  destruct (accepted_parts _ _ _ _ Ha Hu) as (p & sp & Hp & Hsp & Hlen & Hf).
  rewrite <- Hb in Hlen. specialize (λ parity r s, Hpar parity r s Hc Ha) as Hpar. clear Ha.
  unfold parts_of in Hf. split; try exact Hpar; clear Hpar; unfold rtx_nonce, rtx_gas_limit, rtx_max_fee_per_gas, rtx_max_priority_fee_per_gas, rtx_value,
    destination, rtx_calldata, rtx_sig_parity_r_s, access_list, authorization_list; try done;
    destruct (inner t) as [x s|x s|x s|x s|x s]; try done; destruct Hf as [Hf [Hsb Hs]];
    try (destruct Hf as [_ Hf]);
    first [open_fields Hf; done
          |intros pr [= <-]; open_fields Hf; done
          |intros a Ha; open_fields Hf; by eapply to_bound
          |intros a [= <-]; open_fields Hf; by eapply address_bound
          |open_fields Hf; by eapply data_bounds
          |intros parity r s' [= _ <- <-]; by eapply sig_bounds
          |intros l [= <-]; open_fields Hf; by eapply access_list_enc_wf
          |intros l [= <-]; open_fields Hf; by eapply auth_list_enc_wf].
Qed.

Lemma parsed_wf input chain from t u :
  is_u64 chain → Forall is_u8 input → Z.of_nat (length input) + 11 < 2 ^ 32 → in_width 160 from →
  parse_from_buffer input chain from tt = (Val t, u) →
  l2_wf t ∧ buffer t = input ∧ tx_hash t = None ∧ from_ t = from ∧ ∃ x, sig_hash t = Keccak256 x.
Proof.
  intros Hc Hu Hl Hf Hp. destruct (parse_from_buffer_spec input chain from Hc Hu Hl) as [H _].
  rewrite Hp in H. destruct H as [H1 H2]. assert (buffer t = input ∧ tx_hash t = None ∧ from_ t = from ∧ chain_id_ t = chain)
    as (B1 & B2 & B3 & B4) by (by rewrite H1).
  split_conj; try done; [|by eapply accepted_hash]. eapply accepted_wf; [exact H2|done|done|by rewrite B3|done|done].
Qed.

(** *** L1 transactions *)

Record l1_wf (tx : AbiEncodedTransaction) : Prop := {
  fw_type : pv_value (ab_tx_type tx) = UPGRADE_TX_TYPE ∨ pv_value (ab_tx_type tx) = L1_L2_TX_TYPE;
  fw_from : in_width 160 (pv_value (ab_from tx));
  fw_to : in_width 160 (pv_value (ab_to tx));
  fw_gas_limit : is_u64 (pv_value (ab_gas_limit tx));
  fw_gas_per_pubdata : is_u32 (pv_value (ab_gas_per_pubdata_limit tx));
  fw_max_fee : is_u256 (pv_value (ab_max_fee_per_gas tx));
  fw_value : is_u256 (pv_value (ab_value tx));
  fw_deposited : is_u256 (pv_value (ab_reserved_0 tx));
  fw_recipient : is_u256 (pv_value (ab_reserved_1 tx));
  fw_data : Forall is_u8 (abi_calldata tx)
    ∧ Z.of_nat (length (abi_calldata tx)) ≤ Z.of_nat (length (underlying_buffer tx))
}.

Lemma l1_data_length t : (length (l1_data t) ≤ length (l1_encoding t))%nat.
Proof. unfold l1_encoding, abi_bytes. cbn zeta. rewrite !length_app. lia. Qed.

Lemma parsed_l1_wf input tx u :
  Forall is_u8 input → Z.of_nat (length input) < 2 ^ 32 →
  abi_try_from_buffer input tt = (Val tx, u) → l1_wf tx ∧ underlying_buffer tx = input.
Proof.
  intros Hu Hl Hp. pose proof (abi_parse_spec input Hu Hl) as H. rewrite Hp in H.
  destruct H as (t & [] & -> & []). pose proof (l1_data_length t).
  split; [|done]. split; try congruence.
  - unfold l1_type in *. destruct (l1_is_upgrade t); auto.
  - rewrite am_data, am_buffer. split; [done|lia].
Qed.

(** C40: transactions have their types.  Every field of a transaction the parser
    accepts is a value of its type: numbers and addresses in their widths, signatures
    of at most 32 bytes with the parity that their [v] encodes, calldata of bytes within
    the buffer.  The access list and the authorization list are iterated to their end
    without a panic, over entries that have their types: addresses, nonces and
    signatures in their widths, and storage keys of 32 bytes.  Parsing does not look at
    the headers of the keys: a key without its header is an [InvalidStructure] when it
    is reached.  The sender is the one that was given, which is an address. *)
Theorem parsed_transactions_typed input chain from t u :
  is_u64 chain → Forall is_u8 input → Z.of_nat (length input) + 11 < 2 ^ 32 → in_width 160 from →
  parse_from_buffer input chain from tt = (Val t, u) →
  l2_wf t ∧ from_ t = from ∧ buffer t = input.
Proof. intros Hc Hu Hl Hf Hp. by destruct (parsed_wf input chain from t u Hc Hu Hl Hf Hp) as (? & ? & _ & ? & _). Qed.
End WellFormed.
