(* ===== verification/TxWp.v ===== *)
(** * The logic of transaction processing

    [wp T m s Q X] is the weakest precondition for the code of the transaction
    flow: run from [s], [m] does not panic, ends with a value in [Q] or an error in
    [X], which also see the final state, and the final state is related to [s] by
    [T].  [wpf F T m s Q X] is the same for code that may panic, but only if [F].
    The relations are [spends], for code that keeps the transaction's
    metadata and hands out no resources, and [moves], for the whole transaction. *)

From stdpp Require Import strings.
From S2P Require Import Prelude Resources U256 SystemInterface BootloaderErrors EvmConstants Gas EvmState.
From S2P Require Import EvmLogic BootSystem IoLogic TxFormats TxSystem Transaction TxWellFormed.

Definition wpf {S E A} (F : Prop) (T : S → S → Prop) (m : M S E A) (s : S) (Q : A → S → Prop) (X : E → S → Prop)
    : Prop :=
  T s (m s).2
  ∧ match (m s).1 with Val a => Q a (m s).2 | Err e => X e (m s).2 | Fault => F end.

Abbreviation wp := (wpf False).

Section Rules.
Context {S E : Type} {F : Prop} (T : S → S → Prop) {PO : PreOrder T}.

Lemma wp_ret {A} (a : A) s Q (X : E → S → Prop) : Q a s → wpf F T (mret a) s Q X.
Proof. intros H. by split. Qed.

Lemma wp_throw {A} e s (Q : A → S → Prop) (X : E → S → Prop) : X e s → wpf F T (throw e) s Q X.
Proof. intros H. by split. Qed.

Lemma wp_gets {A} (f : S → A) s Q (X : E → S → Prop) : Q (f s) s → wpf F T (gets f) s Q X.
Proof. intros H. by split. Qed.

Lemma wp_modify f s Q (X : E → S → Prop) : T s (f s) → Q tt (f s) → wpf F T (modify f) s Q X.
Proof. intros H1 H2. by split. Qed.

Lemma wp_bind {A B} (m : M S E A) (k : A → M S E B) s Q1 Q X :
  wpf F T m s Q1 X → (∀ a s1, T s s1 → Q1 a s1 → wpf F T (k a) s1 Q X) → wpf F T (m ≫= k) s Q X.
Proof.
  intros [H1 H2] Hk. unfold wpf, mbind, M_bind. destruct (m s) as [[a|e|] s1]; cbn in *; [|done|done].
  destruct (Hk a s1 H1 H2) as [H3 H4]. split; [by etransitivity|done].
Qed.

(** A step whose outcome is known. *)
Lemma wp_bind_run {A B} (m : M S E A) (k : A → M S E B) s a s1 Q X :
  m s = (Val a, s1) → T s s1 → wpf F T (k a) s1 Q X → wpf F T (m ≫= k) s Q X.
Proof.
  intros Hm HT [H1 H2]. unfold wpf, mbind, M_bind. rewrite Hm. split; [by etransitivity|done].
Qed.

Lemma wp_bind_pure {A B} (m : M S E A) (k : A → M S E B) s a Q X :
  m s = (Val a, s) → wpf F T (k a) s Q X → wpf F T (m ≫= k) s Q X.
Proof. intros Hm. by apply wp_bind_run. Qed.

Lemma wp_conseq {A} (m : M S E A) s (Q Q' : A → S → Prop) (X X' : E → S → Prop) :
  wpf F T m s Q X → (∀ a s1, T s s1 → Q a s1 → Q' a s1) → (∀ e s1, T s s1 → X e s1 → X' e s1) →
  wpf F T m s Q' X'.
Proof. intros [H1 H2] HQ HX. split; [done|]. destruct (m s) as [[a|e|] s1]; cbn in *; auto. Qed.

Lemma wp_when b (m : M S E unit) s (Q : unit → S → Prop) X :
  (b = true → wpf F T m s Q X) → (b = false → Q tt s) → wpf F T (when b m) s Q X.
Proof. intros H1 H2. destruct b; cbn; [auto|]. apply wp_ret. auto. Qed.

(** A check that throws. *)
Lemma wp_check b e s (Q : unit → S → Prop) (X : E → S → Prop) :
  (b = true → X e s) → (b = false → Q tt s) → wpf F T (when b (throw e)) s Q X.
Proof. intros H1 H2. apply wp_when; [|done]. intros Hb. apply wp_throw. auto. Qed.

Lemma wp_lift_opt {A} e (o : option A) s Q (X : E → S → Prop) :
  (o = None → X e s) → (∀ a, o = Some a → Q a s) → wpf F T (lift_opt e o) s Q X.
Proof. intros H1 H2. destruct o; [apply wp_ret|apply wp_throw]; auto. Qed.

Lemma wp_expect {A} (o : option A) a s Q (X : E → S → Prop) : o = Some a → Q a s → wpf F T (expect o) s Q X.
Proof. intros ->. apply wp_ret. Qed.

Lemma wp_expect_may {A} (o : option A) s Q (X : E → S → Prop) :
  (o = None → F) → (∀ a, o = Some a → Q a s) → wpf F T (expect o) s Q X.
Proof. intros H1 H2. destruct o; [apply wp_ret; auto|]. split; [done|]. by apply H1. Qed.

Lemma wp_assert b s (Q : unit → S → Prop) (X : E → S → Prop) :
  b = true → Q tt s → wpf F T (assert_that b) s Q X.
Proof. intros ->. apply wp_ret. Qed.

Lemma wp_attempt {E2 A} (m : M S E A) s Q (Y : E2 → S → Prop) :
  wpf F T m s (λ a, Q (inr a)) (λ e, Q (inl e)) → wpf F T (attempt m) s Q Y.
Proof.
  intros [H1 H2]. unfold wpf, attempt. by destruct (m s) as [[a|e|] s1].
Qed.

Lemma wp_map_err {E2 A} (f : E → E2) (m : M S E A) s Q (X : E2 → S → Prop) :
  wpf F T m s Q (λ e, X (f e)) → wpf F T (map_err f m) s Q X.
Proof.
  intros [H1 H2]. unfold wpf, map_err. by destruct (m s) as [[a|e|] s1].
Qed.
End Rules.

Lemma wp_weaken {S E A} {F : Prop} (T T' : S → S → Prop) (m : M S E A) s Q X :
  (∀ s s', T s s' → T' s s') → wpf F T m s Q X → wpf F T' m s Q X.
Proof. intros HT [H1 H2]. split; auto. Qed.

Lemma wp_zoom {S R E A} {F : Prop} (T : R → R → Prop) (T' : S → S → Prop) get put (m : M R E A) s Q X :
  (T (get s) (m (get s)).2 → T' s (put (m (get s)).2 s)) →
  wpf F T m (get s) (λ a r, Q a (put r s)) (λ e r, X e (put r s)) → wpf F T' (zoom get put m) s Q X.
Proof.
  intros HT [H1 H2]. unfold wpf, zoom. destruct (m (get s)) as [[a|e|] r]; cbn in *; auto.
Qed.

Lemma wp_each {S E A} {F : Prop} (T : S → S → Prop) `{!PreOrder T} (P : S → Prop) (body : A → M S E unit) l s X :
  P s → (∀ a s, a ∈ l → P s → wpf F T (body a) s (λ _, P) X) → wpf F T (each body l) s (λ _, P) X.
Proof.
  intros Hs Hb. revert s Hs. induction l as [|a l IH]; intros s Hs; [by apply wp_ret|].
  cbn [each]. eapply wp_bind; [done|apply Hb; [by left|done]|]. intros [] s1 _ Hs1.
  apply IH; [|done]. intros a' s' Ha'. apply Hb. by right.
Qed.

Lemma wp_iterates {S E I A} {F : Prop} (T : S → S → Prop) next fuel (it : I) items (body : A → M S E unit) s Q X :
  iterates next fuel it items → wpf F T (each body items) s Q X → wpf F T (for_loop next body fuel it) s Q X.
Proof. intros Hi. unfold wpf. by rewrite (Hi S E body s). Qed.

(** A run, from its specification. *)
Lemma wp_run {S E A} {F : Prop} T (m : M S E A) s Q X :
  wpf F T m s Q X → ∀ o s', m s = (o, s') →
  T s s' ∧ match o with Val a => Q a s' | Err e => X e s' | Fault => F end.
Proof. intros [H1 H2] o s' Hm. by rewrite Hm in H1, H2. Qed.

(** Code that does not panic, where a panic is allowed. *)
Lemma wp_may {S E A} {F : Prop} T (m : M S E A) s Q X : wp T m s Q X → wpf F T m s Q X.
Proof. intros [H1 H2]. split; [done|]. by destruct (m s).1. Qed.

Lemma wp_may_more {S E A} {F F' : Prop} T (m : M S E A) s Q X :
  (F → F') → wpf F T m s Q X → wpf F' T m s Q X.
Proof. intros HF [H1 H2]. split; [done|]. destruct (m s).1; auto. Qed.

(** What ran is known afterwards. *)
Lemma wp_ran {S E A} {F : Prop} T (m : M S E A) s Q X :
  wpf F T m s Q X →
  wpf F T m s (λ a s', Q a s' ∧ m s = (Val a, s')) (λ e s', X e s' ∧ m s = (Err e, s')).
Proof. intros [H1 H2]. split; [done|]. by destruct (m s) as [[a|e|] s1]. Qed.

Section Relations.
Context {SYS : System} {LAWS : SystemLaws}.

Definition spends (s s' : SysState * Res) : Prop :=
  later s.1 s'.1 ∧ res_le_both s'.2 s.2 ∧ (res_wf s.2 → res_wf s'.2).

Definition moves (s s' : SysState * Res) : Prop :=
  later_tx s.1 s'.1 ∧ e_left s'.2 ≤ e_left s.2 ∧ (res_wf s.2 → res_wf s'.2).

#[global] Instance spends_preorder : PreOrder spends.
Proof.
  split; [by intros s|]. intros s1 s2 s3 (A1 & A2 & A3) (B1 & B2 & B3).
  split; [by etransitivity|]. split; [by etransitivity|auto].
Qed.

#[global] Instance moves_preorder : PreOrder moves.
Proof.
  split; [by intros s|]. intros s1 s2 s3 (A1 & A2 & A3) (B1 & B2 & B3).
  split; [by etransitivity|]. split; [lia|auto].
Qed.

Lemma spends_moves s s' : spends s s' → moves s s'.
Proof. intros (H1 & [H2 _] & H3). split; [by apply later_later_tx|done]. Qed.

(** From the judgement for system operations. *)
Lemma wp_io {E A} w (Q : A → Prop) (X : E → Prop) (m : M (SysState * Res) E A) s :
  io w Q X m → res_wf s.2 →
  wp spends m s (λ a s', Q a ∧ (w = true → world s'.1 = world s.1))
    (λ e s', X e ∧ (w = true → world s'.1 = world s.1)).
Proof.
  intros Hm Hs. destruct (Hm s Hs) as (H1 & H2 & H3 & H4 & H5).
  split; [by split|]. by destruct (m s) as [[a|e|] s1].
Qed.

Definition rich (r : Res) : Res := mkResources (mkErgs (umax 64)) (native r).

Lemma rich_wf r : res_wf r → res_wf (rich r).
Proof. intros [_ Hn]. split; [|done]. by unfold in_width, e_left, umax. Qed.

(** What a computation does to the system does not depend on having paid in ergs. *)
Lemma wp_infinite {E A} (m : M (SysState * Res) E A) s Q X :
  res_wf s.2 → wp spends m (s.1, rich s.2) (λ a s', Q a s'.1) (λ e s', X e s'.1) →
  wp spends (infinite_ergs m) s (λ a s', Q a s'.1) (λ e s', X e s'.1).
Proof.
  intros Hs [H1 H2]. unfold wpf, infinite_ergs, with_infinite_ergs. fold (rich s.2).
  destruct (m (s.1, rich s.2)) as [o s1]. cbn [fst snd] in *.
  destruct H1 as (K1 & [K2 K3] & K4). split; [|done].
  split; [done|]. split; [by split|]. intros _. split; [apply Hs|]. by destruct (K4 (rich_wf _ Hs)).
Qed.

(** Code that only works on the resources. *)
Lemma wp_on_res {E A} (m : M Res E A) s Q X :
  res_wf s.2 → res_le_both (m s.2).2 s.2 → res_wf (m s.2).2 →
  match (m s.2).1 with
  | Val a => Q a (s.1, (m s.2).2)
  | Err e => X e (s.1, (m s.2).2)
  | Fault => False
  end →
  wp spends (on_res m) s Q X.
Proof.
  intros Hs Hle Hwf H. unfold wpf, on_res, zoom. destruct (m s.2) as [[a|e|] r]; cbn in *; [..|done];
    (split; [|done]); by split.
Qed.

Lemma wp_charge c s (Q : unit → SysState * Res → Prop) X :
  res_wf s.2 → res_wf c →
  (∀ r, res_wf r → res_le_both r s.2 → Q tt (s.1, r)) → (∀ e r, X e (s.1, r)) →
  wp spends (on_res (charge c)) s Q X.
Proof.
  intros Hs Hc HQ HX. destruct (charge_le s.2 c Hs Hc) as [Hw Hle].
  pose proof (charge_no_fault s.2 c Hs Hc) as Hf.
  apply wp_on_res; [done..|]. destruct (charge c s.2) as [[[]|e|] r]; cbn in *; auto.
Qed.

(** Code that only works on the system. *)
Lemma wp_on_sys {E A} (m : M SysState E A) s Q X :
  wp later m s.1 (λ a sys, Q a (sys, s.2)) (λ e sys, X e (sys, s.2)) → wp spends (on_sys m) s Q X.
Proof.
  intros H. unfold on_sys. eapply wp_zoom; [|exact H]. intros H'. by split; [|split].
Qed.
End Relations.

(** A step through [≫=]: the rule for the first computation comes next. *)
Ltac wp_step := eapply wp_bind; [try typeclasses eauto..| |].
(** The ends. *)
Ltac wp_return := apply wp_ret; [typeclasses eauto|].
Ltac wp_fail := apply wp_throw; [typeclasses eauto|].
(** A step that only computes. *)
Ltac wp_pure := eapply wp_bind_pure; [try typeclasses eauto..|reflexivity|]; cbv beta iota.
