(* ===== verification/TxFlow.v ===== *)
(** * The flow of a transaction of an externally owned account

    Models [basic_bootloader/src/bootloader/run_single_interaction.rs] and
    [transaction_flow/{mod,zk/mod}.rs]: minting, a single call into the call loop, and
    [ZkTransactionFlowOnlyEOA], with validation, payment, execution and deployment. *)

From stdpp Require Import strings.
From S2P Require Import Prelude Resources U256 SystemInterface BootloaderErrors RlpParser TxFormats AbiTx.
From S2P Require Import EvmConstants EvmState EvmInstructions BootSystem Hooks Runner TxSystem.
From S2P Require Import GasHelpers Transaction.

(** ** Results *)

Inductive DeployedAddress : Type :=
| CallNoAddress
| RevertedNoAddress
| Address (a : Z).

Record TxExecutionResult : Type := mkTxExecution {
  txe_return_values : ReturnValues;
  txe_resources_returned : Res;
  reverted : bool;
  deployed_address : DeployedAddress
}.

Inductive ExecutionOutput : Type :=
| Call (returndata : list Z)
| Create (returndata : list Z) (address : Z).

Inductive ExecutionResult : Type :=
| Success (output : ExecutionOutput)
| RevertResult (output : list Z).

(** [ExecutionResult::reverted]. *)
Definition to_reverted (self : ExecutionResult) : ExecutionResult :=
  match self with
  | Success (Call r) | Success (Create r _) => RevertResult r
  | a => a
  end.

Definition is_success (r : ExecutionResult) : bool :=
  match r with Success _ => true | RevertResult _ => false end.

Record TxProcessingResult : Type := mkTxProcessing {
  tp_result : ExecutionResult;
  tp_tx_hash : list Z;
  is_l1_tx : bool;
  is_upgrade_tx : bool;
  tp_gas_used : Z;
  gas_refunded : Z;
  computational_native_used : Z;
  tp_native_used : Z;
  pubdata_used : Z
}.

(** [basic_system/src/cost_constants.rs]. *)
Definition ECRECOVER_COST_ERGS : Z := 3000 * ERGS_PER_GAS.
Definition ECRECOVER_NATIVE_COST : Z := 350000 + 43000 * 4.

Section Flow.
Context {R : Ruint} {UZ : Usize} {FT : Features} {SYS : System} {EXT : SystemExt} {TX : TxSystem}
  {CFG : ExecutionConfig}.
#[local] Existing Instance system_keccak.

Abbreviation TxM := (M (SysState * Res) TxError).
(** Execution works on the same state, with errors of the bootloader. *)
Abbreviation XM := (M (SysState * Res) BootloaderSubsystemError).
Abbreviation PM := (M SysState BootloaderSubsystemError).

(** ** A single interaction *)

Definition mint_token (nominal_token_value to : Z) (fee_payment_in_simulation : bool) : XM unit :=
  map_err (λ e, match e with
                | SLeafUsage _ => SLeafUsage MintingBalanceOverflow
                | e => SCascaded (WrappedBalance e)
                end)
    (update_account_nominal_token_balance EVM to nominal_token_value false
       fee_payment_in_simulation) ;;
  mret tt.

Definition start_execution_frame : PM Snapshot :=
  map_err (λ _, SLeafDefect (internal_error "must start a frame before execution")) start_io_frame.

Definition initial_request (resources : Res) (caller callee : Z) (modifier : CallModifier)
    (calldata : list Z) (nominal_token_value : Z) : ExternalCallRequest := {|
  available_resources := resources;
  ergs_to_pass := ergs resources;
  callers_caller := 0;
  ecr_caller := caller;
  callee := callee;
  modifier := modifier;
  input := calldata;
  call_scratch_space := None;
  nominal_token_value := nominal_token_value
|}.

Definition run_single_interaction (memories : RunnerMemoryBuffers) (hooks : HooksStorage)
    (calldata : list Z) (caller callee : Z) (resources : Res) (nominal_token_value : Z)
    (should_make_frame : bool) : PM CompletedExecution :=
  '(r, resources) ← local_io resources
    (infinite_ergs (read_account_properties NoEE caller [WithEeVersion]));
  match r with
  | inl (LeafRuntime OutOfErgs) => fault
  | inl e => throw (subsystem_of_system e)
  | inr account =>
      rollback_handle ←
        (if should_make_frame then h ← start_execution_frame; mret (Some h) else mret None);
      ee_type ← map_err SLeafDefect (λ sys, (parse_ee_version_byte (ad_ee_version account), sys));
      completed ← run_till_completion memories hooks ee_type
        (initial_request resources caller callee NoModifier calldata nominal_token_value);
      match rollback_handle with
      | Some handle =>
          finish_execution_frame (if failed (ce_result completed) then Some handle else None)
      | None => mret tt
      end ;;
      mret completed
  end.

(** ** Validation *)

Definition out_of_native_validation : TxError :=
  oon_as_validation (subsystem_of_system out_of_native_resources).

Definition check_balance (transaction : Transaction) (caller_ee_type : ExecutionEnvironmentType)
    (total_required_balance : Z) : TxM unit :=
  r ← attempt (get_balance caller_ee_type (tx_from transaction));
  match r with
  | inr balance =>
      when (balance <? total_required_balance)
        (throw (Validation (LackOfFundForMaxFee total_required_balance balance)))
  | inl (LeafRuntime OutOfErgs) => throw (Validation OutOfGasDuringValidation)
  | inl (LeafRuntime (FatalRuntime _)) => throw (Validation OutOfNativeResourcesDuringValidation)
  | inl (LeafDefect e) => throw (Internal (SLeafDefect e))
  end.

Definition check_signature (transaction : Transaction) (suggested_signed_hash : list Z) : TxM unit :=
  if negb VALIDATE_EOA_SIGNATURE || SIMULATION then
    sys_io (on_res (charge (from_ergs_and_native (mkErgs ECRECOVER_COST_ERGS)
                              (from_computational ECRECOVER_NATIVE_COST))))
  else
    '(parity, r, s) ← tx_sig_parity_r_s transaction;
    s_value ← expect (u_try_from_be_slice s);
    if SECP256K1N_HALF <? s_value then throw (Validation MalleableSignature)
    else
      input ← expect (ecrecover_input suggested_signed_hash (Z.b2z parity) r s);
      output ← sys_io (on_res (map_err system_of_subsystem (secp256k1_ec_recover input)));
      if bool_decide (output = []) then throw (Validation (IncorrectFrom (tx_from transaction) 0))
      else
        recovered_from ← recovered_address output;
        when (negb (recovered_from =? tx_from transaction))
          (throw (Validation (IncorrectFrom (tx_from transaction) recovered_from))).

Definition bump_caller_nonce (transaction : Transaction) (caller_ee_type : ExecutionEnvironmentType)
    : TxM Z :=
  map_err (λ e, match e with
                | SLeafUsage NonceOverflowError => Validation NonceOverflowInTransaction
                | SLeafRuntime (FatalRuntime _) => out_of_native_validation
                | SLeafRuntime OutOfErgs => Validation OutOfGasDuringValidation
                | e => Internal (SCascaded (WrappedNonce e))
                end)
    (bump_nonce caller_ee_type (tx_from transaction) 1).

Definition validate (suggested_signed_hash : list Z) (transaction : Transaction)
    (caller_ee_type : ExecutionEnvironmentType) (caller_is_code : bool) (caller_nonce : Z)
    : TxM unit :=
  when (negb SIMULATION && caller_is_code) (throw (Validation RejectCallerWithCode)) ;;
  total_required_balance ← lift_opt (Validation OverflowPaymentInTransaction)
    (tx_required_balance transaction);
  check_balance transaction caller_ee_type total_required_balance ;;
  check_signature transaction suggested_signed_hash ;;
  old_nonce ← bump_caller_nonce transaction caller_ee_type;
  when (negb SIMULATION) (assert_that (caller_nonce =? old_nonce)).

Definition check_nonce_is_not_used (account_data_nonce tx_nonce : Z) : TxM unit :=
  if account_data_nonce <? tx_nonce then throw (Validation (NonceTooHigh tx_nonce account_data_nonce))
  else if tx_nonce <? account_data_nonce then
    throw (Validation (NonceTooLow tx_nonce account_data_nonce))
  else mret tt.

Definition check_nonce_is_used_after_validation : TxM unit := mret tt.

(** ** Payment *)

(** The error of an update of the caller's balance; on a balance error the balance is
    read again. *)
Definition payment_error (caller_ee_type : ExecutionEnvironmentType) (from amount : Z)
    (e : BalanceSubsystemError) : TxM unit :=
  match e with
  | SLeafUsage _ =>
      balance ← sys_io (get_balance caller_ee_type from);
      throw (Validation (LackOfFundForMaxFee amount balance))
  | SLeafDefect e => throw (tx_error_of_internal e)
  | SLeafRuntime (FatalRuntime _) => throw out_of_native_validation
  | SLeafRuntime OutOfErgs => throw (Validation OutOfGasDuringValidation)
  | SCascaded e => match e with end
  end.

Definition pay_for_transaction (transaction : Transaction) (gas_price from : Z)
    (caller_ee_type : ExecutionEnvironmentType) : TxM unit :=
  amount ← lift_opt (tx_error_of_internal (internal_error "gp*gl"))
    (u_checked_mul gas_price (tx_gas_limit transaction));
  r ← attempt (update_account_nominal_token_balance caller_ee_type from amount true SIMULATION);
  match r with
  | inr _ => mret tt
  | inl e => payment_error caller_ee_type from amount e
  end.

(** ** Intrinsic gas *)

Definition charge_intrinsic_ergs (gas_cost : Z) : TxM unit :=
  map_err (λ e, match e with
                | LeafRuntime OutOfErgs => Validation OutOfGasDuringValidation
                | LeafRuntime (FatalRuntime _) => oon_as_validation (subsystem_of_system e)
                | LeafDefect e => Internal (SLeafDefect e)
                end)
    (on_res (charge (from_ergs (mkErgs (saturating_mul 64 gas_cost ERGS_PER_GAS))))).

Definition initcode_gas_cost (calldata_len : Z) : Z :=
  wrap 64 (wrap 64 (GAS_INITCODE_WORD_COST * (next_multiple_of calldata_len 32 / 32))
           + DEPLOYMENT_TX_EXTRA_INTRINSIC_GAS).

Definition charge_additional_intrinsic_gas (transaction : Transaction) : TxM unit :=
  match is_deployment transaction with
  | Some _ =>
      let calldata_len := Z.of_nat (length (tx_calldata transaction)) in
      if MAX_INITCODE_SIZE <? calldata_len then throw (Validation CreateInitCodeSizeLimit)
      else charge_intrinsic_ergs (initcode_gas_cost calldata_len)
  | None => mret tt
  end ;;
  when eip_7702
    (authorization_list_length ←
       match tx_authorization_list transaction with
       | Some al => expect (HomList_len al)
       | None => mret 0
       end;
     charge_intrinsic_ergs (saturating_mul 64 authorization_list_length GAS_NEWACCOUNT)).

(** ** Execution *)

(** A call into the bootloader's own system, with resources of its own. *)
Definition on_boot {A} (m : PM A) : XM A := on_sys m.

Definition deployment_outcome (to_ee_type : ExecutionEnvironmentType) (address : Z)
    (completed : CompletedExecution) : PM (bool * ReturnValues * Res) :=
  match ce_result completed with
  | Successful rv =>
      '(r, remaining) ← local_io (resources_returned completed)
        (infinite_ergs (get_observable_bytecode address));
      match r with
      | inr deployed_bytecode =>
          mret (true, mkReturnValues deployed_bytecode (return_scratch_space rv), remaining)
      | inl e => throw (subsystem_of_system e)
      end
  | Failed rv => mret (false, rv, resources_returned completed)
  | PreparationStepFailed =>
      throw (SLeafDefect (internal_error "Preparation step failed in root call"))
  end.

Definition process_deployment (memories : RunnerMemoryBuffers) (hooks : HooksStorage)
    (resources : Res) (to_ee_type : ExecutionEnvironmentType) (main_calldata : list Z)
    (from nominal_token_value existing_nonce : Z) : PM TxExecutionResult :=
  if MAX_INITCODE_SIZE <? Z.of_nat (length main_calldata) then
    mret (mkTxExecution ReturnValues_empty resources true RevertedNoAddress)
  else
    address ← match to_ee_type with
              | NoEE => throw (SLeafDefect (internal_error "Deployment cannot target NoEE"))
              | EVM => derive_address_for_deployment_create from existing_nonce
              end;
    rollback_handle ← start_global_frame;
    completed ← run_till_completion memories hooks to_ee_type
      (initial_request resources from address Constructor main_calldata nominal_token_value);
    '(success, rv, remaining) ← deployment_outcome to_ee_type address completed;
    finish_global_frame (if negb success then Some rollback_handle else None) ;;
    mret (mkTxExecution rv remaining (negb success)
            (if (success : bool) then Address address else RevertedNoAddress)).

Definition process_call (memories : RunnerMemoryBuffers) (hooks : HooksStorage)
    (transaction : Transaction) (resources : Res) : PM TxExecutionResult :=
  completed ← run_single_interaction memories hooks (tx_calldata transaction)
    (tx_from transaction) (default 0 (tx_to transaction)) resources (tx_value transaction) true;
  mret (mkTxExecution (return_values (ce_result completed)) (resources_returned completed)
          (failed (ce_result completed)) CallNoAddress).

Definition execution_result (x : TxExecutionResult) : ExecutionResult :=
  let returndata := rv_returndata (txe_return_values x) in
  if reverted x then RevertResult returndata
  else
    match deployed_address x with
    | Address at_ => Success (Create returndata at_)
    | _ => Success (Call returndata)
    end.

Definition execute (memories : RunnerMemoryBuffers) (hooks : HooksStorage)
    (transaction : Transaction) (current_tx_nonce : Z) : XM ExecutionResult :=
  resources ← gets snd;
  x ← on_boot
    match is_deployment transaction with
    | Some to_ee_type =>
        process_deployment memories hooks resources to_ee_type (tx_calldata transaction)
          (tx_from transaction) (tx_value transaction) current_tx_nonce
    | None => process_call memories hooks transaction resources
    end;
  modify (λ s, (s.1, txe_resources_returned x)) ;;
  mret (execution_result x).
End Flow.
