(* ===== verification/FlowTheorems.v ===== *)
(** * What the steps of a transaction do

    Specifications in the logic of TxWp.v: first of the operations of the system,
    from its laws, then of the parts of TxFlow.v and Transaction.v. *)

From stdpp Require Import strings.
From S2P Require Import Prelude Resources U256 Rlp SystemInterface BootloaderErrors RlpParser RlpLogic TxFormats TxRoundtrip EvmConstants Gas EvmState EvmLogic EvmSafety BootSystem IoLogic Hooks Runner RlpHash TxSystem GasHelpers Transaction TxWellFormed TxWp TxFlow.

Section Operations.
Context {R : Ruint} {RS : RuintSpec} {UZ : Usize} {FT : Features} {SYS : System}
  {LAWS : SystemLaws} {EXT : SystemExt} {XLAWS : SystemExtLaws} {TX : TxSystem} {TLAWS : TxSystemLaws}
  {CFG : ExecutionConfig}.
#[local] Existing Instance system_keccak.

(** ** Operations of the system *)

Lemma wp_io_run {E A} (Q : A → Prop) (m : M (SysState * Res) E A) s :
  io_ok Q m → res_wf s.2 →
  wp spends m s (λ a s', m s = (Val a, s') ∧ Q a) (λ e s', m s = (Err e, s')).
Proof.
  intros Hm Hs. destruct (Hm s Hs) as (H1 & H2 & H3 & H4 & H5).
  split; [by split; [|split]|]. by destruct (m s) as [[a|e|] s1].
Qed.

Lemma wp_get_balance ee a s :
  res_wf s.2 →
  wp spends (get_balance ee a) s
    (λ b s', b = balance (world s.1) a ∧ world s'.1 = world s.1) (λ _ s', world s'.1 = world s.1).
Proof.
  intros Hs. eapply wp_conseq; [apply wp_io_run; [apply tl_balance|done]|..]; cbv beta;
    pose proof (tl_balance_world ee a s) as Hw.
  - intros b s1 _ [H _]. rewrite H in Hw. split; [|done].
    apply (tl_balance_value ee a s). by rewrite H.
  - intros e s1 _ H. by rewrite H in Hw.
Qed.

Lemma wp_update ee a d sub sim s :
  res_wf s.2 → is_u256 d →
  wp spends (update_account_nominal_token_balance ee a d sub sim) s
    (λ old s', changed_balance a d sub sim (world s.1) (Val old) (world s'.1))
    (λ e s', changed_balance a d sub sim (world s.1) (Err e) (world s'.1)).
Proof.
  intros Hs Hd. eapply wp_conseq; [apply wp_io_run; [apply xl_update_balance|done]|..]; cbv beta;
    pose proof (tl_update_effect ee a d sub sim s Hs Hd) as He.
  - intros b s1 _ [H _]. by rewrite H in He.
  - intros e s1 _ H. by rewrite H in He.
Qed.

Lemma wp_bump_nonce ee a n s :
  res_wf s.2 → is_u64 n →
  wp spends (bump_nonce ee a n) s
    (λ old s', changed_nonce a n (world s.1) (Val old) (world s'.1))
    (λ e s', changed_nonce a n (world s.1) (Err e) (world s'.1)).
Proof.
  intros Hs Hn. eapply wp_conseq; [apply wp_io_run; [apply tl_bump|done]|..]; cbv beta;
    pose proof (tl_bump_effect ee a n s Hs Hn) as He.
  - intros b s1 _ [H _]. by rewrite H in He.
  - intros e s1 _ H. by rewrite H in He.
Qed.

(** What reading an account says of the world. *)
Definition account_of (w : World) (a : Z) (fields : list AccountField) (x : AccountData) : Prop :=
  account_ok x
  ∧ (WithNonce ∈ fields → ad_nonce x = nonce w a)
  ∧ (WithNominalTokenBalance ∈ fields → ad_nominal_token_balance x = balance w a)
  ∧ (WithIsDelegated ∈ fields → WithUnpaddedCodeLen ∈ fields → is_contract x = has_code w a).

Lemma wp_read_account ee a fields s :
  res_wf s.2 →
  wp spends (read_account_properties ee a fields) s
    (λ x s', account_of (world s.1) a fields x ∧ world s'.1 = world s.1)
    (λ _ s', world s'.1 = world s.1).
Proof.
  intros Hs. eapply wp_conseq; [apply wp_io_run; [apply xl_read|done]|..]; cbv beta;
    pose proof (xl_read_world ee a fields s) as Hw.
  - intros x s1 _ [H Hx]. pose proof (tl_read_values ee a fields s x) as Hv. rewrite H in Hw, Hv.
    split; [|done]. split; [done|]. by apply Hv.
  - intros e s1 _ H. by rewrite H in Hw.
Qed.

Lemma wp_read_infinite ee a fields s :
  res_wf s.2 →
  wp spends (infinite_ergs (read_account_properties ee a fields)) s
    (λ x s', account_of (world s.1) a fields x ∧ world s'.1 = world s.1)
    (λ _ s', world s'.1 = world s.1).
Proof.
  intros Hs. apply (wp_infinite _ _ (λ x sys, account_of (world s.1) a fields x ∧ world sys = world s.1)
    (λ _ sys, world sys = world s.1)); [done|].
  apply (wp_read_account _ _ _ (s.1, rich s.2)). by apply rich_wf.
Qed.

(** An operation that does not touch the world. *)
Lemma wp_read_only {A E} (Q : A → Prop) (m : M (SysState * Res) E A) s :
  io_ok Q m → (∀ s, world (m s).2.1 = world s.1) → res_wf s.2 →
  wp spends m s (λ a s', Q a ∧ world s'.1 = world s.1) (λ _ s', world s'.1 = world s.1).
Proof.
  intros Hm Hw Hs. specialize (Hw s). eapply wp_conseq; [apply wp_io_run; [exact Hm|done]|..]; cbv beta.
  - intros a s1 _ [H HQ]. by rewrite H in Hw.
  - intros e s1 _ H. by rewrite H in Hw.
Qed.

Lemma wp_sys_io {A} (m : M (SysState * Res) SystemError A) s Q (X : TxError → SysState * Res → Prop) :
  wp spends m s Q (λ e, X (tx_error_of_system e)) → wp spends (sys_io m) s Q X.
Proof. apply wp_map_err. Qed.

(** Errors of running out of resources, and internal ones. *)
Definition resource_error (e : TxError) : Prop :=
  match e with
  | Validation OutOfGasDuringValidation | Validation OutOfNativeResourcesDuringValidation => True
  | Validation _ => False
  | Internal _ => True
  end.

Lemma system_resource_error e : resource_error (tx_error_of_system e).
Proof. unfold tx_error_of_system. by repeat case_match. Qed.

Lemma keccak_cost_wf len : res_wf (from_native (keccak256_native_cost len)).
Proof. split; [by unfold in_width|]. apply wrap_in_width. lia. Qed.

Lemma wp_charge_keccak len s :
  res_wf s.2 →
  wp spends (on_res (charge_keccak len)) s (λ _ s', s'.1 = s.1) (λ e _, resource_error e).
Proof.
  intros Hs. pose proof (keccak_cost_wf len) as Hc. destruct (charge_le s.2 _ Hs Hc) as [Hw Hle].
  pose proof (charge_no_fault s.2 _ Hs Hc) as Hf. unfold charge_keccak.
  assert (∀ f : SystemError → TxError, (map_err f (charge (from_native (keccak256_native_cost len))) s.2).2
          = (charge (from_native (keccak256_native_cost len)) s.2).2) as He.
  { intros f. unfold map_err. by destruct (charge _ s.2) as [[]]. }
  apply wp_on_res; rewrite ?He; try done. unfold map_err.
  destruct (charge _ s.2) as [[[]|e|] r]; [done| |done]. unfold oon_as_validation. cbn [fst snd].
  destruct (bootloader_root_cause _) as [[]| |]; try exact I. repeat case_match; exact I.
Qed.

Lemma wp_add_refund n s :
  wp spends (on_sys (map_err tx_error_of_system (add_evm_refund n))) s
    (λ _ s', same_accounts (world s.1) (world s'.1)) (λ e _, resource_error e).
Proof.
  apply wp_on_sys, wp_map_err. destruct (tl_add_refund n s.1) as [H1 H2].
  pose proof (tl_add_refund_accounts n s.1) as H3. split; [done|].
  destruct (add_evm_refund n s.1) as [[a|e|] s1]; [done| |done]. apply system_resource_error.
Qed.

(** ** Signatures *)

(** [a] is the address recovered from [input]; [None] if there is none. *)
Definition recovers (input : list Z) (a : option Z) : Prop :=
  ∃ r out, (secp256k1_ec_recover input r).1 = Val out
    ∧ a = if bool_decide (out = []) then None else Some (of_be_bytes (drop 12 out)).

Lemma wp_recover input s (X : TxError → SysState * Res → Prop) :
  res_wf s.2 → (∀ e s', s'.1 = s.1 → X (tx_error_of_system e) s') →
  wp spends (sys_io (on_res (map_err system_of_subsystem (secp256k1_ec_recover input)))) s
    (λ out s', s'.1 = s.1 ∧ (out = [] ∨ is_bytes32 out) ∧
       recovers input (if bool_decide (out = []) then None else Some (of_be_bytes (drop 12 out)))) X.
Proof.
  intros Hs HX. apply wp_sys_io. destruct (tl_recover input s.2 Hs) as (H1 & H2 & H3 & H4).
  assert ((map_err system_of_subsystem (secp256k1_ec_recover input) s.2).2
          = (secp256k1_ec_recover input s.2).2) as He.
  { unfold map_err. by destruct (secp256k1_ec_recover input s.2) as [[]]. }
  apply wp_on_res; rewrite ?He; try done. unfold map_err in *.
  destruct (secp256k1_ec_recover input s.2) as [[out|e|] r] eqn:E; cbn in *; [|by apply HX|done].
  split; [done|]. split; [done|]. exists s.2, out. by rewrite E.
Qed.

Lemma left_pad_ok l : (length l ≤ 32)%nat → left_pad_32 l = Some (repeat 0 (32 - length l) ++ l).
Proof. intros H. unfold left_pad_32. by rewrite bool_decide_true. Qed.

(** The message of [ecrecover]: hash, [v], [r] and [s], as words. *)
Definition recover_message (hash : list Z) (parity : Z) (r s : list Z) : list Z :=
  hash ++ be_bytes 32 (27 + parity) ++ be_bytes 32 (of_be_bytes r) ++ be_bytes 32 (of_be_bytes s).

Lemma be_bytes_pad l :
  Forall is_u8 l → (length l ≤ 32)%nat → repeat 0 (32 - length l) ++ l = be_bytes 32 (of_be_bytes l).
Proof.
  intros Hu Hl. rewrite <- (of_be_bytes_pad (32 - length l) l).
  assert (length (repeat 0 (32 - length l) ++ l) = 32%nat) as Hlen by (rewrite length_app, repeat_length; lia).
  set (padded := repeat 0 (32 - length l) ++ l) in *. rewrite <- Hlen. symmetry. apply be_bytes_of_be_bytes.
  apply Forall_app. split; [|done]. apply Forall_forall. intros x Hx%list_elem_of_In%repeat_spec. by subst.
Qed.

Lemma ecrecover_input_ok hash parity r s :
  parity = 0 ∨ parity = 1 → Forall is_u8 r → (length r ≤ 32)%nat → Forall is_u8 s → (length s ≤ 32)%nat →
  ecrecover_input hash parity r s = Some (recover_message hash parity r s).
Proof.
  intros Hp Hr Hr' Hs Hs'. unfold ecrecover_input. rewrite !left_pad_ok by done. cbn.
  unfold recover_message. rewrite <- (be_bytes_pad r), <- (be_bytes_pad s) by done.
  destruct Hp as [-> | ->]; done.
Qed.

Lemma wp_recovered_address {S} (T : S → S → Prop) `{!PreOrder T} out (s : S) Q (X : TxError → S → Prop) :
  is_bytes32 out → Q (of_be_bytes (drop 12 out)) s → wp T (recovered_address out) s Q X.
Proof.
  intros [Hl Hu] HQ. unfold recovered_address. eapply wp_bind; [done| |].
  - eapply (wp_expect _ _ (drop 12 out) _ (λ b s', b = drop 12 out ∧ s' = s)); [|done].
    apply slice_Some. rewrite Hl. split_conj; try lia. rewrite take_ge; [done|].
    rewrite length_drop, Hl. lia.
  - intros b s1 _ [-> ->]. rewrite b160_try_from_be_slice_spec;
      [by apply wp_ret|by apply Forall_drop|by rewrite length_drop, Hl].
Qed.
End Operations.

(** ** Validation and payment

    What a transaction that passes validation has shown, why another one is rejected,
    and what both do to the world. *)

Section Validation.
Context {R : Ruint} {RS : RuintSpec} {UZ : Usize} {FT : Features} {SYS : System}
  {LAWS : SystemLaws} {EXT : SystemExt} {XLAWS : SystemExtLaws} {TX : TxSystem} {TLAWS : TxSystemLaws}
  {CFG : ExecutionConfig}.
#[local] Existing Instance system_keccak.

Variable md : Metadata.
Variable t : RlpEncodedTransaction.

Abbreviation from := (from_ t).

(** What has to be signed by the sender. *)
Definition signing_message : list Z :=
  let '(parity, r, s) := rtx_sig_parity_r_s t in recover_message (sig_hash t) (Z.b2z parity) r s.
Definition signature_s : list Z := let '(_, _, s) := rtx_sig_parity_r_s t in s.

(** The balance a transaction needs. *)
Definition max_cost : Z := rtx_value t + rtx_max_fee_per_gas t * rtx_gas_limit t.

Definition checks_signature : bool := VALIDATE_EOA_SIGNATURE && negb SIMULATION.

Record valid_in (w : World) : Prop := {
  va_code : SIMULATION = false → has_code w from = false;
  va_nonce : SIMULATION = false → rtx_nonce t = nonce w from;
  va_next_nonce : is_u64 (nonce w from + 1);
  va_balance : max_cost ≤ balance w from;
  va_signature : checks_signature = true →
    recovers signing_message (Some from) ∧ of_be_bytes signature_s ≤ SECP256K1N_HALF
}.

(** What an error of the validation says of the transaction and of the world. *)
Definition justified (w : World) (e : InvalidTransaction) : Prop :=
  match e with
  | RejectCallerWithCode => has_code w from = true
  | OverflowPaymentInTransaction => 2 ^ 256 ≤ max_cost
  | LackOfFundForMaxFee fee funds => fee = max_cost ∧ funds = balance w from ∧ funds < fee
  | MalleableSignature => SECP256K1N_HALF < of_be_bytes signature_s
  | IncorrectFrom a _ => a = from ∧ ∃ other, recovers signing_message other ∧ other ≠ Some from
  | NonceTooHigh n state => n = rtx_nonce t ∧ state = nonce w from ∧ state < n
  | NonceTooLow n state => n = rtx_nonce t ∧ state = nonce w from ∧ n < state
  | NonceOverflowInTransaction => nonce w from = umax 64
  | PriorityFeeGreaterThanMaxFee =>
      rtx_max_fee_per_gas t < default 0 (rtx_max_priority_fee_per_gas t)
  | BaseFeeGreaterThanMaxFee => rtx_max_fee_per_gas t < md_eip1559_basefee md
  | BlockGasLimitTooHigh => MAX_BLOCK_GAS_LIMIT < md_block_gas_limit md
  | CallerGasLimitMoreThanBlock => md_block_gas_limit md < rtx_gas_limit t
  | CreateInitCodeSizeLimit =>
      destination t = None ∧ MAX_INITCODE_SIZE < Z.of_nat (length (rtx_calldata t))
  | InvalidStructure => ∃ l, access_list t = Some l ∧ has_bad_key l
  | OutOfGasDuringValidation | OutOfNativeResourcesDuringValidation => True
  | _ => False
  end.

Definition rejected (w : World) (e : TxError) (s : SysState * Res) : Prop :=
  match e with Validation e => justified w e | Internal _ => True end.

Lemma resource_rejected w e s : resource_error e → rejected w e s.
Proof. unfold resource_error. by repeat case_match. Qed.

Lemma system_error_rejected w e s : rejected w (tx_error_of_system e) s.
Proof. apply resource_rejected, system_resource_error. Qed.

Hypothesis wf : l2_wf t.

Lemma required_balance_spec :
  tx_required_balance (TxRlp t) = checked 256 max_cost ∧ 0 ≤ max_cost.
Proof.
  destruct wf. split; [by apply required_balance_exact|]. unfold max_cost, in_width in *. nia.
Qed.

Lemma wp_check_balance ee s :
  res_wf s.2 →
  wp spends (check_balance (TxRlp t) ee max_cost) s
    (λ _ s', max_cost ≤ balance (world s.1) from ∧ world s'.1 = world s.1)
    (rejected (world s.1)).
Proof.
  intros Hs. unfold check_balance. wp_step.
  { apply (wp_attempt _ _ _ (λ r s', world s'.1 = world s.1
      ∧ match r with inl _ => True | inr b => b = balance (world s.1) from end)).
    eapply wp_conseq; [by apply wp_get_balance|..]; cbv beta; [by intros b s1 _ [-> ->]|by intros e s1 _ ->]. }
  intros [e|b] s1 _ [Hw Hb]; cbv beta.
  - repeat case_match; wp_fail; exact I.
  - subst b. destruct (Z.ltb_spec (balance (world s.1) from) max_cost).
    + wp_fail. by split.
    + wp_return. by split.
Qed.

Lemma sig_parts :
  ∃ parity r s, rtx_sig_parity_r_s t = (parity, r, s)
    ∧ u_try_from_be_slice s = Some (of_be_bytes s)
    ∧ ecrecover_input (sig_hash t) (Z.b2z parity) r s = Some signing_message.
Proof.
  destruct (rtx_sig_parity_r_s t) as [[parity r] s] eqn:E. exists parity, r, s.
  destruct (lw_sig _ wf parity r s E) as (Hr & Hr' & Hs & Hs').
  split; [done|]. split; [by apply u_try_from_be_slice_spec|].
  unfold signing_message. rewrite E. apply ecrecover_input_ok; try done. destruct parity; auto.
Qed.

Lemma wp_check_signature w s :
  res_wf s.2 →
  wp spends (check_signature (TxRlp t) (sig_hash t)) s
    (λ _ s', s'.1 = s.1 ∧ (checks_signature = true →
       recovers signing_message (Some from) ∧ of_be_bytes signature_s ≤ SECP256K1N_HALF))
    (rejected w).
Proof.
  intros Hs. unfold check_signature, checks_signature.
  assert (negb VALIDATE_EOA_SIGNATURE || SIMULATION = negb (VALIDATE_EOA_SIGNATURE && negb SIMULATION)) as ->
    by (by destruct VALIDATE_EOA_SIGNATURE, SIMULATION).
  destruct (VALIDATE_EOA_SIGNATURE && negb SIMULATION); cbn [negb].
  2:{ apply wp_sys_io, wp_charge; [done|by split|by split|]. intros. apply system_error_rejected. }
  destruct sig_parts as (parity & r & sv & E & Hsv & Hin). cbn [tx_sig_parity_r_s]. rewrite E.
  assert (signature_s = sv) as Hss by (unfold signature_s; by rewrite E).
  wp_pure. rewrite Hsv. wp_pure. destruct (Z.ltb_spec SECP256K1N_HALF (of_be_bytes sv)).
  { wp_fail. cbn [rejected justified]. by rewrite Hss. }
  rewrite Hin. wp_pure. wp_step; [apply wp_recover; [done|intros; apply system_error_rejected]|].
  intros out s1 _ (Hs1 & Hout & Hrec). cbv beta. case_bool_decide as Hnil.
  { wp_fail. split; [done|]. by exists None. }
  destruct Hout as [|Hout]; [done|]. wp_step.
  { by apply (wp_recovered_address _ _ _ (λ a s', a = of_be_bytes (drop 12 out) ∧ s' = s1)). }
  intros a s2 _ [-> ->]. cbn [tx_from]. destruct (Z.eqb_spec (of_be_bytes (drop 12 out)) from) as [Ha|Ha]; cbn [negb when].
  - wp_return. split; [done|]. intros _. rewrite Hss. by rewrite <- Ha.
  - wp_fail. split; [done|]. eexists. split; [exact Hrec|]. by intros [= ?].
Qed.

Lemma wp_bump_caller ee s :
  res_wf s.2 →
  wp spends (bump_caller_nonce (TxRlp t) ee) s
    (λ old s', old = nonce (world s.1) from ∧ is_u64 (old + 1)
       ∧ world s'.1 = set_nonce from (nonce (world s.1) from + 1) (world s.1))
    (rejected (world s.1)).
Proof.
  intros Hs. apply wp_map_err. eapply wp_conseq; [by apply wp_bump_nonce|..]; cbv beta.
  - intros old s1 _ (-> & H & ->). done.
  - intros e s1 _ He. destruct e as [[]|e|[]|[]]; try done. cbn [rejected justified].
    destruct He as [He _]. pose proof (tl_nonce_range (world s.1) from). unfold in_width, umax in *.
    cbn [tx_from] in He. lia.
Qed.

Lemma wp_validate ee is_code caller_nonce s :
  res_wf s.2 →
  (SIMULATION = false → is_code = has_code (world s.1) from ∧ caller_nonce = nonce (world s.1) from
                        ∧ rtx_nonce t = nonce (world s.1) from) →
  wp spends (validate (sig_hash t) (TxRlp t) ee is_code caller_nonce) s
    (λ _ s', valid_in (world s.1)
       ∧ world s'.1 = set_nonce from (nonce (world s.1) from + 1) (world s.1))
    (rejected (world s.1)).
Proof.
  intros Hs Hc. set (w := world s.1) in *. unfold validate.
  wp_step.
  { apply (wp_check _ _ _ _ (λ _ s', s' = s ∧ (SIMULATION = false → has_code w from = false))).
    - intros Hb. apply andb_true_iff in Hb as [Hb ->]. apply negb_true_iff in Hb. symmetry. by apply Hc.
    - intros Hb. split; [done|]. intros Hsim. destruct (Hc Hsim) as (<- & _). by rewrite Hsim in Hb. }
  intros _ s1 _ [-> Hcode]. destruct required_balance_spec as [-> Hmc]. wp_step.
  { apply (wp_lift_opt _ _ _ _ (λ c s', c = max_cost ∧ s' = s)).
    - intros Hn%checked_None. cbn [rejected justified]. unfold in_width in Hn. lia.
    - intros c [<- _]%checked_Some. done. }
  intros c s1 _ [-> ->]. wp_step; [by apply wp_check_balance|]. intros _ s1 T1 [Hbal Hw1].
  assert (res_wf s1.2) as Hs1 by (by apply T1). wp_step; [by apply (wp_check_signature w)|].
  intros _ s2 T2 [E2 Hsig]. assert (res_wf s2.2) as Hs2 by (by apply T2).
  assert (world s2.1 = w) as Hw2 by (by rewrite E2, Hw1). wp_step.
  { eapply wp_conseq; [by apply wp_bump_caller|intros ? ? _ H; exact H|]. rewrite Hw2. auto. }
  intros old s3 _ (-> & Hnext & Hw3). rewrite Hw2 in *. cbv beta.
  assert (SIMULATION = false → caller_nonce = nonce w from) as Hn by (intros H; by destruct (Hc H) as (_ & ? & _)).
  assert (valid_in w) as Hv.
  { split; try done. intros H. by destruct (Hc H) as (_ & _ & ?). }
  apply wp_when; [typeclasses eauto| |by split]. intros Hsim%negb_true_iff.
  apply wp_assert; [typeclasses eauto| |by split]. rewrite Hn by done. apply Z.eqb_refl.
Qed.

(** ** Payment *)

(** The world after validation and payment. *)
Definition paid (price : Z) (w : World) : World :=
  set_balance SIMULATION from (balance w from - price * rtx_gas_limit t)
    (set_nonce from (nonce w from + 1) w).

Lemma wp_pay ee price s w :
  res_wf s.2 → 0 ≤ price ≤ rtx_max_fee_per_gas t → max_cost ≤ balance w from →
  world s.1 = set_nonce from (nonce w from + 1) w →
  wp spends (pay_for_transaction (TxRlp t) price from ee) s
    (λ _ s', world s'.1 = paid price w) (rejected w).
Proof.
  intros Hs Hp Hb Hw. destruct wf. unfold pay_for_transaction. cbn [tx_gas_limit].
  assert (0 ≤ price * rtx_gas_limit t ≤ balance w from) as Ha.
  { unfold max_cost, in_width in *. nia. }
  pose proof (tl_balance_range w from) as Hr.
  rewrite u_checked_mul_spec by (unfold in_width in *; lia). unfold checked_mul.
  rewrite checked_in by (unfold in_width in *; lia). wp_pure. wp_step.
  { apply (wp_attempt _ _ _ (λ r s', match r with
      | inr _ => world s'.1 = paid price w
      | inl e => ∀ u, e ≠ SLeafUsage u end)).
    eapply wp_conseq; [apply wp_update; [done|unfold in_width in *; lia]|..]; cbv beta; rewrite Hw.
    - intros old s1 _ (_ & _ & ->). unfold paid. by rewrite tl_get_balance'.
    - intros e s1 _ He u ->. destruct u; [|by destruct He].
      destruct He as (_ & He & _). rewrite tl_get_balance' in He. lia. }
  intros [e|old] s1 _ H; [|by wp_return]. unfold payment_error.
  destruct e as [u|e|[]|[]]; [by destruct (H u)|..]; wp_fail; exact I.
Qed.
End Validation.
