(* ===== verification/ListTheorems.v ===== *)
(** * Access lists and authorization lists

    Warming up an access list leaves the world alone; applying the authorizations of
    EIP-7702 changes no balance and lowers no nonce, and what an authority signs is
    the message of the EIP. *)

From stdpp Require Import strings.
From S2P Require Import Prelude Resources U256 Rlp SystemInterface BootloaderErrors RlpParser RlpLogic.
From S2P Require Import RlpTheorems RlpHash TxFormats EvmConstants Gas EvmState EvmLogic BootSystem.
From S2P Require Import IoLogic TxSystem GasHelpers Transaction TxWellFormed TxWp TxFlow FlowTheorems.
From S2P Require Import FlowTheorems.

(** ** The signed message *)

Section Message.
Context {UZ : Usize} {KK : Keccak}.

(** [rlp([chain_id, address, nonce])] *)
Definition authorization_payload (chain_id nonce : Z) (address : list Z) : RlpItem :=
  RlpList [RlpString (minimal_be chain_id); RlpString address; RlpString (minimal_be nonce)].

Lemma rlp_string_bound k n : 0 ≤ n < 2 ^ (8 * Z.of_nat k) → (k ≤ 32)%nat → (length (rlp_string (minimal_be n)) ≤ 33)%nat.
Proof.
  intros Hn Hk. pose proof (width_of_bound n k Hn). unfold rlp_string, rlp_header, minimal_be.
  destruct (be_bytes _ n) as [|b [|b' l]] eqn:E; [cbn; lia|destruct (b <? 128); cbn; lia|].
  rewrite <- E, length_app, length_be_bytes. destruct (Nat.ltb_spec (width_of n) 56); cbn [length]; lia.
Qed.

Lemma rlp_address address : length address = 20%nat → length (rlp_string address) = 21%nat.
Proof.
  intros Ha. unfold rlp_string. destruct address as [|b [|b' l]]; [done|done|].
  unfold rlp_header. rewrite Ha, length_app, Ha. done.
Qed.

(** The hash an authority signs is that of the magic byte and the RLP list, and the
    price of computing it is that of hashing these bytes. *)
Lemma auth_message_spec chain_id nonce address (r : Res) :
  is_u256 chain_id → is_u64 nonce → length address = 20%nat →
  let message := 0x05 :: rlp (authorization_payload chain_id nonce address) in
  compute_auth_message_signed_hash chain_id nonce address r
  = (charge_keccak (Z.of_nat (length message)) ;; mret (Keccak256 message)) r.
Proof.
  intros Hc Hn Ha. cbv zeta. unfold compute_auth_message_signed_hash.
  change (2 ^ 256) with (2 ^ (8 * Z.of_nat 32)) in Hc. change (2 ^ 64) with (2 ^ (8 * Z.of_nat 8)) in Hn.
  pose proof (rlp_string_bound 32 chain_id Hc ltac:(lia)) as B1.
  pose proof (rlp_string_bound 8 nonce Hn ltac:(lia)) as B2. pose proof (rlp_address address Ha) as B3.
  destruct (number_to_hash 32 chain_id [] Hc) as [_ ->]; [lia|].
  destruct (number_to_hash 8 nonce [] Hn) as [_ ->]; [lia|]. change ADDRESS_ENCODING_LEN with 21.
  set (p := concat (map rlp [RlpString (minimal_be chain_id); RlpString address; RlpString (minimal_be nonce)])).
  assert (length p = length (rlp_string (minimal_be chain_id)) + 21 + length (rlp_string (minimal_be nonce)))%nat as Hp.
  { unfold p. cbn [concat map rlp]. rewrite !length_app, B3. cbn [length]. lia. }
  replace (Z.of_nat (length (rlp_string (minimal_be chain_id))) + 21 + Z.of_nat (length (rlp_string (minimal_be nonce))))
    with (Z.of_nat (length p)) by lia.
  assert (in_width usize_bits (Z.of_nat (length p))) as Hw by (apply usize_holds_u32; lia).
  unfold apply_list_length_encoding_to_hash.
  destruct (length_to_hash (length p) 192 [EIP7702_MAGIC] Hw (or_intror eq_refl)) as [-> ->].
  destruct (number_to_hash 32 chain_id ([EIP7702_MAGIC] ++ rlp_header 192 (length p)) Hc) as [-> _]; [lia|].
  assert (∀ h, apply_bytes_encoding_to_hash address h = h ++ rlp_string address) as ->.
  { intros h. apply bytes_to_hash, usize_holds_u32. lia. }
  assert (∀ h, apply_number_encoding_to_hash (be_bytes 8 nonce) h = h ++ rlp_string (minimal_be nonce)) as ->.
  { intros h. apply number_to_hash; [done|lia]. }
  cbn [authorization_payload rlp]. fold p. change (0xc0) with 192. cbn [length]. rewrite length_app.
  replace (1 + (Z.of_nat (length (rlp_header 192 (length p))) + Z.of_nat (length p)))
    with (Z.of_nat (S (length (rlp_header 192 (length p)) + length p))) by lia.
  do 3 f_equal. change EIP7702_MAGIC with 5. cbn [app]. f_equal. rewrite <- !app_assoc. f_equal.
  unfold p. cbn [concat map rlp]. by rewrite app_nil_r.
Qed.

(** C39: the message of an authorization.  What an authority signs to delegate
    (EIP-7702) is the Keccak hash of the magic byte 5 and the RLP list of chain id,
    address and nonce, with the numbers in minimal form; the price of computing it is
    that of hashing these bytes. *)
Theorem authorization_message chain_id nonce address (r : Res) :
  is_u256 chain_id → is_u64 nonce → length address = 20%nat →
  let message := 0x05 :: rlp (authorization_payload chain_id nonce address) in
  compute_auth_message_signed_hash chain_id nonce address r
  = (charge_keccak (Z.of_nat (length message)) ;; mret (Keccak256 message)) r.
Proof. apply auth_message_spec. Qed.
End Message.

Section Lists.
Context {R : Ruint} {RS : RuintSpec} {UZ : Usize} {FT : Features} {SYS : System}
  {LAWS : SystemLaws} {EXT : SystemExt} {XLAWS : SystemExtLaws} {TX : TxSystem} {TLAWS : TxSystemLaws}
  {CFG : ExecutionConfig}.
#[local] Existing Instance system_keccak.

(** ** Access lists *)

Section Access.
Variables (md : Metadata) (t : RlpEncodedTransaction).
Hypothesis wf : l2_wf t.

Lemma wp_warm_slots address slots keys s w :
  iterates FixedListIter_next (S (Z.to_nat (fl_count slots))) (FixedList_iter slots) keys →
  Forall slot_ok keys → (∀ e, Err e ∈ keys → ∃ l, access_list t = Some l ∧ has_bad_key l) → res_wf s.2 → world s.1 = w →
  wp spends (warm_up_slots address slots) s (λ _ s', res_wf s'.2 ∧ world s'.1 = w) (rejected md t w).
Proof.
  intros Hi Hk Hal Hs Hw. eapply wp_iterates; [exact Hi|].
  apply (wp_each _ (λ s', res_wf s'.2 ∧ world s'.1 = w)); [done|].
  intros key s1 Hin [Hs1 Hw1]. rewrite Forall_forall in Hk. specialize (Hk key Hin).
  destruct key as [key|e|]; [|wp_fail; cbn in Hk; subst e; by eapply Hal|done].
  apply wp_sys_io. eapply wp_conseq; [apply wp_read_only; [apply tl_storage_touch|apply tl_storage_touch_world|done]|..].
  - intros [] s2 T2 [_ E]. split; [by apply T2|by rewrite E].
  - intros e s2 _ _. apply system_error_rejected.
Qed.

Lemma wp_warm_up s :
  res_wf s.2 →
  wp spends (parse_and_warm_up_access_list (TxRlp t)) s (λ _ s', world s'.1 = world s.1)
    (rejected md t (world s.1)).
Proof.
  intros Hs. unfold parse_and_warm_up_access_list. cbn [access_list_iter].
  destruct (access_list t) as [l|] eqn:El; cbn [fmap option_fmap option_map]; [|by wp_return].
  destruct (lw_access _ wf l El) as (items & Hi & Hf). set (w := world s.1).
  apply (wp_conseq _ _ _ (λ _ s', res_wf s'.2 ∧ world s'.1 = w) _ (rejected md t w)); [|by intros [] s1 _ [_ H]|auto].
  eapply wp_iterates; [exact Hi|]. apply (wp_each _ (λ s', res_wf s'.2 ∧ world s'.1 = w)); [done|].
  intros a s1 Hin [Hs1 Hw1]. rewrite Forall_forall in Hf. destruct (Hf a Hin) as (Ha & chunks & keys & Hp & Hk & Hsl).
  pose proof (slots_ok _ _ Hsl) as Hok.
  wp_step.
  { apply wp_sys_io. eapply wp_conseq; [apply wp_read_only; [apply tl_touch|apply tl_touch_world|done]|..].
    - intros u s2 T2 H. exact H.
    - intros e s2 _ _. apply system_error_rejected. }
  intros [] s2 T2 [_ E2]. apply (wp_warm_slots _ _ keys); try done; [|by apply T2|by rewrite E2].
  intros e He. destruct (bad_chunk _ _ _ Hsl He) as (H33 & chunk & Hc & Hh). exists l. split; [done|].
  by exists items, a, chunks, chunk.
Qed.
End Access.

(** ** Authorizations *)

(** What delegations do to the accounts. *)
Definition delegated (w w' : World) : Prop :=
  ∀ a, balance w' a = balance w a ∧ nonce w a ≤ nonce w' a.

#[global] Instance delegated_preorder : PreOrder delegated.
Proof.
  split; [by intros w a|]. intros w1 w2 w3 H1 H2 a. destruct (H1 a), (H2 a). split; [congruence|lia].
Qed.

Lemma same_delegated w w' : same_accounts w w' → delegated w w'.
Proof. intros H a. destruct (H a) as [-> ->]. done. Qed.

Section Auth.
Variable auth : AuthorizationEntry.
Hypothesis wf : auth_wf auth.

Abbreviation resource_x := (λ e _, resource_error e).

Lemma wp_auth_message s :
  res_wf s.2 →
  wp spends (infinite_ergs (on_res
      (compute_auth_message_signed_hash (ae_chain_id auth) (ae_nonce auth) (ae_address auth)))) s
    (λ h s', s'.1 = s.1 ∧ is_bytes32 h) resource_x.
Proof.
  intros Hs. apply (wp_infinite _ _ (λ h sys, sys = s.1 ∧ is_bytes32 h) (λ e _, resource_error e)); [done|].
  set (message := 0x05 :: rlp (authorization_payload (ae_chain_id auth) (ae_nonce auth) (ae_address auth))).
  pose proof (wp_charge_keccak (Z.of_nat (length message)) (s.1, rich s.2) (rich_wf _ Hs)) as H.
  unfold wpf, on_res, zoom in *. cbn [fst snd] in *.
  destruct wf as [Hc Hn [_ Ha] _ _ _]. rewrite auth_message_spec by done. fold message.
  unfold mbind, M_bind. destruct (charge_keccak _ _) as [[a|e|] r']; [|done|done].
  destruct H as [H1 H2]. split; [done|]. split; [done|]. apply sl_digest.
Qed.

Lemma wp_recover_authority msg s :
  res_wf s.2 → is_bytes32 msg →
  wp spends (infinite_ergs (recover_authority (ae_y_parity auth) (ae_r auth) (ae_s auth) msg)) s
    (λ _ s', s'.1 = s.1) resource_x.
Proof.
  intros Hs Hm. apply (wp_infinite _ _ (λ _ sys, sys = s.1) (λ e _, resource_error e)); [done|].
  pose proof (rich_wf _ Hs) as Hr. unfold recover_authority.
  destruct (Z.ltb_spec 1 (ae_y_parity auth)); [by wp_return|]. destruct wf as [_ _ _ Hp [Hr1 Hr2] [Hs1 Hs2]].
  rewrite (ecrecover_input_ok _ (ae_y_parity auth)) by (done || (unfold in_width in *; lia)). wp_pure.
  wp_step.
  { apply (wp_infinite _ _ (λ out sys, sys = s.1 ∧ (out = [] ∨ is_bytes32 out)) (λ e _, resource_error e)); [done|].
    eapply wp_conseq; [apply (wp_recover _ _ (λ e _, resource_error e)); [by apply rich_wf|]|..]; cbv beta.
    - intros. apply system_resource_error.
    - intros out s1 _ (H1 & H2 & _). done.
    - auto. }
  intros out s1 _ [E1 Hout]. cbv beta. case_bool_decide; [by wp_return|].
  destruct Hout as [|Hout]; [done|]. wp_step.
  { by apply (wp_recovered_address _ _ _ (λ _ s', s' = s1)). }
  intros a s2 _ ->. by wp_return.
Qed.

Lemma wp_bump_authority a s :
  res_wf s.2 →
  wp spends (bump_authority_nonce a) s (λ _ s', delegated (world s.1) (world s'.1)) resource_x.
Proof.
  intros Hs. unfold bump_authority_nonce. wp_step.
  { apply (wp_infinite _ _ (λ _ sys, delegated (world s.1) (world sys)) (λ e _, resource_error e)); [done|].
    apply wp_map_err. eapply wp_conseq; [apply wp_bump_nonce; [by apply rich_wf|by unfold in_width]|..]; cbv beta.
    - intros old s1 _ (Ho & Hr & Hw) b. cbn [fst] in *. rewrite Hw, tl_get_balance', tl_get_nonce' by done. split; [done|].
      destruct (Z.eqb_spec b a); [subst; lia|done].
    - done. }
  intros u s1 _ H. by wp_return.
Qed.

Lemma wp_delegation s :
  res_wf s.2 →
  wp spends (validate_and_apply_delegation auth) s
    (λ _ s', delegated (world s.1) (world s'.1)) resource_x.
Proof.
  intros Hs. unfold validate_and_apply_delegation. wp_pure.
  destruct (_ && _); [by wp_return|]. destruct (_ =? _); [by wp_return|].
  pose proof (aw_s _ wf) as [Hs1 Hs2]. rewrite u_try_from_be_slice_spec by done. wp_pure.
  destruct (SECP256K1N_HALF <? _); [by wp_return|].
  wp_step; [by apply wp_auth_message|]. intros msg s1 T1 [E1 Hmsg]. assert (res_wf s1.2) as W1 by (by apply T1).
  wp_step; [by apply wp_recover_authority|]. intros o s2 T2 E2. assert (res_wf s2.2) as W2 by (by apply T2).
  assert (world s2.1 = world s.1) as Hw by (by rewrite E2, E1). rewrite <- Hw.
  destruct o as [a|]; [|by wp_return]. wp_step.
  { apply (wp_infinite _ _ (λ _ sys, world sys = world s2.1) (λ e _, resource_error e)); [done|].
    apply wp_sys_io. eapply wp_conseq; [apply wp_read_account; by apply rich_wf|..]; cbv beta.
    - intros x s3 _ [_ H]. exact H.
    - intros. apply system_resource_error. }
  intros x s3 T3 E3. assert (res_wf s3.2) as W3 by (by apply T3). rewrite <- E3.
  destruct (is_contract x); [by wp_return|]. destruct (negb _); [by wp_return|]. wp_step.
  { apply (wp_when _ _ _ _ (λ _ s', delegated (world s3.1) (world s'.1))); [|done]. intros _.
    eapply wp_conseq; [apply wp_add_refund|intros u s4 _ H; by apply same_delegated|auto]. }
  intros u s4 T4 D4. assert (res_wf s4.2) as W4 by (by apply T4). wp_step.
  { apply (wp_infinite _ _ (λ _ sys, delegated (world s4.1) (world sys)) (λ e _, resource_error e)); [done|].
    apply wp_sys_io. eapply wp_conseq; [apply wp_io_run; [apply tl_delegation|by apply rich_wf]|..]; cbv beta.
    - intros v s5 _ [H _]. apply same_delegated.
      pose proof (tl_delegation_accounts a (of_be_bytes (ae_address auth)) (s4.1, rich s4.2)) as Ha.
      by rewrite H in Ha.
    - intros. apply system_resource_error. }
  intros v s5 T5 D5. assert (res_wf s5.2) as W5 by (by apply T5). wp_step; [by apply wp_bump_authority|].
  intros v' s6 _ D6. wp_return. transitivity (world s4.1); [done|]. by transitivity (world s5.1).
Qed.
End Auth.

Lemma wp_auth_list l s :
  auth_list_wf l → res_wf s.2 →
  wp spends (parse_authorization_list_and_apply_delegations l) s
    (λ _ s', delegated (world s.1) (world s'.1)) (λ e _, resource_error e).
Proof.
  intros (items & Hi & Hf & _) Hs. set (w := world s.1).
  apply (wp_conseq _ _ _ (λ _ s', res_wf s'.2 ∧ delegated w (world s'.1)) _ (λ e _, resource_error e));
    [|by intros [] s1 _ [_ H]|auto].
  eapply wp_iterates; [exact Hi|]. apply (wp_each _ (λ s', res_wf s'.2 ∧ delegated w (world s'.1))); [done|].
  intros a s1 Hin [Hs1 Hw1]. rewrite Forall_forall in Hf. wp_step; [by apply wp_delegation; [apply Hf|]|].
  intros b s2 T2 D2. wp_return. split; [by apply T2|]. by etransitivity.
Qed.
End Lists.
