(* ===== verification/ExecTheorems.v ===== *)
(** * Execution

    The call or the deployment of a transaction inside its frame: it ends without a
    panic, gives out no resources, and is undone if it fails. *)

From stdpp Require Import strings.
From S2P Require Import Prelude Resources U256 SystemInterface BootloaderErrors TxFormats AbiTx.
From S2P Require Import EvmConstants Gas EvmState EvmInstructions EvmLogic EvmSafety EvmExec.
From S2P Require Import BootSystem IoLogic Hooks HookTheorems Runner RunnerTheorems TxSystem GasHelpers.
From S2P Require Import Transaction TxWellFormed TxWp TxFlow FlowTheorems.

(** Sequencing where the parts are related to their starts in different ways. *)
Lemma wp_bind_het {S E A B} (T1 T2 T3 : S → S → Prop) (m : M S E A) (k : A → M S E B) s Q1 X1 Q X :
  wp T1 m s Q1 X1 → (∀ a s1, T1 s s1 → Q1 a s1 → wp T2 (k a) s1 Q X) →
  (∀ s1 s2, T1 s s1 → T2 s1 s2 → T3 s s2) →
  (∀ e s1, T1 s s1 → X1 e s1 → T3 s s1 ∧ X e s1) → wp T3 (m ≫= k) s Q X.
Proof.
  intros [H1 H2] Hk HT HX. unfold wpf, mbind, M_bind. destruct (m s) as [[a|e|] s1]; cbn in *; [|by apply HX|done].
  destruct (Hk a s1 H1 H2) as [H3 H4]. split; [by eapply HT|done].
Qed.

Section Exec.
Context {R : Ruint} {RS : RuintSpec} {UZ : Usize} {FT : Features} {SYS : System}
  {LAWS : SystemLaws} {EXT : SystemExt} {XLAWS : SystemExtLaws} {IL : InputLimit} {TX : TxSystem} {TLAWS : TxSystemLaws}
  {CFG : ExecutionConfig}.
#[local] Existing Instance system_keccak.

Abbreviation PM := (M SysState BootloaderSubsystemError).

(** ** Frames *)

(** [s'] is inside a frame opened in [s]. *)
Definition framed (h : Snapshot) (s s' : SysState) : Prop :=
  same_block (sys_metadata s) (sys_metadata s') ∧ ∀ k, alive s k → alive s' ((h, world s) :: k).

Lemma framed_later h s s1 s2 : framed h s s1 → later_tx s1 s2 → framed h s s2.
Proof.
  intros [[t1 H1] H2] [[t2 H3] H4]. split; [|auto]. exists t2. by rewrite H3, H1.
Qed.

Lemma framed_kept h s s1 : framed h s s1 → later_tx s s1.
Proof. intros [H1 H2]. split; [done|]. intros k Hk. eapply sl_forget. by apply H2. Qed.

Lemma wp_start {E} (f : InternalError → E) s :
  wp later (map_err f start_io_frame) s
    (λ h s1, framed h s s1 ∧ sys_metadata s1 = sys_metadata s ∧ world s1 = world s) (λ e _, ∃ i, e = f i).
Proof.
  pose proof (λ k, sl_start s k) as Hs. unfold wpf, map_err.
  destruct (start_io_frame s) as [[h|e|] s1]; cbn.
  - destruct (Hs [] (sl_alive s)) as (_ & Hw & Hm).
    assert (framed h s s1) as Hf.
    { split; [exists (mkTxLevel (md_tx_origin (sys_metadata s)) (md_tx_gas_price (sys_metadata s))); rewrite Hm;
        by destruct (sys_metadata s)|]. intros k Hk. apply (Hs k Hk). }
    split; [|done]. split; [done|]. intros k Hk. eapply sl_forget. by apply Hf.
  - destruct (Hs [] (sl_alive s)) as [Hl _]. split; [done|]. by eexists.
  - by destruct (Hs [] (sl_alive s)).
Qed.

Lemma wp_keep {E} (f : InternalError → E) s :
  wp later (map_err f (finish_io_frame None)) s (λ _ s1, world s1 = world s) (λ e _, ∃ i, e = f i).
Proof.
  destruct (sl_finish s) as (H1 & H2 & H3). unfold wpf, map_err.
  destruct (finish_io_frame None s) as [[a|e|] s1]; cbn in *; [done| |done]. split; [done|]. by eexists.
Qed.

(** Rolling back ends the frame. *)
Lemma wp_roll_back {E} (f : InternalError → E) h s0 s :
  framed h s0 s →
  wp (λ _ s', later_tx s0 s' ∧ sys_metadata s' = sys_metadata s) (map_err f (finish_io_frame (Some h))) s
    (λ _ s1, world s1 = world s0) (λ e _, ∃ i, e = f i).
Proof.
  intros Hf. pose proof (λ k H, sl_rollback s h (world s0) k (proj2 Hf k H)) as Hr. unfold wpf, map_err.
  destruct (finish_io_frame (Some h) s) as [[a|e|] s1]; cbn.
  - destruct (Hr [] (sl_alive s0)) as (_ & Hw & Hm). split; [|done]. split; [|done].
    split; [rewrite Hm; apply Hf|]. intros k Hk. apply (Hr k Hk).
  - pose proof (Hr [] (sl_alive s0)) as Hl. split; [|by eexists]. split; [|apply Hl].
    transitivity s; [by eapply framed_kept|by apply later_later_tx].
  - by destruct (Hr [] (sl_alive s0)).
Qed.

Lemma later_of_tx s s' : later_tx s s' → sys_metadata s' = sys_metadata s → later s s'.
Proof. intros [_ H] Hm. by split. Qed.

Lemma wp_finish {E} (f : InternalError → E) (back : bool) h s0 s :
  framed h s0 s → sys_metadata s = sys_metadata s0 →
  wp (λ _ s', later s0 s') (map_err f (finish_io_frame (if back then Some h else None))) s
    (λ _ s1, world s1 = if back then world s0 else world s) (λ e _, ∃ i, e = f i).
Proof.
  intros Hf Hm. destruct back.
  - destruct (wp_roll_back f h s0 s Hf) as [[H1 H2] H3]. split; [|done].
    apply later_of_tx; [done|congruence].
  - destruct (wp_keep f s) as [H1 H2]. split; [|done]. transitivity s; [|done].
    apply later_of_tx; [by eapply framed_kept|done].
Qed.

(** ** The call loop *)

Section Calls.
Variables (memories : RunnerMemoryBuffers) (hooks : HooksStorage).
Hypothesis hooks_wf : hooks_ok hooks.
Hypothesis heaps_ok : buffer_ok (heaps memories).
Hypothesis return_ok : buffer_ok (return_data memories).

(** What a completed execution gives back. *)
Record execution_wf (r : Res) (w : World) (returned : Res) (reverted : bool) (w' : World) : Prop := {
  ew_res : res_wf returned;
  ew_le : res_le_both returned r;
  ew_undone : reverted = true → w' = w
}.

Lemma wp_run_loop ee req sys :
  request_wf req →
  wp later (run_till_completion memories hooks ee req) sys
    (λ c sys', execution_wf (available_resources req) (world sys) (resources_returned c)
                 (failed (ce_result c)) (world sys'))
    (λ e _, fatal_boot e).
Proof.
  intros Hq. destruct (run_spec_boot memories hooks ee req sys Hq hooks_wf heaps_ok return_ok) as (x & Hx & o & -> & Hrun).
  unfold wpf. rewrite Hrun. destruct o as [[c|e|] c']; cbn in *; destruct Hx as (H1 & _ & H3); [|done..].
  destruct H3 as (_ & H4 & H5 & _ & _ & H6). split; [done|]. split; [done|done|].
  intros Hf. destruct (H6 Hf) as [H|(_ & H & _)]; [done|cbn in H; lia].
Qed.

Lemma initial_request_wf r caller callee m calldata value :
  res_wf r → is_b160 caller → is_b160 callee → input_ok calldata → is_u256 value →
  request_wf (initial_request r caller callee m calldata value).
Proof. intros Hr. by split; try done; [apply Hr|..]. Qed.

Lemma wp_local {A E} w (Q : A → Prop) (X : E → Prop) r (m : M (SysState * Res) E A) sys :
  io w Q X m → res_wf r →
  wp later (local_io r m) sys
    (λ '(x, r') sys', res_wf r' ∧ res_le_both r' r ∧ (w = true → world sys' = world sys)
       ∧ match x with inr a => Q a | inl e => X e end)
    (λ (e : BootloaderSubsystemError) _, False).
Proof.
  intros Hm Hr. destruct (local_io_spec w Q X r m sys Hm Hr) as (x & r' & sys' & Hrun & H1 & H2 & H3 & H4 & H5 & _).
  unfold wpf. rewrite Hrun. cbn. by split_conj.
Qed.

Lemma wp_version_byte (b : Z) s :
  wp later (map_err SLeafDefect (λ sys, (parse_ee_version_byte b, sys))) s (λ _ s', s' = s)
    (λ e _, fatal_boot e).
Proof.
  apply wp_map_err. unfold wpf, parse_ee_version_byte. cbn. by repeat case_match.
Qed.

Lemma fatal_internal i : fatal_boot (SLeafDefect i).
Proof. apply defect_fatal. Qed.

Section Interaction.
Variables (calldata : list Z) (caller callee : Z) (resources : Res) (value : Z).
Hypothesis calldata_ok : input_ok calldata.
Hypothesis caller_ok : is_b160 caller.
Hypothesis callee_ok : is_b160 callee.
Hypothesis resources_ok : res_wf resources.
Hypothesis value_ok : is_u256 value.

Lemma wp_call ee r0 s :
  res_wf r0 → res_le_both r0 resources →
  wp later (run_till_completion memories hooks ee (initial_request r0 caller callee NoModifier calldata value)) s
    (λ c s', execution_wf resources (world s) (resources_returned c) (failed (ce_result c)) (world s'))
    (λ e _, fatal_boot e).
Proof.
  intros Hr Hle. eapply wp_conseq; [apply wp_run_loop; by apply initial_request_wf|..]; [|auto].
  intros c s1 _ [H1 H2 H3]. split; [done| |done]. by etransitivity.
Qed.

(** Reading with infinite ergs does not run out of them. *)
Lemma read_version_io :
  io true (λ _, True) (λ e, e ≠ LeafRuntime OutOfErgs)
    (infinite_ergs (read_account_properties NoEE caller [WithEeVersion])).
Proof.
  intros s Hs. destruct (io_infinite true _ account_ok (λ _, True)
    (io_read account_ok _ true (xl_read NoEE caller [WithEeVersion]) (xl_read_world NoEE caller [WithEeVersion])) s Hs)
    as (H1 & H2 & H3 & H4 & H5).
  pose proof (tl_read_rich NoEE caller [WithEeVersion] s Hs) as Hrich.
  split_conj; try done. destruct (infinite_ergs _ s) as [[a|e|] s1]; cbn in *; try done. by intros ->.
Qed.

(** With a frame around it, or inside the frame of the caller. *)
Lemma wp_single_interaction should_make_frame sys :
  wp later (run_single_interaction memories hooks calldata caller callee resources value should_make_frame) sys
    (λ c sys', execution_wf resources (world sys) (resources_returned c) (failed (ce_result c)) (world sys'))
    (λ e _, fatal_boot e).
Proof.
  unfold run_single_interaction. wp_step.
  { eapply wp_conseq; [apply (wp_local true); [apply read_version_io|done]|intros ? ? _ H; exact H|done]. }
  intros [x r0] s1 _ (Hr0 & Hle0 & Hw & Hx). rewrite <- Hw by done. destruct x as [e|account].
  { destruct e as [e|[]]; [| |done]; by wp_fail. }
  destruct should_make_frame.
  2:{ wp_pure. wp_step; [apply wp_version_byte|]. intros ee s2 _ ->. cbv beta.
      wp_step; [by apply wp_call|]. intros c s2 _ Hc. wp_pure. by wp_return. }
  eapply (wp_bind_het later (λ _ s', later s1 s') later _ _ _
    (λ o s2, ∃ h, o = Some h ∧ framed h s1 s2 ∧ sys_metadata s2 = sys_metadata s1 ∧ world s2 = world s1)
    (λ e _, fatal_boot e)); [| |done|done].
  { wp_step.
    - eapply wp_conseq; [apply wp_start|intros ? ? _ H; exact H|]. intros e s2 _ [i ->]. apply fatal_internal.
    - intros h s2 _ H. wp_return. by exists h. }
  intros o s2 T2 (h & -> & Hf & Hm & Hw2). cbv beta. rewrite <- Hw2.
  eapply (wp_bind_het later (λ _ s', later s1 s')); [apply wp_version_byte| |done|].
  2:{ intros e s3 T3 He. split; [by etransitivity|done]. }
  intros ee s3 _ ->. cbv beta. eapply (wp_bind_het later (λ _ s', later s1 s')); [by apply wp_call| |done|].
  2:{ intros e s3 T3 He. split; [by etransitivity|done]. }
  intros c s3 T3 [C1 C2 C3]. cbv beta iota.
  eapply (wp_bind_het (λ _ s', later s1 s') later).
  { apply (wp_finish _ (failed (ce_result c)) h s1); [|destruct T3; congruence].
    eapply framed_later; [done|by apply later_later_tx]. }
  - intros u s4 _ H4. wp_return. split; [done|done|]. intros Hfail. rewrite Hfail in H4. by rewrite H4, Hw2.
  - intros s4 s5 H4 H5. by etransitivity.
  - intros e s4 H4 [i ->]. split; [done|]. apply fatal_internal.
Qed.
End Interaction.

(** ** Deployment *)

Lemma derive_create_ok {S E} a n (s : S) :
  ∃ d, derive_address_for_deployment_create (E:=E) a n s = (Val d, s) ∧ is_b160 d.
Proof.
  unfold derive_address_for_deployment_create. rewrite quasi_rlp_buffer. erewrite bind_val by reflexivity.
  destruct (address_of_digest_ok (Keccak256_digest (create_quasi_rlp a n))) as (d & Hd & Hb); [apply sl_digest|].
  exists d. by rewrite Hd.
Qed.

Abbreviation any_error := (λ _ _, True).

Lemma wp_deployment_outcome ee address c sys :
  res_wf (resources_returned c) →
  wp later (deployment_outcome ee address c) sys
    (λ '(success, rv, r) sys', world sys' = world sys ∧ res_wf r ∧ res_le_both r (resources_returned c)
       ∧ success = negb (failed (ce_result c)))
    any_error.
Proof.
  intros Hr. unfold deployment_outcome. destruct (ce_result c) as [|rv|rv]; [by wp_fail|by wp_return|].
  wp_step.
  { eapply wp_conseq; [apply (wp_local true)|intros ? ? _ H; exact H|done]; [|done].
    apply io_infinite, (io_read _ _ true (sl_bytecode address) (sl_code_world address)). }
  intros [[e|code] r] s1 _ (H1 & H2 & H3 & _); [by wp_fail|]. wp_return. auto.
Qed.

Lemma wp_deployment resources ee calldata from value nonce sys :
  res_wf resources → input_ok calldata → is_b160 from → is_u256 value →
  wp later (process_deployment memories hooks resources ee calldata from value nonce) sys
    (λ x sys', execution_wf resources (world sys) (txe_resources_returned x) (reverted x) (world sys'))
    any_error.
Proof.
  intros Hr Hc Hf Hv. unfold process_deployment. destruct (_ <? _); [by wp_return|].
  destruct ee; [by split|]. destruct (derive_create_ok (E:=BootloaderSubsystemError) from nonce sys) as (d & Hd & Hb).
  eapply wp_bind_pure; [typeclasses eauto|exact Hd|]. cbv beta.
  eapply (wp_bind_het later (λ _ s', later sys s')); [apply wp_start| |done|done].
  intros h s1 T1 (Hfr & Hm & Hw). cbv beta. rewrite <- Hw.
  eapply (wp_bind_het later (λ _ s', later sys s')); [apply wp_run_loop; by apply initial_request_wf| |done|].
  2:{ intros e s2 T2 _. split; [by etransitivity|done]. }
  intros c s2 T2 [C1 C2 C3]. cbv beta. cbn [available_resources initial_request] in C2.
  eapply (wp_bind_het later (λ _ s', later sys s')); [by apply wp_deployment_outcome| |done|].
  2:{ intros e s3 T3 _. split; [by do 2 (etransitivity; [eassumption|])|done]. }
  intros [[success rv] r] s3 T3 (Hw3 & Hr3 & Hle3 & ->). cbv beta iota.
  eapply (wp_bind_het (λ _ s', later sys s') later).
  { apply (wp_finish _ (negb (negb (failed (ce_result c)))) h sys).
    - do 2 (eapply framed_later; [|by apply later_later_tx]). done.
    - destruct T1, T2, T3. congruence. }
  - intros u s4 _ H4. wp_return. split; [done|by etransitivity|]. cbn [reverted]. intros Hfail.
    rewrite Hfail in H4. by rewrite H4, Hw.
  - intros s4 s5 H4 H5. by etransitivity.
  - by intros e s4 H4 _.
Qed.

(** ** A transaction *)

Definition executed (s : SysState * Res) (r : ExecutionResult) (s' : SysState * Res) : Prop :=
  is_success r = false → world s'.1 = world s.1.

Lemma wp_on_boot {A} (m : PM A) s Q X :
  wp later m s.1 (λ a sys, Q a (sys, s.2)) (λ e sys, X e (sys, s.2)) → wp spends (on_boot m) s Q X.
Proof. apply wp_on_sys. Qed.

Lemma wp_execute t nonce s :
  l2_wf t → tx_size_ok (Z.of_nat (length (buffer t))) → res_wf s.2 →
  wp spends (execute memories hooks (TxRlp t) nonce) s (executed s) any_error.
Proof.
  intros Hwf [Hlen Hlim] Hs. unfold execute. wp_pure. destruct (lw_calldata _ Hwf) as [Hc Hcl].
  assert (input_ok (rtx_calldata t)) as Hb.
  { split; [|lia]. split; [done|destruct usize_cases as [-> | ->]; lia]. }
  eapply (wp_bind _ _ _ _ (λ x s', s'.2 = s.2 ∧ execution_wf s.2 (world s.1) (txe_resources_returned x)
    (reverted x) (world s'.1))).
  { apply wp_on_boot. cbn [is_deployment tx_calldata tx_from tx_value]. destruct (destination t) as [a|] eqn:E.
    - unfold process_call. cbn [tx_calldata tx_from tx_value tx_to]. rewrite E. wp_step.
      + eapply wp_conseq; [apply wp_single_interaction; try done; [by apply lw_from|by eapply lw_to|by apply lw_value]|..].
        * intros ? ? _ H; exact H.
        * done.
      + intros c s1 _ H. by wp_return.
    - eapply wp_conseq; [apply wp_deployment; try done; [by apply lw_from|by apply lw_value]|..]; [|done]. by intros. }
  intros x s1 T1 [E1 [H1 H2 H3]].
  eapply (wp_bind _ _ _ _ (λ _ s2, s2.1 = s1.1)).
  { apply wp_modify; [|done]. split; [done|]. cbn [fst snd]. by rewrite E1. }
  intros u s2 _ Hs2. wp_return. unfold executed, execution_result. rewrite Hs2.
  destruct (reverted x) eqn:Er; [by rewrite H3|]. by repeat case_match.
Qed.
End Calls.
End Exec.
