(* ===== verification/ProcessTx.v ===== *)
(** * Processing a transaction

    Models [basic_bootloader/src/bootloader/process_transaction.rs] for the flow of
    TxFlow.v: L1 and upgrade transactions, L2 transactions with validation, execution
    and the settlement of gas.

    Code with [&mut resources] works on the system and the resources; withheld
    resources and the transaction, which only caches its hash, are passed on as
    values. *)

From stdpp Require Import strings.
From S2P Require Import Prelude Resources U256 SystemInterface BootloaderErrors TxFormats AbiTx.
From S2P Require Import EvmConstants EvmState BootSystem Hooks Runner TxSystem GasHelpers.
From S2P Require Import Transaction TxFlow.

Record ValidationResult : Type := mkValidation {
  validation_pubdata : Z;
  main_native_used_for_pubdata : Z
}.

Section Process.
Context {R : Ruint} {UZ : Usize} {FT : Features} {SYS : System} {EXT : SystemExt} {TX : TxSystem}
  {CFG : ExecutionConfig} {TF : TxFeatures}.
#[local] Existing Instance system_keccak.

Abbreviation TxM := (M (SysState * Res) TxError).
Abbreviation XM := (M (SysState * Res) BootloaderSubsystemError).
Abbreviation PM := (M SysState BootloaderSubsystemError).
Abbreviation SM := (M SysState TxError).

(** A block of code with its own variable [resources]. *)
Definition with_resources {A} (resources : Res) (m : TxM A) : SM A := λ sys,
  let '(o, (sys, _)) := m (sys, resources) in (o, sys).

Definition on_boot_tx {A} (m : PM A) : TxM A := map_err Internal (on_sys m).

Definition do_reclaim_withheld (withheld : Res) : TxM unit :=
  modify (λ s, (s.1, (reclaim_withheld withheld s.2).2)).

Definition require_that {S} (b : bool) (e : InvalidTransaction) : M S TxError unit :=
  when (negb b) (throw (Validation e)).

(** The end of the frame around the execution: what was executed stays if it
    succeeded, and then its pubdata is known. *)
Definition settle_frame (rollback_handle : Snapshot) (r : ExecutionResult) (pubdata_info : Z * Res)
    : TxM (option (Z * Res)) :=
  match r with
  | Success _ => on_boot_tx (finish_global_frame None) ;; mret (Some pubdata_info)
  | RevertResult _ => on_boot_tx (finish_global_frame (Some rollback_handle)) ;; mret None
  end.

(** Out of native resources becomes a revert at the top, and gas is exhausted. *)
Definition revert_if_fatal (rollback_handle : Snapshot) (e : BootloaderSubsystemError) : TxM unit :=
  match bootloader_root_cause e with
  | RootRuntime (FatalRuntime _) =>
      modify (λ s, (s.1, exhaust_ergs s.2)) ;;
      on_boot_tx (finish_global_frame (Some rollback_handle))
  | _ => throw (Internal e)
  end.

(** ** Prices *)

Definition get_gas_price {S} (base_fee max_fee_per_gas : Z) (max_priority_fee_per_gas : option Z)
    : M S TxError Z :=
  let max_priority_fee_per_gas := default max_fee_per_gas max_priority_fee_per_gas in
  require_that (max_priority_fee_per_gas <=? max_fee_per_gas) PriorityFeeGreaterThanMaxFee ;;
  when (negb SIMULATION) (require_that (base_fee <=? max_fee_per_gas) BaseFeeGreaterThanMaxFee) ;;
  let priority_fee_per_gas :=
    Z.min max_priority_fee_per_gas (u_saturating_sub max_fee_per_gas base_fee) in
  mret (Z.min (u_saturating_add base_fee priority_fee_per_gas) max_fee_per_gas).

(** ** L1 transactions *)

Definition mint_value (value from : Z) : XM unit :=
  map_err (λ e, match bootloader_root_cause e with
                | RootRuntime OutOfErgs => SLeafDefect (internal_error "Out of ergs on infinite ergs")
                | _ => e
                end)
    (infinite_ergs (mint_token value from false)).

(** The results: the execution, its pubdata, what to charge for it, and the resources
    before the withheld ones are reclaimed. *)
Definition execute_l1_transaction_and_notify_result (memories : RunnerMemoryBuffers)
    (hooks : HooksStorage) (transaction : AbiEncodedTransaction) (from to value native_per_pubdata : Z)
    (withheld_resources : Res) : XM (ExecutionResult * Z * Res * Res) :=
  modify (λ s, (set_tx_context (mkTxLevel from (pv_value (ab_max_fee_per_gas transaction))) s.1, s.2)) ;;
  rollback_handle ← on_boot start_global_frame;
  when (0 <? value) (mint_value value from) ;;
  resources_for_tx ← gets snd;
  completed ← on_boot (run_single_interaction memories hooks (abi_calldata transaction) from to
    resources_for_tx value false);
  let reverted := failed (ce_result completed) in
  modify (λ s, (s.1, resources_returned completed)) ;;
  on_boot (finish_global_frame (if reverted then Some rollback_handle else None)) ;;
  let returndata := rv_returndata (return_values (ce_result completed)) in
  let execution_result :=
    if reverted then RevertResult returndata else Success (Call returndata) in
  resources_before_refund ← gets snd;
  modify (λ s, (s.1, (reclaim_withheld withheld_resources s.2).2)) ;;
  resources ← gets snd;
  '(enough, to_charge_for_pubdata, pubdata_used) ← on_boot (map_err SLeafDefect
    (check_enough_resources_for_pubdata native_per_pubdata resources None));
  mret (if negb enough then to_reverted execution_result else execution_result,
        pubdata_used, to_charge_for_pubdata, resources_before_refund).

(** The hash, and whether computing it ran out of native. *)
Definition prepare_l1 (transaction : AbiEncodedTransaction) : TxM (list Z * bool) :=
  r ← attempt (on_res (calculate_hash transaction));
  let exhausted :=
    modify (λ s, (s.1, exhaust_ergs s.2)) ;;
    match calculate_hash transaction FORMAL_INFINITE with
    | (Val h, _) => mret (h, true)
    | _ => fault
    end in
  match r with
  | inr h => mret (h, false)
  | inl (Internal e) =>
      match bootloader_root_cause e with
      | RootRuntime _ => exhausted
      | _ => throw (Internal e)
      end
  | inl (Validation _) => exhausted
  end.

Definition execute_l1 (memories : RunnerMemoryBuffers) (hooks : HooksStorage)
    (transaction : AbiEncodedTransaction) (native_per_pubdata : Z) (withheld_resources : Res)
    : TxM (ExecutionResult * option (Z * Res) * Res) :=
  rollback_handle ← on_boot_tx start_global_frame;
  r ← attempt (execute_l1_transaction_and_notify_result memories hooks transaction
    (pv_value (ab_from transaction)) (pv_value (ab_to transaction)) (pv_value (ab_value transaction))
    native_per_pubdata withheld_resources);
  match r with
  | inr (r, pubdata_used, to_charge_for_pubdata, resources_before_refund) =>
      pubdata_info ← settle_frame rollback_handle r (pubdata_used, to_charge_for_pubdata);
      mret (r, pubdata_info, resources_before_refund)
  | inl e => revert_if_fatal rollback_handle e ;; mret (RevertResult [], None, res_empty)
  end.

(** Minting with resources that are formally infinite; the result is what is left. *)
Definition mint_infinite (value to : Z) (inf_resources : Res) : PM Res :=
  '(r, inf_resources) ← local_io inf_resources (mint_token value to SIMULATION);
  match r with
  | inr _ => mret inf_resources
  | inl e =>
      throw match bootloader_root_cause e with
            | RootRuntime OutOfErgs => SLeafDefect (internal_error "Out of ergs on infinite ergs")
            | RootRuntime (FatalRuntime _) => SLeafDefect (internal_error "Out of native on infinite")
            | _ => e
            end
  end.

(** What the recipient of the refund gets of the deposit. *)
Definition l1_refund {S} (is_priority_op : bool) (result : ExecutionResult)
    (total_deposited value pay_to_operator : Z) : M S TxError Z :=
  match result with
  | RevertResult _ =>
      when (negb is_priority_op)
        (throw (tx_error_of_internal (internal_error "Upgrade transaction must succeed"))) ;;
      lift_opt (tx_error_of_internal (internal_error "td-pto"))
        (u_checked_sub total_deposited pay_to_operator)
  | Success _ =>
      value_plus_fee ← lift_opt (tx_error_of_internal (internal_error "v+pto"))
        (u_checked_add value pay_to_operator);
      lift_opt (tx_error_of_internal (internal_error "td-vpf"))
        (u_checked_sub total_deposited value_plus_fee)
  end.

(** Fee to the operator, the rest of the deposit to the refund recipient. *)
Definition mint_l1 (transaction : AbiEncodedTransaction) (is_priority_op : bool)
    (result : ExecutionResult) (total_deposited gas_used : Z) : TxM unit :=
  pay_to_operator ← lift_opt (tx_error_of_internal (internal_error "gu*gp"))
    (u_checked_mul gas_used (pv_value (ab_max_fee_per_gas transaction)));
  coinbase ← gets (λ s, md_coinbase (sys_metadata s.1));
  inf_resources ← on_boot_tx (mint_infinite pay_to_operator coinbase FORMAL_INFINITE);
  to_refund_recipient ← l1_refund is_priority_op result total_deposited
    (pv_value (ab_value transaction)) pay_to_operator;
  when (0 <? to_refund_recipient)
    (refund_recipient ← expect (u256_to_b160_checked (pv_value (ab_reserved_1 transaction)));
     on_boot_tx (mint_infinite to_refund_recipient refund_recipient inf_resources) ;;
     mret tt).

Definition emit_l1_log (tx_hash : list Z) (success is_priority_op : bool) : TxM unit := λ s,
  let '(o, (sys, _)) :=
    sys_io (emit_l1_l2_tx_log NoEE tx_hash success is_priority_op) (s.1, FORMAL_INFINITE) in
  (o, (sys, s.2)).

Definition native_used_since (initial final : Res) : Z := as_u64 (native (diff final initial)).

(** From the resources of the transaction on. *)
Definition run_l1 (memories : RunnerMemoryBuffers) (hooks : HooksStorage)
    (transaction : AbiEncodedTransaction) (is_priority_op : bool)
    (native_per_pubdata native_per_gas total_deposited : Z) (withheld_resources : Res)
    (intrinsic_charged : Z) : TxM TxProcessingResult :=
  let gas_limit := pv_value (ab_gas_limit transaction) in
  initial_resources ← gets snd;
  '(tx_hash, preparation_out_of_resources) ← prepare_l1 transaction;
  '(result, pubdata_info, resources_before_refund) ←
    (if negb preparation_out_of_resources then
       execute_l1 memories hooks transaction native_per_pubdata withheld_resources
     else mret (RevertResult [], None, res_empty));
  '(pubdata_used, to_charge_for_pubdata) ←
    match pubdata_info with
    | Some r => mret r
    | None => map_err tx_error_of_internal
                (on_sys (get_resources_to_charge_for_pubdata native_per_pubdata None))
    end;
  info ← map_err tx_error_of_internal
    (compute_gas_refund to_charge_for_pubdata gas_limit native_per_gas);
  mint_l1 transaction is_priority_op result total_deposited (gas_used info) ;;
  emit_l1_log tx_hash (is_success result) is_priority_op ;;
  mret {|
    tp_result := result;
    tp_tx_hash := tx_hash;
    is_l1_tx := is_priority_op;
    is_upgrade_tx := negb is_priority_op;
    tp_gas_used := gas_used info;
    gas_refunded := evm_refund info;
    computational_native_used :=
      wrap 64 (native_used_since initial_resources resources_before_refund + intrinsic_charged);
    tp_native_used := native_used info;
    pubdata_used := wrap 64 (pubdata_used + L1_TX_INTRINSIC_PUBDATA)
  |}.

Definition l1_native_per_gas (base_fee gas_price : Z) (is_priority_op : bool) : option Z :=
  if is_priority_op then
    if SIMULATION && (gas_price =? 0) then u_div_ceil base_fee L1_TX_NATIVE_PRICE
    else u_div_ceil gas_price L1_TX_NATIVE_PRICE
  else Some UPGRADE_TX_NATIVE_PER_GAS.

Definition process_l1_transaction (memories : RunnerMemoryBuffers) (hooks : HooksStorage)
    (transaction : AbiEncodedTransaction) (is_priority_op : bool) : SM TxProcessingResult :=
  let gas_limit := pv_value (ab_gas_limit transaction) in
  let gas_price := pv_value (ab_max_fee_per_gas transaction) in
  let gas_per_pubdata := pv_value (ab_gas_per_pubdata_limit transaction) in
  base_fee ← gets (λ sys, md_eip1559_basefee (sys_metadata sys));
  native_per_gas ← expect (l1_native_per_gas base_fee gas_price is_priority_op);
  native_per_pubdata ← lift_opt (tx_error_of_internal (internal_error "gpp*npg"))
    (u_checked_mul gas_per_pubdata native_per_gas);
  resources_for_tx ← get_resources_for_tx gas_limit native_per_pubdata native_per_gas
    (abi_calldata transaction) L1_TX_INTRINSIC_L2_GAS L1_TX_INTRINSIC_PUBDATA
    L1_TX_INTRINSIC_NATIVE_COST true;
  tx_internal_cost ← lift_opt (tx_error_of_internal (internal_error "gp*gl"))
    (u_checked_mul gas_price gas_limit);
  let total_deposited := pv_value (ab_reserved_0 transaction) in
  needed_amount ← lift_opt (tx_error_of_internal (internal_error "v+tic"))
    (u_checked_add (pv_value (ab_value transaction)) tx_internal_cost);
  when (negb (needed_amount <=? total_deposited))
    (throw (tx_error_of_internal (internal_error "Deposited amount too low"))) ;;
  with_resources (main_resources resources_for_tx)
    (run_l1 memories hooks transaction is_priority_op native_per_pubdata native_per_gas
       total_deposited (withheld resources_for_tx)
       (intrinsic_computational_native_charged resources_for_tx)).

(** ** L2 transactions *)

(** On the main and the withheld resources; the result is the native used of the main
    ones. *)
Definition charge_for_validation_pubdata_using_withheld (to_charge_for_pubdata : Res)
    : M (Res * Res) SystemError Z :=
  withheld_resources ← gets snd;
  let on_main (m : M Res SystemError unit) : M (Res * Res) SystemError unit :=
    zoom fst (λ r s, (r, s.2)) m in
  let on_withheld (m : M Res SystemError unit) : M (Res * Res) SystemError unit :=
    zoom snd (λ r s, (s.1, r)) m in
  if has_enough withheld_resources to_charge_for_pubdata then
    on_withheld (charge to_charge_for_pubdata) ;;
    mret 0
  else if is_empty withheld_resources then
    on_main (charge to_charge_for_pubdata) ;;
    mret (as_u64 (native to_charge_for_pubdata))
  else
    let to_charge_from_main := diff to_charge_for_pubdata withheld_resources in
    r ← attempt (on_withheld (charge to_charge_for_pubdata));
    match r with
    | inr _ =>
        throw (LeafDefect (internal_error "Withheld should be insufficient, checked above"))
    | inl _ =>
        on_main (charge to_charge_from_main) ;;
        mret (as_u64 (native to_charge_from_main))
    end.

Definition charge_validation_pubdata (withheld_resources to_charge_for_pubdata : Res) : TxM (Z * Res) :=
  λ s,
    match charge_for_validation_pubdata_using_withheld to_charge_for_pubdata
            (s.2, withheld_resources) with
    | (Val n, (r, withheld_resources)) => (Val (n, withheld_resources), (s.1, r))
    | (Err e, (r, _)) => (Err (tx_error_of_system e), (s.1, r))
    | (Fault, (r, _)) => (Fault, (s.1, r))
    end.

Definition transaction_validation (suggested_signed_hash : list Z) (transaction : Transaction)
    (gas_price native_per_pubdata : Z) (caller_ee_type : ExecutionEnvironmentType)
    (caller_is_code : bool) (caller_nonce : Z) (withheld_resources : Res)
    : TxM (ValidationResult * Res) :=
  tx_nonce ← lift_opt (Validation NonceOverflowInTransaction) (u256_try_to_u64 (tx_nonce transaction));
  when (negb SIMULATION) (check_nonce_is_not_used caller_nonce tx_nonce) ;;
  validate suggested_signed_hash transaction caller_ee_type caller_is_code caller_nonce ;;
  when (negb SIMULATION) check_nonce_is_used_after_validation ;;
  pay_for_transaction transaction gas_price (tx_from transaction) caller_ee_type ;;
  '(validation_pubdata, to_charge_for_pubdata) ← map_err tx_error_of_internal
    (on_sys (get_resources_to_charge_for_pubdata native_per_pubdata None));
  '(main_native_used_for_pubdata, withheld_resources) ←
    charge_validation_pubdata withheld_resources to_charge_for_pubdata;
  mret (mkValidation validation_pubdata main_native_used_for_pubdata, withheld_resources).

Definition transaction_execution (memories : RunnerMemoryBuffers) (hooks : HooksStorage)
    (transaction : Transaction) (native_per_pubdata validation_pubdata current_tx_nonce : Z)
    (withheld_resources : Res) : XM (ExecutionResult * Z * Res) :=
  execution_result ← execute memories hooks transaction current_tx_nonce;
  resources ← gets snd;
  let resources_for_check := (reclaim_withheld withheld_resources resources).2 in
  '(has_enough, to_charge_for_pubdata, pubdata_used) ← on_boot (map_err SLeafDefect
    (check_enough_resources_for_pubdata native_per_pubdata resources_for_check
       (Some validation_pubdata)));
  mret (if negb has_enough then to_reverted execution_result else execution_result,
        pubdata_used, to_charge_for_pubdata).

Definition execute_l2 (memories : RunnerMemoryBuffers) (hooks : HooksStorage)
    (transaction : Transaction) (native_per_pubdata validation_pubdata caller_nonce : Z)
    (withheld_resources : Res) : TxM (ExecutionResult * option (Z * Res)) :=
  rollback_handle ← on_boot_tx start_global_frame;
  r ← attempt (transaction_execution memories hooks transaction native_per_pubdata
    validation_pubdata caller_nonce withheld_resources);
  match r with
  | inr (r, pubdata_used, to_charge_for_pubdata) =>
      pubdata_info ← settle_frame rollback_handle r (pubdata_used, to_charge_for_pubdata);
      mret (r, pubdata_info)
  | inl e => revert_if_fatal rollback_handle e ;; mret (RevertResult [], None)
  end.

(** Adding to a balance, with formally infinite resources; the result is what is
    left of them. *)
Definition pay (caller_ee_type : ExecutionEnvironmentType) (recipient amount : Z)
    (overflow : BootloaderInterfaceError) (inf_resources : Res) : PM Res :=
  '(r, inf_resources) ← local_io inf_resources
    (update_account_nominal_token_balance caller_ee_type recipient amount false SIMULATION);
  match r with
  | inr _ => mret inf_resources
  | inl (SCascaded e) => match e with end
  | inl (SLeafUsage InsufficientBalanceError) => fault
  | inl (SLeafUsage BalanceOverflow) => throw (SLeafUsage overflow)
  | inl other => throw (SCascaded (WrappedBalance other))
  end.

Definition internal {S A} (message : string) (o : option A) : M S BootloaderSubsystemError A :=
  lift_opt (SLeafDefect (internal_error message)) o.

Definition refund_transaction_and_pay_operator (transaction : Transaction)
    (from gas_price native_per_gas native_per_pubdata validation_pubdata : Z)
    (caller_ee_type : ExecutionEnvironmentType) (pubdata_info : option (Z * Res))
    : XM (RefundInfo * Z) :=
  '(total_pubdata_used, to_charge_for_pubdata) ←
    match pubdata_info with
    | Some (net_execution_pubdata, to_charge) =>
        mret (wrap 64 (net_execution_pubdata + validation_pubdata), to_charge)
    | None =>
        '(execution_pubdata_spent, to_charge_for_pubdata) ← on_boot (map_err SLeafDefect
          (get_resources_to_charge_for_pubdata native_per_pubdata (Some validation_pubdata)));
        mret (wrap 64 (execution_pubdata_spent + validation_pubdata), to_charge_for_pubdata)
    end;
  refund_info ← map_err SLeafDefect
    (compute_gas_refund to_charge_for_pubdata (tx_gas_limit transaction) native_per_gas);
  token_to_refund ← internal "tgf*gp" (u_checked_mul (gas_refund refund_info) gas_price);
  base_fee ← gets (λ s, md_eip1559_basefee (sys_metadata s.1));
  gas_price_for_operator ←
    (if burn_base_fee then internal "Gas_price - base_fee underflow" (u_checked_sub gas_price base_fee)
     else mret gas_price);
  token_to_pay_operator ← internal "gu*gpfo"
    (u_checked_mul (gas_used refund_info) gas_price_for_operator);
  inf_resources ← on_boot (pay caller_ee_type from token_to_refund CantPayRefundOverflow FORMAL_INFINITE);
  coinbase ← gets (λ s, md_coinbase (sys_metadata s.1));
  on_boot (pay caller_ee_type coinbase token_to_pay_operator CantPayOperatorOverflow inf_resources) ;;
  mret (refund_info, total_pubdata_used).

(** Whether the caller has code, its environment, and its nonce. *)
Definition read_caller (from : Z) : TxM (bool * ExecutionEnvironmentType * Z) :=
  account_data ← sys_io (infinite_ergs (read_account_properties NoEE from
    [WithEeVersion; WithNonce; WithArtifactsLen; WithUnpaddedCodeLen; WithIsDelegated]));
  ee ← map_err tx_error_of_internal (λ s, (parse_ee_version_byte (ad_ee_version account_data), s));
  mret (is_contract account_data, ee, ad_nonce account_data).

(** The hash, and the transaction that has stored it. *)
Definition hash_transaction (transaction : Transaction) : TxM (list Z * Transaction) := λ s,
  let '(o, (transaction, r)) := transaction_hash (transaction, s.2) in
  (match o with Val h => Val (h, transaction) | Err e => Err e | Fault => Fault end, (s.1, r)).

(** What comes before the execution. *)
Definition prepare_l2 (transaction : Transaction) (gas_price native_per_pubdata : Z)
    (withheld_resources : Res)
    : TxM (ExecutionEnvironmentType * Z * list Z * Transaction * ValidationResult * Res) :=
  let from := tx_from transaction in
  '(caller_is_code, caller_ee_type, caller_nonce) ← read_caller from;
  charge_additional_intrinsic_gas transaction ;;
  modify (λ s, (set_tx_context (mkTxLevel from gas_price) s.1, s.2)) ;;
  parse_and_warm_up_access_list transaction ;;
  '(tx_hash, transaction) ← hash_transaction transaction;
  on_res (charge_keccak (tx_len transaction)) ;;
  suggested_signed_hash ← signed_hash transaction;
  '(v, withheld_resources) ← transaction_validation suggested_signed_hash transaction gas_price
    native_per_pubdata caller_ee_type caller_is_code caller_nonce withheld_resources;
  mret (caller_ee_type, caller_nonce, tx_hash, transaction, v, withheld_resources).

(** From the resources of the transaction on. *)
Definition run_l2 (memories : RunnerMemoryBuffers) (hooks : HooksStorage)
    (transaction : Transaction) (gas_price native_per_pubdata native_per_gas : Z)
    (withheld_resources : Res) (intrinsic_charged : Z) : TxM TxProcessingResult :=
  let from := tx_from transaction in
  initial_resources ← gets snd;
  '(caller_ee_type, caller_nonce, tx_hash, transaction, v, withheld_resources) ←
    prepare_l2 transaction gas_price native_per_pubdata withheld_resources;
  when eip_7702
    match tx_authorization_list transaction with
    | Some authorization_list => parse_authorization_list_and_apply_delegations authorization_list
    | None => mret tt
    end ;;
  '(result, pubdata_info) ← execute_l2 memories hooks transaction native_per_pubdata
    (validation_pubdata v) caller_nonce withheld_resources;
  resources_before_refund ← gets snd;
  do_reclaim_withheld withheld_resources ;;
  '(info, pubdata_used) ← map_err Internal (refund_transaction_and_pay_operator transaction from
    gas_price native_per_gas native_per_pubdata (validation_pubdata v) caller_ee_type pubdata_info);
  mret {|
    tp_result := result;
    tp_tx_hash := tx_hash;
    is_l1_tx := false;
    is_upgrade_tx := false;
    tp_gas_used := gas_used info;
    gas_refunded := evm_refund info;
    computational_native_used :=
      wrap 64 (wrap 64 (native_used_since initial_resources resources_before_refund
                        + intrinsic_charged) - main_native_used_for_pubdata v);
    tp_native_used := native_used info;
    pubdata_used := wrap 64 (pubdata_used + L2_TX_INTRINSIC_PUBDATA)
  |}.

Definition l2_native_per_gas (base_fee gas_price native_price : Z) : option Z :=
  if resources_for_tester then Some TESTER_NATIVE_PER_GAS
  else if SIMULATION && (gas_price =? 0) then u_div_ceil base_fee native_price
  else u_div_ceil gas_price native_price.

Definition process_l2_transaction (memories : RunnerMemoryBuffers) (hooks : HooksStorage)
    (transaction : Transaction) : SM TxProcessingResult :=
  let gas_limit := tx_gas_limit transaction in
  md ← gets sys_metadata;
  require_that (md_block_gas_limit md <=? MAX_BLOCK_GAS_LIMIT) BlockGasLimitTooHigh ;;
  require_that (gas_limit <=? md_block_gas_limit md) CallerGasLimitMoreThanBlock ;;
  gas_price ← get_gas_price (md_eip1559_basefee md) (tx_max_fee_per_gas transaction)
    (tx_max_priority_fee_per_gas transaction);
  when (md_native_price md =? 0)
    (throw (tx_error_of_internal (internal_error "Native price cannot be 0"))) ;;
  native_per_gas ← expect (l2_native_per_gas (md_eip1559_basefee md) gas_price (md_native_price md));
  native_per_pubdata ← expect (u_wrapping_div (md_pubdata_price md) (md_native_price md));
  resources_for_tx ← get_resources_for_tx gas_limit native_per_pubdata native_per_gas
    (tx_calldata transaction) L2_TX_INTRINSIC_GAS L2_TX_INTRINSIC_PUBDATA
    L2_TX_INTRINSIC_NATIVE_COST false;
  with_resources (main_resources resources_for_tx)
    (run_l2 memories hooks transaction gas_price native_per_pubdata native_per_gas
       (withheld resources_for_tx) (intrinsic_computational_native_charged resources_for_tx)).

(** ** Any transaction *)

Definition process_transaction (initial_calldata_buffer : list Z) (memories : RunnerMemoryBuffers)
    (hooks : HooksStorage) (is_first_tx : bool) : SM TxProcessingResult :=
  transaction ← try_from_buffer initial_calldata_buffer;
  match transaction with
  | TxAbi zk_tx =>
      if is_upgrade transaction then
        if negb is_first_tx then throw (Validation UpgradeTxNotFirst)
        else process_l1_transaction memories hooks zk_tx false
      else if is_l1_l2 transaction then process_l1_transaction memories hooks zk_tx true
      else process_l2_transaction memories hooks transaction
  | TxRlp _ => process_l2_transaction memories hooks transaction
  end.
End Process.
