(* ===== verification/SettleTheorems.v ===== *)
(** * Settling a transaction

    The frame around an execution, the charges for pubdata, and the credits of fees
    and refunds: the parts that L1 and L2 transactions share. *)

From stdpp Require Import strings.
From S2P Require Import Prelude Resources U256 SystemInterface BootloaderErrors TxFormats.
From S2P Require Import EvmConstants Gas EvmState EvmLogic BootSystem IoLogic Hooks Runner RunnerTheorems TxSystem.
From S2P Require Import GasHelpers GasTheorems Transaction TxWellFormed TxWp TxFlow FlowTheorems ExecTheorems ProcessTx.

(** The relation of code inside a frame opened in [s0]. *)
Abbreviation within s0 := (λ _ s', moves s0 s').

Section Settle.
Context {R : Ruint} {RS : RuintSpec} {UZ : Usize} {FT : Features} {SYS : System}
  {LAWS : SystemLaws} {EXT : SystemExt} {XLAWS : SystemExtLaws} {TX : TxSystem} {TLAWS : TxSystemLaws}
  {CFG : ExecutionConfig} {TF : TxFeatures}.
#[local] Existing Instance system_keccak.

Definition is_internal (e : TxError) : Prop := match e with Internal _ => True | Validation _ => False end.

(** [s'] is inside the frame [h] opened in [s]. *)
Definition inside (h : Snapshot) (s s' : SysState * Res) : Prop := framed h s.1 s'.1 ∧ moves s s'.

Lemma inside_moves h s s1 s2 : inside h s s1 → moves s1 s2 → inside h s s2.
Proof.
  intros [H1 H2] H3. split; [|by etransitivity]. eapply framed_later; [done|apply H3].
Qed.

Lemma wp_open {E} (f : InternalError → E) s :
  wp moves (on_sys (map_err f start_io_frame)) s
    (λ h s', inside h s s' ∧ world s'.1 = world s.1 ∧ s'.2 = s.2) (λ e _, ∃ i, e = f i).
Proof.
  destruct (wp_start f s.1) as [H1 H2]. unfold wpf, on_sys, zoom.
  destruct (map_err f start_io_frame s.1) as [[h|e|] sys]; cbn in *; [| |done].
  - assert (moves s (sys, s.2)) as Hm by (split; [by apply later_later_tx|done]). by destruct H2 as (? & _ & ?).
  - split; [split; [by apply later_later_tx|done]|done].
Qed.

Lemma wp_close {E} (f : InternalError → E) (back : bool) h s0 s :
  inside h s0 s →
  wp (within s0) (on_sys (map_err f (finish_io_frame (if back then Some h else None)))) s
    (λ _ s', world s'.1 = (if back then world s0.1 else world s.1) ∧ s'.2 = s.2) (λ e _, ∃ i, e = f i).
Proof.
  intros [Hf (M1 & M2 & M3)]. unfold wpf, on_sys, zoom. destruct back.
  - destruct (wp_roll_back f h s0.1 s.1 Hf) as [[H1 _] H2].
    destruct (map_err f (finish_io_frame (Some h)) s.1) as [[a|e|] sys]; cbn in *; [..|done]; by split; [split|].
  - destruct (wp_keep f s.1) as [H1%later_later_tx H2].
    destruct (map_err f (finish_io_frame None) s.1) as [[a|e|] sys]; cbn in *; [..|done];
      (split; [split; [by transitivity s.1|done]|done]).
Qed.

Lemma wp_close_tx (back : bool) h s0 s :
  inside h s0 s →
  wp (within s0) (on_boot_tx (finish_global_frame (if back then Some h else None))) s
    (λ _ s', world s'.1 = (if back then world s0.1 else world s.1) ∧ s'.2 = s.2) (λ e _, is_internal e).
Proof.
  intros Hi. apply wp_map_err. eapply wp_conseq; [apply (wp_close _ back h); exact Hi|done|done].
Qed.

Lemma wp_open_tx s :
  wp moves (on_boot_tx start_global_frame) s
    (λ h s', inside h s s' ∧ world s'.1 = world s.1 ∧ s'.2 = s.2) (λ e _, is_internal e).
Proof. apply wp_map_err. eapply wp_conseq; [apply wp_open|done|done]. Qed.

(** Sequencing inside a frame. *)
Lemma wp_bind_within {E A B} s0 (m : M (SysState * Res) E A) (k : A → M (SysState * Res) E B) s Q1 X1 Q X :
  moves s0 s → wp moves m s Q1 X1 → (∀ a s1, moves s s1 → Q1 a s1 → wp (within s0) (k a) s1 Q X) →
  (∀ e s1, X1 e s1 → X e s1) → wp (within s0) (m ≫= k) s Q X.
Proof.
  intros H0 Hm Hk HX. eapply wp_bind_het; [exact Hm|exact Hk|done|].
  intros e s1 HT H1. split; [by etransitivity|auto].
Qed.

(** Leaving a frame. *)
Lemma wp_bind_leave {E A B} s0 (m : M (SysState * Res) E A) (k : A → M (SysState * Res) E B) s Q1 X1 Q X :
  wp (within s0) m s Q1 X1 → (∀ a s1, moves s0 s1 → Q1 a s1 → wp moves (k a) s1 Q X) →
  (∀ e s1, X1 e s1 → X e s1) → wp (within s0) (m ≫= k) s Q X.
Proof.
  intros Hm Hk HX. eapply wp_bind_het; [exact Hm|exact Hk| |].
  - cbv beta. intros s1 s2 H1 H2. by transitivity s1.
  - auto.
Qed.

Lemma wp_settle h s0 r info s :
  inside h s0 s →
  wp (within s0) (settle_frame h r info) s
    (λ o s', o = (if is_success r then Some info else None) ∧ s'.2 = s.2
       ∧ world s'.1 = if is_success r then world s.1 else world s0.1)
    (λ e _, is_internal e).
Proof.
  intros Hi. unfold settle_frame. destruct r as [o|o].
  - eapply wp_bind_leave; [apply (wp_close_tx false h); exact Hi| |done].
    intros u s1 _ [H1 H2]. by wp_return.
  - eapply wp_bind_leave; [apply (wp_close_tx true h); exact Hi| |done].
    intros u s1 _ [H1 H2]. by wp_return.
Qed.

Lemma exhaust_moves (s : SysState * Res) : res_wf s.2 → moves s (s.1, exhaust_ergs s.2).
Proof. intros [[H0 H1] H2]. split; [done|]. split; [done|]. intros _. split; [by unfold in_width|done]. Qed.

Lemma wp_revert_if_fatal h s0 e s :
  inside h s0 s → res_wf s.2 →
  wp (within s0) (revert_if_fatal h e) s (λ _ s', world s'.1 = world s0.1 ∧ res_wf s'.2)
    (λ e _, is_internal e).
Proof.
  intros Hi Hs. unfold revert_if_fatal. pose proof (exhaust_moves s Hs) as Hx.
  destruct (bootloader_root_cause e) as [[f|]| |]; try (split; [apply Hi|done]).
  eapply (wp_bind_within s0); [apply Hi|apply (wp_modify _ _ _ (λ _ s', s' = (s.1, exhaust_ergs s.2))); [exact Hx|reflexivity]| |]; [|intros e' s1 H; exact H].
  intros u s1 M1 ->.
  eapply wp_conseq; [apply (wp_close_tx true h); by eapply inside_moves|..]; cbv beta; [|done].
  intros v s2 _ [H1 H2]. split; [done|]. rewrite H2. by apply M1.
Qed.

(** ** Pubdata *)

Lemma wp_pubdata per base sys :
  is_u256 per →
  wp later (get_resources_to_charge_for_pubdata per base) sys
    (λ '(used, c) sys', sys' = sys ∧ e_left c = 0 ∧ res_wf c) (λ _ _, True).
Proof.
  intros Hp. unfold wpf, get_resources_to_charge_for_pubdata. rewrite tl_pubdata.
  pose proof (tl_pubdata_range (world sys)) as Hn. destruct (net_pubdata (world sys)) as [n|e|]; [|done|done].
  unfold checked_mul. destruct (checked 64 _) as [c|] eqn:E; [|done].
  apply checked_Some in E as [<- Hc]. cbn [fst snd]. split; [done|]. split_conj; [done..|]. split; [by unfold in_width|done].
Qed.

Lemma wp_pubdata_tx per base s :
  is_u256 per →
  wp moves (map_err tx_error_of_internal (on_sys (get_resources_to_charge_for_pubdata per base))) s
    (λ '(used, c) s', s' = s ∧ e_left c = 0 ∧ res_wf c) (λ e _, is_internal e).
Proof.
  intros Hp. apply wp_map_err, (wp_weaken spends); [apply spends_moves|]. apply wp_on_sys.
  eapply wp_conseq; [by apply wp_pubdata|..]; [|done]. intros [u c] s1 _ (-> & H). by destruct s.
Qed.

Lemma wp_pubdata_boot per base s :
  is_u256 per →
  wp moves (on_boot (map_err SLeafDefect (get_resources_to_charge_for_pubdata per base))) s
    (λ '(used, c) s', s' = s ∧ e_left c = 0 ∧ res_wf c) (λ _ _, True).
Proof.
  intros Hp. apply (wp_weaken spends); [apply spends_moves|]. apply wp_on_boot, wp_map_err.
  eapply wp_conseq; [by apply wp_pubdata|..]; [|done]. intros [u c] s1 _ (-> & H). by destruct s.
Qed.

Lemma wp_enough_boot per r base s :
  is_u256 per →
  wp moves (on_boot (map_err SLeafDefect (check_enough_resources_for_pubdata per r base))) s
    (λ '(enough, c, used) s', s' = s ∧ e_left c = 0 ∧ res_wf c) (λ _ _, True).
Proof.
  intros Hp. apply (wp_weaken spends); [apply spends_moves|]. apply wp_on_boot, wp_map_err.
  unfold check_enough_resources_for_pubdata. wp_step.
  - eapply wp_conseq; [by apply wp_pubdata|intros ? ? _ H; exact H|done].
  - intros [u c] s1 _ (-> & H). wp_return. by destruct s.
Qed.

(** What was withheld is given back. *)
Lemma reclaim_keeps (w r : Res) :
  e_left w = 0 → res_wf r → e_left (reclaim_withheld w r).2 = e_left r ∧ res_wf (reclaim_withheld w r).2.
Proof.
  intros Hw [He Hn]. destruct w as [[we] [wn]], r as [[e] [n]]. unfold e_left, n_left in *. cbn in *. subst we.
  erewrite Base_reclaim_withheld_run by reflexivity. cbn -[wrap]. rewrite Z.add_0_r, wrap_small by done.
  split; [done|]. split; [done|]. apply wrap_in_width. lia.
Qed.

Lemma reclaim_moves w (s : SysState * Res) :
  e_left w = 0 → res_wf s.2 → moves s (s.1, (reclaim_withheld w s.2).2).
Proof.
  intros Hw Hs. destruct (reclaim_keeps w s.2 Hw Hs) as [H1 H2]. split; [done|]. split; [|done]. cbn [snd]. lia.
Qed.

(** ** Credits *)

Definition credited (a v : Z) (w w' : World) : Prop :=
  is_u256 (balance w a + v) ∧ w' = set_balance SIMULATION a (balance w a + v) w.

Lemma wp_local_run {A E} r (m : M (SysState * Res) E A) sys Q X :
  res_wf r → wp spends m (sys, r) Q X →
  wp later (local_io r m) sys
    (λ '(x, r') sys', res_wf r' ∧ match x with inr a => Q a (sys', r') | inl e => X e (sys', r') end)
    (λ (e : BootloaderSubsystemError) _, False).
Proof.
  intros Hr [(H1 & _ & H3) H2]. unfold wpf, local_io.
  destruct (m (sys, r)) as [[a|e|] [sys' r']]; cbn in *; [..|done]; (split; [done|]); split; auto.
Qed.

Lemma infinite_wf : res_wf (FORMAL_INFINITE : Res).
Proof. by split; unfold in_width. Qed.

Lemma wp_pay_out ee a v overflow r sys :
  res_wf r → is_u256 v →
  wp later (pay ee a v overflow r) sys
    (λ r' sys', res_wf r' ∧ credited a v (world sys) (world sys')) (λ _ _, True).
Proof.
  intros Hr Hv. unfold pay. wp_step.
  { eapply wp_conseq; [apply wp_local_run; [done|apply (wp_update ee a v false SIMULATION (sys, r)); done]|..].
    - intros x s1 _ H. exact H.
    - done. }
  intros [[e|old] r'] s1 _ [Hr' H]; cbv beta iota.
  - destruct e as [[]|e|e|[]]; try by wp_fail. by destruct H.
  - wp_return. split; [done|]. apply H.
Qed.

Lemma wp_mint a v sim s :
  res_wf s.2 → is_u256 v →
  wp spends (mint_token v a sim) s
    (λ _ s', is_u256 (balance (world s.1) a + v)
       ∧ world s'.1 = set_balance sim a (balance (world s.1) a + v) (world s.1)) (λ _ _, True).
Proof.
  intros Hs Hv. unfold mint_token. wp_step.
  - apply wp_map_err. eapply wp_conseq; [by apply wp_update|..]; [intros ? ? _ H; exact H|done].
  - intros old s1 _ (_ & Hr & H). by wp_return.
Qed.

Lemma wp_mint_infinite a v r sys :
  res_wf r → is_u256 v →
  wp later (mint_infinite v a r) sys
    (λ r' sys', res_wf r' ∧ credited a v (world sys) (world sys')) (λ _ _, True).
Proof.
  intros Hr Hv. unfold mint_infinite. wp_step.
  { eapply wp_conseq; [apply wp_local_run; [done|apply (wp_mint a v SIMULATION (sys, r)); done]|..].
    - intros x s1 _ H. exact H.
    - done. }
  intros [[e|u] r'] s1 _ [Hr' H]; cbv beta iota; [by wp_fail|]. by wp_return.
Qed.

(** ** The settlement of an L2 transaction *)

(** What the operator gets for a unit of gas. *)
Definition operator_price (base_fee price : Z) : Z := if burn_base_fee then price - base_fee else price.

Definition settled (md : Metadata) (price from gas_limit used : Z) (w w' : World) : Prop :=
  ∃ w1, credited from (price * (gas_limit - used)) w w1
    ∧ credited (md_coinbase md) (operator_price (md_eip1559_basefee md) price * used) w1 w'.

Lemma later_block s s' :
  later_tx s s' → md_coinbase (sys_metadata s') = md_coinbase (sys_metadata s)
    ∧ md_eip1559_basefee (sys_metadata s') = md_eip1559_basefee (sys_metadata s).
Proof. by intros [[t ->] _]. Qed.

Section Refund.
Variables (t : RlpEncodedTransaction) (price native_per_gas native_per_pubdata : Z).
Hypothesis limit_ok : 0 ≤ rtx_gas_limit t < 2 ^ 62.
Hypothesis price_ok : is_u256 price.
Hypothesis per_gas_ok : is_u256 native_per_gas.
Hypothesis per_pubdata_ok : is_u256 native_per_pubdata.

Definition info_ok (info : option (Z * Res)) : Prop :=
  match info with Some (_, c) => e_left c = 0 | None => True end.

Lemma wp_gas_refund c s :
  e_left c = 0 → res_wf s.2 → e_left s.2 ≤ rtx_gas_limit t * ERGS_PER_GAS →
  wp moves (map_err SLeafDefect (compute_gas_refund c (rtx_gas_limit t) native_per_gas)) s
    (λ info s', s'.1 = s.1
       ∧ refund_exact (rtx_gas_limit t) native_per_gas c s.2 (get_refund_counter s.1) info)
    (λ (_ : BootloaderSubsystemError) _, True).
Proof.
  intros Hc Hs Hle. apply wp_map_err. destruct s as [sys r].
  destruct (gas_refund_spec (rtx_gas_limit t) native_per_gas c limit_ok per_gas_ok Hc sys r Hs Hle
    (tl_refunds sys)) as (info & r' & Hrun & Hx & He & Hwf).
  unfold wpf. rewrite Hrun. split; [|done]. split; [done|]. split; [|done]. cbn [snd] in *. rewrite He.
  destruct Hs as [[] _]. done.
Qed.

Lemma wp_refund_and_pay from ee vp info s :
  info_ok info → res_wf s.2 → e_left s.2 ≤ rtx_gas_limit t * ERGS_PER_GAS →
  wp moves (refund_transaction_and_pay_operator (TxRlp t) from price native_per_gas native_per_pubdata
              vp ee info) s
    (λ '(i, _) s', gas_used i + gas_refund i = rtx_gas_limit t ∧ 0 ≤ gas_used i ≤ rtx_gas_limit t
       ∧ settled (sys_metadata s.1) price from (rtx_gas_limit t) (gas_used i) (world s.1) (world s'.1)
       ∧ (burn_base_fee = true → md_eip1559_basefee (sys_metadata s.1) ≤ price))
    (λ _ _, True).
Proof.
  intros Hi Hs Hle. unfold refund_transaction_and_pay_operator. cbn [tx_gas_limit].
  eapply (wp_bind _ _ _ _ (λ '(p, c) s', e_left c = 0 ∧ s' = s)).
  { destruct info as [[p c]|]; [by wp_return|]. wp_step; [by apply wp_pubdata_boot|].
    intros [p c] s1 _ (-> & H & _). by wp_return. }
  intros [p c] s' _ [Hc ->]. cbv beta iota. wp_step; [by apply wp_gas_refund|].
  intros i s1 M1 [E1 Hx]. pose proof (rx_total _ _ _ _ _ _ Hx) as Hsum. pose proof (rx_ranges _ _ _ _ _ _ Hx) as Hrg.
  clear Hx.
  unfold internal. wp_step.
  { apply (wp_lift_opt _ _ _ _ (λ x s', x = price * (rtx_gas_limit t - gas_used i) ∧ is_u256 x ∧ s' = s1)); [done|].
    rewrite u_checked_mul_spec by (unfold in_width in *; lia). intros x [<- Hx]%checked_Some.
    split_conj; [lia|done..]. }
  intros x s' _ (Hx & Hx' & ->). wp_pure.
  eapply (wp_bind _ _ _ _ (λ p s', p = operator_price (md_eip1559_basefee (sys_metadata s.1)) price ∧ is_u256 p
    ∧ (burn_base_fee = true → md_eip1559_basefee (sys_metadata s.1) ≤ price) ∧ s' = s1)).
  { rewrite E1. pose proof (mo_basefee _ (sl_metadata s.1)) as Hbf. unfold operator_price. destruct burn_base_fee; [|by wp_return].
    apply wp_lift_opt; [typeclasses eauto|done|]. rewrite u_checked_sub_spec by done.
    intros q [<- Hq]%checked_Some. split_conj; try done. unfold in_width in *. lia. }
  intros q s' _ (Hq & Hq' & Hb & ->). wp_step.
  { apply (wp_lift_opt _ _ _ _ (λ y s', y = q * gas_used i ∧ is_u256 y ∧ s' = s1)); [done|].
    rewrite u_checked_mul_spec by (unfold in_width in *; lia). intros y [<- Hy]%checked_Some.
    split_conj; [lia|done..]. }
  intros y s' _ (Hy & Hy' & ->).
  assert (∀ ee a v o r s, res_wf r → is_u256 v → wp moves (on_boot (pay ee a v o r)) s
    (λ r' s', res_wf r' ∧ credited a v (world s.1) (world s'.1)) (λ _ _, True)) as Hpay.
  { intros. apply (wp_weaken spends); [apply spends_moves|]. by apply wp_on_boot, wp_pay_out. }
  wp_step; [apply Hpay; [apply infinite_wf|done]|]. intros r2 s2 M2 [Hr2 Hw2]. wp_pure.
  destruct (later_block s1.1 s2.1) as [-> _]; [apply M2|].
  wp_step; [by apply Hpay|]. intros r3 s3 M3 [_ Hw3]. wp_return. split_conj; try done; try lia.
  exists (world s2.1). rewrite <- Hq, <- Hy, <- Hx, <- E1. done.
Qed.
End Refund.
End Settle.
