(* ===== verification/L2Theorems.v ===== *)
(** * L2 transactions

    What processing an L2 transaction does to the accounts, whatever it executes, and
    why one is rejected. *)

From stdpp Require Import strings.
From S2P Require Import Prelude Resources U256 SystemInterface BootloaderErrors RlpParser TxFormats.
From S2P Require Import EvmConstants Gas EvmState EvmLogic BootSystem IoLogic Hooks HookTheorems Runner RunnerTheorems TxSystem.
From S2P Require Import GasHelpers GasTheorems Transaction TxWellFormed TxWp TxFlow FlowTheorems ListTheorems.
From S2P Require Import ExecTheorems ProcessTx SettleTheorems.

Lemma ceil_range a b : is_u256 a → is_u256 b → b ≠ 0 → is_u256 ((a + b - 1) / b).
Proof.
  unfold in_width. intros [H1 H2] [H3 H4] H5. split; [apply Z.div_pos; lia|].
  apply Z.div_lt_upper_bound; [lia|]. nia.
Qed.

Lemma quotient_range a b : is_u256 a → is_u256 b → b ≠ 0 → is_u256 (a / b).
Proof.
  unfold in_width. intros [H1 H2] [H3 H4] H5. split; [apply Z.div_pos; lia|].
  apply Z.div_lt_upper_bound; [lia|]. nia.
Qed.

Section L2.
Context {R : Ruint} {RS : RuintSpec} {UZ : Usize} {FT : Features} {SYS : System}
  {LAWS : SystemLaws} {EXT : SystemExt} {XLAWS : SystemExtLaws} {IL : InputLimit} {TX : TxSystem} {TLAWS : TxSystemLaws}
  {CFG : ExecutionConfig} {TF : TxFeatures}.
#[local] Existing Instance system_keccak.

Variables (memories : RunnerMemoryBuffers) (hooks : HooksStorage).
Hypothesis hooks_wf : hooks_ok hooks.
Hypothesis heaps_ok : buffer_ok (heaps memories).
Hypothesis return_ok : buffer_ok (return_data memories).

Lemma wp_spends {E A} (m : M (SysState * Res) E A) s Q X : wp spends m s Q X → wp moves m s Q X.
Proof. apply wp_weaken, spends_moves. Qed.

Section Tx.
Variable md : Metadata.
Variable t : RlpEncodedTransaction.
Hypothesis wf : l2_wf t.
Hypothesis size_ok : tx_size_ok (Z.of_nat (length (buffer t))).

Abbreviation from := (from_ t).

Lemma wp_read_caller s :
  res_wf s.2 →
  wp spends (read_caller from) s
    (λ '(is_code, ee, n) s', is_code = has_code (world s.1) from ∧ n = nonce (world s.1) from
       ∧ world s'.1 = world s.1)
    (rejected md t (world s.1)).
Proof.
  intros Hs. unfold read_caller. wp_step.
  { apply wp_sys_io. eapply wp_conseq; [by apply wp_read_infinite|intros ? ? _ H; exact H|].
    intros e s1 _ _. apply system_error_rejected. }
  intros x s1 _ [(_ & Hn & _ & Hc) Hw]. rewrite Hn, Hc by (apply list_elem_of_In; cbn; tauto). wp_step.
  { apply wp_map_err. apply (wp_conseq _ _ _ (λ _ s', s' = s1) _ (λ _ _, True)); [|intros ? ? _ H; exact H|done].
    unfold wpf, parse_ee_version_byte. cbn. by repeat case_match. }
  intros ee s2 _ ->. by wp_return.
Qed.

Lemma wp_charge_ergs gas s :
  res_wf s.2 → is_u64 gas →
  wp spends (charge_intrinsic_ergs gas) s (λ _ s', s'.1 = s.1) (rejected md t (world s.1)).
Proof.
  intros Hs Hg. apply wp_map_err, wp_charge; [done| |done|].
  - split; [|by unfold in_width]. unfold e_left, saturating_mul, umax, in_width in *. cbn -[Z.min Z.mul].
    change ERGS_PER_GAS with 256. lia.
  - intros e r. apply resource_rejected. unfold oon_as_validation. by repeat case_match.
Qed.

Lemma wp_additional s :
  res_wf s.2 →
  wp spends (charge_additional_intrinsic_gas (TxRlp t)) s (λ _ s', s'.1 = s.1) (rejected md t (world s.1)).
Proof.
  intros Hs. unfold charge_additional_intrinsic_gas.
  eapply (wp_bind _ _ _ _ (λ _ s', s'.1 = s.1)).
  { cbn [is_deployment tx_calldata]. destruct (destination t) as [a|] eqn:E; [by wp_return|].
    destruct (Z.ltb_spec MAX_INITCODE_SIZE (Z.of_nat (length (rtx_calldata t)))).
    - by wp_fail.
    - apply wp_charge_ergs; [done|]. apply wrap_in_width. lia. }
  intros u s1 T1 E1. rewrite <- E1. assert (res_wf s1.2) as Hs1 by (by apply T1).
  apply wp_when; [typeclasses eauto|intros _|done].
  eapply (wp_bind _ _ _ _ (λ n s', s' = s1 ∧ is_u64 n)).
  { cbn [tx_authorization_list]. destruct (authorization_list t) as [l|] eqn:E; [|by wp_return].
    destruct (lw_auths _ wf l E) as (items & _ & _ & Hc & Hl).
    eapply wp_expect; [typeclasses eauto|exact Hc|]. split; [done|]. unfold in_width. lia. }
  intros n s' _ [-> Hn]. apply wp_charge_ergs; [done|].
  unfold saturating_mul, umax, in_width in *. change GAS_NEWACCOUNT with 25000. lia.
Qed.

Lemma wp_context price s :
  is_u256 price →
  wp moves (modify (λ s, (set_tx_context (mkTxLevel from price) s.1, s.2))) s
    (λ _ s', world s'.1 = world s.1) (rejected md t (world s.1)).
Proof.
  intros Hp. pose proof (lw_from _ wf) as Hf. apply wp_modify; [|apply tl_context_world].
  split; [|done]. cbn [fst]. split; [|by intros k; apply tl_context_alive].
  eexists. by apply tl_context.
Qed.

(** The transaction with its hash. *)
Definition hashed : RlpEncodedTransaction :=
  mkRlpEncodedTransaction (buffer t) (inner t) (chain_id_ t) (sig_hash t) (Some (Keccak256 (buffer t))) (from_ t).

Lemma wp_hash s :
  tx_hash t = None → res_wf s.2 →
  wp spends (hash_transaction (TxRlp t)) s
    (λ '(h, x) s', h = Keccak256 (buffer t) ∧ x = TxRlp hashed ∧ s'.1 = s.1) (rejected md t (world s.1)).
Proof.
  intros Hh Hs. pose proof (wp_charge_keccak (Z.of_nat (length (buffer t))) s Hs) as [H1 H2].
  unfold wpf, hash_transaction, transaction_hash, rtx_transaction_hash, on_res, zoom, mbind, M_bind, gets in *.
  cbn [fst snd]. rewrite Hh. cbn [fst snd].
  destruct (charge_keccak _ s.2) as [[a|e|] r]; cbn in *; [done| |done].
  split; [done|]. by apply resource_rejected.
Qed.

(** ** Validation *)

Lemma diff_wf (a b : Res) : res_wf a → res_wf b → res_wf (diff a b).
Proof.
  intros [[] []] [[] []]. unfold res_wf, in_width, e_left, n_left in *. cbn -[Z.abs Z.sub Z.pow] in *. lia.
Qed.

Lemma wp_validation_pubdata wh c s :
  res_wf s.2 → res_wf wh → e_left wh = 0 → res_wf c →
  wp moves (charge_validation_pubdata wh c) s
    (λ '(_, wh') s', s'.1 = s.1 ∧ e_left wh' = 0 ∧ res_wf wh') (λ e _, resource_error e).
Proof.
  intros Hs Hw Hw0 Hc. pose proof (diff_wf c wh Hc Hw) as Hd.
  destruct (charge_le wh c Hw Hc) as [W1 [W2 _]], (charge_le s.2 c Hs Hc) as [C1 [C2 _]].
  destruct (charge_le s.2 (diff c wh) Hs Hd) as [D1 [D2 _]].
  pose proof (charge_no_fault wh c Hw Hc) as W3. pose proof (charge_no_fault s.2 c Hs Hc) as C3.
  pose proof (charge_no_fault s.2 (diff c wh) Hs Hd) as D3. rewrite Hw0 in W2.
  assert (e_left (charge c wh).2 = 0) as W0 by (destruct W1 as [[] _]; lia). clear W2.
  assert (∀ r, e_left r ≤ e_left s.2 → res_wf r → moves s (s.1, r)) as Hm by (by intros r ? ?; split).
  unfold wpf, charge_validation_pubdata, charge_for_validation_pubdata_using_withheld.
  erewrite bind_val by reflexivity. cbn [snd].
  destruct (has_enough wh c); [|destruct (Resources.is_empty wh)];
    unfold mbind, M_bind, zoom, attempt; cbn -[diff].
  - destruct (charge c wh) as [[a|e|] r]; cbn -[diff] in *; [|split; [by apply Hm|apply system_resource_error]|done].
    split; [by apply Hm|done].
  - destruct (charge c s.2) as [[a|e|] r]; cbn -[diff] in *; [|split; [by apply Hm|apply system_resource_error]|done].
    split; [by apply Hm|done].
  - destruct (charge c wh) as [[a|e|] r]; cbn -[diff] in *; [split; [by apply Hm|done]| |done].
    destruct (charge (diff c wh) s.2) as [[a|e'|] r']; cbn -[diff] in *;
      [|split; [by apply Hm|apply system_resource_error]|done].
    split; [by apply Hm|done].
Qed.

Lemma wp_nonce_check n s :
  n = nonce (world s.1) from →
  wp spends (when (negb SIMULATION) (check_nonce_is_not_used n (rtx_nonce t))) s
    (λ _ s', s' = s ∧ (SIMULATION = false → rtx_nonce t = n)) (rejected md t (world s.1)).
Proof.
  intros ->. apply wp_when; [typeclasses eauto|intros _|by intros ->%negb_false_iff].
  unfold check_nonce_is_not_used. set (n := nonce _ _).
  destruct (Z.ltb_spec n (rtx_nonce t)); [by wp_fail|]. destruct (Z.ltb_spec (rtx_nonce t) n); [by wp_fail|].
  wp_return. split; [done|]. lia.
Qed.

Lemma wp_tx_validation price per ee is_code n wh s :
  res_wf s.2 → is_u256 per → 0 ≤ price ≤ rtx_max_fee_per_gas t → res_wf wh → e_left wh = 0 →
  is_code = has_code (world s.1) from → n = nonce (world s.1) from →
  wp moves (transaction_validation (sig_hash t) (TxRlp t) price per ee is_code n wh) s
    (λ '(_, wh') s', valid_in t (world s.1) ∧ world s'.1 = paid t price (world s.1)
       ∧ e_left wh' = 0 ∧ res_wf wh')
    (rejected md t (world s.1)).
Proof.
  intros Hs Hper Hp Hwh Hwh0 Hcode Hn. unfold transaction_validation. cbn [tx_nonce tx_from].
  rewrite u256_try_to_u64_spec by (pose proof (lw_nonce _ wf); unfold in_width in *; lia).
  rewrite checked_in by apply wf. wp_pure.
  wp_step; [by apply wp_spends, wp_nonce_check|]. intros u s' _ [-> Hnonce].
  wp_step; [apply wp_spends, wp_validate; try done|].
  { intros Hsim. split_conj; [done..|]. by rewrite <- Hn, Hnonce. }
  intros u' s1 M1 [Hv Hw1]. assert (res_wf s1.2) as Hs1 by (by apply M1).
  eapply (wp_bind _ _ _ _ (λ _ s', s' = s1)); [by destruct SIMULATION; wp_return|]. intros u2 s' _ ->.
  wp_step; [apply wp_spends, (wp_pay md); [done..|apply Hv|done]|]. intros u3 s2 M2 Hw2.
  assert (res_wf s2.2) as Hs2 by (by apply M2). wp_step.
  { eapply wp_conseq; [by apply wp_pubdata_tx|intros ? ? _ H; exact H|]. intros [e|e] s3 _ H; [done|exact I]. }
  intros [p c] s3 _ (-> & Hc0 & Hc). cbv beta iota. wp_step.
  { eapply wp_conseq; [by apply wp_validation_pubdata|intros ? ? _ H; exact H|].
    intros e s3 _ H. by apply resource_rejected. }
  intros [m wh'] s3 _ (E3 & H0 & H1). wp_return. split_conj; try done. by rewrite E3.
Qed.

(** ** Execution *)

(** The transaction ran in [w], with the result [r], and left [w']. *)
Definition l2_executed (x : RlpEncodedTransaction) (n : Z) (w : World) (r : ExecutionResult) (w' : World)
    : Prop :=
  ∃ s1 s2, world s1.1 = w ∧ execute memories hooks (TxRlp x) n s1 = (Val r, s2) ∧ w' = world s2.1.

Lemma wp_transaction_execution per vp n wh s :
  res_wf s.2 → is_u256 per →
  wp moves (transaction_execution memories hooks (TxRlp t) per vp n wh) s
    (λ '(r, _, c) s', e_left c = 0
       ∧ (is_success r = true → l2_executed t n (world s.1) r (world s'.1))) (λ _ _, True).
Proof.
  intros Hs Hper. unfold transaction_execution.
  wp_step; [apply wp_spends; eapply wp_conseq; [by apply wp_ran, wp_execute|intros ? ? _ H; exact H|done]|].
  intros r s1 _ [_ Hrun]. wp_pure.
  wp_step; [by apply wp_enough_boot|]. intros [[enough c] u] s2 _ (-> & Hc & _). wp_return.
  split; [done|]. destruct enough; cbn; [|by destruct r as [[]|]]. intros _. by exists s, s1.
Qed.

Lemma wp_execute_l2 per vp n wh s :
  res_wf s.2 → is_u256 per →
  wp moves (execute_l2 memories hooks (TxRlp t) per vp n wh) s
    (λ '(r, info) s', info_ok info
       ∧ if is_success r then l2_executed t n (world s.1) r (world s'.1) else world s'.1 = world s.1)
    (λ e _, is_internal e).
Proof.
  intros Hs Hper. unfold execute_l2.
  eapply (wp_bind_het moves (within s)); [apply wp_open_tx| |done|done].
  intros h s1 M1 (Hi & Hw1 & Hr1). eapply (wp_bind_within s); [apply M1| | |].
  { apply (wp_attempt _ _ _ (λ x s', match x with
      | inr (r, _, c) => e_left c = 0 ∧ (is_success r = true → l2_executed t n (world s.1) r (world s'.1))
      | inl _ => True end)).
    eapply wp_conseq; [apply wp_transaction_execution; [by rewrite Hr1|done]|..]; [|done].
    intros [[r u] c] s2 _ H. rewrite Hw1 in H. exact H. }
  2:{ intros e s2 H. exact H. }
  intros x s2 M2 Hx. assert (inside h s s2) as Hi2 by (by eapply inside_moves).
  assert (res_wf s2.2) as Hs2 by (apply M2; by rewrite Hr1). destruct x as [e|[[r u] c]]; cbv beta iota in *.
  - eapply wp_bind_leave; [by apply wp_revert_if_fatal| |done]. intros v s3 _ [H3 _]. wp_return. done.
  - eapply wp_bind_leave; [by apply wp_settle| |done]. intros o s3 _ (-> & _ & H3). wp_return.
    rewrite H3. destruct Hx as [Hc Hx]. destruct (is_success r); (split; [done|auto]).
Qed.

(** ** The price *)

(** EIP-1559. *)
Definition effective_price : Z :=
  Z.min (rtx_max_fee_per_gas t)
    (md_eip1559_basefee md + default (rtx_max_fee_per_gas t) (rtx_max_priority_fee_per_gas t)).

Hypothesis basefee_ok : is_u256 (md_eip1559_basefee md).

Lemma priority_range : is_u256 (default (rtx_max_fee_per_gas t) (rtx_max_priority_fee_per_gas t)).
Proof.
  destruct (rtx_max_priority_fee_per_gas t) as [p|] eqn:E; cbn [default]; [by eapply lw_priority|apply lw_max_fee, wf].
Qed.

Lemma effective_price_range : 0 ≤ effective_price ≤ rtx_max_fee_per_gas t.
Proof.
  pose proof priority_range. pose proof (lw_max_fee _ wf). unfold effective_price, in_width in *. lia.
Qed.

Lemma wp_gas_price {S} (T : S → S → Prop) `{!PreOrder T} (s : S) w s0 :
  wp T (get_gas_price (md_eip1559_basefee md) (rtx_max_fee_per_gas t) (rtx_max_priority_fee_per_gas t)) s
    (λ p s', p = effective_price ∧ s' = s) (λ e _, rejected md t w e s0).
Proof.
  pose proof priority_range as Hp. pose proof (lw_max_fee _ wf) as Hm. unfold get_gas_price, require_that.
  set (prio := default (rtx_max_fee_per_gas t) (rtx_max_priority_fee_per_gas t)) in *.
  eapply (wp_bind _ _ _ _ (λ _ s', s' = s ∧ prio ≤ rtx_max_fee_per_gas t)); [|intros u s' _ [-> Hle]].
  { apply wp_check; destruct (Z.leb_spec prio (rtx_max_fee_per_gas t)); try done. intros _.
    unfold prio in *. destruct (rtx_max_priority_fee_per_gas t) eqn:E; cbn [default] in *; [|lia].
    cbn [rejected justified]. by rewrite E. }
  eapply (wp_bind _ _ _ _ (λ _ s', s' = s)); [|intros u' s' _ ->].
  { apply wp_when; [typeclasses eauto| |done]. intros _.
    apply wp_check; [typeclasses eauto| |]; destruct (Z.leb_spec (md_eip1559_basefee md) (rtx_max_fee_per_gas t)); done. }
  wp_return. split; [|done]. unfold effective_price. fold prio.
  rewrite u_saturating_sub_spec by done. unfold saturating_sub.
  rewrite u_saturating_add_spec by (unfold in_width in *; lia). unfold saturating_add, umax, in_width in *. lia.
Qed.

(** ** The whole transaction *)

Record l2_outcome (w : World) (r : TxProcessingResult) (w' : World) : Prop := {
  ro_valid : valid_in t w;
  ro_gas : 0 ≤ tp_gas_used r ≤ rtx_gas_limit t;
  ro_limit : rtx_gas_limit t ≤ md_block_gas_limit md ≤ MAX_BLOCK_GAS_LIMIT;
  ro_hash : tp_tx_hash r = Keccak256 (buffer t);
  ro_kind : is_l1_tx r = false ∧ is_upgrade_tx r = false;
  ro_burn : burn_base_fee = true → md_eip1559_basefee md ≤ effective_price;
  ro_world : ∃ wd we, delegated (paid t effective_price w) wd
    ∧ (eip_7702 = false ∨ authorization_list t = None → wd = paid t effective_price w)
    ∧ (if is_success (tp_result r) then l2_executed hashed (nonce w from) wd (tp_result r) we else we = wd)
    ∧ settled md effective_price from (rtx_gas_limit t) (tp_gas_used r) we w'
}.

Lemma wp_delegations s :
  res_wf s.2 →
  wp moves (when eip_7702
      match authorization_list t with
      | Some l => parse_authorization_list_and_apply_delegations l
      | None => mret tt
      end) s
    (λ _ s', delegated (world s.1) (world s'.1)
       ∧ (eip_7702 = false ∨ authorization_list t = None → world s'.1 = world s.1))
    (λ e _, resource_error e).
Proof.
  intros Hs. apply wp_when; [typeclasses eauto|intros Hf|done].
  destruct (authorization_list t) as [l|] eqn:E; [|by wp_return]. rewrite Hf.
  eapply wp_conseq; [apply wp_spends, wp_auth_list; [by eapply lw_auths|done]|..]; [|auto].
  intros u s1 _ H. split; [done|]. by intros [|].
Qed.
End Tx.

Section Run.
Variable md : Metadata.
Variable t : RlpEncodedTransaction.
Hypothesis wf : l2_wf t.
Hypothesis size_ok : tx_size_ok (Z.of_nat (length (buffer t))).
Hypothesis no_hash : tx_hash t = None.
Hypothesis basefee_ok : is_u256 (md_eip1559_basefee md).

Lemma hashed_wf : l2_wf (hashed t).
Proof. destruct wf. by split. Qed.

Lemma hashed_valid w : valid_in (hashed t) w → valid_in t w.
Proof. intros []. by split. Qed.

Lemma wp_prepare_l2 price per wh s :
  res_wf s.2 → is_u256 per → 0 ≤ price ≤ rtx_max_fee_per_gas t → res_wf wh → e_left wh = 0 →
  wp moves (prepare_l2 (TxRlp t) price per wh) s
    (λ '(_, n, h, x, _, wh') s', n = nonce (world s.1) (from_ t) ∧ h = Keccak256 (buffer t) ∧ x = TxRlp (hashed t)
       ∧ valid_in t (world s.1) ∧ world s'.1 = paid t price (world s.1) ∧ e_left wh' = 0 ∧ res_wf wh')
    (rejected md t (world s.1)).
Proof.
  intros Hs Hper Hp Hwh Hwh0. unfold prepare_l2. cbn [tx_from].
  assert (is_u256 price) as Hpr by (pose proof (lw_max_fee _ wf); unfold in_width in *; lia).
  wp_step; [by apply wp_spends, wp_read_caller|]. intros [[is_code ee] n] s1 M1 (Hcode & Hn & Hw1).
  assert (res_wf s1.2) as Hs1 by (by apply M1). rewrite <- Hw1 in *.
  wp_step; [by apply wp_spends, wp_additional|]. intros u s2 M2 E2. assert (res_wf s2.2) as Hs2 by (by apply M2).
  assert (world s2.1 = world s1.1) as Hw2 by (by rewrite E2). rewrite <- Hw2 in *.
  wp_step; [by apply wp_context|]. intros u' s3 M3 Hw3. assert (res_wf s3.2) as Hs3 by (by apply M3).
  rewrite <- Hw3 in *. wp_step; [by apply wp_spends, wp_warm_up|].
  intros u2 s4 M4 Hw4. assert (res_wf s4.2) as Hs4 by (by apply M4). rewrite <- Hw4 in *.
  wp_step; [by apply wp_spends, wp_hash|]. intros [h x] s5 M5 (-> & -> & E5).
  assert (res_wf s5.2) as Hs5 by (by apply M5). assert (world s5.1 = world s4.1) as Hw5 by (by rewrite E5).
  rewrite <- Hw5 in *. wp_step.
  { apply wp_spends. eapply wp_conseq; [by apply wp_charge_keccak|intros ? ? _ H; exact H|].
    intros e s6 _ H. by apply resource_rejected. }
  intros u3 s6 M6 E6. assert (res_wf s6.2) as Hs6 by (by apply M6).
  assert (world s6.1 = world s5.1) as Hw6 by (by rewrite E6). rewrite <- Hw6 in *. wp_pure.
  wp_step; [by apply (wp_tx_validation md (hashed t) hashed_wf)|].
  intros [v wh'] s7 _ (Hv%hashed_valid & Hw7 & H0 & H1). by wp_return.
Qed.

(** The metadata of the block are those of [md]. *)
Definition in_block (s : SysState) : Prop :=
  md_coinbase (sys_metadata s) = md_coinbase md
  ∧ md_eip1559_basefee (sys_metadata s) = md_eip1559_basefee md.

Lemma in_block_moves (s s' : SysState * Res) : in_block s.1 → moves s s' → in_block s'.1.
Proof. intros [H1 H2] [H3 _]. destruct (later_block _ _ H3) as [H4 H5]. split; congruence. Qed.

Lemma settled_block s price from limit used w w' :
  in_block s → settled (sys_metadata s) price from limit used w w' → settled md price from limit used w w'.
Proof. intros [H1 H2]. unfold settled. by rewrite H1, H2. Qed.

Lemma wp_run_l2 per_gas per wh charged s :
  in_block s.1 → res_wf s.2 → e_left s.2 ≤ rtx_gas_limit t * ERGS_PER_GAS → 0 ≤ rtx_gas_limit t →
  rtx_gas_limit t ≤ md_block_gas_limit md ≤ MAX_BLOCK_GAS_LIMIT →
  is_u256 per → is_u256 per_gas → res_wf wh → e_left wh = 0 →
  wp moves (run_l2 memories hooks (TxRlp t) (effective_price md t) per per_gas wh charged) s
    (λ r s', l2_outcome md t (world s.1) r (world s'.1)) (rejected md t (world s.1)).
Proof.
  intros Hb Hs Hle Hl0 Hl Hper Hpg Hwh Hwh0.
  assert (0 ≤ rtx_gas_limit t < 2 ^ 62) as Hlim by (change MAX_BLOCK_GAS_LIMIT with (2 ^ 56 - 1) in Hl; lia).
  unfold run_l2. cbn [tx_from]. wp_pure.
  pose proof (effective_price_range md t wf basefee_ok) as Hpr.
  assert (is_u256 (effective_price md t)) as Hpr' by (pose proof (lw_max_fee _ wf); unfold in_width in *; lia).
  wp_step; [by apply wp_prepare_l2|].
  intros [[[[[ee n] h] x] v] wh1] s1 M1 (-> & -> & -> & Hv & Hw1 & Hwh1 & Hwh1'). cbv beta iota.
  assert (res_wf s1.2) as Hs1 by (by apply M1). wp_step.
  { eapply wp_conseq; [by apply (wp_delegations (hashed t) hashed_wf)|intros ? ? _ H; exact H|].
    intros e s2 _ H. by apply resource_rejected. }
  intros u s2 M2 [Hd Hd']. assert (res_wf s2.2) as Hs2 by (by apply M2). wp_step.
  { eapply wp_conseq; [by apply (wp_execute_l2 (hashed t) hashed_wf)|intros ? ? _ H; exact H|].
    intros [e|e] s3 _ H; [done|exact I]. }
  intros [r info] s3 M3 [Hi Hrev]. cbv beta iota. assert (res_wf s3.2) as Hs3 by (by apply M3). wp_pure.
  eapply (wp_bind _ _ _ _ (λ _ s', s'.1 = s3.1)).
  { apply wp_modify; [by apply reclaim_moves|done]. }
  intros u' s4 M4 E4. assert (res_wf s4.2) as Hs4 by (by apply M4).
  assert (moves s s4) as M by (do 3 (etransitivity; [eassumption|]); done). wp_step.
  { apply wp_map_err. eapply wp_conseq; [apply (wp_refund_and_pay (hashed t)); try done|intros ? ? _ H; exact H|done].
    etransitivity; [apply M|done]. }
  intros [i p] s5 _ (Hsum & Hg & Hw5 & Hburn). wp_return.
  pose proof (in_block_moves _ _ Hb M) as Hb4. apply (settled_block _ _ _ _ _ _ _ Hb4) in Hw5.
  destruct Hb4 as [_ Hb4]. rewrite Hb4 in Hburn. split; try done.
  rewrite Hw1 in Hd, Hd'. exists (world s2.1), (world s3.1). rewrite E4 in Hw5. by split_conj.
Qed.

Lemma wp_with_resources {A} {F : Prop} r (m : M (SysState * Res) TxError A) sys Q X :
  wpf F moves m (sys, r) (λ a s', Q a s'.1) (λ e s', X e s'.1) → wpf F later_tx (with_resources r m) sys Q X.
Proof.
  intros [(H1 & _) H2]. unfold wpf, with_resources. by destruct (m (sys, r)) as [[a|e|] [sys' r']].
Qed.

Lemma l2_native_per_gas_ok price native_price :
  is_u256 price → is_u256 native_price → native_price ≠ 0 →
  ∃ n, l2_native_per_gas (md_eip1559_basefee md) price native_price = Some n ∧ is_u256 n.
Proof.
  intros Hp Hn Hz. unfold l2_native_per_gas. destruct resources_for_tester; [by exists TESTER_NATIVE_PER_GAS|].
  destruct (_ && _); rewrite u_div_ceil_spec by done; (eexists; split; [done|]); by apply ceil_range.
Qed.

Lemma wp_resources sys limit per per_gas calldata :
  0 ≤ limit ≤ MAX_BLOCK_GAS_LIMIT → is_u256 per → is_u256 per_gas → Z.of_nat (length calldata) < 2 ^ 32 →
  wp later_tx (get_resources_for_tx limit per per_gas calldata L2_TX_INTRINSIC_GAS L2_TX_INTRINSIC_PUBDATA
      L2_TX_INTRINSIC_NATIVE_COST false) sys
    (λ r s', s' = sys ∧ e_left (main_resources r) ≤ limit * ERGS_PER_GAS ∧ res_wf (main_resources r)
       ∧ e_left (withheld r) = 0 ∧ res_wf (withheld r))
    (λ e _, resource_error e).
Proof.
  intros Hl Hp Hg Hc. assert (intrinsic_ok L2_TX_INTRINSIC_GAS L2_TX_INTRINSIC_PUBDATA L2_TX_INTRINSIC_NATIVE_COST) as Hi by done.
  pose proof (l2_resources limit per per_gas calldata _ _ _ Hl Hp Hg Hc Hi sys) as H. unfold wpf.
  destruct (get_resources_for_tx _ _ _ _ _ _ _ _ sys) as [[r|e|] s']; cbn [fst snd]; [..|done];
    destruct H as [-> H]; (split; [done|]).
  - destruct H as [He Hge _ _ _ H1 H2 H3]. split_conj; try done.
    pose proof (calldata_gas_counts calldata) as [Hcg Hcg']. rewrite He.
    unfold gas_charge, L2_TX_INTRINSIC_GAS. change ERGS_PER_GAS with 256. lia.
  - destruct e as [[]|]; done.
Qed.
End Run.

Abbreviation rejected_in md t w := (λ e sys, rejected md t w e (sys, res_empty)).

Lemma wp_process_l2 t sys :
  l2_wf t → tx_size_ok (Z.of_nat (length (buffer t))) → tx_hash t = None →
  wp later_tx (process_l2_transaction memories hooks (TxRlp t)) sys
    (λ r sys', l2_outcome (sys_metadata sys) t (world sys) r (world sys'))
    (rejected_in (sys_metadata sys) t (world sys)).
Proof.
  intros Hwf Hsz Hn. set (md := sys_metadata sys). pose proof (sl_metadata sys) as Hmd. fold md in Hmd.
  pose proof (mo_basefee _ Hmd) as Hbf. unfold process_l2_transaction, require_that.
  cbn [tx_gas_limit tx_max_fee_per_gas tx_max_priority_fee_per_gas tx_calldata]. wp_pure. fold md.
  eapply (wp_bind _ _ _ _ (λ _ s', s' = sys ∧ md_block_gas_limit md ≤ MAX_BLOCK_GAS_LIMIT));
    [apply wp_check; [typeclasses eauto|..]; by destruct (Z.leb_spec (md_block_gas_limit md) MAX_BLOCK_GAS_LIMIT)|].
  intros u s' _ [-> Hbl].
  eapply (wp_bind _ _ _ _ (λ _ s', s' = sys ∧ rtx_gas_limit t ≤ md_block_gas_limit md));
    [apply wp_check; [typeclasses eauto|..]; by destruct (Z.leb_spec (rtx_gas_limit t) (md_block_gas_limit md))|].
  intros u' s' _ [-> Hl]. wp_step; [by apply (wp_gas_price md t Hwf Hbf _ sys (world sys) (sys, res_empty))|].
  intros price s' _ [-> ->]. pose proof (effective_price_range md t Hwf Hbf) as Hpr.
  eapply (wp_bind _ _ _ _ (λ _ s', s' = sys ∧ md_native_price md ≠ 0));
    [apply wp_check; [typeclasses eauto|done|]; by intros Hz%Z.eqb_neq|].
  intros u2 s' _ [-> Hz]. pose proof (mo_native_price _ Hmd) as Hnp. pose proof (mo_pubdata_price _ Hmd) as Hpp.
  destruct (l2_native_per_gas_ok md Hbf (effective_price md t) (md_native_price md)) as (npg & Hnpg & Hg); try done.
  { pose proof (lw_max_fee _ Hwf). unfold in_width in *. lia. }
  rewrite Hnpg, u_wrapping_div_spec by done. wp_pure. wp_pure.
  pose proof (quotient_range _ _ Hpp Hnp Hz) as Hq. pose proof (lw_gas_limit _ Hwf) as [Hl0 _].
  destruct (lw_calldata _ Hwf) as [_ Hcl]. wp_step.
  { eapply wp_conseq; [apply wp_resources; try done; destruct Hsz; lia|intros ? ? _ H; exact H|].
    intros e s1 _ H. by apply resource_rejected. }
  intros r s' _ (-> & H1 & H2 & H3 & H4). apply wp_with_resources.
  eapply wp_conseq; [apply (wp_run_l2 md t Hwf Hsz Hn Hbf _ _ _ _ (sys, main_resources r)); done|..].
  - by intros x s1 _ H.
  - by intros e s1 _ H.
Qed.
End L2.
