(* ===== verification/L1Theorems.v ===== *)
(** * L1 transactions

    A deposit is never rejected, and all of it is accounted for: as the value of the
    transaction, as the fee of the operator, or as a refund. *)

From stdpp Require Import strings.
From S2P Require Import Prelude Resources U256 SystemInterface BootloaderErrors TxFormats AbiTx.
From S2P Require Import EvmConstants Gas EvmState EvmLogic BootSystem IoLogic Hooks HookTheorems Runner RunnerTheorems TxSystem.
From S2P Require Import GasHelpers GasTheorems Transaction TxWellFormed TxWp TxFlow FlowTheorems.
From S2P Require Import ExecTheorems ProcessTx SettleTheorems L2Theorems.

Section L1.
Context {R : Ruint} {RS : RuintSpec} {UZ : Usize} {FT : Features} {SYS : System}
  {LAWS : SystemLaws} {EXT : SystemExt} {XLAWS : SystemExtLaws} {IL : InputLimit} {TX : TxSystem} {TLAWS : TxSystemLaws}
  {CFG : ExecutionConfig} {TF : TxFeatures}.
#[local] Existing Instance system_keccak.

Variables (memories : RunnerMemoryBuffers) (hooks : HooksStorage).
Hypothesis hooks_wf : hooks_ok hooks.
Hypothesis heaps_ok : buffer_ok (heaps memories).
Hypothesis return_ok : buffer_ok (return_data memories).

Variable tx : AbiEncodedTransaction.
Hypothesis wf : l1_wf tx.
Hypothesis size_ok : tx_size_ok (Z.of_nat (length (underlying_buffer tx))).

Abbreviation from := (pv_value (ab_from tx)).
Abbreviation to := (pv_value (ab_to tx)).
Abbreviation value := (pv_value (ab_value tx)).
Abbreviation price := (pv_value (ab_max_fee_per_gas tx)).
Abbreviation gas_limit := (pv_value (ab_gas_limit tx)).
Abbreviation deposited := (pv_value (ab_reserved_0 tx)).
Abbreviation recipient := (pv_value (ab_reserved_1 tx)).

Abbreviation internal_x := (λ e _, is_internal e).
Abbreviation any_x := (λ _ _, True).

(** ** The hash *)

Definition l1_hash : list Z := Keccak256 (be_bytes 32 0x20 ++ underlying_buffer tx).

Lemma l1_hash_run r :
  calculate_hash tx r
  = (charge_keccak (wrap usize_bits (32 + Z.of_nat (length (underlying_buffer tx)))) ;; mret l1_hash) r.
Proof. unfold calculate_hash. by destruct (fw_type _ wf) as [-> | ->]. Qed.

(** Formally infinite resources are enough for it. *)
Lemma l1_hash_infinite : ∃ r, calculate_hash tx FORMAL_INFINITE = (Val l1_hash, r).
Proof.
  rewrite l1_hash_run. set (len := wrap _ _). pose proof (keccak_cost_wf len) as [_ [Hc1 Hc2]].
  unfold charge_keccak, map_err, mbind, M_bind. set (c := keccak256_native_cost len) in *. unfold n_left in *.
  destruct c as [c]. change (from_native (from_computational c)) with (mk_res 0 c).
  change FORMAL_INFINITE with (mk_res (umax 64) (umax 64)). cbn in Hc1, Hc2.
  rewrite charge_cases by (split; unfold in_width, umax, e_left, n_left; cbn; lia).
  destruct (Z.ltb_spec (umax 64) c); [unfold umax in *; lia|]. cbn. by eexists.
Qed.

Lemma wp_prepare_l1 s :
  res_wf s.2 → wp moves (prepare_l1 tx) s (λ '(h, _) s', h = l1_hash ∧ s'.1 = s.1) internal_x.
Proof.
  intros Hs. destruct l1_hash_infinite as [r0 Hinf]. unfold prepare_l1.
  eapply (wp_bind _ _ _ _ (λ x s', s'.1 = s.1 ∧ res_wf s'.2 ∧ match x with inr h => h = l1_hash | inl _ => True end)).
  { apply wp_attempt. set (len := wrap usize_bits (32 + Z.of_nat (length (underlying_buffer tx)))).
    pose proof (wp_charge_keccak len s Hs) as [H1 H2]. apply spends_moves in H1.
    unfold wpf, on_res, zoom in *. rewrite l1_hash_run. fold len. unfold mbind, M_bind.
    destruct (charge_keccak len s.2) as [[a|e|] r]; cbn in *; [..|done];
      (split; [done|]); (split; [done|]); (split; [by apply H1|done]). }
  intros x s1 _ (E1 & Hs1 & Hx). set (exhausted := (modify _ ;; _)).
  assert (wp moves exhausted s1 (λ '(h, _) s', h = l1_hash ∧ s'.1 = s.1) internal_x) as He.
  { unfold exhausted. rewrite Hinf. eapply (wp_bind _ _ _ _ (λ _ s', s'.1 = s1.1)).
    - apply wp_modify; [by apply exhaust_moves|done].
    - intros u s2 _ E2. wp_return. split; [done|congruence]. }
  destruct x as [[e|e]|h]; [done| |by wp_return]. destruct (bootloader_root_cause e); (exact He || by wp_fail).
Qed.

(** ** Execution *)

(** The value of a deposit is minted for its sender before the execution. *)
Definition l1_funded (w w' : World) : Prop :=
  if 0 <? value then is_u256 (balance w from + value) ∧ w' = set_balance false from (balance w from + value) w
  else w' = w.

(** The transaction succeeded in [w], with the result [r], and left [w']. *)
Definition l1_executed (w : World) (r : ExecutionResult) (w' : World) : Prop :=
  ∃ s1 s2 resources c, l1_funded w (world s1)
    ∧ run_single_interaction memories hooks (abi_calldata tx) from to resources value false s1 = (Val c, s2)
    ∧ failed (ce_result c) = false ∧ r = Success (Call (rv_returndata (return_values (ce_result c))))
    ∧ w' = world s2.

Lemma wp_fund s :
  res_wf s.2 →
  wp moves (when (0 <? value) (mint_value value from)) s (λ _ s', l1_funded (world s.1) (world s'.1)) any_x.
Proof.
  intros Hs. unfold l1_funded. apply wp_when; [typeclasses eauto|intros ->|by intros ->].
  apply wp_spends, wp_map_err.
  apply (wp_infinite _ _ (λ _ sys, is_u256 (balance (world s.1) from + value)
    ∧ world sys = set_balance false from (balance (world s.1) from + value) (world s.1)) (λ _ _, True)); [done|].
  eapply wp_conseq; [apply wp_mint; [by apply rich_wf|apply fw_value, wf]|by intros|done].
Qed.

Lemma wp_l1_interaction s :
  res_wf s.2 →
  wp moves (on_boot (run_single_interaction memories hooks (abi_calldata tx) from to s.2 value false)) s
    (λ c s', moves s' (s'.1, resources_returned c)
       ∧ run_single_interaction memories hooks (abi_calldata tx) from to s.2 value false s.1 = (Val c, s'.1)) any_x.
Proof.
  intros Hs. destruct (fw_data _ wf) as [Hd Hdl]. destruct size_ok. apply wp_spends, wp_on_boot.
  eapply wp_conseq; [apply wp_ran, wp_single_interaction; try done|..]; cbv beta.
  - split; [|lia]. split; [done|]. destruct usize_cases as [-> | ->]; lia.
  - by apply fw_from.
  - by apply fw_to.
  - by apply fw_value.
  - intros c s1 _ [[H1 [H2 _] _] Hrun]. by split.
  - done.
Qed.

Lemma wp_notify per wh s :
  res_wf s.2 → is_u256 per → e_left wh = 0 →
  wp moves (execute_l1_transaction_and_notify_result memories hooks tx from to value per wh) s
    (λ '(r, _, c, _) s', e_left c = 0 ∧ (is_success r = true → l1_executed (world s.1) r (world s'.1))) any_x.
Proof.
  intros Hs Hper Hwh. unfold execute_l1_transaction_and_notify_result.
  eapply (wp_bind _ _ _ _ (λ _ s', world s'.1 = world s.1)).
  { apply wp_modify; [|apply tl_context_world]. split; [|done]. cbn [fst]. split; [|by intros k; apply tl_context_alive].
    eexists. apply tl_context; [by apply fw_from|by apply fw_max_fee]. }
  intros u s1 M1 <-. assert (res_wf s1.2) as Hs1 by (by apply M1).
  eapply (wp_bind_het moves (within s1)); [apply wp_open| |done|done].
  intros h s2 M2 (Hi & <- & Hr2). rewrite <- Hr2 in Hs1.
  eapply (wp_bind_within s1); [apply M2|by apply wp_fund| |done].
  intros u' s3 M3 Hfund. assert (res_wf s3.2) as Hs3 by (by apply M3).
  assert (moves s1 s3) as M13 by (by etransitivity).
  eapply (wp_bind_within s1 (gets snd)); [done|by apply (wp_gets _ _ _ (λ r s', r = s3.2 ∧ s' = s3) any_x)| |done].
  intros r s' _ [-> ->]. eapply (wp_bind_within s1); [done|by apply wp_l1_interaction| |done].
  intros c s4 M4 [C4 Hrun]. assert (moves s1 s4) as M14 by (by etransitivity).
  eapply (wp_bind_within s1); [done|by apply (wp_modify _ _ _ (λ _ s', s' = (s4.1, resources_returned c)) any_x)| |done].
  intros u2 s' _ ->. eapply wp_bind_leave; [apply (wp_close _ (failed (ce_result c)) h)| |done].
  { apply (inside_moves _ _ s4); [|exact C4]. apply (inside_moves _ _ s3); [|exact M4]. by apply (inside_moves _ _ s2). }
  intros u3 s5 M5 [Hw5 _]. assert (res_wf s5.2) as Hs5 by (apply M5, M1, Hs). wp_pure.
  eapply (wp_bind _ _ _ _ (λ _ s', s'.1 = s5.1)); [apply wp_modify; [by apply reclaim_moves|done]|]. intros u4 s6 M6 E6. wp_pure.
  wp_step; [by apply wp_enough_boot|]. intros [[enough d] p] s7 _ (-> & Hd & _). wp_return. split; [done|].
  rewrite E6, Hw5. destruct (failed (ce_result c)) eqn:Ef, enough; cbn; try done. intros _.
  by exists s3.1, s4.1, s3.2, c.
Qed.

Lemma wp_execute_l1 per wh s :
  res_wf s.2 → is_u256 per → e_left wh = 0 →
  wp moves (execute_l1 memories hooks tx per wh) s
    (λ '(r, info, _) s', info_ok info
       ∧ if is_success r then l1_executed (world s.1) r (world s'.1) else world s'.1 = world s.1) internal_x.
Proof.
  intros Hs Hper Hwh. unfold execute_l1.
  eapply (wp_bind_het moves (within s)); [apply wp_open_tx| |done|done].
  intros h s1 M1 (Hi & Hw1 & Hr1). eapply (wp_bind_within s); [apply M1| | |].
  { apply (wp_attempt _ _ _ (λ x s', match x with
      | inr (r, _, c, _) => e_left c = 0 ∧ (is_success r = true → l1_executed (world s.1) r (world s'.1))
      | inl _ => True end)).
    eapply wp_conseq; [apply wp_notify; [by rewrite Hr1|done..]|..]; [|done].
    intros [[[r u] c] b] s2 _ H. rewrite Hw1 in H. exact H. }
  2:{ intros e s2 H. exact H. }
  intros x s2 M2 Hx. assert (inside h s s2) as Hi2 by (by eapply inside_moves).
  assert (res_wf s2.2) as Hs2 by (apply M2; by rewrite Hr1). destruct x as [e|[[[r u] c] b]]; cbv beta iota in *.
  - eapply wp_bind_leave; [by apply wp_revert_if_fatal| |done]. intros v s3 _ [H3 _]. wp_return. done.
  - eapply wp_bind_leave; [by apply wp_settle| |done]. intros o s3 _ (-> & _ & H3). wp_return.
    rewrite H3. destruct Hx as [Hc Hx]. destruct (is_success r); (split; [done|auto]).
Qed.

(** ** The deposit *)

Definition l1_fee (used : Z) : Z := used * price.
(** What is left of the deposit for the refund recipient. *)
Definition l1_rest (success : bool) (used : Z) : Z :=
  deposited - l1_fee used - (if success then value else 0).

Definition l1_settled (coinbase : Z) (success : bool) (used : Z) (w w' : World) : Prop :=
  ∃ w1, credited coinbase (l1_fee used) w w1
    ∧ if 0 <? l1_rest success used then credited recipient (l1_rest success used) w1 w' else w' = w1.

Lemma wp_mint_tx v a r s :
  res_wf r → is_u256 v →
  wp moves (on_boot_tx (mint_infinite v a r)) s
    (λ r' s', res_wf r' ∧ credited a v (world s.1) (world s'.1)) internal_x.
Proof.
  intros Hr Hv. apply wp_map_err, wp_spends, wp_on_sys.
  eapply wp_conseq; [by apply wp_mint_infinite|by intros|done].
Qed.

Lemma wp_l1_refund {S} (T : S → S → Prop) `{!PreOrder T} is_priority_op r used (s : S) :
  is_u256 (l1_fee used) →
  wp T (l1_refund is_priority_op r deposited value (l1_fee used)) s
    (λ x s', s' = s ∧ x = l1_rest (is_success r) used ∧ is_u256 x ∧ (is_priority_op = false → is_success r = true))
    internal_x.
Proof.
  intros Hf. pose proof (fw_deposited _ wf) as Hd. pose proof (fw_value _ wf) as Hv. unfold l1_refund, l1_rest.
  destruct r as [o|o]; cbn [is_success].
  - rewrite u_checked_add_spec by done. unfold checked_add. eapply (wp_bind _ _ _ _ (λ x s', s' = s ∧ x = value + l1_fee used ∧ is_u256 x)).
    { apply wp_lift_opt; [typeclasses eauto|done|]. by intros x [<- Hx]%checked_Some. }
    intros x s' _ (-> & -> & Hx). rewrite u_checked_sub_spec by done.
    apply wp_lift_opt; [typeclasses eauto|done|]. intros y [<- Hy]%checked_Some. split_conj; try done. lia.
  - eapply (wp_bind _ _ _ _ (λ _ s', s' = s ∧ is_priority_op = true)).
    { apply wp_check; [typeclasses eauto|done|]. by intros ->%negb_false_iff. }
    intros u s' _ [-> ->]. rewrite u_checked_sub_spec by done.
    apply wp_lift_opt; [typeclasses eauto|done|]. intros y [<- Hy]%checked_Some. split_conj; try done. lia.
Qed.

(** The parser does not check that the refund recipient is an address. *)
Abbreviation odd_recipient := (¬ is_b160 recipient).

Lemma wp_mint_l1 is_priority_op r used s :
  is_u256 used →
  wpf odd_recipient moves (mint_l1 tx is_priority_op r deposited used) s
    (λ _ s', l1_settled (md_coinbase (sys_metadata s.1)) (is_success r) used (world s.1) (world s'.1)
       ∧ 0 ≤ l1_rest (is_success r) used ∧ (is_priority_op = false → is_success r = true))
    internal_x.
Proof.
  intros Hu. unfold mint_l1. rewrite u_checked_mul_spec by (done || apply fw_max_fee, wf).
  eapply (wp_bind _ _ _ _ (λ x s', s' = s ∧ x = l1_fee used ∧ is_u256 x)).
  { apply wp_lift_opt; [typeclasses eauto|done|]. by intros x [<- Hx]%checked_Some. }
  intros x s' _ (-> & -> & Hfee). wp_pure. wp_step; [apply wp_may, wp_mint_tx; [apply infinite_wf|done]|].
  intros r1 s1 M1 [Hr1 Hw1]. wp_step; [by apply wp_may, (wp_l1_refund moves)|]. intros x s' _ (-> & -> & Hx & Hp).
  unfold l1_settled. apply wp_when; [typeclasses eauto| |].
  - intros Hpos. rewrite Hpos. rewrite u256_to_b160_checked_spec by apply fw_recipient, wf.
    eapply (wp_bind _ _ _ _ (λ a s', a = recipient ∧ s' = s1)).
    { apply wp_expect_may; [typeclasses eauto|by intros H Hb; rewrite checked_in in H|].
      by intros a [<- _]%checked_Some. }
    intros a s' _ [-> ->]. wp_step; [by apply wp_may, wp_mint_tx|]. intros r2 s2 _ [_ Hw2]. wp_return. split_conj; try done; [|apply Hx].
    by exists (world s1.1).
  - intros Hpos. rewrite Hpos. split_conj; try done; [|apply Hx]. by exists (world s1.1).
Qed.

Lemma wp_emit_log h ok p s :
  wp moves (emit_l1_log h ok p) s (λ _ s', same_accounts (world s.1) (world s'.1) ∧ s'.2 = s.2) internal_x.
Proof.
  destruct (tl_log NoEE h ok p (s.1, FORMAL_INFINITE) infinite_wf) as (_ & _ & _ & H1 & H2).
  pose proof (tl_log_accounts NoEE h ok p (s.1, FORMAL_INFINITE)) as H3.
  pose proof (tl_log_infinite NoEE h ok p s.1) as H4. unfold wpf, emit_l1_log, sys_io, map_err.
  destruct (emit_l1_l2_tx_log NoEE h ok p (s.1, FORMAL_INFINITE)) as [[a|e|] [sys r]]; cbn in *; [| |done].
  - split; [|done]. split; [by apply later_later_tx|done].
  - split; [split; [by apply later_later_tx|done]|]. destruct e as [e|e]; [done|]. by destruct (H4 e).
Qed.

(** ** The whole transaction *)

Record l1_outcome (md : Metadata) (is_priority_op : bool) (w : World) (r : TxProcessingResult) (w' : World)
    : Prop := {
  fo_gas : 0 ≤ tp_gas_used r ≤ gas_limit;
  fo_limit : gas_limit < 2 ^ 62;
  fo_hash : tp_tx_hash r = l1_hash;
  fo_kind : is_l1_tx r = is_priority_op ∧ is_upgrade_tx r = negb is_priority_op;
  fo_upgrade : is_priority_op = false → is_success (tp_result r) = true;
  fo_rest : 0 ≤ l1_rest (is_success (tp_result r)) (tp_gas_used r);
  fo_world : ∃ we ws, (if is_success (tp_result r) then l1_executed w (tp_result r) we else we = w)
    ∧ l1_settled (md_coinbase md) (is_success (tp_result r)) (tp_gas_used r) we ws ∧ same_accounts ws w'
}.

Lemma wp_run_l1 is_priority_op per per_gas wh charged s :
  res_wf s.2 → e_left s.2 ≤ gas_limit * ERGS_PER_GAS → 0 ≤ gas_limit < 2 ^ 62 →
  is_u256 per → is_u256 per_gas → e_left wh = 0 →
  wpf odd_recipient moves (run_l1 memories hooks tx is_priority_op per per_gas deposited wh charged) s
    (λ r s', l1_outcome (sys_metadata s.1) is_priority_op (world s.1) r (world s'.1)) internal_x.
Proof.
  intros Hs Hle Hlim Hper Hpg Hwh. unfold run_l1. wp_pure. wp_step; [by apply wp_may, wp_prepare_l1|].
  intros [h out] s1 M1 [-> E1]. assert (res_wf s1.2) as Hs1 by (by apply M1). rewrite <- E1.
  eapply (wp_bind _ _ _ _ (λ '(r, info, _) s', info_ok info
    ∧ if is_success r then l1_executed (world s1.1) r (world s'.1) else world s'.1 = world s1.1)).
  { destruct out; cbn [negb]; [by wp_return|by apply wp_may, wp_execute_l1]. }
  intros [[r info] before] s2 M2 [Hi Hrev]. cbv beta iota.
  eapply (wp_bind _ _ _ _ (λ '(_, c) s', s' = s2 ∧ e_left c = 0)).
  { destruct info as [[p c]|]; [by wp_return|]. eapply wp_conseq; [by apply wp_may, wp_pubdata_tx|..]; [|done].
    intros [p c] s3 _ (-> & H & _). done. }
  intros [p c] s' _ [-> Hc]. assert (moves s s2) as M02 by (by etransitivity).
  assert (res_wf s2.2) as Hs2 by (by apply M2).
  destruct (gas_refund_spec gas_limit per_gas c Hlim Hpg Hc s2.1 s2.2 Hs2) as (i & r' & Hrun & Hx & He & Hwf);
    [etransitivity; [apply M02|done]|apply tl_refunds|].
  pose proof (rx_total _ _ _ _ _ _ Hx) as Hsum. pose proof (rx_ranges _ _ _ _ _ _ Hx) as Hrg. clear Hx.
  eapply (wp_bind_run _ _ _ _ i (s2.1, r')).
  { unfold map_err. rewrite <- (surjective_pairing s2) in Hrun. by rewrite Hrun. }
  { split; [done|]. cbn [snd]. rewrite He. destruct Hs2 as [[] _]. done. }
  wp_step; [apply wp_mint_l1; unfold in_width; lia|]. intros u s3 M3 (Hw3 & Hrest & Hup).
  wp_step; [apply wp_may, wp_emit_log|]. intros u' s4 M4 [Hw4 _]. wp_return. cbn [fst] in *.
  destruct (later_block s1.1 s2.1) as [Hcb _]; [apply M2|]. rewrite Hcb in Hw3.
  split; cbn; try done; [lia|lia|]. by exists (world s2.1), (world s3.1).
Qed.

Lemma l1_native_per_gas_ok base is_priority_op :
  is_u256 base → ∃ n, l1_native_per_gas base price is_priority_op = Some n ∧ is_u256 n.
Proof.
  intros Hb. pose proof (fw_max_fee _ wf) as Hp. unfold l1_native_per_gas.
  destruct is_priority_op; [|by exists UPGRADE_TX_NATIVE_PER_GAS].
  assert (∀ x, is_u256 x → ∃ n, u_div_ceil x L1_TX_NATIVE_PRICE = Some n ∧ is_u256 n) as H.
  { intros x Hx. rewrite u_div_ceil_spec by done. eexists. split; [done|]. by apply ceil_range. }
  destruct (_ && _); by apply H.
Qed.

Lemma wp_l1_resources per per_gas sys :
  is_u256 per → is_u256 per_gas →
  wp later_tx (get_resources_for_tx gas_limit per per_gas (abi_calldata tx) L1_TX_INTRINSIC_L2_GAS
      L1_TX_INTRINSIC_PUBDATA L1_TX_INTRINSIC_NATIVE_COST true) sys
    (λ r s', s' = sys ∧ e_left (main_resources r) ≤ gas_limit * ERGS_PER_GAS ∧ 0 ≤ gas_limit < 2 ^ 62
       ∧ res_wf (main_resources r) ∧ e_left (withheld r) = 0)
    internal_x.
Proof.
  intros Hp Hg. pose proof (fw_gas_limit _ wf) as Hl. destruct (fw_data _ wf) as [_ Hd].
  assert (intrinsic_ok L1_TX_INTRINSIC_L2_GAS L1_TX_INTRINSIC_PUBDATA L1_TX_INTRINSIC_NATIVE_COST) as Hi by done.
  assert (Z.of_nat (length (abi_calldata tx)) < 2 ^ 32) as Hc by (destruct size_ok; lia).
  pose proof (l1_resources gas_limit per per_gas (abi_calldata tx) _ _ _ Hg Hc Hi sys Hl) as H. unfold wpf.
  destruct (get_resources_for_tx _ _ _ _ _ _ _ _ sys) as [[r|e|] s']; cbn [fst snd]; [| |done].
  2:{ destruct e; [done|]. by subst. }
  destruct H as [-> [He Hw Hm _]]. split; [done|]. split; [done|].
  destruct (cost_for_calldata_spec (abi_calldata tx) tt Hc) as [_ Hcg].
  unfold gas_charge in He. change L1_TX_INTRINSIC_L2_GAS with 21000 in He. change ERGS_PER_GAS with 256 in *.
  destruct Hm as [Hm Hm']. unfold res_wf, in_width in *. split_conj; try done; lia.
Qed.

Lemma wp_process_l1 is_priority_op sys :
  wpf odd_recipient later_tx (process_l1_transaction memories hooks tx is_priority_op) sys
    (λ r sys', l1_outcome (sys_metadata sys) is_priority_op (world sys) r (world sys')
       ∧ value + price * gas_limit ≤ deposited)
    internal_x.
Proof.
  pose proof (mo_basefee _ (sl_metadata sys)) as Hbf. pose proof (fw_max_fee _ wf) as Hp.
  pose proof (fw_gas_limit _ wf) as Hgl. pose proof (fw_gas_per_pubdata _ wf) as Hgp. pose proof (fw_value _ wf) as Hv.
  unfold process_l1_transaction. cbv zeta. wp_pure.
  destruct (l1_native_per_gas_ok _ is_priority_op Hbf) as (npg & -> & Hg). wp_pure.
  eapply (wp_bind _ _ _ _ (λ x s', s' = sys ∧ is_u256 x)).
  { apply wp_lift_opt; [typeclasses eauto|done|]. rewrite u_checked_mul_spec by (done || unfold in_width in *; lia).
    by intros x [<- Hx]%checked_Some. }
  intros per s' _ [-> Hper]. wp_step; [by apply wp_may, wp_l1_resources|]. intros r s' _ (-> & He & Hlim & Hwf & Hwh).
  eapply (wp_bind _ _ _ _ (λ x s', s' = sys ∧ x = price * gas_limit ∧ is_u256 x)).
  { apply wp_lift_opt; [typeclasses eauto|done|]. rewrite u_checked_mul_spec by (done || unfold in_width in *; lia).
    by intros x [<- Hx]%checked_Some. }
  intros x s' _ (-> & -> & Hx).
  eapply (wp_bind _ _ _ _ (λ x s', s' = sys ∧ x = value + price * gas_limit)).
  { apply wp_lift_opt; [typeclasses eauto|done|]. rewrite u_checked_add_spec by done. by intros y [<- Hy]%checked_Some. }
  intros y s' _ [-> ->]. eapply (wp_bind _ _ _ _ (λ _ s', s' = sys ∧ value + price * gas_limit ≤ deposited)).
  { apply wp_check; [typeclasses eauto|done|]. intros Hd%negb_false_iff%Z.leb_le. done. }
  intros u s' _ [-> Hd]. apply wp_with_resources.
  eapply wp_conseq; [apply (wp_run_l1 _ _ _ _ _ (sys, main_resources r)); done|by intros|done].
Qed.
End L1.
