(* ===== verification/ProcessTheorems.v ===== *)
(** * Theorems about transaction processing

    Any transaction: what it means that it was accepted, why it was refused, and that
    processing it does not panic. *)

From stdpp Require Import strings.
From S2P Require Import Prelude Resources U256 SystemInterface BootloaderErrors RlpParser TxFormats TxTheorems AbiTx AbiTheorems.
From S2P Require Import EvmConstants EvmState EvmLogic BootSystem Hooks HookTheorems Runner RunnerTheorems TxSystem.
From S2P Require Import GasHelpers GasTheorems Transaction TxWellFormed TxWp TxFlow FlowTheorems ListTheorems.
From S2P Require Import ExecTheorems ProcessTx SettleTheorems L2Theorems L1Theorems.

Section Process.
Context {R : Ruint} {RS : RuintSpec} {UZ : Usize} {FT : Features} {SYS : System}
  {LAWS : SystemLaws} {EXT : SystemExt} {XLAWS : SystemExtLaws} {IL : InputLimit} {TX : TxSystem} {TLAWS : TxSystemLaws}
  {CFG : ExecutionConfig} {TF : TxFeatures}.
#[local] Existing Instance system_keccak.

(** What the system calls a transaction: its format and, for an RLP transaction, its
    sender. *)
Definition in_format (sys : SysState) (f : TxEncodingFormat) : Prop := (oracle_tx_format sys).1 = Val f.
Definition sent_by (sys : SysState) (from : Z) : Prop := (oracle_tx_from (oracle_tx_format sys).2).1 = Val from.

(** The parser of that format makes [t] of a buffer. *)
Definition parsed (input : list Z) (sys : SysState) (t : Transaction) : Prop :=
  match t with
  | TxRlp t => in_format sys FormatRlp
      ∧ ∃ from, sent_by sys from ∧ is_b160 from
        ∧ parse_from_buffer input (md_chain_id (sys_metadata sys)) from tt = (Val t, tt)
  | TxAbi tx => in_format sys FormatAbi ∧ abi_try_from_buffer input tt = (Val tx, tt)
  end.

(** The parser of that format refuses a buffer with [e]. *)
Definition unparsable (input : list Z) (sys : SysState) (e : InvalidTransaction) : Prop :=
  (in_format sys FormatRlp
    ∧ ∃ from, sent_by sys from
      ∧ (parse_from_buffer input (md_chain_id (sys_metadata sys)) from tt).1 = Err (Validation e))
  ∨ (in_format sys FormatAbi ∧ e = InvalidEncoding ∧ ∃ x, (abi_try_from_buffer input tt).1 = Err x).

(** A transaction from L1 whose refund recipient is not an address, which its parser does
    not check. *)
Definition odd_recipient (tx : AbiEncodedTransaction) : Prop := ¬ is_b160 (pv_value (ab_reserved_1 tx)).

Section Input.
Variable input : list Z.
Hypothesis input_bytes : Forall is_u8 input.
Hypothesis input_size : tx_size_ok (Z.of_nat (length input)).

Lemma abi_parse_any {S} (s : S) :
  abi_try_from_buffer input s = ((abi_try_from_buffer input tt).1, s).
Proof.
  unfold abi_try_from_buffer, on_cursor, mbind, M_bind.
  destruct (abi_fields input (mkAbiParser input 0)) as [[tx|e|] p]; [|done|done].
  assert (validate_structure tx s = ((validate_structure tx tt).1, s)) as ->.
  { unfold validate_structure, when, mbind, M_bind.
    by repeat match goal with |- context [negb ?b] => destruct b; cbn [negb orb]; try done end. }
  by destruct (validate_structure tx tt) as [[]].
Qed.

Lemma wp_oracle {A} (Q : A → Prop) (m : M SysState InternalError A) sys :
  sys_ok Q m → (∀ s, world (m s).2 = world s) →
  wp later_tx (map_err tx_error_of_internal m) sys
    (λ a sys', m sys = (Val a, sys') ∧ Q a ∧ later sys sys' ∧ world sys' = world sys) (λ e _, is_internal e).
Proof.
  intros Hm Hw. specialize (Hw sys). destruct (Hm sys) as [H1 H2]. apply wp_map_err.
  split; [by apply later_later_tx|]. by destruct (m sys) as [[f|e|] s1].
Qed.

Lemma wp_try_from_buffer sys :
  wp later_tx (try_from_buffer input) sys
    (λ t sys', parsed input sys t ∧ later sys sys' ∧ world sys' = world sys)
    (λ e _, match e with Validation e => unparsable input sys e | Internal _ => True end).
Proof.
  pose proof (mo_chain_id _ (sl_metadata sys)) as Hc. destruct input_size as [Hsize _].
  assert (∀ A Q (m : M SysState InternalError A) s, sys_ok Q m → (∀ s, world (m s).2 = world s) →
    wp later_tx (map_err tx_error_of_internal m) s (λ a s', m s = (Val a, s') ∧ Q a ∧ later s s' ∧ world s' = world s)
      (λ e _, match e with Validation e => unparsable input sys e | Internal _ => True end)) as Ho.
  { intros A Q m s H1 H2. eapply wp_conseq; [by apply wp_oracle|by intros|]. by intros [e|e] s1 _ H. }
  unfold try_from_buffer. wp_pure. wp_step; [apply Ho; [apply tl_format|apply tl_format_world]|].
  intros f s1 _ (Ef & _ & L1 & Hw1). assert (in_format sys f) as Hf by (unfold in_format; by rewrite Ef). destruct f.
  - pose proof (abi_parse_spec input input_bytes ltac:(lia)) as Hp. wp_step.
    { apply wp_map_err. unfold wpf. rewrite abi_parse_any.
      instantiate (1 := λ tx s', parsed input sys (TxAbi tx) ∧ s' = s1).
      destruct (abi_try_from_buffer input tt) as [[tx|e|] []] eqn:E; cbn [fst snd]; (split; [done|]); [done| |done].
      right. split; [done|]. split; [done|]. exists e. by rewrite E. }
    intros tx s' _ [Htx ->]. by wp_return.
  - wp_step; [apply Ho; [apply tl_from|apply tl_from_world]|]. intros from s2 _ (Es & Hb & L2 & Hw2).
    assert (sent_by sys from) as Hs by (unfold sent_by; rewrite Ef; cbn; by rewrite Es).
    destruct (parse_from_buffer_spec input (md_chain_id (sys_metadata sys)) from Hc input_bytes ltac:(lia)) as [Hp _]. wp_step.
    { unfold wpf, on_cursor. instantiate (1 := λ '(t, _) s', parsed input sys (TxRlp t) ∧ s' = s2).
      destruct (parse_from_buffer input _ from tt) as [[t|e|] []] eqn:E; cbn [fst snd]; (split; [done|]); [| |done].
      - split; [|done]. split; [done|]. by exists from.
      - destruct Hp as (e' & -> & _). left. split; [done|]. exists from. by rewrite E. }
    intros [t u] s' _ [Ht ->]. wp_return. split_conj; [done|by etransitivity|congruence].
Qed.

(** ** Any transaction *)

Section Transaction.
Variables (memories : RunnerMemoryBuffers) (hooks : HooksStorage).
Hypothesis hooks_wf : hooks_ok hooks.
Hypothesis heaps_ok : buffer_ok (heaps memories).
Hypothesis return_ok : buffer_ok (return_data memories).

(** What a deposit has to cover. *)
Definition covered (tx : AbiEncodedTransaction) : Prop :=
  pv_value (ab_value tx) + pv_value (ab_max_fee_per_gas tx) * pv_value (ab_gas_limit tx)
  ≤ pv_value (ab_reserved_0 tx).

Definition accepted (first : bool) (sys : SysState) (r : TxProcessingResult) (w' : World) : Prop :=
  ∃ t, parsed input sys t ∧
    match t with
    | TxRlp t => l2_outcome memories hooks (sys_metadata sys) t (world sys) r w'
    | TxAbi tx =>
        l1_outcome memories hooks tx (sys_metadata sys) (is_l1_l2 (TxAbi tx)) (world sys) r w'
        ∧ covered tx ∧ (is_upgrade_tx r = true → first = true)
    end.

Definition refused (first : bool) (sys : SysState) (e : TxError) : Prop :=
  match e with
  | Validation e =>
      unparsable input sys e
      ∨ (∃ t, parsed input sys (TxRlp t) ∧ justified (sys_metadata sys) t (world sys) e)
      ∨ (e = UpgradeTxNotFirst ∧ first = false
         ∧ ∃ tx, parsed input sys (TxAbi tx) ∧ is_upgrade (TxAbi tx) = true)
  | Internal _ => True
  end.

Definition odd_deposit (sys : SysState) : Prop := ∃ tx, parsed input sys (TxAbi tx) ∧ odd_recipient tx.

Lemma wp_process_transaction first sys :
  wpf (odd_deposit sys) later_tx (process_transaction input memories hooks first) sys
    (λ r sys', accepted first sys r (world sys')) (λ e _, refused first sys e).
Proof.
  pose proof (sl_metadata sys) as Hmd. destruct input_size as [Hsize _]. unfold process_transaction. wp_step.
  { eapply wp_conseq; [apply wp_may, wp_try_from_buffer|intros ? ? _ H; exact H|]. intros [e|e] s1 _ H; [by left|done]. }
  intros t s1 _ (Hp & [Hm _] & Hw). destruct t as [t|tx].
  - destruct Hp as (Hf & from & Hs & Hb160 & Hp).
    destruct (parsed_wf input (md_chain_id (sys_metadata sys)) from t tt) as (Hwf & Hb & Hh & _); try done; [apply Hmd|lia|].
    eapply wp_conseq; [apply wp_may, wp_process_l2; try done; by rewrite Hb|..]; rewrite Hm, Hw.
    + intros r s2 _ H. exists (TxRlp t). split; [|done]. split; [done|]. by exists from.
    + intros [e|e] s2 _ H; [|done]. right. left. exists t. split; [|done]. split; [done|]. by exists from.
  - destruct (parsed_l1_wf input tx tt) as [Hwf Hb]; try done; [lia|apply Hp|].
    assert (∀ prio, is_l1_l2 (TxAbi tx) = prio → (prio = false → first = true) →
      wpf (odd_deposit sys) later_tx (process_l1_transaction memories hooks tx prio) s1
        (λ r s', accepted first sys r (world s')) (λ e _, refused first sys e)) as Hl1.
    { intros prio <- Hfirst. eapply wp_conseq; [eapply wp_may_more; [|
        apply (wp_process_l1 memories hooks hooks_wf heaps_ok return_ok tx Hwf); by rewrite Hb]|..]; cbv beta; rewrite ?Hm, ?Hw.
      - intros Hodd. by exists tx.
      - intros r s2 _ [H Hcov]. exists (TxAbi tx). split_conj; [done..|]. destruct (fo_kind _ _ _ _ _ _ _ _ H) as [_ ->].
        intros Hn%negb_true_iff. auto.
      - intros [e|e] s2 _ H; done. }
    destruct (is_upgrade (TxAbi tx)) eqn:Eu.
    + destruct first; cbn [negb]; [|wp_fail; right; right; split_conj; [done..|by exists tx]]. apply Hl1; [|done].
      cbn [is_upgrade is_l1_l2] in *. apply Z.eqb_eq in Eu. by rewrite Eu.
    + destruct (is_l1_l2 (TxAbi tx)) eqn:El; [by apply Hl1|].
      destruct (fw_type _ Hwf) as [Ht|Ht]; cbn [is_upgrade is_l1_l2] in *; by rewrite Ht in *.
Qed.

(** C1: processing a transaction.  The buffer holds any bytes, fewer than [2 ^ 32 - 64]
    and no more than a call can have as its input; the hooks keep their contract and
    the buffers of the runner are within the same bounds.  Whatever code the
    transaction runs, processing it ends in one of four ways.  It is accepted: the
    parser of the format the system gives for it decodes it, and it has the outcome
    of its kind.  An L2 transaction was signed by its sender and had the right nonce and
    enough funds, paid for its whole gas limit at the price of EIP-1559, was executed
    or, if it failed, undone, and was refunded the gas it did not use; an L1
    transaction was covered by its deposit, was executed or undone, and settled the
    deposit; an upgrade was the first of the block.  Or it is refused: that parser
    refused it with this error, or the error is true of the decoded transaction
    (running out of gas or of native resources before the execution is not
    characterised), or it is an upgrade that is not the first of the block.  Or there
    is an internal error.  Or it panics, which happens only to a decoded L1
    transaction whose refund recipient is not an address. *)
Theorem transaction_outcome first sys :
  match process_transaction input memories hooks first sys with
  | (Val r, sys') => later_tx sys sys' ∧ accepted first sys r (world sys')
  | (Err e, sys') => later_tx sys sys' ∧ refused first sys e
  | (Fault, _) => odd_deposit sys
  end.
Proof.
  destruct (wp_process_transaction first sys) as [H1 H2].
  by destruct (process_transaction input memories hooks first sys) as [[r|e|] sys'].
Qed.

(** C21: deposits are not censored.  A transaction from L1 that decodes, and is the
    first of the block if it is an upgrade, is never refused: it is processed, or
    there is an internal error, or, only if its refund recipient is not an address, a
    panic. *)
Theorem l1_transactions_not_rejected first sys tx :
  (oracle_tx_format sys).1 = Val FormatAbi → abi_try_from_buffer input tt = (Val tx, tt) →
  (is_upgrade (TxAbi tx) = true → first = true) →
  match process_transaction input memories hooks first sys with
  | (Val r, _) => is_l1_tx r = is_l1_l2 (TxAbi tx) ∧ is_upgrade_tx r = is_upgrade (TxAbi tx)
  | (Err (Internal _), _) => True
  | (Err (Validation _), _) => False
  | (Fault, _) => odd_recipient tx
  end.
Proof.
  intros Hfmt Hp Hfirst. destruct input_size as [Hsize _]. destruct (parsed_l1_wf input tx tt) as [Hwf Hb]; try done; [lia|].
  assert (∀ prio sys1, match process_l1_transaction memories hooks tx prio sys1 with
    | (Val r, _) => is_l1_tx r = prio ∧ is_upgrade_tx r = negb prio
    | (Err e, _) => is_internal e | (Fault, _) => odd_recipient tx end) as Hl1.
  { intros prio sys1. destruct (wp_process_l1 memories hooks hooks_wf heaps_ok return_ok tx Hwf) with prio sys1 as [_ H];
      [by rewrite Hb|].
    destruct (process_l1_transaction memories hooks tx prio sys1) as [[r|e|] s']; [|done|done]. apply H. }
  unfold process_transaction, try_from_buffer, mbind, M_bind, gets, map_err.
  destruct (oracle_tx_format sys) as [o sys1]. cbn in Hfmt. subst o. rewrite abi_parse_any, Hp. cbn [fst mret M_ret].
  destruct (fw_type _ Hwf) as [Ht|Ht]; cbn [is_upgrade is_l1_l2] in *; rewrite Ht in *; cbn in Hfirst |- *.
  - rewrite Hfirst by done. cbn. specialize (Hl1 false sys1).
    by destruct (process_l1_transaction memories hooks tx false sys1) as [[r|[e|e]|] s'].
  - specialize (Hl1 true sys1). by destruct (process_l1_transaction memories hooks tx true sys1) as [[r|[e|e]|] s'].
Qed.
End Transaction.
End Input.

(** ** Balances *)

Definition at_account (a b v : Z) : Z := if b =? a then v else 0.

Lemma credited_accounts a v w w' b :
  credited a v w w' → balance w' b = balance w b + at_account a b v ∧ nonce w' b = nonce w b.
Proof.
  intros [Hr ->]. rewrite tl_get_balance, tl_get_nonce by done. unfold at_account.
  destruct (Z.eqb_spec b a) as [-> |]; split; lia.
Qed.

Lemma paid_accounts t price w b :
  valid_in t w → l2_wf t → 0 ≤ price ≤ rtx_max_fee_per_gas t →
  balance (paid t price w) b = balance w b - at_account (from_ t) b (price * rtx_gas_limit t)
  ∧ nonce (paid t price w) b = nonce w b + at_account (from_ t) b 1.
Proof.
  intros [_ _ Hn Hb _] Hwf Hp. pose proof (tl_balance_range w (from_ t)) as Hr.
  pose proof (lw_value _ Hwf). pose proof (lw_gas_limit _ Hwf). unfold paid, at_account, max_cost in *.
  rewrite tl_get_balance, tl_get_nonce, tl_get_nonce' by (done || unfold in_width in *; nia).
  rewrite tl_get_balance'. destruct (Z.eqb_spec b (from_ t)) as [-> |]; split; lia.
Qed.

Section Accounting.
Variables (memories : RunnerMemoryBuffers) (hooks : HooksStorage) (input : list Z).
Hypothesis hooks_wf : hooks_ok hooks.
Hypothesis heaps_ok : buffer_ok (heaps memories).
Hypothesis return_ok : buffer_ok (return_data memories).
Hypothesis input_bytes : Forall is_u8 input.
Hypothesis input_size : tx_size_ok (Z.of_nat (length input)).

(** C8: what a failed transaction costs.  If the execution of an L2 transaction fails,
    its sender has paid exactly the gas that was used, at the price of EIP-1559, the
    operator has got it (without the base fee, where that is burnt), and no other
    balance has changed.  The nonce of the sender went up by one and no other nonce has
    changed, unless EIP-7702 is enabled and the transaction has an authorization list:
    its authorizations stay applied when the execution fails, and can only have
    raised nonces further. *)
Theorem reverted_transaction_charges from t sys r sys' :
  is_b160 from → parse_from_buffer input (md_chain_id (sys_metadata sys)) from tt = (Val t, tt) →
  process_l2_transaction memories hooks (TxRlp t) sys = (Val r, sys') →
  is_success (tp_result r) = false →
  let md := sys_metadata sys in
  let price := effective_price md t in
  ∀ a,
    balance (world sys') a
    = balance (world sys) a - at_account from a (price * tp_gas_used r)
      + at_account (md_coinbase md) a (operator_price (md_eip1559_basefee md) price * tp_gas_used r)
    ∧ nonce (world sys) a + at_account from a 1 ≤ nonce (world sys') a
    ∧ (eip_7702 = false ∨ authorization_list t = None →
       nonce (world sys') a = nonce (world sys) a + at_account from a 1)
    ∧ 0 ≤ tp_gas_used r ≤ rtx_gas_limit t.
Proof.
  intros Hf Hp Hrun Hfail md price a. pose proof (sl_metadata sys) as Hmd. destruct input_size as [Hsize _].
  destruct (parsed_wf input (md_chain_id (sys_metadata sys)) from t tt) as (Hwf & Hb & Hh & <- & _); try done; [apply Hmd|lia|].
  pose proof (wp_run _ _ _ _ _ (wp_process_l2 memories hooks hooks_wf heaps_ok return_ok t sys Hwf ltac:(by rewrite Hb) Hh) _ _ Hrun)
    as [_ Ho].
  destruct (ro_world _ _ _ _ _ _ _ Ho) as (wd & we & Hdel & Hd & Hwe & w1 & H1 & H2).
  rewrite Hfail in Hwe. subst we. fold md price in H1, H2, Hdel, Hd. destruct (Hdel a) as [Bd Nd].
  destruct (credited_accounts _ _ _ _ a H1) as [B1 N1], (credited_accounts _ _ _ _ a H2) as [B2 N2].
  destruct (paid_accounts t price (world sys) a (ro_valid _ _ _ _ _ _ _ Ho) Hwf) as [B0 N0].
  { apply effective_price_range; [done|apply Hmd]. }
  split_conj; [|rewrite N2, N1; lia|intros Hauth; rewrite (Hd Hauth) in N1; congruence|by apply (ro_gas _ _ _ _ _ _ _ Ho)..].
  rewrite B2, B1, Bd, B0. unfold at_account. destruct (a =? from_ t), (a =? md_coinbase md); lia.
Qed.

(** C9: a deposit is accounted for.  An L1 transaction that is processed was covered
    by its deposit.  The fee for the gas it used goes to the operator, and what is
    left of the deposit without the fee, and without the value if the execution
    succeeded, to the refund recipient; that is never negative.  Both are credited to the
    world the execution left, and nothing else is: if it succeeded, that is the world
    of the call, made with the value minted for the sender; if it failed, it is the
    world before the transaction, so that the whole deposit is shared between the two,
    and the transaction was not an upgrade. *)
Theorem deposit_accounted tx prio sys r sys' :
  abi_try_from_buffer input tt = (Val tx, tt) →
  process_l1_transaction memories hooks tx prio sys = (Val r, sys') →
  let deposited := pv_value (ab_reserved_0 tx) in
  let value := if is_success (tp_result r) then pv_value (ab_value tx) else 0 in
  let fee := tp_gas_used r * pv_value (ab_max_fee_per_gas tx) in
  covered tx
  ∧ 0 ≤ tp_gas_used r ≤ pv_value (ab_gas_limit tx)
  ∧ 0 ≤ deposited - fee - value
  ∧ (prio = false → is_success (tp_result r) = true)
  ∧ ∃ we,
    (if is_success (tp_result r) then l1_executed memories hooks tx (world sys) (tp_result r) we else we = world sys)
    ∧ ∀ a, balance (world sys') a
        = balance we a + at_account (md_coinbase (sys_metadata sys)) a fee
          + at_account (pv_value (ab_reserved_1 tx)) a (deposited - fee - value)
      ∧ nonce (world sys') a = nonce we a.
Proof.
  intros Hp Hrun deposited value fee. destruct input_size as [Hsize _].
  destruct (parsed_l1_wf input tx tt) as [Hwf Hb]; try done; [lia|].
  pose proof (wp_run _ _ _ _ _ (wp_process_l1 memories hooks hooks_wf heaps_ok return_ok tx Hwf ltac:(by rewrite Hb) prio sys)
    _ _ Hrun) as [_ [Ho Hcov]].
  destruct (fo_world _ _ _ _ _ _ _ _ Ho) as (we & ws & Hwe & (w1 & H1 & H2) & Hs).
  split_conj; [done|by apply (fo_gas _ _ _ _ _ _ _ _ Ho)..|by apply (fo_rest _ _ _ _ _ _ _ _ Ho)|apply (fo_upgrade _ _ _ _ _ _ _ _ Ho)|].
  exists we. split; [done|]. intros a. destruct (Hs a) as [-> ->], (credited_accounts _ _ _ _ a H1) as [B1 N1].
  change (l1_fee tx (tp_gas_used r)) with fee in *.
  change (l1_rest tx (is_success (tp_result r)) (tp_gas_used r)) with (deposited - fee - value) in *.
  destruct (Z.ltb_spec 0 (deposited - fee - value)) as [Hpos|Hpos].
  - destruct (credited_accounts _ _ _ _ a H2) as [B2 N2]. split; [lia|congruence].
  - subst ws. pose proof (fo_rest _ _ _ _ _ _ _ _ Ho) as Hr0.
    change (0 ≤ deposited - fee - value) in Hr0. split; [|congruence]. rewrite B1. unfold at_account.
    destruct (a =? pv_value (ab_reserved_1 tx)); lia.
Qed.
End Accounting.
End Process.
