(* ===== verification/Block.v ===== *)
(** * The block

    Models [basic_bootloader/src/bootloader/{mod,block_header,result_keeper}.rs] and
    [try_begin_next_tx] of [zk_ee/src/system/mod.rs] with the buffer of
    [zk_ee/src/utils/aligned_vector.rs]: reading transactions from the oracle, the loop
    over them with the limits of the block, and the header of the sealed block.

    [run_prepared] is modelled from the initialised system to the point where
    [System::finish] takes over. *)

From stdpp Require Import strings.
From S2P Require Import Prelude Resources U256 SystemInterface BootloaderErrors TxFormats RlpHash.
From S2P Require Import EvmState BootSystem Hooks Runner TxSystem GasHelpers TxFlow ProcessTx.

(** ** Reading a transaction *)

Inductive NextTxInterfaceError : Type :=
| DestinationBufferInsufficient
| TxWriteIteratorTooBig
| TxLengthTooLarge.

Definition NextTxSubsystemError : Type := SubsystemError NextTxInterfaceError Empty_set.

(** The words, and the number of bytes in use. *)
Record UsizeAlignedByteBox : Type := mkByteBox { bb_inner : list Z; byte_capacity : Z }.

(** ** Headers *)

Record BlockHeader : Type := mkHeader {
  parent_hash : list Z;
  ommers_hash : list Z;
  beneficiary : Z;
  state_root : list Z;
  transactions_root : list Z;
  receipts_root : list Z;
  logs_bloom : list Z;
  difficulty : Z;
  number : Z;
  bh_gas_limit : Z;
  bh_gas_used : Z;
  timestamp : Z;
  extra_data : list Z;
  mix_hash : list Z;
  bh_nonce : list Z;
  base_fee_per_gas : Z
}.

Definition EMPTY_OMMER_ROOT_HASH : list Z := [
  0x1d; 0xcc; 0x4d; 0xe8; 0xde; 0xc7; 0x5d; 0x7a; 0xab; 0x85; 0xb5; 0x67; 0xb6; 0xcc; 0xd4; 0x1a;
  0xd3; 0x12; 0x45; 0x1b; 0x94; 0x8a; 0x74; 0x13; 0xf0; 0xa1; 0x42; 0xfd; 0x40; 0xd4; 0x93; 0x47].

Definition BlockHeader_new (parent_hash : list Z) (beneficiary : Z)
    (transactions_rolling_hash : list Z) (number gas_limit gas_used timestamp : Z)
    (mix_hash : list Z) (base_fee_per_gas : Z) : BlockHeader := {|
  parent_hash := parent_hash;
  ommers_hash := EMPTY_OMMER_ROOT_HASH;
  beneficiary := beneficiary;
  state_root := repeat 0 32;
  transactions_root := transactions_rolling_hash;
  receipts_root := repeat 0 32;
  logs_bloom := repeat 0 256;
  difficulty := 0;
  number := number;
  bh_gas_limit := gas_limit;
  bh_gas_used := gas_used;
  timestamp := timestamp;
  extra_data := [];
  mix_hash := mix_hash;
  bh_nonce := repeat 0 8;
  base_fee_per_gas := base_fee_per_gas
|}.

Section Header.
Context {UZ : Usize} {KK : Keccak}.

Definition header_list_len (self : BlockHeader) : Z :=
  estimate_bytes_encoding_len (parent_hash self)
  + estimate_bytes_encoding_len (ommers_hash self)
  + ADDRESS_ENCODING_LEN
  + estimate_bytes_encoding_len (state_root self)
  + estimate_bytes_encoding_len (transactions_root self)
  + estimate_bytes_encoding_len (receipts_root self)
  + estimate_bytes_encoding_len (logs_bloom self)
  + estimate_number_encoding_len (be_bytes 32 (difficulty self))
  + estimate_number_encoding_len (be_bytes 8 (number self))
  + estimate_number_encoding_len (be_bytes 8 (bh_gas_limit self))
  + estimate_number_encoding_len (be_bytes 8 (bh_gas_used self))
  + estimate_number_encoding_len (be_bytes 8 (timestamp self))
  + estimate_bytes_encoding_len (extra_data self)
  + estimate_bytes_encoding_len (mix_hash self)
  + estimate_bytes_encoding_len (bh_nonce self)
  + estimate_number_encoding_len (be_bytes 8 (base_fee_per_gas self)).

(** What [hash] feeds to the hasher. *)
Definition header_encoding (self : BlockHeader) : list Z :=
  let hasher := apply_list_length_encoding_to_hash (header_list_len self) [] in
  let hasher := apply_bytes_encoding_to_hash (parent_hash self) hasher in
  let hasher := apply_bytes_encoding_to_hash (ommers_hash self) hasher in
  let hasher := apply_bytes_encoding_to_hash (be_bytes 20 (beneficiary self)) hasher in
  let hasher := apply_bytes_encoding_to_hash (state_root self) hasher in
  let hasher := apply_bytes_encoding_to_hash (transactions_root self) hasher in
  let hasher := apply_bytes_encoding_to_hash (receipts_root self) hasher in
  let hasher := apply_bytes_encoding_to_hash (logs_bloom self) hasher in
  let hasher := apply_number_encoding_to_hash (be_bytes 32 (difficulty self)) hasher in
  let hasher := apply_number_encoding_to_hash (be_bytes 8 (number self)) hasher in
  let hasher := apply_number_encoding_to_hash (be_bytes 8 (bh_gas_limit self)) hasher in
  let hasher := apply_number_encoding_to_hash (be_bytes 8 (bh_gas_used self)) hasher in
  let hasher := apply_number_encoding_to_hash (be_bytes 8 (timestamp self)) hasher in
  let hasher := apply_bytes_encoding_to_hash (extra_data self) hasher in
  let hasher := apply_bytes_encoding_to_hash (mix_hash self) hasher in
  let hasher := apply_bytes_encoding_to_hash (bh_nonce self) hasher in
  apply_number_encoding_to_hash (be_bytes 8 (base_fee_per_gas self)) hasher.

Definition header_hash (self : BlockHeader) : list Z := Keccak256 (header_encoding self).
End Header.

(** ** The loop *)

Definition MAX_NUMBER_OF_LOGS : Z := 16384.
Definition MAX_TX_GAS_LIMIT : Z := MAX_BLOCK_GAS_LIMIT.
Definition MAX_HEAP_BUFFER_SIZE : Z := Z.shiftl 1 27.
Definition MAX_RETURN_BUFFER_SIZE : Z := Z.shiftl 1 28.

Record TxProcessingOutput : Type := mkTxOutput {
  to_status : bool;
  to_output : list Z;
  contract_address : option Z;
  to_gas_used : Z;
  to_gas_refunded : Z;
  to_computational_native_used : Z;
  to_native_used : Z;
  to_pubdata_used : Z
}.

Section Block.
Context {R : Ruint} {UZ : Usize} {FT : Features} {SYS : System} {EXT : SystemExt} {TX : TxSystem}
  {CFG : ExecutionConfig} {TF : TxFeatures}.
#[local] Existing Instance system_keccak.

(** *** The buffer *)

Definition num_usize_words_for_u8_capacity (u8_capacity : Z) : Z :=
  let num_words := next_multiple_of u8_capacity (usize_bits / 8) / (usize_bits / 8) in
  next_multiple_of num_words 2.

(** The contents are not initialised. *)
Definition preallocated_in (byte_capacity : Z) : UsizeAlignedByteBox :=
  mkByteBox (uninitialized (Z.to_nat (num_usize_words_for_u8_capacity byte_capacity))) byte_capacity.

Definition as_slice (self : UsizeAlignedByteBox) : list Z :=
  take (Z.to_nat (byte_capacity self)) (concat (map (le_bytes usize_bytes) (bb_inner self))).

Definition truncated_to_byte_length {S E} (byte_len : Z) (self : UsizeAlignedByteBox)
    : M S E UsizeAlignedByteBox :=
  assert_that (byte_len <=? byte_capacity self) ;;
  mret (mkByteBox (bb_inner self) byte_len).

(** [UsizeSliceWriter::write_usize], for all words of an iterator. *)
Definition write_words (words : list Z) (self : UsizeAlignedByteBox) : UsizeAlignedByteBox :=
  mkByteBox (words ++ drop (length words) (bb_inner self)) (byte_capacity self).

(** [System::try_begin_next_tx]; [None] when there are no more transactions. *)
Definition system_try_begin_next_tx {E}
    : M SysState E (option (NextTxSubsystemError + Z * UsizeAlignedByteBox)) :=
  next_tx_size ← attempt oracle_next_tx_size;
  match next_tx_size with
  | inl e => mret (Some (inl (SLeafDefect e)))
  | inr next_tx_len_bytes =>
      if next_tx_len_bytes =? 0 then mret None
      else if umax 32 - (4 - 1) <? next_tx_len_bytes then
        mret (Some (inl (SLeafUsage TxLengthTooLarge)))
      else
        let buffer := preallocated_in next_tx_len_bytes in
        let writable := Z.of_nat (length (bb_inner buffer)) in
        if writable <? num_usize_words_for_u8_capacity next_tx_len_bytes then
          mret (Some (inl (SLeafUsage DestinationBufferInsufficient)))
        else
          tx_iterator ← attempt oracle_tx_data_words;
          match tx_iterator with
          | inl e => mret (Some (inl (SLeafDefect e)))
          | inr words =>
              if writable <? Z.of_nat (length words) then
                mret (Some (inl (SLeafUsage TxWriteIteratorTooBig)))
              else
                modify begin_next_tx ;;
                mret (Some (inr (next_tx_len_bytes, write_words words buffer)))
          end
  end.

Definition try_begin_next_tx {E}
    : M SysState E (option (NextTxSubsystemError + UsizeAlignedByteBox)) :=
  r ← system_try_begin_next_tx;
  match r with
  | None => mret None
  | Some (inl e) => mret (Some (inl e))
  | Some (inr (tx_length_in_bytes, buffer)) =>
      buffer ← truncated_to_byte_length tx_length_in_bytes buffer;
      mret (Some (inr buffer))
  end.

(** *** The state *)

(** The variables of [run_prepared], and the results handed to the result keeper. *)
Record BlockState : Type := mkBlock {
  b_system : SysState;
  tx_rolling_hash : list Z;
  l1_to_l2_txs_hasher : list Z;
  first_tx : bool;
  upgrade_tx_hash : list Z;
  block_gas_used : Z;
  block_computational_native_used : Z;
  block_pubdata_used : Z;
  tx_processed : list (InvalidTransaction + TxProcessingOutput)
}.

Definition initial_block (sys : SysState) : BlockState :=
  mkBlock sys (repeat 0 32) [] true (repeat 0 32) 0 0 0 [].

Abbreviation BlM := (M BlockState BootloaderSubsystemError).

Definition set_block_system (sys : SysState) (b : BlockState) : BlockState :=
  mkBlock sys (tx_rolling_hash b) (l1_to_l2_txs_hasher b) (first_tx b) (upgrade_tx_hash b)
    (block_gas_used b) (block_computational_native_used b) (block_pubdata_used b) (tx_processed b).

Definition on_block {A E} (m : M SysState E A) : M BlockState E A := zoom b_system set_block_system m.

Definition keep_result (r : InvalidTransaction + TxProcessingOutput) : BlM unit :=
  modify (λ b, mkBlock (b_system b) (tx_rolling_hash b) (l1_to_l2_txs_hasher b) (first_tx b)
    (upgrade_tx_hash b) (block_gas_used b) (block_computational_native_used b)
    (block_pubdata_used b) (tx_processed b ++ [r])).

Definition check_for_block_limits (md : Metadata)
    (gas_used computational_native_used pubdata_used logs_used : Z) : option InvalidTransaction :=
  if resources_for_tester then None
  else if md_block_gas_limit md <? gas_used then Some BlockGasLimitReached
  else if MAX_NATIVE_COMPUTATIONAL <? computational_native_used then Some BlockNativeLimitReached
  else if md_pubdata_limit md <? pubdata_used then Some BlockPubdataLimitReached
  else if MAX_NUMBER_OF_LOGS <? logs_used then Some BlockL2ToL1LogsLimitReached
  else None.

Definition processing_output (r : TxProcessingResult) : TxProcessingOutput :=
  let '(status, output, contract_address) :=
    match tp_result r with
    | Success (Call output) => (true, output, None)
    | Success (Create output contract_address) => (true, output, Some contract_address)
    | RevertResult output => (false, output, None)
    end in
  mkTxOutput status output contract_address (tp_gas_used r) (gas_refunded r)
    (computational_native_used r) (tp_native_used r) (pubdata_used r).

(** The accumulators after an accepted transaction. *)
Definition accumulate (r : TxProcessingResult) (b : BlockState) : BlockState :=
  mkBlock (b_system b)
    (Keccak256 (tx_rolling_hash b ++ tp_tx_hash r))
    (if is_l1_tx r then l1_to_l2_txs_hasher b ++ tp_tx_hash r else l1_to_l2_txs_hasher b)
    false
    (if is_upgrade_tx r then tp_tx_hash r else upgrade_tx_hash b)
    (wrap 64 (block_gas_used b + tp_gas_used r))
    (wrap 64 (block_computational_native_used b + computational_native_used r))
    (wrap 64 (block_pubdata_used b + pubdata_used r))
    (tx_processed b).

(** *** A step *)

(** Revert to the state before the transaction. *)
Definition reject (pre_tx_rollback_handle : Snapshot) (e : InvalidTransaction) : BlM unit :=
  on_block (finish_global_frame (Some pre_tx_rollback_handle)) ;;
  keep_result (inl e).

Definition accept (r : TxProcessingResult) : BlM unit :=
  modify (accumulate r) ;;
  on_block (finish_global_frame None) ;;
  keep_result (inr (processing_output r)) ;;
  on_block (map_err SLeafDefect finish_tx).

Definition conclude (pre_tx_rollback_handle : Snapshot) (tx_result : TxError + TxProcessingResult)
    : BlM unit :=
  match tx_result with
  | inl (Internal err) => on_block (finish_global_frame None) ;; throw err
  | inl (Validation err) => reject pre_tx_rollback_handle err
  | inr r =>
      b ← gets id;
      match check_for_block_limits (sys_metadata (b_system b))
              (wrap 64 (block_gas_used b + tp_gas_used r))
              (wrap 64 (block_computational_native_used b + computational_native_used r))
              (wrap 64 (block_pubdata_used b + pubdata_used r)) (logs_len (b_system b)) with
      | Some err => reject pre_tx_rollback_handle err
      | None => accept r
      end
  end.

(** [.expect("must heat coinbase")]. *)
Definition heat_coinbase {E} : M SysState E unit := λ sys,
  match read_account_properties NoEE (md_coinbase (sys_metadata sys)) [] (sys, FORMAL_INFINITE) with
  | (Val _, (sys, _)) => (Val tt, sys)
  | (_, (sys, _)) => (Fault, sys)
  end.

Section Loop.
Variable memories : RunnerMemoryBuffers.
Variable hooks : HooksStorage.

Definition process_next (initial_calldata_buffer : UsizeAlignedByteBox) : BlM unit :=
  on_block heat_coinbase ;;
  pre_tx_rollback_handle ← on_block start_global_frame;
  is_first_tx ← gets first_tx;
  tx_result ← on_block (attempt
    (process_transaction (as_slice initial_calldata_buffer) memories hooks is_first_tx));
  conclude pre_tx_rollback_handle tx_result.

(** An iteration; the result is whether there was a transaction. *)
Definition block_step : BlM bool :=
  r ← on_block try_begin_next_tx;
  match r with
  | None => mret false
  | Some (inl _) => keep_result (inl InvalidEncoding) ;; mret true
  | Some (inr initial_calldata_buffer) => process_next initial_calldata_buffer ;; mret true
  end.

Fixpoint block_loop (fuel : nat) : BlM unit :=
  match fuel with
  | O => fault
  | S fuel => go ← block_step; if go : bool then block_loop fuel else mret tt
  end.

(** *** The end *)

(** What is handed to the result keeper and to [System::finish]; of the hash of L1
    transactions, the bytes it is computed from. *)
Record SealedBlock : Type := mkSealed {
  block_header : BlockHeader;
  block_hash : list Z;
  l1_to_l2_tx_bytes : list Z;
  sealed_upgrade_tx_hash : list Z
}.

Definition seal_block : BlM SealedBlock :=
  b ← gets id;
  let md := sys_metadata (b_system b) in
  let block_number := md_block_number md in
  previous_block_hash ←
    (if block_number =? 0 then mret (repeat 0 32)
     else map_err SLeafDefect (λ b, (get_blockhash md (block_number - 1), b)));
  consensus_random ← map_err SLeafDefect (λ b, (get_mix_hash md, b));
  base_fee_per_gas ← lift_opt (SLeafDefect (internal_error "base_fee_per_gas exceeds max u64"))
    (u_try_into_u64 (md_eip1559_basefee md));
  let header := BlockHeader_new previous_block_hash (md_coinbase md) (tx_rolling_hash b) block_number
    (md_block_gas_limit md) (block_gas_used b) (md_block_timestamp md) consensus_random
    base_fee_per_gas in
  mret (mkSealed header (header_hash header) (l1_to_l2_txs_hasher b) (upgrade_tx_hash b)).

End Loop.

(** [individual_tx_gas_limit] of the metadata. *)
Definition individual_tx_gas_limit (md : Metadata) : Z := md_block_gas_limit md.

Definition run_prepared {HF : HookFeatures} (functions : SystemFunctions)
    (memories : RunnerMemoryBuffers) (fuel : nat) (sys : SysState)
    : outcome BootloaderSubsystemError SealedBlock * BlockState :=
  (md ← gets (λ b, sys_metadata (b_system b));
   when ((MAX_BLOCK_GAS_LIMIT <? md_block_gas_limit md) || (MAX_TX_GAS_LIMIT <? individual_tx_gas_limit md))
     (throw (SLeafDefect (internal_error "block or tx gas limit is too high"))) ;;
   match system_functions functions new_in with
   | (Val _, hooks) => block_loop memories hooks fuel ;; seal_block
   | _ => fault
   end) (initial_block sys).

(** The buffers of [run_prepared]. *)
Definition block_memories : RunnerMemoryBuffers :=
  mkBuffers (Z.to_nat MAX_HEAP_BUFFER_SIZE) (Z.to_nat MAX_RETURN_BUFFER_SIZE).
End Block.
