(* ===== verification/HeaderTheorems.v ===== *)
(** * The hash of a header

    What is hashed for a block is the RLP encoding of its header as a list of sixteen
    fields. *)

From stdpp Require Import strings.
From S2P Require Import Prelude U256 Rlp SystemInterface RlpHash RlpLogic TxFormats Block.

Section Header.
Context {UZ : Usize} {KK : Keccak}.

Definition header_item (h : BlockHeader) : RlpItem :=
  let number n := RlpString (minimal_be n) in
  RlpList [
    RlpString (parent_hash h); RlpString (ommers_hash h); RlpString (be_bytes 20 (beneficiary h));
    RlpString (state_root h); RlpString (transactions_root h); RlpString (receipts_root h);
    RlpString (logs_bloom h); number (difficulty h); number (Block.number h); number (bh_gas_limit h);
    number (bh_gas_used h); number (timestamp h); RlpString (extra_data h); RlpString (mix_hash h);
    RlpString (bh_nonce h); number (base_fee_per_gas h)].

Record header_wf (h : BlockHeader) : Prop := {
  hw_parent : length (parent_hash h) = 32%nat;
  hw_ommers : length (ommers_hash h) = 32%nat;
  hw_state : length (state_root h) = 32%nat;
  hw_transactions : length (transactions_root h) = 32%nat;
  hw_receipts : length (receipts_root h) = 32%nat;
  hw_bloom : length (logs_bloom h) = 256%nat;
  hw_difficulty : is_u256 (difficulty h);
  hw_number : is_u64 (Block.number h);
  hw_gas_limit : is_u64 (bh_gas_limit h);
  hw_gas_used : is_u64 (bh_gas_used h);
  hw_timestamp : is_u64 (timestamp h);
  hw_extra : (length (extra_data h) ≤ 32)%nat;
  hw_mix : length (mix_hash h) = 32%nat;
  hw_nonce : length (bh_nonce h) = 8%nat;
  hw_base_fee : is_u64 (base_fee_per_gas h)
}.

(** A field as it is estimated and as it is fed to the hasher. *)
Definition field (estimate : Z) (apply : list Z → list Z) (s : list Z) : Prop :=
  estimate = Z.of_nat (length (rlp_string s)) ∧ (∀ h, apply h = h ++ rlp_string s)
  ∧ (length (rlp_string s) ≤ 265)%nat.

Lemma rlp_string_length s : (length s ≤ 256)%nat → (length (rlp_string s) ≤ length s + 9)%nat.
Proof.
  intros Hs. unfold rlp_string, rlp_header. destruct s as [|b [|b' s]]; [cbn; lia|destruct (b <? 128); cbn; lia|].
  rewrite length_app. destruct (Nat.ltb_spec (length (b :: b' :: s)) 56); [cbn [length]; lia|].
  assert (width_of (Z.of_nat (length (b :: b' :: s))) ≤ 8)%nat as Hw.
  { apply width_of_bound. lia. }
  unfold minimal_be. cbn [length]. rewrite length_be_bytes. cbn [length] in Hw. lia.
Qed.

Lemma bytes_field s :
  (length s ≤ 256)%nat → field (estimate_bytes_encoding_len s) (apply_bytes_encoding_to_hash s) s.
Proof.
  intros Hs. pose proof (rlp_string_length s Hs).
  assert (in_width usize_bits (Z.of_nat (length s))) as Hw by (apply usize_holds_u32; lia).
  split; [by destruct (bytes_to_hash s [] Hw)|]. split; [intros h; by destruct (bytes_to_hash s h Hw)|]. lia.
Qed.

Lemma number_field k n :
  0 ≤ n < 2 ^ (8 * Z.of_nat k) → (k ≤ 32)%nat →
  field (estimate_number_encoding_len (be_bytes k n)) (apply_number_encoding_to_hash (be_bytes k n)) (minimal_be n).
Proof.
  intros Hn Hk. split; [by destruct (number_to_hash k n [] Hn Hk)|].
  split; [intros h; by destruct (number_to_hash k n h Hn Hk)|].
  pose proof (width_of_bound n k Hn) as Hw. pose proof (rlp_string_length (minimal_be n)) as Hl.
  unfold minimal_be in *. rewrite length_be_bytes in Hl. change (2 ^ 9)%nat with 512%nat in Hl. lia.
Qed.

(** The fields of a list, in order. *)
Definition fields_ok (estimates : list Z) (applies : list (list Z → list Z)) (strings : list (list Z)) : Prop :=
  Forall3 field estimates applies strings.

Lemma fields_sum estimates applies strings :
  fields_ok estimates applies strings →
  foldr Z.add 0 estimates = Z.of_nat (length (concat (map rlp_string strings)))
  ∧ (∀ h, foldl (λ h apply, apply h) h applies = h ++ concat (map rlp_string strings))
  ∧ (length (concat (map rlp_string strings)) ≤ 265 * length strings)%nat.
Proof.
  induction 1 as [|e a s es fs ss (H1 & H2 & H3) _ (I1 & I2 & I3)]; cbn [foldr foldl concat map length].
  - split_conj; [done|intros h; by rewrite app_nil_r|lia].
  - rewrite length_app. split_conj; [lia| |lia]. intros h. rewrite H2, I2, app_assoc. done.
Qed.

Lemma list_fields_rlp estimates applies strings :
  fields_ok estimates applies strings → (length strings ≤ 100)%nat →
  foldl (λ h apply, apply h) (apply_list_length_encoding_to_hash (foldr Z.add 0 estimates) []) applies
  = rlp (RlpList (map RlpString strings)).
Proof.
  intros Hf Hl. destruct (fields_sum _ _ _ Hf) as (H1 & H2 & H3). rewrite H1, H2.
  unfold apply_list_length_encoding_to_hash. cbn [rlp]. rewrite map_map. cbn [rlp].
  destruct (length_to_hash (length (concat (map rlp_string strings))) 192 []) as [-> _]; [|by right|done].
  apply usize_holds_u32. lia.
Qed.

Lemma address_estimate a : estimate_bytes_encoding_len (be_bytes 20 a) = ADDRESS_ENCODING_LEN.
Proof.
  unfold estimate_bytes_encoding_len. pose proof (length_be_bytes 20 a) as Hl.
  destruct (be_bytes 20 a) as [|b [|b' l]]; [done|done|]. by rewrite Hl.
Qed.

Ltac header_field :=
  first [apply (number_field 8); [assumption|lia]
        |apply (number_field 32); [assumption|lia]
        |apply bytes_field; rewrite ?length_be_bytes; lia].

Lemma header_encoding_rlp h : header_wf h → header_encoding h = rlp (header_item h).
Proof.
  intros [].
  change (header_item h) with (RlpList (map RlpString [
    parent_hash h; ommers_hash h; be_bytes 20 (beneficiary h); state_root h; transactions_root h;
    receipts_root h; logs_bloom h; minimal_be (difficulty h); minimal_be (Block.number h);
    minimal_be (bh_gas_limit h); minimal_be (bh_gas_used h); minimal_be (timestamp h); extra_data h;
    mix_hash h; bh_nonce h; minimal_be (base_fee_per_gas h)])).
  erewrite <- list_fields_rlp; [|repeat (apply Forall3_cons; [header_field|]); apply Forall3_nil|cbn; lia].
  unfold header_encoding. cbn [foldl]. match goal with |- context [foldr Z.add 0 ?l] => assert (header_list_len h = foldr Z.add 0 l) as -> end.
  - unfold header_list_len. cbn [foldr]. rewrite address_estimate. lia.
  - reflexivity.
Qed.

(** C38: the hash of a block.  It is the Keccak hash of the RLP encoding of the header,
    the list of its sixteen fields with numbers in minimal form. *)
Theorem header_hash_rlp h : header_wf h → header_hash h = Keccak256 (rlp (header_item h)).
Proof. intros Hh. unfold header_hash. by rewrite header_encoding_rlp. Qed.
End Header.
