(* ===== verification/BlockTheorems.v ===== *)
(** * Theorems about the block

    The loop over the transactions of a block as a sequence of abstract steps, each of
    which rejects a transaction and leaves no trace of it or accepts one within the
    limits of the block; and the header. *)

From stdpp Require Import strings relations.
From S2P Require Import Prelude Resources U256 SystemInterface BootloaderErrors TxFormats AbiTx RlpHash.
From S2P Require Import EvmState EvmLogic BootSystem IoLogic Hooks HookTheorems Runner RunnerTheorems TxSystem GasHelpers.
From S2P Require Import Transaction TxWellFormed TxWp TxFlow FlowTheorems ExecTheorems ProcessTx.
From S2P Require Import SettleTheorems L2Theorems L1Theorems ProcessTheorems Rlp Block HeaderTheorems EvmSafety.

Section Block.
Context {R : Ruint} {RS : RuintSpec} {UZ : Usize} {FT : Features} {SYS : System}
  {LAWS : SystemLaws} {EXT : SystemExt} {XLAWS : SystemExtLaws} {IL : InputLimit} {TX : TxSystem} {TLAWS : TxSystemLaws}
  {BLAWS : BlockSystemLaws} {CFG : ExecutionConfig} {TF : TxFeatures}.
#[local] Existing Instance system_keccak.

Variables (memories : RunnerMemoryBuffers) (hooks : HooksStorage).
Hypothesis hooks_wf : hooks_ok hooks.
Hypothesis heaps_ok : buffer_ok (heaps memories).
Hypothesis return_ok : buffer_ok (return_data memories).

(** ** Steps *)

Abbreviation md_of b := (sys_metadata (b_system b)).

Definition keep (r : InvalidTransaction + TxProcessingOutput) (b : BlockState) : BlockState :=
  mkBlock (b_system b) (tx_rolling_hash b) (l1_to_l2_txs_hasher b) (first_tx b) (upgrade_tx_hash b)
    (block_gas_used b) (block_computational_native_used b) (block_pubdata_used b) (tx_processed b ++ [r]).

(** What the limits of the block say of [b] with [r]. *)
Definition limits (md : Metadata) (r : TxProcessingResult) (b : BlockState) (sys : SysState)
    : option InvalidTransaction :=
  check_for_block_limits md (block_gas_used (accumulate r b)) (block_computational_native_used (accumulate r b))
    (block_pubdata_used (accumulate r b)) (logs_len sys).

Section Input.
Variable input : list Z.
Hypothesis input_bytes : Forall is_u8 input.
Hypothesis input_size : tx_size_ok (Z.of_nat (length input)).

(** The system in which the transaction is processed: the coinbase was read and the frame
    of the transaction opened. *)
Definition opened (b : BlockState) (sys : SysState) : Prop :=
  ∃ s1 h, heat_coinbase (E:=BootloaderSubsystemError) (b_system b) = (Val tt, s1)
    ∧ start_global_frame s1 = (Val h, sys).

(** The coinbase cannot be read, even with all the resources there are. *)
Definition coinbase_unreadable (sys : SysState) : Prop :=
  ∀ x s', read_account_properties NoEE (md_coinbase (sys_metadata sys)) [] (sys, FORMAL_INFINITE) ≠ (Val x, s').

(** Why processing the transaction panics. *)
Definition panics (b : BlockState) : Prop :=
  coinbase_unreadable (b_system b) ∨ ∃ sys, opened b sys ∧ odd_deposit input sys.

Abbreviation refuses := (refused input).
Abbreviation accepting := (accepted input memories hooks).

(** A transaction is rejected: nothing of it stays but the verdict. *)
Record rejects (b : BlockState) (e : InvalidTransaction) (b' : BlockState) : Prop := {
  rj_why : ∃ s0, opened b s0 ∧
    (refuses (first_tx b) s0 (Validation e)
     ∨ ∃ r sys, accepting (first_tx b) s0 r (world sys) ∧ limits (md_of b) r b sys = Some e);
  rj_world : world (b_system b') = world (b_system b);
  rj_md : same_block (md_of b) (md_of b');
  rj_state : b' = keep (inl e) (set_block_system (b_system b') b)
}.

(** A transaction is accepted, within the limits. *)
Record accepts (b : BlockState) (r : TxProcessingResult) (b' : BlockState) : Prop := {
  ac_outcome : ∃ s0 sys, opened b s0 ∧ accepting (first_tx b) s0 r (world sys)
    ∧ limits (md_of b) r b sys = None
    ∧ ∃ sys1, world sys1 = world sys ∧ finish_tx sys1 = (Val tt, b_system b');
  ac_md : same_block (md_of b) (md_of b');
  ac_state : b' = keep (inr (processing_output r)) (set_block_system (b_system b') (accumulate r b))
}.

Definition same_md (b b' : BlockState) : Prop := same_block (md_of b) (md_of b').

#[local] Instance same_md_preorder : PreOrder same_md.
Proof.
  split; [intros b; apply (reflexivity (R:=later_tx) (b_system b))|].
  intros b1 b2 b3 [t1 H1] [t2 H2]. exists t2. by rewrite H2, H1.
Qed.

Lemma wp_on_block {A E} {F : Prop} (T : SysState → SysState → Prop) (m : M SysState E A) b Q (X : E → BlockState → Prop) :
  (∀ s, T (b_system b) s → same_block (md_of b) (sys_metadata s)) →
  wpf F T m (b_system b) (λ a sys, T (b_system b) sys → Q a (set_block_system sys b))
    (λ e sys, X e (set_block_system sys b)) →
  wpf F same_md (on_block m) b Q X.
Proof.
  intros HT [H1 H2]. unfold wpf, on_block, zoom. destruct (m (b_system b)) as [[a|e|] s1]; cbn in *;
    (split; [by apply HT|auto]).
Qed.

Lemma later_same_block s s' : later s s' → same_block (sys_metadata s) (sys_metadata s').
Proof. intros H%later_later_tx. apply H. Qed.

Lemma wp_heat sys :
  wpf (coinbase_unreadable sys) later (heat_coinbase (E:=BootloaderSubsystemError)) sys
    (λ _ sys', world sys' = world sys) (λ _ _, True).
Proof.
  destruct (xl_read NoEE (md_coinbase (sys_metadata sys)) [] (sys, FORMAL_INFINITE) infinite_wf) as (_ & _ & _ & H1 & _).
  pose proof (xl_read_world NoEE (md_coinbase (sys_metadata sys)) [] (sys, FORMAL_INFINITE)) as H2.
  unfold wpf, heat_coinbase, coinbase_unreadable.
  by destruct (read_account_properties _ _ _ _) as [[x|e|] [sys' r]].
Qed.

Lemma opened_same b sys : opened b sys → sys_metadata sys = md_of b ∧ world sys = world (b_system b).
Proof.
  intros (s1 & h & H1 & H2). destruct (wp_run _ _ _ _ _ (wp_heat (b_system b)) _ _ H1) as [[L1 _] W1].
  destruct (wp_run _ _ _ _ _ (wp_start SLeafDefect s1) _ _ H2) as [_ (_ & L2 & W2)]. split; congruence.
Qed.

Lemma limits_block md md' r b sys : same_block md md' → limits md' r b sys = limits md r b sys.
Proof. by intros [t ->]. Qed.

Section Conclude.
Variables (b : BlockState) (s1 : SysState) (h : Snapshot).
Hypothesis heated : world s1 = world (b_system b).
Hypothesis block_md : same_block (md_of b) (sys_metadata s1).

Lemma wp_reject e b2 s2 :
  b2 = set_block_system s2 b → framed h s1 s2 →
  wp same_md (reject h e) b2
    (λ _ b', world (b_system b') = world (b_system b) ∧ b' = keep (inl e) (set_block_system (b_system b') b))
    (λ _ _, True).
Proof.
  intros -> Hf. unfold reject. eapply (wp_bind _ _ _ _ (λ _ b', ∃ sys, b' = set_block_system sys b ∧ world sys = world s1)).
  - eapply (wp_on_block (λ _ s', later_tx s1 s' ∧ sys_metadata s' = sys_metadata s2)).
    + intros s [_ ->]. apply (reflexivity (R:=same_md) (set_block_system s2 b)).
    + eapply wp_conseq; [by apply (wp_roll_back SLeafDefect h s1)|..]; [|done]. cbv beta. intros u s _ Hw _.
      exists s. done.
  - intros u b' _ (sys & -> & Hw). apply wp_modify; [apply (reflexivity (R:=same_md) (set_block_system sys b))|].
    split; [|done]. cbn. congruence.
Qed.

Lemma wp_accept r b2 s2 :
  b2 = set_block_system s2 b →
  wp same_md (accept r) b2
    (λ _ b', (∃ sys1, world sys1 = world s2 ∧ finish_tx sys1 = (Val tt, b_system b'))
       ∧ b' = keep (inr (processing_output r)) (set_block_system (b_system b') (accumulate r b)))
    (λ _ _, True).
Proof.
  intros ->. unfold accept. pose proof (reflexivity (R:=same_md)) as Hrefl.
  eapply (wp_bind _ _ _ _ (λ _ b', b' = set_block_system s2 (accumulate r b)));
    [by apply wp_modify; [apply (Hrefl (set_block_system s2 b))|]|]. intros u b' _ ->.
  eapply (wp_bind _ _ _ _ (λ _ b', ∃ sys1, b' = set_block_system sys1 (accumulate r b) ∧ world sys1 = world s2)).
  { apply (wp_on_block later); [intros s; apply later_same_block|].
    eapply wp_conseq; [apply (wp_keep SLeafDefect)|..]; [|done]. intros u' s _ Hw _. by exists s. }
  intros u2 b' _ (sys1 & -> & Hw).
  eapply (wp_bind _ _ _ _ (λ _ b', b' = keep (inr (processing_output r)) (set_block_system sys1 (accumulate r b))));
    [by apply wp_modify; [apply (Hrefl (set_block_system sys1 b))|]|]. intros u3 b' _ ->.
  apply (wp_on_block (λ s s', sys_metadata s' = sys_metadata s)).
  - cbn. intros s ->. apply (Hrefl (set_block_system sys1 b)).
  - apply wp_map_err. destruct (bl_finish sys1) as [H1 H2]. split; [exact H1|]. cbn [b_system set_block_system keep].
    destruct (finish_tx sys1) as [[[]|e|] s3] eqn:E; [|done|done]. intros _. split; [|done]. by exists sys1.
Qed.

Lemma wp_conclude x s0 s3 :
  framed h s1 s3 → same_block (md_of b) (sys_metadata s3) → opened b s0 →
  match x with inl e => refuses (first_tx b) s0 e | inr r => accepting (first_tx b) s0 r (world s3) end →
  wp same_md (conclude h x) (set_block_system s3 b)
    (λ _ b', (∃ e, rejects b e b') ∨ ∃ r, accepts b r b') (λ _ _, True).
Proof.
  intros Hf3 Hsb Ho Hx. unfold conclude.
  assert (∀ b', same_md (set_block_system s3 b) b' → same_md b b') as Hmd'.
  { intros b' H. by transitivity (set_block_system s3 b). }
  destruct x as [[e|e]|r].
  - eapply wp_conseq; [by apply (wp_reject e _ s3)|..]; [|done].
    intros u' b' T [H1 H2]. left. exists e. split; [|done|by apply Hmd'|done]. exists s0. split; [done|by left].
  - eapply (wp_bind _ _ _ _ (λ _ _, True)); [|intros; by wp_fail].
    apply (wp_on_block later); [intros s; apply later_same_block|].
    by eapply wp_conseq; [apply (wp_keep SLeafDefect)|..].
  - wp_pure. change (check_for_block_limits _ _ _ _ _) with (limits (sys_metadata s3) r b s3).
    rewrite (limits_block (md_of b)) by done. destruct (limits (md_of b) r b s3) as [e|] eqn:El.
    + eapply wp_conseq; [by apply (wp_reject e _ s3)|..]; [|done].
      intros u' b' T [H1 H2]. left. exists e. split; [|done|by apply Hmd'|done]. exists s0. split; [done|].
      right. by exists r, s3.
    + eapply wp_conseq; [by apply (wp_accept r _ s3)|..]; [|done].
      intros u' b' T [H1 H2]. right. exists r. split; [|by apply Hmd'|done]. by exists s0, s3.
Qed.
End Conclude.

Lemma wp_process_next box b :
  as_slice box = input →
  wpf (panics b) same_md (process_next memories hooks box) b
    (λ _ b', (∃ e, rejects b e b') ∨ ∃ r, accepts b r b') (λ _ _, True).
Proof.
  intros Hbox. unfold process_next. rewrite Hbox.
  eapply (wp_bind _ _ _ _ (λ _ b', ∃ s1, b' = set_block_system s1 b ∧ later (b_system b) s1 ∧ world s1 = world (b_system b)
    ∧ heat_coinbase (E:=BootloaderSubsystemError) (b_system b) = (Val tt, s1))).
  { apply (wp_on_block later); [intros s; apply later_same_block|].
    eapply wp_conseq; [eapply wp_may_more, wp_ran, wp_heat; by left|..]; [|done]. intros [] s _ [Hw Hrun] Hl. by exists s. }
  intros u b' _ (s1 & -> & L1 & Hw1 & Hheat).
  eapply (wp_bind _ _ _ _ (λ h b', ∃ s2, b' = set_block_system s2 b ∧ framed h s1 s2 ∧ opened b s2)).
  { apply (wp_on_block later); [intros s; apply later_same_block|].
    eapply wp_conseq; [apply wp_may, wp_ran, (wp_start SLeafDefect)|..]; [|done]. cbv beta.
    intros h s _ [H Hrun] _. exists s. split_conj; [done|apply H|by exists s1, h]. }
  intros h b' _ (s2 & -> & Hf & Ho). wp_pure. cbn [first_tx set_block_system].
  destruct (opened_same _ _ Ho) as [Hmd Hw].
  eapply (wp_bind _ _ _ _ (λ x b', ∃ s3, b' = set_block_system s3 b ∧ framed h s1 s3 ∧ same_block (md_of b) (sys_metadata s3)
    ∧ match x with
      | inl e => refuses (first_tx b) s2 e
      | inr r => accepting (first_tx b) s2 r (world s3)
      end)).
  { apply (wp_on_block later_tx); [by intros s []|]. apply wp_attempt. cbn [b_system set_block_system].
    eapply wp_conseq; [eapply wp_may_more; [|by apply wp_process_transaction]|..]; cbv beta.
    { intros Hodd. right. by exists s2. }
    all: intros x s3 L3 Hx _; exists s3; split_conj; [done|by eapply framed_later|rewrite <- Hmd; apply L3|done]. }
  intros x b' _ (s3 & -> & Hf3 & Hsb & Hx). by apply wp_may, (wp_conclude b s1 h Hw1 x s2 s3).
Qed.
End Input.

#[local] Existing Instance same_md_preorder.

(** ** Reading *)

Definition readable (input : list Z) : Prop :=
  Forall is_u8 input ∧ tx_size_ok (Z.of_nat (length input)).

Lemma as_slice_ok box :
  0 ≤ byte_capacity box ∧ tx_size_ok (byte_capacity box) → readable (as_slice box).
Proof.
  intros [Hc Hs]. unfold as_slice. split.
  - apply Forall_take, Forall_concat, Forall_map, Forall_true. intros x. apply le_bytes_u8.
  - unfold tx_size_ok in *. rewrite length_take. lia.
Qed.

Lemma wp_quiet {A E} (Q : A → Prop) (m : M SysState InternalError A) sys :
  quiet Q m →
  wp (λ s s', sys_metadata s' = sys_metadata s) (attempt m) sys
    (λ x _, match x with inr a => Q a | inl _ => True end) (λ _ : E, λ _, False).
Proof.
  intros Hm. destruct (Hm sys) as (H1 & _ & H2). unfold wpf, attempt. by destruct (m sys) as [[a|e|] s1].
Qed.

Lemma wp_try_begin {E} sys :
  wp (λ s s', sys_metadata s' = sys_metadata s) (try_begin_next_tx (E:=E)) sys
    (λ x _, match x with Some (inr box) => readable (as_slice box) | _ => True end) (λ _ _, False).
Proof.
  assert (PreOrder (λ s s', sys_metadata s' = sys_metadata s)) as PO.
  { split; [done|]. intros x y z H1 H2. congruence. }
  unfold try_begin_next_tx. eapply (wp_bind _ _ _ _ (λ x _, match x with
    | Some (inr (n, box)) => byte_capacity box = n ∧ 0 ≤ n ∧ tx_size_ok n | _ => True end)).
  - unfold system_try_begin_next_tx. wp_step; [apply wp_quiet, bl_next_size|]. intros [e|n] s1 _ Hn; [by wp_return|].
    destruct (n =? 0); [by wp_return|]. destruct (_ <? n); [by wp_return|].
    destruct (_ <? num_usize_words_for_u8_capacity n); [by wp_return|].
    wp_step; [apply wp_quiet, bl_words|]. intros [e|words] s2 _ _; [by wp_return|].
    destruct (_ <? _); [by wp_return|].
    eapply (wp_bind _ _ _ _ (λ _ _, True)); [apply wp_modify; [apply bl_begin|done]|]. intros u s3 _ _. by wp_return.
  - intros [[e|[n box]]|] s1 _ Hx; [by wp_return| |by wp_return]. destruct Hx as [<- Hn].
    unfold truncated_to_byte_length. rewrite Z.leb_refl. wp_pure.
    wp_return. by apply as_slice_ok.
Qed.

(** ** The loop *)

Abbreviation next b := (try_begin_next_tx (E:=BootloaderSubsystemError) (b_system b)).

(** What happens to one transaction of the oracle, and its result if it is accepted. *)
Inductive block_tx (b : BlockState) : option TxProcessingResult → BlockState → Prop :=
| TxUnreadable e sys :
    next b = (Val (Some (inl e)), sys) →
    block_tx b None (keep (inl InvalidEncoding) (set_block_system sys b))
| TxRejected box sys e b' :
    next b = (Val (Some (inr box)), sys) → rejects (as_slice box) (set_block_system sys b) e b' →
    block_tx b None b'
| TxAccepted box sys r b' :
    next b = (Val (Some (inr box)), sys) → accepts (as_slice box) (set_block_system sys b) r b' →
    block_tx b (Some r) b'.

(** The transactions from [b] to [b'], in their order. *)
Inductive block_run : BlockState → list (option TxProcessingResult) → BlockState → Prop :=
| RunEnd b : block_run b [] b
| RunTx b o b1 os b' : block_tx b o b1 → block_run b1 os b' → block_run b (o :: os) b'.

(** The next transaction of the oracle panics. *)
Definition next_panics (b : BlockState) : Prop :=
  ∃ box sys, next b = (Val (Some (inr box)), sys) ∧ panics (as_slice box) (set_block_system sys b).

(** How a run of at most [n] transactions that does not end stops. *)
Definition block_stops (n : nat) (b : BlockState) : Prop :=
  ∃ os b', block_run b os b' ∧ (length os = n ∨ (length os < n)%nat ∧ next_panics b').

(** ** What the block adds up to *)

(** [rs] are the transactions that were accepted, in order. *)
Record block_summary (md : Metadata) (rs : list TxProcessingResult) (b : BlockState) : Prop := {
  bs_md : same_block md (md_of b);
  bs_results : omap (λ x, match x with inr o => Some o | inl _ => None end) (tx_processed b)
    = processing_output <$> rs;
  bs_rolling : tx_rolling_hash b = foldl (λ h r, Keccak256 (h ++ tp_tx_hash r)) (repeat 0 32) rs;
  bs_l1 : l1_to_l2_txs_hasher b = mjoin (tp_tx_hash <$> filter (λ r, is_l1_tx r = true) rs);
  bs_gas : block_gas_used b = foldr (λ r, Z.add (tp_gas_used r)) 0 rs;
  bs_gas_limit : 0 ≤ block_gas_used b ≤ md_block_gas_limit md;
  bs_native_limit : block_computational_native_used b ≤ MAX_NATIVE_COMPUTATIONAL;
  bs_pubdata_limit : block_pubdata_used b ≤ md_pubdata_limit md;
  bs_first : first_tx b = bool_decide (rs = []);
  bs_upgrade : ∀ r, r ∈ tail rs → is_upgrade_tx r = false
}.

Section Summary.
Variable md : Metadata.
Hypothesis checked_limits : resources_for_tester = false.
Hypothesis md_ok : metadata_ok md.
Hypothesis block_limit : md_block_gas_limit md ≤ MAX_BLOCK_GAS_LIMIT.

Lemma initial_summary sys : sys_metadata sys = md → block_summary md [] (initial_block sys).
Proof.
  intros <-. pose proof (mo_gas_limit _ md_ok) as [? _]. pose proof (mo_pubdata_limit _ md_ok) as [? _].
  split; cbn; try done; [apply (reflexivity (R:=later_tx) sys)|]. intros r Hr. by apply elem_of_nil in Hr.
Qed.

Lemma within_limits r b sys :
  same_block md (md_of b) → limits (md_of b) r b sys = None →
  block_gas_used (accumulate r b) ≤ md_block_gas_limit md
  ∧ block_computational_native_used (accumulate r b) ≤ MAX_NATIVE_COMPUTATIONAL
  ∧ block_pubdata_used (accumulate r b) ≤ md_pubdata_limit md.
Proof.
  intros Hmd. rewrite (limits_block md) by done. unfold limits, check_for_block_limits. rewrite checked_limits.
  repeat (case_match; try done). intros _. split_conj; by apply Z.ltb_ge.
Qed.

Lemma accepted_gas input first sys r w' :
  accepted input memories hooks first sys r w' → 0 ≤ tp_gas_used r < 2 ^ 62.
Proof.
  intros ([t|tx] & _ & H).
  - pose proof (ro_gas _ _ _ _ _ _ _ H). pose proof (ro_limit _ _ _ _ _ _ _ H).
    change MAX_BLOCK_GAS_LIMIT with (2 ^ 56 - 1) in *. lia.
  - destruct H as [H _]. pose proof (fo_gas _ _ _ _ _ _ _ _ H). pose proof (fo_limit _ _ _ _ _ _ _ _ H). lia.
Qed.

Lemma accepted_upgrade input first sys r w' :
  accepted input memories hooks first sys r w' → is_upgrade_tx r = true → first = true.
Proof.
  intros ([t|tx] & _ & H) Hu; [|by apply H]. destruct (ro_kind _ _ _ _ _ _ _ H) as [_ Hk]. congruence.
Qed.

Lemma accepted_summary input b r b' rs :
  block_summary md rs b → accepts input b r b' → block_summary md (rs ++ [r]) b'.
Proof.
  intros [H1 H2 H3 H4 H5 H6 H7 H8 H9 H10] [(s0 & sys & _ & Ha & Hl & _) Hm Hs].
  pose proof (accepted_gas _ _ _ _ _ Ha) as Hg. pose proof (accepted_upgrade _ _ _ _ _ Ha) as Hu.
  destruct (within_limits r b sys H1 Hl) as (L1 & L2 & L3).
  assert (block_gas_used (accumulate r b) = block_gas_used b + tp_gas_used r) as Hsum.
  { change MAX_BLOCK_GAS_LIMIT with (2 ^ 56 - 1) in *. apply wrap_small. unfold in_width. lia. }
  rewrite Hs. split; cbn [keep set_block_system tx_processed tx_rolling_hash l1_to_l2_txs_hasher block_gas_used
    block_computational_native_used block_pubdata_used first_tx b_system]; try done.
  - destruct H1 as [t1 E1], Hm as [t2 E2]. exists t2. by rewrite E2, E1.
  - rewrite omap_app, fmap_app. cbn [accumulate tx_processed]. by rewrite H2.
  - rewrite foldl_app, <- H3. done.
  - rewrite filter_app, fmap_app, join_app, <- H4. cbn. unfold filter, list_filter.
    destruct (is_l1_tx r), (decide _); try done; cbn; by rewrite app_nil_r.
  - rewrite Hsum, H5, foldr_app. cbn. clear. induction rs as [|x l IH]; cbn; lia.
  - lia.
  - symmetry. apply bool_decide_eq_false. by destruct rs.
  - intros x Hx. destruct rs as [|r0 rs]; [by apply elem_of_nil in Hx|]. cbn in Hx.
    apply elem_of_app in Hx as [Hx| ->%list_elem_of_singleton]; [by apply H10|].
    destruct (is_upgrade_tx r); [|done]. specialize (Hu eq_refl). rewrite H9 in Hu. by apply bool_decide_eq_true in Hu.
Qed.

Lemma summary_system rs b sys :
  same_block (md_of b) (sys_metadata sys) → block_summary md rs b → block_summary md rs (set_block_system sys b).
Proof.
  intros [t2 E2] [[t1 E1] ? ? ? ? ? ? ? ? ?]. split; try done. exists t2. cbn. by rewrite E2, E1.
Qed.

Lemma rejected_summary e rs b : block_summary md rs b → block_summary md rs (keep (inl e) b).
Proof. intros []. split; try done. cbn. rewrite omap_app. cbn. by rewrite app_nil_r. Qed.

Lemma block_tx_summary rs b o b' :
  block_summary md rs b → block_tx b o b' → block_summary md (rs ++ option_list o) b'.
Proof.
  intros Hs Htx. destruct (wp_try_begin (E:=BootloaderSubsystemError) (b_system b)) as [Hm _].
  assert (∀ x sys, next b = (Val x, sys) → block_summary md rs (set_block_system sys b)) as Hread.
  { intros x sys E. rewrite E in Hm. apply summary_system; [|done]. cbn in Hm. rewrite Hm.
    apply (reflexivity (R:=later_tx) (b_system b)). }
  destruct Htx as [e sys E|box sys e b' E [_ _ Hmd ->]|box sys r b' E Ha]; cbn [option_list]; rewrite ?app_nil_r.
  - eapply rejected_summary, Hread, E.
  - apply rejected_summary, summary_system; [exact Hmd|]. eapply Hread, E.
  - eapply accepted_summary; [eapply Hread, E|done].
Qed.

Lemma block_run_summary os rs b b' :
  block_run b os b' → block_summary md rs b → block_summary md (rs ++ omap id os) b'.
Proof.
  intros Hn. revert rs. induction Hn as [b|b o b1 os b' Htx _ IH]; intros rs Hs; [by rewrite app_nil_r|].
  specialize (IH _ (block_tx_summary rs b o b1 Hs Htx)). rewrite <- app_assoc in IH.
  destruct o; exact IH.
Qed.
End Summary.

Lemma block_step_spec b :
  same_md b (block_step memories hooks b).2
  ∧ match block_step memories hooks b with
    | (Val true, b') => ∃ o, block_tx b o b'
    | (Val false, b') => ∃ sys, next b = (Val None, sys) ∧ b' = set_block_system sys b
    | (Err e, _) => True
    | (Fault, _) => next_panics b
    end.
Proof.
  destruct (wp_try_begin (E:=BootloaderSubsystemError) (b_system b)) as [Hm Hr].
  unfold block_step, mbind, M_bind, on_block at 1 2, zoom.
  destruct (next b) as [[x|e|] sys] eqn:E; cbn [fst snd] in *; [|done|done].
  assert (same_md b (set_block_system sys b)) as Hsame.
  { unfold same_md. cbn. rewrite Hm. apply (reflexivity (R:=same_md) b). }
  destruct x as [[e|box]|]; [split; [done|eexists; by eapply TxUnreadable]| |split; [done|by exists sys]].
  destruct Hr as [Hu Hl].
  destruct (wp_process_next (as_slice box) Hu Hl box (set_block_system sys b) eq_refl) as [H1 H2].
  destruct (process_next memories hooks box (set_block_system sys b)) as [[u|e|] b']; cbn in *;
    [|by split; [etransitivity|]|split; [by etransitivity|by exists box, sys]].
  split; [by etransitivity|].
  destruct H2 as [[e He]|[r Hr]]; eexists; [by eapply TxRejected|by eapply TxAccepted].
Qed.

Lemma block_loop_spec n b :
  match block_loop memories hooks n b with
  | (Val _, b') => ∃ os b1, block_run b os b1 ∧ (length os < n)%nat
      ∧ ∃ sys, next b1 = (Val None, sys) ∧ b' = set_block_system sys b1
  | (Err e, b') => ∃ os b1, block_run b os b1 ∧ (length os < n)%nat ∧ block_step memories hooks b1 = (Err e, b')
  | (Fault, _) => block_stops n b
  end.
Proof.
  revert b. induction n as [|n IH]; intros b; [by exists [], b; split; [constructor|left]|]. cbn [block_loop].
  destruct (block_step_spec b) as [_ Hs]. unfold mbind, M_bind.
  destruct (block_step memories hooks b) as [[[]|e|] b1] eqn:Eb.
  - destruct Hs as [o Ho]. specialize (IH b1). destruct (block_loop memories hooks n b1) as [[u|e|] b2];
      destruct IH as (os & b3 & H1 & H2); exists (o :: os), b3; (split; [by econstructor|]); cbn [length].
    + split; [lia|apply H2].
    + split; [lia|apply H2].
    + destruct H2 as [->|[H2 H3]]; [by left|]. right. split; [lia|done].
  - cbn. exists [], b. split_conj; [constructor|cbn; lia|done].
  - exists [], b. split_conj; [constructor|cbn; lia|done].
  - exists [], b. split; [constructor|]. right. split; [cbn; lia|done].
Qed.

(** ** The sealed block *)

(** The header says what the block adds up to. *)
Record sealed_ok (md : Metadata) (b : BlockState) (x : SealedBlock) : Prop := {
  so_gas_used : bh_gas_used (block_header x) = block_gas_used b;
  so_gas_limit : bh_gas_limit (block_header x) = md_block_gas_limit md;
  so_transactions : transactions_root (block_header x) = tx_rolling_hash b;
  so_number : Block.number (block_header x) = md_block_number md;
  so_beneficiary : beneficiary (block_header x) = md_coinbase md;
  so_l1 : l1_to_l2_tx_bytes x = l1_to_l2_txs_hasher b;
  so_hash : block_hash x = Keccak256 (rlp (header_item (block_header x)))
}.

Lemma rolling_length md rs b : block_summary md rs b → length (tx_rolling_hash b) = 32%nat.
Proof.
  intros Hs. rewrite (bs_rolling _ _ _ Hs). destruct rs as [|r rs _] using rev_ind; [done|].
  rewrite foldl_app. cbn. apply sl_digest.
Qed.

Lemma wp_outcome {S E A} (o : outcome E A) (s : S) Q (X : E → S → Prop) :
  match o with Val a => Q a s | Err e => X e s | Fault => False end → wp eq (λ s, (o, s)) s Q X.
Proof. by split. Qed.

Lemma wp_seal md rs b :
  metadata_ok (md_of b) → block_summary md rs b → wp eq seal_block b (λ x _, sealed_ok md b x) (λ _ _, True).
Proof.
  intros Hmd Hs. pose proof (bs_md _ _ _ Hs) as [t Ht]. unfold seal_block. wp_pure. set (m := md_of (id b)).
  assert (m = set_transaction_metadata t md) as Hm by (exact Ht). assert (metadata_ok m) as Hok by exact Hmd.
  eapply (wp_bind _ _ _ _ (λ h _, is_bytes32 h)).
  { destruct (_ =? 0); [wp_return; split; [done|by repeat constructor]|]. apply wp_map_err, wp_outcome.
    by pose proof (blockhash_ok m (md_block_number m - 1) Hok); destruct (get_blockhash _ _). }
  intros parent b' _ Hp. eapply (wp_bind _ _ _ _ (λ h _, is_bytes32 h)).
  { apply wp_map_err, wp_outcome. by pose proof (mix_hash_ok m Hok); destruct (get_mix_hash _). }
  intros mix b2 _ Hmix. eapply (wp_bind _ _ _ _ (λ n _, is_u64 n)).
  { apply wp_lift_opt; [typeclasses eauto|done|]. rewrite u_try_into_u64_spec by apply Hok. by intros n [_ Hn]%checked_Some. }
  intros fee b3 _ Hfee. wp_return. split; cbn [block_header block_hash l1_to_l2_tx_bytes]; try (by rewrite Hm); [done..|].
  unfold header_hash. rewrite header_encoding_rlp; [done|]. pose proof (rolling_length _ _ _ Hs) as Hr.
  pose proof (bs_gas_limit _ _ _ Hs) as Hg. assert (md_block_gas_limit m = md_block_gas_limit md) as Hgl by (by rewrite Hm).
  pose proof (mo_gas_limit _ Hok) as Hl. destruct Hok, Hp, Hmix.
  split; cbn; try done; [unfold in_width in *; lia|lia].
Qed.

(** C10: the loop over a block.  Processing the transactions of the oracle is a sequence
    of steps.  In each one a transaction could not be read; or it was rejected, because
    the parser of its format refused it, or for a reason that holds of the decoded
    transaction, or because the block has no room for it, and then the world is as
    before and only the verdict is kept; or it was accepted within the limits, and the
    accumulators were updated.  The loop ends when the oracle has no more transactions,
    or with the error of a step.  It stops without a result only after as many
    transactions as the bound allows, or because the next transaction panics: the
    coinbase cannot be read, or it is an L1 transaction whose refund recipient is not
    an address.  The sizes the oracle gives are below [2 ^ 32 - 64] and within the limit
    of the inputs of calls, the hooks keep their contract, and the buffers of the
    runner are within the limit. *)
Theorem block_refines n b :
  match block_loop memories hooks n b with
  | (Val _, b') => ∃ os b1, block_run b os b1 ∧ (length os < n)%nat
      ∧ ∃ sys, next b1 = (Val None, sys) ∧ b' = set_block_system sys b1
  | (Err e, b') => ∃ os b1, block_run b os b1 ∧ (length os < n)%nat ∧ block_step memories hooks b1 = (Err e, b')
  | (Fault, _) => block_stops n b
  end.
Proof. apply block_loop_spec. Qed.

(** A block that ends with an error: that of processing one of its transactions, or that of
    sealing it after the last one. *)
Definition block_fails (sys : SysState) (e : BootloaderSubsystemError) (b' : BlockState) : Prop :=
  ∃ os b1, block_run (initial_block sys) os b1
    ∧ (block_step memories hooks b1 = (Err e, b')
       ∨ ∃ sys1, next b1 = (Val None, sys1) ∧ seal_block (set_block_system sys1 b1) = (Err e, b')).

(** The loop from the first transaction to the sealed block. *)
Lemma loop_accounting n sys :
  resources_for_tester = false → md_block_gas_limit (sys_metadata sys) ≤ MAX_BLOCK_GAS_LIMIT →
  match (block_loop memories hooks n ;; seal_block) (initial_block sys) with
  | (Val x, b) => ∃ os b1 sys1, block_run (initial_block sys) os b1
      ∧ next b1 = (Val None, sys1) ∧ b = set_block_system sys1 b1
      ∧ block_summary (sys_metadata sys) (omap id os) b ∧ sealed_ok (sys_metadata sys) b x
  | (Err e, b) => block_fails sys e b
  | (Fault, _) => block_stops n (initial_block sys)
  end.
Proof.
  intros Htest Hl. pose proof (sl_metadata sys) as Hmd. unfold mbind, M_bind.
  pose proof (block_loop_spec n (initial_block sys)) as Hloop.
  destruct (block_loop memories hooks n (initial_block sys)) as [[u|e|] b'];
    [|destruct Hloop as (os & b1 & Hk & _ & Hstep); exists os, b1; by auto|done].
  destruct Hloop as (os & b1 & Hk & _ & sys1 & Hnext & ->).
  pose proof (block_run_summary (sys_metadata sys) Htest Hl os [] (initial_block sys) b1 Hk
    ltac:(by apply initial_summary)) as Hs.
  destruct (wp_try_begin (E:=BootloaderSubsystemError) (b_system b1)) as [Hm _]. rewrite Hnext in Hm.
  assert (block_summary (sys_metadata sys) (omap id os) (set_block_system sys1 b1)) as Hs'.
  { apply summary_system; [|done]. cbn in Hm. rewrite Hm. apply (reflexivity (R:=later_tx) (b_system b1)). }
  destruct (wp_seal _ _ (set_block_system sys1 b1) (sl_metadata sys1) Hs') as [Heq Hx].
  destruct (seal_block (set_block_system sys1 b1)) as [[x|e|] b2] eqn:Eseal; cbn in *;
    [|exists os, b1; by eauto|done].
  subst b2. by exists os, b1, sys1.
Qed.
End Block.

Section Accounting.
Context {R : Ruint} {RS : RuintSpec} {UZ : Usize} {FT : Features} {SYS : System}
  {LAWS : SystemLaws} {EXT : SystemExt} {XLAWS : SystemExtLaws} {IL : InputLimit} {TX : TxSystem} {TLAWS : TxSystemLaws}
  {BLAWS : BlockSystemLaws} {CFG : ExecutionConfig} {TF : TxFeatures} {HF : HookFeatures}.
Variable memories : RunnerMemoryBuffers.
Hypothesis heaps_ok : buffer_ok (heaps memories).
Hypothesis return_ok : buffer_ok (return_data memories).

(** C2: what a block adds up to.  The block is run with the hooks the bootloader
    installs, without the resources of the tester, on transactions whose sizes are
    below [2 ^ 32 - 64] and within the limit of the inputs of calls, which is one the
    hooks can take, with the buffers of the runner within it too.  In a sealed block
    the results, the rolling hash, the hashes of L1 transactions and the gas are those
    of the transactions that were accepted on the run from the first to the last one,
    in their order, added without overflow; gas, native and pubdata are within the limits
    of the block; an upgrade can only be the first transaction.  The header has these
    values, and the hash of the block is that of its RLP encoding.  There is no result
    only after as many transactions as the bound allows, or because the coinbase cannot
    be read, or the refund recipient of an L1 transaction is not an address.  An error is
    that of a gas limit above the maximum, of a transaction of the run, or of sealing. *)
Theorem block_accounting functions n sys :
  functions_ok functions → input_limit ≤ hook_limit ∨ disable_system_contracts = true →
  resources_for_tester = false →
  ∃ hooks, system_functions functions new_in = (Val tt, hooks) ∧
  match run_prepared functions memories n sys with
  | (Val x, b) => ∃ os b1 sys1, block_run memories hooks (initial_block sys) os b1
      ∧ try_begin_next_tx (E:=BootloaderSubsystemError) (b_system b1) = (Val None, sys1)
      ∧ b = set_block_system sys1 b1
      ∧ block_summary (sys_metadata sys) (omap id os) b ∧ sealed_ok (sys_metadata sys) b x
  | (Err e, b) => MAX_BLOCK_GAS_LIMIT < md_block_gas_limit (sys_metadata sys) ∨ block_fails memories hooks sys e b
  | (Fault, _) => block_stops memories hooks n (initial_block sys)
  end.
Proof.
  intros Hf Hlim Htest. destruct (system_functions_installed functions Hf Hlim) as (hooks & Eh & Hok).
  exists hooks. split; [done|].
  unfold run_prepared. rewrite Eh. cbn [mbind M_bind]. erewrite bind_val by reflexivity. cbv beta.
  unfold when, individual_tx_gas_limit, MAX_TX_GAS_LIMIT. rewrite orb_diag.
  destruct (Z.ltb_spec MAX_BLOCK_GAS_LIMIT (md_block_gas_limit (sys_metadata (b_system (initial_block sys))))) as [H|Hl];
    [by left|]. erewrite bind_val by reflexivity. cbv beta.
  pose proof (loop_accounting memories hooks Hok heaps_ok return_ok n sys Htest Hl) as Hrun.
  destruct ((block_loop memories hooks n ;; seal_block) (initial_block sys)) as [[x|e|] b]; [done|by right|done].
Qed.
End Accounting.
