(* ===== verification/ExampleSystem.v ===== *)
(** * A concrete system

    A small implementation of the operations the interpreter calls, with its
    proof that it keeps the contract.  It instantiates the theorems in the
    witnesses: programs are run on it by evaluation. *)

From stdpp Require Import strings.
From S2P Require Import Prelude Resources U256 SystemInterface EvmStack SliceVec EvmConstants Gas Bytecode EvmState EvmInstructions EvmRun EvmFrame EvmLogic EvmExec BootSystem.

Record Store : Type := mkStore {
  slots : list ((bool * Z * list Z) * list Z);
  nonces : list (Z * Z);
  codes : list (Z * list Z);
  events : list (Z * list (list Z) * list Z);
  balances : list (Z * Z)
}.

Definition find_or {K V} `{EqDecision K} (d : V) (k : K) (l : list (K * V)) : V :=
  match list_find (λ p, p.1 = k) l with Some (_, (_, v)) => v | None => d end.

Definition bytes32_of (x : Z) : list Z := be_bytes 32 x.

Definition the_metadata : Metadata := {|
  md_chain_id := 1; md_coinbase := 0xc0; md_block_timestamp := 1000; md_block_number := 7;
  md_block_gas_limit := 30000000; md_tx_gas_price := 10; md_eip1559_basefee := 5;
  md_tx_origin := 0xabc; md_block_randomness := Some (bytes32_of 42);
  md_block_historical_hash n := Some (bytes32_of n);
  md_native_price := 1; md_pubdata_price := 2; md_pubdata_limit := 100000
|}.

(** An operation that reads, and one that writes for 100 gas. *)
Definition reads {A E} (f : Store → A) : M (Store * Res) E A := gets (λ s, f s.1).
Definition writes {A E} (conv : SystemError → E) (f : Store → Store) (a : A)
    : M (Store * Res) E A :=
  zoom snd (λ r s, (s.1, r)) (map_err conv (charge (from_ergs (mkErgs 25600)))) ;;
  modify (λ s, (f s.1, s.2)) ;;
  mret a.

Definition set_slots x s := mkStore x (nonces s) (codes s) (events s) (balances s).
Definition set_nonces x s := mkStore (slots s) x (codes s) (events s) (balances s).
Definition set_codes x s := mkStore (slots s) (nonces s) x (events s) (balances s).
Definition set_events x s := mkStore (slots s) (nonces s) (codes s) x (balances s).
Definition set_balances x s := mkStore (slots s) (nonces s) (codes s) (events s) x.

(** Accounts start with 1000. *)
Definition balance_of (s : Store) (a : Z) : Z := wrap 256 (find_or 1000 a (balances s)).

Definition toy_hash (l : list Z) : list Z := be_bytes 32 (of_be_bytes l + 1).

#[global] Instance store_system : System := {|
  SysState := Store;
  Snapshot := Store;
  start_io_frame := gets id;
  finish_io_frame rollback :=
    match rollback with Some s => modify (λ _, s) | None => mret tt end;
  sys_metadata _ := the_metadata;
  storage_read t a k := reads (λ s, bytes32_of (of_be_bytes (find_or [] (t, a, k) (slots s))));
  storage_write t a k v := writes id (λ s, set_slots (((t, a, k), v) :: slots s) s) tt;
  get_nominal_token_balance a := reads (λ s, balance_of s a);
  get_selfbalance a := reads (λ s, balance_of s a);
  get_observable_bytecode_size a := reads (λ _, 0);
  get_observable_bytecode_hash a := reads (λ _, bytes32_of 0);
  get_observable_bytecode a := reads (λ _, []);
  emit_event a ts d := writes id (λ s, set_events ((a, ts, d) :: events s) s) tt;
  mark_for_deconstruction a b c := writes subsystem_of_system id 0;
  read_nonce a := reads (λ s, wrap 64 (find_or 0 a (nonces s)));
  increment_nonce a n := λ s,
    let v := wrap 64 (find_or 0 a (nonces s.1)) in
    writes subsystem_of_system (λ s, set_nonces ((a, v + n) :: nonces s) s) v s;
  read_account_balance a := reads (λ s, balance_of s a);
  deploy_bytecode a c := writes id (λ s, set_codes ((a, c) :: codes s) s) (c, toy_hash c, Z.of_nat (length c));
  keccak256 i := mret (toy_hash i);
  Keccak256_digest i := toy_hash i
|}.

#[global] Instance plain_features : Features := {| prevrandao := false; eip_7645 := false; eip_7702 := true |}.

(** A snapshot is a copy of the store, so it never expires. *)
#[global] Instance store_worlds : SystemWorlds (SYS:=store_system) := {|
  World := Store;
  world := id : @SysState store_system → Store;
  alive _ k := Forall (λ p : Store * Store, p.1 = p.2) k
|}.

Lemma bytes32_ok x : is_bytes32 (be_bytes 32 x).
Proof. split; [by rewrite length_be_bytes|]. apply Forall_reverse, le_bytes_u8. Qed.

Lemma reads_ok {A E} (f : Store → A) (Q : A → Prop) :
  (∀ s, Q (f s)) → io_ok Q (reads (E:=E) f).
Proof. intros HQ s Hs. cbn. by split_conj. Qed.

Lemma writes_ok {A E} conv f (a : A) (Q : A → Prop) : Q a → io_ok Q (writes (E:=E) conv f a).
Proof.
  intros HQ [s r] Hr. unfold writes, zoom, map_err, mbind, M_bind. cbn [fst snd] in *.
  assert (res_wf (from_ergs (mkErgs 25600))) as Hc by done.
  rewrite charge_run by done.
  assert (res_wf (mk_res (Z.max 0 (e_left r - 25600)) (Z.max 0 (n_left r - 0)))
    ∧ Z.max 0 (e_left r - 25600) ≤ e_left r ∧ Z.max 0 (n_left r - 0) ≤ n_left r) as (H1 & H2 & H3).
  { destruct Hr as [[] []]. unfold res_wf, in_width, mk_res, e_left, n_left in *.
    cbn -[Z.max Z.pow]. lia. }
  destruct (n_left r <? _); [by split_conj|]. by destruct (e_left r <? _); split_conj.
Qed.

Lemma wrap64_ok x : is_u64 (wrap 64 x).
Proof. by apply wrap_in_width. Qed.

Lemma res_pure_ok {A E} (a : A) (Q : A → Prop) : Q a → res_ok_fn Q (mret a : M Res E A).
Proof. intros HQ r Hr. cbn. by split_conj. Qed.

#[global] Instance store_laws : SystemLaws (SYS:=store_system).
Proof.
  refine {| sl_worlds := store_worlds |};
    try (intros; apply reads_ok; intros; first [done|apply bytes32_ok|apply wrap64_ok|by apply wrap_in_width]);
    try (intros; by apply writes_ok); try (intros; by apply res_pure_ok, bytes32_ok);
    try (intros; apply bytes32_ok); try (by intros).
  - intros s. split; try done; intros; simplify_eq/=; apply bytes32_ok.
  - intros a n [s r] Hs. cbn [increment_nonce store_system].
    apply (writes_ok subsystem_of_system (λ s, set_nonces ((a, _) :: nonces s) s)
             (wrap 64 (find_or 0 a (nonces s))) (is_u64)); [apply wrap64_ok|done].
  - intros s. by constructor.
  - intros s k Hk. cbn. split; [by constructor|done].
  - intros s p k Hk. by inversion_clear Hk.
  - intros s snap w k Hk. cbn in *. by inversion_clear Hk.
Defined.

(** ** The concrete system, for the bootloader

    The rest of the interface on the system of ExampleSystem.v, with the proof of its
    laws: balances that move, accounts whose code is what was stored for them. *)

(** The code of an account, at most 1024 bytes. *)
Definition code_of (s : Store) (a : Z) : list Z := map (wrap 8) (take 1024 (find_or [] a (codes s))).

Definition account_of (s : Store) (a : Z) : AccountData :=
  let code := code_of s a in
  {| ad_ee_version := if bool_decide (code = []) then 0 else 1;
     ad_observable_bytecode_hash := toy_hash code;
     ad_observable_bytecode_len := Z.of_nat (length code);
     ad_nonce := wrap 64 (find_or 0 a (nonces s));
     ad_bytecode_hash := toy_hash code;
     ad_unpadded_code_len := Z.of_nat (length code);
     ad_artifacts_len := 0;
     ad_nominal_token_balance := balance_of s a;
     ad_bytecode := code;
     ad_code_version := DEFAULT_CODE_VERSION_BYTE;
     ad_is_delegated := bool_decide (take 3 code = [0xef; 0x01; 0x00]) |}.

Definition set_balance (a v : Z) (s : Store) : Store := set_balances ((a, v) :: balances s) s.

Definition move (a b v : Z) : M (Store * Res) BalanceSubsystemError unit := λ s,
  if a =? b then (Val tt, s)
  else if balance_of s.1 a <? v then (Err (SLeafUsage InsufficientBalanceError), s)
  else writes subsystem_of_system
         (λ s, set_balance b (balance_of s b + v) (set_balance a (balance_of s a - v) s)) tt s.

Definition update (a d : Z) (subtract : bool) : M (Store * Res) BalanceSubsystemError Z := λ s,
  let old := balance_of s.1 a in
  match (if subtract then checked_sub 256 old d else checked_add 256 old d) with
  | Some new => writes subsystem_of_system (set_balance a new) old s
  | None =>
      (Err (SLeafUsage (if subtract then InsufficientBalanceError else BalanceOverflow)), s)
  end.

#[global] Instance store_ext : SystemExt (SYS:=store_system) := {|
  transfer_nominal_token_value ee a b v := move a b v : M (@SysState store_system * Res) _ _;
  read_account_properties ee a fields := reads (λ s, account_of s a);
  update_account_nominal_token_balance ee a d subtract simulation := update a d subtract;
  emit_l1_message ee a d := writes id (λ s, set_events ((a, [], d) :: events s) s) (toy_hash d);
  set_bytecode_details a ee h l al oh ol := writes id id tt
|}.

Lemma account_of_ok `{Usize} s a : account_ok (account_of s a).
Proof.
  assert (length (code_of s a) ≤ 1024)%nat as Hl.
  { unfold code_of. rewrite length_map, length_take. lia. }
  split; cbn; try done; [|lia]. split.
  - apply Forall_map, Forall_true. intros x. by apply wrap_in_width.
  - pose proof usize_bits_pos. assert (2 ^ 32 ≤ 2 ^ usize_bits); [apply Z.pow_le_mono_r; lia|lia].
Qed.

#[global] Instance store_ext_laws `{Usize} :
  SystemExtLaws (SYS:=store_system) (LAWS:=store_laws) (EXT:=store_ext).
Proof.
  split; try (intros; by apply writes_ok); try (by intros).
  - intros ee a b v [s r] Hs. change (res_wf r) in Hs.
    change (transfer_nominal_token_value ee a b v) with (move a b v). unfold move. cbn [fst].
    destruct (a =? b); [by cbn; split_conj|]. destruct (_ <? v); [by cbn; split_conj|].
    by apply writes_ok.
  - intros ee a v s. cbn. unfold move. by rewrite Z.eqb_refl.
  - intros ee a d sub sim s Hs. cbn. unfold update. destruct (if sub then _ else _); [|by cbn; split_conj].
    apply writes_ok; [by apply wrap_in_width|done].
  - intros. apply writes_ok. apply bytes32_ok.
  - intros. apply reads_ok. intros. apply account_of_ok.
  - intros a n [s r] Hr. cbn [snd] in Hr. unfold infinite_ergs, with_infinite_ergs.
    cbn [increment_nonce store_system fst snd ergs]. unfold writes, zoom, map_err, mbind, M_bind.
    cbn [fst snd]. assert (res_wf (mkResources (mkErgs (umax 64)) (native r))) as Hw
      by by (split; [|apply Hr]).
    rewrite charge_run by done. destruct Hr as [_ [Hn _]].
    change (n_left (from_ergs (mkErgs 25600))) with 0. change (n_left (mkResources _ (native r))) with (n_left r).
    by destruct (Z.ltb_spec (n_left r) 0); [lia|].
Defined.

(** Inputs of calls of at most a MiB. *)
Definition example_limit : InputLimit := 2 ^ 20.
