(* ===== verification/ExampleTx.v ===== *)
(** * The concrete system, for transactions

    The system of ExampleSystem.v and ExampleSystem.v with the metadata of a transaction
    and a queue of transactions for the oracle, and the proof that it keeps the
    contract of TxSystem.v. *)

From stdpp Require Import strings.
From S2P Require Import Prelude Resources U256 Rlp SystemInterface EvmState EvmLogic BootSystem TxFormats RlpHash AbiTx AbiTheorems TxSystem.
From S2P Require Import ExampleSystem.

(** ** Transactions on offer *)

(** A legacy transaction that calls 0xbb. *)
Definition call_bytes : list Z :=
  rlp (RlpList [RlpString []; RlpString [10]; RlpString (minimal_be 60000); RlpString (be_bytes 20 0xbb);
    RlpString []; RlpString []; RlpString [37]; RlpString [1]; RlpString [1]]).

(** A deposit of 61000000 with a transfer of 100. *)
Definition deposit_to (to : Z) : L1Tx := {|
  l1_is_upgrade := false; l1_from := 0xee; l1_to := to; l1_gas_limit := 60000; l1_gas_per_pubdata := 1;
  l1_max_fee := 1000; l1_max_priority_fee := 0; l1_nonce := 3; l1_value := 100; l1_deposited := 61000000;
  l1_refund_recipient := 0xff; l1_data := []; l1_factory_deps := []
|}.

Inductive Offer : Type := OfferCall | OfferDeposit.

Definition offer_format (o : Offer) : TxEncodingFormat :=
  match o with OfferCall => FormatRlp | OfferDeposit => FormatAbi end.
Definition offer_bytes (o : Offer) : list Z :=
  match o with OfferCall => call_bytes | OfferDeposit => l1_encoding (deposit_to 0xdd) end.

(** The store, the metadata of the transaction, what the oracle still has to offer,
    and what it has offered last. *)
Record Node : Type := mkNode {
  store : Store;
  context : TxLevelMetadata;
  queue : list Offer;
  current : Offer
}.

Definition set_store (x : Store) (n : Node) : Node := mkNode x (context n) (queue n) (current n).
Definition set_context (t : TxLevelMetadata) (n : Node) : Node := mkNode (store n) t (queue n) (current n).

(** An operation of the store. *)
Definition up {A E} (m : M (Store * Res) E A) : M (Node * Res) E A :=
  zoom (λ s, (store s.1, s.2)) (λ x s, (set_store x.1 s.1, x.2)) m.

Definition node_metadata (n : Node) : Metadata :=
  set_transaction_metadata
    (mkTxLevel (wrap 160 (tx_origin (context n))) (wrap 256 (tx_gas_price (context n)))) the_metadata.

Definition node_system : System := {|
  SysState := Node;
  Snapshot := Store;
  start_io_frame := gets store;
  finish_io_frame rollback :=
    match rollback with Some s => modify (set_store s) | None => mret tt end;
  sys_metadata := node_metadata;
  storage_read t a k := up (storage_read (System:=store_system) t a k);
  storage_write t a k v := up (storage_write (System:=store_system) t a k v);
  get_nominal_token_balance a := up (get_nominal_token_balance (System:=store_system) a);
  get_selfbalance a := up (get_selfbalance (System:=store_system) a);
  get_observable_bytecode_size a := up (get_observable_bytecode_size (System:=store_system) a);
  get_observable_bytecode_hash a := up (get_observable_bytecode_hash (System:=store_system) a);
  get_observable_bytecode a := up (get_observable_bytecode (System:=store_system) a);
  emit_event a ts d := up (emit_event (System:=store_system) a ts d);
  mark_for_deconstruction a b c := up (mark_for_deconstruction (System:=store_system) a b c);
  read_nonce a := up (read_nonce (System:=store_system) a);
  increment_nonce a n := up (increment_nonce (System:=store_system) a n);
  read_account_balance a := up (read_account_balance (System:=store_system) a);
  deploy_bytecode a c := up (deploy_bytecode (System:=store_system) a c);
  keccak256 := keccak256 (System:=store_system);
  Keccak256_digest := toy_hash
|}.

Definition node_worlds : SystemWorlds (SYS:=node_system) := {|
  World := Store;
  world := store : @SysState node_system → Store;
  alive _ k := Forall (λ p : Store * Store, p.1 = p.2) k
|}.

Lemma up_ok {A E} (Q : A → Prop) (m : M (Store * Res) E A) :
  io_ok (SYS:=store_system) (W:=store_worlds) Q m → io_ok (SYS:=node_system) (W:=node_worlds) Q (up m).
Proof.
  intros Hm [n r0] Hs. specialize (Hm (store n, r0) Hs).
  change (up m (n, r0)) with (let '(o, t) := m (store n, r0) in (o, (set_store t.1 n, t.2))).
  destruct (m (store n, r0)) as [o [x r]]. destruct Hm as (H1 & H2 & H3 & _ & H5).
  exact (conj H1 (conj H2 (conj H3 (conj (conj eq_refl (λ _ H, H)) H5)))).
Qed.

Lemma up_world {A E} (m : M (Store * Res) E A) (s : Node * Res) :
  (∀ s, (m s).2.1 = s.1) → store (up m s).2.1 = store s.1.
Proof.
  intros Hm. specialize (Hm (store s.1, s.2)). unfold up, zoom.
  by destruct (m (store s.1, s.2)) as [o [x r]].
Qed.

Definition node_laws : SystemLaws (SYS:=node_system).
Proof.
  refine {|
    sl_worlds := node_worlds;
    sl_storage_read t a k := up_ok _ _ (@sl_storage_read store_system store_laws t a k);
    sl_storage_write t a k v := up_ok _ _ (@sl_storage_write store_system store_laws t a k v);
    sl_balance a := up_ok _ _ (@sl_balance store_system store_laws a);
    sl_selfbalance a := up_ok _ _ (@sl_selfbalance store_system store_laws a);
    sl_bytecode_size a := up_ok _ _ (@sl_bytecode_size store_system store_laws a);
    sl_bytecode_hash a := up_ok _ _ (@sl_bytecode_hash store_system store_laws a);
    sl_bytecode a := up_ok _ _ (@sl_bytecode store_system store_laws a);
    sl_emit_event a ts d := up_ok _ _ (@sl_emit_event store_system store_laws a ts d);
    sl_deconstruct a b c := up_ok _ _ (@sl_deconstruct store_system store_laws a b c);
    sl_read_nonce a := up_ok _ _ (@sl_read_nonce store_system store_laws a);
    sl_increment_nonce a n := up_ok _ _ (@sl_increment_nonce store_system store_laws a n);
    sl_account_balance a := up_ok _ _ (@sl_account_balance store_system store_laws a);
    sl_deploy a c := up_ok _ _ (@sl_deploy store_system store_laws a c);
    sl_keccak := @sl_keccak store_system store_laws;
    sl_digest := @sl_digest store_system store_laws
  |}; try (intros; by apply up_world).
  - intros n. cbn. pose proof (wrap_in_width 160 (tx_origin (context n)) ltac:(lia)).
    pose proof (wrap_in_width 256 (tx_gas_price (context n)) ltac:(lia)).
    split; try done; intros; simplify_eq/=; apply bytes32_ok.
  - intros s. by constructor.
  - intros s k Hk. cbn. split; [by constructor|done].
  - by intros.
  - intros s p k Hk. by inversion_clear Hk.
  - intros s snap w k Hk. cbn in *. by inversion_clear Hk.
Defined.

Definition node_ext : SystemExt (SYS:=node_system) := {|
  transfer_nominal_token_value ee a b v := up (transfer_nominal_token_value (SYS:=store_system) ee a b v) : M (@SysState node_system * Res) _ _;
  read_account_properties ee a fields := up (read_account_properties (SYS:=store_system) ee a fields);
  update_account_nominal_token_balance ee a d sub sim :=
    up (update_account_nominal_token_balance (SYS:=store_system) ee a d sub sim);
  emit_l1_message ee a d := up (emit_l1_message (SYS:=store_system) ee a d);
  set_bytecode_details a ee h l al oh ol := up (set_bytecode_details (SYS:=store_system) a ee h l al oh ol)
|}.

Lemma up_infinite {A E} (m : M (Store * Res) E A) (s : Node * Res) :
  (infinite_ergs (SYS:=node_system) (up m) s).1 = (infinite_ergs (SYS:=store_system) m (store s.1, s.2)).1.
Proof.
  unfold infinite_ergs, with_infinite_ergs, up, zoom. cbn. by destruct (m _) as [o [x r]].
Qed.

Definition node_ext_laws `{Usize} : SystemExtLaws (SYS:=node_system) (LAWS:=node_laws) (EXT:=node_ext).
Proof.
  split.
  - intros ee a b v. exact (up_ok _ _ (xl_transfer (SYS:=store_system) ee a b v)).
  - intros. apply up_world. intros [x r]. exact (xl_transfer_self (SYS:=store_system) (LAWS:=store_laws) ee a v (x, r)).
  - intros ee a d sub sim. exact (up_ok _ _ (xl_update_balance (SYS:=store_system) ee a d sub sim)).
  - intros ee a d. exact (up_ok _ _ (xl_l1_message (SYS:=store_system) ee a d)).
  - intros a ee h l al oh ol. exact (up_ok _ _ (xl_set_bytecode (SYS:=store_system) a ee h l al oh ol)).
  - intros ee a fields. exact (up_ok _ _ (xl_read (SYS:=store_system) ee a fields)).
  - intros. by apply up_world.
  - intros a s Hs. cbn [read_account_balance node_system]. rewrite up_infinite.
    by apply (xl_balance_rich (SYS:=store_system) a (store s.1, s.2)).
  - intros a n s Hs. cbn [increment_nonce node_system]. rewrite up_infinite.
    by apply (xl_nonce_rich (SYS:=store_system) a n (store s.1, s.2)).
Defined.

(** ** Transactions *)

(** The bytes as little-endian words. *)
Fixpoint words_of (n : nat) (bytes : list Z) (k : nat) : list Z :=
  match n with
  | O => []
  | S n => of_le_bytes (map (wrap 8) (take k bytes)) :: words_of n (drop k bytes) k
  end.

Definition nonce_of (s : Store) (a : Z) : Z := wrap 64 (find_or 0 a (nonces s)).
Definition set_account_nonce (a v : Z) (s : Store) : Store := set_nonces ((a, v) :: nonces s) s.

Definition bump (a n : Z) : M (Store * Res) NonceSubsystemError Z := λ s,
  let old := nonce_of s.1 a in
  match checked_add 64 old n with
  | Some new => writes subsystem_of_system (set_account_nonce a new) old s
  | None => (Err (SLeafUsage NonceOverflowError), s)
  end.

Definition node_tx `{Usize} : TxSystem (SYS:=node_system) := {|
  set_tx_context t := set_context t : @SysState node_system → Node;
  net_pubdata_used _ := Val 10;
  get_refund_counter _ := 0;
  add_evm_refund _ := mret tt;
  touch_account ee a l := up (reads (λ _, tt));
  storage_touch ee a k l := up (reads (λ _, tt));
  get_balance ee a := up (reads (λ s, balance_of s a));
  bump_nonce ee a n := up (bump a n);
  set_delegation a b := up (writes id id tt);
  emit_l1_l2_tx_log ee h ok p := up (reads (λ _, tt));
  logs_len _ := 0;
  finish_tx := mret tt;
  begin_next_tx := id;
  secp256k1_ec_recover i := mret (bytes32_of 0xaa);
  oracle_next_tx_size :=
    gets (λ n : Node, match queue n with o :: _ => Z.of_nat (length (offer_bytes o)) | [] => 0 end);
  oracle_tx_data_words := λ n : Node,
    match queue n with
    | o :: rest =>
        (Val (words_of ((length (offer_bytes o) + usize_bytes - 1) / usize_bytes) (offer_bytes o) usize_bytes),
         mkNode (store n) (context n) rest o)
    | [] => (Val [], n)
    end;
  oracle_tx_format := gets (λ n, offer_format (current n));
  oracle_tx_from := gets (λ _, 0xaa);
  uninitialized n := repeat 0 n
|}.

Definition node_accounts : Accounts (SYS:=node_system) (W:=node_worlds) := {|
  balance := balance_of : @World node_system node_worlds → Z → Z;
  nonce := nonce_of;
  TxSystem.set_balance _ := set_balance;
  set_nonce := set_account_nonce;
  has_code w a := is_contract (account_of w a);
  net_pubdata _ := Val 10
|}.

Lemma find_or_cons {V} (d v : V) (a b : Z) l : find_or d b ((a, v) :: l) = if b =? a then v else find_or d b l.
Proof.
  unfold find_or. cbn [list_find]. destruct (Z.eqb_spec b a) as [-> |Hb].
  - by rewrite decide_True.
  - rewrite decide_False by (cbn; congruence). by destruct (list_find _ l) as [[i [k x]]|].
Qed.

Lemma up_run {A E} (m : M (Store * Res) E A) (s : Node * Res) :
  up m s = let '(o, x) := m (store s.1, s.2) in (o, (set_store x.1 s.1, x.2)).
Proof. done. Qed.

Lemma writes_run {A E} conv f (a : A) (s : Store * Res) :
  let '(o, s') := writes (E:=E) conv f a s in
  match o with Val b => b = a ∧ s'.1 = f s.1 | Err e => s'.1 = s.1 ∧ ∃ e', e = conv e' | Fault => True end.
Proof.
  unfold writes, zoom, map_err, mbind, M_bind. destruct (charge _ s.2) as [[u|e|] r]; cbn; [done| |done].
  split; [done|]. by exists e.
Qed.

Lemma bump_effect a n (s : Node * Res) :
  res_wf s.2 → is_u64 n →
  changed_nonce (SYS:=node_system) (LAWS:=node_laws) (AC:=node_accounts) a n (store s.1)
    (up (bump a n) s).1 (store (up (bump a n) s).2.1).
Proof.
  intros Hs Hn. rewrite up_run. unfold bump, checked_add. cbn [fst].
  destruct (checked 64 (nonce_of (store s.1) a + n)) as [new|] eqn:Ec.
  - apply checked_Some in Ec as [<- Hc]. pose proof (writes_run (E:=NonceSubsystemError) subsystem_of_system
      (set_account_nonce a (nonce_of (store s.1) a + n)) (nonce_of (store s.1) a) (store s.1, s.2)) as Hw.
    pose proof (writes_ok (E:=NonceSubsystemError) subsystem_of_system (set_account_nonce a (nonce_of (store s.1) a + n))
      (nonce_of (store s.1) a) (λ _, True) I (store s.1, s.2) Hs) as (_ & _ & _ & _ & Hf).
    destruct (writes _ _ _ _) as [[v|e|] [x r]]; cbn in *; [by destruct Hw as [-> ->]| |done].
    destruct Hw as [-> [[] ->]]; done.
  - apply checked_None in Ec. cbn. split; [|done]. pose proof (wrap64_ok (find_or 0 a (nonces (store s.1)))) as Hw.
    fold (nonce_of (store s.1) a) in Hw. unfold in_width in *. lia.
Qed.

Lemma update_effect a d sub sim (s : Node * Res) :
  res_wf s.2 → is_u256 d →
  changed_balance (SYS:=node_system) (LAWS:=node_laws) (AC:=node_accounts) a d sub sim (store s.1)
    (up (update a d sub) s).1 (store (up (update a d sub) s).2.1).
Proof.
  intros Hs Hd. rewrite up_run. unfold update. cbn [fst].
  set (old := balance_of (store s.1) a). assert (is_u256 old) as Ho by (apply wrap_in_width; lia).
  assert ((if sub then checked_sub 256 old d else checked_add 256 old d) = checked 256 (if sub then old - d else old + d)) as ->
    by (by destruct sub).
  destruct (checked 256 _) as [new|] eqn:Ec.
  - apply checked_Some in Ec as [<- Hc].
    set (new := if sub then old - d else old + d) in *.
    pose proof (writes_run (E:=BalanceSubsystemError) subsystem_of_system (set_balance a new) old (store s.1, s.2)) as Hw.
    pose proof (writes_ok (E:=BalanceSubsystemError) subsystem_of_system (set_balance a new) old (λ _, True) I (store s.1, s.2) Hs)
      as (_ & _ & _ & _ & Hf).
    destruct (writes _ _ _ _) as [[v|e|] [x r]]; cbn in *; [by destruct Hw as [-> ->]| |done].
    destruct Hw as [-> [[] ->]]; done.
  - apply checked_None in Ec. unfold in_width in *. destruct sub; cbn; fold old; (split; [done|]); (split; [lia|done]).
Qed.

Lemma bump_ok a n : io_ok (SYS:=store_system) (W:=store_worlds) (λ _, True) (bump a n).
Proof.
  intros s Hs. unfold bump. destruct (checked_add _ _ _); [by apply writes_ok|]. cbn. by split_conj.
Qed.

Lemma quiet_reads {A E} (f : Store → A) : io_ok (SYS:=node_system) (W:=node_worlds) (λ _, True) (up (reads (E:=E) f)).
Proof. apply up_ok. by apply reads_ok. Qed.

Lemma quiet_writes {E} conv f : io_ok (SYS:=node_system) (W:=node_worlds) (λ _ : unit, True) (up (writes (E:=E) conv f tt)).
Proof. apply up_ok. by apply writes_ok. Qed.

Lemma idle_writes (s : Node * Res) : store (up (writes (E:=SystemError) id id tt) s).2.1 = store s.1.
Proof.
  apply up_world. intros x. pose proof (writes_run (E:=SystemError) id id tt x) as H.
  unfold writes, zoom, map_err, mbind, M_bind in *. by destruct (charge _ x.2) as [[u|e|] r].
Qed.

Definition node_tx_laws `{Usize} :
  TxSystemLaws (SYS:=node_system) (LAWS:=node_laws) (EXT:=node_ext) (TX:=node_tx).
Proof.
  unshelve eapply (Build_TxSystemLaws (SYS:=node_system) (LAWS:=node_laws) (EXT:=node_ext) (TX:=node_tx) node_accounts).
  all: try (intros; apply quiet_reads); try (intros; apply quiet_writes); try (by intros).
  - intros w a. apply wrap_in_width. lia.
  - intros w a. apply wrap_in_width. lia.
  - intros m a b v w Hv. cbn. unfold balance_of, ExampleSystem.set_balance. cbn. rewrite find_or_cons.
    destruct (b =? a); [by apply wrap_small|done].
  - intros a b v w Hv. cbn. unfold nonce_of, set_account_nonce. cbn. rewrite find_or_cons.
    destruct (b =? a); [by apply wrap_small|done].
  - intros t s Ho Hp. change (node_metadata (set_context t s) = set_transaction_metadata t (node_metadata s)).
    unfold node_metadata. cbn [context set_context]. rewrite (wrap_small 160), (wrap_small 256) by done. done.
  - intros ee a s b [= <-]. done.
  - intros ee a n. exact (up_ok _ _ (bump_ok a n)).
  - intros ee a n s Hs Hn. by apply bump_effect.
  - intros ee a d sub sim s Hs Hd. by apply update_effect.
  - intros ee a fields s x [= <-]. done.
  - intros a b s x. pose proof (idle_writes s) as Hw.
    change (world (set_delegation a b s).2.1) with (store (up (writes (E:=SystemError) id id tt) s).2.1). by rewrite Hw.
  - intros i. apply res_pure_ok. right. apply bytes32_ok.
Defined.

Lemma words_in_width `{Usize} n bytes : Forall (in_width usize_bits) (words_of n bytes usize_bytes).
Proof.
  revert bytes. induction n as [|n IH]; intros bytes; cbn [words_of]; constructor; [|apply IH].
  set (l := map (wrap 8) (take usize_bytes bytes)).
  assert (Forall is_u8 l) as Hl by (apply Forall_map, Forall_true; intros x; apply wrap_in_width; lia).
  pose proof (of_le_bytes_bound l Hl) as Hb. assert (length l ≤ usize_bytes)%nat as Hn.
  { unfold l. rewrite length_map, length_take. lia. }
  pose proof usize_bytes_bits as Hu. pose proof (Z.pow_le_mono_r 2 (8 * Z.of_nat (length l)) usize_bits).
  unfold in_width. lia.
Qed.

Definition node_block_laws `{Usize} :
  BlockSystemLaws (IL:=example_limit) (SYS:=node_system) (LAWS:=node_laws) (TX:=node_tx).
Proof.
  split.
  - intros s. split; [done|]. split; [done|]. cbn. destruct (queue s) as [|[] l]; [done|..]; vm_compute; by split.
  - intros s. cbn. destruct (queue s) as [|q l]; cbn; (split; [done|]); (split; [done|]); [done|apply words_in_width].
  - done.
  - done.
  - intros n. cbn. split; [apply repeat_length|]. apply Forall_forall. intros x Hx%list_elem_of_In%repeat_spec. subst.
    unfold in_width. pose proof usize_bits_pos. pose proof (Z.pow_pos_nonneg 2 usize_bits). lia.
Defined.
