(* ===== verification/BootWitnesses.v ===== *)
(** * Witnesses for the bootloader

    Concrete calls on the system of ExampleSystem.v that satisfy the hypotheses of the
    theorems about hooks and the call loop: a contract that calls a contract that
    writes and reverts, withdrawals, and a stranger at the contract deployer. *)

From stdpp Require Import strings gmap.
From S2P Require Import Prelude Resources U256 SystemInterface SliceVec EvmConstants Gas EvmState.
From S2P Require Import EvmRun EvmFrame EvmLogic EvmExec BootSystem IoLogic Hooks HookTheorems.
From S2P Require Import BootloaderErrors Runner RunnerTheorems ExampleSystem.

#[local] Existing Instance ruint_ref.
#[local] Existing Instance ruint_ref_spec.
#[local] Existing Instance usize64.
#[local] Existing Instance example_limit.

(** ** Calls *)

(** PUSH1 1, PUSH1 0, SSTORE, PUSH1 0, PUSH1 0, REVERT. *)
Definition reverting_code : list Z := [0x60; 1; 0x60; 0; 0x55; 0x60; 0; 0x60; 0; 0xfd].

(** Call 0xbb with 0xffff gas and return its success flag: PUSH1 0 (five times),
    PUSH1 0xbb, PUSH2 0xffff, CALL, PUSH1 0, MSTORE, PUSH1 32, PUSH1 0, RETURN. *)
Definition calling_code : list Z :=
  [0x60; 0; 0x60; 0; 0x60; 0; 0x60; 0; 0x60; 0; 0x60; 0xbb; 0x61; 0xff; 0xff; 0xf1;
   0x60; 0; 0x52; 0x60; 32; 0x60; 0; 0xf3].

Definition two_contracts : Store := mkStore [] [] [(0xbb, reverting_code); (0xcc, calling_code)] [] [].

Definition ask (m : CallModifier) (to value : Z) : ExternalCallRequest :=
  mkCallRequest (mk_res 256000000 50000) (mkErgs 256000000) 0xaa to 0xdd m [] value None.

Lemma ask_wf m to v : is_b160 to → is_u256 v → request_wf (ask m to v).
Proof. intros Hto Hv. by split. Qed.

Definition buffers : RunnerMemoryBuffers := mkBuffers 4096 4096.

Lemma buffer_4096 : buffer_ok 4096.
Proof. unfold buffer_ok, input_limit, example_limit. change (2 ^ usize_bits) with (2 ^ 64). lia. Qed.

(** The identity precompile at its address. *)
Definition one_hook : HooksStorage :=
  <[ID_HOOK_ADDRESS_LOW := pure_system_function_hook_impl identity_precompile]> new_in.

Lemma one_hook_ok : hooks_ok one_hook.
Proof.
  apply (map_Forall_insert_2 (M:=gmap Z)); [by apply pure_hook_ok, identity_ok|].
  apply (map_Forall_empty (M:=gmap Z)).
Qed.

(** The value of a run satisfies a test. *)
Definition returns {E A S} (o : outcome E A * S) (test : A → bool) : bool :=
  match o.1 with Val a => test a | _ => false end.

Lemma returns_eq {E A S} (o : outcome E A * S) test :
  returns o test = true → ∃ a s, o = (Val a, s) ∧ test a = true.
Proof. destruct o as [[a|e|] s]; [eauto|done|done]. Qed.

Definition succeeds_with (data : list Z) (c : CompletedExecution) : bool :=
  match ce_result c with Successful rv => bool_decide (rv_returndata rv = data) | _ => false end.

Lemma call_tree_total_witness :
  ∃ c sys', run_till_completion buffers one_hook EVM (ask NoModifier 0xcc 0) (two_contracts : SysState)
            = (Val c, sys')
    ∧ succeeds_with (be_bytes 32 0) c = true
    ∧ res_le_both (resources_returned c) (available_resources (ask NoModifier 0xcc 0)).
Proof.
  pose proof (call_tree_total buffers one_hook EVM (ask NoModifier 0xcc 0) two_contracts
    ltac:(by apply ask_wf) one_hook_ok buffer_4096 buffer_4096) as H.
  destruct (returns_eq (run_till_completion buffers one_hook EVM (ask NoModifier 0xcc 0) two_contracts)
    (succeeds_with (be_bytes 32 0))) as (c & sys' & E & Ht); [vm_compute; reflexivity|].
  exists c, sys'. split; [exact E|]. split; [exact Ht|]. rewrite E in H. apply H.
Defined.

Definition in_call : ExecutionContext :=
  mkExecution (two_contracts : SysState) one_hook 1 4096.

Lemma in_call_ok : execution_ok in_call.
Proof. split; [apply one_hook_ok|cbn; lia|apply buffer_4096]. Qed.

Definition call_heap : Heap Z := mkHeap 4096 [].

Lemma call_heap_ok : heap_ok call_heap.
Proof. split; [done|apply buffer_4096]. Qed.

(** The callee writes to its storage before it reverts. *)
Lemma failed_calls_undone_witness :
  ∃ x c', handle_requested_external_call 2501 false EVM (ask NoModifier 0xbb 0) call_heap in_call
          = (Val x, c')
    ∧ failed (ce_result x) = true ∧ world (ec_system c') = two_contracts.
Proof.
  pose proof (failed_calls_undone 2501 false EVM (ask NoModifier 0xbb 0) call_heap in_call
    ltac:(by apply ask_wf) call_heap_ok in_call_ok ltac:(done)) as H.
  destruct (returns_eq (handle_requested_external_call 2501 false EVM (ask NoModifier 0xbb 0)
    call_heap in_call) (λ x, failed (ce_result x))) as (x & c' & E & Ht); [vm_compute; reflexivity|].
  exists x, c'. split; [exact E|]. split; [exact Ht|]. rewrite E in H. apply H; [exact Ht|].
  right. done.
Defined.

Lemma static_calls_pure_witness :
  ∃ x c', handle_requested_external_call 2501 false EVM (ask Static 0xcc 0) call_heap in_call
          = (Val x, c')
    ∧ succeeds_with (be_bytes 32 0) x = true ∧ world (ec_system c') = two_contracts.
Proof.
  pose proof (static_calls_pure 2501 false EVM (ask Static 0xcc 0) call_heap in_call
    ltac:(by apply ask_wf) call_heap_ok in_call_ok ltac:(done) eq_refl) as H.
  destruct (returns_eq (handle_requested_external_call 2501 false EVM (ask Static 0xcc 0)
    call_heap in_call) (succeeds_with (be_bytes 32 0))) as (x & c' & E & Ht); [vm_compute; reflexivity|].
  exists x, c'. split; [exact E|]. split; [exact Ht|]. rewrite E in H. exact H.
Defined.

(** ** Hooks *)

(** The identity in the place of every function. *)
Definition plain_functions : SystemFunctions :=
  let f := precompile identity_precompile in
  {| Secp256k1ECRecover := f; Sha256 := f; RipeMd160 := f; ModExp := f; Bn254Add := f;
     Bn254Mul := f; Bn254PairingCheck := f; PointEvaluation := f; P256Verify := f |}.

Definition all_features : HookFeatures :=
  {| mock_unsupported_precompiles := true; point_eval_precompile := false;
     p256_precompile := true; disable_system_contracts := false |}.

Lemma hooks_safe_witness :
  ∃ hooks, system_functions (HF:=all_features) plain_functions new_in = (Val tt, hooks)
           ∧ hooks_ok hooks.
Proof. apply hooks_safe; [split; apply identity_ok|]. left. by vm_compute. Defined.

(** To the address 0x0101..01, with the message [5; 6; 7]. *)
Definition receiver : list Z := repeat 1 20.
Definition wealthy : @SysState store_system * Res := (two_contracts, mk_res 256000000 50000000).


Lemma deployer_authorized_witness :
  (contract_deployer_hook (SYS:=store_system) (ask NoModifier CONTRACT_DEPLOYER_ADDRESS 0) 1 4096%nat
     two_contracts).2 = two_contracts.
Proof. apply deployer_authorized. left. discriminate. Defined.
