(* ===== verification/TxWitnesses.v ===== *)
(** * Witnesses for transaction processing

    Transactions on the system of ExampleTx.v that satisfy the hypotheses of the
    theorems: a call that writes and reverts, a deposit from L1, and a block of both. *)

From stdpp Require Import strings gmap.
From S2P Require Import Prelude Resources U256 Rlp SystemInterface SliceVec EvmConstants Gas EvmState EvmLogic.
From S2P Require Import BootloaderErrors RlpParser TxFormats TxTheorems TxRoundtrip RlpHash AbiTx AbiTheorems.
From S2P Require Import BootSystem Hooks HookTheorems Runner RunnerTheorems TxSystem GasHelpers GasTheorems.
From S2P Require Import Transaction TxWellFormed TxFlow FlowTheorems ListTheorems ProcessTx SettleTheorems.
From S2P Require Import L2Theorems L1Theorems ProcessTheorems Block HeaderTheorems BlockTheorems.
From S2P Require Import ExampleSystem ExampleTx BootWitnesses.

#[local] Existing Instance ruint_ref.
#[local] Existing Instance ruint_ref_spec.
#[local] Existing Instance usize64.
#[local] Existing Instance example_limit.
#[local] Existing Instance node_system.
#[local] Existing Instance node_laws.
#[local] Existing Instance node_ext.
#[local] Existing Instance node_ext_laws.
#[local] Existing Instance node_tx.
#[local] Existing Instance node_tx_laws.
#[local] Existing Instance node_block_laws.
#[local] Existing Instance BasicBootloaderProvingExecutionConfig.
#[local] Instance plain_tx_features : TxFeatures :=
  {| unlimited_native := false; resources_for_tester := false; burn_base_fee := true |}.

#[local] Existing Instance system_keccak.

(** ** The node *)

(** 0xbb has code that writes and reverts, and 0xaa has funds. *)
Definition rich_store : Store := mkStore [] [] [(0xbb, reverting_code)] [] [(0xaa, 10 ^ 9)].

Definition node_with (txs : list Offer) (last : Offer) : @SysState node_system :=
  mkNode rich_store (mkTxLevel 0 0) txs last.

Definition no_hooks : HooksStorage := new_in.

Lemma no_hooks_ok : hooks_ok no_hooks.
Proof. apply (map_Forall_empty (M:=gmap Z)). Qed.

Definition bytes_and_size (l : list Z) : bool :=
  forallb (λ b, (0 <=? b) && (b <? 256)) l && (Z.of_nat (length l) <? 2 ^ 20).

Lemma bytes_and_size_ok l : bytes_and_size l = true → Forall is_u8 l ∧ Z.of_nat (length l) < 2 ^ 20.
Proof.
  intros [H1 H2%Z.ltb_lt]%andb_true_iff. split; [|done]. apply Forall_forall. intros x Hx%list_elem_of_In.
  apply (proj1 (forallb_forall _ _) H1) in Hx. apply andb_true_iff in Hx as [? ?]. unfold in_width. lia.
Qed.

Lemma sender_ok : is_b160 0xaa.
Proof. unfold in_width. lia. Qed.

Lemma chain_ok : is_u64 1.
Proof. unfold in_width. lia. Qed.

Lemma call_ok : Forall is_u8 call_bytes ∧ Z.of_nat (length call_bytes) < 2 ^ 20.
Proof. apply bytes_and_size_ok. vm_compute. reflexivity. Qed.

Definition failing_deposit : list Z := l1_encoding (deposit_to 0xbb).

Lemma failing_deposit_ok : Forall is_u8 failing_deposit ∧ Z.of_nat (length failing_deposit) < 2 ^ 20.
Proof. apply bytes_and_size_ok. vm_compute. reflexivity. Qed.

Lemma small_size n : n < 2 ^ 20 → tx_size_ok n.
Proof. unfold tx_size_ok, input_limit, example_limit. lia. Qed.

(** ** Transactions *)

Lemma transaction_outcome_witness :
  ∃ r sys', process_transaction call_bytes buffers no_hooks true (node_with [] OfferCall) = (Val r, sys')
    ∧ tp_gas_used r = 18312
    ∧ accepted call_bytes buffers no_hooks true (node_with [] OfferCall) r (world sys').
Proof.
  destruct call_ok as [Hu Hl].
  pose proof (transaction_outcome call_bytes Hu (small_size _ Hl) buffers no_hooks no_hooks_ok buffer_4096 buffer_4096
    true (node_with [] OfferCall)) as H.
  destruct (returns_eq (process_transaction call_bytes buffers no_hooks true (node_with [] OfferCall))
    (λ r, tp_gas_used r =? 18312)) as (r & sys' & E & Ht%Z.eqb_eq); [vm_compute; reflexivity|].
  exists r, sys'. rewrite E in H. exact (conj E (conj Ht (proj2 H))).
Defined.

Lemma l1_transactions_not_rejected_witness :
  ∃ r sys', process_transaction failing_deposit buffers no_hooks false (node_with [] OfferDeposit) = (Val r, sys')
    ∧ is_l1_tx r = true.
Proof.
  destruct failing_deposit_ok as [Hu Hl].
  destruct (returns_eq (abi_try_from_buffer failing_deposit tt) (λ tx, is_l1_l2 (TxAbi tx) && negb (is_upgrade (TxAbi tx))))
    as (tx & [] & Etx & Hk); [vm_compute; reflexivity|]. apply andb_true_iff in Hk as [Hk Hn%negb_true_iff].
  pose proof (l1_transactions_not_rejected failing_deposit Hu (small_size _ Hl) buffers no_hooks no_hooks_ok buffer_4096
    buffer_4096 false (node_with [] OfferDeposit) tx
    eq_refl Etx ltac:(rewrite Hn; discriminate)) as H.
  destruct (returns_eq (process_transaction failing_deposit buffers no_hooks false (node_with [] OfferDeposit))
    (λ r, true)) as (r & sys' & E & _); [vm_compute; reflexivity|].
  exists r, sys'. rewrite E in H. rewrite <- Hk. exact (conj E (proj1 H)).
Defined.

(** 18312 gas at 10 are paid, of which the base fee of 5 is burnt. *)
Lemma reverted_transaction_charges_witness :
  ∃ t r sys', process_l2_transaction buffers no_hooks (TxRlp t) (node_with [] OfferCall) = (Val r, sys')
    ∧ tp_gas_used r = 18312
    ∧ balance (world sys') 0xaa = 10 ^ 9 - 183120 ∧ balance (world sys') 0xc0 = 1000 + 91560
    ∧ balance (world sys') 0xbb = 1000 ∧ nonce (world sys') 0xaa = 1.
Proof.
  destruct call_ok as [Hu Hl].
  destruct (returns_eq (parse_from_buffer call_bytes 1 0xaa tt)
    (λ t, (effective_price the_metadata t =? 10)
      && returns (process_l2_transaction buffers no_hooks (TxRlp t) (node_with [] OfferCall))
           (λ r, (tp_gas_used r =? 18312) && negb (is_success (tp_result r)))
      && match authorization_list t with None => true | Some _ => false end))
    as (t & [] & Et & Ht); [vm_compute; reflexivity|].
  apply andb_true_iff in Ht as [[Hp%Z.eqb_eq Hr]%andb_true_iff Ha].
  apply returns_eq in Hr as (r & sys' & E & Hr). apply andb_true_iff in Hr as [Hg%Z.eqb_eq Hs%negb_true_iff].
  pose proof (reverted_transaction_charges buffers no_hooks call_bytes no_hooks_ok buffer_4096 buffer_4096 Hu
    (small_size _ Hl) 0xaa t (node_with [] OfferCall) r sys' sender_ok Et E Hs) as H.
  cbv zeta in H. change (effective_price (sys_metadata (node_with [] OfferCall)) t) with (effective_price the_metadata t) in H.
  rewrite Hp, Hg in H. exists t, r, sys'. split_conj; [exact E|exact Hg|..].
  - exact (proj1 (H 0xaa)).
  - exact (proj1 (H 0xc0)).
  - exact (proj1 (H 0xbb)).
  - apply (H 0xaa). right. by destruct (authorization_list t).
Defined.

(** 21112 gas at 1000 go to the operator, the rest of the deposit to the recipient. *)
Lemma deposit_accounted_witness :
  ∃ tx r sys', process_l1_transaction buffers no_hooks tx true (node_with [] OfferDeposit) = (Val r, sys')
    ∧ tp_gas_used r = 21112
    ∧ balance (world sys') 0xc0 = 1000 + 21112000 ∧ balance (world sys') 0xff = 1000 + 61000000 - 21112000.
Proof.
  destruct failing_deposit_ok as [Hu Hl].
  destruct (returns_eq (abi_try_from_buffer failing_deposit tt)
    (λ tx, (pv_value (ab_max_fee_per_gas tx) =? 1000) && (pv_value (ab_reserved_0 tx) =? 61000000)
      && (pv_value (ab_reserved_1 tx) =? 0xff)
      && returns (process_l1_transaction buffers no_hooks tx true (node_with [] OfferDeposit))
           (λ r, (tp_gas_used r =? 21112) && negb (is_success (tp_result r)))))
    as (tx & [] & Et & Ht); [vm_compute; reflexivity|].
  apply andb_true_iff in Ht as [[[Hf%Z.eqb_eq Hd%Z.eqb_eq]%andb_true_iff Hc%Z.eqb_eq]%andb_true_iff Hr].
  apply returns_eq in Hr as (r & sys' & E & Hr). apply andb_true_iff in Hr as [Hg%Z.eqb_eq Hs%negb_true_iff].
  pose proof (deposit_accounted buffers no_hooks failing_deposit no_hooks_ok buffer_4096 buffer_4096 Hu
    (small_size _ Hl) tx true (node_with [] OfferDeposit) r sys' Et E) as H.
  cbv zeta in H. rewrite Hs, Hf, Hd, Hc, Hg in H. destruct H as (_ & _ & _ & _ & we & Hwe & H).
  rewrite Hwe in H. exists tx, r, sys'. split_conj; [exact E|exact Hg|..].
  - exact (proj1 (H 0xc0)).
  - exact (proj1 (H 0xff)).
Defined.

(** ** Blocks *)

(** A call, the same call again, which has no valid nonce any more, and a deposit. *)
Definition full_node : @SysState node_system := node_with [OfferCall; OfferCall; OfferDeposit] OfferCall.

Lemma block_refines_witness :
  ∃ b b1 os, block_loop buffers no_hooks 4 (initial_block full_node) = (Val tt, b)
    ∧ block_run buffers no_hooks (initial_block full_node) os b1 ∧ (length os < 4)%nat
    ∧ tx_processed b1 = tx_processed b.
Proof.
  pose proof (block_refines buffers no_hooks no_hooks_ok buffer_4096 buffer_4096 4 (initial_block full_node)) as H.
  destruct (returns_eq (block_loop buffers no_hooks 4 (initial_block full_node)) (λ _, true))
    as ([] & b & E & _); [vm_compute; reflexivity|].
  rewrite E in H. destruct H as (os & b1 & H1 & H2 & sys & _ & ->). exists (set_block_system sys b1), b1, os.
  exact (conj E (conj H1 (conj H2 eq_refl))).
Defined.

(** The identity in the place of every system function. *)
Definition node_functions : SystemFunctions :=
  let f := precompile identity_precompile in
  {| Secp256k1ECRecover := f; Sha256 := f; RipeMd160 := f; ModExp := f; Bn254Add := f;
     Bn254Mul := f; Bn254PairingCheck := f; PointEvaluation := f; P256Verify := f |}.

Lemma node_functions_ok : functions_ok node_functions.
Proof. split; apply identity_ok. Qed.

Lemma block_accounting_witness :
  ∃ hooks x b os b1, run_prepared (HF:=all_features) node_functions buffers 4 full_node = (Val x, b)
    ∧ block_run buffers hooks (initial_block full_node) os b1
    ∧ block_gas_used b = 18312 + 21000 ∧ block_summary (sys_metadata full_node) (omap id os) b
    ∧ bh_gas_used (block_header x) = 18312 + 21000.
Proof.
  destruct (block_accounting (HF:=all_features) buffers buffer_4096 buffer_4096 node_functions 4 full_node
    node_functions_ok ltac:(left; by vm_compute) eq_refl) as (hooks & _ & H).
  destruct (returns_eq (run_prepared (HF:=all_features) node_functions buffers 4 full_node)
    (λ x, bh_gas_used (block_header x) =? 18312 + 21000)) as (x & b & E & Ht%Z.eqb_eq); [vm_compute; reflexivity|].
  rewrite E in H. destruct H as (os & b1 & sys1 & H0 & _ & _ & H1 & H2). exists hooks, x, b, os, b1.
  pose proof (so_gas_used _ _ _ H2) as Hg. rewrite Ht in Hg.
  exact (conj E (conj H0 (conj (eq_sym Hg) (conj H1 Ht)))).
Defined.

Definition some_header : BlockHeader :=
  BlockHeader_new (repeat 1 32) 0xc0 (repeat 2 32) 7 30000000 39312 1000 (repeat 3 32) 5.

Lemma header_hash_rlp_witness : header_hash some_header = Keccak256 (rlp (header_item some_header)).
Proof. apply header_hash_rlp. by split; try (cbn; lia). Defined.

(** ** Resources *)

Lemma tx_resources_split_witness :
  ∃ r s', get_resources_for_tx 60000 2 10 [] L2_TX_INTRINSIC_GAS L2_TX_INTRINSIC_PUBDATA
            L2_TX_INTRINSIC_NATIVE_COST false tt = (Val r, s')
    ∧ e_left (main_resources r) = 42000 * ERGS_PER_GAS.
Proof.
  pose proof (tx_resources_split 60000 2 10 [] L2_TX_INTRINSIC_GAS L2_TX_INTRINSIC_PUBDATA L2_TX_INTRINSIC_NATIVE_COST
    ltac:(done) ltac:(done) ltac:(done) ltac:(done) ltac:(done) tt) as H.
  destruct (returns_eq (get_resources_for_tx 60000 2 10 [] L2_TX_INTRINSIC_GAS L2_TX_INTRINSIC_PUBDATA
            L2_TX_INTRINSIC_NATIVE_COST false tt) (λ _, true)) as (r & s' & E & _); [vm_compute; reflexivity|].
  rewrite E in H. exists r, s'. exact (conj E (sp_ergs _ _ _ _ _ _ _ _ (proj2 H))).
Defined.

Lemma gas_refund_exact_witness :
  ∃ info r', compute_gas_refund (mk_res 0 20) 60000 10 (node_with [] OfferCall, mk_res 256000 500000)
             = (Val info, (node_with [] OfferCall, r'))
    ∧ gas_used info + gas_refund info = 60000.
Proof.
  destruct (gas_refund_exact 60000 10 (mk_res 0 20) ltac:(done) ltac:(done) eq_refl (node_with [] OfferCall)
    (mk_res 256000 500000) ltac:(done) ltac:(done) ltac:(done)) as (info & r' & E & Hx & _).
  exists info, r'. exact (conj E (rx_total _ _ _ _ _ _ Hx)).
Defined.

(** ** Formats *)

Lemma authorization_message_witness :
  compute_auth_message_signed_hash 1 7 (be_bytes 20 0xdd) (mk_res 0 1000000)
  = (charge_keccak (Z.of_nat (length (0x05 :: rlp (authorization_payload 1 7 (be_bytes 20 0xdd))))) ;;
     mret (Keccak256 (0x05 :: rlp (authorization_payload 1 7 (be_bytes 20 0xdd))))) (mk_res 0 1000000).
Proof. apply authorization_message; [done|done|reflexivity]. Defined.

Lemma parsed_transactions_typed_witness : ∃ t, parse_from_buffer call_bytes 1 0xaa tt = (Val t, tt) ∧ l2_wf t ∧ from_ t = 0xaa ∧ buffer t = call_bytes.
Proof.
  destruct call_ok as [Hu Hl].
  destruct (returns_eq (parse_from_buffer call_bytes 1 0xaa tt) (λ _, true)) as (t & [] & E & _); [vm_compute; reflexivity|].
  exists t. split; [exact E|]. assert (Z.of_nat (length call_bytes) + 11 < 2 ^ 32) as Hl' by lia.
  exact (parsed_transactions_typed call_bytes 1 0xaa t tt chain_ok Hu Hl' sender_ok E).
Defined.

Lemma abi_parse_exact_witness :
  ∃ tx t, abi_try_from_buffer failing_deposit tt = (Val tx, tt) ∧ l1_ok t ∧ failing_deposit = l1_encoding t ∧ abi_matches t tx.
Proof.
  destruct failing_deposit_ok as [Hu Hl]. assert (Z.of_nat (length failing_deposit) < 2 ^ 32) as Hl' by lia.
  pose proof (abi_parse_exact failing_deposit Hu Hl') as H.
  destruct (returns_eq (abi_try_from_buffer failing_deposit tt) (λ _, true)) as (tx & [] & E & _); [vm_compute; reflexivity|].
  rewrite E in H. destruct H as (t & H). exists tx, t. exact (conj E H).
Defined.

(** ** What the code does not guard against *)

(** A call of 0xbb with 22000 gas at 5. *)
Definition tight_call : list Z :=
  rlp (RlpList [RlpString []; RlpString [5]; RlpString (minimal_be 22000); RlpString (be_bytes 20 0xbb);
    RlpString []; RlpString []; RlpString [37]; RlpString [1]; RlpString [1]]).

(** The code at 0xbb: JUMPDEST, PUSH1 0, JUMP; or none. *)
Definition node_running (code : list Z) : @SysState node_system :=
  mkNode (mkStore [] [] [(0xbb, code)] [] [(0xaa, 10 ^ 9)]) (mkTxLevel 0 0) [] OfferCall.
Definition endless_code : list Z := [0x5b; 0x60; 0; 0x56].

(** An execution that runs out of native uses up its gas, but the native it took is
    in none of the counters: they are those of a call of an account without code. *)
Example failed_execution_native_unaccounted :
  ∃ r sys r' sys', process_transaction tight_call buffers no_hooks true (node_running endless_code) = (Val r, sys)
    ∧ process_transaction tight_call buffers no_hooks true (node_running []) = (Val r', sys')
    ∧ is_success (tp_result r) = false ∧ tp_gas_used r = 22000
    ∧ computational_native_used r = computational_native_used r' ∧ tp_native_used r = tp_native_used r'.
Proof.
  destruct (returns_eq (process_transaction tight_call buffers no_hooks true (node_running endless_code))
    (λ r, negb (is_success (tp_result r)) && (tp_gas_used r =? 22000)
      && (computational_native_used r =? 70000) && (tp_native_used r =? 70150)))
    as (r & sys & E & Hr); [vm_compute; reflexivity|].
  destruct (returns_eq (process_transaction tight_call buffers no_hooks true (node_running []))
    (λ r, (computational_native_used r =? 70000) && (tp_native_used r =? 70150)))
    as (r' & sys' & E' & Hr'); [vm_compute; reflexivity|].
  exists r, sys, r', sys'. split; [exact E|]. split; [exact E'|]. clear E E'.
  apply andb_true_iff in Hr as [[[Hs%negb_true_iff Hg]%andb_true_iff Hc]%andb_true_iff Hn].
  apply andb_true_iff in Hr' as [Hc' Hn']. split_conj; [exact Hs|lia..].
Qed.

(** A deposit whose refund recipient has more than 160 bits. *)
Definition odd_deposit_bytes : list Z := l1_encoding {|
  l1_is_upgrade := false; l1_from := 0xee; l1_to := 0xbb; l1_gas_limit := 60000; l1_gas_per_pubdata := 1;
  l1_max_fee := 1000; l1_max_priority_fee := 0; l1_nonce := 3; l1_value := 100; l1_deposited := 61000000;
  l1_refund_recipient := 2 ^ 160; l1_data := []; l1_factory_deps := []
|}.

(** The parser accepts it, and paying the refund panics. *)
Example odd_refund_recipient_panics :
  (∃ tx, abi_try_from_buffer odd_deposit_bytes tt = (Val tx, tt))
  ∧ (process_transaction odd_deposit_bytes buffers no_hooks true (node_with [] OfferDeposit)).1 = Fault.
Proof.
  split; [|vm_compute; reflexivity].
  destruct (returns_eq (abi_try_from_buffer odd_deposit_bytes tt) (λ _, true)) as (tx & [] & E & _); [vm_compute; reflexivity|].
  exists tx. exact E.
Qed.
