(* ===== verification/EvmAddress.v ===== *)
(** * Addresses of new contracts

    The address derivations of CREATE and CREATE2 ([create_quasi_rlp] of
    [evm_interpreter/src/utils.rs] and the two [derive_address_for_deployment_*]
    of [instructions/host.rs]) against what Ethereum defines: the hash of the RLP
    list of address and nonce, with RLP in its general form (Rlp.v), and the
    hash of the 85-byte CREATE2 record. *)

From stdpp Require Import list.
From S2P Require Import Prelude Resources U256 SystemInterface EvmConstants Gas Bytecode EvmState.
From S2P Require Import EvmInstructions EvmSafety ExampleSystem Rlp.

(** ** The claims *)
Section Addresses.
Context {R : Ruint} {UZ : Usize} {FT : Features} {SYS : System} {LAWS : SystemLaws}.

Lemma create_quasi_rlp_spec address nonce :
  is_u64 nonce →
  create_quasi_rlp address nonce
  = rlp (RlpList [RlpString (be_bytes 20 address); RlpString (minimal_be nonce)]).
Proof.
  intros Hn. destruct (skip_leading_zeros 8 nonce Hn) as [Hc Hd].
  pose proof (width_of_bound nonce 8 Hn) as Hw. unfold create_quasi_rlp. cbn zeta.
  rewrite Hd, Hc. replace (8 - (8 - width_of nonce))%nat with (width_of nonce) by lia.
  pose proof (length_be_bytes 20 address) as Hl. set (ab := be_bytes 20 address) in *.
  assert (rlp_string ab = (0x80 + 20) :: ab) as Ha.
  { unfold rlp_string. destruct ab as [|b [|]]; try discriminate Hl. by rewrite Hl. }
  cbn [rlp map concat]. rewrite Ha, app_nil_r.
  destruct (decide (width_of nonce = 1%nat)) as [E|E].
  - rewrite bool_decide_true by done. unfold minimal_be. rewrite E.
    assert (default 0 (be_bytes 8 nonce !! 7%nat) = nonce mod 256) as -> by done.
    change (be_bytes 1 nonce) with [nonce mod 256]. cbn [rlp_string andb].
    destruct (Z.ltb_spec (nonce mod 256) 128); cbn [app];
      unfold rlp_header; cbn [length]; rewrite length_app, Hl; done.
  - rewrite bool_decide_false by done. cbn [andb].
    assert (length (minimal_be nonce) = width_of nonce) as Hlm by apply length_be_bytes.
    assert (rlp_string (minimal_be nonce)
            = (0x80 + Z.of_nat (width_of nonce)) :: minimal_be nonce) as ->.
    { unfold rlp_string. destruct (minimal_be nonce) as [|b [|]] eqn:Hm; cbn in Hlm; [|lia|];
        unfold rlp_header; rewrite <- Hlm; cbn [length app].
      - done.
      - destruct (Nat.ltb_spec (S (S (length l))) 56); [done|lia]. }
    unfold rlp_header. cbn [length]. rewrite !length_app. cbn [length]. rewrite Hl, Hlm.
    destruct (Nat.ltb_spec (21 + S (width_of nonce)) 56); [|lia].
    cbn [app]. f_equal. lia.
Qed.

Lemma address_of_digest_spec d :
  is_bytes32 d → address_of_digest d = Some (of_be_bytes d mod 2 ^ 160).
Proof.
  intros [Hl Hu]. unfold address_of_digest.
  rewrite bool_decide_true by (rewrite length_drop, Hl; done). f_equal.
  rewrite <- (take_drop 12 d) at 2. rewrite of_be_bytes_app, length_drop, Hl.
  change (2 ^ (8 * Z.of_nat (32 - 12))) with (2 ^ 160). rewrite Z.mul_comm, Z.mod_add by lia.
  symmetry. apply Z.mod_small.
  pose proof (of_be_bytes_bound (drop 12 d) (Forall_drop _ _ _ Hu)) as Hb.
  by rewrite length_drop, Hl in Hb.
Qed.

(** C30: CREATE computes the address Ethereum defines: the low 160 bits of the
    hash of rlp([address, nonce]), with RLP in its general form; it changes
    nothing, and two different pairs never hash the same bytes. *)
Theorem create_address {S E} address nonce (s : S) :
  is_b160 address → is_u64 nonce →
  derive_address_for_deployment_create (E:=E) address nonce s
  = (Val (of_be_bytes (Keccak256_digest
            (rlp (RlpList [RlpString (be_bytes 20 address); RlpString (minimal_be nonce)])))
          mod 2 ^ 160), s)
  ∧ ∀ address' nonce', is_b160 address' → is_u64 nonce' →
      create_quasi_rlp address nonce = create_quasi_rlp address' nonce' →
      address = address' ∧ nonce = nonce'.
Proof.
  intros Ha Hn. split.
  { unfold derive_address_for_deployment_create. rewrite quasi_rlp_buffer.
    erewrite bind_val by done. by rewrite address_of_digest_spec, create_quasi_rlp_spec by (done || apply sl_digest). }
  intros a' n' Ha' Hn' He. rewrite !create_quasi_rlp_spec in He by done.
  apply rlp_pair_inj in He as [He1 He2]; unfold minimal_be; rewrite ?length_be_bytes;
    [|done|done|by apply width_of_bound..].
  split; [|apply minimal_be_inj; [apply Hn|apply Hn'|done]].
  apply (f_equal of_be_bytes) in He1. rewrite !of_be_bytes_be_bytes in He1.
  by rewrite !Z.mod_small in He1 by done.
Qed.

(** The initcode hash is charged in native only. *)
Lemma on_gas_keccak {A} (f : SystemError → ExitCode) (m : M Res SystemError A) (s s' : St) h :
  on_gas (zoom resources set_resources
    (map_err f (with_infinite_ergs id (λ r _, r) m))) s = (Val h, s') →
  ∃ r', m (mk_res (umax 64) (n_left (resources (gas (self s))))) = (Val h, r')
    ∧ e_left (resources (gas (self s'))) = e_left (resources (gas (self s)))
    ∧ n_left (resources (gas (self s'))) = n_left r'.
Proof.
  assert (∀ r : Res, mkResources (mkErgs (umax 64)) (native r) = mk_res (umax 64) (n_left r)) as Hr
    by (by intros [? []]).
  unfold on_gas, zoom, map_err, with_infinite_ergs, id. rewrite Hr.
  destruct (m _) as [[a|e|] r']; intros H; try discriminate H.
  injection H as -> <-. by exists r'.
Qed.

(** CREATE2 hashes the initcode without touching the ergs and computes the
    low 160 bits of the hash of 0xff, deployer, salt and that hash. *)
Theorem create2_address salt address code (s s' : St) (a : Z) :
  derive_address_for_deployment_create2 salt address code s = (Val a, s') →
  ∃ h r', keccak256 code (mk_res (umax 64) (n_left (resources (gas (self s))))) = (Val h, r')
    ∧ a = of_be_bytes (Keccak256_digest
            ([0xff] ++ be_bytes 20 address ++ be_bytes 32 salt ++ h)) mod 2 ^ 160
    ∧ e_left (resources (gas (self s'))) = e_left (resources (gas (self s)))
    ∧ n_left (resources (gas (self s'))) = n_left r'.
Proof.
  unfold derive_address_for_deployment_create2. intros H.
  apply bind_val_inv in H as (h & s1 & H1 & H).
  apply bind_val_inv in H as (h' & s2 & H2 & H3).
  unfold ArrayBuilder_build, expect in H2. destruct (bool_decide _); [|discriminate H2].
  injection H2 as -> ->. rewrite address_of_digest_spec in H3 by apply sl_digest.
  injection H3 as <- <-. apply on_gas_keccak in H1 as (r' & Hk & He & Hn). by exists h', r'.
Qed.
End Addresses.
