(* ===== verification/EvmCopies.v ===== *)
(** * The copying instructions

    CODECOPY, CALLDATACOPY, RETURNDATACOPY ([instructions/system.rs]) and MCOPY
    ([instructions/heap.rs]) against the EVM's view of memory as an unbounded
    array of bytes that starts out zero; and where the width of [usize] shows in
    their outcome. *)

From stdpp Require Import list.
From S2P Require Import Prelude Resources U256 SystemInterface EvmStack SliceVec EvmConstants Gas.
From S2P Require Import Bytecode EvmState EvmInstructions EvmLogic EvmSafety EvmSemantics.

(** Byte [i] of an array that continues with zeros. *)
Definition byte_at (l : list Z) (i : Z) : Z := default 0 (l !! Z.to_nat i).

(** [mem'] is [mem] with [len] bytes of [src] from [offset] on copied to [dst]. *)
Definition copied (src mem mem' : list Z) (dst offset len : Z) : Prop :=
  ∀ i, 0 ≤ i →
    byte_at mem' i
    = if (dst <=? i) && (i <? dst + len) then byte_at src (offset + (i - dst)) else byte_at mem i.

Lemma byte_at_zeros l k i : byte_at (l ++ repeat 0 k) i = byte_at l i.
Proof.
  unfold byte_at. destruct (decide (Z.to_nat i < length l)%nat).
  - by rewrite lookup_app_l.
  - rewrite lookup_app_r by lia. rewrite (lookup_ge_None_2 l) by lia. cbn.
    destruct (_ !! _) eqn:E; [|done]. by apply list_elem_of_lookup_2, list_elem_of_In, repeat_spec in E.
Qed.

Lemma byte_at_beyond l i : Z.of_nat (length l) ≤ i → byte_at l i = 0.
Proof. intros H. unfold byte_at. by rewrite lookup_ge_None_2 by lia. Qed.

Lemma byte_at_splice data start bytes i :
  0 ≤ start → start + Z.of_nat (length bytes) ≤ Z.of_nat (length data) → 0 ≤ i →
  byte_at (splice data start bytes) i
  = if (start <=? i) && (i <? start + Z.of_nat (length bytes)) then byte_at bytes (i - start)
    else byte_at data i.
Proof.
  intros Hs Hl Hi. unfold byte_at, splice.
  destruct (Z.leb_spec start i); cbn [andb].
  2:{ rewrite lookup_app_l by (rewrite length_take; lia). by rewrite lookup_take_lt by lia. }
  rewrite lookup_app_r by (rewrite length_take; lia). rewrite length_take.
  replace (Z.to_nat i - Z.to_nat start `min` length data)%nat with (Z.to_nat (i - start)) by lia.
  destruct (Z.ltb_spec i (start + Z.of_nat (length bytes))).
  - by rewrite lookup_app_l by lia.
  - rewrite lookup_app_r, lookup_drop by lia. do 2 f_equal. lia.
Qed.

Lemma copy_and_zeropad_spec src len i :
  0 ≤ len → 0 ≤ i < len →
  Z.of_nat (length (copy_and_zeropad src len)) = len
  ∧ byte_at (copy_and_zeropad src len) i = byte_at src i.
Proof.
  intros Hlen Hi. unfold copy_and_zeropad. cbn zeta.
  split; [rewrite length_app, length_take, repeat_length; lia|].
  rewrite byte_at_zeros. unfold byte_at.
  destruct (decide (Z.to_nat i < length src)%nat).
  - by rewrite lookup_take_lt by lia.
  - rewrite !lookup_ge_None_2; [done|lia|rewrite length_take; lia].
Qed.

Section Copies.
Context {R : Ruint} {RS : RuintSpec} {UZ : Usize} {FT : Features} {SYS : System}.

(** A source offset past the end, or too large for [usize], reads zeros. *)
Lemma byte_at_get_from src offset i :
  bytes_ok src → is_u256 offset → 0 ≤ i →
  byte_at (get_from src (u256_try_to_usize offset)) i = byte_at src (offset + i).
Proof.
  intros [_ Hl] Ho Hi. pose proof (proj1 Ho) as H0. rewrite u256_try_to_usize_spec by done.
  unfold checked. destruct (Z.leb_spec 0 offset), (Z.ltb_spec offset (2 ^ usize_bits));
    cbn [andb get_from]; try lia.
  - destruct (Z.leb_spec offset (Z.of_nat (length src))).
    + unfold byte_at. rewrite lookup_drop. do 2 f_equal. lia.
    + rewrite (byte_at_beyond src) by lia. done.
  - rewrite (byte_at_beyond src) by lia. done.
Qed.

(** What charging and growing the memory leave as it was. *)
Record sees (s s1 : St) : Prop := {
  sees_stack : stack (self s1) = stack (self s);
  sees_code : bytecode (self s1) = bytecode (self s);
  sees_calldata : calldata (self s1) = calldata (self s);
  sees_returndata : returndata (self s1) = returndata (self s);
  sees_memory i : byte_at (heap_data (heap (self s1))) i = byte_at (heap_data (heap (self s))) i
}.

#[export] Instance sees_preorder : PreOrder sees.
Proof.
  split; [done|]. intros x y z [] []. split; intros; congruence.
Qed.

Lemma charge_sees g n s o s1 : charge_op g n s = (o, s1) → sees s s1.
Proof.
  unfold charge_op, on_gas, zoom. destruct (spend_gas_and_native _ _ _) as [o' g'].
  intros [= _ <-]. done.
Qed.

Lemma resize_sees offset len s s1 : resize_heap offset len s = (Val tt, s1) → sees s s1.
Proof.
  unfold resize_heap. destruct (_ <? _); [discriminate|]. intros H.
  apply bind_val_inv in H as (cur & s2 & [= <- <-] & H).
  destruct (Z.ltb_spec (heap_len (self s)) (next_multiple_of
    (saturating_add usize_bits offset len) 32)) as [Hlt|]; [|injection H as <-; done].
  apply bind_val_inv in H as (u & s2 & H1 & H2). unfold on_gas, zoom in H1.
  destruct (pay_for_memory_growth _ _ _) as [o g]. injection H1 as _ <-.
  unfold zoom, map_err, heap_resize in H2. cbn in H2.
  destruct (decide _); [discriminate H2|]. injection H2 as <-. split; try done. intros i. cbn.
  unfold heap_len in Hlt. by rewrite take_ge, byte_at_zeros by lia.
Qed.

Lemma heap_write_inv offset bytes s s1 :
  heap_write (E:=ExitCode) offset bytes s = (Val tt, s1) →
  0 ≤ offset ∧ offset + Z.of_nat (length bytes) ≤ Z.of_nat (length (heap_data (heap (self s))))
  ∧ stack (self s1) = stack (self s)
  ∧ heap_data (heap (self s1)) = splice (heap_data (heap (self s))) offset bytes.
Proof.
  unfold heap_write. intros H. apply bind_val_inv in H as (d & s2 & [= <- <-] & H).
  apply bind_val_inv in H as (x & s2 & H1 & H2). unfold expect in H1.
  destruct (slice _ _ _) eqn:E; [|discriminate H1]. injection H1 as <- <-.
  apply slice_Some in E as (? & ? & ? & _). injection H2 as <-. done.
Qed.

(** The common end of the copies: the write, after the memory has grown. *)
Lemma write_copied src dst offset len bytes s s2 s3 :
  sees s s2 → heap_write (E:=ExitCode) dst bytes s2 = (Val tt, s3) →
  Z.of_nat (length bytes) = len →
  (∀ i, 0 ≤ i < len → byte_at bytes i = byte_at src (offset + i)) →
  copied src (heap_data (heap (self s))) (heap_data (heap (self s3))) dst offset len
  ∧ stack (self s3) = stack (self s).
Proof.
  intros Hs2 Hw <- Hb. apply heap_write_inv in Hw as (H0 & Hl & Hst & Hd). split.
  - intros i Hi. rewrite Hd, byte_at_splice by done.
    destruct (Z.leb_spec dst i), (Z.ltb_spec i (dst + Z.of_nat (length bytes))); cbn [andb];
      try apply Hs2. apply Hb. lia.
  - rewrite Hst. apply Hs2.
Qed.

(** Nothing to copy. *)
Lemma copied_zero src dst offset s s1 :
  sees s s1 →
  copied src (heap_data (heap (self s))) (heap_data (heap (self s1))) dst offset 0
  ∧ stack (self s1) = stack (self s).
Proof.
  intros Hs. split; [|apply Hs]. intros i Hi.
  destruct (Z.leb_spec dst i), (Z.ltb_spec i (dst + 0)); try lia; apply Hs.
Qed.

Lemma copy_cost_pure (len : Z) (s : St) o s1 : copy_cost_plus_very_low_gas len s = (o, s1) → s1 = s.
Proof.
  unfold copy_cost_plus_very_low_gas, copy_cost, mbind, M_bind.
  match goal with |- context [lift_opt _ ?o] => destruct o as [[g n]|] end;
    [destruct (checked_add 64 g GAS_VERYLOW) eqn:E|]; cbn; rewrite ?E; by intros [= _ <-].
Qed.

(** The common beginning: operands, the length as [usize], the charge. *)
Lemma copy_prefix (extra : Z → Z) (k : Z → Z → Z → M St ExitCode unit) dst offset len l s s3 :
  Forall is_u256 (stack (self s)) → stack (self s) = dst :: offset :: len :: l →
  ('(dst, offset, len) ← on_stack stk_pop_3;
   len ← cast_to_usize len (EvmErr InvalidOperandOOG);
   '(gas_cost, native_cost) ← copy_cost_plus_very_low_gas len;
   charge_op gas_cost (extra native_cost) ;; k dst offset len) s = (Val tt, s3) →
  ∃ s1, is_u256 dst ∧ is_u256 offset ∧ is_u256 len ∧ len < 2 ^ usize_bits
    ∧ sees (with_stack l s) s1 ∧ k dst offset len s1 = (Val tt, s3).
Proof.
  intros Hu Hst H. rewrite Hst in Hu.
  apply Forall_cons in Hu as [Hd [Ho [Hn _]%Forall_cons]%Forall_cons].
  apply bind_val_inv in H as (x & s1 & H1 & H).
  rewrite (on_stack_run stk_pop_3 s _ (Val (dst, offset, len)) l Hst eq_refl) in H1.
  injection H1 as <- <-. apply bind_val_inv in H as (n & s1 & H1 & H).
  rewrite cast_run in H1 by done. destruct (Z.ltb_spec len (2 ^ usize_bits)); [|discriminate H1].
  injection H1 as <- <-. apply bind_val_inv in H as ([g n] & s1 & H1 & H).
  apply copy_cost_pure in H1 as ->.
  apply bind_val_inv in H as ([] & s1 & H2 & H). exists s1. split_conj; try done.
  by eapply charge_sees.
Qed.

Lemma copy_to_heap_copied source dst offset len l s s1 s3 :
  is_u256 dst → is_u256 offset → 0 < len → sees (with_stack l s) s1 →
  source (self s1) = source (self s) → bytes_ok (source (self s)) →
  (∀ t t', resize_heap dst len t = (Val tt, t') → source (self t') = source (self t)) →
  copy_to_heap source dst offset len s1 = (Val tt, s3) →
  copied (source (self s)) (heap_data (heap (self s))) (heap_data (heap (self s3))) dst offset len
  ∧ stack (self s3) = l.
Proof.
  intros Hd Ho Hlen Hs Hsrc Hb Hkeep H. unfold copy_to_heap in H.
  apply bind_val_inv in H as (d & s2 & H1 & H). rewrite cast_run in H1 by done.
  destruct (dst <? 2 ^ usize_bits); [|discriminate H1]. injection H1 as <- <-.
  apply bind_val_inv in H as ([] & s2 & H1 & H). pose proof (Hkeep _ _ H1) as Hsrc2.
  apply bind_val_inv in H as (src & s2' & [= <- <-] & H).
  assert (sees (with_stack l s) s2) as Hs2 by (etrans; [done|by eapply resize_sees]).
  refine (write_copied (source (self s)) dst offset len _ (with_stack l s) s2 s3 Hs2 H _ _).
  - apply length_copy_and_zeropad. lia.
  - intros i Hi. destruct (copy_and_zeropad_spec (get_from (source (self s2))
      (u256_try_to_usize offset)) len i) as [_ ->]; [lia|done|].
    rewrite Hsrc2, Hsrc. apply byte_at_get_from; [done|done|lia].
Qed.

Lemma codecopy_copied dst offset len l s s' :
  frame_ok (self s) → stack (self s) = dst :: offset :: len :: l →
  codecopy s = (Val tt, s') →
  copied (bytecode (self s)) (heap_data (heap (self s))) (heap_data (heap (self s'))) dst offset len
  ∧ stack (self s') = l.
Proof.
  intros Hf Hst H. apply (copy_prefix (λ n, wrap 64 (n + CODECOPY_NATIVE_COST))) with (3 := H) in Hst
    as (s1 & Hd & Ho & Hn & _ & Hs & H1); [|apply Hf].
  destruct (Z.eqb_spec len 0) as [->|Hne].
  { injection H1 as <-. by apply (copied_zero _ dst offset (with_stack l s)). }
  apply (copy_to_heap_copied bytecode dst offset len l s s1 s'); try done.
  - unfold in_width in Hn. lia.
  - by rewrite (sees_code _ _ Hs).
  - apply Hf.
  - intros t t' Ht. by apply resize_sees, sees_code in Ht.
Qed.

Lemma calldatacopy_copied dst offset len l s s' :
  frame_ok (self s) → stack (self s) = dst :: offset :: len :: l →
  calldatacopy s = (Val tt, s') →
  copied (calldata (self s)) (heap_data (heap (self s))) (heap_data (heap (self s'))) dst offset len
  ∧ stack (self s') = l.
Proof.
  intros Hf Hst H.
  apply (copy_prefix (λ n, wrap 64 (CALLDATACOPY_NATIVE_COST + n))) with (3 := H) in Hst
    as (s1 & Hd & Ho & Hn & _ & Hs & H1); [|apply Hf].
  destruct (Z.eqb_spec len 0) as [->|Hne].
  { injection H1 as <-. by apply (copied_zero _ dst offset (with_stack l s)). }
  apply (copy_to_heap_copied calldata dst offset len l s s1 s'); try done.
  - unfold in_width in Hn. lia.
  - by rewrite (sees_calldata _ _ Hs).
  - apply Hf.
  - intros t t' Ht. by apply resize_sees, sees_calldata in Ht.
Qed.

Lemma returndatacopy_copied dst offset len l s s' :
  frame_ok (self s) → stack (self s) = dst :: offset :: len :: l →
  returndatacopy s = (Val tt, s') →
  offset + len ≤ Z.of_nat (length (returndata (self s)))
  ∧ copied (returndata (self s)) (heap_data (heap (self s))) (heap_data (heap (self s')))
      dst offset len
  ∧ stack (self s') = l.
Proof.
  intros Hf Hst H.
  apply (copy_prefix (λ n, wrap 64 (RETURNDATACOPY_NATIVE_COST + n))) with (3 := H) in Hst
    as (s1 & Hd & Ho & Hn & Hln & Hs & H1); [|apply Hf]. clear H.
  pose proof (sees_returndata _ _ Hs) as Hrd. change (returndata (self (with_stack l s)))
    with (returndata (self s)) in Hrd.
  apply bind_val_inv in H1 as (o & s2 & H1 & H). rewrite cast_run in H1 by done.
  destruct (Z.ltb_spec offset (2 ^ usize_bits)) as [Hlo|]; [|discriminate H1]. injection H1 as <- <-.
  unfold overflowing_add in H. apply bind_val_inv in H as (data & s2 & [= <- <-] & H).
  unfold in_width in Hn, Ho. destruct (_ || _) eqn:Hend; [discriminate H|].
  apply orb_false_iff in Hend as [Hov Hend]. apply Z.leb_gt in Hov. apply Z.ltb_ge in Hend.
  rewrite wrap_small in Hend by (unfold in_width; lia). rewrite Hrd in Hend. split; [done|].
  destruct (Z.eqb_spec len 0) as [->|Hne].
  { injection H as <-. by apply (copied_zero _ dst offset (with_stack l s)). }
  apply bind_val_inv in H as (d & s2 & H1 & H). rewrite cast_run in H1 by done.
  destruct (dst <? 2 ^ usize_bits); [|discriminate H1]. injection H1 as <- <-.
  apply bind_val_inv in H as ([] & s2 & H1 & H).
  assert (sees (with_stack l s) s2) as Hs2 by (etrans; [done|by eapply resize_sees]).
  refine (write_copied (returndata (self s)) dst offset len _ (with_stack l s) s2 s' Hs2 H _ _).
  - apply length_copy_and_zeropad. lia.
  - intros i Hi. destruct (copy_and_zeropad_spec (get_from (returndata (self s1)) (Some offset))
      len i) as [_ ->]; [lia|done|]. rewrite Hrd. cbn [get_from].
    destruct (Z.leb_spec offset (Z.of_nat (length (returndata (self s))))); [|lia].
    unfold byte_at. rewrite lookup_drop. do 2 f_equal. lia.
Qed.

Lemma mcopy_copied dst offset len l s s' :
  frame_ok (self s) → stack (self s) = dst :: offset :: len :: l →
  mcopy s = (Val tt, s') →
  copied (heap_data (heap (self s))) (heap_data (heap (self s))) (heap_data (heap (self s')))
    dst offset len
  ∧ stack (self s') = l.
Proof.
  intros Hf Hst H. apply (copy_prefix id) with (3 := H) in Hst
    as (s1 & Hd & Ho & Hn & _ & Hs & H1); [|apply Hf]. clear H.
  destruct (Z.eqb_spec len 0) as [->|Hne].
  { injection H1 as <-. by apply (copied_zero _ dst offset (with_stack l s)). }
  apply bind_val_inv in H1 as (d & s2 & H1 & H). rewrite cast_run in H1 by done.
  destruct (dst <? 2 ^ usize_bits); [|discriminate H1]. injection H1 as <- <-.
  apply bind_val_inv in H as (o & s2 & H1 & H). rewrite cast_run in H1 by done.
  destruct (offset <? 2 ^ usize_bits); [|discriminate H1]. injection H1 as <- <-.
  apply bind_val_inv in H as ([] & s2 & H1 & H).
  assert (sees (with_stack l s) s2) as Hs2 by (etrans; [done|by eapply resize_sees]).
  apply bind_val_inv in H as (src & s3 & H2 & H). unfold heap_slice in H2.
  apply bind_val_inv in H2 as (data & s4 & [= <- <-] & H2). unfold expect in H2.
  destruct (slice _ _ _) eqn:E; [|discriminate H2]. injection H2 as -> <-.
  apply slice_Some in E as (? & ? & ? & ->).
  refine (write_copied _ dst offset len _ (with_stack l s) s2 s' Hs2 H _ _).
  - rewrite length_take, length_drop. lia.
  - intros i Hi. change (heap_data (heap (self s))) with (heap_data (heap (self (with_stack l s)))).
    rewrite <- (sees_memory _ _ Hs2). unfold byte_at.
    rewrite lookup_take_lt, lookup_drop by lia. do 2 f_equal. lia.
Qed.

(** *** When they succeed *)

Lemma slice_within {A} (data : list A) start len :
  0 ≤ start → 0 ≤ len → start + len ≤ Z.of_nat (length data) →
  slice data start len = Some (take (Z.to_nat len) (drop (Z.to_nat start) data)).
Proof. intros. by apply slice_Some. Qed.

Lemma heap_write_run offset bytes s :
  0 ≤ offset → offset + Z.of_nat (length bytes) ≤ heap_len (self s) →
  (heap_write (E:=ExitCode) offset bytes s).1 = Val tt.
Proof.
  intros Ho Hl. unfold heap_write. erewrite bind_val by done.
  rewrite slice_within by (done || lia). done.
Qed.

(** Gas and native of a copy; the native bound covers every variant. *)
Definition copy_gas (len : Z) : Z := 3 + 3 * ((len + 31) / 32).

Lemma copy_prefix_run (extra : Z → Z) (k : Z → Z → Z → M St ExitCode unit) dst offset len l s :
  frame_ok (self s) → stack (self s) = dst :: offset :: len :: l → len < 2 ^ 32 →
  0 ≤ extra (len + 80) → affords (copy_gas len) (extra (len + 80)) s →
  frame_ok (self (charged (copy_gas len) (extra (len + 80)) (with_stack l s)))
  ∧ ('(dst, offset, len) ← on_stack stk_pop_3;
     len ← cast_to_usize len (EvmErr InvalidOperandOOG);
     '(gas_cost, native_cost) ← copy_cost_plus_very_low_gas len;
     charge_op gas_cost (extra native_cost) ;; k dst offset len) s
    = k dst offset len (charged (copy_gas len) (extra (len + 80)) (with_stack l s)).
Proof.
  intros Hf Hst Hlen Hx Haff. pose proof (f_stack _ Hf) as Hu. rewrite Hst in Hu.
  apply Forall_cons in Hu as [_ [_ [Hn _]%Forall_cons]%Forall_cons].
  assert (0 ≤ len) as Hn0 by apply Hn. pose proof (usize_small len ltac:(lia)) as [_ Hw].
  assert (0 ≤ (len + 31) / 32 ≤ len + 31) as Hq.
  { split; [apply Z.div_pos; lia|apply Z.div_le_upper_bound; lia]. }
  pose proof (frame_drop s 3 l Hf ltac:(by rewrite Hst)) as Hf1.
  assert (charge_op (copy_gas len) (extra (len + 80)) (with_stack l s)
          = (Val tt, charged (copy_gas len) (extra (len + 80)) (with_stack l s))) as Hrun.
  { apply charge_op_run; [apply Hf1|unfold copy_gas; lia|done|exact Haff]. }
  split.
  { apply (charge_op_done (copy_gas len) (extra (len + 80)) (with_stack l s)); [done| | |done].
    - unfold copy_gas; lia.
    - destruct Haff as [_ Hna]. pose proof (f_gas _ Hf) as [_ [_ Hmax]]. unfold in_width. lia. }
  rewrite (bind_val _ _ _ _ _ (on_stack_run stk_pop_3 s _ (Val (dst, offset, len)) l Hst eq_refl)).
  cbn beta iota. erewrite bind_val.
  2:{ rewrite cast_run by done. by destruct (Z.ltb_spec len (2 ^ usize_bits)); [|lia]. }
  erewrite bind_val.
  2:{ unfold copy_cost_plus_very_low_gas. erewrite bind_val by (apply copy_cost_run; lia).
      cbn beta iota. unfold checked_add, GAS_VERYLOW.
      rewrite checked_in by (unfold in_width; lia). done. }
  cbn beta iota. erewrite bind_val; [done|].
  replace (3 * ((len + 31) / 32) + 3) with (copy_gas len) by (unfold copy_gas; lia). done.
Qed.

(** The price of memory up to [top]: the EVM's quadratic totals in gas, one native
    per byte over a base. *)
Definition growth_gas (old top : Z) : Z :=
  let new := next_multiple_of top 32 in
  if new <=? old then 0 else memory_gas (new / 32) - memory_gas (old / 32).
Definition growth_native (old top : Z) : Z :=
  let new := next_multiple_of top 32 in if new <=? old then 0 else 35 + (new - old).

(** Memory up to [top] is there or can be had, with [g] gas and [n] native besides. *)
Definition reaches (top g n : Z) (s : St) : Prop :=
  let new := next_multiple_of top 32 in
  top ≤ 2 ^ 32 - 32
  ∧ (new ≤ heap_len (self s) ∨ new < Z.of_nat (heap_cap (heap (self s))))
  ∧ affords (g + growth_gas (heap_len (self s)) top) (n + growth_native (heap_len (self s)) top) s.

Lemma grow_run offset len s :
  frame_ok (self s) → 0 ≤ offset → 0 ≤ len → reaches (offset + len) 0 0 s →
  offset < 2 ^ usize_bits ∧ ∃ s1, resize_heap offset len s = (Val tt, s1)
    ∧ offset + len ≤ heap_len (self s1) ∧ sees s s1.
Proof.
  intros Hf Ho Hl (Htop & Hroom & Ha1 & Ha2).
  assert (in_width usize_bits offset) as Hwo by (apply usize_small; lia).
  assert (in_width usize_bits len) as Hwl by (apply usize_small; lia).
  split; [unfold in_width in *; lia|].
  destruct (resize_heap_cases s offset len Hf Hwo Hwl) as [H1 _].
  unfold growth_gas, growth_native in *. cbn zeta in *.
  destruct (resize_heap offset len s) as [o s1] eqn:Hrun. cbn [fst] in H1.
  assert (o = Val tt) as ->.
  { rewrite H1. destruct (Z.ltb_spec (2 ^ 32 - 32) (offset + len)); [lia|].
    destruct (Z.leb_spec (next_multiple_of (offset + len) 32) (heap_len (self s))); [done|].
    rewrite !(proj2 (Z.ltb_ge _ _)) by lia.
    destruct Hroom as [|Hroom]; [lia|]. by rewrite (proj2 (Z.leb_gt _ _)) by lia. }
  exists s1. split; [done|]. split; [|by eapply resize_sees].
  by apply (resize_heap_done s offset len s1 Hf Hwo Hwl).
Qed.

Lemma copy_to_heap_run source dst offset len s :
  frame_ok (self s) → is_u256 dst → 0 ≤ len → reaches (dst + len) 0 0 s →
  (copy_to_heap source dst offset len s).1 = Val tt.
Proof.
  intros Hf Hd Hl Hc. pose proof (proj1 Hd) as Hd0. unfold copy_to_heap.
  destruct (grow_run dst len s) as (Hw & s1 & Hr & Hcov & _); [done..|].
  erewrite bind_val; [|rewrite cast_run by done; by destruct (Z.ltb_spec dst (2 ^ usize_bits)); [|lia]].
  erewrite bind_val by exact Hr. erewrite bind_val by done.
  apply heap_write_run; [done|]. rewrite length_copy_and_zeropad; done.
Qed.

(** Where an access of [len] bytes from [start] on ends: one of no bytes is nowhere. *)
Definition access_end (start len : Z) : Z := if len =? 0 then 0 else start + len.

(** A copy whose memory is there or can be had, and that can be paid: [n] is what it
    costs in native over one per byte. *)
Definition copy_ready (n top dst offset len : Z) (l : list Z) (s : St) : Prop :=
  frame_ok (self s) ∧ stack (self s) = dst :: offset :: len :: l ∧ len < 2 ^ 32
  ∧ reaches top (copy_gas len) (len + n) s.

Lemma growth_nonneg old top : 0 ≤ growth_native old top.
Proof. unfold growth_native. cbn zeta. destruct (Z.leb_spec (next_multiple_of top 32) old); lia. Qed.

Lemma growth_gas_nonneg i top : 0 ≤ growth_gas (heap_len i) top.
Proof.
  unfold growth_gas. cbn zeta. destruct (Z.leb_spec (next_multiple_of top 32) (heap_len i)) as [|Hlt]; [lia|].
  assert (0 ≤ heap_len i / 32 ≤ next_multiple_of top 32 / 32) as Hc.
  { split; [apply Z.div_pos; unfold heap_len; lia|apply Z.div_le_mono; lia]. }
  pose proof (memory_gas_mono _ _ Hc). lia.
Qed.

Lemma copy_starts (n : Z) (extra : Z → Z) k top dst offset len l s :
  copy_ready n top dst offset len l s → 0 ≤ top → 0 ≤ extra (len + 80) ≤ len + n →
  is_u256 dst ∧ is_u256 offset ∧ 0 ≤ len < 2 ^ 32 ∧
  ∃ s1, frame_ok (self s1) ∧ reaches top 0 0 s1
    ∧ returndata (self s1) = returndata (self s)
    ∧ ('(dst, offset, len) ← on_stack stk_pop_3;
       len ← cast_to_usize len (EvmErr InvalidOperandOOG);
       '(gas_cost, native_cost) ← copy_cost_plus_very_low_gas len;
       charge_op gas_cost (extra native_cost) ;; k dst offset len) s
      = (k dst offset len : M St ExitCode unit) s1.
Proof.
  intros (Hf & Hst & Hl & Htop & Hroom & Ha1 & Ha2) H0 Hx. pose proof (f_stack _ Hf) as Hu. rewrite Hst in Hu.
  apply Forall_cons in Hu as [Hd [Ho [Hn _]%Forall_cons]%Forall_cons].
  assert (0 ≤ len < 2 ^ 32) as Hlen by (unfold in_width in *; lia).
  split; [done|]. split; [done|]. split; [done|].
  pose proof (growth_gas_nonneg (self s) top) as Hg0.
  pose proof (growth_nonneg (heap_len (self s)) top) as Hn0.
  destruct (copy_prefix_run extra k dst offset len l s) as [Hf1 Hrun]; [done|done|lia|lia|split; lia|].
  set (s1 := charged _ _ _) in *. assert (heap_len (self s1) = heap_len (self s)) as Hh by done.
  exists s1. split; [exact Hf1|]. split; [|split; [done|exact Hrun]].
  unfold reaches, affords. cbn zeta. rewrite Hh. split; [done|]. split; [done|].
  change (e_left (resources (gas (self s1)))) with (e_left (resources (gas (self s))) - copy_gas len * 256).
  change (n_left (resources (gas (self s1)))) with (n_left (resources (gas (self s))) - extra (len + 80)). lia.
Qed.

Lemma wrap_le x : 0 ≤ x → 0 ≤ wrap 64 x ≤ x.
Proof.
  intros Hx. unfold wrap. pose proof (Z.mod_pos_bound x (2 ^ 64)).
  pose proof (Z.mod_le x (2 ^ 64)). lia.
Qed.

Lemma access_end_nonneg start len : 0 ≤ start → 0 ≤ len → 0 ≤ access_end start len.
Proof. unfold access_end. destruct (len =? 0); lia. Qed.

Lemma codecopy_succeeds dst offset len l s :
  copy_ready 180 (access_end dst len) dst offset len l s → 0 ≤ dst → 0 ≤ len → (codecopy s).1 = Val tt.
Proof.
  intros Hr Hd0 H0. destruct (copy_starts 180 (λ n, wrap 64 (n + CODECOPY_NATIVE_COST))
    (λ d o n, if n =? 0 then mret tt else copy_to_heap bytecode d o n) _ dst offset len l s Hr)
    as (Hd & Ho & Hl & s1 & Hf & Hm & _ & Hrun); [by apply access_end_nonneg| |].
  { unfold CODECOPY_NATIVE_COST. pose proof (wrap_le (len + 80 + 100)). lia. }
  unfold codecopy. rewrite Hrun. unfold access_end in Hm. destruct (len =? 0); [done|].
  apply copy_to_heap_run; [done|done|lia|done].
Qed.

Lemma calldatacopy_succeeds dst offset len l s :
  copy_ready 180 (access_end dst len) dst offset len l s → 0 ≤ dst → 0 ≤ len → (calldatacopy s).1 = Val tt.
Proof.
  intros Hr Hd0 H0. destruct (copy_starts 180 (λ n, wrap 64 (CALLDATACOPY_NATIVE_COST + n))
    (λ d o n, if n =? 0 then mret tt else copy_to_heap calldata d o n) _ dst offset len l s Hr)
    as (Hd & Ho & Hl & s1 & Hf & Hm & _ & Hrun); [by apply access_end_nonneg| |].
  { unfold CALLDATACOPY_NATIVE_COST. pose proof (wrap_le (100 + (len + 80))). lia. }
  unfold calldatacopy. rewrite Hrun. unfold access_end in Hm. destruct (len =? 0); [done|].
  apply copy_to_heap_run; [done|done|lia|done].
Qed.

Lemma cast_within x e s : 0 ≤ x < 2 ^ 32 → cast_to_usize x e s = (Val x, s).
Proof.
  intros Hx. rewrite cast_run by (unfold in_width; lia).
  pose proof (usize_small x Hx) as [_ Hw]. by destruct (Z.ltb_spec x (2 ^ usize_bits)); [|lia].
Qed.

Lemma mcopy_succeeds dst offset len l s :
  copy_ready 80 (access_end (Z.max dst offset) len) dst offset len l s → 0 ≤ dst → 0 ≤ len →
  (mcopy s).1 = Val tt.
Proof.
  intros Hr Hd0 H0. unfold mcopy.
  destruct (copy_starts 80 id (λ d o n, if n =? 0 then mret tt else
      d ← cast_to_usize d (EvmErr InvalidOperandOOG);
      o ← cast_to_usize o (EvmErr InvalidOperandOOG);
      resize_heap (Z.max d o) n ;; src ← heap_slice o n; heap_write d src)
    _ dst offset len l s Hr) as (Hd & Ho & Hl & s1 & Hf & Hm & _ & Hrun);
    [apply access_end_nonneg; lia|unfold id; lia|].
  unfold id in Hrun. rewrite Hrun. unfold access_end in Hm. destruct (Z.eqb_spec len 0); [done|].
  pose proof (proj1 Hm) as Htop. unfold in_width in Hd, Ho.
  erewrite bind_val by (apply cast_within; lia). erewrite bind_val by (apply cast_within; lia).
  destruct (grow_run (Z.max dst offset) len s1) as (_ & s2 & Hg & Hcov & _); [done|lia|lia|done|].
  erewrite bind_val by exact Hg. unfold heap_slice. erewrite bind_val.
  2:{ erewrite bind_val by done. unfold expect, heap_len in *. rewrite slice_within by lia. done. }
  apply heap_write_run; [lia|]. rewrite length_take, length_drop. unfold heap_len in *. lia.
Qed.

Lemma returndatacopy_succeeds dst offset len l s :
  copy_ready 180 (access_end dst len) dst offset len l s → 0 ≤ dst → 0 ≤ len →
  offset + len ≤ Z.of_nat (length (returndata (self s))) → (returndatacopy s).1 = Val tt.
Proof.
  intros Hr Hd0 H0 Hof. unfold returndatacopy.
  edestruct (copy_starts 180 (λ n, wrap 64 (RETURNDATACOPY_NATIVE_COST + n)) (λ d o n,
      o ← cast_to_usize o (EvmErr InvalidOperandOOG);
      let '(end_, overflow) := overflowing_add usize_bits o n in
      data ← get_self returndata;
      if overflow || (Z.of_nat (length data) <? end_) then throw (EvmErr ReturnDataOutOfBounds)
      else if n =? 0 then mret tt
      else
        d ← cast_to_usize d (EvmErr InvalidOperandOOG);
        resize_heap d n ;;
        heap_write d (copy_and_zeropad (get_from data (Some o)) n))
    _ dst offset len l s Hr) as (Hd & Ho & Hl & s1 & Hf & Hm & Hrd & Hrun); [by apply access_end_nonneg| |].
  { unfold RETURNDATACOPY_NATIVE_COST. pose proof (wrap_le (100 + (len + 80))). lia. }
  rewrite Hrun. rewrite <- Hrd in Hof. pose proof (f_returndata _ Hf) as [_ Hsmall].
  assert (offset < 2 ^ usize_bits) by lia. pose proof (proj1 Ho).
  erewrite bind_val.
  2:{ rewrite cast_run by done. by destruct (Z.ltb_spec offset (2 ^ usize_bits)); [|lia]. }
  unfold overflowing_add. erewrite bind_val by done.
  rewrite wrap_small by (unfold in_width; lia).
  destruct (Z.leb_spec (2 ^ usize_bits) (offset + len)); [lia|].
  destruct (Z.ltb_spec (Z.of_nat (length (returndata (self s1)))) (offset + len)); [lia|].
  cbn [orb]. unfold access_end in Hm. destruct (Z.eqb_spec len 0); [done|].
  pose proof (proj1 Hm) as Htop. erewrite bind_val by (apply cast_within; lia).
  destruct (grow_run dst len s1) as (_ & s2 & Hg & Hcov & _); [done|lia|lia|done|].
  erewrite bind_val by exact Hg.
  apply heap_write_run; [lia|]. rewrite length_copy_and_zeropad; lia.
Qed.

(** C27: the copying instructions do what the EVM says on memory seen as an
    unbounded zeroed array: exactly the bytes of the destination change, to the
    source's, read as zeros past its end; MCOPY reads the memory as it was before,
    also when the ranges overlap; RETURNDATACOPY succeeds only within the data.  They
    do succeed when they can be paid, also when the memory has to grow: the price is 3
    gas plus 3 per word and the EVM's price of the growth, and in native one per byte
    copied and per byte grown over base costs of at most 180 and 35; memory is limited
    to 4 GiB and to what the frame has. *)
Theorem evm_copy_instructions s s' dst offset len l :
  frame_ok (self s) → stack (self s) = dst :: offset :: len :: l →
  let mem := heap_data (heap (self s)) in
  let copies src := copied src mem (heap_data (heap (self s'))) dst offset len
                    ∧ stack (self s') = l in
  (codecopy s = (Val tt, s') → copies (bytecode (self s)))
  ∧ (calldatacopy s = (Val tt, s') → copies (calldata (self s)))
  ∧ (returndatacopy s = (Val tt, s') →
     offset + len ≤ Z.of_nat (length (returndata (self s))) ∧ copies (returndata (self s)))
  ∧ (mcopy s = (Val tt, s') → copies mem)
  ∧ (reaches (access_end dst len) (copy_gas len) (len + 180) s →
     (codecopy s).1 = Val tt ∧ (calldatacopy s).1 = Val tt
     ∧ (offset + len ≤ Z.of_nat (length (returndata (self s))) → (returndatacopy s).1 = Val tt))
  ∧ (reaches (access_end (Z.max dst offset) len) (copy_gas len) (len + 80) s →
     (mcopy s).1 = Val tt).
Proof.
  intros Hf Hst mem copies. pose proof (f_stack _ Hf) as Hu. rewrite Hst in Hu.
  apply Forall_cons in Hu as [[Hd _] [[Ho _] [[Hn _] _]%Forall_cons]%Forall_cons].
  assert (∀ start, 0 ≤ start → access_end start len ≤ 2 ^ 32 - 32 → len < 2 ^ 32) as Hlen.
  { intros start H0. unfold access_end. destruct (Z.eqb_spec len 0); lia. }
  split_conj.
  - by apply codecopy_copied.
  - by apply calldatacopy_copied.
  - by apply returndatacopy_copied.
  - by apply mcopy_copied.
  - intros Ha. assert (copy_ready 180 (access_end dst len) dst offset len l s) as Hr.
    { split; [done|]. split; [done|]. split; [|done]. apply (Hlen dst); [done|apply Ha]. }
    split_conj; intros; [by eapply codecopy_succeeds|by eapply calldatacopy_succeeds|by eapply returndatacopy_succeeds].
  - intros Ha. apply (mcopy_succeeds dst offset len l); [|done|done].
    split; [done|]. split; [done|]. split; [|done]. apply (Hlen (Z.max dst offset)); [lia|apply Ha].
Qed.
End Copies.

(** The width of [usize] shows.  A CODECOPY of 4 GiB or more, by a frame with
    less native than bytes to copy, ends the whole transaction on a 64-bit machine
    and only the frame on a 32-bit one. *)
Theorem codecopy_width_dependent {R : Ruint} {RS : RuintSpec} {FT : Features} {SYS : System}
    (s : St) dst offset len l :
  gas_wf (gas (self s)) → is_u256 len → stack (self s) = dst :: offset :: len :: l →
  2 ^ 32 ≤ len < 2 ^ 58 → n_left (resources (gas (self s))) < len →
  (codecopy (UZ:=usize64) s).1
    = Err (FatalError (SLeafRuntime (FatalRuntime OutOfNativeResources)))
  ∧ (codecopy (UZ:=usize32) s).1 = Err (EvmErr InvalidOperandOOG).
Proof.
  intros Hg Hu Hst Hlen Hn. unfold codecopy. split;
    rewrite (bind_val _ _ _ _ _ (on_stack_run stk_pop_3 s _ (Val (dst, offset, len)) l Hst eq_refl));
    cbn beta iota.
  - erewrite bind_val.
    2:{ rewrite (cast_run (UZ:=usize64)) by done. change (2 ^ usize_bits) with (2 ^ 64).
        by destruct (Z.ltb_spec len (2 ^ 64)); [|lia]. }
    assert (0 ≤ (len + 31) / 32 ≤ len + 31) as Hq.
    { split; [apply Z.div_pos; lia|apply Z.div_le_upper_bound; lia]. }
    assert (32 * ((len + 31) / 32) ≤ len + 31) by (apply Z.mul_div_le; lia).
    erewrite bind_val.
    2:{ unfold copy_cost_plus_very_low_gas. erewrite bind_val by (apply copy_cost_run; lia).
        cbn beta iota. unfold checked_add, GAS_VERYLOW.
        rewrite checked_in by (unfold in_width; lia). done. }
    cbn beta iota. unfold mbind, M_bind, charge_op, on_gas, zoom.
    rewrite wrap_small by (unfold in_width, CODECOPY_NATIVE_COST; lia).
    rewrite spend_gas_and_native_run; [|done|lia|unfold in_width, CODECOPY_NATIVE_COST; lia].
    destruct (Z.leb_spec (2 ^ 64) ((3 * ((len + 31) / 32) + 3) * 256)); [lia|].
    change (gas (self (with_stack l s))) with (gas (self s)). unfold CODECOPY_NATIVE_COST.
    destruct (Z.ltb_spec (n_left (resources (gas (self s)))) (len + 80 + 100)); [done|lia].
  - unfold mbind, M_bind. rewrite (cast_run (UZ:=usize32)) by done.
    change (2 ^ usize_bits) with (2 ^ 32). by destruct (Z.ltb_spec len (2 ^ 32)); [lia|].
Qed.
