(* ===== verification/EvmTheorems.v ===== *)
(** * Theorems about the interpreter

    The statements about whole runs and frames, from the lemmas of [EvmExec], and
    the witnesses of the EVM theorems: concrete frames on the system of
    [ExampleSystem] that satisfy their hypotheses. *)

From stdpp Require Import strings.
From S2P Require Import Prelude Resources U256 SystemInterface EvmStack SliceVec EvmConstants Gas.
From S2P Require Import Bytecode EvmState EvmInstructions EvmRun EvmFrame EvmLogic EvmSafety.
From S2P Require Import EvmExec EvmSemantics EvmCalls ExampleSystem EvmAddress EvmCopies.

#[local] Existing Instance ruint_ref.
#[local] Existing Instance ruint_ref_spec.
#[local] Existing Instance usize64.

(** ** Example frames *)

(** PUSH1 2, PUSH1 3, ADD, PUSH1 0, MSTORE, PUSH1 32, PUSH1 0, RETURN. *)
Definition ex_code : list Z := [0x60; 2; 0x60; 3; 0x01; 0x60; 0; 0x52; 0x60; 32; 0x60; 0; 0xf3].
Definition ex_pp : BytecodePreprocessingData := mkPreprocessing 13 (Right [0]).
Definition ex_store : Store := mkStore [] [] [] [] [].

Definition ex_frame (ip : Z) (stack : list Z) (data : list Z) (code : list Z)
    (pp : BytecodePreprocessingData) : Interpreter :=
  mkInterpreter ip
    (mkGas (mk_res 25600000 100000) (memory_gas (Z.of_nat (length data) / 32)))
    stack 0xaa 0xbb [1; 2; 3] [] (mkHeap 4096 data) (0, 0) code pp 0 false false None.
Definition ex_state (ip : Z) (stack data code : list Z) (pp : BytecodePreprocessingData) : St :=
  mkSt (ex_frame ip stack data code pp) (ex_store : SysState) None.

Lemma ex_bytes l : Forall is_u8 l → (length l ≤ 100)%nat → bytes_ok l.
Proof. intros Hu Hl. split; [done|]. change (2 ^ usize_bits) with (2 ^ 64). lia. Qed.

Lemma ex_ready ip st code w :
  Forall is_u256 st → (length st ≤ 16)%nat → Forall is_u8 code → (length code ≤ 64)%nat →
  0 ≤ ip ≤ Z.of_nat (length code) → is_u64 w →
  ready (ex_frame ip st [] code (mkPreprocessing (Z.of_nat (length code)) (Right [w]))).
Proof.
  intros Hs Hl Hc Hcl Hip Hw. split; [|cbn; lia]. split; cbn; try done.
  - change STACK_SIZE with 1024%nat. lia.
  - split; try done. apply Nat.le_0_l.
  - apply ex_bytes; [done|lia].
  - split; cbn -[usize_bits]; [by apply Forall_cons|]. change usize_bits with 64. lia.
  - by apply ex_bytes; [repeat constructor|cbn; lia].
Qed.

Definition ex_start : St := ex_state 0 [] [] ex_code ex_pp.

Lemma ex_start_ready : ready (self ex_start).
Proof.
  apply (ex_ready 0 [] ex_code 0); [done|cbn; lia|repeat (apply Forall_cons; split; [done|]); done
    |cbn; lia|cbn; lia|done].
Qed.

Definition ex_props : CalleeAccountProperties := {|
  cap_ee_type := 1; cap_nonce := 1; cap_nominal_token_balance := 0; cap_bytecode := ex_code;
  cap_code_version := DEFAULT_CODE_VERSION_BYTE; cap_unpadded_code_len := 13;
  cap_artifacts_len := 0 |}.

Definition ex_request (m : CallModifier) (value : Z) : ExternalCallRequest :=
  mkCallRequest (mk_res 25600000 100000) (mkErgs 2560000) 0xaa 0xbb 0xcc m [] value None.
Definition ex_launch (m : CallModifier) (value : Z) : ExecutionEnvironmentLaunchParams :=
  mkLaunchParams (ex_request m value)
    {| scratch_space_len := 0; callstack_depth := 1; callee_account_properties := ex_props |}.
Definition ex_fresh : St := mkSt Interpreter_new (ex_store : SysState) None.
Definition ex_heap : Heap Z := mkHeap 4096 [].

Lemma ex_launch_ok m v : is_u256 v → launch_ok (ex_launch m v).
Proof.
  intros Hv. split; try done; cbn.
  intros _. split; cbn; try done. apply ex_bytes; [|cbn; lia].
  repeat (apply Forall_cons; split; [done|]). done.
Qed.

(** A frame that waits for a call, and the reply. *)
Definition ex_waiting : St :=
  mkSt (mkInterpreter 3 (mkGas res_empty (memory_gas 1)) [7] 0xaa 0xbb [] []
          (mkHeap 4096 (repeat 0 32)) (0, 32) ex_code ex_pp 0 true false (Some PendingCall))
    (ex_store : SysState) None.
Definition ex_reply : CallResult := Successful (mkReturnValues [1; 2; 3] None).

Lemma ex_waiting_ok : awaiting (self ex_waiting).
Proof.
  split; cbn; try done; try lia.
  - split; cbn; try done; try lia; try (by apply ex_bytes; [|cbn; lia]).
    + by apply Forall_cons.
    + change STACK_SIZE with 1024%nat. lia.
    + split; [by repeat (apply Forall_cons; split; [done|])|done|done|].
      by apply (bool_decide_unpack _).
    + apply ex_start_ready.
    + apply ex_start_ready.
  - change STACK_SIZE with 1024%nat. lia.
Qed.

(** ** Theorems *)

Section Theorems.
Context {R : Ruint} {RS : RuintSpec} {UZ : Usize} {FT : Features} {SYS : System}
  {LAWS : SystemLaws}.

Lemma run_loop_more fuel fuel' s e s' :
  run_loop fuel s = (Val e, s') → (fuel ≤ fuel')%nat → run_loop fuel' s = (Val e, s').
Proof.
  revert fuel' s. induction fuel as [|fuel IH]; intros fuel' s Hrun Hle; [done|].
  destruct fuel' as [|fuel']; [lia|]. cbn [run_loop] in *.
  destruct (step s) as [[a|e1|] s1]; [|done|done]. apply IH; [done|lia].
Qed.

(** C6: termination.  From any well-formed frame the interpreter loop ends, after at
    most one step per 20 units of native resource and one more, without a panic
    or an out-of-bounds access and with an exit code whose obligations hold: the
    returned range lies in paid memory, a call request is complete and the frame
    behind it can be resumed, and no resource has been created.  More fuel never
    changes the result. *)
Theorem evm_run_total s :
  ready (self s) → external_call_dest s = None →
  ∃ e s' n, run s = (Val e, s') ∧ runs s e s' n
    ∧ Z.of_nat n ≤ n_left (resources (gas (self s))) / 20 + 1
    ∧ evolves s s' ∧ ended s e s'
    ∧ ∀ fuel, (run_fuel s ≤ fuel)%nat → run_loop fuel s = (Val e, s').
Proof.
  intros Hr Hx. destruct (run_spec s Hr Hx) as (e & s' & n & Hrun & Hruns & Hn & Hev & He & _).
  exists e, s', n. split_conj; try done.
  - destruct (f_gas _ (proj1 Hr)) as [_ [Hg _]]. unfold run_fuel in Hn.
    change (gas_native (gas (self s)) / STEP_NATIVE_COST)
      with (n_left (resources (gas (self s))) / 20) in Hn.
    pose proof (Z.div_pos (n_left (resources (gas (self s)))) 20 Hg ltac:(lia)). lia.
  - intros fuel Hfuel. by apply (run_loop_more (run_fuel s)).
Qed.

(** C15: starting a frame.  For well-formed launch parameters, a fresh interpreter
    and an empty memory, starting a frame never panics.  It ends with a fatal
    error, which running out of gas never is, or yields: a completed execution whose returned resources are
    at most those given, or a call request that is complete, asks for no more
    than the frame had, and leaves a frame that can be resumed. *)
Theorem evm_frame_start fs h s :
  launch_ok fs → self s = Interpreter_new → heap_data h = [] →
  match start_executing_frame fs h s with
  | (Val y, s') => yielded (available_resources (external_call fs)) y s'
  | (Err e, _) => fatal e
  | (Fault, _) => False
  end.
Proof.
  intros Hl Hs Hh. pose proof (start_spec fs h s Hl Hs Hh) as (_ & _ & H).
  destruct (start_executing_frame fs h s) as [[y|e|] s']; [apply H|exact H|done].
Qed.

(** Resuming a frame.  For a suspended frame and a reply of the operating
    system to its request, resuming never panics: there is room on the stack for
    the result, the returned data fits the range set aside for it, and whatever
    is yielded next is well-formed, within the returned resources.  Errors are
    fatal; running out of gas is not one. *)
Theorem evm_frame_resume r res s :
  awaiting (self s) → res_wf r →
  (∀ p, pending_os_request (self s) = Some p → reply_ok p res) →
  match continue_after_preemption r res s with
  | (Val y, s') => yielded r y s'
  | (Err e, _) => fatal e
  | (Fault, _) => False
  end.
Proof.
  intros Ha Hr Hrep. pose proof (continue_spec r res s Ha Hr Hrep) as (_ & _ & H).
  destruct (continue_after_preemption r res s) as [[y|e|] s']; [apply H|exact H|done].
Qed.

(** What a static frame may do: leave the world alone, and call statically. *)
Definition static_outcome (s : St)
    (o : outcome EvmSubsystemError ExecutionEnvironmentPreemptionPoint * St) : Prop :=
  world (system o.2) = world (system s)
  ∧ match o.1 with
    | Val (CallRequest _ req) =>
        is_static_modifier (modifier req) = true
        ∧ (modifier req = Static → nominal_token_value req = 0)
    | _ => True
    end.

Lemma frame_static r k s o : frame_result r k s o → k.1.1 = true → static_outcome s o.
Proof.
  intros (Hw & _ & Ho) Hs. split; [by apply Hw|]. destruct o as [[[next req|c]|e|] s']; try done.
  destruct Ho as [(_ & Hc & _) Hk]. apply (co_static _ _ _ Hc).
  unfold kind_of in Hk. by rewrite <- Hk in Hs.
Qed.

(** C16: static frames.  A frame started by a static call modifier, and a static
    frame that is resumed, leave the world (storage, nonces, code, events) as it
    was, however they end; and what they yield are calls that are static again, and a
    STATICCALL carries no value.  (A CALLCODE or DELEGATECALL of a static frame may
    carry one, which moves nothing to another account.) *)
Theorem evm_static_world fs h s r res s1 :
  launch_ok fs → is_static_modifier (modifier (external_call fs)) = true →
  self s = Interpreter_new → heap_data h = [] →
  awaiting (self s1) → is_static (self s1) = true → res_wf r →
  (∀ p, pending_os_request (self s1) = Some p → reply_ok p res) →
  static_outcome s (start_executing_frame fs h s)
  ∧ static_outcome s1 (continue_after_preemption r res s1).
Proof.
  intros Hl Hst Hs Hh Ha Hst1 Hr Hrep. split.
  - eapply frame_static; [by apply (start_spec fs h s Hl Hs Hh)|done].
  - eapply frame_static; [by apply (continue_spec r res s1 Ha Hr Hrep)|done].
Qed.

(** C14: the invariant of a step.  A step from a well-formed frame keeps it
    well-formed, with at most 1024 words on the stack, a memory of whole words
    below 4 GiB that is paid for, and a program counter at most 32 bytes past the
    code; it takes at least 20 native, creates no resource, and does not change
    which frame it is. *)
Theorem evm_step_invariant s :
  ready (self s) → external_call_dest s = None →
  match step s with
  | (Val _, s') => ready (self s') ∧ external_call_dest s' = None ∧ evolves s s'
                   ∧ n_left (resources (gas (self s'))) + 20 ≤ n_left (resources (gas (self s)))
  | (Err e, s') => evolves s s' ∧ ended s e s'
  | (Fault, _) => False
  end.
Proof.
  intros Hr Hx. pose proof (step_spec (is_static (self s)) s (conj (proj1 Hr) Hx) (ready_holds _ Hr)) as H.
  destruct (step s) as [[a|e|] s']; [|by destruct H as (? & ? & _)|done].
  destruct H as ([Hf Hx'] & Hev & Hc & Hn).
  split_conj; try done. split; [done|]. exact (h_ip _ _ Hc).
Qed.
End Theorems.

(** ** Witnesses *)

(** The outcome has a value; decided by evaluation. *)
Definition is_val {E A S} (o : outcome E A * S) : bool :=
  match o.1 with Val _ => true | _ => false end.

Lemma is_val_eq {E A S} (o : outcome E A * S) : is_val o = true → ∃ a s, o = (Val a, s).
Proof. destruct o as [[a|e|] s]; [eauto|done|done]. Qed.

Definition returns_five (o : outcome EvmSubsystemError ExitCode * St) : bool :=
  match o with
  | (Val Return, s) => bool_decide (returned_bytes Return (self s) = be_bytes 32 5)
  | _ => false
  end.

Lemma evm_run_total_witness :
  ∃ s' n, run ex_start = (Val Return, s') ∧ runs ex_start Return s' n
          ∧ returned_bytes Return (self s') = be_bytes 32 5.
Proof.
  destruct (evm_run_total ex_start ex_start_ready eq_refl) as (e & s' & n & Hrun & Hruns & _).
  assert (returns_five (run ex_start) = true) as H by (vm_compute; reflexivity).
  rewrite Hrun in H. destruct e; try discriminate H. apply bool_decide_eq_true in H.
  exists s', n. split; [exact Hrun|]. split; [exact Hruns|exact H].
Defined.

Lemma evm_frame_start_witness :
  ∃ y s', start_executing_frame (ex_launch NoModifier 0) ex_heap ex_fresh = (Val y, s')
          ∧ yielded (mk_res 25600000 100000) y s'.
Proof.
  pose proof (evm_frame_start (ex_launch NoModifier 0) ex_heap ex_fresh
    (ex_launch_ok NoModifier 0 ltac:(done)) eq_refl eq_refl) as H.
  destruct (is_val_eq (start_executing_frame (ex_launch NoModifier 0) ex_heap ex_fresh))
    as (y & s' & E); [vm_compute; reflexivity|].
  exists y, s'. split; [exact E|]. rewrite E in H. exact H.
Defined.

Lemma ex_reply_ok p : pending_os_request (self ex_waiting) = Some p → reply_ok p ex_reply.
Proof.
  intros [= <-]. split; [done| |done]. apply ex_bytes; [|cbn; lia].
  repeat (apply Forall_cons; split; [done|]). done.
Qed.

Lemma evm_frame_resume_witness :
  ∃ y s', continue_after_preemption (mk_res 25600000 100000) ex_reply ex_waiting = (Val y, s')
          ∧ yielded (mk_res 25600000 100000) y s'.
Proof.
  pose proof (evm_frame_resume (mk_res 25600000 100000) ex_reply ex_waiting ex_waiting_ok
    ltac:(done) ex_reply_ok) as H.
  destruct (is_val_eq (continue_after_preemption (mk_res 25600000 100000) ex_reply ex_waiting))
    as (y & s' & E); [vm_compute; reflexivity|].
  exists y, s'. split; [exact E|]. rewrite E in H. exact H.
Defined.

Lemma evm_static_world_witness :
  static_outcome ex_fresh (start_executing_frame (ex_launch Static 0) ex_heap ex_fresh)
  ∧ static_outcome ex_waiting
      (continue_after_preemption (mk_res 25600000 100000) ex_reply ex_waiting).
Proof.
  apply evm_static_world; [by apply ex_launch_ok|done|done|done|apply ex_waiting_ok|done|done|
    apply ex_reply_ok].
Defined.

Lemma evm_step_invariant_witness :
  match step ex_start with
  | (Val _, s') => ready (self s')
  | _ => False
  end.
Proof.
  pose proof (evm_step_invariant ex_start ex_start_ready eq_refl) as H.
  destruct (is_val_eq (step ex_start)) as (a & s' & E); [vm_compute; reflexivity|].
  rewrite E in *. apply H.
Defined.

(** 3 + 2, at the ADD of the example code. *)
Definition ex_add : St := ex_state 4 [3; 2] [] ex_code ex_pp.

Lemma ex_add_ready : ready (self ex_add).
Proof.
  apply (ex_ready 4 [3; 2] ex_code 0); [|cbn; lia| |cbn; lia|cbn; lia|done];
    repeat (apply Forall_cons; split; [done|]); done.
Qed.

Lemma evm_binary_instructions_witness :
  step ex_add = (Val tt, with_stack [5] (charged 3 160 (advanced ex_add))).
Proof.
  apply (evm_binary_instructions OP_ADD (λ _, 3) (λ _, 140) (λ a b, (a + b) mod 2 ^ 256)
           ex_add 3 2 []); [by left|apply ex_add_ready|done|done|by split].
Defined.

(** MULMOD of 2^255 and 2 modulo 7. *)
Definition ex_mulmod : St := ex_state 0 [2 ^ 255; 2; 7] [] [0x09] (mkPreprocessing 1 (Right [0])).

Lemma evm_unary_ternary_instructions_witness :
  step ex_mulmod
  = (Val tt, with_stack [2 ^ 256 mod 7] (charged 8 4020 (advanced ex_mulmod))).
Proof.
  assert (ready (self ex_mulmod)) as Hr.
  { apply (ex_ready 0 [2 ^ 255; 2; 7] [0x09] 0); [|cbn; lia| |cbn; lia|cbn; lia|done];
      repeat (apply Forall_cons; split; [done|]); done. }
  by apply (proj2 (proj2 (proj2 (evm_unary_ternary_instructions ex_mulmod Hr))) (2 ^ 255) 2 7 []).
Defined.

Lemma evm_push_witness :
  step ex_start = (Val tt, with_stack [2] (at_ip 2 (charged 3 (20 + 60) ex_start))).
Proof.
  apply (evm_push 1 ex_start 60); [lia|apply ex_start_ready|done|done|by split|].
  change STACK_SIZE with 1024%nat. cbn. lia.
Defined.

(** JUMP to position 2 of [56 00 5b]. *)
Definition ex_jump : St := ex_state 0 [2] [] [0x56; 0x00; 0x5b] (mkPreprocessing 3 (Right [4])).

Lemma ex_jump_valid : valid_jumpdest [0x56; 0x00; 0x5b] 2.
Proof.
  split; [|done]. apply (starts_next _ 1 0x00); [|done]. apply (starts_next _ 0 0x56); [|done].
  apply starts_zero.
Qed.

Lemma ex_jump_table :
  table_of (bytecode_preprocessing (self ex_jump)) (bytecode (self ex_jump)).
Proof.
  intros off Hoff. destruct (create_artifacts_spec [0x56; 0x00; 0x5b]) as (d & Hd & Hl & Hw & Hn & Hb).
  vm_compute in Hd. injection Hd as <-. exists ((off <? 3) && Z.testbit (num [4]) off). split.
  - refine (is_valid_jumpdest_run (mkPreprocessing 3 (Right [4])) off _ Hoff).
    split; cbn -[usize_bits]; [by apply Forall_cons|]. change usize_bits with 64. lia.
  - rewrite andb_true_iff, Z.ltb_lt. rewrite (Hb off Hoff).
    split; [naive_solver|]. intros Hv. split; [|done]. apply valid_in_code in Hv. cbn in Hv. lia.
Qed.

Lemma evm_jumps_witness :
  step ex_jump
  = (Val tt, at_ip 2 (with_stack [] (charged 8 (20 + JUMP_NATIVE_COST) (advanced ex_jump)))).
Proof.
  assert (ready (self ex_jump)) as Hr.
  { apply (ex_ready 0 [2] [0x56; 0x00; 0x5b] 4); [|cbn; lia| |cbn; lia|cbn; lia|done];
      repeat (apply Forall_cons; split; [done|]); done. }
  apply (proj1 (evm_jumps ex_jump Hr ex_jump_table) 2 []); [done|done|by split|].
  apply ex_jump_valid.
Defined.

Lemma evm_memory_expansion_witness :
  resize_heap 10 50 ex_start = (Val tt, grown 64 ex_start).
Proof.
  destruct (evm_memory_expansion ex_start 10 50 (proj1 ex_start_ready)) as [H1 H2];
    [by split|by split|].
  assert ((resize_heap 10 50 ex_start).1 = Val tt) as Hv by (rewrite H1; vm_compute; reflexivity).
  specialize (H2 Hv). destruct (resize_heap 10 50 ex_start) as [o s']. cbn [fst snd] in Hv, H2.
  rewrite Hv, H2. reflexivity.
Defined.

(** MSTORE of 5 at 0, and a later state with its memory. *)
Definition ex_mstore : St := ex_state 7 [0; 5] [] ex_code ex_pp.
Definition ex_mload : St := ex_state 8 [0; 9] (be_bytes 32 5) ex_code ex_pp.

Lemma ex_mload_frame : frame_ok (self ex_mload).
Proof.
  assert (ready (ex_frame 8 [0; 9] [] ex_code ex_pp)) as [[] _].
  { apply (ex_ready 8 [0; 9] ex_code 0); [|cbn; lia| |cbn; lia|cbn; lia|done];
      repeat (apply Forall_cons; split; [done|]); done. }
  split; try done. split; [|done|done|by apply (bool_decide_unpack _)].
  repeat (apply Forall_cons; split; [done|]); done.
Qed.

Lemma evm_mstore_mload_witness :
  mload ex_mload = (Val tt, with_stack [5; 9] (charged 3 250 ex_mload)).
Proof.
  destruct (is_val_eq (mstore ex_mstore)) as ([] & s1 & E); [vm_compute; reflexivity|].
  assert (bool_decide (heap_data (heap (self (mstore ex_mstore).2)) = be_bytes 32 5)
          && bool_decide (heap_cap (heap (self (mstore ex_mstore).2)) = 4096%nat) = true) as Hh
    by (vm_compute; reflexivity).
  rewrite E in Hh. apply andb_true_iff in Hh as [Hd Hc].
  apply bool_decide_eq_true in Hd, Hc. cbn [snd] in Hd, Hc.
  apply (evm_mstore_mload ex_mstore s1 0 5 [] ex_mload [9]);
    [|done|exact E|apply ex_mload_frame| |done|by split].
  - clear E Hd Hc. apply (ex_ready 7 [0; 5] ex_code 0); [|cbn; lia| |cbn; lia|cbn; lia|done];
      repeat (apply Forall_cons; split; [done|]); done.
  - change (heap (self ex_mload)) with (mkHeap 4096 (be_bytes 32 5)).
    destruct (heap (self s1)) as [c d].
    cbn [heap_data heap_cap] in Hd, Hc. by rewrite Hd, Hc.
Defined.

Lemma evm_opcode_table_witness :
  is_Some (try_from_u8 0x01) ∧ find_instruction 0x0c dispatch_table
                               = throw (EvmErr (InvalidOpcode 0x0c)).
Proof.
  split.
  - apply (proj1 (evm_opcode_table 0x01 ltac:(lia))). vm_compute. by do 7 right; left.
  - by apply (proj2 (evm_opcode_table 0x0c ltac:(lia))).
Defined.

(** A call with value to an empty account that asks for 10000 gas. *)
Lemma call_resources_witness :
  let p := {| cap_ee_type := 0; cap_nonce := 0; cap_nominal_token_balance := 0; cap_bytecode := [];
              cap_code_version := 0; cap_unpadded_code_len := 0; cap_artifacts_len := 0 |} in
  calculate_resources_passed_in_external_call (ex_request NoModifier 1) p (mk_res 25600000 100000)
  = (Val (mk_res ((10000 + 2300) * 256) 0), mk_res (25600000 - (34000 + 10000) * 256) 100000).
Proof.
  intros p. destruct (call_resources (ex_request NoModifier 1) p (mk_res 25600000 100000))
    as [H1 H2]; [done|done|].
  assert (call_surcharge (ex_request NoModifier 1) p ≤ 25600000) as Hs
    by (vm_compute; discriminate).
  specialize (H2 Hs). destruct (calculate_resources_passed_in_external_call _ _ _) as [o r'].
  cbn [fst snd] in H1, H2. subst o r'. vm_compute. reflexivity.
Defined.

(** A deployment on the occupied account burns all ergs. *)
Lemma frame_preconditions_witness :
  let s : SysState * Res := (ex_store : SysState, mk_res 25600000 100000) in
  match before_executing_frame (ex_launch Constructor 0) s with
  | (Val b, s') => b = false ∧ e_left s'.2 = 0 ∧ n_left s'.2 ≤ 100000
  | _ => False
  end.
Proof.
  intros s. pose proof (frame_preconditions (ex_launch Constructor 0) s ltac:(done)) as H.
  assert (match before_executing_frame (ex_launch Constructor 0) s with
          | (Val false, s') => e_left s'.2 =? 0 | _ => false end = true) as Hv
    by (vm_compute; reflexivity).
  destruct (before_executing_frame (ex_launch Constructor 0) s) as [[[]|e|] s']; try discriminate Hv.
  apply Z.eqb_eq in Hv. destruct H as (_ & Hn & _). split; [reflexivity|]. split; [exact Hv|exact Hn].
Defined.

(** Account 0xbb with nonce 0 deploys. *)
Lemma create_address_witness :
  derive_address_for_deployment_create (E:=ExitCode) 0xbb 0 ex_start
  = (Val (of_be_bytes (Keccak256_digest ([0xd6; 0x94] ++ be_bytes 20 0xbb ++ [0x80])) mod 2 ^ 160),
     ex_start)
  ∧ (create_quasi_rlp 0xbb 0 = create_quasi_rlp 0xbb 1 → 0 = 1).
Proof.
  destruct (create_address (E:=ExitCode) 0xbb 0 ex_start) as [H1 H2]; [done|done|].
  split; [exact H1|]. intros He. exact (proj2 (H2 0xbb 1 ltac:(done) ltac:(done) He)).
Defined.

Lemma create2_address_witness :
  ∃ a h, (derive_address_for_deployment_create2 7 0xbb ex_code ex_start).1 = Val a
    ∧ a = of_be_bytes (Keccak256_digest ([0xff] ++ be_bytes 20 0xbb ++ be_bytes 32 7 ++ h))
          mod 2 ^ 160.
Proof.
  destruct (is_val_eq (derive_address_for_deployment_create2 7 0xbb ex_code ex_start))
    as (a & s' & E); [vm_compute; reflexivity|].
  destruct (create2_address 7 0xbb ex_code ex_start s' a E) as (h & r' & _ & Ha & _).
  exists a, h. rewrite E. split; [reflexivity|exact Ha].
Defined.

(** Eight bytes of code across the end of a memory of 32 bytes, which grows to 64. *)
Definition ex_copy : St := ex_state 8 [30; 9; 8] (repeat 0 32) ex_code ex_pp.

Lemma ex_copy_frame : frame_ok (self ex_copy).
Proof.
  assert (ready (ex_frame 8 [30; 9; 8] [] ex_code ex_pp)) as [[] _].
  { apply (ex_ready 8 [30; 9; 8] ex_code 0); [|cbn; lia| |cbn; lia|cbn; lia|done];
      repeat (apply Forall_cons; split; [done|]); done. }
  split; try done. split; [|done|done|by apply (bool_decide_unpack _)].
  repeat (apply Forall_cons; split; [done|]); done.
Qed.

Lemma evm_copy_instructions_witness :
  ∃ s', codecopy ex_copy = (Val tt, s')
    ∧ copied ex_code (repeat 0 32) (heap_data (heap (self s'))) 30 9 8.
Proof.
  destruct (evm_copy_instructions ex_copy (codecopy ex_copy).2 30 9 8 [] ex_copy_frame eq_refl)
    as (H1 & _ & _ & _ & H2 & _).
  destruct H2 as [H2 _]; [split; [|split; [right|split]]; vm_compute; done|].
  exists (codecopy ex_copy).2. destruct (codecopy ex_copy) as [o s'].
  cbn [fst snd] in H1, H2 |- *. subst o. split; [reflexivity|exact (proj1 (H1 eq_refl))].
Defined.

(** 64 GiB with 100000 native. *)
Lemma codecopy_width_dependent_witness :
  let s := ex_state 0 [0; 0; 2 ^ 36] [] [0x39] (mkPreprocessing 1 (Right [0])) in
  (codecopy (UZ:=usize64) s).1
    = Err (FatalError (SLeafRuntime (FatalRuntime OutOfNativeResources)))
  ∧ (codecopy (UZ:=usize32) s).1 = Err (EvmErr InvalidOperandOOG).
Proof.
  intros s. apply (codecopy_width_dependent s 0 0 (2 ^ 36) []); [|done|done|lia|done].
  split; done.
Defined.
