(* ===== verification/IoCommon.v ===== *)
(** * What the caches are made of

    The rest of [zk_ee/src/common_structs/history_map/mod.rs]: the operations that go
    over the elements of the map, in the order of their keys or in that of their last
    changes.  Their callbacks work on a larger state [S] the map is a part of: [getm]
    and [putm] are its place there.  Then
    records with their origin, and lists and counters with snapshots. *)

From stdpp Require Import gmap sorting strings.
From S2P Require Import Prelude HistoryElement HistoryMap FlatStorage Resources.

(** [HistoryMapItemRef], with the values its accessors read. *)
Record ItemRef (K V : Type) : Type := mkItem {
  item_key : K;
  item_initial : V;
  item_committed : V;
  item_current : V
}.
Arguments mkItem {K V}.
Arguments item_key {K V}.
Arguments item_initial {K V}.
Arguments item_committed {K V}.
Arguments item_current {K V}.

(** A computation that only reads a part of the state. *)
Definition peek {S T E F A} (get : S → T) (m : M T E A) : M S F A := λ s,
  match (m (get s)).1 with
  | Val a => (Val a, s)
  | Err _ | Fault => (Fault, s)
  end.

(** [iter.map(f).collect()], for a callback with effects. *)
Fixpoint map_each {S E A B} (f : A → M S E B) (l : list A) : M S E (list B) :=
  match l with
  | [] => mret []
  | a :: l => b ← f a; bs ← map_each f l; mret (b :: bs)
  end.

(** The order of the keys of a [BTreeMap]. *)
Class KeyOrder (K : Type) : Type := {
  key_order : K → K → Prop;
  key_order_dec :: RelDecision key_order
}.

Section Iter.
Context {K V : Type} `{Countable K} `{!KeyOrder K}.
Abbreviation HM := (HistoryMap K V).

Definition sorted_keys (m : HM) : list K := merge_sort key_order (map_to_list (btree m)).*1.

Section Callbacks.
Context {S F : Type} (getm : S → HM) (putm : HM → S → S).

Definition on_map {E A} (err : HistoryMapError E → F) (c : M HM (HistoryMapError E) A) : M S F A :=
  map_err err (zoom getm putm c).

Definition item_ref (k : K) : M S F (ItemRef K V) :=
  initial ← peek getm (HistoryMap.initial_value (E:=unit) k);
  committed ← peek getm (HistoryMap.committed_value (E:=unit) k);
  current ← peek getm (HistoryMap.current (E:=unit) k);
  initial ← expect initial;
  committed ← expect committed;
  current ← expect current;
  mret (mkItem k initial committed current).

Definition apply_to_all_updated_elements (do_fn : V → V → K → M S F unit) : M S F unit :=
  keys ← gets (sorted_keys ∘ getm);
  for_each keys (λ k,
    values ← peek getm (HistoryMap.initial_and_last (E:=unit) k);
    match values with
    | Some (initial, last) => do_fn initial last k
    | None => mret tt
    end).

(** The keys of the range are those that pass [in_range]. *)
Definition for_each_range (in_range : K → bool) (do_fn : K → M S F unit) : M S F unit :=
  keys ← gets (sorted_keys ∘ getm);
  for_each (filter (λ k, in_range k = true) keys) do_fn.

Definition iter : M S F (list (ItemRef K V)) :=
  keys ← gets (sorted_keys ∘ getm);
  map_each item_ref keys.

Definition iter_altered_since_commit : M S F (list (ItemRef K V)) :=
  pending ← gets (pending_updated_elements ∘ getm);
  map_each item_ref pending.*1.

(** The callback gets the value of the head record and says what it becomes. *)
Definition apply_to_last_record_of_pending_changes (do_fn : K → V → M S F V) : M S F unit :=
  pending ← gets (pending_updated_elements ∘ getm);
  for_each pending (λ '(k, _),
    element ← gets (λ s, btree (getm s) !! k);
    element ← expect element;
    record ← peek getm (on_pool (E:=unit) (deref (head element)));
    value ← do_fn k (value record);
    unwrap (zoom getm putm (on_pool (E:=unit) (write (head element) (set_value value))))).
End Callbacks.
End Iter.

(** ** Records, lists and counters

    [zk_ee/src/common_structs/history_list.rs] and [history_counter.rs], a list and a
    value that can be taken back to a snapshot, and [cache_record.rs], a value with what
    a cache notes about it.  The counter is shown to give back, after a rollback, the
    value it had at the snapshot, as a copy taken there would. *)

(** ** [HistoryList]: a stack, the oldest element first *)

Definition HistoryList (V Md : Type) : Type := list (V * Md).

Section List.
Context {V Md : Type}.
Implicit Types (self : HistoryList V Md).

Definition hl_new : HistoryList V Md := [].
Definition hl_snapshot self : nat := length self.
(** [truncate] leaves a shorter list alone. *)
Definition hl_rollback (snapshot : nat) self : HistoryList V Md := take snapshot self.
Definition hl_push (value : V) (md : Md) self : HistoryList V Md := self ++ [(value, md)].
Definition hl_top self : option (V * Md) := last self.
Definition hl_set_top (value : V) self : option (HistoryList V Md) :=
  '(_, md) ← last self; Some (take (pred (length self)) self ++ [(value, md)]).
Definition hl_iter self : list V := self.*1.
End List.

(** ** [HistoryCounter] *)

Record HistoryCounter (V : Type) : Type := mkCounter {
  hc_history : HistoryList V unit;
  last_snapshot_id : nat
}.
Arguments mkCounter {V}.
Arguments hc_history {V}.
Arguments last_snapshot_id {V}.

Section Counter.
Context {V : Type}.
Implicit Types (self : HistoryCounter V).

Definition hc_new : HistoryCounter V := mkCounter hl_new 0.
Definition hc_value self : option V := fst <$> hl_top (hc_history self).

(** [None] is a panic. *)
Definition hc_update (value : V) self : option (HistoryCounter V) :=
  if bool_decide (last_snapshot_id self < length (hc_history self))%nat
  then history ← hl_set_top value (hc_history self); Some (mkCounter history (last_snapshot_id self))
  else Some (mkCounter (hl_push value tt (hc_history self)) (last_snapshot_id self)).

Definition hc_snapshot self : nat * HistoryCounter V :=
  (hl_snapshot (hc_history self), mkCounter (hc_history self) (hl_snapshot (hc_history self))).
Definition hc_rollback (snapshot : nat) self : HistoryCounter V :=
  mkCounter (hl_rollback snapshot (hc_history self)) snapshot.
End Counter.

(** ** [CacheRecord] *)

Inductive Appearance : Type := Unset | Retrieved | Updated | Deconstructed.
#[global] Instance Appearance_eq_dec : EqDecision Appearance.
Proof. solve_decision. Defined.

Record CacheRecord (V Md : Type) : Type := mkCacheRecord {
  appearance : Appearance;
  cr_value : V;
  metadata : Md
}.
Arguments mkCacheRecord {V Md}.
Arguments appearance {V Md}.
Arguments cr_value {V Md}.
Arguments metadata {V Md}.

Section Record.
Context {V Md : Type}.
Implicit Types (self : CacheRecord V Md).

(** [default_md] is [M::default()]. *)
Definition cr_new (default_md : Md) (value : V) (a : Appearance) : CacheRecord V Md :=
  mkCacheRecord a value default_md.

(** The callbacks that mutate a record give an error or nothing, and its new contents. *)
Definition finish_deconstruction self : option InternalError * CacheRecord V Md :=
  if decide (appearance self = Deconstructed)
  then (None, mkCacheRecord Updated (cr_value self) (metadata self))
  else (Some (internal_error "Cannot finish deconstruction"), self).

Definition cr_update {E} (f : V → Md → option E * (V * Md)) self : option E * CacheRecord V Md :=
  let a := if decide (appearance self = Deconstructed) then appearance self else Updated in
  let '(r, (v, md)) := f (cr_value self) (metadata self) in
  (r, mkCacheRecord a v md).

Definition update_metadata {E} (f : Md → option E * Md) self : option E * CacheRecord V Md :=
  let '(r, md) := f (metadata self) in
  (r, mkCacheRecord (appearance self) (cr_value self) md).

Definition deconstruct self : CacheRecord V Md :=
  mkCacheRecord Deconstructed (cr_value self) (metadata self).
Definition cr_unset self : CacheRecord V Md :=
  mkCacheRecord Unset (cr_value self) (metadata self).
End Record.

(** ** The counter against copies

    The specification keeps, for every snapshot that can be returned to, the value at
    it. *)
Section CounterTheorem.
Context {V : Type}.

Inductive counter_op : Type := CUpdate (v : V) | CSnapshot | CRollback.

(** The snapshots are nested: a rollback goes to the last one and uses it up. *)
Definition counter_step (o : counter_op) (s : HistoryCounter V * list nat) : option (HistoryCounter V * list nat) :=
  match o with
  | CUpdate v => c ← hc_update v s.1; Some (c, s.2)
  | CSnapshot => let '(id, c) := hc_snapshot s.1 in Some (c, id :: s.2)
  | CRollback => match s.2 with id :: ids => Some (hc_rollback id s.1, ids) | [] => None end
  end.

Definition copy_step (o : counter_op) (s : option V * list (option V)) : option (option V * list (option V)) :=
  match o with
  | CUpdate v => Some (Some v, s.2)
  | CSnapshot => Some (s.1, s.1 :: s.2)
  | CRollback => match s.2 with v :: vs => Some (v, vs) | [] => None end
  end.

Definition run_counter {S} (step : counter_op → S → option S) (os : list counter_op) (s : S) : option S :=
  foldl (λ s o, s ≫= step o) (Some s) os.

(** The value at a snapshot: the top of the list cut there. *)
Definition value_at (h : HistoryList V unit) (id : nat) : option V := fst <$> last (take id h).

Record counter_rep (s : HistoryCounter V * list nat) (c : option V * list (option V)) : Prop := {
  cs_value : hc_value s.1 = c.1;
  cs_copies : map (value_at (hc_history s.1)) s.2 = c.2;
  cs_ids : Forall (λ id, (id ≤ last_snapshot_id s.1)%nat) s.2;
  cs_sorted : StronglySorted (λ i j, (j ≤ i)%nat) s.2;
  cs_last : (last_snapshot_id s.1 ≤ length (hc_history s.1))%nat
}.

(** Lists that agree up to [n] have the same values at snapshots up to it. *)
Lemma values_at_prefix (h h' : HistoryList V unit) n ids :
  take n h' = take n h → Forall (λ id, (id ≤ n)%nat) ids →
  map (value_at h') ids = map (value_at h) ids.
Proof.
  intros Hh Hids. apply map_ext_in. intros id Hid. unfold value_at.
  rewrite Forall_forall in Hids. specialize (Hids id). rewrite list_elem_of_In in Hids.
  assert (Ht : ∀ l : HistoryList V unit, take id l = take id (take n l)).
  { intros l. rewrite take_take, Nat.min_l by auto. done. }
  by rewrite (Ht h'), (Ht h), Hh.
Qed.

Lemma counter_step_rep o s c c' :
  counter_rep s c → copy_step o c = Some c' → ∃ s', counter_step o s = Some s' ∧ counter_rep s' c'.
Proof.
  destruct s as [[h n] ids]. intros [Hv Hc Hi Hs Hl] Ho. cbn in *. destruct o as [v| |]; cbn in *.
  - injection Ho as <-. unfold hc_update. cbn. case_bool_decide as Hn.
    + unfold hl_set_top. destruct (last h) as [[w []]|] eqn:Hlast; cbn.
      2: { apply last_None in Hlast. subst h. cbn in Hn. lia. }
      eexists. split; [done|]. split; cbn; try done.
      * unfold hc_value, hl_top. cbn. by rewrite last_snoc.
      * rewrite <- Hc. apply (values_at_prefix _ _ n); [|done].
        rewrite take_app_le by (rewrite length_take; lia). by rewrite take_take, Nat.min_l by lia.
      * rewrite length_app, length_take. cbn. lia.
    + eexists. split; [done|]. split; cbn; try done.
      * unfold hc_value, hl_top, hl_push. cbn. by rewrite last_snoc.
      * rewrite <- Hc. apply (values_at_prefix _ _ n); [|done]. unfold hl_push. by rewrite take_app_le by lia.
      * unfold hl_push. rewrite length_app. cbn. lia.
  - injection Ho as <-. eexists. split; [done|]. unfold hl_snapshot. split; cbn; try done.
    + rewrite <- Hv, <- Hc. f_equal. unfold value_at. by rewrite take_ge by lia.
    + constructor; [done|]. eapply Forall_impl; [exact Hi|]. cbn. lia.
    + constructor; [done|]. eapply Forall_impl; [exact Hi|]. cbn. lia.
  - destruct ids as [|id ids], c as [v [|w vs]]; cbn in *; try done. injection Ho as <-. injection Hc as Hw Hc.
    apply Forall_cons in Hi as [Hid Hi]. apply StronglySorted_inv in Hs as [Hs Hle].
    eexists. split; [done|]. split; cbn; unfold hl_rollback; try done.
    + rewrite <- Hc. by apply (values_at_prefix _ _ id); [rewrite take_take, Nat.min_l by lia|].
    + rewrite length_take. lia.
Qed.

(** Whatever is done to the counter between them, returning to a snapshot gives the value
    the counter had when the snapshot was taken. *)
Lemma history_counter_refines (os : list counter_op) c' :
  run_counter copy_step os (None, []) = Some c' →
  ∃ s', run_counter counter_step os (hc_new, []) = Some s' ∧ hc_value s'.1 = c'.1.
Proof.
  enough (∀ s c, counter_rep s c → run_counter copy_step os c = Some c' →
    ∃ s', run_counter counter_step os s = Some s' ∧ counter_rep s' c') as Hrun.
  { intros Ho. destruct (Hrun (hc_new, []) (None, [])) as (s' & Hs & Hr); [|done|].
    - split; cbn; try done; constructor.
    - exists s'. split; [done|apply Hr]. }
  unfold run_counter. induction os as [|o os IH]; cbn [foldl mbind option_bind]; intros s c Hr Ho.
  - injection Ho as <-. by exists s.
  - destruct (copy_step o c) as [c1|] eqn:E.
    + destruct (counter_step_rep o s c c1 Hr E) as (s1 & -> & H1). by apply (IH s1 c1).
    + exfalso. clear -Ho. induction os; [done|auto].
Qed.
End CounterTheorem.
