(* ===== verification/Pubdata.v ===== *)
(** * Compression of value diffs

    Models [zk_ee/src/common_structs/pubdata_compression.rs]: how the change of a
    32-byte value is published, with the shortest of four encodings.  The theorem is
    that whoever has the old value reads the new one back from the published bytes,
    that the bytes are as many as were charged for, and that no strategy has fewer. *)

From S2P Require Import Prelude U256 Rlp.

(** ** Where the bytes go

    Pubdata is written to the commitment generator ([dst : &mut impl WriteBytes]) and
    reported to the result keeper; both are the bytes they have received. *)
Record Pubdata : Type := mkPubdata {
  pd_written : list Z;
  pd_reported : list Z
}.

Definition pd_write {E} (bytes : list Z) : M Pubdata E unit :=
  modify (λ s, mkPubdata (pd_written s ++ bytes) (pd_reported s)).
Definition pd_report {E} (bytes : list Z) : M Pubdata E unit :=
  modify (λ s, mkPubdata (pd_written s) (pd_reported s ++ bytes)).

(** [Uint::bit_len] and [Uint::overflowing_add] of [ruint]. *)
Class RuintBits : Type := {
  u_bit_len : Z → Z;
  u_overflowing_add : Z → Z → Z * bool
}.
Class RuintBitsSpec {B : RuintBits} : Prop := {
  u_bit_len_spec a : is_u256 a → u_bit_len a = if a =? 0 then 0 else Z.log2 a + 1;
  u_overflowing_add_spec a b : is_u256 a → is_u256 b →
    u_overflowing_add a b = ((a + b) mod 2 ^ 256, 2 ^ 256 <=? a + b)
}.

Definition ruint_bits_ref : RuintBits := {|
  u_bit_len a := if a =? 0 then 0 else Z.log2 a + 1;
  u_overflowing_add a b := ((a + b) mod 2 ^ 256, 2 ^ 256 <=? a + b)
|}.
Lemma ruint_bits_ref_spec : RuintBitsSpec (B:=ruint_bits_ref).
Proof. by split. Qed.

Inductive ValueDiffCompressionStrategy : Type := DNothing | DAdd | DSub | DTransform.

Section Compression.
Context `{Ruint} `{RuintBits}.

(** [(x.bit_len().next_multiple_of(8) / 8) as u8] *)
Definition diff_length (x : Z) : Z := wrap 8 (next_multiple_of (u_bit_len x) 8 / 8).

Definition compression_length (self : ValueDiffCompressionStrategy) (initial_value final_value : Z)
    : option Z :=
  match self with
  | DNothing => Some 33
  | DAdd =>
      let '(result, overflow) := u_overflowing_sub final_value initial_value in
      let length := diff_length result in
      if overflow || (length =? 32) then None else Some (wrap 8 (length + 1))
  | DSub =>
      let '(result, overflow) := u_overflowing_sub initial_value final_value in
      let length := diff_length result in
      if overflow || (length =? 32) then None else Some (wrap 8 (length + 1))
  | DTransform =>
      let length := diff_length final_value in
      if length =? 32 then None else Some (wrap 8 (length + 1))
  end.

(** [&value.to_be_bytes::<32>()[32usize - length as usize..]] *)
Definition low_bytes {S E} (value length : Z) : M S E (list Z) :=
  expect (slice (be_bytes 32 value) (32 - length) length).

(** Metadata byte and the low bytes of the value. *)
Definition write_diff {E} (length op value : Z) : M Pubdata E unit :=
  let metadata_byte := Z.lor (wrap 8 (Z.shiftl length 3)) op in
  pd_write [metadata_byte] ;;
  low ← low_bytes value length;
  pd_write low ;;
  pd_report [metadata_byte] ;;
  pd_report low.

Definition compress (self : ValueDiffCompressionStrategy) (initial_value final_value : Z)
    : M Pubdata unit unit :=
  match self with
  | DNothing =>
      pd_write [0] ;;
      pd_write (be_bytes 32 final_value) ;;
      pd_report [0] ;;
      pd_report (be_bytes 32 final_value)
  | DAdd =>
      let '(result, overflow) := u_overflowing_sub final_value initial_value in
      let length := diff_length result in
      if overflow || (length =? 32) then throw tt else write_diff length 1 result
  | DSub =>
      let '(result, overflow) := u_overflowing_sub initial_value final_value in
      let length := diff_length result in
      if overflow || (length =? 32) then throw tt else write_diff length 2 result
  | DTransform =>
      let length := diff_length final_value in
      if length =? 32 then throw tt else write_diff length 3 final_value
  end.

(** The strategies after [DNothing], in the order in which they are tried. *)
Definition strategies : list ValueDiffCompressionStrategy := [DAdd; DSub; DTransform].

Definition optimal_compression_length_u256_optional (initial_value final_value : Z)
    (no_compression : bool) : option Z :=
  optimal ← compression_length DNothing initial_value final_value;
  Some (if no_compression then optimal
        else fold_left (λ optimal strategy,
               match compression_length strategy initial_value final_value with
               | Some length => Z.min optimal length
               | None => optimal
               end) strategies optimal).

Definition optimal_compression_length_u256 (initial_value final_value : Z) : option Z :=
  optimal_compression_length_u256_optional initial_value final_value false.

(** A [Bytes32] is the number it encodes in big-endian, so [into_u256_be] is the identity. *)
Definition optimal_compression_length (initial_value final_value : Z) : option Z :=
  optimal_compression_length_u256 initial_value final_value.

Definition optimal_strategy (initial_value final_value : Z) : option ValueDiffCompressionStrategy :=
  optimal_length ← compression_length DNothing initial_value final_value;
  Some (fold_left (λ '(optimal_strategy, optimal_length) strategy,
          match compression_length strategy initial_value final_value with
          | Some length => if length <? optimal_length then (strategy, length)
                           else (optimal_strategy, optimal_length)
          | None => (optimal_strategy, optimal_length)
          end) strategies (DNothing, optimal_length)).1.

Definition optimal_compression_u256 {E} (initial_value final_value : Z) : M Pubdata E unit :=
  strategy ← expect (optimal_strategy initial_value final_value);
  unwrap (compress strategy initial_value final_value).

Definition optimal_compression {E} (initial_value final_value : Z) : M Pubdata E unit :=
  optimal_compression_u256 initial_value final_value.
End Compression.

(** ** Reading a diff

    The format as its documentation describes it, read by who knows the old value: the
    kind in the low three bits of the first byte, the number of bytes in the others. *)
Definition read_diff (initial_value : Z) (bytes : list Z) : option (Z * list Z) :=
  match bytes with
  | [] => None
  | metadata :: rest =>
      let length := Z.shiftr metadata 3 in
      let value := of_be_bytes (take (Z.to_nat length) rest) in
      let rest' := drop (Z.to_nat length) rest in
      match Z.land metadata 7 with
      | 0 => Some (of_be_bytes (take 32 rest), drop 32 rest)
      | 1 => Some ((initial_value + value) mod 2 ^ 256, rest')
      | 2 => Some ((initial_value - value) mod 2 ^ 256, rest')
      | 3 => Some (value, rest')
      | _ => None
      end
  end.

(** The bytes went to both. *)
Definition published (bytes : list Z) (s : Pubdata) : Pubdata :=
  mkPubdata (pd_written s ++ bytes) (pd_reported s ++ bytes).

Lemma published_app l k s : published k (published l s) = published (l ++ k) s.
Proof. unfold published. cbn. by rewrite !app_assoc. Qed.

Lemma diff_metadata length op :
  0 ≤ length < 32 → 0 ≤ op < 8 →
  wrap 8 (Z.shiftl length 3) = 8 * length
  ∧ Z.shiftr (Z.lor (8 * length) op) 3 = length
  ∧ Z.land (Z.lor (8 * length) op) 7 = op
  ∧ is_u8 (Z.lor (8 * length) op).
Proof.
  intros Hl Ho. rewrite Z.shiftl_mul_pow2 by lia. change (2 ^ 3) with 8.
  assert (Hor : Z.lor (8 * length) op = 8 * length + op).
  { symmetry. rewrite Z.add_nocarry_lxor, Z.lxor_lor; try done.
    all: replace (8 * length) with (Z.shiftl length 3) by (rewrite Z.shiftl_mul_pow2; lia).
    all: replace op with (op mod 2 ^ 3) by (apply Z.mod_small; lia).
    all: apply Z.bits_inj'; intros n Hn; rewrite Z.land_spec, Z.bits_0, Z.shiftl_spec by done.
    all: destruct (decide (n < 3)).
    all: try (rewrite (Z.testbit_neg_r length) by lia; done).
    all: rewrite Z.mod_pow2_bits_high by lia; by rewrite andb_false_r. }
  rewrite Hor. unfold in_width, wrap. split_conj.
  - rewrite Z.mul_comm. apply Z.mod_small. lia.
  - rewrite Z.shiftr_div_pow2 by lia. change (2 ^ 3) with 8.
    symmetry. apply (Z.div_unique _ _ _ op); lia.
  - change 7 with (Z.ones 3). rewrite Z.land_ones by lia. change (2 ^ 3) with 8.
    symmetry. apply (Z.mod_unique _ _ length); lia.
  - lia.
  - lia.
Qed.

Section Theorems.
Context {R : Ruint} {RS : RuintSpec} {B : RuintBits} {BS : RuintBitsSpec}.

Lemma diff_length_width x : is_u256 x → diff_length x = Z.of_nat (width_of x).
Proof.
  intros Hx. unfold diff_length, width_of. rewrite u_bit_len_spec by done.
  destruct (Z.eqb_spec x 0) as [->|Hn]; [done|].
  assert (Hl : 0 ≤ Z.log2 x < 256).
  { split; [apply Z.log2_nonneg|]. apply Z.log2_lt_pow2; unfold in_width in Hx; lia. }
  rewrite Z2Nat.id by (pose proof (Z.div_pos (Z.log2 x) 8); lia).
  assert (Hd : next_multiple_of (Z.log2 x + 1) 8 / 8 = Z.log2 x / 8 + 1).
  { unfold next_multiple_of. cbv zeta. generalize (Z.log2 x). intros n.
    destruct (Z.eqb_spec ((n + 1) mod 8) 0); Z.to_euclidean_division_equations; lia. }
  rewrite Hd. apply wrap_small. unfold in_width.
  pose proof (Z.div_pos (Z.log2 x) 8). pose proof (Z.div_lt_upper_bound (Z.log2 x) 8 32). lia.
Qed.

Lemma diff_length_bound x : is_u256 x → 0 ≤ diff_length x ≤ 32.
Proof.
  intros Hx. rewrite diff_length_width by done. pose proof (width_of_bound x 32 Hx). lia.
Qed.

(** The low bytes are the minimal encoding. *)
Lemma low_bytes_minimal {S E} x (s : S) :
  is_u256 x → low_bytes (E:=E) x (diff_length x) s = (Val (minimal_be x), s).
Proof.
  intros Hx. pose proof (diff_length_bound x Hx) as Hb.
  unfold low_bytes, slice. rewrite length_be_bytes, !(proj2 (Z.leb_le _ _)) by lia. cbn [andb expect].
  do 2 f_equal. rewrite diff_length_width in * by done. unfold minimal_be.
  rewrite Nat2Z.id, take_ge.
  - replace (Z.to_nat (32 - Z.of_nat (width_of x))) with (32 - width_of x)%nat by lia.
    unfold be_bytes. rewrite <- (Nat.sub_add (width_of x) 32) at 2 by lia.
    rewrite (Nat.add_comm (32 - width_of x)), le_bytes_app, reverse_app.
    rewrite drop_app_length'; [done|]. by rewrite length_reverse, length_le_bytes.
  - rewrite length_drop, length_be_bytes. lia.
Qed.

(** What a strategy publishes, where it applies. *)
Definition diff_bytes (op x : Z) : list Z := Z.lor (8 * diff_length x) op :: minimal_be x.

Lemma write_diff_published {E} op x s :
  is_u256 x → diff_length x < 32 → 0 ≤ op < 8 →
  write_diff (E:=E) (diff_length x) op x s = (Val tt, published (diff_bytes op x) s).
Proof.
  intros Hx Hl Ho. pose proof (diff_length_bound x Hx).
  destruct (diff_metadata (diff_length x) op) as (Hm & _); [lia|done|].
  unfold write_diff, mbind, M_bind. rewrite Hm. cbn [pd_write modify]. rewrite low_bytes_minimal by done.
  unfold published, diff_bytes, pd_write, pd_report, modify. cbn [pd_written pd_reported].
  by rewrite <- !app_assoc.
Qed.

Lemma read_diff_published op x rest initial :
  is_u256 x → diff_length x < 32 → 1 ≤ op ≤ 3 →
  read_diff initial (diff_bytes op x ++ rest)
  = Some (match op with 1 => (initial + x) mod 2 ^ 256 | 2 => (initial - x) mod 2 ^ 256 | _ => x end, rest).
Proof.
  intros Hx Hl Ho. pose proof (diff_length_bound x Hx).
  destruct (diff_metadata (diff_length x) op) as (_ & Hs & Ha & _); [lia..|].
  assert (Hw : Z.to_nat (diff_length x) = length (minimal_be x)).
  { rewrite diff_length_width by done. unfold minimal_be. rewrite length_be_bytes. lia. }
  unfold read_diff, diff_bytes. cbn [app]. rewrite Hs, Ha, Hw, take_app_length, drop_app_length.
  rewrite of_be_bytes_minimal by apply Hx.
  assert (op = 1 ∨ op = 2 ∨ op = 3) as [->|[->| ->]] by lia; done.
Qed.

Lemma length_diff_bytes op x :
  is_u256 x → Z.of_nat (length (diff_bytes op x)) = diff_length x + 1.
Proof.
  intros Hx. unfold diff_bytes. cbn [length]. unfold minimal_be. rewrite length_be_bytes.
  rewrite diff_length_width by done. lia.
Qed.

Lemma overflowing_sub_cases a b :
  is_u256 a → is_u256 b →
  is_u256 (u_overflowing_sub a b).1
  ∧ (if (u_overflowing_sub a b).2 then a < b else (u_overflowing_sub a b).1 = a - b).
Proof.
  intros Ha Hb. rewrite u_overflowing_sub_spec by done. cbn [fst snd].
  split; [apply Z.mod_pos_bound; lia|].
  destruct (Z.ltb_spec a b); [done|]. apply Z.mod_small. unfold in_width in *. lia.
Qed.

(** A strategy that gives a length publishes that many bytes, from which the new value
    is read; one that gives none refuses and publishes nothing. *)
Lemma compress_spec strategy initial final :
  is_u256 initial → is_u256 final →
  match compression_length strategy initial final with
  | Some length =>
      ∃ bytes, (∀ s, compress strategy initial final s = (Val tt, published bytes s))
      ∧ Z.of_nat (List.length bytes) = length ∧ 1 ≤ length ≤ 33
      ∧ ∀ rest, read_diff initial (bytes ++ rest) = Some (final, rest)
  | None => ∀ s, compress strategy initial final s = (Err tt, s)
  end.
Proof.
  intros Hi Hf.
  assert (Hdiff : ∀ op x, is_u256 x → diff_length x =? 32 = false → 1 ≤ op ≤ 3 →
    match op with 1 => (initial + x) mod 2 ^ 256 | 2 => (initial - x) mod 2 ^ 256 | _ => x end = final →
    ∃ bytes, (∀ s, write_diff (E:=unit) (diff_length x) op x s = (Val tt, published bytes s))
      ∧ Z.of_nat (List.length bytes) = wrap 8 (diff_length x + 1) ∧ 1 ≤ wrap 8 (diff_length x + 1) ≤ 33
      ∧ ∀ rest, read_diff initial (bytes ++ rest) = Some (final, rest)).
  { intros op x Hx H32 Hop He. apply Z.eqb_neq in H32. pose proof (diff_length_bound x Hx).
    rewrite (wrap_small 8) by (unfold in_width; lia).
    exists (diff_bytes op x). rewrite length_diff_bytes by (done || lia).
    split_conj; try done; try lia; [intros s; by rewrite write_diff_published by (done || lia)|]. intros rest. by rewrite read_diff_published, He by (done || lia). }
  destruct strategy; cbn [compression_length compress].
  - exists (0 :: be_bytes 32 final). split_conj; try done.
    + intros s. unfold published, mbind, M_bind, pd_write, pd_report, modify. cbn [pd_written pd_reported].
      by rewrite <- !app_assoc.
    + intros rest. unfold read_diff. cbn [app].
      change (Z.land 0 7) with 0. cbv beta iota zeta.
      rewrite take_app_length', drop_app_length' by (by rewrite length_be_bytes).
      rewrite of_be_bytes_be_bytes. do 2 f_equal. by apply Z.mod_small.
  - destruct (overflowing_sub_cases final initial Hf Hi) as [Hr Hc].
    destruct (u_overflowing_sub final initial) as [r [|]]; cbn [fst snd orb] in *; [done|].
    destruct (diff_length r =? 32) eqn:H32; [done|]. apply Hdiff; try done.
    rewrite Hc. replace (initial + (final - initial)) with final by lia. by apply Z.mod_small.
  - destruct (overflowing_sub_cases initial final Hi Hf) as [Hr Hc].
    destruct (u_overflowing_sub initial final) as [r [|]]; cbn [fst snd orb] in *; [done|].
    destruct (diff_length r =? 32) eqn:H32; [done|]. apply Hdiff; try done.
    rewrite Hc. replace (initial - (initial - final)) with final by lia. by apply Z.mod_small.
  - destruct (diff_length final =? 32) eqn:H32; [done|]. by apply Hdiff.
Qed.

(** The strategy that is chosen has the length that is announced, and no strategy that
    applies has a smaller one. *)
Lemma optimal_strategy_spec initial final :
  ∃ strategy length,
    optimal_strategy initial final = Some strategy
    ∧ optimal_compression_length_u256 initial final = Some length
    ∧ compression_length strategy initial final = Some length
    ∧ ∀ strategy' length', compression_length strategy' initial final = Some length' → length ≤ length'.
Proof.
  unfold optimal_strategy, optimal_compression_length_u256, optimal_compression_length_u256_optional.
  assert (Hn : compression_length DNothing initial final = Some 33) by done. rewrite Hn.
  cbn [mbind option_bind strategies fold_left].
  destruct (compression_length DAdd initial final) as [a|] eqn:Ha,
    (compression_length DSub initial final) as [b|] eqn:Hb,
    (compression_length DTransform initial final) as [c|] eqn:Hc;
    repeat (rewrite ?Ha, ?Hb, ?Hc; cbv beta iota;
      match goal with |- context [if ?x <? ?y then _ else _] => destruct (Z.ltb_spec x y) end);
    rewrite ?Ha, ?Hb, ?Hc; cbn [fst]; eexists _, _; (split_conj; [done|done| |]).
  all: try (intros [| | |] l Hl; rewrite ?Hn, ?Ha, ?Hb, ?Hc in Hl; try done; try injection Hl as <-; lia).
  all: rewrite ?Hn, ?Ha, ?Hb, ?Hc; cbn; f_equal; lia.
Qed.

(** The bytes published for a change. *)
Lemma optimal_compression_published {E} initial final :
  is_u256 initial → is_u256 final →
  ∃ bytes,
    (∀ s, optimal_compression_u256 (E:=E) initial final s = (Val tt, published bytes s))
    ∧ optimal_compression_length_u256 initial final = Some (Z.of_nat (length bytes))
    ∧ 1 ≤ Z.of_nat (length bytes) ≤ 33
    ∧ ∀ rest, read_diff initial (bytes ++ rest) = Some (final, rest).
Proof.
  intros Hi Hf. destruct (optimal_strategy_spec initial final) as (st & l & Hs & Hl & Hc & _).
  pose proof (compress_spec st initial final Hi Hf) as Hw. rewrite Hc in Hw.
  destruct Hw as (bytes & Hw & Hlen & Hb & Hr). exists bytes. subst l.
  split; [intros s|done]. unfold optimal_compression_u256, mbind, M_bind. rewrite Hs. cbn [expect].
  unfold unwrap, mret, M_ret. by rewrite Hw.
Qed.

(** C36: publishing the change of a value never fails; the bytes published are exactly as
    many as the length that transactions are charged for, at most 33, and no strategy
    that applies to the change would take fewer; and whoever knows the old value and
    reads the bytes gets the new value and what follows them. *)
Theorem pubdata_diff_roundtrip {E} (initial final : Z) (s : Pubdata) :
  is_u256 initial → is_u256 final →
  ∃ bytes,
    optimal_compression_u256 (E:=E) initial final s = (Val tt, published bytes s)
    ∧ optimal_compression_length_u256 initial final = Some (Z.of_nat (length bytes))
    ∧ 1 ≤ Z.of_nat (length bytes) ≤ 33
    ∧ (∀ strategy length', compression_length strategy initial final = Some length' →
       Z.of_nat (length bytes) ≤ length')
    ∧ ∀ rest, read_diff initial (bytes ++ rest) = Some (final, rest).
Proof.
  intros Hi Hf. destruct (optimal_compression_published (E:=E) initial final Hi Hf) as (bytes & Hw & Hl & Hb & Hr).
  destruct (optimal_strategy_spec initial final) as (st & l & _ & Hl' & _ & Hmin).
  rewrite Hl in Hl'. injection Hl' as <-. by exists bytes.
Qed.
End Theorems.

Lemma pubdata_diff_roundtrip_witness :
  ∃ bytes,
    optimal_compression_u256 (H:=ruint_ref) (H0:=ruint_bits_ref) (E:=unit) 12 22 (mkPubdata [] [])
      = (Val tt, published bytes (mkPubdata [] []))
    ∧ read_diff 12 (bytes ++ [7]) = Some (22, [7]).
Proof.
  destruct (pubdata_diff_roundtrip (R:=ruint_ref) (RS:=ruint_ref_spec) (B:=ruint_bits_ref)
    (BS:=ruint_bits_ref_spec) (E:=unit) 12 22 (mkPubdata [] [])) as (bytes & Hw & _ & _ & _ & Hr);
    [done|done|].
  exists bytes. split; [exact Hw | apply Hr].
Defined.
