(* ===== verification/StorageCache.v ===== *)
(** * The storage cache

    Models [basic_system/src/system_implementation/flat_storage_model/storage_cache.rs],
    the cost model of [basic_system/src/system_implementation/system/mod.rs] and the keys
    of [zk_ee/src/common_structs/warm_storage_key.rs].  A slot that is not in the cache is
    asked from the oracle, on trust; what has been asked is checked against the state
    commitment at the end of the block (FlatStorage.v), with the list that
    [net_accesses_iter] gives.

    [Bytes32] values are 256-bit numbers, addresses 160-bit numbers, as in FlatStorage.v.
    The oracle records what it has answered, for the theorems. *)

From stdpp Require Import gmap sorting strings.
From S2P Require Import Prelude Resources U256 HistoryElement HistoryMap IoCommon FlatStorage Pubdata SystemInterface EvmConstants BootSystem.

(** ** Keys *)

#[global] Instance WarmStorageKey_eq_dec : EqDecision WarmStorageKey.
Proof. solve_decision. Defined.
#[global] Program Instance WarmStorageKey_countable : Countable WarmStorageKey :=
  inj_countable' (λ k, (sk_address k, sk_key k)) (λ p, mkStorageKey p.1 p.2) _.
Next Obligation. by intros [a k]. Qed.

(** The comparison of arrays. *)
Fixpoint list_compare (l k : list Z) : comparison :=
  match l, k with
  | [], [] => Eq
  | [], _ => Lt
  | _, [] => Gt
  | x :: l, y :: k => match x ?= y with Eq => list_compare l k | c => c end
  end.

(** [Ord::cmp]: the limbs of the addresses are compared, the least significant first. *)
Definition storage_key_cmp (self other : WarmStorageKey) : comparison :=
  match list_compare (to_limbs 3 (sk_address self)) (to_limbs 3 (sk_address other)) with
  | Eq => sk_key self ?= sk_key other
  | c => c
  end.

Definition storage_key_le (a b : WarmStorageKey) : Prop := storage_key_cmp a b ≠ Gt.
#[global] Instance storage_key_le_dec : RelDecision storage_key_le.
Proof. intros a b. unfold storage_key_le. destruct (storage_key_cmp a b); [left|left|right]; congruence. Defined.

#[global] Instance storage_key_order : KeyOrder WarmStorageKey := {| key_order := storage_key_le |}.

Definition lower_bound (subspace : Z) : WarmStorageKey := mkStorageKey subspace 0.
Definition upper_bound (subspace : Z) : WarmStorageKey := mkStorageKey subspace (umax 256).

(** [(Included(&lower_bound), Included(&upper_bound))] *)
Definition in_subspace (subspace : Z) (k : WarmStorageKey) : bool :=
  bool_decide (storage_key_le (lower_bound subspace) k) && bool_decide (storage_key_le k (upper_bound subspace)).

(** [address_into_special_storage_key], as numbers. *)
Definition address_into_special_storage_key (address : Z) : Z :=
  of_be_bytes (repeat 0 12 ++ be_bytes 20 address).

Definition ACCOUNT_PROPERTIES_STORAGE_ADDRESS : Z := of_limbs [0x8003; 0; 0].

(** ** The oracle *)

Record InitialStorageSlotData : Type := mkSlotData { sd_is_new : bool; sd_value : Z }.

(** What the host answers, on trust: the contents of a slot, and the words of a preimage. *)
Class IoOracle : Type := {
  Host : Type;
  initial_storage_slot_query : WarmStorageKey → M Host InternalError InitialStorageSlotData;
  preimage_query : Z → M Host InternalError (list Z)
}.

Record Oracle `{IoOracle} : Type := mkOracle {
  host : Host;
  slot_answers : list (WarmStorageKey * InitialStorageSlotData);
  preimage_answers : list (Z * list Z)
}.

(** What operations work on besides the storage: the caller's resources and the oracle. *)
Record Env `{IoOracle} : Type := mkEnv { env_res : Res; env_oracle : Oracle }.

Section Env.
Context `{IoOracle}.

Definition on_res {A E} (m : M Res E A) : M Env E A :=
  zoom env_res (λ r e, mkEnv _ r (env_oracle e)) m.

Definition query_slot (key : WarmStorageKey) : M Env SystemError InitialStorageSlotData := λ e,
  let o := env_oracle e in
  match initial_storage_slot_query key (host o) with
  | (Val d, h) => (Val d, mkEnv _ (env_res e)
      (mkOracle _ h ((key, d) :: slot_answers o) (preimage_answers o)))
  | (Err _, h) => (Err (LeafDefect (internal_error "Must get initial slot value from oracle")),
      mkEnv _ (env_res e) (mkOracle _ h (slot_answers o) (preimage_answers o)))
  | (Fault, h) => (Fault, mkEnv _ (env_res e) (mkOracle _ h (slot_answers o) (preimage_answers o)))
  end.
End Env.

(** ** Costs *)

Definition BIGINT_DELEGATION_COEFFICIENT : Z := 4.
Definition BLAKE_DELEGATION_COEFFICIENT : Z := 16.
Definition native_with_delegations (raw bigint blake : Z) : Z :=
  raw + bigint * BIGINT_DELEGATION_COEFFICIENT + blake * BLAKE_DELEGATION_COEFFICIENT.

Definition WARM_STORAGE_READ_NATIVE_COST : Z := 4000.
Definition COLD_EXISTING_STORAGE_READ_NATIVE_COST : Z := native_with_delegations 100000 0 1320.
Definition COLD_NEW_STORAGE_READ_NATIVE_COST : Z := 2 * COLD_EXISTING_STORAGE_READ_NATIVE_COST.
Definition COLD_EXISTING_STORAGE_WRITE_EXTRA_NATIVE_COST : Z := native_with_delegations 40000 0 660.
Definition COLD_NEW_STORAGE_WRITE_EXTRA_NATIVE_COST : Z := native_with_delegations 100000 0 1300.

(** [StorageAccessPolicy].  The arguments are those of the trait, in its order. *)
Class StorageAccessPolicy : Type := {
  charge_warm_storage_read : ExecutionEnvironmentType → bool → M Res SystemError unit;
  charge_cold_storage_read_extra : ExecutionEnvironmentType → bool → M Res SystemError unit;
  charge_storage_write_extra : ExecutionEnvironmentType → Z → Z → Z → bool → bool →
    M Res SystemError unit
}.

(** [EthereumLikeStorageAccessCostModel]. *)
Definition ethereum_charge_warm_storage_read (ee_type : ExecutionEnvironmentType) (is_access_list : bool)
    : M Res SystemError unit :=
  let ergs := match ee_type with
              | NoEE => if is_access_list then 1900 * ERGS_PER_GAS else 0
              | EVM => GAS_WARM_STORAGE_READ_COST * ERGS_PER_GAS
              end in
  charge (from_ergs_and_native (mkErgs ergs) (from_computational WARM_STORAGE_READ_NATIVE_COST)).

Definition ethereum_charge_cold_storage_read_extra (ee_type : ExecutionEnvironmentType) (is_new_slot : bool)
    : M Res SystemError unit :=
  let ergs := match ee_type with
              | NoEE => 0
              | EVM => (GAS_COLD_SLOAD_COST - GAS_WARM_STORAGE_READ_COST) * ERGS_PER_GAS
              end in
  let native := if is_new_slot then COLD_NEW_STORAGE_READ_NATIVE_COST
                else COLD_EXISTING_STORAGE_READ_NATIVE_COST in
  charge (from_ergs_and_native (mkErgs ergs) (from_computational native)).

Definition ethereum_charge_storage_write_extra (ee_type : ExecutionEnvironmentType)
    (initial_value current_value new_value : Z) (is_warm_write is_new_slot : bool) : M Res SystemError unit :=
  let ergs := match ee_type with
    | NoEE => 0
    | EVM =>
        let total_cost :=
          if new_value =? current_value then 0
          else if current_value =? initial_value then
            if initial_value =? 0 then GAS_SSTORE_SET_EXTRA else GAS_SSTORE_RESET_EXTRA
          else 0 in
        let total_cost := if is_warm_write then total_cost else total_cost + 100 in
        total_cost * ERGS_PER_GAS
    end in
  let native := if is_new_slot then COLD_NEW_STORAGE_WRITE_EXTRA_NATIVE_COST
                else COLD_EXISTING_STORAGE_WRITE_EXTRA_NATIVE_COST in
  charge (from_ergs_and_native (mkErgs ergs) (from_computational native)).

Definition EthereumLikeStorageAccessCostModel : StorageAccessPolicy := {|
  charge_warm_storage_read := ethereum_charge_warm_storage_read;
  charge_cold_storage_read_extra := ethereum_charge_cold_storage_read_extra;
  charge_storage_write_extra := ethereum_charge_storage_write_extra
|}.

(** ** The cache *)

(** [StorageElementMetadata]: the transaction a slot was last touched in. *)
Definition StorageElementMetadata : Type := option Z.
Definition considered_warm (self : StorageElementMetadata) (current_tx_id : Z) : bool :=
  bool_decide (self = Some current_tx_id).

Abbreviation SlotRecord := (CacheRecord Z StorageElementMetadata).

(** [GenericPubdataAwarePlainStorage], without the policy, which has no state. *)
Record PlainStorage : Type := mkStorage {
  cache : HistoryMap WarmStorageKey SlotRecord;
  current_tx_id : Z;
  evm_refunds_counter : HistoryCounter Z
}.

Record StorageSnapshotId : Type := mkStorageSnapshot {
  ssi_cache : nat;
  ssi_evm_refunds_counter : nat
}.

Definition set_cache (c : HistoryMap WarmStorageKey SlotRecord) (s : PlainStorage) : PlainStorage :=
  mkStorage c (current_tx_id s) (evm_refunds_counter s).
Definition set_refunds (c : HistoryCounter Z) (s : PlainStorage) : PlainStorage :=
  mkStorage (cache s) (current_tx_id s) c.

(** The errors of the map and of its callbacks. *)
Definition map_internal_error {E} (on_callback : E → InternalError) (e : HistoryMapError E) : InternalError :=
  match e with
  | RollbackBelowFrozen => internal_error "History map: rollback below frozen snapshot"
  | RollbackToNonExistent => internal_error "History map: rollback to non-existent snapshot"
  | CallbackError e => on_callback e
  end.
Definition map_system_error (e : HistoryMapError SystemError) : SystemError :=
  match e with
  | CallbackError e => e
  | e => LeafDefect (map_internal_error (λ _, internal_error "") e)
  end.

Section Storage.
Context `{Usize} `{IoOracle} `{StorageAccessPolicy}.

Abbreviation SM := (M (PlainStorage * Env) SystemError).

Definition get_cache (s : PlainStorage * Env) : HistoryMap WarmStorageKey SlotRecord := cache s.1.
Definition put_cache (c : HistoryMap WarmStorageKey SlotRecord) (s : PlainStorage * Env)
  : PlainStorage * Env := (set_cache c s.1, s.2).
Definition on_cache {A} (m : M (HistoryMap WarmStorageKey SlotRecord) (HistoryMapError SystemError) A) : SM A :=
  on_map get_cache put_cache map_system_error m.
Definition on_env {A} (m : M Env SystemError A) : SM A :=
  zoom snd (λ e s, (s.1, e)) m.
Definition charging (m : M Res SystemError unit) : SM unit := on_env (on_res m).

Definition new_from_parts : PlainStorage := mkStorage HistoryMap_new 0 hc_new.

Definition begin_new_tx : M PlainStorage InternalError unit :=
  on_map cache set_cache (map_internal_error id) HistoryMap.commit ;;
  modify (set_refunds hc_new).

Definition finish_tx : M PlainStorage InternalError unit :=
  modify (λ s, mkStorage (cache s) (wrap 32 (current_tx_id s + 1)) (evm_refunds_counter s)).

Definition start_frame : M PlainStorage InternalError StorageSnapshotId :=
  id ← on_map cache set_cache (map_internal_error id) HistoryMap.snapshot;
  counter ← gets evm_refunds_counter;
  let '(counter_id, counter) := hc_snapshot counter in
  modify (set_refunds counter) ;;
  mret (mkStorageSnapshot id counter_id).

Definition finish_frame_impl (rollback_handle : option StorageSnapshotId) : M PlainStorage InternalError unit :=
  match rollback_handle with
  | Some x =>
      modify (λ s, set_refunds (hc_rollback (ssi_evm_refunds_counter x) (evm_refunds_counter s)) s) ;;
      on_map cache set_cache (map_internal_error id) (HistoryMap.rollback (ssi_cache x))
  | None => mret tt
  end.

(** *** Slots *)

(** The callback of [get_or_insert]: a slot that is not in the cache yet. *)
Definition initialize_element (ee_type : ExecutionEnvironmentType) (key : WarmStorageKey) : SM SlotRecord :=
  data_from_oracle ← on_env (query_slot key);
  charging (charge_cold_storage_read_extra ee_type (sd_is_new data_from_oracle)) ;;
  let a := if sd_is_new data_from_oracle then Unset else Retrieved in
  when (sd_is_new data_from_oracle) (assert_that (sd_value data_from_oracle =? 0)) ;;
  mret (cr_new None (sd_value data_from_oracle) a).

(** [get_or_insert], with a callback that has effects; whether it was called. *)
Definition get_or_initialize (ee_type : ExecutionEnvironmentType) (key : WarmStorageKey) : SM bool :=
  entry ← gets (λ s, btree (get_cache s) !! key);
  match entry with
  | Some _ => mret false
  | None =>
      v ← initialize_element ee_type key;
      on_cache (get_or_insert key (inr v)) ;;
      mret true
  end.

Definition current_record (key : WarmStorageKey) : SM SlotRecord :=
  r ← on_cache (HistoryMap.current key);
  expect r.

(** The slot is in the cache and warm; whether it was warm before. *)
Definition materialize_element (ee_type : ExecutionEnvironmentType) (key : WarmStorageKey)
    (is_access_list : bool) : SM bool :=
  charging (charge_warm_storage_read ee_type is_access_list) ;;
  initialized_element ← get_or_initialize ee_type key;
  current_tx_id ← gets (λ s, current_tx_id s.1);
  x ← current_record key;
  let is_warm_read := considered_warm (metadata x) current_tx_id in
  when (negb is_warm_read) (
    when (negb initialized_element) (
      let is_new_storage_slot := bool_decide (appearance x = Unset) in
      charging (charge_cold_storage_read_extra ee_type is_new_storage_slot)) ;;
    on_cache (update key (update_metadata (λ _, (None, Some current_tx_id))))) ;;
  mret is_warm_read.

Definition apply_read_impl (ee_type : ExecutionEnvironmentType) (key : WarmStorageKey)
    (is_access_list : bool) : SM Z :=
  materialize_element ee_type key is_access_list ;;
  x ← current_record key;
  mret (cr_value x).

(** The old value, and that at the start of the transaction. *)
Definition apply_write_impl (ee_type : ExecutionEnvironmentType) (key : WarmStorageKey) (new_value : Z)
    : SM (Z * Z) :=
  is_warm_read ← materialize_element ee_type key false;
  x ← current_record key;
  committed ← on_cache (HistoryMap.committed_value key);
  committed ← expect committed;
  let val_at_tx_start := cr_value committed in
  charging (charge_storage_write_extra ee_type val_at_tx_start (cr_value x) new_value
              is_warm_read (bool_decide (appearance x = Unset))) ;;
  on_cache (update key (cr_update (λ _ md, (None, (new_value, md))))) ;;
  mret (cr_value x, val_at_tx_start).

(** The records of an address are set to the default and to [Unset]. *)
Definition clear_state_impl (address : Z) : M PlainStorage SystemError unit :=
  for_each_range cache (in_subspace address) (λ key,
    on_map cache set_cache map_system_error (update key (λ r,
      let '(e, r) := cr_update (λ _ md, (None, (0, md))) r in (e, cr_unset r)))).

(** *** The interface *)

Definition read (ee_type : ExecutionEnvironmentType) (address key : Z) : SM Z :=
  apply_read_impl ee_type (mkStorageKey address key) false.

Definition touch (ee_type : ExecutionEnvironmentType) (address key : Z) (is_access_list : bool) : SM unit :=
  apply_read_impl ee_type (mkStorageKey address key) is_access_list ;;
  mret tt.

(** The refunds of EIP-3529, given the old and new value and that at the start of the
    transaction; [u32] operations. *)
Definition refund_of_write (old_value new_value val_at_tx_start gas_refunds : Z) : Z :=
  if old_value =? val_at_tx_start then
    if negb (val_at_tx_start =? 0) && (new_value =? 0) then wrap 32 (gas_refunds + 4800)
    else gas_refunds
  else
    let gas_refunds :=
      if negb (val_at_tx_start =? 0) then
        if old_value =? 0 then wrap 32 (gas_refunds - 4800)
        else if new_value =? 0 then wrap 32 (gas_refunds + 4800)
        else gas_refunds
      else gas_refunds in
    if new_value =? val_at_tx_start then
      if val_at_tx_start =? 0 then wrap 32 (gas_refunds + (20000 - 100))
      else wrap 32 (gas_refunds + (5000 - 2100 - 100))
    else gas_refunds.

Definition refund_counter (s : PlainStorage) : Z := default 0 (hc_value (evm_refunds_counter s)).

Definition set_refund_counter (value : Z) : SM unit :=
  counter ← gets (λ s, evm_refunds_counter s.1);
  counter ← expect (hc_update value counter);
  modify (λ s, (set_refunds counter s.1, s.2)).

Definition write (ee_type : ExecutionEnvironmentType) (address key new_value : Z) : SM Z :=
  '(old_value, val_at_tx_start) ← apply_write_impl ee_type (mkStorageKey address key) new_value;
  when (bool_decide (ee_type = EVM) && negb (old_value =? new_value)) (
    gas_refunds ← gets (λ s, refund_counter s.1);
    set_refund_counter (refund_of_write old_value new_value val_at_tx_start gas_refunds)) ;;
  mret old_value.

(** The one special property is the hash of the account data. *)
Definition special_key (address : Z) : WarmStorageKey :=
  mkStorageKey ACCOUNT_PROPERTIES_STORAGE_ADDRESS (address_into_special_storage_key address).

Definition read_special_account_property (ee_type : ExecutionEnvironmentType) (address : Z) : SM Z :=
  apply_read_impl ee_type (special_key address) false.

Definition write_special_account_property (ee_type : ExecutionEnvironmentType) (address new_value : Z) : SM Z :=
  '(old_value, _) ← apply_write_impl ee_type (special_key address) new_value;
  mret old_value.

(** *** What has been accessed and changed *)

Definition as_storage_types (item : ItemRef WarmStorageKey SlotRecord) : WarmStorageKey * WarmStorageValue :=
  (item_key item,
   {| current_value := cr_value (item_current item);
      is_new_storage_slot := bool_decide (appearance (item_initial item) = Unset);
      initial_value := cr_value (item_initial item);
      initial_value_used := true |}).

Definition iter_as_storage_types {E} : M PlainStorage E (list (WarmStorageKey * WarmStorageValue)) :=
  items ← iter cache;
  mret (map as_storage_types items).

Definition net_accesses_iter {E} : M PlainStorage E (list (WarmStorageKey * WarmStorageValue)) :=
  iter_as_storage_types.

Definition net_diffs_iter {E} : M PlainStorage E (list (WarmStorageKey * WarmStorageValue)) :=
  l ← iter_as_storage_types;
  mret (filter (λ x, negb (current_value x.2 =? initial_value x.2) = true) l).
End Storage.

Section Pubdata.
Context `{Ruint} `{RuintBits}.

(** The loop of [calculate_pubdata_used_by_tx], with the elements seen so far. *)
Definition pubdata_of_element (acc : gset WarmStorageKey * option Z)
    (element_history : ItemRef WarmStorageKey SlotRecord) : gset WarmStorageKey * option Z :=
  let '(visited_elements, pubdata_used) := acc in
  let element_key := item_key element_history in
  if sk_address element_key =? ACCOUNT_PROPERTIES_STORAGE_ADDRESS then acc
  else if bool_decide (element_key ∈ visited_elements) then acc
  else
    let visited_elements := {[element_key]} ∪ visited_elements in
    let current_value := cr_value (item_current element_history) in
    let initial_value := cr_value (item_initial element_history) in
    let at_tx_start_value := cr_value (item_committed element_history) in
    if current_value =? initial_value then (visited_elements, pubdata_used)
    else if negb (at_tx_start_value =? current_value) then
      (visited_elements,
       pubdata_used ← pubdata_used;
       length ← optimal_compression_length at_tx_start_value current_value;
       Some (wrap 32 (wrap 32 (pubdata_used + 32) + length)))
    else (visited_elements, pubdata_used).

Definition storage_pubdata_used_by_tx {E} : M PlainStorage E Z :=
  items ← iter_altered_since_commit cache;
  expect (foldl pubdata_of_element (∅, Some 0) items).2.
End Pubdata.
