(* ===== verification/PreimageCache.v ===== *)
(** * The cache of preimages

    Models [basic_system/src/system_implementation/flat_storage_model/preimage_cache.rs]
    and [zk_ee/src/common_structs/new_preimages_publication_storage.rs]: account data and
    bytecodes are in the state under their hashes only; what a hash stands for comes from
    the oracle and, when the run is proved, is hashed again before it is believed. *)

From stdpp Require Import gmap sorting strings.
From S2P Require Import Prelude Resources U256 HistoryElement HistoryMap IoCommon FlatStorage Pubdata SystemInterface EvmConstants BootSystem StorageCache.

(** [PROOF_ENV], a constant of the build. *)
Class ProofEnv : Type := PROOF_ENV : bool.

Inductive PreimageType : Type := Bytecode | AccountData.

(** ** Publication *)

(** [PreimagesPublicationStorageValue] and its [Elem]. *)
Record Elem : Type := mkElem {
  preimage_type : PreimageType;
  num_uses : Z;
  publication_net_bytes : Z
}.

#[global] Instance hash_order : KeyOrder Z := {| key_order := Z.le |}.

Abbreviation PublicationStorage := (HistoryMap Z (CacheRecord Elem unit)).

Section Publication.
Context `{Usize}.

Definition mark_use (self : Elem) : option InternalError * Elem :=
  match checked_add usize_bits (num_uses self) 1 with
  | Some n => (None, mkElem (preimage_type self) n (publication_net_bytes self))
  | None => (Some (internal_error "Overflow in num_uses"), self)
  end.

(** The callback asserts that a preimage that was used before has the same length. *)
Definition add_preimage (hash preimage_publication_byte_len : Z) (t : PreimageType)
    : M PublicationStorage (HistoryMapError InternalError) unit :=
  get_or_insert hash (inr (cr_new tt (mkElem t 0 preimage_publication_byte_len) Unset)) ;;
  x ← HistoryMap.current hash;
  x ← expect x;
  assert_that (implb (1 <? num_uses (cr_value x))
                 (publication_net_bytes (cr_value x) =? preimage_publication_byte_len)) ;;
  update hash (cr_update (λ elem md, let '(e, elem) := mark_use elem in (e, (elem, md)))).
End Publication.

(** ** The cache *)

Record PreimageRequest : Type := mkRequest {
  pr_hash : Z;
  expected_preimage_len_in_bytes : Z;
  pr_type : PreimageType
}.

(** [BytecodeAndAccountDataPreimagesStorage]. *)
Record Preimages : Type := mkPreimages {
  preimages : gmap Z (list Z);
  publication_storage : PublicationStorage
}.

Definition set_publication (p : PublicationStorage) (s : Preimages) : Preimages :=
  mkPreimages (preimages s) p.

(** [self.storage.entry(hash).or_insert(preimage)] *)
Definition or_insert (hash : Z) (preimage : list Z) (s : Preimages) : Preimages :=
  match preimages s !! hash with
  | Some _ => s
  | None => mkPreimages (<[hash:=preimage]> (preimages s)) (publication_storage s)
  end.

Definition preimages_new : Preimages := mkPreimages ∅ HistoryMap_new.

Definition PREIMAGE_CACHE_GET_NATIVE_COST : Z := 500.
Definition PREIMAGE_CACHE_SET_NATIVE_COST : Z := 500.
Definition BLAKE2S_BASE_NATIVE_COST : Z := 800.
Definition BLAKE2S_ROUND_NATIVE_COST : Z := 340.
Definition BLAKE2S_CHUNK_SIZE : Z := 64.

Definition div_ceil (a b : Z) : Z := (a + b - 1) / b.

Definition blake2s_native_cost (len : Z) : Z :=
  let num_rounds := div_ceil len BLAKE2S_CHUNK_SIZE in
  saturating_add 64 (saturating_mul 64 num_rounds BLAKE2S_ROUND_NATIVE_COST) BLAKE2S_BASE_NATIVE_COST.

(** [num_usize_words_for_u8_capacity] *)
Definition words_for_bytes `{Usize} (u8_capacity : Z) : Z :=
  let num_words := next_multiple_of u8_capacity (usize_bits / 8) / (usize_bits / 8) in
  next_multiple_of num_words 2.

(** [UsizeAlignedByteBox::from_usize_iterator_in], as bytes. *)
Definition bytes_of_words `{Usize} (words : list Z) : list Z :=
  concat (map (le_bytes (Z.to_nat (usize_bits / 8))) words).

Section Preimages.
Context `{Usize} `{Blake2s} `{IoOracle} `{ProofEnv}.

Abbreviation PM := (M (Preimages * Env) SystemError).

Definition on_publication {A} (m : M PublicationStorage (HistoryMapError InternalError) A) : PM A :=
  on_map (publication_storage ∘ fst) (λ p s, (set_publication p s.1, s.2))
    (LeafDefect ∘ map_internal_error id) m.
Definition pc_charge (m : M Res SystemError unit) : PM unit := zoom snd (λ e s, (s.1, e)) (on_res m).

(** [.expect("must make an iterator for preimage")] *)
Definition query_preimage (hash : Z) : PM (list Z) := λ s,
  let o := env_oracle s.2 in
  match preimage_query hash (host o) with
  | (Val words, h) => (Val words, (s.1, mkEnv _ (env_res s.2)
      (mkOracle _ h (slot_answers o) ((hash, words) :: preimage_answers o))))
  | (_, h) => (Fault, (s.1, mkEnv _ (env_res s.2)
      (mkOracle _ h (slot_answers o) (preimage_answers o))))
  end.

(** The preimages and the kinds of those that are to be published. *)
Definition report_new_preimages {E} : M Preimages E (list (Z * list Z * PreimageType)) :=
  items ← iter publication_storage;
  stored ← gets preimages;
  map_each (λ x, preimage ← expect (stored !! item_key x);
                 mret (item_key x, preimage, preimage_type (cr_value (item_current x)))) items.

Definition charge_decommitment_native_cost (preimage_len : Z) : M Res SystemError unit :=
  let native_cost := saturating_add 64 PREIMAGE_CACHE_GET_NATIVE_COST (blake2s_native_cost preimage_len) in
  charge (from_native (from_computational native_cost)).

(** A preimage that is not in the cache.  [debug_assert!] does nothing in the release
    profile. *)
Definition fetch_preimage (t : PreimageType) (hash expected_preimage_len_in_bytes : Z) : PM (list Z) :=
  it ← query_preimage hash;
  if words_for_bytes expected_preimage_len_in_bytes <? Z.of_nat (length it) then
    throw (LeafDefect (internal_error "Iterator length exceeds expected preimage length"))
  else
    let buffered := bytes_of_words it in
    assert_that (expected_preimage_len_in_bytes <=? Z.of_nat (length buffered)) ;;
    let buffered := take (Z.to_nat expected_preimage_len_in_bytes) buffered in
    (if PROOF_ENV && negb (digest buffered =? hash) then
       throw (LeafDefect (internal_error
         (match t with AccountData => "Account hash mismatch" | Bytecode => "Bytecode hash mismatch" end)))
     else mret tt) ;;
    modify (λ s, (or_insert hash buffered s.1, s.2)) ;;
    inserted ← gets (λ s, preimages s.1 !! hash);
    expect inserted.

Definition expose_preimage (t : PreimageType) (hash expected_preimage_len_in_bytes : Z) : PM (list Z) :=
  if hash =? 0 then mret []
  else
    pc_charge (charge_decommitment_native_cost expected_preimage_len_in_bytes) ;;
    cached ← gets (λ s, preimages s.1 !! hash);
    match cached with
    | Some cached => mret cached
    | None => fetch_preimage t hash expected_preimage_len_in_bytes
    end.

Definition insert_verified_preimage (t : PreimageType) (hash : Z) (preimage : list Z) : PM (list Z) :=
  on_publication (add_preimage hash (Z.of_nat (length preimage)) t) ;;
  modify (λ s, (or_insert hash preimage s.1, s.2)) ;;
  inserted ← gets (λ s, preimages s.1 !! hash);
  expect inserted.

Definition get_preimage (request : PreimageRequest) : PM (list Z) :=
  expose_preimage (pr_type request) (pr_hash request) (expected_preimage_len_in_bytes request).

Definition record_preimage (request : PreimageRequest) (preimage : list (list Z)) : PM (list Z) :=
  pc_charge (charge (from_native (from_computational PREIMAGE_CACHE_SET_NATIVE_COST))) ;;
  let boxed_data := concat preimage in
  assert_that (expected_preimage_len_in_bytes request =? wrap 32 (Z.of_nat (length boxed_data))) ;;
  insert_verified_preimage (pr_type request) (pr_hash request) boxed_data.

Definition preimages_begin_new_tx : M Preimages InternalError unit :=
  on_map publication_storage set_publication (map_internal_error id) HistoryMap.commit.
Definition preimages_start_frame : M Preimages InternalError nat :=
  on_map publication_storage set_publication (map_internal_error id) HistoryMap.snapshot.
Definition preimages_finish_frame (rollback_handle : option nat) : M Preimages InternalError unit :=
  match rollback_handle with
  | Some x => on_map publication_storage set_publication (map_internal_error id) (HistoryMap.rollback x)
  | None => mret tt
  end.
End Preimages.
