(* ===== verification/AccountEntry.v ===== *)
(** * Account properties

    Models [basic_system/src/system_implementation/flat_storage_model/
    account_cache_entry.rs]: the packed versioning data, the 124-byte encoding that is
    hashed into the state, and the compressed diffs that are published.  The theorems are in
    AccountTheorems.v. *)

From stdpp Require Import gmap sorting strings.
From S2P Require Import Prelude Resources U256 Rlp HistoryElement HistoryMap IoCommon FlatStorage Pubdata SystemInterface EvmConstants BootSystem StorageCache PreimageCache.

(** ** [VersioningData] *)

Definition DEFAULT_ADDRESS_SPECIFIC_IMMUTABLE_DATA_VERSION : Z := 1.
Definition DEFAULT_DELEGATED_VERSION : Z := 2.

Section Versioning.
(** The constants of the type. *)
Variables DEPLOYED DELEGATED : Z.

Definition empty_deployed : Z := Z.shiftl DEPLOYED 56.
Definition empty_non_deployed : Z := 0.
Definition is_deployed (self : Z) : bool := wrap 8 (Z.shiftr self 56) =? DEPLOYED.
Definition set_as_deployed (self : Z) : Z :=
  Z.lor (Z.land self 0x00ffffffffffffff) (Z.shiftl DEPLOYED 56).
Definition is_delegated (self : Z) : bool := wrap 8 (Z.shiftr self 56) =? DELEGATED.
Definition set_as_delegated (self : Z) : Z :=
  Z.lor (Z.land self 0x00ffffffffffffff) (Z.shiftl DELEGATED 56).
Definition unset_deployment_status (self : Z) : Z := Z.land self 0x00ffffffffffffff.
Definition ee_version (self : Z) : Z := wrap 8 (Z.shiftr self 48).
Definition set_ee_version (value self : Z) : Z :=
  Z.lor (Z.land self 0xff00ffffffffffff) (Z.shiftl value 48).
Definition code_version (self : Z) : Z := wrap 8 (Z.shiftr self 40).
Definition set_code_version (value self : Z) : Z :=
  Z.lor (Z.land self 0xffff00ffffffffff) (Z.shiftl value 40).
Definition system_aux_bitmask (self : Z) : Z := wrap 8 (Z.shiftr self 32).
Definition set_system_aux_bitmask (value self : Z) : Z :=
  Z.lor (Z.land self 0xffffff00ffffffff) (Z.shiftl value 32).
Definition ee_aux_bitmask (self : Z) : Z := wrap 8 (Z.shiftr self 24).
Definition set_ee_aux_bitmask (value self : Z) : Z :=
  Z.lor (Z.land self 0xffffffff00ffffff) (Z.shiftl value 24).
End Versioning.

(** ** The account *)

Record AccountPropertiesMetadata : Type := mkAccountMetadata {
  deployed_in_tx : option Z;
  last_touched_in_tx : option Z;
  not_publish_bytecode : bool;
  not_compress_balance : bool
}.

Definition default_account_metadata : AccountPropertiesMetadata := mkAccountMetadata None None false false.

Definition account_considered_warm (self : AccountPropertiesMetadata) (current_tx_number : Z) : bool :=
  bool_decide (last_touched_in_tx self = Some current_tx_number).

Record AccountProperties : Type := mkAccount {
  versioning_data : Z;
  ap_nonce : Z;
  ap_balance : Z;
  bytecode_hash : Z;
  unpadded_code_len : Z;
  artifacts_len : Z;
  observable_bytecode_hash : Z;
  observable_bytecode_len : Z
}.
#[global] Instance AccountProperties_eq_dec : EqDecision AccountProperties.
Proof. solve_decision. Defined.

Definition bytecode_padding_len (deployed_len : Z) : Z :=
  let word := BYTECODE_ALIGNMENT in
  let rem := deployed_len mod word in
  if rem =? 0 then 0 else word - rem.

Definition TRIVIAL_VALUE : AccountProperties := mkAccount empty_non_deployed 0 0 0 0 0 0 0.

Definition full_bytecode_len (self : AccountProperties) : Z :=
  let padding := bytecode_padding_len (unpadded_code_len self) in
  wrap 32 (wrap 32 (unpadded_code_len self + wrap 32 padding) + artifacts_len self).

Definition ENCODED_SIZE : nat := 124.

(** [buffer[start..end].copy_from_slice(bytes)], for the fields in turn. *)
Definition encoding (self : AccountProperties) : list Z :=
  foldl (λ buffer '(start, bytes), splice buffer start bytes) (repeat 0 ENCODED_SIZE)
    [(0, be_bytes 8 (versioning_data self));
     (8, be_bytes 8 (ap_nonce self));
     (16, be_bytes 32 (ap_balance self));
     (48, be_bytes 32 (bytecode_hash self));
     (80, be_bytes 4 (unpadded_code_len self));
     (84, be_bytes 4 (artifacts_len self));
     (88, be_bytes 32 (observable_bytecode_hash self));
     (120, be_bytes 4 (observable_bytecode_len self))].

(** [&input[start..end]], of an array of 124 bytes. *)
Definition field_at (input : list Z) (start end_ : nat) : Z :=
  of_be_bytes (take (end_ - start) (drop start input)).

Definition decode (input : list Z) : AccountProperties := {|
  versioning_data := field_at input 0 8;
  ap_nonce := field_at input 8 16;
  ap_balance := field_at input 16 48;
  bytecode_hash := field_at input 48 80;
  unpadded_code_len := field_at input 80 84;
  artifacts_len := field_at input 84 88;
  observable_bytecode_hash := field_at input 88 120;
  observable_bytecode_len := field_at input 120 124
|}.

Section Account.
Context `{Ruint} `{RuintBits} `{Blake2s}.

Definition compute_hash (self : AccountProperties) : Z :=
  digest (be_bytes 8 (versioning_data self) ++ be_bytes 8 (ap_nonce self)
    ++ be_bytes 32 (ap_balance self) ++ be_bytes 32 (bytecode_hash self)
    ++ be_bytes 4 (unpadded_code_len self) ++ be_bytes 4 (artifacts_len self)
    ++ be_bytes 32 (observable_bytecode_hash self) ++ be_bytes 4 (observable_bytecode_len self)).

(** *** Diffs *)

Definition full_diff (initial final : AccountProperties) : bool :=
  negb (versioning_data initial =? versioning_data final)
  || negb (bytecode_hash initial =? bytecode_hash final)
  || negb (unpadded_code_len initial =? unpadded_code_len final)
  || negb (artifacts_len initial =? artifacts_len final)
  || negb (observable_bytecode_len initial =? observable_bytecode_len final)
  || negb (observable_bytecode_hash initial =? observable_bytecode_hash final).

Definition same_values_error : InternalError :=
  internal_error "Account properties diff compression shouldn't be called for same values".

(** [u32] sums.  The inner lengths are those of [pubdata_compression.rs]; [None] there
    would be a panic. *)
Definition diff_compression_length (initial final : AccountProperties)
    (not_publish_bytecode not_compress_balance : bool) : outcome InternalError Z :=
  match optimal_compression_length_u256 (ap_nonce initial) (ap_nonce final),
        optimal_compression_length_u256_optional (ap_balance initial) (ap_balance final)
          not_compress_balance with
  | Some nonce_diff, Some balance_diff =>
      if full_diff initial final then
        Val (if not_publish_bytecode
             then wrap 32 (1 + 8 + nonce_diff + balance_diff + 32 + 4 + 4)
             else wrap 32 (1 + 8 + nonce_diff + balance_diff + 4 + 4 + full_bytecode_len final + 4))
      else if (ap_nonce initial =? ap_nonce final) && (ap_balance initial =? ap_balance final) then
        Err same_values_error
      else
        Val (wrap 32 (1
          + (if negb (ap_nonce initial =? ap_nonce final) then nonce_diff else 0)
          + (if negb (ap_balance initial =? ap_balance final) || not_compress_balance
             then balance_diff else 0)))
  | _, _ => Fault
  end.
End Account.

(** [dst.write(bytes); result_keeper.pubdata(bytes)] *)
Definition publish {E} (bytes : list Z) : M Pubdata E unit := pd_write bytes ;; pd_report bytes.

Section Diff.
Context `{Ruint} `{RuintBits} `{Usize} `{Blake2s} `{IoOracle} `{ProofEnv}.

(** The writers, the preimages and the oracle. *)
Abbreviation DM := (M (Pubdata * (Preimages * Env)) InternalError).
Definition on_pubdata {A} (m : M Pubdata InternalError A) : DM A := zoom fst (λ p s, (p, s.2)) m.

(** The errors of [get_preimage] with resources that are meant not to run out. *)
Definition infinite_error (e : SystemError) : InternalError :=
  match e with
  | LeafRuntime OutOfErgs => internal_error "Out of ergs on infinite ergs"
  | LeafRuntime (FatalRuntime _) => internal_error "Out of native on infinite"
  | LeafDefect i => i
  end.

(** [f(&mut resources)], with resources of one's own and the same oracle; what is left
    of them is returned. *)
Definition with_resources {S E A} (resources : Res) (m : M (S * Env) E A) : M (S * Env) E (A * Res) := λ s,
  let '(o, s') := m (s.1, mkEnv _ resources (env_oracle s.2)) in
  let s'' := (s'.1, mkEnv _ (env_res s.2) (env_oracle s'.2)) in
  match o with
  | Val a => (Val (a, env_res s'.2), s'')
  | Err e => (Err e, s'')
  | Fault => (Fault, s'')
  end.

(** [let mut resources = R::FORMAL_INFINITE; f(&mut resources)] *)
Definition with_formal_infinite {S E A} (m : M (S * Env) E A) : M (S * Env) E A :=
  '(a, _) ← with_resources FORMAL_INFINITE m; mret a.

Definition published_bytecode (final : AccountProperties) : DM (list Z) :=
  let request := mkRequest (bytecode_hash final) (full_bytecode_len final) Bytecode in
  zoom snd (λ p s, (s.1, p)) (map_err infinite_error (with_formal_infinite (get_preimage request))).

Definition diff_compression (initial final : AccountProperties) (not_publish_bytecode : bool) : DM unit :=
  if full_diff initial final then
    let metadata_byte := if not_publish_bytecode then 0x24 else 0x04 in
    on_pubdata (publish [metadata_byte]) ;;
    on_pubdata (publish (be_bytes 8 (versioning_data final))) ;;
    on_pubdata (optimal_compression_u256 (ap_nonce initial) (ap_nonce final)) ;;
    on_pubdata (optimal_compression_u256 (ap_balance initial) (ap_balance final)) ;;
    (if not_publish_bytecode then on_pubdata (publish (be_bytes 32 (bytecode_hash final)))
     else
       on_pubdata (publish (be_bytes 4 (unpadded_code_len final))) ;;
       on_pubdata (publish (be_bytes 4 (artifacts_len final))) ;;
       bytecode ← published_bytecode final;
       on_pubdata (publish bytecode)) ;;
    on_pubdata (publish (be_bytes 4 (observable_bytecode_len final)))
  else if (ap_nonce initial =? ap_nonce final) && (ap_balance initial =? ap_balance final) then
    throw same_values_error
  else
    let metadata_byte := 4 in
    let metadata_byte := if negb (ap_nonce initial =? ap_nonce final)
                         then Z.lor metadata_byte (Z.shiftl 1 3) else metadata_byte in
    let metadata_byte := if negb (ap_balance initial =? ap_balance final)
                         then Z.lor metadata_byte (Z.shiftl 2 3) else metadata_byte in
    on_pubdata (publish [metadata_byte]) ;;
    when (negb (ap_nonce initial =? ap_nonce final))
      (on_pubdata (optimal_compression_u256 (ap_nonce initial) (ap_nonce final))) ;;
    when (negb (ap_balance initial =? ap_balance final))
      (on_pubdata (optimal_compression_u256 (ap_balance initial) (ap_balance final))).
End Diff.
