(* ===== verification/AccountTheorems.v ===== *)
(** * Account properties: theorems

    The encoding of an account is read back and is what is hashed, so that the hash in
    the state stands for the account; and whoever knows the old account reads the new one
    from a published diff, which has the length that is charged for, but for accounts
    whose code is not published. *)

From stdpp Require Import gmap sorting strings.
From S2P Require Import Prelude Resources U256 Rlp HistoryElement HistoryMap IoCommon FlatStorage Pubdata SystemInterface EvmConstants BootSystem StorageCache PreimageCache AccountEntry.

(** The fields have their types. *)
Record account_wf (a : AccountProperties) : Prop := {
  wf_versioning : in_width 64 (versioning_data a);
  wf_nonce : in_width 64 (ap_nonce a);
  wf_balance : is_u256 (ap_balance a);
  wf_bytecode_hash : is_u256 (bytecode_hash a);
  wf_unpadded : in_width 32 (unpadded_code_len a);
  wf_artifacts : in_width 32 (artifacts_len a);
  wf_observable_hash : is_u256 (observable_bytecode_hash a);
  wf_observable_len : in_width 32 (observable_bytecode_len a)
}.

(** ** Encoding and hash *)

Lemma splice_fill (pre bytes : list Z) k :
  splice (pre ++ repeat 0 (length bytes + k)) (Z.of_nat (length pre)) bytes = (pre ++ bytes) ++ repeat 0 k.
Proof.
  unfold splice. rewrite Nat2Z.id, take_app_length, <- app_assoc. do 2 f_equal.
  rewrite drop_app_ge, repeat_app, drop_app_ge by (rewrite ?repeat_length; lia).
  rewrite repeat_length. replace (_ - _ - _)%nat with 0%nat by lia. done.
Qed.

Lemma encoding_fields self :
  encoding self = be_bytes 8 (versioning_data self) ++ be_bytes 8 (ap_nonce self)
    ++ be_bytes 32 (ap_balance self) ++ be_bytes 32 (bytecode_hash self)
    ++ be_bytes 4 (unpadded_code_len self) ++ be_bytes 4 (artifacts_len self)
    ++ be_bytes 32 (observable_bytecode_hash self) ++ be_bytes 4 (observable_bytecode_len self).
Proof.
  unfold encoding, ENCODED_SIZE. cbn [foldl].
  assert (Hs : ∀ pre bytes n k, n = Z.of_nat (length pre) → ∀ m, m = (length bytes + k)%nat →
    splice (pre ++ repeat 0 m) n bytes = (pre ++ bytes) ++ repeat 0 k).
  { intros pre bytes n k -> m ->. apply splice_fill. }
  change (repeat 0 124) with ([] ++ repeat 0 124).
  rewrite (Hs [] _ 0 116%nat) by (rewrite ?length_be_bytes; done).
  rewrite (Hs _ _ 8 108%nat) by (rewrite ?length_app, ?length_be_bytes; done).
  rewrite (Hs _ _ 16 76%nat) by (rewrite ?length_app, ?length_be_bytes; done).
  rewrite (Hs _ _ 48 44%nat) by (rewrite ?length_app, ?length_be_bytes; done).
  rewrite (Hs _ _ 80 40%nat) by (rewrite ?length_app, ?length_be_bytes; done).
  rewrite (Hs _ _ 84 36%nat) by (rewrite ?length_app, ?length_be_bytes; done).
  rewrite (Hs _ _ 88 4%nat) by (rewrite ?length_app, ?length_be_bytes; done).
  rewrite (Hs _ _ 120 0%nat) by (rewrite ?length_app, ?length_be_bytes; done).
  cbn [repeat app]. by rewrite app_nil_r, <- !app_assoc.
Qed.

(** Hashing without copying is hashing the encoding. *)
Lemma compute_hash_encoding `{Blake2s} self : compute_hash self = digest (encoding self).
Proof. by rewrite encoding_fields. Qed.


Lemma field_skip n z post a b :
  (n ≤ a ≤ b)%nat → field_at (be_bytes n z ++ post) a b = field_at post (a - n) (b - n).
Proof.
  intros Hn. unfold field_at. rewrite drop_app_ge by (rewrite length_be_bytes; lia). rewrite length_be_bytes.
  by replace (b - n - (a - n))%nat with (b - a)%nat by lia.
Qed.

Lemma field_here n z post : 0 ≤ z < 2 ^ (8 * Z.of_nat n) → field_at (be_bytes n z ++ post) 0 n = z.
Proof.
  intros Hz. unfold field_at. rewrite Nat.sub_0_r, drop_0, take_app_length' by (by rewrite length_be_bytes).
  rewrite of_be_bytes_be_bytes. by apply Z.mod_small.
Qed.

Lemma decode_encoding a : account_wf a → decode (encoding a) = a.
Proof.
  intros []. rewrite encoding_fields. rewrite <- (app_nil_r (be_bytes 4 (observable_bytecode_len a))).
  destruct a as [v n b h u l o k]. cbn [versioning_data ap_nonce ap_balance bytecode_hash unpadded_code_len artifacts_len
    observable_bytecode_hash observable_bytecode_len] in *.
  unfold decode. f_equal; repeat (rewrite field_skip by lia; cbn [Nat.sub]); by apply field_here.
Qed.

Lemma field_bytes input a b n : Forall is_u8 input → (a ≤ b ≤ length input)%nat → (n = b - a)%nat →
  be_bytes n (field_at input a b) = take n (drop a input).
Proof.
  intros Hu Hl ->. unfold field_at. rewrite <- (be_bytes_of_be_bytes (take (b - a) (drop a input))) at 2
    by (by apply Forall_take, Forall_drop).
  by rewrite length_take, length_drop, Nat.min_l by lia.
Qed.

Lemma field_range input a b : Forall is_u8 input → (a ≤ b ≤ length input)%nat →
  0 ≤ field_at input a b < 2 ^ (8 * Z.of_nat (b - a)).
Proof.
  intros Hu Hl. unfold field_at. pose proof (of_be_bytes_bound (take (b - a) (drop a input))) as Hb.
  rewrite length_take, length_drop, Nat.min_l in Hb by lia. by apply Hb, Forall_take, Forall_drop.
Qed.

Lemma field_join (input : list Z) a n rest : rest = drop (a + n) input → take n (drop a input) ++ rest = drop a input.
Proof. intros ->. rewrite <- drop_drop. apply take_drop. Qed.

Lemma decode_wf input : length input = ENCODED_SIZE → Forall is_u8 input → account_wf (decode input).
Proof.
  unfold ENCODED_SIZE. intros Hl Hu. split; unfold decode; cbn [versioning_data ap_nonce ap_balance bytecode_hash
    unpadded_code_len artifacts_len observable_bytecode_hash observable_bytecode_len]; by apply field_range; [|lia].
Qed.

Lemma encoding_decode input : length input = ENCODED_SIZE → Forall is_u8 input → encoding (decode input) = input.
Proof.
  unfold ENCODED_SIZE. intros Hl Hu. rewrite encoding_fields. unfold decode. cbn [versioning_data ap_nonce ap_balance
    bytecode_hash unpadded_code_len artifacts_len observable_bytecode_hash observable_bytecode_len].
  rewrite (field_bytes input 0 8 8), (field_bytes input 8 16 8), (field_bytes input 16 48 32), (field_bytes input 48 80 32),
    (field_bytes input 80 84 4), (field_bytes input 84 88 4), (field_bytes input 88 120 32), (field_bytes input 120 124 4)
    by (first [done|lia]).
  rewrite <- (app_nil_r (take 4 (drop 120 input))). transitivity (drop 0 input); [|apply drop_0].
  repeat (apply field_join; cbn [Nat.add]). by rewrite drop_ge by lia.
Qed.

(** C35: The hash under which an account is kept in the state stands for the account.
    It is the hash of the 124-byte encoding, although it is computed without building it;
    decoding gives the account back, and every 124 bytes are the encoding of the account
    they decode to. *)
Theorem account_encoding_roundtrip `{Blake2s} :
  (∀ a, account_wf a → compute_hash a = digest (encoding a) ∧ length (encoding a) = ENCODED_SIZE
     ∧ decode (encoding a) = a)
  ∧ ∀ input, length input = ENCODED_SIZE → Forall is_u8 input →
     account_wf (decode input) ∧ encoding (decode input) = input ∧ compute_hash (decode input) = digest input.
Proof.
  split.
  - intros a Ha. split; [apply compute_hash_encoding|]. split; [|by apply decode_encoding].
    rewrite encoding_fields, !length_app, !length_be_bytes. done.
  - intros input Hl Hu. split; [by apply decode_wf|]. rewrite compute_hash_encoding. by rewrite encoding_decode.
Qed.

Lemma account_encoding_roundtrip_witness :
  let toy : Blake2s := λ x, be_bytes 32 (Z.of_nat (length x)) in
  decode (encoding (mkAccount 1 2 3 4 5 6 7 8)) = mkAccount 1 2 3 4 5 6 7 8
  ∧ encoding (decode (repeat 1 124)) = repeat 1 124.
Proof.
  intros toy. destruct (account_encoding_roundtrip (H:=toy)) as [Ha Hb].
  destruct (Ha (mkAccount 1 2 3 4 5 6 7 8)) as (_ & _ & E1); [by repeat split|].
  destruct (Hb (repeat 1 124)) as (_ & E2 & _); [done| |by split].
  apply Forall_forall. intros x Hx%list_elem_of_In%repeat_spec. by subst x.
Defined.

(** ** Diffs, as they are read

    The five formats of the documentation of [diff_compression].  The result is the
    nonce, the balance and what is known of the code. *)

Inductive code_update : Type :=
| CodeKept
| CodePublished (versioning unpadded artifacts : Z) (code : list Z) (observable_len : Z)
| CodeHashed (versioning hash artifacts observable_len : Z).

Definition read_bytes (n : nat) (bytes : list Z) : option (list Z * list Z) :=
  if (length bytes <? n)%nat then None else Some (take n bytes, drop n bytes).
Definition read_number (n : nat) (bytes : list Z) : option (Z * list Z) :=
  '(b, rest) ← read_bytes n bytes; Some (of_be_bytes b, rest).

(** The length of the code with padding and artifacts. *)
Definition code_length (unpadded artifacts : Z) : nat :=
  Z.to_nat (full_bytecode_len (mkAccount 0 0 0 0 unpadded artifacts 0 0)).

Definition read_account_diff (initial : AccountProperties) (bytes : list Z)
    : option (Z * Z * code_update * list Z) :=
  '(metadata, bytes) ← read_number 1 bytes;
  if negb (Z.land metadata 7 =? 4) then None
  else match Z.shiftr metadata 3 with
  | 0 =>
      '(versioning, bytes) ← read_number 8 bytes;
      '(nonce, bytes) ← read_diff (ap_nonce initial) bytes;
      '(balance, bytes) ← read_diff (ap_balance initial) bytes;
      '(unpadded, bytes) ← read_number 4 bytes;
      '(artifacts, bytes) ← read_number 4 bytes;
      '(code, bytes) ← read_bytes (code_length unpadded artifacts) bytes;
      '(observable_len, bytes) ← read_number 4 bytes;
      Some (nonce, balance, CodePublished versioning unpadded artifacts code observable_len, bytes)
  | 1 =>
      '(nonce, bytes) ← read_diff (ap_nonce initial) bytes;
      Some (nonce, ap_balance initial, CodeKept, bytes)
  | 2 =>
      '(balance, bytes) ← read_diff (ap_balance initial) bytes;
      Some (ap_nonce initial, balance, CodeKept, bytes)
  | 3 =>
      '(nonce, bytes) ← read_diff (ap_nonce initial) bytes;
      '(balance, bytes) ← read_diff (ap_balance initial) bytes;
      Some (nonce, balance, CodeKept, bytes)
  | 4 =>
      '(versioning, bytes) ← read_number 8 bytes;
      '(nonce, bytes) ← read_diff (ap_nonce initial) bytes;
      '(balance, bytes) ← read_diff (ap_balance initial) bytes;
      '(hash, bytes) ← read_number 32 bytes;
      '(artifacts, bytes) ← read_number 4 bytes;
      '(observable_len, bytes) ← read_number 4 bytes;
      Some (nonce, balance, CodeHashed versioning hash artifacts observable_len, bytes)
  | _ => None
  end.

(** What the diff says of the code. *)
Definition code_update_of (initial final : AccountProperties) (not_publish : bool) (code : list Z) : code_update :=
  if full_diff initial final then
    if not_publish then CodeHashed (versioning_data final) (bytecode_hash final) (artifacts_len final)
           (observable_bytecode_len final)
    else CodePublished (versioning_data final) (unpadded_code_len final) (artifacts_len final) code
           (observable_bytecode_len final)
  else CodeKept.

Lemma read_number_here n z rest : 0 ≤ z < 2 ^ (8 * Z.of_nat n) → read_number n (be_bytes n z ++ rest) = Some (z, rest).
Proof.
  intros Hz. unfold read_number, read_bytes. rewrite length_app, length_be_bytes.
  rewrite (proj2 (Nat.ltb_ge _ _)) by lia. cbn [mbind option_bind].
  rewrite take_app_length', drop_app_length' by (by rewrite length_be_bytes).
  by rewrite of_be_bytes_be_bytes, Z.mod_small.
Qed.

Lemma read_byte_here b l : read_number 1 (b :: l) = Some (b, l).
Proof.
  unfold read_number, read_bytes. cbn [length Nat.ltb Nat.leb mbind option_bind take drop].
  rewrite of_be_bytes_cons, Z.mul_1_r. by rewrite Z.add_0_r.
Qed.

Lemma read_bytes_here b rest : read_bytes (length b) (b ++ rest) = Some (b, rest).
Proof.
  unfold read_bytes. rewrite length_app, (proj2 (Nat.ltb_ge _ _)) by lia. by rewrite take_app_length, drop_app_length.
Qed.

Lemma code_length_of a : code_length (unpadded_code_len a) (artifacts_len a) = Z.to_nat (full_bytecode_len a).
Proof. done. Qed.

(** Without a change of the code all other fields are kept. *)
Lemma full_diff_false initial final : full_diff initial final = false →
  final = mkAccount (versioning_data initial) (ap_nonce final) (ap_balance final) (bytecode_hash initial)
    (unpadded_code_len initial) (artifacts_len initial) (observable_bytecode_hash initial) (observable_bytecode_len initial).
Proof.
  unfold full_diff. rewrite !orb_false_iff, !negb_false_iff, !Z.eqb_eq. intros [[[[[? ?] ?] ?] ?] ?].
  destruct initial, final; cbn in *. by subst.
Qed.

Section Diffs.
Context {R : Ruint} {RS : RuintSpec} {B : RuintBits} {BS : RuintBitsSpec} {UZ : Usize} {BL : Blake2s} {IO : IoOracle}
  {PE : ProofEnv}.

(** The cache has the code of an account, padded and with artifacts; an account without
    code needs none. *)
Definition code_held (s : Preimages) (a : AccountProperties) (code : list Z) : Prop :=
  Z.of_nat (length code) = full_bytecode_len a
  ∧ if bytecode_hash a =? 0 then code = [] else preimages s !! bytecode_hash a = Some code.

(** Native never runs out of the formal infinity: the prices saturate below it. *)
Lemma infinite_charge len :
  0 ≤ len → ∃ r, charge_decommitment_native_cost len FORMAL_INFINITE = (Val tt, r).
Proof.
  intros Hl. unfold charge_decommitment_native_cost, blake2s_native_cost. set (c := saturating_add 64 _ _).
  assert (0 ≤ c ≤ umax 64) as Hc.
  { unfold c, saturating_add, saturating_mul, PREIMAGE_CACHE_GET_NATIVE_COST, BLAKE2S_BASE_NATIVE_COST,
      BLAKE2S_ROUND_NATIVE_COST, BLAKE2S_CHUNK_SIZE, div_ceil, umax in *.
    pose proof (Z.div_pos (len + 64 - 1) 64 ltac:(lia) ltac:(lia)). lia. }
  clearbody c. change FORMAL_INFINITE with (mk_res (umax 64) (umax 64)). change (from_native _) with (mk_res 0 c).
  rewrite charge_cases by (split; unfold e_left, n_left, in_width, umax in *; cbn -[Z.pow] in *; lia).
  rewrite !(proj2 (Z.ltb_ge _ _)) by (unfold umax in *; lia). by eexists.
Qed.

Lemma infinite_get_preimage pre o t h len code :
  0 ≤ len → (if h =? 0 then code = [] else preimages pre !! h = Some code) →
  ∃ r, get_preimage (mkRequest h len t) (pre, mkEnv _ FORMAL_INFINITE o) = (Val code, (pre, mkEnv _ r o)).
Proof.
  intros Hl Hh. unfold get_preimage, expose_preimage. cbn [pr_type pr_hash expected_preimage_len_in_bytes].
  destruct (h =? 0); [subst code; by eexists|]. destruct (infinite_charge len Hl) as [r Hr]. exists r.
  unfold pc_charge, on_res, zoom, mbind, M_bind, gets. cbn [fst snd env_res env_oracle]. rewrite Hr.
  cbn [fst snd env_res env_oracle]. by rewrite Hh.
Qed.

Lemma published_bytecode_held a code p (s : Preimages * Env) :
  code_held s.1 a code → published_bytecode a (p, s) = (Val code, (p, s)).
Proof.
  destruct s as [pre [res o]]. intros [Hl Hh]. cbn [fst] in Hh.
  destruct (infinite_get_preimage pre o Bytecode (bytecode_hash a) (full_bytecode_len a) code) as [r Hr]; [lia|done|].
  unfold published_bytecode, zoom, map_err, with_formal_infinite, with_resources, mbind, M_bind.
  cbn [fst snd env_res env_oracle]. by rewrite Hr.
Qed.

Lemma on_pubdata_published {A} (m : M Pubdata InternalError A) a bytes p (s : Preimages * Env) :
  m p = (Val a, published bytes p) → on_pubdata m (p, s) = (Val a, (published bytes p, s)).
Proof. intros Hm. unfold on_pubdata, zoom. cbn [fst snd]. by rewrite Hm. Qed.

Lemma publish_published {E} bytes p : publish (E:=E) bytes p = (Val tt, published bytes p).
Proof. done. Qed.

(** The sequel of a publication. *)
Lemma published_bind {A C} (m : M Pubdata InternalError A) a bytes p s (k : A → M (Pubdata * (Preimages * Env)) InternalError C) :
  m p = (Val a, published bytes p) → (on_pubdata m ≫= k) (p, s) = k a (published bytes p, s).
Proof. intros Hm. unfold mbind, M_bind. by rewrite (on_pubdata_published m a bytes). Qed.

(** The lengths that are charged, before they are added up. *)
Lemma balance_length initial final nc l :
  optimal_compression_length_u256 initial final = Some l → 1 ≤ l ≤ 33 →
  ∃ l', optimal_compression_length_u256_optional initial final nc = Some l' ∧ l ≤ l' ≤ 33 ∧ (nc = false → l' = l).
Proof.
  intros Hl Hb. destruct nc; [|by exists l; unfold optimal_compression_length_u256 in Hl; split_conj; try lia].
  exists 33. by split_conj; try lia.
Qed.

(** The bytes that stand for a change of a number. *)
Definition stands_for (initial final : Z) (bytes : list Z) : Prop :=
  (∀ s, optimal_compression_u256 (E:=InternalError) initial final s = (Val tt, published bytes s))
  ∧ optimal_compression_length_u256 initial final = Some (Z.of_nat (length bytes))
  ∧ 1 ≤ Z.of_nat (length bytes) ≤ 33
  ∧ ∀ rest, read_diff initial (bytes ++ rest) = Some (final, rest).

Section Formats.
Variables (initial final : AccountProperties) (not_publish : bool) (code nonce balance : list Z) (p : Pubdata)
  (s : Preimages * Env).
Hypotheses (Wf : account_wf final)
  (Hcode : full_diff initial final && negb not_publish = true → code_held s.1 final code)
  (Hn : stands_for (ap_nonce initial) (ap_nonce final) nonce)
  (Hb : stands_for (ap_balance initial) (ap_balance final) balance).

(** What is published when the code has changed, with what is written of a code that is
    not published as an argument, and when it has not. *)
Definition full_bytes (hashed : list Z) : list Z :=
  (if not_publish then 0x24 else 0x04) :: be_bytes 8 (versioning_data final) ++ nonce ++ balance
  ++ (if not_publish then be_bytes 32 (bytecode_hash final) ++ hashed
      else be_bytes 4 (unpadded_code_len final) ++ be_bytes 4 (artifacts_len final) ++ code)
  ++ be_bytes 4 (observable_bytecode_len final).
Definition kept_bytes : list Z :=
  let changed_nonce := negb (ap_nonce initial =? ap_nonce final) in
  let changed_balance := negb (ap_balance initial =? ap_balance final) in
  (4 + (if changed_nonce then 8 else 0) + (if changed_balance then 16 else 0))
  :: (if changed_nonce then nonce else []) ++ (if changed_balance then balance else []).

Lemma full_written : full_diff initial final = true →
  diff_compression initial final not_publish (p, s) = (Val tt, (published (full_bytes []) p, s)).
Proof.
  intros Hfull. unfold diff_compression. rewrite Hfull. destruct Hn as [Hn' _], Hb as [Hb' _].
  rewrite Hfull in Hcode. cbn [andb] in Hcode.
  do 2 (rewrite (published_bind _ tt _ _ _ _ (publish_published _ _))).
  do 2 (erewrite published_bind by done). unfold full_bytes.
  destruct not_publish; cbn [negb] in Hcode.
  - do 1 (rewrite (published_bind _ tt _ _ _ _ (publish_published _ _))).
    rewrite (on_pubdata_published _ tt _ _ _ (publish_published _ _)). by rewrite !published_app, app_nil_r.
  - unfold mbind at 1, M_bind at 1.
    do 2 (rewrite (published_bind _ tt _ _ _ _ (publish_published _ _))).
    unfold mbind at 1, M_bind at 1. rewrite (published_bytecode_held _ _ _ _ (Hcode eq_refl)). cbn beta iota.
    rewrite !(on_pubdata_published _ tt _ _ _ (publish_published _ _)). rewrite !published_app, <- ?app_assoc. done.
Qed.

Lemma full_read rest : full_diff initial final = true →
  read_account_diff initial (full_bytes (be_bytes 4 (artifacts_len final)) ++ rest)
  = Some (ap_nonce final, ap_balance final, code_update_of initial final not_publish code, rest).
Proof.
  intros Hfull. unfold read_account_diff, code_update_of. rewrite Hfull.
  rewrite Hfull in Hcode. cbn [andb] in Hcode.
  destruct Wf, Hn as (_ & _ & _ & Hn'), Hb as (_ & _ & _ & Hb').
  unfold full_bytes. destruct not_publish; cbn [app]; rewrite read_byte_here; cbn -[read_number be_bytes].
  - rewrite <- !app_assoc. rewrite read_number_here by done. cbn -[read_number be_bytes].
    rewrite Hn'. cbn -[read_number be_bytes]. rewrite Hb'. cbn -[read_number be_bytes].
    do 3 (rewrite read_number_here by done; cbn -[read_number be_bytes]). done.
  - destruct (Hcode eq_refl) as [Hlen _].
    rewrite <- !app_assoc. rewrite read_number_here by done. cbn -[read_number be_bytes].
    rewrite Hn'. cbn -[read_number be_bytes]. rewrite Hb'. cbn -[read_number be_bytes].
    do 2 (rewrite read_number_here by done; cbn -[read_number be_bytes code_length read_bytes]).
    rewrite code_length_of, <- Hlen, Nat2Z.id, read_bytes_here. cbn -[read_number be_bytes].
    by rewrite read_number_here.
Qed.

(** Without the length of the artifacts the documented reader runs out of bytes. *)
Lemma full_unread : full_diff initial final = true → not_publish = true →
  read_account_diff initial (full_bytes []) = None.
Proof.
  clear Hcode. intros Hfull Hp. unfold read_account_diff, full_bytes. rewrite Hp.
  destruct Wf, Hn as (_ & _ & _ & Hn'), Hb as (_ & _ & _ & Hb').
  rewrite read_byte_here. cbn -[read_number be_bytes]. rewrite read_number_here by done.
  cbn -[read_number be_bytes]. rewrite Hn'. cbn -[read_number be_bytes]. rewrite Hb'. cbn -[read_number be_bytes].
  rewrite app_nil_r, read_number_here by done. cbn -[read_number be_bytes].
  rewrite <- (app_nil_r (be_bytes 4 _)), read_number_here by done. done.
Qed.

Lemma kept_written : full_diff initial final = false → initial ≠ final →
  diff_compression initial final not_publish (p, s) = (Val tt, (published kept_bytes p, s)).
Proof.
  clear Wf Hcode. intros Hfull Hne. unfold diff_compression. rewrite Hfull. destruct Hn as [Hn' _], Hb as [Hb' _]. unfold kept_bytes.
  assert (¬ (ap_nonce initial = ap_nonce final ∧ ap_balance initial = ap_balance final)) as Hd.
  { intros [E1 E2]. apply Hne. rewrite (full_diff_false _ _ Hfull), <- E1, <- E2. by destruct initial. }
  destruct (Z.eqb_spec (ap_nonce initial) (ap_nonce final)), (Z.eqb_spec (ap_balance initial) (ap_balance final));
    cbn [andb negb]; [tauto|..]; rewrite (published_bind _ tt _ _ _ _ (publish_published _ _)); cbn [when].
  - unfold mbind, M_bind, mret, M_ret. rewrite (on_pubdata_published _ tt balance) by done. by rewrite published_app.
  - rewrite (published_bind _ tt nonce) by done. unfold mret, M_ret. by rewrite published_app, app_nil_r.
  - rewrite (published_bind _ tt nonce) by done. rewrite (on_pubdata_published _ tt balance) by done. by rewrite !published_app.
Qed.

Lemma kept_read rest : full_diff initial final = false → initial ≠ final →
  read_account_diff initial (kept_bytes ++ rest)
  = Some (ap_nonce final, ap_balance final, code_update_of initial final not_publish code, rest).
Proof.
  clear Wf Hcode. intros Hfull Hne. unfold read_account_diff, code_update_of. rewrite Hfull.
  destruct Hn as (_ & _ & _ & Hn'), Hb as (_ & _ & _ & Hb'). unfold kept_bytes.
  destruct (Z.eqb_spec (ap_nonce initial) (ap_nonce final)) as [En|], (Z.eqb_spec (ap_balance initial) (ap_balance final)) as [Eb|];
    cbn [negb app].
  - destruct Hne. rewrite (full_diff_false _ _ Hfull), <- En, <- Eb. by destruct initial.
  - rewrite read_byte_here. cbn -[read_diff]. rewrite Hb'. cbn. by rewrite En.
  - rewrite read_byte_here. cbn -[read_diff]. rewrite app_nil_r, Hn'. cbn. by rewrite Eb.
  - rewrite read_byte_here. cbn -[read_diff]. rewrite <- app_assoc, Hn'. cbn -[read_diff]. by rewrite Hb'.
Qed.

(** What is published, and what the documentation says is. *)
Definition diff_bytes_of : list Z := if full_diff initial final then full_bytes [] else kept_bytes.
Definition documented_bytes : list Z :=
  if full_diff initial final then full_bytes (be_bytes 4 (artifacts_len final)) else kept_bytes.

Lemma documented_published :
  full_diff initial final && not_publish = false → diff_bytes_of = documented_bytes.
Proof.
  clear Wf Hcode Hn Hb. unfold diff_bytes_of, documented_bytes, full_bytes. by destruct (full_diff _ _), not_publish.
Qed.

Lemma length_charged not_compress : initial ≠ final →
  Z.of_nat (length documented_bytes) + 36 < 2 ^ 32 →
  ∃ charged, diff_compression_length initial final not_publish not_compress = Val charged
    ∧ Z.of_nat (length documented_bytes) ≤ charged
    ∧ (not_compress = false → charged = Z.of_nat (length documented_bytes)).
Proof.
  intros Hne. destruct Hn as (_ & Ln & Bn & _), Hb as (_ & Lb & Bb & _).
  destruct (balance_length _ _ not_compress _ Lb Bb) as (l & Ll & Bl & El).
  unfold diff_compression_length, documented_bytes, full_bytes, kept_bytes. rewrite Ln, Ll.
  destruct (full_diff initial final) eqn:Hfull; cbn [andb] in Hcode |- *.
  - destruct not_publish; [|destruct (Hcode eq_refl) as [Hlen _]]; cbn [length];
      rewrite !length_app, !length_be_bytes; intros Hs; eexists; (split; [done|]);
      rewrite wrap_small by (unfold in_width; lia); split; try lia; intros ->; rewrite El by done; lia.
  - destruct (Z.eqb_spec (ap_nonce initial) (ap_nonce final)) as [En|], (Z.eqb_spec (ap_balance initial) (ap_balance final)) as [Eb|];
      cbn [andb negb orb length]; [|rewrite !length_app; intros Hs; eexists; (split; [done|])..].
    + destruct Hne. rewrite (full_diff_false _ _ Hfull), <- En, <- Eb. by destruct initial.
    + rewrite wrap_small by (unfold in_width; lia). cbn [length]. split; [lia|]. intros ->. rewrite El by done. lia.
    + destruct not_compress; rewrite wrap_small by (unfold in_width; lia); cbn [length]; split; done || lia.
    + rewrite wrap_small by (unfold in_width; lia). split; [lia|]. intros ->. rewrite El by done. lia.
Qed.
End Formats.

Lemma diff_stands_for i f : is_u256 i → is_u256 f → ∃ bytes, stands_for i f bytes.
Proof. intros Hi Hf. destruct (optimal_compression_published (E:=InternalError) i f Hi Hf) as (bytes & ?). by exists bytes. Qed.

(** C34: What is published of a changed account.  If the code has changed and is to be
    published, the preimage cache has it.  Then publishing does not fail and leaves caches
    and oracle as they were.  But for a forced deployment, whoever knows the old account
    reads the diff in its documented format: the new nonce and balance, and, if anything
    else has changed, the versioning data and the code with its lengths; otherwise the
    other fields are the old ones.  The bytes are as many as are charged for, and at most
    as many if the balance is charged uncompressed.  A forced deployment publishes the
    documented format without the four bytes of [artifacts_len], which are charged for: a
    reader of the documented format runs out of bytes. *)
Theorem account_diff_roundtrip (initial final : AccountProperties) (not_publish : bool) (code : list Z)
    (p : Pubdata) (s : Preimages * Env) :
  account_wf initial → account_wf final → initial ≠ final →
  (full_diff initial final && negb not_publish = true → code_held s.1 final code) →
  ∃ bytes documented,
    diff_compression initial final not_publish (p, s) = (Val tt, (published bytes p, s))
    ∧ (∀ rest, read_account_diff initial (documented ++ rest)
         = Some (ap_nonce final, ap_balance final, code_update_of initial final not_publish code, rest))
    ∧ (if full_diff initial final && not_publish
       then (∃ pre, bytes = pre ++ be_bytes 4 (observable_bytecode_len final)
               ∧ documented = pre ++ be_bytes 4 (artifacts_len final) ++ be_bytes 4 (observable_bytecode_len final))
            ∧ read_account_diff initial bytes = None
       else bytes = documented)
    ∧ (full_diff initial final = false →
         final = mkAccount (versioning_data initial) (ap_nonce final) (ap_balance final) (bytecode_hash initial)
           (unpadded_code_len initial) (artifacts_len initial) (observable_bytecode_hash initial)
           (observable_bytecode_len initial))
    ∧ (Z.of_nat (length documented) + 36 < 2 ^ 32 → ∀ not_compress, ∃ charged,
         diff_compression_length initial final not_publish not_compress = Val charged
         ∧ Z.of_nat (length documented) ≤ charged
         ∧ (not_compress = false → charged = Z.of_nat (length documented))).
Proof.
  intros Wi Wf Hne Hcode.
  assert (∀ x, in_width 64 x → is_u256 x) as Hwide by (unfold in_width, is_u256; lia).
  destruct (diff_stands_for (ap_nonce initial) (ap_nonce final)) as [nonce Hn]; [apply Hwide, Wi|apply Hwide, Wf|].
  destruct (diff_stands_for (ap_balance initial) (ap_balance final)) as [balance Hb]; [apply Wi|apply Wf|].
  exists (diff_bytes_of initial final not_publish code nonce balance),
    (documented_bytes initial final not_publish code nonce balance).
  split; [|split; [|split; [|split; [apply full_diff_false|intros Hs nc; by eapply length_charged]]]].
  - pose proof (full_written _ _ _ _ _ _ p _ Hcode Hn Hb) as Hw. unfold diff_bytes_of.
    destruct (full_diff initial final) eqn:Hfull; [by apply Hw|by eapply kept_written].
  - intros rest. pose proof (full_read _ _ _ _ _ _ _ Wf Hcode Hn Hb rest) as Hr. unfold documented_bytes.
    destruct (full_diff initial final) eqn:Hfull; [by apply Hr|by eapply kept_read].
  - destruct (full_diff initial final && not_publish) eqn:Hforced; [|by apply documented_published].
    apply andb_true_iff in Hforced as [Hfull ->].
    unfold diff_bytes_of, documented_bytes. rewrite Hfull. split; [|by apply full_unread].
    eexists (0x24 :: be_bytes 8 (versioning_data final) ++ nonce ++ balance ++ be_bytes 32 (bytecode_hash final)).
    unfold full_bytes. rewrite app_nil_r. cbn [app]. by rewrite <- !app_assoc.
Qed.
End Diffs.

(** A deployment with a code of two words, published and forced. *)
Module DiffExample.
#[local] Existing Instance ruint_ref.
#[local] Existing Instance ruint_bits_ref.
#[local] Instance toy : Blake2s := λ x, be_bytes 32 (Z.of_nat (length x)).
#[local] Instance usize : Usize := {| usize_bits := 32; usize_cases := or_introl eq_refl |}.
#[local] Instance proving : ProofEnv := true.
#[local] Instance silent : IoOracle := {|
  Host := unit;
  initial_storage_slot_query _ := throw (internal_error "silent");
  preimage_query _ := throw (internal_error "silent")
|}.
Definition code : list Z := repeat 1 16.
Definition old_account : AccountProperties := mkAccount 0 5 100 0 0 0 0 0.
Definition new_account : AccountProperties := mkAccount (2 ^ 56) 6 90 16 8 8 77 8.
Definition state : Preimages * Env :=
  (mkPreimages {[16 := code]} HistoryMap_new, mkEnv _ res_empty (mkOracle _ tt [] [])).

Lemma account_diff_roundtrip_witness :
  (∃ bytes, diff_compression old_account new_account false (mkPubdata [] [], state)
      = (Val tt, (published bytes (mkPubdata [] []), state))
    ∧ read_account_diff old_account (bytes ++ [7])
      = Some (6, 90, CodePublished (2 ^ 56) 8 8 code 8, [7]))
  ∧ ∃ bytes, diff_compression old_account new_account true (mkPubdata [] [], (preimages_new, state.2))
      = (Val tt, (published bytes (mkPubdata [] []), (preimages_new, state.2)))
    ∧ read_account_diff old_account bytes = None.
Proof.
  split.
  - destruct (account_diff_roundtrip (RS:=ruint_ref_spec) (BS:=ruint_bits_ref_spec) old_account new_account false code
      (mkPubdata [] []) state) as (bytes & documented & Hw & Hr & Hb & _);
      [by repeat split|by repeat split|done|by split; vm_compute|].
    vm_compute in Hb. subst documented. exists bytes. split; [exact Hw|]. rewrite Hr. reflexivity.
  - destruct (account_diff_roundtrip (RS:=ruint_ref_spec) (BS:=ruint_bits_ref_spec) old_account new_account true code
      (mkPubdata [] []) (preimages_new, state.2)) as (bytes & documented & Hw & _ & (_ & Hb) & _);
      [by repeat split|by repeat split|done|done|].
    exists bytes. split; [exact Hw|exact Hb].
Defined.
End DiffExample.
