(* ===== verification/AccountCache.v ===== *)
(** * The account cache

    Models [basic_system/src/system_implementation/flat_storage_model/account_cache.rs]:
    accounts are read from the storage cache, as hashes, and from the cache of preimages,
    changed here, and written back at the end of the block.  An operation works on the
    three caches of the storage model, the caller's resources and the oracle. *)

From stdpp Require Import gmap sorting strings.
From S2P Require Import Prelude Resources U256 HistoryElement HistoryMap IoCommon FlatStorage Pubdata SystemInterface TxFormats EvmConstants Bytecode EvmFrame BootSystem Runner StorageCache PreimageCache AccountEntry.

(** ** Data *)

(** [BitsOrd<160, 3>]: an address, ordered by its limbs, the least significant first. *)
Record BitsOrd160 : Type := mkBits { bits : Z }.
#[global] Instance BitsOrd160_eq_dec : EqDecision BitsOrd160.
Proof. solve_decision. Defined.
#[global] Program Instance BitsOrd160_countable : Countable BitsOrd160 :=
  inj_countable' bits mkBits _.
Next Obligation. by intros [a]. Qed.

Definition bits_le (a b : BitsOrd160) : Prop :=
  list_compare (to_limbs 3 (bits a)) (to_limbs 3 (bits b)) ≠ Gt.
#[global] Instance bits_le_dec : RelDecision bits_le.
Proof. intros a b. unfold bits_le. destruct (list_compare _ _); [left|left|right]; congruence. Defined.
#[global] Instance bits_order : KeyOrder BitsOrd160 := {| key_order := bits_le |}.

Abbreviation AccountRecord := (CacheRecord AccountProperties AccountPropertiesMetadata).

(** [NewModelAccountCache]. *)
Record AccountCache : Type := mkAccountCache {
  ac_cache : HistoryMap BitsOrd160 AccountRecord;
  ac_current_tx_id : Z
}.

(** [FlatTreeWithAccountsUnderHashesStorageModel]. *)
Record StorageModel : Type := mkModel {
  storage_cache : PlainStorage;
  preimages_cache : Preimages;
  account_data_cache : AccountCache
}.

Definition set_storage_cache (c : PlainStorage) (s : StorageModel) : StorageModel :=
  mkModel c (preimages_cache s) (account_data_cache s).
Definition set_preimages_cache (c : Preimages) (s : StorageModel) : StorageModel :=
  mkModel (storage_cache s) c (account_data_cache s).
Definition set_account_cache (c : HistoryMap BitsOrd160 AccountRecord) (s : StorageModel) : StorageModel :=
  mkModel (storage_cache s) (preimages_cache s) (mkAccountCache c (ac_current_tx_id (account_data_cache s))).
Definition get_account_cache (s : StorageModel) : HistoryMap BitsOrd160 AccountRecord :=
  ac_cache (account_data_cache s).

Definition account_cache_new : AccountCache := mkAccountCache HistoryMap_new 0.

#[global] Instance AccountField_eq_dec : EqDecision AccountField.
Proof. solve_decision. Defined.

(** ** Costs *)

Definition COLD_PROPERTIES_ACCESS_EXTRA_COST_ERGS : Ergs :=
  mkErgs ((GAS_ADDRESS_ACCESS_COST_COLD - GAS_ADDRESS_ACCESS_COST_WARM) * ERGS_PER_GAS).
Definition WARM_PROPERTIES_ACCESS_COST_ERGS : Ergs := mkErgs (GAS_ADDRESS_ACCESS_COST_WARM * ERGS_PER_GAS).
Definition KNOWN_TO_BE_WARM_PROPERTIES_ACCESS_COST_ERGS : Ergs := mkErgs (GAS_SELFBALANCE * ERGS_PER_GAS).
Definition WARM_ACCOUNT_CACHE_ACCESS_NATIVE_COST : Z := 4000.
Definition WARM_ACCOUNT_CACHE_WRITE_EXTRA_NATIVE_COST : Z := 1000.

Section Accounts.
Context `{Ruint} `{RuintBits} `{Usize} `{Blake2s} `{Keccak} `{IoOracle} `{ProofEnv} `{StorageAccessPolicy}.

Abbreviation AM := (M (StorageModel * Env)).

(** The parts of the state an operation of another cache works on. *)
Definition on_storage {E A} (m : M (PlainStorage * Env) E A) : AM E A :=
  zoom (λ s, (storage_cache s.1, s.2)) (λ x s, (set_storage_cache x.1 s.1, x.2)) m.
Definition on_preimages {E A} (m : M (Preimages * Env) E A) : AM E A :=
  zoom (λ s, (preimages_cache s.1, s.2)) (λ x s, (set_preimages_cache x.1 s.1, x.2)) m.
Definition on_accounts {A} (m : M (HistoryMap BitsOrd160 AccountRecord) (HistoryMapError SystemError) A)
    : AM SystemError A :=
  on_map (get_account_cache ∘ fst) (λ c s, (set_account_cache c s.1, s.2)) map_system_error m.
Definition charge_res {E} (m : M Res E unit) : AM E unit := zoom snd (λ e s, (s.1, e)) (on_res m).
Definition charge_native (cost : Z) : AM SystemError unit :=
  charge_res (charge (from_native (from_computational cost))).

(** [resources.with_infinite_ergs(f)] *)
Definition infinitely {E A} (m : AM E A) : AM E A :=
  with_infinite_ergs (λ s, env_res s.2) (λ r s, (s.1, mkEnv _ r (env_oracle s.2))) m.

(** *** Access *)

Definition charge_ergs_for_cold_access (ee_type : ExecutionEnvironmentType) (address : Z)
    (is_selfdestruct : bool) : AM SystemError unit :=
  match ee_type with
  | NoEE => mret tt
  | EVM =>
      let cost : Res :=
        if is_precompile address then res_empty
        else
          let cost := from_ergs COLD_PROPERTIES_ACCESS_EXTRA_COST_ERGS in
          if is_selfdestruct then add_ergs WARM_PROPERTIES_ACCESS_COST_ERGS cost else cost in
      charge_res (charge cost)
  end.

Definition charge_native_for_cold_access (ee_type : ExecutionEnvironmentType) (empty_account : bool)
    : AM SystemError unit :=
  infinitely (charge_res (charge_warm_storage_read ee_type false)) ;;
  infinitely (charge_res (charge_cold_storage_read_extra ee_type empty_account)) ;;
  when (negb empty_account)
    (charge_res (charge_decommitment_native_cost (Z.of_nat ENCODED_SIZE))).

(** The callback of [get_or_insert]: an account that is not in the cache yet. *)
Definition initialize_account (ee_type : ExecutionEnvironmentType) (address : Z) (is_selfdestruct : bool)
    : AM SystemError AccountRecord :=
  charge_ergs_for_cold_access ee_type address is_selfdestruct ;;
  '(hash, inf_resources) ← with_resources FORMAL_INFINITE
     (on_storage (read_special_account_property NoEE address));
  let empty_account := hash =? 0 in
  charge_native_for_cold_access ee_type empty_account ;;
  if empty_account then mret (cr_new default_account_metadata TRIVIAL_VALUE Unset)
  else
    '(preimage, _) ← with_resources inf_resources (on_preimages
       (get_preimage (mkRequest hash (Z.of_nat ENCODED_SIZE) PreimageCache.AccountData)));
    assert_that (bool_decide (length preimage = ENCODED_SIZE)) ;;
    mret (cr_new default_account_metadata (decode preimage) Retrieved).

(** [get_or_insert], with a callback that has effects; whether it was called. *)
Definition get_or_initialize_account (ee_type : ExecutionEnvironmentType) (address : Z)
    (is_selfdestruct : bool) : AM SystemError bool :=
  entry ← gets (λ s, btree (get_account_cache s.1) !! mkBits address);
  match entry with
  | Some _ => mret false
  | None =>
      v ← initialize_account ee_type address is_selfdestruct;
      on_accounts (get_or_insert (mkBits address) (inr v)) ;;
      mret true
  end.

Definition current_account (address : Z) : AM SystemError AccountRecord :=
  r ← on_accounts (HistoryMap.current (mkBits address));
  expect r.

Definition update_account (address : Z) (f : AccountRecord → option SystemError * AccountRecord)
    : AM SystemError unit :=
  on_accounts (update (mkBits address) f).

(** The account is in the cache and warm. *)
Definition materialize_account (ee_type : ExecutionEnvironmentType) (address : Z)
    (is_selfdestruct is_access_list : bool) : AM SystemError unit :=
  let ergs := match ee_type with
              | NoEE => if is_access_list then mkErgs (2400 * ERGS_PER_GAS) else res_empty
              | EVM => if is_selfdestruct then res_empty else WARM_PROPERTIES_ACCESS_COST_ERGS
              end in
  charge_res (charge (from_ergs_and_native ergs (from_computational WARM_ACCOUNT_CACHE_ACCESS_NATIVE_COST))) ;;
  initialized_element ← get_or_initialize_account ee_type address is_selfdestruct;
  current_tx_id ← gets (λ s, ac_current_tx_id (account_data_cache s.1));
  x ← current_account address;
  when (negb (account_considered_warm (metadata x) current_tx_id)) (
    when (negb initialized_element) (
      charge_ergs_for_cold_access ee_type address is_selfdestruct ;;
      charge_native_for_cold_access ee_type (bool_decide (appearance x = Unset))) ;;
    update_account address (update_metadata (λ m,
      (None, mkAccountMetadata (deployed_in_tx m) (Some current_tx_id)
               (not_publish_bytecode m) (not_compress_balance m))))).

(** *** Balances and nonces *)

Definition set_account_balance (balance : Z) (v : AccountProperties) : AccountProperties :=
  mkAccount (versioning_data v) (ap_nonce v) balance (bytecode_hash v) (unpadded_code_len v)
    (artifacts_len v) (observable_bytecode_hash v) (observable_bytecode_len v).
Definition set_account_nonce (nonce : Z) (v : AccountProperties) : AccountProperties :=
  mkAccount (versioning_data v) nonce (ap_balance v) (bytecode_hash v) (unpadded_code_len v)
    (artifacts_len v) (observable_bytecode_hash v) (observable_bytecode_len v).

Abbreviation of_system := (map_err subsystem_of_system).

Definition update_nominal_token_value_inner (ee_type : ExecutionEnvironmentType) (address : Z)
    (update_fn : Z → BalanceSubsystemError + Z) (is_selfdestruct fee_payment_in_simulation : bool)
    : AM BalanceSubsystemError Z :=
  of_system (materialize_account ee_type address is_selfdestruct false) ;;
  of_system (charge_native WARM_ACCOUNT_CACHE_WRITE_EXTRA_NATIVE_COST) ;;
  x ← of_system (current_account address);
  let cur := ap_balance (cr_value x) in
  match update_fn cur with
  | inl e => throw e
  | inr new =>
      of_system (update_account address (cr_update (λ v m,
        (None, (set_account_balance new v,
                mkAccountMetadata (deployed_in_tx m) (last_touched_in_tx m) (not_publish_bytecode m)
                  (not_compress_balance m || fee_payment_in_simulation)))))) ;;
      mret cur
  end.

(** [f(addr, op, err)]: the operation on the balance, or the error when it overflows. *)
Definition transfer_step (from_ee : ExecutionEnvironmentType) (amount : Z) (is_selfdestruct : bool)
    (address : Z) (op : Z → Z → Z * bool) (err : BalanceError) : AM BalanceSubsystemError Z :=
  update_nominal_token_value_inner from_ee address
    (λ old_balance, let '(new_value, overflow) := op old_balance amount in
                    if overflow then inl (SLeafUsage err) else inr new_value)
    is_selfdestruct false.

Definition transfer_nominal_token_value_inner (from_ee : ExecutionEnvironmentType) (from to amount : Z)
    (is_selfdestruct : bool) : AM BalanceSubsystemError unit :=
  transfer_step from_ee amount is_selfdestruct from u_overflowing_sub InsufficientBalanceError ;;
  transfer_step from_ee amount is_selfdestruct to u_overflowing_add BalanceOverflow ;;
  mret tt.

Definition account_increment_nonce (ee_type : ExecutionEnvironmentType) (address increment_by : Z)
    : AM NonceSubsystemError Z :=
  of_system (materialize_account ee_type address false false) ;;
  of_system (charge_native WARM_ACCOUNT_CACHE_WRITE_EXTRA_NATIVE_COST) ;;
  x ← of_system (current_account address);
  let nonce := ap_nonce (cr_value x) in
  match checked_add 64 nonce increment_by with
  | Some new_nonce =>
      of_system (update_account address (cr_update (λ v m, (None, (set_account_nonce new_nonce v, m))))) ;;
      mret nonce
  | None => throw (SLeafUsage NonceOverflowError)
  end.

Definition account_update_nominal_token_value (ee_type : ExecutionEnvironmentType) (address : Z)
    (update_fn : Z → BalanceSubsystemError + Z) (fee_payment_in_simulation : bool)
    : AM BalanceSubsystemError Z :=
  update_nominal_token_value_inner ee_type address update_fn false fee_payment_in_simulation.

Definition account_transfer_nominal_token_value (from_ee : ExecutionEnvironmentType) (from to amount : Z)
    : AM BalanceSubsystemError unit :=
  transfer_nominal_token_value_inner from_ee from to amount false.

Definition read_account_balance_assuming_warm (ee_type : ExecutionEnvironmentType) (address : Z)
    : AM SystemError Z :=
  match ee_type with
  | NoEE => mret tt
  | EVM => charge_res (charge (from_ergs KNOWN_TO_BE_WARM_PROPERTIES_ACCESS_COST_ERGS))
  end ;;
  cache_item ← on_accounts (HistoryMap.current (mkBits address));
  match cache_item with
  | Some x => mret (ap_balance (cr_value x))
  | None => throw (LeafDefect (internal_error "Balance assumed warm but not in cache"))
  end.

Definition account_touch (ee_type : ExecutionEnvironmentType) (address : Z) (is_access_list : bool)
    : AM SystemError unit :=
  materialize_account ee_type address false is_access_list.

(** *** Properties *)

(** The code of an account, from its preimage. *)
Definition account_bytecode (full_data : AccountProperties) : AM SystemError (list Z) :=
  if bytecode_hash full_data =? 0 then
    assert_that (observable_bytecode_hash full_data =? 0) ;;
    assert_that (unpadded_code_len full_data =? 0) ;;
    assert_that (artifacts_len full_data =? 0) ;;
    assert_that (observable_bytecode_len full_data =? 0) ;;
    mret []
  else
    on_preimages (get_preimage (mkRequest (bytecode_hash full_data) (full_bytecode_len full_data) Bytecode)).

(** [Maybe::construct] and [Maybe::try_construct]: a field that is not asked for is not
    computed; it has no value in the source and a fixed one here. *)
Definition maybe {E A} (fields : list AccountField) (f : AccountField) (absent : A) (m : AM E A) : AM E A :=
  if bool_decide (f ∈ fields) then m else mret absent.

Definition account_read_properties (ee_type : ExecutionEnvironmentType) (address : Z)
    (request : list AccountField) : AM SystemError BootSystem.AccountData :=
  materialize_account ee_type address false false ;;
  x ← current_account address;
  let full_data := cr_value x in
  let versioning := versioning_data full_data in
  ee ← maybe request WithEeVersion 0 (mret (ee_version versioning));
  ohash ← maybe request WithObservableBytecodeHash [] (mret (be_bytes 32 (observable_bytecode_hash full_data)));
  olen ← maybe request WithObservableBytecodeLen 0 (mret (observable_bytecode_len full_data));
  nonce ← maybe request WithNonce 0 (mret (ap_nonce full_data));
  bhash ← maybe request WithBytecodeHash [] (mret (be_bytes 32 (bytecode_hash full_data)));
  ulen ← maybe request WithUnpaddedCodeLen 0 (mret (unpadded_code_len full_data));
  alen ← maybe request WithArtifactsLen 0 (mret (artifacts_len full_data));
  balance ← maybe request WithNominalTokenBalance 0 (mret (ap_balance full_data));
  bytecode ← maybe request WithBytecode [] (account_bytecode full_data);
  cversion ← maybe request WithCodeVersion 0 (mret (code_version versioning));
  delegated ← maybe request WithIsDelegated false (
    let delegated := is_delegated DEFAULT_DELEGATED_VERSION versioning in
    if delegated && negb (ee_version versioning =? ee_byte EVM)
    then throw (LeafDefect (internal_error "Delegated account is not EVM"))
    else mret delegated);
  mret (mkAccountData ee ohash olen nonce bhash ulen alen balance bytecode cversion delegated).

(** *** Code *)

(** [&padding[..bytecode_padding_len(len)]] of seven zeros. *)
Definition padding_for (len : Z) : list Z := repeat 0 (Z.to_nat (bytecode_padding_len len)).

Definition compute_bytecode_hash (from_ee : ExecutionEnvironmentType) (observable_bytecode artifacts : list Z)
    : AM SystemError Z :=
  match from_ee with
  | NoEE => throw (LeafDefect (internal_error "Deployment cannot happen in NoEE"))
  | EVM =>
      let len := Z.of_nat (length observable_bytecode) in
      let preimage_len := len + bytecode_padding_len len + Z.of_nat (length artifacts) in
      charge_native (blake2s_native_cost preimage_len) ;;
      mret (digest (observable_bytecode ++ padding_for len ++ artifacts))
  end.

(** The artifacts of a code, and the hash and the preimage of code and artifacts; what is
    stored, the hash, and the length of the artifacts. *)
Definition store_bytecode (ee : ExecutionEnvironmentType) (deployed_code : list Z) (observable_bytecode_len : Z)
    : AM SystemError (list Z * Z * Z) :=
  artifacts ← zoom snd (λ e s, (s.1, e)) (on_res (create_artifacts deployed_code));
  let artifacts := Bytecode.as_slice artifacts in
  bytecode_hash ← compute_bytecode_hash ee deployed_code artifacts;
  let artifacts_len := wrap 32 (Z.of_nat (length artifacts)) in
  let padding_len := bytecode_padding_len (Z.of_nat (length deployed_code)) in
  let bytecode_len := wrap 32 (wrap 32 (observable_bytecode_len + wrap 32 padding_len) + artifacts_len) in
  code ← on_preimages (record_preimage (mkRequest bytecode_hash bytecode_len Bytecode)
           [deployed_code; padding_for (Z.of_nat (length deployed_code)); artifacts]);
  mret (code, bytecode_hash, artifacts_len).

(** The update that sets the code of an account. *)
Definition set_code (ohash olen hash unpadded artifacts cur_tx : Z) (ee : ExecutionEnvironmentType)
    (not_publish : bool) : AccountRecord → option SystemError * AccountRecord :=
  cr_update (λ v m,
    (None, (mkAccount
              (set_code_version ARTIFACTS_CACHING_CODE_VERSION_BYTE
                 (set_ee_version (ee_byte ee)
                    (set_as_deployed DEFAULT_ADDRESS_SPECIFIC_IMMUTABLE_DATA_VERSION (versioning_data v))))
              (ap_nonce v) (ap_balance v) hash unpadded artifacts ohash olen,
            mkAccountMetadata (Some cur_tx) (last_touched_in_tx m) not_publish (not_compress_balance m)))).

(** What is stored, its hash, and the length of the code. *)
Definition account_deploy_code (from_ee : ExecutionEnvironmentType) (at_address : Z) (deployed_code : list Z)
    : AM SystemError (list Z * Z * Z) :=
  match from_ee with
  | NoEE => mret tt
  | EVM =>
      let code_deposit_cost := saturating_mul 64 GAS_CODEDEPOSIT (Z.of_nat (length deployed_code)) in
      charge_res (charge (from_ergs (mkErgs (saturating_mul 64 code_deposit_cost ERGS_PER_GAS))))
  end ;;
  cur_tx ← gets (λ s, ac_current_tx_id (account_data_cache s.1));
  infinitely (materialize_account from_ee at_address false false) ;;
  match from_ee with
  | NoEE => throw (LeafDefect (internal_error "Deployment cannot happen in NoEE"))
  | EVM =>
      charge_res (charge (from_native (keccak256_native_cost (Z.of_nat (length deployed_code))))) ;;
      let observable_bytecode_hash := of_be_bytes (Keccak256 deployed_code) in
      let observable_bytecode_len := wrap 32 (Z.of_nat (length deployed_code)) in
      '(code, hash, artifacts_len) ← store_bytecode from_ee deployed_code observable_bytecode_len;
      charge_native WARM_ACCOUNT_CACHE_WRITE_EXTRA_NATIVE_COST ;;
      update_account at_address (set_code observable_bytecode_hash observable_bytecode_len hash
        observable_bytecode_len artifacts_len cur_tx from_ee false) ;;
      mret (code, hash, observable_bytecode_len)
  end.

Definition account_set_bytecode_details (at_address : Z) (ee : ExecutionEnvironmentType)
    (code_hash unpadded_bytecode_len artifacts_len observable_bytecode_hash observable_bytecode_len : Z)
    : AM SystemError unit :=
  cur_tx ← gets (λ s, ac_current_tx_id (account_data_cache s.1));
  materialize_account ee at_address false false ;;
  deployed_code ← on_preimages (get_preimage (mkRequest code_hash unpadded_bytecode_len Bytecode));
  match ee with
  | NoEE => throw (LeafDefect (internal_error "Deployment cannot happen in NoEE"))
  | EVM =>
      assert_that (artifacts_len =? 0) ;;
      '(_, hash, artifacts_len) ← store_bytecode ee deployed_code observable_bytecode_len;
      charge_native WARM_ACCOUNT_CACHE_WRITE_EXTRA_NATIVE_COST ;;
      update_account at_address (set_code observable_bytecode_hash observable_bytecode_len hash
        unpadded_bytecode_len artifacts_len cur_tx ee true)
  end.

(** Hash and length of the observable code, hash of the code and code version. *)
Definition store_delegation (delegate : Z) : AM SystemError (Z * Z * Z * Z) :=
  let code := EIP7702_DELEGATION_MARKER ++ be_bytes 20 delegate in
  let len := Z.of_nat (length code) in
  charge_res (charge (from_native (keccak256_native_cost len))) ;;
  let observable_bytecode_hash := of_be_bytes (Keccak256 code) in
  hash ← compute_bytecode_hash EVM code [];
  let bytecode_len := wrap 32 (wrap 32 (wrap 32 len + wrap 32 (bytecode_padding_len len)) + 0) in
  on_preimages (record_preimage (mkRequest hash bytecode_len Bytecode) [code; padding_for len; []]) ;;
  mret (observable_bytecode_hash, wrap 32 len, hash, ARTIFACTS_CACHING_CODE_VERSION_BYTE).

Definition account_set_delegation (at_address delegate : Z) : AM SystemError unit :=
  infinitely (materialize_account EVM at_address false false) ;;
  let delegated := negb (delegate =? 0) in
  '(ohash, olen, hash, version) ←
    (if delegated then store_delegation delegate else mret (0, 0, 0, 0));
  charge_native WARM_ACCOUNT_CACHE_WRITE_EXTRA_NATIVE_COST ;;
  update_account at_address (cr_update (λ v m,
    let versioning :=
      if delegated then set_ee_version (ee_byte EVM) (set_as_delegated DEFAULT_DELEGATED_VERSION (versioning_data v))
      else set_ee_version (ee_byte NoEE) (unset_deployment_status (versioning_data v)) in
    (None, (mkAccount (set_code_version version versioning) (ap_nonce v) (ap_balance v) hash olen 0 ohash olen,
            mkAccountMetadata (deployed_in_tx m) (last_touched_in_tx m) false (not_compress_balance m))))).

(** *** Deconstruction *)

(** [EVM] charges for a beneficiary that was empty before it received the balance. *)
Definition charge_new_beneficiary (from_ee : ExecutionEnvironmentType) (beneficiary transfer_amount : Z)
    : AM SystemError unit :=
  match from_ee with
  | NoEE => mret tt
  | EVM =>
      entry ← on_accounts (HistoryMap.current (mkBits beneficiary));
      match entry with
      | None => throw (LeafDefect (internal_error "Account assumed warm but not in cache"))
      | Some entry =>
          let properties := cr_value entry in
          let beneficiary_is_empty := (ap_nonce properties =? 0) && (unpadded_code_len properties =? 0)
                                      && (ap_balance properties =? transfer_amount) in
          when beneficiary_is_empty
            (charge_res (charge (from_ergs (mkErgs (GAS_NEWACCOUNT * ERGS_PER_GAS)))))
      end
  end.

Definition account_mark_for_deconstruction (from_ee : ExecutionEnvironmentType)
    (at_address nominal_token_beneficiary : Z) (in_constructor : bool) : AM DeconstructionSubsystemError Z :=
  cur_tx ← gets (λ s, ac_current_tx_id (account_data_cache s.1));
  of_system (materialize_account from_ee at_address true false) ;;
  of_system (charge_native WARM_ACCOUNT_CACHE_WRITE_EXTRA_NATIVE_COST) ;;
  x ← of_system (current_account at_address);
  let same_address := at_address =? nominal_token_beneficiary in
  let transfer_amount := ap_balance (cr_value x) in
  let should_be_deconstructed := bool_decide (deployed_in_tx (metadata x) = Some cur_tx) || in_constructor in
  when should_be_deconstructed
    (of_system (update_account at_address (λ r, (None, deconstruct r)))) ;;
  (if negb same_address then
     map_err (λ e, SCascaded (DeconstructionBalance e))
       (transfer_nominal_token_value_inner from_ee at_address nominal_token_beneficiary transfer_amount true)
   else
     when should_be_deconstructed
       (of_system (update_account at_address (cr_update (λ v m, (None, (set_account_balance 0 v, m))))))) ;;
  when (negb (transfer_amount =? 0))
    (of_system (charge_new_beneficiary from_ee nominal_token_beneficiary transfer_amount)) ;;
  mret transfer_amount.

(** At the end of the transaction: the accounts that were marked lose everything. *)
Definition finish_account_deconstruction (key : BitsOrd160) (r : AccountRecord)
    : M StorageModel InternalError AccountRecord :=
  if decide (appearance r = Deconstructed) then
    let '(e, r) := finish_deconstruction r in
    match e with
    | Some e => throw e
    | None =>
        let '(_, r) := cr_update (E:=unit) (λ _ m, (None, (TRIVIAL_VALUE, m))) r in
        unwrap (zoom storage_cache set_storage_cache (clear_state_impl (bits key))) ;;
        mret r
    end
  else mret r.

Definition account_finish_tx : M StorageModel InternalError unit :=
  modify (λ s, mkModel (storage_cache s) (preimages_cache s)
    (mkAccountCache (get_account_cache s) (wrap 32 (ac_current_tx_id (account_data_cache s) + 1)))) ;;
  apply_to_last_record_of_pending_changes get_account_cache set_account_cache finish_account_deconstruction.

Definition account_begin_new_tx : M StorageModel InternalError unit :=
  on_map get_account_cache set_account_cache (map_internal_error id) HistoryMap.commit.
Definition account_start_frame : M StorageModel InternalError nat :=
  on_map get_account_cache set_account_cache (map_internal_error id) HistoryMap.snapshot.
Definition account_finish_frame (rollback_handle : option nat) : M StorageModel InternalError unit :=
  match rollback_handle with
  | Some x => on_map get_account_cache set_account_cache (map_internal_error id) (HistoryMap.rollback x)
  | None => mret tt
  end.

(** *** The end of the block *)

(** Every account that has changed is recorded as a preimage, its hash in the storage. *)
Definition persist_account (initial last : AccountRecord) (addr : BitsOrd160) : AM SystemError unit :=
  if bool_decide (cr_value initial = cr_value last) then mret tt
  else
    let properties_hash := compute_hash (cr_value last) in
    with_formal_infinite (
      on_preimages (record_preimage (mkRequest properties_hash (Z.of_nat ENCODED_SIZE) PreimageCache.AccountData)
                      [encoding (cr_value last)]) ;;
      on_storage (write_special_account_property NoEE (bits addr) properties_hash)) ;;
    mret tt.

Definition persist_changes : AM SystemError unit :=
  apply_to_all_updated_elements (get_account_cache ∘ fst) persist_account.

Definition account_pubdata_of_element (acc : gset BitsOrd160 * option Z)
    (element_history : ItemRef BitsOrd160 AccountRecord) : gset BitsOrd160 * option Z :=
  let '(visited_elements, pubdata_used) := acc in
  let element_key := item_key element_history in
  if bool_decide (element_key ∈ visited_elements) then acc
  else
    let visited_elements := {[element_key]} ∪ visited_elements in
    let current := item_current element_history in
    let initial := item_initial element_history in
    let at_tx_start := item_committed element_history in
    if bool_decide (cr_value current = cr_value initial) then (visited_elements, pubdata_used)
    else if negb (bool_decide (cr_value current = cr_value at_tx_start)) then
      (visited_elements,
       pubdata_used ← pubdata_used;
       match diff_compression_length (cr_value at_tx_start) (cr_value current)
               (not_publish_bytecode (metadata current)) (not_compress_balance (metadata current)) with
       | Val length => Some (wrap 32 (wrap 32 (pubdata_used + 32) + length))
       | _ => None
       end)
    else (visited_elements, pubdata_used).

Definition account_pubdata_used_by_tx {E} : M StorageModel E Z :=
  items ← iter_altered_since_commit get_account_cache;
  expect (foldl account_pubdata_of_element (∅, Some 0) items).2.
End Accounts.
