(* ===== verification/FlatModel.v ===== *)
(** * The storage model

    Models [basic_system/src/system_implementation/flat_storage_model/mod.rs]: the three
    caches behind the interface [StorageModel], their snapshots, and the end of a block:
    accounts are flushed into the storage, diffs are published, and what was read and
    written is checked against the state commitment and applied to it. *)

From stdpp Require Import gmap sorting strings.
From S2P Require Import Prelude Resources U256 HistoryElement HistoryMap IoCommon FlatStorage Pubdata SystemInterface TxFormats EvmConstants BootSystem StorageCache PreimageCache AccountEntry AccountCache.

Definition TREE_HEIGHT : nat := 64.

(** The oracle of a whole block: slots and preimages while it runs, positions and leaves of
    the tree when it ends. *)
Class BlockOracle : Type := {
  bo_io :: IoOracle;
  bo_previous_index : Z → M Host InternalError Z;
  bo_exact_index : Z → M Host InternalError Z;
  bo_proof_for_index : Z → M Host InternalError LeafProof
}.
#[global] Instance block_state_oracle `{BlockOracle} : StateOracle := {|
  OState := Host;
  previous_index_query := bo_previous_index;
  exact_index_query := bo_exact_index;
  proof_for_index_query := bo_proof_for_index
|}.

Record ModelSnapshot : Type := mkModelSnapshot {
  ms_storage : StorageSnapshotId;
  ms_account_data : nat;
  ms_preimages : nat
}.

(** What the end of a block writes and reports. *)
Record Reports : Type := mkReports {
  rp_pubdata : Pubdata;
  rp_storage_diffs : list (Z * Z * Z);
  rp_new_preimages : list (Z * list Z * PreimageType)
}.

Definition set_pubdata (p : Pubdata) (r : Reports) : Reports :=
  mkReports p (rp_storage_diffs r) (rp_new_preimages r).

Section Model.
Context `{Ruint} `{RuintBits} `{Usize} `{Blake2s} `{Keccak} `{BlockOracle} `{ProofEnv} `{StorageAccessPolicy}.

Abbreviation AM := (M (StorageModel * Env)).

Definition construct : StorageModel := mkModel new_from_parts preimages_new account_cache_new.

Definition pubdata_used_by_tx {E} : M StorageModel E Z :=
  accounts ← account_pubdata_used_by_tx;
  storage ← zoom storage_cache set_storage_cache storage_pubdata_used_by_tx;
  mret (wrap 32 (accounts + storage)).

(** *** Operations *)

Definition model_storage_read (ee_type : ExecutionEnvironmentType) (address key : Z) : AM SystemError Z :=
  on_storage (read ee_type address key).
Definition model_storage_touch (ee_type : ExecutionEnvironmentType) (address key : Z) (is_access_list : bool)
    : AM SystemError unit := on_storage (touch ee_type address key is_access_list).
Definition model_storage_write (ee_type : ExecutionEnvironmentType) (address key new_value : Z) : AM SystemError Z :=
  on_storage (write ee_type address key new_value).

Definition model_get_refund_counter (s : StorageModel) : Z := refund_counter (storage_cache s).

Definition model_add_evm_refund (refund : Z) : AM SystemError unit :=
  on_storage (
    gas_refunds ← gets (λ s, refund_counter s.1);
    set_refund_counter (wrap 32 (gas_refunds + refund))).

(** *** Snapshots *)

Definition model_begin_new_tx : M StorageModel InternalError unit :=
  zoom storage_cache set_storage_cache begin_new_tx ;;
  zoom preimages_cache set_preimages_cache preimages_begin_new_tx ;;
  account_begin_new_tx.

Definition model_finish_tx : M StorageModel InternalError unit :=
  account_finish_tx ;;
  zoom storage_cache set_storage_cache finish_tx.

Definition model_start_frame : M StorageModel InternalError ModelSnapshot :=
  storage_handle ← zoom storage_cache set_storage_cache start_frame;
  preimages_handle ← zoom preimages_cache set_preimages_cache preimages_start_frame;
  account_handle ← account_start_frame;
  mret (mkModelSnapshot storage_handle account_handle preimages_handle).

Definition model_finish_frame (rollback_handle : option ModelSnapshot) : M StorageModel InternalError unit :=
  zoom storage_cache set_storage_cache (finish_frame_impl (ms_storage <$> rollback_handle)) ;;
  zoom preimages_cache set_preimages_cache (preimages_finish_frame (ms_preimages <$> rollback_handle)) ;;
  account_finish_frame (ms_account_data <$> rollback_handle).

(** *** The end of the block *)

Abbreviation FM := (M (Reports * (StorageModel * Env)) InternalError).
Definition on_model {A} (m : M StorageModel InternalError A) : FM A :=
  zoom (λ s, s.2.1) (λ x s, (s.1, (x, s.2.2))) m.
Definition publishing {A} (m : M Pubdata InternalError A) : FM A :=
  zoom (λ s, rp_pubdata s.1) (λ p s, (set_pubdata p s.1, s.2)) m.
Definition with_preimages {A} (m : M (Pubdata * (Preimages * Env)) InternalError A) : FM A :=
  zoom (λ s, (rp_pubdata s.1, (preimages_cache s.2.1, s.2.2)))
    (λ x s, (set_pubdata x.1 s.1, (set_preimages_cache x.2.1 s.2.1, x.2.2))) m.

(** The [Err(())] of the callback; [finish_internal] makes an internal error of it. *)
Definition pubdata_error : InternalError := internal_error "Failed to compute pubdata".

(** The diff of a slot: its flat key, and the diff of the account or of the value. *)
Definition publish_diff (l r : SlotRecord) (k : WarmStorageKey) : FM unit :=
  if cr_value l =? cr_value r then mret tt
  else
    let derived_key := digest (repeat 0 12 ++ be_bytes 20 (sk_address k) ++ be_bytes 32 (sk_key k)) in
    publishing (publish (be_bytes 32 derived_key)) ;;
    if sk_address k =? ACCOUNT_PROPERTIES_STORAGE_ADDRESS then
      account_address ← expect (b160_try_from_be_slice (drop 12 (be_bytes 32 (sk_key k))));
      cache_item ← gets (λ s, btree (get_account_cache s.2.1) !! mkBits account_address);
      match cache_item with
      | None => throw pubdata_error
      | Some _ =>
          values ← peek (λ s, get_account_cache s.2.1)
                     (HistoryMap.initial_and_last (E:=unit) (mkBits account_address));
          match values with
          | None => throw pubdata_error
          | Some (l, r) =>
              map_err (λ _, pubdata_error)
                (with_preimages (diff_compression (cr_value l) (cr_value r) (not_publish_bytecode (metadata r))))
          end
      end
    else publishing (optimal_compression (cr_value l) (cr_value r)).

Definition report_storage_diffs : FM unit :=
  diffs ← on_model (zoom storage_cache set_storage_cache net_diffs_iter);
  modify (λ s, (mkReports (rp_pubdata s.1)
    (map (λ '(k, v), (sk_address k, sk_key k, current_value v)) diffs) (rp_new_preimages s.1), s.2)).

Definition report_preimages : FM unit :=
  l ← on_model (zoom preimages_cache set_preimages_cache report_new_preimages);
  modify (λ s, (mkReports (rp_pubdata s.1) (rp_storage_diffs s.1) l, s.2)).

(** Everything before the commitment; the result is what [net_accesses_iter] gives. *)
Definition finish_pubdata : FM (list (WarmStorageKey * WarmStorageValue)) :=
  zoom snd (λ x s, (s.1, x)) (unwrap persist_changes) ;;
  report_storage_diffs ;;
  report_preimages ;;
  diffs ← on_model (zoom storage_cache set_storage_cache net_diffs_iter);
  publishing (publish (be_bytes 4 (wrap 32 (Z.of_nat (length diffs))))) ;;
  apply_to_all_updated_elements (λ s, cache (storage_cache s.2.1)) publish_diff ;;
  on_model (zoom storage_cache set_storage_cache net_accesses_iter).

(** The commitment after the block, with the log of the hasher; the oracle goes on from
    where the block has left it.  [N] is the height of the tree, [TREE_HEIGHT] in the
    source. *)
Definition apply_to_commitment (N : nat) (c : FlatStorageCommitment) (it : list (WarmStorageKey * WarmStorageValue))
    : FM Batch := λ s,
  let env := s.2.2 in
  let '(o, b) := verify_and_apply_batch N it (start_batch (host (env_oracle env)) c) in
  let s' := (s.1, (s.2.1, mkEnv _ (env_res env)
             (mkOracle _ (oracle b) (slot_answers (env_oracle env)) (preimage_answers (env_oracle env))))) in
  match o with
  | Val _ => (Val b, s')
  | Err e => (Err e, s')
  | Fault => (Fault, s')
  end.

Definition finish_internal (N : nat) (state_commitment : option FlatStorageCommitment) : FM (option Batch) :=
  it ← finish_pubdata;
  match state_commitment with
  | None => mret None
  | Some c => b ← apply_to_commitment N c it; mret (Some b)
  end.

(** The hash over all changed slots, in the order of their keys. *)
Definition state_diffs_hash {E} : M StorageModel E Z :=
  keys ← gets (sorted_keys ∘ cache ∘ storage_cache);
  parts ← map_each (λ k,
    values ← peek (cache ∘ storage_cache) (HistoryMap.initial_and_last (E:=unit) k);
    mret (match values with
          | Some (l, r) =>
              if cr_value l =? cr_value r then []
              else be_bytes 32 (digest (repeat 0 12 ++ be_bytes 20 (sk_address k) ++ be_bytes 32 (sk_key k)))
                   ++ be_bytes 32 (cr_value r)
          | None => []
          end)) keys;
  mret (digest (concat parts)).

Definition finish_and_calculate_state_diffs_hash (N : nat) (state_commitment : option FlatStorageCommitment)
    : FM (option Batch * Z) :=
  b ← finish_internal N state_commitment;
  h ← on_model state_diffs_hash;
  mret (b, h).

(** *** The interface as data

    One constructor per operation; [MUpdateBalance] has the callback as an argument. *)
Inductive model_op : Type :=
| MStorageRead (ee_type : ExecutionEnvironmentType) (address key : Z)
| MStorageTouch (ee_type : ExecutionEnvironmentType) (address key : Z) (is_access_list : bool)
| MStorageWrite (ee_type : ExecutionEnvironmentType) (address key new_value : Z)
| MReadAccount (ee_type : ExecutionEnvironmentType) (address : Z) (request : list AccountField)
| MTouchAccount (ee_type : ExecutionEnvironmentType) (address : Z) (is_access_list : bool)
| MSelfbalance (ee_type : ExecutionEnvironmentType) (address : Z)
| MDeployCode (from_ee : ExecutionEnvironmentType) (at_address : Z) (bytecode : list Z)
| MSetBytecodeDetails (at_address : Z) (ee : ExecutionEnvironmentType) (bytecode_hash bytecode_len
    artifacts_len observable_bytecode_hash observable_bytecode_len : Z)
| MSetDelegation (at_address delegate : Z)
| MMarkForDeconstruction (from_ee : ExecutionEnvironmentType) (at_address beneficiary : Z) (in_constructor : bool)
| MIncrementNonce (ee_type : ExecutionEnvironmentType) (address increment_by : Z)
| MTransfer (from_ee : ExecutionEnvironmentType) (from to amount : Z)
| MUpdateBalance (from_ee : ExecutionEnvironmentType) (address : Z)
    (update_fn : Z → BalanceSubsystemError + Z) (fee_payment_in_simulation : bool)
| MAddRefund (refund : Z)
| MRefundCounter
| MPubdataUsed
| MBeginTx
| MFinishTx
| MStartFrame
| MFinishFrame (rollback_handle : option ModelSnapshot).

Inductive model_result : Type :=
| RUnit
| RNumber (n : Z)
| RAccount (a : BootSystem.AccountData)
| RCode (code : list Z) (hash len : Z)
| RSnapshot (h : ModelSnapshot).

Definition model_error : Type := SubsystemError (NonceError + BalanceError) DeconstructionWrapped.

Definition nonce_model_error (e : NonceSubsystemError) : model_error :=
  match e with
  | SLeafUsage e => SLeafUsage (inl e)
  | SLeafDefect e => SLeafDefect e
  | SLeafRuntime e => SLeafRuntime e
  | SCascaded e => match e with end
  end.
Definition balance_model_error (e : BalanceSubsystemError) : model_error :=
  match e with
  | SLeafUsage e => SLeafUsage (inr e)
  | SLeafDefect e => SLeafDefect e
  | SLeafRuntime e => SLeafRuntime e
  | SCascaded e => match e with end
  end.
Definition deconstruction_model_error (e : DeconstructionSubsystemError) : model_error :=
  match e with
  | SLeafUsage e => match e with end
  | SLeafDefect e => SLeafDefect e
  | SLeafRuntime e => SLeafRuntime e
  | SCascaded e => SCascaded e
  end.

(** An operation on the caches alone. *)
Definition on_caches {E A} (m : M StorageModel E A) : M (StorageModel * Env) E A :=
  zoom fst (λ x s, (x, s.2)) m.

Definition run_model_op (o : model_op) : M (StorageModel * Env) model_error model_result :=
  match o with
  | MStorageRead ee address key => n ← map_err subsystem_of_system (model_storage_read ee address key); mret (RNumber n)
  | MStorageTouch ee address key b => map_err subsystem_of_system (model_storage_touch ee address key b) ;; mret RUnit
  | MStorageWrite ee address key value =>
      n ← map_err subsystem_of_system (model_storage_write ee address key value); mret (RNumber n)
  | MReadAccount ee address fields =>
      a ← map_err subsystem_of_system (account_read_properties ee address fields); mret (RAccount a)
  | MTouchAccount ee address b => map_err subsystem_of_system (account_touch ee address b) ;; mret RUnit
  | MSelfbalance ee address =>
      n ← map_err subsystem_of_system (read_account_balance_assuming_warm ee address); mret (RNumber n)
  | MDeployCode ee address code =>
      '(code, hash, len) ← map_err subsystem_of_system (account_deploy_code ee address code); mret (RCode code hash len)
  | MSetBytecodeDetails a ee h l al oh ol =>
      map_err subsystem_of_system (account_set_bytecode_details a ee h l al oh ol) ;; mret RUnit
  | MSetDelegation a d => map_err subsystem_of_system (account_set_delegation a d) ;; mret RUnit
  | MMarkForDeconstruction ee a b c =>
      n ← map_err deconstruction_model_error (account_mark_for_deconstruction ee a b c); mret (RNumber n)
  | MIncrementNonce ee a n => n ← map_err nonce_model_error (account_increment_nonce ee a n); mret (RNumber n)
  | MTransfer ee from to amount =>
      map_err balance_model_error (account_transfer_nominal_token_value ee from to amount) ;; mret RUnit
  | MUpdateBalance ee a f sim =>
      n ← map_err balance_model_error (account_update_nominal_token_value ee a f sim); mret (RNumber n)
  | MAddRefund refund => map_err subsystem_of_system (model_add_evm_refund refund) ;; mret RUnit
  | MRefundCounter => n ← gets (λ s, model_get_refund_counter s.1); mret (RNumber n)
  | MPubdataUsed => n ← on_caches pubdata_used_by_tx; mret (RNumber n)
  | MBeginTx => map_err SLeafDefect (on_caches model_begin_new_tx) ;; mret RUnit
  | MFinishTx => map_err SLeafDefect (on_caches model_finish_tx) ;; mret RUnit
  | MStartFrame => h ← map_err SLeafDefect (on_caches model_start_frame); mret (RSnapshot h)
  | MFinishFrame h => map_err SLeafDefect (on_caches (model_finish_frame h)) ;; mret RUnit
  end.

(** *** A client

    Whoever uses the storage model, as the bootloader with the transactions of a block
    does: the next operation, with its resources, from the results of those before, with
    the resources they left. *)
Definition results : Type := list (outcome model_error model_result * Res).
Definition client : Type := results → option (Res * model_op).

Fixpoint run_client (fuel : nat) (c : client) (seen : results) (s : StorageModel * Env)
    : results * (StorageModel * Env) :=
  match fuel with
  | O => (seen, s)
  | S fuel =>
      match c seen with
      | None => (seen, s)
      | Some (res, o) =>
          let '(r, s) := run_model_op o (s.1, mkEnv _ res (env_oracle s.2)) in
          run_client fuel c (seen ++ [(r, env_res s.2)]) s
      end
  end.

Definition no_reports : Reports := mkReports (mkPubdata [] []) [] [].
Definition fresh_oracle (h : Host) : Oracle := mkOracle _ h [] [].
Definition fresh_model (h : Host) : StorageModel * Env := (construct, mkEnv _ res_empty (fresh_oracle h)).
End Model.
