(* ===== verification/FlatDeterminism.v ===== *)
(** * Two runs with different oracles

    What the storage model computes does not depend on what an untrusted oracle answers:
    first the logic in which this is shown, then every operation of the model.  [det m] compares two runs of a computation from
    states that differ in the oracle only: if neither ends in a panic or in an internal
    error, and the answers that have been believed in the two runs agree, then the runs
    have the same result and end in states that differ in the oracle only.  The answers
    of a run are kept in its state for good, so [det] is closed under sequencing. *)

From stdpp Require Import gmap sorting strings.
From S2P Require Import Prelude Resources U256 HistoryElement HistoryMap IoCommon FlatStorage SystemInterface BootSystem StorageCache PreimageCache Pubdata TxFormats EvmConstants Bytecode AccountEntry AccountCache FlatModel.

(** ** Internal errors *)

(** An internal error stops the block. *)
Class Defect (E : Type) : Type := is_defect : E → bool.
#[global] Instance internal_defect : Defect InternalError := λ _, true.
#[global] Instance system_defect : Defect SystemError := λ e,
  match e with LeafDefect _ => true | LeafRuntime _ => false end.
#[global] Instance empty_defect : Defect Empty_set := λ e, match e with end.
#[global] Instance subsystem_defect {I C} `{Defect C} : Defect (SubsystemError I C) := λ e,
  match e with
  | SLeafDefect _ => true
  | SCascaded c => is_defect c
  | SLeafUsage _ | SLeafRuntime _ => false
  end.
#[global] Instance deconstruction_defect : Defect DeconstructionWrapped := λ e,
  match e with DeconstructionBalance e => is_defect e end.

#[global] Instance map_defect {E} `{Defect E} : Defect (HistoryMapError E) := λ e,
  match e with CallbackError e => is_defect e | _ => true end.

Definition fine {E A} `{Defect E} (r : outcome E A) : Prop :=
  match r with Val _ => True | Err e => is_defect e = false | Fault => False end.

(** ** States with an oracle *)

Section Views.
Context `{IoOracle}.

(** The parts of a state: what two runs must have in common, the resources and the oracle,
    and the preimages that are held for good. *)
Record View (S : Type) : Type := mkView {
  Core : Type;
  core : S → Core;
  env : S → Env;
  held : S → gmap Z (list Z)
}.
Arguments mkView {S Core}.
Arguments Core {S}.
Arguments core {S} v.
Arguments env {S} v.
Arguments held {S} v.

Definition answers {S} (v : View S) (s : S) : list (WarmStorageKey * InitialStorageSlotData) :=
  slot_answers (env_oracle (env v s)).

Definition same {S} (v : View S) (s1 s2 : S) : Prop :=
  core v s1 = core v s2 ∧ env_res (env v s1) = env_res (env v s2).

(** Nothing that was believed is forgotten. *)
Definition grows {S} (v : View S) (s s' : S) : Prop :=
  answers v s ⊆ answers v s' ∧ held v s ⊆ held v s'.

(** The same has been believed. *)
Definition compatible {S} (v : View S) (s1 s2 : S) : Prop :=
  (∀ k d1 d2, (k, d1) ∈ answers v s1 → (k, d2) ∈ answers v s2 → d1 = d2)
  ∧ (∀ h b1 b2, held v s1 !! h = Some b1 → held v s2 !! h = Some b2 → b1 = b2).

#[global] Instance grows_preorder {S} (v : View S) : PreOrder (grows v).
Proof.
  split; [by split|]. intros s1 s2 s3 [A1 P1] [A2 P2]. split; etransitivity; eauto.
Qed.

#[global] Instance same_equivalence {S} (v : View S) : Equivalence (same v).
Proof.
  split; [by split| |].
  - intros s1 s2 [E1 E2]. by split.
  - intros s1 s2 s3 [E1 E2] [E3 E4]. split; congruence.
Qed.

Lemma compatible_grows {S} (v : View S) s1 s2 s1' s2' :
  grows v s1 s1' → grows v s2 s2' → compatible v s1' s2' → compatible v s1 s2.
Proof.
  intros [A1 P1] [A2 P2] [HA HP]. split.
  - intros k d1 d2 H1 H2. eapply HA; [by apply A1|by apply A2].
  - intros h b1 b2 H1 H2. eapply HP; eapply lookup_weaken; eauto.
Qed.

Definition det {S E A} `{Defect E} (v : View S) (m : M S E A) : Prop :=
  (∀ s, grows v s (m s).2)
  ∧ ∀ s1 s2, same v s1 s2 → fine (m s1).1 → fine (m s2).1 → compatible v (m s1).2 (m s2).2 →
    (m s1).1 = (m s2).1 ∧ same v (m s1).2 (m s2).2.

(** Computations that leave the oracle alone. *)
Definition stable {S E A} (v : View S) (m : M S E A) : Prop :=
  (∀ s, grows v s (m s).2)
  ∧ ∀ s1 s2, same v s1 s2 → (m s1).1 = (m s2).1 ∧ same v (m s1).2 (m s2).2.

Section Rules.
Context {S E : Type} `{Defect E} (v : View S).

Lemma det_stable {A} (m : M S E A) : stable v m → det v m.
Proof. intros [Hg Hs]. split; auto. Qed.

Lemma det_ret {A} (a : A) : det v (mret a : M S E A).
Proof. split; [intros s; apply (reflexivity (R:=grows v))|]. by intros. Qed.

Lemma det_throw {A} e : det v (throw e : M S E A).
Proof. split; [intros s; apply (reflexivity (R:=grows v))|]. by intros. Qed.

Lemma det_fault {A} : det v (fault : M S E A).
Proof. split; [intros s; apply (reflexivity (R:=grows v))|]. by intros ??? []. Qed.

Lemma det_expect {A} (o : option A) : det v (expect o : M S E A).
Proof. destruct o; [apply det_ret|apply det_fault]. Qed.

Lemma det_assert b : det v (assert_that b : M S E unit).
Proof. destruct b; [apply det_ret|apply det_fault]. Qed.

Lemma det_gets {A} (f : S → A) : (∀ s1 s2, same v s1 s2 → f s1 = f s2) → det v (gets f : M S E A).
Proof.
  intros Hf. split; [intros s; apply (reflexivity (R:=grows v))|].
  intros s1 s2 Hs _ _ _. cbn. by rewrite (Hf s1 s2).
Qed.

Lemma det_modify (f : S → S) :
  (∀ s1 s2, same v s1 s2 → same v (f s1) (f s2)) → (∀ s, grows v s (f s)) →
  det v (modify f : M S E unit).
Proof. intros Hf Hg. split; [done|]. intros s1 s2 Hs _ _ _. cbn. auto. Qed.

Lemma det_bind {A B} (m : M S E A) (k : A → M S E B) :
  det v m → (∀ a, det v (k a)) → det v (m ≫= k).
Proof.
  intros [Gm Dm] Dk. split.
  - intros s. unfold mbind, M_bind. specialize (Gm s). destruct (m s) as [[a|e|] s1]; cbn in *; try done.
    etransitivity; [exact Gm|]. apply Dk.
  - intros s1 s2 Hs. unfold mbind, M_bind. specialize (Dm s1 s2 Hs).
    pose proof (Gm s1) as G1. pose proof (Gm s2) as G2.
    destruct (m s1) as [r1 t1], (m s2) as [r2 t2]; cbn in *.
    assert (Hk : ∀ r t, fine (match r with Val a => k a t | Err e => (Err e, t) | Fault => (Fault, t) end).1 →
      fine r ∧ grows v t (match r with Val a => k a t | Err e => (Err e, t) | Fault => (Fault, t) end).2).
    { intros [a|e|] t; cbn; [|done..]. intros _. split; [done|apply Dk]. }
    intros F1 F2 Hc. destruct (Hk r1 t1 F1) as [R1 K1], (Hk r2 t2 F2) as [R2 K2].
    destruct (Dm R1 R2) as [-> Ht]; [by eapply compatible_grows|].
    destruct r2 as [a|e|]; [|done..]. by apply Dk.
Qed.

Lemma det_when b (m : M S E unit) : det v m → det v (when b m).
Proof. destruct b; [done|]. intros _. apply det_ret. Qed.

Lemma det_for_each {A} (l : list A) (body : A → M S E unit) :
  (∀ a, det v (body a)) → det v (for_each l body).
Proof.
  intros Hb. induction l as [|a l IH]; cbn [for_each]; [apply det_ret|].
  apply det_bind; [apply Hb|done].
Qed.

Lemma det_map_each {A B} (l : list A) (f : A → M S E B) :
  (∀ a, det v (f a)) → det v (map_each f l).
Proof.
  intros Hf. induction l as [|a l IH]; cbn [map_each]; [apply det_ret|].
  apply det_bind; [apply Hf|]. intros b. apply det_bind; [done|]. intros bs. apply det_ret.
Qed.

Lemma det_map_err {F A} `{Defect F} (f : E → F) (m : M S E A) :
  (∀ e, is_defect e = true → is_defect (f e) = true) → det v m → det v (map_err f m).
Proof.
  intros Hf [Gm Dm]. split.
  - intros s. specialize (Gm s). unfold map_err. by destruct (m s) as [[] ?].
  - intros s1 s2 Hs. specialize (Dm s1 s2 Hs). unfold map_err.
    assert (∀ e, is_defect (f e) = false → is_defect e = false) as Hf'.
    { intros e He. destruct (is_defect e) eqn:E1; [|done]. by rewrite Hf in He. }
    destruct (m s1) as [[a|e|] t1], (m s2) as [[a'|e'|] t2]; cbn in *; intros F1 F2 Hc; try done;
      destruct Dm as [E1 E2]; auto; by simplify_eq.
Qed.

Lemma det_unwrap {F A} `{Defect F} (m : M S E A) : det v m → det v (unwrap m : M S F A).
Proof.
  intros [Gm Dm]. split.
  - intros s. specialize (Gm s). unfold unwrap. by destruct (m s) as [[] ?].
  - intros s1 s2 Hs. specialize (Dm s1 s2 Hs). unfold unwrap.
    destruct (m s1) as [[a|e|] t1], (m s2) as [[a'|e'|] t2]; cbn in *; intros F1 F2 Hc; try done.
    destruct Dm as [E1 E2]; auto. by simplify_eq.
Qed.
End Rules.

(** A part of the state that has its own view. *)
Record subview {S T} (v : View S) (w : View T) (get : S → T) (put : T → S → S) : Prop := {
  sv_get s1 s2 : same v s1 s2 → same w (get s1) (get s2);
  sv_put s1 s2 t1 t2 : same v s1 s2 → same w t1 t2 → same v (put t1 s1) (put t2 s2);
  sv_grows s t : grows w (get s) t → grows v s (put t s);
  sv_compatible s1 s2 t1 t2 : compatible v (put t1 s1) (put t2 s2) → compatible w t1 t2
}.

Lemma det_zoom {S T E A} `{Defect E} (v : View S) (w : View T) get put (m : M T E A) :
  subview v w get put → det w m → det v (zoom get put m).
Proof.
  intros [Hg Hp Hgr Hc] [Gm Dm]. split.
  - intros s. specialize (Gm (get s)). unfold zoom. destruct (m (get s)) as [o t]. by apply Hgr.
  - intros s1 s2 Hs. specialize (Dm (get s1) (get s2) (Hg _ _ Hs)). unfold zoom.
    destruct (m (get s1)) as [o1 t1], (m (get s2)) as [o2 t2]. cbn in *. intros F1 F2 Hcomp.
    destruct Dm as [-> Ht]; [done|done|by eapply Hc|]. split; [done|]. by apply Hp.
Qed.

(** A part of the state that has nothing to do with the oracle. *)
Record subpart {S T} (v : View S) (get : S → T) (put : T → S → S) : Prop := {
  sp_get s1 s2 : same v s1 s2 → get s1 = get s2;
  sp_put s1 s2 t : same v s1 s2 → same v (put t s1) (put t s2);
  sp_grows s t : grows v s (put t s)
}.

Lemma det_part {S T E A} `{Defect E} (v : View S) get put (m : M T E A) :
  subpart v get put → det v (zoom get put m).
Proof.
  intros [Hg Hp Hgr]. apply det_stable. split.
  - intros s. unfold zoom. destruct (m (get s)) as [o t]. apply Hgr.
  - intros s1 s2 Hs. unfold zoom. rewrite (Hg s1 s2 Hs). destruct (m (get s2)) as [o t]. cbn. auto.
Qed.

Lemma det_on_map {S K V E F A} `{Countable K} `{Defect E} `{Defect F} (v : View S)
    (getm : S → HistoryMap K V) putm (err : HistoryMapError E → F) (m : M _ _ A) :
  subpart v getm putm → (∀ e, is_defect e = true → is_defect (err e) = true) →
  det v (on_map getm putm err m).
Proof. intros Hp He. apply det_map_err; [done|]. by apply det_part. Qed.

Lemma det_peek {S T E F A} `{Defect F} (v : View S) (get : S → T) (m : M T E A) :
  (∀ s1 s2, same v s1 s2 → get s1 = get s2) → det v (peek get m : M S F A).
Proof.
  intros Hg. apply det_stable. split.
  - intros s. unfold peek. destruct (m (get s)) as [[] t]; cbn; reflexivity.
  - intros s1 s2 Hs. unfold peek. rewrite (Hg s1 s2 Hs). by destruct (m (get s2)) as [[] t].
Qed.

(** *** Resources and the oracle alone *)

Definition env_view : View Env := mkView (λ _, tt) id (λ _, ∅).

Lemma det_on_res {E A} `{Defect E} (m : M Res E A) : det env_view (on_res m).
Proof.
  apply det_part. split.
  - intros s1 s2 [_ Hs]. exact Hs.
  - intros s1 s2 t [_ Hs]. by split.
  - intros s t. by split.
Qed.

Lemma det_query_slot key : det env_view (query_slot key).
Proof.
  split.
  - intros [r o]. unfold query_slot, grows, answers. cbn.
    destruct (initial_storage_slot_query key (host o)) as [[d|e|] h]; cbn; split; try done. set_solver.
  - intros [r1 o1] [r2 o2] [_ Hs]. cbn in Hs. subst r2. unfold query_slot. cbn.
    destruct (initial_storage_slot_query key (host o1)) as [[d1|e1|] h1],
      (initial_storage_slot_query key (host o2)) as [[d2|e2|] h2]; cbn; try done.
    intros _ _ [Hc _]. rewrite (Hc key d1 d2); [done|..]; unfold answers; cbn; set_solver.
Qed.
End Views.

Arguments mkView {_ S Core}.
Arguments Core {_ S}.
Arguments core {_ S} v.
Arguments env {_ S} v.
Arguments held {_ S} v.

Create HintDb det.
#[export] Hint Resolve det_ret det_throw det_fault det_expect det_assert det_on_res det_query_slot : det.

(** States that are the same but for the oracle, taken apart. *)
Ltac split_states :=
  match goal with Hs : same _ _ _ |- _ => destruct Hs end;
  repeat match goal with p : (_ * _)%type |- _ => destruct p end;
  cbn in *; simplify_eq.

(** One step through the structure of a computation. *)
Ltac det_step :=
  match goal with
  | |- det _ (mret _) => apply det_ret
  | |- det _ (throw _) => apply det_throw
  | |- det _ fault => apply det_fault
  | |- det _ (expect _) => apply det_expect
  | |- det _ (assert_that _) => apply det_assert
  | |- det _ (_ ≫= _) => apply det_bind; [|intros ?]
  | |- det _ (when _ _) => apply det_when
  | |- det _ (for_each _ _) => apply det_for_each; intros ?
  | |- det _ (map_each _ _) => apply det_map_each; intros ?
  | |- det _ (gets _) => apply det_gets; intros; split_states; done
  | |- det _ (modify _) => apply det_modify; [intros; split_states; done | by split]
  | |- det _ (match ?x with _ => _ end) => destruct x
  | |- det _ (let '(_, _) := ?x in _) => destruct x
  | |- det _ (if ?x then _ else _) => destruct x
  end.
Ltac det_steps := repeat (det_step || solve [eauto 3 with det]).

(** ** The storage model does not depend on the oracle

    Every operation of the storage model is [det] (OracleLogic.v): two runs that have
    believed the same answers have the same results.  What has been believed is what the
    state commitment and the hashes vouch for, so the result of a block is a function of the
    root it starts from. *)

Section Operations.
Context `{Ruint} `{RuintBits} `{Usize} `{Blake2s} `{Keccak} `{BlockOracle} `{ProofEnv} `{StorageAccessPolicy}.

Definition pair_view {X} (h : X → gmap Z (list Z)) : View (X * Env) := mkView fst snd (λ s, h s.1).
Definition storage_view : View (PlainStorage * Env) := pair_view (λ _, ∅).
Definition preimages_view : View (Preimages * Env) := pair_view preimages.
Definition model_view : View (StorageModel * Env) := pair_view (preimages ∘ preimages_cache).
Definition diff_view : View (Pubdata * (Preimages * Env)) :=
  mkView (λ s, (s.1, s.2.1)) (λ s, s.2.2) (λ s, preimages s.2.1).
Definition finish_view : View (Reports * (StorageModel * Env)) :=
  mkView (λ s, (s.1, s.2.1)) (λ s, s.2.2) (λ s, preimages (preimages_cache s.2.1)).

(** ** Where a part is in the whole *)

Ltac solve_view :=
  split; unfold same, grows, compatible, answers; cbn;
  [ intros ?? [??]; split; congruence
  | intros ???? [E1 E2] [E3 E4]; split; congruence
  | intros ?? [??]; done
  | intros ???? [Hc1 Hc2]; split; [exact Hc1|];
    try (intros ??? Hl; rewrite lookup_empty in Hl; discriminate); exact Hc2 ].

Lemma env_in_storage : subview storage_view env_view snd (λ e s, (s.1, e)).
Proof. solve_view. Qed.
Lemma env_in_preimages : subview preimages_view env_view snd (λ e s, (s.1, e)).
Proof. solve_view. Qed.
Lemma env_in_model : subview model_view env_view snd (λ e s, (s.1, e)).
Proof. solve_view. Qed.
Lemma storage_in_model : subview model_view storage_view
  (λ s, (storage_cache s.1, s.2)) (λ x s, (set_storage_cache x.1 s.1, x.2)).
Proof. solve_view. Qed.
Lemma preimages_in_model : subview model_view preimages_view
  (λ s, (preimages_cache s.1, s.2)) (λ x s, (set_preimages_cache x.1 s.1, x.2)).
Proof. solve_view. Qed.
Lemma preimages_in_diff : subview diff_view preimages_view snd (λ p s, (s.1, p)).
Proof. solve_view. Qed.
Lemma model_in_finish : subview finish_view model_view snd (λ x s, (s.1, x)).
Proof. solve_view. Qed.
Lemma diff_in_finish : subview finish_view diff_view
  (λ s, (rp_pubdata s.1, (preimages_cache s.2.1, s.2.2)))
  (λ x s, (set_pubdata x.1 s.1, (set_preimages_cache x.2.1 s.2.1, x.2.2))).
Proof. solve_view. Qed.

Ltac solve_part :=
  split; unfold same, grows, answers, get_cache, put_cache, compose; cbn;
  [intros ?? [??]; congruence | intros ??? [??]; split; congruence | by split].

Lemma cache_in_storage : subpart storage_view get_cache put_cache.
Proof. solve_part. Qed.
Lemma publication_in_preimages :
  subpart preimages_view (publication_storage ∘ fst) (λ p s, (set_publication p s.1, s.2)).
Proof. solve_part. Qed.
Lemma accounts_in_model :
  subpart model_view (get_account_cache ∘ fst) (λ c s, (set_account_cache c s.1, s.2)).
Proof. solve_part. Qed.
Lemma pubdata_in_diff : subpart diff_view fst (λ p s, (p, s.2)).
Proof. solve_part. Qed.
Lemma pubdata_in_finish :
  subpart finish_view (λ s, rp_pubdata s.1) (λ p s, (set_pubdata p s.1, s.2)).
Proof. solve_part. Qed.

(** ** The storage cache *)

Lemma det_on_cache {A} m : det storage_view (on_cache (A:=A) m).
Proof. apply det_on_map; [apply cache_in_storage|]. by intros [| |e]. Qed.
Lemma det_on_env {A} (m : M Env SystemError A) : det env_view m → det storage_view (on_env m).
Proof. apply det_zoom, env_in_storage. Qed.
Lemma det_charging m : det storage_view (charging m).
Proof. apply det_on_env, det_on_res. Qed.
#[local] Hint Resolve det_on_cache det_on_env det_charging : det.

Lemma det_materialize_element ee key b : det storage_view (materialize_element ee key b).
Proof. unfold materialize_element, get_or_initialize, initialize_element, current_record. det_steps. Qed.
#[local] Hint Resolve det_materialize_element : det.

Lemma det_apply_read ee key b : det storage_view (apply_read_impl ee key b).
Proof. unfold apply_read_impl, current_record. det_steps. Qed.
Lemma det_apply_write ee key value : det storage_view (apply_write_impl ee key value).
Proof. unfold apply_write_impl, current_record. det_steps. Qed.
#[local] Hint Resolve det_apply_read det_apply_write : det.

Lemma det_set_refund_counter value : det storage_view (set_refund_counter value).
Proof. unfold set_refund_counter. det_steps. Qed.
#[local] Hint Resolve det_set_refund_counter : det.

Lemma det_write ee address key value : det storage_view (write ee address key value).
Proof. unfold write. det_steps. Qed.

(** ** The preimages *)

Lemma det_pc_charge m : det preimages_view (pc_charge m).
Proof. apply (det_zoom _ env_view); [apply env_in_preimages|apply det_on_res]. Qed.
Lemma det_on_publication {A} m : det preimages_view (on_publication (A:=A) m).
Proof. apply det_on_map; [apply publication_in_preimages|]. by intros [| |e]. Qed.
#[local] Hint Resolve det_pc_charge det_on_publication : det.

Lemma or_insert_lookup h b s : ∃ c, preimages (or_insert h b s) !! h = Some c.
Proof. unfold or_insert. destruct (preimages s !! h) eqn:E; [by exists l|]. exists b. apply lookup_insert_eq. Qed.

Lemma or_insert_grows h b s : preimages s ⊆ preimages (or_insert h b s).
Proof. unfold or_insert. destruct (preimages s !! h) eqn:E; [done|]. by apply insert_subseteq. Qed.

(** A preimage that is fetched leaves resources and slots alone; if it is believed, it is
    in the cache. *)
Lemma fetch_preimage_spec t hash len s :
  let '(r, s') := fetch_preimage t hash len s in
  env_res s'.2 = env_res s.2 ∧ answers preimages_view s' = answers preimages_view s
  ∧ preimages s.1 ⊆ preimages s'.1
  ∧ (fine r → ∃ b c, s'.1 = or_insert hash b s.1 ∧ preimages s'.1 !! hash = Some c ∧ r = Val c
                     ∧ (PROOF_ENV = true → digest b = hash)).
Proof.
  unfold fetch_preimage, query_preimage, mbind, M_bind, answers. destruct s as [p [r o]]. cbn.
  destruct (preimage_query hash (host o)) as [[words|e|] h]; cbn; try by (split_conj; [..|intros []]).
  destruct (_ <? _); cbn; [by split_conj|]. destruct (_ <=? _); cbn; [|by split_conj].
  set (b := take _ _). destruct (PROOF_ENV && _) eqn:E; cbn; [by split_conj|].
  destruct (or_insert_lookup hash b p) as [c Hc]. rewrite Hc. cbn.
  split_conj; [done|done|apply or_insert_grows|]. intros _. exists b, c. split_conj; try done.
  intros HP. rewrite HP in E. cbn in E. apply negb_false_iff, Z.eqb_eq in E. done.
Qed.

Lemma det_fetch_preimage t hash len : det preimages_view (fetch_preimage t hash len).
Proof.
  split.
  - intros s. pose proof (fetch_preimage_spec t hash len s) as Hf.
    destruct (fetch_preimage t hash len s) as [r s']. destruct Hf as (_ & Ha & Hp & _). cbn [snd].
    split; [by rewrite Ha|done].
  - intros s1 s2 [Hc Hr]. cbn in Hc, Hr.
    pose proof (fetch_preimage_spec t hash len s1) as H1'. pose proof (fetch_preimage_spec t hash len s2) as H2'.
    destruct (fetch_preimage t hash len s1) as [r1 t1], (fetch_preimage t hash len s2) as [r2 t2]. cbn.
    destruct H1' as (R1 & _ & _ & F1), H2' as (R2 & _ & _ & F2). intros Hf1 Hf2 [_ Hcomp]. cbn in Hcomp.
    destruct (F1 Hf1) as (b1 & c1 & E1 & L1 & -> & _), (F2 Hf2) as (b2 & c2 & E2 & L2 & -> & _).
    assert (c1 = c2) as <- by (by eapply Hcomp). split; [done|]. split; cbn; [|congruence].
    rewrite E1, E2, <- Hc in *. unfold or_insert in *. destruct (preimages s1.1 !! hash); [done|].
    cbn in L1, L2. rewrite lookup_insert_eq in L1, L2. congruence.
Qed.
#[local] Hint Resolve det_fetch_preimage : det.

Lemma det_get_preimage request : det preimages_view (get_preimage request).
Proof. unfold get_preimage, expose_preimage. det_steps. Qed.

Lemma det_insert_preimage t hash preimage : det preimages_view (insert_verified_preimage t hash preimage).
Proof.
  unfold insert_verified_preimage. det_steps. apply det_modify.
  - intros. by split_states.
  - intros s. split; [done|]. apply or_insert_grows.
Qed.
#[local] Hint Resolve det_get_preimage det_insert_preimage : det.

Lemma det_record_preimage request l : det preimages_view (record_preimage request l).
Proof. unfold record_preimage. det_steps. Qed.
#[local] Hint Resolve det_record_preimage : det.

(** ** Accounts *)

Section Resources.
Context {X E : Type} `{Defect E} (h : X → gmap Z (list Z)).

Lemma det_with_resources {A} r (m : M (X * Env) E A) :
  det (pair_view h) m → det (pair_view h) (with_resources r m).
Proof.
  intros [Gm Dm]. split.
  - intros [x [res o]]. specialize (Gm (x, mkEnv _ r o)). unfold with_resources. cbn.
    destruct (m _) as [[a|e|] [x' [res' o']]]; exact Gm.
  - intros [x1 [res1 o1]] [x2 [res2 o2]] [Hc Hr]. cbn in Hc, Hr. subst x2 res2.
    specialize (Dm (x1, mkEnv _ r o1) (x1, mkEnv _ r o2)). unfold with_resources. cbn.
    destruct (m (x1, mkEnv _ r o1)) as [[a1|e1|] [y1 [s1 p1]]],
      (m (x1, mkEnv _ r o2)) as [[a2|e2|] [y2 [s2 p2]]]; cbn in *; intros F1 F2 Hcomp; try done;
      (destruct Dm as [E1 [E2 E3]]; [by split|done|done|exact Hcomp|]); cbn in *; by simplify_eq.
Qed.

Lemma det_with_formal_infinite {A} (m : M (X * Env) E A) :
  det (pair_view h) m → det (pair_view h) (with_formal_infinite m).
Proof.
  intros Hm. unfold with_formal_infinite. apply det_bind; [by apply det_with_resources|].
  intros [a r]. apply det_ret.
Qed.

Lemma det_infinite_ergs {A} (m : M (X * Env) E A) :
  det (pair_view h) m →
  det (pair_view h) (with_infinite_ergs (λ s, env_res s.2) (λ r s, (s.1, mkEnv _ r (env_oracle s.2))) m).
Proof.
  intros [Gm Dm]. split.
  - intros [x [res o]]. unfold with_infinite_ergs. cbn.
    specialize (Gm (x, mkEnv _ (mkResources (mkErgs (umax 64)) (native res)) o)).
    destruct (m _) as [r [x' [res' o']]]; exact Gm.
  - intros [x1 [res o1]] [x2 [res2 o2]] [Hc Hr]. cbn in Hc, Hr. subst x2 res2.
    unfold with_infinite_ergs. cbn. set (res' := mkResources _ _).
    specialize (Dm (x1, mkEnv _ res' o1) (x1, mkEnv _ res' o2)).
    destruct (m (x1, mkEnv _ res' o1)) as [r1 [y1 [s1 p1]]],
      (m (x1, mkEnv _ res' o2)) as [r2 [y2 [s2 p2]]]; cbn in *. intros F1 F2 Hcomp.
    destruct Dm as [E1 [E2 E3]]; [by split|done|done|exact Hcomp|]. cbn in *. by simplify_eq.
Qed.
End Resources.

Lemma det_on_storage {E A} `{Defect E} (m : M (PlainStorage * Env) E A) :
  det storage_view m → det model_view (on_storage m).
Proof. apply det_zoom, storage_in_model. Qed.
Lemma det_on_preimages {E A} `{Defect E} (m : M (Preimages * Env) E A) :
  det preimages_view m → det model_view (on_preimages m).
Proof. apply det_zoom, preimages_in_model. Qed.
Lemma det_on_accounts {A} m : det model_view (on_accounts (A:=A) m).
Proof. apply det_on_map; [apply accounts_in_model|]. by intros [| |e]. Qed.
Lemma det_charge_res {E} `{Defect E} (m : M Res E unit) : det model_view (charge_res m).
Proof. apply (det_zoom _ env_view); [apply env_in_model|apply det_on_res]. Qed.
Lemma det_infinitely {E A} `{Defect E} (m : M (StorageModel * Env) E A) :
  det model_view m → det model_view (infinitely m).
Proof. apply det_infinite_ergs. Qed.
#[local] Hint Resolve det_on_storage det_on_preimages det_on_accounts det_charge_res det_infinitely
  det_write det_with_resources det_with_formal_infinite : det.

Lemma det_materialize_account ee a b c : det model_view (materialize_account ee a b c).
Proof.
  unfold materialize_account, get_or_initialize_account, initialize_account, current_account,
    charge_ergs_for_cold_access, charge_native_for_cold_access, update_account, read_special_account_property.
  det_steps.
Qed.
#[local] Hint Resolve det_materialize_account : det.

Lemma det_of_system {I C A} `{Defect C} (m : M (StorageModel * Env) SystemError A) :
  det model_view m → det model_view (map_err (subsystem_of_system (I:=I) (C:=C)) m).
Proof. apply det_map_err. by intros [e|e]. Qed.
Lemma det_current_account a : det model_view (current_account a).
Proof. unfold current_account. det_steps. Qed.
Lemma det_update_account a f : det model_view (update_account a f).
Proof. apply det_on_accounts. Qed.
Lemma det_charge_native c : det model_view (charge_native c).
Proof. apply det_charge_res. Qed.
#[local] Hint Resolve det_of_system det_current_account det_update_account det_charge_native : det.

Lemma det_update_balance ee a f b c : det model_view (update_nominal_token_value_inner ee a f b c).
Proof. unfold update_nominal_token_value_inner. det_steps. Qed.
#[local] Hint Resolve det_update_balance : det.

Lemma det_transfer ee from to amount b : det model_view (transfer_nominal_token_value_inner ee from to amount b).
Proof. unfold transfer_nominal_token_value_inner, transfer_step. det_steps. Qed.
#[local] Hint Resolve det_transfer : det.

Lemma det_increment_nonce ee a n : det model_view (account_increment_nonce ee a n).
Proof. unfold account_increment_nonce. det_steps. Qed.

Lemma det_selfbalance ee a : det model_view (read_account_balance_assuming_warm ee a).
Proof. unfold read_account_balance_assuming_warm. det_steps. Qed.

Lemma det_maybe {E A} `{Defect E} fields f absent (m : M (StorageModel * Env) E A) :
  det model_view m → det model_view (maybe fields f absent m).
Proof. intros Hm. unfold maybe. det_steps. Qed.
Lemma det_account_bytecode d : det model_view (account_bytecode d).
Proof. unfold account_bytecode. det_steps. Qed.
#[local] Hint Resolve det_account_bytecode : det.

Lemma det_read_properties ee a fields : det model_view (account_read_properties ee a fields).
Proof.
  unfold account_read_properties.
  repeat first [det_step | apply det_maybe | progress eauto 3 with det].
Qed.

Lemma det_compute_bytecode_hash ee code artifacts : det model_view (compute_bytecode_hash ee code artifacts).
Proof. unfold compute_bytecode_hash. det_steps. Qed.
#[local] Hint Resolve det_compute_bytecode_hash : det.

Lemma det_on_model_res {E A} `{Defect E} (m : M Res E A) :
  det model_view (zoom snd (λ e s, (s.1, e)) (on_res m)).
Proof. apply (det_zoom _ env_view); [apply env_in_model|apply det_on_res]. Qed.
#[local] Hint Resolve det_on_model_res : det.

Lemma det_store_bytecode ee code len : det model_view (store_bytecode ee code len).
Proof. unfold store_bytecode. det_steps. Qed.
#[local] Hint Resolve det_store_bytecode : det.

Lemma det_deploy_code ee a code : det model_view (account_deploy_code ee a code).
Proof. unfold account_deploy_code. det_steps. Qed.

Lemma det_set_bytecode_details a ee h l al oh ol :
  det model_view (account_set_bytecode_details a ee h l al oh ol).
Proof. unfold account_set_bytecode_details. det_steps. Qed.

Lemma det_set_delegation a d : det model_view (account_set_delegation a d).
Proof. unfold account_set_delegation, store_delegation. det_steps. Qed.

Lemma det_charge_new_beneficiary ee a amount : det model_view (charge_new_beneficiary ee a amount).
Proof. unfold charge_new_beneficiary. det_steps. Qed.
#[local] Hint Resolve det_charge_new_beneficiary : det.

Lemma det_mark_for_deconstruction ee a b c : det model_view (account_mark_for_deconstruction ee a b c).
Proof.
  unfold account_mark_for_deconstruction.
  repeat first [det_step | progress eauto 3 with det | apply det_map_err; [done|]].
Qed.

(** ** Snapshots *)

Definition keeps_preimages (s s' : StorageModel) : Prop :=
  preimages (preimages_cache s) = preimages (preimages_cache s').
#[local] Instance keeps_preimages_preorder : PreOrder keeps_preimages.
Proof. split; [done|]. intros ??? H12 H23. unfold keeps_preimages in *. congruence. Qed.

Lemma keeps_zoom {T E A} (get : StorageModel → T) put (m : M T E A) :
  (∀ t s, keeps_preimages s (put t s)) → preserves keeps_preimages (zoom get put m).
Proof. intros Hp s. unfold zoom. destruct (m (get s)) as [o t]. apply Hp. Qed.

Lemma preserves_unwrap {S E F A} (R : S → S → Prop) (m : M S E A) :
  preserves R m → preserves R (unwrap m : M S F A).
Proof. intros Hm s. specialize (Hm s). unfold unwrap. by destruct (m s) as [[] ?]. Qed.

Lemma preserves_on_accounts {E F A} (err : HistoryMapError E → F) (m : M _ _ A) :
  preserves keeps_preimages (on_map get_account_cache set_account_cache err m).
Proof. apply preserves_map_err, keeps_zoom. done. Qed.

Lemma preserves_on_publication {E F A} (err : HistoryMapError E → F) (m : M _ _ A) :
  preserves keeps_preimages
    (zoom preimages_cache set_preimages_cache (on_map publication_storage set_publication err m)).
Proof.
  intros s. unfold zoom, on_map, map_err, zoom. destruct (m _) as [[] t]; done.
Qed.

Lemma preserves_for_each {S E A} (R : S → S → Prop) `{!PreOrder R} (l : list A) (body : A → M S E unit) :
  (∀ a, preserves R (body a)) → preserves R (for_each l body).
Proof.
  intros Hb. induction l as [|a l IH]; cbn [for_each]; [by apply preserves_ret|].
  by apply preserves_bind.
Qed.

Lemma preserves_peek {S T E F A} (R : S → S → Prop) `{!PreOrder R} (get : S → T) (m : M T E A) :
  preserves R (peek get m : M S F A).
Proof. intros s. unfold peek. destruct (m (get s)) as [[] t]; cbn; reflexivity. Qed.

Lemma keeps_finish_deconstruction key r : preserves keeps_preimages (finish_account_deconstruction key r).
Proof.
  unfold finish_account_deconstruction. destruct (decide _); [|apply preserves_ret; apply _].
  destruct (finish_deconstruction r) as [[err|] r1]; [apply preserves_throw; apply _|].
  destruct (cr_update _ _) as [o r2]. apply preserves_bind; [apply _| |].
  - by apply preserves_unwrap, keeps_zoom.
  - intros _. apply preserves_ret; apply _.
Qed.

Lemma keeps_begin_new_tx : preserves keeps_preimages model_begin_new_tx.
Proof.
  unfold model_begin_new_tx. apply preserves_bind; [apply _|by apply keeps_zoom|]. intros _.
  apply preserves_bind; [apply _|apply preserves_on_publication|]. intros _. apply preserves_on_accounts.
Qed.

Lemma keeps_finish_tx : preserves keeps_preimages model_finish_tx.
Proof.
  unfold model_finish_tx, account_finish_tx, apply_to_last_record_of_pending_changes.
  apply preserves_bind; [apply _| |intros _; by apply keeps_zoom].
  apply preserves_bind; [apply _|by apply preserves_modify|]. intros _.
  apply preserves_bind; [apply _|apply preserves_gets; apply _|]. intros pending.
  apply preserves_for_each; [apply _|]. intros [k n].
  apply preserves_bind; [apply _|apply preserves_gets; apply _|]. intros e.
  apply preserves_bind; [apply _|apply preserves_expect; apply _|]. intros e'.
  apply preserves_bind; [apply _|apply preserves_peek; apply _|]. intros r.
  apply preserves_bind; [apply _|apply keeps_finish_deconstruction|]. intros r'.
  by apply preserves_unwrap, keeps_zoom.
Qed.

Lemma keeps_start_frame : preserves keeps_preimages model_start_frame.
Proof.
  unfold model_start_frame. apply preserves_bind; [apply _|by apply keeps_zoom|]. intros a.
  apply preserves_bind; [apply _|apply preserves_on_publication|]. intros b.
  apply preserves_bind; [apply _|apply preserves_on_accounts|]. intros c. apply preserves_ret; apply _.
Qed.

Lemma keeps_finish_frame h : preserves keeps_preimages (model_finish_frame h).
Proof.
  unfold model_finish_frame. apply preserves_bind; [apply _|by apply keeps_zoom|]. intros _.
  apply preserves_bind; [apply _| |].
  - destruct h as [h|]; cbn; [apply preserves_on_publication|by intros s].
  - intros _. destruct h as [h|]; cbn; [apply preserves_on_accounts|apply preserves_ret; apply _].
Qed.

Lemma det_on_caches {E A} `{Defect E} (m : M StorageModel E A) :
  preserves keeps_preimages m → det model_view (on_caches m).
Proof.
  intros Hm. apply det_stable. split.
  - intros [x e]. specialize (Hm x). unfold on_caches, zoom. cbn. destruct (m x) as [o x'].
    split; [done|]. cbn in *. by rewrite Hm.
  - intros [x1 e1] [x2 e2] [Hc Hr]. cbn in *. subst x2. unfold on_caches, zoom. cbn.
    by destruct (m x1) as [o x'].
Qed.

Lemma preserves_map_each {S E A B} (R : S → S → Prop) `{!PreOrder R} (l : list A) (f : A → M S E B) :
  (∀ a, preserves R (f a)) → preserves R (map_each f l).
Proof.
  intros Hf. induction l as [|a l IH]; cbn [map_each]; [by apply preserves_ret|].
  apply preserves_bind; [done..|]. intros b. apply preserves_bind; [done..|]. intros bs. by apply preserves_ret.
Qed.

Lemma preserves_item_ref {S K V F} `{Countable K} (R : S → S → Prop) `{!PreOrder R} (getm : S → HistoryMap K V) k :
  preserves R (item_ref (F:=F) getm k).
Proof.
  unfold item_ref. do 3 (apply preserves_bind; [done|by apply preserves_peek|]; intros ?).
  do 3 (apply preserves_bind; [done|by apply preserves_expect|]; intros ?). by apply preserves_ret.
Qed.

Lemma keeps_pubdata_used {E} : preserves keeps_preimages (pubdata_used_by_tx (E:=E)).
Proof.
  unfold pubdata_used_by_tx, account_pubdata_used_by_tx, iter_altered_since_commit.
  apply preserves_bind; [apply _| |].
  - apply preserves_bind; [apply _| |intros ?; apply preserves_expect; apply _].
    apply preserves_bind; [apply _|apply preserves_gets; apply _|]. intros pending.
    apply preserves_map_each; [apply _|]. intros k. apply preserves_item_ref; apply _.
  - intros a. apply preserves_bind; [apply _|by apply keeps_zoom|]. intros b. apply preserves_ret; apply _.
Qed.

(** ** Every operation *)

Lemma det_run_model_op o : det model_view (run_model_op o).
Proof.
  assert (Hsys : ∀ A (m : M (StorageModel * Env) SystemError A),
    det model_view m → det model_view (map_err (subsystem_of_system (I:=NonceError + BalanceError)
      (C:=DeconstructionWrapped)) m)) by (intros; by apply det_of_system).
  assert (Hint : ∀ A (m : M StorageModel InternalError A), preserves keeps_preimages m →
    det model_view (map_err (E:=InternalError) (F:=model_error) SLeafDefect (on_caches m))).
  { intros A m Hm. apply det_map_err; [done|]. by apply det_on_caches. }
  destruct o; unfold run_model_op; det_steps; try apply Hsys; try apply Hint.
  all: try first
    [ apply det_read_properties | apply det_materialize_account | apply det_selfbalance | apply det_deploy_code
    | apply det_set_bytecode_details | apply det_set_delegation | apply keeps_begin_new_tx
    | apply keeps_finish_tx | apply keeps_start_frame | apply keeps_finish_frame
    | apply det_on_caches, keeps_pubdata_used | apply det_on_storage, det_write
    | apply det_on_storage, det_apply_read | apply det_on_storage; unfold touch; det_steps; fail ].
  - apply det_map_err; [by intros [[]| | |]|]. apply det_mark_for_deconstruction.
  - apply det_map_err; [by intros [| | |[]]|]. apply det_increment_nonce.
  - apply det_map_err; [by intros [| | |[]]|]. apply det_transfer.
  - apply det_map_err; [by intros [| | |[]]|]. apply det_update_balance.
Qed.

(** ** The end of the block *)

Lemma det_on_pubdata {A} (m : M Pubdata InternalError A) : det diff_view (on_pubdata m).
Proof. apply det_part, pubdata_in_diff. Qed.
Lemma det_published_bytecode a : det diff_view (published_bytecode a).
Proof.
  apply (det_zoom _ preimages_view); [apply preimages_in_diff|]. apply det_map_err; [done|].
  apply det_with_formal_infinite, det_get_preimage.
Qed.
#[local] Hint Resolve det_on_pubdata det_published_bytecode : det.

Lemma det_diff_compression l r b : det diff_view (diff_compression l r b).
Proof. unfold diff_compression. cbv zeta. det_steps. Qed.

Lemma det_apply_to_all {S K V E} `{Countable K} `{!KeyOrder K} `{Defect E} (v : View S)
    (getm : S → HistoryMap K V) (f : V → V → K → M S E unit) :
  (∀ s1 s2, same v s1 s2 → getm s1 = getm s2) → (∀ l r k, det v (f l r k)) →
  det v (apply_to_all_updated_elements getm f).
Proof.
  intros Hg Hf. unfold apply_to_all_updated_elements. apply det_bind.
  - apply det_gets. intros s1 s2 Hs. cbn. by rewrite (Hg s1 s2).
  - intros keys. apply det_for_each. intros k. apply det_bind; [by apply det_peek|].
    intros [[l r]|]; [apply Hf|apply det_ret].
Qed.

Lemma det_persist_changes : det model_view persist_changes.
Proof.
  apply det_apply_to_all; [intros; split_states; done|]. intros l r k. unfold persist_account.
  det_steps. apply det_with_formal_infinite. unfold write_special_account_property. det_steps.
Qed.

Lemma det_publishing {A} (m : M Pubdata InternalError A) : det finish_view (publishing m).
Proof. apply det_part, pubdata_in_finish. Qed.
#[local] Hint Resolve det_publishing : det.

Lemma det_with_preimages {A} (m : M _ InternalError A) : det diff_view m → det finish_view (with_preimages m).
Proof. apply det_zoom, diff_in_finish. Qed.

Lemma det_publish_diff l r k : det finish_view (publish_diff l r k).
Proof.
  unfold publish_diff. cbv zeta. det_steps.
  - apply det_peek. intros; by split_states.
  - apply det_map_err; [done|]. apply det_with_preimages, det_diff_compression.
Qed.

(** Reading the caches. *)
Lemma det_on_model {A} (m : M StorageModel InternalError A) :
  preserves keeps_preimages m → det finish_view (on_model m).
Proof.
  intros Hm. apply det_stable. split.
  - intros [r [x e]]. specialize (Hm x). unfold on_model, zoom. cbn. destruct (m x) as [o x'].
    split; [done|]. cbn in *. by rewrite Hm.
  - intros [r1 [x1 e1]] [r2 [x2 e2]] [Hc Hr]. cbn in *. simplify_eq. unfold on_model, zoom. cbn.
    by destruct (m x2) as [o x'].
Qed.

Lemma keeps_report_new_preimages {E} :
  preserves keeps_preimages (zoom preimages_cache set_preimages_cache (report_new_preimages (E:=E))).
Proof.
  intros s. unfold zoom. enough (preimages ((report_new_preimages (E:=E) (preimages_cache s)).2)
    = preimages (preimages_cache s)) as Hp.
  { destruct (report_new_preimages _) as [o t]. cbn in *. symmetry. exact Hp. }
  symmetry. set (R := λ a b : Preimages, preimages a = preimages b).
  assert (PreOrder R) by (split; [done|]; intros ?????; unfold R in *; congruence).
  enough (preserves R (report_new_preimages (E:=E))) as Hpr by apply Hpr.
  unfold report_new_preimages, iter. apply preserves_bind; [done| |].
  - apply preserves_bind; [done|by apply preserves_gets|]. intros keys.
    apply preserves_map_each; [done|]. intros k. by apply preserves_item_ref.
  - intros items. apply preserves_bind; [done|by apply preserves_gets|]. intros stored.
    apply preserves_map_each; [done|]. intros x.
    apply preserves_bind; [done|by apply preserves_expect|]. intros l. by apply preserves_ret.
Qed.

Lemma det_finish_pubdata : det finish_view finish_pubdata.
Proof.
  unfold finish_pubdata, report_storage_diffs, report_preimages. det_steps.
  - apply (det_zoom _ model_view); [apply model_in_finish|]. apply det_unwrap, det_persist_changes.
  - apply det_on_model. by apply keeps_zoom.
  - apply det_on_model, keeps_report_new_preimages.
  - apply det_on_model. by apply keeps_zoom.
  - apply det_apply_to_all; [intros; by split_states|]. apply det_publish_diff.
  - apply det_on_model. by apply keeps_zoom.
Qed.

(** ** A whole run *)

Definition all_fine (rs : results) : Prop := Forall (λ x, fine x.1) rs.

Lemma run_client_grows fuel c seen s :
  grows model_view s (run_client fuel c seen s).2
  ∧ ∃ later, (run_client fuel c seen s).1 = seen ++ later.
Proof.
  revert seen s. induction fuel as [|fuel IH]; intros seen s; cbn [run_client].
  { split; [reflexivity|]. exists []. by rewrite app_nil_r. }
  destruct (c seen) as [[res o]|]; [|split; [reflexivity|exists []; by rewrite app_nil_r]].
  destruct (det_run_model_op o) as [Hg _]. specialize (Hg (s.1, mkEnv _ res (env_oracle s.2))).
  destruct (run_model_op o _) as [r s']. cbn in Hg.
  destruct (IH (seen ++ [(r, env_res s'.2)]) s') as [Hg' (later & ->)]. split.
  - etransitivity; [|exact Hg']. exact Hg.
  - eexists. by rewrite <- app_assoc.
Qed.

Lemma run_client_det fuel c seen s1 s2 :
  same model_view s1 s2 →
  all_fine (run_client fuel c seen s1).1 → all_fine (run_client fuel c seen s2).1 →
  compatible model_view (run_client fuel c seen s1).2 (run_client fuel c seen s2).2 →
  (run_client fuel c seen s1).1 = (run_client fuel c seen s2).1
  ∧ same model_view (run_client fuel c seen s1).2 (run_client fuel c seen s2).2.
Proof.
  revert seen s1 s2. induction fuel as [|fuel IH]; intros seen s1 s2 Hs; cbn [run_client]; [done|].
  destruct (c seen) as [[res o]|]; [|done].
  destruct (det_run_model_op o) as [_ Hd].
  specialize (Hd (s1.1, mkEnv _ res (env_oracle s1.2)) (s2.1, mkEnv _ res (env_oracle s2.2))).
  destruct (run_model_op o (s1.1, _)) as [r1 t1], (run_model_op o (s2.1, _)) as [r2 t2].
  intros F1 F2 Hc.
  destruct (run_client_grows fuel c (seen ++ [(r1, env_res t1.2)]) t1) as [G1 (l1 & E1)].
  destruct (run_client_grows fuel c (seen ++ [(r2, env_res t2.2)]) t2) as [G2 (l2 & E2)].
  cbn in Hd. destruct Hd as [-> [Ht Hr]].
  - destruct Hs as [Hs _]. by split.
  - rewrite E1 in F1. unfold all_fine in F1. rewrite !Forall_app, Forall_singleton in F1. apply F1.
  - rewrite E2 in F2. unfold all_fine in F2. rewrite !Forall_app, Forall_singleton in F2. apply F2.
  - by eapply compatible_grows.
  - cbn in Ht, Hr. rewrite Hr in *. apply IH; [by split|done..].
Qed.
End Operations.
