(* ===== verification/FlatAnswers.v ===== *)
(** * What the oracle says about slots is checked

    The end of a block checks what [net_accesses_iter] gives against the state
    commitment.  Here: that is every answer of the oracle about a slot.  A slot that is
    asked for is put into the cache as it was answered, and that record stays the first
    of its history through updates, snapshots, rollbacks and commits.  The only way to
    lose an answer is to run out of resources between the answer and the caching. *)

From stdpp Require Import gmap sorting strings.
From S2P Require Import Prelude Resources U256 HistoryElement HistoryMap IoCommon FlatStorage Pubdata SystemInterface TxFormats EvmConstants Bytecode BootSystem Runner StorageCache PreimageCache AccountEntry AccountCache FlatModel FlatDeterminism.

(** ** Errors that cut an operation short *)

(** Internal errors and running out of resources; not the errors of a caller. *)
Class Interruption (E : Type) : Type := interrupts : E → bool.
#[global] Instance internal_interruption : Interruption InternalError := λ _, true.
#[global] Instance system_interruption : Interruption SystemError := λ _, true.
#[global] Instance empty_interruption : Interruption Empty_set := λ e, match e with end.
#[global] Instance subsystem_interruption {I C} `{Interruption C} : Interruption (SubsystemError I C) := λ e,
  match e with
  | SLeafRuntime _ | SLeafDefect _ => true
  | SCascaded c => interrupts c
  | SLeafUsage _ => false
  end.
#[global] Instance deconstruction_interruption : Interruption DeconstructionWrapped := λ e,
  match e with DeconstructionBalance e => interrupts e end.

(** An operation of the model has run out of resources. *)
Definition out_of_resources (e : model_error) : bool :=
  match e with
  | SLeafRuntime _ | SCascaded (DeconstructionBalance (SLeafRuntime _)) => true
  | _ => false
  end.

Lemma interrupted_by e : interrupts e = true → is_defect e = false → out_of_resources e = true.
Proof. by destruct e as [| | |[[| | |[]]]]. Qed.

(** ** The first record of a history *)

Section First.
Context {US : Usize} {K V E : Type} `{Countable K}.

(** The record a key was cached with. *)
Definition cached_as (a : AMap K V) (k : K) (v : V) : Prop :=
  ∃ h c, ahist a !! k = Some (h, c) ∧ last h = Some (0%nat, v).

Lemma a_update_first f k h c a k' v :
  a_inv a → ahist a !! k = Some (h, c) → cached_as a k' v → cached_as (a_update (E:=E) f k h c a).2 k' v.
Proof.
  intros Ha Hk Hv. destruct h as [|[t u] tl]; [done|]. cbn.
  assert (Hins : ∀ h' pend, (k = k' → last h' = Some (0%nat, v)) →
    cached_as (mkAMap (<[k := (h', c)]> (ahist a)) (anext a) (afrozen a) pend) k' v).
  { intros h' pend Hh. unfold cached_as. cbn. destruct (decide (k = k')) as [->|Hne].
    - rewrite lookup_insert_eq. eauto.
    - by rewrite lookup_insert_ne. }
  assert (Hl : k = k' → last ((t, u) :: tl) = Some (0%nat, v)).
  { intros <-. destruct Hv as (h' & c' & Hk' & Hl). by rewrite Hk in Hk'; injection Hk' as <- <-. }
  destruct (f u) as [[e|] w]; destruct (decide (t = anext a)) as [Ht|Ht]; cbn; try exact Hv; apply Hins; intros Hkk.
  - specialize (Hl Hkk). destruct tl; [|exact Hl]. injection Hl as -> _. destruct Ha. lia.
  - specialize (Hl Hkk). destruct tl; [|exact Hl]. injection Hl as -> _. destruct Ha. lia.
  - by apply Hl.
Qed.

Lemma a_op_first (o : op K V E) a k v : a_inv a → cached_as a k v → cached_as (a_op o a).2 k v.
Proof.
  intros Ha Hv. pose proof Hv as (h & c & Hk & Hl). destruct o as [k' s|k' f| |id| |k'|k'|k']; cbn; try exact Hv.
  - destruct (ahist a !! k') eqn:Hk'; [exact Hv|]. destruct s as [e|w]; cbn; [exact Hv|]. exists h, c. cbn.
    rewrite lookup_insert_ne; [done|]. by intros ->; rewrite Hk in Hk'.
  - destruct (ahist a !! k') as [[h' c']|] eqn:Hk'; [|exact Hv]. by apply a_update_first.
  - do 2 (destruct (decide _); [exact Hv|]). exists (rollback_hist id h), c. cbn. rewrite lookup_fmap, Hk.
    split; [done|]. by apply rollback_hist_nonempty.
  - exists (commit_hist h), (default c (list.head h)). cbn. rewrite lookup_fmap, Hk. split; [done|].
    by rewrite commit_hist_last.
Qed.

Lemma hm_rep_none (m : HistoryMap K V) a k : hm_rep m a → btree m !! k = None ↔ ahist a !! k = None.
Proof.
  intros (_ & _ & _ & G & ps & Hi & ->). rewrite strip_lookup, fmap_None. apply (hi_none _ _ _ _ Hi).
Qed.

Lemma map_each_val {S F A B} (f : A → M S F B) l s ys s' :
  (∀ a s, (f a s).2 = s) → map_each f l s = (Val ys, s') → ∀ a, a ∈ l → ∃ y, y ∈ ys ∧ (f a s).1 = Val y.
Proof.
  intros Hf. revert ys s'. induction l as [|x l IH]; intros ys s' Hm a Ha; [by apply elem_of_nil in Ha|].
  cbn [map_each] in Hm. apply bind_val_inv in Hm as (y & s1 & Hx & Hm).
  pose proof (Hf x s) as Hs. rewrite Hx in Hs. cbn in Hs. subst s1.
  apply bind_val_inv in Hm as (ys' & s2 & Hl & Hm). injection Hm as <- _.
  apply elem_of_cons in Ha as [->|Ha]; [exists y; rewrite Hx; split; [by left|done]|].
  destruct (IH ys' s2 Hl a Ha) as (z & Hz & Hfz). exists z. split; [by right|done].
Qed.
End First.

Section Answers.
Context `{Ruint} `{RuintBits} `{Usize} `{Blake2s} `{Keccak} `{BlockOracle} `{ProofEnv} `{StorageAccessPolicy}.

Abbreviation SlotMap := (HistoryMap WarmStorageKey SlotRecord).
Abbreviation Answers := (list (WarmStorageKey * InitialStorageSlotData)).

(** What the oracle has answered about slots is among what is checked at the end of the
    block. *)
Definition answers_checked (it : list (WarmStorageKey * WarmStorageValue)) (l : Answers) : Prop :=
  Forall (λ '(k, d), (sd_is_new d = true → sd_value d = 0)
    ∧ ∃ v, (k, v) ∈ it ∧ initial_value v = sd_value d ∧ is_new_storage_slot v = sd_is_new d) l.

(** ** The invariant *)

(** The record an answer is cached as. *)
Definition record_of (d : InitialStorageSlotData) : SlotRecord :=
  cr_new None (sd_value d) (if sd_is_new d then Unset else Retrieved).

(** All answers are in the cache as they were given; the cache can take [b] more snapshots. *)
Definition recorded (b : nat) (x : SlotMap * Answers) : Prop :=
  ∃ a, hm_rep x.1 a ∧ a_inv a ∧ has_ids b a
    ∧ Forall (λ '(k, d), (sd_is_new d = true → sd_value d = 0) ∧ cached_as a k (record_of d)) x.2.

(** All but the last, which is not in the cache. *)
Definition lost (b : nat) (x : SlotMap * Answers) : Prop :=
  ∃ k d l, x.2 = (k, d) :: l ∧ recorded b (x.1, l) ∧ btree x.1 !! k = None.

Lemma recorded_less b x : recorded (S b) x → recorded b x.
Proof. intros (a & Hr & Ha & Hi & Hl). exists a. unfold has_ids in *. split_conj; try done. lia. Qed.

Lemma recorded_op {E} (o : op WarmStorageKey SlotRecord E) b m l :
  recorded (takes_id o + b) (m, l) → recorded b ((run_op o m).2, l).
Proof.
  intros (a & Hr & Ha & Hi & Hl). unfold has_ids in Hi.
  destruct (refines_op o m a Hr Ha) as [_ Hr']; [unfold has_ids; lia|]. exists (a_op o a).2. cbn [fst snd].
  split_conj; [done|by apply a_inv_op|unfold has_ids; rewrite a_op_next; lia|].
  eapply Forall_impl; [exact Hl|]. intros [k d] [Hn Hc]. split; [done|]. by apply a_op_first.
Qed.

(** A computation on the map that is one of its operations. *)
Lemma recorded_run {E A} (o : op WarmStorageKey SlotRecord E) (c : M SlotMap (HistoryMapError E) A) b m l :
  (run_op o m).2 = (c m).2 → recorded (takes_id o + b) (m, l) → recorded b ((c m).2, l).
Proof. intros <-. apply recorded_op. Qed.

(** A slot that was asked for is put into the cache. *)
Lemma recorded_insert {E} b m l k d :
  recorded b (m, l) → btree m !! k = None → (sd_is_new d = true → sd_value d = 0) →
  recorded b ((get_or_insert (E:=E) k (inr (record_of d)) m).2, (k, d) :: l).
Proof.
  intros (a & Hr & Ha & Hi & Hl) Hk Hd. set (o := OGetOrInsert (E:=E) k (inr (record_of d))).
  destruct (refines_op o m a Hr Ha) as [_ Hr']; [unfold has_ids in *; cbn; lia|].
  assert ((run_op o m).2 = (get_or_insert (E:=E) k (inr (record_of d)) m).2) as Ho.
  { cbn. unfold mbind, M_bind. by destruct (get_or_insert _ _ m) as [[] ?]. }
  exists (a_op o a).2. cbn [fst snd]. rewrite <- Ho. split_conj; [done|by apply a_inv_op| |].
  - unfold has_ids in *. rewrite a_op_next. cbn. lia.
  - constructor.
    + split; [done|]. cbn. apply (hm_rep_none _ _ _ Hr) in Hk. rewrite Hk. eexists [_], _. cbn.
      by rewrite lookup_insert_eq.
    + eapply Forall_impl; [exact Hl|]. intros [k' d'] [Hn Hc]. split; [done|]. by apply a_op_first.
Qed.

(** ** The logic *)

(** [p] is the cache and the answers in the state. *)
Definition keeping {S E A} `{Interruption E} (p : S → SlotMap * Answers) (m : M S E A) : Prop :=
  ∀ b s, recorded b (p s) →
  match (m s).1 with
  | Val _ => recorded b (p (m s).2)
  | Err e => recorded b (p (m s).2) ∨ interrupts e = true ∧ lost b (p (m s).2)
  | Fault => True
  end.

Section Rules.
Context {S E : Type} `{Interruption E} (p : S → SlotMap * Answers).

(** What touches neither. *)
Lemma keeping_same {A} (m : M S E A) : (∀ s, p (m s).2 = p s) → keeping p m.
Proof. intros Hm b s Hs. rewrite Hm. destruct (m s).1; auto. Qed.

Lemma keeping_ret {A} (a : A) : keeping p (mret a : M S E A).
Proof. by apply keeping_same. Qed.
Lemma keeping_throw {A} e : keeping p (throw e : M S E A).
Proof. by apply keeping_same. Qed.
Lemma keeping_expect {A} (o : option A) : keeping p (expect o : M S E A).
Proof. apply keeping_same. by destruct o. Qed.
Lemma keeping_assert b : keeping p (assert_that b : M S E unit).
Proof. apply keeping_same. by destruct b. Qed.
Lemma keeping_gets {A} (f : S → A) : keeping p (gets f : M S E A).
Proof. by apply keeping_same. Qed.
Lemma keeping_modify (f : S → S) : (∀ s, p (f s) = p s) → keeping p (modify f : M S E unit).
Proof. intros Hf. by apply keeping_same. Qed.
Lemma keeping_peek {T F A} (get : S → T) (m : M T F A) : keeping p (peek get m : M S E A).
Proof. apply keeping_same. intros s. unfold peek. by destruct (m (get s)) as [[] ?]. Qed.

Lemma keeping_bind {A B} (m : M S E A) (k : A → M S E B) :
  keeping p m → (∀ a, keeping p (k a)) → keeping p (m ≫= k).
Proof.
  intros Hm Hk b s Hs. specialize (Hm b s Hs). unfold mbind, M_bind.
  destruct (m s) as [[a|e|] s1]; cbn in *; [|done|done]. by apply Hk.
Qed.
Lemma keeping_when b (m : M S E unit) : keeping p m → keeping p (when b m).
Proof. destruct b; [done|]. intros _. apply keeping_ret. Qed.
Lemma keeping_for_each {A} (l : list A) (body : A → M S E unit) :
  (∀ a, keeping p (body a)) → keeping p (for_each l body).
Proof.
  intros Hb. induction l as [|a l IH]; cbn [for_each]; [apply keeping_ret|]. by apply keeping_bind.
Qed.
Lemma keeping_map_err {F A} `{Interruption F} (f : E → F) (m : M S E A) :
  (∀ e, interrupts e = true → interrupts (f e) = true) → keeping p m → keeping p (map_err f m).
Proof.
  intros Hf Hm b s Hs. specialize (Hm b s Hs). unfold map_err.
  destruct (m s) as [[a|e|] s1]; cbn in *; [done| |done]. destruct Hm as [|[]]; auto.
Qed.
Lemma keeping_unwrap {F A} `{Interruption F} (m : M S E A) : keeping p m → keeping p (unwrap m : M S F A).
Proof.
  intros Hm b s Hs. specialize (Hm b s Hs). unfold unwrap. by destruct (m s) as [[a|e|] s1].
Qed.
End Rules.

Lemma keeping_zoom {S T E A} `{Interruption E} (p : S → SlotMap * Answers) (q : T → SlotMap * Answers) get put
    (m : M T E A) :
  (∀ s, q (get s) = p s) → (∀ s t, p (put t s) = q t) → keeping q m → keeping p (zoom get put m).
Proof.
  intros Hg Hp Hm b s Hs. unfold zoom. rewrite <- Hg in Hs. specialize (Hm b (get s) Hs).
  destruct (m (get s)) as [o t]. cbn in *. by rewrite Hp.
Qed.

Lemma keeping_part {S T E A} `{Interruption E} (p : S → SlotMap * Answers) (get : S → T) put (m : M T E A) :
  (∀ s t, p (put t s) = p s) → keeping p (zoom get put m).
Proof. intros Hp. apply keeping_same. intros s. unfold zoom. destruct (m (get s)) as [o t]. apply Hp. Qed.

(** ** The map *)

Definition map_keeps {E A} (c : M SlotMap (HistoryMapError E) A) : Prop :=
  ∀ b m l, recorded b (m, l) → recorded b ((c m).2, l).

Lemma bind_ret_state {S E A B} (c : M S E A) (f : A → B) s : ((a ← c; mret (f a)) s).2 = (c s).2.
Proof. unfold mbind, M_bind. by destruct (c s) as [[] ?]. Qed.

Lemma keeps_current {E} k : map_keeps (HistoryMap.current (E:=E) k).
Proof. intros b m l. apply (recorded_run (OCurrent k)), bind_ret_state. Qed.
Lemma keeps_committed {E} k : map_keeps (HistoryMap.committed_value (E:=E) k).
Proof. intros b m l. apply (recorded_run (OCommitted k)), bind_ret_state. Qed.
Lemma keeps_rollback {E} id : map_keeps (HistoryMap.rollback (E:=E) id).
Proof. intros b m l. apply (recorded_run (ORollback id)), bind_ret_state. Qed.
Lemma keeps_update {E} k f : map_keeps (HistoryMap.update (E:=E) k f).
Proof.
  intros b m l. destruct (btree m !! k) as [e|] eqn:Hk.
  - apply (recorded_run (OUpdate k f)). cbn. unfold get. erewrite bind_val by reflexivity.
    rewrite Hk. apply bind_ret_state.
  - unfold update, get. erewrite bind_val by reflexivity. by rewrite Hk.
Qed.
Lemma snapshot_records {E} b m l : recorded (S b) (m, l) → recorded b ((HistoryMap.snapshot (E:=E) m).2, l).
Proof. apply (recorded_run OSnapshot), bind_ret_state. Qed.
Lemma commit_records {E} b m l : recorded (S b) (m, l) → recorded b ((HistoryMap.commit (E:=E) m).2, l).
Proof. apply (recorded_run OCommit), bind_ret_state. Qed.

(** ** The storage cache *)

Definition storage_slots (s : PlainStorage * Env) : SlotMap * Answers :=
  (cache s.1, slot_answers (env_oracle s.2)).

Lemma keeping_on_cache {A} (c : M _ _ A) : map_keeps c → keeping storage_slots (on_cache c).
Proof.
  intros Hc b s Hs. specialize (Hc b _ _ Hs). unfold on_cache, on_map, map_err, zoom, get_cache.
  destruct (c (cache s.1)) as [[a|e|] m']; cbn in *; auto.
Qed.
Lemma keeping_charging m : keeping storage_slots (charging m).
Proof.
  apply keeping_same. intros s. unfold charging, on_env, on_res, zoom. by destruct (m _) as [o r].
Qed.
Create HintDb keeping.
#[local] Hint Resolve keeping_on_cache keeping_charging keeps_current keeps_committed keeps_update : keeping.

Lemma keeping_get_or_initialize ee key : keeping storage_slots (get_or_initialize ee key).
Proof.
  intros b [s [r o]] Hs. unfold get_or_initialize, gets, get_cache. erewrite bind_val by reflexivity. cbn [fst snd] in *.
  destruct (btree (cache s) !! key) as [e|] eqn:Hk; [exact Hs|].
  unfold initialize_element, on_env, query_slot, charging, on_env, on_res, zoom, mbind, M_bind. cbn.
  destruct (initial_storage_slot_query key (host o)) as [[d|e|] h]; cbn; [|by left|done].
  destruct (charge_cold_storage_read_extra ee (sd_is_new d) r) as [[u|e|] r']; cbn; [| |done].
  2:{ right. split; [done|]. exists key, d, (slot_answers o). split_conj; [done|exact Hs|exact Hk]. }
  assert (Hput : (sd_is_new d = true → sd_value d = 0) → recorded b
    ((get_or_insert (E:=SystemError) key (inr (record_of d)) (cache s)).2, (key, d) :: slot_answers o)).
  { by apply recorded_insert. }
  unfold record_of in Hput. unfold when, on_cache, on_map, map_err, zoom, assert_that, get_cache. cbn.
  destruct d as [[|] v]; cbn in *; [destruct (Z.eqb_spec v 0) as [->|]; [|done]|];
    specialize (Hput ltac:(done)); cbn;
    match goal with |- context [get_or_insert ?k ?v ?m] => set (g := get_or_insert k v m) end;
    match type of Hput with recorded _ (_, ?l) => change (recorded b (g.2, l)) in Hput end;
    destruct g as [[e|e|] m]; cbn in *; auto.
Qed.

Ltac keeping_step :=
  match goal with
  | |- keeping _ (mret _) => apply keeping_ret
  | |- keeping _ (throw _) => apply keeping_throw
  | |- keeping _ (expect _) => apply keeping_expect
  | |- keeping _ (assert_that _) => apply keeping_assert
  | |- keeping _ (gets _) => apply keeping_gets
  | |- keeping _ (_ ≫= _) => apply keeping_bind; [|intros ?]
  | |- keeping _ (when _ _) => apply keeping_when
  | |- keeping _ (for_each _ _) => apply keeping_for_each; intros ?
  | |- keeping _ (peek _ _) => apply keeping_peek
  | |- keeping _ (unwrap _) => apply keeping_unwrap
  | |- keeping _ (modify _) => by apply keeping_modify
  | |- keeping _ (match ?x with _ => _ end) => destruct x
  end.
Ltac keeping_steps := repeat (keeping_step || solve [eauto 3 with keeping]).
#[local] Hint Resolve keeping_get_or_initialize : keeping.

Lemma keeping_materialize ee key b : keeping storage_slots (materialize_element ee key b).
Proof. unfold materialize_element, current_record. keeping_steps. Qed.
#[local] Hint Resolve keeping_materialize : keeping.

Lemma keeping_apply_read ee key b : keeping storage_slots (apply_read_impl ee key b).
Proof. unfold apply_read_impl, current_record. keeping_steps. Qed.
Lemma keeping_apply_write ee key v : keeping storage_slots (apply_write_impl ee key v).
Proof. unfold apply_write_impl, current_record. keeping_steps. Qed.
#[local] Hint Resolve keeping_apply_read keeping_apply_write : keeping.

Lemma keeping_set_refund_counter v : keeping storage_slots (set_refund_counter v).
Proof. unfold set_refund_counter. keeping_steps. Qed.
#[local] Hint Resolve keeping_set_refund_counter : keeping.

Lemma keeping_write ee address key v : keeping storage_slots (write ee address key v).
Proof. unfold write. keeping_steps. Qed.
Lemma keeping_touch ee address key b : keeping storage_slots (touch ee address key b).
Proof. unfold touch. keeping_steps. Qed.
Lemma keeping_write_special ee address v : keeping storage_slots (write_special_account_property ee address v).
Proof. unfold write_special_account_property. keeping_steps. Qed.
#[local] Hint Resolve keeping_write keeping_touch keeping_write_special : keeping.

(** ** The preimages *)

(** Nothing is asked about slots. *)
Definition unasked {S} (f : S → Env) (s s' : S) : Prop :=
  slot_answers (env_oracle (f s')) = slot_answers (env_oracle (f s)).
#[local] Instance unasked_preorder {S} (f : S → Env) : PreOrder (unasked f).
Proof. split; [done|]. intros s1 s2 s3 E1 E2. unfold unasked in *. congruence. Qed.

Lemma unasked_part {S T E A} (f : S → Env) (get : S → T) put (m : M T E A) :
  (∀ s t, f (put t s) = f s) → preserves (unasked f) (zoom get put m).
Proof. intros Hp s. unfold zoom, unasked. destruct (m (get s)) as [o t]. cbn. by rewrite Hp. Qed.

Lemma unasked_charge m : preserves (unasked snd) (pc_charge m).
Proof. intros s. unfold pc_charge, on_res, zoom, unasked. by destruct (m _) as [o r]. Qed.

Lemma unasked_get_preimage request : preserves (unasked snd) (get_preimage request).
Proof.
  unfold get_preimage, expose_preimage. destruct (_ =? 0); [apply preserves_ret; apply _|].
  apply preserves_bind; [apply _|apply unasked_charge|]. intros _.
  apply preserves_bind; [apply _|apply preserves_gets; apply _|]. intros [c|]; [apply preserves_ret; apply _|].
  intros s. set (hash := pr_hash request).
  pose proof (fetch_preimage_spec (pr_type request) hash (expected_preimage_len_in_bytes request) s) as Hf.
  destruct (fetch_preimage _ hash _ s) as [r s']. by destruct Hf as (_ & Ha & _).
Qed.

Lemma unasked_record_preimage request l : preserves (unasked snd) (record_preimage request l).
Proof.
  unfold record_preimage, insert_verified_preimage. apply preserves_bind; [apply _|apply unasked_charge|]. intros _.
  apply preserves_bind; [apply _|apply preserves_assert; apply _|]. intros _.
  apply preserves_bind; [apply _|by apply preserves_map_err, unasked_part|]. intros _.
  apply preserves_bind; [apply _|by apply preserves_modify|]. intros _.
  apply preserves_bind; [apply _|apply preserves_gets; apply _|]. intros o. apply preserves_expect; apply _.
Qed.

(** ** The model *)

Definition model_slots (s : StorageModel * Env) : SlotMap * Answers :=
  (cache (storage_cache s.1), slot_answers (env_oracle s.2)).

Lemma keeping_on_storage {E A} `{Interruption E} (m : M (PlainStorage * Env) E A) :
  keeping storage_slots m → keeping model_slots (on_storage m).
Proof. by apply keeping_zoom. Qed.
Lemma keeping_on_preimages {E A} `{Interruption E} (m : M (Preimages * Env) E A) :
  preserves (unasked snd) m → keeping model_slots (on_preimages m).
Proof.
  intros Hm. apply keeping_same. intros s. specialize (Hm (preimages_cache s.1, s.2)).
  unfold on_preimages, zoom, model_slots. destruct (m _) as [o [q e]]. cbn in *. f_equal. exact Hm.
Qed.
Lemma keeping_on_accounts {A} (m : M _ _ A) : keeping model_slots (on_accounts m).
Proof.
  apply keeping_same. intros s. unfold on_accounts, on_map, map_err, zoom. by destruct (m _) as [[] ?].
Qed.
Lemma keeping_model_res {E A} `{Interruption E} (m : M Res E A) :
  keeping model_slots (zoom snd (λ e s, (s.1, e)) (on_res m)).
Proof. apply keeping_same. intros s. unfold zoom, on_res, zoom. by destruct (m _) as [o r]. Qed.
Lemma keeping_charge_res {E} `{Interruption E} (m : M Res E unit) : keeping model_slots (charge_res m).
Proof. apply keeping_model_res. Qed.

Lemma keeping_with_resources {E A} `{Interruption E} r (m : M (StorageModel * Env) E A) :
  keeping model_slots m → keeping model_slots (with_resources r m).
Proof.
  intros Hm b s Hs. specialize (Hm b (s.1, mkEnv _ r (env_oracle s.2)) Hs). unfold with_resources.
  destruct (m _) as [[a|e|] [x e']]; exact Hm.
Qed.
Lemma keeping_formal_infinite {E A} `{Interruption E} (m : M (StorageModel * Env) E A) :
  keeping model_slots m → keeping model_slots (with_formal_infinite m).
Proof.
  intros Hm. apply keeping_bind; [by apply keeping_with_resources|]. intros [a r]. apply keeping_ret.
Qed.
Lemma keeping_infinitely {E A} `{Interruption E} (m : M (StorageModel * Env) E A) :
  keeping model_slots m → keeping model_slots (infinitely m).
Proof.
  intros Hm b s Hs. unfold infinitely, with_infinite_ergs.
  specialize (Hm b (s.1, mkEnv _ (mkResources (mkErgs (umax 64)) (native (env_res s.2))) (env_oracle s.2)) Hs).
  destruct (m _) as [[a|e|] [x e']]; exact Hm.
Qed.
Lemma keeping_of_system {I C A} `{Interruption C} (m : M (StorageModel * Env) SystemError A) :
  keeping model_slots m → keeping model_slots (map_err (subsystem_of_system (I:=I) (C:=C)) m).
Proof. apply keeping_map_err. by intros [e|e]. Qed.
#[local] Hint Resolve keeping_on_storage keeping_on_preimages keeping_on_accounts keeping_model_res keeping_charge_res
  keeping_with_resources keeping_formal_infinite keeping_infinitely keeping_of_system
  unasked_get_preimage unasked_record_preimage : keeping.

Lemma keeping_materialize_account ee a b c : keeping model_slots (materialize_account ee a b c).
Proof.
  unfold materialize_account, get_or_initialize_account, initialize_account, current_account,
    charge_ergs_for_cold_access, charge_native_for_cold_access, update_account, read_special_account_property.
  keeping_steps.
Qed.
Lemma keeping_current_account a : keeping model_slots (current_account a).
Proof. unfold current_account. keeping_steps. Qed.
Lemma keeping_charge_native c : keeping model_slots (charge_native c).
Proof. apply keeping_charge_res. Qed.
Lemma keeping_update_account a f : keeping model_slots (update_account a f).
Proof. apply keeping_on_accounts. Qed.
#[local] Hint Resolve keeping_materialize_account keeping_current_account keeping_charge_native
  keeping_update_account : keeping.

Lemma keeping_store_bytecode ee code len : keeping model_slots (store_bytecode ee code len).
Proof. unfold store_bytecode, compute_bytecode_hash. cbv zeta. keeping_steps. Qed.
Lemma keeping_store_delegation d : keeping model_slots (store_delegation d).
Proof. unfold store_delegation, compute_bytecode_hash. cbv zeta. keeping_steps. Qed.
Lemma keeping_update_balance ee a f b c : keeping model_slots (update_nominal_token_value_inner ee a f b c).
Proof. unfold update_nominal_token_value_inner. keeping_steps. Qed.
#[local] Hint Resolve keeping_store_bytecode keeping_store_delegation keeping_update_balance : keeping.
Lemma keeping_transfer ee from to amount b :
  keeping model_slots (transfer_nominal_token_value_inner ee from to amount b).
Proof. unfold transfer_nominal_token_value_inner, transfer_step. keeping_steps. Qed.
#[local] Hint Resolve keeping_transfer : keeping.
Lemma keeping_maybe {E A} `{Interruption E} fields f absent (m : M (StorageModel * Env) E A) :
  keeping model_slots m → keeping model_slots (maybe fields f absent m).
Proof. intros Hm. unfold maybe. keeping_steps. Qed.
Lemma keeping_bytecode d : keeping model_slots (account_bytecode d).
Proof. unfold account_bytecode. keeping_steps. Qed.
#[local] Hint Resolve keeping_bytecode : keeping.

(** *** The caches alone *)

(** What is recorded stays so, with [j] snapshots less to take. *)
Definition records {S} (f : S → PlainStorage) (j : nat) (s s' : S) : Prop :=
  ∀ b l, recorded (j + b) (cache (f s), l) → recorded b (cache (f s'), l).
#[local] Instance records_preorder {S} (f : S → PlainStorage) : PreOrder (records f 0).
Proof. split; [by intros s b l|]. intros s1 s2 s3 R1 R2 b l Hl. by apply R2, R1. Qed.

Lemma records_bind {S E A B} (f : S → PlainStorage) j (m : M S E A) (k : A → M S E B) :
  preserves (records f j) m → (∀ a, preserves (records f 0) (k a)) → preserves (records f j) (m ≫= k).
Proof.
  intros Hm Hk s. specialize (Hm s). unfold mbind, M_bind. destruct (m s) as [[a|e|] s1]; cbn in *; [|done..].
  intros b l Hl. by apply (Hk a s1), Hm.
Qed.

Lemma records_storage {E A} j (m : M PlainStorage E A) :
  preserves (records id j) m → preserves (records storage_cache j) (zoom storage_cache set_storage_cache m).
Proof.
  intros Hm s b l Hl. specialize (Hm _ b l Hl). unfold zoom. by destruct (m (storage_cache s)) as [o t].
Qed.
Lemma records_other {T E A} (get : StorageModel → T) put (m : M T E A) :
  (∀ t s, storage_cache (put t s) = storage_cache s) → preserves (records storage_cache 0) (zoom get put m).
Proof. intros Hp s b l Hl. unfold zoom. destruct (m (get s)) as [o t]. cbn. by rewrite Hp. Qed.

Lemma records_on_map {E F A} j (err : HistoryMapError E → F) (c : M SlotMap (HistoryMapError E) A) :
  (∀ b m l, recorded (j + b) (m, l) → recorded b ((c m).2, l)) →
  preserves (records id j) (on_map cache set_cache err c).
Proof.
  intros Hc s b l Hl. specialize (Hc b _ _ Hl). unfold on_map, map_err, zoom. cbn [id] in *.
  by destruct (c (cache s)) as [[a|e|] m'].
Qed.

Lemma records_begin_new_tx : preserves (records storage_cache 1) model_begin_new_tx.
Proof.
  apply records_bind; [apply records_storage, records_bind|].
  - apply records_on_map. intros b m l. apply commit_records.
  - intros _. apply preserves_modify; by intros ???.
  - intros _. apply preserves_bind; [apply _|by apply records_other|]. intros _.
    apply preserves_map_err. by apply records_other.
Qed.

Lemma records_start_frame : preserves (records storage_cache 1) model_start_frame.
Proof.
  apply records_bind; [apply records_storage, records_bind|].
  - apply records_on_map. intros b m l. apply snapshot_records.
  - intros i. apply preserves_bind; [apply _|apply preserves_gets; apply _|]. intros c. destruct (hc_snapshot c) as [n c'].
    apply preserves_bind; [apply _|apply preserves_modify; by intros ???|]. intros _. apply preserves_ret; apply _.
  - intros i. apply preserves_bind; [apply _|by apply records_other|]. intros n.
    apply preserves_bind; [apply _|apply preserves_map_err; by apply records_other|]. intros k. apply preserves_ret; apply _.
Qed.

Lemma records_finish_frame h : preserves (records storage_cache 0) (model_finish_frame h).
Proof.
  apply preserves_bind; [apply _|apply records_storage|].
  - destruct h as [h|]; cbn; [|apply preserves_ret; apply _].
    apply preserves_bind; [apply _|apply preserves_modify; by intros ???|]. intros _. apply records_on_map.
    intros b m l. apply keeps_rollback.
  - intros _. apply preserves_bind; [apply _|by apply records_other|]. intros _.
    destruct h as [h|]; cbn; [apply preserves_map_err; by apply records_other|apply preserves_ret; apply _].
Qed.

Lemma records_clear_state a : preserves (records id 0) (clear_state_impl a).
Proof.
  unfold clear_state_impl, for_each_range. apply preserves_bind; [apply _|apply preserves_gets; apply _|].
  intros keys. apply preserves_for_each; [apply _|]. intros k. apply records_on_map.
  intros b m l. apply keeps_update.
Qed.

Lemma records_finish_tx : preserves (records storage_cache 0) model_finish_tx.
Proof.
  apply preserves_bind; [apply _| |intros _; apply records_storage; apply preserves_modify; by intros ???].
  apply preserves_bind; [apply _|apply preserves_modify; by intros ???|]. intros _.
  apply preserves_bind; [apply _|apply preserves_gets; apply _|]. intros pending.
  apply preserves_for_each; [apply _|]. intros [k n].
  apply preserves_bind; [apply _|apply preserves_gets; apply _|]. intros e.
  apply preserves_bind; [apply _|apply preserves_expect; apply _|]. intros e'.
  apply preserves_bind; [apply _|apply preserves_peek; apply _|]. intros r.
  apply preserves_bind; [apply _| |intros r'; apply preserves_unwrap; by apply records_other].
  unfold finish_account_deconstruction. destruct (decide _); [|apply preserves_ret; apply _].
  destruct (finish_deconstruction _) as [[err|] r1]; [apply preserves_throw; apply _|].
  destruct (cr_update _ _) as [o r2]. apply preserves_bind; [apply _| |intros _; apply preserves_ret; apply _].
  apply preserves_unwrap, records_storage, records_clear_state.
Qed.

Lemma preserves_iter {S K V F} `{Countable K} (R : S → S → Prop) `{!PreOrder R} (getm : S → HistoryMap K V) keys :
  preserves R (map_each (item_ref (F:=F) getm) keys).
Proof. apply preserves_map_each; [done|]. intros k. by apply preserves_item_ref. Qed.

Lemma records_pubdata_used {E} : preserves (records storage_cache 0) (pubdata_used_by_tx (E:=E)).
Proof.
  apply preserves_bind; [apply _| |intros a; apply preserves_bind; [apply _|apply records_storage|]].
  - apply preserves_bind; [apply _| |intros ?; apply preserves_expect; apply _].
    apply preserves_bind; [apply _|apply preserves_gets; apply _|]. intros pending. apply preserves_iter; apply _.
  - apply preserves_bind; [apply _| |intros ?; apply preserves_expect; apply _].
    apply preserves_bind; [apply _|apply preserves_gets; apply _|]. intros pending. apply preserves_iter; apply _.
  - intros ?. apply preserves_ret; apply _.
Qed.

(** *** Every operation *)

Definition records_op {E A} `{Interruption E} (m : M (StorageModel * Env) E A) : Prop :=
  ∀ b s, recorded (S b) (model_slots s) →
  match (m s).1 with
  | Val _ => recorded b (model_slots (m s).2)
  | Err e => recorded b (model_slots (m s).2) ∨ interrupts e = true ∧ lost b (model_slots (m s).2)
  | Fault => True
  end.

Lemma op_keeping {E A} `{Interruption E} (m : M (StorageModel * Env) E A) : keeping model_slots m → records_op m.
Proof. intros Hm b s Hs. by apply Hm, recorded_less. Qed.

Lemma op_caches {E F A B} `{Interruption F} (f : E → F) (g : A → B) (m : M StorageModel E A) :
  preserves (records storage_cache 1) m → records_op (a ← map_err f (on_caches m); mret (g a)).
Proof.
  intros Hm b s Hs. specialize (Hm s.1 b _ Hs). unfold mbind, M_bind, map_err, on_caches, zoom.
  destruct (m s.1) as [[a|e|] x]; cbn in *; auto.
Qed.

Lemma records_less {E A} (m : M StorageModel E A) :
  preserves (records storage_cache 0) m → preserves (records storage_cache 1) m.
Proof. intros Hm s b l Hl. by apply (Hm s), recorded_less. Qed.

Lemma keeping_on_caches {E A} `{Interruption E} (m : M StorageModel E A) :
  preserves (records storage_cache 0) m → keeping model_slots (on_caches m).
Proof.
  intros Hm b s Hs. specialize (Hm s.1 b _ Hs). unfold on_caches, zoom.
  destruct (m s.1) as [[a|e|] x]; cbn in *; auto.
Qed.

Lemma keeping_as_balance {A} (m : M (StorageModel * Env) BalanceSubsystemError A) :
  keeping model_slots m → keeping model_slots (map_err balance_model_error m).
Proof. apply keeping_map_err. by intros [| | |[]]. Qed.
Lemma keeping_as_nonce {A} (m : M (StorageModel * Env) NonceSubsystemError A) :
  keeping model_slots m → keeping model_slots (map_err nonce_model_error m).
Proof. apply keeping_map_err. by intros [| | |[]]. Qed.
Lemma keeping_as_deconstruction {A} (m : M (StorageModel * Env) DeconstructionSubsystemError A) :
  keeping model_slots m → keeping model_slots (map_err deconstruction_model_error m).
Proof. apply keeping_map_err. by intros [[]| | |]. Qed.

Lemma op_records o : records_op (run_model_op o).
Proof.
  destruct o; unfold run_model_op.
  17: { apply op_caches, records_begin_new_tx. }
  17: { apply op_caches, records_less, records_finish_tx. }
  17: { apply op_caches, records_start_frame. }
  17: { apply op_caches, records_less, records_finish_frame. }
  all: apply op_keeping; unfold model_storage_read, read, model_storage_touch, model_storage_write,
    account_read_properties, account_touch, read_account_balance_assuming_warm, account_deploy_code,
    account_set_bytecode_details, account_set_delegation, account_mark_for_deconstruction,
    account_increment_nonce, account_transfer_nominal_token_value, account_update_nominal_token_value,
    model_add_evm_refund, charge_new_beneficiary;
    repeat first [keeping_step | apply keeping_maybe | solve [eauto 3 with keeping] | apply keeping_of_system
      | apply keeping_as_balance | apply keeping_as_nonce | apply keeping_as_deconstruction
      | apply keeping_on_storage | apply keeping_on_caches, records_pubdata_used
      | apply keeping_map_err; [by intros [| | |[]]|]].
Qed.

(** ** A whole run *)

(** Every slot that was asked for is in the cache. *)
Definition answers_cached (s : StorageModel * Env) : Prop :=
  ∀ k d, (k, d) ∈ slot_answers (env_oracle s.2) → is_Some (btree (cache (storage_cache s.1)) !! k).

(** No operation of a run has run out of resources between an answer about a slot and the
    caching of it: if one runs out, what was asked for is in the cache. *)
Fixpoint answers_kept (fuel : nat) (c : client) (seen : results) (s : StorageModel * Env) : Prop :=
  match fuel with
  | O => True
  | S fuel =>
      match c seen with
      | None => True
      | Some (res, o) =>
          let '(r, s) := run_model_op o (s.1, mkEnv _ res (env_oracle s.2)) in
          match r with Err e => out_of_resources e = true → answers_cached s | _ => True end
          ∧ answers_kept fuel c (seen ++ [(r, env_res s.2)]) s
      end
  end.

(** A run in which nothing runs out of resources. *)
Lemma paid_kept fuel c seen s :
  Forall (λ x, match x.1 with Err e => out_of_resources e = false | _ => True end) (run_client fuel c seen s).1 →
  answers_kept fuel c seen s.
Proof.
  revert seen s. induction fuel as [|fuel IH]; intros seen s; cbn [run_client answers_kept]; [done|].
  destruct (c seen) as [[res o]|]; [|done]. destruct (run_model_op o _) as [r s']. intros Hf. split; [|by apply IH].
  destruct (run_client_grows fuel c (seen ++ [(r, env_res s'.2)]) s') as [_ (later & E)]. rewrite E in Hf.
  rewrite !Forall_app, Forall_singleton in Hf. destruct Hf as [[_ Hr] _]. destruct r as [|e|]; [done| |done].
  cbn in Hr. congruence.
Qed.

Lemma cached_not_lost b s : answers_cached s → ¬ lost b (model_slots s).
Proof.
  intros Hc (k & d & l & Hl & _ & Hk). cbn in *. destruct (Hc k d) as [e He]; [rewrite Hl; by left|congruence].
Qed.

Lemma run_client_recorded fuel c seen s b :
  recorded (fuel + b) (model_slots s) → answers_kept fuel c seen s → all_fine (run_client fuel c seen s).1 →
  recorded b (model_slots (run_client fuel c seen s).2).
Proof.
  revert seen s. induction fuel as [|fuel IH]; intros seen s Hs; cbn [run_client answers_kept]; [done|].
  destruct (c seen) as [[res o]|].
  2:{ intros _ _. clear IH. induction fuel as [|fuel IHf]; [by apply recorded_less|]. by apply IHf, recorded_less. }
  pose proof (op_records o (fuel + b)%nat (s.1, mkEnv _ res (env_oracle s.2)) Hs) as Ho.
  destruct (run_model_op o _) as [r s']. cbn [fst snd] in Ho. intros [Hk Hkept] Hf. apply IH; [|done|done].
  destruct (run_client_grows fuel c (seen ++ [(r, env_res s'.2)]) s') as [_ (later & E)]. rewrite E in Hf.
  unfold all_fine in Hf. rewrite !Forall_app, Forall_singleton in Hf. destruct Hf as [[_ Hr] _]. cbn in Hr.
  destruct r as [a|e|]; [done| |done]. destruct Ho as [|[Hi Hlost]]; [done|].
  by destruct (cached_not_lost (fuel + b)%nat s' (Hk (interrupted_by e Hi Hr))).
Qed.

Lemma fresh_recorded b h : Z.of_nat b + 1 < 2 ^ usize_bits → recorded b (model_slots (fresh_model h)).
Proof.
  intros Hb. exists a_new. split_conj; [apply hm_rep_new|apply a_inv_new|unfold has_ids; cbn; lia|constructor].
Qed.

(** ** The end of the block *)

Definition finish_slots (s : Reports * (StorageModel * Env)) : SlotMap * Answers := model_slots s.2.

Lemma keeping_publishing {A} (m : M Pubdata InternalError A) : keeping finish_slots (publishing m).
Proof. by apply keeping_part. Qed.
Lemma keeping_on_model {A} (m : M StorageModel InternalError A) :
  preserves (records storage_cache 0) m → keeping finish_slots (on_model m).
Proof.
  intros Hm b s Hs. specialize (Hm s.2.1 b _ Hs). unfold on_model, zoom.
  destruct (m s.2.1) as [[a|e|] x]; cbn in *; auto.
Qed.
#[local] Hint Resolve keeping_publishing : keeping.

Lemma unasked_diff_compression l r b : preserves (unasked (λ s, s.2.2)) (diff_compression l r b).
Proof.
  assert (Hpub : ∀ A (m : M Pubdata InternalError A), preserves (unasked (λ s, s.2.2)) (on_pubdata m)).
  { intros A m. by apply unasked_part. }
  assert (Hcode : ∀ a, preserves (unasked (λ s, s.2.2)) (published_bytecode a)).
  { intros a [q [p [r' o]]]. set (request := mkRequest (bytecode_hash a) (full_bytecode_len a) Bytecode).
    pose proof (unasked_get_preimage request (p, mkEnv _ FORMAL_INFINITE o)) as Hg.
    unfold published_bytecode, zoom, map_err, with_formal_infinite, with_resources, mbind, M_bind. cbn.
    fold request. by destruct (get_preimage request _) as [[x|e|] [p' e']]. }
  unfold diff_compression. cbv zeta.
  repeat first [ apply Hpub | apply Hcode | apply preserves_ret; apply _ | apply preserves_throw; apply _
    | apply preserves_bind; [apply _| |intros ?] | apply preserves_when; [apply _|]
    | match goal with |- preserves _ (match ?x with _ => _ end) => destruct x end ].
Qed.

Lemma keeping_with_preimages {A} (m : M (Pubdata * (Preimages * Env)) InternalError A) :
  preserves (unasked (λ s, s.2.2)) m → keeping finish_slots (with_preimages m).
Proof.
  intros Hm. apply keeping_same. intros [rep [x e]]. specialize (Hm (rp_pubdata rep, (preimages_cache x, e))).
  unfold with_preimages, zoom. cbn. destruct (m _) as [o [q [y e']]]. unfold finish_slots, model_slots. cbn in *.
  f_equal. exact Hm.
Qed.

Lemma keeping_publish_diff l r k : keeping finish_slots (publish_diff l r k).
Proof.
  unfold publish_diff. cbv zeta. keeping_steps. apply keeping_map_err; [done|].
  apply keeping_with_preimages, unasked_diff_compression.
Qed.

Lemma keeping_persist_changes : keeping model_slots persist_changes.
Proof.
  unfold persist_changes, apply_to_all_updated_elements. keeping_steps. unfold persist_account. cbv zeta. keeping_steps.
  apply keeping_formal_infinite. keeping_steps.
Qed.

Lemma records_net_diffs : preserves (records storage_cache 0) (zoom storage_cache set_storage_cache (net_diffs_iter (E:=InternalError))).
Proof.
  apply records_storage, preserves_bind; [apply _| |intros ?; apply preserves_ret; apply _].
  apply preserves_bind; [apply _| |intros ?; apply preserves_ret; apply _].
  apply preserves_bind; [apply _|apply preserves_gets; apply _|]. intros keys. apply preserves_iter; apply _.
Qed.
Lemma records_net_accesses : preserves (records storage_cache 0) (zoom storage_cache set_storage_cache (net_accesses_iter (E:=InternalError))).
Proof.
  apply records_storage, preserves_bind; [apply _| |intros ?; apply preserves_ret; apply _].
  apply preserves_bind; [apply _|apply preserves_gets; apply _|]. intros keys. apply preserves_iter; apply _.
Qed.

Lemma keeping_finish_pubdata : keeping finish_slots finish_pubdata.
Proof.
  unfold finish_pubdata, report_storage_diffs, report_preimages, apply_to_all_updated_elements. keeping_steps.
  - apply (keeping_zoom _ model_slots); [done..|]. apply keeping_unwrap, keeping_persist_changes.
  - apply keeping_on_model, records_net_diffs.
  - apply keeping_on_model. by apply records_other.
  - apply keeping_on_model, records_net_diffs.
  - apply keeping_publish_diff.
  - apply keeping_on_model, records_net_accesses.
Qed.

(** *** What is checked *)

Lemma accesses_checked {E} b s it l :
  recorded b (cache s, l) → (net_accesses_iter (E:=E) s).1 = Val it → answers_checked it l.
Proof.
  intros (a & Hr & _ & _ & Hl) Hit. cbn [fst snd] in *. unfold net_accesses_iter, iter_as_storage_types in Hit.
  destruct ((items ← iter cache; mret (map as_storage_types items)) s) as [o s'] eqn:Hrun. cbn in Hit. subst o.
  apply bind_val_inv in Hrun as (items & s1 & Hiter & Hrun). injection Hrun as <- _.
  unfold iter in Hiter. apply bind_val_inv in Hiter as (keys & s2 & Hkeys & Hiter). injection Hkeys as <- <-.
  eapply Forall_impl; [exact Hl|]. intros [k d] [Hn (h & c & Hk & Hlast)]. split; [done|].
  assert (k ∈ sorted_keys (cache s)) as Hin.
  { unfold sorted_keys. rewrite merge_sort_Permutation. apply list_elem_of_fmap.
    destruct (btree (cache s) !! k) as [e|] eqn:Hb; [exists (k, e); split; [done|by apply elem_of_map_to_list]|].
    apply (hm_rep_none _ _ _ Hr) in Hb. congruence. }
  destruct (map_each_val (item_ref (F:=E) cache) (sorted_keys (cache s)) s items s1) with k as (item & Hitem & Hval); [|done|done|].
  { intros k' s''. symmetry. apply (preserves_item_ref eq). }
  destruct (item_ref (F:=E) cache k s) as [o s''] eqn:Href. cbn in Hval. subst o.
  unfold item_ref in Href. apply bind_val_inv in Href as (i & s3 & Hi & Href).
  do 2 apply bind_val_inv in Href as (? & ? & _ & Href).
  apply bind_val_inv in Href as (i' & s4 & Hi' & Href). do 2 apply bind_val_inv in Href as (? & ? & _ & Href).
  injection Href as <- _. unfold peek in Hi.
  rewrite (initial_rep (E:=unit) _ _ k Hr), Hk in Hi. cbn in Hi. rewrite Hlast in Hi. injection Hi as <- <-.
  cbn in Hi'. injection Hi' as <- _. eexists. split; [apply list_elem_of_fmap; eexists; split; [|exact Hitem]; reflexivity|].
  cbn. split; [done|]. by destruct d as [[|] v].
Qed.

(** What the oracle has answered about slots, in a run that has kept it, is checked. *)
Lemma run_answers_checked fuel c h rep it x e :
  Z.of_nat fuel + 1 < 2 ^ usize_bits → answers_kept fuel c [] (fresh_model h) →
  all_fine (run_client fuel c [] (fresh_model h)).1 →
  finish_pubdata (no_reports, (run_client fuel c [] (fresh_model h)).2) = (Val it, (rep, (x, e))) →
  (net_accesses_iter (E:=InternalError) (storage_cache x)).1 = Val it →
  answers_checked it (slot_answers (env_oracle e)).
Proof.
  intros Hfuel Hkept Hfine Hfin Hit.
  pose proof (run_client_recorded fuel c [] (fresh_model h) 0%nat) as Hrun.
  rewrite Nat.add_0_r in Hrun. specialize (Hrun (fresh_recorded fuel h Hfuel) Hkept Hfine).
  pose proof (keeping_finish_pubdata 0%nat (no_reports, (run_client fuel c [] (fresh_model h)).2) Hrun) as Hk.
  rewrite Hfin in Hk. cbn in Hk. by eapply accesses_checked.
Qed.
End Answers.
