(* ===== verification/FlatOracle.v ===== *)
(** * A block is determined by the root it starts from

    First, the preimages are those of their hashes; then, with the commitment, that two
    proved runs from one root have the same results.

    When a run is proved ([PROOF_ENV]), every entry of the cache of preimages has the hash
    it is filed under: what the oracle gives is hashed, and what the model records itself
    (new codes, delegations, account data) is filed under the hash of exactly its bytes. *)

From stdpp Require Import gmap sorting strings.
From S2P Require Import Prelude Resources U256 HistoryElement HistoryMap IoCommon FlatStorage Pubdata SystemInterface TxFormats EvmConstants Bytecode BootSystem Runner StorageCache PreimageCache AccountEntry AccountTheorems AccountCache FlatModel FlatDeterminism FlatAnswers FlatMerkle FlatCollect FlatTheorems.

Section Preimages.
Context `{Ruint} `{RuintBits} `{Usize} `{Blake2s} `{Keccak} `{BlockOracle} `{ProofEnv} `{StorageAccessPolicy}.
Hypothesis proving : PROOF_ENV = true.

Definition good {S} (v : View S) (s : S) : Prop := ∀ h b, held v s !! h = Some b → digest b = h.
Definition stays_good {S} (v : View S) (s s' : S) : Prop := good v s → good v s'.
#[local] Instance stays_good_preorder {S} (v : View S) : PreOrder (stays_good v).
Proof. split; unfold stays_good; auto. Qed.

Definition honest {S E A} (v : View S) (m : M S E A) : Prop := preserves (stays_good v) m.

Lemma honest_bind {S E A B} (v : View S) (m : M S E A) (k : A → M S E B) :
  honest v m → (∀ a, honest v (k a)) → honest v (m ≫= k).
Proof. apply preserves_bind. apply _. Qed.
Lemma honest_ret {S E A} (v : View S) (a : A) : honest v (mret a : M S E A).
Proof. apply preserves_ret. apply _. Qed.
Lemma honest_throw {S E A} (v : View S) e : honest v (throw e : M S E A).
Proof. apply preserves_throw. apply _. Qed.
Lemma honest_expect {S E A} (v : View S) (o : option A) : honest v (expect o : M S E A).
Proof. apply preserves_expect. apply _. Qed.
Lemma honest_assert {S E} (v : View S) b : honest v (assert_that b : M S E unit).
Proof. apply preserves_assert. apply _. Qed.
Lemma honest_gets {S E A} (v : View S) (f : S → A) : honest v (gets f : M S E A).
Proof. apply preserves_gets. apply _. Qed.
Lemma honest_when {S E} (v : View S) b (m : M S E unit) : honest v m → honest v (when b m).
Proof. apply preserves_when. apply _. Qed.
Lemma honest_peek {S T E F A} (v : View S) (get : S → T) (m : M T E A) : honest v (peek get m : M S F A).
Proof. apply preserves_peek. apply _. Qed.
Lemma honest_map_err {S E F A} (v : View S) (f : E → F) (m : M S E A) : honest v m → honest v (map_err f m).
Proof. apply preserves_map_err. Qed.
Lemma honest_unwrap {S E F A} (v : View S) (m : M S E A) : honest v m → honest v (unwrap m : M S F A).
Proof. apply preserves_unwrap. Qed.
Lemma honest_for_each {S E A} (v : View S) (l : list A) (body : A → M S E unit) :
  (∀ a, honest v (body a)) → honest v (for_each l body).
Proof. apply preserves_for_each. apply _. Qed.

(** What does not touch the preimages. *)
Definition unheld {S E A} (v : View S) (m : M S E A) : Prop := ∀ s, held v (m s).2 = held v s.
Lemma honest_unheld {S E A} (v : View S) (m : M S E A) : unheld v m → honest v m.
Proof. intros Hm s Hs h b. rewrite Hm. apply Hs. Qed.

Lemma honest_modify {S E} (v : View S) (f : S → S) :
  (∀ s, held v (f s) = held v s) → honest v (modify f : M S E unit).
Proof. intros Hf. by apply honest_unheld. Qed.

Lemma honest_part {S T E A} (v : View S) (get : S → T) put (m : M T E A) :
  (∀ s t, held v (put t s) = held v s) → honest v (zoom get put m).
Proof. intros Hp. apply honest_unheld. intros s. unfold zoom. destruct (m (get s)) as [o t]. apply Hp. Qed.

Lemma honest_zoom {S T E A} (v : View S) (w : View T) get put (m : M T E A) :
  (∀ s, held w (get s) = held v s) → (∀ s t, held v (put t s) = held w t) →
  honest w m → honest v (zoom get put m).
Proof.
  intros Hg Hp Hm s Hs. unfold zoom. specialize (Hm (get s)). destruct (m (get s)) as [o t].
  intros h b. cbn. rewrite Hp. apply Hm. intros h' b'. rewrite Hg. apply Hs.
Qed.

Lemma honest_with_resources {X E A} (h : X → gmap Z (list Z)) r (m : M (X * Env) E A) :
  honest (pair_view h) m → honest (pair_view h) (with_resources r m).
Proof.
  intros Hm [x e] Hs. specialize (Hm (x, mkEnv _ r (env_oracle e)) Hs). unfold with_resources. cbn [fst snd].
  destruct (m _) as [[a|err|] [x' e']]; exact Hm.
Qed.

Lemma honest_formal_infinite {X E A} (h : X → gmap Z (list Z)) (m : M (X * Env) E A) :
  honest (pair_view h) m → honest (pair_view h) (with_formal_infinite m).
Proof.
  intros Hm. apply honest_bind; [by apply honest_with_resources|]. intros [a r]. apply honest_ret.
Qed.

Lemma honest_infinitely {E A} (m : M (StorageModel * Env) E A) :
  honest model_view m → honest model_view (infinitely m).
Proof.
  intros Hm [x e] Hs. unfold infinitely, with_infinite_ergs. cbn [fst snd].
  specialize (Hm (x, mkEnv _ (mkResources (mkErgs (umax 64)) (native (env_res e))) (env_oracle e)) Hs).
  destruct (m _) as [r [x' e']]; exact Hm.
Qed.

Ltac honest_step :=
  match goal with
  | |- honest _ (mret _) => apply honest_ret
  | |- honest _ (throw _) => apply honest_throw
  | |- honest _ (expect _) => apply honest_expect
  | |- honest _ (assert_that _) => apply honest_assert
  | |- honest _ (gets _) => apply honest_gets
  | |- honest _ (_ ≫= _) => apply honest_bind; [|intros ?]
  | |- honest _ (when _ _) => apply honest_when
  | |- honest _ (for_each _ _) => apply honest_for_each; intros ?
  | |- honest _ (peek _ _) => apply honest_peek
  | |- honest _ (map_err _ _) => apply honest_map_err
  | |- honest _ (unwrap _) => apply honest_unwrap
  | |- honest _ (infinitely _) => apply honest_infinitely
  | |- honest _ (with_resources _ _) => apply honest_with_resources
  | |- honest _ (with_formal_infinite _) => apply honest_formal_infinite
  | |- honest _ (modify _) => by apply honest_modify
  | |- honest _ (match ?x with _ => _ end) => destruct x
  end.
Ltac honest_steps := repeat (honest_step || solve [eauto 2 with honest]).

Lemma or_insert_good h b s : digest b = h →
  (∀ h b, preimages s !! h = Some b → digest b = h) → ∀ h' b', preimages (or_insert h b s) !! h' = Some b' → digest b' = h'.
Proof.
  intros Hb Hs h' b'. unfold or_insert. destruct (preimages s !! h) eqn:E; [apply Hs|]. cbn.
  destruct (decide (h' = h)) as [->|Hne]; [rewrite lookup_insert_eq; by intros [= <-]|].
  rewrite lookup_insert_ne by done. apply Hs.
Qed.

Lemma honest_fetch t hash len : honest preimages_view (fetch_preimage t hash len).
Proof.
  intros [p [r o]] Hs. unfold fetch_preimage, query_preimage, mbind, M_bind. cbn.
  destruct (preimage_query hash (host o)) as [[words|e|] h]; cbn; try exact Hs.
  destruct (_ <? _); cbn; [exact Hs|]. destruct (_ <=? _); cbn; [|exact Hs].
  set (b := take _ _). rewrite proving. cbn. destruct (digest b =? hash) eqn:E; cbn; [|exact Hs].
  apply Z.eqb_eq in E. assert (good preimages_view (or_insert hash b p, mkEnv _ r
    (mkOracle _ h (slot_answers o) ((hash, words) :: preimage_answers o)))) as Hg.
  { intros h' b'. by apply or_insert_good. }
  destruct (preimages (or_insert hash b p) !! hash); cbn; exact Hg.
Qed.

Lemma honest_pc_charge m : honest preimages_view (pc_charge m).
Proof. by apply honest_part. Qed.
Create HintDb honest.
#[local] Hint Resolve honest_fetch honest_pc_charge : honest.

Lemma honest_get_preimage request : honest preimages_view (get_preimage request).
Proof. unfold get_preimage, expose_preimage. honest_steps. Qed.

Lemma honest_record_preimage request l :
  digest (concat l) = pr_hash request → honest preimages_view (record_preimage request l).
Proof.
  intros Hl. unfold record_preimage, insert_verified_preimage. honest_steps.
  - by apply honest_map_err, honest_part.
  - intros s Hs h b. by apply or_insert_good.
Qed.

(** ** The model *)

Lemma honest_on_storage {E A} (m : M (PlainStorage * Env) E A) : honest model_view (on_storage m).
Proof. by apply honest_part. Qed.
Lemma honest_on_preimages {E A} (m : M (Preimages * Env) E A) :
  honest preimages_view m → honest model_view (on_preimages m).
Proof. by apply honest_zoom. Qed.
Lemma honest_on_accounts {A} m : honest model_view (on_accounts (A:=A) m).
Proof. by apply honest_map_err, honest_part. Qed.
Lemma honest_charge_res {E} (m : M Res E unit) : honest model_view (charge_res m).
Proof. by apply honest_part. Qed.
Lemma honest_on_model_res {E A} (m : M Res E A) : honest model_view (zoom snd (λ e s, (s.1, e)) (on_res m)).
Proof. by apply honest_part. Qed.
#[local] Hint Resolve honest_on_storage honest_on_preimages honest_on_accounts honest_charge_res
  honest_on_model_res honest_get_preimage : honest.

Lemma honest_materialize_account ee a b c : honest model_view (materialize_account ee a b c).
Proof.
  unfold materialize_account, get_or_initialize_account, initialize_account, current_account,
    charge_ergs_for_cold_access, charge_native_for_cold_access, update_account.
  honest_steps.
Qed.
#[local] Hint Resolve honest_materialize_account : honest.

(** A code is filed under the hash of code, padding and artifacts. *)
Lemma honest_hashed ee code artifacts {A} (k : Z → M (StorageModel * Env) SystemError A) :
  honest model_view (k (digest (code ++ padding_for (Z.of_nat (length code)) ++ artifacts))) →
  honest model_view (compute_bytecode_hash ee code artifacts ≫= k).
Proof.
  intros Hk s Hs. unfold compute_bytecode_hash, mbind, M_bind. destruct ee; cbn; [exact Hs|].
  unfold charge_native. match goal with |- context [charge_res ?m s] => pose proof (honest_charge_res m s Hs) as Hc end.
  destruct (charge_res _ s) as [[a|e|] s']; cbn in *; [|exact Hc..]. by apply Hk.
Qed.

Lemma honest_store_bytecode ee code len : honest model_view (store_bytecode ee code len).
Proof.
  unfold store_bytecode. apply honest_bind; [apply honest_on_model_res|]. intros artifacts. cbv zeta.
  apply honest_hashed. honest_steps. apply honest_on_preimages, honest_record_preimage. cbn.
  by rewrite app_nil_r.
Qed.
#[local] Hint Resolve honest_store_bytecode : honest.

Lemma honest_store_delegation d : honest model_view (store_delegation d).
Proof.
  unfold store_delegation. cbv zeta. apply honest_bind; [apply honest_charge_res|]. intros _.
  apply honest_hashed. honest_steps. apply honest_on_preimages, honest_record_preimage. done.
Qed.
#[local] Hint Resolve honest_store_delegation : honest.

Lemma honest_transfer ee from to amount b : honest model_view (transfer_nominal_token_value_inner ee from to amount b).
Proof.
  unfold transfer_nominal_token_value_inner, transfer_step, update_nominal_token_value_inner, current_account,
    update_account, charge_native. honest_steps.
Qed.
#[local] Hint Resolve honest_transfer : honest.

Lemma honest_maybe {E A} fields f absent (m : M (StorageModel * Env) E A) :
  honest model_view m → honest model_view (maybe fields f absent m).
Proof. intros Hm. unfold maybe. honest_steps. Qed.

Lemma honest_caches {E A} (m : M StorageModel E A) :
  preserves keeps_preimages m → honest model_view (on_caches m).
Proof.
  intros Hm. apply honest_unheld. intros [x e]. specialize (Hm x). unfold on_caches, zoom. cbn.
  destruct (m x) as [o x']. cbn in *. symmetry. exact Hm.
Qed.

Lemma honest_run_model_op o : honest model_view (run_model_op o).
Proof.
  destruct o; unfold run_model_op, model_storage_read, model_storage_touch, model_storage_write,
    account_read_properties, account_touch, read_account_balance_assuming_warm, account_deploy_code,
    account_set_bytecode_details, account_set_delegation, account_mark_for_deconstruction,
    account_increment_nonce, account_transfer_nominal_token_value, account_update_nominal_token_value,
    update_nominal_token_value_inner, model_add_evm_refund, account_bytecode, charge_new_beneficiary, current_account, update_account, charge_native;
    repeat first [honest_step | apply honest_maybe | solve [eauto 2 with honest]
      | apply honest_caches; solve [apply keeps_pubdata_used | apply keeps_begin_new_tx | apply keeps_finish_tx
                                   | apply keeps_start_frame | apply keeps_finish_frame]].
Qed.

Lemma run_client_good fuel c seen s :
  good model_view s → good model_view (run_client fuel c seen s).2.
Proof.
  revert seen s. induction fuel as [|fuel IH]; intros seen s Hs; cbn [run_client]; [done|].
  destruct (c seen) as [[res o]|]; [|done].
  pose proof (honest_run_model_op o (s.1, mkEnv _ res (env_oracle s.2)) Hs) as Hg.
  destruct (run_model_op o _) as [r s']. by apply IH.
Qed.

(** ** The end of the block *)

Lemma honest_on_pubdata {A} (m : M Pubdata InternalError A) : honest diff_view (on_pubdata m).
Proof. by apply honest_part. Qed.
Lemma honest_published_bytecode a : honest diff_view (published_bytecode a).
Proof.
  apply (honest_zoom _ preimages_view); [done..|]. apply honest_map_err, honest_formal_infinite, honest_get_preimage.
Qed.
#[local] Hint Resolve honest_on_pubdata honest_published_bytecode : honest.

Lemma honest_diff_compression l r b : honest diff_view (diff_compression l r b).
Proof. unfold diff_compression. cbv zeta. honest_steps. Qed.

Lemma honest_apply_to_all {S K V E} `{Countable K} `{!KeyOrder K} (v : View S)
    (getm : S → HistoryMap K V) (f : V → V → K → M S E unit) :
  (∀ l r k, honest v (f l r k)) → honest v (apply_to_all_updated_elements getm f).
Proof. intros Hf. unfold apply_to_all_updated_elements. honest_steps. Qed.

Lemma honest_persist_changes : honest model_view persist_changes.
Proof.
  apply honest_apply_to_all. intros l r k. unfold persist_account. cbv zeta. honest_steps.
  apply honest_on_preimages, honest_record_preimage. cbn [concat pr_hash].
  by rewrite compute_hash_encoding, app_nil_r.
Qed.

Lemma honest_publishing {A} (m : M Pubdata InternalError A) : honest finish_view (publishing m).
Proof. by apply honest_part. Qed.
#[local] Hint Resolve honest_publishing : honest.

Lemma honest_publish_diff l r k : honest finish_view (publish_diff l r k).
Proof.
  unfold publish_diff. cbv zeta. honest_steps. apply (honest_zoom _ diff_view); [done..|].
  apply honest_diff_compression.
Qed.

Lemma honest_on_model {A} (m : M StorageModel InternalError A) :
  preserves keeps_preimages m → honest finish_view (on_model m).
Proof.
  intros Hm. apply honest_unheld. intros [r [x e]]. specialize (Hm x). unfold on_model, zoom. cbn.
  destruct (m x) as [o x']. cbn in *. symmetry. exact Hm.
Qed.

Lemma honest_finish_pubdata : honest finish_view finish_pubdata.
Proof.
  unfold finish_pubdata, report_storage_diffs, report_preimages. honest_steps.
  - apply (honest_zoom _ model_view); [done..|]. apply honest_unwrap, honest_persist_changes.
  - apply honest_on_model. by apply keeps_zoom.
  - apply honest_on_model, keeps_report_new_preimages.
  - apply honest_on_model. by apply keeps_zoom.
  - apply honest_apply_to_all, honest_publish_diff.
  - apply honest_on_model. by apply keeps_zoom.
Qed.

(** From a fresh model to the end of the block. *)
Lemma finish_good fuel c h rep :
  good finish_view (finish_pubdata (rep, (run_client fuel c [] (fresh_model h)).2)).2.
Proof.
  apply honest_finish_pubdata. apply (run_client_good fuel c [] (fresh_model h)).
  intros h' b Hb. cbn in Hb. by rewrite lookup_empty in Hb.
Qed.
End Preimages.

(** ** A block is determined by the root it starts from

    Puts together the operations of the storage model (FlatDeterminism.v), the preimages
    (above) and the state commitment (FlatTheorems.v): two proved runs of a
    block that start from the same root have the same results, whatever their oracles
    answer. *)

Section Oracle.
Context {R : Ruint} {B : RuintBits} {UZ : Usize} {BL : Blake2s} {BLL : Blake2sLaws} {KC : Keccak}
  {BO : BlockOracle} {PE : ProofEnv} {SP : StorageAccessPolicy}.
Variable N : nat.
Context `{!StateOracleTypes N}.

(** A run of a client on a fresh model with the oracle [h], with the end of the block: the
    results, the reports, the caches, the oracle at the end, what was accessed, and the batch applied to the
    commitment. *)
Record proved_run (self : FlatStorageCommitment) (fuel : nat) (c : client) (h : Host) (rs : results)
    (rep : Reports) (x : StorageModel) (e : Env) (it : list (WarmStorageKey * WarmStorageValue)) (b : Batch) : Prop := {
  pr_run : (run_client fuel c [] (fresh_model h)).1 = rs;
  pr_fine : all_fine rs;
  pr_finish : finish_internal N (Some self) (no_reports, (run_client fuel c [] (fresh_model h)).2)
    = (Val (Some b), (rep, (x, e)));
  pr_accesses : (net_accesses_iter (E:=InternalError) (storage_cache x)).1 = Val it;
  pr_kept : answers_kept fuel c [] (fresh_model h);
  pr_typed : Forall (λ x, flat_key x.1 ≠ 0 ∧ is_u256 (current_value x.2)) it;
  pr_slots : next_free_slot self + Z.of_nat (length it) < 2 ^ 64
}.

(** ** The end of the block taken apart *)

Lemma net_accesses_reads {E} s : (net_accesses_iter (E:=E) s).2 = s.
Proof.
  symmetry. enough (preserves eq (net_accesses_iter (E:=E))) as Hp by apply Hp.
  unfold net_accesses_iter, iter_as_storage_types, iter.
  apply preserves_bind; [apply _| |intros ?; apply preserves_ret; apply _].
  apply preserves_bind; [apply _|apply preserves_gets; apply _|]. intros keys.
  apply preserves_map_each; [apply _|]. intros k. apply preserves_item_ref; apply _.
Qed.

Lemma finish_internal_val self s b rep x e it :
  finish_internal N (Some self) s = (Val (Some b), (rep, (x, e))) →
  (net_accesses_iter (E:=InternalError) (storage_cache x)).1 = Val it →
  ∃ e', finish_pubdata s = (Val it, (rep, (x, e')))
    ∧ slot_answers (env_oracle e') = slot_answers (env_oracle e)
    ∧ verify_and_apply_batch N it (start_batch (host (env_oracle e')) self) = (Val tt, b).
Proof.
  unfold finish_internal. intros Hf Hit. apply bind_val_inv in Hf as (it' & [rep' [x' e']] & Hp & Hf).
  apply bind_val_inv in Hf as (b' & s2 & Ha & Hb). injection Hb as -> ->. unfold apply_to_commitment in Ha. cbn in Ha.
  destruct (verify_and_apply_batch N it' _) as [[[]|err|] b''] eqn:Hv; try done. injection Ha as -> -> -> He.
  exists e'. assert (it' = it) as ->; [|by rewrite <- He].
  unfold finish_pubdata in Hp. do 5 apply bind_val_inv in Hp as (? & ? & _ & Hp).
  apply bind_val_inv in Hp as (? & [r6 [m6 e6]] & _ & Hp). unfold on_model, zoom in Hp. cbn in Hp.
  pose proof (net_accesses_reads (E:=InternalError) (storage_cache m6)) as Hreads.
  destruct (net_accesses_iter (storage_cache m6)) as [o z] eqn:Hn. cbn in Hreads. subst z.
  destruct m6 as [sc pc ac]. cbn in *. injection Hp as -> -> <- ->. cbn in Hit. rewrite Hn in Hit. by injection Hit.
Qed.

(** ** Runs believe the same *)

Lemma slots_agree kv it1 it2 l1 l2 k d1 d2 :
  Forall (agrees kv) it1 → Forall (agrees kv) it2 → answers_checked it1 l1 → answers_checked it2 l2 →
  (k, d1) ∈ l1 → (k, d2) ∈ l2 → d1 = d2.
Proof.
  unfold answers_checked. rewrite !Forall_forall. intros A1 A2 C1 C2 H1 H2.
  destruct (C1 _ H1) as (Z1 & v1 & I1 & E1 & N1), (C2 _ H2) as (Z2 & v2 & I2 & E2 & N2).
  specialize (A1 _ I1). specialize (A2 _ I2). unfold agrees in *. cbn in *. rewrite N1, E1 in A1. rewrite N2, E2 in A2.
  destruct d1 as [[|] w1], d2 as [[|] w2]; cbn in *.
  - by rewrite Z1, Z2.
  - destruct A1 as [A1 _]. congruence.
  - destruct A2 as [A2 _]. congruence.
  - congruence.
Qed.

Lemma collision_free_weaken (P Q : list Z → Prop) : (∀ x, P x → Q x) → collision_free Q → collision_free P.
Proof. intros HPQ HQ x y Hx Hy. apply HQ; auto. Qed.

(** The slots that are new to the tree. *)
Definition new_slots (it : list (WarmStorageKey * WarmStorageValue)) : nat :=
  length (filter (λ x, is_new_write x = true) it).

(** What the end of a run has checked. *)
Lemma proved_run_sound self T kv fuel c h rs rep x e it b :
  root self = tree_hash T N 0 → flat_state T (next_free_slot self) kv →
  proved_run self fuel c h rs rep x e it b →
  collision_free (λ y, y ∈ hashed b ∨ tree_input N T y) →
  Forall (agrees kv) it
  ∧ next_free_slot (commitment b) = next_free_slot self + Z.of_nat (new_slots it)
  ∧ ∃ T', root (commitment b) = tree_hash T' N 0
      ∧ flat_state T' (next_free_slot (commitment b)) (write_values kv it).
Proof.
  intros Hroot flat [_ _ Hf Hit _ Ht Hsl] Hcf.
  destruct (finish_internal_val _ _ _ _ _ _ _ Hf Hit) as (e' & _ & _ & Hv).
  by apply (batch_sound_run N (host (env_oracle e') : OState (StateOracle:=block_state_oracle)) self it T kv Hroot flat Ht Hsl tt b Hv).
Qed.

(** The hashes that must not collide: those of the two batches, of the committed tree, and
    of the preimages. *)
Definition block_inputs (T : Tree) (b1 b2 : Batch) (x1 x2 : StorageModel) (y : list Z) : Prop :=
  y ∈ hashed b1 ∨ y ∈ hashed b2 ∨ tree_input N T y
  ∨ (∃ k, preimages (preimages_cache x1) !! k = Some y) ∨ (∃ k, preimages (preimages_cache x2) !! k = Some y).

Lemma runs_compatible kv T it1 it2 b1 b2 x1 x2 e1 e2 rep1 rep2 :
  Forall (agrees kv) it1 → Forall (agrees kv) it2 →
  answers_checked it1 (slot_answers (env_oracle e1)) → answers_checked it2 (slot_answers (env_oracle e2)) →
  good finish_view (rep1, (x1, e1)) → good finish_view (rep2, (x2, e2)) →
  collision_free (block_inputs T b1 b2 x1 x2) →
  compatible finish_view (rep1, (x1, e1)) (rep2, (x2, e2)).
Proof.
  intros A1 A2 C1 C2 G1 G2 Hcf. split.
  - intros k d1 d2. by apply (slots_agree kv it1 it2).
  - intros k y1 y2 H1 H2. cbn in H1, H2. apply Hcf; unfold block_inputs; [naive_solver..|].
    by rewrite (G1 k y1), (G2 k y2).
Qed.

(** C3: The storage model cannot be misled.  Let a client, the bootloader with its
    transactions and contracts or any other, use a fresh storage model of a proving build,
    for fewer operations than a [usize] can count; let the block be finished against a
    root that commits to the map [kv].  Two such runs that are not stopped by a panic or
    an internal error, and in which no operation has run out of resources between an
    answer of the oracle about a slot and the caching of it, have the same results of
    every operation, the same resources left, the same pubdata and diffs and the same
    caches, whatever the two oracles have answered; every value they started from is that
    of [kv], and both new roots commit to [kv] with the values written.  The derived keys
    are not 0, the values are 256-bit numbers and the tree has room for the slots.
    Hashes are assumed not to collide among the inputs hashed in the two runs and those
    of the committed tree. *)
Theorem block_determined_by_root (self : FlatStorageCommitment) (T : Tree) (kv : gmap Z Z) (fuel : nat)
    (c : client) (h1 h2 : Host) (rs1 rs2 : results) (rep1 rep2 : Reports) (x1 x2 : StorageModel) (e1 e2 : Env)
    (it1 it2 : list (WarmStorageKey * WarmStorageValue)) (b1 b2 : Batch) :
  PROOF_ENV = true → Z.of_nat fuel + 1 < 2 ^ usize_bits →
  root self = tree_hash T N 0 → flat_state T (next_free_slot self) kv →
  proved_run self fuel c h1 rs1 rep1 x1 e1 it1 b1 →
  proved_run self fuel c h2 rs2 rep2 x2 e2 it2 b2 →
  collision_free (block_inputs T b1 b2 x1 x2) →
  rs1 = rs2 ∧ rep1 = rep2 ∧ x1 = x2 ∧ it1 = it2
  ∧ Forall (agrees kv) it1
  ∧ Forall (λ b, ∃ T', root (commitment b) = tree_hash T' N 0
      ∧ flat_state T' (next_free_slot self + Z.of_nat (new_slots it1)) (write_values kv it1)) [b1; b2].
Proof.
  intros Hproof Hfuel Hroot flat P1 P2 Hcf.
  destruct (proved_run_sound _ _ _ _ _ _ _ _ _ _ _ _ Hroot flat P1) as (A1 & S1 & T1 & R1 & F1).
  { eapply collision_free_weaken, Hcf. unfold block_inputs. naive_solver. }
  destruct (proved_run_sound _ _ _ _ _ _ _ _ _ _ _ _ Hroot flat P2) as (A2 & S2 & T2 & R2 & F2).
  { eapply collision_free_weaken, Hcf. unfold block_inputs. naive_solver. }
  destruct P1 as [Q1 W1 K1 I1 C1 _ _], P2 as [Q2 W2 K2 I2 C2 _ _].
  destruct (finish_internal_val _ _ _ _ _ _ _ K1 I1) as (g1 & D1 & L1 & _).
  destruct (finish_internal_val _ _ _ _ _ _ _ K2 I2) as (g2 & D2 & L2 & _).
  pose proof (finish_good Hproof fuel c h1 no_reports) as G1. pose proof (finish_good Hproof fuel c h2 no_reports) as G2.
  rewrite D1 in G1. rewrite D2 in G2. rewrite <- Q1 in W1. rewrite <- Q2 in W2.
  pose proof (run_answers_checked _ _ _ _ _ _ _ Hfuel C1 W1 D1 I1) as B1.
  pose proof (run_answers_checked _ _ _ _ _ _ _ Hfuel C2 W2 D2 I2) as B2.
  assert (Hcomp : compatible finish_view (rep1, (x1, g1)) (rep2, (x2, g2))) by (by apply (runs_compatible kv T it1 it2 b1 b2)).
  destruct det_finish_pubdata as [Hg Hd].
  set (s1 := (run_client fuel c [] (fresh_model h1)).2) in *. set (s2 := (run_client fuel c [] (fresh_model h2)).2) in *.
  pose proof (Hg (no_reports, s1)) as Hg1. pose proof (Hg (no_reports, s2)) as Hg2.
  rewrite D1 in Hg1. rewrite D2 in Hg2.
  destruct (run_client_det fuel c [] (fresh_model h1) (fresh_model h2)) as [Hrs [Hsame Hres]].
  - by split.
  - exact W1.
  - exact W2.
  - exact (compatible_grows finish_view _ _ _ _ Hg1 Hg2 Hcomp).
  - specialize (Hd (no_reports, s1) (no_reports, s2)). rewrite D1, D2 in Hd.
    destruct Hd as [E1 [E2 _]]; [split; [cbn; f_equal; exact Hsame|exact Hres]|done|done|exact Hcomp|].
    cbn in E1, E2. simplify_eq. split_conj; try done.
    repeat constructor; [exists T1; split; [done|by rewrite <- S1]|exists T2; split; [done|by rewrite <- S2]].
Qed.
End Oracle.
