(* ===== verification/FlatWitnesses.v ===== *)
(** * The commitment to the state and the storage model: examples

    A tree of depth three with two keys besides the markers, a host that answers
    truthfully, and a batch with each kind of read and write.  The hasher is a
    polynomial, whose digests do not collide in the example. *)

From stdpp Require Import gmap sorting strings.
From S2P Require Import Prelude Resources U256 HistoryElement HistoryMap IoCommon FlatStorage FlatMerkle FlatCollect FlatTheorems Pubdata SystemInterface TxFormats BootSystem StorageCache PreimageCache AccountEntry AccountCache FlatModel FlatDeterminism FlatAnswers FlatOracle.

Module FlatExample.
#[local] Instance usize : Usize := {| usize_bits := 32; usize_cases := or_introl eq_refl |}.
#[local] Instance toy : Blake2s := λ x, be_bytes 32 (foldl (λ h b, Z.land (h * 389 + b + 1) 1048575) 0 x).

Definition depth : nat := 3.
Definition slot_key (k : Z) : WarmStorageKey := mkStorageKey 4096 k.

(** The slot of the account [4097], and what it stands for: an account with nonce 5 and
    balance 100. *)
Definition account_key : WarmStorageKey := mkStorageKey 0x8003 4097.
Definition account_bytes : list Z := repeat 0 8 ++ be_bytes 8 5 ++ be_bytes 32 100 ++ repeat 0 76.
Definition account_hash : Z := digest account_bytes.

(** Key [1] and the account are in the tree. *)
Definition leaves : list FlatStorageLeaf := [
  mkLeaf 0 0 (if flat_key (slot_key 1) <? flat_key account_key then 2 else 3);
  mkLeaf MAX_KEY 0 1;
  mkLeaf (flat_key (slot_key 1)) 7 (if flat_key (slot_key 1) <? flat_key account_key then 3 else 1);
  mkLeaf (flat_key account_key) account_hash (if flat_key (slot_key 1) <? flat_key account_key then 1 else 2)
].
Definition slots : Z := 4.
Definition tree : Tree := λ i, if 0 <=? i then default empty_leaf (leaves !! Z.to_nat i) else empty_leaf.

(** *** The host *)

Definition best_below (k : Z) (best i : Z) : Z :=
  let key := leaf_key (tree i) in
  if (key <? k) && (leaf_key (tree best) <? key) then i else best.

Definition proof_of (i : Z) : LeafProof :=
  mkLeafProof i (tree i) ((λ l, tree_hash tree l (sibling_index (i / 2 ^ Z.of_nat l))) <$> seq 0 depth).

#[local] Instance host : StateOracle := {|
  OState := unit;
  previous_index_query k := mret (foldl (best_below k) 0 (seqZ 0 slots));
  exact_index_query k := mret (default 0 (list_find (λ i, leaf_key (tree i) = k) (seqZ 0 slots) ≫= λ x, Some x.2));
  proof_for_index_query i := if (0 <=? i) && (i <? 2 ^ Z.of_nat depth) then mret (proof_of i) else throw (internal_error "index")
|}.

(** *** The batch *)

Definition value (initial current : Z) (fresh : bool) : WarmStorageValue := mkStorageValue initial current true fresh.
Definition source : list (WarmStorageKey * WarmStorageValue) := [
  (slot_key 1, value 7 7 false);
  (account_key, value account_hash 10 false);
  (slot_key 3, value 0 11 true);
  (slot_key 4, value 0 0 true)
].
Definition before : FlatStorageCommitment := mkCommitment (tree_hash tree depth 0) slots.
Definition run := verify_and_apply_batch depth source (start_batch tt before).
Definition final : Batch := run.2.

#[local] Instance toy_bytes : Blake2sLaws.
Proof. intros x. split; [apply length_be_bytes|]. apply Forall_reverse, le_bytes_u8. Qed.

Lemma in_slots (P : Z → Prop) (dec : ∀ i, Decision (P i)) (m : Z) :
  bool_decide (Forall P (seqZ 0 m)) = true → ∀ i, 0 ≤ i < m → P i.
Proof. intros HP%bool_decide_eq_true_1 i Hi. rewrite Forall_forall in HP. apply HP, elem_of_seqZ. lia. Qed.

#[local] Instance leaf_wf_dec x : Decision (leaf_wf x).
Proof. unfold leaf_wf, in_width. apply _. Defined.

Lemma tree_above i : slots ≤ i → tree i = empty_leaf.
Proof.
  intros Hi. unfold tree, slots in *. rewrite (proj2 (Z.leb_le _ _)) by lia. rewrite lookup_ge_None_2; [done|]. cbn. lia.
Qed.

Lemma tree_wf i : leaf_wf (tree i).
Proof.
  destruct (decide (0 ≤ i < slots)) as [Hi|Hi].
  - revert i Hi. apply (in_slots (λ i, leaf_wf (tree i)) _). vm_compute. reflexivity.
  - destruct (decide (slots ≤ i)); [rewrite tree_above by done|unfold tree; rewrite (proj2 (Z.leb_gt _ _)) by lia];
      apply (bool_decide_eq_true_1 _); vm_compute; reflexivity.
Qed.

#[local] Instance host_types : StateOracleTypes depth.
Proof.
  intros i o p o'. cbn -[Z.pow proof_of]. destruct (Z.leb_spec 0 i), (Z.ltb_spec i (2 ^ Z.of_nat depth)); try done. intros [= <- _].
  split; [done|]. split; [apply tree_wf|]. apply Forall_fmap, Forall_forall. intros l _. apply tree_hash_range.
Qed.

Definition contents : gmap Z Z := list_to_map ((λ i, (leaf_key (tree i), leaf_value (tree i))) <$> seqZ 0 slots).

Abbreviation key i := (leaf_key (tree i)).

Lemma tree_ordered i : 0 ≤ i < slots → i ≠ MAX_KEY_LEAF_MARKER_IDX →
  0 ≤ leaf_next (tree i) < slots ∧ key i < key (leaf_next (tree i))
  ∧ Forall (λ m, key i < key m → key (leaf_next (tree i)) ≤ key m) (seqZ 0 slots).
Proof.
  apply (in_slots (λ i, i ≠ MAX_KEY_LEAF_MARKER_IDX → 0 ≤ leaf_next (tree i) < slots ∧ key i < key (leaf_next (tree i))
    ∧ Forall (λ m, key i < key m → key (leaf_next (tree i)) ≤ key m) (seqZ 0 slots)) _).
  vm_compute. reflexivity.
Qed.

Lemma keys_distinct i : 0 ≤ i < slots → Forall (λ j, key i = key j → i = j) (seqZ 0 slots).
Proof. apply (in_slots (λ i, Forall (λ j, key i = key j → i = j) (seqZ 0 slots)) _). vm_compute. reflexivity. Qed.

Lemma tree_flat : flat_state tree slots contents.
Proof.
  assert (∀ i j, 0 ≤ i < slots → 0 ≤ j < slots → key i = key j → i = j) as Hinj.
  { intros i j Hi Hj. pose proof (keys_distinct i Hi) as Hd. rewrite Forall_forall in Hd. apply Hd, elem_of_seqZ. lia. }
  split; [done|apply tree_wf|apply tree_above|vm_compute; reflexivity|vm_compute; reflexivity|done| |].
  - intros i Hi Hi1. destruct (tree_ordered i Hi Hi1) as (H1 & H2 & H3). split; [done|]. split; [done|].
    intros m Hm. rewrite Forall_forall in H3. apply H3, elem_of_seqZ. lia.
  - intros k v. unfold contents. rewrite <- elem_of_list_to_map, list_elem_of_fmap.
    + split; [intros (i & [= -> ->] & Hi%elem_of_seqZ); exists i; split_conj; try done; lia|].
      intros (i & Hi & <- & <-). exists i. split; [done|]. apply elem_of_seqZ. lia.
    + rewrite <- list_fmap_compose. apply NoDup_fmap_2_strong; [|apply NoDup_seqZ].
      intros i j Hi%elem_of_seqZ Hj%elem_of_seqZ. cbn. apply Hinj; lia.
Qed.

(** *** No collision *)

Definition tree_inputs : list (list Z) :=
  ((λ k, leaf_bytes (tree k)) <$> seqZ 0 8)
  ++ (l ← seq 0 depth; (λ k, node_bytes (tree_hash tree l (2 * k)) (tree_hash tree l (2 * k + 1))) <$> seqZ 0 (2 ^ (Z.of_nat depth - 1 - Z.of_nat l))).

Lemma elem_of_tree_inputs x : tree_input depth tree x → x ∈ tree_inputs.
Proof.
  intros [(k & Hk & ->)|(l & k & Hl & Hk & ->)]; apply elem_of_app.
  - left. apply (list_elem_of_fmap_2 (λ k, leaf_bytes (tree k))), elem_of_seqZ. change (2 ^ Z.of_nat depth) with 8 in Hk. lia.
  - right. apply list_elem_of_bind. exists l. split; [|apply elem_of_seq; lia].
    apply (list_elem_of_fmap_2 (λ k, node_bytes (tree_hash tree l (2 * k)) (tree_hash tree l (2 * k + 1)))), elem_of_seqZ. lia.
Qed.

Definition no_collisions (inputs : list (list Z)) : bool :=
  let hashed := (λ x, (digest x, x)) <$> inputs in
  forallb (λ a : Z * list Z, forallb (λ b : Z * list Z, negb (a.1 =? b.1) || bool_decide (a.2 = b.2)) hashed) hashed.

Lemma no_collisions_free inputs (P : list Z → Prop) : no_collisions inputs = true → (∀ x, P x → x ∈ inputs) → collision_free P.
Proof.
  intros Hc HP x y Hx%HP Hy%HP E. unfold no_collisions in Hc. rewrite forallb_forall in Hc.
  specialize (Hc (digest x, x)). rewrite forallb_forall in Hc. ospecialize (Hc _ (digest y, y) _).
  - apply list_elem_of_In. by apply (list_elem_of_fmap_2 (λ x, (digest x, x))).
  - apply list_elem_of_In. by apply (list_elem_of_fmap_2 (λ x, (digest x, x))).
  - cbn [fst snd] in Hc. rewrite E, Z.eqb_refl in Hc. cbn [negb orb] in Hc. by apply bool_decide_eq_true_1 in Hc.
Qed.

Lemma no_collision_example : collision_free (λ x, x ∈ hashed final ∨ tree_input depth tree x).
Proof.
  apply (no_collisions_free (hashed final ++ tree_inputs)); [vm_cast_no_check (eq_refl true)|].
  intros x [Hx|Hx]; apply elem_of_app; [by left|right; by apply elem_of_tree_inputs].
Qed.

Lemma run_accepted : run.1 = Val tt.
Proof. vm_compute. reflexivity. Qed.

Lemma run_final : run = (Val tt, final).
Proof. unfold final. rewrite <- run_accepted. apply surjective_pairing. Qed.

Lemma source_typed : Forall (λ x, flat_key x.1 ≠ 0 ∧ is_u256 (current_value x.2)) source.
Proof. repeat constructor; vm_compute; congruence. Qed.

(** The theorem applies to the example. *)
Lemma verify_and_apply_batch_sound_witness :
  run = (Val tt, final) ∧ Forall (agrees contents) source
  ∧ next_free_slot (commitment final) = next_free_slot before + Z.of_nat (length (filter (λ x, is_new_write x = true) source))
  ∧ ∃ T', root (commitment final) = tree_hash T' depth 0
      ∧ flat_state T' (next_free_slot (commitment final)) (write_values contents source).
Proof.
  split; [exact run_final|].
  refine (verify_and_apply_batch_sound depth tt before source tree contents final _ tree_flat source_typed _ run_final no_collision_example).
  - unfold before. reflexivity.
  - unfold before, source. cbn [next_free_slot length]. unfold slots. lia.
Defined.
End FlatExample.

(** ** A block is determined by the root: an example

    Two hosts over the tree of FlatWitnesses.v, one of which pads preimages with a word
    that is not there; a transaction that reads a slot, writes a new one, increments the
    nonce of an account and sends value from it to another that does not exist yet. *)

Module OracleExample.
Import FlatExample.
#[local] Existing Instance ruint_ref.
#[local] Existing Instance ruint_bits_ref.
#[local] Existing Instance usize.
#[local] Existing Instance toy.
#[local] Existing Instance toy_bytes.
#[local] Existing Instance EthereumLikeStorageAccessCostModel.
#[local] Instance keccak : Keccak := λ x, be_bytes 32 (Z.of_nat (length x)).
#[local] Instance proving : ProofEnv := true.

(** The words of an account, with one more word of zeros or of ones. *)
Fixpoint words_of (n : nat) (bytes : list Z) : list Z :=
  match n with
  | O => []
  | S n => of_le_bytes (take 4 bytes) :: words_of n (drop 4 bytes)
  end.

Definition position (k : Z) : option Z := snd <$> list_find (λ i, leaf_key (tree i) = k) (seqZ 0 slots).

#[local] Instance io : IoOracle := {|
  Host := bool;
  initial_storage_slot_query k := mret (match position (flat_key k) with
    | Some i => mkSlotData false (leaf_value (tree i))
    | None => mkSlotData true 0
    end);
  preimage_query hash padded := (Val (words_of 31 account_bytes ++ if padded : bool then [0xffffffff] else []), padded)
|}.
#[local] Instance blocks : BlockOracle := {|
  bo_previous_index k := mret (foldl (best_below k) 0 (seqZ 0 slots));
  bo_exact_index k := mret (default 0 (position k));
  bo_proof_for_index i :=
    if (0 <=? i) && (i <? 2 ^ Z.of_nat depth) then mret (proof_of i) else throw (internal_error "index")
|}.

Definition plenty : Res := mk_res (2 ^ 60) (2 ^ 60).

(** The transaction: whatever the results, the next operation. *)
Definition script : list model_op := [
  MBeginTx; MStartFrame;
  MStorageRead EVM 4096 1;
  MStorageWrite EVM 4096 3 11;
  MIncrementNonce NoEE 4097 1;
  MTransfer NoEE 4097 4098 40;
  MFinishFrame None; MFinishTx
].
Definition transaction : client := λ seen, o ← script !! length seen; Some (plenty, o).

(** The run of the transaction, and the end of the block. *)
Abbreviation Ended := (results * (StorageModel * Env))%type.
Abbreviation Finished := (outcome InternalError (option Batch) * (Reports * (StorageModel * Env)))%type.
Abbreviation ended h := (run_client 8 transaction [] (fresh_model h)).
Definition finish (e : Ended) : Finished := finish_internal depth (Some before) (no_reports, e.2).

Definition accesses_of (f : Finished) : list (WarmStorageKey * WarmStorageValue) :=
  match (net_accesses_iter (E:=InternalError) (storage_cache f.2.2.1)).1 with Val it => it | _ => [] end.
Definition batch_of (h : bool) (f : Finished) : Batch :=
  match f.1 with Val (Some b) => b | _ => start_batch (h : OState) before end.

(** *** The conditions of the theorem, evaluated once per run *)

Definition has_returned {S E} (r : outcome S E) : bool := match r with Val _ => true | _ => false end.

Definition typed (key value : Z) : bool := negb (key =? 0) && (0 <=? value) && (value <? 2 ^ 256).

Definition finish_ok (f : Finished) : bool :=
  match f.1 with Val (Some _) => true | _ => false end
  && has_returned (net_accesses_iter (E:=InternalError) (storage_cache f.2.2.1)).1
  && (let it := accesses_of f in
      forallb (λ x, typed (flat_key x.1) (current_value x.2)) it && (length it <=? 100)%nat).
Definition run_ok (e : Ended) : bool := forallb (λ x, has_returned x.1) e.1 && finish_ok (finish e).

#[local] Instance block_types : StateOracleTypes depth.
Proof.
  intros i o p o'. cbn -[Z.pow proof_of]. destruct (Z.leb_spec 0 i), (Z.ltb_spec i (2 ^ Z.of_nat depth)); try done. intros [= <- _].
  split; [done|]. split; [apply tree_wf|]. apply Forall_fmap, Forall_forall. intros l _. apply tree_hash_range.
Qed.

Lemma typed_true key value : typed key value = true → key ≠ 0 ∧ is_u256 value.
Proof. unfold typed. rewrite !andb_true_iff, negb_true_iff, Z.eqb_neq. unfold is_u256. lia. Qed.

Lemma typed_slots it : forallb (λ x, typed (flat_key x.1) (current_value x.2)) it = true →
  Forall (λ x, flat_key x.1 ≠ 0 ∧ is_u256 (current_value x.2)) it.
Proof.
  rewrite forallb_forall. intros Hv. apply Forall_forall. intros x Hx%list_elem_of_In. by apply typed_true, Hv.
Qed.

Lemma fine_results (rs : results) : forallb (λ x, has_returned x.1) rs = true → all_fine rs.
Proof.
  rewrite forallb_forall. intros Hv. apply Forall_forall. intros [r res] Hr%list_elem_of_In. apply Hv in Hr. by destruct r.
Qed.

(** Nothing has run out of resources. *)
Lemma paid_results (rs : results) : forallb (λ x, has_returned x.1) rs = true →
  Forall (λ x, match x.1 with Err e => out_of_resources e = false | _ => True end) rs.
Proof.
  rewrite forallb_forall. intros Hv. apply Forall_forall. intros [r res] Hr%list_elem_of_In. apply Hv in Hr. by destruct r.
Qed.

Lemma run_ok_proved h e : e = ended h → run_ok e = true →
  proved_run depth before 8 transaction h e.1 (finish e).2.1 (finish e).2.2.1 (finish e).2.2.2
    (accesses_of (finish e)) (batch_of h (finish e)).
Proof.
  intros He Hok. unfold run_ok, finish_ok in Hok. cbv zeta in Hok. rewrite !andb_true_iff, Nat.leb_le in Hok.
  destruct Hok as [Hr [[Hb Ha] [Ht Hl]]].
  split; [by rewrite He|by apply fine_results| | |rewrite He in Hr; by apply paid_kept, paid_results|by apply typed_slots|].
  - rewrite <- He. change (finish_internal _ _ _) with (finish e). unfold batch_of. revert Hb.
    by destruct (finish e) as [[[b|]|err|] [rep [x e']]].
  - unfold accesses_of. revert Ha. by destruct (net_accesses_iter _) as [[| |] ?].
  - unfold before, slots. cbn [next_free_slot]. lia.
Qed.

Lemma example_ok h : run_ok (ended h) = true.
Proof. destruct h; vm_cast_no_check (eq_refl true). Qed.

(** Everything hashed. *)
Definition inputs_of (f t : Finished) : list (list Z) :=
  hashed (batch_of false f) ++ hashed (batch_of true t) ++ tree_inputs
  ++ (map_to_list (preimages (preimages_cache f.2.2.1))).*2 ++ (map_to_list (preimages (preimages_cache t.2.2.1))).*2.

Lemma elem_of_five (a b c d e : list (list Z)) y :
  y ∈ a ∨ y ∈ b ∨ y ∈ c ∨ y ∈ d ∨ y ∈ e → y ∈ a ++ b ++ c ++ d ++ e.
Proof. rewrite !elem_of_app. tauto. Qed.

Lemma elem_of_values (m : gmap Z (list Z)) y : (∃ k, m !! k = Some y) → y ∈ (map_to_list m).*2.
Proof. intros [k Hk]. apply list_elem_of_fmap. exists (k, y). split; [done|]. by apply elem_of_map_to_list. Qed.

Lemma no_collision_of f t : no_collisions (inputs_of f t) = true →
  collision_free (block_inputs depth tree (batch_of false f) (batch_of true t) f.2.2.1 t.2.2.1).
Proof.
  intros Hc. apply (no_collisions_free _ _ Hc).
  intros y [?|[?|[?|[?|?]]]]; apply elem_of_five;
    [by left|by right; left|right; right; left; by apply elem_of_tree_inputs
    |right; right; right; left; by apply elem_of_values|right; right; right; right; by apply elem_of_values].
Qed.

Lemma example_no_collision : no_collisions (inputs_of (finish (ended false)) (finish (ended true))) = true.
Proof. vm_cast_no_check (eq_refl true). Qed.

Lemma distinct_by {A} (f : A → bool) x y : f x && negb (f y) = true → x ≠ y.
Proof. intros Hf ->. by destruct (f y). Qed.

(** The two runs of the example, whose oracles differ, have the same results. *)
Lemma block_determined_by_root_witness :
  let f := finish (ended false) in let t := finish (ended true) in
  preimage_answers (env_oracle f.2.2.2) ≠ preimage_answers (env_oracle t.2.2.2)
  ∧ (ended false).1 = (ended true).1 ∧ f.2.1 = t.2.1 ∧ f.2.2.1 = t.2.2.1
  ∧ accesses_of f = accesses_of t ∧ Forall (agrees contents) (accesses_of f)
  ∧ Forall (λ b, ∃ T', root (commitment b) = tree_hash T' depth 0
      ∧ flat_state T' (next_free_slot before + Z.of_nat (new_slots (accesses_of f))) (write_values contents (accesses_of f)))
      [batch_of false f; batch_of true t].
Proof.
  intros f t. split.
  - apply (distinct_by (existsb (λ x, Nat.eqb (length x.2) 31))). vm_cast_no_check (eq_refl true).
  - exact (block_determined_by_root depth before tree contents 8 transaction false true _ _ _ _ _ _ _ _ _ _ _ _
      eq_refl eq_refl eq_refl tree_flat (run_ok_proved false _ eq_refl (example_ok false)) (run_ok_proved true _ eq_refl (example_ok true))
      (no_collision_of f t example_no_collision)).
Defined.
End OracleExample.

(** ** An answer that is not checked

    The oracle says of a slot that it is new, which doubles the native price of reading
    it; the caller cannot pay, so that the slot is not cached and the answer is never
    compared with the tree.  A read that succeeds with one oracle runs out of native with
    the other, and the block is accepted with both: this is what [answers_kept]
    excludes. *)
Module UncheckedExample.
Import FlatExample.
#[local] Existing Instance ruint_ref.
#[local] Existing Instance ruint_bits_ref.
#[local] Existing Instance usize.
#[local] Existing Instance toy.
#[local] Existing Instance EthereumLikeStorageAccessCostModel.
#[local] Instance keccak : Keccak := λ x, be_bytes 32 (Z.of_nat (length x)).
#[local] Instance proving : ProofEnv := true.

#[local] Instance io : IoOracle := {|
  Host := bool;
  initial_storage_slot_query k lies := (Val (if lies then mkSlotData true 0 else mkSlotData false 7), lies);
  preimage_query _ := throw (internal_error "no accounts")
|}.
#[local] Instance blocks : BlockOracle := {|
  bo_previous_index k := mret (foldl (best_below k) 0 (seqZ 0 slots));
  bo_exact_index k := mret (default 0 (OracleExample.position k));
  bo_proof_for_index i :=
    if (0 <=? i) && (i <? 2 ^ Z.of_nat depth) then mret (proof_of i) else throw (internal_error "index")
|}.

Definition script : list model_op := [MBeginTx; MStorageRead EVM 4096 1; MFinishTx].
Definition reader : client := λ seen, o ← script !! length seen; Some (mk_res (2 ^ 60) 150000, o).
Definition ended (lies : bool) := run_client 3 reader [] (fresh_model lies).
Definition accepted (lies : bool) : bool :=
  match (finish_internal depth (Some before) (no_reports, (ended lies).2)).1 with Val (Some _) => true | _ => false end.

Lemma lying_oracle_undetected :
  fst <$> (ended false).1 !! 1%nat = Some (Val (RNumber 7))
  ∧ fst <$> (ended true).1 !! 1%nat = Some (Err (SLeafRuntime (FatalRuntime OutOfNativeResources)))
  ∧ accepted false = true ∧ accepted true = true.
Proof. repeat split; vm_compute; reflexivity. Qed.
End UncheckedExample.
